(* ===== verification/_CoqProject ===== *)
-Q . S2P
Prelude.v
Sanitize.v
Capture.v
Exec.v
Drain.v
Grace.v
Text.v
Shell.v
ShellRun.v
Hex.v
Capabilities.v
Ids.v
Errors.v
GitRetry.v
Wire.v
GitParse.v
Git.v
Script.v
DerivedGit.v
DerivedFs.v
DerivedSearch.v
DerivedService.v
Units.v
Spec.v
Owned.v
Contract.v
Config.v
Catalog.v
CatalogSpec.v
Race.v
Frames.v
Tar.v
Encoded.v
Control.v
Discovery.v
Supervisor.v
Methods.v
Client.v
HostEvents.v
RemoteExec.v
Server.v
Fence.v
Sentinel.v
Session.v
StreamedStdin.v
HostIds.v
Host.v
DockerApi.v
DockerSim.v
DockerPlan.v
Docker.v
DockerCleanup.v
DockerCreate.v
DockerRun.v
DockerOneShot.v
DaytonaApi.v
DaytonaSim.v
DaytonaLoops.v
DaytonaPlan.v
DaytonaSnapshots.v
Daytona.v
DaytonaCleanup.v
DaytonaLife.v
DaytonaCreate.v
DaytonaHandle.v
Wait.v
Events.v
HostExec.v
Nested.v
