(* ===== verification/Prelude.v ===== *)
(** * sandbox-driver: verification development

    This library models the core of the sandbox-driver workspace (Rust, under
    [src/crates]) and proves what makes it correct. This file is its root: it
    documents the development and holds what every other file shares — the
    [result] of a fallible operation with the notations [let?], [check?] and
    [guard?] for the question mark and early returns, the tactic [reflect_bools],
    and lemmas on results, lists and maps.

    ** The program

    sandbox-driver gives one interface to sandboxes on several backends. The
    library crate [sandbox-driver] defines what a provider promises (specs,
    capabilities, errors, execution results, git operations) and implements the
    machinery between a provider and its callers: stopping commands, retaining
    and sanitizing their output, retrying git, scoping a provider to an owner,
    and, under [contract/], a catalog of configured providers that are activated
    lazily. The crate [sandbox-driver-protocol] runs a provider in a plugin
    process: errors and results cross as JSON, byte streams over a data channel of
    frames. The crates [sandbox-driver-docker], [-daytona] and [-host] are
    providers; [-cli], [-conformance] and [-testing] use or test them.

    ** Files, and what each models

    A definition keeps its Rust name where Rocq allows it, and says what it models
    where it does not.

    Output of commands, crate [sandbox-driver]:
    - [Sanitize]: [sanitize.rs], the state machine that strips terminal escapes
      from a byte stream, whole or chunk by chunk, and the reference it implements;
    - [Capture]: [capture.rs], the buffer that keeps the head and tail of output;
    - [Exec]: [exec.rs], specs, results and their completeness, stop levels.

    Stopping commands:
    - [Drain]: [drain.rs], the raw race of a draining command against term, kill,
      timeout and a failed sink;
    - [Grace]: [grace.rs], the TERM, grace, KILL ladder over any provider, then
      over [Drain].

    The provider interface:
    - [Text]: the parts of the Rust standard library the models use on strings,
      bytes and ordered maps, with JSON values;
    - [Capabilities], [Ids], [Units], [Spec]: [capabilities.rs], [id.rs],
      [contract/units.rs], [spec.rs] with the status and filter of [state.rs] and
      [provider.rs];
    - [Errors]: [error.rs], [event.rs] and [git.rs], errors, their reports, and the
      classification of git failures;
    - [Wait]: [wait.rs] and [probe.rs], the polling waits, the Bash probe and
      activation, over any sandbox; [Events]: the rest of [event.rs], the events of
      operations and the order they are observed in;
    - [GitRetry], [GitParse]: [git_retry.rs], [derived/git/parse.rs] and
      [derived/git/command.rs];
    - [Owned]: [owned.rs], over the class [SandboxProvider] of the wrapped provider,
      of which no law is assumed: a provider that records its calls shows what the
      scoping ensures.

    The derived facets, [derived/], which make a provider's facets of its commands:
    - [Shell], [Hex]: quoting, how a shell reads a line of words, and hexadecimal
      digits, which the providers' crates use as well; [ShellRun]: how a shell runs a
      line, its pipelines, redirections and substitutions, over tools that are given;
    - [Script]: an operation as the tree of the commands it runs, each with what it
      goes on with for every answer;
    - [Git], [DerivedGit]: the options of [git.rs] with their validation; the
      hardened command, the operations, clones and credentials of [derived/git];
    - [DerivedFs]: [derived/fs.rs], with the defaults of the trait of [fs.rs];
    - [DerivedSearch], [DerivedService]: [derived/search.rs] and
      [derived/service.rs].

    The catalog, [contract/]:
    - [Contract]: errors, descriptors, workload specs, validation and admission;
    - [Config]: provider entries, references, schemas, the registry, launch
      environments;
    - [Catalog]: every operation of [catalog.rs] as a state-passing computation
      over the class [Outside] (factories, runtimes, secrets, environments), whose
      answers depend on all calls before them; [CatalogSpec]: its properties;
    - [Race]: activation against shutdown as interleaved steps.

    Crate [sandbox-driver-protocol], both peers of a plugin connection:
    - [Wire]: [wire.rs], typed errors and execution results as JSON;
    - [Frames]: [channel.rs], frames and the admission of connections;
    - [Control]: [limits.rs] and [control.rs], the bounded control stream: lines,
      budgets and the three queues of messages;
    - [Methods]: the table of [methods.rs] that both peers read;
    - [Discovery]: [discovery.rs], finding and verifying an executable and the
      environment it starts from;
    - [Supervisor]: [supervisor.rs], the generations of a plugin process;
    - [Client], [HostEvents], [RemoteExec]: of [client/mod.rs] and [client/exec.rs],
      the requests in flight, the event subscription, and an operation whose bytes
      ride a data channel;
    - [Server]: of [server/], admission, the registries of execs, streams,
      processes and terminals, and the end of a connection.

    Crate [sandbox-driver-docker]:
    - [Tar]: [fs/tar.rs], the scanner of downloads and the chunked upload;
    - [DockerApi], [DockerSim]: the daemon's calls, programs made of them, the law
      of the daemon's answers, and a daemon that keeps it; with [daemon.rs];
    - [DockerPlan]: the plan of [create.rs], [inspect.rs], [config.rs] and the crate
      [sandbox-driver-docker-config];
    - [Docker]: [provider.rs], [sandbox.rs], [sidecars.rs] and what [create.rs],
      [container.rs], [image.rs] and [one_shot.rs] do to containers;
      [DockerCleanup], [DockerCreate], [DockerRun]: its properties;
    - [DockerOneShot]: the runs of [one_shot.rs], and [output.rs].

    Crate [sandbox-driver-daytona]:
    - [Encoded]: [encoded_exec.rs], a command's exact output through a transport
      that carries text only; it is built on [Sanitize], [Capture] and [Exec];
    - [Session]: [session.rs], [shell.rs] and the session transport of [exec.rs],
      the life of a command session and the merging of its two log sources;
    - [StreamedStdin]: [streamed_stdin.rs], the records of streamed input, the task
      that forwards them and the decoder in the sandbox;
    - [DaytonaApi], [DaytonaSim], [DaytonaLoops]: the service's requests and the
      constants of [lib.rs], programs made of them, the law of the service's
      answers, a service that keeps it, and programs that ask until a deadline;
    - [DaytonaPlan]: [labels.rs], [sdk.rs], the parameters, capabilities and checks
      of [provider.rs] and [sandbox.rs], and the crate
      [sandbox-driver-daytona-config];
    - [DaytonaSnapshots]: [snapshots.rs], [volumes.rs], and of the library's
      [provider.rs] the snapshot that is made usable, over a class of its provider;
    - [Daytona]: [cleanup.rs], [sandbox.rs] and [provider.rs]; [DaytonaCleanup],
      [DaytonaLife], [DaytonaCreate], [DaytonaHandle]: its properties;
    - [Nested]: of [nested/], [mod.rs], [one_shot.rs] and [operation.rs], the Docker
      daemon in a sandbox as programs of CLI commands.

    Crate [sandbox-driver-host]:
    - [Fence], [Sentinel]: [fence/sentinel.rs] and [fence/observation.rs], process
      groups, the kernel under them, their drain, and the recovery of a dead
      owner's groups;
    - [HostIds], [Host]: [registry.rs] and [lib.rs], the ids of directories, the
      durable records, and the lifecycle of the provider's sandboxes;
    - [HostExec]: [exec.rs], the environment of a command, the race against its stops,
      timeout, output and exit, and the result made of it.

    [Errors] is used by everything that fails with the library's error; [Contract]
    has the catalog's own error type, as the code does. [Grace] runs [Drain], and
    [GitRetry] retries by the classes of [Errors]; [Wire] carries [Errors];
    [Catalog] is built on [Config] and [Contract]; [Client] sends through the queues
    of [Control] by the table of [Methods], as [Server] admits; [Session] wraps
    streamed input in [StreamedStdin]'s records, captures with [Encoded]'s buffers
    and ends as [Exec] says; [Docker] is programs over
    [DockerApi], on the plans of [DockerPlan], and [DockerOneShot] captures with
    [Sanitize] and [Capture]; [Daytona] is programs over [DaytonaApi], with the
    values of [DaytonaPlan], and makes a snapshot usable by [DaytonaSnapshots] before
    it creates a sandbox of it; the derived facets are [Script]s over [Exec], quote with
    [Shell], fail with [Errors], and [DerivedGit] parses with [GitParse]; [Host] has the ids of [HostIds], and
    knows of the groups of [Fence] whether they admit work; [HostExec] has the exit of a
    command from [Sentinel].

    ** What the theorems show

    - Safety of stops: every stop sent has its cause, a termination says why the
      command ended, and the race and the ladder end within stated bounds; the ladder
      is kept by runs whose sink does not fail ([Drain], [Grace]).
    - Safety of the catalog: a workload, an attach or a destroy reaches a runtime
      only after the checks that admit it, at most once and last; in every
      reachable state active entries passed their checks and every runtime started
      is accounted for; shutdown leaves none behind, whatever the interleaving
      ([CatalogSpec], [Race], [Config]).
    - Equivalences and round trips: output sanitized in any chunks is what a
      reference without states leaves of the whole; frames,
      typed errors, a command's encoded output, archived files, raw diffs and
      object batches are read back as they were written, and a cut stream or a short batch is an error ([Sanitize],
      [Wire], [Frames], [Tar], [Encoded], [GitParse], [Config], [Capabilities]).
    - Functional behaviour: exactly what each validator accepts ([Spec],
      [Contract], [Ids], [Units]), what capture retains, which git failures are
      retried and when, what an owner's view shows, what an inventory lists.
    - The derived facets: nothing a caller passes becomes an option of git, but for a
      push's remote, a secret
      enters no command's text, and a URL's credentials are read back
      ([DerivedGit]); what is written to a file is what is read, and the trait's
      defaults agree with the commands ([DerivedFs]); a search returns what its tool
      prints, its words are the caller's, and a walk's guard tests each path on the
      way ([DerivedSearch]); a service's id leads nowhere else, and a table of
      sockets is read for what it is ([DerivedService]). The lines of
      [DerivedFs] are run by the shell of [ShellRun]; that a sandbox runs a line so is
      the law of a class there, which has an instance.
    - The plugin connection: messages leave in order and within the configured
      bytes, reading lines does not depend on how they are cut ([Control]); at most
      one plugin process is alive, a dead one is replaced ([Supervisor]); every call
      is answered once and its permits come back ([Client]); no event is dropped
      silently ([HostEvents]); a remote exec returns exactly what its
      caller would have where the command runs ([RemoteExec]); a stop finds its exec, the session slots are conserved, no
      session is lost, and the end of a connection ends them all ([Server]).
    - Activation ends, acts on settled sandboxes only, and succeeds with one that was
      seen running and passed both probes ([Wait]); events are observed in sequence,
      and each operation is told from its start to its end, in order ([Events]).
    - The host: a command inherits no secret, its race says truly why it ended, and a
      result that is complete holds all that was read ([HostExec]); no signal reaches a process the sandbox does not own, nothing of its
      process groups runs after a drain, which completes where nothing hinders it
      ([Fence]); a recovery awaits every sentinel that had published its record, and leaves
      no workload running but one of a sentinel that came later ([Sentinel]); memory,
      records and admission agree as long as calls keep apart, and what holds of them
      whatever calls are made is said too, each lifecycle change does what it says or
      leaves the sandbox as it was, a restart loses nothing, and a caller's
      directory is never removed ([Host]).
    - Daytona sessions: output is the bytes of both log sources without loss,
      input arrives byte for byte, the wait ends within its bound, and the session
      is deleted exactly once ([Session], [StreamedStdin]).
    - Daytona sandboxes, over a service whose requests may fail before or after they
      took effect, and which others use too: a creation that fails leaves no sandbox
      but one its error names, one the crate cannot name, or one of whose creation no
      answer arrived ([DaytonaCreate], [DaytonaCleanup]); a start, a stop and a deletion
      end within their budget, where they were wanted or on the way there, and send no request again that may have been admitted
      ([DaytonaLife]); a snapshot returned as usable was seen to be, and no wait
      for one sleeps past its budget ([DaytonaSnapshots]); labels set later lose neither the directory nor the
      Docker target, and timers are set as asked ([DaytonaHandle]); the daemon nested
      in a sandbox is brought up in order, what a stop left being removed first, a pull's credentials are cleaned up, and a
      mount is of the path it names ([Nested]).
    - Docker sandboxes, over a daemon whose calls may fail before or after they took
      effect: a creation that fails, of a caller whose labels are none of the provider's,
      leaves nothing, or a container by which one
      deletion finds the rest ([DockerCreate]); a deletion by a sandbox's id touches what belongs to
      the sandbox only, and takes the container last ([DockerCleanup]); what a start
      and a stop that succeed have done, and that the wait for a service ends
      ([DockerRun]); one-shot runs leave only what a sweep finds, and output is
      kept exactly ([DockerOneShot]).
    - Where the code departs from its documentation, or does not do what it means
      to, a lemma proves the behaviour as it is: among others a failing sink is
      killed outright even under a stop grace ([Grace]), an undelete restores a
      foreign sandbox before it refuses it ([Owned]), a create on a directory in use hands
      out its sandbox whoever owns it ([Host]), a bare plugin name is resolved
      twice ([Discovery]), a recycled process id is awaited ([Fence]), short final
      logs are repeated ([Session]), a ranged read of a missing file succeeds
      and a write into a directory named with a newline at its end does not ([DerivedFs]), a link with a slash passes a walk's guard ([DerivedSearch]), a
      table of sockets can panic its reader ([DerivedService]), a process that leads a group of its own outlives a
      stop ([Fence]), the id of a service deletes its siblings ([DockerCleanup]), the stale handle
      of a deleted sandbox evicts the live one of its directory ([Host]), a
      refused creation sweeps the network of another's ([DockerCreate]), and a
      sandbox is not switched from auto-pause to auto-stop in one call
      ([DaytonaHandle]).

    ** Time, concurrency and fuel

    A future is the instant at which it resolves, or none; a [select!] takes one of
    the branches ready at the first instant, and an oracle says which, so that a
    theorem holds for each choice. A call that is never answered is a value of its
    own. Loops with fuel: the race of [Drain] has three turns, since a turn that
    continues sends TERM or KILL and neither is sent twice; a git retry has as many
    turns as attempts allowed; a delivery and a chunking have as many as bytes,
    since each takes at least one; draining a stream has two more than its bytes;
    a scanner takes at most two turns per byte and three more; splitting logs
    and lines takes one per byte; the wait of a session one per poll until the
    instant it must end by; the wait for a
    Docker service has one poll per quarter second until its deadline; a loop over the service of
    Daytona has one turn per pause of its own until its deadline, and one more
    ([turns]), as each turn that goes on pauses, and a wait of [Wait] likewise
    ([wait_turns]); the race of [HostExec] has what can happen once and the graces that
    fit before its timeout ([remaining]); the wait for a service of [Nested] has
    the polls that fit in its five minutes; printing a 64-bit integer has twenty digits, and a
    32-bit one in octal eleven. Where a theorem speaks of a
    result, it shows that the fuel suffices.

    Tasks that share state ([Race], [Control], [Supervisor], [Client], [Server],
    [Fence], [Sentinel], [Events]) are step relations: a step is what one task does between
    two awaits or under one lock, any task may go next, and what the environment
    answers is part of the step, so that an invariant holds for each interleaving. Input and output that may
    fail in [Host] asks an oracle, a list of answers; a call there is one step, but for a
    create, which holds no lock throughout and may be overlapped by others. A process
    has a ghost birth in [Fence], and [Sentinel] keeps who published its record after the
    records were read, which only theorems read; the process table is read in one
    instant, and what is seen dead is dead.

    Integers are [Z], with their width where parsing or arithmetic can leave it.
    A string is its UTF-8 bytes. Memory is unbounded.

    ** What is not modelled

    Operating-system and network input and output, the SDKs of the providers, the
    tokio runtime and its semaphores, serde's derived field handling (beyond the
    forms [Wire] and [Config] spell out), the JSON Schema engine, [Debug]
    implementations, and the command-line, conformance and testing crates. Of the
    providers, the execs, terminals, forwards and file transfers of Docker; of Daytona the
    events, the connection, the build logs, the files, git, terminals and previews of
    its toolbox and of the container nested in a sandbox; and of the host the spawning of processes and its
    file operations. Other clients of a Docker daemon are taken to leave a sandbox
    alone while an operation runs. Of the library, the facades
    that pick a provider's own facet over a derived one, and the glob library. *)

From stdpp Require Export base list numbers option gmap strings sorting.
From Stdlib Require Export ZArith Lia.

#[global] Open Scope Z_scope.

(** ** Notations *)

Declare Scope driver_scope.
Delimit Scope driver_scope with driver.

(** A byte of a buffer is its value, an integer in [0, 256); a buffer is a
    list of them. *)
Notation u8 := Z (only parsing).
Notation bytes := (list Z) (only parsing).

(** A Rust range pattern [lo..=hi]. *)
Definition in_range (lo hi b : Z) : bool := (lo <=? b) && (b <=? hi).

(** A Rust pattern of alternatives [a | b | c]. *)
Definition one_of (l : list Z) (b : Z) : bool := existsb (Z.eqb b) l.

Definition is_u8 (b : Z) : Prop := 0 <= b < 256.

(** A Rust [Result]: the value or the error. *)
Inductive result (A E : Type) := Ok (a : A) | Err (e : E).
Arguments Ok {A E} a.
Arguments Err {A E} e.

Definition rbind {A B E} (m : result A E) (k : A -> result B E) : result B E :=
  match m with Ok a => k a | Err e => Err e end.

Definition map_err {A E F} (f : E -> F) (m : result A E) : result A F :=
  match m with Ok a => Ok a | Err e => Err (f e) end.

Definition is_ok {A E} (m : result A E) : bool :=
  match m with Ok _ => true | Err _ => false end.

Definition ok_or {A E} (m : option A) (e : E) : result A E :=
  match m with Some a => Ok a | None => Err e end.

(** The [?] operator, and its form for a check that returns no value. *)
Notation "'let?' x ':=' m 'in' k" := (rbind m (fun x => k))
  (at level 10, x pattern, m at level 100, k at level 200) : driver_scope.
Notation "'check?' m 'in' k" := (rbind m (fun _ => k))
  (at level 10, m at level 100, k at level 200) : driver_scope.

(** A guard with an early return of an error. *)
Notation "'guard?' b 'else' e 'in' k" := (if b then k else Err e)
  (at level 10, b at level 100, e at level 100, k at level 200) : driver_scope.

#[global] Open Scope driver_scope.

(** ** Tactics *)

(** Turns the boolean comparisons of a goal and its hypotheses into facts
    that [lia] reads. *)
Ltac reflect_bools :=
  repeat match goal with
  | H : in_range _ _ _ = _ |- _ => unfold in_range in H
  | H : one_of _ _ = _ |- _ => cbn [one_of existsb] in H
  | H : _ && _ = true |- _ => apply andb_true_iff in H as [? ?]
  | H : _ && _ = false |- _ => apply andb_false_iff in H
  | H : _ || _ = true |- _ => apply orb_true_iff in H
  | H : _ || _ = false |- _ => apply orb_false_iff in H as [? ?]
  | H : (_ <=? _) = true |- _ => apply Z.leb_le in H
  | H : (_ <=? _) = false |- _ => apply Z.leb_gt in H
  | H : (_ <? _) = true |- _ => apply Z.ltb_lt in H
  | H : (_ <? _) = false |- _ => apply Z.ltb_ge in H
  | H : (_ =? _) = true |- _ => apply Z.eqb_eq in H
  | H : (_ =? _) = false |- _ => apply Z.eqb_neq in H
  | H : negb _ = true |- _ => apply negb_true_iff in H
  | H : negb _ = false |- _ => apply negb_false_iff in H
  end.

(** ** Lemmas on results, lists and maps *)

Lemma rbind_ok {E} (m k : result unit E) : rbind m (fun _ => k) = Ok tt <-> m = Ok tt /\ k = Ok tt.
Proof. destruct m as [[]|e]; cbn; [|split; [done|by intros [? _]]]. split; [done|by intros [_ ?]]. Qed.

Lemma Forall_iff_ext {A} (P Q : A -> Prop) l : (forall a, P a <-> Q a) -> Forall P l <-> Forall Q l.
Proof. intros H. by apply Forall_proper; [|done]. Qed.

Lemma map_Forall_iff_ext {A} (P Q : string -> A -> Prop) (m : gmap string A) :
  (forall k a, P k a <-> Q k a) -> map_Forall P m <-> map_Forall Q m.
Proof. intros H. split; intros HF k a Hk; apply H; by apply HF. Qed.

Lemma forallb_iff {A} (p : A -> bool) (P : A -> Prop) l :
  (forall a, p a = true <-> P a) -> forallb p l = true <-> Forall P l.
Proof.
  intros H. induction l as [|a l IH]; cbn; [split; [constructor|done]|].
  by rewrite andb_true_iff, Forall_cons, H, IH.
Qed.

Lemma map_err_ok {A E1 E2} (f : E1 -> E2) (m : result A E1) a : map_err f m = Ok a <-> m = Ok a.
Proof. destruct m; cbn; naive_solver. Qed.

Lemma StronglySorted_map {A C} (Q : relation A) (S : relation C) (f : A -> C) l :
  (forall x y, Q x y -> S (f x) (f y)) -> StronglySorted Q l -> StronglySorted S (f <$> l).
Proof.
  intros Hf. induction 1 as [|x l HS IH HF]; [constructor|]. rewrite fmap_cons. constructor; [done|].
  apply Forall_fmap. eapply Forall_impl; [exact HF|]. intros y. apply Hf.
Qed.

Lemma prefix_split {A} (p l k : list A) : p `prefix_of` l ++ k -> (length l <= length p)%nat ->
  exists q, p = l ++ q /\ q `prefix_of` k.
Proof.
  intros [t Ht] Hl. exists (drop (length l) p). split.
  - rewrite <- (take_drop (length l) p) at 1. f_equal.
    transitivity (take (length l) (p ++ t)); [by rewrite take_app_le|]. rewrite <- Ht. by rewrite take_app_length.
  - exists t. transitivity (drop (length l) (p ++ t)); [rewrite <- Ht; by rewrite drop_app_length|].
    by rewrite drop_app_le.
Qed.

Lemma prefix_short {A} (p l k : list A) : p `prefix_of` l ++ k -> (length p < length l)%nat -> p `prefix_of` l.
Proof.
  intros [t Ht] Hl. exists (drop (length p) l). rewrite <- (take_drop (length p) l) at 1. f_equal.
  transitivity (take (length p) (l ++ k)); [by rewrite take_app_le by lia|]. rewrite Ht. by rewrite take_app_length.
Qed.
