(* ===== verification/Sanitize.v ===== *)
(** * Output sanitization

    Models [crates/sandbox-driver/src/sanitize.rs]: the policies, the
    stateful escape-sequence automaton that strips terminal control from a
    command's output as it streams, and the one-shot form. *)

From S2P Require Import Prelude.

Inductive OutputSanitization := Raw | StripAnsi | StripAll.

#[export] Instance OutputSanitization_eq_dec : EqDecision OutputSanitization.
Proof. solve_decision. Defined.

Inductive State :=
| Ground | Escape | EscapeIntermediate | Csi | Osc | OscEscape | OscC2
| ControlString | ControlStringEscape | ControlStringC2.

#[export] Instance State_eq_dec : EqDecision State.
Proof. solve_decision. Defined.

Record OutputSanitizer := mkSanitizer {
  policy : OutputSanitization;
  state : State;
  pending_c2 : bool;
  utf8_remaining : Z;
}.

Definition new (p : OutputSanitization) : OutputSanitizer :=
  mkSanitizer p Ground false 0.

Definition set_state (s : OutputSanitizer) (st : State) : OutputSanitizer :=
  mkSanitizer (policy s) st (pending_c2 s) (utf8_remaining s).

Definition set_pending (s : OutputSanitizer) (p : bool) : OutputSanitizer :=
  mkSanitizer (policy s) (state s) p (utf8_remaining s).

Definition set_remaining (s : OutputSanitizer) (r : Z) : OutputSanitizer :=
  mkSanitizer (policy s) (state s) (pending_c2 s) r.

(** Every handler returns the sanitizer after the byte and the bytes it
    appends to the output. *)
Definition process_c1 (s : OutputSanitizer) (byte : u8) (utf8_encoded : bool)
  : OutputSanitizer * bytes :=
  if one_of [0x90; 0x98; 0x9e; 0x9f] byte then (set_state s ControlString, [])
  else if byte =? 0x9b then (set_state s Csi, [])
  else if byte =? 0x9d then (set_state s Osc, [])
  else if byte =? 0x9c then (s, [])
  else if decide (policy s = StripAnsi)
    then (s, (if utf8_encoded then [0xc2] else []) ++ [byte])
  else (s, []).

(** The last part of [process_ground], reached when no UTF-8 sequence is
    open: the byte starts something or stands alone. *)
Definition ground_byte (s : OutputSanitizer) (byte : u8) : OutputSanitizer * bytes :=
  if byte =? 0x1b then (set_state s Escape, [])
  else if in_range 0x80 0x9f byte then process_c1 s byte false
  else if byte =? 0xc2 then (set_pending s true, [])
  else if in_range 0xc3 0xdf byte then (set_remaining s 1, [byte])
  else if in_range 0xe0 0xef byte then (set_remaining s 2, [byte])
  else if in_range 0xf0 0xf4 byte then (set_remaining s 3, [byte])
  else if (in_range 0x00 0x1f byte || (byte =? 0x7f)) && bool_decide (policy s = StripAll)
    then (s, if one_of [0x09; 0x0a; 0x0d] byte then [byte] else [])
  else (s, [byte]).

(** The middle part: a byte that meets an open UTF-8 sequence continues or
    abandons it. *)
Definition ground_utf8 (s : OutputSanitizer) (byte : u8) : OutputSanitizer * bytes :=
  if 0 <? utf8_remaining s then
    if in_range 0x80 0xbf byte
    then (set_remaining s (utf8_remaining s - 1), [byte])
    else ground_byte (set_remaining s 0) byte
  else ground_byte s byte.

Definition process_ground (s : OutputSanitizer) (byte : u8) : OutputSanitizer * bytes :=
  if pending_c2 s then
    let s := set_pending s false in
    if in_range 0x80 0x9f byte then process_c1 s byte true
    else if in_range 0xa0 0xbf byte then (s, [0xc2; byte])
    else let '(s', out) := ground_utf8 s byte in (s', 0xc2 :: out)
  else ground_utf8 s byte.

Definition process_escape (s : OutputSanitizer) (byte : u8) : OutputSanitizer * bytes :=
  if byte =? 0x5b then (set_state s Csi, [])
  else if byte =? 0x5d then (set_state s Osc, [])
  else if one_of [0x50; 0x58; 0x5e; 0x5f] byte then (set_state s ControlString, [])
  else if in_range 0x20 0x2f byte then (set_state s EscapeIntermediate, [])
  else if in_range 0x30 0x7e byte then (set_state s Ground, [])
  else if byte =? 0x1b then (s, [])
  else process_ground (set_state s Ground) byte.

Definition process_escape_intermediate (s : OutputSanitizer) (byte : u8) : OutputSanitizer :=
  if in_range 0x30 0x7e byte then set_state s Ground
  else if byte =? 0x1b then set_state s Escape
  else s.

Definition process_csi (s : OutputSanitizer) (byte : u8) : OutputSanitizer :=
  if in_range 0x40 0x7e byte then set_state s Ground
  else if byte =? 0x1b then set_state s Escape
  else s.

Definition process_osc (s : OutputSanitizer) (byte : u8) : OutputSanitizer :=
  if one_of [0x07; 0x9c] byte then set_state s Ground
  else if byte =? 0x1b then set_state s OscEscape
  else if byte =? 0xc2 then set_state s OscC2
  else s.

Definition process_osc_escape (s : OutputSanitizer) (byte : u8) : OutputSanitizer :=
  if byte =? 0x5c then set_state s Ground
  else if byte =? 0x1b then s
  else if byte =? 0xc2 then set_state s OscC2
  else set_state s Osc.

Definition process_osc_c2 (s : OutputSanitizer) (byte : u8) : OutputSanitizer :=
  if one_of [0x07; 0x9c] byte then set_state s Ground
  else if byte =? 0x1b then set_state s OscEscape
  else if byte =? 0xc2 then s
  else set_state s Osc.

Definition process_control_string (s : OutputSanitizer) (byte : u8) : OutputSanitizer :=
  if byte =? 0x9c then set_state s Ground
  else if byte =? 0x1b then set_state s ControlStringEscape
  else if byte =? 0xc2 then set_state s ControlStringC2
  else s.

Definition process_control_string_escape (s : OutputSanitizer) (byte : u8) : OutputSanitizer :=
  if byte =? 0x5c then set_state s Ground
  else if byte =? 0x1b then s
  else if byte =? 0xc2 then set_state s ControlStringC2
  else set_state s ControlString.

Definition process_control_string_c2 (s : OutputSanitizer) (byte : u8) : OutputSanitizer :=
  if byte =? 0x9c then set_state s Ground
  else if byte =? 0x1b then set_state s ControlStringEscape
  else if byte =? 0xc2 then s
  else set_state s ControlString.

Definition process (s : OutputSanitizer) (byte : u8) : OutputSanitizer * bytes :=
  match state s with
  | Ground => process_ground s byte
  | Escape => process_escape s byte
  | EscapeIntermediate => (process_escape_intermediate s byte, [])
  | Csi => (process_csi s byte, [])
  | Osc => (process_osc s byte, [])
  | OscEscape => (process_osc_escape s byte, [])
  | OscC2 => (process_osc_c2 s byte, [])
  | ControlString => (process_control_string s byte, [])
  | ControlStringEscape => (process_control_string_escape s byte, [])
  | ControlStringC2 => (process_control_string_c2 s byte, [])
  end.

Fixpoint process_all (s : OutputSanitizer) (chunk : bytes) : OutputSanitizer * bytes :=
  match chunk with
  | [] => (s, [])
  | byte :: rest =>
      let '(s1, out) := process s byte in
      let '(s2, out') := process_all s1 rest in
      (s2, out ++ out')
  end.

Definition push (s : OutputSanitizer) (chunk : bytes) : OutputSanitizer * bytes :=
  if decide (policy s = Raw) then (s, chunk) else process_all s chunk.

Definition finish (s : OutputSanitizer) : OutputSanitizer * bytes :=
  if decide (policy s = Raw) then (s, [])
  else (mkSanitizer (policy s) Ground false 0,
        if bool_decide (state s = Ground) && pending_c2 s then [0xc2] else []).

Definition sanitize (p : OutputSanitization) (input : bytes) : bytes :=
  let '(s, output) := push (new p) input in
  output ++ snd (finish s).

(** A stream: its chunks pushed in order, then finished. *)
Fixpoint push_chunks (s : OutputSanitizer) (chunks : list bytes) : OutputSanitizer * bytes :=
  match chunks with
  | [] => (s, [])
  | c :: cs =>
      let '(s1, out) := push s c in
      let '(s2, out') := push_chunks s1 cs in
      (s2, out ++ out')
  end.

Definition stream (p : OutputSanitization) (chunks : list bytes) : bytes :=
  let '(s, output) := push_chunks (new p) chunks in
  output ++ snd (finish s).

Example strip_ansi_test :
  sanitize StripAnsi [0x1b;0x5b;0x33;0x31;0x6d;0x72;0x1b;0x5b;0x30;0x6d;0x07;0x01;0x0a]
  = [0x72;0x07;0x01;0x0a].
Proof. reflexivity. Qed.

(** ** The reference: stripping a whole buffer

    What the policies promise, written over a complete buffer by looking ahead
    for the end of each sequence, with no state between bytes. *)

(** The rest after a control sequence: past its final byte, or at an ESC that
    cuts it short. *)
Fixpoint skip_to (final : u8 -> bool) (bs : bytes) : bytes :=
  match bs with
  | [] => []
  | b :: t => if final b then t else if b =? 0x1b then bs else skip_to final t
  end.

(** The rest after an OSC ([bel]) or another control string: past the string
    terminator (ST, or [ESC \]), for an OSC also past BEL. An ESC that does not
    open the terminator hides the byte behind it. *)
Fixpoint skip_string (bel : bool) (bs : bytes) : bytes :=
  match bs with
  | [] => []
  | b :: t =>
      if (b =? 0x9c) || (bel && (b =? 0x07)) then t
      else if b =? 0x1b then
        match t with
        | [] => []
        | c :: t' =>
            if c =? 0x5c then t' else if c =? 0x1b then skip_string bel t else skip_string bel t'
        end
      else skip_string bel t
  end.

(** The rest after the sequence an ESC opens. *)
Fixpoint skip_escape (bs : bytes) : bytes :=
  match bs with
  | [] => []
  | b :: t =>
      if b =? 0x5b then skip_to (in_range 0x40 0x7e) t
      else if b =? 0x5d then skip_string true t
      else if one_of [0x50; 0x58; 0x5e; 0x5f] b then skip_string false t
      else if in_range 0x20 0x2f b then skip_to (in_range 0x30 0x7e) t
      else if in_range 0x30 0x7e b then t
      else if b =? 0x1b then skip_escape t
      else bs
  end.

(** The rest after a C1 control, and whether the control itself is one that
    opens or ends a sequence. *)
Definition skip_c1 (c : u8) (t : bytes) : option bytes :=
  if c =? 0x9b then Some (skip_to (in_range 0x40 0x7e) t)
  else if c =? 0x9d then Some (skip_string true t)
  else if one_of [0x90; 0x98; 0x9e; 0x9f] c then Some (skip_string false t)
  else if c =? 0x9c then Some t
  else None.

(** How many continuation bytes a UTF-8 lead byte announces. *)
Definition continuations (b : u8) : nat :=
  if in_range 0xc3 0xdf b then 1 else if in_range 0xe0 0xef b then 2
  else if in_range 0xf0 0xf4 b then 3 else 0.

(** At most [n] continuation bytes, and the rest. *)
Fixpoint take_continuations (n : nat) (bs : bytes) : bytes * bytes :=
  match n, bs with
  | S n, b :: t =>
      if in_range 0x80 0xbf b then let '(u, r) := take_continuations n t in (b :: u, r) else ([], bs)
  | _, _ => ([], bs)
  end.

(** A C0 control or DEL that [StripAll] removes. *)
Definition removed_c0 (p : OutputSanitization) (b : u8) : bool :=
  bool_decide (p = StripAll) && ((0 <=? b) && (b <? 0x20) || (b =? 0x7f))
    && negb (one_of [0x09; 0x0a; 0x0d] b).

Fixpoint strip_from (fuel : nat) (p : OutputSanitization) (bs : bytes) : bytes :=
  match fuel, bs with
  | O, _ | _, [] => []
  | S fuel, b :: t =>
      let c1 c enc t :=
        match skip_c1 c t with
        | Some rest => strip_from fuel p rest
        | None => (if decide (p = StripAnsi) then enc else []) ++ strip_from fuel p t
        end in
      if b =? 0x1b then strip_from fuel p (skip_escape t)
      else if in_range 0x80 0x9f b then c1 b [b] t
      else if b =? 0xc2 then
        match t with
        | c :: t' =>
            if in_range 0x80 0x9f c then c1 c [0xc2; c] t'
            else if in_range 0xa0 0xbf c then 0xc2 :: c :: strip_from fuel p t'
            else 0xc2 :: strip_from fuel p t
        | [] => [0xc2]
        end
      else
        let '(u, rest) := take_continuations (continuations b) t in
        (if removed_c0 p b then [] else b :: u) ++ strip_from fuel p rest
  end.

Definition strip (p : OutputSanitization) (bs : bytes) : bytes :=
  if decide (p = Raw) then bs else strip_from (length bs) p bs.

Example strip_test :
  strip StripAll [0x1b;0x5d;0x30;0x07;0x41;0x9b;0x31;0x1b;0x5b;0x6d;0xc2;0x9b;0x4b;0xc3;0xa9;0x01]
  = [0x41; 0xc3; 0xa9].
Proof. reflexivity. Qed.

(** ** The automaton's invariant *)

(** A half-read UTF-8 sequence lives in the ground state only, and a held
    [0xc2] excludes an open multi-byte sequence. *)
Definition wf (s : OutputSanitizer) : Prop :=
  0 <= utf8_remaining s <= 3 /\
  (state s <> Ground -> pending_c2 s = false /\ utf8_remaining s = 0) /\
  (pending_c2 s = true -> utf8_remaining s = 0).

Create HintDb sanitize.

Ltac unfold_process :=
  unfold process_escape, process_ground, ground_utf8, ground_byte, process_c1,
    process_escape_intermediate, process_csi, process_osc, process_osc_escape,
    process_osc_c2, process_control_string, process_control_string_escape,
    process_control_string_c2, set_state, set_pending, set_remaining in *;
  cbn [policy state pending_c2 utf8_remaining] in *.

(** Splits every test a handler makes. *)
Ltac split_tests := repeat (case_match; simplify_eq/=).

Lemma process_c1_policy s b e : policy (fst (process_c1 s b e)) = policy s.
Proof. destruct s. unfold_process. split_tests; done. Qed.

Lemma process_ground_policy s b : policy (fst (process_ground s b)) = policy s.
Proof. destruct s as [p st [] r]; unfold_process; split_tests; done. Qed.

Lemma policy_process s b : policy (fst (process s b)) = policy s.
Proof.
  unfold process; destruct (state s) eqn:?; [apply process_ground_policy|..];
    destruct s; unfold_process; split_tests; done.
Qed.

(** A sanitizer in the ground state with no half-read sequence is the normal
    form every wf sanitizer outside the ground state agrees with. *)
Lemma wf_quiet p st : wf (mkSanitizer p st false 0).
Proof. split_and!; cbn; try done; lia. Qed.

Lemma wf_process_ground s b : state s = Ground -> wf s -> wf (fst (process_ground s b)).
Proof.
  destruct s as [p st c r]; cbn; intros -> (Hr & _ & Hc); cbn in *.
  destruct c; [rewrite Hc by done|]; unfold_process; split_tests; reflect_bools;
    split_and!; cbn in *; try done; try lia; intros; split; try done; lia.
Qed.

Lemma wf_process s b : wf s -> wf (fst (process s b)).
Proof.
  intros Hwf. unfold process. destruct (decide (state s = Ground)) as [HG|HG].
  { rewrite HG. by apply wf_process_ground. }
  destruct Hwf as (_ & [Hc Hr]%(fun H => H HG) & _).
  destruct s as [p st c r]; cbn in *; subst.
  destruct st; try done; unfold_process; split_tests; try apply wf_quiet.
  all: split_and!; cbn; try done; lia.
Qed.

(** ** Streaming *)

Arguments push : simpl never.
Arguments process : simpl never.
Arguments finish : simpl never.

Lemma process_all_app s xs ys :
  process_all s (xs ++ ys) =
  (fst (process_all (fst (process_all s xs)) ys),
   snd (process_all s xs) ++ snd (process_all (fst (process_all s xs)) ys)).
Proof.
  revert s. induction xs as [|x xs IH]; intros s; cbn.
  { by destruct (process_all s ys). }
  destruct (process s x) as [s1 o]. rewrite IH.
  destruct (process_all s1 xs) as [s2 o2]; cbn.
  destruct (process_all s2 ys); cbn. by rewrite app_assoc.
Qed.

Lemma policy_process_all s xs : policy (fst (process_all s xs)) = policy s.
Proof.
  revert s. induction xs as [|x xs IH]; intros s; cbn; [done|].
  pose proof (policy_process s x). destruct (process s x) as [s1 o].
  specialize (IH s1). destruct (process_all s1 xs); cbn in *. congruence.
Qed.

Lemma wf_process_all s xs : wf s -> wf (fst (process_all s xs)).
Proof.
  revert s. induction xs as [|x xs IH]; intros s Hs; cbn; [done|].
  pose proof (wf_process s x Hs). destruct (process s x) as [s1 o].
  specialize (IH s1). destruct (process_all s1 xs); cbn in *. auto.
Qed.

Lemma policy_push s xs : policy (fst (push s xs)) = policy s.
Proof. unfold push. case_decide; [done|apply policy_process_all]. Qed.

Lemma push_app s xs ys :
  push s (xs ++ ys) =
  (fst (push (fst (push s xs)) ys), snd (push s xs) ++ snd (push (fst (push s xs)) ys)).
Proof.
  pose proof (policy_push s xs) as Hp.
  destruct (decide (policy s = Raw)) as [H|H].
  - unfold push at 1 3 4 6. rewrite !decide_True by done; cbn.
    unfold push. rewrite !decide_True by done. done.
  - unfold push at 1 3 4 6. rewrite !decide_False by done.
    rewrite process_all_app. unfold push.
    rewrite !decide_False by (by rewrite policy_process_all). done.
Qed.

Lemma push_chunks_concat s chunks : chunks <> [] ->
  push_chunks s chunks = push s (concat chunks).
Proof.
  revert s. induction chunks as [|c cs IH]; intros s Hne; [done|].
  cbn [push_chunks concat]. destruct (push s c) as [s1 o] eqn:E1.
  destruct cs as [|c' cs].
  { cbn. by rewrite !app_nil_r, E1. }
  rewrite IH by done. rewrite push_app, E1; cbn [fst snd].
  by destruct (push s1 (concat (c' :: cs))).
Qed.

(** Whatever the chunk boundaries, a stream pushed chunk by chunk and then
    finished produces exactly what the one-shot policy produces on the whole
    output. *)
Lemma stream_is_sanitize p chunks : stream p chunks = sanitize p (concat chunks).
Proof.
  unfold stream, sanitize. destruct chunks as [|c cs].
  - cbn. unfold push. by case_decide.
  - by rewrite push_chunks_concat.
Qed.

(** ** Safety of what is emitted *)

(** What a policy must never let through: ESC under both lossy policies, and
    under [StripAll] every C0 control and DEL but tab, line feed, and
    carriage return. *)
Definition forbidden (p : OutputSanitization) (b : u8) : Prop :=
  p <> Raw /\
  (b = 0x1b \/
   p = StripAll /\ (0 <= b <= 0x1f \/ b = 0x7f) /\ b <> 0x09 /\ b <> 0x0a /\ b <> 0x0d).

Definition clean (p : OutputSanitization) (bs : bytes) : Prop :=
  Forall (fun b => ~ forbidden p b) bs.

Lemma clean_high p b : 0x80 <= b -> ~ forbidden p b.
Proof. intros Hb (_ & [?|(_ & [?|?] & _)]); lia. Qed.

Lemma process_c1_clean s b e : 0x80 <= b -> clean (policy s) (snd (process_c1 s b e)).
Proof.
  intros Hb. destruct s. unfold_process. split_tests; repeat constructor;
    apply clean_high; lia.
Qed.

Lemma ground_byte_clean s b : policy s <> Raw -> clean (policy s) (snd (ground_byte s b)).
Proof.
  intros Hp. unfold ground_byte. case_match; [constructor|].
  case_match; [apply process_c1_clean; reflect_bools; lia|].
  unfold clean, set_pending, set_remaining.
  repeat case_match; cbn; rewrite ?Forall_singleton, ?Forall_nil; try done; reflect_bools;
    try (apply clean_high; lia);
    intros (_ & [?|(Hs & [?|?] & ?)]); try lia;
    repeat match goal with H : _ \/ _ |- _ => destruct H as [H|H]; reflect_bools end;
    try lia; try (rewrite bool_decide_eq_false in *; done).
Qed.

Lemma ground_utf8_clean s b : policy s <> Raw -> clean (policy s) (snd (ground_utf8 s b)).
Proof.
  intros Hp. unfold ground_utf8. case_match; [case_match|].
  - reflect_bools. repeat constructor. apply clean_high. lia.
  - apply (ground_byte_clean (set_remaining s 0) b Hp).
  - by apply ground_byte_clean.
Qed.

Lemma process_ground_clean s b :
  policy s <> Raw -> clean (policy s) (snd (process_ground s b)).
Proof.
  intros Hp. unfold process_ground. case_match; [|by apply ground_utf8_clean].
  case_match; [|case_match]; reflect_bools.
  - apply (process_c1_clean (set_pending s false)). lia.
  - repeat constructor; apply clean_high; lia.
  - pose proof (ground_utf8_clean (set_pending s false) b Hp) as Hc.
    destruct (ground_utf8 _ b); cbn in *. constructor; [apply clean_high; lia|done].
Qed.

Lemma process_clean s b : policy s <> Raw -> clean (policy s) (snd (process s b)).
Proof.
  intros Hp. unfold process. destruct (state s); try constructor;
    [by apply process_ground_clean|].
  unfold process_escape. split_tests; try constructor.
  apply (process_ground_clean (set_state s Ground) b Hp).
Qed.

Lemma process_all_clean s xs : policy s <> Raw -> clean (policy s) (snd (process_all s xs)).
Proof.
  revert s. induction xs as [|x xs IH]; intros s Hp; cbn; [constructor|].
  pose proof (process_clean s x Hp). pose proof (policy_process s x) as Hpp.
  destruct (process s x) as [s1 o]; cbn in *. specialize (IH s1).
  destruct (process_all s1 xs); cbn in *. rewrite Hpp in IH.
  apply Forall_app; split; [done|by apply IH].
Qed.

(** Under a lossy policy no byte the policy forbids is ever returned,
    whatever the input: no ESC can reach a terminal, and [StripAll] leaves
    no C0 control or DEL but tab, line feed, and carriage return. *)
Theorem sanitize_clean p input : clean p (sanitize p input).
Proof.
  destruct (decide (p = Raw)) as [->|Hp].
  { apply Forall_forall. intros b _ [? _]. done. }
  unfold sanitize, push, finish. cbn [policy new]. rewrite decide_False by done.
  pose proof (process_all_clean (new p) input Hp) as Hc.
  pose proof (policy_process_all (new p) input) as Hpp.
  destruct (process_all (new p) input) as [s o]; cbn in *.
  rewrite Hpp, decide_False by done. apply Forall_app; split; [done|]. cbn.
  case_match; repeat constructor. apply clean_high. lia.
Qed.

(** ** Idempotence *)

(** The bytes a sanitizer has read and not yet returned. *)
Definition held (s : OutputSanitizer) : bytes := if pending_c2 s then [0xc2] else [].

(** A second sanitizer that reads the first one's output stays in the ground
    state, and agrees with it on any UTF-8 sequence the first has open. *)
Definition follows (s1 s2 : OutputSanitizer) : Prop :=
  policy s2 = policy s1 /\ state s2 = Ground /\ wf s2 /\
  (0 < utf8_remaining s1 ->
   utf8_remaining s2 = utf8_remaining s1 /\ pending_c2 s2 = false).

(** [s2], reading [o], returns [o] up to what it holds before and after. *)
Definition passes (s2 : OutputSanitizer) (o : bytes) (s1' : OutputSanitizer) : Prop :=
  held s2 ++ o = snd (process_all s2 o) ++ held (fst (process_all s2 o)) /\
  follows s1' (fst (process_all s2 o)).

Lemma passes_nil s1' s2 : follows s1' s2 -> passes s2 [] s1'.
Proof. intros H. split; [|done]. cbn. by rewrite app_nil_r. Qed.

Lemma follows_quiet s1 s2 : policy s2 = policy s1 -> state s2 = Ground -> wf s2 ->
  utf8_remaining s1 <= 0 -> follows s1 s2.
Proof.
  intros. split; [done|]. split; [done|]. split; [done|]. lia.
Qed.

(** In the ground state a [0xc2] flushes whatever is held and is held. *)
Lemma process_c2 s : state s = Ground -> wf s ->
  process s 0xc2 = (mkSanitizer (policy s) Ground true 0, held s).
Proof.
  destruct s as [p st c r]; cbn. intros -> (Hr & _ & Hc); cbn in *.
  unfold process; cbn. destruct c; unfold_process; cbn.
  - by rewrite Hc.
  - destruct (0 <? r) eqn:?; cbn; [done|]. reflect_bools. by assert (r = 0) as -> by lia.
Qed.

Lemma passes_one s1' s2 b s2' o : process s2 b = (s2', o) ->
  held s2 ++ [b] = o ++ held s2' -> follows s1' s2' -> passes s2 [b] s1'.
Proof. intros E H1 H2. unfold passes. cbn. rewrite E. cbn. by rewrite app_nil_r. Qed.

(** The ground state with nothing held. *)
Definition quiet (p : OutputSanitization) : OutputSanitizer := mkSanitizer p Ground false 0.

(** What the quiet sanitizer makes of a byte: nothing comes out and no UTF-8
    sequence is open, or the byte itself comes out and nothing is held. *)
Lemma ground_byte_quiet p b :
  (snd (ground_byte (quiet p) b) = [] /\ policy (fst (ground_byte (quiet p) b)) = p /\
   utf8_remaining (fst (ground_byte (quiet p) b)) = 0) \/
  (exists r, ground_byte (quiet p) b = (mkSanitizer p Ground false r, [b]) /\ 0 <= r <= 3 /\
   (in_range 0x80 0xbf b = true -> r = 0)).
Proof.
  unfold quiet, ground_byte, process_c1, set_state, set_pending, set_remaining;
    cbn [policy state pending_c2 utf8_remaining].
  repeat case_match; try (by left); right; eexists; (split; [done|]);
    (split; [lia|]); intros; reflect_bools; lia.
Qed.

(** A byte the quiet sanitizer returns is returned by every ground sanitizer,
    after what that one holds. *)
Lemma process_returned p s b r : policy s = p -> state s = Ground -> wf s ->
  ground_byte (quiet p) b = (mkSanitizer p Ground false r, [b]) ->
  (in_range 0x80 0xbf b = true -> r = 0) -> 0 <= r <= 3 ->
  exists r', process s b = (mkSanitizer p Ground false r', held s ++ [b]) /\
    0 <= r' <= 3 /\ (0 < r -> r' = r).
Proof.
  destruct s as [p' st c rem]; cbn. intros -> -> (Hr & _ & Hc) Hq Hcont Hb; cbn in Hr, Hc.
  unfold process, process_ground, held; cbn [policy state pending_c2 utf8_remaining].
  destruct c.
  - rewrite Hc by done. unfold set_pending; cbn [policy state pending_c2 utf8_remaining].
    destruct (in_range 0x80 0x9f b) eqn:E1.
    + assert (r = 0) as -> by (apply Hcont; reflect_bools; unfold in_range; lia).
      exists 0. split; [|lia]. revert Hq. unfold ground_byte, quiet.
      rewrite E1. case_match; [done|]. unfold process_c1, set_state; cbn.
      repeat case_match; done.
    + destruct (in_range 0xa0 0xbf b) eqn:E2.
      * assert (r = 0) as -> by (apply Hcont; reflect_bools; unfold in_range; lia).
        exists 0. split; [done|]. lia.
      * exists r. unfold ground_utf8; cbn. fold (quiet p). by rewrite Hq.
  - unfold ground_utf8; cbn [utf8_remaining]. destruct (0 <? rem) eqn:E.
    + destruct (in_range 0x80 0xbf b) eqn:E1.
      * exists (rem - 1). reflect_bools. split; [done|]. rewrite Hcont by done. lia.
      * exists r. unfold set_remaining; cbn. fold (quiet p). by rewrite Hq.
    + assert (rem = 0) as -> by (reflect_bools; lia). exists r. fold (quiet p). by rewrite Hq.
Qed.

Lemma follows_ground p s1 r : policy s1 = p -> 0 <= r <= 3 ->
  (0 < utf8_remaining s1 -> r = utf8_remaining s1) ->
  follows s1 (mkSanitizer p Ground false r).
Proof.
  intros Hp Hr Hs. split; [done|]. split; [done|]. split; [|cbn; auto].
  split; [done|]. split; cbn; done.
Qed.

Lemma passes_ground_byte p s2 b : policy s2 = p -> state s2 = Ground -> wf s2 ->
  passes s2 (snd (ground_byte (quiet p) b)) (fst (ground_byte (quiet p) b)).
Proof.
  intros Hp Hg Hwf.
  destruct (ground_byte_quiet p b) as [(-> & Hpol & Hrem)|(r & Hq & Hr & Hc)].
  - apply passes_nil, follows_quiet; [congruence|done|done|lia].
  - rewrite Hq; cbn.
    destruct (process_returned p s2 b r) as (r' & Hp2 & Hr' & Hrr); try done.
    eapply passes_one; [done|..].
    + unfold held at 2; cbn. by rewrite app_nil_r.
    + apply follows_ground; auto.
Qed.

(** One step: whatever the first sanitizer returns for a byte, a follower
    returns unchanged, and follows on. *)
Lemma passes_ground_utf8 s1 s2 b : state s1 = Ground -> wf s1 -> pending_c2 s1 = false ->
  follows s1 s2 -> passes s2 (snd (ground_utf8 s1 b)) (fst (ground_utf8 s1 b)).
Proof.
  destruct s1 as [p st c r]; cbn. intros -> (Hr & _ & _) -> (Hp & Hg & Hwf & Hu); cbn in *.
  unfold ground_utf8, set_remaining; cbn [policy state pending_c2 utf8_remaining].
  fold (quiet p). destruct (0 <? r) eqn:E; reflect_bools.
  2:{ assert (r = 0) as -> by lia. by apply passes_ground_byte. }
  destruct (in_range 0x80 0xbf b) eqn:Eb; [|by apply passes_ground_byte].
  destruct (Hu E) as [Hur Huc]. destruct s2 as [p2 st2 c2 r2]; cbn in *; subst.
  apply passes_one with (s2' := mkSanitizer p Ground false (r - 1)) (o := [b]).
  - unfold process, process_ground, ground_utf8; cbn. rewrite (proj2 (Z.ltb_lt 0 r)) by done.
    by rewrite Eb.
  - by rewrite app_nil_r.
  - apply follows_ground; cbn; [done|lia|lia].
Qed.

Lemma passes_c2 s1' s2 o : state s2 = Ground -> wf s2 ->
  passes (mkSanitizer (policy s2) Ground true 0) o s1' -> passes s2 (0xc2 :: o) s1'.
Proof.
  intros Hg Hwf [H1 H2]. unfold passes. cbn [process_all].
  rewrite (process_c2 s2) by done.
  destruct (process_all (mkSanitizer _ _ _ _) o) as [s2' o2]; cbn in *.
  split; [|done]. rewrite <- app_assoc. by rewrite <- H1.
Qed.

Lemma wf_holding p : wf (mkSanitizer p Ground true 0).
Proof. split; cbn; [lia|]. split; cbn; done. Qed.

Lemma passes_process_ground s1 s2 b : state s1 = Ground -> wf s1 -> follows s1 s2 ->
  passes s2 (snd (process_ground s1 b)) (fst (process_ground s1 b)).
Proof.
  intros Hg1 Hw1 Hf. unfold process_ground.
  destruct (pending_c2 s1) eqn:Ec; [|by apply passes_ground_utf8].
  destruct s1 as [p st c r]; cbn in Hg1, Ec; subst. pose proof Hw1 as (_ & _ & Hr).
  cbn in Hr. rewrite Hr by done. destruct Hf as (Hp & Hg & Hwf & _). cbn in Hp.
  subst p.
  unfold set_pending; cbn [policy state pending_c2 utf8_remaining].
  fold (quiet (policy s2)). destruct (in_range 0x80 0x9f b) eqn:E1; [|destruct (in_range 0xa0 0xbf b) eqn:E2].
  - unfold process_c1, set_state; cbn [policy].
    repeat case_match; try (apply passes_nil, follows_quiet; done).
    cbn. apply passes_c2; [done..|].
    apply passes_one with (s2' := quiet (policy s2)) (o := [0xc2; b]).
    + unfold process, process_ground, process_c1, set_state, set_pending; cbn.
      rewrite E1. repeat case_match; try done; exfalso; (congruence || (reflect_bools; lia)).
    + done.
    + apply follows_ground; cbn; [done|lia|done].
  - cbn. apply passes_c2; [done..|].
    apply passes_one with (s2' := quiet (policy s2)) (o := [0xc2; b]).
    + unfold process, process_ground, set_pending; cbn. by rewrite E1, E2.
    + done.
    + apply follows_ground; cbn; [done|lia|done].
  - pose proof (passes_ground_byte (policy s2) (mkSanitizer (policy s2) Ground true 0) b
      eq_refl eq_refl (wf_holding _)) as Hpass.
    unfold ground_utf8; cbn. fold (quiet (policy s2)). destruct (ground_byte (quiet _) b) as [s1' o]; cbn in *.
    by apply passes_c2.
Qed.

Lemma passes_process s1 s2 b : wf s1 -> follows s1 s2 ->
  passes s2 (snd (process s1 b)) (fst (process s1 b)).
Proof.
  intros Hw Hf. destruct (decide (state s1 = Ground)) as [Hg|Hg].
  { unfold process. rewrite Hg. by apply passes_process_ground. }
  pose proof Hw as (_ & [Hc Hr]%(fun H => H Hg) & _). pose proof Hf as (Hp & Hg2 & Hw2 & _).
  destruct s1 as [p st c r]; cbn in *; subst c r.
  unfold process; destruct st; try done; cbn [state fst snd];
    try (apply passes_nil, follows_quiet; [|done|done|]; unfold_process; split_tests; done).
  unfold process_escape, set_state; cbn [policy state pending_c2 utf8_remaining].
  repeat (case_match; [by apply passes_nil, follows_quiet|]).
  apply (passes_process_ground (quiet p)); [done|apply wf_quiet|by apply follows_quiet].
Qed.

Lemma passes_process_all s1 s2 xs : wf s1 -> follows s1 s2 ->
  passes s2 (snd (process_all s1 xs)) (fst (process_all s1 xs)).
Proof.
  revert s1 s2. induction xs as [|x xs IH]; intros s1 s2 Hw Hf.
  { by apply passes_nil. }
  cbn [process_all]. pose proof (passes_process s1 s2 x Hw Hf) as [P1 P2].
  pose proof (wf_process s1 x Hw) as Hw1.
  destruct (process s1 x) as [s1' o]; cbn in *.
  destruct (IH _ _ Hw1 P2) as [Q1 Q2].
  destruct (process_all s1' xs) as [s1'' o']; cbn in *.
  unfold passes. rewrite process_all_app; cbn. split; [|done].
  rewrite app_assoc, P1, <- !app_assoc. by rewrite Q1.
Qed.

Lemma sanitize_raw input : sanitize Raw input = input.
Proof.
  unfold sanitize, push, finish. cbn [policy new]. rewrite decide_True by done.
  cbn [policy new snd]. rewrite decide_True by done. apply app_nil_r.
Qed.

Lemma sanitize_lossy p input : p <> Raw ->
  sanitize p input =
  snd (process_all (new p) input) ++ snd (finish (fst (process_all (new p) input))).
Proof.
  intros Hp. unfold sanitize, push. cbn [policy new]. rewrite decide_False by done.
  by destruct (process_all (new p) input).
Qed.

Lemma finish_ground s : policy s <> Raw -> state s = Ground -> snd (finish s) = held s.
Proof. intros Hp Hg. unfold finish. by rewrite decide_False, Hg by done. Qed.

Lemma finish_lossy s : policy s <> Raw -> wf s ->
  snd (finish s) = held s.
Proof.
  intros Hp Hw. unfold finish, held. rewrite decide_False by done. cbn.
  destruct (decide (state s = Ground)) as [->|Hg]; [done|].
  rewrite bool_decide_eq_false_2 by done. cbn.
  destruct Hw as (_ & [-> _]%(fun H => H Hg) & _). done.
Qed.

(** Every policy is idempotent: sanitizing an output that was already
    sanitized under the same policy changes nothing, so what the sanitizer
    returns contains no sequence it would itself remove. *)
Theorem sanitize_idempotent p input : sanitize p (sanitize p input) = sanitize p input.
Proof.
  destruct (decide (p = Raw)) as [->|Hp]; [by rewrite !sanitize_raw|].
  rewrite (sanitize_lossy p input), (sanitize_lossy p (_ ++ _)) by done.
  pose proof (wf_quiet p Ground) as Hw.
  destruct (passes_process_all (new p) (new p) input Hw) as [P1 P2].
  { by apply follows_quiet. }
  pose proof (wf_process_all (new p) input Hw) as Hw1.
  pose proof (policy_process_all (new p) input) as Hp1.
  destruct (process_all (new p) input) as [s1 o]; cbn [fst snd] in *.
  rewrite (finish_lossy s1) by (done || by rewrite Hp1).
  rewrite process_all_app; cbn [fst snd].
  destruct (process_all (new p) o) as [s2 o2]; cbn [fst snd] in *.
  cbn [held new pending_c2 app] in P1. destruct P2 as (Hp2 & Hg2 & Hw2 & _).
  assert (Hp2' : policy s2 <> Raw) by (rewrite Hp2, Hp1; done).
  unfold held at 1 2 3. destruct (pending_c2 s1); cbn [process_all fst snd app].
  - rewrite process_c2 by done. cbn [fst snd]. rewrite finish_ground by done.
    rewrite P1. unfold held at 2; cbn. rewrite app_nil_r. by rewrite <- app_assoc.
  - rewrite finish_ground, !app_nil_r by done. by rewrite P1.
Qed.

(** ** Text passes through *)

Definition cont (b : u8) : Prop := 0x80 <= b <= 0xbf.

(** Text with nothing to strip: permitted ASCII and whole UTF-8 sequences,
    those of U+0080 to U+009F (the encoded C1 controls) excepted. *)
Inductive text (p : OutputSanitization) : bytes -> Prop :=
| text_nil : text p []
| text_ascii b t : 0 <= b < 0x80 -> ~ forbidden p b -> text p t -> text p (b :: t)
| text_latin c t : 0xa0 <= c <= 0xbf -> text p t -> text p (0xc2 :: c :: t)
| text_two a c t : 0xc3 <= a <= 0xdf -> cont c -> text p t -> text p (a :: c :: t)
| text_three a c d t : 0xe0 <= a <= 0xef -> cont c -> cont d -> text p t ->
    text p (a :: c :: d :: t)
| text_four a c d e t : 0xf0 <= a <= 0xf4 -> cont c -> cont d -> cont e -> text p t ->
    text p (a :: c :: d :: e :: t).

Ltac by_ranges :=
  repeat case_match; reflect_bools; try done; exfalso;
  repeat match goal with H : _ \/ _ |- _ => destruct H as [H|H]; reflect_bools end; lia.

Lemma process_cont p r b : 0 < r -> cont b ->
  process (mkSanitizer p Ground false r) b = (mkSanitizer p Ground false (r - 1), [b]).
Proof. unfold cont, process, process_ground, ground_utf8; cbn. intros. by_ranges. Qed.

Lemma process_lead p b r : 0xc3 <= b <= 0xf4 ->
  r = (if b <=? 0xdf then 1 else if b <=? 0xef then 2 else 3) ->
  process (quiet p) b = (mkSanitizer p Ground false r, [b]).
Proof. intros Hb ->. unfold process; cbn. unfold_process; cbn. by_ranges. Qed.

Lemma process_ascii p b : p <> Raw -> 0 <= b < 0x80 -> ~ forbidden p b ->
  process (quiet p) b = (quiet p, [b]).
Proof.
  intros Hp Hb Hf. unfold process; cbn. unfold_process; cbn.
  repeat case_match; reflect_bools; try done; exfalso;
    repeat match goal with H : _ \/ _ |- _ => destruct H as [H|H]; reflect_bools end;
    try lia; apply Hf; split; try done; rewrite ?bool_decide_eq_true in *; try (by left);
    right; split_and!; try done; lia.
Qed.

Lemma process_all_cons s b s1 o xs : process s b = (s1, o) ->
  process_all s (b :: xs) = (fst (process_all s1 xs), o ++ snd (process_all s1 xs)).
Proof. intros E. cbn. rewrite E. by destruct (process_all s1 xs). Qed.

Ltac quiet_again :=
  match goal with |- context [process_all ?s _] => change s with (quiet (policy s)) end;
  cbn [policy].

Lemma process_all_text p t : p <> Raw -> text p t -> process_all (quiet p) t = (quiet p, t).
Proof.
  intros Hp Ht. induction Ht as [|b t Hb Hf _ IH|c t Hc _ IH|a c t Ha Hc _ IH
    |a c d t Ha Hc Hd _ IH|a c d e t Ha Hc Hd He _ IH]; [done|..].
  - erewrite process_all_cons by (by apply process_ascii). by rewrite IH.
  - erewrite process_all_cons by done. erewrite process_all_cons.
    2:{ unfold process, process_ground, set_pending; cbn. instantiate (1 := [0xc2; c]).
        instantiate (1 := quiet p). by_ranges. }
    by rewrite IH.
  - do 2 (erewrite process_all_cons by (apply process_lead with (r := 1) || apply process_cont;
      (lia || by_ranges || done))).
    quiet_again. by rewrite IH.
  - do 3 (erewrite process_all_cons by (apply process_lead with (r := 2) || apply process_cont;
      (lia || by_ranges || done))).
    quiet_again. by rewrite IH.
  - do 4 (erewrite process_all_cons by (apply process_lead with (r := 3) || apply process_cont;
      (lia || by_ranges || done))).
    quiet_again. by rewrite IH.
Qed.

(** Text is preserved: output made of permitted ASCII and whole UTF-8
    sequences (including those whose continuation bytes lie in the C1
    range) comes back byte for byte under every policy. *)
Theorem sanitize_text p t : text p t -> sanitize p t = t.
Proof.
  intros Ht. destruct (decide (p = Raw)) as [->|Hp]; [apply sanitize_raw|].
  rewrite sanitize_lossy by done. unfold new. fold (quiet p).
  rewrite process_all_text by done. cbn [fst snd].
  rewrite finish_ground by done. apply app_nil_r.
Qed.

(** The Arabic semicolon: its continuation byte [0x9b] is the C1 code of CSI. *)
Lemma sanitize_text_witness :
  text StripAll [0x41; 0xd8; 0x9b; 0x0a] /\
  sanitize StripAll [0x41; 0xd8; 0x9b; 0x0a] = [0x41; 0xd8; 0x9b; 0x0a].
Proof.
  assert (text StripAll [0x41; 0xd8; 0x9b; 0x0a]) as Ht.
  { apply text_ascii; [lia| |apply text_two; [lia|unfold cont; lia|]].
    - intros (_ & [?|(_ & ? & ? & ? & ?)]); lia.
    - apply text_ascii; [lia| |constructor]. intros (_ & [?|(_ & ? & ? & ? & ?)]); lia. }
  split; [exact Ht|]. apply (sanitize_text StripAll). exact Ht.
Defined.

(** ** The automaton is the reference *)

Module Automaton.
(** What a sanitizer still returns for the rest of its stream. *)
Definition run (s : OutputSanitizer) (bs : bytes) : bytes :=
  snd (process_all s bs) ++ snd (finish (fst (process_all s bs))).

(** The sanitizer of a lossy policy in a state with nothing half read. *)
Definition at_ (p : OutputSanitization) (st : State) : OutputSanitizer := mkSanitizer p st false 0.

Lemma run_cons s b t : run s (b :: t) = snd (process s b) ++ run (fst (process s b)) t.
Proof.
  unfold run. cbn [process_all]. destruct (process s b) as [s1 o]. cbn [fst snd].
  destruct (process_all s1 t). cbn. by rewrite app_assoc.
Qed.

Lemma run_nil p st : run (at_ p st) [] = [].
Proof. unfold run, finish; cbn. case_decide; cbn; [done|]. by rewrite andb_false_r. Qed.

Section Reference.
Variable p : OutputSanitization.
Hypothesis lossy : p <> Raw.

Lemma run_at_escape t : run (at_ p Ground) (0x1b :: t) = run (at_ p Escape) t.
Proof. by rewrite run_cons. Qed.

Lemma run_csi t : run (at_ p Csi) t = run (at_ p Ground) (skip_to (in_range 0x40 0x7e) t).
Proof.
  induction t as [|b t IH]; [by rewrite !run_nil|]. cbn [skip_to]. rewrite run_cons.
  unfold process, at_; cbn [state fst snd app]. unfold process_csi, set_state; cbn [policy pending_c2 utf8_remaining].
  destruct (in_range 0x40 0x7e b); [reflexivity|]. destruct (b =? 0x1b) eqn:E; [|exact IH].
  reflect_bools. subst b. by rewrite run_at_escape.
Qed.

Lemma run_intermediate t :
  run (at_ p EscapeIntermediate) t = run (at_ p Ground) (skip_to (in_range 0x30 0x7e) t).
Proof.
  induction t as [|b t IH]; [by rewrite !run_nil|]. cbn [skip_to]. rewrite run_cons.
  unfold process, at_; cbn [state fst snd app]. unfold process_escape_intermediate, set_state; cbn [policy pending_c2 utf8_remaining].
  destruct (in_range 0x30 0x7e b); [reflexivity|]. destruct (b =? 0x1b) eqn:E; [|exact IH].
  reflect_bools. subst b. by rewrite run_at_escape.
Qed.

(** The two kinds of control string: the state for the text, after an ESC and
    after a [0xc2]. *)
Definition body (bel : bool) : State := if bel then Osc else ControlString.
Definition body_escape (bel : bool) : State := if bel then OscEscape else ControlStringEscape.
Definition body_c2 (bel : bool) : State := if bel then OscC2 else ControlStringC2.

Lemma body_step bel st b t : st = body bel \/ st = body_c2 bel ->
  run (at_ p st) (b :: t) =
  if (b =? 0x9c) || (bel && (b =? 0x07)) then run (at_ p Ground) t
  else if b =? 0x1b then run (at_ p (body_escape bel)) t
  else if b =? 0xc2 then run (at_ p (body_c2 bel)) t
  else run (at_ p (body bel)) t.
Proof.
  rewrite run_cons. intros [-> | ->]; destruct bel; unfold process, at_; cbn [body body_c2 state];
    unfold process_osc, process_osc_c2, process_control_string, process_control_string_c2, set_state;
    cbn [policy pending_c2 utf8_remaining one_of existsb fst snd app andb];
    rewrite ?orb_false_r, ?(orb_comm (b =? 7)); repeat case_match; done.
Qed.

Lemma body_escape_step bel b t :
  run (at_ p (body_escape bel)) (b :: t) =
  if b =? 0x5c then run (at_ p Ground) t
  else if b =? 0x1b then run (at_ p (body_escape bel)) t
  else if b =? 0xc2 then run (at_ p (body_c2 bel)) t
  else run (at_ p (body bel)) t.
Proof.
  rewrite run_cons. destruct bel; unfold process, at_; cbn [body_escape state];
    unfold process_osc_escape, process_control_string_escape, set_state;
    cbn [policy pending_c2 utf8_remaining fst snd app]; repeat case_match; done.
Qed.

Lemma run_string bel t :
  run (at_ p (body bel)) t = run (at_ p Ground) (skip_string bel t) /\
  run (at_ p (body_c2 bel)) t = run (at_ p Ground) (skip_string bel t) /\
  run (at_ p (body_escape bel)) t = run (at_ p Ground) (skip_string bel (0x1b :: t)).
Proof.
  induction t as [|b t (IH1 & IH2 & IH3)].
  { split_and!; cbn [skip_string]; rewrite ?andb_false_r; cbn [Z.eqb Pos.eqb orb]; by rewrite !run_nil. }
  assert (forall st, st = body bel \/ st = body_c2 bel ->
    run (at_ p st) (b :: t) = run (at_ p Ground) (skip_string bel (b :: t))) as Hbody.
  { intros st Hst. rewrite (body_step bel st b t Hst). cbn [skip_string].
    destruct (_ || _); [done|]. destruct (b =? 0x1b) eqn:E.
    - rewrite IH3. cbn [skip_string]. by rewrite andb_false_r.
    - by destruct (b =? 0xc2). }
  split; [by apply Hbody; left|]. split; [by apply Hbody; right|].
  rewrite body_escape_step. cbn [skip_string]. rewrite andb_false_r. cbn [orb Z.eqb Pos.eqb].
  destruct (b =? 0x5c); [done|]. destruct (b =? 0x1b) eqn:E; reflect_bools.
  - subst b. rewrite IH3. cbn [skip_string]. by rewrite andb_false_r.
  - by destruct (b =? 0xc2).
Qed.

Lemma run_osc t : run (at_ p Osc) t = run (at_ p Ground) (skip_string true t).
Proof. apply (run_string true). Qed.

Lemma run_control t : run (at_ p ControlString) t = run (at_ p Ground) (skip_string false t).
Proof. apply (run_string false). Qed.

Lemma run_escape t : run (at_ p Escape) t = run (at_ p Ground) (skip_escape t).
Proof.
  induction t as [|b t IH]; [by rewrite !run_nil|]. cbn [skip_escape]. rewrite run_cons.
  unfold process, at_; cbn [state]. unfold process_escape, set_state; cbn [policy pending_c2 utf8_remaining].
  destruct (b =? 0x5b); [apply run_csi|]. destruct (b =? 0x5d); [apply run_osc|].
  destruct (one_of _ b); [apply run_control|]. destruct (in_range 0x20 0x2f b); [apply run_intermediate|].
  destruct (in_range 0x30 0x7e b); [reflexivity|]. destruct (b =? 0x1b); [exact IH|].
  by rewrite run_cons.
Qed.

(** *** The ground state *)

Definition c1_result (c : u8) (enc t : bytes) : bytes :=
  match skip_c1 c t with
  | Some rest => run (at_ p Ground) rest
  | None => (if decide (p = StripAnsi) then enc else []) ++ run (at_ p Ground) t
  end.

Lemma run_c1 c encoded t :
  snd (process_c1 (at_ p Ground) c encoded) ++ run (fst (process_c1 (at_ p Ground) c encoded)) t =
  c1_result c ((if encoded then [0xc2] else []) ++ [c]) t.
Proof.
  unfold process_c1, c1_result, skip_c1, set_state, at_; cbn [policy state pending_c2 utf8_remaining].
  destruct (one_of _ c) eqn:E1; destruct (c =? 0x9b) eqn:E2; destruct (c =? 0x9d) eqn:E3;
    reflect_bools; try lia; cbn [fst snd app].
  all: try apply run_control. all: try apply run_csi. all: try apply run_osc.
  destruct (c =? 0x9c); [done|]. by case_decide.
Qed.

Lemma run_continuations n t : (n <= 3)%nat ->
  run (mkSanitizer p Ground false (Z.of_nat n)) t =
  fst (take_continuations n t) ++ run (at_ p Ground) (snd (take_continuations n t)).
Proof.
  revert t. induction n as [|n IH]; intros t Hn; [done|]. destruct t as [|b t].
  { cbn. unfold finish; cbn. by case_decide. }
  cbn [take_continuations]. rewrite run_cons. unfold process; cbn [state].
  unfold process_ground; cbn [pending_c2]. unfold ground_utf8, set_remaining; cbn [utf8_remaining policy state pending_c2].
  rewrite (proj2 (Z.ltb_lt 0 _)) by lia. destruct (in_range 0x80 0xbf b) eqn:E; cbn [fst snd].
  - replace (Z.of_nat (S n) - 1) with (Z.of_nat n) by lia. rewrite IH by lia.
    by destruct (take_continuations n t).
  - cbn [app]. rewrite run_cons. done.
Qed.

(** A byte at the start of nothing: neither ESC, a C1 control nor [0xc2]. *)
Lemma run_plain b t : (b =? 0x1b) = false -> in_range 0x80 0x9f b = false -> (b =? 0xc2) = false ->
  run (at_ p Ground) (b :: t) =
  (if removed_c0 p b then [] else b :: fst (take_continuations (continuations b) t)) ++
  run (at_ p Ground) (snd (take_continuations (continuations b) t)).
Proof.
  intros H1 H2 H3. rewrite run_cons. unfold process, at_; cbn [state]. unfold process_ground, at_; cbn [pending_c2].
  unfold ground_utf8; cbn [utf8_remaining Z.ltb Z.compare]. unfold ground_byte. rewrite H1, H2, H3.
  unfold continuations, removed_c0, set_remaining; cbn [policy state pending_c2].
  destruct (in_range 0xc3 0xdf b) eqn:E1; [|destruct (in_range 0xe0 0xef b) eqn:E2;
    [|destruct (in_range 0xf0 0xf4 b) eqn:E3]]; cbn [fst snd].
  1: rewrite (run_continuations 1) by lia. 2: rewrite (run_continuations 2) by lia.
  3: rewrite (run_continuations 3) by lia.
  1-3: replace ((0 <=? b) && (b <? 32) || (b =? 127)) with false by (symmetry; reflect_bools; lia).
  1-3: by rewrite andb_false_r.
  cbn [take_continuations fst snd].
  replace ((0 <=? b) && (b <? 32) || (b =? 127)) with (in_range 0 31 b || (b =? 127))
    by (unfold in_range; f_equal; f_equal; lia).
  rewrite (andb_comm (bool_decide _)). destruct (_ && bool_decide _); cbn [andb]; [|done].
  by destruct (one_of _ b).
Qed.

Lemma run_held t :
  run (mkSanitizer p Ground true 0) t =
  match t with
  | c :: t' =>
      if in_range 0x80 0x9f c then c1_result c [0xc2; c] t'
      else if in_range 0xa0 0xbf c then 0xc2 :: c :: run (at_ p Ground) t'
      else 0xc2 :: run (at_ p Ground) t
  | [] => [0xc2]
  end.
Proof.
  destruct t as [|c t]. { unfold run, finish; cbn. by rewrite decide_False. }
  rewrite run_cons. unfold process; cbn [state]. unfold process_ground, set_pending; cbn [pending_c2 policy state utf8_remaining].
  destruct (in_range 0x80 0x9f c); [apply (run_c1 c true)|].
  destruct (in_range 0xa0 0xbf c); [done|].
  rewrite run_cons. unfold process, at_; cbn [state]. unfold process_ground; cbn [pending_c2].
  by destruct (ground_utf8 _ c).
Qed.

Lemma skip_to_length f t : (length (skip_to f t) <= length t)%nat.
Proof. induction t as [|b t IH]; cbn; [lia|]. repeat case_match; cbn; lia. Qed.

Lemma skip_string_length bel t : (length (skip_string bel t) <= length t)%nat.
Proof.
  enough (forall n t, (length t <= n)%nat -> (length (skip_string bel t) <= length t)%nat) by eauto.
  clear t. induction n as [|n IH]; intros [|b t] Hn; cbn in *; try lia.
  destruct (_ || _); cbn; [lia|]. destruct (b =? 0x1b); [|specialize (IH t); lia].
  destruct t as [|c t']; [cbn; lia|]. pose proof (IH (c :: t')) as H1. pose proof (IH t') as H2.
  destruct (c =? 0x5c); [cbn; lia|]. cbn [length] in *.
  destruct (c =? 0x1b); [|lia]. etrans; [apply H1|]; lia.
Qed.

Lemma skip_escape_length t : (length (skip_escape t) <= length t)%nat.
Proof.
  induction t as [|b t IH]; cbn; [lia|].
  pose proof (skip_to_length (in_range 64 126) t). pose proof (skip_to_length (in_range 48 126) t).
  pose proof (skip_string_length true t). pose proof (skip_string_length false t).
  repeat case_match; cbn; lia.
Qed.

Lemma skip_c1_length c t rest : skip_c1 c t = Some rest -> (length rest <= length t)%nat.
Proof.
  unfold skip_c1. pose proof (skip_to_length (in_range 64 126) t).
  pose proof (skip_string_length true t). pose proof (skip_string_length false t).
  repeat case_match; intros [= <-]; lia.
Qed.

Lemma take_continuations_length n t : (length (snd (take_continuations n t)) <= length t)%nat.
Proof.
  revert t. induction n as [|n IH]; intros [|b t]; cbn; try lia. case_match; [|cbn; lia].
  specialize (IH t). destruct (take_continuations n t). cbn in *. lia.
Qed.

Lemma run_strip fuel bs : (length bs <= fuel)%nat -> run (at_ p Ground) bs = strip_from fuel p bs.
Proof.
  revert bs. induction fuel as [|fuel IH]; intros [|b t] Hn; cbn [length] in Hn; try lia;
    try (by rewrite run_nil). cbn [strip_from].
  assert (forall c enc t', (length t' <= fuel)%nat -> c1_result c enc t' =
    match skip_c1 c t' with
    | Some rest => strip_from fuel p rest
    | None => (if decide (p = StripAnsi) then enc else []) ++ strip_from fuel p t'
    end) as Hc1.
  { intros c enc t' Ht'. unfold c1_result. destruct (skip_c1 c t') as [rest|] eqn:E; [|by rewrite IH].
    apply skip_c1_length in E. apply IH. lia. }
  destruct (b =? 0x1b) eqn:E1.
  { reflect_bools. subst b. rewrite run_at_escape, run_escape. apply IH.
    pose proof (skip_escape_length t). lia. }
  destruct (in_range 0x80 0x9f b) eqn:E2.
  { rewrite <- Hc1 by lia. rewrite run_cons. unfold process, at_; cbn [state].
    unfold process_ground, ground_utf8, ground_byte, at_; cbn [pending_c2 utf8_remaining Z.ltb Z.compare].
    rewrite E1, E2. apply (run_c1 b false). }
  destruct (b =? 0xc2) eqn:E3.
  { reflect_bools. subst b. rewrite run_cons, process_c2 by (done || apply wf_quiet).
    cbn [held pending_c2 at_ policy fst snd app]. rewrite run_held. destruct t as [|c t]; [done|].
    cbn [length] in Hn. rewrite <- Hc1 by lia. by rewrite <- !IH by (cbn [length]; lia). }
  rewrite run_plain by done. pose proof (take_continuations_length (continuations b) t) as Hl.
  destruct (take_continuations (continuations b) t) as [u rest]. cbn [fst snd] in *.
  by rewrite IH by lia.
Qed.
End Reference.
End Automaton.

(** C5. The automaton implements its reference: whatever the policy, the bytes
    and the chunk boundaries, malformed and unfinished sequences included, a
    stream pushed chunk by chunk and then finished returns exactly what [strip]
    leaves of the whole output. *)
Theorem stream_strips p chunks : stream p chunks = strip p (concat chunks).
Proof.
  rewrite stream_is_sanitize. unfold strip. case_decide as Hp; [subst; apply sanitize_raw|].
  rewrite sanitize_lossy by done. by apply (Automaton.run_strip p Hp).
Qed.
