(* ===== verification/Capture.v ===== *)
(** * Bounded output retention

    Models [crates/sandbox-driver/src/capture.rs]: the buffer that keeps a
    stable head and a rolling tail of a command's output under a cap, and
    counts what it drops. Its counters are [usize] in the code; they count
    bytes held or seen in memory, so they are modelled as [nat]. *)

From S2P Require Import Prelude.

#[local] Open Scope nat_scope.

Record CaptureStats := mkStats {
  observed_bytes : nat;
  retained_bytes : nat;
  omitted_bytes : nat;
  truncated : bool;
}.

Record OutputCaptureBuffer := mkBuffer {
  cap : option nat;
  head_cap : nat;
  head : bytes;
  tail : bytes;
  observed : nat;
  omitted : nat;
}.

Definition new (c : option nat) : OutputCaptureBuffer := {|
  cap := Some (default 0 c);
  head_cap := match c with None => 0 | Some c => c / 2 end;
  head := [];
  tail := [];
  observed := 0;
  omitted := 0;
|}.

(** The bytes of a chunk that still belong to the head, and the rest. *)
Definition fill_head (head_cap : nat) (head chunk : bytes) : bytes * bytes :=
  if length head <? head_cap then
    let n := (head_cap - length head) `min` length chunk in
    (head ++ take n chunk, drop n chunk)
  else (head, chunk).

(** The loop over the bytes left for the tail: a full tail drops its oldest
    byte and counts it. *)
Definition push_tail (tail_cap : nat) (st : bytes * nat) (byte : u8) : bytes * nat :=
  let '(tail, omitted) := st in
  if length tail =? tail_cap
  then (drop 1 tail ++ [byte], omitted + 1)
  else (tail ++ [byte], omitted).

Definition push (b : OutputCaptureBuffer) (chunk : bytes) : OutputCaptureBuffer :=
  let observed' := observed b + length chunk in
  match cap b with
  | None => mkBuffer (cap b) (head_cap b) (head b ++ chunk) (tail b) observed' (omitted b)
  | Some c =>
      let '(head', rest) := fill_head (head_cap b) (head b) chunk in
      let tail_cap := c - head_cap b in
      if tail_cap =? 0 then
        mkBuffer (cap b) (head_cap b) head' (tail b) observed' (omitted b + length rest)
      else
        let '(tail', omitted') := foldl (push_tail tail_cap) (tail b, omitted b) rest in
        mkBuffer (cap b) (head_cap b) head' tail' observed' omitted'
  end.

Definition stats (b : OutputCaptureBuffer) : CaptureStats :=
  mkStats (observed b) (length (head b) + length (tail b)) (omitted b) false.

Definition retained_slices (b : OutputCaptureBuffer) : bytes * bytes := (head b, tail b).

Definition to_bytes (b : OutputCaptureBuffer) : bytes := head b ++ tail b.

Definition into_parts (b : OutputCaptureBuffer) : bytes * CaptureStats :=
  let bs := head b ++ tail b in
  (bs, mkStats (observed b) (length bs) (omitted b) false).

Definition push_all (b : OutputCaptureBuffer) (chunks : list bytes) : OutputCaptureBuffer :=
  foldl push b chunks.

Example keeps_stable_head_and_rolling_tail :
  fst (into_parts (push (new (Some 8)) [0;1;2;3;4;5;6;7;8;9;10;11;12;13;14;15]%Z))
  = [0;1;2;3;12;13;14;15]%Z.
Proof. reflexivity. Qed.

(** ** Specification *)

Section spec.
Context {A : Type}.
Implicit Type l : list A.

(** The newest [n] elements. *)
Definition newest (n : nat) l : list A := drop (length l - n) l.

(** What a cap of [n] retains of an output: its first [n / 2] elements and
    the newest of the rest. *)
Definition head_tail (n : nat) l : list A :=
  take (n / 2) l ++ newest (n - n / 2) (drop (n / 2) l).

Lemma length_newest n l : length (newest n l) = n `min` length l.
Proof. unfold newest. rewrite length_drop. lia. Qed.

Lemma newest_snoc n l x : 0 < n ->
  newest n (l ++ [x]) =
  if length (newest n l) =? n then drop 1 (newest n l) ++ [x] else newest n l ++ [x].
Proof.
  intros Hn. rewrite length_newest. unfold newest. rewrite length_app; cbn.
  case_match eqn:E; [apply Nat.eqb_eq in E|apply Nat.eqb_neq in E].
  - rewrite drop_drop, drop_app_le by lia. f_equal. f_equal. lia.
  - replace (length l + 1 - n) with 0 by lia.
    by replace (length l - n) with 0 by lia.
Qed.

Lemma half_le n : n / 2 <= n.
Proof. apply Nat.Div0.div_le_upper_bound; lia. Qed.

Lemma head_tail_all n l : length l <= n -> head_tail n l = l.
Proof.
  intros H. unfold head_tail, newest. rewrite length_drop.
  pose proof (half_le n).
  replace (length l - n / 2 - (n - n / 2)) with 0 by lia.
  by rewrite drop_0, take_drop.
Qed.

Lemma length_head_tail n l : length (head_tail n l) = n `min` length l.
Proof.
  unfold head_tail. rewrite length_app, length_take, length_newest, length_drop.
  pose proof (half_le n). lia.
Qed.
End spec.

Arguments head_tail : simpl never.

(** The buffer that has seen exactly [l] under a cap of [n]. *)
Definition having_seen (n : nat) (l : bytes) : OutputCaptureBuffer :=
  mkBuffer (Some n) (n / 2) (take (n / 2) l) (newest (n - n / 2) (drop (n / 2) l))
    (length l) (length l - n).

Lemma foldl_push_tail t xs rest : 0 < t ->
  foldl (push_tail t) (newest t xs, length xs - t) rest =
  (newest t (xs ++ rest), length (xs ++ rest) - t).
Proof.
  intros Ht. revert xs. induction rest as [|x rest IH]; intros xs; cbn.
  { by rewrite app_nil_r. }
  replace (xs ++ x :: rest) with ((xs ++ [x]) ++ rest) by (by rewrite <- app_assoc).
  rewrite <- IH. f_equal. rewrite newest_snoc by done. rewrite length_newest.
  rewrite length_app; cbn. case_match eqn:E; f_equal;
    [apply Nat.eqb_eq in E|apply Nat.eqb_neq in E]; lia.
Qed.

Lemma fill_head_take h l chunk :
  fill_head h (take h l) chunk = (take h (l ++ chunk), drop (h - length l) chunk).
Proof.
  unfold fill_head. rewrite length_take, take_app. destruct (_ <? _) eqn:E;
    [apply Nat.ltb_lt in E|apply Nat.ltb_ge in E]; f_equal.
  - f_equal. destruct (decide (h - length l <= length chunk)); [f_equal; lia|].
    rewrite !take_ge by lia. done.
  - destruct (decide (h - length l <= length chunk)); [f_equal; lia|].
    rewrite !drop_ge by lia. done.
  - replace (h - length l) with 0 by lia. by rewrite take_0, app_nil_r.
  - by replace (h - length l) with 0 by lia.
Qed.

Lemma push_having_seen n l chunk :
  push (having_seen n l) chunk = having_seen n (l ++ chunk).
Proof.
  pose proof (half_le n) as Hh. set (h := n / 2) in *.
  unfold push, having_seen; cbn [cap head_cap head tail observed omitted]. fold h.
  rewrite fill_head_take.
  rewrite drop_app, length_app.
  destruct (n - h =? 0) eqn:E; [apply Nat.eqb_eq in E|apply Nat.eqb_neq in E].
  - f_equal; [rewrite E; unfold newest; rewrite !Nat.sub_0_r, !drop_ge; done|].
    rewrite length_drop. lia.
  - replace (length l - n) with (length (drop h l) - (n - h)) by (rewrite length_drop; lia).
    rewrite foldl_push_tail by lia. f_equal. rewrite length_app, !length_drop. lia.
Qed.

Lemma captured_parts c chunks :
  let n := default 0 c in
  let output := concat chunks in
  into_parts (push_all (new c) chunks) =
    (head_tail n output,
     mkStats (length output) (n `min` length output) (length output - n) false).
Proof.
  intros n output.
  assert (forall l, push_all (having_seen n l) chunks = having_seen n (l ++ output)) as Hall.
  { subst output. unfold push_all.
    induction chunks as [|x xs IH]; intros l; cbn [foldl concat]; [by rewrite app_nil_r|].
    rewrite push_having_seen, app_assoc. apply IH. }
  assert (new c = having_seen n []) as ->.
  { subst n. unfold new, having_seen, newest. destruct c; cbn -[Nat.div];
      by rewrite ?take_nil, !drop_nil. }
  rewrite Hall. cbn [app]. unfold into_parts, having_seen; cbn [head tail observed omitted].
  fold (head_tail n output). by rewrite length_head_tail.
Qed.

Lemma stats_having_seen n l :
  stats (having_seen n l) = mkStats (length l) (n `min` length l) (length l - n) false.
Proof.
  unfold stats, having_seen. cbn [observed omitted head tail]. f_equal.
  rewrite <- length_app. by rewrite <- length_head_tail.
Qed.

Lemma stats_into_parts b : stats b = snd (into_parts b).
Proof. unfold stats, into_parts. cbn. by rewrite length_app. Qed.

(** The buffer's contract, whatever the chunking: under a cap of [n] it
    retains the first [n / 2] bytes and the newest [n - n / 2] of the rest
    (everything, when the output fits: [head_tail_all]); it reports every byte
    observed and exactly the bytes it dropped as omitted; no cap retains
    nothing. *)
Theorem capture_spec c chunks :
  let n := default 0 c in
  let output := concat chunks in
  let b := push_all (new c) chunks in
  into_parts b =
    (head_tail n output,
     mkStats (length output) (n `min` length output) (length output - n) false) /\
  stats b = snd (into_parts b) /\ to_bytes b = fst (into_parts b) /\
  observed_bytes (stats b) = retained_bytes (stats b) + omitted_bytes (stats b).
Proof.
  intros n output b. subst b. rewrite captured_parts, stats_into_parts, captured_parts.
  split_and!; try done; [|cbn; lia].
  unfold to_bytes. pose proof (captured_parts c chunks) as H. by injection H.
Qed.
