(* ===== verification/Exec.v ===== *)
(** * The execution contract's values

    Models the plain data and the pure operations of
    [crates/sandbox-driver/src/exec.rs]: the spec and its builder, the Bash
    helper's environment, stop levels and terminations, results and their
    completeness, and the hand-over of a streamed standard input. Durations and
    instants are integers; strings are their UTF-8 bytes. *)

From S2P Require Import Prelude Sanitize Capture.

#[local] Open Scope string_scope.
#[local] Open Scope Z_scope.

Inductive StopLevel := Term | Kill.
Inductive Termination := Exited | TimedOut | Cancelled | Killed | Unknown.

#[export] Instance StopLevel_eq_dec : EqDecision StopLevel.
Proof. solve_decision. Defined.
#[export] Instance Termination_eq_dec : EqDecision Termination.
Proof. solve_decision. Defined.

(** [StopLevel::termination]. *)
Definition level_termination (l : StopLevel) : Termination :=
  match l with Term => Cancelled | Kill => Killed end.

(** ** Specs *)

Record ExecSpec := mkSpec {
  program : string;
  args : list string;
  timeout : option Z;
  stop_grace : option Z;
  working_dir : option string;
  env : gmap string string;
  spec_stdin : option bytes;
  output_sanitization : OutputSanitization;
}.

Definition BASH := "bash".
Definition BASH_COMMAND_FLAG := "-c".
Definition BASH_ENV_VAR := "BASH_ENV".

(** One second, in the milliseconds durations are counted in. *)
Definition DEFAULT_TIMEOUT : Z := 3600 * 1000.

Definition spec_new (p : string) : ExecSpec :=
  mkSpec p [] (Some DEFAULT_TIMEOUT) None None ∅ None Raw.

Definition spec_args (l : list string) (s : ExecSpec) : ExecSpec :=
  mkSpec (program s) (args s ++ l) (timeout s) (stop_grace s) (working_dir s) (env s)
    (spec_stdin s) (output_sanitization s).

Definition spec_arg (a : string) (s : ExecSpec) : ExecSpec := spec_args [a] s.

Definition spec_timeout (t : option Z) (s : ExecSpec) : ExecSpec :=
  mkSpec (program s) (args s) t (stop_grace s) (working_dir s) (env s)
    (spec_stdin s) (output_sanitization s).

Definition no_timeout (s : ExecSpec) : ExecSpec := spec_timeout None s.

Definition spec_stop_grace (g : option Z) (s : ExecSpec) : ExecSpec :=
  mkSpec (program s) (args s) (timeout s) g (working_dir s) (env s)
    (spec_stdin s) (output_sanitization s).

Definition env_var (k v : string) (s : ExecSpec) : ExecSpec :=
  mkSpec (program s) (args s) (timeout s) (stop_grace s) (working_dir s)
    (<[k := v]> (env s)) (spec_stdin s) (output_sanitization s).

Definition bash (script : string) : ExecSpec :=
  env_var BASH_ENV_VAR EmptyString
    (spec_args [BASH_COMMAND_FLAG; script] (spec_new BASH)).

Definition is_bash_helper (s : ExecSpec) : bool :=
  bool_decide (program s = BASH) && bool_decide (hd_error (args s) = Some BASH_COMMAND_FLAG).

(** [is_none_or] over the lookup: an absent variable, or one with a value,
    is blanked. *)
Definition launch_env (bash_helper : bool) (e : gmap string string) : gmap string string :=
  if bash_helper && match e !! BASH_ENV_VAR with
                    | None => true
                    | Some v => negb (bool_decide (v = EmptyString))
                    end
  then <[BASH_ENV_VAR := EmptyString]> e
  else e.

Definition spec_launch_env (s : ExecSpec) : gmap string string :=
  launch_env (is_bash_helper s) (env s).

(** The builder calls that can follow [ExecSpec::bash]. *)
Inductive spec_op :=
  | OpArgs (l : list string)
  | OpTimeout (t : option Z)
  | OpStopGrace (g : option Z)
  | OpEnvVar (k v : string).

Definition apply_op (s : ExecSpec) (o : spec_op) : ExecSpec :=
  match o with
  | OpArgs l => spec_args l s
  | OpTimeout t => spec_timeout t s
  | OpStopGrace g => spec_stop_grace g s
  | OpEnvVar k v => env_var k v s
  end.

Lemma launch_env_other h e k : k <> BASH_ENV_VAR -> launch_env h e !! k = e !! k.
Proof. intros Hk. unfold launch_env. case_match; [by rewrite lookup_insert_ne|done]. Qed.

Lemma launch_env_blank e : launch_env true e !! BASH_ENV_VAR = Some EmptyString.
Proof.
  unfold launch_env. destruct (e !! BASH_ENV_VAR) as [v|] eqn:E; cbn [andb].
  - case_bool_decide; cbn [negb]; [by subst|by rewrite lookup_insert_eq].
  - by rewrite lookup_insert_eq.
Qed.

Lemma bash_helper_op s o : is_bash_helper s = true -> is_bash_helper (apply_op s o) = true.
Proof.
  unfold is_bash_helper. intros [H1 H2]%andb_true_iff. destruct o; cbn; apply andb_true_iff; split;
    try done.
  apply bool_decide_eq_true in H2. apply bool_decide_eq_true.
  destruct (args s); cbn in *; congruence.
Qed.

Lemma bash_helper_ops s ops : is_bash_helper s = true -> is_bash_helper (foldl apply_op s ops) = true.
Proof. revert s. induction ops as [|o ops IH]; intros s Hs; [done|]. apply IH, bash_helper_op, Hs. Qed.

(** The environment a caller's builder calls ask for. *)
Definition op_env (e : gmap string string) (o : spec_op) : gmap string string :=
  match o with OpEnvVar k v => <[k := v]> e | _ => e end.

Lemma env_ops s ops : env (foldl apply_op s ops) = foldl op_env (env s) ops.
Proof. revert s. induction ops as [|o ops IH]; intros s; [done|]. cbn. rewrite IH. by destruct o. Qed.

(** Whatever builder calls follow [ExecSpec::bash], the script launches with
    [BASH_ENV] blank, so no startup file runs ahead of it, and with every other
    variable as the caller set it. *)
Theorem bash_env_blank script ops :
  let s := foldl apply_op (bash script) ops in
  spec_launch_env s !! BASH_ENV_VAR = Some EmptyString /\
  delete BASH_ENV_VAR (spec_launch_env s) = delete BASH_ENV_VAR (foldl op_env ∅ ops).
Proof.
  intros s. unfold spec_launch_env.
  assert (is_bash_helper s = true) as -> by (apply bash_helper_ops; reflexivity).
  split; [apply launch_env_blank|].
  apply map_eq. intros k. destruct (decide (k = BASH_ENV_VAR)) as [->|Hk].
  - by rewrite !lookup_delete_eq.
  - rewrite !lookup_delete_ne, launch_env_other by done.
    subst s. rewrite env_ops. cbn [bash env_var env spec_args spec_new].
    assert (forall e1 e2 : gmap string string, e1 !! k = e2 !! k ->
              foldl op_env e1 ops !! k = foldl op_env e2 ops !! k) as Hops.
    { clear -ops. induction ops as [|o ops IH]; intros e1 e2 He; [done|]. cbn. apply IH.
      destruct o as [| | |k' v]; cbn; try done.
      destruct (decide (k = k')) as [->|]; [by rewrite !lookup_insert_eq|by rewrite !lookup_insert_ne]. }
    apply Hops. by rewrite lookup_insert_ne.
Qed.

(** ** Results *)

Record ExecResult := mkResult {
  res_stdout : bytes;
  res_stderr : bytes;
  exit_code : option Z;
  res_signal : option Z;
  res_termination : Termination;
  duration : Z;
}.

Definition result_new (t : Termination) (code : option Z) (d : Z) : ExecResult :=
  mkResult [] [] code None t d.

Definition from_shell_status (t : Termination) (status : option Z) (d : Z) : ExecResult :=
  let r := result_new t status d in
  match status with
  | Some code =>
      if in_range 129 192 code
      then mkResult (res_stdout r) (res_stderr r) (exit_code r) (Some (code - 128))
             (res_termination r) (duration r)
      else r
  | None => r
  end.

Definition success (r : ExecResult) : bool :=
  bool_decide (res_termination r = Exited) && bool_decide (exit_code r = Some 0).

Record OutputLoss := mkLoss { dropped_frames : Z; dropped_bytes : Z }.

Definition no_loss : OutputLoss := mkLoss 0 0.

Definition is_lossy (l : OutputLoss) : bool :=
  negb (dropped_frames l =? 0) || negb (dropped_bytes l =? 0).

(** [CaptureStats::complete]. *)
Definition complete (n : nat) : CaptureStats := mkStats n n 0 false.

Record ExecStreamingResult := mkStreaming {
  sr_result : ExecResult;
  streams_separated : bool;
  live_streaming : bool;
  stdout_capture : CaptureStats;
  stderr_capture : CaptureStats;
  output_loss : OutputLoss;
}.

Definition streaming_new (r : ExecResult) : ExecStreamingResult :=
  mkStreaming r false false (complete (length (res_stdout r)))
    (complete (length (res_stderr r))) no_loss.

(** The two errors [into_complete] returns; the transport error's message is
    a constant. *)
Inductive incomplete := DeliveryIncomplete | LimitExceeded (max_bytes : nat).

Definition into_complete (s : ExecStreamingResult) : result ExecResult incomplete :=
  if truncated (stdout_capture s) || truncated (stderr_capture s) || is_lossy (output_loss s)
  then Err DeliveryIncomplete
  else if negb (omitted_bytes (stdout_capture s) =? 0)%nat
       || negb (omitted_bytes (stderr_capture s) =? 0)%nat
  then Err (LimitExceeded (retained_bytes (stdout_capture s) `max` retained_bytes (stderr_capture s)))
  else Ok (sr_result s).

(** A streaming result whose two buffers were filled by capturing [out] and
    [err] in chunks under a cap, the way every provider builds one. *)
Definition captured (c : option nat) (out err : list bytes) (t : Termination)
    (code : option Z) (d : Z) (loss : OutputLoss) : ExecStreamingResult :=
  let '(o, os) := into_parts (push_all (Capture.new c) out) in
  let '(e, es) := into_parts (push_all (Capture.new c) err) in
  mkStreaming (mkResult o e code None t d) true true os es loss.

(** ** Standard input *)

(** A [StdinSource] shared by every clone of the controls: the reader, until
    a provider takes it. *)
Definition StdinSource := option bytes.

Definition source_take (s : StdinSource) : option bytes * StdinSource := (s, None).

(** [ExecControls::stdin_reader]: the reader the command is fed, and the
    source afterwards. *)
Definition stdin_reader (source : option StdinSource) (fixed : option bytes)
    : option bytes * option StdinSource :=
  match source, fixed with
  | Some s, _ => let '(r, s') := source_take s in (Some (default [] r), Some s')
  | None, Some bs => (Some bs, None)
  | None, None => (None, None)
  end.

Inductive ErrorKind := BrokenPipe | ConnectionReset | ConnectionAborted | OtherKind.

Inductive stdin_error := WritingStdin (k : ErrorKind) | ClosingStdin (k : ErrorKind) | WriterPanicked.

Definition is_disconnect (k : ErrorKind) : bool :=
  match k with BrokenPipe | ConnectionReset | ConnectionAborted => true | OtherKind => false end.

(** [feed_stdin] over the results of copying the reader and of shutting the
    pipe down. *)
Definition feed_stdin (copied shutdown : result unit ErrorKind) : result unit stdin_error :=
  match copied with
  | Err k => if is_disconnect k then Ok tt else Err (WritingStdin k)
  | Ok _ =>
      match shutdown with
      | Err k => if is_disconnect k then Ok tt else Err (ClosingStdin k)
      | Ok _ => Ok tt
      end
  end.

(** How an aborted writer task joins. *)
Inductive joined := Finished (r : result unit stdin_error) | JoinCancelled | JoinPanicked.

Definition finish_stdin_writer (task : joined) : result unit stdin_error :=
  match task with
  | Finished r => r
  | JoinCancelled => Ok tt
  | JoinPanicked => Err WriterPanicked
  end.

(** Bytes a cap of [n] drops. *)
Lemma capture_omits n (l : bytes) : (length l - n =? 0)%nat = true <-> (length l <= n)%nat.
Proof. rewrite Nat.eqb_eq. lia. Qed.

(** A captured result converts to a complete one exactly when the
    transport lost nothing and both outputs fit the cap; the complete result
    then carries every byte of both outputs. A loss is reported as a delivery
    failure, an overflow as the limit, and neither passes as success. *)
Theorem into_complete_captured c out err t code d loss :
  let fits l := (length (concat l) <= default 0 c)%nat in
  match into_complete (captured c out err t code d loss) with
  | Ok r => loss = no_loss /\ fits out /\ fits err /\
      res_stdout r = concat out /\ res_stderr r = concat err /\
      res_termination r = t /\ exit_code r = code
  | Err DeliveryIncomplete => loss <> no_loss
  | Err (LimitExceeded m) => loss = no_loss /\ ~ (fits out /\ fits err) /\ m = default 0%nat c
  end.
Proof.
  intros fits. unfold captured. rewrite !captured_parts. cbn -[is_lossy Nat.eqb].
  unfold into_complete; cbn -[is_lossy Nat.eqb].
  destruct loss as [f b]. unfold no_loss.
  destruct (is_lossy (mkLoss f b)) eqn:El; unfold is_lossy in El; cbn in El.
  { intros [= -> ->]. done. }
  reflect_bools; subst.
  destruct (_ =? 0)%nat eqn:Eo; cbn [negb orb].
  - apply capture_omits in Eo.
    destruct (length (concat err) - _ =? 0)%nat eqn:Ee; cbn [negb].
    + apply capture_omits in Ee. cbn. rewrite !head_tail_all by done. done.
    + apply Nat.eqb_neq in Ee. split; [done|]. subst fits. cbn. split; lia.
  - apply Nat.eqb_neq in Eo. split; [done|]. subst fits. cbn. split; lia.
Qed.

(** A shell status is kept as the exit code; a signal is reported exactly
    for 128 + N with N a signal number from 1 to 64; success is an unprompted
    exit with code 0. *)
Theorem from_shell_status_spec t status d :
  let r := from_shell_status t status d in
  exit_code r = status /\ res_termination r = t /\
  (forall n, res_signal r = Some n <-> 1 <= n <= 64 /\ status = Some (128 + n)) /\
  (success r = true <-> t = Exited /\ status = Some 0).
Proof.
  intros r. subst r. unfold from_shell_status, success.
  destruct status as [code|]; cbn.
  - unfold in_range. destruct (_ && _) eqn:E; cbn.
    + apply andb_true_iff in E as [E1 E2]. apply Z.leb_le in E1. apply Z.leb_le in E2.
      split_and!; try done.
      * intros n. split; [intros [= <-]; split; [lia|f_equal; lia]|intros [? [= ->]]; f_equal; lia].
      * rewrite andb_true_iff, !bool_decide_eq_true. done.
    + split_and!; try done.
      * intros n. split; [done|]. intros [? [= ->]]. apply andb_false_iff in E. lia.
      * rewrite andb_true_iff, !bool_decide_eq_true. done.
  - split_and!; try done.
    + intros n. split; [done|]. by intros [? ?].
    + rewrite andb_true_iff, !bool_decide_eq_true. done.
Qed.
