(* ===== verification/Drain.v ===== *)
(** * The raw stop race

    Models [crates/sandbox-driver/src/drain.rs]: the race between a command's
    output drain and everything that can ask the command to stop.

    Futures are modelled by the instant at which they resolve ([None] is
    never). [tokio::select!] waits until an enabled branch is ready and takes
    one of the ready ones; which one is the scheduler's choice, an oracle
    [tie] that every theorem quantifies over. The drain's instant may depend on
    the stops already delivered, the [stop] callback takes time and can fail. *)

From S2P Require Import Prelude Exec.

#[local] Open Scope Z_scope.

Inductive StopPhase := Running | TermSent | KillSent (drain_until : Z).

Definition kill_sent (p : StopPhase) : bool :=
  match p with KillSent _ => true | _ => false end.

(** [StopPhase::after_kill] at the instant [now]. *)
Definition after_kill (now drain_grace : Z) : StopPhase := KillSent (now + drain_grace).

Definition phase_stop_sent (p : StopPhase) : option StopLevel :=
  match p with
  | Running => None
  | TermSent => Some Term
  | KillSent _ => Some Kill
  end.

Record DrainOutcome (T : Type) := mkOutcome {
  termination : Termination;
  drained : option T;
  stop_sent : option StopLevel;
}.
Arguments mkOutcome {T}.
Arguments termination {T}.
Arguments drained {T}.
Arguments stop_sent {T}.

(** The instants at which the caller's tokens fire. *)
Record tokens := mkTokens { term : option Z; kill : option Z }.

(** What the race has done when it stands at the top of its loop. [sent]
    lists the stops delivered, with the instant each was asked for. *)
Record race := mkRace {
  now : Z;
  phase : StopPhase;
  why : Termination;
  sent : list (Z * StopLevel);
}.

(** The arms of the [select!], in the order of the source. *)
Inductive branch := DrainDone | SinkFailed | Termed | KillFired | Deadline | DrainTimeout.

(** The race's result, with the stops it asked for and the instant it ended.
    [Pending] is a race no branch of which ever resolves. *)
Inductive race_end (T E : Type) :=
  | Finished (o : DrainOutcome T) (stops : list (Z * StopLevel)) (at_ : Z)
  | StopFailed (e : E) (stops : list (Z * StopLevel))
  | Pending (r : race)
  | OutOfFuel.
Arguments Finished {T E}.
Arguments StopFailed {T E}.
Arguments Pending {T E}.
Arguments OutOfFuel {T E}.

(** The earlier of two instants that may never come. *)
Definition earlier (a b : option Z) : option Z :=
  match a, b with
  | Some x, Some y => Some (Z.min x y)
  | Some x, None => Some x
  | None, b => b
  end.

(** The ready branch the scheduler takes. *)
Definition nth_branch (n : nat) (l : list branch) : option branch := l !! (n `mod` length l)%nat.

Section Race.
Context {T Failure : Type}.
Variable drain_at : list (Z * StopLevel) -> option (Z * T).
Variable stop : StopLevel -> Z -> Z * option Failure.
Variable sink_failed : option Z.
Variable controls : tokens.
Variable timeout : option Z.
Variable drain_grace : Z.
Variable tie : race -> nat.

(** When a branch resolves, if its guard lets it be polled. *)
Definition instant (r : race) (b : branch) : option Z :=
  match b with
  | DrainDone => fst <$> drain_at (sent r)
  | SinkFailed => if negb (kill_sent (phase r)) then sink_failed else None
  | Termed => match phase r with Running => term controls | _ => None end
  | KillFired => if negb (kill_sent (phase r)) then kill controls else None
  | Deadline => if negb (kill_sent (phase r)) then timeout else None
  | DrainTimeout => match phase r with KillSent drain_until => Some drain_until | _ => None end
  end.

Definition branches : list branch :=
  [DrainDone; SinkFailed; Termed; KillFired; Deadline; DrainTimeout].

(** The instant the select wakes at when a branch resolving at [t] wins: a
    future that resolved while a stop was awaited is ready at once. *)
Definition ready_at (r : race) (b : branch) : option Z := Z.max (now r) <$> instant r b.

Definition wakes (r : race) : option Z :=
  foldr (fun b acc => earlier (ready_at r b) acc) None branches.

Definition ready (r : race) (t : Z) : list branch :=
  List.filter (fun b => bool_decide (ready_at r b = Some t)) branches.

Definition select (r : race) : option (Z * branch) :=
  match wakes r with
  | None => None
  | Some t => match nth_branch (tie r) (ready r t) with Some b => Some (t, b) | None => None end
  end.

(** A stop arm: record why, move the phase, then await the callback. *)
Definition send (r : race) (t : Z) (why' : Termination) (phase' : StopPhase) (level : StopLevel)
    : result race (Failure * list (Z * StopLevel)) :=
  let '(t', failed) := stop level t in
  match failed with
  | Some e => Err (e, sent r ++ [(t, level)])
  | None => Ok (mkRace t' phase' why' (sent r ++ [(t, level)]))
  end.

(** After the loop: a sink that failed as the drain ended still gets its
    kill. *)
Definition settle (r : race) (d : option T) : race_end T Failure :=
  let cancelled := match sink_failed with Some s => s <=? now r | None => false end in
  if cancelled && negb (kill_sent (phase r)) then
    match send r (now r) Cancelled (phase r) Kill with
    | Ok r' => Finished (mkOutcome Cancelled d (Some Kill)) (sent r') (now r')
    | Err (e, stops) => StopFailed e stops
    end
  else Finished (mkOutcome (why r) d (phase_stop_sent (phase r))) (sent r) (now r).

(** One turn of the loop: [inl] continues, [inr] leaves it with what was
    drained or with a failed stop. *)
Definition turn (r : race) (t : Z) (b : branch) : race + race_end T Failure :=
  let stopped x := match x with Ok r' => inl r' | Err (e, stops) => inr (StopFailed e stops) end in
  match b with
  | DrainDone => inr (settle (mkRace t (phase r) (why r) (sent r)) (snd <$> drain_at (sent r)))
  | SinkFailed => stopped (send r t Cancelled (after_kill t drain_grace) Kill)
  | Termed => stopped (send r t Cancelled TermSent Term)
  | KillFired => stopped (send r t Killed (after_kill t drain_grace) Kill)
  | Deadline => stopped (send r t TimedOut (after_kill t drain_grace) Kill)
  | DrainTimeout => inr (settle (mkRace t (phase r) (why r) (sent r)) None)
  end.

Fixpoint race_loop (fuel : nat) (r : race) : race_end T Failure :=
  match fuel with
  | O => OutOfFuel
  | S fuel =>
      match select r with
      | None => Pending r
      | Some (t, b) => match turn r t b with inl r' => race_loop fuel r' | inr e => e end
      end
  end.

Definition start : race := mkRace 0 Running Exited [].

(** A term, a kill and the turn that leaves the loop: three turns. *)
Definition drain_with_stops : race_end T Failure := race_loop 3 start.

(** ** The scheduler's choice *)

Lemma earlier_min a b t : earlier a b = Some t ->
  (a = Some t \/ b = Some t) /\ (forall x, a = Some x -> t <= x) /\ (forall x, b = Some x -> t <= x).
Proof.
  destruct a as [x|], b as [y|]; cbn; intros [= <-]; (split; [|split]); try (intros ? [= <-]; lia); auto.
  destruct (Z.min_spec x y) as [[_ ->]|[_ ->]]; auto.
Qed.

Lemma earlier_none a b : earlier a b = None -> a = None /\ b = None.
Proof. by destruct a, b. Qed.

Lemma elem_branches b : In b branches.
Proof. destruct b; cbn; tauto. Qed.

Lemma foldr_wakes r l t : foldr (fun b acc => earlier (ready_at r b) acc) None l = Some t ->
  (exists b, In b l /\ ready_at r b = Some t) /\
  (forall b t', In b l -> ready_at r b = Some t' -> t <= t').
Proof.
  revert t. induction l as [|b l IH]; intros t; [done|]. cbn [foldr]. intros H.
  apply earlier_min in H as ([H|H] & Hb & Hl).
  - split; [exists b; cbn; auto|]. intros b' t' [<-|Hin] Ht'; [auto|].
    destruct (foldr _ None l) as [u|] eqn:Eu.
    + specialize (IH u eq_refl) as [_ IH]. specialize (IH _ _ Hin Ht'). specialize (Hl u eq_refl). lia.
    + exfalso. clear -Eu Hin Ht'. induction l as [|b l IH]; cbn in *; [done|].
      apply earlier_none in Eu as [E1 E2]. destruct Hin as [->|Hin]; [congruence|auto].
  - destruct (IH t H) as [(b0 & Hin & E0) Hmin]. split; [exists b0; cbn; auto|].
    intros b' t' [<-|Hin'] Ht'; eauto.
Qed.

Lemma select_some r t b : select r = Some (t, b) ->
  ready_at r b = Some t /\ (forall b' t', ready_at r b' = Some t' -> t <= t').
Proof.
  unfold select. destruct (wakes r) as [u|] eqn:E; [|done].
  destruct (nth_branch _ _) as [b0|] eqn:E0; [|done]. intros [= -> ->].
  unfold nth_branch in E0. apply list_elem_of_lookup_2, list_elem_of_In in E0.
  unfold ready in E0. apply List.filter_In in E0 as [_ E0%bool_decide_eq_true]. split; [done|].
  intros b' t' Hb'. apply (proj2 (foldr_wakes _ _ _ E) b' t'); [apply elem_branches|done].
Qed.

Lemma select_none r : select r = None -> forall b, instant r b = None.
Proof.
  unfold select. destruct (wakes r) as [u|] eqn:E.
  - destruct (foldr_wakes _ _ _ E) as [(b & Hin & Hb) _].
    destruct (nth_branch _ _) as [b0|] eqn:E0; [done|]. exfalso.
    unfold nth_branch in E0. apply lookup_ge_None in E0.
    assert (In b (ready r u)) as Hr.
    { unfold ready. apply List.filter_In. split; [done|]. by apply bool_decide_eq_true. }
    destruct (ready r u) as [|x l]; [done|].
    pose proof (Nat.mod_upper_bound (tie r) (length (x :: l)) ltac:(done)). lia.
  - intros _ b. unfold wakes in E. pose proof (elem_branches b) as Hin. revert E Hin.
    generalize branches. induction l as [|b' l IH]; cbn; [done|].
    intros [E1 E2]%earlier_none [->|Hin]; [|auto].
    unfold ready_at in E1. by destruct (instant r b).
Qed.

(** Each branch's guard and instant, as a selected branch meets them. *)
Lemma selected r t b : select r = Some (t, b) ->
  now r <= t /\ (exists x, instant r b = Some x /\ t = Z.max (now r) x) /\
  forall b' x, instant r b' = Some x -> t <= Z.max (now r) x.
Proof.
  intros [Hb Hmin]%select_some. unfold ready_at in *.
  destruct (instant r b) as [x|] eqn:E; cbn in Hb; [|done]. injection Hb as <-.
  split; [lia|]. split; [eauto|]. intros b' y Ey. apply (Hmin b'). by rewrite Ey.
Qed.

(** ** Turns *)

(** How many more stops a phase leaves room for. *)
Definition rank (r : race) : nat :=
  match phase r with Running => 2 | TermSent => 1 | KillSent _ => 0 end.

Lemma send_ok r t w p l r' : send r t w p l = Ok r' ->
  r' = mkRace (fst (stop l t)) p w (sent r ++ [(t, l)]).
Proof. unfold send. destruct (stop l t) as [? [?|]]; [done|]. by intros [= <-]. Qed.

Lemma turn_rank r t b r' : select r = Some (t, b) -> turn r t b = inl r' -> (rank r' < rank r)%nat.
Proof.
  intros Hs. destruct (selected _ _ _ Hs) as (_ & (x & Hx & _) & _). unfold turn, rank.
  destruct b; cbn in Hx; try done;
    (destruct (phase r) eqn:Ep; cbn in Hx; try done);
    (destruct (send r t _ _ _) as [?|[]] eqn:Esend; [|done]); intros [= <-];
    apply send_ok in Esend as ->; cbn; lia.
Qed.

(** Induction over the loop: an invariant that every turn keeps, and a
    postcondition that every way out of the loop meets. *)
Lemma race_loop_ind (I : race -> Prop) (Post : race_end T Failure -> Prop) :
  (forall r t b, I r -> select r = Some (t, b) ->
     match turn r t b with inl r' => I r' | inr e => Post e end) ->
  (forall r, I r -> select r = None -> Post (Pending r)) ->
  forall fuel r, I r -> (rank r < fuel)%nat -> Post (race_loop fuel r).
Proof.
  intros Hturn Hpend fuel. induction fuel as [|fuel IH]; intros r Hr Hf; [lia|]. cbn.
  destruct (select r) as [[t b]|] eqn:Es; [|auto].
  specialize (Hturn _ _ _ Hr Es). destruct (turn r t b) as [r'|e] eqn:Et; [|done].
  apply IH; [done|]. pose proof (turn_rank _ _ _ _ Es Et). lia.
Qed.

(** ** What the race promises *)

Definition fired (o : option Z) (t : Z) : Prop := exists x, o = Some x /\ x <= t.

(** A kill at [k] happened for the reason the termination gives. *)
Definition killed_for (w : Termination) (k : Z) : Prop :=
  match w with
  | Cancelled => fired sink_failed k
  | Killed => fired (kill controls) k
  | TimedOut => fired timeout k
  | Exited | Unknown => False
  end.

(** The stops of a race, the reason it reports and the strongest stop: none;
    one term; or one kill, perhaps after one term. *)
Inductive stopped : option StopLevel -> Termination -> list (Z * StopLevel) -> Prop :=
  | stopped_not : stopped None Exited []
  | stopped_term t : fired (term controls) t -> stopped (Some Term) Cancelled [(t, Term)]
  | stopped_kill k w : killed_for w k -> stopped (Some Kill) w [(k, Kill)]
  | stopped_both t k w : fired (term controls) t -> t <= k -> killed_for w k ->
      stopped (Some Kill) w [(t, Term); (k, Kill)].

Definition race_ok (r : race) : Prop :=
  stopped (phase_stop_sent (phase r)) (why r) (sent r) /\
  (forall t l, In (t, l) (sent r) -> t <= now r) /\
  (forall u, phase r = KillSent u -> exists k, In (k, Kill) (sent r) /\ u = k + drain_grace).

Definition outcome_ok (e : race_end T Failure) : Prop :=
  match e with
  | Finished o stops end_ =>
      stopped (stop_sent o) (termination o) stops /\
      (forall t l, In (t, l) stops -> t <= end_) /\
      (forall s, sink_failed = Some s -> s <= end_ -> stop_sent o = Some Kill) /\
      match drained o with
      | None => exists k, In (k, Kill) stops /\ k + drain_grace <= end_
      | Some v => exists before t, before `prefix_of` stops /\ drain_at before = Some (t, v)
      end
  | StopFailed err stops => exists before t l, stops = before ++ [(t, l)] /\ snd (stop l t) = Some err
  | Pending r => drain_at (sent r) = None /\ sink_failed = None /\ kill controls = None /\ timeout = None
  | OutOfFuel => False
  end.

Section Promises.
(** A callback returns no earlier than it was called. *)
Hypothesis stop_forward : forall l t, t <= fst (stop l t).

Lemma killed_for_branch r t b x : select r = Some (t, b) -> instant r b = Some x ->
  match b with
  | SinkFailed => killed_for Cancelled t
  | KillFired => killed_for Killed t
  | Deadline => killed_for TimedOut t
  | Termed => fired (term controls) t
  | _ => True
  end.
Proof.
  intros Hs Hx. destruct (selected _ _ _ Hs) as (_ & (y & Hy & ->) & _).
  assert (y = x) as -> by congruence. clear Hy.
  destruct b; cbn in *; try done; unfold fired; case_match; try done; eexists; split; (done || lia).
Qed.

(** A stop extends the history by one level. *)
Lemma stopped_send r t w p l :
  race_ok r -> now r <= t ->
  kill_sent (phase r) = false ->
  match l with
  | Term => phase r = Running /\ p = TermSent /\ w = Cancelled /\ fired (term controls) t
  | Kill => p = after_kill t drain_grace /\ killed_for w t
  end ->
  race_ok (mkRace (fst (stop l t)) p w (sent r ++ [(t, l)])).
Proof.
  intros (Hst & Htm & _) Hnow Hk Hl. pose proof (stop_forward l t) as Hf.
  split; [|split]; cbn.
  - remember (phase_stop_sent (phase r)) as so eqn:Eso. remember (sent r) as ss eqn:Ess.
    destruct Hst as [| t0 Ht0 | |]; cbn [app];
      destruct (phase r); cbn in Eso, Hk; try done.
    + destruct l; [destruct Hl as (_ & -> & -> & ?); by constructor|].
      destruct Hl as [-> ?]; by constructor.
    + destruct l; [by destruct Hl as (? & _)|].
      destruct Hl as [-> ?]. constructor; try done.
      specialize (Htm t0 Term ltac:(left; done)). lia.
  - intros t' l' [Hin|[[= <- <-]|[]]]%in_app_or; [|lia]. specialize (Htm _ _ Hin). lia.
  - intros u ->. destruct l; [by destruct Hl as (_ & ? & _)|]. destruct Hl as [[= ->] _].
    exists t. split; [|done]. apply in_or_app. right. by left.
Qed.

Lemma settle_ok r d :
  race_ok r ->
  match d with
  | None => exists k, In (k, Kill) (sent r) /\ k + drain_grace <= now r
  | Some v => exists t, drain_at (sent r) = Some (t, v)
  end ->
  outcome_ok (settle r d).
Proof.
  intros (Hst & Htm & Hu) Hd. unfold settle.
  destruct (_ && negb _) eqn:E.
  - apply andb_true_iff in E as [Ec Ek]. destruct sink_failed as [s|] eqn:Es; [|done].
    apply Z.leb_le in Ec. apply negb_true_iff in Ek.
    assert (killed_for Cancelled (now r)) as Hkf by (exists s; auto).
    destruct (send r (now r) Cancelled (phase r) Kill) as [r'|[e stops]] eqn:Esend.
    + apply send_ok in Esend as ->. cbn [sent now].
      pose proof (stop_forward Kill (now r)) as Hf.
      assert (race_ok (mkRace (fst (stop Kill (now r))) (after_kill (now r) drain_grace) Cancelled
                (sent r ++ [(now r, Kill)]))) as (Hst' & Htm' & _).
      { by apply stopped_send. }
      cbn. split; [exact Hst'|]. split; [exact Htm'|]. split; [done|].
      destruct d as [v|].
      * destruct Hd as [t Ht]. exists (sent r), t. split; [by eexists|done].
      * destruct Hd as (k & Hk & Hle). exists k. split; [apply in_or_app; by left|lia].
    + unfold send in Esend. destruct (stop Kill (now r)) as [t' [f|]] eqn:Ef; [|done].
      injection Esend as <- <-. cbn. exists (sent r), (now r), Kill. by rewrite Ef.
  - cbn. split; [done|]. split; [done|]. split.
    + intros s Es Hs. rewrite Es in E. apply andb_false_iff in E as [E|E].
      * apply Z.leb_gt in E. lia.
      * apply negb_false_iff in E. by destruct (phase r).
    + destruct d as [v|]; [|done]. destruct Hd as [t Ht]. exists (sent r), t. by split.
Qed.

Lemma race_ok_later r t : race_ok r -> now r <= t -> race_ok (mkRace t (phase r) (why r) (sent r)).
Proof.
  intros (Hst & Htm & Hu) Ht. split; [done|]. split; [|done].
  intros t' l Hin. cbn in *. specialize (Htm _ _ Hin). lia.
Qed.

Lemma stop_turn_ok r t w p l (P : race -> Prop) :
  P (mkRace (fst (stop l t)) p w (sent r ++ [(t, l)])) ->
  match (match send r t w p l with
         | Ok r' => inl r'
         | Err (e, stops) => inr (StopFailed e stops)
         end : race + race_end T Failure)
  with inl r' => P r' | inr e => outcome_ok e end.
Proof.
  unfold send. destruct (stop l t) as [t' [f|]] eqn:Ef; cbn; [|done].
  intros _. exists (sent r), t, l. by rewrite Ef.
Qed.

Lemma turn_ok r t b : race_ok r -> select r = Some (t, b) ->
  match turn r t b with inl r' => race_ok r' | inr e => outcome_ok e end.
Proof.
  intros Hr Hs. destruct (selected _ _ _ Hs) as (Hnow & (x & Hx & Ht) & _).
  pose proof (killed_for_branch _ _ _ _ Hs Hx) as Hkf.
  destruct b; cbn [turn] in *.
  1: { apply settle_ok; [by apply race_ok_later|]. cbn in *.
       destruct (drain_at (sent r)) as [[u v]|]; [by exists u|done]. }
  5: { apply settle_ok; [by apply race_ok_later|]. cbn in *.
       destruct Hr as (_ & _ & Hu). destruct (phase r) as [| |u]; try done.
       injection Hx as ->. destruct (Hu x eq_refl) as (k & Hin & ->). exists k. split; [done|lia]. }
  all: apply stop_turn_ok, stopped_send; try done; cbn in Hx;
    destruct (phase r); try done; split_and?; try done.
Qed.

Lemma start_ok : race_ok start.
Proof. split; [constructor|]. split; [done|]. intros u. done. Qed.

Lemma pending_ok r : race_ok r -> select r = None -> outcome_ok (Pending r).
Proof.
  intros Hr Hs. pose proof (select_none _ Hs) as Hi. cbn.
  pose proof (Hi DrainDone) as H1. pose proof (Hi SinkFailed) as H2. pose proof (Hi KillFired) as H3.
  pose proof (Hi Deadline) as H4. pose proof (Hi DrainTimeout) as H5. cbn in *.
  destruct (phase r); cbn in *; try done; split_and!; try done;
    by destruct (drain_at (sent r)).
Qed.

(** C1. The race leaves its loop by itself, and what it reports is true: it asked
    for no stop, one term, one kill, or a term and then a kill; the termination
    names a cause that had come by the time of the stop ([Exited] exactly when
    there was none); no stop comes after the end; the reported stop is the strongest one sent; a sink that
    failed by the end was answered with a kill; the drain is abandoned only a
    full grace after a kill; an error is the error of the stop that failed; and
    only a race with no deadline, no failed sink and no kill can wait forever. *)
Theorem drain_with_stops_spec : outcome_ok drain_with_stops.
Proof.
  unfold drain_with_stops. apply (race_loop_ind race_ok); [|apply pending_ok|apply start_ok|cbn; lia].
  intros r t b. apply turn_ok.
Qed.

(** *** How long the race can last *)

Section Bound.
Variables cause d : Z.
Hypothesis stop_bounded : forall l t, fst (stop l t) <= t + d.
Hypothesis cause_comes : sink_failed = Some cause \/ kill controls = Some cause \/ timeout = Some cause.
Hypothesis cause_future : 0 <= cause.

Definition on_time (r : race) : Prop :=
  0 <= now r /\
  match phase r with
  | Running => now r = 0
  | TermSent => now r <= cause + d
  | KillSent u => now r <= cause + 2 * d /\ u <= cause + d + drain_grace
  end.

(** The stops come before the bound. *)
Definition ends_on_time (e : race_end T Failure) : Prop :=
  match e with
  | Finished _ _ end_ => end_ <= cause + d + Z.max d drain_grace
  | StopFailed _ _ => True
  | Pending _ | OutOfFuel => False
  end.

Lemma delay_nonneg : 0 <= d.
Proof. pose proof (stop_forward Kill 0). pose proof (stop_bounded Kill 0). lia. Qed.

Lemma cause_branch r : kill_sent (phase r) = false ->
  exists b, instant r b = Some cause.
Proof.
  intros Hk. destruct cause_comes as [H|[H|H]];
    [exists SinkFailed|exists KillFired|exists Deadline]; cbn; by rewrite Hk.
Qed.

(** A turn is taken by the cause at the latest, or by the drain bound. *)
Lemma turn_by r t b : on_time r -> select r = Some (t, b) ->
  t <= match phase r with
       | Running => cause
       | TermSent => cause + d
       | KillSent u => Z.max (cause + 2 * d) (cause + d + drain_grace)
       end.
Proof.
  intros [Hn Hp] Hs. pose proof delay_nonneg. destruct (selected _ _ _ Hs) as (_ & _ & Hmin).
  destruct (phase r) as [| |u] eqn:Ep.
  - destruct (cause_branch r) as [b' Hb']; [by rewrite Ep|]. specialize (Hmin _ _ Hb'). lia.
  - destruct (cause_branch r) as [b' Hb']; [by rewrite Ep|]. specialize (Hmin _ _ Hb'). lia.
  - specialize (Hmin DrainTimeout u). cbn in Hmin. rewrite Ep in Hmin. specialize (Hmin eq_refl). lia.
Qed.

Lemma settle_on_time r v : 
  match phase r with
  | KillSent _ => now r <= cause + d + Z.max d drain_grace
  | _ => now r <= cause + d
  end -> ends_on_time (settle r v).
Proof.
  intros Hn. unfold settle, send. pose proof delay_nonneg.
  pose proof (stop_bounded Kill (now r)) as Hb. destruct (_ && _) eqn:E.
  - apply andb_true_iff in E as [_ E]. destruct (stop Kill (now r)) as [t' [f|]]; cbn in *; [done|].
    destruct (phase r); cbn in *; try done; lia.
  - cbn. destruct (phase r); lia.
Qed.

Lemma turn_on_time r t b : on_time r -> select r = Some (t, b) ->
  match turn r t b with inl r' => on_time r' | inr e => ends_on_time e end.
Proof.
  intros Hr Hs. pose proof (turn_by _ _ _ Hr Hs) as Ht. pose proof delay_nonneg.
  destruct (selected _ _ _ Hs) as (Hnow & (x & Hx & _) & _). destruct Hr as [Hn Hp].
  pose proof (stop_forward Kill t). pose proof (stop_forward Term t).
  pose proof (stop_bounded Kill t). pose proof (stop_bounded Term t).
  destruct b; cbn in Hx |- *; unfold send, after_kill.
  1: { apply settle_on_time; cbn. destruct (phase r); lia. }
  5: { apply settle_on_time; cbn. destruct (phase r); try done; lia. }
  all: destruct (phase r); cbn in Hx; try done;
    destruct (stop Kill t) as [tk [fk|]], (stop Term t) as [tt [ft|]]; cbn in *; try done;
    unfold on_time; cbn; lia.
Qed.

Lemma race_on_time : ends_on_time drain_with_stops.
Proof.
  unfold drain_with_stops. apply (race_loop_ind on_time); [apply turn_on_time| |done|cbn; lia].
  intros r Hr Hs. cbn. pose proof (select_none _ Hs) as Hi.
  destruct (phase r) as [| |u] eqn:Ep.
  - destruct (cause_branch r) as [b Hb]; [by rewrite Ep|]. by rewrite Hi in Hb.
  - destruct (cause_branch r) as [b Hb]; [by rewrite Ep|]. by rewrite Hi in Hb.
  - specialize (Hi DrainTimeout). cbn in Hi. by rewrite Ep in Hi.
Qed.
End Bound.
End Promises.
End Race.

(** Once a sink fails, the caller kills, or the timeout passes, the race
    ends, whatever the command's output does: at most two stop calls and the
    drain grace later. *)
Theorem drain_with_stops_bounded {T Failure} (drain_at : list (Z * StopLevel) -> option (Z * T))
    (stop : StopLevel -> Z -> Z * option Failure) sink_failed controls timeout drain_grace tie cause d :
  (forall l t, t <= fst (stop l t) <= t + d) ->
  sink_failed = Some cause \/ kill controls = Some cause \/ timeout = Some cause ->
  0 <= cause ->
  match drain_with_stops drain_at stop sink_failed controls timeout drain_grace tie with
  | Finished _ _ end_ => end_ <= cause + d + Z.max d drain_grace
  | StopFailed _ _ => True
  | Pending _ | OutOfFuel => False
  end.
Proof.
  intros Hstop Hcause H0. apply (race_on_time drain_at); try done; intros l t; apply Hstop.
Qed.

(** ** Concrete races *)

(** A command that ends 3 after a term and at once after a kill, or never by
    itself; stops take 2. *)
Definition obedient (stops : list (Z * StopLevel)) : option (Z * bytes) :=
  match last stops with
  | Some (t, Term) => Some (t + 3, [0x64])
  | Some (t, Kill) => Some (t, [])
  | None => None
  end.

(** A command whose output never closes. *)
Definition wedged (stops : list (Z * StopLevel)) : option (Z * bytes) := None.

Definition quick (l : StopLevel) (t : Z) : Z * option string := (t + 2, None).

Lemma drain_with_stops_spec_witness :
  drain_with_stops obedient quick None (mkTokens (Some 5) None) (Some 100) 10 (fun _ => 0%nat) =
    Finished (mkOutcome Cancelled (Some [0x64]) (Some Term)) [(5, Term)] 8 /\
  outcome_ok obedient quick None (mkTokens (Some 5) None) (Some 100) 10
    (drain_with_stops obedient quick None (mkTokens (Some 5) None) (Some 100) 10 (fun _ => 0%nat)).
Proof.
  split; [reflexivity|]. apply drain_with_stops_spec. intros l t. cbn. lia.
Defined.

Lemma drain_with_stops_bounded_witness :
  drain_with_stops wedged quick None (mkTokens (Some 5) None) (Some 100) 10 (fun _ => 0%nat) =
    Finished (mkOutcome TimedOut None (Some Kill)) [(5, Term); (100, Kill)] 110 /\
  match drain_with_stops wedged quick None (mkTokens (Some 5) None) (Some 100) 10 (fun _ => 0%nat) with
  | Finished _ _ end_ => end_ <= 100 + 2 + Z.max 2 10
  | StopFailed _ _ => True
  | Pending _ | OutOfFuel => False
  end.
Proof.
  split; [reflexivity|].
  apply (drain_with_stops_bounded wedged quick None (mkTokens (Some 5) None) (Some 100) 10
           (fun _ => 0%nat) 100 2); [intros l t; cbn; lia|auto|lia].
Defined.
