(* ===== verification/Grace.v ===== *)
(** * The TERM, grace, KILL ladder

    Models [crates/sandbox-driver/src/grace.rs]: [run_with_stop_grace] drives a
    provider's raw stop tokens through a ladder, here over any provider [run]
    and then over the raw race of [Drain].

    As in [Drain], a future is the instant it resolves at. The ladder and the
    command run side by side: until the ladder fires, the command behaves as one
    whose tokens never fire. *)

From S2P Require Import Prelude Exec Drain.

#[local] Open Scope Z_scope.

(** Why the ladder fired. *)
Inductive Cause := CauseTimedOut | CauseStopped.

#[export] Instance Cause_eq_dec : EqDecision Cause.
Proof. solve_decision. Defined.

(** What [drive] does to the inner tokens and the cause, with the instants. *)
Record ladder := mkLadder {
  inner_term : option Z;
  inner_kill : option Z;
  cause : option (Z * Cause);
}.

(** The arms of the ladder's first [select!] that are ready at its first
    instant: the oracle takes one. *)
Inductive first_arm := ArmTimeout | ArmTerm | ArmKill.

Definition arm_instant (timeout : option Z) (c : tokens) (a : first_arm) : option Z :=
  Z.max 0 <$> match a with ArmTimeout => timeout | ArmTerm => term c | ArmKill => kill c end.

Definition first_instant (timeout : option Z) (c : tokens) : option Z :=
  earlier (arm_instant timeout c ArmTimeout)
    (earlier (arm_instant timeout c ArmTerm) (arm_instant timeout c ArmKill)).

Definition first_ready (timeout : option Z) (c : tokens) (t : Z) : list first_arm :=
  List.filter (fun a => bool_decide (arm_instant timeout c a = Some t)) [ArmTimeout; ArmTerm; ArmKill].

(** [drive]. The second [select!] waits for the grace or the caller's kill,
    whichever is first. *)
Definition drive (timeout : option Z) (grace : Z) (c : tokens) (tie : nat) : ladder :=
  match first_instant timeout c with
  | None => mkLadder None None None
  | Some t =>
      let ready := first_ready timeout c t in
      let fire why :=
        mkLadder (Some t) (earlier (Some (t + grace)) (Z.max t <$> kill c)) (Some (t, why)) in
      match ready !! (tie `mod` length ready)%nat with
      | Some ArmTimeout => fire CauseTimedOut
      | Some ArmTerm => fire CauseStopped
      | Some ArmKill => mkLadder None (Some t) (Some (t, CauseStopped))
      | None => mkLadder None None None
      end
  end.

(** What the ladder reads and rewrites in a provider's result. *)
Class Terminates (R : Type) := {
  termination_of : R -> Termination;
  set_termination : Termination -> R -> R;
}.

#[export] Instance streaming_terminates : Terminates ExecStreamingResult := {
  termination_of s := res_termination (sr_result s);
  set_termination t s :=
    let r := sr_result s in
    mkStreaming (mkResult (res_stdout r) (res_stderr r) (exit_code r) (res_signal r) t (duration r))
      (streams_separated s) (live_streaming s) (stdout_capture s) (stderr_capture s) (output_loss s);
}.

Section Ladder.
Context {R Failure : Type} `{Terminates R}.

(** A provider's raw run: when it ends and with what; [None] if it never
    does. *)
Variable run : ExecSpec -> tokens -> option (Z * result R Failure).

Definition inner_spec (s : ExecSpec) : ExecSpec := spec_timeout None (spec_stop_grace None s).

(** A command the ladder ended because of the timeout says so. *)
Definition relabel (c : option Cause) (r : R) : R :=
  if bool_decide (c = Some CauseTimedOut) &&
     match termination_of r with Cancelled | Killed => true | _ => false end
  then set_termination TimedOut r else r.

(** The cause recorded when the command ends at [e]. *)
Definition cause_by (l : ladder) (e : Z) : option Cause :=
  match cause l with
  | Some (t, why) => if t <=? e then Some why else None
  | None => None
  end.

(** Whether the ladder fires while the command is still running; [polled]
    settles the case of the same instant. *)
Definition fires_first (l : ladder) (quiet : option (Z * result R Failure)) (polled : bool) : bool :=
  match cause l, quiet with
  | None, _ => false
  | Some _, None => true
  | Some (t, _), Some (e, _) => (t <? e) || ((t =? e) && polled)
  end.

Definition run_with_stop_grace (s : ExecSpec) (controls : tokens) (tie : nat) (polled : bool)
    : option (Z * result R Failure) :=
  match stop_grace s with
  | None => run s controls
  | Some grace =>
      let l := drive (timeout s) grace controls tie in
      let quiet := run (inner_spec s) (mkTokens None None) in
      if fires_first l quiet polled then
        match run (inner_spec s) (mkTokens (inner_term l) (inner_kill l)) with
        | Some (e, Ok r) => Some (e, Ok (relabel (cause_by l e) r))
        | other => other
        end
      else quiet
  end.

End Ladder.

(** ** The ladder's tokens *)

Lemma first_instant_none timeout c : first_instant timeout c = None ->
  timeout = None /\ term c = None /\ kill c = None.
Proof.
  unfold first_instant. intros [H1 [H2 H3]%earlier_none]%earlier_none.
  unfold arm_instant in *. destruct timeout, (term c), (kill c); done.
Qed.

Lemma first_ready_nonempty timeout c t : first_instant timeout c = Some t ->
  exists a, In a (first_ready timeout c t).
Proof.
  intros Ht. assert (exists a, arm_instant timeout c a = Some t) as [a Ha].
  { unfold first_instant in Ht. apply earlier_min in Ht as [[H|H] _]; [eauto|].
    apply earlier_min in H as [[H|H] _]; eauto. }
  exists a. apply List.filter_In. split; [destruct a; cbn; tauto|]. by apply bool_decide_eq_true.
Qed.

Lemma lookup_mod {A} (l : list A) n a : In a l -> exists b, l !! (n `mod` length l)%nat = Some b /\ In b l.
Proof.
  intros Hin. destruct l as [|x l]; [done|].
  destruct (lookup_lt_is_Some_2 (x :: l) (n `mod` length (x :: l))%nat) as [b Hb].
  { by apply Nat.mod_upper_bound. }
  exists b. split; [done|]. apply list_elem_of_In. by eapply list_elem_of_lookup_2.
Qed.

(** The ladder stands still only with nothing to wait for. *)
Inductive drives (timeout : option Z) (grace : Z) (c : tokens) : ladder -> Prop :=
  | drives_not : timeout = None -> term c = None -> kill c = None ->
      drives timeout grace c (mkLadder None None None)
  | drives_ladder t why : 0 <= t ->
      match why with CauseTimedOut => fired timeout t | CauseStopped => fired (term c) t end ->
      (forall x, timeout = Some x -> t <= Z.max 0 x) ->
      drives timeout grace c
        (mkLadder (Some t) (earlier (Some (t + grace)) (Z.max t <$> kill c)) (Some (t, why)))
  | drives_kill t : 0 <= t -> fired (kill c) t -> (forall x, timeout = Some x -> t <= Z.max 0 x) ->
      drives timeout grace c (mkLadder None (Some t) (Some (t, CauseStopped))).

Lemma drive_drives timeout grace c tie : drives timeout grace c (drive timeout grace c tie).
Proof.
  unfold drive. destruct (first_instant timeout c) as [t|] eqn:Ht.
  - destruct (first_ready_nonempty _ _ _ Ht) as [a Ha].
    destruct (lookup_mod _ tie a Ha) as (b & -> & [_ Hb%bool_decide_eq_true]%List.filter_In).
    assert (forall x, timeout = Some x -> t <= Z.max 0 x) as Hle.
    { intros x ->. apply earlier_min in Ht as (_ & H & _). by apply H. }
    unfold arm_instant in Hb. destruct b;
      [destruct timeout as [x|] eqn:E|destruct (term c) as [x|] eqn:E|destruct (kill c) as [x|] eqn:E];
      cbn in Hb; try done; injection Hb as <-; constructor; try done; try lia;
      rewrite ?E; exists x; split; try done; lia.
  - apply first_instant_none in Ht as (? & ? & ?). by constructor.
Qed.

(** ** The ladder over the raw race *)

#[export] Instance outcome_terminates {T} : Terminates (DrainOutcome T * list (Z * StopLevel)) := {
  termination_of o := termination o.1;
  set_termination t o := (mkOutcome t (drained o.1) (stop_sent o.1), o.2);
}.

Section Graceful.
Context {T Failure : Type}.
Variable drain_at : list (Z * StopLevel) -> option (Z * T).
Variable stop : StopLevel -> Z -> Z * option Failure.
Variable sink_failed : option Z.
Variable drain_grace : Z.
Variable tie : race -> nat.

(** A provider that drains its output under the raw race, the way every
    bundled one does. *)
Definition drain_run (s : ExecSpec) (c : tokens)
    : option (Z * result (DrainOutcome T * list (Z * StopLevel)) Failure) :=
  match drain_with_stops drain_at stop sink_failed c (timeout s) drain_grace tie with
  | Finished o stops e => Some (e, Ok (o, stops))
  | StopFailed f stops => Some (match last stops with Some (t, l) => fst (stop l t) | None => 0 end, Err f)
  | Pending _ | OutOfFuel => None
  end.

Hypothesis stop_forward : forall l t, t <= fst (stop l t).

Lemma drain_run_ok s c e o stops : drain_run s c = Some (e, Ok (o, stops)) ->
  outcome_ok drain_at stop sink_failed c (timeout s) drain_grace (Finished o stops e).
Proof.
  unfold drain_run. intros Hrun.
  pose proof (race_loop_ind drain_at stop sink_failed c (timeout s) drain_grace tie
    (race_ok sink_failed c (timeout s) drain_grace)
    (outcome_ok drain_at stop sink_failed c (timeout s) drain_grace)
    (fun r t b => turn_ok drain_at stop sink_failed c (timeout s) drain_grace tie stop_forward r t b)
    (fun r => pending_ok drain_at stop sink_failed c (timeout s) drain_grace tie r)
    3 start (start_ok _ _ _ _)) as Hok.
  unfold drain_with_stops in Hrun.
  destruct (race_loop _ _ _ _ _ _ _ 3 start) eqn:E; try done; try (by apply Hok; cbn; lia).
  injection Hrun as -> -> ->. apply Hok. cbn. lia.
Qed.

Lemma stopped_causes sf c to o w stops : stopped sf c to o w stops ->
  (w = Exited <-> stops = []) /\
  (forall t, In (t, Term) stops -> fired (term c) t) /\
  (forall k, In (k, Kill) stops -> fired sf k \/ fired (kill c) k \/ fired to k).
Proof.
  assert (forall k, killed_for sf c to w k -> w <> Exited /\
            (fired sf k \/ fired (kill c) k \/ fired to k)) as Hkf.
  { intros k. destruct w; cbn; intros; try done; (split; [done|tauto]). }
  destruct 1 as [|t Ht|k w Hk|t k w Ht Htk Hk]; cbn [In].
  - done.
  - split; [done|]. split; intros ? [[= <-]|[]]. done.
  - specialize (Hkf _ Hk) as [? ?]. split; [by split|]. split; intros ? [[= <-]|[]]. done.
  - specialize (Hkf _ Hk) as [? ?]. split; [by split|].
    split; intros ? Hin; decompose [or] Hin; simplify_eq; done.
Qed.

(** What the caller sees of a graceful run that ended at [e] and whose sink
    held until then: the documented ladder. *)
Definition graceful (to : option Z) (g : Z) (c : tokens) (e : Z) (o : DrainOutcome T)
    (stops : list (Z * StopLevel)) : Prop :=
  (termination o = Exited <-> stops = []) /\
  (forall t, In (t, Term) stops -> fired to t \/ fired (term c) t) /\
  (forall k, In (k, Kill) stops ->
     fired (kill c) k \/ exists t, In (t, Term) stops /\ t + g <= k) /\
  (termination o = TimedOut -> fired to e) /\
  (termination o = Cancelled \/ termination o = Killed ->
     exists t l, In (t, l) stops /\ (fired (term c) t \/ fired (kill c) t)).

Lemma fired_le o t u : fired o t -> t <= u -> fired o u.
Proof. intros (x & -> & Hx) Hle. exists x. split; [done|lia]. Qed.

(** The reason of a stop the raw race reports, as a stop that was sent. *)
Lemma stopped_why sf c to o w stops : stopped sf c to o w stops -> w <> Exited ->
  exists t l, In (t, l) stops /\
    match w with
    | Cancelled => fired sf t \/ fired (term c) t
    | Killed => fired (kill c) t
    | TimedOut => fired to t
    | Exited | Unknown => False
    end.
Proof.
  destruct 1 as [|t Ht|k w Hk|t k w Ht Htk Hk]; intros Hw; try done.
  - exists t, Term. split; [by left|by right].
  - exists k, Kill. split; [by left|]. destruct w; cbn in Hk; auto.
  - exists k, Kill. split; [right; by left|]. destruct w; cbn in Hk; auto.
Qed.

(** A sink that had not failed by the end explains no stop before it. *)
Lemma healthy_sink e t : (forall x, sink_failed = Some x -> e < x) -> t <= e -> ~ fired sink_failed t.
Proof. intros Hs Hle (x & Hx & Hxt). specialize (Hs x Hx). lia. Qed.

Lemma graceful_quiet to g c e o stops :
  (forall x, sink_failed = Some x -> e < x) ->
  outcome_ok drain_at stop sink_failed (mkTokens None None) None drain_grace (Finished o stops e) ->
  graceful to g c e o stops.
Proof.
  intros Hsink (Hst & Htm & _). destruct (stopped_causes _ _ _ _ _ _ Hst) as (Hex & Hterm & Hkill).
  assert (forall t l, In (t, l) stops -> ~ fired sink_failed t) as Hno.
  { intros t l Hin. eapply healthy_sink; [done|]. by eapply Htm. }
  assert (stops = []) as ->.
  { destruct stops as [|[t []] stops]; [done|exfalso..].
    - destruct (Hterm t) as (? & ? & _); [by left|done].
    - destruct (Hkill t) as [?|[(? & ? & _)|(? & ? & _)]]; [by left| |done..].
      by eapply Hno; [left|]. }
  unfold graceful. rewrite (proj2 Hex eq_refl).
  split_and!; try done; intros [?|?]; done.
Qed.

(** The ladder's term means the timeout or the caller's term; its kill means
    the caller's kill, or the same with the grace behind it. *)
Lemma ladder_term to g c l u : drives to g c l -> fired (inner_term l) u ->
  fired to u \/ fired (term c) u.
Proof.
  destruct 1 as [|t why H0 Hf Hle|]; cbn; intros (x & [= <-] & Hu).
  destruct why; [left|right]; by eapply fired_le.
Qed.

Lemma ladder_kill to g c l k : drives to g c l -> fired (inner_kill l) k ->
  fired (kill c) k \/ exists u, inner_term l = Some u /\ 0 <= u /\ u + g <= k.
Proof.
  destruct 1 as [|t why H0 Hf Hle|t H0 Hf Hle]; cbn [inner_kill inner_term]; intros (x & Hx & Hxk).
  - done.
  - apply earlier_min in Hx as ([[= <-]|Hx] & _).
    + right. exists t. auto.
    + destruct (kill c) as [y|] eqn:Ey; [|done]. injection Hx as <-. left. exists y. split; [done|lia].
  - injection Hx as <-. left. by eapply fired_le.
Qed.

(** Until the ladder's instant, the ladder has fired nothing. *)
Lemma ladder_cause to g c l u : 0 <= g -> drives to g c l ->
  fired (inner_term l) u \/ fired (inner_kill l) u ->
  exists t why, cause l = Some (t, why) /\ t <= u /\
    match why with CauseTimedOut => True | CauseStopped => fired (term c) t \/ fired (kill c) t end.
Proof.
  intros Hg. destruct 1 as [|t why H0 Hf Hle|t H0 Hf Hle]; cbn [inner_term inner_kill cause].
  - by intros [(? & ? & ?)|(? & ? & ?)].
  - intros Hu. exists t, why. split; [done|]. split; [|destruct why; auto].
    destruct Hu as [(x & [= <-] & ?)|(x & Hx & ?)]; [done|].
    apply earlier_min in Hx as ([[= <-]|Hx] & _); [lia|].
    destruct (kill c); [|done]. injection Hx as <-. lia.
  - intros [(? & ? & ?)|(x & [= <-] & ?)]; [done|]. exists t, CauseStopped. auto.
Qed.

Lemma relabel_spec cs (o : DrainOutcome T) stops :
  let w := termination o in
  let r := relabel cs (o, stops) in
  snd r = stops /\
  (termination (fst r) = w /\ (cs = Some CauseTimedOut -> w <> Cancelled /\ w <> Killed) \/
   termination (fst r) = TimedOut /\ cs = Some CauseTimedOut /\ (w = Cancelled \/ w = Killed)).
Proof.
  cbn. unfold relabel. cbn [termination_of outcome_terminates fst].
  case_bool_decide as Hc; cbn [andb]; [|split; [done|left; by split]].
  destruct (termination o) eqn:Ew; cbn [set_termination outcome_terminates fst snd termination];
    (split; [done|]); rewrite ?Ew; auto; left; done.
Qed.

(** The raw race takes its term before any kill that is not due yet: a term
    is sent the instant it fires, and a kill with no term before it comes no
    later than the term's instant, or from the sink. *)
Definition term_first (c : tokens) (stops : list (Z * StopLevel)) : Prop :=
  forall k x, In (k, Kill) stops -> term c = Some x ->
    In (Z.max 0 x, Term) stops \/ fired sink_failed k \/ k <= Z.max 0 x.

Definition turn_first (c : tokens) (r : race) : Prop :=
  (phase r = Running -> now r = 0 /\ sent r = []) /\
  (phase r = TermSent -> exists x, term c = Some x /\ sent r = [(Z.max 0 x, Term)]) /\
  term_first c (sent r).

Definition end_first (c : tokens) (e : race_end T Failure) : Prop :=
  match e with Finished _ stops _ => term_first c stops | _ => True end.

Lemma term_first_term c t : term_first c [(t, Term)].
Proof. intros k x [[=]|[]]. Qed.

Lemma term_first_app c stops k :
  (forall x, term c = Some x -> In (Z.max 0 x, Term) stops \/ fired sink_failed k \/ k <= Z.max 0 x) ->
  term_first c stops -> term_first c (stops ++ [(k, Kill)]).
Proof.
  intros Hk Hf k' x [Hin|[[= <-]|[]]]%in_app_or Hx.
  - destruct (Hf _ _ Hin Hx) as [?|?]; [left; apply in_or_app; by left|by right].
  - destruct (Hk _ Hx) as [?|?]; [left; apply in_or_app; by left|by right].
Qed.

Section TermFirst.
Variable c : tokens.

Lemma settle_first r d : term_first c (sent r) ->
  end_first c (settle stop sink_failed r d).
Proof.
  intros Hf. unfold settle. destruct (_ && negb _) eqn:E; [|exact Hf].
  apply andb_true_iff in E as [Es _]. destruct sink_failed as [s|] eqn:Esf; [|done]. apply Z.leb_le in Es.
  unfold send. destruct (stop Kill (now r)) as [t' [f|]]; [done|]. cbn [end_first sent now].
  apply term_first_app; [|done]. intros x _. right. left. exists s. rewrite Esf. auto.
Qed.

Lemma turn_first_step r t b : turn_first c r ->
  select drain_at sink_failed c None tie r = Some (t, b) ->
  match turn drain_at stop sink_failed drain_grace r t b with
  | inl r' => turn_first c r'
  | inr e => end_first c e
  end.
Proof.
  intros (Hrun & Hterm & Hf) Hs. destruct (selected _ _ _ _ _ _ _ _ Hs) as (Hnow & (x & Hx & Ht) & Hmin).
  assert (forall y, term c = Some y -> In (Z.max 0 y, Term) (sent r) \/ phase r <> Running \/ t <= Z.max 0 y) as Hle.
  { intros y Hy. right. destruct (phase r) eqn:Ep; [|by left..]. right.
    destruct (Hrun eq_refl) as [H0 _]. rewrite <- H0. apply (Hmin Termed). cbn. by rewrite Ep. }
  unfold turn. destruct b; cbn [instant] in Hx; try done; try (by apply settle_first);
    unfold send; (destruct (phase r) eqn:Ep; cbn in Hx; try done);
    (destruct (stop _ t) as [t' [f|]]; [done|]).
  3: { destruct (Hrun eq_refl) as [H0 ->]. cbn. split; [done|].
       split; [|apply term_first_term]. intros _. exists x. rewrite Ht, H0. auto. }
  all: split; [done|]; split; [done|]; cbn [sent]; apply term_first_app; [|done]; intros y Hy.
  all: first [by (right; left; exists x; split; [done|lia])
             |destruct (Hle y Hy) as [?|[?|?]]; [by left|done|by right; right]
             |destruct (Hterm eq_refl) as (y' & Hy' & ->); left; left; congruence].
Qed.

Lemma race_term_first : end_first c (drain_with_stops drain_at stop sink_failed c None drain_grace tie).
Proof.
  apply (race_loop_ind drain_at stop sink_failed c None drain_grace tie (turn_first c) (end_first c)).
  - exact turn_first_step.
  - done.
  - unfold turn_first, term_first. by split_and!.
  - cbn. lia.
Qed.
End TermFirst.

Lemma drain_run_first s c e o stops : timeout s = None -> drain_run s c = Some (e, Ok (o, stops)) ->
  term_first c stops.
Proof.
  unfold drain_run. intros ->. pose proof (race_term_first c) as Hf.
  destruct (drain_with_stops _ _ _ _ _ _ _); try done. by intros [= -> -> ->].
Qed.

(** The ladder's kill, seen on the stops of the inner run. *)
Lemma ladder_kill_sent to g c l k e stops : 0 < g -> drives to g c l ->
  (forall x, sink_failed = Some x -> e < x) -> k <= e ->
  In (k, Kill) stops -> term_first (mkTokens (inner_term l) (inner_kill l)) stops ->
  fired (inner_kill l) k -> fired (kill c) k \/ exists t, In (t, Term) stops /\ t + g <= k.
Proof.
  intros Hg Hl Hsink Hke Hin Hfirst Hk.
  destruct (ladder_kill _ _ _ _ _ Hl Hk) as [?|(u & Hu & Hu0 & Hle)]; [by left|right].
  exists u. split; [|done]. destruct (Hfirst k u Hin Hu) as [H|[H|H]].
  - by rewrite Z.max_r in H.
  - by destruct (healthy_sink e k Hsink Hke).
  - lia.
Qed.

Lemma graceful_fired to g c l e o stops : 0 < g -> drives to g c l ->
  (forall x, sink_failed = Some x -> e < x) ->
  term_first (mkTokens (inner_term l) (inner_kill l)) stops ->
  outcome_ok drain_at stop sink_failed (mkTokens (inner_term l) (inner_kill l)) None drain_grace
    (Finished o stops e) ->
  let r := relabel (cause_by l e) (o, stops) in graceful to g c e r.1 r.2.
Proof.
  intros Hg Hl Hsink Hfirst (Hst & Htm & _).
  destruct (stopped_causes _ _ _ _ _ _ Hst) as (Hex & Hterm & Hkill).
  pose proof (stopped_why _ _ _ _ _ _ Hst) as Hwhy. cbn [term kill] in *.
  assert (forall t lv, In (t, lv) stops -> ~ fired sink_failed t) as Hno.
  { intros t lv Hin. eapply healthy_sink; [done|]. by eapply Htm. }
  destruct (relabel_spec (cause_by l e) o stops) as [-> Hw]. cbn zeta in *. unfold graceful.
  split; [|split; [|split; [|split]]].
  - destruct Hw as [[-> _]|(-> & _ & [Hw|Hw])]; [done| |]; (split; [done|]);
      intros ->; rewrite (proj2 Hex eq_refl) in Hw; done.
  - intros t Ht. eapply ladder_term; [done|]. by apply Hterm.
  - intros k Hk. destruct (Hkill k Hk) as [?|[Hs|(? & ? & ?)]]; [by destruct (Hno _ _ Hk)| |done].
    by eapply ladder_kill_sent; [..|exact Hs]; try done; eapply Htm.
  - intros Hto. destruct Hw as [[Hw _]|(_ & Hc & _)].
    + rewrite Hto in Hw. rewrite <- Hw in Hwhy. destruct Hwhy as (? & ? & _ & Hf); [done|].
      by destruct Hf as (? & ? & ?).
    + unfold cause_by in Hc. destruct Hl as [|t why H0 Hf Hle|]; cbn in Hc; [done| |]; case_match eqn:Et; try done.
      apply Z.leb_le in Et. injection Hc as ->. by eapply fired_le.
  - intros Hck. destruct Hw as [[Hw Hcs]|(Hw & _)]; [|rewrite Hw in Hck; by destruct Hck].
    rewrite Hw in Hck. destruct Hwhy as (t & lv & Hin & Hf); [destruct Hck; congruence|].
    exists t, lv. split; [done|].
    assert (fired (inner_term l) t \/ fired (inner_kill l) t) as Hladder.
    { specialize (Hno _ _ Hin). destruct Hck as [Hk|Hk]; rewrite Hk in Hf; tauto. }
    destruct (ladder_cause _ _ _ _ _ (Z.lt_le_incl _ _ Hg) Hl Hladder) as (u & why & Hcl & Hut & Hwh).
    destruct why.
    + exfalso. destruct Hcs as [H1 H2]; [|destruct Hck; done].
      unfold cause_by. rewrite Hcl. specialize (Htm _ _ Hin).
      by replace (u <=? e) with true by (symmetry; apply Z.leb_le; lia).
    + destruct Hwh as [?|?]; [left|right]; by eapply fired_le.
Qed.

(** C3. Under a positive stop grace, over a provider that runs the raw race,
    a run whose sink had not failed by its end meets the documented ladder: the
    TERM comes only after the timeout or the caller's term; a KILL comes only
    from the caller's own kill, or after a TERM that was sent at least the whole
    grace before it; [Exited] means nothing was sent; [TimedOut] means the
    timeout had passed; and [Cancelled] or [Killed] always names a stop the
    caller asked for, never one the timeout caused. A run whose sink fails is
    not covered: the documentation promises it the same ladder, and the code
    kills it outright ([failed_sink_kills_outright]). *)
Theorem stop_grace_spec s g c n polled e o stops :
  stop_grace s = Some g -> 0 < g -> (forall x, sink_failed = Some x -> e < x) ->
  run_with_stop_grace drain_run s c n polled = Some (e, Ok (o, stops)) ->
  graceful (timeout s) g c e o stops.
Proof.
  intros Hs Hg Hsink. unfold run_with_stop_grace. rewrite Hs.
  destruct (fires_first _ _ _).
  - destruct (drain_run (inner_spec s) _) as [[e' [[o' st']|f]]|] eqn:Erun; try done.
    intros [= <- Hr]. pose proof (drain_run_first (inner_spec s) _ _ _ _ eq_refl Erun) as Hfirst.
    apply drain_run_ok in Erun.
    pose proof (graceful_fired _ g _ _ _ _ _ Hg (drive_drives (timeout s) g c n) Hsink Hfirst Erun) as Hgr.
    cbn zeta in Hgr. by rewrite Hr in Hgr.
  - intros Hq. apply drain_run_ok in Hq. by apply graceful_quiet.
Qed.

(** The grace does not reach a failing sink: over the raw race, a command
    whose sink fails, with no timeout and no stop from the caller, gets a KILL
    and never a TERM, whatever the spec's grace. *)
Theorem failed_sink_kills_outright s g c n polled e o stops sink :
  stop_grace s = Some g -> timeout s = None -> c = mkTokens None None ->
  sink_failed = Some sink ->
  run_with_stop_grace drain_run s c n polled = Some (e, Ok (o, stops)) -> sink <= e ->
  exists k, stops = [(k, Kill)] /\ sink <= k /\ termination o = Cancelled.
Proof.
  intros Hs Ht -> Hsink Hrun Hle. unfold run_with_stop_grace in Hrun. rewrite Hs, Ht in Hrun.
  cbn -[drain_run] in Hrun. apply drain_run_ok in Hrun as (Hst & _ & Hkill & _). cbn [timeout inner_spec] in *.
  specialize (Hkill _ Hsink Hle). rewrite Hkill in Hst.
  remember (Some Kill) as so eqn:Eso. destruct Hst as [|t Hf|k w Hf|t k w Hf]; try done.
  - exists k. split; [done|]. destruct w; cbn in Hf; try done; destruct Hf as (x & Hx & Hxk); try done.
    split; [|done]. congruence.
  - by destruct Hf as (? & ? & ?).
Qed.

(** The ladder set by a timeout kills within the grace. *)
Lemma ladder_bound to g c l x : 0 <= g -> to = Some x -> drives to g c l ->
  exists t k, option_map fst (cause l) = Some t /\ inner_kill l = Some k /\
    0 <= t <= Z.max 0 x /\ 0 <= k <= Z.max 0 x + g.
Proof.
  intros Hg -> Hl. destruct Hl as [?|t why H0 Hf Hle|t H0 Hf Hle]; [done| |];
    specialize (Hle _ eq_refl); cbn.
  - exists t. destruct (earlier (Some (t + g)) (Z.max t <$> kill c)) as [k|] eqn:Ek.
    + exists k. split; [done|]. split; [done|]. apply earlier_min in Ek as (Hor & H1 & _).
      specialize (H1 _ eq_refl). split; [lia|].
      destruct Hor as [[= <-]|Hk]; [lia|]. destruct (kill c); [|done]. injection Hk as <-. lia.
    + by apply earlier_none in Ek as [? _].
  - exists t, t. split; [done|]. split; [done|]. lia.
Qed.

(** A spec with a timeout and a grace ends, whatever the command does with
    the TERM: at the timeout, the grace, two stop calls and the drain bound at
    the latest. *)
Theorem stop_grace_bounded s g c n polled x d :
  stop_grace s = Some g -> 0 <= g -> timeout s = Some x ->
  (forall l t, fst (stop l t) <= t + d) ->
  exists e r, run_with_stop_grace drain_run s c n polled = Some (e, r) /\
    (is_ok r = true -> e <= Z.max 0 x + g + d + Z.max d drain_grace).
Proof.
  intros Hs Hg Hx Hd. unfold run_with_stop_grace. rewrite Hs.
  pose proof (drive_drives (timeout s) g c n) as Hl. set (l := drive _ _ _ _) in *.
  destruct (ladder_bound _ _ _ _ _ Hg Hx Hl) as (t & k & Hc & Hk & Ht & Hkb).
  assert (0 <= d) as Hd0. { pose proof (stop_forward Kill 0). pose proof (Hd Kill 0). lia. }
  destruct (fires_first _ _ _) eqn:Ef.
  - pose proof (race_on_time drain_at stop sink_failed (mkTokens (inner_term l) (inner_kill l)) None
      drain_grace tie stop_forward k d Hd (or_intror (or_introl Hk)) (proj1 Hkb)) as Hb.
    unfold drain_run. cbn [timeout inner_spec spec_timeout].
    destruct (drain_with_stops _ _ _ _ _ _ _); cbn in Hb; [|eauto|done..].
    + eexists _, _. split; [done|]. intros _. lia.
    + eexists _, _. split; [done|]. done.
  - unfold fires_first in Ef. destruct (cause l) as [[u why]|]; [|done]. injection Hc as ->.
    destruct (drain_run (inner_spec s) _) as [[e r]|]; [|done]. exists e, r. split; [done|].
    intros _. apply orb_false_iff in Ef as [Ef _]. apply Z.ltb_ge in Ef. lia.
Qed.
End Graceful.

(** *** Concrete runs: a command that ignores the TERM, under a grace of 5 *)

Definition graced (to : option Z) : ExecSpec := spec_stop_grace (Some 5) (spec_timeout to (spec_new "sleep"%string)).

(** Its output closes only on a kill. *)
Definition stubborn (stops : list (Z * StopLevel)) : option (Z * bytes) :=
  match last stops with Some (t, Kill) => Some (t, []) | _ => None end.

Lemma quick_forward l t : t <= fst (quick l t).
Proof. cbn. lia. Qed.

Lemma stop_grace_spec_witness :
  graceful (timeout (graced (Some 100))) 5 (mkTokens None None) 107
    (mkOutcome TimedOut (Some []) (Some Kill) : DrainOutcome bytes) [(100, Term); (105, Kill)].
Proof.
  apply (stop_grace_spec stubborn quick None 10 (fun _ => 0%nat) quick_forward
           (graced (Some 100)) 5 (mkTokens None None) 0 true); [reflexivity|lia|done|reflexivity].
Defined.

Lemma failed_sink_kills_outright_witness :
  exists k, [(7, Kill)] = [(k, Kill)] /\ 7 <= k /\
    termination (mkOutcome Cancelled (Some []) (Some Kill) : DrainOutcome bytes) = Cancelled.
Proof.
  apply (failed_sink_kills_outright stubborn quick (Some 7) 10 (fun _ => 0%nat) quick_forward
           (graced None) 5 (mkTokens None None) 0 true 9); [reflexivity..|lia].
Defined.

Lemma stop_grace_bounded_witness :
  exists e r, run_with_stop_grace (drain_run stubborn quick None 10 (fun _ => 0%nat))
      (graced (Some 100)) (mkTokens None None) 0 true = Some (e, r) /\
    (is_ok r = true -> e <= Z.max 0 100 + 5 + 2 + Z.max 2 10).
Proof.
  apply (stop_grace_bounded stubborn quick None 10 (fun _ => 0%nat) quick_forward
           (graced (Some 100)) 5 (mkTokens None None) 0 true 100 2);
    [reflexivity|lia|reflexivity|intros l t; cbn; lia].
Defined.
