(* ===== verification/Text.v ===== *)
(** * Text

    The operations on Rust strings and byte strings that the components share.
    A string is the sequence of its UTF-8 bytes: a Rocq [string] whose
    characters are bytes. A byte buffer is a list of integers ([Prelude]). The
    definitions follow the documented behaviour of the Rust standard library. *)

From S2P Require Import Prelude.
From Stdlib Require Export Ascii.
From Stdlib Require String.

#[local] Open Scope string_scope.
#[local] Open Scope list_scope.
#[local] Open Scope Z_scope.

(** The value of a byte of a string, and back. *)
Definition code (a : ascii) : Z := Z.of_N (N_of_ascii a).
Definition char (b : Z) : ascii := ascii_of_N (Z.to_N b).

Fixpoint to_bytes (s : string) : bytes :=
  match s with
  | EmptyString => []
  | String a s => code a :: to_bytes s
  end.

Fixpoint of_bytes (bs : bytes) : string :=
  match bs with
  | [] => EmptyString
  | b :: bs => String (char b) (of_bytes bs)
  end.

(** [u8::to_ascii_lowercase]. *)
Definition lower_ascii (a : ascii) : ascii :=
  if in_range 65 90 (code a) then char (code a + 32) else a.

Fixpoint map_string (f : ascii -> ascii) (s : string) : string :=
  match s with
  | EmptyString => EmptyString
  | String a s => String (f a) (map_string f s)
  end.

Fixpoint all_chars (p : ascii -> bool) (s : string) : bool :=
  match s with
  | EmptyString => true
  | String a s => p a && all_chars p s
  end.

Definition to_ascii_lowercase (s : string) : string := map_string lower_ascii s.

(** [str::starts_with] with a string, and [str::contains]. *)
Fixpoint starts_with (pat s : string) : bool :=
  match pat, s with
  | EmptyString, _ => true
  | String a pat, String b s => Ascii.eqb a b && starts_with pat s
  | String _ _, EmptyString => false
  end.

Fixpoint contains (pat s : string) : bool :=
  starts_with pat s ||
  match s with
  | EmptyString => false
  | String _ s => contains pat s
  end.

(** [str::strip_prefix]. *)
Fixpoint strip_prefix (pat s : string) : option string :=
  match pat, s with
  | EmptyString, _ => Some s
  | String a pat, String b s => if Ascii.eqb a b then strip_prefix pat s else None
  | String _ _, EmptyString => None
  end.

Fixpoint last_char (s : string) : option ascii :=
  match s with
  | EmptyString => None
  | String a EmptyString => Some a
  | String _ s => last_char s
  end.

Definition first_char (s : string) : option ascii :=
  match s with EmptyString => None | String a _ => Some a end.

(** [starts_with(char)] and [ends_with(char)] for an ASCII character. *)
Definition starts_with_char (a : ascii) (s : string) : bool := bool_decide (first_char s = Some a).
Definition ends_with_char (a : ascii) (s : string) : bool := bool_decide (last_char s = Some a).

Definition is_empty (s : string) : bool := match s with EmptyString => true | _ => false end.

(** [str::split_once] with an ASCII character. *)
Fixpoint split_once (a : ascii) (s : string) : option (string * string) :=
  match s with
  | EmptyString => None
  | String b s =>
      if Ascii.eqb a b then Some (EmptyString, s)
      else match split_once a s with Some (l, r) => Some (String b l, r) | None => None end
  end.

(** [str::split] with an ASCII character: always at least one piece. *)
Fixpoint split (a : ascii) (s : string) : list string :=
  match s with
  | EmptyString => [EmptyString]
  | String b s =>
      if Ascii.eqb a b then EmptyString :: split a s
      else match split a s with
           | p :: ps => String b p :: ps
           | [] => [String b EmptyString]
           end
  end.

(** [str::chars]: the scalar values of valid UTF-8. *)
Fixpoint chars (s : string) : list Z :=
  match s with
  | EmptyString => []
  | String a s1 =>
      let b := code a in
      let low c := Z.land (code c) 0x3f in
      if b <? 0x80 then b :: chars s1
      else if b <? 0xe0 then
        match s1 with
        | String c s2 => Z.lor (Z.shiftl (Z.land b 0x1f) 6) (low c) :: chars s2
        | _ => []
        end
      else if b <? 0xf0 then
        match s1 with
        | String c (String d s3) =>
            Z.lor (Z.shiftl (Z.land b 0x0f) 12) (Z.lor (Z.shiftl (low c) 6) (low d)) :: chars s3
        | _ => []
        end
      else
        match s1 with
        | String c (String d (String e s4)) =>
            Z.lor (Z.shiftl (Z.land b 0x07) 18)
              (Z.lor (Z.shiftl (low c) 12) (Z.lor (Z.shiftl (low d) 6) (low e))) :: chars s4
        | _ => []
        end
  end.

(** [char::is_control] (category Cc) and [char::is_whitespace] (White_Space). *)
Definition is_control (c : Z) : bool := in_range 0 0x1f c || in_range 0x7f 0x9f c.

Definition is_whitespace (c : Z) : bool :=
  in_range 9 13 c || in_range 0x2000 0x200a c ||
  one_of [0x20; 0x85; 0xa0; 0x1680; 0x2028; 0x2029; 0x202f; 0x205f; 0x3000] c.

(** [u8::is_ascii_digit] and friends. *)
Definition is_ascii_digit (a : ascii) : bool := in_range 48 57 (code a).
Definition is_ascii_lowercase (a : ascii) : bool := in_range 97 122 (code a).
Definition is_ascii_uppercase (a : ascii) : bool := in_range 65 90 (code a).
Definition is_ascii_alphanumeric (a : ascii) : bool :=
  is_ascii_digit a || is_ascii_lowercase a || is_ascii_uppercase a.
Definition is_ascii_hexdigit (a : ascii) : bool :=
  is_ascii_digit a || in_range 97 102 (code a) || in_range 65 70 (code a).

(** [str::parse] for an unsigned integer below [bound]: an optional plus, at
    least one digit, only digits, no overflow. *)
Fixpoint parse_digits (bound acc : Z) (s : string) : option Z :=
  match s with
  | EmptyString => Some acc
  | String a s =>
      if is_ascii_digit a then
        let acc' := acc * 10 + (code a - 48) in
        if acc' <? bound then parse_digits bound acc' s else None
      else None
  end.

Definition parse_uint (bound : Z) (s : string) : option Z :=
  let digits := match s with String "+" rest => rest | _ => s end in
  if is_empty digits then None else parse_digits bound 0 digits.

Definition u16_bound : Z := 2 ^ 16.
Definition u32_bound : Z := 2 ^ 32.
Definition u64_bound : Z := 2 ^ 64.

(** ** Lossy decoding

    [String::from_utf8_lossy]: each maximal prefix of an ill-formed sequence is
    replaced by U+FFFD. [second lead] is the range a lead byte's first
    continuation must lie in, and how many continuations follow it. *)
Definition replacement : bytes := [0xef; 0xbf; 0xbd].

Definition second (lead : Z) : option (Z * Z * nat) :=
  if in_range 0xc2 0xdf lead then Some (0x80, 0xbf, 0%nat)
  else if lead =? 0xe0 then Some (0xa0, 0xbf, 1%nat)
  else if in_range 0xe1 0xec lead || in_range 0xee 0xef lead then Some (0x80, 0xbf, 1%nat)
  else if lead =? 0xed then Some (0x80, 0x9f, 1%nat)
  else if lead =? 0xf0 then Some (0x90, 0xbf, 2%nat)
  else if in_range 0xf1 0xf3 lead then Some (0x80, 0xbf, 2%nat)
  else if lead =? 0xf4 then Some (0x80, 0x8f, 2%nat)
  else None.

Definition is_cont (b : Z) : bool := in_range 0x80 0xbf b.

Fixpoint lossy_bytes (bs : bytes) : bytes :=
  match bs with
  | [] => []
  | b :: r =>
      if b <? 0x80 then b :: lossy_bytes r
      else match second b with
           | None => replacement ++ lossy_bytes r
           | Some (lo, hi, more) =>
               match r with
               | c :: r1 =>
                   if in_range lo hi c then
                     match more, r1 with
                     | 0%nat, _ => b :: c :: lossy_bytes r1
                     | 1%nat, d :: r2 =>
                         if is_cont d then b :: c :: d :: lossy_bytes r2
                         else replacement ++ lossy_bytes r1
                     | _, d :: r2 =>
                         if is_cont d then
                           match r2 with
                           | e :: r3 =>
                               if is_cont e then b :: c :: d :: e :: lossy_bytes r3
                               else replacement ++ lossy_bytes r2
                           | [] => replacement
                           end
                         else replacement ++ lossy_bytes r1
                     | _, [] => replacement
                     end
                   else replacement ++ lossy_bytes r
               | [] => replacement
               end
           end
  end.

Definition from_utf8_lossy (bs : bytes) : string := of_bytes (lossy_bytes bs).

(** ** Lemmas *)

Create HintDb text.

#[global] Arguments String.append : simpl nomatch.

Lemma app_nil_r_string (s : string) : s +:+ EmptyString = s.
Proof. induction s as [|a s IH]; cbn; [done|by rewrite IH]. Qed.

Lemma app_assoc_string (s1 s2 s3 : string) : s1 +:+ (s2 +:+ s3) = (s1 +:+ s2) +:+ s3.
Proof. induction s1 as [|a s1 IH]; cbn; [done|by rewrite IH]. Qed.

Lemma length_string_app (s t : string) : String.length (s +:+ t) = (String.length s + String.length t)%nat.
Proof. induction s as [|a s IH]; cbn; [done|by rewrite IH]. Qed.

Lemma map_string_app f s1 s2 : map_string f (s1 +:+ s2) = map_string f s1 +:+ map_string f s2.
Proof. induction s1 as [|a s1 IH]; cbn; [done|by rewrite IH]. Qed.

Lemma all_chars_app p s1 s2 : all_chars p (s1 +:+ s2) = all_chars p s1 && all_chars p s2.
Proof. induction s1 as [|a s1 IH]; cbn; [done|]. by rewrite IH, andb_assoc. Qed.

Lemma to_bytes_app s1 s2 : to_bytes (s1 +:+ s2) = to_bytes s1 ++ to_bytes s2.
Proof. induction s1 as [|a s1 IH]; cbn; [done|by rewrite IH]. Qed.

Lemma of_bytes_app b1 b2 : of_bytes (b1 ++ b2) = of_bytes b1 +:+ of_bytes b2.
Proof. induction b1 as [|a b1 IH]; cbn; [done|by rewrite IH]. Qed.

Lemma char_code a : char (code a) = a.
Proof. unfold char, code. by rewrite N2Z.id, ascii_N_embedding. Qed.

Lemma code_range a : 0 <= code a < 256.
Proof. unfold code. pose proof (N_ascii_bounded a). lia. Qed.

Lemma code_char b : 0 <= b < 256 -> code (char b) = b.
Proof. intros Hb. unfold code, char. rewrite N_ascii_embedding by lia. lia. Qed.

Lemma of_to_bytes s : of_bytes (to_bytes s) = s.
Proof. induction s as [|a s IH]; cbn; [done|by rewrite IH, char_code]. Qed.

Lemma to_of_bytes bs : Forall is_u8 bs -> to_bytes (of_bytes bs) = bs.
Proof. induction 1 as [|b bs Hb _ IH]; cbn; [done|by rewrite IH, code_char]. Qed.

Lemma starts_with_spec pat s : starts_with pat s = true <-> exists r, s = pat +:+ r.
Proof.
  revert s. induction pat as [|a pat IH]; intros s; cbn.
  - split; [eauto|done].
  - destruct s as [|b s]; [split; [done|by intros [r [=]]]|].
    rewrite andb_true_iff, Ascii.eqb_eq, IH. split.
    + intros [<- [r ->]]. by exists r.
    + intros [r [= -> ->]]. eauto.
Qed.

Lemma contains_spec pat s : contains pat s = true <-> exists l r, s = l +:+ pat +:+ r.
Proof.
  induction s as [|a s IH]; cbn; rewrite orb_true_iff, starts_with_spec.
  - split.
    + intros [[r Hr]|?]; [exists EmptyString, r; done|done].
    + intros (l & r & H). left. destruct l; [exists r; done|done].
  - rewrite IH. split.
    + intros [[r Hr]|(l & r & Hr)].
      * exists EmptyString, r. done.
      * exists (String a l), r. cbn. by rewrite Hr.
    + intros (l & r & H). destruct l as [|b l]; cbn in H; [left; eauto|].
      injection H as <- ->. right. eauto.
Qed.

(** A string that contains a fragment still does with text around it. *)
Lemma contains_around pat l s r : contains pat s = true -> contains pat (l +:+ s +:+ r) = true.
Proof.
  rewrite !contains_spec. intros (l' & r' & ->). exists (l +:+ l'), (r' +:+ r).
  by rewrite <- !app_assoc_string.
Qed.

Lemma strip_prefix_spec pat s r : strip_prefix pat s = Some r <-> s = pat +:+ r.
Proof.
  revert s. induction pat as [|a pat IH]; intros s; cbn.
  - split; congruence.
  - destruct s as [|b s]; [done|]. destruct (Ascii.eqb a b) eqn:E.
    + apply Ascii.eqb_eq in E as ->. rewrite IH. split; [by intros ->|by intros [= ->]].
    + apply Ascii.eqb_neq in E. split; [done|]. by intros [= -> ->].
Qed.

Lemma lower_ascii_idem a : lower_ascii (lower_ascii a) = lower_ascii a.
Proof. destruct a as [[] [] [] [] [] [] [] []]; reflexivity. Qed.

Lemma map_string_ext f g s : (forall a, f a = g a) -> map_string f s = map_string g s.
Proof. intros H. induction s as [|a s IH]; cbn; [done|by rewrite IH, H]. Qed.

Lemma map_map_string f g s : map_string f (map_string g s) = map_string (fun a => f (g a)) s.
Proof. induction s as [|a s IH]; cbn; [done|by rewrite IH]. Qed.

Lemma to_ascii_lowercase_idem s : to_ascii_lowercase (to_ascii_lowercase s) = to_ascii_lowercase s.
Proof. unfold to_ascii_lowercase. rewrite map_map_string. apply map_string_ext, lower_ascii_idem. Qed.

Lemma to_ascii_lowercase_app s1 s2 :
  to_ascii_lowercase (s1 +:+ s2) = to_ascii_lowercase s1 +:+ to_ascii_lowercase s2.
Proof. apply map_string_app. Qed.

Lemma length_map_string f s : String.length (map_string f s) = String.length s.
Proof. induction s as [|a s IH]; cbn; [done|by rewrite IH]. Qed.

Lemma all_chars_impl (p q : ascii -> bool) s :
  (forall a, p a = true -> q a = true) -> all_chars p s = true -> all_chars q s = true.
Proof.
  intros H. induction s as [|a s IH]; cbn; [done|]. rewrite !andb_true_iff. intros [? ?]; auto.
Qed.

(** *** Splitting and joining *)

Fixpoint join (a : ascii) (ps : list string) : string :=
  match ps with
  | [] => EmptyString
  | [p] => p
  | p :: ps => p +:+ String a (join a ps)
  end.

Lemma split_nonempty a s : split a s <> [].
Proof. destruct s as [|b s]; cbn; [done|]. destruct (Ascii.eqb a b); [done|]. by destruct (split a s). Qed.

(** Splitting a separator-free piece in front of a separator. *)
Lemma split_app a p s : all_chars (fun b => negb (Ascii.eqb a b)) p = true ->
  split a (p +:+ String a s) = p :: split a s.
Proof.
  induction p as [|b p IH]; cbn.
  - by rewrite Ascii.eqb_refl.
  - intros [->%negb_true_iff Hp]%andb_true_iff. by rewrite IH.
Qed.

Lemma split_free a p : all_chars (fun b => negb (Ascii.eqb a b)) p = true -> split a p = [p].
Proof.
  induction p as [|b p IH]; cbn; [done|].
  intros [->%negb_true_iff Hp]%andb_true_iff. by rewrite IH.
Qed.

Lemma split_join a ps : ps <> [] ->
  Forall (fun p => all_chars (fun b => negb (Ascii.eqb a b)) p = true) ps -> split a (join a ps) = ps.
Proof.
  intros Hne HF. induction HF as [|p ps Hp HF IH]; [done|].
  destruct ps as [|q ps]; [by apply split_free|].
  change (join a (p :: q :: ps)) with (p +:+ String a (join a (q :: ps))).
  rewrite split_app by done. f_equal. by apply IH.
Qed.

Lemma join_split a s : join a (split a s) = s.
Proof.
  induction s as [|b s IH]; cbn; [done|].
  pose proof (split_nonempty a s) as Hne. destruct (Ascii.eqb a b) eqn:E.
  - apply Ascii.eqb_eq in E as <-. destruct (split a s) as [|p ps]; [done|]. by rewrite <- IH.
  - destruct (split a s) as [|p ps]; [done|]. rewrite <- IH. by destruct ps.
Qed.

Lemma split_once_app a p s : all_chars (fun b => negb (Ascii.eqb a b)) p = true ->
  split_once a (p +:+ String a s) = Some (p, s).
Proof.
  induction p as [|b p IH]; cbn.
  - by rewrite Ascii.eqb_refl.
  - intros [->%negb_true_iff Hp]%andb_true_iff. by rewrite IH.
Qed.

Lemma split_once_some a s l r : split_once a s = Some (l, r) -> s = l +:+ String a r.
Proof.
  revert l. induction s as [|b s IH]; intros l; cbn; [done|].
  destruct (Ascii.eqb a b) eqn:E; [apply Ascii.eqb_eq in E as ->; by intros [= <- <-]|].
  destruct (split_once a s) as [[l' r']|]; [|done]. intros [= <- <-]. cbn. by rewrite (IH l').
Qed.

(** Lossy decoding keeps ASCII. *)
Lemma lossy_ascii bs : Forall (fun b => b < 0x80) bs -> lossy_bytes bs = bs.
Proof.
  induction 1 as [|b bs Hb _ IH]; cbn; [done|].
  replace (b <? 0x80) with true by (symmetry; apply Z.ltb_lt; lia). by rewrite IH.
Qed.

#[export] Hint Rewrite map_string_app all_chars_app to_bytes_app of_bytes_app to_ascii_lowercase_app : text.
#[export] Hint Resolve contains_around : text.

(** ** Numbers as text *)

Fixpoint digits (fuel : nat) (n : Z) (acc : string) : string :=
  match fuel with
  | O => acc
  | S fuel =>
      if n <? 10 then String (char (48 + n)) acc
      else digits fuel (n / 10) (String (char (48 + n mod 10)) acc)
  end.

(** The decimal form of an integer below 10^20, which covers [u64]. *)
Definition print_uint (n : Z) : string := digits 20 n EmptyString.

Lemma digit_code d : 0 <= d < 10 -> code (char (48 + d)) = 48 + d /\ is_ascii_digit (char (48 + d)) = true.
Proof.
  intros Hd. unfold is_ascii_digit. rewrite code_char by lia. split; [done|].
  unfold in_range. apply andb_true_iff. split; apply Z.leb_le; lia.
Qed.

Lemma digits_parse bound fuel n acc : (0 < fuel)%nat -> 0 <= n < 10 ^ Z.of_nat fuel -> n < bound ->
  parse_digits bound 0 (digits fuel n acc) = parse_digits bound n acc.
Proof.
  revert n acc. induction fuel as [|fuel IH]; intros n acc Hf Hn Hb; [lia|]. cbn [digits].
  destruct (Z.ltb_spec n 10).
  - destruct (digit_code n) as [E1 E2]; [lia|]. cbn [parse_digits]. rewrite E1, E2.
    replace (0 * 10 + (48 + n - 48)) with n by lia.
    by replace (n <? bound) with true by (symmetry; apply Z.ltb_lt; lia).
  - pose proof (Z.div_mod n 10 ltac:(lia)) as Hdm. pose proof (Z.mod_pos_bound n 10 ltac:(lia)) as Hm.
    assert (fuel <> 0%nat) as Hf0.
    { intros ->. change (10 ^ Z.of_nat 1) with 10 in Hn. lia. }
    rewrite Nat2Z.inj_succ, Z.pow_succ_r in Hn by lia.
    rewrite IH; [|lia| |].
    + destruct (digit_code (n mod 10)) as [E1 E2]; [lia|]. cbn [parse_digits]. rewrite E1, E2.
      replace (n / 10 * 10 + (48 + n mod 10 - 48)) with n by lia.
      by replace (n <? bound) with true by (symmetry; apply Z.ltb_lt; lia).
    + split; [apply Z.div_pos; lia|]. apply Z.div_lt_upper_bound; lia.
    + pose proof (Z.div_le_upper_bound n 10 n ltac:(lia) ltac:(lia)). lia.
Qed.

Lemma digits_first fuel n acc : (0 < fuel)%nat -> 0 <= n < 10 ^ Z.of_nat fuel ->
  exists d s, 0 <= d < 10 /\ digits fuel n acc = String (char (48 + d)) s.
Proof.
  revert n acc. induction fuel as [|fuel IH]; intros n acc Hf Hn; [lia|]. cbn [digits].
  destruct (Z.ltb_spec n 10); [exists n, acc; split; [lia|done]|].
  assert (fuel <> 0%nat) as Hf0. { intros ->. change (10 ^ Z.of_nat 1) with 10 in Hn. lia. }
  apply IH; [lia|]. rewrite Nat2Z.inj_succ, Z.pow_succ_r in Hn by lia.
  split; [apply Z.div_pos; lia|]. apply Z.div_lt_upper_bound; lia.
Qed.

Lemma digits_all (p : ascii -> bool) fuel n acc :
  (forall d, 0 <= d < 10 -> p (char (48 + d)) = true) -> 0 <= n ->
  all_chars p acc = true -> all_chars p (digits fuel n acc) = true.
Proof.
  intros Hp. revert n acc. induction fuel as [|fuel IH]; intros n acc Hn Ha; cbn [digits]; [done|].
  destruct (Z.ltb_spec n 10).
  - cbn. by rewrite Hp, Ha by lia.
  - apply IH; [apply Z.div_pos; lia|]. cbn. rewrite Hp, Ha; [done|]. apply Z.mod_pos_bound. lia.
Qed.

(** A number is read back from its decimal form. *)
Lemma parse_print_uint bound n : 0 <= n < bound -> bound <= 10 ^ 20 ->
  parse_uint bound (print_uint n) = Some n.
Proof.
  intros Hn Hb. unfold parse_uint, print_uint.
  destruct (digits_first 20 n EmptyString) as (d & s & Hd & E); [lia|lia|].
  assert (match digits 20 n EmptyString with String "+" rest => rest | _ => digits 20 n EmptyString end
          = digits 20 n EmptyString) as ->.
  { rewrite E. assert (Ascii.eqb (char (48 + d)) "+" = false) as Hne.
    { assert (d = 0 \/ d = 1 \/ d = 2 \/ d = 3 \/ d = 4 \/ d = 5 \/ d = 6 \/ d = 7 \/ d = 8 \/ d = 9)
        as Hcases by lia. decompose [or] Hcases; subst; reflexivity. }
    apply Ascii.eqb_neq in Hne. destruct (char (48 + d)) as [[] [] [] [] [] [] [] []]; done. }
  rewrite E. cbn [is_empty]. rewrite <- E. by rewrite digits_parse by lia.
Qed.

Lemma u64_digits : u64_bound <= 10 ^ 20.
Proof. by vm_compute. Qed.

Arguments print_uint : simpl never.
Arguments parse_uint : simpl never.

(** ** Characters *)

(** The characters of valid UTF-8, each with its bytes. *)
Fixpoint uchars (s : string) : list (string * Z) :=
  match s with
  | EmptyString => []
  | String a s1 =>
      let b := code a in
      if b <? 0x80 then (String a EmptyString, b) :: uchars s1
      else if b <? 0xe0 then
        match s1 with
        | String c s2 =>
            let t := String a (String c EmptyString) in (t, default 0 (head (chars t))) :: uchars s2
        | _ => []
        end
      else if b <? 0xf0 then
        match s1 with
        | String c (String d s3) =>
            let t := String a (String c (String d EmptyString)) in
            (t, default 0 (head (chars t))) :: uchars s3
        | _ => []
        end
      else
        match s1 with
        | String c (String d (String e s4)) =>
            let t := String a (String c (String d (String e EmptyString))) in
            (t, default 0 (head (chars t))) :: uchars s4
        | _ => []
        end
  end.

(** [str::split_whitespace]: [word] is the word being read. *)
Fixpoint words (cs : list (string * Z)) (word : string) : list string :=
  let flush := if is_empty word then [] else [word] in
  match cs with
  | [] => flush
  | (t, c) :: cs => if is_whitespace c then flush ++ words cs EmptyString else words cs (word +:+ t)
  end.

Definition split_whitespace (s : string) : list string := words (uchars s) EmptyString.

(** [s.trim().is_empty()]. *)
Definition is_blank (s : string) : bool := forallb is_whitespace (chars s).

Fixpoint trim_start_char (a : ascii) (s : string) : string :=
  match s with
  | String b s' => if Ascii.eqb a b then trim_start_char a s' else s
  | EmptyString => EmptyString
  end.

Fixpoint trim_end_char (a : ascii) (s : string) : string :=
  match s with
  | EmptyString => EmptyString
  | String b s =>
      match trim_end_char a s with
      | EmptyString => if Ascii.eqb a b then EmptyString else String b EmptyString
      | s' => String b s'
      end
  end.

(** [str::splitn] with an ASCII character: at most [n] pieces. *)
Fixpoint splitn (n : nat) (a : ascii) (s : string) : list string :=
  match n with
  | O => []
  | 1%nat => [s]
  | S n =>
      match split_once a s with
      | Some (l, r) => l :: splitn n a r
      | None => [s]
      end
  end.

(** [slice::split] on a byte. *)
Fixpoint split_bytes (b : Z) (bs : bytes) : list bytes :=
  match bs with
  | [] => [[]]
  | x :: bs =>
      if x =? b then [] :: split_bytes b bs
      else match split_bytes b bs with
           | p :: ps => (x :: p) :: ps
           | [] => [[x]]
           end
  end.

Lemma split_bytes_app b p bs : Forall (fun x => x <> b) p ->
  split_bytes b (p ++ b :: bs) = p :: split_bytes b bs.
Proof.
  induction 1 as [|x p Hx _ IH]; cbn.
  - by rewrite Z.eqb_refl.
  - apply Z.eqb_neq in Hx. by rewrite Hx, IH.
Qed.

(** What precedes the first occurrence of a byte, and what follows it. *)
Fixpoint cut (b : Z) (bs : bytes) : option (bytes * bytes) :=
  match bs with
  | [] => None
  | x :: bs => if x =? b then Some ([], bs)
               else match cut b bs with Some (l, r) => Some (x :: l, r) | None => None end
  end.

Lemma cut_app b p bs : Forall (fun x => x <> b) p -> cut b (p ++ b :: bs) = Some (p, bs).
Proof.
  induction 1 as [|x p Hx _ IH]; cbn.
  - by rewrite Z.eqb_refl.
  - apply Z.eqb_neq in Hx. by rewrite Hx, IH.
Qed.

Lemma cut_some b bs l r : cut b bs = Some (l, r) -> bs = l ++ b :: r /\ Forall (fun x => x <> b) l.
Proof.
  revert l. induction bs as [|x bs IH]; intros l; cbn; [done|].
  destruct (Z.eqb_spec x b) as [->|Hx]; [by intros [= <- <-]|].
  destruct (cut b bs) as [[l' r']|]; [|done]. intros [= <- <-].
  destruct (IH l' eq_refl) as [-> ?]. split; [done|by constructor].
Qed.

(** [slice::chunks], with fuel for the bytes. *)
Fixpoint chunks_loop (fuel n : nat) (bs : bytes) : list bytes :=
  match bs, fuel with
  | [], _ | _, O => []
  | _, S fuel => take n bs :: chunks_loop fuel n (drop n bs)
  end.

Definition chunks (n : nat) (bs : bytes) : list bytes := chunks_loop (length bs) n bs.

Lemma chunks_loop_spec fuel n bs : (0 < n)%nat -> (length bs <= fuel)%nat ->
  concat (chunks_loop fuel n bs) = bs /\ Forall (fun c => (length c <= n)%nat) (chunks_loop fuel n bs).
Proof.
  intros Hn. revert bs. induction fuel as [|fuel IH]; intros bs Hl; destruct bs as [|b bs]; cbn in Hl; try lia; try done.
  cbn [chunks_loop concat]. destruct (IH (drop n (b :: bs))) as [Hc HF]; [rewrite length_drop; cbn; lia|].
  rewrite Hc, take_drop. split; [done|]. constructor; [rewrite length_take; lia|done].
Qed.

Lemma chunks_spec n bs : (0 < n)%nat -> concat (chunks n bs) = bs /\ Forall (fun c => (length c <= n)%nat) (chunks n bs).
Proof. intros Hn. by apply chunks_loop_spec. Qed.

Lemma chunks_forall (P : Z -> Prop) n bs : Forall P bs -> Forall (Forall P) (chunks n bs).
Proof.
  unfold chunks. generalize (length bs) as fuel. intros fuel. revert bs.
  induction fuel as [|fuel IH]; intros [|b bs] Hb; cbn [chunks_loop]; constructor; [by apply Forall_take|by apply IH, Forall_drop].
Qed.

(** A string whose bytes are well-formed UTF-8: lossy decoding keeps it. *)
Definition utf8 (s : string) : Prop := from_utf8_lossy (to_bytes s) = s.

Lemma ascii_utf8 s : all_chars (fun a => code a <? 0x80) s = true -> utf8 s.
Proof.
  intros Hs. unfold utf8, from_utf8_lossy. rewrite lossy_ascii; [apply of_to_bytes|].
  induction s as [|a s IH]; cbn in *; [constructor|].
  apply andb_true_iff in Hs as [Ha Hs]. apply Z.ltb_lt in Ha. constructor; [done|auto].
Qed.

(** [str::trim] and [trim_start]. *)
Fixpoint drop_white (cs : list (string * Z)) : list (string * Z) :=
  match cs with
  | (t, c) :: cs' => if is_whitespace c then drop_white cs' else cs
  | [] => []
  end.

Definition unchars (cs : list (string * Z)) : string := foldr (fun tc acc => fst tc +:+ acc) EmptyString cs.

Definition trim_start (s : string) : string := unchars (drop_white (uchars s)).
Definition trim (s : string) : string := unchars (rev (drop_white (rev (drop_white (uchars s))))).

(** The longest prefix of ASCII digits, and the rest. *)
Fixpoint span_digits (s : string) : string * string :=
  match s with
  | String a s' =>
      if is_ascii_digit a then let '(l, r) := span_digits s' in (String a l, r) else (EmptyString, s)
  | EmptyString => (EmptyString, EmptyString)
  end.

(** [str::strip_suffix]. *)
Fixpoint strip_suffix (suf s : string) : option string :=
  if String.eqb s suf then Some EmptyString
  else match s with
       | EmptyString => None
       | String a s => match strip_suffix suf s with Some p => Some (String a p) | None => None end
       end.

Lemma uchars_ascii a s : code a < 0x80 -> uchars (String a s) = (String a EmptyString, code a) :: uchars s.
Proof. intros Ha. cbn [uchars]. by replace (code a <? 0x80) with true by (symmetry; apply Z.ltb_lt; lia). Qed.

(** Text of visible ASCII characters is not trimmed. *)
Definition visible (s : string) : Prop := all_chars (fun a => in_range 0x21 0x7e (code a)) s = true.

Lemma visible_uchars s : visible s ->
  unchars (uchars s) = s /\ Forall (fun tc => is_whitespace (snd tc) = false) (uchars s).
Proof.
  unfold visible. induction s as [|a s IH]; [done|]. cbn [all_chars].
  intros [Ha Hs]%andb_true_iff. unfold in_range in Ha. apply andb_true_iff in Ha as [H1%Z.leb_le H2%Z.leb_le].
  rewrite uchars_ascii by lia. destruct (IH Hs) as [E HF]. split; [cbn; by rewrite <- E at 2|].
  constructor; [|done]. cbn. unfold is_whitespace, in_range, one_of. cbn [existsb].
  repeat (apply orb_false_iff; split); rewrite ?andb_false_iff, ?Z.leb_gt, ?Z.eqb_neq; lia.
Qed.

Lemma drop_white_none cs : Forall (fun tc => is_whitespace (snd tc) = false) cs -> drop_white cs = cs.
Proof. destruct 1 as [|[t c] cs Hc _]; cbn in *; [done|by rewrite Hc]. Qed.

Lemma trim_start_visible s : visible s -> trim_start s = s.
Proof. intros Hs. destruct (visible_uchars s Hs) as [E HF]. unfold trim_start. by rewrite drop_white_none. Qed.

Lemma trim_visible s : visible s -> trim s = s.
Proof.
  intros Hs. destruct (visible_uchars s Hs) as [E HF]. unfold trim.
  rewrite (drop_white_none (uchars s)) by done. rewrite drop_white_none by (by apply Forall_rev).
  by rewrite rev_involutive.
Qed.

Lemma span_digits_app d r : all_chars is_ascii_digit d = true ->
  match first_char r with Some a => is_ascii_digit a = false | None => True end ->
  span_digits (d +:+ r) = (d, r).
Proof.
  intros Hd Hr. induction d as [|a d IH]; cbn in *.
  - destruct r as [|b r]; cbn in *; [done|by rewrite Hr].
  - apply andb_true_iff in Hd as [-> Hd]. by rewrite IH.
Qed.

(** JSON values ([serde_json::Value]); an object is its fields in order. *)
Inductive json :=
  | JNull
  | JBool (b : bool)
  | JNum (n : Z)
  | JStr (s : string)
  | JArr (l : list json)
  | JObj (fields : list (string * json)).

#[export] Instance json_eq_dec : EqDecision json.
Proof.
  refine (fix go (x y : json) : {x = y} + {x <> y} := _).
  destruct x as [|b|n|t|l|f], y as [|b'|n'|t'|l'|f']; try (right; discriminate).
  - by left.
  - destruct (decide (b = b')); [left|right]; congruence.
  - destruct (decide (n = n')); [left|right]; congruence.
  - destruct (decide (t = t')); [left|right]; congruence.
  - destruct (List.list_eq_dec go l l'); [left|right]; congruence.
  - assert (forall p q : string * json, {p = q} + {p <> q}) as pair_dec.
    { intros [k j] [k' j']. destruct (go j j'); [|right; congruence].
      destruct (decide (k = k')); [left|right]; congruence. }
    destruct (List.list_eq_dec pair_dec f f'); [left|right]; congruence.
Defined.

(** ** Ordered maps

    A [BTreeMap] with string keys is a [gmap]; where the code iterates over it,
    [entries] gives its pairs in key order. *)
Definition key_le {V} (a b : string * V) : Prop := String.leb (fst a) (fst b) = true.

#[export] Instance key_le_dec {V} (a b : string * V) : Decision (key_le a b).
Proof. unfold key_le. apply _. Defined.

Definition entries {V} (m : gmap string V) : list (string * V) := merge_sort key_le (map_to_list m).

Lemma elem_of_entries {V} (m : gmap string V) k v : (k, v) ∈ entries m <-> m !! k = Some v.
Proof. unfold entries. rewrite merge_sort_Permutation. apply elem_of_map_to_list. Qed.

Lemma entries_empty {V} (m : gmap string V) : entries m = [] <-> m = ∅.
Proof.
  split; [|by intros ->]. intros E. apply map_empty. intros k.
  destruct (m !! k) as [v|] eqn:Ev; [|done]. apply elem_of_entries in Ev. rewrite E in Ev.
  by apply elem_of_nil in Ev.
Qed.

Lemma Forall_entries {V} (P : string * V -> Prop) (m : gmap string V) :
  Forall P (entries m) <-> map_Forall (fun k v => P (k, v)) m.
Proof.
  rewrite Forall_forall. split.
  - intros HF k v Hkv. apply HF. by apply elem_of_entries.
  - intros HF [k v] Hin. apply HF. by apply elem_of_entries.
Qed.

Lemma string_compare_trans s1 s2 s3 : String.leb s1 s2 = true -> String.leb s2 s3 = true -> String.leb s1 s3 = true.
Proof.
  unfold String.leb. revert s2 s3.
  induction s1 as [|a s1 IH]; intros [|b s2] [|c s3]; cbn; try done.
  unfold Ascii.compare.
  destruct (N.compare_spec (N_of_ascii a) (N_of_ascii b)) as [Hab|Hab|Hab]; try done;
    destruct (N.compare_spec (N_of_ascii b) (N_of_ascii c)) as [Hbc|Hbc|Hbc]; try done;
    destruct (N.compare_spec (N_of_ascii a) (N_of_ascii c)) as [Hac|Hac|Hac]; try done; try lia.
  apply IH.
Qed.

#[export] Instance key_le_trans {V} : Transitive (@key_le V).
Proof. intros x y z. apply string_compare_trans. Qed.

#[export] Instance key_le_total {V} : Total (@key_le V).
Proof. intros x y. destruct (String.leb_total (fst x) (fst y)); [by left|by right]. Qed.

(** Sorting a list of pairs whose keys differ by key gives the entries of the map. *)
Lemma sorted_entries {V} (l : list (string * V)) (m : gmap string V) :
  l ≡ₚ map_to_list m -> merge_sort key_le l = entries m.
Proof.
  intros Hl. apply (StronglySorted_unique_strong key_le).
  - intros [k1 v1] [k2 v2]. rewrite merge_sort_Permutation, Hl. intros H1 H2%elem_of_entries H12 H21.
    apply elem_of_map_to_list in H1. pose proof (String.leb_antisym k1 k2 H12 H21) as ->.
    by simplify_map_eq.
  - apply (StronglySorted_merge_sort _).
  - apply (StronglySorted_merge_sort _).
  - unfold entries. by rewrite !merge_sort_Permutation.
Qed.

(** Sorting by key pairs made from the keys of a map in any order. *)
Lemma sort_keyed {V W} (m : gmap string V) (g : string -> W) (order : list (string * V)) :
  order ≡ₚ map_to_list m ->
  merge_sort key_le ((fun kv => (fst kv, g (fst kv))) <$> order) = (fun k => (k, g k)) <$> (fst <$> entries m).
Proof.
  intros Ho. apply (StronglySorted_unique_strong key_le).
  - intros [k1 w1] [k2 w2]. rewrite merge_sort_Permutation, !list_elem_of_fmap.
    intros ([k v] & [= -> ->] & _) (k' & [= -> ->] & _) H12 H21. cbn in *.
    by rewrite (String.leb_antisym k k' H12 H21).
  - apply (StronglySorted_merge_sort _).
  - rewrite <- list_fmap_compose. apply (StronglySorted_map key_le); [by intros [] []|].
    apply (StronglySorted_merge_sort _).
  - rewrite merge_sort_Permutation, Ho, <- list_fmap_compose. unfold entries. by rewrite merge_sort_Permutation.
Qed.

(** ** Reading words and numbers *)

(** [str::rsplit_once] with a character. *)
Fixpoint rsplit_once (a : ascii) (s : string) : option (string * string) :=
  match s with
  | EmptyString => None
  | String c s' =>
      match rsplit_once a s' with
      | Some (l, r) => Some (String c l, r)
      | None => if Ascii.eqb a c then Some (EmptyString, s') else None
      end
  end.

(** [str::parse::<i32>]. *)
Definition parse_i32 (s : string) : option Z :=
  match s with
  | String "-" digits => if is_empty digits then None else Z.opp <$> parse_digits (2 ^ 31 + 1) 0 digits
  | _ => parse_uint (2 ^ 31) s
  end.

Lemma rsplit_once_none a s : all_chars (fun c => negb (Ascii.eqb a c)) s = true -> rsplit_once a s = None.
Proof.
  induction s as [|c s IH]; [done|]. cbn. intros [Hc Hs]%andb_true_iff. rewrite IH by done.
  apply negb_true_iff in Hc. by rewrite Hc.
Qed.

Lemma rsplit_once_last a l r : all_chars (fun c => negb (Ascii.eqb a c)) r = true ->
  rsplit_once a (l +:+ String a r) = Some (l, r).
Proof.
  intros Hr. induction l as [|c l IH]; cbn.
  - by rewrite rsplit_once_none, Ascii.eqb_refl.
  - change (String.append l (String a r)) with (l +:+ String a r). by rewrite IH.
Qed.

Lemma rsplit_once_free a s : all_chars (fun b => negb (Ascii.eqb a b)) (match rsplit_once a s with Some (_, r) => r | None => s end) = true.
Proof.
  induction s as [|b s IH]; cbn [rsplit_once]; [done|]. destruct (rsplit_once a s) as [[l r]|]; [done|].
  destruct (Ascii.eqb a b) eqn:E; [done|]. cbn. by rewrite E, IH.
Qed.

Lemma rsplit_once_some a s l r : rsplit_once a s = Some (l, r) -> s = l +:+ String a r.
Proof.
  revert l. induction s as [|b s IH]; intros l; cbn [rsplit_once]; [done|].
  destruct (rsplit_once a s) as [[l' r']|]; [intros [= <- <-]; by rewrite (IH l' eq_refl)|].
  destruct (Ascii.eqb a b) eqn:E; [|done]. intros [= <- <-]. by apply Ascii.eqb_eq in E as ->.
Qed.

Lemma is_empty_app s t : is_empty (s +:+ t) = is_empty s && is_empty t.
Proof. by destruct s. Qed.

(** A word of visible characters, then white space or nothing. *)
Lemma words_visible w r word : visible w ->
  words (uchars (w +:+ String " " r)) word = (if is_empty (word +:+ w) then [] else [word +:+ w]) ++ words (uchars r) EmptyString /\
  words (uchars w) word = if is_empty (word +:+ w) then [] else [word +:+ w].
Proof.
  unfold visible. revert word. induction w as [|a w IH]; intros word Hw.
  - split; [|cbn; by rewrite app_nil_r_string]. change (EmptyString +:+ String " " r) with (String " " r). rewrite uchars_ascii by done.
    cbn. by rewrite app_nil_r_string.
  - cbn [all_chars] in Hw. apply andb_true_iff in Hw as [Ha Hw]. unfold in_range in Ha. apply andb_true_iff in Ha as [H1%Z.leb_le H2%Z.leb_le].
    assert (Hs : is_whitespace (code a) = false).
    { unfold is_whitespace, in_range, one_of. cbn [existsb].
      repeat (apply orb_false_iff; split); rewrite ?andb_false_iff, ?Z.leb_gt, ?Z.eqb_neq; lia. }
    change (String a w +:+ String " " r) with (String a (w +:+ String " " r)). rewrite !uchars_ascii by lia. cbn [words].
    rewrite Hs. replace (word +:+ String a w) with ((word +:+ String a EmptyString) +:+ w) by (by rewrite <- app_assoc_string).
    apply IH. done.
Qed.

Lemma split_whitespace_word w r : visible w -> is_empty w = false -> split_whitespace (w +:+ String " " r) = w :: split_whitespace r.
Proof. intros Hw Hn. unfold split_whitespace. destruct (words_visible w r EmptyString Hw) as [-> _]. cbn. by rewrite Hn. Qed.

Lemma split_whitespace_last w : visible w -> is_empty w = false -> split_whitespace w = [w].
Proof. intros Hw Hn. unfold split_whitespace. destruct (words_visible w EmptyString EmptyString Hw) as [_ ->]. cbn. by rewrite Hn. Qed.

Lemma split_whitespace_space r : split_whitespace (String " " r) = split_whitespace r.
Proof. unfold split_whitespace. by rewrite uchars_ascii. Qed.

Lemma print_uint_digits n : 0 <= n < 10 ^ 20 -> all_chars is_ascii_digit (print_uint n) = true /\ is_empty (print_uint n) = false.
Proof.
  intros Hn. split.
  - apply digits_all; [|lia|done]. intros d Hd. by apply digit_code.
  - destruct (digits_first 20 n EmptyString) as (d & r & _ & E); [lia|lia|]. unfold print_uint. by rewrite E.
Qed.

Lemma parse_i32_print g : 0 <= g < 2 ^ 31 -> parse_i32 (print_uint g) = Some g.
Proof.
  intros Hg. destruct (print_uint_digits g) as [Hd Hn]; [lia|]. pose proof (parse_print_uint (2 ^ 31) g Hg ltac:(lia)) as Hp.
  unfold parse_i32. destruct (print_uint g) as [|c r]; [done|]. cbn in Hd. apply andb_true_iff in Hd as [Hc _].
  destruct c as [[] [] [] [] [] [] [] []]; try exact Hp; by vm_compute in Hc.
Qed.

(** [split_once] with a string. *)
Fixpoint split_at (pat s : string) : option (string * string) :=
  match strip_prefix pat s with
  | Some r => Some (EmptyString, r)
  | None =>
      match s with
      | EmptyString => None
      | String a s => match split_at pat s with Some (l, r) => Some (String a l, r) | None => None end
      end
  end.

Lemma split_at_some pat s l r : split_at pat s = Some (l, r) -> s = l +:+ pat +:+ r.
Proof.
  revert l. induction s as [|a s IH]; intros l; cbn [split_at].
  - destruct (strip_prefix pat EmptyString) as [r'|] eqn:E; [|done]. intros [= <- <-]. by apply strip_prefix_spec in E.
  - destruct (strip_prefix pat (String a s)) as [r'|] eqn:E; [intros [= <- <-]; by apply strip_prefix_spec in E|].
    destruct (split_at pat s) as [[l' r']|]; [|done]. intros [= <- <-]. cbn. by rewrite (IH l').
Qed.

Definition free_of_char (a : ascii) (s : string) : Prop := all_chars (fun b => negb (Ascii.eqb a b)) s = true.

Lemma print_uint_free a n : is_ascii_digit a = false -> 0 <= n -> free_of_char a (print_uint n).
Proof.
  intros Ha Hn. apply digits_all; [|done|done]. intros d Hd. apply negb_true_iff, Ascii.eqb_neq. intros ->.
  destruct (digit_code d Hd) as [_ E]. congruence.
Qed.
