(* ===== verification/Shell.v ===== *)
(** * Words of a shell

    Models [shell_quote], of [crates/sandbox-driver/src/derived/mod.rs] and, the same,
    of [crates/sandbox-driver-daytona/src/shell.rs]; and how a POSIX shell reads a
    line of words, which the scripts built from quoted words are held against. *)

From S2P Require Import Prelude Text.

#[local] Open Scope string_scope.
#[local] Open Scope Z_scope.

(** ** Quoting *)

Definition QUOTE : ascii := char 39.
Definition BACKSLASH : ascii := char 92.

Fixpoint quote_chars (value : string) : string :=
  match value with
  | EmptyString => EmptyString
  | String c rest =>
      if decide (c = QUOTE) then String QUOTE (String BACKSLASH (String QUOTE (String QUOTE (quote_chars rest))))
      else String c (quote_chars rest)
  end.

Definition shell_quote (value : string) : string := String QUOTE (quote_chars value +:+ String QUOTE EmptyString).

Definition NEWLINE : string := String (char 10) EmptyString.

(** ** Reading *)

Definition SPACE : ascii := char 32.

(** Characters that stand for themselves outside of quotes; [=] does after the
    first word of a command, which is where the scripts have it. *)
Definition ordinary (c : ascii) : bool :=
  is_ascii_alphanumeric c || one_of [45; 46; 47; 61; 95] (code c).

(** How a POSIX shell reads a line of words built from ordinary characters,
    single quotes, backslashes and spaces; none for any other line. [word] is the
    word being read. *)
Fixpoint shell_words (line : string) (quoted : bool) (word : option string) : option (list string) :=
  match line with
  | EmptyString => if quoted then None else Some (option_list word)
  | String c rest =>
      let more c := Some (default EmptyString word +:+ String c EmptyString) in
      if quoted then if decide (c = QUOTE) then shell_words rest false word else shell_words rest true (more c)
      else if decide (c = QUOTE) then shell_words rest true (Some (default EmptyString word))
      else if decide (c = BACKSLASH) then
        match rest with
        | String c rest => if decide (c = char 10) then None else shell_words rest false (more c)
        | EmptyString => None
        end
      else if decide (c = SPACE) then app (option_list word) <$> shell_words rest false None
      else if ordinary c then shell_words rest false (more c)
      else None
  end.

Lemma words_close rest word : shell_words (String QUOTE rest) true word = shell_words rest false word.
Proof. reflexivity. Qed.

Lemma words_open rest word : shell_words (String QUOTE rest) false word = shell_words rest true (Some (default EmptyString word)).
Proof. reflexivity. Qed.

Lemma words_escaped rest word :
  shell_words (String BACKSLASH (String QUOTE rest)) false word =
  shell_words rest false (Some (default EmptyString word +:+ String QUOTE EmptyString)).
Proof. reflexivity. Qed.

Lemma words_inside c rest word : c <> QUOTE ->
  shell_words (String c rest) true word = shell_words rest true (Some (default EmptyString word +:+ String c EmptyString)).
Proof. intros Hc. cbn [shell_words]. by rewrite decide_False. Qed.

Lemma words_space rest word :
  shell_words (String SPACE rest) false word = app (option_list word) <$> shell_words rest false None.
Proof. reflexivity. Qed.

Lemma quoted_word value rest word :
  shell_words (quote_chars value +:+ String QUOTE rest) true (Some word) = shell_words rest false (Some (word +:+ value)).
Proof.
  revert word. induction value as [|c value IH]; intros word.
  { cbn [quote_chars]. change (EmptyString +:+ String QUOTE rest) with (String QUOTE rest).
    by rewrite words_close, app_nil_r_string. }
  assert (Hmore : (word +:+ String c EmptyString) +:+ value = word +:+ String c value) by (by rewrite <- app_assoc_string).
  rewrite <- Hmore, <- IH. cbn [quote_chars]. destruct (decide (c = QUOTE)) as [->|Hc].
  - change (String QUOTE (String BACKSLASH (String QUOTE (String QUOTE (quote_chars value)))) +:+ String QUOTE rest)
      with (String QUOTE (String BACKSLASH (String QUOTE (String QUOTE (quote_chars value +:+ String QUOTE rest))))).
    by rewrite words_close, words_escaped, words_open.
  - change (String c (quote_chars value) +:+ String QUOTE rest) with (String c (quote_chars value +:+ String QUOTE rest)).
    by rewrite words_inside.
Qed.

Lemma ordinary_word value rest word : all_chars ordinary value = true ->
  shell_words (value +:+ rest) false (Some word) = shell_words rest false (Some (word +:+ value)).
Proof.
  revert word. induction value as [|c value IH]; intros word Hv; [by rewrite app_nil_r_string|].
  cbn [all_chars] in Hv. apply andb_true_iff in Hv as [Hc Hv].
  change (String c value +:+ rest) with (String c (value +:+ rest)). cbn [shell_words].
  assert (Hq : c <> QUOTE) by (intros ->; done). assert (Hb : c <> BACKSLASH) by (intros ->; done).
  assert (Hs : c <> SPACE) by (intros ->; done).
  rewrite !decide_False, Hc by done. cbn [default]. rewrite IH by done. by rewrite <- app_assoc_string.
Qed.

(** [line] reads as the words [ws], then the unfinished word [w]. *)
Definition reads (line : string) (ws : list string) (w : string) : Prop :=
  forall rest, shell_words (line +:+ rest) false None = app ws <$> shell_words rest false (Some w).

Lemma reads_word line ws w value : reads line ws w ->
  reads (line +:+ " " +:+ shell_quote value) (ws ++ [w])%list value.
Proof.
  intros Hl rest. rewrite <- app_assoc_string, Hl.
  assert ((" " +:+ shell_quote value) +:+ rest = String SPACE (String QUOTE (quote_chars value +:+ String QUOTE rest))) as ->.
  { unfold shell_quote. cbn. f_equal. f_equal. by rewrite <- app_assoc_string. }
  rewrite words_space, words_open, quoted_word. cbn [option_list default].
  change (EmptyString +:+ value) with value.
  destruct (shell_words rest false (Some value)); cbn; [|done]. by rewrite <- app_assoc.
Qed.

Lemma ordinary_start c value rest : all_chars ordinary (String c value) = true ->
  shell_words (String c value +:+ rest) false None = shell_words rest false (Some (String c value)).
Proof.
  intros Hv. rewrite <- (ordinary_word (String c value) rest EmptyString Hv : _ = shell_words rest false (Some (String c value))).
  cbn [all_chars] in Hv. apply andb_true_iff in Hv as [Hc _].
  change (String c value +:+ rest) with (String c (value +:+ rest)). cbn [shell_words].
  assert (Hs : c <> SPACE) by (intros ->; done). by destruct (decide (c = SPACE)).
Qed.

(** A word goes on, plain or quoted. *)
Lemma reads_more line ws w v : reads line ws w -> all_chars ordinary v = true -> reads (line +:+ v) ws (w +:+ v).
Proof. intros Hl Hv rest. by rewrite <- app_assoc_string, Hl, ordinary_word. Qed.

Lemma reads_more_quoted line ws w v : reads line ws w -> reads (line +:+ shell_quote v) ws (w +:+ v).
Proof.
  intros Hl rest. rewrite <- app_assoc_string, Hl. unfold shell_quote.
  change (String QUOTE (quote_chars v +:+ String QUOTE EmptyString) +:+ rest)
    with (String QUOTE ((quote_chars v +:+ String QUOTE EmptyString) +:+ rest)). rewrite <- app_assoc_string.
  change (String QUOTE EmptyString +:+ rest) with (String QUOTE rest). by rewrite words_open, quoted_word.
Qed.

Lemma reads_end line ws w : reads line ws w -> shell_words line false None = Some (ws ++ [w])%list.
Proof. intros Hl. specialize (Hl EmptyString). by rewrite app_nil_r_string in Hl. Qed.

(** A word that needs no quotes. *)
Definition plain_word (w : string) : bool := negb (is_empty w) && all_chars ordinary w.

Lemma reads_plain line ws w v : reads line ws w -> plain_word v = true ->
  reads (line +:+ " " +:+ v) (ws ++ [w])%list v.
Proof.
  intros Hl Hv rest. unfold plain_word in Hv. destruct v as [|c v]; [done|]. cbn [is_empty negb andb] in Hv.
  rewrite <- app_assoc_string, Hl.
  change ((" " +:+ String c v) +:+ rest) with (String SPACE (String c v +:+ rest)).
  rewrite words_space, ordinary_start by done. cbn [option_list].
  destruct (shell_words rest false (Some (String c v))); cbn; [|done]. by rewrite <- app_assoc.
Qed.

Lemma reads_initial v : plain_word v = true -> reads v [] v.
Proof.
  unfold plain_word. destruct v as [|c v]; [done|]. cbn [is_empty negb andb]. intros Hv rest. rewrite ordinary_start by done.
  by destruct (shell_words rest false _).
Qed.

(** The line of words as it is, without quotes. *)
Definition plain_line (w : string) (ws : list string) : string := foldl (fun line v => line +:+ " " +:+ v) w ws.

(** A line that reads as words whose last is unfinished. *)
Definition reads_as (line : string) (ws : list string) : Prop :=
  exists ws' w, (ws' ++ [w])%list = ws /\ reads line ws' w.

Lemma reads_as_words line ws : reads_as line ws -> shell_words line false None = Some ws.
Proof. intros (ws' & w & <- & Hr). by apply reads_end. Qed.

Lemma reads_as_plain w ws : forallb plain_word (w :: ws) = true -> reads_as (plain_line w ws) (w :: ws).
Proof.
  unfold plain_line. intros [Hw Hws]%andb_true_iff.
  assert (H : reads_as w [w]) by (exists [], w; split; [done|by apply reads_initial]).
  change (w :: ws) with ([w] ++ ws)%list. revert H. generalize [w] as done_. generalize w as line. clear w Hw. 
  induction ws as [|v ws IH]; intros line ds Hl; cbn [foldl]; [by rewrite app_nil_r|].
  cbn [forallb] in Hws. apply andb_true_iff in Hws as [Hv Hws].
  replace (ds ++ v :: ws)%list with ((ds ++ [v]) ++ ws)%list by (by rewrite <- app_assoc).
  apply IH; [done|]. destruct Hl as (ws' & w & <- & Hr). exists (ws' ++ [w])%list, v. split; [done|]. by apply reads_plain.
Qed.

Lemma reads_as_quoted line ws v : reads_as line ws -> reads_as (line +:+ " " +:+ shell_quote v) (ws ++ [v])%list.
Proof. intros (ws' & w & <- & Hr). exists (ws' ++ [w])%list, v. split; [done|]. by apply reads_word. Qed.

Lemma reads_as_fold {A} (f : A -> string) l line ws : reads_as line ws ->
  reads_as (foldl (fun line x => line +:+ " " +:+ shell_quote (f x)) line l) (ws ++ map f l)%list.
Proof.
  revert line ws. induction l as [|x l IH]; intros line ws Hl; cbn [foldl map]; [by rewrite app_nil_r|].
  replace (ws ++ f x :: map f l)%list with ((ws ++ [f x]) ++ map f l)%list by (by rewrite <- app_assoc).
  by apply IH, reads_as_quoted.
Qed.
