(* ===== verification/ShellRun.v ===== *)
(** * What a shell does with a command line

    A reference for the scripts the derived facets build: how a POSIX shell takes a
    line apart into words and operators, and what running it does to the files, when the
    utilities do as a given function says. It covers the constructs of those scripts:
    single quotes, a quoted variable, an assignment from a command substitution, [;],
    [&&], pipelines and the redirections of output; it has no answer for any other line.
    Nothing here is written in terms of the scripts. *)

From S2P Require Import Prelude Text Shell.

#[local] Open Scope string_scope.
#[local] Open Scope list_scope.
#[local] Open Scope Z_scope.

(** ** Tokens *)

(** [TOpen]: [name=$(], with the name and its [=]. *)
Inductive token := TWord (w : string) | TVar (name : string) | TSemi | TAnd | TPipe | TOut (append : bool) | TOpen (prefix : string) | TClose.

#[export] Instance token_eq_dec : EqDecision token.
Proof. solve_decision. Defined.

Inductive lexing := LPlain | LQuoted | LVar.

Definition DOUBLE : ascii := char 34.

(** Characters that stand for themselves; a bracket that is a word of its own does too. *)
Definition word_char (c : ascii) : bool := ordinary c || one_of [43; 58; 91; 93] (code c).

Definition flush (word : option string) : list token := TWord <$> option_list word.

Fixpoint tokens (line : string) (m : lexing) (word : option string) : option (list token) :=
  match line with
  | EmptyString => match m with LPlain => Some (flush word) | _ => None end
  | String c rest =>
      let more := Some (default EmptyString word +:+ String c EmptyString) in
      match m with
      | LQuoted => if Ascii.eqb c QUOTE then tokens rest LPlain word else tokens rest LQuoted more
      | LVar =>
          if Ascii.eqb c DOUBLE then cons (TVar (default EmptyString word)) <$> tokens rest LPlain None
          else if is_ascii_alphanumeric c then tokens rest LVar more else None
      | LPlain =>
          let next t r := app (flush word ++ [t]) <$> tokens r LPlain None in
          if Ascii.eqb c QUOTE then tokens rest LQuoted (Some (default EmptyString word))
          else if Ascii.eqb c BACKSLASH then
            match rest with
            | String c rest =>
                if Ascii.eqb c (char 10) then None
                else tokens rest LPlain (Some (default EmptyString word +:+ String c EmptyString))
            | EmptyString => None
            end
          else if Ascii.eqb c SPACE then app (flush word) <$> tokens rest LPlain None
          else if Ascii.eqb c ";" then next TSemi rest
          else if Ascii.eqb c "|" then next TPipe rest
          else if Ascii.eqb c ")" then next TClose rest
          else if Ascii.eqb c "&" then
            match rest with String c rest => if Ascii.eqb c "&" then next TAnd rest else None | EmptyString => None end
          else if Ascii.eqb c ">" then
            if bool_decide (word = None) then
              match rest with
              | String c rest' => if Ascii.eqb c ">" then next (TOut true) rest' else next (TOut false) rest
              | EmptyString => None
              end
            else None
          else if Ascii.eqb c "$" then
            match rest with
            | String c rest => if Ascii.eqb c "(" then cons (TOpen (default EmptyString word)) <$> tokens rest LPlain None else None
            | EmptyString => None
            end
          else if Ascii.eqb c DOUBLE then
            match word, rest with
            | None, String c rest => if Ascii.eqb c "$" then tokens rest LVar (Some EmptyString) else None
            | _, _ => None
            end
          else if word_char c then tokens rest LPlain more
          else None
      end
  end.

(** ** Running *)

(** The files, and the directories there are. *)
Record Disk := mkDisk { files : gmap string bytes; dirs : gset string }.

Definition put (path : string) (content : bytes) (d : Disk) : Disk := mkDisk (<[path := content]> (files d)) (dirs d).
Definition made (dir : string) (d : Disk) : Disk := mkDisk (files d) ({[dir]} ∪ dirs d).

(** What a command does: the disk, its output and its status. *)
Notation Effect := (Disk * bytes * Z)%type (only parsing).

Section Shell.
(** [dirname] prints the directory of a path; a utility is run with its words and its
    input, and has no effect here when nothing is said of it. *)
Context (dirname : string -> string) (utility : list string -> bytes -> Disk -> option (Disk * bytes * Z)).

(** The words of a command, and where its output goes. *)
Fixpoint command_words (vars : gmap string string) (ts : list token) : option (list string * option (bool * string)) :=
  match ts with
  | [] => Some ([], None)
  | [TOut append; TWord path] => Some ([], Some (append, path))
  | TWord w :: ts => (fun '(ws, out) => (w :: ws, out)) <$> command_words vars ts
  | TVar name :: ts =>
      match vars !! name with
      | Some w => (fun '(ws, out) => (w :: ws, out)) <$> command_words vars ts
      | None => None
      end
  | _ => None
  end.

(** A redirection opens its file first: a directory that is missing fails it. *)
Definition run_command (vars : gmap string string) (ts : list token) (stdin : bytes) (d : Disk) : option (Disk * bytes * Z) :=
  match command_words vars ts with
  | Some (ws, None) => utility ws stdin d
  | Some (ws, Some (append, path)) =>
      if bool_decide (path ∈ dirs d) then None
      else if negb (bool_decide (dirname path ∈ dirs d)) then Some (d, [], 1)
      else
        let old := if append then default [] (files d !! path) else [] in
        match utility ws stdin (put path old d) with
        | Some (d, out, status) => Some (put path (default [] (files d !! path) ++ out) d, [], status)
        | None => None
        end
  | None => None
  end.

Fixpoint split_tokens (sep : token -> bool) (ts : list token) : list (list token) :=
  match ts with
  | [] => [[]]
  | t :: ts =>
      if sep t then [] :: split_tokens sep ts
      else match split_tokens sep ts with l :: ls => (t :: l) :: ls | [] => [[t]] end
  end.

Definition is_pipe (t : token) : bool := match t with TPipe => true | _ => false end.

(** A pipeline has the output and the status of its last command. *)
Fixpoint run_pipe (vars : gmap string string) (cs : list (list token)) (stdin : bytes) (d : Disk) : option (Disk * bytes * Z) :=
  match cs with
  | [] => None
  | [c] => run_command vars c stdin d
  | c :: cs => match run_command vars c stdin d with Some (d, out, _) => run_pipe vars cs out d | None => None end
  end.

Definition run_pipeline (vars : gmap string string) (ts : list token) (d : Disk) : option (Disk * bytes * Z) :=
  run_pipe vars (split_tokens is_pipe ts) [] d.

(** The value of [$(...)]: the output, less the newlines at its end. *)
Definition substituted (out : bytes) : string := trim_end_char (char 10) (of_bytes out).

(** One command of the list, perhaps an assignment. *)
Definition run_item (vars : gmap string string) (ts : list token) (d : Disk) : option (gmap string string * (Disk * bytes * Z)) :=
  match ts with
  | TOpen prefix :: ts =>
      match strip_suffix "=" prefix, last ts with
      | Some name, Some TClose =>
          match run_pipeline vars (removelast ts) d with
          | Some (d, out, status) => Some (<[name := substituted out]> vars, (d, [], status))
          | None => None
          end
      | _, _ => None
      end
  | _ => (fun e => (vars, e)) <$> run_pipeline vars ts d
  end.

(** The commands, each with whether [&&] stands before it. *)
Fixpoint list_items (ts : list token) : list (bool * list token) :=
  match ts with
  | [] => [(false, [])]
  | t :: ts =>
      match t with
      | TSemi => (false, []) :: list_items ts
      | TAnd => match list_items ts with (_, l) :: ls => (false, []) :: (true, l) :: ls | [] => [] end
      | _ => match list_items ts with (b, l) :: ls => (b, t :: l) :: ls | [] => [] end
      end
  end.

Fixpoint run_items (vars : gmap string string) (items : list (bool * list token)) (status : Z) (d : Disk) : option (Disk * bytes * Z) :=
  match items with
  | [] => Some (d, [], status)
  | (conditional, ts) :: items =>
      if conditional && negb (status =? 0) then run_items vars items status d
      else
        match run_item vars ts d with
        | None => None
        | Some (vars, (d, out, status)) =>
            match run_items vars items status d with
            | Some (d, more, status) => Some (d, out ++ more, status)
            | None => None
            end
        end
  end.

Definition shell_run (line : string) (d : Disk) : option (Disk * bytes * Z) :=
  match tokens line LPlain None with Some ts => run_items ∅ (list_items ts) 0 d | None => None end.
End Shell.

(** ** Lines taken apart *)

Lemma tokens_inside v rest word :
  tokens (quote_chars v +:+ String QUOTE rest) LQuoted (Some word) = tokens rest LPlain (Some (word +:+ v)).
Proof.
  revert word. induction v as [|c v IH]; intros word; [by rewrite app_nil_r_string|].
  assert (Hmore : (word +:+ String c EmptyString) +:+ v = word +:+ String c v) by (by rewrite <- app_assoc_string).
  rewrite <- Hmore, <- IH. cbn [quote_chars]. destruct (decide (c = QUOTE)) as [->|Hc]; [reflexivity|].
  change (String c (quote_chars v) +:+ String QUOTE rest) with (String c (quote_chars v +:+ String QUOTE rest)).
  cbn [tokens]. by rewrite (proj2 (Ascii.eqb_neq c QUOTE) Hc).
Qed.

(** A quoted word is the word, whatever it holds. *)
Lemma tokens_quoted v rest : tokens (shell_quote v +:+ rest) LPlain None = tokens rest LPlain (Some v).
Proof.
  unfold shell_quote. change (String QUOTE (quote_chars v +:+ String QUOTE EmptyString) +:+ rest)
    with (String QUOTE ((quote_chars v +:+ String QUOTE EmptyString) +:+ rest)). rewrite <- app_assoc_string.
  change (tokens (quote_chars v +:+ String QUOTE rest) LQuoted (Some EmptyString) = tokens rest LPlain (Some v)). apply tokens_inside.
Qed.

Lemma tokens_quoted_end v : tokens (shell_quote v) LPlain None = Some [TWord v].
Proof. rewrite <- (app_nil_r_string (shell_quote v)), tokens_quoted. reflexivity. Qed.

(** Text without a quote, between quotes. *)
Lemma tokens_literal v rest word : free_of_char QUOTE v ->
  tokens (v +:+ String QUOTE rest) LQuoted (Some word) = tokens rest LPlain (Some (word +:+ v)).
Proof.
  revert word. induction v as [|c v IH]; intros word Hv; [by rewrite app_nil_r_string|].
  unfold free_of_char in Hv. cbn [all_chars] in Hv. apply andb_true_iff in Hv as [Hc%negb_true_iff Hv].
  change (String c v +:+ String QUOTE rest) with (String c (v +:+ String QUOTE rest)). cbn [tokens]. rewrite Ascii.eqb_sym, Hc, IH by done.
  cbn [default]. by rewrite <- app_assoc_string.
Qed.

(** A word of digits. *)
Lemma tokens_digits v rest word : all_chars is_ascii_digit v = true ->
  tokens (v +:+ rest) LPlain (Some word) = tokens rest LPlain (Some (word +:+ v)).
Proof.
  revert word. induction v as [|c v IH]; intros word Hv; [by rewrite app_nil_r_string|].
  cbn [all_chars] in Hv. apply andb_true_iff in Hv as [Hc Hv].
  change (String c v +:+ rest) with (String c (v +:+ rest)).
  assert (Hstep : tokens (String c (v +:+ rest)) LPlain (Some word) = tokens (v +:+ rest) LPlain (Some (word +:+ String c EmptyString))).
  { revert Hc. clear. destruct c as [[] [] [] [] [] [] [] []]; intros Hc; try discriminate Hc; reflexivity. }
  rewrite Hstep, IH by done. by rewrite <- app_assoc_string.
Qed.
