(* ===== verification/Hex.v ===== *)
(** * Hexadecimal digits

    What [{:x}] and [{:X}] print and [char::to_digit] in base 16 reads, shared by
    the code that spells bytes in hexadecimal. *)

From S2P Require Import Prelude Text.

#[local] Open Scope string_scope.
#[local] Open Scope Z_scope.

(** A digit as [{:x}] prints it, and as [{:X}] does. *)
Definition hex_digit (n : Z) : ascii := char (if n <? 10 then 48 + n else 87 + n).
Definition upper_hex_digit (n : Z) : ascii := char (if n <? 10 then 48 + n else 55 + n).

(** [char::to_digit] in base 16. *)
Definition to_digit (a : ascii) : option Z :=
  if is_ascii_digit a then Some (code a - 48)
  else if in_range 97 102 (code a) then Some (code a - 87)
  else if in_range 65 70 (code a) then Some (code a - 55)
  else None.

(** [from_str_radix] of an unsigned integer below [bound]: a plus may precede the
    digits. *)
Fixpoint radix_digits (radix bound acc : Z) (s : string) : option Z :=
  match s with
  | EmptyString => Some acc
  | String a s =>
      match to_digit a with
      | Some d =>
          let n := acc * radix + d in
          if (d <? radix) && (n <? bound) then radix_digits radix bound n s else None
      | None => None
      end
  end.

Definition from_str_radix (radix bound : Z) (s : string) : option Z :=
  match s with
  | EmptyString => None
  | String a EmptyString => if Ascii.eqb a "+" then None else radix_digits radix bound 0 s
  | String a rest => radix_digits radix bound 0 (if Ascii.eqb a "+" then rest else s)
  end.

(** A property of the sixteen digits, by trying them. *)
Lemma all_digits (P : Z -> bool) n : forallb P (seqZ 0 16) = true -> 0 <= n < 16 -> P n = true.
Proof.
  intros Hall Hn. eapply (proj1 (forallb_forall _ _) Hall n). apply list_elem_of_In, elem_of_seqZ. lia.
Qed.

Lemma to_digit_hex n : 0 <= n < 16 -> to_digit (hex_digit n) = Some n /\ to_digit (upper_hex_digit n) = Some n.
Proof.
  intros Hn.
  pose proof (all_digits (fun n => match to_digit (hex_digit n), to_digit (upper_hex_digit n) with
    | Some m, Some m' => (m =? n) && (m' =? n) | _, _ => false end) n ltac:(vm_compute; reflexivity) Hn) as H.
  cbn beta in H. destruct (to_digit (hex_digit n)), (to_digit (upper_hex_digit n)); try done.
  by apply andb_true_iff in H as [->%Z.eqb_eq ->%Z.eqb_eq].
Qed.

(** The two digits of a byte. *)
Lemma byte_digits a : 0 <= code a / 16 < 16 /\ 0 <= code a mod 16 < 16 /\ code a / 16 * 16 + code a mod 16 = code a.
Proof.
  pose proof (code_range a) as Ha. pose proof (Z.div_mod (code a) 16 ltac:(lia)).
  split_and!; [apply Z.div_pos; lia|apply Z.div_lt_upper_bound; lia|apply Z.mod_pos_bound; lia..|lia].
Qed.
