(* ===== verification/Capabilities.v ===== *)
(** * Capabilities

    Models [crates/sandbox-driver/src/capabilities.rs]: the capability set a
    provider declares, the capabilities a caller can ask for, and their names on
    the wire (the dotted serde names; a name this version does not model reads
    as [Unknown]). *)

From S2P Require Import Prelude Text.

#[local] Open Scope string_scope.

Inductive Isolation := IsolationNone | IsolationContainer | IsolationVm.

Inductive Capability :=
  | LifecyclePause | LifecycleArchive | LifecycleFork | LifecycleResize | LifecycleRecover
  | LifecycleUndelete | LifecycleRefreshActivity | LifecycleTimers | LifecycleLabels
  | LifecycleUpdateNetwork | LifecycleSnapshotSandbox
  | ExecStdin | ExecStop | ExecStdioProcess | ExecStdinStream | ExecEnvironment
  | FsUpload | FsDownload | FsPermissions
  | CapPty | CapLogs | CapOneShot | OneShotBuild | CapSessions
  | PreviewUrls | SignedPreviewUrls | CapSsh | SshTtl | SshRevoke
  | ShellCommandAccess | WebTerminalAccess | VncAccess
  | CapSnapshots | SnapshotsContainerFromImage | SnapshotsVmFromImage
  | SnapshotsContainerFromDockerfile | SnapshotsVmFromDockerfile
  | SnapshotsFilesystem | SnapshotsLiveProcessState | SnapshotsActivation
  | CapSearch | CapGit | CapServices | CapVolumes
  | CapUnknown.

#[export] Instance Isolation_eq_dec : EqDecision Isolation.
Proof. solve_decision. Defined.
#[export] Instance Capability_eq_dec : EqDecision Capability.
Proof. solve_decision. Defined.

(** The serde name of each capability. *)
Definition capability_name (c : Capability) : string :=
  match c with
  | LifecyclePause => "lifecycle.pause"
  | LifecycleArchive => "lifecycle.archive"
  | LifecycleFork => "lifecycle.fork"
  | LifecycleResize => "lifecycle.resize"
  | LifecycleRecover => "lifecycle.recover"
  | LifecycleUndelete => "lifecycle.undelete"
  | LifecycleRefreshActivity => "lifecycle.refresh_activity"
  | LifecycleTimers => "lifecycle.timers"
  | LifecycleLabels => "lifecycle.labels"
  | LifecycleUpdateNetwork => "lifecycle.update_network"
  | LifecycleSnapshotSandbox => "lifecycle.snapshot_sandbox"
  | ExecStdin => "exec.stdin"
  | ExecStop => "exec.stop"
  | ExecStdioProcess => "exec.stdio_process"
  | ExecStdinStream => "exec.stdin_stream"
  | ExecEnvironment => "exec.environment"
  | FsUpload => "fs.upload"
  | FsDownload => "fs.download"
  | FsPermissions => "fs.permissions"
  | CapPty => "pty"
  | CapLogs => "logs"
  | CapOneShot => "one_shot"
  | OneShotBuild => "one_shot.build"
  | CapSessions => "sessions"
  | PreviewUrls => "access.preview_urls"
  | SignedPreviewUrls => "access.preview_urls.signed"
  | CapSsh => "access.ssh"
  | SshTtl => "access.ssh.ttl"
  | SshRevoke => "access.ssh.revoke"
  | ShellCommandAccess => "access.shell_command"
  | WebTerminalAccess => "access.web_terminal"
  | VncAccess => "access.vnc"
  | CapSnapshots => "snapshots"
  | SnapshotsContainerFromImage => "snapshots.from_image.container"
  | SnapshotsVmFromImage => "snapshots.from_image.virtual_machine"
  | SnapshotsContainerFromDockerfile => "snapshots.from_dockerfile.container"
  | SnapshotsVmFromDockerfile => "snapshots.from_dockerfile.virtual_machine"
  | SnapshotsFilesystem => "snapshots.filesystem"
  | SnapshotsLiveProcessState => "snapshots.live_process_state"
  | SnapshotsActivation => "snapshots.activation"
  | CapSearch => "search"
  | CapGit => "git"
  | CapServices => "services"
  | CapVolumes => "volumes"
  | CapUnknown => "Unknown"
  end.

Definition all_capabilities : list Capability :=
  [LifecyclePause; LifecycleArchive; LifecycleFork; LifecycleResize; LifecycleRecover;
   LifecycleUndelete; LifecycleRefreshActivity; LifecycleTimers; LifecycleLabels;
   LifecycleUpdateNetwork; LifecycleSnapshotSandbox; ExecStdin; ExecStop; ExecStdioProcess;
   ExecStdinStream; ExecEnvironment; FsUpload; FsDownload; FsPermissions; CapPty; CapLogs;
   CapOneShot; OneShotBuild; CapSessions; PreviewUrls; SignedPreviewUrls; CapSsh; SshTtl;
   SshRevoke; ShellCommandAccess; WebTerminalAccess; VncAccess; CapSnapshots;
   SnapshotsContainerFromImage; SnapshotsVmFromImage; SnapshotsContainerFromDockerfile;
   SnapshotsVmFromDockerfile; SnapshotsFilesystem; SnapshotsLiveProcessState;
   SnapshotsActivation; CapSearch; CapGit; CapServices; CapVolumes].

(** Reading a name back: the variant it names, or the [serde(other)] one. *)
Definition parse_capability (s : string) : Capability :=
  match List.find (fun c => bool_decide (capability_name c = s)) all_capabilities with
  | Some c => c
  | None => CapUnknown
  end.

Record LifecycleCaps := mkLifecycleCaps {
  lc_pause : bool; lc_archive : bool; lc_fork : bool; lc_resize : bool; lc_recover : bool;
  lc_undelete : bool; lc_refresh_activity : bool; lc_timers : bool; lc_labels : bool;
  lc_update_network : bool; lc_snapshot_sandbox : bool;
}.

Record ExecCaps := mkExecCaps {
  ec_live_streaming : bool; ec_streams_separated : bool; ec_stdin : bool; ec_stop : bool;
  ec_stdio_process : bool; ec_stdin_stream : bool; ec_environment : bool;
}.

Record FsCaps := mkFsCaps {
  fc_native : bool; fc_upload : bool; fc_download : bool; fc_permissions : bool;
}.

(** The search, git and services facets declare the same two flags. *)
Record SearchCaps := mkSearchCaps { sc_supported : bool; sc_native : bool }.
Record GitCaps := mkGitCaps { gc_supported : bool; gc_native : bool }.
Record ServiceCaps := mkServiceCaps { vc_supported : bool; vc_native : bool }.

Record PtyCaps := mkPtyCaps { pc_resize : bool }.
Record LogsCaps := mkLogsCaps { gc_provision : bool; gc_entrypoint : bool }.
Record OneShotCaps := mkOneShotCaps { oc_build : bool }.

Record AccessCaps := mkAccessCaps {
  ac_preview_urls : bool; ac_signed_preview_urls : bool; ac_ssh : bool; ac_ssh_ttl : bool;
  ac_ssh_revoke : bool; ac_shell_command : bool; ac_web_terminal : bool; ac_vnc : bool;
  ac_vpn_legacy : bool;
}.

Record NetworkCaps := mkNetworkCaps {
  nc_allow_all : bool; nc_block_all : bool; nc_cidr_allow_list : bool;
  nc_domain_allow_list : bool; nc_outbound_proxy : bool;
}.

Record SandboxKindSupport := mkKinds { kind_container : bool; kind_virtual_machine : bool }.

Record SnapshotCaps := mkSnapshotCaps {
  pc_from_image : bool; pc_from_dockerfile : bool;
  pc_from_image_kinds : SandboxKindSupport; pc_from_dockerfile_kinds : SandboxKindSupport;
  pc_filesystem_from_sandbox : bool; pc_live_process_state_from_sandbox : bool;
  pc_build_logs : bool; pc_activation : bool;
}.

Record VolumeCaps := mkVolumeCaps { oc_create_time_attach : bool }.

Record Capabilities := mkCapabilities {
  isolation : Isolation;
  lifecycle : LifecycleCaps;
  exec : ExecCaps;
  fs : FsCaps;
  search : SearchCaps;
  git : GitCaps;
  services : ServiceCaps;
  pty : option PtyCaps;
  logs : option LogsCaps;
  one_shot : option OneShotCaps;
  access : AccessCaps;
  network_caps : NetworkCaps;
  snapshots : option SnapshotCaps;
  volume_caps : option VolumeCaps;
}.

Definition no_lifecycle : LifecycleCaps :=
  mkLifecycleCaps false false false false false false false false false false false.
Definition no_exec : ExecCaps := mkExecCaps false false false false false false false.
Definition no_access : AccessCaps := mkAccessCaps false false false false false false false false false.
Definition no_network : NetworkCaps := mkNetworkCaps false false false false false.

Definition minimal (i : Isolation) : Capabilities :=
  mkCapabilities i no_lifecycle no_exec (mkFsCaps false false false false)
    (mkSearchCaps false false) (mkGitCaps false false) (mkServiceCaps false false)
    None None None no_access no_network None None.

(** [is_some_and]. *)
Definition some_and {A} (o : option A) (p : A -> bool) : bool :=
  match o with Some a => p a | None => false end.

Definition is_some {A} (o : option A) : bool := match o with Some _ => true | None => false end.

Definition supports (c : Capabilities) (capability : Capability) : bool :=
  match capability with
  | LifecyclePause => lc_pause (lifecycle c)
  | LifecycleArchive => lc_archive (lifecycle c)
  | LifecycleFork => lc_fork (lifecycle c)
  | LifecycleResize => lc_resize (lifecycle c)
  | LifecycleRecover => lc_recover (lifecycle c)
  | LifecycleUndelete => lc_undelete (lifecycle c)
  | LifecycleRefreshActivity => lc_refresh_activity (lifecycle c)
  | LifecycleTimers => lc_timers (lifecycle c)
  | LifecycleLabels => lc_labels (lifecycle c)
  | LifecycleUpdateNetwork => lc_update_network (lifecycle c)
  | LifecycleSnapshotSandbox => lc_snapshot_sandbox (lifecycle c)
  | ExecStdin => ec_stdin (exec c)
  | ExecStop => ec_stop (exec c)
  | ExecStdioProcess => ec_stdio_process (exec c)
  | ExecStdinStream => ec_stdin_stream (exec c)
  | ExecEnvironment => ec_environment (exec c)
  | FsUpload => fc_upload (fs c)
  | FsDownload => fc_download (fs c)
  | FsPermissions => fc_permissions (fs c)
  | CapPty => is_some (pty c)
  | CapLogs => is_some (logs c)
  | CapOneShot => is_some (one_shot c)
  | OneShotBuild => some_and (one_shot c) oc_build
  | PreviewUrls => ac_preview_urls (access c)
  | SignedPreviewUrls => ac_signed_preview_urls (access c)
  | CapSsh => ac_ssh (access c)
  | SshTtl => ac_ssh_ttl (access c)
  | SshRevoke => ac_ssh_revoke (access c)
  | ShellCommandAccess => ac_shell_command (access c)
  | WebTerminalAccess => ac_web_terminal (access c)
  | VncAccess => ac_vnc (access c)
  | CapSnapshots => is_some (snapshots c)
  | SnapshotsContainerFromImage => some_and (snapshots c) (fun p => kind_container (pc_from_image_kinds p))
  | SnapshotsVmFromImage => some_and (snapshots c) (fun p => kind_virtual_machine (pc_from_image_kinds p))
  | SnapshotsContainerFromDockerfile =>
      some_and (snapshots c) (fun p => kind_container (pc_from_dockerfile_kinds p))
  | SnapshotsVmFromDockerfile =>
      some_and (snapshots c) (fun p => kind_virtual_machine (pc_from_dockerfile_kinds p))
  | SnapshotsFilesystem => some_and (snapshots c) pc_filesystem_from_sandbox
  | SnapshotsLiveProcessState => some_and (snapshots c) pc_live_process_state_from_sandbox
  | SnapshotsActivation => some_and (snapshots c) pc_activation
  | CapSearch => sc_supported (search c)
  | CapGit => gc_supported (git c)
  | CapServices => vc_supported (services c)
  | CapVolumes => is_some (volume_caps c)
  | CapSessions | CapUnknown => false
  end.

(** The capability vocabulary on the wire: every capability's dotted name
    reads back as that capability, an unknown name as [Unknown]; the minimal
    set supports nothing; no set supports a session or an unmodelled
    capability; and a capability inside the one-shot or snapshot facet is
    supported only by a set that has the facet. *)
Theorem capabilities_spec :
  (forall c, parse_capability (capability_name c) = c) /\
  (forall s, (forall c, capability_name c <> s) -> parse_capability s = CapUnknown) /\
  (forall i c, supports (minimal i) c = false) /\
  (forall caps, supports caps CapSessions = false /\ supports caps CapUnknown = false) /\
  (forall caps c, supports caps c = true ->
     (contains "one_shot." (capability_name c) = true -> supports caps CapOneShot = true) /\
     (contains "snapshots." (capability_name c) = true -> supports caps CapSnapshots = true)).
Proof.
  split; [intros c; by destruct c|].
  split.
  { intros s Hs. unfold parse_capability. destruct (List.find _ _) as [c|] eqn:E; [|done].
    apply List.find_some in E as [_ E%bool_decide_eq_true]. by destruct (Hs c). }
  split; [intros i c; by destruct c|]. split; [done|].
  intros caps c Hc. destruct c; cbn in Hc |- *; (split; [try done|try done]);
    intros _; unfold some_and in Hc; case_match; done.
Qed.

Lemma capabilities_spec_witness :
  parse_capability "lifecycle.hibernate" = CapUnknown /\ parse_capability "fs.upload" = FsUpload.
Proof.
  split; [|exact (proj1 capabilities_spec FsUpload)].
  apply (proj1 (proj2 capabilities_spec)). intros c. by destruct c.
Defined.
