(* ===== verification/Ids.v ===== *)
(** * Identifiers

    Models [crates/sandbox-driver/src/id.rs]: the validators of the identifier
    newtypes. A newtype's value is the string its validator returns; the error
    names the kind, the value and the rule. *)

From S2P Require Import Prelude Text.

#[local] Open Scope string_scope.
#[local] Open Scope nat_scope.

(** The rule an identifier broke. *)
Inductive id_reason :=
  | IdEmpty
  | IdTooLong (max_len : nat)
  | IdWhitespaceOrControl
  | IdNotLabel
  | IdNotDigest.

(** The text of a rule, and of the error; [debug_str] is the [{:?}] form of a
    string, which reads the Unicode tables of the standard library. *)
Definition reason_text (r : id_reason) : string :=
  match r with
  | IdEmpty => "must not be empty"
  | IdTooLong n => "exceeds " +:+ print_uint (Z.of_nat n) +:+ " bytes"
  | IdWhitespaceOrControl => "must not contain whitespace or control characters"
  | IdNotLabel => "must be lowercase ASCII letters, digits, and interior hyphens"
  | IdNotDigest => "must be exactly 64 hexadecimal digits"
  end.

Record InvalidIdError := mkInvalidId { id_kind : string; id_value : string; id_reason_ : id_reason }.

Definition id_error_text (debug_str : string -> string) (e : InvalidIdError) : string :=
  "invalid " +:+ id_kind e +:+ " " +:+ debug_str (id_value e) +:+ ": " +:+ reason_text (id_reason_ e).

Definition MAX_ID_LEN : nat := 256.

Definition validate_id (kind value : string) : result string InvalidIdError :=
  if is_empty value then Err (mkInvalidId kind value IdEmpty)
  else if MAX_ID_LEN <? String.length value then Err (mkInvalidId kind value (IdTooLong MAX_ID_LEN))
  else if existsb (fun c => is_control c || is_whitespace c) (chars value)
  then Err (mkInvalidId kind value IdWhitespaceOrControl)
  else Ok value.

Definition label_char (b : ascii) : bool :=
  is_ascii_lowercase b || is_ascii_digit b || Ascii.eqb b "-".

Definition validate_label (kind value : string) (max_len : nat) : result unit InvalidIdError :=
  if is_empty value then Err (mkInvalidId kind value IdEmpty)
  else if max_len <? String.length value then Err (mkInvalidId kind value (IdTooLong max_len))
  else if negb (all_chars label_char value) || starts_with_char "-" value || ends_with_char "-" value
  then Err (mkInvalidId kind value IdNotLabel)
  else Ok tt.

Definition validate_kind (kind value : string) : result string InvalidIdError :=
  check? validate_label kind value 64 in Ok value.

Definition validate_sha256 (kind value : string) : result string InvalidIdError :=
  if negb (String.length value =? 64) || negb (all_chars is_ascii_hexdigit value)
  then Err (mkInvalidId kind value IdNotDigest)
  else Ok (to_ascii_lowercase value).

(** [try_new] of the newtypes: the validator each is declared with. *)
Definition try_new_sandbox_id : string -> result string InvalidIdError := validate_id "sandbox id".
Definition try_new_snapshot_id : string -> result string InvalidIdError := validate_id "snapshot id".
Definition try_new_volume_id : string -> result string InvalidIdError := validate_id "volume id".
Definition try_new_service_id : string -> result string InvalidIdError := validate_id "service id".
Definition try_new_provider_name : string -> result string InvalidIdError := validate_id "provider name".
Definition try_new_environment_name : string -> result string InvalidIdError := validate_id "environment name".
Definition try_new_namespace_id : string -> result string InvalidIdError := validate_id "namespace id".
Definition try_new_provider_kind : string -> result string InvalidIdError := validate_kind "provider kind".
Definition try_new_sha256 : string -> result string InvalidIdError := validate_sha256 "sha256 digest".

(** ** What a valid identifier is *)

Definition plain_id (s : string) : Prop :=
  s <> "" /\ String.length s <= 256 /\
  Forall (fun c => is_control c = false /\ is_whitespace c = false) (chars s).

Definition label (max_len : nat) (s : string) : Prop :=
  s <> "" /\ String.length s <= max_len /\ all_chars label_char s = true /\
  first_char s <> Some "-"%char /\ last_char s <> Some "-"%char.

Definition digest (s : string) : Prop :=
  String.length s = 64 /\ all_chars is_ascii_hexdigit s = true /\
  all_chars (fun a => negb (is_ascii_uppercase a)) s = true.

Lemma is_empty_spec s : is_empty s = true <-> s = "".
Proof. by destruct s. Qed.

Lemma validate_id_spec kind s r : validate_id kind s = Ok r <-> r = s /\ plain_id s.
Proof.
  unfold validate_id, plain_id, MAX_ID_LEN.
  destruct (is_empty s) eqn:E1.
  { apply is_empty_spec in E1 as ->. split; [done|]. intros [_ [? _]]. done. }
  assert (s <> "") as Hne by (intros ->; done).
  destruct (Nat.ltb_spec 256 (String.length s)).
  { split; [done|]. intros (_ & _ & ? & _). lia. }
  destruct (existsb _ _) eqn:E3.
  - split; [done|]. intros (_ & _ & _ & HF).
    apply existsb_exists in E3 as (c & Hin & Hc).
    rewrite List.Forall_forall in HF. destruct (HF c Hin) as [H1 H2]. by rewrite H1, H2 in Hc.
  - split; [|by intros [-> _]]. intros [= <-]. split; [done|]. split; [done|]. split; [lia|].
    apply List.Forall_forall. intros c Hin.
    destruct (is_control c || is_whitespace c) eqn:Ec; [|by apply orb_false_iff in Ec].
    exfalso. assert (existsb (fun c => is_control c || is_whitespace c) (chars s) = true); [|congruence].
    apply existsb_exists. eauto.
Qed.

Lemma validate_label_spec kind s n : is_ok (validate_label kind s n) = true <-> label n s.
Proof.
  unfold validate_label, label, starts_with_char, ends_with_char.
  destruct (is_empty s) eqn:E1.
  { apply is_empty_spec in E1 as ->. split; [done|]. intros [? _]. done. }
  assert (s <> "") as Hne by (intros ->; done).
  destruct (Nat.ltb_spec n (String.length s)).
  { split; [done|]. intros (_ & ? & _). lia. }
  destruct (all_chars label_char s); cbn [negb orb]; [|split; [done|by intros (_ & _ & ? & _)]].
  do 2 case_bool_decide; cbn [orb is_ok]; (split; [try done|try (by intros (_ & _ & _ & ? & ?))]).
Qed.

Lemma lower_hexdigit a : is_ascii_hexdigit a = true ->
  is_ascii_hexdigit (lower_ascii a) = true /\ is_ascii_uppercase (lower_ascii a) = false.
Proof. destruct a as [[] [] [] [] [] [] [] []]; cbn; done. Qed.

Lemma lower_not_upper a : is_ascii_uppercase a = false -> lower_ascii a = a.
Proof. unfold is_ascii_uppercase, lower_ascii. by intros ->. Qed.

Lemma lower_digest s : String.length s = 64 -> all_chars is_ascii_hexdigit s = true ->
  digest (to_ascii_lowercase s).
Proof.
  intros Hl Hh. unfold digest, to_ascii_lowercase. rewrite length_map_string. split; [done|].
  clear Hl. induction s as [|a s IH]; cbn in *; [done|].
  apply andb_true_iff in Hh as [Ha Hs]. apply lower_hexdigit in Ha as [Ha1 Ha2].
  destruct (IH Hs) as [-> ->]. by rewrite Ha1, Ha2.
Qed.

Lemma digest_lower s : digest s -> to_ascii_lowercase s = s.
Proof.
  intros (_ & _ & Hu). unfold to_ascii_lowercase. induction s as [|a s IH]; cbn in *; [done|].
  apply andb_true_iff in Hu as [Ha%negb_true_iff Hs]. by rewrite IH, lower_not_upper.
Qed.

(** C40. The identifier validators accept exactly the identifiers they describe
    and return a canonical value: a plain identifier and a provider kind are
    kept as given; a digest is accepted in either case and stored lowercase, so
    that what is stored is valid again and equal digests compare equal. *)
Theorem identifiers_spec kind s :
  (forall r, validate_id kind s = Ok r <-> r = s /\ plain_id s) /\
  (forall r, validate_kind kind s = Ok r <-> r = s /\ label 64 s) /\
  (forall r, validate_sha256 kind s = Ok r <->
     r = to_ascii_lowercase s /\ String.length s = 64 /\ all_chars is_ascii_hexdigit s = true) /\
  match validate_sha256 kind s with
  | Ok r => digest r /\ validate_sha256 kind r = Ok r
  | Err e => id_value e = s
  end.
Proof.
  split; [intros r; apply validate_id_spec|].
  split.
  { intros r. unfold validate_kind. pose proof (validate_label_spec kind s 64) as H.
    destruct (validate_label kind s 64) as [[]|e]; cbn in *.
    - split; [intros [= <-]; split; [done|by apply H]|by intros [-> _]].
    - split; [done|]. intros [_ Hl]. apply H in Hl. done. }
  unfold validate_sha256.
  destruct (Nat.eqb_spec (String.length s) 64) as [Hl|Hl]; cbn [negb orb].
  2:{ split; [|done]. intros r. split; [done|]. by intros (_ & ? & _). }
  destruct (all_chars is_ascii_hexdigit s) eqn:Eh; cbn [negb].
  2:{ split; [|done]. intros r. split; [done|]. by intros (_ & _ & ?). }
  split; [intros r; split; [by intros [= <-]|by intros [-> _]]|].
  pose proof (lower_digest s Hl Eh) as Hd. split; [done|].
  pose proof Hd as (-> & -> & _). cbn. by rewrite digest_lower.
Qed.
