(* ===== verification/Errors.v ===== *)
(** * Errors and the classification of git failures

    Models [crates/sandbox-driver/src/error.rs] (the boundary error, its parts,
    and [GitFailureKind]'s reading of git's output), the [SandboxState] and
    [Action] enumerations, and the bounded [ErrorReport] of
    [crates/sandbox-driver/src/event.rs]. An in-process cause is modelled by
    the list of its rendered messages, outermost first. *)

From S2P Require Import Prelude Text Exec Capabilities.

#[local] Open Scope string_scope.
#[local] Open Scope list_scope.
#[local] Open Scope Z_scope.

Inductive ResourceKind := RkSandbox | RkSnapshot | RkVolume | RkPlugin | RkFile | RkUnknown.

Inductive SandboxState :=
  | StCreating | StStarting | StRunning | StStopping | StStopped | StPausing | StPaused
  | StResuming | StArchiving | StArchived | StRestoring | StResizing | StForking
  | StSnapshotting | StDeleting | StDeleted | StError | StUnknown.

Definition is_stable (s : SandboxState) : bool :=
  match s with
  | StRunning | StStopped | StPaused | StArchived | StDeleted | StError => true
  | _ => false
  end.

Inductive Action :=
  | ActCreate | ActAttach | ActStart | ActStop | ActDelete | ActActivate | ActDeactivate
  | ActPause | ActResume | ActArchive | ActFork | ActResize | ActSnapshot | ActRecover
  | ActUndelete | ActRefreshActivity | ActSetTimers | ActSetLabels | ActUpdateNetwork
  | ActUnknown.

Inductive GitFailureKind :=
  | AuthRejected | RemoteUnavailable | RefNotFound | AccessDenied | TargetExists
  | GitUnavailable | Unclassified.

#[export] Instance ResourceKind_eq_dec : EqDecision ResourceKind.
Proof. solve_decision. Defined.
#[export] Instance SandboxState_eq_dec : EqDecision SandboxState.
Proof. solve_decision. Defined.
#[export] Instance Action_eq_dec : EqDecision Action.
Proof. solve_decision. Defined.
#[export] Instance GitFailureKind_eq_dec : EqDecision GitFailureKind.
Proof. solve_decision. Defined.

(** ** Classification *)

Definition REMOTE_UNAVAILABLE_HINTS : list string :=
  ["could not resolve host"; "temporary failure in name resolution"; "connection refused";
   "connection reset"; "connection timed out"; "timed out"; "network is unreachable";
   "no route to host"; "tls handshake"; "early eof"; "rpc failed"; "unexpected disconnect";
   "the remote end hung up unexpectedly"; "index-pack failed"; "service unavailable";
   "gateway timeout"; "too many requests"; "rate limit"].

Definition AUTH_REJECTED_HINTS : list string :=
  ["repository not found"; "authentication failed"; "invalid username or password";
   "bad credentials"; "the requested url returned error: 401";
   "the requested url returned error: 403"; "the requested url returned error: 404";
   "unexpected http status code: 401"; "unexpected http status code: 403";
   "unexpected http status code: 404"].

Definition REF_NOT_FOUND_HINTS : list string :=
  ["couldn't find remote ref"; "could not find remote branch"; "not our ref";
   "unadvertised object"; "reference is not a tree"; "did not match any file(s) known to git";
   "unknown revision or path not in the working tree"].

Definition any_hint (hints : list string) (s : string) : bool := existsb (fun h => contains h s) hints.

Definition from_message (message : string) : GitFailureKind :=
  let lower := to_ascii_lowercase message in
  if any_hint REMOTE_UNAVAILABLE_HINTS lower then RemoteUnavailable
  else if any_hint AUTH_REJECTED_HINTS lower then AuthRejected
  else if contains "could not read username" lower
       || contains "terminal prompts disabled" lower
       || contains "permission denied" lower
       || (contains "permission to" lower && contains "denied" lower)
  then AccessDenied
  else if contains "destination path" lower && contains "already exists" lower then TargetExists
  else if any_hint REF_NOT_FOUND_HINTS lower
       || (contains "remote branch" lower && contains "not found" lower)
  then RefNotFound
  else Unclassified.

Definition from_output (stderr stdout : bytes) : GitFailureKind :=
  let by_stderr := from_message (from_utf8_lossy stderr) in
  if decide (by_stderr = Unclassified) then from_message (from_utf8_lossy stdout) else by_stderr.

Definition is_transient (k : GitFailureKind) : bool :=
  match k with RemoteUnavailable => true | _ => false end.

(** ** The error values *)

(** A rendered source chain: the messages of a cause, its cause, and so on. *)
Notation chain := (list string) (only parsing).

Record AuthError := mkAuthError { ae_provider : string; ae_reason : string; ae_source : list string }.

Record ExecFailure := mkExecFailure {
  ef_label : string;
  ef_termination : Termination;
  ef_exit_code : option Z;
  ef_stdout : bytes;
  ef_stderr : bytes;
  ef_duration : option Z;
}.

Record ProviderError := mkProviderError {
  pe_provider : string;
  pe_code : option string;
  pe_message : string;
  pe_retryable : bool;
  pe_detail : option json;
  pe_source : list string;
}.

Record GitFailure := mkGitFailure {
  gf_operation : string;
  gf_kind : GitFailureKind;
  gf_output : option ExecFailure;
  gf_provider : option ProviderError;
}.

Record TransportError := mkTransportError { te_context : string; te_source : list string }.

Record IncompleteOperation := mkIncomplete {
  io_operation : string;
  output_abandoned : bool;
  stop_acknowledged : bool;
  termination_confirmed : bool;
  cleanup_confirmed : bool;
}.

(** Durations of the boundary error are counted in nanoseconds. *)
Inductive Error :=
  | NotFound (resource : ResourceKind) (id : string)
  | NotOwned (resource : ResourceKind) (id : string)
  | ReadOnly (resource : ResourceKind) (id : string) (action : Action)
  | Unsupported (capability : Capability)
  | InvalidState (current : SandboxState) (action : Action)
  | InvalidSpec (field reason : string)
  | Timeout (operation : string) (elapsed : Z)
  | Auth (e : AuthError)
  | RateLimited (retry_after : option Z)
  | Overloaded (limit : string)
  | LimitExceededE (limit : string) (max_bytes : Z)
  | ExecE (e : ExecFailure)
  | GitE (e : GitFailure)
  | Provider (e : ProviderError)
  | Transport (e : TransportError)
  | Incomplete (e : IncompleteOperation)
  | Io (context : string) (source : list string).

Definition incomplete_new (operation : string) : IncompleteOperation :=
  mkIncomplete operation true false false false.

(** [ExecFailure::hint]: the static diagnosis read from stderr. *)
Definition hint (f : ExecFailure) : option string :=
  let stderr := to_ascii_lowercase (from_utf8_lossy (ef_stderr f)) in
  if contains "could not resolve host" stderr || contains "network is unreachable" stderr
  then Some "network failure inside the sandbox — check DNS / egress"
  else if contains "not a git repository" stderr
       || contains "does not appear to be a git repository" stderr
  then Some "no git repository at the working directory"
  else None.

Definition from_command (operation : string) (output : ExecFailure) : GitFailure :=
  let kind := match ef_exit_code output with
              | Some 126 | Some 127 => GitUnavailable
              | _ => from_output (ef_stderr output) (ef_stdout output)
              end in
  mkGitFailure operation kind (Some output) None.

Definition from_provider (operation : string) (p : ProviderError) : GitFailure :=
  let kind := from_message (pe_message p) in
  let kind := if bool_decide (kind = Unclassified) && pe_retryable p then RemoteUnavailable else kind in
  mkGitFailure operation kind None (Some p).

Definition classified (operation : string) (kind : GitFailureKind) (p : option ProviderError) : GitFailure :=
  mkGitFailure operation kind None p.

Definition with_output (f : GitFailure) (output : ExecFailure) : GitFailure :=
  mkGitFailure (gf_operation f) (gf_kind f) (Some output) (gf_provider f).

(** [Display] of a provider error. *)
Definition provider_display (p : ProviderError) : string :=
  pe_provider p +:+ " error" +:+
  match pe_code p with Some code => " [" +:+ code +:+ "]" | None => EmptyString end +:+
  ": " +:+ pe_message p.

(** [source()] of the boundary error, walked to its end. A transparent variant
    forwards to its inner error's source. *)
Definition source_chain (e : Error) : list string :=
  match e with
  | Auth a => ae_source a
  | GitE g => match gf_provider g with Some p => provider_display p :: pe_source p | None => [] end
  | Provider p => pe_source p
  | Transport t => te_source t
  | Io _ source => source
  | _ => []
  end.

(** ** The bounded report *)

Definition MAX_CAUSES : nat := 8.
Definition MAX_CAUSE_CHARS : nat := 500.

Record ErrorReport := mkReport {
  er_kind : string;
  er_message : string;
  er_retryable : bool;
  er_causes : list string;
}.

Definition report_kind (e : Error) : string :=
  match e with
  | NotFound _ _ => "not_found"
  | NotOwned _ _ => "not_owned"
  | ReadOnly _ _ _ => "read_only"
  | Unsupported _ => "unsupported"
  | InvalidState _ _ => "invalid_state"
  | InvalidSpec _ _ => "invalid_spec"
  | Timeout _ _ => "timeout"
  | Auth _ => "auth"
  | RateLimited _ => "rate_limited"
  | Overloaded _ => "overloaded"
  | LimitExceededE _ _ => "limit_exceeded"
  | ExecE _ => "exec"
  | GitE _ => "git"
  | Provider _ => "provider"
  | Transport _ => "transport"
  | Incomplete _ => "incomplete"
  | Io _ _ => "io"
  end.

Definition retryable (e : Error) : bool :=
  match e with
  | Timeout _ _ | RateLimited _ | Transport _ => true
  | Provider p => pe_retryable p
  | GitE g => is_transient (gf_kind g)
  | _ => false
  end.

(** [str::is_char_boundary], on the bytes of a string. *)
Definition is_char_boundary (s : string) (i : nat) : bool :=
  match i with
  | O => true
  | _ => match String.get i s with
         | Some a => negb (in_range 0x80 0xbf (code a))
         | None => (i =? String.length s)%nat
         end
  end.

(** The loop that walks back to a boundary. *)
Fixpoint boundary_before (s : string) (i : nat) : nat :=
  if is_char_boundary s i then i else match i with O => O | S i => boundary_before s i end.

Definition ELLIPSIS : string := of_bytes [0xe2; 0x80; 0xa6].

Definition bound_cause (text : string) : string :=
  if (MAX_CAUSE_CHARS <? String.length text)%nat
  then String.substring 0 (boundary_before text MAX_CAUSE_CHARS) text +:+ ELLIPSIS
  else text.

Definition bound_causes (causes : list string) : list string := bound_cause <$> take MAX_CAUSES causes.

Arguments bound_cause : simpl never.
Arguments bound_causes : simpl never.

(** [ErrorReport::from], over the rendering of an error. *)
Definition report_of (to_string : Error -> string) (e : Error) : ErrorReport :=
  mkReport (report_kind e) (to_string e) (retryable e) (bound_causes (source_chain e)).

(** ** Properties of the classification *)

(** The order in which the classes are tried. *)
Definition precedence (k : GitFailureKind) : nat :=
  match k with
  | RemoteUnavailable => 0
  | AuthRejected => 1
  | AccessDenied => 2
  | TargetExists => 3
  | RefNotFound => 4
  | Unclassified => 5
  | GitUnavailable => 6
  end.

Lemma any_hint_around hints l s r : any_hint hints s = true -> any_hint hints (l +:+ s +:+ r) = true.
Proof.
  unfold any_hint. rewrite !existsb_exists. intros (h & Hin & Hh). exists h. eauto with text.
Qed.

(** The class that the first of five conditions selects. *)
Definition choose (remote auth denied target ref : bool) : GitFailureKind :=
  if remote then RemoteUnavailable else if auth then AuthRejected else if denied then AccessDenied
  else if target then TargetExists else if ref then RefNotFound else Unclassified.

(** Conditions that only grow select no later class. *)
Lemma choose_mono c1 c2 c3 c4 c5 d1 d2 d3 d4 d5 :
  (c1 = true -> d1 = true) -> (c2 = true -> d2 = true) -> (c3 = true -> d3 = true) ->
  (c4 = true -> d4 = true) -> (c5 = true -> d5 = true) ->
  (precedence (choose d1 d2 d3 d4 d5) <= precedence (choose c1 c2 c3 c4 c5))%nat.
Proof.
  intros H1 H2 H3 H4 H5. unfold choose.
  destruct c1; [by rewrite H1|]. destruct d1; [cbn; lia|].
  destruct c2; [by rewrite H2|]. destruct d2; [cbn; repeat case_match; cbn; lia|].
  destruct c3; [by rewrite H3|]. destruct d3; [cbn; repeat case_match; cbn; lia|].
  destruct c4; [by rewrite H4|]. destruct d4; [cbn; repeat case_match; cbn; lia|].
  destruct c5; [by rewrite H5|]. destruct d5; cbn; lia.
Qed.

Lemma and_around p q l s r : contains p s && contains q s = true ->
  contains p (l +:+ s +:+ r) && contains q (l +:+ s +:+ r) = true.
Proof. rewrite !andb_true_iff. intros [? ?]. eauto with text. Qed.

Lemma or_impl (a b c d : bool) : (a = true -> c = true) -> (b = true -> d = true) ->
  a || b = true -> c || d = true.
Proof. destruct a, b; cbn; intros H1 H2 H; rewrite ?H1, ?H2 by done; auto using orb_true_r. Qed.

Lemma from_message_choose m :
  let lower := to_ascii_lowercase m in
  from_message m = choose
    (any_hint REMOTE_UNAVAILABLE_HINTS lower)
    (any_hint AUTH_REJECTED_HINTS lower)
    (contains "could not read username" lower || contains "terminal prompts disabled" lower
     || contains "permission denied" lower
     || (contains "permission to" lower && contains "denied" lower))
    (contains "destination path" lower && contains "already exists" lower)
    (any_hint REF_NOT_FOUND_HINTS lower
     || (contains "remote branch" lower && contains "not found" lower)).
Proof. reflexivity. Qed.

Lemma from_message_around l m r :
  (precedence (from_message (l +:+ m +:+ r)) <= precedence (from_message m))%nat.
Proof.
  rewrite !from_message_choose. cbv zeta. rewrite !to_ascii_lowercase_app.
  apply choose_mono;
    repeat first [apply any_hint_around | apply and_around | apply contains_around | apply or_impl].
Qed.

Lemma from_message_lower m : from_message (to_ascii_lowercase m) = from_message m.
Proof. unfold from_message. by rewrite to_ascii_lowercase_idem. Qed.

Lemma from_message_not_git_unavailable m : from_message m <> GitUnavailable.
Proof. unfold from_message. repeat case_match; done. Qed.

(** How git's words become a class: reading is case-insensitive; text around
    a message never moves it to a later class (a remote failure stays one
    whatever else is printed); stdout is read only when stderr says nothing;
    exit codes 126 and 127 mean git is missing whatever was printed, and only
    they do; a provider's retryable failure is never left unclassified; and only
    an unreachable remote is transient. *)
Theorem classification_spec :
  (forall m, from_message (to_ascii_lowercase m) = from_message m) /\
  (forall l m r, (precedence (from_message (l +:+ m +:+ r)) <= precedence (from_message m))%nat) /\
  (forall err out, from_output err out =
     if decide (from_message (from_utf8_lossy err) = Unclassified)
     then from_message (from_utf8_lossy out) else from_message (from_utf8_lossy err)) /\
  (forall op f, gf_kind (from_command op f) = GitUnavailable <->
     ef_exit_code f = Some 126 \/ ef_exit_code f = Some 127) /\
  (forall op p, pe_retryable p = true -> gf_kind (from_provider op p) <> Unclassified) /\
  (forall f, retryable (GitE f) = true <-> gf_kind f = RemoteUnavailable).
Proof.
  split; [apply from_message_lower|]. split; [apply from_message_around|].
  split; [done|]. split; [|split].
  - intros op f. unfold from_command. cbn [gf_kind].
    assert (from_output (ef_stderr f) (ef_stdout f) <> GitUnavailable) as Hn.
    { unfold from_output. case_decide; apply from_message_not_git_unavailable. }
    destruct (ef_exit_code f) as [z|]; [|split; [done|by intros [?|?]]].
    destruct (decide (z = 126)) as [->|H1]; [split; auto|].
    destruct (decide (z = 127)) as [->|H2]; [split; auto|].
    assert (forall (A : Type) (a b : A), match z with 126 | 127 => a | _ => b end = b) as Hm.
    { intros A a b. clear -H1 H2. repeat case_match; congruence. }
    rewrite Hm. split; [done|]. intros [[= ->]|[= ->]]; done.
  - intros op p Hp. unfold from_provider. cbn [gf_kind]. rewrite Hp, andb_true_r. by case_bool_decide.
  - intros f. cbn. destruct (gf_kind f); done.
Qed.

Lemma classification_spec_witness :
  gf_kind (from_provider "git clone" (mkProviderError "daytona" None "boom" true None [])) <> Unclassified.
Proof. apply (proj1 (proj2 (proj2 (proj2 (proj2 classification_spec))))). reflexivity. Defined.

Example hidden_repository :
  from_message "remote: Repository not found." = AuthRejected.
Proof. reflexivity. Qed.
