(* ===== verification/GitRetry.v ===== *)
(** * Retry of git operations

    Models [crates/sandbox-driver/src/git_retry.rs]. Instants are integers on a
    monotonic clock that starts at 0; [wall] reads the system clock at an
    instant. The retried operation is a parameter: from the attempt number, the
    timeout and the instant it is called at it gives the instant it ends and its
    result. [scaled] is the [f64] product [initial * factor^exponent] of the
    backoff, [None] where Rust's [mul_f64] panics. *)

From S2P Require Import Prelude Exec Errors.

#[local] Open Scope Z_scope.

(** In the milliseconds durations are counted in. *)
Definition REPLICATION_HORIZON : Z := 60 * 1000.

Inductive GitRetryReason := TokenReplication | TransientInfra.

#[export] Instance GitRetryReason_eq_dec : EqDecision GitRetryReason.
Proof. solve_decision. Defined.

Record GitCredentials := mkCredentials {
  username : string;
  password : string;
  minted_at : option Z;
}.

Record GitBackoff := mkBackoff {
  scaled : Z -> option Z;
  backoff_max : Z;
}.

Record GitRetryPolicy := mkPolicy {
  max_attempts : nat;
  backoff : GitBackoff;
  max_elapsed : option Z;
  per_attempt_timeout : option Z;
}.

(** [GitRetryPolicy::new] and [once]: a zero delay, never scaled. *)
Definition policy_new (n : nat) (b : GitBackoff) : GitRetryPolicy := mkPolicy n b None None.
Definition once : GitRetryPolicy := policy_new 1 (mkBackoff (fun _ => Some 0) 0).

Definition i32_max : Z := 2 ^ 31 - 1.

(** [delay_after]: the exponent saturates, the product can panic, the cap
    applies after it. *)
Definition delay_after (b : GitBackoff) (attempt : Z) : option Z :=
  let exponent := Z.min (Z.max 0 (attempt - 1)) i32_max in
  match scaled b exponent with
  | Some delay => Some (Z.min delay (backoff_max b))
  | None => None
  end.

Definition policy_deadline (p : GitRetryPolicy) (start : Z) : option Z := Z.add start <$> max_elapsed p.

(** [saturating_duration_since]. *)
Definition since (later earlier : Z) : Z := Z.max 0 (later - earlier).

Definition attempt_timeout (p : GitRetryPolicy) (deadline : option Z) (now : Z) : option Z :=
  let remaining := (fun d => since d now) <$> deadline in
  match per_attempt_timeout p, remaining with
  | Some cap, Some remaining => Some (Z.min cap remaining)
  | Some cap, None => Some cap
  | None, remaining => remaining
  end.

(** [retry_delay]: [None] when the product panics, else the delay if it fits. *)
Definition retry_delay (p : GitRetryPolicy) (attempt : Z) (deadline : option Z) (now : Z)
    : option (option Z) :=
  match delay_after (backoff p) attempt with
  | None => None
  | Some delay =>
      let fits := match deadline with None => true | Some d => delay <? since d now end in
      Some (if fits then Some delay else None)
  end.

Inductive CredentialAge := Fresh | Mature | Static.

Definition credential_age (c : option GitCredentials) (now : Z) : CredentialAge :=
  match c ≫= minted_at with
  | None => Static
  | Some minted_at =>
      if minted_at <=? now then if now - minted_at <? REPLICATION_HORIZON then Fresh else Mature
      else Fresh
  end.

Definition retry_decide (kind : GitFailureKind) (age : CredentialAge) : option GitRetryReason :=
  match kind with
  | RemoteUnavailable => Some TransientInfra
  | AuthRejected =>
      match age with
      | Fresh => Some TokenReplication
      | Mature => Some TransientInfra
      | Static => None
      end
  | _ => None
  end.

Definition retry_reason (e : Error) (c : option GitCredentials) (now : Z) : option GitRetryReason :=
  match e with
  | GitE failure =>
      if match gf_output failure with
         | Some output => negb (bool_decide (ef_termination output = Exited))
         | None => false
         end
      then None
      else retry_decide (gf_kind failure) (credential_age c now)
  | RateLimited _ | Overloaded _ => Some TransientInfra
  | _ => None
  end.

(** An attempt, with the monotonic instant it began at and the timeout it was
    handed. *)
Record GitAttempt := mkAttempt {
  ga_attempt : Z;
  ga_started_at : Z;
  ga_duration : Z;
  ga_retry_reason : option GitRetryReason;
  ga_failure : option Error;
  ga_began : Z;
  ga_timeout : option Z;
}.

Inductive retried (T : Type) :=
  | Report (value : T) (attempts : list GitAttempt)
  | RetryError (attempts : list GitAttempt) (error : Error)
  | BackoffPanicked (attempts : list GitAttempt)
  | RetryOutOfFuel.
Arguments Report {T}.
Arguments RetryError {T}.
Arguments BackoffPanicked {T}.
Arguments RetryOutOfFuel {T}.

Section Retry.
Context {T : Type}.
Variable wall : Z -> Z.
Variable operation : Z -> option Z -> Z -> Z * result T Error.
Variable p : GitRetryPolicy.
Variable credentials : option GitCredentials.
Variable operation_name : string.

Definition attempts_allowed : Z := Z.max (Z.of_nat (max_attempts p)) 1.

(** What follows a failed attempt: [None] for a panic, [Some None] to give up,
    [Some (Some delay)] to wait and repeat. *)
Definition next_delay (attempt : Z) (reason : option GitRetryReason) (deadline : option Z) (now : Z)
    : option (option Z) :=
  match reason with
  | None => Some None
  | Some _ => if attempt <? attempts_allowed then retry_delay p attempt deadline now else Some None
  end.

Fixpoint retry_loop (fuel : nat) (deadline : option Z) (attempts : list GitAttempt) (now : Z)
    : retried T :=
  match fuel with
  | O => RetryOutOfFuel
  | S fuel =>
      let attempt := Z.of_nat (length attempts) + 1 in
      let timeout := attempt_timeout p deadline now in
      if bool_decide (timeout = Some 0) then RetryError attempts (Timeout operation_name now)
      else
        let '(ended, outcome) := operation attempt timeout now in
        let made reason failure :=
          mkAttempt attempt (wall now) (ended - now) reason failure now timeout in
        match outcome with
        | Ok value => Report value (attempts ++ [made None None])
        | Err error =>
            let reason := retry_reason error credentials (wall ended) in
            match next_delay attempt reason deadline ended with
            | None => BackoffPanicked attempts
            | Some None => RetryError (attempts ++ [made reason None]) error
            | Some (Some delay) =>
                retry_loop fuel deadline (attempts ++ [made reason (Some error)]) (ended + delay)
            end
        end
  end.

(** One turn per attempt, and an attempt is repeated only below
    [attempts_allowed]. *)
Definition retry_git : retried T :=
  retry_loop (Z.to_nat attempts_allowed) (policy_deadline p 0) [] 0.

(** ** What a retried operation promises *)

Notation deadline := (policy_deadline p 0).

(** The policy's durations are durations. *)
Definition policy_ok : Prop :=
  (forall cap, per_attempt_timeout p = Some cap -> 0 <= cap) /\
  (forall e d, scaled (backoff p) e = Some d -> 0 <= d) /\ 0 <= backoff_max (backoff p).

Hypothesis durations : policy_ok.

Lemma delay_after_nonneg attempt delay : delay_after (backoff p) attempt = Some delay -> 0 <= delay.
Proof.
  destruct durations as (_ & Hs & Hm). unfold delay_after.
  destruct (scaled _ _) as [d|] eqn:E; [|done]. intros [= <-]. specialize (Hs _ _ E). lia.
Qed.

(** An attempt as it was made: its call, within the bounds of the policy. *)
Definition made_ok (a : GitAttempt) (outcome : result T Error) : Prop :=
  operation (ga_attempt a) (ga_timeout a) (ga_began a) = (ga_began a + ga_duration a, outcome) /\
  ga_started_at a = wall (ga_began a) /\
  ga_timeout a = attempt_timeout p deadline (ga_began a) /\ ga_timeout a <> Some 0.

(** A git command whose outcome is not known: it was stopped, so it may still
    be running. *)
Definition outcome_unknown (e : Error) : Prop :=
  exists f o, e = GitE f /\ gf_output f = Some o /\ ef_termination o <> Exited.

(** An attempt that failed and was repeated at [next]. *)
Definition repeated (a : GitAttempt) (next : Z) : Prop :=
  exists e r delay,
    made_ok a (Err e) /\ ga_failure a = Some e /\ ga_retry_reason a = Some r /\
    retry_reason e credentials (wall (ga_began a + ga_duration a)) = Some r /\
    ~ outcome_unknown e /\
    ga_attempt a < attempts_allowed /\
    delay_after (backoff p) (ga_attempt a) = Some delay /\
    next = ga_began a + ga_duration a + delay /\
    (forall d, deadline = Some d -> next < d).

(** The attempts so far, each repeated; the next one begins at [now]. *)
Inductive history : list GitAttempt -> Z -> Prop :=
  | history_start : history [] 0
  | history_repeat attempts a next :
      history attempts (ga_began a) -> ga_attempt a = Z.of_nat (length attempts) + 1 ->
      repeated a next -> history (attempts ++ [a]) next.

(** How the operation ended, given the attempts that were repeated. *)
Definition retried_ok (r : retried T) : Prop :=
  match r with
  | Report value attempts => exists before a, attempts = before ++ [a] /\
      history before (ga_began a) /\ ga_attempt a = Z.of_nat (length before) + 1 /\
      made_ok a (Ok value) /\ ga_failure a = None
  | RetryError attempts error =>
      (exists now, history attempts now /\ error = Timeout operation_name now /\
         attempt_timeout p deadline now = Some 0) \/
      (exists before a, attempts = before ++ [a] /\
         history before (ga_began a) /\ ga_attempt a = Z.of_nat (length before) + 1 /\
         made_ok a (Err error) /\ ga_failure a = None /\
         let ended := ga_began a + ga_duration a in
         ga_retry_reason a = retry_reason error credentials (wall ended) /\
         (ga_retry_reason a = None \/ attempts_allowed <= ga_attempt a \/
          retry_delay p (ga_attempt a) deadline ended = Some None))
  | BackoffPanicked attempts => exists now attempt, history attempts now /\
      delay_after (backoff p) attempt = None
  | RetryOutOfFuel => False
  end.

Lemma retry_reason_known e now r : retry_reason e credentials now = Some r -> ~ outcome_unknown e.
Proof.
  intros Hr (f & o & -> & Ho & Ht). cbn in Hr. rewrite Ho in Hr.
  by rewrite bool_decide_eq_false_2 in Hr.
Qed.

Lemma retry_loop_ok fuel attempts now :
  history attempts now -> attempts_allowed <= Z.of_nat (length attempts) + Z.of_nat fuel ->
  Z.of_nat (length attempts) < attempts_allowed ->
  retried_ok (retry_loop fuel deadline attempts now).
Proof.
  revert attempts now. induction fuel as [|fuel IH]; intros attempts now Hh Hf Hlt; [lia|].
  cbn [retry_loop]. case_bool_decide as Ht; [left; eauto|].
  destruct (operation _ _ now) as [ended outcome] eqn:Eop.
  set (made := fun reason failure =>
    mkAttempt (Z.of_nat (length attempts) + 1) (wall now) (ended - now) reason failure now
      (attempt_timeout p deadline now)).
  assert (forall reason failure, made_ok (made reason failure) outcome) as Hmade.
  { intros reason failure. unfold made_ok. cbn. rewrite Eop. split; [f_equal; lia|done]. }
  destruct outcome as [value|error].
  - cbn. eexists attempts, (made None None). repeat split; try done; apply Hmade.
  - set (reason := retry_reason error credentials (wall ended)).
    assert (now + (ended - now) = ended) as Hend by lia.
    destruct (next_delay _ reason deadline ended) as [[delay|]|] eqn:En.
    + unfold next_delay in En. destruct reason as [r|] eqn:Er; [|done].
      destruct (Z.ltb_spec (Z.of_nat (length attempts) + 1) attempts_allowed) as [Hat|]; [|done].
      apply IH; [|rewrite length_app; cbn; lia..].
      apply history_repeat; [done|done|].
      unfold retry_delay in En. destruct (delay_after _ _) as [delay'|] eqn:Ed; [|done].
      destruct (match deadline with None => true | Some d => delay' <? since d ended end) eqn:Ef; [|done].
      injection En as <-.
      exists error, r, delay'. split; [apply Hmade|]. split; [done|]. split; [done|].
      cbn [ga_began ga_duration ga_attempt made]. rewrite Hend. split; [done|].
      split; [by eapply retry_reason_known|]. split; [done|]. split; [done|]. split; [done|].
      intros d Hd. rewrite Hd in Ef. apply Z.ltb_lt in Ef. unfold since in Ef.
      pose proof (delay_after_nonneg _ _ Ed). lia.
    + right. eexists attempts, (made reason None). split; [done|]. split; [done|]. split; [done|].
      split; [apply Hmade|]. split; [done|]. cbn zeta. cbn [ga_began ga_duration ga_attempt ga_retry_reason made].
      rewrite Hend. split; [done|]. unfold next_delay in En. destruct reason; [|by left]. right.
      destruct (Z.ltb_spec (Z.of_nat (length attempts) + 1) attempts_allowed); [by right|left; lia].
    + cbn. exists now, (Z.of_nat (length attempts) + 1). split; [done|].
      unfold next_delay in En. destruct reason; [|done].
      destruct (_ <? _); [|done]. unfold retry_delay in En. by destruct (delay_after _ _).
Qed.

Lemma retry_git_ok : retried_ok retry_git.
Proof.
  apply retry_loop_ok; [constructor| |]; unfold attempts_allowed; cbn [length]; lia.
Qed.

Definition attempts_of (r : retried T) : list GitAttempt :=
  match r with
  | Report _ a | RetryError a _ | BackoffPanicked a => a
  | RetryOutOfFuel => []
  end.

Lemma history_length attempts now : history attempts now -> 
  Z.of_nat (length attempts) < attempts_allowed.
Proof.
  destruct 1 as [|attempts a next _ Hn (? & ? & ? & _ & _ & _ & _ & _ & Hlt & _)].
  - unfold attempts_allowed. cbn. lia.
  - rewrite length_app. cbn. lia.
Qed.

(** An attempt with a timeout cap that is a duration runs inside the deadline. *)
Definition in_deadline (a : GitAttempt) : Prop :=
  forall d, deadline = Some d -> exists t, ga_timeout a = Some t /\ ga_began a + t <= d /\ ga_began a < d.

Lemma made_in_deadline a o : made_ok a o -> in_deadline a.
Proof.
  destruct durations as [Hcap _]. intros (_ & _ & Ht & Hne) d Hd. rewrite Ht in *. unfold attempt_timeout in *. rewrite Hd in *.
  cbn in *. unfold since in *. destruct (per_attempt_timeout p) as [cap|] eqn:Ec.
  - specialize (Hcap _ eq_refl). exists (Z.min cap (Z.max 0 (d - ga_began a))). split; [done|].
    assert (Z.min cap (Z.max 0 (d - ga_began a)) <> 0) by congruence. lia.
  - exists (Z.max 0 (d - ga_began a)). split; [done|].
    assert (Z.max 0 (d - ga_began a) <> 0) by congruence. lia.
Qed.

Lemma history_attempts attempts now : history attempts now ->
  forall i a, attempts !! i = Some a -> ga_attempt a = Z.of_nat i + 1 /\
    exists next, repeated a next /\
      (forall b, attempts !! S i = Some b -> ga_began b = next) /\
      (S i = length attempts -> next = now).
Proof.
  induction 1 as [|attempts a next Hh IH Hn Hr]; intros i x Hi; [done|].
  apply lookup_app_Some in Hi as [Hi|[Hge Hi]].
  - destruct (IH i x Hi) as (Hat & nx & Hrep & Hnext & Hlast). split; [done|].
    exists nx. split; [done|]. pose proof (lookup_lt_Some _ _ _ Hi). split.
    + intros b Hb. apply lookup_app_Some in Hb as [Hb|[Hb1 Hb2]]; [by apply Hnext|].
      assert (S i - length attempts = 0)%nat as E by (apply lookup_lt_Some in Hb2; cbn in Hb2; lia).
      rewrite E in Hb2. injection Hb2 as <-. symmetry. apply Hlast. lia.
    + rewrite length_app. cbn. lia.
  - assert (i - length attempts = 0)%nat as E by (apply lookup_lt_Some in Hi; cbn in Hi; lia).
    rewrite E in Hi. injection Hi as <-. assert (i = length attempts) as -> by lia.
    split; [done|]. exists next. split; [done|]. split; [|done].
    intros b Hb. apply lookup_lt_Some in Hb. rewrite length_app in Hb. cbn in Hb. lia.
Qed.

Lemma retried_attempts r : retried_ok r ->
  Z.of_nat (length (attempts_of r)) <= attempts_allowed /\
  (forall i a, attempts_of r !! i = Some a -> ga_attempt a = Z.of_nat i + 1 /\ in_deadline a) /\
  (forall i a b, attempts_of r !! i = Some a -> attempts_of r !! S i = Some b -> repeated a (ga_began b)).
Proof.
  assert (forall attempts now, history attempts now ->
    Z.of_nat (length attempts) <= attempts_allowed /\
    (forall i a, attempts !! i = Some a -> ga_attempt a = Z.of_nat i + 1 /\ in_deadline a) /\
    (forall i a b, attempts !! i = Some a -> attempts !! S i = Some b -> repeated a (ga_began b))) as Hall.
  { intros attempts now Hh. split; [apply history_length in Hh; lia|].
    pose proof (history_attempts _ _ Hh) as H. split.
    - intros i a Hi. destruct (H _ _ Hi) as (? & nx & (? & ? & ? & Hm & _) & _).
      split; [done|]. by eapply made_in_deadline.
    - intros i a b Ha Hb. destruct (H _ _ Ha) as (_ & nx & Hr & Hnext & _). by rewrite (Hnext b). }
  assert (forall before a o, history before (ga_began a) -> ga_attempt a = Z.of_nat (length before) + 1 ->
    made_ok a o ->
    Z.of_nat (length (before ++ [a])) <= attempts_allowed /\
    (forall i x, (before ++ [a]) !! i = Some x -> ga_attempt x = Z.of_nat i + 1 /\ in_deadline x) /\
    (forall i x b, (before ++ [a]) !! i = Some x -> (before ++ [a]) !! S i = Some b ->
       repeated x (ga_began b))) as Hlast.
  { intros before a o Hh Hn Hm. destruct (Hall _ _ Hh) as (_ & Hi & _).
    pose proof (history_attempts _ _ Hh) as H. split.
    { rewrite length_app. apply history_length in Hh. cbn. lia. }
    split.
    - intros i x [Hx|[Hge Hx]]%lookup_app_Some; [auto|].
      assert (i - length before = 0)%nat as E by (apply lookup_lt_Some in Hx; cbn in Hx; lia).
      rewrite E in Hx. injection Hx as <-. split; [rewrite Hn; lia|]. by eapply made_in_deadline.
    - intros i x b Hx Hb.
      assert (i < length before)%nat as Hlt.
      { apply lookup_lt_Some in Hb. rewrite length_app in Hb. cbn in Hb. lia. }
      rewrite lookup_app_l in Hx by done. destruct (H _ _ Hx) as (_ & nx & Hr & Hnext & Hend).
      apply lookup_app_Some in Hb as [Hb|[Hge Hb]]; [by rewrite (Hnext b)|].
      assert (S i - length before = 0)%nat as E by (apply lookup_lt_Some in Hb; cbn in Hb; lia).
      rewrite E in Hb. injection Hb as <-. by rewrite <- Hend by lia. }
  destruct r as [v attempts|attempts e|attempts|]; cbn.
  - intros (before & a & -> & Hh & Hn & Hm & _). by eapply Hlast.
  - intros [(now & Hh & _)|(before & a & -> & Hh & Hn & Hm & _)]; [by eapply Hall|by eapply Hlast].
  - intros (now & _ & Hh & _). by eapply Hall.
  - done.
Qed.

(** C22. A retried git operation makes at most the attempts the policy allows
    (at least one is tried), numbered from 1, each started before the deadline
    with a timeout that ends by it; an attempt is repeated only after a failure
    whose outcome is known and that [retry_reason] names, with the same
    credentials, after the policy's backoff and before the deadline; and the
    operation always ends, with the value, the last failure, or the timeout. *)
Theorem retry_git_spec :
  let attempts := attempts_of retry_git in
  Z.of_nat (length attempts) <= attempts_allowed /\
  (forall i a, attempts !! i = Some a -> ga_attempt a = Z.of_nat i + 1 /\ in_deadline a) /\
  (forall i a b, attempts !! i = Some a -> attempts !! S i = Some b -> repeated a (ga_began b)) /\
  retried_ok retry_git.
Proof.
  intros attempts. pose proof retry_git_ok as H.
  destruct (retried_attempts _ H) as (H1 & H2 & H3). done.
Qed.
End Retry.

(** *** A concrete retry: the remote is down for the first two attempts *)

Definition flaky (attempt : Z) (timeout : option Z) (now : Z) : Z * result string Error :=
  (now + 50,
   if attempt <? 3 then Err (GitE (classified "git fetch" RemoteUnavailable None)) else Ok "done"%string).

Definition doubling : GitBackoff := mkBackoff (fun e => Some (100 * 2 ^ e)) 150.

Definition patient : GitRetryPolicy := mkPolicy 5 doubling (Some 1000) (Some 400).

Lemma retry_git_spec_witness :
  (exists attempts, retry_git (fun t => t) flaky patient None "git fetch" = Report "done"%string attempts /\
     ga_began <$> attempts = [0; 150; 350]) /\
  retried_ok (fun t => t) flaky patient None "git fetch" (retry_git (fun t => t) flaky patient None "git fetch").
Proof.
  split; [eexists; by split|]. apply retry_git_spec. unfold policy_ok, patient, doubling. cbn.
  split; [intros ? [= <-]; lia|]. split; [|lia]. intros e d [= <-].
  pose proof (Z.pow_nonneg 2 e). lia.
Defined.
