(* ===== verification/Wire.v ===== *)
(** * Errors on the wire

    Models [crates/sandbox-driver-protocol/src/wire.rs]: the JSON-RPC envelope,
    the projection of a boundary error onto it and the reconstruction on the
    other side. Serde's derived reading of a detail object is modelled field by
    field on JSON values: extra fields are ignored, a missing [Option] reads as
    [None], [serde(default)] fields have their default, and a [null] in an
    [Option] is [None]. Base64 is an external library: an interface with its
    round-trip law. The rendering of an error to its message is a parameter. *)

From S2P Require Import Prelude Text Ids Exec Capabilities Errors.
From stdpp Require Import pretty.

#[local] Open Scope string_scope.
#[local] Open Scope list_scope.
#[local] Open Scope Z_scope.

Definition JSONRPC_VERSION := "2.0".
Definition CODE_APPLICATION : Z := -32000.
Definition CODE_INVALID_REQUEST : Z := -32600.
Definition CODE_METHOD_NOT_FOUND : Z := -32601.

Record WireErrorData := mkWireData { wd_report : ErrorReport; wd_detail : json }.
Record WireError := mkWireError { we_code : Z; we_message : string; we_data : option WireErrorData }.

Record Message := mkMessage {
  jsonrpc : string;
  msg_id : option Z;
  method : option string;
  params : option json;
  msg_result : option json;
  msg_error : option WireError;
}.

Definition request (id : Z) (m : string) (p : json) : Message :=
  mkMessage JSONRPC_VERSION (Some id) (Some m) (Some p) None None.
Definition notification (m : string) (p : json) : Message :=
  mkMessage JSONRPC_VERSION None (Some m) (Some p) None None.
Definition response (id : Z) (r : json) : Message :=
  mkMessage JSONRPC_VERSION (Some id) None None (Some r) None.
Definition error_response (id : Z) (e : WireError) : Message :=
  mkMessage JSONRPC_VERSION (Some id) None None None (Some e).

(** ** Enumerations by name *)

(** A [serde] enumeration with a [serde(other)] variant: every variant's name
    reads back as it. *)
Class SerdeEnum (A : Type) := {
  enum_name : A -> string;
  enum_read : string -> A;
  enum_read_name a : enum_read (enum_name a) = a;
}.

(** The variant a name names among [l], or [other]. *)
Definition read_among {A} (name : A -> string) (l : list A) (other : A) (s : string) : A :=
  match List.find (fun a => bool_decide (name a = s)) l with Some a => a | None => other end.

Definition resource_name (r : ResourceKind) : string :=
  match r with
  | RkSandbox => "sandbox" | RkSnapshot => "snapshot" | RkVolume => "volume"
  | RkPlugin => "plugin" | RkFile => "file" | RkUnknown => "unknown"
  end.

Definition state_name (s : SandboxState) : string :=
  match s with
  | StCreating => "creating" | StStarting => "starting" | StRunning => "running"
  | StStopping => "stopping" | StStopped => "stopped" | StPausing => "pausing"
  | StPaused => "paused" | StResuming => "resuming" | StArchiving => "archiving"
  | StArchived => "archived" | StRestoring => "restoring" | StResizing => "resizing"
  | StForking => "forking" | StSnapshotting => "snapshotting" | StDeleting => "deleting"
  | StDeleted => "deleted" | StError => "error" | StUnknown => "unknown"
  end.

Definition action_name (a : Action) : string :=
  match a with
  | ActCreate => "create" | ActAttach => "attach" | ActStart => "start" | ActStop => "stop"
  | ActDelete => "delete" | ActActivate => "activate" | ActDeactivate => "deactivate"
  | ActPause => "pause" | ActResume => "resume" | ActArchive => "archive" | ActFork => "fork"
  | ActResize => "resize" | ActSnapshot => "snapshot" | ActRecover => "recover"
  | ActUndelete => "undelete" | ActRefreshActivity => "refresh_activity"
  | ActSetTimers => "set_timers" | ActSetLabels => "set_labels"
  | ActUpdateNetwork => "update_network" | ActUnknown => "unknown"
  end.

Definition termination_name (t : Termination) : string :=
  match t with
  | Exited => "exited" | TimedOut => "timed_out" | Cancelled => "cancelled"
  | Killed => "killed" | Exec.Unknown => "unknown"
  end.

Definition git_kind_name (k : GitFailureKind) : string :=
  match k with
  | AuthRejected => "auth_rejected" | RemoteUnavailable => "remote_unavailable"
  | RefNotFound => "ref_not_found" | AccessDenied => "access_denied"
  | TargetExists => "target_exists" | GitUnavailable => "git_unavailable"
  | Unclassified => "unclassified"
  end.

#[export] Program Instance capability_serde : SerdeEnum Capability := {
  enum_name := capability_name;
  enum_read := parse_capability;
}.
Next Obligation. by intros []. Qed.

#[export] Program Instance resource_serde : SerdeEnum ResourceKind := {
  enum_name := resource_name;
  enum_read := read_among resource_name [RkSandbox; RkSnapshot; RkVolume; RkPlugin; RkFile] RkUnknown;
}.
Next Obligation. by intros []. Qed.

#[export] Program Instance state_serde : SerdeEnum SandboxState := {
  enum_name := state_name;
  enum_read := read_among state_name
    [StCreating; StStarting; StRunning; StStopping; StStopped; StPausing; StPaused; StResuming;
     StArchiving; StArchived; StRestoring; StResizing; StForking; StSnapshotting; StDeleting;
     StDeleted; StError] StUnknown;
}.
Next Obligation. by intros []. Qed.

(** [Action::Snapshot] also reads from its older name. *)
#[export] Program Instance action_serde : SerdeEnum Action := {
  enum_name := action_name;
  enum_read s :=
    if bool_decide (s = "snapshot_sandbox") then ActSnapshot
    else read_among action_name
      [ActCreate; ActAttach; ActStart; ActStop; ActDelete; ActActivate; ActDeactivate; ActPause;
       ActResume; ActArchive; ActFork; ActResize; ActSnapshot; ActRecover; ActUndelete;
       ActRefreshActivity; ActSetTimers; ActSetLabels; ActUpdateNetwork] ActUnknown s;
}.
Next Obligation. by intros []. Qed.

#[export] Program Instance termination_serde : SerdeEnum Termination := {
  enum_name := termination_name;
  enum_read := read_among termination_name [Exited; TimedOut; Cancelled; Killed] Exec.Unknown;
}.
Next Obligation. by intros []. Qed.

#[export] Program Instance git_kind_serde : SerdeEnum GitFailureKind := {
  enum_name := git_kind_name;
  enum_read := read_among git_kind_name
    [AuthRejected; RemoteUnavailable; RefNotFound; AccessDenied; TargetExists; GitUnavailable] Unclassified;
}.
Next Obligation. by intros []. Qed.

(** ** Reading JSON *)

Definition fields_of (j : json) : option (list (string * json)) :=
  match j with JObj l => Some l | _ => None end.

Definition field (k : string) (j : json) : option json :=
  l ← fields_of j;
  snd <$> List.find (fun kv => String.eqb (fst kv) k) l.

Definition as_str (j : json) : option string := match j with JStr s => Some s | _ => None end.
Definition as_bool (j : json) : option bool := match j with JBool b => Some b | _ => None end.
Definition as_int (lo hi : Z) (j : json) : option Z :=
  match j with JNum n => if in_range lo hi n then Some n else None | _ => None end.
Definition as_u64 : json -> option Z := as_int 0 (u64_bound - 1).
Definition as_i32 : json -> option Z := as_int (- 2 ^ 31) (2 ^ 31 - 1).
Definition as_enum {A} `{SerdeEnum A} (j : json) : option A := enum_read <$> as_str j.

(** A required field, an [Option] field, and a [serde(default)] one. *)
Definition req {A} (k : string) (rd : json -> option A) (j : json) : option A := field k j ≫= rd.

Definition opt {A} (k : string) (rd : json -> option A) (j : json) : option (option A) :=
  match field k j with
  | None | Some JNull => Some None
  | Some v => Some <$> rd v
  end.

Definition defaulted {A} (k : string) (d : A) (rd : json -> option A) (j : json) : option A :=
  match field k j with None => Some d | Some v => rd v end.

Definition jopt {A} (f : A -> json) (o : option A) : json :=
  match o with Some a => f a | None => JNull end.

(** [skip_serializing_if = "Option::is_none"]. *)
Definition jskip {A} (k : string) (f : A -> json) (o : option A) : list (string * json) :=
  match o with Some a => [(k, f a)] | None => [] end.

Definition jenum {A} `{SerdeEnum A} (a : A) : json := JStr (enum_name a).

(** [Duration] in nanoseconds; serde writes whole seconds and the rest. *)
Definition NANOS : Z := 1000000000.
Definition jduration (d : Z) : json := JObj [("secs", JNum (d / NANOS)); ("nanos", JNum (d mod NANOS))].
Definition as_duration (j : json) : option Z :=
  secs ← req "secs" as_u64 j;
  nanos ← req "nanos" (as_int 0 (u32_bound - 1)) j;
  let d := secs * NANOS + nanos in
  if d <? u64_bound * NANOS then Some d else None.

Definition as_kind (j : json) : option string :=
  s ← as_str j;
  match try_new_provider_kind s with Ok k => Some k | Err _ => None end.

(** ** The projection *)

Class Base64 := {
  b64_encode : bytes -> string;
  b64_decode : string -> option bytes;
  b64_law bs : Forall is_u8 bs -> b64_decode (b64_encode bs) = Some bs;
}.

Section Wire.
Context `{Base64}.
Variable to_string : Error -> string.

Definition MILLI : Z := 1000000.

(** [exec_detail] as JSON. *)
Definition exec_detail (f : ExecFailure) : json :=
  JObj [("label", JStr (ef_label f));
        ("termination", jenum (ef_termination f));
        ("exit_code", jopt JNum (ef_exit_code f));
        ("stdout_b64", JStr (b64_encode (ef_stdout f)));
        ("stderr_b64", JStr (b64_encode (ef_stderr f)));
        ("duration_ms", jopt (fun d => JNum (Z.min (d / MILLI) (u64_bound - 1))) (ef_duration f))].

(** Reading an [ExecDetail]: the fields, with the outputs still in Base64. *)
Definition as_exec_detail (j : json)
    : option (string * Termination * option Z * string * string * option Z) :=
  label ← req "label" as_str j;
  termination ← req "termination" as_enum j;
  exit_code ← opt "exit_code" as_i32 j;
  stdout ← req "stdout_b64" as_str j;
  stderr ← req "stderr_b64" as_str j;
  duration_ms ← opt "duration_ms" as_u64 j;
  Some (label, termination, exit_code, stdout, stderr, duration_ms).

Definition exec_failure (d : string * Termination * option Z * string * string * option Z)
    : option ExecFailure :=
  let '(label, termination, exit_code, stdout_b64, stderr_b64, duration_ms) := d in
  match b64_decode stdout_b64, b64_decode stderr_b64 with
  | Some out, Some err =>
      Some (mkExecFailure label termination exit_code out err ((fun ms => ms * MILLI) <$> duration_ms))
  | _, _ => None
  end.

(** [provider_copy], serialized. *)
Definition provider_json (p : ProviderError) : json :=
  JObj [("provider", JStr (pe_provider p));
        ("code", jopt JStr (pe_code p));
        ("message", JStr (pe_message p));
        ("retryable", JBool (pe_retryable p));
        ("detail", jopt id (pe_detail p))].

Definition as_provider (j : json) : option ProviderError :=
  provider ← req "provider" as_kind j;
  code ← opt "code" as_str j;
  message ← req "message" as_str j;
  retry ← req "retryable" as_bool j;
  detail ← opt "detail" Some j;
  Some (mkProviderError provider code message retry detail []).

Definition incomplete_json (i : IncompleteOperation) : json :=
  JObj [("operation", JStr (io_operation i));
        ("output_abandoned", JBool (output_abandoned i));
        ("stop_acknowledged", JBool (stop_acknowledged i));
        ("termination_confirmed", JBool (termination_confirmed i));
        ("cleanup_confirmed", JBool (cleanup_confirmed i))].

Definition as_incomplete (j : json) : option IncompleteOperation :=
  operation ← req "operation" as_str j;
  a ← req "output_abandoned" as_bool j;
  s ← req "stop_acknowledged" as_bool j;
  t ← req "termination_confirmed" as_bool j;
  c ← req "cleanup_confirmed" as_bool j;
  Some (mkIncomplete operation a s t c).

Definition detail_of (e : Error) : json :=
  match e with
  | Incomplete outcome => JObj [("incomplete", incomplete_json outcome)]
  | Overloaded limit => JObj [("limit", JStr limit); ("not_started", JBool true)]
  | LimitExceededE limit max_bytes => JObj [("limit", JStr limit); ("max_bytes", JNum max_bytes)]
  | Unsupported capability => JObj [("capability", jenum capability)]
  | NotFound resource id | NotOwned resource id => JObj [("resource", jenum resource); ("id", JStr id)]
  | ReadOnly resource id action =>
      JObj [("resource", jenum resource); ("id", JStr id); ("action", jenum action)]
  | InvalidSpec field reason => JObj [("field", JStr field); ("reason", JStr reason)]
  | InvalidState current action => JObj [("current", jenum current); ("action", jenum action)]
  | Timeout operation elapsed => JObj [("operation", JStr operation); ("elapsed", jduration elapsed)]
  | Auth a => JObj [("auth", JObj [("provider", JStr (ae_provider a)); ("reason", JStr (ae_reason a))])]
  | RateLimited retry_after => JObj (jskip "retry_after" jduration retry_after)
  | Provider p => JObj [("provider", provider_json p)]
  | ExecE f => JObj [("exec", exec_detail f)]
  | GitE g =>
      JObj [("git", JObj ([("operation", JStr (gf_operation g)); ("kind", jenum (gf_kind g))] ++
                          jskip "exec" exec_detail (gf_output g) ++
                          jskip "provider" provider_json (gf_provider g)))]
  | Io context _ => JObj [("io_context", JStr context)]
  | Transport t => JObj [("transport_context", JStr (te_context t))]
  end.

Definition from_error (e : Error) : WireError :=
  let report := report_of to_string e in
  mkWireError CODE_APPLICATION (er_message report) (Some (mkWireData report (detail_of e))).

(** ** The reconstruction *)

(** [remote_cause] rebuilds the chain of messages it is given. *)
Fixpoint remote_cause (messages : list string) : list string :=
  match messages with [] => [] | m :: ms => m :: remote_cause ms end.

Definition with_source (p : ProviderError) (source : list string) : ProviderError :=
  mkProviderError (pe_provider p) (pe_code p) (pe_message p) (pe_retryable p) (pe_detail p) source.

Definition as_git (j : json) : option GitFailure :=
  operation ← req "operation" as_str j;
  kind ← req "kind" as_enum j;
  exec ← opt "exec" as_exec_detail j;
  provider ← opt "provider" as_provider j;
  let failure := classified operation kind provider in
  Some (match exec ≫= exec_failure with Some output => with_output failure output | None => failure end).

Definition REMOTE_IO_FAILURE := "remote I/O failure".

Definition typed_error (kind : string) (detail : json) (causes : list string) : option Error :=
  let named k := String.eqb kind k in
  if named "incomplete" then Incomplete <$> req "incomplete" as_incomplete detail
  else if named "overloaded" then
    limit ← req "limit" as_str detail;
    not_started ← defaulted "not_started" false as_bool detail;
    if not_started : bool then Some (Overloaded limit) else None
  else if named "limit_exceeded" then
    limit ← req "limit" as_str detail;
    max_bytes ← req "max_bytes" as_u64 detail;
    Some (LimitExceededE limit max_bytes)
  else if named "unsupported" then Unsupported <$> req "capability" as_enum detail
  else if named "not_found" then
    resource ← req "resource" as_enum detail; id ← req "id" as_str detail; Some (NotFound resource id)
  else if named "not_owned" then
    resource ← req "resource" as_enum detail; id ← req "id" as_str detail; Some (NotOwned resource id)
  else if named "read_only" then
    resource ← req "resource" as_enum detail; id ← req "id" as_str detail;
    action ← req "action" as_enum detail; Some (ReadOnly resource id action)
  else if named "invalid_spec" then
    field ← req "field" as_str detail; reason ← req "reason" as_str detail; Some (InvalidSpec field reason)
  else if named "invalid_state" then
    current ← req "current" as_enum detail; action ← req "action" as_enum detail;
    Some (InvalidState current action)
  else if named "timeout" then
    operation ← req "operation" as_str detail; elapsed ← req "elapsed" as_duration detail;
    Some (Timeout operation elapsed)
  else if named "auth" then
    auth ← field "auth" detail;
    provider ← req "provider" as_kind auth; reason ← req "reason" as_str auth;
    Some (Auth (mkAuthError provider reason (remote_cause causes)))
  else if named "rate_limited" then
    Some (RateLimited (default None (_ ← fields_of detail; opt "retry_after" as_duration detail)))
  else if named "provider" then
    p ← req "provider" as_provider detail; Some (Provider (with_source p (remote_cause causes)))
  else if named "exec" then
    d ← req "exec" as_exec_detail detail; ExecE <$> exec_failure d
  else if named "git" then GitE <$> req "git" as_git detail
  else if named "io" then
    context ← req "io_context" as_str detail;
    Some (Io context (match remote_cause causes with [] => [REMOTE_IO_FAILURE] | l => l end))
  else if named "transport" then
    context ← req "transport_context" as_str detail;
    Some (Transport (mkTransportError context (remote_cause causes)))
  else None.

Definition UNKNOWN_KIND := "plugin".

Definition into_error (w : WireError) : Error :=
  match we_data w with
  | None => Provider (mkProviderError UNKNOWN_KIND (Some (pretty (we_code w))) (we_message w) false None [])
  | Some data =>
      match typed_error (er_kind (wd_report data)) (wd_detail data) (er_causes (wd_report data)) with
      | Some e => e
      | None => Provider (mkProviderError UNKNOWN_KIND (Some (er_kind (wd_report data)))
                  (er_message (wd_report data)) (er_retryable (wd_report data)) None [])
      end
  end.

(** [str::parse] for [i64]. *)
Definition parse_i64 (s : string) : option Z :=
  match s with
  | String "-" digits =>
      if is_empty digits then None else Z.opp <$> parse_digits (2 ^ 63 + 1) 0 digits
  | _ => parse_uint (2 ^ 63) s
  end.

Definition is_method_not_found (e : Error) : bool :=
  match e with
  | Provider p => bool_decide (pe_code p ≫= parse_i64 = Some CODE_METHOD_NOT_FOUND)
  | _ => false
  end.

(** ** What survives the wire *)

(** A duration carried in whole milliseconds. *)
Definition remote_millis (d : Z) : Z := Z.min (d / MILLI) (u64_bound - 1) * MILLI.

Definition remote_exec (f : ExecFailure) : ExecFailure :=
  mkExecFailure (ef_label f) (ef_termination f) (ef_exit_code f) (ef_stdout f) (ef_stderr f)
    (remote_millis <$> ef_duration f).

(** A provider detail of [null] reads as no detail. *)
Definition remote_provider (p : ProviderError) : ProviderError :=
  mkProviderError (pe_provider p) (pe_code p) (pe_message p) (pe_retryable p)
    (match pe_detail p with Some JNull => None | d => d end) [].

(** The error the other side sees: everything but the full source chain, which
    is bounded, and the finer parts of a duration. *)
Definition remote (e : Error) : Error :=
  let causes := bound_causes (source_chain e) in
  match e with
  | Auth a => Auth (mkAuthError (ae_provider a) (ae_reason a) causes)
  | ExecE f => ExecE (remote_exec f)
  | GitE g =>
      GitE (mkGitFailure (gf_operation g) (gf_kind g) (remote_exec <$> gf_output g)
              (remote_provider <$> gf_provider g))
  | Provider p => Provider (with_source (remote_provider p) causes)
  | Transport t => Transport (mkTransportError (te_context t) causes)
  | Io context _ => Io context (match causes with [] => [REMOTE_IO_FAILURE] | l => l end)
  | e => e
  end.

(** Values the Rust types allow. *)
Definition wf_duration (d : Z) : Prop := 0 <= d < u64_bound * NANOS.
Definition wf_kind (k : string) : Prop := label 64 k.
Definition wf_exec (f : ExecFailure) : Prop :=
  Forall is_u8 (ef_stdout f) /\ Forall is_u8 (ef_stderr f) /\
  (forall c, ef_exit_code f = Some c -> - 2 ^ 31 <= c <= 2 ^ 31 - 1) /\
  (forall d, ef_duration f = Some d -> wf_duration d).

Definition wf_error (e : Error) : Prop :=
  match e with
  | LimitExceededE _ m => 0 <= m <= u64_bound - 1
  | Timeout _ d => wf_duration d
  | RateLimited r => forall d, r = Some d -> wf_duration d
  | Auth a => wf_kind (ae_provider a)
  | Provider p => wf_kind (pe_provider p)
  | ExecE f => wf_exec f
  | GitE g => (forall f, gf_output g = Some f -> wf_exec f) /\
              (forall p, gf_provider g = Some p -> wf_kind (pe_provider p))
  | _ => True
  end.

Lemma as_enum_jenum {A} `{SerdeEnum A} (a : A) : as_enum (jenum a) = Some a.
Proof. unfold as_enum, jenum. cbn. by rewrite enum_read_name. Qed.

Lemma as_int_ok lo hi n : lo <= n <= hi -> as_int lo hi (JNum n) = Some n.
Proof.
  intros Hn. unfold as_int, in_range.
  replace (lo <=? n) with true by (symmetry; apply Z.leb_le; lia).
  by replace (n <=? hi) with true by (symmetry; apply Z.leb_le; lia).
Qed.

Lemma as_duration_ok d : wf_duration d -> as_duration (jduration d) = Some d.
Proof.
  intros [H0 Hd]. unfold as_duration, jduration.
  assert (0 < NANOS) as Hn by done.
  assert (0 <= d / NANOS <= u64_bound - 1) as Hs.
  { split; [by apply Z.div_pos|]. apply Z.lt_le_pred. apply Z.div_lt_upper_bound; lia. }
  pose proof (Z.mod_pos_bound d NANOS Hn) as Hm.
  cbn -[as_int NANOS u64_bound Z.div Z.modulo Z.mul]. unfold as_u64.
  rewrite (as_int_ok 0 (u64_bound - 1)) by done. cbn -[as_int NANOS u64_bound Z.div Z.modulo Z.mul].
  rewrite as_int_ok by (unfold NANOS, u32_bound in *; lia).
  cbn -[NANOS u64_bound Z.div Z.modulo Z.mul].
  replace (d / NANOS * NANOS + d mod NANOS) with d by (pose proof (Z.div_mod d NANOS ltac:(lia)); lia).
  by replace (d <? u64_bound * NANOS) with true by (symmetry; apply Z.ltb_lt; lia).
Qed.

Lemma as_kind_ok k : wf_kind k -> as_kind (JStr k) = Some k.
Proof.
  intros Hk. unfold as_kind. cbn. unfold try_new_provider_kind, validate_kind.
  apply (validate_label_spec "provider kind") in Hk. by destruct (validate_label _ _ _).
Qed.

Lemma as_exec_detail_ok f : wf_exec f ->
  as_exec_detail (exec_detail f) ≫= exec_failure = Some (remote_exec f).
Proof.
  intros (Ho & He & Hc & Hd). unfold as_exec_detail, exec_detail.
  assert (opt "exit_code" as_i32 (JObj [("exit_code", jopt JNum (ef_exit_code f))]) = Some (ef_exit_code f)) as E1.
  { destruct (ef_exit_code f) as [c|]; [|done]. cbn -[as_int]. unfold as_i32.
    rewrite as_int_ok; [done|auto]. }
  assert (opt "duration_ms" as_u64 (JObj [("duration_ms",
            jopt (fun d => JNum (Z.min (d / MILLI) (u64_bound - 1))) (ef_duration f))]) =
          Some ((fun d => Z.min (d / MILLI) (u64_bound - 1)) <$> ef_duration f)) as E2.
  { destruct (ef_duration f) as [d|]; [|done]. cbn -[as_int Z.min Z.div u64_bound]. unfold as_u64.
    rewrite as_int_ok; [done|]. destruct (Hd d eq_refl) as [H0 _].
    assert (0 <= d / MILLI) by (apply Z.div_pos; [done|done]). unfold u64_bound. lia. }
  unfold opt in *. cbn -[as_int as_enum jenum Z.min Z.div u64_bound] in *.
  rewrite as_enum_jenum. cbn -[as_int Z.min Z.div u64_bound]. rewrite E1. cbn -[as_int Z.min Z.div u64_bound].
  rewrite E2. cbn -[Z.min Z.div u64_bound]. rewrite !b64_law by done.
  unfold remote_exec. do 2 f_equal. by destruct (ef_duration f).
Qed.

Lemma as_exec_detail_some f : wf_exec f -> is_Some (as_exec_detail (exec_detail f)).
Proof.
  intros Hf. pose proof (as_exec_detail_ok f Hf) as H'.
  destruct (as_exec_detail _); [eauto|done].
Qed.

Lemma as_provider_ok p : wf_kind (pe_provider p) -> as_provider (provider_json p) = Some (remote_provider p).
Proof.
  intros Hk. unfold as_provider, provider_json. cbn -[as_kind]. rewrite as_kind_ok by done.
  cbn. unfold opt. cbn. unfold remote_provider.
  destruct (pe_code p); cbn; destruct (pe_detail p) as [[]|]; cbn; done.
Qed.

Lemma remote_cause_id l : remote_cause l = l.
Proof. induction l as [|m l IH]; cbn; [done|by rewrite IH]. Qed.

(** A field whose reader is known on its value. *)
Lemma req_here {A} k (v : json) (rd : json -> option A) l : req k rd (JObj ((k, v) :: l)) = rd v.
Proof. unfold req, field. cbn. by rewrite String.eqb_refl. Qed.

Lemma opt_reads {A} (rd : json -> option A) (f : A -> json) (a : A) k l :
  rd (f a) = Some a -> f a <> JNull -> opt k rd (JObj ((k, f a) :: l)) = Some (Some a).
Proof.
  intros Hr Hn. unfold opt, field. cbn. rewrite String.eqb_refl. cbn.
  destruct (f a); rewrite ?Hr; done.
Qed.

Lemma as_git_ok g : wf_error (GitE g) ->
  as_git (JObj (("operation", JStr (gf_operation g)) :: ("kind", jenum (gf_kind g)) ::
                jskip "exec" exec_detail (gf_output g) ++ jskip "provider" provider_json (gf_provider g)))
  = Some (mkGitFailure (gf_operation g) (gf_kind g) (remote_exec <$> gf_output g)
            (remote_provider <$> gf_provider g)).
Proof.
  intros [Ho Hp]. unfold as_git. cbn [app]. rewrite req_here. cbn -[as_exec_detail as_provider as_enum jenum].
  unfold req, opt. cbn -[as_exec_detail as_provider as_enum jenum exec_detail provider_json].
  rewrite as_enum_jenum. cbn -[as_exec_detail as_provider exec_detail provider_json].
  destruct (gf_output g) as [f|], (gf_provider g) as [p|]; cbn -[as_exec_detail as_provider exec_detail provider_json].
  - destruct (as_exec_detail_some f (Ho _ eq_refl)) as [x Hx]. unfold exec_detail at 1.
    fold (exec_detail f). rewrite Hx. cbn -[as_provider provider_json]. unfold provider_json at 1.
    fold (provider_json p). rewrite as_provider_ok by auto. cbn.
    pose proof (as_exec_detail_ok f (Ho _ eq_refl)) as Hok. rewrite Hx in Hok. cbn in Hok. by rewrite Hok.
  - destruct (as_exec_detail_some f (Ho _ eq_refl)) as [x Hx]. unfold exec_detail at 1.
    fold (exec_detail f). rewrite Hx. cbn.
    pose proof (as_exec_detail_ok f (Ho _ eq_refl)) as Hok. rewrite Hx in Hok. cbn in Hok. by rewrite Hok.
  - unfold provider_json at 1. fold (provider_json p). by rewrite as_provider_ok by auto.
  - done.
Qed.

Lemma typed_error_detail e causes : wf_error e -> causes = bound_causes (source_chain e) ->
  typed_error (report_kind e) (detail_of e) causes = Some (remote e).
Proof.
  intros Hwf ->. destruct e as [r id|r id|r id a|c|s a|f rs|op d|a|ra|l|l m|f|g|p|t|i|ctx src];
    unfold typed_error;
    cbn -[as_enum jenum as_int as_duration jduration as_kind as_exec_detail exec_detail as_provider
          provider_json as_git bound_causes remote_cause u64_bound jskip opt];
    rewrite ?as_enum_jenum, ?remote_cause_id;
    cbn -[as_enum jenum as_int as_duration jduration as_kind as_exec_detail exec_detail as_provider
          provider_json as_git bound_causes u64_bound jskip opt];
    rewrite ?as_enum_jenum; try done.
  - by rewrite as_duration_ok.
  - cbn in Hwf. by rewrite as_kind_ok.
  - destruct ra as [d|]; [|done]. cbn in Hwf.
    unfold jskip. rewrite (opt_reads as_duration jduration d); [done| |done]. by apply as_duration_ok, Hwf.
  - unfold as_u64. by rewrite as_int_ok.
  - destruct (as_exec_detail_some f Hwf) as [x Hx]. rewrite Hx. cbn.
    pose proof (as_exec_detail_ok f Hwf) as Hok. rewrite Hx in Hok. cbn in Hok. by rewrite Hok.
  - by rewrite as_git_ok.
  - by rewrite as_provider_ok.
  - by destruct i.
  - by destruct (bound_causes src).
Qed.

(** *** The bound is stable *)

Lemma get_app_r (t e : string) k : String.get (String.length t + k) (t +:+ e) = String.get k e.
Proof. induction t as [|a t IH]; cbn; [done|exact IH]. Qed.

Lemma length_substring0 n s : (n <= String.length s)%nat -> String.length (String.substring 0 n s) = n.
Proof.
  revert n. induction s as [|a s IH]; intros [|n] Hn; cbn in *; [done|lia|done|].
  by rewrite IH by lia.
Qed.

Lemma substring0_app (t e : string) : String.substring 0 (String.length t) (t +:+ e) = t.
Proof.
  induction t as [|a t IH]; cbn; [by destruct e|]. by rewrite IH.
Qed.

Lemma boundary_before_le s i : (boundary_before s i <= i)%nat.
Proof.
  induction i as [|i IH]; cbn [boundary_before]; destruct (is_char_boundary _ _); lia.
Qed.

(** Walking back into an ellipsis stops at its start. *)
Lemma boundary_ellipsis t k : (k < 3)%nat ->
  boundary_before (t +:+ ELLIPSIS) (String.length t + k) = String.length t.
Proof.
  assert (forall j, is_char_boundary (t +:+ ELLIPSIS) (String.length t + j) =
            match (String.length t + j)%nat with
            | O => true
            | _ => match String.get j ELLIPSIS with
                   | Some a => negb (in_range 0x80 0xbf (code a))
                   | None => (String.length t + j =? String.length (t +:+ ELLIPSIS))%nat
                   end
            end) as Hb.
  { intros j. unfold is_char_boundary. rewrite get_app_r. by destruct (String.length t + j)%nat. }
  assert (boundary_before (t +:+ ELLIPSIS) (String.length t) = String.length t) as H0.
  { pose proof (Hb 0%nat) as E. rewrite Nat.add_0_r in E.
    destruct (String.length t) as [|n]; cbn [boundary_before]; [done|by rewrite E]. }
  intros Hk. destruct k as [|[|[|k]]]; [by rewrite Nat.add_0_r| | |lia].
  - rewrite Nat.add_1_r. cbn [boundary_before]. pose proof (Hb 1%nat) as E. rewrite Nat.add_1_r in E.
    rewrite E. cbn -[boundary_before]. done.
  - replace (String.length t + 2)%nat with (S (S (String.length t))) by lia. cbn [boundary_before].
    pose proof (Hb 2%nat) as E2. pose proof (Hb 1%nat) as E1.
    replace (String.length t + 2)%nat with (S (S (String.length t))) in E2 by lia.
    rewrite Nat.add_1_r in E1. rewrite E2, E1. cbn -[boundary_before]. done.
Qed.

Lemma bound_cause_idem text : bound_cause (bound_cause text) = bound_cause text.
Proof.
  unfold bound_cause at 2 3. destruct (Nat.ltb_spec MAX_CAUSE_CHARS (String.length text)) as [Hl|Hl].
  - pose proof (boundary_before_le text MAX_CAUSE_CHARS) as Hle.
    set (n := boundary_before text MAX_CAUSE_CHARS) in *.
    assert (String.length (String.substring 0 n text) = n) as Hn by (apply length_substring0; lia).
    set (t := String.substring 0 n text) in *.
    unfold bound_cause. destruct (Nat.ltb_spec MAX_CAUSE_CHARS (String.length (t +:+ ELLIPSIS))) as [Hl2|]; [|done].
    rewrite length_string_app in Hl2. change (String.length ELLIPSIS) with 3%nat in Hl2.
    replace MAX_CAUSE_CHARS with (String.length t + (MAX_CAUSE_CHARS - n))%nat by lia.
    rewrite boundary_ellipsis by lia. by rewrite substring0_app.
  - unfold bound_cause. by destruct (Nat.ltb_spec MAX_CAUSE_CHARS (String.length text)); [lia|].
Qed.

Lemma bound_causes_idem l : bound_causes (bound_causes l) = bound_causes l.
Proof.
  unfold bound_causes. rewrite <- fmap_take, take_take, Nat.min_id, <- list_fmap_compose.
  apply list_fmap_ext. intros i x _. apply bound_cause_idem.
Qed.

Lemma remote_exec_idem f : remote_exec (remote_exec f) = remote_exec f.
Proof.
  unfold remote_exec. cbn. f_equal. destruct (ef_duration f) as [d|]; cbn; [|done]. f_equal.
  unfold remote_millis. rewrite Z.div_mul by done. by rewrite <- Z.min_assoc, Z.min_id.
Qed.

Lemma remote_provider_idem p : remote_provider (remote_provider p) = remote_provider p.
Proof. unfold remote_provider. cbn. f_equal. by destruct (pe_detail p) as [[]|]. Qed.

Lemma bound_causes_nil l : bound_causes l = [] -> l = [].
Proof. by destruct l. Qed.

Lemma remote_idem e : remote (remote e) = remote e.
Proof.
  destruct e as [r id|r id|r id a|c|s a|f rs|op d|a|ra|l|l m|f|g|p|t|i|ctx src]; cbn [remote]; try done.
  - cbn. by rewrite bound_causes_idem.
  - by rewrite remote_exec_idem.
  - cbn. do 2 f_equal; [destruct (gf_output g)|destruct (gf_provider g)]; cbn; try done;
      by rewrite ?remote_exec_idem, ?remote_provider_idem.
  - cbn. rewrite bound_causes_idem. f_equal.
    unfold with_source, remote_provider. cbn. f_equal. by destruct (pe_detail p) as [[]|].
  - cbn. by rewrite bound_causes_idem.
  - cbn [source_chain]. destruct (bound_causes src) as [|c cs] eqn:Hs; [done|].
    rewrite <- Hs, bound_causes_idem, Hs. done.
Qed.

(** C6. A typed error crosses the wire as itself: the other side rebuilds the
    same variant with every field of it, the source chain bounded to eight
    causes of about 500 bytes and an exec duration in whole milliseconds. A
    second crossing, through a relay, changes nothing more, and the report's
    kind and retryability stay what they were. *)
Theorem wire_roundtrip e : wf_error e ->
  into_error (from_error e) = remote e /\
  remote (remote e) = remote e /\
  report_kind (remote e) = report_kind e /\ retryable (remote e) = retryable e.
Proof.
  intros Hwf. split; [|split; [apply remote_idem|by destruct e]].
  unfold into_error, from_error. cbn -[typed_error detail_of remote].
  by rewrite typed_error_detail.
Qed.

(** What this side cannot type is not lost: an envelope without data keeps
    its JSON-RPC code, so a method an older peer lacks is recognised; a kind
    this version does not know keeps the kind, the message and whether a retry
    can help; a rate limit is one even with a malformed detail; and admission
    refused is read as such only when the peer says nothing was started. *)
Theorem wire_fallback :
  (forall message, is_method_not_found (into_error (mkWireError CODE_METHOD_NOT_FOUND message None)) = true) /\
  (forall code message report detail,
     typed_error (er_kind report) detail (er_causes report) = None ->
     retryable (into_error (mkWireError code message (Some (mkWireData report detail)))) = er_retryable report /\
     exists p, into_error (mkWireError code message (Some (mkWireData report detail))) = Provider p /\
       pe_code p = Some (er_kind report) /\ pe_message p = er_message report) /\
  (forall detail causes, exists after, typed_error "rate_limited" detail causes = Some (RateLimited after)) /\
  (forall limit causes, typed_error "overloaded" (JObj [("limit", JStr limit)]) causes = None).
Proof.
  split; [intros message; vm_compute; reflexivity|]. split; [|split].
  - intros code message report detail Ht. unfold into_error. cbn [we_data wd_report wd_detail].
    rewrite Ht. cbn. eauto.
  - intros detail causes. unfold typed_error. cbn -[fields_of opt]. eauto.
  - done.
Qed.
End Wire.

#[local] Instance plain_base64 : Base64 :=
  { b64_encode := of_bytes; b64_decode s := Some (to_bytes s);
    b64_law bs H := f_equal Some (to_of_bytes bs H) }.

Lemma wire_roundtrip_witness :
  let e := ExecE (mkExecFailure "probe" Exited (Some 127) [111; 107] [] (Some 1500000)) in
  into_error (from_error (fun _ => "probe failed") e) =
    ExecE (mkExecFailure "probe" Exited (Some 127) [111; 107] [] (Some 1000000)) /\
  report_kind (remote e) = "exec".
Proof.
  cbv zeta. split.
  - apply (wire_roundtrip (fun _ => "probe failed")
      (ExecE (mkExecFailure "probe" Exited (Some 127) [111; 107] [] (Some 1500000)))).
    split; [repeat constructor; lia|]. split; [constructor|].
    split; [intros c [= <-]; lia|intros d [= <-]; unfold wf_duration, u64_bound, NANOS; lia].
  - reflexivity.
Defined.

Lemma wire_fallback_witness :
  retryable (into_error (mkWireError (-32000) "full" (Some (mkWireData
    (mkReport "quota_exhausted" "full" true []) JNull)))) = true.
Proof. apply (proj1 (proj2 wire_fallback)). reflexivity. Defined.
