(* ===== verification/GitParse.v ===== *)
(** * Reading git's output

    Models [crates/sandbox-driver/src/derived/git/parse.rs]: the parsers of raw
    diffs, numstats, logs, object batches and porcelain v2 statuses. Outputs are
    byte buffers; fields are decoded lossily, as in the source. Sizes and
    positions are unbounded here: they index a buffer in memory. The detail of a
    [malformed] error is a constructor instead of a message. *)

From S2P Require Import Prelude Text Errors.

#[local] Open Scope string_scope.
#[local] Open Scope list_scope.
#[local] Open Scope Z_scope.

Inductive malformed_detail :=
  | UnexpectedEntry (header : string)
  | ShortHeader (header : string)
  | EntryWithoutPath
  | RenameWithoutOldPath
  | RenameWithoutNewPath
  | ShortEntry (entry : string)
  | BadCount (text : string)
  | ShortRecord (record : string)
  | BadSize (line : string)
  | BadHeader (line : string)
  | StreamEnds (missing_after : nat) (size : Z)
  | CountMismatch (answered requested : nat).

(** [malformed]: the tool whose output did not parse, and why. *)
Record parse_error := malformed { what : string; why_ : malformed_detail }.

Definition lossy (bs : bytes) : string := from_utf8_lossy bs.

Inductive GitChange := Added | Copied | Deleted | Modified | Renamed | TypeChanged | Unmerged | ChangeUnknown.

#[export] Instance GitChange_eq_dec : EqDecision GitChange.
Proof. solve_decision. Defined.

Record GitDiffEntry := mkDiff {
  change : GitChange;
  path : string;
  old_path : option string;
  old_mode : option string;
  new_mode : option string;
  old_blob : option string;
  new_blob : option string;
  similarity : option Z;
}.

Record GitNumstat := mkNumstat {
  ns_path : string;
  ns_old_path : option string;
  additions : option Z;
  deletions : option Z;
}.

Record GitIdentity := mkIdentity { ident_name : string; ident_email : string; ident_date : string }.

Record GitCommit := mkCommit {
  sha : string;
  tree : string;
  parents : list string;
  author : GitIdentity;
  committer : GitIdentity;
  message : string;
}.

Record GitStatus := mkStatus {
  current_branch : option string;
  head_oid : option string;
  detached : bool;
  ahead : Z;
  behind : Z;
  dirty_paths : list string;
}.

Definition present (value : string) : option string :=
  if negb (is_empty value) && negb (all_chars (Ascii.eqb "0") value) then Some value else None.

(** The change a status field names, and its score. *)
Definition change_of (status : string) : GitChange * option Z :=
  match status with
  | String "A" _ => (Added, None)
  | String "C" score => (Copied, parse_uint 256 score)
  | String "D" _ => (Deleted, None)
  | String "M" _ => (Modified, None)
  | String "R" score => (Renamed, parse_uint 256 score)
  | String "T" _ => (TypeChanged, None)
  | String "U" _ => (Unmerged, None)
  | _ => (ChangeUnknown, None)
  end.

Definition two_paths (c : GitChange) : bool :=
  match c with Renamed | Copied => true | _ => false end.

(** The header of an entry, without its colon. *)
Definition raw_header (rest : string) : option (GitChange * option Z * (string -> option string -> GitDiffEntry)) :=
  match split " " rest with
  | [old_mode; new_mode; old_blob; new_blob; status] =>
      let '(c, sim) := change_of status in
      Some (c, sim, fun p op =>
        mkDiff c p op (present old_mode) (present new_mode) (present old_blob) (present new_blob) sim)
  | _ => None
  end.

Definition RAW := "git diff --raw".

Fixpoint raw_entries (fields : list bytes) : result (list GitDiffEntry) parse_error :=
  match fields with
  | [] => Ok []
  | [] :: fields => raw_entries fields
  | header :: fields =>
      let header := lossy header in
      match strip_prefix ":" header with
      | None => Err (malformed RAW (UnexpectedEntry header))
      | Some rest =>
          match raw_header rest with
          | None => Err (malformed RAW (ShortHeader header))
          | Some (c, _, entry) =>
              match fields with
              | [] => Err (malformed RAW EntryWithoutPath)
              | first :: fields =>
                  if two_paths c then
                    match fields with
                    | [] => Err (malformed RAW RenameWithoutNewPath)
                    | second :: fields =>
                        let? entries := raw_entries fields in
                        Ok (entry (lossy second) (Some (lossy first)) :: entries)
                    end
                  else
                    let? entries := raw_entries fields in
                    Ok (entry (lossy first) None :: entries)
              end
          end
      end
  end.

Definition parse_raw_diff (output : bytes) : result (list GitDiffEntry) parse_error :=
  raw_entries (split_bytes 0 output).

Definition NUMSTAT := "git diff --numstat".

Definition count (text : string) : result (option Z) parse_error :=
  if String.eqb text "-" then Ok None
  else match parse_uint u64_bound text with
       | Some n => Ok (Some n)
       | None => Err (malformed NUMSTAT (BadCount text))
       end.

Fixpoint numstat_entries (fields : list bytes) : result (list GitNumstat) parse_error :=
  match fields with
  | [] => Ok []
  | [] :: fields => numstat_entries fields
  | entry :: fields =>
      let entry := lossy entry in
      match splitn 3 "009" entry with
      | added :: removed :: p :: _ =>
          let finish old p fields' (entries : list bytes -> result (list GitNumstat) parse_error) :=
            let? additions := count added in
            let? deletions := count removed in
            let? rest := entries fields' in
            Ok (mkNumstat p old additions deletions :: rest) in
          if is_empty p then
            match fields with
            | [] => Err (malformed NUMSTAT RenameWithoutOldPath)
            | [_] => Err (malformed NUMSTAT RenameWithoutNewPath)
            | old :: new :: fields => finish (Some (lossy old)) (lossy new) fields numstat_entries
            end
          else finish None p fields numstat_entries
      | _ => Err (malformed NUMSTAT (ShortEntry entry))
      end
  end.

Definition parse_numstat (output : bytes) : result (list GitNumstat) parse_error :=
  numstat_entries (split_bytes 0 output).

(** The separators of the log format. *)
Definition US : ascii := "031".
Definition RS : ascii := "030".
Definition LF : ascii := "010".

Fixpoint log_records (records : list string) : result (list GitCommit) parse_error :=
  match records with
  | [] => Ok []
  | record :: records =>
      let record := trim_start_char LF record in
      if is_blank record then log_records records
      else match splitn 10 US record with
           | [sha; tree; parents; an; ae; ad; cn; ce; cd; message] =>
               let? rest := log_records records in
               Ok (mkCommit sha tree (split_whitespace parents) (mkIdentity an ae ad)
                     (mkIdentity cn ce cd) (trim_end_char LF message) :: rest)
           | _ => Err (malformed "git log" (ShortRecord record))
           end
  end.

Definition parse_log (output : string) : result (list GitCommit) parse_error :=
  log_records (split RS output).

(** [batch_header]: [None] for a missing object, else its size. *)
Definition batch_header (line : string) : result (option Z) parse_error :=
  match split " " line with
  | _ :: kind :: [] =>
      if String.eqb kind "missing" then Ok None else Err (malformed "git cat-file" (BadHeader line))
  | _ :: kind :: size :: _ =>
      match parse_uint u64_bound size with
      | Some n => Ok (Some n)
      | None => Err (malformed "git cat-file" (BadSize line))
      end
  | _ => Err (malformed "git cat-file" (BadHeader line))
  end.

(** The loop over a batch: [blobs] is how many objects were answered, [count]
    how many are still wanted, [output] what is left of the stream. Every turn
    answers one object. *)
Fixpoint batch_loop (count : nat) (output : bytes) (max_bytes : Z)
    : result (list (option bytes)) parse_error :=
  match count, output with
  | O, _ | _, [] => Ok []
  | S count, _ =>
      match cut 10 output with
      | None => Ok []
      | Some (header, rest) =>
          let? size := batch_header (lossy header) in
          match size with
          | None => let? blobs := batch_loop count rest max_bytes in Ok (None :: blobs)
          | Some size =>
              if Z.of_nat (length rest) <? size
              then Err (malformed "git cat-file" (StreamEnds (length rest) size))
              else
                let blob := take (Z.to_nat size) rest in
                let after := drop (Z.to_nat size) rest in
                let after := match after with 10 :: after => after | _ => after end in
                let? blobs := batch_loop count after max_bytes in
                Ok ((if size <=? max_bytes then Some blob else None) :: blobs)
          end
      end
  end.

Definition count_mismatch (what : string) (answered requested : nat) : parse_error :=
  malformed what (CountMismatch answered requested).

Definition parse_batch (output : bytes) (count : nat) (max_bytes : Z)
    : result (list (option bytes)) parse_error :=
  let? blobs := batch_loop count output max_bytes in
  if (length blobs =? count)%nat then Ok blobs
  else Err (count_mismatch "git cat-file" (length blobs) count).

Definition path_after_fields (fields : string) (count : nat) : option string :=
  splitn count " " fields !! (count - 1)%nat.

Definition set_head (s : GitStatus) (v : option string) : GitStatus :=
  mkStatus (current_branch s) v (detached s) (ahead s) (behind s) (dirty_paths s).
Definition set_detached (s : GitStatus) : GitStatus :=
  mkStatus (current_branch s) (head_oid s) true (ahead s) (behind s) (dirty_paths s).
Definition set_branch (s : GitStatus) (v : string) : GitStatus :=
  mkStatus (Some v) (head_oid s) (detached s) (ahead s) (behind s) (dirty_paths s).
Definition set_ahead (s : GitStatus) (v : Z) : GitStatus :=
  mkStatus (current_branch s) (head_oid s) (detached s) v (behind s) (dirty_paths s).
Definition set_behind (s : GitStatus) (v : Z) : GitStatus :=
  mkStatus (current_branch s) (head_oid s) (detached s) (ahead s) v (dirty_paths s).
Definition add_dirty (s : GitStatus) (p : option string) : GitStatus :=
  mkStatus (current_branch s) (head_oid s) (detached s) (ahead s) (behind s)
    (dirty_paths s ++ match p with Some p => [p] | None => [] end).

Definition branch_ab (s : GitStatus) (part : string) : GitStatus :=
  match strip_prefix "+" part with
  | Some n => set_ahead s (default 0 (parse_uint u32_bound n))
  | None =>
      match strip_prefix "-" part with
      | Some n => set_behind s (default 0 (parse_uint u32_bound n))
      | None => s
      end
  end.

Definition parse_branch_header (header : string) (s : GitStatus) : GitStatus :=
  match split_once " " header with
  | Some (key, value) =>
      if String.eqb key "branch.oid" then
        set_head s (if String.eqb value "(initial)" then None else Some value)
      else if String.eqb key "branch.head" then
        if String.eqb value "(detached)" then set_detached s else set_branch s value
      else if String.eqb key "branch.ab" then foldl branch_ab s (split_whitespace value)
      else s
  | None => s
  end.

Definition clean_status : GitStatus := mkStatus None None false 0 0 [].

Fixpoint status_entries (entries : list string) (s : GitStatus) : GitStatus :=
  match entries with
  | [] => s
  | entry :: entries =>
      match split_once " " entry with
      | Some (marker, fields) =>
          if String.eqb marker "#" then status_entries entries (parse_branch_header fields s)
          else if String.eqb marker "1" then
            status_entries entries (add_dirty s (path_after_fields fields 8))
          else if String.eqb marker "2" then
            match entries with
            | _ :: entries => status_entries entries (add_dirty s (path_after_fields fields 9))
            | [] => add_dirty s (path_after_fields fields 9)
            end
          else if String.eqb marker "u" then
            status_entries entries (add_dirty s (path_after_fields fields 10))
          else if String.eqb marker "?" then status_entries entries (add_dirty s (Some fields))
          else status_entries entries s
      | None => status_entries entries s
      end
  end.

Definition NUL : ascii := "000".

Definition parse_status_v2 (output : string) : GitStatus :=
  status_entries (split NUL output) clean_status.

(** ** What git writes, and that it is read back *)

(** Text without a separator: ASCII, no space, no control character. *)
Definition plain_char (a : ascii) : bool := in_range 0x21 0x7e (code a).
Definition plain (s : string) : Prop := all_chars plain_char s = true.

Lemma plain_not a b : plain_char a = true -> plain_char b = false -> negb (Ascii.eqb b a) = true.
Proof. intros Ha Hb. destruct (Ascii.eqb_spec b a) as [->|]; [congruence|done]. Qed.

Lemma plain_free b s : plain_char b = false -> plain s -> all_chars (fun a => negb (Ascii.eqb b a)) s = true.
Proof. intros Hb. apply all_chars_impl. intros a Ha. by apply plain_not. Qed.

Lemma plain_app s1 s2 : plain (s1 +:+ s2) <-> plain s1 /\ plain s2.
Proof. unfold plain. by rewrite all_chars_app, andb_true_iff. Qed.

(** A string with none of the given byte. *)
Definition free_of (b : Z) (s : string) : Prop := all_chars (fun a => negb (code a =? b)) s = true.

Lemma free_of_bytes b s : free_of b s -> Forall (fun x => x <> b) (to_bytes s).
Proof.
  unfold free_of. induction s as [|a s IH]; cbn; [constructor|].
  intros [Ha%negb_true_iff%Z.eqb_neq Hs]%andb_true_iff. constructor; auto.
Qed.

Lemma plain_code a : plain_char a = true -> 0x21 <= code a <= 0x7e.
Proof. unfold plain_char, in_range. rewrite andb_true_iff, !Z.leb_le. done. Qed.

Lemma plain_free_of b s : ~ (0x21 <= b <= 0x7e) -> plain s -> free_of b s.
Proof.
  intros Hb. apply all_chars_impl. intros a Ha%plain_code. apply negb_true_iff, Z.eqb_neq. lia.
Qed.

Lemma plain_ascii s : plain s -> utf8 s.
Proof.
  intros Hs. apply ascii_utf8. revert Hs. apply all_chars_impl. intros a Ha%plain_code.
  apply Z.ltb_lt. lia.
Qed.

Lemma print_uint_plain n : 0 <= n -> plain (print_uint n).
Proof.
  intros Hn. apply digits_all; [|done|done]. intros d Hd. unfold plain_char.
  destruct (digit_code d Hd) as [-> _]. unfold in_range. apply andb_true_iff. split; apply Z.leb_le; lia.
Qed.

(** *** Raw diffs *)

Definition zeros (n : nat) : string := of_bytes (repeat 48 n).

Definition print_status (e : GitDiffEntry) : string :=
  let score := match similarity e with Some n => print_uint n | None => EmptyString end in
  match change e with
  | Added => "A" | Deleted => "D" | Modified => "M" | TypeChanged => "T" | Unmerged => "U"
  | Copied => "C" +:+ score | Renamed => "R" +:+ score
  | ChangeUnknown => "X"
  end.

Definition print_header (e : GitDiffEntry) : string :=
  ":" +:+ join " " [default (zeros 6) (old_mode e); default (zeros 6) (new_mode e);
                    default (zeros 40) (old_blob e); default (zeros 40) (new_blob e); print_status e].

Definition print_raw (e : GitDiffEntry) : bytes :=
  to_bytes (print_header e) ++ [0] ++
  match old_path e with Some p => to_bytes p ++ [0] | None => [] end ++
  to_bytes (path e) ++ [0].

(** A mode or blob as git prints it; a path is any UTF-8 without NUL. *)
Definition wf_field (o : option string) : Prop :=
  forall s, o = Some s -> plain s /\ present s = Some s.
Definition wf_path (s : string) : Prop := utf8 s /\ free_of 0 s.

Definition wf_entry (e : GitDiffEntry) : Prop :=
  wf_field (old_mode e) /\ wf_field (new_mode e) /\ wf_field (old_blob e) /\ wf_field (new_blob e) /\
  wf_path (path e) /\
  match old_path e with
  | Some p => two_paths (change e) = true /\ wf_path p
  | None => two_paths (change e) = false
  end /\
  match similarity e with
  | Some n => two_paths (change e) = true /\ 0 <= n < 256
  | None => True
  end.

Lemma present_field o n : wf_field o -> present (default (zeros n) o) = o.
Proof.
  destruct o as [s|]; cbn [default]; intros Ho; [by apply Ho|].
  unfold present. assert (all_chars (Ascii.eqb "0") (zeros n) = true) as ->.
  { unfold zeros. induction n as [|n IH]; cbn; [done|exact IH]. }
  by rewrite andb_false_r.
Qed.

Lemma plain_field o n : wf_field o -> plain (default (zeros n) o).
Proof.
  destruct o as [s|]; cbn [default]; intros Ho; [by apply Ho|].
  unfold plain, zeros. induction n as [|n IH]; cbn; [done|exact IH].
Qed.

Lemma change_of_status e : wf_entry e -> change_of (print_status e) = (change e, similarity e).
Proof.
  intros (_ & _ & _ & _ & _ & _ & Hsim). unfold print_status.
  destruct (change e) eqn:Ec; destruct (similarity e) as [n|]; cbn in Hsim |- *; try done;
    try (by destruct Hsim); destruct Hsim as [_ Hn]; by rewrite parse_print_uint.
Qed.

Lemma plain_status e : wf_entry e -> plain (print_status e).
Proof.
  intros (_ & _ & _ & _ & _ & _ & Hsim). unfold print_status.
  assert (plain (match similarity e with Some n => print_uint n | None => EmptyString end)) as Hs.
  { destruct (similarity e) as [n|]; [|done]. apply print_uint_plain. lia. }
  destruct (change e); done.
Qed.

Lemma raw_header_print e : wf_entry e ->
  raw_header (join " " [default (zeros 6) (old_mode e); default (zeros 6) (new_mode e);
    default (zeros 40) (old_blob e); default (zeros 40) (new_blob e); print_status e])
  = Some (change e, similarity e, fun p op =>
      mkDiff (change e) p op (old_mode e) (new_mode e) (old_blob e) (new_blob e) (similarity e)).
Proof.
  intros He. pose proof He as (H1 & H2 & H3 & H4 & _). unfold raw_header.
  rewrite split_join; [|done|].
  - rewrite change_of_status by done. by rewrite !present_field.
  - repeat constructor; (apply plain_free; [done|]); eauto using plain_field, plain_status.
Qed.

Lemma plain_header e : wf_entry e -> wf_path (print_header e) /\ to_bytes (print_header e) <> [].
Proof.
  intros He. pose proof He as (H1 & H2 & H3 & H4 & _).
  assert (all_chars (fun a => in_range 0x20 0x7e (code a)) (print_header e) = true) as Hall.
  { unfold print_header. cbn [join].
    repeat (rewrite all_chars_app || (progress cbn [all_chars])).
    assert (forall s, plain s -> all_chars (fun a => in_range 0x20 0x7e (code a)) s = true) as Hp.
    { intros s. apply all_chars_impl. intros a Ha%plain_code. unfold in_range.
      apply andb_true_iff. split; apply Z.leb_le; lia. }
    rewrite !Hp by (eauto using plain_field, plain_status). done. }
  split; [split|done].
  - apply ascii_utf8. revert Hall. apply all_chars_impl. intros a Ha.
    unfold in_range in Ha. apply andb_true_iff in Ha as [_ Ha%Z.leb_le]. apply Z.ltb_lt. lia.
  - revert Hall. apply all_chars_impl. intros a Ha.
    unfold in_range in Ha. apply andb_true_iff in Ha as [Ha%Z.leb_le _]. apply negb_true_iff, Z.eqb_neq. lia.
Qed.

Lemma raw_entries_print e bs entries : wf_entry e ->
  raw_entries (split_bytes 0 bs) = Ok entries ->
  raw_entries (split_bytes 0 (print_raw e ++ bs)) = Ok (e :: entries).
Proof.
  intros He Hbs. pose proof He as (_ & _ & _ & _ & [Hp1 Hp2] & Hold & _).
  destruct (plain_header e He) as [[Hh1 Hh2] Hne].
  unfold print_raw. rewrite <- !app_assoc. cbn [app].
  rewrite split_bytes_app by (by apply free_of_bytes).
  assert (forall fields, raw_entries (to_bytes (print_header e) :: fields) =
    match fields with
    | [] => Err (malformed RAW EntryWithoutPath)
    | first :: fields =>
        if two_paths (change e) then
          match fields with
          | [] => Err (malformed RAW RenameWithoutNewPath)
          | second :: fields =>
              let? entries := raw_entries fields in
              Ok (mkDiff (change e) (lossy second) (Some (lossy first)) (old_mode e) (new_mode e)
                    (old_blob e) (new_blob e) (similarity e) :: entries)
          end
        else
          let? entries := raw_entries fields in
          Ok (mkDiff (change e) (lossy first) None (old_mode e) (new_mode e)
                (old_blob e) (new_blob e) (similarity e) :: entries)
    end) as Hraw.
  { intros fields. cbn [raw_entries]. destruct (to_bytes (print_header e)) eqn:Eh; [done|].
    rewrite <- Eh. unfold lossy at 1. unfold utf8 in Hh1. rewrite Hh1.
    unfold print_header at 1. cbn [String.append strip_prefix]. rewrite Ascii.eqb_refl.
    cbn [strip_prefix]. rewrite raw_header_print by done. done. }
  rewrite Hraw. clear Hraw.
  destruct (old_path e) as [op|] eqn:Eop.
  - destruct Hold as [Htwo [Ho1 Ho2]]. rewrite <- !app_assoc. cbn [app].
    rewrite split_bytes_app by (by apply free_of_bytes).
    rewrite split_bytes_app by (by apply free_of_bytes).
    rewrite Htwo, Hbs. cbn. unfold lossy. rewrite Hp1, Ho1. rewrite <- Eop. by destruct e.
  - cbn [app]. rewrite split_bytes_app by (by apply free_of_bytes).
    rewrite Hold, Hbs. cbn. unfold lossy. rewrite Hp1. rewrite <- Eop. by destruct e.
Qed.

(** A raw diff is read back entry for entry: every change with its score,
    modes, blobs absent where git prints zeros, and paths verbatim, the old and
    new path of a rename or copy never confused. *)
Theorem raw_diff_roundtrip entries : Forall wf_entry entries ->
  parse_raw_diff (concat (print_raw <$> entries)) = Ok entries.
Proof.
  unfold parse_raw_diff. induction 1 as [|e entries He _ IH]; cbn [fmap list_fmap concat]; [done|].
  by apply raw_entries_print.
Qed.

(** *** Object batches *)

(** An answer of [cat-file --batch]. *)
Inductive object :=
  | Missing (name : string)
  | Found (oid kind : string) (content : bytes).

Definition print_object (o : object) : bytes :=
  match o with
  | Missing name => to_bytes (name +:+ " missing") ++ [10]
  | Found oid kind content =>
      to_bytes (join " " [oid; kind; print_uint (Z.of_nat (length content))]) ++ [10] ++ content ++ [10]
  end.

Definition wf_object (o : object) : Prop :=
  match o with
  | Missing name => plain name
  | Found oid kind content => plain oid /\ plain kind /\ Z.of_nat (length content) < u64_bound
  end.

Definition answer (max_bytes : Z) (o : object) : option bytes :=
  match o with
  | Missing _ => None
  | Found _ _ content => if Z.of_nat (length content) <=? max_bytes then Some content else None
  end.

(** Text of printable characters and spaces. *)
Definition printable (s : string) : Prop := all_chars (fun a => in_range 0x20 0x7e (code a)) s = true.

Lemma plain_printable s : plain s -> printable s.
Proof.
  apply all_chars_impl. intros a Ha%plain_code. unfold in_range. apply andb_true_iff.
  split; apply Z.leb_le; lia.
Qed.

Lemma printable_code b s : printable s -> ~ (0x20 <= b <= 0x7e) -> Forall (fun x => x <> b) (to_bytes s).
Proof.
  intros Hs Hb. apply free_of_bytes. revert Hs. apply all_chars_impl. intros a Ha.
  unfold in_range in Ha. apply andb_true_iff in Ha as [H1%Z.leb_le H2%Z.leb_le].
  apply negb_true_iff, Z.eqb_neq. lia.
Qed.

Lemma printable_lossy s : printable s -> lossy (to_bytes s) = s.
Proof.
  intros Hs. apply ascii_utf8. revert Hs. apply all_chars_impl. intros a Ha.
  unfold in_range in Ha. apply andb_true_iff in Ha as [_ Ha%Z.leb_le]. apply Z.ltb_lt. lia.
Qed.

Lemma printable_app s1 s2 : printable (s1 +:+ s2) <-> printable s1 /\ printable s2.
Proof. unfold printable. by rewrite all_chars_app, andb_true_iff. Qed.

(** The header of an answer, alone on its line. *)
Lemma batch_header_cut header bs : printable header ->
  cut 10 (to_bytes header ++ 10 :: bs) = Some (to_bytes header, bs) /\
  lossy (to_bytes header) = header.
Proof.
  intros Hh. split; [|by apply printable_lossy]. apply cut_app, printable_code; [done|lia].
Qed.

Lemma missing_header name : plain name ->
  printable (name +:+ " missing") /\ batch_header (name +:+ " missing") = Ok None.
Proof.
  intros Hn. split; [apply printable_app; split; [by apply plain_printable|done]|].
  unfold batch_header. change " missing" with (String " " "missing").
  by rewrite split_app by (by apply plain_free).
Qed.

Lemma found_header oid kind n : plain oid -> plain kind -> 0 <= n < u64_bound ->
  let header := join " " [oid; kind; print_uint n] in
  printable header /\ batch_header header = Ok (Some n).
Proof.
  intros Ho Hk Hn header. pose proof (print_uint_plain n ltac:(lia)) as Hp. subst header. split.
  - cbn [join]. apply printable_app. split; [by apply plain_printable|].
    change (printable (" " +:+ kind +:+ (" " +:+ print_uint n))). rewrite !printable_app.
    split_and!; try done; by apply plain_printable.
  - unfold batch_header. rewrite split_join; [|done|].
    + rewrite (parse_print_uint u64_bound n Hn u64_digits). done.
    + repeat constructor; by apply plain_free.
Qed.

Lemma batch_loop_object o bs n max blobs : wf_object o ->
  batch_loop n bs max = Ok blobs ->
  batch_loop (S n) (print_object o ++ bs) max = Ok (answer max o :: blobs).
Proof.
  intros Ho Hbs. destruct o as [name|oid kind content]; cbn [print_object wf_object answer] in *.
  - destruct (missing_header name Ho) as [Hp Hh]. rewrite <- app_assoc. cbn [app].
    destruct (batch_header_cut _ bs Hp) as [Hc Hl].
    cbn [batch_loop]. destruct (to_bytes _ ++ 10 :: bs) eqn:E; [by destruct (to_bytes (name +:+ " missing"))|].
    rewrite Hc, Hl, Hh. cbn. by rewrite Hbs.
  - destruct Ho as (Ho & Hk & Hn). rewrite <- !app_assoc. cbn [app].
    destruct (found_header oid kind (Z.of_nat (length content)) Ho Hk ltac:(lia)) as [Hp Hh].
    destruct (batch_header_cut _ (content ++ [10] ++ bs) Hp) as [Hc Hl]. cbn [app] in Hc.
    cbn [batch_loop].
    destruct (to_bytes _ ++ 10 :: content ++ 10 :: bs) eqn:E;
      [by destruct (to_bytes (join " " [oid; kind; print_uint (Z.of_nat (length content))]))|].
    rewrite Hc, Hl, Hh. cbn [rbind].
    rewrite length_app, Nat2Z.id. cbn [length].
    destruct (Z.ltb_spec (Z.of_nat (length content + S (length bs))) (Z.of_nat (length content))); [lia|].
    rewrite drop_app_length, take_app_length. cbn. by rewrite Hbs.
Qed.

Lemma batch_loop_length n output max blobs : batch_loop n output max = Ok blobs -> (length blobs <= n)%nat.
Proof.
  revert output blobs. induction n as [|n IH]; intros output blobs; cbn [batch_loop].
  - intros [= <-]. cbn. lia.
  - destruct output as [|x output]; [intros [= <-]; cbn; lia|].
    destruct (cut 10 (x :: output)) as [[header rest]|]; [|intros [= <-]; cbn; lia].
    destruct (batch_header _) as [[size|]|e]; cbn [rbind]; [| |done].
    + destruct (_ <? size); [done|].
      destruct (batch_loop n _ max) as [bl|] eqn:E; cbn; [|done]. intros [= <-].
      apply IH in E. cbn. lia.
    + destruct (batch_loop n _ max) as [bl|] eqn:E; cbn; [|done]. intros [= <-].
      apply IH in E. cbn. lia.
Qed.

(** A batch answers every request in order: the object's exact bytes, which
    may hold newlines and anything else, nothing for a missing one, nothing for
    one over the cap; what follows the last wanted answer is ignored; and a
    parse that succeeds has exactly as many answers as were asked for, so a
    stream that ends early is an error. *)
Theorem batch_roundtrip objects max trailing : Forall wf_object objects ->
  parse_batch (concat (print_object <$> objects) ++ trailing) (length objects) max =
    Ok (answer max <$> objects) /\
  (forall output count blobs, parse_batch output count max = Ok blobs -> length blobs = count).
Proof.
  intros Hwf. split.
  - assert (batch_loop (length objects) (concat (print_object <$> objects) ++ trailing) max =
              Ok (answer max <$> objects)) as Hloop.
    { induction Hwf as [|o objects Ho _ IH]; [by destruct trailing|].
      cbn [fmap list_fmap concat length]. rewrite <- app_assoc. by apply batch_loop_object. }
    unfold parse_batch. rewrite Hloop. cbn [rbind]. by rewrite length_fmap, Nat.eqb_refl.
  - intros output count blobs. unfold parse_batch.
    destruct (batch_loop _ _ _) as [bl|e]; cbn [rbind]; [|done].
    destruct (Nat.eqb_spec (length bl) count); [by intros [= <-]|done].
Qed.

(** *** Statuses *)

(** A line of a porcelain v2 status, with its fixed fields before the path. *)
Inductive status_line :=
  | Ordinary (fields : list string) (p : string)
  | RenamedLine (fields : list string) (p original : string)
  | UnmergedLine (fields : list string) (p : string)
  | Untracked (p : string)
  | Ignored (p : string).

Definition print_line (l : status_line) : list string :=
  match l with
  | Ordinary fs p => ["1 " +:+ join " " (fs ++ [p])]
  | RenamedLine fs p original => ["2 " +:+ join " " (fs ++ [p]); original]
  | UnmergedLine fs p => ["u " +:+ join " " (fs ++ [p])]
  | Untracked p => ["? " +:+ p]
  | Ignored p => ["! " +:+ p]
  end.

Definition wf_line (l : status_line) : Prop :=
  let fixed n fs p := length fs = n /\ Forall plain fs /\ free_of 0 p in
  match l with
  | Ordinary fs p => fixed 7%nat fs p
  | RenamedLine fs p original => fixed 8%nat fs p /\ free_of 0 original
  | UnmergedLine fs p => fixed 9%nat fs p
  | Untracked p | Ignored p => free_of 0 p
  end.

(** The paths that make a repository dirty. *)
Definition dirty (l : status_line) : list string :=
  match l with
  | Ordinary _ p | RenamedLine _ p _ | UnmergedLine _ p | Untracked p => [p]
  | Ignored _ => []
  end.

(** NUL-terminated fields. *)
Definition terminated (fields : list string) : string :=
  foldr (fun f acc => f +:+ String NUL acc) EmptyString fields.

Lemma join_cons_ne a p ps : ps <> [] -> join a (p :: ps) = p +:+ String a (join a ps).
Proof. by destruct ps. Qed.

Lemma splitn_fields n fs p : length fs = n -> Forall plain fs ->
  splitn (S n) " " (join " " (fs ++ [p])) = fs ++ [p].
Proof.
  intros Hn HF. revert n Hn. induction HF as [|f fs Hf HF IH]; intros n Hn; cbn [length app] in *; subst n; [done|].
  rewrite join_cons_ne by (by destruct fs).
  change (splitn (S (S (length fs))) " " (f +:+ String " " (join " " (fs ++ [p]))))
    with (match split_once " " (f +:+ String " " (join " " (fs ++ [p]))) with
          | Some (l, r) => l :: splitn (S (length fs)) " " r
          | None => [f +:+ String " " (join " " (fs ++ [p]))] end).
  rewrite split_once_app by (by apply plain_free). by rewrite IH.
Qed.

Lemma path_after n fs p : length fs = n -> Forall plain fs ->
  path_after_fields (join " " (fs ++ [p])) (S n) = Some p.
Proof.
  intros Hn HF. unfold path_after_fields. rewrite splitn_fields by done.
  replace (S n - 1)%nat with (length fs) by lia. by rewrite lookup_app_r, Nat.sub_diag by lia.
Qed.

Lemma free_of_join b fs p : ~ (0x20 <= b <= 0x7e) -> Forall plain fs -> free_of b p ->
  free_of b (join " " (fs ++ [p])).
Proof.
  intros Hb HF Hp. induction HF as [|f fs Hf HF IH]; [done|].
  change ((f :: fs) ++ [p]) with (f :: (fs ++ [p])). rewrite join_cons_ne by (by destruct fs).
  unfold free_of in *. rewrite all_chars_app. cbn [all_chars].
  assert (all_chars (fun a => negb (code a =? b)) f = true) as -> by (apply plain_free_of; [lia|done]).
  rewrite IH, andb_true_r. cbn [andb]. apply negb_true_iff, Z.eqb_neq. change (code " ") with 0x20. lia.
Qed.

Lemma free_nul s : free_of 0 s -> all_chars (fun b => negb (Ascii.eqb NUL b)) s = true.
Proof.
  apply all_chars_impl. intros a. rewrite !negb_true_iff. intros Ha%Z.eqb_neq.
  apply Ascii.eqb_neq. by intros <-.
Qed.

Lemma split_terminated fields : Forall (free_of 0) fields -> split NUL (terminated fields) = fields ++ [EmptyString].
Proof.
  induction 1 as [|f fields Hf _ IH]; [done|]. cbn [terminated foldr].
  rewrite split_app by (by apply free_nul). cbn [app]. f_equal. exact IH.
Qed.

Lemma wf_line_free l : wf_line l -> Forall (free_of 0) (print_line l).
Proof.
  destruct l as [fs p|fs p o|fs p|p|p]; cbn [wf_line print_line].
  - intros (_ & HF & Hp). repeat constructor. exact (free_of_join 0 fs p ltac:(lia) HF Hp).
  - intros [(_ & HF & Hp) Ho]. repeat constructor; [|done]. exact (free_of_join 0 fs p ltac:(lia) HF Hp).
  - intros (_ & HF & Hp). repeat constructor. exact (free_of_join 0 fs p ltac:(lia) HF Hp).
  - intros Hp. repeat constructor. exact Hp.
  - intros Hp. repeat constructor. exact Hp.
Qed.

Lemma add_dirty_some s p : dirty_paths (add_dirty s (Some p)) = dirty_paths s ++ [p].
Proof. done. Qed.

Lemma status_entries_line l rest s : wf_line l ->
  exists s', status_entries (print_line l ++ rest) s = status_entries rest s' /\
    dirty_paths s' = dirty_paths s ++ dirty l.
Proof.
  destruct l as [fs p|fs p o|fs p|p|p]; cbn [wf_line print_line dirty app].
  - intros (Hn & HF & _). exists (add_dirty s (Some p)). split; [|done].
    cbn -[path_after_fields join]. by rewrite (path_after 7).
  - intros [(Hn & HF & _) _]. exists (add_dirty s (Some p)). split; [|done].
    cbn -[path_after_fields join]. by rewrite (path_after 8).
  - intros (Hn & HF & _). exists (add_dirty s (Some p)). split; [|done].
    cbn -[path_after_fields join]. by rewrite (path_after 9).
  - intros _. by exists (add_dirty s (Some p)).
  - intros _. exists s. split; [done|]. by rewrite app_nil_r.
Qed.

(** A status names exactly the dirty paths git reports, in order and
    verbatim: modified, renamed (the new path only, whatever the original path
    looks like), in conflict, and untracked; ignored files never count. A
    repository in the middle of a merge is never clean. *)
Theorem status_dirty_paths lines : Forall wf_line lines ->
  dirty_paths (parse_status_v2 (terminated (lines ≫= print_line))) = lines ≫= dirty.
Proof.
  intros Hwf. unfold parse_status_v2.
  assert (Forall (free_of 0) (lines ≫= print_line)) as Hfree.
  { induction Hwf as [|l lines Hl _ IH]; cbn; [done|]. apply Forall_app. split; [by apply wf_line_free|done]. }
  rewrite split_terminated by done.
  change (lines ≫= dirty) with (dirty_paths clean_status ++ (lines ≫= dirty)).
  clear Hfree. generalize clean_status. induction Hwf as [|l lines Hl _ IH]; intros s; cbn [mbind list_bind].
  - cbn. by rewrite app_nil_r.
  - rewrite <- app_assoc. destruct (status_entries_line l ((lines ≫= print_line) ++ [EmptyString]) s Hl) as (s' & -> & Hs').
    cbn [mbind list_bind] in *. rewrite IH, Hs'. by rewrite <- app_assoc.
Qed.

(** *** On concrete outputs *)

Definition a_rename : GitDiffEntry :=
  mkDiff Renamed "new name.rs" (Some "old:1 2.rs") (Some "100644") (Some "100644")
    (Some "4444444444444444444444444444444444444444") None (Some 87).

Lemma raw_diff_roundtrip_witness :
  parse_raw_diff (concat (print_raw <$> [a_rename])) = Ok [a_rename].
Proof.
  apply (raw_diff_roundtrip [a_rename]). constructor; [|constructor].
  unfold wf_entry, wf_field, wf_path. cbn -[present].
  split_and!; try done; intros s [= <-]; done.
Defined.

Lemma batch_roundtrip_witness :
  parse_batch (concat (print_object <$> [Found "11" "blob" [104; 10; 0]; Missing "22"; Found "33" "blob" [1; 2; 3; 4]])
     ++ []) 3 3 = Ok [Some [104; 10; 0]; None; None].
Proof.
  apply (batch_roundtrip [Found "11" "blob" [104; 10; 0]; Missing "22"; Found "33" "blob" [1; 2; 3; 4]] 3 []).
  repeat constructor.
Defined.

Lemma status_dirty_paths_witness :
  let fields := ["R."; "N..."; "100644"; "100644"; "100644"; "aa"; "bb"; "R100"] in
  dirty_paths (parse_status_v2 (terminated
    ([RenamedLine fields "new.txt" "? old.txt"; Untracked "a b"] ≫= print_line))) = ["new.txt"; "a b"].
Proof.
  intros fields. apply (status_dirty_paths [RenamedLine fields "new.txt" "? old.txt"; Untracked "a b"]).
  repeat constructor.
Defined.
