(* ===== verification/Git.v ===== *)
(** * Git options and what they accept

    Models [crates/sandbox-driver/src/git.rs]: the options of the git facet and the
    validators that keep what a caller passes from being read as an option. Times
    are in milliseconds, as in [Exec]. *)

From S2P Require Import Prelude Text Errors GitRetry.

#[local] Open Scope string_scope.
#[local] Open Scope list_scope.
#[local] Open Scope Z_scope.

(** ** Names *)

Definition dash : ascii := "-".

(** A character [validate_ref_name] refuses: [char::is_ascii_control], or one of
    [" ~^:?*[\\"]. *)
Definition ref_char_refused (c : ascii) : bool :=
  in_range 0 31 (code c) || one_of [127; 32; 126; 94; 58; 63; 42; 91; 92] (code c).

Definition ref_component_refused (component : string) : bool :=
  is_empty component || String.eqb component "." || String.eqb component ".." ||
  match strip_suffix ".lock" component with Some _ => true | None => false end.

Definition validate_ref_name (field name : string) : result unit Error :=
  if is_empty name || starts_with_char dash name then Err (InvalidSpec field "must not be empty or begin with '-'")
  else if existsb ref_component_refused (split "/" name) || ends_with_char "." name || contains ".." name
       || contains "@{" name || negb (all_chars (fun c => negb (ref_char_refused c)) name)
  then Err (InvalidSpec field "is not a valid git reference name")
  else Ok tt.

Definition validate_branch_name (branch : string) : result unit Error := validate_ref_name "branch" branch.

(** The sides of a refspec, in the order they are checked. *)
Fixpoint validate_sides (sides : list string) : result unit Error :=
  match sides with
  | [] => Ok tt
  | side :: sides =>
      check? (if String.eqb side "HEAD" then Ok tt else validate_ref_name "refspec" side) in validate_sides sides
  end.

Definition validate_refspec (refspec : string) : result unit Error :=
  let body := default refspec (strip_prefix "+" refspec) in
  let '(source, destination) := match split_once ":" body with
                                | Some (source, destination) => (source, Some destination)
                                | None => (body, None)
                                end in
  if is_empty source then Err (InvalidSpec "refspec" "must name a source; a deletion is not a push")
  else validate_sides (source :: option_list destination).

Definition validate_argument (field value : string) : result unit Error :=
  if is_empty value || starts_with_char dash value then Err (InvalidSpec field "must not be empty or begin with '-'")
  else if existsb is_control (chars value) then Err (InvalidSpec field "must not contain control characters")
  else Ok tt.

Definition validate_object_name (field value : string) : result unit Error :=
  if negb ((String.length value =? 40)%nat || (String.length value =? 64)%nat) || negb (all_chars is_ascii_hexdigit value)
  then Err (InvalidSpec field "must be a full hex object name")
  else Ok tt.

Definition config_key_char (c : ascii) : bool := is_ascii_alphanumeric c || one_of [45; 46; 95] (code c).

Definition validate_config_key (key : string) : result unit Error :=
  if contains "." key && negb (starts_with_char "." key || starts_with_char dash key) && negb (ends_with_char "." key)
     && all_chars config_key_char key
  then Ok tt
  else Err (InvalidSpec "key" "is not a git configuration key").

(** ** Options *)

Record GitCloneOptions := mkCloneOptions {
  clone_branch : option string;
  clone_commit : option string;
  clone_tag : option string;
  clone_depth : option Z;
  clone_credentials : option GitCredentials;
}.

Definition validate_opt {A} (check : A -> result unit Error) (o : option A) : result unit Error :=
  match o with Some a => check a | None => Ok tt end.

Definition clone_validate (o : GitCloneOptions) : result unit Error :=
  check? validate_opt (fun commit =>
    if negb (String.length commit =? 40)%nat || negb (all_chars is_ascii_hexdigit commit)
    then Err (InvalidSpec "commit" "must be a full 40-character hex commit SHA") else Ok tt) (clone_commit o) in
  check? validate_opt (fun tag =>
    check? validate_ref_name "tag" tag in
    match clone_commit o with
    | Some _ => Err (InvalidSpec "tag" "cannot be combined with commit; a clone has one pin")
    | None => Ok tt
    end) (clone_tag o) in
  validate_opt validate_branch_name (clone_branch o).

Record GitCommitOptions := mkCommitOptions {
  message : string;
  author_name : string;
  author_email : string;
  allow_empty : bool;
}.

Record GitPushOptions := mkPushOptions {
  push_remote : option string;
  push_branch : option string;
  set_upstream : bool;
  push_refspec : option string;
  push_credentials : option GitCredentials;
  push_timeout : option Z;
}.

Definition is_none {A} (o : option A) : bool := match o with None => true | Some _ => false end.

Definition push_validate (o : GitPushOptions) : result unit Error :=
  check? validate_opt validate_branch_name (push_branch o) in
  check? validate_opt (fun refspec =>
    if negb (is_none (push_branch o)) then Err (InvalidSpec "refspec" "cannot be combined with branch")
    else validate_refspec refspec) (push_refspec o) in
  if set_upstream o && is_none (push_branch o) then Err (InvalidSpec "set_upstream" "requires a branch") else Ok tt.

Record GitCheckoutOptions := mkCheckoutOptions {
  co_branch : string;
  co_create : bool;
  co_reset : bool;
  co_start_point : option string;
}.

Definition checkout_validate (o : GitCheckoutOptions) : result unit Error :=
  check? validate_branch_name (co_branch o) in
  guard? negb (co_reset o && negb (co_create o)) else InvalidSpec "reset" "requires create" in
  validate_opt (fun start_point =>
    if negb (co_create o) then Err (InvalidSpec "start_point" "requires create")
    else validate_ref_name "start_point" start_point) (co_start_point o).

Record GitFetchOptions := mkFetchOptions {
  fetch_remote : option string;
  refspecs : list string;
  fetch_depth : option Z;
  fetch_credentials : option GitCredentials;
  fetch_timeout : option Z;
}.

Fixpoint validate_all (check : string -> result unit Error) (l : list string) : result unit Error :=
  match l with [] => Ok tt | v :: l => check? check v in validate_all check l end.

Definition fetch_validate (o : GitFetchOptions) : result unit Error :=
  check? validate_opt (validate_argument "remote") (fetch_remote o) in
  validate_all (fun refspec => validate_argument "refspecs" (trim_start_char "+" refspec)) (refspecs o).

Record GitRevisionRange := mkRange { base : string; head : option string }.

Definition range_validate (r : GitRevisionRange) : result unit Error :=
  check? validate_argument "base" (base r) in validate_opt (validate_argument "head") (head r).

Definition range_spec (default_head : option string) (r : GitRevisionRange) : string :=
  match match head r with Some head => Some head | None => default_head end with
  | Some head => base r +:+ ".." +:+ head
  | None => base r
  end.

Record GitDiffOptions := mkDiffOptions {
  diff_range : GitRevisionRange;
  find_renames : option Z;
  diff_timeout : option Z;
}.

Definition diff_validate (o : GitDiffOptions) : result unit Error :=
  check? range_validate (diff_range o) in
  match find_renames o with
  | Some percent => if 100 <? percent then Err (InvalidSpec "find_renames" "is a percentage") else Ok tt
  | None => Ok tt
  end.

Record GitLogOptions := mkLogOptions {
  log_range : GitRevisionRange;
  first_parent : bool;
  log_reverse : bool;
  max_count : option Z;
  log_timeout : option Z;
}.

Definition log_validate (o : GitLogOptions) : result unit Error := range_validate (log_range o).

Record GitBranches := mkBranches { current : option string; branches : list string }.

(** ** What is accepted *)

(** A word that no git command takes for an option. *)
Definition unflagged (value : string) : Prop := starts_with_char dash value = false.

Lemma ref_name_unflagged field name : validate_ref_name field name = Ok tt -> unflagged name.
Proof.
  unfold validate_ref_name, unflagged. destruct (is_empty name || _) eqn:E; [done|]. intros _. by apply orb_false_iff in E as [_ E].
Qed.

Lemma argument_unflagged field value : validate_argument field value = Ok tt -> unflagged value.
Proof.
  unfold validate_argument, unflagged. destruct (is_empty value || _) eqn:E; [done|]. intros _. by apply orb_false_iff in E as [_ E].
Qed.

Lemma argument_nonempty field value : validate_argument field value = Ok tt -> value <> EmptyString.
Proof. unfold validate_argument. by destruct value. Qed.

Lemma unflagged_app value more : value <> EmptyString -> unflagged value -> unflagged (value +:+ more).
Proof. unfold unflagged, starts_with_char. by destruct value. Qed.

Lemma refspec_unflagged refspec : validate_refspec refspec = Ok tt -> unflagged refspec.
Proof.
  unfold validate_refspec. destruct (strip_prefix "+" refspec) as [body|] eqn:Ep; cbn [default].
  { apply strip_prefix_spec in Ep as ->. intros _. by unfold unflagged, starts_with_char. }
  clear Ep. destruct (split_once ":" refspec) as [[source destination]|] eqn:E.
  - apply split_once_some in E as ->. destruct (is_empty source) eqn:Ee; [done|]. cbn [validate_sides]. intros H.
    apply unflagged_app; [by destruct source|]. apply rbind_ok in H as [H _]. destruct (String.eqb source "HEAD") eqn:Eh.
    + apply String.eqb_eq in Eh as ->. by vm_compute.
    + by eapply ref_name_unflagged.
  - destruct (is_empty refspec); [done|]. cbn [validate_sides option_list]. intros [H _]%rbind_ok.
    destruct (String.eqb refspec "HEAD") eqn:Eh.
    + apply String.eqb_eq in Eh as ->. by vm_compute.
    + by eapply ref_name_unflagged.
Qed.

Lemma range_spec_unflagged default_head r : range_validate r = Ok tt -> unflagged (range_spec default_head r).
Proof.
  unfold range_validate, range_spec. intros [Hb _]%rbind_ok.
  pose proof (argument_unflagged _ _ Hb). pose proof (argument_nonempty _ _ Hb).
  destruct (match head r with Some head => Some head | None => default_head end); [|done]. by apply unflagged_app.
Qed.

Lemma trimmed_unflagged field value : validate_argument field (trim_start_char "+" value) = Ok tt -> unflagged value.
Proof.
  intros H. destruct value as [|c value]; [done|]. cbn [trim_start_char] in H. destruct (Ascii.eqb "+" c) eqn:E.
  - apply Ascii.eqb_eq in E as <-. by unfold unflagged, starts_with_char.
  - by eapply argument_unflagged.
Qed.

Lemma hex_unflagged value : all_chars is_ascii_hexdigit value = true -> unflagged value.
Proof.
  unfold unflagged, starts_with_char. destruct value as [|c value]; [done|]. cbn [all_chars first_char]. intros [Hc _]%andb_true_iff.
  apply bool_decide_eq_false. by intros [= ->].
Qed.

Lemma validate_all_ok (check : string -> result unit Error) l :
  validate_all check l = Ok tt <-> Forall (fun v => check v = Ok tt) l.
Proof.
  induction l as [|v l IH]; cbn [validate_all]; [split; [constructor|done]|]. by rewrite rbind_ok, IH, Forall_cons.
Qed.
