(* ===== verification/Script.v ===== *)
(** * Commands run in a sandbox

    What the derived facets of [crates/sandbox-driver/src/derived] share: a facet's
    operation is a computation that runs commands through the exec facet and goes on
    from what each answers. Here it is the tree of its commands, each with a
    continuation for the answer; nothing is assumed of the answers. *)

From S2P Require Import Prelude Text Shell Sanitize Exec Errors.

#[local] Open Scope string_scope.
#[local] Open Scope list_scope.
#[local] Open Scope Z_scope.

(** What [Exec::run] answers. *)
Notation Answer := (result ExecResult Error) (only parsing).

Inductive Script (A : Type) :=
  | Done (r : result A Error)
  | Run (spec : ExecSpec) (k : result ExecResult Error -> Script A).
Arguments Done {A} r.
Arguments Run {A} spec k.

Definition sret {A} (a : A) : Script A := Done (Ok a).
Definition sthrow {A} (e : Error) : Script A := Done (Err e).

Fixpoint sbind {A B} (m : Script A) (k : A -> Script B) : Script B :=
  match m with
  | Done (Ok a) => k a
  | Done (Err e) => Done (Err e)
  | Run spec c => Run spec (fun answer => sbind (c answer) k)
  end.

Notation "'run!' x ':=' m 'in' k" := (sbind m (fun x => k))
  (at level 10, x pattern, m at level 100, k at level 200) : driver_scope.
Notation "'then!' m 'in' k" := (sbind m (fun _ => k))
  (at level 10, m at level 100, k at level 200) : driver_scope.

(** A check that runs nothing. *)
Definition slift {A} (r : result A Error) : Script A := Done r.

(** [Exec::run], with the answer as a value. *)
Definition exec_run (spec : ExecSpec) : Script ExecResult := Run spec Done.

(** The commands run when the answers are those, and the result when they
    suffice. *)
Fixpoint play {A} (m : Script A) (answers : list (result ExecResult Error)) : list ExecSpec * option (result A Error) :=
  match m with
  | Done r => ([], Some r)
  | Run spec k =>
      match answers with
      | [] => ([spec], None)
      | a :: answers => let '(specs, r) := play (k a) answers in (spec :: specs, r)
      end
  end.

(** Every command that may be run satisfies [P]. *)
Fixpoint issues {A} (P : ExecSpec -> Prop) (m : Script A) : Prop :=
  match m with
  | Done _ => True
  | Run spec k => P spec /\ forall answer, issues P (k answer)
  end.

Lemma issues_bind {A B} P (m : Script A) (k : A -> Script B) : issues P m -> (forall a, issues P (k a)) -> issues P (sbind m k).
Proof.
  intros Hm Hk. induction m as [[a|e]|spec c IH]; cbn [sbind issues] in *; [apply Hk|done|].
  destruct Hm as [Hs Hc]. split; [done|]. intros answer. by apply IH.
Qed.

Lemma issues_lift {A} P (r : result unit Error) (k : unit -> Script A) :
  (r = Ok tt -> issues P (k tt)) -> issues P (sbind (slift r) k).
Proof. intros Hk. destruct r as [[]|e]; cbn; [by apply Hk|done]. Qed.

(** Every value it may end with satisfies [Q]. *)
Fixpoint yields {A} (Q : A -> Prop) (m : Script A) : Prop :=
  match m with
  | Done r => forall a, r = Ok a -> Q a
  | Run _ k => forall answer, yields Q (k answer)
  end.

Lemma issues_bind_yields {A B} P (Q : A -> Prop) (m : Script A) (k : A -> Script B) :
  issues P m -> yields Q m -> (forall a, Q a -> issues P (k a)) -> issues P (sbind m k).
Proof.
  intros Hm HQ Hk. induction m as [[a|e]|spec c IH]; cbn [sbind issues yields] in *; [by apply Hk, HQ|done|].
  destruct Hm as [Hs Hc]. split; [done|]. intros answer. by apply IH.
Qed.

Lemma yields_bind {A B} (Q : A -> Prop) (R : B -> Prop) (m : Script A) (k : A -> Script B) :
  yields Q m -> (forall a, Q a -> yields R (k a)) -> yields R (sbind m k).
Proof.
  intros HQ Hk. induction m as [[a|e]|spec c IH]; cbn [sbind yields] in *; [by apply Hk, HQ|done|auto].
Qed.

Lemma yields_any {A} (m : Script A) : yields (fun _ => True) m.
Proof. induction m as [r|spec k IH]; cbn; [done|auto]. Qed.

Lemma issues_play {A} P (m : Script A) answers : issues P m -> Forall P (fst (play m answers)).
Proof.
  revert answers. induction m as [r|spec k IH]; intros answers Hm; cbn [play]; [constructor|].
  destruct Hm as [Hs Hk]. destruct answers as [|a answers]; cbn; [by repeat constructor|].
  specialize (IH a answers (Hk a)). destruct (play (k a) answers) as [specs r]. by constructor.
Qed.

Lemma issues_impl {A} (P Q : ExecSpec -> Prop) (m : Script A) : (forall s, P s -> Q s) -> issues P m -> issues Q m.
Proof. intros HPQ. induction m as [r|spec k IH]; cbn; [done|]. intros [Hs Hk]. split; [by apply HPQ|]. auto. Qed.

(** The run in a world whose state answers each command and is changed by it. *)
Fixpoint perform {W A} (world : ExecSpec -> W -> W * result ExecResult Error) (m : Script A) (w : W) : W * result A Error :=
  match m with
  | Done r => (w, r)
  | Run spec k => let '(w, answer) := world spec w in perform world (k answer) w
  end.

Lemma perform_bind {W A B} world (m : Script A) (k : A -> Script B) (w : W) :
  perform world (sbind m k) w =
  let '(w, r) := perform world m w in match r with Ok a => perform world (k a) w | Err e => (w, Err e) end.
Proof.
  revert w. induction m as [[a|e]|spec c IH]; intros w; cbn [sbind perform]; [done..|]. destruct (world spec w) as [w' answer]. apply IH.
Qed.

(** ** Shared pieces *)

Definition spec_working_dir (dir : string) (s : ExecSpec) : ExecSpec :=
  mkSpec (program s) (args s) (timeout s) (stop_grace s) (Some dir) (env s) (spec_stdin s) (output_sanitization s).

Definition stdout_lossy (r : ExecResult) : string := from_utf8_lossy (res_stdout r).

(** [ExecFailure::new] of a result with its duration, in nanoseconds there. *)
Definition failure_of (label : string) (r : ExecResult) : ExecFailure :=
  mkExecFailure label (res_termination r) (exit_code r) (res_stdout r) (res_stderr r) (Some (duration r * 1000000)).

(** The [run] of the derived file and service facets: a Bash script that must
    succeed. *)
Definition run_bash (limit : Z) (label command : string) : Script ExecResult :=
  run! r := exec_run (spec_timeout (Some limit) (bash command)) in
  if success r then sret r else sthrow (ExecE (failure_of label r)).

Lemma perform_bash {W} world limit label command (w w' : W) r :
  world (spec_timeout (Some limit) (bash command)) w = (w', Ok r) -> success r = true ->
  perform world (run_bash limit label command) w = (w', Ok r).
Proof. intros Hw Hr. unfold run_bash. rewrite perform_bind. cbn [exec_run perform]. rewrite Hw. by rewrite Hr. Qed.

(** [str::lines]. *)
Definition chomp (line : string) : string := default line (strip_suffix (String (char 13) EmptyString) line).

Fixpoint unterminated (pieces : list string) : list string :=
  match pieces with
  | [] => []
  | [last] => if is_empty last then [] else [last]
  | line :: pieces => chomp line :: unterminated pieces
  end.

Definition lines (s : string) : list string := unterminated (split (char 10) s).

(** A script written with a backquote for each double quote. *)
Definition dq (s : string) : string := map_string (fun a => if Ascii.eqb a "`" then char 34 else a) s.

(** The result of a computation as a value, which is not an error itself. *)
Fixpoint attempt {A} (m : Script A) : Script (result A Error) :=
  match m with
  | Done r => sret r
  | Run spec k => Run spec (fun answer => attempt (k answer))
  end.

(** A stable sort. *)
Section Sorting.
Context {A : Type} (le : A -> A -> bool).

Fixpoint insert_by (x : A) (l : list A) : list A :=
  match l with
  | [] => [x]
  | y :: l' => if le x y then x :: l else y :: insert_by x l'
  end.

Definition sort_by (l : list A) : list A := foldr insert_by [] l.

Lemma insert_by_Permutation x l : insert_by x l ≡ₚ x :: l.
Proof. induction l as [|y l IH]; cbn; [done|]. destruct (le x y); [done|]. rewrite IH. constructor. Qed.

Lemma sort_by_Permutation l : sort_by l ≡ₚ l.
Proof. induction l as [|x l IH]; [done|]. cbn. by rewrite insert_by_Permutation, IH. Qed.

Hypothesis le_total : forall x y, le x y = true \/ le y x = true.
Hypothesis le_trans : forall x y z, le x y = true -> le y z = true -> le x z = true.

Lemma insert_by_sorted x l : StronglySorted (fun x y => le x y = true) l -> StronglySorted (fun x y => le x y = true) (insert_by x l).
Proof.
  induction 1 as [|y l Hl IH Hy]; cbn; [by repeat constructor|]. destruct (le x y) eqn:E.
  - constructor; [by constructor|]. constructor; [done|]. eapply Forall_impl; [exact Hy|]. intros z Hz. by apply (le_trans x y z).
  - constructor; [done|]. rewrite insert_by_Permutation. constructor; [|done]. destruct (le_total x y); [congruence|done].
Qed.

Lemma sort_by_sorted l : StronglySorted (fun x y => le x y = true) (sort_by l).
Proof. induction l; cbn; [constructor|by apply insert_by_sorted]. Qed.
End Sorting.

(** The script of a Bash helper. *)
Definition script_of (s : ExecSpec) (script : string) : Prop := program s = BASH /\ args s = [BASH_COMMAND_FLAG; script].

Lemma strip_suffix_some suf s p : strip_suffix suf s = Some p -> s = p +:+ suf.
Proof.
  revert p. induction s as [|a s IH]; intros p; cbn [strip_suffix].
  - destruct (String.eqb_spec EmptyString suf) as [<-|_]; [by intros [= <-]|done].
  - destruct (String.eqb_spec (String a s) suf) as [<-|_]; [by intros [= <-]|].
    destruct (strip_suffix suf s) as [q|]; [|done]. intros [= <-]. cbn. by rewrite (IH q eq_refl) at 1.
Qed.

Lemma chomp_chars p s : all_chars p s = true -> all_chars p (chomp s) = true.
Proof.
  unfold chomp. destruct (strip_suffix _ s) as [q|] eqn:E; [|done]. apply strip_suffix_some in E as ->.
  rewrite all_chars_app. by intros [Hq _]%andb_true_iff.
Qed.

Example lines_1 : lines (of_bytes [97; 13; 10; 10; 98; 13]) = ["a"; ""; of_bytes [98; 13]].
Proof. reflexivity. Qed.

Lemma lines_app line s : all_chars (fun b => negb (Ascii.eqb (char 10) b)) line = true ->
  lines (line +:+ String (char 10) s) = chomp line :: lines s.
Proof.
  intros Hl. unfold lines. rewrite split_app by done. cbn [unterminated].
  pose proof (split_nonempty (char 10) s). by destruct (split (char 10) s).
Qed.
