(* ===== verification/DerivedGit.v ===== *)
(** * Git over a sandbox's commands

    Models [crates/sandbox-driver/src/derived/git]: the hardened command of
    [command.rs], every operation of [mod.rs], the clones of [clone.rs] and the
    credentials of [credentials.rs]. An operation is a [Script]: the commands it
    runs, and what it makes of their answers. How the detail of a parse error is
    worded is a parameter. *)

From S2P Require Import Prelude Text Hex Shell Sanitize Exec Errors GitRetry GitParse Git Script.

#[local] Open Scope string_scope.
#[local] Open Scope list_scope.
#[local] Open Scope Z_scope.

(** ** The command *)

Definition GIT_TIMEOUT : Z := 60 * 1000.
Definition CLONE_TIMEOUT : Z := 600 * 1000.
Definition NETWORK_TIMEOUT : Z := 300 * 1000.

Definition GIT : string :=
  "git -c maintenance.auto=0 -c gc.auto=0 -c core.hooksPath=/dev/null -c core.fsmonitor=false -c core.quotePath=false -c commit.gpgsign=false -c tag.gpgsign=false".
Definition GIT_READ : string :=
  "git -c maintenance.auto=0 -c gc.auto=0 -c core.hooksPath=/dev/null -c core.fsmonitor=false -c core.quotePath=false -c commit.gpgsign=false -c tag.gpgsign=false -c protocol.file.allow=never".
Definition GIT_ENV : list (string * string) := [("GIT_TERMINAL_PROMPT", "0")].

Record GitCommand := mkGitCommand {
  label : string;
  gc_timeout : Z;
  gc_read_only : bool;
  gc_configs : list string;
  verb : string;
  gc_args : list string;
}.

Definition git_command (label verb : string) : GitCommand := mkGitCommand label GIT_TIMEOUT false [] verb [].

Definition read_only (c : GitCommand) : GitCommand :=
  mkGitCommand (label c) (gc_timeout c) true (gc_configs c) (verb c) (gc_args c).
Definition with_configs (values : list string) (c : GitCommand) : GitCommand :=
  mkGitCommand (label c) (gc_timeout c) (gc_read_only c) (gc_configs c ++ values) (verb c) (gc_args c).
Definition with_args (values : list string) (c : GitCommand) : GitCommand :=
  mkGitCommand (label c) (gc_timeout c) (gc_read_only c) (gc_configs c) (verb c) (gc_args c ++ values).
Definition with_arg (value : string) (c : GitCommand) : GitCommand := with_args [value] c.
Definition flag_if (condition : bool) (flag : string) (c : GitCommand) : GitCommand :=
  if condition then with_arg flag c else c.
Definition option_ (flag : string) (value : option string) (c : GitCommand) : GitCommand :=
  match value with Some value => with_arg value (with_arg flag c) | None => c end.
Definition with_timeout (t : Z) (c : GitCommand) : GitCommand :=
  mkGitCommand (label c) t (gc_read_only c) (gc_configs c) (verb c) (gc_args c).

Definition push_quoted (command word : string) : string := command +:+ " " +:+ shell_quote word.

Definition script (c : GitCommand) : string :=
  let command := if gc_read_only c then GIT_READ else GIT in
  let command := foldl (fun command config => push_quoted (push_quoted command "-c") config) command (gc_configs c) in
  let command := push_quoted command (verb c) in
  foldl push_quoted command (gc_args c).

Definition git_spec (script : string) (repo : option string) (secret : option (string * string)) (limit : Z) : ExecSpec :=
  let spec := spec_timeout (Some limit) (bash script) in
  let spec := foldl (fun spec kv => env_var (fst kv) (snd kv) spec) spec GIT_ENV in
  let spec := match repo with Some repo => spec_working_dir repo spec | None => spec end in
  match secret with Some (key, value) => env_var key value spec | None => spec end.

Definition git_failure (label : string) (r : ExecResult) : Error := GitE (from_command label (failure_of label r)).

Definition feed_object_names (names : list string) : string := foldl push_quoted "printf '%s\n'" names.

(** ** Running *)

Definition run_script (label : string) (repo : option string) (script : string) (secret : option (string * string))
    (limit : Z) : Script ExecResult :=
  run! r := exec_run (git_spec script repo secret limit) in
  if success r then sret r else sthrow (git_failure label r).

Definition run (repo : option string) (c : GitCommand) : Script ExecResult :=
  run_script (label c) repo (script c) None (gc_timeout c).

Definition cat_file_batch (repo_path : string) (blobs : list string) (mode : string) : Script ExecResult :=
  then! slift (validate_all (validate_object_name "blobs") blobs) in
  run_script ("git cat-file " +:+ mode) (Some repo_path)
    (feed_object_names blobs +:+ " | " +:+ GIT_READ +:+ " cat-file " +:+ mode) None GIT_TIMEOUT.

Definition rename_flag (o : GitDiffOptions) : option string :=
  (fun percent => "--find-renames=" +:+ print_uint percent +:+ "%") <$> find_renames o.

(** ** Credentials *)

(** A string before and from the first character that satisfies [p]. *)
Fixpoint break (p : ascii -> bool) (s : string) : string * string :=
  match s with
  | EmptyString => (EmptyString, EmptyString)
  | String a r => if p a then (EmptyString, s) else let '(l, r) := break p r in (String a l, r)
  end.

Record HttpUrl := mkUrl { scheme : string; host : string; rest : string }.

Definition ends_authority (a : ascii) : bool := one_of [47; 63; 35] (code a).

Definition parse_url (url : string) : option HttpUrl :=
  match split_at "://" url with
  | None => None
  | Some (scheme, after_scheme) =>
      if negb (String.eqb scheme "http") && negb (String.eqb scheme "https") then None
      else
        let '(authority, rest) := break ends_authority after_scheme in
        let host := match rsplit_once "@" authority with Some (_, host) => host | None => authority end in
        Some (mkUrl scheme host rest)
  end.

Definition unreserved (a : ascii) : bool := is_ascii_alphanumeric a || one_of [45; 46; 95; 126] (code a).

Definition percent_encoded (a : ascii) : string :=
  String "%" (String (upper_hex_digit (code a / 16)) (String (upper_hex_digit (code a mod 16)) EmptyString)).

Fixpoint encode_userinfo (value : string) : string :=
  match value with
  | EmptyString => EmptyString
  | String a value => (if unreserved a then String a EmptyString else percent_encoded a) +:+ encode_userinfo value
  end.

Definition origin_with (u : HttpUrl) (c : GitCredentials) : string :=
  scheme u +:+ "://" +:+ encode_userinfo (username c) +:+ ":" +:+ encode_userinfo (password c) +:+ "@" +:+ host u.

Definition store_entry (url : string) (c : GitCredentials) : option string := (fun u => origin_with u c) <$> parse_url url.

Definition authed_url (url : string) (c : GitCredentials) : option string :=
  (fun u => origin_with u c +:+ rest u) <$> parse_url url.

Definition rewrite_of (url authed : string) : string := "url." +:+ authed +:+ ".insteadOf=" +:+ url.

Definition remote_url (repo remote : string) : Script string :=
  run! r := run (Some repo) (with_arg remote (with_arg "get-url" (git_command "git remote get-url" "remote"))) in
  sret (trim (stdout_lossy r)).

Definition credential_rewrite (repo remote : string) (credentials : option GitCredentials) : Script (option string) :=
  match credentials with
  | None => sret None
  | Some c =>
      run! url := remote_url repo remote in
      sret (rewrite_of url <$> authed_url url c)
  end.

Definition fnv_prime : Z := 0x100000001b3.

Fixpoint fnv (hash : Z) (s : string) : Z :=
  match s with
  | EmptyString => hash
  | String a s => fnv ((Z.lxor hash (code a) * fnv_prime) mod u64_bound) s
  end.

(** [{:016x}]. *)
Fixpoint hex_padded (width : nat) (n : Z) (acc : string) : string :=
  match width with
  | O => acc
  | S width => hex_padded width (n / 16) (String (hex_digit (n mod 16)) acc)
  end.

Definition safe_char (a : ascii) : bool := is_ascii_alphanumeric a || one_of [45; 46; 95] (code a).

(** A character kept or replaced. *)
Definition readable_char (tc : string * Z) : string :=
  match fst tc with String a EmptyString => if safe_char a then fst tc else "_" | _ => "_" end.

Definition store_file_name (repo_path : string) : string :=
  let stem := default EmptyString (last (split "/" (trim_end_char "/" repo_path))) in
  let stem := if is_empty stem then "repo" else stem in
  let readable := foldr (fun tc acc => readable_char tc +:+ acc) EmptyString (take 40 (uchars stem)) in
  readable +:+ "-" +:+ hex_padded 16 (fnv 0xcbf29ce484222325 repo_path) EmptyString.

Definition credential_store_path (runtime : option string) (repo : string) : Script string :=
  match runtime with
  | Some runtime => sret (trim_end_char "/" runtime +:+ "/git-credentials/" +:+ store_file_name repo)
  | None =>
      run! r := run (Some repo) (with_arg "--absolute-git-dir" (git_command "git rev-parse" "rev-parse")) in
      sret (trim (stdout_lossy r) +:+ "/sandbox-driver-credentials")
  end.

Definition CREDENTIAL_ENV : string := "SANDBOX_DRIVER_GIT_CREDENTIAL".
Definition CONFIG_KEY_ABSENT : string := "[ $? -eq 5 ]".

Definition store_helper (store_path : string) : string := "store --file=" +:+ shell_quote store_path.

Definition DQUOTE : string := String (char 34) EmptyString.

Definition forget_helper (helper : string) : string :=
  "(" +:+ GIT +:+ " config --local --fixed-value --unset-all credential.helper " +:+ helper +:+ " || " +:+ CONFIG_KEY_ABSENT +:+ ")".

Definition store_script (store : string) : string :=
  let path := shell_quote store in
  let temp := shell_quote (store +:+ ".tmp") in
  let directory := shell_quote (match rsplit_once "/" store with Some (dir, _) => dir | None => "/" end) in
  "umask 077 && mkdir -p -- " +:+ directory +:+ " && printf '%s\n' " +:+ DQUOTE +:+ "$" +:+ CREDENTIAL_ENV +:+ DQUOTE +:+
  " > " +:+ temp +:+ " && mv -f -- " +:+ temp +:+ " " +:+ path.

Definition ambient_entry (repo_path : string) (credentials : option GitCredentials) : Script (option string) :=
  match credentials with
  | None => sret None
  | Some c =>
      run! url := remote_url repo_path "origin" in
      match store_entry url c with
      | Some entry => sret (Some entry)
      | None =>
          sthrow (InvalidSpec "credentials"
            "ambient credentials apply to http(s) remotes only; origin is not an http(s) URL")
      end
  end.

Definition apply_ambient_credentials (runtime : option string) (repo_path : string) (credentials : option GitCredentials)
    : Script unit :=
  run! entry := ambient_entry repo_path credentials in
  run! store := credential_store_path runtime repo_path in
  let helper := shell_quote (store_helper store) in
  let path := shell_quote store in
  let temp := shell_quote (store +:+ ".tmp") in
  match entry with
  | Some entry =>
      then! run_script "git credential store" None (store_script store) (Some (CREDENTIAL_ENV, entry)) GIT_TIMEOUT in
      then! run_script "git config credential.helper" (Some repo_path)
        (forget_helper helper +:+ " && " +:+ GIT +:+ " config --local --add credential.helper " +:+ helper) None GIT_TIMEOUT in
      sret tt
  | None =>
      then! run_script "git config credential.helper" (Some repo_path)
        ("rm -f -- " +:+ temp +:+ " " +:+ path +:+ " && " +:+ forget_helper helper) None GIT_TIMEOUT in
      sret tt
  end.

(** ** Clones *)

Inductive Pin := PinCommit (commit : string) | PinTag (tag : string).

Definition fetch_refspec (p : Pin) : string :=
  match p with PinCommit commit => commit | PinTag tag => "+refs/tags/" +:+ tag +:+ ":refs/tags/" +:+ tag end.

Definition revision (p : Pin) : string := match p with PinCommit commit => commit | PinTag tag => "refs/tags/" +:+ tag end.

Definition attach_pinned_branch (repo_path branch revision : string) : Script unit :=
  then! slift (validate_branch_name branch) in
  then! run (Some repo_path) (with_args ["-B"; branch; revision; "--"] (git_command "git checkout" "checkout")) in
  sret tt.

Definition depth_option (depth : option Z) : GitCommand -> GitCommand := option_ "--depth" (print_uint <$> depth).

Definition clone_pinned (url target_path : string) (o : GitCloneOptions) (pin : Pin) (rewrite : option string) : Script unit :=
  then! run None (with_args ["--"; target_path] (git_command "git init" "init")) in
  then! run (Some target_path) (with_args ["add"; "--"; "origin"; url] (git_command "git remote add" "remote")) in
  then! run (Some target_path)
    (with_timeout CLONE_TIMEOUT (with_arg (fetch_refspec pin) (with_args ["--no-tags"; "origin"; "--"]
      (depth_option (clone_depth o) (with_configs (option_list rewrite) (git_command "git fetch" "fetch")))))) in
  match clone_branch o with
  | Some branch => attach_pinned_branch target_path branch (revision pin)
  | None =>
      then! run (Some target_path) (with_args ["--detach"; revision pin; "--"] (git_command "git checkout" "checkout")) in
      sret tt
  end.

Definition clone_into (url target_path : string) (o : GitCloneOptions) : Script unit :=
  then! slift (clone_validate o) in
  let rewrite := match clone_credentials o with Some c => rewrite_of url <$> authed_url url c | None => None end in
  let pin := match clone_commit o, clone_tag o with
             | Some commit, _ => Some (PinCommit commit)
             | None, Some tag => Some (PinTag tag)
             | None, None => None
             end in
  match pin with
  | Some pin => clone_pinned url target_path o pin rewrite
  | None =>
      then! run None
        (with_timeout CLONE_TIMEOUT (with_args ["--"; url; target_path] (with_arg "--no-tags"
          (flag_if (negb (is_none (clone_branch o))) "--single-branch" (option_ "--branch" (clone_branch o)
            (depth_option (clone_depth o) (with_configs (option_list rewrite) (git_command "git clone" "clone")))))))) in
      sret tt
  end.

(** ** Operations *)

Definition LOG_FORMAT : string := "%H%x1f%T%x1f%P%x1f%an%x1f%ae%x1f%aI%x1f%cn%x1f%ce%x1f%cI%x1f%B%x1e".

Section Operations.
(** How the detail of output that does not parse is worded. *)
Context (worded : malformed_detail -> string).

(** [malformed] as the library's error. *)
Definition parsed {A} (r : result A parse_error) : Script A :=
  slift (map_err (fun e => Io ("parsing " +:+ what e) [worded (why_ e)]) r).

Definition status (repo_path : string) : Script GitStatus :=
  run! r := run (Some repo_path) (with_args ["--porcelain=v2"; "-z"; "--branch"] (git_command "git status" "status")) in
  sret (parse_status_v2 (stdout_lossy r)).

Definition add (repo_path : string) (paths : list string) : Script unit :=
  then! run (Some repo_path) (with_args paths (with_arg "--" (git_command "git add" "add"))) in sret tt.

Definition commit (repo_path : string) (o : GitCommitOptions) : Script string :=
  then! run (Some repo_path)
    (flag_if (allow_empty o) "--allow-empty" (with_arg (message o) (with_arg "-m"
      (with_configs ["user.email=" +:+ author_email o] (with_configs ["user.name=" +:+ author_name o]
        (git_command "git commit" "commit")))))) in
  run! r := run (Some repo_path) (with_arg "HEAD" (git_command "git rev-parse" "rev-parse")) in
  sret (trim (stdout_lossy r)).

Definition push (repo_path : string) (o : GitPushOptions) : Script unit :=
  then! slift (push_validate o) in
  let remote := default "origin" (push_remote o) in
  run! rewrite := credential_rewrite repo_path remote (push_credentials o) in
  then! run (Some repo_path)
    (with_timeout (default NETWORK_TIMEOUT (push_timeout o))
      (with_args (option_list (match push_refspec o with Some r => Some r | None => push_branch o end))
        (with_arg remote (flag_if (set_upstream o) "--set-upstream"
          (with_configs (option_list rewrite) (git_command "git push" "push")))))) in
  sret tt.

Definition pull (repo_path : string) (credentials : option GitCredentials) : Script unit :=
  run! rewrite := credential_rewrite repo_path "origin" credentials in
  then! run (Some repo_path)
    (with_timeout NETWORK_TIMEOUT (with_arg "origin" (with_configs (option_list rewrite) (git_command "git pull" "pull")))) in
  sret tt.

Definition list_branches (repo_path : string) : Script GitBranches :=
  run! list := run (Some repo_path)
    (with_args ["--format=%(refname:short)"; "refs/heads"] (git_command "git for-each-ref" "for-each-ref")) in
  run! head := run (Some repo_path) (with_args ["--abbrev-ref"; "HEAD"] (git_command "git rev-parse" "rev-parse")) in
  let head := trim (stdout_lossy head) in
  sret (mkBranches (if String.eqb head "HEAD" then None else Some head) (lines (stdout_lossy list))).

Definition fetch (repo_path : string) (o : GitFetchOptions) : Script unit :=
  then! slift (fetch_validate o) in
  let remote := default "origin" (fetch_remote o) in
  run! rewrite := credential_rewrite repo_path remote (fetch_credentials o) in
  then! run (Some repo_path)
    (with_timeout (default NETWORK_TIMEOUT (fetch_timeout o)) (with_args (refspecs o) (with_arg remote
      (depth_option (fetch_depth o) (with_configs (option_list rewrite) (git_command "git fetch" "fetch")))))) in
  sret tt.

Definition rev_parse (repo_path revision : string) : Script string :=
  then! slift (validate_argument "revision" revision) in
  run! r := run (Some repo_path)
    (with_args ["--verify"; "--end-of-options"; revision] (read_only (git_command "git rev-parse" "rev-parse"))) in
  sret (trim (stdout_lossy r)).

Definition is_ancestor (repo_path ancestor descendant : string) : Script bool :=
  then! slift (validate_argument "ancestor" ancestor) in
  then! slift (validate_argument "descendant" descendant) in
  let c := with_args ["--is-ancestor"; ancestor; descendant] (read_only (git_command "git merge-base" "merge-base")) in
  run! r := exec_run (git_spec (script c) (Some repo_path) None (gc_timeout c)) in
  let exited := bool_decide (res_termination r = Exited) in
  match exit_code r with
  | Some 0 => if exited then sret true else sthrow (git_failure (label c) r)
  | Some 1 => if exited then sret false else sthrow (git_failure (label c) r)
  | _ => sthrow (git_failure (label c) r)
  end.

(** The command the three diffs share, with its own arguments. *)
Definition diff (own : list string) (label : string) (o : GitDiffOptions) : GitCommand :=
  with_timeout (default GIT_TIMEOUT (diff_timeout o)) (with_arg (range_spec None (diff_range o))
    (with_args (option_list (rename_flag o)) (with_args own (read_only (git_command label "diff"))))).

Definition diff_entries (repo_path : string) (o : GitDiffOptions) : Script (list GitDiffEntry) :=
  then! slift (diff_validate o) in
  run! r := run (Some repo_path) (diff ["--no-ext-diff"; "--raw"; "--no-abbrev"; "-z"] "git diff --raw" o) in
  parsed (parse_raw_diff (res_stdout r)).

Definition diff_numstat (repo_path : string) (o : GitDiffOptions) : Script (list GitNumstat) :=
  then! slift (diff_validate o) in
  run! r := run (Some repo_path) (diff ["--no-ext-diff"; "--numstat"; "-z"] "git diff --numstat" o) in
  parsed (parse_numstat (res_stdout r)).

Definition diff_patch (repo_path : string) (o : GitDiffOptions) : Script string :=
  then! slift (diff_validate o) in
  run! r := run (Some repo_path) (diff ["--no-ext-diff"; "--no-color"] "git diff" o) in
  sret (stdout_lossy r).

Definition log (repo_path : string) (o : GitLogOptions) : Script (list GitCommit) :=
  then! slift (log_validate o) in
  run! r := run (Some repo_path)
    (with_timeout (default GIT_TIMEOUT (log_timeout o)) (with_arg (range_spec (Some "HEAD") (log_range o))
      (with_args (option_list ((fun count => "--max-count=" +:+ print_uint count) <$> max_count o))
        (flag_if (log_reverse o) "--reverse" (flag_if (first_parent o) "--first-parent"
          (with_arg ("--format=" +:+ LOG_FORMAT) (read_only (git_command "git log" "log")))))))) in
  parsed (parse_log (stdout_lossy r)).

(** [batch_header] of each line, up to the first that does not parse. *)
Fixpoint batch_headers (ls : list string) : result (list (option Z)) parse_error :=
  match ls with
  | [] => Ok []
  | line :: ls => let? size := batch_header line in let? sizes := batch_headers ls in Ok (size :: sizes)
  end.

Definition blob_sizes (repo_path : string) (blobs : list string) : Script (list (option Z)) :=
  match blobs with
  | [] => sret []
  | _ =>
      run! r := cat_file_batch repo_path blobs "--batch-check" in
      run! sizes := parsed (batch_headers (lines (stdout_lossy r))) in
      if (length sizes =? length blobs)%nat then sret sizes
      else parsed (Err (count_mismatch "git cat-file --batch-check" (length sizes) (length blobs)))
  end.

Definition read_blobs (repo_path : string) (blobs : list string) (max_bytes : Z) : Script (list (option bytes)) :=
  match blobs with
  | [] => sret []
  | _ =>
      run! r := cat_file_batch repo_path blobs "--batch" in
      parsed (parse_batch (res_stdout r) (length blobs) max_bytes)
  end.

Definition config_set (repo_path key value : string) : Script unit :=
  then! slift (validate_config_key key) in
  then! run (Some repo_path) (with_args ["--local"; "--"; key; value] (git_command "git config" "config")) in sret tt.

Definition untracked_files (repo_path : string) : Script (list string) :=
  run! r := run (Some repo_path)
    (with_args ["--others"; "--exclude-standard"; "-z"] (read_only (git_command "git ls-files" "ls-files"))) in
  sret (map lossy (List.filter (fun path => match path with [] => false | _ => true end) (split_bytes 0 (res_stdout r)))).

Definition add_all (repo_path : string) (pathspecs : list string) : Script unit :=
  let c := with_args ["-A"; "--"] (git_command "git add" "add") in
  then! run (Some repo_path) (match pathspecs with [] => with_arg "." c | _ => with_args pathspecs c end) in sret tt.

Definition checkout (repo_path : string) (o : GitCheckoutOptions) : Script unit :=
  then! slift (checkout_validate o) in
  let c := git_command "git checkout" "checkout" in
  let c := if co_create o then with_arg (if co_reset o then "-B" else "-b") c else c in
  then! run (Some repo_path) (with_arg "--" (with_args (option_list (co_start_point o)) (with_arg (co_branch o) c))) in
  sret tt.

(** Every operation of the facet but the ambient credentials, whose scripts are
    not one command of words. *)
Inductive GitOp :=
  | OpClone (url target_path : string) (o : GitCloneOptions)
  | OpStatus | OpAdd (paths : list string) | OpCommit (o : GitCommitOptions) | OpPush (o : GitPushOptions)
  | OpPull (c : option GitCredentials) | OpBranches | OpFetch (o : GitFetchOptions) | OpRevParse (revision : string)
  | OpIsAncestor (ancestor descendant : string) | OpDiffEntries (o : GitDiffOptions) | OpDiffNumstat (o : GitDiffOptions)
  | OpDiffPatch (o : GitDiffOptions) | OpLog (o : GitLogOptions) | OpBlobSizes (blobs : list string)
  | OpBlobs (blobs : list string) (max_bytes : Z) | OpConfigSet (key value : string) | OpUntracked
  | OpAddAll (pathspecs : list string) | OpCheckout (o : GitCheckoutOptions).

Definition void {A} (m : Script A) : Script unit := sbind m (fun _ => sret tt).

Definition git_do (repo_path : string) (op : GitOp) : Script unit :=
  match op with
  | OpClone url target_path o => clone_into url target_path o
  | OpStatus => void (status repo_path)
  | OpAdd paths => add repo_path paths
  | OpCommit o => void (commit repo_path o)
  | OpPush o => push repo_path o
  | OpPull c => pull repo_path c
  | OpBranches => void (list_branches repo_path)
  | OpFetch o => fetch repo_path o
  | OpRevParse revision => void (rev_parse repo_path revision)
  | OpIsAncestor ancestor descendant => void (is_ancestor repo_path ancestor descendant)
  | OpDiffEntries o => void (diff_entries repo_path o)
  | OpDiffNumstat o => void (diff_numstat repo_path o)
  | OpDiffPatch o => void (diff_patch repo_path o)
  | OpLog o => void (log repo_path o)
  | OpBlobSizes blobs => void (blob_sizes repo_path blobs)
  | OpBlobs blobs max_bytes => void (read_blobs repo_path blobs max_bytes)
  | OpConfigSet key value => config_set repo_path key value
  | OpUntracked => void (untracked_files repo_path)
  | OpAddAll pathspecs => add_all repo_path pathspecs
  | OpCheckout o => checkout repo_path o
  end.
End Operations.

(** ** The words of a command *)

(** What every command starts with. *)
Definition hardened (read_only : bool) : list string :=
  ["git"; "-c"; "maintenance.auto=0"; "-c"; "gc.auto=0"; "-c"; "core.hooksPath=/dev/null"; "-c"; "core.fsmonitor=false";
   "-c"; "core.quotePath=false"; "-c"; "commit.gpgsign=false"; "-c"; "tag.gpgsign=false"] ++
  (if read_only then ["-c"; "protocol.file.allow=never"] else []).

Lemma reads_hardened (ro : bool) : reads_as (if ro then GIT_READ else GIT) (hardened ro).
Proof.
  destruct ro; [exact (reads_as_plain "git" (tail (hardened true)) eq_refl)|exact (reads_as_plain "git" (tail (hardened false)) eq_refl)].
Qed.

Lemma reads_configs command ws configs : reads_as command ws ->
  reads_as (foldl (fun command config => push_quoted (push_quoted command "-c") config) command configs)
    (ws ++ flat_map (fun config => ["-c"; config]) configs).
Proof.
  revert command ws. induction configs as [|config configs IH]; intros command ws Hr; cbn [foldl flat_map]; [by rewrite app_nil_r|].
  replace (ws ++ ["-c"; config] ++ flat_map (fun config => ["-c"; config]) configs)%list
    with (((ws ++ ["-c"]) ++ [config]) ++ flat_map (fun config => ["-c"; config]) configs)%list by (by rewrite <- !app_assoc).
  by apply IH, reads_as_quoted, reads_as_quoted.
Qed.

Lemma reads_quoted_words command ws l : reads_as command ws -> reads_as (foldl push_quoted command l) (ws ++ l).
Proof. intros Hr. pose proof (reads_as_fold (fun w => w) l command ws Hr) as H. by rewrite map_id in H. Qed.

Lemma script_words c : shell_words (script c) false None =
  Some (hardened (gc_read_only c) ++ flat_map (fun config => ["-c"; config]) (gc_configs c) ++ verb c :: gc_args c).
Proof.
  apply reads_as_words. unfold script.
  pose proof (reads_quoted_words _ _ (gc_args c) (reads_as_quoted _ _ (verb c) (reads_configs _ _ (gc_configs c) (reads_hardened (gc_read_only c))))) as H.
  rewrite <- !app_assoc in H. exact H.
Qed.

(** ** What a caller cannot reach *)

(** The options the operations pass of their own. *)
Definition own_flags : list string :=
  ["--depth"; "--branch"; "--single-branch"; "--no-tags"; "--detach"; "-B"; "-b"; "--porcelain=v2"; "-z"; "--allow-empty";
   "--set-upstream"; "--format=%(refname:short)"; "--abbrev-ref"; "--verify"; "--is-ancestor"; "--no-ext-diff"; "--raw";
   "--no-abbrev"; "--numstat"; "--no-color"; "--format=" +:+ LOG_FORMAT; "--first-parent"; "--reverse"; "--others";
   "--exclude-standard"; "-A"; "--local"].

Definition own_flag (flag : string) : Prop :=
  flag ∈ own_flags \/ exists n, flag = "--find-renames=" +:+ print_uint n +:+ "%" \/ flag = "--max-count=" +:+ print_uint n.

(** Arguments of which the options are the operations' own: git reads no option
    after [--] or [--end-of-options], and the word after [-m] is a message. *)
Inductive own_options : list string -> Prop :=
  | own_nil : own_options []
  | own_end more : own_options ("--" :: more)
  | own_end_of_options more : own_options ("--end-of-options" :: more)
  | own_message message more : own_options more -> own_options ("-m" :: message :: more)
  | own_own flag more : own_flag flag -> own_options more -> own_options (flag :: more)
  | own_word word more : unflagged word -> own_options more -> own_options (word :: more).

Definition own_config (config : string) : Prop :=
  exists more, config = "user.name=" +:+ more \/ config = "user.email=" +:+ more \/ config = "url." +:+ more.

Definition own_verbs : list string :=
  ["clone"; "init"; "remote"; "fetch"; "checkout"; "status"; "add"; "commit"; "rev-parse"; "push"; "pull"; "for-each-ref";
   "merge-base"; "diff"; "log"; "config"; "ls-files"].

(** A Bash helper with the git environment. *)
Definition git_helper (s : ExecSpec) (script : string) : Prop :=
  script_of s script /\ env s !! "GIT_TERMINAL_PROMPT" = Some "0".

(** One hardened git command. *)
Definition git_call (s : ExecSpec) : Prop :=
  exists script ro configs verb args, git_helper s script /\
    shell_words script false None = Some (hardened ro ++ flat_map (fun config => ["-c"; config]) configs ++ verb :: args) /\
    Forall own_config configs /\ verb ∈ own_verbs /\ own_options args.

(** Object names fed to a hardened [cat-file]. *)
Definition batch_call (s : ExecSpec) : Prop :=
  exists feed reader names mode, git_helper s (feed +:+ " | " +:+ reader) /\
    shell_words feed false None = Some ("printf" :: "%s\n" :: names) /\
    shell_words reader false None = Some (hardened true ++ ["cat-file"; mode]) /\
    Forall (fun name => all_chars is_ascii_hexdigit name = true) names /\ mode ∈ ["--batch"; "--batch-check"].

Lemma git_spec_helper script repo limit : git_helper (git_spec script repo None limit) script.
Proof. unfold git_spec. destruct repo; by split_and!. Qed.

(** A command built for a call is one. *)
Definition well_built (c : GitCommand) : Prop :=
  Forall own_config (gc_configs c) /\ verb c ∈ own_verbs /\ own_options (gc_args c).

Lemma well_built_call c repo limit : well_built c -> git_call (git_spec (script c) repo None limit).
Proof.
  intros (Hc & Hv & Ha). exists (script c), (gc_read_only c), (gc_configs c), (verb c), (gc_args c).
  split; [apply git_spec_helper|]. split; [apply script_words|]. by split_and!.
Qed.

Definition allowed (s : ExecSpec) : Prop := git_call s \/ batch_call s.

Lemma issues_run repo c : well_built c -> issues allowed (run repo c).
Proof.
  intros Hc. unfold run, run_script. apply issues_bind.
  - split; [|done]. left. by apply well_built_call.
  - intros r. by destruct (success r).
Qed.

Lemma in_words word words : existsb (String.eqb word) words = true -> word ∈ words.
Proof. intros (w & Hw & ->%String.eqb_eq)%existsb_exists. by apply list_elem_of_In. Qed.

Lemma number_unflagged n : 0 <= n < u64_bound -> unflagged (print_uint n).
Proof.
  intros Hn. unfold unflagged, print_uint. pose proof u64_digits. destruct (digits_first 20 n EmptyString) as (d & s & Hd & ->); [lia..|].
  unfold starts_with_char. apply bool_decide_eq_false. intros [= E]. apply (f_equal code) in E.
  rewrite code_char in E by lia. change (48 + d = 45) in E. lia.
Qed.

Create HintDb unflagged.

#[local] Hint Resolve ref_name_unflagged argument_unflagged hex_unflagged range_spec_unflagged number_unflagged : unflagged.
#[local] Hint Extern 1 (unflagged _) => reflexivity : unflagged.

(** Shows that the options of a list of arguments are the operation's own. *)
Ltac own_args :=
  repeat first
    [ assumption | apply own_nil | apply own_end | apply own_end_of_options
    | apply own_message
    | apply own_own; [left; apply in_words; reflexivity|]
    | apply own_word; [solve [eauto with unflagged]|] ].

Lemma own_rewrite url authed : own_config (rewrite_of url authed).
Proof. eexists. by right; right. Qed.

Lemma own_rewrites url (authed : option string) : Forall own_config (option_list (rewrite_of url <$> authed)).
Proof. destruct authed; repeat constructor. apply own_rewrite. Qed.

(** Shows that a command is well built. *)
Ltac built :=
  split_and!;
  [ cbn; first [by constructor | by apply own_rewrites | assumption | idtac]
  | apply in_words; reflexivity
  | cbn; try solve [own_args] ].

(** Takes an operation apart into its commands. *)
Ltac commands :=
  repeat first
    [ apply issues_lift; intros ?
    | apply issues_bind; [apply issues_run|intros ?]
    | apply issues_run
    | exact I ].

Lemma remote_url_allowed repo remote : unflagged remote -> issues allowed (remote_url repo remote).
Proof. intros Hr. unfold remote_url. commands. built. Qed.

Lemma credential_rewrite_allowed repo remote c : unflagged remote -> issues allowed (credential_rewrite repo remote c).
Proof.
  intros Hr. unfold credential_rewrite. destruct c; [|done]. apply issues_bind; [by apply remote_url_allowed|]. done.
Qed.

Lemma credential_rewrite_own repo remote c :
  yields (fun r => Forall own_config (option_list r)) (credential_rewrite repo remote c).
Proof.
  unfold credential_rewrite. destruct c as [c|]; [|by intros a [= <-]; constructor].
  eapply yields_bind; [apply yields_any|]. intros url _ a [= <-]. apply own_rewrites.
Qed.

Lemma attach_allowed repo branch revision : unflagged revision -> issues allowed (attach_pinned_branch repo branch revision).
Proof. intros Hr. unfold attach_pinned_branch. commands. built. Qed.


Lemma clone_pinned_allowed url target o pin (rewrite : option string) : clone_validate o = Ok tt ->
  Forall own_config (option_list rewrite) -> match clone_depth o with Some depth => 0 <= depth < u64_bound | None => True end ->
  unflagged (fetch_refspec pin) -> unflagged (revision pin) ->
  issues allowed (clone_pinned url target o pin rewrite).
Proof.
  intros Ho Hc Hd Hf Hr. unfold clone_pinned. commands.
  - built.
  - built.
  - unfold depth_option, option_. destruct (clone_depth o); built.
  - destruct (clone_branch o); [by apply attach_allowed|]. commands. built.
Qed.

(** The numbers of an operation are within their types, and a push's remote is
    not flag-shaped, which no code checks. *)
Definition in_u32 (n : option Z) : Prop := match n with Some n => 0 <= n < u32_bound | None => True end.

Definition well_formed (op : GitOp) : Prop :=
  match op with
  | OpClone _ _ o => in_u32 (clone_depth o)
  | OpFetch o => in_u32 (fetch_depth o)
  | OpPush o => unflagged (default "origin" (push_remote o))
  | _ => True
  end.

Lemma in_u32_u64 n : in_u32 (Some n) -> 0 <= n < u64_bound.
Proof. cbn. assert (u32_bound <= u64_bound) by (vm_compute; discriminate). lia. Qed.

Lemma clone_allowed url target o : in_u32 (clone_depth o) -> issues allowed (clone_into url target o).
Proof.
  intros Hd. unfold clone_into. apply issues_lift. intros Ho. pose proof Ho as Hv.
  unfold clone_validate in Hv. apply rbind_ok in Hv as [Hc Hv]. apply rbind_ok in Hv as [Ht Hb].
  assert (Hdepth : match clone_depth o with Some depth => 0 <= depth < u64_bound | None => True end)
    by (destruct (clone_depth o); [by apply in_u32_u64|done]).
  assert (Hr : Forall own_config (option_list match clone_credentials o with Some c => rewrite_of url <$> authed_url url c | None => None end)).
  { destruct (clone_credentials o); [apply own_rewrites|constructor]. }
  cbv zeta. revert Hr. generalize (match clone_credentials o with Some c => rewrite_of url <$> authed_url url c | None => None end).
  intros rewrite Hr. destruct (clone_commit o) as [commit|] eqn:Ec; [|destruct (clone_tag o) as [tag|] eqn:Et].
  - assert (unflagged commit).
    { cbn [validate_opt] in Hc. destruct (_ || _) eqn:E in Hc; [done|]. apply orb_false_iff in E as [_ E%negb_false_iff]. by apply hex_unflagged. }
    by apply clone_pinned_allowed.
  - by apply clone_pinned_allowed.
  - commands. unfold depth_option, option_. destruct (clone_branch o), (clone_depth o); cbn [validate_opt] in Hb; built.
Qed.

Lemma fetch_allowed repo o : in_u32 (fetch_depth o) -> issues allowed (fetch repo o).
Proof.
  intros Hd. unfold fetch. apply issues_lift. intros [Hremote Hspecs]%rbind_ok. rewrite validate_all_ok in Hspecs.
  assert (Hu : unflagged (default "origin" (fetch_remote o))) by (destruct (fetch_remote o); cbn in *; eauto with unflagged).
  eapply issues_bind_yields; [by apply credential_rewrite_allowed|apply credential_rewrite_own|]. intros rewrite Hr. commands.
  assert (Hs : own_options (refspecs o)).
  { clear -Hspecs. induction Hspecs as [|s l Hs _ IH]; [constructor|]. apply own_word; [by eapply trimmed_unflagged|done]. }
  assert (Hdepth : match fetch_depth o with Some depth => 0 <= depth < u64_bound | None => True end)
    by (destruct (fetch_depth o); [by apply in_u32_u64|done]).
  unfold depth_option, option_. destruct (fetch_depth o); built.
Qed.

Lemma push_allowed repo o : unflagged (default "origin" (push_remote o)) -> issues allowed (push repo o).
Proof.
  intros Hu. unfold push. apply issues_lift. intros [Hb H]%rbind_ok. apply rbind_ok in H as [Hs _].
  eapply issues_bind_yields; [by apply credential_rewrite_allowed|apply credential_rewrite_own|]. intros rewrite Hr. commands.
  assert (Hw : own_options (option_list (match push_refspec o with Some r => Some r | None => push_branch o end))).
  { destruct (push_refspec o) as [refspec|]; cbn [validate_opt] in Hs.
    - destruct (negb _); [done|]. cbn. apply own_word; [by apply refspec_unflagged|constructor].
    - destruct (push_branch o); cbn [validate_opt] in Hb; cbn; own_args. }
  unfold flag_if. destruct (set_upstream o); built.
Qed.

Lemma batch_allowed repo blobs mode : mode ∈ ["--batch"; "--batch-check"] -> issues allowed (cat_file_batch repo blobs mode).
Proof.
  intros Hm. unfold cat_file_batch. apply issues_lift. intros Hn%validate_all_ok. unfold run_script. apply issues_bind.
  2: { intros r. by destruct (success r). }
  split; [|done]. right. exists (feed_object_names blobs), (GIT_READ +:+ " cat-file " +:+ mode), blobs, mode.
  split; [apply git_spec_helper|]. split_and!; [..|done].
  - apply reads_as_words.
    exact (reads_quoted_words _ _ blobs (reads_as_quoted _ _ "%s\n" (reads_as_plain "printf" [] eq_refl))).
  - apply reads_as_words.
    apply elem_of_cons in Hm as [->|[->|[]%elem_of_nil]%elem_of_cons].
    + exact (reads_as_plain "git" (tail (hardened true) ++ ["cat-file"; "--batch"]) eq_refl).
    + exact (reads_as_plain "git" (tail (hardened true) ++ ["cat-file"; "--batch-check"]) eq_refl).
  - eapply Forall_impl; [exact Hn|]. intros name. cbn beta. unfold validate_object_name.
    destruct (_ || _) eqn:E; [done|]. intros _. by apply orb_false_iff in E as [_ E%negb_false_iff].
Qed.

(** The arguments of a diff: its own, the rename threshold, and the range. *)
Lemma diff_built own label o : diff_validate o = Ok tt -> Forall own_flag own -> well_built (diff own label o).
Proof.
  unfold diff_validate. intros [Hr _]%rbind_ok Hown. built. clear label.
  assert (Hend : own_options (option_list (rename_flag o) ++ [range_spec None (diff_range o)])).
  { unfold rename_flag. destruct (find_renames o) as [n|]; cbn.
    - apply own_own; [right; exists n; by left|]. own_args.
    - own_args. }
  rewrite <- app_assoc. induction Hown; [done|]. by apply own_own.
Qed.

Lemma void_allowed {A} (m : Script A) : issues allowed m -> issues allowed (void m).
Proof. intros Hm. unfold void. by apply issues_bind. Qed.

Lemma own_flags_all flags : forallb (fun flag => existsb (String.eqb flag) own_flags) flags = true -> Forall own_flag flags.
Proof.
  intros H. apply Forall_forall. intros flag Hf. left. apply in_words.
  exact (proj1 (forallb_forall _ _) H flag (proj1 (list_elem_of_In _ _) Hf)).
Qed.

Lemma is_ancestor_allowed repo ancestor descendant : issues allowed (is_ancestor repo ancestor descendant).
Proof.
  unfold is_ancestor. apply issues_lift. intros Ha. apply issues_lift. intros Hd. apply issues_bind.
  - split; [|done]. left. apply well_built_call. built.
  - intros r. cbv zeta. destruct (bool_decide _); by destruct (exit_code r) as [[|[]|]|].
Qed.

(** A diff and what is read from its output. *)
Lemma diff_allowed {A} repo own label o (k : ExecResult -> Script A) :
  forallb (fun flag => existsb (String.eqb flag) own_flags) own = true -> (forall r, issues allowed (k r)) ->
  issues allowed (then! slift (diff_validate o) in run! r := run (Some repo) (diff own label o) in k r).
Proof.
  intros Hown Hk. apply issues_lift. intros Ho. apply issues_bind; [|done].
  by apply issues_run, diff_built; [|apply own_flags_all].
Qed.

Lemma parsed_allowed {A} worded (r : result A parse_error) : issues allowed (parsed worded r).
Proof. unfold parsed. by destruct r. Qed.

Lemma log_allowed worded repo o : issues allowed (log worded repo o).
Proof.
  unfold log. apply issues_lift. intros Ho. apply issues_bind; [|intros r; apply parsed_allowed].
  apply issues_run. unfold log_validate in Ho. pose proof (range_spec_unflagged (Some "HEAD") _ Ho) as Hs.
  assert (Hend : own_options (option_list ((fun count => "--max-count=" +:+ print_uint count) <$> max_count o)
            ++ [range_spec (Some "HEAD") (log_range o)])).
  { destruct (max_count o) as [n|]; cbn; [|own_args]. apply own_own; [right; exists n; by right|]. own_args. }
  unfold flag_if. destruct (log_reverse o), (first_parent o); built; cbn; own_args; exact Hend.
Qed.

Lemma checkout_allowed repo o : issues allowed (checkout repo o).
Proof.
  unfold checkout. apply issues_lift. unfold checkout_validate. intros [Hb Ho]%rbind_ok.
  destruct (co_reset o && _); cbn [negb] in Ho; [done|].
  assert (Hs : own_options (option_list (co_start_point o) ++ ["--"])).
  { destruct (co_start_point o); cbn [validate_opt] in Ho; cbn; [|own_args].
    destruct (co_create o); cbn [negb] in Ho; [|done]. own_args. }
  commands. destruct (co_create o), (co_reset o); built; cbn; own_args.
Qed.

Lemma commit_allowed repo o : issues allowed (commit repo o).
Proof.
  unfold commit. commands; [|built]. assert (Forall own_config (["user.name=" +:+ author_name o] ++ ["user.email=" +:+ author_email o])).
  { constructor; [eexists; by left|]. constructor; [eexists; by right; left|constructor]. }
  unfold flag_if. destruct (allow_empty o); built.
Qed.

Lemma pull_allowed repo c : issues allowed (pull repo c).
Proof.
  unfold pull. eapply issues_bind_yields; [by apply credential_rewrite_allowed|apply credential_rewrite_own|]. intros rewrite Hr.
  commands. built.
Qed.

Lemma blobs_allowed worded repo blobs : issues allowed (blob_sizes worded repo blobs) /\ forall max, issues allowed (read_blobs worded repo blobs max).
Proof.
  unfold blob_sizes, read_blobs. destruct blobs as [|blob blobs]; [done|]. split; [|intros max].
  - apply issues_bind; [by apply batch_allowed, in_words|]. intros r. apply issues_bind; [apply parsed_allowed|].
    intros sizes. case_match; [done|apply parsed_allowed].
  - apply issues_bind; [by apply batch_allowed, in_words|]. intros r. apply parsed_allowed.
Qed.

(** C33. Nothing a caller passes becomes an option, a push's remote apart. Whatever the
    commands answer, every command an operation runs is either one hardened git
    command — whose words after the fixed prefix are configuration of the
    operation's own making, a verb and arguments, of which those before [--] that
    look like options are the operation's own — or full object names fed to a hardened
    [cat-file]. The one argument that no operation validates is the remote of a push,
    which this takes not to look like an option ([well_formed]): one that does is one
    ([push_remote_flag]). *)
Theorem git_arguments worded repo op : well_formed op -> issues allowed (git_do worded repo op).
Proof.
  intros Hw. destruct op; cbn [git_do well_formed] in *; try apply void_allowed.
  - by apply clone_allowed.
  - unfold status. commands. built.
  - unfold add. commands. built.
  - apply commit_allowed.
  - by apply push_allowed.
  - apply pull_allowed.
  - unfold list_branches. commands; built.
  - by apply fetch_allowed.
  - unfold rev_parse. commands. built.
  - apply is_ancestor_allowed.
  - apply diff_allowed; [done|]. intros r. apply parsed_allowed.
  - apply diff_allowed; [done|]. intros r. apply parsed_allowed.
  - by apply diff_allowed.
  - apply log_allowed.
  - apply blobs_allowed.
  - apply blobs_allowed.
  - unfold config_set. commands. built.
  - unfold untracked_files. commands. built.
  - unfold add_all. commands. destruct pathspecs; built.
  - apply checkout_allowed.
Qed.

(** A push's remote is passed as it is: one that looks like an option is one. *)
Lemma push_remote_flag : exists s, fst (play (push "/repo" (mkPushOptions (Some "--mirror") None false None None None)) []) = [s] /\
  forall script, script_of s script -> shell_words script false None = Some (hardened false ++ ["push"; "--mirror"]).
Proof. eexists. split; [vm_compute; reflexivity|]. intros script [_ [= <-]]. vm_compute. reflexivity. Qed.

(** ** Credentials in a URL *)

(** How a reader of a URL decodes a part of its authority. *)
Fixpoint percent_decode (s : string) : option string :=
  match s with
  | EmptyString => Some EmptyString
  | String a s =>
      if Ascii.eqb a "%" then
        match s with
        | String h (String l s) =>
            match to_digit h, to_digit l, percent_decode s with
            | Some h, Some l, Some r => Some (String (char (h * 16 + l)) r)
            | _, _, _ => None
            end
        | _ => None
        end
      else String a <$> percent_decode s
  end.

(** The characters of an encoded part. *)
Definition userinfo_char (a : ascii) : bool := unreserved a || Ascii.eqb a "%".

Lemma upper_hex_unreserved n : 0 <= n < 16 -> unreserved (upper_hex_digit n) = true.
Proof. apply (all_digits (fun n => unreserved (upper_hex_digit n))). vm_compute. reflexivity. Qed.

Lemma encode_userinfo_chars value : all_chars userinfo_char (encode_userinfo value) = true.
Proof.
  induction value as [|a value IH]; [done|]. cbn [encode_userinfo]. rewrite all_chars_app, IH, andb_true_r.
  destruct (unreserved a) eqn:E; [by cbn; unfold userinfo_char; rewrite E|].
  destruct (byte_digits a) as (Hh & Hl & _). unfold percent_encoded, userinfo_char. cbn [all_chars].
  by rewrite !upper_hex_unreserved.
Qed.

Lemma percent_decode_encode value : percent_decode (encode_userinfo value) = Some value.
Proof.
  induction value as [|a value IH]; [done|]. cbn [encode_userinfo]. destruct (unreserved a) eqn:E.
  - cbn [String.app percent_decode]. assert (Ascii.eqb a "%" = false) as ->.
    { apply Ascii.eqb_neq. by intros ->. }
    by rewrite IH.
  - destruct (byte_digits a) as (Hh & Hl & Ha). unfold percent_encoded. cbn [String.app percent_decode Ascii.eqb Bool.eqb].
    destruct (to_digit_hex _ Hh) as [_ ->], (to_digit_hex _ Hl) as [_ ->]. by rewrite IH, Ha, char_code.
Qed.

Lemma split_at_http scheme s : scheme = "http" \/ scheme = "https" -> split_at "://" (scheme +:+ "://" +:+ s) = Some (scheme, s).
Proof. by intros [-> | ->]. Qed.

Lemma break_spec p s l r : break p s = (l, r) -> s = l +:+ r /\ all_chars (fun a => negb (p a)) l = true /\
  match r with String a _ => p a = true | EmptyString => True end.
Proof.
  revert l. induction s as [|a s IH]; intros l; cbn [break]; [by intros [= <- <-]|].
  destruct (p a) eqn:E; [by intros [= <- <-]|]. destruct (break p s) as [l' r'] eqn:Eb. intros [= <- <-].
  destruct (IH l' eq_refl) as (-> & Hl & Hr). cbn. by rewrite E, Hl.
Qed.

Lemma break_app p l r : all_chars (fun a => negb (p a)) l = true -> match r with String a _ => p a = true | EmptyString => True end ->
  break p (l +:+ r) = (l, r).
Proof.
  intros Hl Hr. induction l as [|a l IH].
  - destruct r as [|a r]; cbn; [done|by rewrite Hr].
  - cbn [all_chars] in Hl. apply andb_true_iff in Hl as [Ha%negb_true_iff Hl]. cbn. by rewrite Ha, IH.
Qed.

Lemma parse_url_spec url u : parse_url url = Some u ->
  (scheme u = "http" \/ scheme u = "https") /\
  (exists userinfo, url = scheme u +:+ "://" +:+ userinfo +:+ host u +:+ rest u) /\
  all_chars (fun a => negb (ends_authority a)) (host u) = true /\ all_chars (fun a => negb (Ascii.eqb "@" a)) (host u) = true /\
  match rest u with String a _ => ends_authority a = true | EmptyString => True end.
Proof.
  unfold parse_url. destruct (split_at "://" url) as [[scheme0 after]|] eqn:Es; [|done].
  destruct (_ && _) eqn:E; [done|]. destruct (break ends_authority after) as [authority rest0] eqn:Eb. intros [= <-]. cbn [scheme host rest].
  apply split_at_some in Es as ->. apply break_spec in Eb as (-> & Ha & Hr). split_and!; [| | |apply rsplit_once_free|done].
  - apply andb_false_iff in E as [E|E]; apply negb_false_iff, String.eqb_eq in E; auto.
  - destruct (rsplit_once "@" authority) as [[l r]|] eqn:Er.
    + apply rsplit_once_some in Er as ->. exists (l +:+ "@"). by rewrite <- !app_assoc_string.
    + by exists EmptyString.
  - destruct (rsplit_once "@" authority) as [[l r]|] eqn:Er; [|done]. apply rsplit_once_some in Er as ->.
    rewrite all_chars_app in Ha. cbn in Ha. by repeat apply andb_true_iff in Ha as [? Ha].
Qed.

(** A URL whose authority carries encoded user information is taken apart again. *)
Lemma parse_url_authed s name pass h r : s = "http" \/ s = "https" ->
  all_chars userinfo_char name = true -> all_chars userinfo_char pass = true ->
  all_chars (fun a => negb (ends_authority a)) h = true -> all_chars (fun a => negb (Ascii.eqb "@" a)) h = true ->
  match r with String a _ => ends_authority a = true | EmptyString => True end ->
  parse_url (s +:+ "://" +:+ (name +:+ ":" +:+ pass +:+ "@" +:+ h) +:+ r) = Some (mkUrl s h r).
Proof.
  intros Hs Hn Hp Hh Hat Hr. unfold parse_url. rewrite split_at_http by done.
  assert (Hclean : forall v, all_chars userinfo_char v = true -> all_chars (fun a => negb (ends_authority a)) v = true).
  { intros v. apply all_chars_impl. intros a Ha. apply negb_true_iff. unfold ends_authority, one_of. cbn [existsb].
    rewrite orb_false_r. repeat (apply orb_false_iff; split); apply Z.eqb_neq; intros E; rewrite <- (char_code a), E in Ha; by vm_compute in Ha. }
  assert (Hauth : all_chars (fun a => negb (ends_authority a)) (name +:+ ":" +:+ pass +:+ "@" +:+ h) = true).
  { rewrite !all_chars_app. cbn [all_chars]. by rewrite (Hclean name), (Hclean pass), Hh by done. }
  rewrite break_app by done.
  replace (name +:+ ":" +:+ pass +:+ "@" +:+ h) with ((name +:+ ":" +:+ pass) +:+ String "@" h) by (by rewrite <- !app_assoc_string).
  rewrite rsplit_once_last by done. by destruct Hs as [-> | ->].
Qed.

(** C34. Credentials travel in a URL unharmed and alone. The URL made for one operation
    names the same scheme, host and path as the remote's, whose own user
    information is replaced; its user information decodes to the user name and the
    password, whatever bytes they hold; the line of the credential store is that
    URL without its path; and git, which cuts a configuration value at its first
    [=], reads the rewrite as replacing the remote's URL by it, unless the
    remote's URL has that character. *)
Theorem credential_urls url c authed : authed_url url c = Some authed ->
  exists u name pass, parse_url url = Some u /\ parse_url authed = Some u /\
    authed = scheme u +:+ "://" +:+ (name +:+ ":" +:+ pass +:+ "@" +:+ host u) +:+ rest u /\
    percent_decode name = Some (username c) /\ percent_decode pass = Some (password c) /\
    all_chars userinfo_char name = true /\ all_chars userinfo_char pass = true /\
    (exists entry, store_entry url c = Some entry /\ authed = entry +:+ rest u /\ parse_url entry = Some (mkUrl (scheme u) (host u) EmptyString)) /\
    (all_chars (fun a => negb (Ascii.eqb "=" a)) url = true ->
     split_once "=" (rewrite_of url authed) = Some ("url." +:+ authed +:+ ".insteadOf", url)).
Proof.
  unfold authed_url, store_entry. destruct (parse_url url) as [u|] eqn:E; [|done]. intros [= <-].
  destruct (parse_url_spec url u E) as (Hs & (userinfo & Hurl) & Hh & Hat & Hr).
  pose proof (encode_userinfo_chars (username c)) as Hn. pose proof (encode_userinfo_chars (password c)) as Hp.
  assert (Hshape : forall r, origin_with u c +:+ r =
    scheme u +:+ "://" +:+ (encode_userinfo (username c) +:+ ":" +:+ encode_userinfo (password c) +:+ "@" +:+ host u) +:+ r).
  { intros r. unfold origin_with. by rewrite <- !app_assoc_string. }
  exists u, (encode_userinfo (username c)), (encode_userinfo (password c)). rewrite Hshape. split_and!; try done.
  - rewrite parse_url_authed by done. by destruct u.
  - apply percent_decode_encode.
  - apply percent_decode_encode.
  - exists (origin_with u c). split; [done|]. split; [by rewrite Hshape|].
    pose proof (Hshape EmptyString) as H0. rewrite app_nil_r_string in H0. rewrite H0. by apply parse_url_authed.
  - intros Hfree. unfold rewrite_of.
    match goal with |- split_once _ ("url." +:+ ?authed +:+ ".insteadOf=" +:+ url) = _ => set (a := authed) end.
    replace ("url." +:+ a +:+ ".insteadOf=" +:+ url) with (("url." +:+ a +:+ ".insteadOf") +:+ String "=" url)
      by (by rewrite <- !app_assoc_string).
    apply split_once_app. subst a. rewrite Hurl in Hfree. rewrite !all_chars_app in Hfree. 
    repeat apply andb_true_iff in Hfree as [? Hfree].
    assert (Hclean : forall v, all_chars userinfo_char v = true -> all_chars (fun b => negb (Ascii.eqb "=" b)) v = true).
    { intros v. apply all_chars_impl. intros b Hb. apply negb_true_iff, Ascii.eqb_neq. by intros <-. }
    rewrite !all_chars_app. cbn [all_chars]. rewrite (Hclean (encode_userinfo (username c))), (Hclean (encode_userinfo (password c))) by done.
    repeat (apply andb_true_iff; split); done.
Qed.

(** ** The secret of the ambient credentials *)

(** Two computations that run the same commands but for what [R] allows, on the
    same answers, and end alike. *)
Fixpoint alike {A} (R : ExecSpec -> ExecSpec -> Prop) (m m' : Script A) : Prop :=
  match m, m' with
  | Done r, Done r' => r = r'
  | Run s k, Run s' k' => R s s' /\ forall answer, alike R (k answer) (k' answer)
  | _, _ => False
  end.

(** The commands differ in the value of [CREDENTIAL_ENV] at most. *)
Definition same_but_secret (s s' : ExecSpec) : Prop :=
  env_var CREDENTIAL_ENV EmptyString s = env_var CREDENTIAL_ENV EmptyString s'.

Lemma alike_refl {A} (m : Script A) : alike same_but_secret m m.
Proof.
  by induction m as [r|s k IH].
Qed.

Lemma alike_bind {A B} R (m m' : Script A) (k k' : A -> Script B) :
  alike R m m' -> (forall a, alike R (k a) (k' a)) -> alike R (sbind m k) (sbind m' k').
Proof.
  intros Hm Hk. revert m' Hm. induction m as [r|s c IH]; intros [r'|s' c'] Hm; cbn in Hm; try done.
  - subst r'. destruct r; cbn; [apply Hk|done].
  - destruct Hm as [Hs Hc]. cbn. split; [done|]. intros answer. by apply IH.
Qed.

(** The entries of two credentials: both or neither, for whatever remote. *)
Lemma alike_entries {B} repo c c' (k : option string -> Script B) :
  (forall e e', alike same_but_secret (k (Some e)) (k (Some e'))) ->
  alike same_but_secret (sbind (ambient_entry repo (Some c)) k) (sbind (ambient_entry repo (Some c')) k).
Proof.
  intros Hk. unfold ambient_entry, remote_url, run, run_script, exec_run. cbn [sbind alike]. split; [done|].
  intros [r|e]; cbn [sbind]; [|done]. destruct (success r); cbn [sbind sret sthrow]; [|done].
  unfold store_entry. destruct (parse_url _); cbn; [apply Hk|done].
Qed.

Lemma alike_secret label script (e e' : string) limit :
  alike same_but_secret (run_script label None script (Some (CREDENTIAL_ENV, e)) limit)
    (run_script label None script (Some (CREDENTIAL_ENV, e')) limit).
Proof.
  unfold run_script, exec_run. cbn [sbind alike]. split; [|intros [r|]; cbn [sbind]; [by destruct (success r)|done]].
  reflexivity.
Qed.

(** The variable carries the entry for the remote's URL, or is absent. *)
Definition carries (c : GitCredentials) (s : ExecSpec) : Prop :=
  env s !! CREDENTIAL_ENV = None \/ exists url entry, store_entry url c = Some entry /\ env s !! CREDENTIAL_ENV = Some entry.

Lemma carries_none c script repo limit : carries c (git_spec script repo None limit).
Proof. left. unfold git_spec. by destruct repo. Qed.

Lemma issues_run_script P label repo script secret limit : P (git_spec script repo secret limit) ->
  issues P (run_script label repo script secret limit).
Proof. intros HP. unfold run_script. apply issues_bind; [by split|]. intros r. by destruct (success r). Qed.

Lemma ambient_entry_yields repo c :
  yields (fun e => match e with Some e => exists url, store_entry url c = Some e | None => False end) (ambient_entry repo (Some c)).
Proof.
  unfold ambient_entry. eapply yields_bind; [apply yields_any|]. intros url _. destruct (store_entry url c) as [e|] eqn:E; [|done].
  intros a [= <-]. by exists url.
Qed.

Lemma store_path_carries c runtime repo : issues (carries c) (credential_store_path runtime repo).
Proof.
  unfold credential_store_path. destruct runtime; [done|]. apply issues_bind; [|done]. apply issues_run_script, carries_none.
Qed.

(** A secret enters no command's text. Whatever the commands answer, installing
    two credentials runs the same scripts in the same order, in the same
    directories and with the same limits, and ends the same way: the only
    difference is the value of one environment variable, which is absent or the
    credential store's line for the remote. Removing credentials has no secret. *)
Theorem ambient_secret runtime repo c c' :
  alike same_but_secret (apply_ambient_credentials runtime repo (Some c)) (apply_ambient_credentials runtime repo (Some c')) /\
  issues (carries c) (apply_ambient_credentials runtime repo (Some c)).
Proof.
  unfold apply_ambient_credentials. split.
  - apply alike_entries. intros e e'. apply alike_bind; [apply alike_refl|]. intros store. cbv zeta.
    apply alike_bind; [apply alike_secret|]. intros _. apply alike_refl.
  - eapply issues_bind_yields; [|apply ambient_entry_yields|].
    { unfold ambient_entry, remote_url. apply issues_bind; [|intros url; by destruct (store_entry url c)].
      apply issues_bind; [apply issues_run_script, carries_none|done]. }
    intros [e|] He; [|done]. destruct He as [url He]. apply issues_bind; [apply store_path_carries|]. intros store. cbv zeta.
    apply issues_bind; [|intros _; apply issues_bind; [apply issues_run_script, carries_none|done]].
    apply issues_run_script. right. exists url, e. split; [done|]. unfold git_spec, env_var. cbn. by rewrite lookup_insert_eq.
Qed.

(** ** Where the credentials are stored *)

Lemma hex_padded_chars p width n acc : (forall d, 0 <= d < 16 -> p (hex_digit d) = true) ->
  all_chars p acc = true -> all_chars p (hex_padded width n acc) = true.
Proof.
  intros Hp. revert n acc. induction width as [|width IH]; intros n acc Ha; [done|]. cbn [hex_padded]. apply IH. cbn.
  rewrite Hp, Ha; [done|]. apply Z.mod_pos_bound. lia.
Qed.

Lemma hex_padded_length width n acc : String.length (hex_padded width n acc) = (width + String.length acc)%nat.
Proof. revert n acc. induction width as [|width IH]; intros n acc; [done|]. cbn [hex_padded]. rewrite IH. cbn. lia. Qed.

(** The file of a repository's credentials is in the runtime directory whatever
    the repository's path: its name is of safe characters, and longer than the
    names of directories that are not. *)
Lemma store_file_name_safe repo :
  all_chars safe_char (store_file_name repo) = true /\ (17 <= String.length (store_file_name repo))%nat.
Proof.
  unfold store_file_name. set (cs := take 40 _). set (tail := hex_padded 16 _ _). split.
  - rewrite !all_chars_app. apply andb_true_iff. split.
    + induction cs as [|[t n] cs IH]; [done|]. cbn [foldr]. rewrite all_chars_app, IH, andb_true_r. unfold readable_char. cbn [fst].
      destruct t as [|a [|b t]]; [done| |done]. destruct (safe_char a) eqn:E; [|done]. cbn. by rewrite E.
    + apply andb_true_iff. split; [done|]. apply hex_padded_chars; [|done]. 
      intros d. apply (all_digits (fun d => safe_char (hex_digit d))). vm_compute. reflexivity.
  - rewrite !length_string_app. subst tail. rewrite hex_padded_length. cbn. lia.
Qed.

(** ** Witnesses *)

Definition demo_credentials : GitCredentials := mkCredentials "user" "p@ss" None.

Definition demo_push : GitOp := OpPush (mkPushOptions (Some "fork") (Some "main") true None (Some demo_credentials) None).

Lemma git_arguments_witness :
  well_formed demo_push /\ issues allowed (git_do (fun _ => EmptyString) "/repo" demo_push).
Proof.
  assert (H : well_formed demo_push) by reflexivity.
  split; [exact H|]. apply (git_arguments (fun _ => EmptyString) "/repo" demo_push). exact H.
Defined.

Example demo_rewrite :
  rewrite_of "https://old@h/r" <$> authed_url "https://old@h/r" demo_credentials =
  Some "url.https://user:p%40ss@h/r.insteadOf=https://old@h/r".
Proof. reflexivity. Qed.

Lemma credential_urls_witness :
  authed_url "https://old@h/r" demo_credentials = Some "https://user:p%40ss@h/r" /\
  exists u, parse_url "https://old@h/r" = Some u /\ parse_url "https://user:p%40ss@h/r" = Some u.
Proof.
  split; [reflexivity|].
  destruct (credential_urls "https://old@h/r" demo_credentials "https://user:p%40ss@h/r" eq_refl) as (u & _ & _ & Hu & Ha & _).
  exists u. split; [exact Hu|exact Ha].
Defined.
