(* ===== verification/DerivedFs.v ===== *)
(** * Files over a sandbox's commands

    Models [crates/sandbox-driver/src/derived/fs.rs], the file facet made of
    commands, and the defaults of the [Filesystem] trait in
    [crates/sandbox-driver/src/fs.rs]. The caller's own files are inputs. *)

From S2P Require Import Prelude Text Hex Shell ShellRun Sanitize Exec Errors Script.

#[local] Open Scope string_scope.
#[local] Open Scope list_scope.
#[local] Open Scope Z_scope.

Definition FS_TIMEOUT : Z := 60 * 1000.
Definition WRITE_CHUNK_BYTES : nat := (64 * 1024)%nat.
Definition DEFAULT_BUFFER_BYTES : Z := 16 * 1024 * 1024.

Inductive FileKind := KFile | KDirectory | KSymlink | KOther.

#[export] Instance FileKind_eq_dec : EqDecision FileKind.
Proof. solve_decision. Defined.

Record DirEntry := mkEntry { entry_path : string; entry_kind : FileKind; entry_size : option Z }.

(** [modified_at] in seconds since the epoch. *)
Record FileMetadata := mkMetadata { meta_kind : FileKind; meta_size : Z; mode : option Z; modified_at : option Z }.

(** ** Base64 *)

Definition base64_char (n : Z) : ascii :=
  char (if n <? 26 then 65 + n else if n <? 52 then 71 + n else if n <? 62 then n - 4 else if n =? 62 then 43 else 47).

Definition PAD : ascii := "=".

(** A chunk of at most three bytes. *)
Definition base64_chunk (chunk : bytes) : string :=
  let b0 := default 0 (chunk !! 0%nat) in
  let b1 := default 0 (chunk !! 1%nat) in
  let b2 := default 0 (chunk !! 2%nat) in
  let triple := Z.lor (Z.lor (Z.shiftl b0 16) (Z.shiftl b1 8)) b2 in
  let digit shift := base64_char (Z.land (Z.shiftr triple shift) 63) in
  String (digit 18) (String (digit 12)
    (String (if (1 <? length chunk)%nat then digit 6 else PAD)
      (String (if (2 <? length chunk)%nat then digit 0 else PAD) EmptyString))).

Definition base64_encode (bs : bytes) : string :=
  foldr (fun chunk acc => base64_chunk chunk +:+ acc) EmptyString (chunks 3 bs).

(** ** Reading and writing *)

Definition run (label command : string) : Script ExecResult := run_bash FS_TIMEOUT label command.

Definition read (path : string) : Script bytes :=
  run! r := run "fs read" ("cat -- " +:+ shell_quote path) in sret (res_stdout r).

Definition read_range (path : string) (offset : Z) (length : option Z) : Script bytes :=
  let first := print_uint (Z.min (offset + 1) (u64_bound - 1)) in
  let command := match length with
                 | Some length => "tail -c +" +:+ first +:+ " -- " +:+ shell_quote path +:+ " | head -c " +:+ print_uint length
                 | None => "tail -c +" +:+ first +:+ " -- " +:+ shell_quote path
                 end in
  run! r := run "fs read_range" command in sret (res_stdout r).

Definition DQUOTE : string := String (char 34) EmptyString.

Definition mkdir_line (quoted : string) : string :=
  "dir=$(dirname -- " +:+ quoted +:+ "); mkdir -p -- " +:+ DQUOTE +:+ "$dir" +:+ DQUOTE.

(** The command that writes one chunk. *)
Definition chunk_line (path : string) (first append : bool) (encoded : string) : string :=
  (if first then mkdir_line (shell_quote path) +:+ " && " else EmptyString) +:+
  "printf '%s' '" +:+ encoded +:+ "' | base64 -d " +:+ (if append then ">>" else ">") +:+ " " +:+ shell_quote path.

(** The loop over the chunks; [redirect] says, for the first chunk and for the
    others, whether it appends. *)
Fixpoint write_chunks (label path : string) (redirect : bool -> bool) (first : bool) (cs : list bytes) : Script unit :=
  match cs with
  | [] => sret tt
  | chunk :: cs =>
      then! run label (chunk_line path first (redirect first) (base64_encode chunk)) in
      write_chunks label path redirect false cs
  end.

Definition empty_line (path : string) : string := mkdir_line (shell_quote path) +:+ " && : > " +:+ shell_quote path.
Definition touch_line (path : string) : string := mkdir_line (shell_quote path) +:+ " && touch -- " +:+ shell_quote path.

Definition write_append (path : string) (content : bytes) : Script unit :=
  match content with
  | [] => then! run "fs append" (touch_line path) in sret tt
  | _ => write_chunks "fs append" path (fun _ => true) true (chunks WRITE_CHUNK_BYTES content)
  end.

Definition write (path : string) (content : bytes) : Script unit :=
  match content with
  | [] => then! run "fs write" (empty_line path) in sret tt
  | _ => write_chunks "fs write" path negb true (chunks WRITE_CHUNK_BYTES content)
  end.

(** ** The other operations *)

Definition delete (path : string) (recursive : bool) : Script unit :=
  let quoted := shell_quote path in
  let command :=
    if recursive then "rm -rf -- " +:+ quoted
    else "if [ ! -e " +:+ quoted +:+ " ]; then exit 0; elif [ -d " +:+ quoted +:+ " ]; then rmdir -- " +:+ quoted +:+
         "; else rm -f -- " +:+ quoted +:+ "; fi" in
  then! run "fs delete" command in sret tt.

Definition exists_ (path : string) : Script bool :=
  run! r := exec_run (spec_timeout (Some FS_TIMEOUT) (bash ("[ -e " +:+ shell_quote path +:+ " ]"))) in
  sret (bool_decide (exit_code r = Some 0)).

Definition parse_kind (text : string) : FileKind :=
  if String.eqb text "regular file" || String.eqb text "regular empty file" then KFile
  else if String.eqb text "directory" then KDirectory
  else if String.eqb text "symbolic link" then KSymlink
  else KOther.

(** The latest second a time of the host has: adding more to the epoch panics. *)
Definition LAST_SECOND : Z := 2 ^ 63 - 1.

(** Reading [stat]'s line, which panics at a time that is too late; [debug_str] is
    the [{:?}] form of a string. *)
Definition parse_stat (debug_str : string -> string) (text : string) : option (result FileMetadata Error) :=
  match splitn 4 "|" (trim text) with
  | kind :: size :: mode :: mtime :: _ =>
      let modified := parse_uint u64_bound mtime in
      if match modified with Some secs => LAST_SECOND <? secs | None => false end then None
      else Some (Ok (mkMetadata (parse_kind kind) (default 0 (parse_uint u64_bound size)) (from_str_radix 8 u32_bound mode) modified))
  | _ => Some (Err (InvalidSpec "stat" ("unparseable output: " +:+ debug_str text)))
  end.

(** None is the panic. *)
Definition metadata (debug_str : string -> string) (path : string) : Script (option FileMetadata) :=
  run! r := run "fs metadata" ("stat -c '%F|%s|%a|%Y' -- " +:+ shell_quote path) in
  match parse_stat debug_str (stdout_lossy r) with
  | None => sret None
  | Some m => run! m := slift m in sret (Some m)
  end.

(** One record of a listing. *)
Definition parse_entry (record : string) : option DirEntry :=
  match splitn 3 "|" record with
  | kind :: size :: name :: _ =>
      let kind := parse_kind kind in
      Some (mkEntry (default name (strip_prefix "./" name)) kind
              (if bool_decide (kind = KFile) then parse_uint u64_bound size else None))
  | _ => None
  end.

Definition entry_le (a b : DirEntry) : bool := String.leb (entry_path a) (entry_path b).

Definition parse_entries (text : string) : list DirEntry := sort_by entry_le (omap parse_entry (split "000" text)).

Definition list_dir (path : string) (depth : Z) : Script (list DirEntry) :=
  run! r := run "fs list_dir"
    ("cd -- " +:+ shell_quote path +:+ " && find . -mindepth 1 -maxdepth " +:+ print_uint depth +:+
     " -print0 | xargs -0 -r stat --printf '%F|%s|%n\0' --") in
  sret (parse_entries (stdout_lossy r)).

Definition create_dir (path : string) : Script unit :=
  then! run "fs create_dir" ("mkdir -p -- " +:+ shell_quote path) in sret tt.

Definition rename (from to : string) : Script unit :=
  then! run "fs rename" ("mv -- " +:+ shell_quote from +:+ " " +:+ shell_quote to) in sret tt.

(** [{:o}] of a [u32]. *)
Fixpoint octal_digits (fuel : nat) (n : Z) (acc : string) : string :=
  match fuel with
  | O => acc
  | S fuel =>
      if n <? 8 then String (char (48 + n)) acc else octal_digits fuel (n / 8) (String (char (48 + n mod 8)) acc)
  end.

Definition print_octal (n : Z) : string := octal_digits 11 n EmptyString.

Definition set_permissions (path : string) (mode : Z) : Script unit :=
  then! run "fs chmod" ("chmod " +:+ print_octal mode +:+ " -- " +:+ shell_quote path) in sret tt.

(** [local] is what reading the caller's file gives. *)
Definition upload (local : result bytes Error) (remote : string) : Script unit :=
  run! content := slift local in write remote content.

(** The bytes go to the caller's file; [save] is what writing it gives. *)
Definition download (remote : string) (save : bytes -> result unit Error) : Script unit :=
  run! content := read remote in slift (save content).

(** ** The defaults of the trait *)

Section Defaults.
(** The operations a default is made of. *)
Context (read' : string -> Script bytes) (exists' : string -> Script bool) (write' : string -> bytes -> Script unit).

Definition default_read_range (path : string) (offset : Z) (limit : option Z) : Script bytes :=
  run! content := read' path in
  let start := Z.min offset (Z.of_nat (length content)) in
  let end_ := match limit with
              | Some limit => Z.min (Z.min (start + limit) (u64_bound - 1)) (Z.of_nat (length content))
              | None => Z.of_nat (length content)
              end in
  sret (drop (Z.to_nat start) (take (Z.to_nat end_) content)).

Definition too_large : Error := LimitExceededE "buffered_value_bytes" DEFAULT_BUFFER_BYTES.

(** [input] is what reading at most [length] bytes of the caller's input gives. *)
Definition default_write_from (path : string) (input : Z -> result bytes Error) (limit : Z) : Script unit :=
  if DEFAULT_BUFFER_BYTES <? limit then sthrow too_large
  else
    run! content := slift (input limit) in
    if negb (Z.of_nat (length content) =? limit)
    then sthrow (Io "reading file input" ["file input ended before its length"])
    else write' path content.

Definition default_write_append (path : string) (content : bytes) : Script unit :=
  run! present := exists' path in
  run! combined := if present then read' path else sret [] in
  if Z.max 0 (DEFAULT_BUFFER_BYTES - Z.of_nat (length combined)) <? Z.of_nat (length content) then sthrow too_large
  else write' path (combined ++ content).
End Defaults.

(** ** Base64 is read back *)

Definition base64_value (a : ascii) : option Z :=
  if is_ascii_uppercase a then Some (code a - 65)
  else if is_ascii_lowercase a then Some (code a - 71)
  else if is_ascii_digit a then Some (code a + 4)
  else if Ascii.eqb a "+" then Some 62
  else if Ascii.eqb a "/" then Some 63
  else None.

(** RFC 4648, with padding. *)
Fixpoint base64_decode (s : string) : option bytes :=
  match s with
  | EmptyString => Some []
  | String a (String b (String c (String d rest))) =>
      match base64_value a, base64_value b with
      | Some a, Some b =>
          let b0 := a * 4 + b / 16 in
          if Ascii.eqb c PAD then if Ascii.eqb d PAD && is_empty rest then Some [b0] else None
          else
            match base64_value c with
            | None => None
            | Some c =>
                let b1 := b mod 16 * 16 + c / 4 in
                if Ascii.eqb d PAD then if is_empty rest then Some [b0; b1] else None
                else match base64_value d, base64_decode rest with
                     | Some d, Some more => Some (b0 :: b1 :: (c mod 4 * 64 + d) :: more)
                     | _, _ => None
                     end
            end
      | _, _ => None
      end
  | _ => None
  end.

Lemma base64_char_spec n : 0 <= n < 64 ->
  base64_value (base64_char n) = Some n /\ Ascii.eqb (base64_char n) PAD = false /\
  (is_ascii_alphanumeric (base64_char n) || one_of [43; 47] (code (base64_char n))) = true.
Proof.
  intros Hn.
  assert (H : forallb (fun n => match base64_value (base64_char n) with Some m => m =? n | None => false end
    && negb (Ascii.eqb (base64_char n) PAD)
    && (is_ascii_alphanumeric (base64_char n) || one_of [43; 47] (code (base64_char n)))) (seqZ 0 64) = true) by (vm_compute; reflexivity).
  eapply (proj1 (forallb_forall _ _)) in H; [|apply list_elem_of_In, elem_of_seqZ; split; [apply Hn|lia]].
  cbn beta in H. apply andb_true_iff in H as [[H1 H2%negb_true_iff]%andb_true_iff H3].
  destruct (base64_value _) as [m|]; [|done]. by apply Z.eqb_eq in H1 as ->.
Qed.

Lemma lor_shift a b k : 0 <= k -> 0 <= b < 2 ^ k -> Z.lor (Z.shiftl a k) b = a * 2 ^ k + b.
Proof.
  intros Hk Hb. rewrite <- Z.shiftl_mul_pow2 by done. symmetry. apply Z.add_nocarry_lor.
  apply Z.bits_inj'. intros i Hi. rewrite Z.land_spec, Z.bits_0, Z.shiftl_spec by done.
  destruct (Z.lt_ge_cases i k); [by rewrite Z.testbit_neg_r by lia|].
  rewrite <- (Z.mod_small b (2 ^ k)) by done. rewrite (Z.mod_pow2_bits_high b k i) by lia. by rewrite andb_false_r.
Qed.

Lemma triple_sum b0 b1 b2 : is_u8 b1 -> is_u8 b2 ->
  Z.lor (Z.lor (Z.shiftl b0 16) (Z.shiftl b1 8)) b2 = b0 * 65536 + b1 * 256 + b2.
Proof.
  unfold is_u8. intros H1 H2. rewrite (Z.shiftl_mul_pow2 b1 8) by done.
  rewrite (lor_shift b0 (b1 * 2 ^ 8) 16) by lia.
  replace (b0 * 2 ^ 16 + b1 * 2 ^ 8) with (Z.shiftl (b0 * 256 + b1) 8) by (rewrite Z.shiftl_mul_pow2; lia).
  rewrite lor_shift by lia. lia.
Qed.

Lemma low_six n : Z.land n 63 = n mod 64.
Proof. change 63 with (Z.ones 6). by rewrite Z.land_ones. Qed.

Lemma six_bits n k : 0 <= Z.land (Z.shiftr n k) 63 < 64.
Proof. rewrite low_six. apply Z.mod_pos_bound. lia. Qed.

(** Shows that bytes put together from six-bit digits are the ones taken apart. *)
Ltac bytes_equal :=
  cbn [app is_empty]; rewrite !low_six, !Z.shiftr_div_pow2 by lia;
  change (2 ^ 18) with 262144; change (2 ^ 12) with 4096; change (2 ^ 6) with 64; change (2 ^ 0) with 1;
  apply (f_equal Some); repeat (apply (f_equal2 cons); [Z.to_euclidean_division_equations; lia|]); reflexivity.

Lemma base64_chunk_decode chunk rest more : Forall is_u8 chunk -> (0 < length chunk <= 3)%nat ->
  (length chunk = 3%nat -> base64_decode rest = Some more) -> (length chunk <> 3%nat -> rest = EmptyString /\ more = []) ->
  base64_decode (base64_chunk chunk +:+ rest) = Some (chunk ++ more).
Proof.
  intros Hb Hl Hrest Hlast. unfold base64_chunk. 
  destruct chunk as [|b0 [|b1 [|b2 [|]]]]; cbn [length] in *; try lia; cbn [lookup list_lookup from_option id Nat.ltb Nat.leb String.app base64_decode].
  all: repeat match goal with H : Forall _ (_ :: _) |- _ => apply Forall_cons in H as [? H] end; unfold is_u8 in *.
  all: rewrite triple_sum by (unfold is_u8; lia).
  all: repeat match goal with |- context [base64_value (base64_char ?n)] =>
    destruct (base64_char_spec n (six_bits _ _)) as (-> & ? & _) end.
  all: repeat match goal with H : Ascii.eqb _ PAD = false |- _ => rewrite H; clear H end.
  all: rewrite ?Ascii.eqb_refl; cbn [andb is_empty].
  - destruct Hlast as [-> ->]; [lia|]. bytes_equal.
  - destruct Hlast as [-> ->]; [lia|]. bytes_equal.
  - rewrite Hrest by done. bytes_equal.
Qed.

Lemma base64_decode_encode bs : Forall is_u8 bs -> base64_decode (base64_encode bs) = Some bs.
Proof.
  unfold base64_encode, chunks. generalize (Nat.le_refl (length bs)). generalize (length bs) at 2 3 as fuel. intros fuel. revert bs.
  induction fuel as [|fuel IH]; intros [|b bs] Hl Hb; cbn [length] in Hl; try done; [lia|]. cbn [chunks_loop foldr].
  rewrite <- (take_drop 3 (b :: bs)) at 3. apply base64_chunk_decode.
  - by apply Forall_take.
  - rewrite length_take. cbn [length]. lia.
  - intros _. apply IH; [rewrite length_drop; cbn [length]; lia|by apply Forall_drop].
  - rewrite length_take. intros Hne. assert (drop 3 (b :: bs) = []) as ->; [|by destruct fuel].
    apply drop_ge. cbn [length] in *. lia.
Qed.

(** The characters of an encoding, none of which a shell treats apart in quotes. *)
Definition base64_plain (a : ascii) : bool := is_ascii_alphanumeric a || one_of [43; 47; 61] (code a).

Lemma base64_value_plain a n : base64_value a = Some n -> base64_plain a = true.
Proof.
  unfold base64_value, base64_plain, is_ascii_alphanumeric.
  destruct (is_ascii_uppercase a); [by rewrite orb_true_r|]. destruct (is_ascii_lowercase a); [by rewrite orb_true_r|].
  destruct (is_ascii_digit a); [done|]. destruct (Ascii.eqb a "+") eqn:E; [by apply Ascii.eqb_eq in E as ->|].
  destruct (Ascii.eqb a "/") eqn:E'; [by apply Ascii.eqb_eq in E' as ->|done].
Qed.

Lemma base64_decode_plain s bs : base64_decode s = Some bs -> all_chars base64_plain s = true.
Proof.
  revert bs. induction s as [s IH] using (induction_ltof1 _ String.length). unfold ltof in IH. intros bs.
  destruct s as [|a [|b [|c [|d rest]]]]; try done. cbn [base64_decode all_chars].
  destruct (base64_value a) eqn:Ea; [|done]. destruct (base64_value b) eqn:Eb; [|done].
  apply base64_value_plain in Ea as ->, Eb as ->. cbn [andb].
  destruct (Ascii.eqb c PAD) eqn:Ec.
  { apply Ascii.eqb_eq in Ec as ->. destruct (Ascii.eqb d PAD) eqn:Ed; [|done]. apply Ascii.eqb_eq in Ed as ->. by destruct rest. }
  destruct (base64_value c) eqn:Ev; [|done]. apply base64_value_plain in Ev as ->. destruct (Ascii.eqb d PAD) eqn:Ed.
  { apply Ascii.eqb_eq in Ed as ->. by destruct rest. }
  destruct (base64_value d) eqn:Ew; [|done]. apply base64_value_plain in Ew as ->.
  destruct (base64_decode rest) as [more|] eqn:Er; [|done]. intros _. apply (IH rest) in Er; [done|]. cbn. lia.
Qed.

Lemma base64_length bs : (3 * String.length (base64_encode bs) <= 4 * length bs + 8)%nat.
Proof.
  unfold base64_encode, chunks. generalize (Nat.le_refl (length bs)). generalize (length bs) at 2 3 as fuel. intros fuel. revert bs.
  induction fuel as [|fuel IH]; intros [|b bs] Hl; cbn [length] in Hl; try (cbn; lia). cbn [chunks_loop foldr].
  rewrite length_string_app. specialize (IH (drop 3 (b :: bs))). rewrite length_drop in IH. cbn [length] in *.
  change (String.length (base64_chunk (take 3 (b :: bs)))) with 4%nat.
  destruct (Nat.le_gt_cases (S (length bs)) 3) as [Hs|Hs].
  - assert (drop 3 (b :: bs) = []) as -> by (apply drop_ge; cbn; lia).
    replace (chunks_loop fuel 3 []) with (@nil bytes) by (by destruct fuel). cbn. lia.
  - lia.
Qed.

Lemma quote_length s : (String.length (shell_quote s) <= 4 * String.length s + 2)%nat.
Proof.
  unfold shell_quote. cbn [String.length]. rewrite length_string_app. cbn [String.length].
  enough (String.length (quote_chars s) <= 4 * String.length s)%nat by lia.
  induction s as [|a s IH]; [done|]. cbn [quote_chars]. destruct (decide (a = QUOTE)); cbn [String.length]; lia.
Qed.

(** ** What the tools of a sandbox do *)

(** The POSIX utilities the scripts call, as they are documented: each by its words,
    over the files, with its output and its status. *)
Section Utilities.
Context (dirname : string -> string).

Definition exists_in (d : Disk) (path : string) : bool := bool_decide (path ∈ dirs d) || bool_decide (is_Some (files d !! path)).

(** [tail -c +K -- FILE]: the file from its [K]-th byte. *)
Definition tail_from (from path : string) (d : Disk) : option (Disk * bytes * Z) :=
  match strip_prefix "+" from ≫= parse_uint u64_bound, files d !! path with
  | Some k, Some content => Some (d, drop (Z.to_nat (k - 1)) content, 0)
  | Some _, None => Some (d, [], 1)
  | None, _ => None
  end.

Definition touch_file (path : string) (d : Disk) : Disk * bytes * Z :=
  if bool_decide (path ∈ dirs d) then (d, [], 0)
  else if bool_decide (dirname path ∈ dirs d) then (put path (default [] (files d !! path)) d, [], 0)
  else (d, [], 1).

Definition utility (ws : list string) (stdin : bytes) (d : Disk) : option (Disk * bytes * Z) :=
  let named := String.eqb in
  match ws with
  | [c] => if named ":" c then Some (d, [], 0) else None
  | [c; x] => if named "base64" c && named "-d" x then (fun body => (d, body, 0)) <$> base64_decode (of_bytes stdin) else None
  | [c; x; y] =>
      if named "printf" c && named "%s" x then Some (d, to_bytes y, 0)
      else if named "head" c && named "-c" x then (fun n => (d, take (Z.to_nat n) stdin, 0)) <$> parse_uint u64_bound y
      else if named "cat" c && named "--" x then match files d !! y with Some content => Some (d, content, 0) | None => Some (d, [], 1) end
      else if named "dirname" c && named "--" x then Some (d, to_bytes (dirname y) ++ [10], 0)
      else if named "touch" c && named "--" x then Some (touch_file y d)
      else None
  | [c; x; y; z] =>
      if named "mkdir" c && named "-p" x && named "--" y
      then match files d !! z with Some _ => Some (d, [], 1) | None => Some (made z d, [], 0) end
      else if named "[" c && named "-e" x && named "]" z then Some (d, [], if exists_in d y then 0 else 1)
      else None
  | [c; x; y; z; w] => if named "tail" c && named "-c" x && named "--" z then tail_from y w d else None
  | _ => None
  end.
End Utilities.

Definition helper (command : string) : ExecSpec := spec_timeout (Some FS_TIMEOUT) (bash command).

(** The longest argument a command is run with. *)
Definition MAX_ARG_STRLEN : Z := 131072.

(** A line that can be an argument. *)
Definition argument (line : string) : Prop := free_of_char "000" line /\ Z.of_nat (String.length line) < MAX_ARG_STRLEN.

Definition runs_to {W} (world : ExecSpec -> W -> W * result ExecResult Error) (command : string) (w w' : W) (stdout : bytes) : Prop :=
  exists r, world (helper command) w = (w', Ok r) /\ success r = true /\ res_stdout r = stdout.

(** A sandbox that runs a helper's line as the shell of [ShellRun] does over those
    utilities. The law says nothing of the lines the facet builds. *)
Definition FileTools (dirname : string -> string) (world : ExecSpec -> Disk -> Disk * result ExecResult Error) : Prop :=
  forall line d d' out status, argument line -> shell_run dirname (utility dirname) line d = Some (d', out, status) ->
    exists r, world (helper line) d = (d', Ok r) /\ res_termination r = Exited /\ exit_code r = Some status /\ res_stdout r = out.

(** *** The lines, as the shell reads them *)

Lemma quote_free path : free_of_char "000" path -> free_of_char "000" (shell_quote path).
Proof.
  unfold free_of_char, shell_quote. cbn [all_chars]. rewrite all_chars_app. cbn. rewrite andb_true_r.
  induction path as [|c path IH]; [done|]. cbn [all_chars quote_chars]. intros [Hc Hp]%andb_true_iff.
  destruct (decide (c = QUOTE)); cbn; [by apply IH|]. by rewrite Hc, IH.
Qed.

Lemma encoded_free a encoded body : base64_plain a = false -> base64_decode encoded = Some body -> free_of_char a encoded.
Proof.
  intros Ha H%base64_decode_plain. unfold free_of_char. revert H. apply all_chars_impl. intros b Hb.
  apply negb_true_iff, Ascii.eqb_neq. intros <-. by rewrite Hb in Ha.
Qed.

(** Reads the text at the head of a line. *)
Ltac lex := cbn; repeat match goal with |- context [word_char ?c] => change (word_char c) with true; cbn end.

(** Compares two readings of what is left. *)
Ltac same_rest := match goal with |- context [tokens ?r ?m ?w] => by destruct (tokens r m w) end.

Lemma tokens_mkdir path rest :
  tokens (mkdir_line (shell_quote path) +:+ " && " +:+ rest) LPlain None =
  app [TOpen "dir="; TWord "dirname"; TWord "--"; TWord path; TClose; TSemi; TWord "mkdir"; TWord "-p"; TWord "--"; TVar "dir"; TAnd]
    <$> tokens rest LPlain None.
Proof.
  unfold mkdir_line. rewrite <- !app_assoc_string.
  transitivity (app [TOpen "dir="; TWord "dirname"; TWord "--"] <$>
    tokens (shell_quote path +:+ ("); mkdir -p -- " +:+ DQUOTE +:+ "$dir" +:+ DQUOTE +:+ " && " +:+ rest)) LPlain None).
  { generalize (shell_quote path +:+ ("); mkdir -p -- " +:+ DQUOTE +:+ "$dir" +:+ DQUOTE +:+ " && " +:+ rest)) as r. intros r.
    lex. same_rest. }
  rewrite tokens_quoted. lex. same_rest.
Qed.

Lemma tokens_printf encoded rest : free_of_char QUOTE encoded ->
  tokens ("printf '%s' '" +:+ encoded +:+ "'" +:+ rest) LPlain None =
  app [TWord "printf"; TWord "%s"] <$> tokens rest LPlain (Some encoded).
Proof.
  intros He. change ("'" +:+ rest) with (String QUOTE rest). transitivity (app [TWord "printf"; TWord "%s"] <$> tokens (encoded +:+ String QUOTE rest) LQuoted (Some EmptyString)).
  { generalize (encoded +:+ String QUOTE rest) as r. intros r. lex. same_rest. }
  by rewrite tokens_literal.
Qed.

Lemma tokens_decode (append : bool) path encoded :
  tokens (" | base64 -d " +:+ (if append then ">>" else ">") +:+ " " +:+ shell_quote path) LPlain (Some encoded) =
  Some [TWord encoded; TPipe; TWord "base64"; TWord "-d"; TOut append; TWord path].
Proof. generalize (tokens_quoted_end path). generalize (shell_quote path) as q. intros q Hq. destruct append; lex; by rewrite Hq. Qed.

Definition chunk_tokens (path : string) (append : bool) (encoded : string) : list token :=
  [TWord "printf"; TWord "%s"; TWord encoded; TPipe; TWord "base64"; TWord "-d"; TOut append; TWord path].

Definition mkdir_tokens (path : string) : list token :=
  [TOpen "dir="; TWord "dirname"; TWord "--"; TWord path; TClose; TSemi; TWord "mkdir"; TWord "-p"; TWord "--"; TVar "dir"; TAnd].

Lemma chunk_line_tokens path (first append : bool) encoded : free_of_char QUOTE encoded ->
  tokens (chunk_line path first append encoded) LPlain None =
  Some ((if first then mkdir_tokens path else []) ++ chunk_tokens path append encoded).
Proof.
  intros He. unfold chunk_line.
  assert (Hp : tokens ("printf '%s' '" +:+ encoded +:+ "' | base64 -d " +:+ (if append then ">>" else ">") +:+ " " +:+ shell_quote path) LPlain None
    = Some (chunk_tokens path append encoded)).
  { etransitivity; [exact (tokens_printf encoded (" | base64 -d " +:+ (if append then ">>" else ">") +:+ " " +:+ shell_quote path) He)|].
    by rewrite tokens_decode. }
  destruct first; [|exact Hp]. rewrite <- app_assoc_string, tokens_mkdir, Hp. reflexivity.
Qed.

Lemma empty_line_tokens path : tokens (empty_line path) LPlain None = Some (mkdir_tokens path ++ [TWord ":"; TOut false; TWord path]).
Proof.
  etransitivity; [exact (tokens_mkdir path (": > " +:+ shell_quote path))|]. generalize (tokens_quoted_end path). generalize (shell_quote path) as q. intros q Hq.
  lex. by rewrite Hq.
Qed.

Lemma touch_line_tokens path : tokens (touch_line path) LPlain None = Some (mkdir_tokens path ++ [TWord "touch"; TWord "--"; TWord path]).
Proof.
  etransitivity; [exact (tokens_mkdir path ("touch -- " +:+ shell_quote path))|]. generalize (tokens_quoted_end path). generalize (shell_quote path) as q. intros q Hq.
  lex. by rewrite Hq.
Qed.

Lemma cat_tokens path : tokens ("cat -- " +:+ shell_quote path) LPlain None = Some [TWord "cat"; TWord "--"; TWord path].
Proof. generalize (tokens_quoted_end path). generalize (shell_quote path) as q. intros q Hq. lex. by rewrite Hq. Qed.

Lemma exists_tokens path : tokens ("[ -e " +:+ shell_quote path +:+ " ]") LPlain None = Some [TWord "["; TWord "-e"; TWord path; TWord "]"].
Proof. generalize (tokens_quoted path " ]"). generalize (shell_quote path +:+ " ]") as q. intros q Hq. lex. rewrite Hq. by cbn. Qed.

Lemma uint_digits n : 0 <= n < u64_bound -> all_chars is_ascii_digit (print_uint n) = true.
Proof. intros Hn. apply print_uint_digits. pose proof u64_digits. lia. Qed.

Lemma tail_tokens path k rest : 0 <= k < u64_bound ->
  tokens ("tail -c +" +:+ print_uint k +:+ " -- " +:+ shell_quote path +:+ rest) LPlain None =
  app [TWord "tail"; TWord "-c"; TWord ("+" +:+ print_uint k); TWord "--"] <$> tokens rest LPlain (Some path).
Proof.
  intros Hk. transitivity (app [TWord "tail"; TWord "-c"] <$> tokens (print_uint k +:+ (" -- " +:+ shell_quote path +:+ rest)) LPlain (Some "+")).
  { generalize (print_uint k +:+ (" -- " +:+ shell_quote path +:+ rest)) as q. intros q. lex. same_rest. }
  rewrite tokens_digits by (by apply uint_digits). generalize (tokens_quoted path rest). generalize (shell_quote path +:+ rest) as q.
  intros q Hq. lex. rewrite Hq. same_rest.
Qed.

Lemma head_tokens path n : 0 <= n < u64_bound ->
  tokens (" | head -c " +:+ print_uint n) LPlain (Some path) = Some [TWord path; TPipe; TWord "head"; TWord "-c"; TWord (print_uint n)].
Proof.
  intros Hn. pose proof (uint_digits n Hn) as Hd. destruct (print_uint_digits n) as [_ He]; [pose proof u64_digits; lia|].
  destruct (print_uint n) as [|c v] eqn:E; [done|]. cbn [all_chars] in Hd. apply andb_true_iff in Hd as [Hc Hv].
  assert (Hstart : tokens (String c v) LPlain None = Some [TWord (String c v)]).
  { transitivity (tokens v LPlain (Some (String c EmptyString))).
    - revert Hc. clear. destruct c as [[] [] [] [] [] [] [] []]; intros Hc; try discriminate Hc; reflexivity.
    - rewrite <- (app_nil_r_string v) at 1. by rewrite tokens_digits. }
  cbn -[tokens]. change (String c v) with (String c v) in *. revert Hstart. generalize (String c v) as q. intros q Hq. lex. by rewrite Hq.
Qed.

Section Tools.
Context (dirname : string -> string) (world : ExecSpec -> Disk -> Disk * result ExecResult Error).
Hypothesis tools : FileTools dirname world.
Context (path : string).

(** A path for a file: it can be named, and its directory can be made. [$()] drops
    newlines at the end of the directory's name, which has none. *)
Record place (d : Disk) : Prop := mkPlace {
  place_named : free_of_char "000" path;
  place_short : (String.length path <= 4096)%nat;
  place_line : trim_end_char (char 10) (dirname path) = dirname path;
  place_dir : files d !! dirname path = None;
  place_file : path ∉ dirs d;
  place_below : dirname path <> path;
}.

Lemma place_put d content : place d -> place (put path content d).
Proof. intros []. split; try done. cbn. by rewrite lookup_insert_ne. Qed.

Lemma place_made d : place d -> place (made (dirname path) d).
Proof. intros []. split; try done. cbn. set_solver. Qed.

Lemma substituted_dir : trim_end_char (char 10) (dirname path) = dirname path ->
  substituted (to_bytes (dirname path) ++ [10]) = dirname path.
Proof.
  intros Hl. unfold substituted. rewrite of_bytes_app, of_to_bytes. rewrite <- Hl at 2. clear Hl.
  change (of_bytes [10]) with (String (char 10) EmptyString). generalize (char 10) as a. intros a.
  induction (dirname path) as [|c s IH]; [cbn; by rewrite Ascii.eqb_refl|].
  change (String c s +:+ ?r) with (String c (s +:+ r)). cbn [trim_end_char]. by rewrite IH.
Qed.

(** The directory is made before the rest runs. *)
Lemma mkdir_first d rest ts items : place d -> list_items rest = (false, ts) :: items ->
  run_items dirname (utility dirname) ∅ (list_items (mkdir_tokens path ++ rest)) 0 d =
  run_items dirname (utility dirname) (<["dir" := dirname path]> ∅) ((false, ts) :: items) 0 (made (dirname path) d).
Proof.
  intros Hp E. unfold mkdir_tokens. cbn [app list_items]. rewrite E.
  cbn [run_items andb Z.eqb negb]. cbn [run_item]. cbn [strip_suffix String.eqb Ascii.eqb Bool.eqb last removelast].
  unfold run_pipeline. cbn [split_tokens is_pipe run_pipe]. unfold run_command. cbn [command_words fmap option_fmap option_map].
  cbn [utility String.eqb Ascii.eqb Bool.eqb andb]. rewrite substituted_dir by apply Hp.
  rewrite lookup_insert_eq. cbn [utility String.eqb Ascii.eqb Bool.eqb andb fmap option_fmap option_map].
  rewrite (place_dir d Hp). cbn [fmap option_fmap option_map app]. change (negb (0 =? 0)) with false. cbn [andb].
  destruct (run_item _ _ _ ts _) as [[vars [[d' out] status]]|]; [|done].
  destruct (run_items _ _ vars items status d') as [[[]]|]; done.
Qed.
(** A chunk goes to the file, in a directory that is there. *)
Lemma chunk_runs vars d append encoded body : path ∉ dirs d -> dirname path ∈ dirs d -> base64_decode encoded = Some body ->
  run_items dirname (utility dirname) vars [(false, chunk_tokens path append encoded)] 0 d =
  Some (put path ((if append then default [] (files d !! path) else []) ++ body) d, [], 0).
Proof.
  intros Hf Hd He. unfold chunk_tokens. cbn [run_items andb run_item]. unfold run_pipeline. cbn [split_tokens is_pipe run_pipe].
  unfold run_command. cbn [command_words fmap option_fmap option_map utility String.eqb Ascii.eqb Bool.eqb andb].
  rewrite bool_decide_false by done. rewrite bool_decide_true by done. cbn [negb]. rewrite of_to_bytes, He.
  cbn [fmap option_fmap option_map]. unfold put. cbn [files dirs]. rewrite lookup_insert_eq, insert_insert_eq. reflexivity.
Qed.

Lemma list_items_chunk append encoded : list_items (chunk_tokens path append encoded) = [(false, chunk_tokens path append encoded)].
Proof. reflexivity. Qed.

Lemma chunk_line_runs d (first append : bool) encoded body : place d -> (first = false -> dirname path ∈ dirs d) ->
  base64_decode encoded = Some body ->
  shell_run dirname (utility dirname) (chunk_line path first append encoded) d =
  Some (put path ((if append then default [] (files d !! path) else []) ++ body) (if first then made (dirname path) d else d), [], 0).
Proof.
  intros Hp Hd He. unfold shell_run. rewrite chunk_line_tokens by (by eapply encoded_free). destruct first.
  - rewrite (mkdir_first d _ _ _ Hp (list_items_chunk append encoded)).
    rewrite (chunk_runs _ (made (dirname path) d) append encoded body); [done|apply (place_made d Hp)|cbn; set_solver|done].
  - cbn [app]. rewrite list_items_chunk. apply chunk_runs; [apply Hp|by apply Hd|done].
Qed.

Lemma empty_line_runs d : place d ->
  shell_run dirname (utility dirname) (empty_line path) d = Some (put path [] (made (dirname path) d), [], 0).
Proof.
  intros Hp. unfold shell_run. rewrite empty_line_tokens, (mkdir_first d [TWord ":"; TOut false; TWord path] [TWord ":"; TOut false; TWord path] [] Hp eq_refl).
  cbn [run_items andb run_item]. unfold run_pipeline. cbn [split_tokens is_pipe run_pipe]. unfold run_command.
  cbn [command_words fmap option_fmap option_map utility String.eqb Ascii.eqb Bool.eqb andb].
  rewrite bool_decide_false by apply (place_made d Hp). rewrite bool_decide_true by (cbn; set_solver). cbn [negb].
  unfold put. cbn [files dirs]. by rewrite lookup_insert_eq, insert_insert_eq.
Qed.

Lemma touch_line_runs d : place d ->
  shell_run dirname (utility dirname) (touch_line path) d =
  Some (put path (default [] (files d !! path)) (made (dirname path) d), [], 0).
Proof.
  intros Hp. unfold shell_run. rewrite touch_line_tokens, (mkdir_first d [TWord "touch"; TWord "--"; TWord path] [TWord "touch"; TWord "--"; TWord path] [] Hp eq_refl).
  cbn [run_items andb run_item]. unfold run_pipeline. cbn [split_tokens is_pipe run_pipe]. unfold run_command.
  cbn [command_words fmap option_fmap option_map utility String.eqb Ascii.eqb Bool.eqb andb]. unfold touch_file.
  rewrite bool_decide_false by apply (place_made d Hp). rewrite bool_decide_true by (cbn; set_solver). reflexivity.
Qed.

Lemma cat_runs d content : files d !! path = Some content ->
  shell_run dirname (utility dirname) ("cat -- " +:+ shell_quote path) d = Some (d, content, 0).
Proof.
  intros Hf. unfold shell_run. rewrite cat_tokens. cbn [list_items run_items andb run_item]. unfold run_pipeline. cbn [split_tokens is_pipe run_pipe].
  unfold run_command. cbn [command_words fmap option_fmap option_map utility String.eqb Ascii.eqb Bool.eqb andb].
  rewrite Hf. cbn. by rewrite app_nil_r.
Qed.

Lemma exists_runs d : path ∉ dirs d ->
  shell_run dirname (utility dirname) ("[ -e " +:+ shell_quote path +:+ " ]") d =
  Some (d, [], match files d !! path with Some _ => 0 | None => 1 end).
Proof.
  intros Hf. unfold shell_run. rewrite exists_tokens. cbn [list_items run_items andb run_item]. unfold run_pipeline. cbn [split_tokens is_pipe run_pipe].
  unfold run_command. cbn [command_words fmap option_fmap option_map utility String.eqb Ascii.eqb Bool.eqb andb]. unfold exists_in.
  rewrite bool_decide_false by done. by destruct (files d !! path).
Qed.

Lemma tail_from_digits d k : 0 <= k < u64_bound ->
  tail_from ("+" +:+ print_uint k) path d =
  match files d !! path with Some content => Some (d, drop (Z.to_nat (k - 1)) content, 0) | None => Some (d, [], 1) end.
Proof.
  intros Hk. unfold tail_from. change (strip_prefix "+" ("+" +:+ print_uint k)) with (Some (print_uint k)). cbn [mbind option_bind].
  rewrite (parse_print_uint u64_bound k Hk u64_digits). by destruct (files d !! path).
Qed.

Lemma tail_runs d k : 0 <= k < u64_bound ->
  shell_run dirname (utility dirname) ("tail -c +" +:+ print_uint k +:+ " -- " +:+ shell_quote path) d =
  match files d !! path with Some content => Some (d, drop (Z.to_nat (k - 1)) content, 0) | None => Some (d, [], 1) end.
Proof.
  intros Hk. unfold shell_run. pose proof (tail_tokens path k EmptyString Hk) as Ht. rewrite app_nil_r_string in Ht.
  rewrite Ht. change (tokens EmptyString LPlain (Some path)) with (Some [TWord path]).
  cbn [fmap option_fmap option_map app list_items run_items andb run_item].
  unfold run_pipeline. cbn [split_tokens is_pipe run_pipe]. unfold run_command.
  cbn [command_words fmap option_fmap option_map]. cbn [utility String.eqb Ascii.eqb Bool.eqb andb]. rewrite tail_from_digits by done.
  destruct (files d !! path); cbn; by rewrite ?app_nil_r.
Qed.

Lemma head_runs d k n : 0 <= k < u64_bound -> 0 <= n < u64_bound ->
  shell_run dirname (utility dirname) ("tail -c +" +:+ print_uint k +:+ " -- " +:+ shell_quote path +:+ " | head -c " +:+ print_uint n) d =
  Some (d, take (Z.to_nat n) (match files d !! path with Some content => drop (Z.to_nat (k - 1)) content | None => [] end), 0).
Proof.
  intros Hk Hn. unfold shell_run. rewrite tail_tokens, head_tokens by done.
  cbn [fmap option_fmap option_map app list_items run_items andb run_item].
  unfold run_pipeline. cbn [split_tokens is_pipe run_pipe]. unfold run_command.
  cbn [command_words fmap option_fmap option_map]. cbn [utility String.eqb Ascii.eqb Bool.eqb andb]. rewrite tail_from_digits by done.
  rewrite (parse_print_uint u64_bound n Hn u64_digits). destruct (files d !! path); cbn; by rewrite ?app_nil_r.
Qed.

(** *** The lines are arguments *)

Lemma digits_length fuel n acc : (String.length (digits fuel n acc) <= fuel + String.length acc)%nat.
Proof.
  revert n acc. induction fuel as [|fuel IH]; intros n acc; cbn [digits]; [lia|]. destruct (n <? 10); [cbn; lia|].
  etrans; [apply IH|]. cbn. lia.
Qed.

Lemma print_uint_short n : (String.length (print_uint n) <= 20)%nat.
Proof. apply (digits_length 20 n EmptyString). Qed.

Lemma print_uint_named n : 0 <= n -> free_of_char "000" (print_uint n).
Proof. by apply print_uint_free. Qed.

Lemma mkdir_line_named q : free_of_char "000" q -> free_of_char "000" (mkdir_line q).
Proof. unfold free_of_char, mkdir_line. intros Hq. by rewrite !all_chars_app, Hq. Qed.

Section Arguments.
Hypothesis named : free_of_char "000" path.
Hypothesis short : (String.length path <= 4096)%nat.

Lemma quoted_short : Z.of_nat (String.length (shell_quote path)) <= 16386.
Proof. pose proof (quote_length path). lia. Qed.

Lemma chunk_argument first append (chunk : bytes) : Forall is_u8 chunk -> (length chunk <= WRITE_CHUNK_BYTES)%nat ->
  argument (chunk_line path first append (base64_encode chunk)).
Proof.
  intros Hb Hc. pose proof (base64_length chunk) as He. pose proof quoted_short as Hq. unfold WRITE_CHUNK_BYTES in Hc. split.
  - unfold chunk_line, free_of_char. rewrite !all_chars_app. pose proof (quote_free path named) as Hn.
    pose proof (mkdir_line_named _ Hn) as Hm. pose proof (encoded_free "000" _ _ eq_refl (base64_decode_encode chunk Hb)) as Hx.
    unfold free_of_char in *. rewrite Hx, Hn. destruct first, append; rewrite ?all_chars_app, ?Hm; reflexivity.
  - unfold chunk_line, mkdir_line. rewrite !length_string_app.
    enough (String.length (if first then ("dir=$(dirname -- " +:+ shell_quote path +:+ "); mkdir -p -- " +:+ DQUOTE +:+ "$dir" +:+ DQUOTE) +:+ " && "
      else EmptyString) <= String.length (shell_quote path) + 60)%nat as Hd.
    { set (d := String.length _) in *. destruct append; cbn [String.length]; unfold MAX_ARG_STRLEN; lia. }
    destruct first; [|cbn [String.length]; lia]. rewrite !length_string_app. cbn [String.length DQUOTE]. lia.
Qed.

(** A short text around the path. *)
Lemma around_argument before after : free_of_char "000" before -> free_of_char "000" after ->
  (String.length before + String.length after <= 1000)%nat -> argument (before +:+ shell_quote path +:+ after).
Proof.
  intros Hb Ha Hl. pose proof quoted_short as Hq. split.
  - unfold free_of_char in *. rewrite !all_chars_app, Hb, Ha. by rewrite (quote_free path named).
  - rewrite !length_string_app. unfold MAX_ARG_STRLEN. lia.
Qed.

Lemma mkdir_argument rest : free_of_char "000" rest -> (String.length rest <= 100)%nat ->
  argument (mkdir_line (shell_quote path) +:+ " && " +:+ rest +:+ shell_quote path).
Proof.
  intros Hr Hl. pose proof quoted_short as Hq. pose proof (quote_free path named) as Hn. split.
  - unfold free_of_char in *. rewrite !all_chars_app, Hr, Hn. by rewrite (mkdir_line_named _ Hn).
  - unfold mkdir_line. rewrite !length_string_app. cbn [String.length DQUOTE]. unfold MAX_ARG_STRLEN. lia.
Qed.
End Arguments.

(** ** What the operations do *)

Lemma perform_line label line d d' out : argument line -> shell_run dirname (utility dirname) line d = Some (d', out, 0) ->
  exists r, perform world (run label line) d = (d', Ok r) /\ res_stdout r = out.
Proof.
  intros Ha Hs. destruct (tools line d d' out 0 Ha Hs) as (r & Hw & Ht & Hx & Ho). exists r. split; [|done].
  apply perform_bash; [done|]. unfold success. by rewrite Ht, Hx.
Qed.

Lemma perform_chunks label redirect (first : bool) cs d : Forall (Forall is_u8) cs ->
  Forall (fun c => (length c <= WRITE_CHUNK_BYTES)%nat) cs -> cs <> [] -> redirect false = true ->
  place d -> (first = false -> dirname path ∈ dirs d) ->
  perform world (write_chunks label path redirect first cs) d =
    (put path ((if redirect first then default [] (files d !! path) else []) ++ concat cs) (if first then made (dirname path) d else d), Ok tt).
Proof.
  intros Hb Hl Hne Hr. revert first d Hne. induction cs as [|c cs IH]; intros first d Hne Hp Hd; [done|].
  apply Forall_cons in Hb as [Hc Hb], Hl as [Hlc Hl]. cbn [write_chunks concat]. rewrite perform_bind.
  destruct (perform_line label _ _ _ _ (chunk_argument (place_named d Hp) (place_short d Hp) first (redirect first) c Hc Hlc)
    (chunk_line_runs d first (redirect first) _ c Hp Hd (base64_decode_encode c Hc))) as (r & -> & _).
  destruct cs as [|c' cs]; [cbn; by rewrite app_nil_r|]. rewrite IH; try done.
  - rewrite Hr. unfold put. cbn [files dirs]. rewrite lookup_insert_eq, insert_insert_eq. cbn [default]. by rewrite app_assoc.
  - apply place_put. destruct first; [by apply place_made|done].
  - intros _. destruct first; [cbn; set_solver|by apply Hd].
Qed.
(** A range of a file by its position and length. *)
Definition slice (content : bytes) (offset : Z) (limit : option Z) : bytes :=
  let rest := drop (Z.to_nat offset) content in
  match limit with Some n => take (Z.to_nat n) rest | None => rest end.

Lemma take_min {A} n (l : list A) : take (Nat.min n (length l)) l = take n l.
Proof. destruct (Nat.le_ge_cases n (length l)); [by rewrite Nat.min_l|]. by rewrite Nat.min_r, !take_ge. Qed.

(** The default of the trait reads the same range. *)
Lemma default_slice content offset limit : 0 <= offset -> match limit with Some n => 0 <= n | None => True end ->
  Z.of_nat (length content) < u64_bound ->
  drop (Z.to_nat (Z.min offset (Z.of_nat (length content))))
    (take (Z.to_nat (match limit with
                     | Some n => Z.min (Z.min (Z.min offset (Z.of_nat (length content)) + n) (u64_bound - 1)) (Z.of_nat (length content))
                     | None => Z.of_nat (length content)
                     end)) content) = slice content offset limit.
Proof.
  intros Ho Hn Hl. unfold slice. destruct (Z.le_gt_cases offset (Z.of_nat (length content))) as [Hle|Hgt].
  - rewrite (Z.min_l offset) by done. destruct limit as [n|]; [|by rewrite Nat2Z.id, take_ge by lia].
    rewrite take_drop_commute. f_equal. rewrite <- (take_min (Z.to_nat offset + Z.to_nat n)). f_equal. lia.
  - rewrite (Z.min_r offset), Nat2Z.id by lia. rewrite (drop_ge content) by lia.
    rewrite drop_ge by (rewrite length_take; lia). destruct limit; by rewrite ?take_nil.
Qed.

Lemma write_facts content d : Forall is_u8 content -> place d ->
  perform world (write path content) d = (put path content (made (dirname path) d), Ok tt) /\
  perform world (write_append path content) d = (put path (default [] (files d !! path) ++ content) (made (dirname path) d), Ok tt).
Proof.
  intros Hb Hp. pose proof (place_named d Hp) as Hn. pose proof (place_short d Hp) as Hs.
  destruct (chunks_spec WRITE_CHUNK_BYTES content) as [Hc Hl]; [apply Nat.ltb_lt; vm_compute; reflexivity|].
  pose proof (chunks_forall is_u8 WRITE_CHUNK_BYTES content Hb) as Hbs.
  assert (Hne : content <> [] -> chunks WRITE_CHUNK_BYTES content <> []) by (intros Hne E; rewrite E in Hc; by subst).
  split.
  - unfold write. destruct content as [|b content].
    + rewrite perform_bind. destruct (perform_line "fs write" (empty_line path) d _ [] (mkdir_argument Hn Hs ": > " eq_refl ltac:(cbn; lia))
        (empty_line_runs d Hp)) as (r & -> & _). done.
    + rewrite perform_chunks by (done || by apply Hne). cbn [negb app]. by rewrite Hc.
  - unfold write_append. destruct content as [|b content].
    + rewrite perform_bind. destruct (perform_line "fs append" (touch_line path) d _ [] (mkdir_argument Hn Hs "touch -- " eq_refl ltac:(cbn; lia))
        (touch_line_runs d Hp)) as (r & -> & _). by rewrite app_nil_r.
    + rewrite perform_chunks by (done || by apply Hne). by rewrite Hc.
Qed.

Lemma read_facts content d offset limit : place d -> files d !! path = Some content ->
  0 <= offset < u64_bound - 1 -> match limit with Some n => 0 <= n < u64_bound | None => True end ->
  perform world (read path) d = (d, Ok content) /\
  perform world (read_range path offset limit) d = (d, Ok (slice content offset limit)).
Proof.
  intros Hp Hf Ho Hn. pose proof (place_named d Hp) as Hm. pose proof (place_short d Hp) as Hs. split.
  - unfold read. rewrite perform_bind. pose proof (around_argument Hm Hs "cat -- " EmptyString eq_refl eq_refl ltac:(cbn; lia)) as Ha.
    rewrite app_nil_r_string in Ha. destruct (perform_line "fs read" _ d d content Ha (cat_runs d content Hf)) as (r & -> & Hr).
    cbn. by rewrite Hr.
  - unfold read_range. rewrite perform_bind, Z.min_l by lia.
    assert (Hk : 0 <= offset + 1 < u64_bound) by lia.
    assert (Hbefore : free_of_char "000" ("tail -c +" +:+ print_uint (offset + 1) +:+ " -- ")).
    { unfold free_of_char. rewrite !all_chars_app. by rewrite (print_uint_named (offset + 1)) by lia. }
    pose proof (print_uint_short (offset + 1)) as Hd. destruct limit as [n|].
    + assert (Hafter : free_of_char "000" (" | head -c " +:+ print_uint n)).
      { unfold free_of_char. rewrite !all_chars_app. by rewrite (print_uint_named n) by lia. }
      pose proof (print_uint_short n) as Hdn.
      pose proof (around_argument Hm Hs _ _ Hbefore Hafter ltac:(rewrite !length_string_app; cbn [String.length]; lia)) as Ha.
      rewrite <- !app_assoc_string in Ha. pose proof (head_runs d (offset + 1) n Hk Hn) as Hrun. rewrite Hf in Hrun.
      destruct (perform_line "fs read_range" _ d d _ Ha Hrun) as (r & -> & Hr).
      cbn [perform sret]. rewrite Hr. unfold slice. by rewrite Z.add_simpl_r.
    + pose proof (around_argument Hm Hs _ EmptyString Hbefore eq_refl ltac:(rewrite !length_string_app; cbn [String.length]; lia)) as Ha.
      rewrite app_nil_r_string, <- !app_assoc_string in Ha. pose proof (tail_runs d (offset + 1) Hk) as Hrun. rewrite Hf in Hrun.
      destruct (perform_line "fs read_range" _ d d _ Ha Hrun) as (r & -> & Hr).
      cbn [perform sret]. rewrite Hr. unfold slice. by rewrite Z.add_simpl_r.
Qed.


Lemma perform_exists d : place d ->
  perform world (exists_ path) d = (d, Ok (bool_decide (is_Some (files d !! path)))).
Proof.
  intros Hp. unfold exists_. rewrite perform_bind.
  pose proof (around_argument (place_named d Hp) (place_short d Hp) "[ -e " " ]" eq_refl eq_refl ltac:(cbn; lia)) as Ha.
  destruct (tools _ d d [] _ Ha (exists_runs d (place_file d Hp))) as (r & Hw & _ & Hr & _). unfold helper in Hw.
  cbn [exec_run perform]. rewrite Hw. cbn [perform sret]. rewrite Hr. f_equal. f_equal. destruct (files d !! path); by vm_compute.
Qed.

(** The defaults of the trait and the operations made of commands agree: a range
    is the same, and so is an append, as long as the file it makes may be
    buffered; adding to make a larger one the default refuses, and changes nothing. *)
Theorem defaults_agree content more d offset limit : Forall is_u8 more -> Forall is_u8 content -> place d ->
  0 <= offset < u64_bound - 1 -> match limit with Some n => 0 <= n < u64_bound | None => True end ->
  files d !! path = Some content -> Z.of_nat (length content) < u64_bound ->
  perform world (default_read_range read path offset limit) d = perform world (read_range path offset limit) d /\
  perform world (default_write_append read exists_ write path more) d =
    (if bool_decide (more = []) || (Z.of_nat (length content + length more) <=? DEFAULT_BUFFER_BYTES) then perform world (write_append path more) d
     else (d, Err too_large)).
Proof.
  intros Hm Hb Hp Ho Hn Hf Hl. destruct (read_facts content d offset limit Hp Hf Ho Hn) as [Hread Hrange]. split.
  - unfold default_read_range. rewrite perform_bind, Hread, Hrange. cbn [perform sret]. do 2 f_equal.
    apply default_slice; [lia| |done]. destruct limit; [lia|done].
  - unfold default_write_append. rewrite perform_bind, perform_exists, Hf by done. cbn [bool_decide]. rewrite bool_decide_true by done.
    rewrite perform_bind, Hread. cbv beta iota.
    assert (Hlimit : (Z.max 0 (DEFAULT_BUFFER_BYTES - Z.of_nat (length content)) <? Z.of_nat (length more)) =
      negb (bool_decide (more = []) || (Z.of_nat (length content + length more) <=? DEFAULT_BUFFER_BYTES))).
    { destruct more as [|m more]; cbn [length].
      - rewrite bool_decide_true by done. apply Z.ltb_ge. lia.
      - rewrite bool_decide_false by done. cbn [orb]. rewrite Z.leb_antisym, negb_involutive.
        apply eq_true_iff_eq. rewrite !Z.ltb_lt. lia. }
    rewrite Hlimit. destruct (bool_decide _ || _); cbn [negb]; [|done].
    rewrite (proj1 (write_facts (content ++ more) d ltac:(by apply Forall_app) Hp)).
    rewrite (proj2 (write_facts more d Hm Hp)). by rewrite Hf.
Qed.
End Tools.

(** ** Listings *)

(** What [stat] prints of a file found: its kind, size and name. *)
Definition print_found (kind : string) (size : Z) (name : string) : string :=
  kind +:+ "|" +:+ print_uint size +:+ "|./" +:+ name.

(** Records are terminated by NUL. *)
Definition print_listing (found : list (string * Z * string)) : string :=
  foldr (fun e acc => print_found (fst (fst e)) (snd (fst e)) (snd e) +:+ String "000" acc) EmptyString found.

Definition found_entry (e : string * Z * string) : DirEntry :=
  let kind := parse_kind (fst (fst e)) in
  mkEntry (snd e) kind (if bool_decide (kind = KFile) then Some (snd (fst e)) else None).

Definition wf_found (e : string * Z * string) : Prop :=
  free_of_char "|" (fst (fst e)) /\ free_of_char "000" (fst (fst e)) /\ 0 <= snd (fst e) < u64_bound /\ free_of_char "000" (snd e).

Lemma parse_found e : wf_found e -> parse_entry (print_found (fst (fst e)) (snd (fst e)) (snd e)) = Some (found_entry e).
Proof.
  intros (Hk & _ & Hs & _). unfold parse_entry, print_found, found_entry. cbn [splitn].
  change (fst (fst e) +:+ "|" +:+ print_uint (snd (fst e)) +:+ "|./" +:+ snd e)
    with (fst (fst e) +:+ String "|" (print_uint (snd (fst e)) +:+ String "|" ("./" +:+ snd e))).
  rewrite split_once_app by done. rewrite split_once_app by (by apply print_uint_free; [|lia]).
  rewrite (proj2 (strip_prefix_spec "./" ("./" +:+ snd e) (snd e)) eq_refl). cbn [default].
  rewrite parse_print_uint by (assumption || apply u64_digits). reflexivity.
Qed.

Lemma omap_listing found : Forall wf_found found -> omap parse_entry (split "000" (print_listing found)) = map found_entry found.
Proof.
  induction 1 as [|e found He _ IH]; [done|]. cbn [print_listing foldr map]. rewrite split_app.
  - cbn [omap list_omap]. rewrite parse_found by done. cbn. by f_equal.
  - destruct He as (_ & Hk & Hs & Hn). unfold print_found. rewrite !all_chars_app. unfold free_of_char in *. rewrite Hk, Hn.
    pose proof (print_uint_free "000" (snd (fst e)) eq_refl ltac:(lia)) as ->. done.
Qed.

(** A listing is what [stat] printed, sorted by path, whatever bars, newlines and
    dots the names have. *)
Theorem listing_read found : Forall wf_found found ->
  parse_entries (print_listing found) ≡ₚ map found_entry found /\
  StronglySorted (fun a b => entry_le a b = true) (parse_entries (print_listing found)).
Proof.
  intros Hf. unfold parse_entries. rewrite omap_listing by done. split; [apply sort_by_Permutation|].
  apply sort_by_sorted; unfold entry_le; [intros a b; apply String.leb_total|intros a b c; apply string_compare_trans].
Qed.

(** ** Metadata *)

Lemma octal_radix bound fuel n acc : (0 < fuel)%nat -> 0 <= n < 8 ^ Z.of_nat fuel -> n < bound ->
  radix_digits 8 bound 0 (octal_digits fuel n acc) = radix_digits 8 bound n acc.
Proof.
  assert (Hd : forall d, 0 <= d < 8 -> to_digit (char (48 + d)) = Some d).
  { intros d Hd. destruct (digit_code d ltac:(lia)) as [E1 E2]. unfold to_digit. rewrite E1, E2. f_equal. lia. }
  revert n acc. induction fuel as [|fuel IH]; intros n acc Hf Hn Hb; [lia|]. cbn [octal_digits]. destruct (Z.ltb_spec n 8).
  - cbn [radix_digits]. rewrite Hd by lia. rewrite Z.mul_0_l, Z.add_0_l.
    by rewrite (proj2 (Z.ltb_lt n 8)), (proj2 (Z.ltb_lt n bound)) by lia.
  - pose proof (Z.div_mod n 8 ltac:(lia)) as Hdm. pose proof (Z.mod_pos_bound n 8 ltac:(lia)) as Hm.
    assert (fuel <> 0%nat) as Hf0 by (intros ->; change (8 ^ Z.of_nat 1) with 8 in Hn; lia).
    rewrite Nat2Z.inj_succ, Z.pow_succ_r in Hn by lia. rewrite IH; [|lia| |].
    + cbn [radix_digits]. rewrite Hd by lia. replace (n / 8 * 8 + n mod 8) with n by lia.
      by rewrite (proj2 (Z.ltb_lt _ 8)), (proj2 (Z.ltb_lt n bound)) by lia.
    + split; [apply Z.div_pos; lia|]. apply Z.div_lt_upper_bound; lia.
    + pose proof (Z.div_le_upper_bound n 8 n ltac:(lia) ltac:(lia)). lia.
Qed.

Lemma octal_all (p : ascii -> bool) fuel n acc : (forall d, 0 <= d < 8 -> p (char (48 + d)) = true) -> 0 <= n ->
  all_chars p acc = true -> all_chars p (octal_digits fuel n acc) = true.
Proof.
  intros Hp. revert n acc. induction fuel as [|fuel IH]; intros n acc Hn Ha; cbn [octal_digits]; [done|].
  destruct (Z.ltb_spec n 8).
  - cbn. by rewrite Hp, Ha by lia.
  - apply IH; [apply Z.div_pos; lia|]. cbn. rewrite Hp, Ha; [done|]. apply Z.mod_pos_bound. lia.
Qed.

(** A mode is read back from its octal form, in which it is also set. *)
Lemma mode_read n : 0 <= n < u32_bound -> from_str_radix 8 u32_bound (print_octal n) = Some n.
Proof.
  intros Hn. unfold print_octal.
  assert (H : radix_digits 8 u32_bound 0 (octal_digits 11 n EmptyString) = Some n).
  { rewrite octal_radix; [done|lia| |lia]. unfold u32_bound in Hn. split; [lia|]. etransitivity; [apply Hn|by vm_compute]. }
  assert (Hp : all_chars (fun a => negb (Ascii.eqb a "+")) (octal_digits 11 n EmptyString) = true).
  { apply octal_all; [|lia|done]. intros d Hd. apply negb_true_iff, Ascii.eqb_neq. intros E.
    destruct (digit_code d ltac:(lia)) as [Ec _]. rewrite E in Ec. change (code "+") with 43 in Ec. lia. }
  assert (Hne : octal_digits 11 n EmptyString <> EmptyString).
  { enough (forall fuel m acc, (0 < fuel)%nat \/ acc <> EmptyString -> octal_digits fuel m acc <> EmptyString) as Hall by (apply Hall; lia).
    clear. induction fuel as [|fuel IH]; intros m acc Hf; cbn [octal_digits]; [by destruct Hf; [lia|]|].
    destruct (m <? 8); [done|]. apply IH. by right. }
  revert H Hp Hne. generalize (octal_digits 11 n EmptyString) as s. intros s H Hp Hne. destruct s as [|a s]; [done|].
  cbn [all_chars] in Hp. apply andb_true_iff in Hp as [Ha%negb_true_iff _]. unfold from_str_radix. rewrite Ha. by destruct s.
Qed.

(** What [stat] prints of a file. *)
Definition stat_text (kind : string) (size mode mtime : Z) : string :=
  kind +:+ "|" +:+ print_uint size +:+ "|" +:+ print_octal mode +:+ "|" +:+ print_uint mtime +:+ NEWLINE.

(** A bound that the seconds of a file may pass panics; the text is the sandbox's. *)
Lemma late_time_panics debug_str : parse_stat debug_str (stat_text "regular file" 0 420 (LAST_SECOND + 1)) = None.
Proof. vm_compute. reflexivity. Qed.

Example stat_read debug_str : parse_stat debug_str (stat_text "regular empty file" 0 420 1700000000) =
  Some (Ok (mkMetadata KFile 0 (Some 420) (Some 1700000000))).
Proof. vm_compute. reflexivity. Qed.

(** A range with a length ends in [head], whose exit is the pipe's: of a file that
    cannot be read the same offset is an error without a length, and empty with one. *)
Lemma missing_file_range {W} path offset n (world : ExecSpec -> W -> W * result ExecResult Error) files failed :
  let first := print_uint (Z.min (offset + 1) (u64_bound - 1)) in
  let tail := "tail -c +" +:+ first +:+ " -- " +:+ shell_quote path in
  world (helper tail) files = (files, Ok failed) -> success failed = false ->
  runs_to world (tail +:+ " | head -c " +:+ print_uint n) files files [] ->
  perform world (read_range path offset None) files = (files, Err (ExecE (failure_of "fs read_range" failed))) /\
  perform world (read_range path offset (Some n)) files = (files, Ok []).
Proof.
  intros first tail Hw Hf Hr. unfold read_range, run. split.
  - rewrite perform_bind. unfold run_bash. rewrite perform_bind. cbn [exec_run perform]. unfold helper in Hw.
    fold first. fold tail. rewrite Hw. by rewrite Hf.
  - rewrite perform_bind. destruct Hr as (r & Hw' & Hs & Ho). fold first.
    replace ("tail -c +" +:+ first +:+ " -- " +:+ shell_quote path +:+ " | head -c " +:+ print_uint n) with (tail +:+ " | head -c " +:+ print_uint n)
      by (unfold tail; by rewrite <- !app_assoc_string).
    rewrite (perform_bash world _ _ _ files files r Hw' Hs). cbn. by rewrite Ho.
Qed.

(** ** A sandbox of a shell *)

Definition ok_result (out : bytes) (code : Z) : result ExecResult Error := Ok (mkResult out [] (Some code) None Exited 0).

Definition demo_path : string := "/f".
Definition demo_dirname (_ : string) : string := "/".

(** It does what the shell does, and refuses what the shell has no answer for. *)
Definition demo_world (spec : ExecSpec) (d : Disk) : Disk * result ExecResult Error :=
  match args spec with
  | [_; line] =>
      match shell_run demo_dirname (utility demo_dirname) line d with
      | Some (d', out, status) => (d', ok_result out status)
      | None => (d, ok_result [] 127)
      end
  | _ => (d, ok_result [] 127)
  end.

Lemma demo_tools : FileTools demo_dirname demo_world.
Proof.
  intros line d d' out status _ Hs. exists (mkResult out [] (Some status) None Exited 0). split; [|done].
  change (demo_world (helper line) d) with (match shell_run demo_dirname (utility demo_dirname) line d with
    | Some (d', out, status) => (d', ok_result out status) | None => (d, ok_result [] 127) end). by rewrite Hs.
Qed.

(** No file, and one. *)
Definition demo_empty : Disk := mkDisk ∅ ∅.
Definition demo_disk : Disk := mkDisk {[demo_path := [104; 105]]} {["/"]}.

Lemma demo_place d : files d !! "/" = None -> demo_path ∉ dirs d -> place demo_dirname demo_path d.
Proof. intros Hf Hd. split; [reflexivity|apply Nat.leb_le; reflexivity|reflexivity|done|done|done]. Qed.


Lemma defaults_agree_witness :
  perform demo_world (default_write_append read exists_ write demo_path [33]) demo_disk =
    (mkDisk {[demo_path := [104; 105; 33]]} {["/"]}, Ok tt).
Proof.
  assert (Hb : Forall is_u8 [104; 105]) by (repeat constructor; done).
  assert (Hm : Forall is_u8 [33]) by (repeat constructor; done).
  etransitivity; [apply (defaults_agree demo_dirname demo_world demo_tools demo_path [104; 105] [33] demo_disk 0 None)|];
    [done|done|apply demo_place; [reflexivity|vm_compute; intros Hd; inversion Hd]|unfold u64_bound; lia|done|reflexivity|unfold u64_bound; cbn; lia|vm_compute; reflexivity].
Defined.

(** A directory whose name ends in a newline: another one is made, and the write fails. *)
Lemma newline_directory_lost :
  let dirname := fun path => if String.eqb path ("/d" +:+ NEWLINE +:+ "/f") then "/d" +:+ NEWLINE else "/" in
  shell_run dirname (utility dirname) (chunk_line ("/d" +:+ NEWLINE +:+ "/f") true false (base64_encode [104])) demo_empty =
  Some (mkDisk ∅ {["/d"]}, [], 1).
Proof. vm_compute. reflexivity. Qed.

Lemma listing_read_witness :
  parse_entries (print_listing [("directory", 4096, "src"); ("regular file", 3, "a|b")]) ≡ₚ
    [mkEntry "src" KDirectory None; mkEntry "a|b" KFile (Some 3)].
Proof.
  apply (listing_read [("directory", 4096, "src"); ("regular file", 3, "a|b")]).
  repeat constructor; unfold u64_bound; cbn; lia.
Defined.
