(* ===== verification/DerivedSearch.v ===== *)
(** * Search over a sandbox's commands

    Models [crates/sandbox-driver/src/derived/search.rs] and the options and results
    of [crates/sandbox-driver/src/search.rs]. The glob library is a parameter: what
    compiling a pattern gives. *)

From S2P Require Import Prelude Text Shell Sanitize Exec Errors Script.

#[local] Open Scope string_scope.
#[local] Open Scope list_scope.
#[local] Open Scope Z_scope.

Definition GREP_TIMEOUT : Z := 30 * 1000.
Definition WALK_TIMEOUT : Z := 30 * 1000.
Definition SIGPIPE_EXIT : Z := 141.

Record GrepOptions := mkGrepOptions { case_insensitive : bool; max_matches : option Z; include : option string }.
Record GrepMatch := mkGrepMatch { match_path : string; line_number : Z; line : string }.
Record WalkOptions := mkWalkOptions { max_depth : option Z; exclude_dirs : list string }.
Record WalkedFile := mkWalked { walked_path : string; walked_size : option Z }.

Definition no_walk_options : WalkOptions := mkWalkOptions None [].

(** ** Grep *)

Definition ripgrep_spec : ExecSpec := spec_timeout (Some (10 * 1000)) (bash "command -v rg >/dev/null 2>&1").

(** The probe, run when the cell is empty; a command that could not be run is a
    sandbox without ripgrep. *)
Definition ripgrep_available (cell : option bool) : Script bool :=
  match cell with
  | Some available => sret available
  | None => Run ripgrep_spec (fun answer => sret (match answer with Ok r => success r | Err _ => false end))
  end.

Definition run_match_command (label command : string) (limit : Z) : Script (option ExecResult) :=
  run! r := exec_run (spec_timeout (Some limit) (bash command)) in
  let truncated_at_source := bool_decide (res_termination r = Exited) && bool_decide (exit_code r = Some SIGPIPE_EXIT) in
  if success r || truncated_at_source then sret (Some r)
  else if bool_decide (exit_code r = Some 1) then sret None
  else sthrow (ExecE (failure_of label r)).

Definition grep_line (rg : bool) (pattern path : string) (o : GrepOptions) : string :=
  let cmd := if rg then "rg -H --line-number --no-heading --no-messages --null" else "grep -rnIH --null" in
  let cmd := if case_insensitive o then cmd +:+ " -i" else cmd in
  let cmd := match max_matches o with Some max => cmd +:+ " -m " +:+ print_uint max | None => cmd end in
  let cmd := match include o with
             | Some include => cmd +:+ (if rg then " --glob " else " --include=") +:+ shell_quote include
             | None => cmd
             end in
  cmd +:+ " -e " +:+ shell_quote pattern +:+ " -- " +:+ shell_quote path.

Definition grep_command (rg : bool) (pattern path : string) (o : GrepOptions) : string :=
  let command := grep_line rg pattern path o in
  match max_matches o with
  | Some max => "set -o pipefail" +:+ NEWLINE +:+ command +:+ " | head -n " +:+ print_uint max
  | None => command
  end.

Definition parse_match (line : string) : option GrepMatch :=
  match split_once "000" line with
  | None => None
  | Some (file, rest) =>
      match split_once ":" rest with
      | None => None
      | Some (number, content) => (fun n => mkGrepMatch file n content) <$> parse_uint u64_bound number
      end
  end.

(** The loop over the lines: none at a line that does not parse. *)
Fixpoint grep_matches (max : option Z) (matches : list GrepMatch) (ls : list string) : option (list GrepMatch) :=
  match ls with
  | [] => Some matches
  | line :: ls =>
      match parse_match line with
      | None => None
      | Some m =>
          let matches := matches ++ [m] in
          if match max with Some max => max <=? Z.of_nat (length matches) | None => false end then Some matches
          else grep_matches max matches ls
      end
  end.

(** [cell] is what the instance knows of ripgrep. *)
Definition grep (cell : option bool) (pattern path : string) (o : GrepOptions) : Script (list GrepMatch) :=
  run! rg := ripgrep_available cell in
  run! found := run_match_command "grep" (grep_command rg pattern path o) GREP_TIMEOUT in
  match found with
  | None => sret []
  | Some r =>
      match grep_matches (max_matches o) [] (lines (stdout_lossy r)) with
      | Some matches => sret matches
      | None => sthrow (ExecE (failure_of "grep output parse" r))
      end
  end.

(** The cell after: the probe is made once. *)
Definition probed (cell : option bool) (answer : result ExecResult Error) : option bool :=
  match cell with
  | Some available => Some available
  | None => Some (match answer with Ok r => success r | Err _ => false end)
  end.

(** ** Walks *)

Fixpoint exclude_names (first : bool) (dirs : list string) : string :=
  match dirs with
  | [] => EmptyString
  | dir :: dirs => (if first then EmptyString else " -o") +:+ " -name " +:+ shell_quote dir +:+ exclude_names false dirs
  end.

Definition walk_expr (o : WalkOptions) : string :=
  let expr := "find -H ." in
  let expr := match max_depth o with Some depth => expr +:+ " -maxdepth " +:+ print_uint depth | None => expr end in
  match exclude_dirs o with
  | [] => expr +:+ " -type f"
  | dirs => expr +:+ " \( -type d \(" +:+ exclude_names true dirs +:+ " \) -prune \) -o -type f"
  end.

Definition guard_test (path : string) : string := " && [ ! -L " +:+ shell_quote path +:+ " ]".

Fixpoint guard_loop (guard prefix : string) (segments : list string) : string :=
  match segments with
  | [] => guard
  | segment :: segments =>
      let prefix := (if is_empty prefix then prefix else prefix +:+ "/") +:+ segment in
      guard_loop (guard +:+ guard_test prefix) prefix segments
  end.

Definition segments (base : string) : list string := List.filter (fun s => negb (is_empty s)) (split "/" base).

Definition symlink_guard (base : string) : string :=
  if starts_with_char "/" base then guard_test base else guard_loop EmptyString EmptyString (segments base).

Definition guarded (base find : string) : string :=
  "if [ -d " +:+ shell_quote base +:+ " ]" +:+ symlink_guard base +:+ "; then cd " +:+ shell_quote base +:+ " && " +:+ find +:+ "; fi".

Definition gnu_command (base : string) (o : WalkOptions) : string := guarded base (walk_expr o +:+ " -printf '%s\0%P\0'").
Definition posix_command (base : string) (o : WalkOptions) : string := guarded base (walk_expr o +:+ " -print0").

(** The loop over the fields, two at a time. *)
Fixpoint gnu_files (fields : list bytes) : list WalkedFile :=
  match fields with
  | size :: path :: fields =>
      match path with
      | [] => gnu_files fields
      | _ => mkWalked (from_utf8_lossy path) (parse_uint u64_bound (from_utf8_lossy size)) :: gnu_files fields
      end
  | _ => []
  end.

Definition parse_gnu_walk (stdout : bytes) : list WalkedFile := gnu_files (split_bytes 0 stdout).

Definition posix_file (path : bytes) : WalkedFile :=
  let text := from_utf8_lossy path in
  mkWalked (default text (strip_prefix "./" text)) None.

Definition parse_posix_walk (stdout : bytes) : list WalkedFile :=
  map posix_file (List.filter (fun path => negb (bool_decide (path = []))) (split_bytes 0 stdout)).

Definition walk (base : string) (o : WalkOptions) : Script (list WalkedFile) :=
  run! r := exec_run (spec_timeout (Some WALK_TIMEOUT) (bash (gnu_command base o))) in
  if success r then sret (parse_gnu_walk (res_stdout r))
  else
    run! r := exec_run (spec_timeout (Some WALK_TIMEOUT) (bash (posix_command base o))) in
    if negb (success r) then sthrow (ExecE (failure_of "walk" r)) else sret (parse_posix_walk (res_stdout r)).

(** [build] compiles a pattern, to the paths it matches or an error's text. *)
Definition glob (build : string -> result (string -> bool) string) (pattern base : string) : Script (list string) :=
  match build pattern with
  | Err reason => sthrow (InvalidSpec "pattern" reason)
  | Ok is_match =>
      run! walked := walk base no_walk_options in
      sret (sort_by String.leb (List.filter is_match (map walked_path walked)))
  end.

(** ** What grep prints is what is found *)

(** A match as both tools print it with [--null] and line numbers. *)
Definition print_match (m : GrepMatch) : string :=
  match_path m +:+ String "000" (print_uint (line_number m) +:+ ":" +:+ line m).

Definition print_matches (found : list GrepMatch) : string :=
  foldr (fun m acc => print_match m +:+ String (char 10) acc) EmptyString found.

Definition wf_match (m : GrepMatch) : Prop :=
  free_of_char "000" (match_path m) /\ free_of_char (char 10) (match_path m) /\ 0 <= line_number m < u64_bound /\
  free_of_char (char 10) (line m).

(** A match of a line that ends in a carriage return is without it. *)
Definition chomped (m : GrepMatch) : GrepMatch := mkGrepMatch (match_path m) (line_number m) (chomp (line m)).

(** The bound on matches, which never is zero. *)
Definition at_most (max : option Z) (found : list GrepMatch) : list GrepMatch :=
  match max with Some max => take (Nat.max 1 (Z.to_nat max)) found | None => found end.

Lemma chomp_app p l : is_empty l = false -> chomp (p +:+ l) = p +:+ chomp l.
Proof.
  intros Hl. unfold chomp. enough (strip_suffix (String (char 13) EmptyString) (p +:+ l) =
    (fun s => p +:+ s) <$> strip_suffix (String (char 13) EmptyString) l) as -> by (by destruct (strip_suffix _ l)).
  induction p as [|a p IH]; cbn [String.app]; [by destruct (strip_suffix _ l)|]. cbn [strip_suffix].
  destruct (String.eqb_spec (String a (p +:+ l)) (String (char 13) EmptyString)) as [E|_].
  { injection E as _ E. destruct p; [by destruct l|done]. }
  rewrite IH. by destruct (strip_suffix _ l).
Qed.

Lemma chomp_printed path number l : chomp (path +:+ String "000" (number +:+ ":" +:+ l)) = path +:+ String "000" (number +:+ ":" +:+ chomp l).
Proof.
  rewrite chomp_app by done. f_equal. change (String "000" (number +:+ ":" +:+ l)) with (String "000" EmptyString +:+ (number +:+ ":" +:+ l)).
  rewrite chomp_app by (destruct number; done). cbn [String.app]. f_equal. rewrite chomp_app by done. f_equal.
  destruct l; [done|]. change (String ":" (String a l)) with (":" +:+ String a l). by rewrite chomp_app.
Qed.

Lemma parse_printed m : wf_match m -> parse_match (print_match m) = Some m.
Proof.
  intros (Hp & _ & Hn & _). unfold parse_match, print_match. rewrite split_once_app by done.
  change (print_uint (line_number m) +:+ ":" +:+ line m) with (print_uint (line_number m) +:+ String ":" (line m)).
  rewrite split_once_app by (by apply print_uint_free; [|lia]).
  rewrite parse_print_uint by (assumption || apply u64_digits). by destruct m.
Qed.

Lemma chomped_wf m : wf_match m -> parse_match (chomp (print_match m)) = Some (chomped m).
Proof.
  intros (Hp & Hq & Hn & _). unfold print_match. rewrite chomp_printed.
  unfold parse_match. rewrite split_once_app by done.
  change (print_uint (line_number m) +:+ ":" +:+ chomp (line m)) with (print_uint (line_number m) +:+ String ":" (chomp (line m))).
  rewrite split_once_app by (by apply print_uint_free; [|lia]).
  by rewrite parse_print_uint by (assumption || apply u64_digits).
Qed.

Lemma lines_printed found : Forall wf_match found -> lines (print_matches found) = map (fun m => chomp (print_match m)) found.
Proof.
  induction 1 as [|m found Hm _ IH]; [done|]. cbn [print_matches foldr map]. rewrite lines_app; [by f_equal|].
  destruct Hm as (_ & Hp & Hn & Hl). unfold print_match. unfold free_of_char in *. rewrite all_chars_app, Hp. cbn [all_chars andb].
  rewrite all_chars_app. pose proof (print_uint_free (char 10) (line_number m) eq_refl ltac:(lia)) as ->. by cbn.
Qed.

Lemma matches_printed max acc found : Forall wf_match found ->
  (forall n, max = Some n -> (length acc < Nat.max 1 (Z.to_nat n))%nat) ->
  grep_matches max acc (map (fun m => chomp (print_match m)) found) =
    Some (acc ++ match max with Some n => take (Nat.max 1 (Z.to_nat n) - length acc) (map chomped found) | None => map chomped found end).
Proof.
  intros Hf. revert acc. induction Hf as [|m found Hm Hf IH]; intros acc Hmax; cbn [map grep_matches].
  { destruct max; by rewrite ?take_nil, app_nil_r. }
  rewrite chomped_wf by done. destruct max as [n|].
  - specialize (Hmax n eq_refl). destruct (n <=? Z.of_nat (length (acc ++ [chomped m]))) eqn:E.
    + apply Z.leb_le in E. rewrite length_app in E. cbn [length] in E.
      replace (Nat.max 1 (Z.to_nat n) - length acc)%nat with 1%nat by lia. done.
    + apply Z.leb_gt in E. rewrite IH; [|intros ? [= <-]; lia]. rewrite <- app_assoc. do 2 f_equal. rewrite length_app in *. cbn [length] in *.
      replace (Nat.max 1 (Z.to_nat n) - length acc)%nat with (S (Nat.max 1 (Z.to_nat n) - (length acc + 1)))%nat by lia. done.
  - rewrite IH by done. by rewrite <- app_assoc.
Qed.

(** The commands of a search: the probe when ripgrep is not known of, then the
    command for the tool there is. *)
Definition grep_specs (cell : option bool) (rg : bool) (pattern path : string) (o : GrepOptions) : list ExecSpec :=
  (if cell then [] else [ripgrep_spec]) ++ [spec_timeout (Some GREP_TIMEOUT) (bash (grep_command rg pattern path o))].

(** What is found is what is returned, in order and up to the bound, whichever of
    the two tools there is and whatever colons the names have. That nothing was
    found is an empty result, and what ends in another way is an error. *)
Theorem grep_found cell probe rg pattern path o r found : probed cell probe = Some rg ->
  Forall wf_match found -> stdout_lossy r = print_matches found ->
  exists result, play (grep cell pattern path o) ((if cell then [] else [probe]) ++ [Ok r]) =
    (grep_specs cell rg pattern path o, Some result) /\
  result = if success r || (bool_decide (res_termination r = Exited) && bool_decide (exit_code r = Some SIGPIPE_EXIT))
           then Ok (at_most (max_matches o) (map chomped found))
           else if bool_decide (exit_code r = Some 1) then Ok []
           else Err (ExecE (failure_of "grep" r)).
Proof.
  intros Hrg Hf Hout. eexists. split; [|reflexivity].
  assert (Hp : grep_matches (max_matches o) [] (lines (stdout_lossy r)) = Some (at_most (max_matches o) (map chomped found))).
  { rewrite Hout, lines_printed by done. rewrite matches_printed; [|done|intros n _; cbn; lia].
    cbn [app]. unfold at_most. destruct (max_matches o); [by rewrite Nat.sub_0_r|done]. }
  destruct cell as [b|]; cbn in Hrg; injection Hrg as <-; unfold grep, run_match_command;
    cbn [ripgrep_available sbind play app exec_run sret grep_specs].
  all: repeat match goal with |- context [if ?b then _ else _] => destruct b eqn:? end; cbn [play sbind sret sthrow app]; rewrite ?Hp; done.
Qed.

(** A name with a newline in it is the one thing the output cannot tell: the
    search is refused, not answered without it. *)
Lemma newline_name_refused cell r probe pattern path o file number content more :
  free_of_char (char 10) file -> free_of_char "000" file -> success r = true ->
  stdout_lossy r = file +:+ String (char 10) (content +:+ String "000" (number +:+ ":" +:+ more)) ->
  snd (play (grep cell pattern path o) ((if cell then [] else [probe]) ++ [Ok r])) =
    Some (Err (ExecE (failure_of "grep output parse" r))).
Proof.
  intros Hn Hz Hr Hout. assert (Hp : grep_matches (max_matches o) [] (lines (stdout_lossy r)) = None).
  { rewrite Hout, lines_app by done. cbn [grep_matches]. unfold parse_match.
    destruct (split_once "000" (chomp file)) as [[l rr]|] eqn:E; [|done]. exfalso.
    apply split_once_some in E. pose proof (chomp_chars _ _ Hz) as H.
    rewrite E, all_chars_app in H. cbn in H. by rewrite andb_false_r in H. }
  destruct cell; unfold grep, run_match_command; cbn [ripgrep_available sbind play app exec_run sret]; rewrite Hr; cbn [orb];
    cbn [play sbind sret sthrow app]; by rewrite Hp.
Qed.

(** ** What a shell reads *)

(** The words of the search command. *)
Definition grep_args (rg : bool) (pattern path : string) (o : GrepOptions) : list string :=
  (if rg then ["rg"; "-H"; "--line-number"; "--no-heading"; "--no-messages"; "--null"] else ["grep"; "-rnIH"; "--null"]) ++
  (if case_insensitive o then ["-i"] else []) ++
  match max_matches o with Some max => ["-m"; print_uint max] | None => [] end ++
  match include o with Some include => if rg then ["--glob"; include] else ["--include=" +:+ include] | None => [] end ++
  ["-e"; pattern; "--"; path].

Lemma reads_as_word line ws v : reads_as line ws -> plain_word v = true -> reads_as (line +:+ " " +:+ v) (ws ++ [v]).
Proof. intros (ws' & w & <- & Hr) Hv. exists (ws' ++ [w]), v. split; [done|]. by apply reads_plain. Qed.

(** A flag and its quoted value. *)
Lemma reads_as_option line ws flag v : reads_as line ws -> plain_word flag = true ->
  reads_as (line +:+ (" " +:+ flag +:+ " ") +:+ shell_quote v) (ws ++ [flag; v]).
Proof.
  intros Hl Hf. replace (line +:+ (" " +:+ flag +:+ " ") +:+ shell_quote v) with ((line +:+ " " +:+ flag) +:+ " " +:+ shell_quote v).
  - change [flag; v] with ([flag] ++ [v]). rewrite app_assoc. by apply reads_as_quoted, reads_as_word.
  - by rewrite <- !app_assoc_string.
Qed.

(** A word whose end is quoted. *)
Lemma reads_as_joined line ws p v : reads_as line ws -> plain_word p = true ->
  reads_as (line +:+ (" " +:+ p) +:+ shell_quote v) (ws ++ [p +:+ v]).
Proof.
  intros (ws' & w & <- & Hr) Hp. exists (ws' ++ [w]), (p +:+ v). split; [done|].
  rewrite app_assoc_string. by apply reads_more_quoted, reads_plain.
Qed.

Lemma derivedsearch_print_uint_plain n : 0 <= n < u64_bound -> plain_word (print_uint n) = true.
Proof.
  intros Hn. destruct (print_uint_digits n) as [Hd He]; [pose proof u64_digits; lia|]. unfold plain_word. rewrite He. cbn.
  revert Hd. apply all_chars_impl. intros a Ha. unfold ordinary, is_ascii_alphanumeric. by rewrite Ha.
Qed.

(** Whatever the pattern, the path and the glob hold, each is one argument of the
    search: the pattern the value of [-e], the path after the options' end. *)
Theorem grep_words rg pattern path o : match max_matches o with Some max => 0 <= max < u64_bound | None => True end ->
  shell_words (grep_line rg pattern path o) false None = Some (grep_args rg pattern path o).
Proof.
  intros Hm. apply reads_as_words. unfold grep_line, grep_args. destruct o as [ci max inc]. cbn [case_insensitive max_matches include] in *.
  set (tool := if rg then [_; _; _; _; _; _] else _). set (line0 := if rg then _ else _).
  assert (H0 : reads_as line0 tool).
  { subst line0 tool. destruct rg.
    - exact (reads_as_plain "rg" ["-H"; "--line-number"; "--no-heading"; "--no-messages"; "--null"] eq_refl).
    - exact (reads_as_plain "grep" ["-rnIH"; "--null"] eq_refl). }
  clearbody line0 tool. rewrite !app_assoc.
  assert (H1 : reads_as (if ci then line0 +:+ " -i" else line0) (tool ++ if ci then ["-i"] else [])).
  { destruct ci; [by apply (reads_as_word _ _ "-i")|by rewrite app_nil_r]. }
  revert H1. generalize (if ci then line0 +:+ " -i" else line0) as line1. generalize (tool ++ if ci then ["-i"] else []) as ws1. intros ws1 line1 H1.
  assert (H2 : reads_as (match max with Some max => line1 +:+ " -m " +:+ print_uint max | None => line1 end)
    (ws1 ++ match max with Some max => ["-m"; print_uint max] | None => [] end)).
  { destruct max as [n|]; [|by rewrite app_nil_r].
    pose proof (reads_as_word _ _ _ (reads_as_word _ _ "-m" H1 eq_refl) (derivedsearch_print_uint_plain n Hm)) as H.
    rewrite <- !app_assoc_string, <- app_assoc in H. exact H. }
  revert H2. generalize (match max with Some max => line1 +:+ " -m " +:+ print_uint max | None => line1 end) as line2.
  generalize (ws1 ++ match max with Some max => ["-m"; print_uint max] | None => [] end) as ws2. intros ws2 line2 H2.
  assert (H3 : reads_as (match inc with Some include => line2 +:+ (if rg then " --glob " else " --include=") +:+ shell_quote include | None => line2 end)
    (ws2 ++ match inc with Some include => if rg then ["--glob"; include] else ["--include=" +:+ include] | None => [] end)).
  { destruct inc as [g|]; [|by rewrite app_nil_r]. destruct rg; [by apply (reads_as_option _ _ "--glob")|by apply (reads_as_joined _ _ "--include=")]. }
  pose proof (reads_as_option _ _ "--" path (reads_as_option _ _ "-e" pattern H3 eq_refl) eq_refl) as H.
  rewrite <- !app_assoc_string, <- !app_assoc in H. rewrite <- !app_assoc. exact H.
Qed.

(** ** The root of a walk *)

(** The paths made of the first segments, each longer than the one before. *)
Definition prefixes (segments : list string) : list string := map (fun k => join "/" (take k segments)) (seq 1 (length segments)).

(** Whether a path names a symbolic link, in a file tree that tells it of the
    names on the way: a path that ends in a slash names what the link points at. *)
Definition is_symlink (link : list string -> bool) (path : string) : bool :=
  negb (ends_with_char "/" path) && link (segments path).

(** The paths the guard tests. *)
Definition guarded_paths (base : string) : list string :=
  if starts_with_char "/" base then [base] else prefixes (segments base).

Lemma join_app l s : l <> [] -> join "/" (l ++ [s]) = join "/" l +:+ "/" +:+ s.
Proof.
  induction l as [|a l IH]; intros Hl; [done|]. destruct l as [|b l]; [done|].
  change (join "/" ((a :: b :: l) ++ [s])) with (a +:+ String "/" (join "/" ((b :: l) ++ [s]))). rewrite IH by done.
  change (join "/" (a :: b :: l)) with (a +:+ String "/" (join "/" (b :: l))).
  change (String "/" (join "/" (b :: l))) with ("/" +:+ join "/" (b :: l)).
  change (String "/" (join "/" (b :: l) +:+ "/" +:+ s)) with ("/" +:+ (join "/" (b :: l) +:+ "/" +:+ s)).
  by rewrite <- !app_assoc_string.
Qed.

Definition named (s : string) : Prop := is_empty s = false /\ free_of_char "/" s.

Lemma split_pieces a s : Forall (free_of_char a) (split a s).
Proof.
  unfold free_of_char. induction s as [|b s IH]; cbn; [by repeat constructor|]. destruct (Ascii.eqb a b) eqn:E.
  - by constructor.
  - destruct (split a s) as [|p ps]; constructor; cbn; rewrite ?E; try done; by apply Forall_cons in IH as [? ?].
Qed.

Lemma named_segments base : Forall named (segments base).
Proof.
  unfold segments. induction (split_pieces "/" base) as [|p ps Hp _ IH]; cbn [List.filter]; [done|].
  destruct (is_empty p) eqn:E; cbn [negb]; [done|by constructor].
Qed.

Lemma segments_join l : Forall named l -> segments (join "/" l) = l.
Proof.
  intros Hl. destruct (decide (l = [])) as [->|Hne]; [done|]. unfold segments.
  rewrite split_join by (done || by eapply Forall_impl; [exact Hl|]; intros s []).
  clear Hne. induction Hl as [|s l [Hs _] _ IH]; [done|]. cbn [List.filter]. rewrite Hs. cbn [negb]. by rewrite IH.
Qed.

Lemma join_no_slash l : Forall named l -> ends_with_char "/" (join "/" l) = false.
Proof.
  intros Hl. unfold ends_with_char. apply bool_decide_eq_false. induction Hl as [|s l [Hs Hf] Hl IH]; [done|].
  assert (Hlast : forall t, free_of_char "/" t -> last_char t <> Some "/"%char).
  { clear. unfold free_of_char. induction t as [|a t IH]; [done|]. cbn [all_chars last_char]. intros [Ha Ht]%andb_true_iff.
    destruct t; [intros [= ->]; by vm_compute in Ha|by apply IH]. }
  destruct l as [|s' l]; [by apply Hlast|]. change (join "/" (s :: s' :: l)) with (s +:+ String "/" (join "/" (s' :: l))).
  assert (Hne : join "/" (s' :: l) <> EmptyString).
  { apply Forall_cons in Hl as [[Hs' _] _]. destruct s'; [done|]. by destruct l. }
  revert IH. generalize (join "/" (s' :: l)) as t, Hne. clear. intros t Hne IH.
  induction s as [|a s IHs]; [by destruct t|]. cbn [String.app last_char].
  destruct (s +:+ String "/" t) eqn:E; [by destruct s|]. done.
Qed.

Lemma guard_loop_paths guard done rest : Forall (fun s => is_empty s = false) (done ++ rest) ->
  guard_loop guard (join "/" done) rest =
    guard +:+ foldr (fun p acc => guard_test p +:+ acc) EmptyString
      (map (fun k => join "/" (done ++ take k rest)) (seq 1 (length rest))).
Proof.
  revert guard done. induction rest as [|s rest IH]; intros guard ds Hd; cbn [guard_loop length seq map foldr]; [by rewrite app_nil_r_string|].
  assert (Hj : (if is_empty (join "/" ds) then join "/" ds else join "/" ds +:+ "/") +:+ s = join "/" (ds ++ [s])).
  { destruct (decide (ds = [])) as [->|Hne]; [done|]. assert (is_empty (join "/" ds) = false) as ->.
    { destruct ds as [|a ds]; [done|]. apply Forall_app in Hd as [Hd _]. apply Forall_cons in Hd as [Ha _]. destruct a; [done|]. by destruct ds. }
    rewrite join_app by done. by rewrite <- app_assoc_string. }
  rewrite Hj, IH by (by rewrite <- app_assoc). rewrite <- app_assoc_string. cbn [take]. do 2 f_equal.
  rewrite <- (seq_shift (length rest) 1), map_map. f_equal. apply map_ext. intros k. cbn [take]. by rewrite <- app_assoc.
Qed.

(** The guard of a walk refuses a root that a symbolic link leads through, on the
    part of the path the caller does not vouch for: a relative root passes exactly
    if none of the paths on the way, the root's own included, is a link; an
    absolute one if it is not a link itself. *)
Theorem walk_guard base link :
  symlink_guard base = foldr (fun p acc => guard_test p +:+ acc) EmptyString (guarded_paths base) /\
  (starts_with_char "/" base = false ->
   (Forall (fun p => is_symlink link p = false) (guarded_paths base) <->
    forall k, (0 < k <= length (segments base))%nat -> link (take k (segments base)) = false)).
Proof.
  unfold symlink_guard, guarded_paths. split.
  - destruct (starts_with_char "/" base); [by cbn; rewrite app_nil_r_string|].
    pose proof (guard_loop_paths EmptyString [] (segments base)) as H. cbn [app join] in H. rewrite H; [done|].
    eapply Forall_impl; [apply named_segments|]. by intros s [].
  - intros ->. unfold prefixes. rewrite Forall_map, Forall_forall.
    assert (Hk : forall k, is_symlink link (join "/" (take k (segments base))) = link (take k (segments base))).
    { intros k. pose proof (Forall_take _ k _ (named_segments base)) as Hn. unfold is_symlink.
      by rewrite join_no_slash, segments_join by done. }
    split; intros H k Hin.
    + rewrite <- Hk. apply (H k). apply list_elem_of_In, in_seq. lia.
    + apply list_elem_of_In, in_seq in Hin. cbn. rewrite Hk. apply H. lia.
Qed.

(** An absolute root with a slash at its end is no link to the guard, whatever it
    points at; a relative one is told from what it points at. *)
Lemma slash_evades_guard link :
  guarded_paths "/out/" = ["/out/"] /\ is_symlink link "/out/" = false /\ guarded_paths "out/" = ["out"].
Proof. done. Qed.

(** ** Walks *)

(** What the two forms of [find] print of the files found. *)
Definition print_gnu (found : list (bytes * Z)) : bytes :=
  foldr (fun f acc => to_bytes (print_uint (snd f)) ++ 0 :: fst f ++ 0 :: acc) [] found.
Definition print_posix (found : list (bytes * Z)) : bytes :=
  foldr (fun f acc => [46; 47] ++ fst f ++ 0 :: acc) [] found.

Definition wf_walked (f : bytes * Z) : Prop := fst f <> [] /\ Forall (fun b => b <> 0) (fst f) /\ 0 <= snd f < u64_bound.

Definition walked (sizes : bool) (f : bytes * Z) : WalkedFile :=
  mkWalked (from_utf8_lossy (fst f)) (if sizes then Some (snd f) else None).

Lemma digits_bytes n : 0 <= n < u64_bound ->
  Forall (fun b => b <> 0) (to_bytes (print_uint n)) /\ from_utf8_lossy (to_bytes (print_uint n)) = print_uint n.
Proof.
  intros Hn. destruct (print_uint_digits n) as [Hd _]; [pose proof u64_digits; lia|]. split.
  - induction (print_uint n) as [|a s IH]; [constructor|]. cbn [all_chars] in Hd. apply andb_true_iff in Hd as [Ha Hd]. cbn.
    constructor; [|by apply IH]. intros E. unfold is_ascii_digit in Ha. by rewrite E in Ha.
  - apply ascii_utf8. revert Hd. apply all_chars_impl. intros a. unfold is_ascii_digit, in_range.
    intros [_ H%Z.leb_le]%andb_true_iff. apply Z.ltb_lt. lia.
Qed.

Lemma gnu_printed found : Forall wf_walked found -> parse_gnu_walk (print_gnu found) = map (walked true) found.
Proof.
  unfold parse_gnu_walk. induction 1 as [|[path size] found (Hp & Hz & Hs) _ IH]; [done|]. cbn [print_gnu foldr map fst snd] in *.
  destruct (digits_bytes size Hs) as [Hd Hl]. rewrite split_bytes_app, split_bytes_app by done. cbn [gnu_files].
  rewrite Hl, parse_print_uint by (assumption || apply u64_digits). destruct path; [done|]. f_equal. exact IH.
Qed.

Lemma posix_printed found : Forall wf_walked found -> parse_posix_walk (print_posix found) = map (walked false) found.
Proof.
  unfold parse_posix_walk. induction 1 as [|[path size] found (Hp & Hz & Hs) _ IH]; [done|]. cbn [print_posix foldr map fst snd] in *.
  rewrite app_assoc, split_bytes_app by (by repeat constructor). cbn [List.filter]. rewrite bool_decide_false by done. cbn [negb map].
  apply (f_equal2 cons); [|exact IH]. unfold posix_file, walked. cbn [fst].
  change (from_utf8_lossy ([46; 47] ++ path)) with ("./" +:+ from_utf8_lossy path).
  by rewrite (proj2 (strip_prefix_spec "./" ("./" +:+ from_utf8_lossy path) (from_utf8_lossy path)) eq_refl).
Qed.

(** The commands of a walk. *)
Definition walk_specs (base : string) (o : WalkOptions) (fallback : bool) : list ExecSpec :=
  map (fun command => spec_timeout (Some WALK_TIMEOUT) (bash command))
    (gnu_command base o :: if fallback then [posix_command base o] else []).

(** A walk names the files found, in the order found and whatever bytes their
    names have, with GNU find's sizes or, where that is missing, with none: the
    two differ in nothing else. It fails only when both do. *)
Theorem walk_found base o found r : Forall wf_walked found ->
  (success r = true -> res_stdout r = print_gnu found ->
   play (walk base o) [Ok r] = (walk_specs base o false, Some (Ok (map (walked true) found)))) /\
  (success r = false -> forall r', res_stdout r' = print_posix found ->
   play (walk base o) [Ok r; Ok r'] =
     (walk_specs base o true, Some (if success r' then Ok (map (walked false) found) else Err (ExecE (failure_of "walk" r'))))).
Proof.
  intros Hf. unfold walk. cbn [play sbind exec_run]. split.
  - intros -> Hout. cbn [play sret]. by rewrite Hout, gnu_printed.
  - intros -> r' Hout. cbn [play sbind exec_run]. destruct (success r'); cbn [negb play sret sthrow]; [|done].
    by rewrite Hout, posix_printed.
Qed.

Lemma play_map {A B} (m : Script A) (f : A -> B) answers :
  play (sbind m (fun a => sret (f a))) answers =
    (fst (play m answers), match snd (play m answers) with
                           | Some (Ok a) => Some (Ok (f a))
                           | Some (Err e) => Some (Err e)
                           | None => None
                           end).
Proof.
  revert answers. induction m as [[a|e]|spec k IH]; intros answers; cbn [sbind play fst snd sret]; [done..|].
  destruct answers as [|answer answers]; [done|]. rewrite IH. by destruct (play (k answer) answers).
Qed.

(** A glob gives the paths of the walk that match, sorted, and no others; a pattern
    that does not compile runs nothing. *)
Theorem glob_found build pattern base answers : match build pattern with
  | Err reason => play (glob build pattern base) answers = ([], Some (Err (InvalidSpec "pattern" reason)))
  | Ok is_match =>
      let specs := fst (play (walk base no_walk_options) answers) in
      match snd (play (walk base no_walk_options) answers) with
      | Some (Ok files) => exists paths, play (glob build pattern base) answers = (specs, Some (Ok paths)) /\
          StronglySorted (fun p q => String.leb p q = true) paths /\
          paths ≡ₚ List.filter is_match (map walked_path files)
      | Some (Err e) => play (glob build pattern base) answers = (specs, Some (Err e))
      | None => play (glob build pattern base) answers = (specs, None)
      end
  end.
Proof.
  unfold glob. destruct (build pattern) as [is_match|reason]; [|done]. cbv zeta. rewrite play_map.
  destruct (snd (play (walk base no_walk_options) answers)) as [[files|e]|]; [|done..]. eexists. split; [done|]. split.
  - apply sort_by_sorted; [apply String.leb_total|apply string_compare_trans].
  - apply sort_by_Permutation.
Qed.

(** A root whose name starts with a dash is an option to the [cd] of the walk,
    though not to its test. *)
Lemma dash_root_words : shell_words ("cd " +:+ shell_quote "-P") false None = Some ["cd"; "-P"].
Proof. reflexivity. Qed.

(** ** Witnesses *)

Definition demo_match : GrepMatch := mkGrepMatch "with:colon.rs" 10 "fn main() {}".

Lemma grep_found_witness :
  snd (play (grep None "main" "." (mkGrepOptions false (Some 5) None))
    [Ok (result_new Exited (Some 0) 0); Ok (mkResult (to_bytes (print_matches [demo_match])) [] (Some 0) None Exited 0)]) =
  Some (Ok [demo_match]).
Proof.
  destruct (grep_found None (Ok (result_new Exited (Some 0) 0)) true "main" "." (mkGrepOptions false (Some 5) None)
    (mkResult (to_bytes (print_matches [demo_match])) [] (Some 0) None Exited 0) [demo_match]) as (result & Hp & ->);
    [reflexivity|repeat constructor; done|reflexivity|].
  exact (f_equal snd Hp).
Defined.

Lemma grep_words_witness :
  shell_words (grep_line false "it's" "-r" (mkGrepOptions true (Some 3) (Some "*.rs"))) false None =
  Some ["grep"; "-rnIH"; "--null"; "-i"; "-m"; "3"; "--include=*.rs"; "-e"; "it's"; "--"; "-r"].
Proof. apply (grep_words false "it's" "-r" (mkGrepOptions true (Some 3) (Some "*.rs"))). unfold u64_bound. cbn. lia. Defined.

Lemma walk_found_witness :
  snd (play (walk "src" no_walk_options) [Ok (mkResult (print_gnu [([97; 10], 3)]) [] (Some 0) None Exited 0)]) =
  Some (Ok [mkWalked (of_bytes [97; 10]) (Some 3)]).
Proof.
  by rewrite (proj1 (walk_found "src" no_walk_options [([97; 10], 3)] (mkResult (print_gnu [([97; 10], 3)]) [] (Some 0) None Exited 0)
    ltac:(repeat constructor; done)) eq_refl eq_refl).
Defined.
