(* ===== verification/DerivedService.v ===== *)
(** * Services over a sandbox's commands

    Models [crates/sandbox-driver/src/derived/service.rs], with the values of
    [crates/sandbox-driver/src/service.rs] it makes. The [{:?}] form of a string,
    which reads the Unicode tables of the standard library, is a parameter. Indexing
    a string inside a character panics: what may panic is an option. *)

From S2P Require Import Prelude Text Hex Shell Ids Sanitize Exec Errors Script.

#[local] Open Scope string_scope.
#[local] Open Scope list_scope.
#[local] Open Scope Z_scope.

Definition SERVICE_TIMEOUT : Z := 60 * 1000.
Definition STOP_GRACE_POLLS : Z := 10.
Definition PORT_POLL : Z := 500.
Definition LISTENING_PORTS_SCRIPT : string := dq
"if command -v ss >/dev/null 2>&1; then
  echo `SANDBOX_DRIVER_PORTS ss`
  ss -H -ltnp
  exit 0
fi
if [ -r /proc/net/tcp ] || [ -r /proc/net/tcp6 ]; then
  for file in /proc/net/tcp /proc/net/tcp6; do
    if [ -r `$file` ]; then
      echo `SANDBOX_DRIVER_PORTS procfs $file`
      cat -- `$file`
    fi
  done
  exit 0
fi
if command -v lsof >/dev/null 2>&1; then
  echo `SANDBOX_DRIVER_PORTS lsof`
  lsof -nP -iTCP -sTCP:LISTEN 2>/dev/null
  exit 0
fi
echo `SANDBOX_DRIVER_PORTS none`
".

Definition SERVICE_DIR_PREFIX : string := "sandbox-driver-service-".

Record ServiceSpec := mkService { service_command : string; service_dir_ : option string; service_env : gmap string string }.
Record ServiceStatus := mkStatus { status_id : string; running : bool; status_exit : option Z }.
Record ListeningPort := mkPort { port : Z; address : string; process : option string }.

Definition run (label command : string) : Script ExecResult := run_bash SERVICE_TIMEOUT label command.

(** ** Ids *)

Definition is_our_service_id (id : string) : bool :=
  match strip_prefix SERVICE_DIR_PREFIX id with
  | None => false
  | Some suffix => negb (is_empty suffix) && all_chars is_ascii_alphanumeric suffix
  end.

Definition service_dir (id : string) : string := "/tmp/" +:+ id.

(** ** Spawning *)

Definition line_ (s : string) : string := s +:+ NEWLINE.

(** What runs in the service's session. *)
Definition supervised (command : string) : string :=
  dq "trap 'echo 143 > `$SANDBOX_DRIVER_SERVICE_DIR/exit`; exit 143' TERM" +:+ NEWLINE +:+
  "{ " +:+ command +:+ NEWLINE +:+ dq "}; echo $? > `$SANDBOX_DRIVER_SERVICE_DIR/exit`".

Definition export_line (key value : string) : string := line_ ("export " +:+ shell_quote key +:+ "=" +:+ shell_quote value).

Definition spawn_script (spec : ServiceSpec) : string :=
  let quoted := shell_quote (supervised (service_command spec)) in
  line_ ("dir=$(mktemp -d /tmp/" +:+ SERVICE_DIR_PREFIX +:+ "XXXXXXXXXX) || exit 9") +:+
  match service_dir_ spec with Some dir => line_ ("cd -- " +:+ shell_quote dir +:+ " || exit 8") | None => EmptyString end +:+
  foldr (fun kv acc => export_line (fst kv) (snd kv) +:+ acc) EmptyString (entries (service_env spec)) +:+
  line_ (dq "export SANDBOX_DRIVER_SERVICE_DIR=`$dir`") +:+
  line_ "if command -v setsid > /dev/null 2>&1; then" +:+
  line_ ("setsid bash -c " +:+ quoted +:+ dq " < /dev/null >> `$dir/log` 2>&1 &") +:+
  line_ "else" +:+
  line_ ("bash -c " +:+ quoted +:+ dq " < /dev/null >> `$dir/log` 2>&1 &") +:+
  line_ "fi" +:+
  line_ (dq "echo $! > `$dir/pid`") +:+
  line_ (dq "basename `$dir`").

Section Spawn.
Context (debug_str : string -> string).

Definition spawn (spec : ServiceSpec) : Script string :=
  run! r := run "service spawn" (spawn_script spec) in
  let name := trim (default EmptyString (last (lines (trim (stdout_lossy r))))) in
  match try_new_service_id name with
  | Err e => sthrow (InvalidSpec "service_id" (id_error_text debug_str e))
  | Ok id =>
      if negb (is_our_service_id id) then sthrow (InvalidSpec "service_id" ("unexpected spawn output " +:+ debug_str name))
      else sret id
  end.
End Spawn.

(** ** Observing and stopping *)

Definition status_command (id : string) : string :=
  line_ ("dir=" +:+ service_dir id) +:+
  dq "if [ -f `$dir/exit` ]; then echo `exited $(cat -- `$dir/exit`)`; elif [ -f `$dir/pid` ] && kill -0 `$(cat -- `$dir/pid`)` 2>/dev/null; then echo running; else echo unknown; fi".

Definition status (id : string) : Script ServiceStatus :=
  if negb (is_our_service_id id) then sret (mkStatus id false None)
  else
    run! r := run "service status" (status_command id) in
    let text := trim (stdout_lossy r) in
    sret (mkStatus id (String.eqb text "running")
      (match strip_prefix "exited " text with Some code => parse_i32 (trim code) | None => None end)).

Definition logs (id : string) (tail_bytes : Z) : Script bytes :=
  if negb (is_our_service_id id) then sret []
  else
    let dir := service_dir id in
    run! r := run "service logs"
      ("if [ -f " +:+ dir +:+ "/log ]; then tail -c " +:+ print_uint tail_bytes +:+ " -- " +:+ dir +:+ "/log; fi") in
    sret (res_stdout r).

Definition stop_command (id : string) : string :=
  line_ ("dir=" +:+ service_dir id) +:+
  line_ (dq "[ -f `$dir/pid` ] || exit 0") +:+
  line_ (dq "pid=$(cat -- `$dir/pid`)") +:+
  line_ (dq "case `$pid` in ''|*[!0-9]*) exit 0;; esac") +:+
  line_ (dq "kill -TERM -- `-$pid` 2>/dev/null || kill -TERM -- `$pid` 2>/dev/null || true") +:+
  line_ ("for _ in $(seq 1 " +:+ print_uint STOP_GRACE_POLLS +:+ "); do") +:+
  line_ (dq "[ -f `$dir/exit` ] && exit 0") +:+
  line_ (dq "kill -0 `$pid` 2>/dev/null || exit 0") +:+
  line_ "sleep 0.2" +:+
  line_ "done" +:+
  line_ (dq "kill -KILL -- `-$pid` 2>/dev/null || kill -KILL -- `$pid` 2>/dev/null || true") +:+
  line_ (dq "[ -f `$dir/exit` ] || echo 137 > `$dir/exit`") +:+
  "exit 0".

Definition stop (id : string) : Script unit :=
  if negb (is_our_service_id id) then sret tt
  else then! run "service stop" (stop_command id) in sret tt.

(** ** Ports *)

Definition wait_script (port timeout : Z) : string :=
  let polls := Z.max (timeout / PORT_POLL) 1 in
  line_ ("for _ in $(seq 1 " +:+ print_uint polls +:+ "); do") +:+
  line_ ("if (exec 3<>/dev/tcp/127.0.0.1/" +:+ print_uint port +:+ ") 2>/dev/null; then exit 0; fi") +:+
  line_ "sleep 0.5" +:+
  line_ "done" +:+
  "exit 7".

Definition wait_for_port (port timeout : Z) : Script unit :=
  run! r := exec_run (spec_timeout (Some (timeout + SERVICE_TIMEOUT)) (bash (wait_script port timeout))) in
  match exit_code r with
  | Some 0 => sret tt
  | Some 7 => sthrow (Timeout ("waiting for port " +:+ print_uint port) timeout)
  | _ => sthrow (ExecE (failure_of "service port wait" r))
  end.

(** The first process name after [((] and a double quote. *)
Definition ss_process_name (users : string) : option string :=
  match split_at (dq "((`") users with
  | None => None
  | Some (_, rest) => fst <$> split_once (char 34) rest
  end.

(** The fields put together with spaces. *)
Definition join_words (ws : list string) : string := join SPACE ws.

Definition parse_ss_line (line : string) : option ListeningPort :=
  let fields := split_whitespace line in
  match fields !! 3%nat with
  | None => None
  | Some address =>
      match rsplit_once ":" address with
      | None => None
      | Some (_, port) =>
          (fun port => mkPort port address
             (match drop 5 fields with [] => None | rest => ss_process_name (join_words rest) end))
          <$> parse_uint u16_bound port
      end
  end.

Definition to_le_bytes (v : Z) : list Z := [v mod 256; v / 256 mod 256; v / 65536 mod 256; v / 16777216 mod 256].

Definition procfs_ipv4 (hex : string) : string :=
  match from_str_radix 16 u32_bound hex with
  | None => hex
  | Some value => join "." (map print_uint (to_le_bytes value))
  end.

(** [{:x}] of an unsigned integer. *)
Fixpoint lower_hex (fuel : nat) (n : Z) (acc : string) : string :=
  match fuel with
  | O => acc
  | S fuel =>
      if n <? 16 then String (hex_digit n) acc else lower_hex fuel (n / 16) (String (hex_digit (n mod 16)) acc)
  end.

(** A byte offset that is the start of a character, or the end. *)
Definition is_char_boundary (s : string) (i : nat) : bool :=
  match String.get i s with Some a => negb (is_cont (code a)) | None => (i =? String.length s)%nat end.

Definition slice_str (from to : nat) (s : string) : option string :=
  if is_char_boundary s from && is_char_boundary s to then Some (String.substring from (to - from) s) else None.

(** The words of the address from a position on: panics, or stops at one that is no
    number, or gives the groups. *)
Fixpoint ipv6_groups (hex : string) (word : nat) (count : nat) : option (option (list string)) :=
  match count with
  | O => Some (Some [])
  | S count =>
      match slice_str (word * 8) (word * 8 + 8) hex with
      | None => None
      | Some text =>
          match from_str_radix 16 u32_bound text with
          | None => Some None
          | Some value =>
              let pair i := lower_hex 4 (nth i (to_le_bytes value) 0 * 256 + nth (S i) (to_le_bytes value) 0) EmptyString in
              match ipv6_groups hex (S word) count with
              | Some (Some groups) => Some (Some (pair 0%nat :: pair 2%nat :: groups))
              | other => other
              end
          end
      end
  end.

Definition procfs_ipv6 (hex : string) : option string :=
  if negb (String.length hex =? 32)%nat then Some hex
  else match ipv6_groups hex 0 4 with
       | None => None
       | Some None => Some hex
       | Some (Some groups) => Some (join ":" groups)
       end.

Definition PROCFS : string := "SANDBOX_DRIVER_PORTS procfs ".

(** One line of a table, to an entry, if it is one. *)
Definition procfs_line (ipv6 : bool) (line : string) : option (option ListeningPort) :=
  let fields := split_whitespace line in
  if match fields with first :: _ => String.eqb first "sl" | [] => false end then Some None
  else
    match fields !! 1%nat, fields !! 3%nat with
    | Some local, Some state =>
        if negb (String.eqb state "0A") then Some None
        else
          match rsplit_once ":" local with
          | None => Some None
          | Some (address_hex, port_hex) =>
              match from_str_radix 16 u16_bound port_hex with
              | None => Some None
              | Some port =>
                  match (if ipv6 then (fun a => "[" +:+ a +:+ "]") <$> procfs_ipv6 address_hex else Some (procfs_ipv4 address_hex)) with
                  | None => None
                  | Some address => Some (Some (mkPort port (address +:+ ":" +:+ print_uint port) None))
                  end
              end
          end
    | _, _ => Some None
    end.

Definition ends_with (suf s : string) : bool := match strip_suffix suf s with Some _ => true | None => false end.

Fixpoint parse_procfs (ipv6 : bool) (ls : list string) : option (list ListeningPort) :=
  match ls with
  | [] => Some []
  | line :: ls =>
      match strip_prefix PROCFS line with
      | Some path => parse_procfs (ends_with "tcp6" path) ls
      | None =>
          match procfs_line ipv6 line, parse_procfs ipv6 ls with
          | Some entry, Some ports => Some (option_list entry ++ ports)
          | _, _ => None
          end
      end
  end.

Definition parse_lsof_line (line : string) : option ListeningPort :=
  let fields := split_whitespace line in
  if match fields with first :: _ => String.eqb first "COMMAND" | [] => false end then None
  else
    match rev fields !! 1%nat with
    | None => None
    | Some name =>
        match rsplit_once ":" name with
        | None => None
        | Some (_, port) => (fun port => mkPort port name (head fields)) <$> parse_uint u16_bound port
        end
    end.

(** [dedup_by_key]: the first of a run of equal ports. *)
Fixpoint dedup_from (last : Z) (ports : list ListeningPort) : list ListeningPort :=
  match ports with
  | [] => []
  | p :: ports => if port p =? last then dedup_from last ports else p :: dedup_from (port p) ports
  end.

Definition dedup_ports (ports : list ListeningPort) : list ListeningPort :=
  match ports with [] => [] | p :: ports => p :: dedup_from (port p) ports end.

Definition parse_listening_ports (output : string) : option (list ListeningPort) :=
  match List.filter (fun line => negb (is_empty line)) (map trim (lines output)) with
  | [] => Some []
  | marker :: ls =>
      let ports :=
        match strip_prefix "SANDBOX_DRIVER_PORTS " marker with
        | Some source =>
            if String.eqb source "ss" then Some (omap parse_ss_line ls)
            else if starts_with "procfs" source then parse_procfs false ls
            else if String.eqb source "lsof" then Some (omap parse_lsof_line ls)
            else Some []
        | None => Some []
        end in
      (fun ports => dedup_ports (sort_by (fun p q => port p <=? port q) ports)) <$> ports
  end.

(** The inner option is the panic. *)
Definition listening_ports : Script (option (list ListeningPort)) :=
  run! r := run "service ports" LISTENING_PORTS_SCRIPT in sret (parse_listening_ports (stdout_lossy r)).

(** ** Ids name directories of our own *)

Lemma our_id id : is_our_service_id id = true <->
  exists suffix, id = SERVICE_DIR_PREFIX +:+ suffix /\ is_empty suffix = false /\ all_chars is_ascii_alphanumeric suffix = true.
Proof.
  unfold is_our_service_id. split.
  - destruct (strip_prefix _ id) as [suffix|] eqn:E; [|done]. apply strip_prefix_spec in E as ->.
    intros [He%negb_true_iff Ha]%andb_true_iff. eauto.
  - intros (suffix & -> & He & Ha). by rewrite (proj2 (strip_prefix_spec _ _ suffix) eq_refl), He, Ha.
Qed.

Lemma alphanumeric_code a : is_ascii_alphanumeric a = true ->
  in_range 48 57 (code a) = true \/ in_range 97 122 (code a) = true \/ in_range 65 90 (code a) = true.
Proof.
  unfold is_ascii_alphanumeric, is_ascii_digit, is_ascii_lowercase, is_ascii_uppercase.
  destruct (in_range 48 57 (code a)), (in_range 97 122 (code a)), (in_range 65 90 (code a)); auto.
Qed.

Lemma our_dir id : is_our_service_id id = true -> plain_word (service_dir id) = true /\ free_of_char "/" id.
Proof.
  intros (suffix & -> & _ & Ha)%our_id. split.
  - unfold plain_word, service_dir. apply andb_true_iff. split; [done|]. rewrite !all_chars_app.
    enough (all_chars ordinary suffix = true) as -> by done. revert Ha. apply all_chars_impl. intros a Ha. unfold ordinary. by rewrite Ha.
  - unfold free_of_char. rewrite all_chars_app. enough (all_chars (fun b => negb (Ascii.eqb "/" b)) suffix = true) as -> by done.
    revert Ha. apply all_chars_impl. intros a Ha. apply negb_true_iff, Ascii.eqb_neq. by intros <-.
Qed.

(** An id reaches a path only if it names a directory that a spawn made: for any
    other, nothing runs, and the service is not running, has no logs and is
    stopped. What a spawn returns is such an id. It is one plain word, directly
    under [/tmp]. *)
Theorem service_ids debug_str spec id n answers :
  yields (fun id => is_our_service_id id = true) (spawn debug_str spec) /\
  (is_our_service_id id = false ->
   play (status id) answers = ([], Some (Ok (mkStatus id false None))) /\
   play (logs id n) answers = ([], Some (Ok [])) /\ play (stop id) answers = ([], Some (Ok tt))) /\
  (is_our_service_id id = true ->
   plain_word (service_dir id) = true /\ free_of_char "/" id /\
   exists suffix, service_dir id = "/tmp/sandbox-driver-service-" +:+ suffix /\ all_chars is_ascii_alphanumeric suffix = true).
Proof.
  split_and!.
  - unfold spawn. eapply yields_bind; [apply yields_any|]. intros r _. cbv zeta.
    destruct (try_new_service_id _) as [id'|e]; [|done]. destruct (is_our_service_id id') eqn:E; cbn; [|done]. by intros ? [= <-].
  - intros Hid. unfold status, logs, stop. by rewrite Hid.
  - intros Hid. destruct (our_dir id Hid) as [Hp Hf]. split_and!; [done..|]. apply our_id in Hid as (suffix & -> & _ & Ha).
    by exists suffix.
Qed.

(** ** Status *)

Definition answered (stdout : string) (code : Z) : result ExecResult Error :=
  Ok (mkResult (to_bytes stdout) [] (Some code) None Exited 0).

Lemma print_uint_ascii n : 0 <= n < u64_bound -> utf8 (print_uint n).
Proof.
  intros Hn. destruct (print_uint_digits n) as [Hd _]; [pose proof u64_digits; lia|]. apply ascii_utf8. revert Hd.
  apply all_chars_impl. intros a. unfold is_ascii_digit, in_range. intros [_ H%Z.leb_le]%andb_true_iff. apply Z.ltb_lt. lia.
Qed.

(** ** Text of ASCII characters *)

Definition ascii_string (s : string) : Prop := all_chars (fun a => code a <? 0x80) s = true.
Definition white (a : ascii) : bool := is_whitespace (code a).
Definition glyph (a : ascii) : string * Z := (String a EmptyString, code a).

Fixpoint drop_blank (l : list ascii) : list ascii :=
  match l with
  | [] => []
  | a :: l' => if white a then drop_blank l' else l
  end.

Notation to_list := String.list_ascii_of_string.
Notation of_list := String.string_of_list_ascii.

Lemma uchars_glyphs s : ascii_string s -> uchars s = map glyph (to_list s).
Proof.
  unfold ascii_string. induction s as [|a s IH]; [done|]. cbn [all_chars]. intros [Ha%Z.ltb_lt Hs]%andb_true_iff.
  rewrite uchars_ascii by lia. cbn. by rewrite IH.
Qed.

Lemma drop_white_glyphs l : drop_white (map glyph l) = map glyph (drop_blank l).
Proof. induction l as [|a l IH]; [done|]. cbn. unfold white. by destruct (is_whitespace (code a)). Qed.

Lemma unchars_glyphs l : unchars (map glyph l) = of_list l.
Proof. induction l as [|a l IH]; [done|]. cbn. unfold unchars in IH. by rewrite IH. Qed.

Lemma trim_ascii s : ascii_string s -> trim s = of_list (rev (drop_blank (rev (drop_blank (to_list s))))).
Proof.
  intros Hs. unfold trim. by rewrite uchars_glyphs, drop_white_glyphs, <- map_rev, drop_white_glyphs, <- map_rev, unchars_glyphs by done.
Qed.

Lemma ascii_list s : ascii_string s <-> Forall (fun a => code a < 0x80) (to_list s).
Proof.
  unfold ascii_string. induction s as [|a s IH]; cbn; [by split|]. by rewrite andb_true_iff, Z.ltb_lt, Forall_cons, IH.
Qed.

Lemma drop_blank_forall (P : ascii -> Prop) l : Forall P l -> Forall P (drop_blank l).
Proof. induction 1 as [|a l Ha Hl IH]; cbn; [done|]. destruct (white a); [done|by constructor]. Qed.

Lemma trim_keeps_ascii s : ascii_string s -> ascii_string (trim s).
Proof.
  intros Hs. rewrite trim_ascii by done. apply ascii_list. rewrite String.list_ascii_of_string_of_list_ascii.
  by apply Forall_rev, drop_blank_forall, Forall_rev, drop_blank_forall, ascii_list.
Qed.

Lemma to_list_app s t : to_list (s +:+ t) = to_list s ++ to_list t.
Proof. induction s; cbn; by f_equal. Qed.

(** A line read from a command's output: what is before its end. *)
Lemma trim_line a s b l : String a s = l +:+ String b EmptyString -> ascii_string (String a s) ->
  white a = false -> white b = false -> trim (String a s +:+ NEWLINE) = String a s.
Proof.
  intros E Hs Ha Hb. assert (Hn : ascii_string (String a s +:+ NEWLINE)).
  { unfold ascii_string in *. by rewrite all_chars_app, Hs. }
  rewrite trim_ascii, to_list_app by done.
  change (to_list (String a s) ++ to_list NEWLINE) with (a :: to_list s ++ [char 10]). cbn [drop_blank]. rewrite Ha.
  change (a :: to_list s ++ [char 10]) with (to_list (String a s) ++ [char 10]). rewrite E, to_list_app, !rev_app_distr.
  cbn [to_list rev app drop_blank]. change (white (char 10)) with true. cbv iota. rewrite Hb.
  change (b :: rev (to_list l)) with (rev [b] ++ rev (to_list l)). rewrite <- rev_app_distr, rev_involutive.
  change [b] with (to_list (String b EmptyString)). by rewrite <- to_list_app, String.string_of_list_ascii_of_string.
Qed.

Lemma digits_last s : all_chars is_ascii_digit s = true -> is_empty s = false ->
  exists l b, s = l +:+ String b EmptyString /\ white b = false.
Proof.
  assert (Hd : forall a, is_ascii_digit a = true -> white a = false).
  { intros a. unfold white, is_whitespace, is_ascii_digit, in_range, one_of. cbn [existsb].
    intros [H1%Z.leb_le H2%Z.leb_le]%andb_true_iff.
    repeat (apply orb_false_iff; split); rewrite ?andb_false_iff, ?Z.leb_gt, ?Z.eqb_neq; lia. }
  induction s as [|a s IH]; [done|]. cbn [all_chars]. intros [Ha Hs]%andb_true_iff _. destruct s as [|c s].
  - exists EmptyString, a. split; [done|by apply Hd].
  - destruct IH as (l & b & E & Hb); [done..|]. exists (String a l), b. split; [|done]. cbn. by rewrite <- E.
Qed.

(** What the status script says of a service is what its status says: running; the
    code recorded when it ended; and neither, once the process is gone without a
    record. *)
Theorem status_read id code : is_our_service_id id = true -> 0 <= code < 2 ^ 31 ->
  let says text := snd (play (status id) [answered (text +:+ NEWLINE) 0]) in
  says "running" = Some (Ok (mkStatus id true None)) /\
  says ("exited " +:+ print_uint code) = Some (Ok (mkStatus id false (Some code))) /\
  says "unknown" = Some (Ok (mkStatus id false None)).
Proof.
  intros Hid Hc says.
  assert (H : forall text, utf8 (text +:+ NEWLINE) -> trim (text +:+ NEWLINE) = text -> says text = Some (Ok (mkStatus id (String.eqb text "running")
    (match strip_prefix "exited " text with Some code => parse_i32 (trim code) | None => None end)))).
  { intros text Hu Ht. subst says. unfold status, run, run_bash. rewrite Hid. cbn [negb play sbind exec_run answered].
    change (success _) with true. cbv iota. cbn [play sbind sret snd]. unfold stdout_lossy. cbn [res_stdout]. by rewrite Hu, Ht. }
  split_and!; [by rewrite H| |by rewrite H].
  destruct (print_uint_digits code) as [Hd He]; [lia|]. destruct (digits_last _ Hd He) as (l & b & E & Hb).
  assert (Ha : ascii_string (print_uint code)).
  { revert Hd. apply all_chars_impl. intros a. unfold is_ascii_digit, in_range. intros [_ ?%Z.leb_le]%andb_true_iff. apply Z.ltb_lt. lia. }
  rewrite H.
  - rewrite (proj2 (strip_prefix_spec "exited " _ _) eq_refl), trim_visible, parse_i32_print by (done || revert Hd; apply all_chars_impl;
      intros a; unfold is_ascii_digit, in_range; rewrite !andb_true_iff, !Z.leb_le; lia). done.
  - apply ascii_utf8. rewrite !all_chars_app. unfold ascii_string in Ha. by rewrite Ha.
  - apply (trim_line "e" ("xited " +:+ print_uint code) b ("exited " +:+ l)); [|exact Ha|done|done].
    change ("exited " +:+ print_uint code = ("exited " +:+ l) +:+ String b EmptyString). by rewrite E, app_assoc_string.
Qed.

(** ** Ports are reported once each, in order *)

Lemma dedup_from_sorted last ports : Forall (fun p => last <= port p) ports ->
  StronglySorted (fun p q => port p <= port q) ports ->
  StronglySorted (fun p q => port p < port q) (dedup_from last ports) /\ Forall (fun p => last < port p) (dedup_from last ports).
Proof.
  intros Hl Hs. revert last Hl. induction Hs as [|p ports Hs IH Hp]; intros last Hl; cbn; [by repeat constructor|].
  apply Forall_cons in Hl as [Hlast Hl]. destruct (port p =? last) eqn:E.
  - by apply IH.
  - apply Z.eqb_neq in E. destruct (IH (port p) Hp) as [H1 H2]. split; [by constructor|]. constructor; [lia|].
    eapply Forall_impl; [exact H2|]. cbn. intros q Hq. lia.
Qed.

Lemma dedup_from_ports last ports n : In n (map port (dedup_from last ports)) \/ n = last <-> In n (map port ports) \/ n = last.
Proof.
  revert last. induction ports as [|p ports IH]; intros last; cbn; [done|]. destruct (port p =? last) eqn:E.
  - apply Z.eqb_eq in E. rewrite IH. naive_solver.
  - cbn. specialize (IH (port p)). naive_solver.
Qed.

Lemma dedup_from_incl last ports : incl (dedup_from last ports) ports.
Proof.
  revert last. induction ports as [|p ports IH]; intros last; cbn; [apply incl_refl|]. destruct (port p =? last).
  - apply incl_tl, IH.
  - apply incl_cons; [by left|]. apply incl_tl, IH.
Qed.

(** The entries of the lines, as the source they come from is read. *)
Definition port_entries (marker : string) (ls : list string) : option (list ListeningPort) :=
  match strip_prefix "SANDBOX_DRIVER_PORTS " marker with
  | Some source =>
      if String.eqb source "ss" then Some (omap parse_ss_line ls)
      else if starts_with "procfs" source then parse_procfs false ls
      else if String.eqb source "lsof" then Some (omap parse_lsof_line ls)
      else Some []
  | None => Some []
  end.

Definition port_lines (output : string) : list string := List.filter (fun line => negb (is_empty line)) (map trim (lines output)).

Lemma parse_ports_spec output marker ls : port_lines output = marker :: ls ->
  parse_listening_ports output = (fun ports => dedup_ports (sort_by (fun p q => port p <=? port q) ports)) <$> port_entries marker ls.
Proof. unfold parse_listening_ports, port_entries, port_lines. by intros ->. Qed.

Lemma tidy_ports entries : let ports := dedup_ports (sort_by (fun p q => port p <=? port q) entries) in
  StronglySorted (fun p q => port p < port q) ports /\ incl ports entries /\
  forall n, In n (map port ports) <-> In n (map port entries).
Proof.
  cbv zeta. pose proof (sort_by_Permutation (fun p q => port p <=? port q) entries) as Hp.
  assert (Hs : StronglySorted (fun p q => port p <= port q) (sort_by (fun p q => port p <=? port q) entries)).
  { assert (H : StronglySorted (fun p q => (port p <=? port q) = true) (sort_by (fun p q => port p <=? port q) entries)).
    { apply sort_by_sorted; intros *; rewrite !Z.leb_le; lia. }
    clear Hp. induction H as [|p l _ IH Hl]; [constructor|]. constructor; [done|]. eapply Forall_impl; [exact Hl|]. intros q. apply Z.leb_le. }
  assert (Hi : forall n, In n (map port (sort_by (fun p q => port p <=? port q) entries)) <-> In n (map port entries)).
  { intros n. rewrite <- !list_elem_of_In. by rewrite (fmap_Permutation port _ _ Hp). }
  assert (Hincl : incl (sort_by (fun p q => port p <=? port q) entries) entries).
  { intros p. rewrite <- !list_elem_of_In. by rewrite Hp. }
  revert Hs Hi Hincl. generalize (sort_by (fun p q => port p <=? port q) entries) as sorted. clear Hp. intros sorted Hs Hi Hincl.
  destruct sorted as [|p sorted]; cbn [dedup_ports]; [by split_and!; [constructor|intros ? []|]|]. apply StronglySorted_inv in Hs as [Hs Hp].
  destruct (dedup_from_sorted (port p) sorted Hp Hs) as [H1 H2]. split_and!.
  - by constructor.
  - intros q [<-|Hq]; apply Hincl; [by left|right]. by apply (dedup_from_incl (port p)).
  - intros n. rewrite <- Hi. cbn. pose proof (dedup_from_ports (port p) sorted n). naive_solver.
Qed.

(** ** Text that is cut does not leave ASCII *)

Lemma split_chars p a s : all_chars p s = true -> Forall (fun w => all_chars p w = true) (split a s).
Proof.
  induction s as [|b s IH]; cbn; [by repeat constructor|]. intros [Hb Hs]%andb_true_iff. specialize (IH Hs).
  destruct (Ascii.eqb a b); [by constructor|]. destruct (split a s) as [|w ws]; [by repeat constructor; cbn; rewrite Hb|].
  apply Forall_cons in IH as [Hw Hws]. constructor; [by cbn; rewrite Hb|done].
Qed.

Lemma lines_chars p s : all_chars p s = true -> Forall (fun w => all_chars p w = true) (lines s).
Proof.
  intros Hs. unfold lines. induction (split_chars p (char 10) s Hs) as [|w ws Hw _ IH]; cbn; [constructor|].
  destruct ws as [|v ws]; [destruct (is_empty w); by repeat constructor|]. constructor; [|done].
  by apply chomp_chars.
Qed.

Lemma words_ascii l word : Forall (fun a => code a < 0x80) l -> ascii_string word ->
  Forall ascii_string (words (map glyph l) word).
Proof.
  intros Hl. revert word. induction Hl as [|a l Ha _ IH]; intros word Hw; cbn.
  - destruct (is_empty word); by repeat constructor.
  - destruct (is_whitespace (code a)).
    + apply Forall_app. split; [destruct (is_empty word); by repeat constructor|by apply IH].
    + apply IH. unfold ascii_string in *. rewrite all_chars_app, Hw. cbn. by rewrite (proj2 (Z.ltb_lt _ _) Ha).
Qed.

Lemma fields_ascii s : ascii_string s -> Forall ascii_string (split_whitespace s).
Proof. intros Hs. unfold split_whitespace. rewrite uchars_glyphs by done. apply words_ascii; [by apply ascii_list|done]. Qed.

Lemma boundary_ascii s i : ascii_string s -> (i <= String.length s)%nat -> is_char_boundary s i = true.
Proof.
  unfold is_char_boundary, ascii_string. revert i. induction s as [|a s IH]; intros i Hs Hi; cbn [String.length] in Hi.
  - by destruct i as [|i]; [|lia].
  - cbn [all_chars] in Hs. apply andb_true_iff in Hs as [Ha%Z.ltb_lt Hs]. destruct i as [|i]; cbn [String.get].
    + apply negb_true_iff. unfold is_cont, in_range. apply andb_false_iff. left. apply Z.leb_gt. lia.
    + specialize (IH i Hs ltac:(lia)). by destruct (String.get i s).
Qed.

Lemma ipv6_ascii hex : ascii_string hex -> procfs_ipv6 hex <> None.
Proof.
  intros Hs. unfold procfs_ipv6. destruct (String.length hex =? 32)%nat eqn:E; [|done]. apply Nat.eqb_eq in E. cbn [negb].
  enough (H : forall count word, (word + count <= 4)%nat -> ipv6_groups hex word count <> None).
  { specialize (H 4%nat 0%nat ltac:(lia)). by destruct (ipv6_groups hex 0 4) as [[|]|]. }
  induction count as [|count IH]; intros word Hw; cbn [ipv6_groups]; [done|].
  unfold slice_str. rewrite !boundary_ascii by (done || lia). cbn [andb].
  destruct (from_str_radix _ _ _); [|done]. specialize (IH (S word) ltac:(lia)). by destruct (ipv6_groups hex (S word) count) as [[|]|].
Qed.

Lemma procfs_line_ascii ipv6 line : ascii_string line -> procfs_line ipv6 line <> None.
Proof.
  intros Hs. unfold procfs_line. pose proof (fields_ascii line Hs) as Hf. destruct (match _ with [] => _ | _ => _ end); [done|].
  destruct (split_whitespace line !! 1%nat) as [local|] eqn:El; [|done]. destruct (split_whitespace line !! 3%nat) as [state|]; [|done].
  destruct (negb (String.eqb state "0A")); [done|]. destruct (rsplit_once ":" local) as [[hex port]|] eqn:Er; [|done].
  destruct (from_str_radix _ _ port); [|done]. destruct ipv6; [|done].
  assert (Hh : ascii_string hex).
  { apply rsplit_once_some in Er as ->. eapply Forall_lookup_1 in El; [|exact Hf]. unfold ascii_string in El. rewrite all_chars_app in El.
    by apply andb_true_iff in El as [Hh _]. }
  pose proof (ipv6_ascii hex Hh). by destruct (procfs_ipv6 hex).
Qed.

Lemma parse_procfs_ascii ipv6 ls : Forall ascii_string ls -> parse_procfs ipv6 ls <> None.
Proof.
  intros Hl. revert ipv6. induction Hl as [|line ls Hs _ IH]; intros ipv6; cbn [parse_procfs]; [done|].
  destruct (strip_prefix PROCFS line); [apply IH|]. pose proof (procfs_line_ascii ipv6 line Hs). specialize (IH ipv6).
  destruct (procfs_line ipv6 line), (parse_procfs ipv6 ls); done.
Qed.

(** The ports reported are exactly those of the entries the output has, each once,
    lowest first, with the address and process of one of its entries; and reading
    output of ASCII characters does not panic, whatever it says. *)
Theorem ports_once output :
  (forall ports, parse_listening_ports output = Some ports ->
   StronglySorted (fun p q => port p < port q) ports /\
   match port_lines output with
   | [] => ports = []
   | marker :: ls => exists found, port_entries marker ls = Some found /\ incl ports found /\
       forall n, In n (map port ports) <-> In n (map port found)
   end) /\
  (ascii_string output -> parse_listening_ports output <> None).
Proof.
  destruct (port_lines output) as [|marker ls] eqn:E.
  - assert (H : parse_listening_ports output = Some []) by (unfold parse_listening_ports; unfold port_lines in E; by rewrite E).
    rewrite H. split; [|done]. intros ports [= <-]. split; [constructor|done].
  - rewrite (parse_ports_spec output marker ls E). split.
    + intros ports H. destruct (port_entries marker ls) as [found|]; [|done]. injection H as <-.
      destruct (tidy_ports found) as (H1 & H2 & H3). split; [done|]. by exists found.
    + intros Hs. assert (Hl : Forall ascii_string (marker :: ls)).
      { rewrite <- E. unfold port_lines. pose proof (lines_chars _ _ Hs) as Hl. induction Hl as [|w ws Hw _ IH]; cbn; [done|].
        destruct (is_empty (trim w)); cbn; [done|]. constructor; [by apply trim_keeps_ascii|done]. }
      apply Forall_cons in Hl as [_ Hl]. pose proof (parse_procfs_ascii false ls Hl). unfold port_entries.
      destruct (strip_prefix _ marker) as [source|]; [|done]. destruct (String.eqb source "ss"); [done|].
      destruct (starts_with "procfs" source); [by destruct (parse_procfs false ls)|]. by destruct (String.eqb source "lsof").
Qed.

(** ** The kernel's tables *)

(** [%0kX]. *)
Fixpoint print_hex (k : nat) (n : Z) : string :=
  match k with
  | O => EmptyString
  | S k => String (upper_hex_digit (n / 16 ^ Z.of_nat k mod 16)) (print_hex k n)
  end.

Lemma upper_digit_facts d : 0 <= d < 16 ->
  (in_range 0x21 0x7e (code (upper_hex_digit d)) && negb (Ascii.eqb ":" (upper_hex_digit d)) && negb (Ascii.eqb "+" (upper_hex_digit d))) = true.
Proof.
  intros Hd. by apply (all_digits (fun d => in_range 0x21 0x7e (code (upper_hex_digit d)) && negb (Ascii.eqb ":" (upper_hex_digit d)) &&
    negb (Ascii.eqb "+" (upper_hex_digit d)))).
Qed.

Lemma print_hex_chars k n : visible (print_hex k n) /\ free_of_char ":" (print_hex k n) /\ String.length (print_hex k n) = k.
Proof.
  unfold visible, free_of_char. induction k as [|k (IH1 & IH2 & IH3)]; [done|]. cbn [print_hex all_chars String.length].
  rewrite IH1, IH2, IH3. pose proof (upper_digit_facts (n / 16 ^ Z.of_nat k mod 16) ltac:(apply Z.mod_pos_bound; lia)) as H.
  apply andb_true_iff in H as [[-> ->]%andb_true_iff _]. done.
Qed.

Lemma radix_print bound k n acc : 0 <= acc -> acc * 16 ^ Z.of_nat k + n mod 16 ^ Z.of_nat k < bound ->
  radix_digits 16 bound acc (print_hex k n) = Some (acc * 16 ^ Z.of_nat k + n mod 16 ^ Z.of_nat k).
Proof.
  revert acc. induction k as [|k IH]; intros acc Ha Hb; cbn [print_hex radix_digits].
  { rewrite Z.mod_1_r. f_equal. lia. }
  set (d := n / 16 ^ Z.of_nat k mod 16). assert (Hd : 0 <= d < 16) by (apply Z.mod_pos_bound; lia).
  destruct (to_digit_hex d Hd) as [_ ->]. rewrite Nat2Z.inj_succ, Z.pow_succ_r in * by lia.
  set (m := 16 ^ Z.of_nat k) in *. assert (Hm : 0 < m) by (apply Z.pow_pos_nonneg; lia).
  assert (E : n mod (16 * m) = d * m + n mod m).
  { rewrite (Z.mul_comm 16 m), Z.rem_mul_r by lia. subst d. lia. }
  assert (Hr : 0 <= n mod m) by (apply Z.mod_pos_bound; lia).
  rewrite E in *. assert (Hn : acc * 16 + d < bound) by nia.
  rewrite (proj2 (Z.ltb_lt d 16)), (proj2 (Z.ltb_lt _ bound)) by lia. cbn [andb]. rewrite IH by nia. f_equal. lia.
Qed.

Lemma from_print_hex bound k n : (1 < k)%nat -> 0 <= n < 16 ^ Z.of_nat k -> n < bound ->
  from_str_radix 16 bound (print_hex k n) = Some n.
Proof.
  intros Hk Hn Hb. pose proof (radix_print bound k n 0) as H. rewrite Z.mod_small in H by done. rewrite Z.mul_0_l, Z.add_0_l in H.
  specialize (H ltac:(lia) Hb). destruct k as [|[|k]]; [lia|lia|]. cbn [print_hex] in *. unfold from_str_radix.
  pose proof (upper_digit_facts (n / 16 ^ Z.of_nat (S k) mod 16) ltac:(apply Z.mod_pos_bound; lia)) as Hd.
  apply andb_true_iff in Hd as [_ Hd%negb_true_iff]. rewrite (Ascii.eqb_sym _ "+"), Hd. exact H.
Qed.

(** Four bytes of an address, in network order, as the little-endian number that
    the kernel prints them as. *)
Record Quad := mkQuad { qa : Z; qb : Z; qc : Z; qd : Z }.

Definition wf_quad (q : Quad) : Prop := is_u8 (qa q) /\ is_u8 (qb q) /\ is_u8 (qc q) /\ is_u8 (qd q).
Definition quad_value (q : Quad) : Z := qa q + qb q * 256 + qc q * 65536 + qd q * 16777216.
Definition quad_hex (q : Quad) : string := print_hex 8 (quad_value q).

Lemma quad_bytes q : wf_quad q -> from_str_radix 16 u32_bound (quad_hex q) = Some (quad_value q) /\
  to_le_bytes (quad_value q) = [qa q; qb q; qc q; qd q].
Proof.
  unfold wf_quad, is_u8, quad_hex, to_le_bytes, quad_value. destruct q as [a b c d]; cbn [qa qb qc qd]. intros (Ha & Hb & Hc & Hd). split.
  - apply from_print_hex; [lia| |]; unfold u32_bound; lia.
  - repeat (apply (f_equal2 cons); [Z.to_euclidean_division_equations; lia|]). done.
Qed.

(** An address as it is written for people. *)
Definition dotted (q : Quad) : string := join "." (map print_uint [qa q; qb q; qc q; qd q]).
Definition groups (qs : list Quad) : list string :=
  concat (map (fun q => [lower_hex 4 (qa q * 256 + qb q) EmptyString; lower_hex 4 (qc q * 256 + qd q) EmptyString]) qs).
Fixpoint quads_hex (qs : list Quad) : string :=
  match qs with [] => EmptyString | q :: qs => quad_hex q +:+ quads_hex qs end.

Lemma ipv4_read q : wf_quad q -> procfs_ipv4 (quad_hex q) = dotted q.
Proof. intros Hq. unfold procfs_ipv4. destruct (quad_bytes q Hq) as [-> ->]. done. Qed.

Lemma substring_app p q r : String.substring (String.length p) (String.length q) (p +:+ q +:+ r) = q.
Proof.
  induction p as [|a p IH]; [|exact IH]. cbn [String.length String.app].
  induction q as [|a q IH]; cbn [String.length String.app String.substring]; [by destruct r|]. by rewrite IH.
Qed.

Lemma visible_ascii s : visible s -> ascii_string s.
Proof.
  apply all_chars_impl. intros a. unfold in_range. intros [_ H%Z.leb_le]%andb_true_iff. apply Z.ltb_lt. lia.
Qed.

Lemma quads_hex_chars qs : visible (quads_hex qs) /\ free_of_char ":" (quads_hex qs) /\ String.length (quads_hex qs) = (8 * length qs)%nat.
Proof.
  induction qs as [|q qs (IH1 & IH2 & IH3)]; [done|]. cbn [quads_hex].
  destruct (print_hex_chars 8 (quad_value q)) as (H1 & H2 & H3). unfold visible, free_of_char, quad_hex in *.
  rewrite !all_chars_app, length_string_app, IH1, IH2, IH3, H1, H2, H3.
  split_and!; [done..|]. cbn [length]. lia.
Qed.

Lemma quads_hex_app l r : quads_hex (l ++ r) = quads_hex l +:+ quads_hex r.
Proof. induction l as [|q l IH]; [done|]. cbn [app quads_hex]. by rewrite IH, app_assoc_string. Qed.

Lemma groups_read before qs : Forall wf_quad qs ->
  ipv6_groups (quads_hex (before ++ qs)) (length before) (length qs) = Some (Some (groups qs)).
Proof.
  intros Hq. revert before. induction Hq as [|q qs Hq _ IH]; intros before; cbn [length ipv6_groups]; [done|].
  destruct (quads_hex_chars (before ++ q :: qs)) as (Hv & _ & Hl). rewrite length_app in Hl. cbn [length] in Hl.
  unfold slice_str. rewrite !boundary_ascii by (by apply visible_ascii || lia). cbn [andb].
  assert (Hs : String.substring (length before * 8) (length before * 8 + 8 - length before * 8) (quads_hex (before ++ q :: qs)) = quad_hex q).
  { rewrite quads_hex_app. cbn [quads_hex]. destruct (quads_hex_chars before) as (_ & _ & Hb). destruct (print_hex_chars 8 (quad_value q)) as (_ & _ & H8).
    replace (length before * 8)%nat with (String.length (quads_hex before)) by lia.
    replace (String.length (quads_hex before) + 8 - String.length (quads_hex before))%nat with (String.length (quad_hex q)) by (unfold quad_hex; lia).
    apply substring_app. }
  rewrite Hs. destruct (quad_bytes q Hq) as [-> ->]. cbn [nth].
  specialize (IH (before ++ [q])). rewrite <- app_assoc, length_app in IH. cbn [app length] in IH.
  replace (length before + 1)%nat with (S (length before)) in IH by lia. by rewrite IH.
Qed.

Lemma ipv6_read qs : Forall wf_quad qs -> length qs = 4%nat -> procfs_ipv6 (quads_hex qs) = Some (join ":" (groups qs)).
Proof.
  intros Hq Hl. unfold procfs_ipv6. destruct (quads_hex_chars qs) as (_ & _ & ->). rewrite Hl. cbn [Nat.eqb negb Nat.mul Nat.add].
  pose proof (groups_read [] qs Hq) as H. rewrite Hl in H. cbn [app length] in H. by rewrite H.
Qed.

(** A line of a table, as it is read: trimmed. *)
Definition socket_line (index address_hex : string) (port : Z) (remote state rest : string) : string :=
  index +:+ String " " ((address_hex +:+ ":" +:+ print_hex 4 port) +:+ String " " (remote +:+ String " " (state +:+ String " " rest))).

Definition word_ (s : string) : Prop := visible s /\ is_empty s = false.

Lemma socket_fields index hex port remote state rest : word_ index -> index <> "sl" -> visible hex -> word_ remote -> word_ state ->
  free_of_char ":" hex -> 0 <= port < u16_bound ->
  forall ipv6, procfs_line ipv6 (socket_line index hex port remote state rest) =
    if String.eqb state "0A" then
      match (if ipv6 then (fun a => "[" +:+ a +:+ "]") <$> procfs_ipv6 hex else Some (procfs_ipv4 hex)) with
      | Some address => Some (Some (mkPort port (address +:+ ":" +:+ print_uint port) None))
      | None => None
      end
    else Some None.
Proof.
  intros [Hi Hi'] Hsl Hh [Hr Hr'] [Hs Hs'] Hf Hp ipv6. destruct (print_hex_chars 4 port) as (Hv & Hc & Hl). unfold procfs_line, socket_line.
  rewrite (split_whitespace_word index), split_whitespace_word, (split_whitespace_word remote), (split_whitespace_word state);
    [|done|done|done|done| |by destruct hex|done|done].
  2:{ unfold visible in *. by rewrite !all_chars_app, Hh, Hv. }
  cbn [lookup list_lookup]. rewrite (proj2 (String.eqb_neq index "sl") Hsl).
  destruct (String.eqb state "0A"); cbn [negb]; [|done].
  change (hex +:+ ":" +:+ print_hex 4 port) with (hex +:+ String ":" (print_hex 4 port)). rewrite rsplit_once_last by done.
  rewrite from_print_hex; [|lia| |]; [done| |]; unfold u16_bound in *; lia.
Qed.

(** A socket of the kernel's tables is read for what it is: its port and its
    address as people write them, of four bytes or of sixteen, if it listens, and
    nothing otherwise; whatever the rest of its line says. *)
Theorem procfs_read index q qs port remote state rest :
  word_ index -> index <> "sl" -> word_ remote -> word_ state -> wf_quad q -> Forall wf_quad qs -> length qs = 4%nat ->
  0 <= port < u16_bound ->
  let entry address := if String.eqb state "0A" then Some (mkPort port (address +:+ ":" +:+ print_uint port) None) else None in
  procfs_line false (socket_line index (quad_hex q) port remote state rest) = Some (entry (dotted q)) /\
  procfs_line true (socket_line index (quads_hex qs) port remote state rest) = Some (entry ("[" +:+ join ":" (groups qs) +:+ "]")).
Proof.
  intros Hi Hsl Hr Hs Hq Hqs Hl Hp entry. subst entry. destruct (print_hex_chars 8 (quad_value q)) as (Hv & Hc & _).
  destruct (quads_hex_chars qs) as (Hvs & Hcs & _). rewrite !socket_fields by done. rewrite ipv4_read, ipv6_read by done.
  by destruct (String.eqb state "0A").
Qed.

(** The address of a table that is not ASCII panics: it is cut in the middle of a
    character. *)
Definition hostile_line : string :=
  "0: 0000000" +:+ of_bytes replacement +:+ "0000000000000000000000:0016 0 0A".

Lemma hostile_table_panics : procfs_line true hostile_line = None.
Proof. vm_compute. reflexivity. Qed.

(** A table of IPv6 sockets that comes first, where the IPv4 one cannot be read, is
    read as one of IPv4 sockets: its marker is the output's. The loopback address is
    then no address of the machine. *)
Lemma first_table_misread :
  parse_listening_ports ("SANDBOX_DRIVER_PORTS procfs /proc/net/tcp6" +:+ NEWLINE +:+
    "0: 00000000000000000000000001000000:0016 0:0 0A" +:+ NEWLINE) =
  Some [mkPort 22 "0.0.0.1:22" None].
Proof. vm_compute. reflexivity. Qed.

(** An export of a spawn is one assignment, whatever its key and value hold: what a
    malformed key spoils is its own export. *)
Theorem export_words key value :
  export_line key value = ("export " +:+ shell_quote key +:+ "=" +:+ shell_quote value) +:+ NEWLINE /\
  shell_words ("export " +:+ shell_quote key +:+ "=" +:+ shell_quote value) false None = Some ["export"; key +:+ "=" +:+ value].
Proof.
  split; [done|].
  pose proof (reads_more_quoted _ _ _ value (reads_more _ _ _ "=" (reads_word _ _ _ key (reads_initial "export" eq_refl)) eq_refl)) as H.
  apply reads_end in H. rewrite <- !app_assoc_string in H. exact H.
Qed.

(** ** Witnesses *)

Lemma status_read_witness :
  snd (play (status "sandbox-driver-service-Ab3dEf01") [answered ("exited 3" +:+ NEWLINE) 0]) =
  Some (Ok (mkStatus "sandbox-driver-service-Ab3dEf01" false (Some 3))).
Proof. exact (proj1 (proj2 (status_read "sandbox-driver-service-Ab3dEf01" 3 eq_refl ltac:(lia)))). Defined.

Lemma procfs_read_witness :
  procfs_line false "0: 0100007F:1F90 00000000:0000 0A 00" = Some (Some (mkPort 8080 "127.0.0.1:8080" None)).
Proof.
  apply (procfs_read "0:" (mkQuad 127 0 0 1) [mkQuad 0 0 0 0; mkQuad 0 0 0 0; mkQuad 0 0 0 0; mkQuad 0 0 0 1] 8080 "00000000:0000" "0A" "00");
    try done; repeat constructor; done.
Defined.
