(* ===== verification/Units.v ===== *)
(** * Sizes

    Models [parse_size_mib] of [crates/sandbox-driver/src/contract/units.rs].
    [parse_duration_ms] delegates to an external parser and is a parameter
    where it is used. *)

From S2P Require Import Prelude Text.

#[local] Open Scope string_scope.
#[local] Open Scope Z_scope.

Inductive unit_reason :=
  | NotANumber
  | RequiresUnit
  | UnknownUnit (unit : string)
  | TooLarge
  | NotWholeMib
  | NotADuration.

Record ParseUnitError := mkUnitError { ue_kind : string; ue_text : string; ue_reason : unit_reason }.

Definition SIZE := "size".

(** The unit's prefix: the first of the three suffixes that fits is stripped. *)
Definition unit_prefix (unit : string) : string :=
  match strip_suffix "ib" unit with
  | Some p => p
  | None => match strip_suffix "b" unit with
            | Some p => p
            | None => match strip_suffix "i" unit with Some p => p | None => unit end
            end
  end.

Definition bytes_per_unit (text unit : string) : result Z ParseUnitError :=
  let prefix := unit_prefix unit in
  if is_empty prefix then
    if String.eqb unit "b" then Ok 1 else Err (mkUnitError SIZE text RequiresUnit)
  else if String.eqb prefix "k" then Ok (Z.shiftl 1 10)
  else if String.eqb prefix "m" then Ok (Z.shiftl 1 20)
  else if String.eqb prefix "g" then Ok (Z.shiftl 1 30)
  else if String.eqb prefix "t" then Ok (Z.shiftl 1 40)
  else Err (mkUnitError SIZE text (UnknownUnit unit)).

Definition parse_size_mib (text : string) : result Z ParseUnitError :=
  let '(count, unit) := span_digits (trim text) in
  match parse_uint u64_bound count with
  | None => Err (mkUnitError SIZE text NotANumber)
  | Some count =>
      let unit := to_ascii_lowercase (trim_start unit) in
      let? per := bytes_per_unit text unit in
      let bytes := count * per in
      if u64_bound <=? bytes then Err (mkUnitError SIZE text TooLarge)
      else if negb (bytes mod Z.shiftl 1 20 =? 0) then Err (mkUnitError SIZE text NotWholeMib)
      else Ok (Z.shiftr bytes 20)
  end.

(** A number or text, as a template may carry it. *)
Inductive unit_value := UnitNumber (n : Z) | UnitText (s : string).

(** [UnitVisitor]: a non-negative number is taken as it is. *)
Definition visit_unit (parse : string -> result Z ParseUnitError) (v : unit_value)
    : result Z (option ParseUnitError) :=
  match v with
  | UnitNumber n => if in_range 0 (u64_bound - 1) n then Ok n else Err None
  | UnitText s => map_err Some (parse s)
  end.

(** ** The grammar *)

(** The spellings of the units, in any case, and their size in bytes. *)
Definition spellings : list (string * Z) :=
  [("b", 1)] ++
  (ps ← [("k", 2 ^ 10); ("m", 2 ^ 20); ("g", 2 ^ 30); ("t", 2 ^ 40)];
   suf ← [""; "b"; "i"; "ib"]; [(ps.1 +:+ suf, ps.2)]).

(** What a size and its unit mean: whole MiB that fit 64 bits, or an error. *)
Definition size_meaning (text : string) (n per : Z) : result Z ParseUnitError :=
  if u64_bound <=? n * per then Err (mkUnitError SIZE text TooLarge)
  else if decide (n * per mod 2 ^ 20 = 0) then Ok (n * per / 2 ^ 20)
  else Err (mkUnitError SIZE text NotWholeMib).

Lemma spelling_bytes text unit per : (unit, per) ∈ spellings -> bytes_per_unit text unit = Ok per.
Proof.
  assert (Forall (fun up => bytes_per_unit text (fst up) = Ok (snd up)) spellings) as HF.
  { repeat (constructor; [reflexivity|]). constructor. }
  intros Hin. rewrite Forall_forall in HF. exact (HF _ Hin).
Qed.

Lemma bytes_spelling text unit per : bytes_per_unit text unit = Ok per ->
  exists p, (unit_prefix unit = p /\ p <> "" /\ (p, per) ∈ [("k", 2 ^ 10); ("m", 2 ^ 20); ("g", 2 ^ 30); ("t", 2 ^ 40)]) \/
            (unit = "b" /\ per = 1).
Proof.
  unfold bytes_per_unit. intros Hb. exists (unit_prefix unit).
  destruct (is_empty (unit_prefix unit)) eqn:E0.
  { destruct (String.eqb_spec unit "b"); [|done]. right. by injection Hb as <-. }
  left. split; [done|]. split; [by intros E; rewrite E in E0|].
  destruct (String.eqb (unit_prefix unit) "k") eqn:E1;
    [|destruct (String.eqb (unit_prefix unit) "m") eqn:E2;
      [|destruct (String.eqb (unit_prefix unit) "g") eqn:E3;
        [|destruct (String.eqb (unit_prefix unit) "t") eqn:E4; [|done]]]];
    injection Hb as <-; match goal with H : String.eqb (unit_prefix unit) _ = true |- _ =>
      apply String.eqb_eq in H as -> end; apply list_elem_of_In; vm_compute; tauto.
Qed.

Lemma span_digits_number s : all_chars is_ascii_digit (fst (span_digits s)) = true.
Proof.
  induction s as [|a s IH]; cbn; [done|]. destruct (is_ascii_digit a) eqn:E; [|done].
  destruct (span_digits s) as [l r]. cbn in *. by rewrite E.
Qed.

Lemma visible_spelling u per : (u, per) ∈ spellings -> forall v, to_ascii_lowercase v = u ->
  visible v /\ match first_char v with Some a => is_ascii_digit a = false | None => False end.
Proof.
  intros Hin v Hv. subst u.
  assert (visible (to_ascii_lowercase v) /\ all_chars (fun a => negb (is_ascii_digit a)) (to_ascii_lowercase v) = true
          /\ to_ascii_lowercase v <> "") as (H1 & H2 & H3).
  { revert Hin. generalize (to_ascii_lowercase v). intros u Hin.
    assert (Forall (fun up => visible (fst up) /\
              all_chars (fun a => negb (is_ascii_digit a)) (fst up) = true /\ fst up <> "") spellings) as HF.
    { repeat (constructor; [by split_and!|]). constructor. }
    rewrite Forall_forall in HF. exact (HF _ Hin). }
  clear Hin. split.
  - clear H2 H3. unfold visible, to_ascii_lowercase in *. induction v as [|a v IH]; cbn in *; [done|].
    apply andb_true_iff in H1 as [Ha Hv]. rewrite (IH Hv), andb_true_r.
    clear -Ha. destruct a as [[] [] [] [] [] [] [] []]; cbn in *; done.
  - destruct v as [|a v]; [done|]. cbn in *. apply andb_true_iff in H2 as [Ha%negb_true_iff _].
    clear -Ha. destruct a as [[] [] [] [] [] [] [] []]; cbn in *; done.
Qed.

Lemma visible_digits n : 0 <= n -> visible (print_uint n) /\ all_chars is_ascii_digit (print_uint n) = true.
Proof.
  intros Hn. unfold visible, print_uint. split; apply digits_all; try done; intros d Hd;
    destruct (digit_code d Hd) as [E1 E2]; [|done].
  rewrite E1. unfold in_range. apply andb_true_iff. split; apply Z.leb_le; lia.
Qed.

(** A size is read as Docker and systemd read it: a whole number and any
    spelling of a unit, in any case, mean that many bytes, as whole MiB; what is
    not a whole number of MiB or does not fit 64 bits is an error, and no other
    text is accepted as more than 2^44 MiB. *)
Theorem parse_size_spec :
  (forall n unit per v, 0 <= n < u64_bound -> (unit, per) ∈ spellings -> to_ascii_lowercase v = unit ->
     parse_size_mib (print_uint n +:+ v) = size_meaning (print_uint n +:+ v) n per) /\
  (forall text m, parse_size_mib text = Ok m -> 0 <= m < 2 ^ 44).
Proof.
  split.
  - intros n unit per v Hn Hin Hv. destruct (visible_spelling _ _ Hin v Hv) as [Hvis Hfirst].
    destruct (visible_digits n) as [Hd1 Hd2]; [lia|]. unfold parse_size_mib.
    rewrite trim_visible by (unfold visible; rewrite all_chars_app; by rewrite Hd1, Hvis).
    rewrite span_digits_app by (done || by destruct (first_char v)).
    rewrite (parse_print_uint u64_bound n Hn u64_digits).
    rewrite trim_start_visible by done. rewrite Hv, (spelling_bytes _ _ _ Hin). cbn [rbind].
    unfold size_meaning. destruct (_ <=? _); [done|].
    change (Z.shiftl 1 20) with (2 ^ 20). rewrite Z.shiftr_div_pow2 by lia.
    destruct (Z.eqb_spec (n * per mod 2 ^ 20) 0); cbn [negb]; case_decide; done.
  - intros text m. unfold parse_size_mib. destruct (span_digits (trim text)) as [d u] eqn:Ed.
    destruct (parse_uint u64_bound d) as [n|] eqn:En; [|done].
    destruct (bytes_per_unit _ _) as [per|e] eqn:Eb; cbn [rbind]; [|done].
    destruct (Z.leb_spec u64_bound (n * per)); [done|]. destruct (negb _); [done|]. intros [= <-].
    assert (0 <= n) as Hn0.
    { assert (forall bound acc s k, 0 <= acc -> parse_digits bound acc s = Some k -> 0 <= k) as Hpd.
      { intros bound acc s. revert acc. induction s as [|a s IH]; intros acc k Ha; cbn; [by intros [= <-]|].
        destruct (is_ascii_digit a) eqn:E; [|done]. destruct (_ <? _); [|done]. apply IH.
        unfold is_ascii_digit, in_range in E. apply andb_true_iff in E as [E%Z.leb_le _]. lia. }
      unfold parse_uint in En. destruct (is_empty _); [done|]. by eapply Hpd; [|exact En]. }
    assert (0 <= per).
    { apply bytes_spelling in Eb as [p [(_ & _ & Hp)|[_ ->]]]; [|lia].
      repeat (apply elem_of_cons in Hp as [[= -> ->]|Hp]; [by vm_compute|]). by apply elem_of_nil in Hp. }
    rewrite Z.shiftr_div_pow2 by lia. split; [apply Z.div_pos; nia|].
    apply Z.div_lt_upper_bound; [lia|]. unfold u64_bound in *. change (2 ^ 20 * 2 ^ 44) with (2 ^ 64). lia.
Qed.

Lemma parse_size_spec_witness : parse_size_mib "4GiB" = Ok 4096 /\ parse_size_mib "1536kb" = Err (mkUnitError SIZE "1536kb" NotWholeMib).
Proof.
  split.
  - apply (proj1 parse_size_spec 4 "gib" (2 ^ 30) "GiB"); [by unfold u64_bound; lia|cbn; set_solver|reflexivity].
  - apply (proj1 parse_size_spec 1536 "kb" (2 ^ 10) "kb"); [by unfold u64_bound; lia|cbn; set_solver|reflexivity].
Defined.
