(* ===== verification/Spec.v ===== *)
(** * Sandbox specs and statuses

    Models [crates/sandbox-driver/src/spec.rs] (the provisioning request, its
    builder and its cross-provider validation), the status record of
    [state.rs] and the filter of [provider.rs]. Opaque provider configuration is
    a JSON value; instants and durations are integers. *)

From S2P Require Import Prelude Text Capabilities Errors.

#[local] Open Scope string_scope.
#[local] Open Scope list_scope.
#[local] Open Scope Z_scope.

Inductive SandboxKind := KindContainer | KindVirtualMachine | KindUnknown.

Inductive WorkspaceOwnership := Designated | Managed.

#[export] Instance SandboxKind_eq_dec : EqDecision SandboxKind.
Proof. solve_decision. Defined.
#[export] Instance WorkspaceOwnership_eq_dec : EqDecision WorkspaceOwnership.
Proof. solve_decision. Defined.

(** [SandboxKindSupport::supports]. *)
Definition kind_supported (k : SandboxKindSupport) (kind : SandboxKind) : bool :=
  match kind with
  | KindContainer => kind_container k
  | KindVirtualMachine => kind_virtual_machine k
  | KindUnknown => false
  end.

Inductive SandboxSource :=
  | Image (reference : string)
  | Dockerfile (content : string)
  | Snapshot (id : string)
  | HostDirectory.

Record Resources := mkResources {
  cpu_cores : option Z;
  memory_mb : option Z;
  disk_mb : option Z;
  gpus : option Z;
}.

Definition no_resources : Resources := mkResources None None None None.

Inductive NetworkPolicy :=
  | ProviderDefault
  | AllowAll
  | Block
  | CidrAllowList (cidrs : list string)
  | DomainAllowList (domains : list string).

Definition network_validate (n : NetworkPolicy) : result unit Error :=
  match n with
  | CidrAllowList [] => Err (InvalidSpec "network" "cidr allow-list must not be empty")
  | DomainAllowList [] => Err (InvalidSpec "network" "domain allow-list must not be empty")
  | _ => Ok tt
  end.

Record VolumeMount := mkMount { mount_volume : string; mount_path : string; subpath : option string }.

Definition mount_new (v p : string) : VolumeMount := mkMount v p None.

Record LifecycleTimers := mkTimers {
  auto_stop_after_idle : option Z;
  auto_pause_after_idle : option Z;
  auto_archive_after_stop : option Z;
  auto_delete_after_stop : option Z;
  ttl : option Z;
}.

Definition no_timers : LifecycleTimers := mkTimers None None None None None.

Record SandboxSpec := mkSandboxSpec {
  name : option string;
  source : SandboxSource;
  resources : Resources;
  sandbox_kind : option SandboxKind;
  env : gmap string string;
  labels : gmap string string;
  user : option string;
  working_directory : option string;
  workspace_ownership : option WorkspaceOwnership;
  network : NetworkPolicy;
  volumes : list VolumeMount;
  timers : LifecycleTimers;
  ephemeral : bool;
  public : option bool;
  region : option string;
  provider_config : json;
}.

Definition spec_new (src : SandboxSource) : SandboxSpec :=
  mkSandboxSpec None src no_resources None ∅ ∅ None None None ProviderDefault [] no_timers
    false None None JNull.

Definition with_labels (s : SandboxSpec) (l : gmap string string) : SandboxSpec :=
  mkSandboxSpec (name s) (source s) (resources s) (sandbox_kind s) (env s) l (user s)
    (working_directory s) (workspace_ownership s) (network s) (volumes s) (timers s)
    (ephemeral s) (public s) (region s) (provider_config s).

(** [SandboxSpec::label]. *)
Definition spec_label (k v : string) (s : SandboxSpec) : SandboxSpec := with_labels s (<[k := v]> (labels s)).

(** [value.is_some_and(|value| !value.is_zero())]. *)
Definition timer_on (t : option Z) : bool := match t with Some d => negb (d =? 0) | None => false end.

Notation invalid field reason := (Err (InvalidSpec field reason)) (only parsing).

(** The loop over the volumes. *)
Fixpoint validate_volumes (l : list VolumeMount) : result unit Error :=
  match l with
  | [] => Ok tt
  | m :: l =>
      if is_empty (mount_volume m) then invalid "volumes" "volume id must not be empty"
      else if negb (starts_with_char "/" (mount_path m))
      then invalid "volumes" "mount_path must be an absolute path"
      else validate_volumes l
  end.

Definition validate (s : SandboxSpec) : result unit Error :=
  if is_some (workspace_ownership s) && negb (match source s with HostDirectory => true | _ => false end)
  then invalid "workspace_ownership" "only a host directory has explicit workspace ownership"
  else if bool_decide (workspace_ownership s = Some Designated) && negb (is_some (working_directory s))
  then invalid "working_directory" "a designated workspace needs a directory"
  else if bool_decide (sandbox_kind s = Some KindUnknown)
  then invalid "sandbox_kind" "unknown sandbox kind"
  else if bool_decide (region s = Some "")
  then invalid "region" "must not be empty"
  else
    check? network_validate (network s) in
    if timer_on (auto_stop_after_idle (timers s)) && timer_on (auto_pause_after_idle (timers s))
    then invalid "timers" "auto_stop_after_idle and auto_pause_after_idle are mutually exclusive"
    else if bool_decide (working_directory s = Some "")
    then invalid "working_directory" "must not be empty"
    else validate_volumes (volumes s).

(** ** Statuses and filters *)

Record SandboxStatus := mkSandboxStatus {
  st_id : string;
  st_name : option string;
  st_state : SandboxState;
  st_provider_state : string;
  st_error_reason : option string;
  st_resources : option Resources;
  st_sandbox_kind : option SandboxKind;
  st_region : option string;
  st_labels : gmap string string;
  st_image : option string;
  st_snapshot : option string;
  st_network : option NetworkPolicy;
  st_workspace_ownership : option WorkspaceOwnership;
  st_web_url : option string;
  st_created_at : option Z;
  st_updated_at : option Z;
}.

Definition status_new (id : string) (st : SandboxState) : SandboxStatus :=
  mkSandboxStatus id None st "" None None None None ∅ None None None None None None None.

Record SandboxFilter := mkFilter { filter_labels : gmap string string }.

(** ** What a valid spec is *)

Definition allow_list_ok (n : NetworkPolicy) : Prop :=
  n <> CidrAllowList [] /\ n <> DomainAllowList [].

Definition valid_spec (s : SandboxSpec) : Prop :=
  (forall o, workspace_ownership s = Some o -> source s = HostDirectory) /\
  (workspace_ownership s = Some Designated -> working_directory s <> None) /\
  sandbox_kind s <> Some KindUnknown /\
  region s <> Some "" /\
  allow_list_ok (network s) /\
  ~ (exists a p, auto_stop_after_idle (timers s) = Some a /\ auto_pause_after_idle (timers s) = Some p /\
       a <> 0 /\ p <> 0) /\
  working_directory s <> Some "" /\
  Forall (fun m => mount_volume m <> "" /\ first_char (mount_path m) = Some "/"%char) (volumes s).

Lemma network_validate_spec n : network_validate n = Ok tt <-> allow_list_ok n.
Proof.
  unfold allow_list_ok. destruct n as [| | |[|c l]|[|d l]]; cbn; (split; [|try done]);
    try (intros _; by split); try done; try (intros [H1 H2]; done).
Qed.

Lemma validate_volumes_spec l : validate_volumes l = Ok tt <->
  Forall (fun m => mount_volume m <> "" /\ first_char (mount_path m) = Some "/"%char) l.
Proof.
  induction l as [|m l IH]; cbn; [split; [constructor|done]|].
  rewrite Forall_cons, <- IH. unfold starts_with_char.
  destruct (mount_volume m) as [|a v]; cbn [is_empty].
  - split; [done|]. by intros [[? _] _].
  - case_bool_decide as Hp; cbn [negb]; (split; [|try (by intros [[_ ?] ?])]); [|done].
    intros ->. by split_and!.
Qed.

Lemma timers_spec t : timer_on (auto_stop_after_idle t) && timer_on (auto_pause_after_idle t) = true <->
  exists a p, auto_stop_after_idle t = Some a /\ auto_pause_after_idle t = Some p /\ a <> 0 /\ p <> 0.
Proof.
  unfold timer_on. split.
  - destruct (auto_stop_after_idle t) as [a|], (auto_pause_after_idle t) as [p|]; cbn; try done;
      intros [H1 H2]%andb_true_iff; try done. reflect_bools. eauto 6.
  - intros (a & p & -> & -> & Ha & Hp). apply andb_true_iff.
    split; apply negb_true_iff; by apply Z.eqb_neq.
Qed.

(** Validation accepts a spec exactly when every cross-provider invariant
    holds: no provider is asked for a workspace it cannot own, an unknown kind,
    an emptied-out allow-list (which a provider would read as open egress), two
    idle policies at once, or a relative mount; and a rejection is an
    [InvalidSpec] error. *)
Theorem validate_spec s :
  (validate s = Ok tt <-> valid_spec s) /\
  (forall e, validate s = Err e -> exists f r, e = InvalidSpec f r).
Proof.
  assert (forall l e, validate_volumes l = Err e -> exists f r, e = InvalidSpec f r) as Hvol.
  { induction l as [|m l IH]; intros e; cbn; [done|].
    destruct (is_empty _); [intros [= <-]; eauto|]. destruct (negb _); [intros [= <-]; eauto|]. auto. }
  unfold validate, valid_spec. rewrite <- network_validate_spec, <- validate_volumes_spec, <- timers_spec.
  destruct (is_some (workspace_ownership s) && _) eqn:E1.
  { split; [|intros e [= <-]; eauto]. split; [done|]. intros (H & _).
    apply andb_true_iff in E1 as [E1 E2]. destruct (workspace_ownership s) as [o|]; [|done].
    by rewrite (H o) in E2. }
  assert (forall o, workspace_ownership s = Some o -> source s = HostDirectory) as H1.
  { intros o Ho. rewrite Ho in E1. cbn in E1. by destruct (source s). }
  destruct (bool_decide (workspace_ownership s = Some Designated) && _) eqn:E2.
  { split; [|intros e [= <-]; eauto]. split; [done|]. intros (_ & H & _).
    apply andb_true_iff in E2 as [E2%bool_decide_eq_true E3]. specialize (H E2).
    by destruct (working_directory s). }
  assert (workspace_ownership s = Some Designated -> working_directory s <> None) as H2.
  { intros Ho. rewrite Ho in E2. rewrite bool_decide_eq_true_2 in E2 by done.
    by destruct (working_directory s). }
  clear E1 E2.
  case_bool_decide; [split; [|intros e [= <-]; eauto]; split; [done|intros (_ & _ & H' & _); done]|].
  case_bool_decide; [split; [|intros e [= <-]; eauto]; split; [done|intros (_ & _ & _ & H' & _); done]|].
  destruct (network_validate (network s)) as [[]|e] eqn:En; cbn [rbind].
  2:{ split; [split; [done|by intros (_ & _ & _ & _ & ? & _)]|]. intros e' [= <-].
      destruct (network s) as [| | |[]|[]]; cbn in En; try done; injection En as <-; eauto. }
  destruct (timer_on _ && _) eqn:Et.
  { split; [split; [done|by intros (_ & _ & _ & _ & _ & ? & _)]|intros e [= <-]; eauto]. }
  case_bool_decide; [split; [|intros e [= <-]; eauto]; split; [done|by intros (_ & _ & _ & _ & _ & _ & ? & _)]|].
  split; [|apply Hvol]. split; [intros ->; split_and!; try done|by intros (_ & _ & _ & _ & _ & _ & _ & ?)].
Qed.

Lemma validate_spec_witness :
  exists f r, InvalidSpec "network" "cidr allow-list must not be empty" = InvalidSpec f r.
Proof.
  apply (proj2 (validate_spec (mkSandboxSpec None (Image "ubuntu") no_resources None ∅ ∅ None None None
    (CidrAllowList []) [] no_timers false None None JNull))). reflexivity.
Defined.
