(* ===== verification/Owned.v ===== *)
(** * Ownership scoping

    Models [crates/sandbox-driver/src/owned.rs]: a provider narrowed to the
    sandboxes that carry a consumer's labels. The wrapped provider is an
    interface over a backend state [S] (the [SandboxProvider] and [Sandbox]
    traits, with a handle named by its sandbox id), of which nothing is assumed: what
    the scoping ensures is said of the calls it makes, which a provider that records
    them shows. *)

From S2P Require Import Prelude Text Capabilities Errors Spec.

#[local] Open Scope string_scope.
#[local] Open Scope list_scope.

(** The operations of a provider, and of the handles it returns, on its
    backend's state. *)
Class SandboxProvider (S : Type) := {
  prov_kind : string;
  prov_capabilities : Capabilities;
  create : SandboxSpec -> S -> S * result string Error;
  attach : string -> S -> S * result string Error;
  undelete : string -> S -> S * result string Error;
  describe : string -> S -> S * result SandboxStatus Error;
  handle_delete : string -> S -> S * result unit Error;
  list_sandboxes : SandboxFilter -> S -> S * result (list SandboxStatus) Error;
}.

(** ** Ownership *)

Record Ownership := mkOwnership { own_labels : gmap string string }.

Definition no_ownership : Ownership := mkOwnership ∅.

Definition and_label (k v : string) (o : Ownership) : Ownership := mkOwnership (<[k := v]> (own_labels o)).

Definition by_label (k v : string) : Ownership := and_label k v no_ownership.

Definition owns (o : Ownership) (l : gmap string string) : bool :=
  forallb (fun kv => bool_decide (l !! fst kv = Some (snd kv))) (map_to_list (own_labels o)).

(** The loop that writes each ownership label over the given ones. *)
Definition stamp (o : Ownership) (l : gmap string string) : gmap string string :=
  foldl (fun acc kv => <[fst kv := snd kv]> acc) l (map_to_list (own_labels o)).

Section Owned.
Context {S : Type} `{SandboxProvider S}.
Variable ownership : Ownership.

Definition checked (sandbox : string) (s : S) : S * result string Error :=
  let '(s, status) := describe sandbox s in
  match status with
  | Err e => (s, Err e)
  | Ok status =>
      if owns ownership (st_labels status) then (s, Ok sandbox)
      else (s, Err (NotOwned RkSandbox sandbox))
  end.

Definition check : string -> S -> S * result string Error := checked.

Definition owned_create (spec : SandboxSpec) (s : S) : S * result string Error :=
  create (with_labels spec (stamp ownership (labels spec))) s.

Definition owned_attach (id : string) (s : S) : S * result string Error :=
  let '(s, sandbox) := attach id s in
  match sandbox with
  | Err e => (s, Err e)
  | Ok sandbox => checked sandbox s
  end.

Definition owned_undelete (id : string) (s : S) : S * result string Error :=
  let '(s, sandbox) := undelete id s in
  match sandbox with
  | Err e => (s, Err e)
  | Ok sandbox => checked sandbox s
  end.

Definition owned_delete (id : string) (s : S) : S * result unit Error :=
  let '(s, sandbox) := owned_attach id s in
  match sandbox with
  | Ok sandbox => handle_delete sandbox s
  | Err (NotFound RkSandbox _) => (s, Ok tt)
  | Err e => (s, Err e)
  end.

Definition owned_list (f : SandboxFilter) (s : S) : S * result (list SandboxStatus) Error :=
  let '(s, statuses) := list_sandboxes (mkFilter (stamp ownership (filter_labels f))) s in
  match statuses with
  | Err e => (s, Err e)
  | Ok statuses => (s, Ok (List.filter (fun st => owns ownership (st_labels st)) statuses))
  end.

End Owned.

(** ** Labels *)

Lemma owns_spec o l : owns o l = true <-> own_labels o ⊆ l.
Proof.
  unfold owns. rewrite forallb_forall, map_subseteq_spec. split.
  - intros Hall k v Hkv. apply elem_of_map_to_list in Hkv. apply list_elem_of_In in Hkv.
    by apply Hall, bool_decide_eq_true in Hkv.
  - intros Hsub [k v] Hin. apply list_elem_of_In, elem_of_map_to_list in Hin.
    apply bool_decide_eq_true. by apply Hsub.
Qed.

Lemma stamp_union o l : stamp o l = own_labels o ∪ l.
Proof.
  unfold stamp. set (m := own_labels o). rewrite <- (list_to_map_to_list m) at 2.
  assert (NoDup (map_to_list m).*1) as Hnd by apply NoDup_fst_map_to_list.
  revert l Hnd. generalize (map_to_list m) as kvs. clear.
  induction kvs as [|[k v] kvs IH]; intros l Hnd; cbn [foldl fst snd list_to_map foldr].
  - by rewrite map_empty_union.
  - cbn in Hnd. apply NoDup_cons in Hnd as [Hk Hnd]. rewrite IH by done. cbn.
    rewrite <- insert_union_r by (by apply not_elem_of_list_to_map_1).
    by rewrite <- insert_union_l.
Qed.

Lemma owns_stamp o l : owns o (stamp o l) = true.
Proof. apply owns_spec. rewrite stamp_union. apply map_union_subseteq_l. Qed.

(** ** What is called *)

(** A call of the wrapped provider or of one of its handles, with its answer. *)
Inductive Call :=
  | Created (spec : SandboxSpec) (r : result string Error)
  | Attached (id : string) (r : result string Error)
  | Undeleted (id : string) (r : result string Error)
  | Described (handle : string) (r : result SandboxStatus Error)
  | DeletedHandle (handle : string) (r : result unit Error)
  | Listed (f : SandboxFilter) (r : result (list SandboxStatus) Error).

(** The provider with a record of its calls. *)
Definition recorded {S A} (call : result A Error -> Call) (log : list Call) (o : S * result A Error)
    : (S * list Call) * result A Error := (fst o, log ++ [call (snd o)], snd o).

Definition recording {S} `{SandboxProvider S} : SandboxProvider (S * list Call) := {|
  prov_kind := prov_kind;
  prov_capabilities := prov_capabilities;
  create spec s := recorded (Created spec) (snd s) (create spec (fst s));
  attach id s := recorded (Attached id) (snd s) (attach id (fst s));
  undelete id s := recorded (Undeleted id) (snd s) (undelete id (fst s));
  describe h s := recorded (Described h) (snd s) (describe h (fst s));
  handle_delete h s := recorded (DeletedHandle h) (snd s) (handle_delete h (fst s));
  list_sandboxes f s := recorded (Listed f) (snd s) (list_sandboxes f (fst s));
|}.

(** The operations of a scoped provider, and their answers. *)
Inductive OwnedOp :=
  | OpCreate (spec : SandboxSpec)
  | OpAttach (id : string)
  | OpUndelete (id : string)
  | OpCheck (handle : string)
  | OpDelete (id : string)
  | OpList (f : SandboxFilter).

Inductive Answer :=
  | Handle (r : result string Error)
  | Done (r : result unit Error)
  | Statuses (r : result (list SandboxStatus) Error).

Section Run.
Context {S : Type} `{SandboxProvider S}.
Variable ownership : Ownership.

Definition owned_op (op : OwnedOp) (s : S) : S * Answer :=
  match op with
  | OpCreate spec => let '(s, r) := owned_create ownership spec s in (s, Handle r)
  | OpAttach id => let '(s, r) := owned_attach ownership id s in (s, Handle r)
  | OpUndelete id => let '(s, r) := owned_undelete ownership id s in (s, Handle r)
  | OpCheck h => let '(s, r) := check ownership h s in (s, Handle r)
  | OpDelete id => let '(s, r) := owned_delete ownership id s in (s, Done r)
  | OpList f => let '(s, r) := owned_list ownership f s in (s, Statuses r)
  end.
End Run.

Section Scoped.
Context {S : Type} `{SandboxProvider S}.
Variable ownership : Ownership.

(** An operation, what it called, and what it answered. *)
Definition watched (op : OwnedOp) (s : S) : (S * list Call) * Answer := owned_op (H := recording) ownership op (s, []).
Definition calls (op : OwnedOp) (s : S) : list Call := snd (fst (watched op s)).
Definition answer (op : OwnedOp) (s : S) : Answer := snd (watched op s).

Definition owned (l : gmap string string) : Prop := own_labels ownership ⊆ l.

(** What an operation answers when it refuses the sandbox of a handle. *)
Definition refusal (op : OwnedOp) (handle : string) : Answer :=
  match op with
  | OpDelete _ => Done (Err (NotOwned RkSandbox handle))
  | _ => Handle (Err (NotOwned RkSandbox handle))
  end.

Lemma owns_owned l : owns ownership l = true <-> owned l.
Proof. apply owns_spec. Qed.

(** A delete is done: the handle's own delete, or nobody knows the sandbox. *)
Definition settles (c : Call) : Prop :=
  match c with
  | DeletedHandle _ (Ok _) => True
  | Attached _ (Err (NotFound RkSandbox _)) | Described _ (Err (NotFound RkSandbox _)) => True
  | _ => False
  end.

(** The call that gave an operation its handle. *)
Definition obtained (op : OwnedOp) (handle : string) : list Call :=
  match op with
  | OpAttach id => [Attached id (Ok handle)]
  | OpUndelete id => [Undeleted id (Ok handle)]
  | _ => []
  end.

(** Takes an operation's calls one by one. *)
Ltac run_calls :=
  repeat match goal with
  | |- context [create ?spec ?s] => destruct (create spec s) as [? []]; cbn
  | |- context [attach ?id ?s] => destruct (attach id s) as [? []]; cbn
  | |- context [undelete ?id ?s] => destruct (undelete id s) as [? []]; cbn
  | |- context [describe ?h ?s] => destruct (describe h s) as [? []]; cbn
  | |- context [handle_delete ?h ?s] => destruct (handle_delete h s) as [? []]; cbn
  | |- context [list_sandboxes ?f ?s] => destruct (list_sandboxes f s) as [? []]; cbn
  | |- context [if owns ?o ?l then _ else _] => destruct (owns o l) eqn:?; cbn
  end.

Ltac in_log :=
  repeat match goal with
  | H : _ ∈ [] |- _ => by apply elem_of_nil in H
  | H : _ ∈ _ :: _ |- _ => apply elem_of_cons in H as [H|H]
  end.

(** What a listing keeps. *)
Lemma sublist_owned l : sublist (List.filter (fun st => owns ownership (st_labels st)) l) l.
Proof. induction l as [|st l IH]; cbn; [constructor|]. by destruct (owns _ _); constructor. Qed.

Lemma elem_of_owned l st : st ∈ List.filter (fun st => owns ownership (st_labels st)) l <->
  st ∈ l /\ owns ownership (st_labels st) = true.
Proof. rewrite !list_elem_of_In. apply List.filter_In. Qed.

End Scoped.

(** ** A concrete backend: the live sandboxes' labels, and the deleted ones *)

Definition shelf : Type := gmap string (gmap string string) * gmap string (gmap string string).

Definition labelled (id : string) (l : gmap string string) : SandboxStatus :=
  mkSandboxStatus id None StRunning "" None None None None l None None None None None None None.

#[export] Instance shelf_provider : SandboxProvider shelf := {
  prov_kind := "shelf";
  prov_capabilities := minimal IsolationNone;
  create spec s :=
    let id := default "sandbox" (name spec) in
    ((<[id := labels spec]> (fst s), snd s), Ok id);
  attach id s := (s, match fst s !! id with Some _ => Ok id | None => Err (NotFound RkSandbox id) end);
  undelete id s :=
    match snd s !! id with
    | Some l => ((<[id := l]> (fst s), delete id (snd s)), Ok id)
    | None => (s, Err (NotFound RkSandbox id))
    end;
  describe id s :=
    (s, match fst s !! id with Some l => Ok (labelled id l) | None => Err (NotFound RkSandbox id) end);
  handle_delete id s :=
    (match fst s !! id with
     | Some l => (delete id (fst s), <[id := l]> (snd s))
     | None => s
     end, Ok tt);
  list_sandboxes f s := (s, Ok ((fun kv => labelled (fst kv) (snd kv)) <$> map_to_list (fst s)));
}.

Definition ours : Ownership := by_label "app" "ours".
Definition demo_shelf : shelf := ({["a" := {["app" := "ours"]}; "b" := {["app" := "theirs"]}]}, ∅).


(** The ownership check comes after an undelete, not before: an id that now
    names someone else's deleted sandbox is restored, and only then refused. *)
Theorem undelete_restores_foreign : exists (s : shelf) id,
  fst s !! id = None /\
  match owned_undelete ours id s with
  | (s', Err e) => e = NotOwned RkSandbox id /\ exists l, fst s' !! id = Some l /\ owns ours l = false
  | _ => False
  end.
Proof.
  set (theirs := {["app" := "theirs"]} : gmap string string).
  exists (∅, {["b" := theirs]}), "b". split; [reflexivity|].
  assert (owned_undelete ours "b" ((∅, {["b" := theirs]}) : shelf) =
            (({["b" := theirs]}, ∅), Err (NotOwned RkSandbox "b"))) as -> by reflexivity.
  split; [done|]. exists theirs. by split.
Qed.
