(* ===== verification/Contract.v ===== *)
(** * The provider contract: descriptors, workload specs and admission

    Models [crates/sandbox-driver/src/contract/error.rs], [descriptor.rs],
    [workload.rs] and [admission.rs]: what a configured provider declares, what
    a caller asks for, and the check that stands before any mutation. [NonZero]
    integers are integers, sets of capabilities are lists, where order and
    repetition carry no meaning. The text of a rejected service name quotes it
    with [debug_str], the [{:?}] form of a string; the redacting Debug
    implementations and the serde attributes are not modelled. *)

From S2P Require Import Prelude Text Ids.

#[local] Open Scope string_scope.
#[local] Open Scope list_scope.
#[local] Open Scope Z_scope.

(** ** Errors *)

Inductive MutationOutcome := NotStarted | OutcomeUnknown.

Record RemainingResource := mkRemaining { rem_kind : string; rem_id : string }.

Inductive Error :=
  | NoProvider (entry : string)
  | NoEnvironment (name : string)
  | InvalidConfig (entry path message : string)
  | MissingSecret (entry name : string)
  | NotFound (resource id : string)
  | AlreadyExists (name id : string)
  | NotOwned (id : string)
  | NamespaceMismatch (expected actual : string)
  | Unavailable (message : string) (outcome : MutationOutcome)
  | Unauthenticated (message : string)
  | PermissionDenied (message : string)
  | ResourceExhausted (message : string) (retry_after_ms : option Z)
  | Busy (message : string)
  | Unsupported (capability : string)
  | Unhealthy (message : string)
  | Stale (outcome : MutationOutcome)
  | InvalidSpec (path message : string)
  | IncompleteCleanup (message : string) (remaining : list RemainingResource)
  | FenceLeaked (message : string)
  | TransportFailed (message : string) (outcome : MutationOutcome).

Notation invalid_spec path message := (InvalidSpec path message) (only parsing).
Notation invalid_config entry path message := (InvalidConfig entry path message) (only parsing).

(** ** Descriptors *)

Inductive SourceKind := SkHostDirectory | SkImage | SkDockerfile | SkSnapshot.
Inductive ResourceCapability := RcCpu | RcMemory | RcDisk | RcGpus.
Inductive NetworkMode := NmProviderDefault | NmAllowAll | NmBlock | NmCidrAllowList | NmDomainAllowList.
Inductive ContainerField :=
  | CfInit | CfPrivileged | CfCapabilitiesAdd | CfCapabilitiesDrop | CfDns | CfExtraHosts | CfShmSizeMb.
Inductive TimerCapability := TcAutoStop | TcAutoArchive | TcAutoDelete | TcTtl.
Inductive LifecycleCapability := LcPause | LcResume | LcArchive | LcRecover.
Inductive EndpointCapability := EcSsh | EcShellCommand | EcVnc.
Inductive NamespaceScope := NsProcess | NsMachine | NsRemote.
Inductive Durability := DurProcess | DurMachine | DurRemote.
Inductive AccessScope := OwnerProcess | Shared.
Inductive IsolationLevel := IsoNone | IsoContainer | IsoVm.

#[export] Instance SourceKind_eq_dec : EqDecision SourceKind.
Proof. solve_decision. Defined.
#[export] Instance ResourceCapability_eq_dec : EqDecision ResourceCapability.
Proof. solve_decision. Defined.
#[export] Instance NetworkMode_eq_dec : EqDecision NetworkMode.
Proof. solve_decision. Defined.
#[export] Instance ContainerField_eq_dec : EqDecision ContainerField.
Proof. solve_decision. Defined.
#[export] Instance TimerCapability_eq_dec : EqDecision TimerCapability.
Proof. solve_decision. Defined.
#[export] Instance LifecycleCapability_eq_dec : EqDecision LifecycleCapability.
Proof. solve_decision. Defined.
#[export] Instance EndpointCapability_eq_dec : EqDecision EndpointCapability.
Proof. solve_decision. Defined.
#[export] Instance NamespaceScope_eq_dec : EqDecision NamespaceScope.
Proof. solve_decision. Defined.
#[export] Instance Durability_eq_dec : EqDecision Durability.
Proof. solve_decision. Defined.
#[export] Instance AccessScope_eq_dec : EqDecision AccessScope.
Proof. solve_decision. Defined.
#[export] Instance IsolationLevel_eq_dec : EqDecision IsolationLevel.
Proof. solve_decision. Defined.

Notation JsonSchema := (gmap string json) (only parsing).

Record ProviderSchemas := mkSchemas {
  sch_kind : string;
  version : string;
  config_schema : gmap string json;
  spec_schema : option (gmap string json);
  secrets : list string;
}.

Record Namespace := mkNamespace { ns_id : string; ns_scope : NamespaceScope }.

Record Locality := mkLocality { host_address : option string; mounts_host_paths : bool }.

Inductive PortSupport := PortsNone | PortsAny | PortsSelected (ports : list Z).

Record CapabilitySet := mkCapabilitySet {
  cs_lifecycle : list LifecycleCapability;
  cs_endpoints : list EndpointCapability;
  cs_services : bool;
  cs_containers : bool;
  cs_container_fields : list ContainerField;
  cs_timers : list TimerCapability;
}.

Record Descriptor := mkDescriptor {
  schemas : ProviderSchemas;
  namespace : Namespace;
  desc_isolation : IsolationLevel;
  durability : Durability;
  access_scope : AccessScope;
  sources : list SourceKind;
  locality : Locality;
  desc_resources : list ResourceCapability;
  desc_network : list NetworkMode;
  ports : PortSupport;
  desc_capabilities : CapabilitySet;
}.

(** ** Workload specs *)

Inductive Ownership := WsDesignated | WsManaged.

#[export] Instance Ownership_eq_dec : EqDecision Ownership.
Proof. solve_decision. Defined.

Inductive Source := SImage (reference : string) | SDockerfile (content : string)
  | SSnapshot (id : string) | SHostDirectory.

Definition source_kind (s : Source) : SourceKind :=
  match s with
  | SImage _ => SkImage
  | SDockerfile _ => SkDockerfile
  | SSnapshot _ => SkSnapshot
  | SHostDirectory => SkHostDirectory
  end.

Record Resources := mkResources {
  cpu_cores : option Z;
  memory_mb : option Z;
  disk_mb : option Z;
  gpus : option Z;
}.

Inductive NetworkPolicy :=
  | ProviderDefault
  | AllowAll
  | Block
  | CidrAllowList (cidrs : list string)
  | DomainAllowList (domains : list string).

(** The flat form network policies are decoded from. *)
Record RawNetworkPolicy := mkRawNetwork { raw_mode : NetworkMode; raw_allow : option (list string) }.

Definition network_try_from (raw : RawNetworkPolicy) : result NetworkPolicy string :=
  match raw_mode raw, raw_allow raw with
  | NmCidrAllowList, Some cidrs => Ok (CidrAllowList cidrs)
  | NmDomainAllowList, Some domains => Ok (DomainAllowList domains)
  | (NmCidrAllowList | NmDomainAllowList), None => Err "an allow-list mode requires allow"
  | _, Some _ => Err "allow requires mode cidr_allow_list or domain_allow_list"
  | NmProviderDefault, None => Ok ProviderDefault
  | NmAllowAll, None => Ok AllowAll
  | NmBlock, None => Ok Block
  end.

(** The internally tagged form they are encoded to. *)
Definition network_into_raw (n : NetworkPolicy) : RawNetworkPolicy :=
  match n with
  | ProviderDefault => mkRawNetwork NmProviderDefault None
  | AllowAll => mkRawNetwork NmAllowAll None
  | Block => mkRawNetwork NmBlock None
  | CidrAllowList cidrs => mkRawNetwork NmCidrAllowList (Some cidrs)
  | DomainAllowList domains => mkRawNetwork NmDomainAllowList (Some domains)
  end.

Record Timers := mkTimers {
  auto_stop_ms : option Z;
  auto_archive_ms : option Z;
  auto_delete_ms : option Z;
  ttl_ms : option Z;
}.

Record ReadinessCheck := mkReady {
  ready_command : list string;
  interval_ms : Z;
  timeout_ms : Z;
  deadline_ms : Z;
  retries : Z;
}.

Record ServiceSpec := mkService {
  svc_image : string;
  svc_env : gmap string string;
  svc_ports : list Z;
  svc_credential : option string;
  svc_ready : option ReadinessCheck;
}.

Record ContainerSpec := mkContainer {
  init : option bool;
  privileged : option bool;
  capabilities_add : list string;
  capabilities_drop : list string;
  dns : list string;
  extra_hosts : gmap string string;
  shm_size_mb : option Z;
}.

Record SandboxSpec := mkSpec {
  source : Source;
  name : option string;
  resources : Resources;
  network : NetworkPolicy;
  timers : Timers;
  labels : gmap string string;
  env : gmap string string;
  working_directory : option string;
  workspace_ownership : option Ownership;
  user : option string;
  services : gmap string ServiceSpec;
  container : option ContainerSpec;
  provider_config : gmap string json;
}.

Definition spec_new (s : Source) : SandboxSpec :=
  mkSpec s None (mkResources None None None None) ProviderDefault (mkTimers None None None None)
    ∅ ∅ None None None ∅ None ∅.

(** Replacing one field of a spec. *)
Definition set_source (s : SandboxSpec) (v : Source) : SandboxSpec :=
  mkSpec v (name s) (resources s) (network s) (timers s) (labels s) (env s) (working_directory
    s) (workspace_ownership s) (user s) (services s) (container s) (provider_config s).

Definition set_resources (s : SandboxSpec) (v : Resources) : SandboxSpec :=
  mkSpec (source s) (name s) v (network s) (timers s) (labels s) (env s) (working_directory s)
    (workspace_ownership s) (user s) (services s) (container s) (provider_config s).

Definition set_network (s : SandboxSpec) (v : NetworkPolicy) : SandboxSpec :=
  mkSpec (source s) (name s) (resources s) v (timers s) (labels s) (env s) (working_directory s)
    (workspace_ownership s) (user s) (services s) (container s) (provider_config s).

Definition set_timers (s : SandboxSpec) (v : Timers) : SandboxSpec :=
  mkSpec (source s) (name s) (resources s) (network s) v (labels s) (env s) (working_directory
    s) (workspace_ownership s) (user s) (services s) (container s) (provider_config s).

Definition set_labels (s : SandboxSpec) (v : gmap string string) : SandboxSpec :=
  mkSpec (source s) (name s) (resources s) (network s) (timers s) v (env s) (working_directory
    s) (workspace_ownership s) (user s) (services s) (container s) (provider_config s).

Definition set_env (s : SandboxSpec) (v : gmap string string) : SandboxSpec :=
  mkSpec (source s) (name s) (resources s) (network s) (timers s) (labels s) v
    (working_directory s) (workspace_ownership s) (user s) (services s) (container s)
    (provider_config s).

Definition set_working_directory (s : SandboxSpec) (v : option string) : SandboxSpec :=
  mkSpec (source s) (name s) (resources s) (network s) (timers s) (labels s) (env s) v
    (workspace_ownership s) (user s) (services s) (container s) (provider_config s).

Definition set_user (s : SandboxSpec) (v : option string) : SandboxSpec :=
  mkSpec (source s) (name s) (resources s) (network s) (timers s) (labels s) (env s)
    (working_directory s) (workspace_ownership s) v (services s) (container s) (provider_config
    s).

Definition set_provider_config (s : SandboxSpec) (v : gmap string json) : SandboxSpec :=
  mkSpec (source s) (name s) (resources s) (network s) (timers s) (labels s) (env s)
    (working_directory s) (workspace_ownership s) (user s) (services s) (container s) v.

Definition service_new (image : string) : ServiceSpec := mkService image ∅ [] None None.

(** *** What a spec asks for *)

Definition is_set {A} (o : option A) : bool := match o with Some _ => true | None => false end.

(** [set_fields]: the capabilities whose field is set, with their paths. *)
Definition set_fields {C} (fields : list (bool * C * string)) : list (C * string) :=
  (fun f => (snd (fst f), snd f)) <$> List.filter (fun f => fst (fst f)) fields.

Definition resources_requested (r : Resources) : list (ResourceCapability * string) :=
  set_fields
    [(is_set (cpu_cores r), RcCpu, "resources.cpu_cores");
     (is_set (memory_mb r), RcMemory, "resources.memory_mb");
     (is_set (disk_mb r), RcDisk, "resources.disk_mb");
     (match gpus r with Some n => negb (n =? 0) | None => false end, RcGpus, "resources.gpus")].

Definition network_requested (n : NetworkPolicy) : option (NetworkMode * string) :=
  match n with
  | ProviderDefault => None
  | AllowAll => Some (NmAllowAll, "network")
  | Block => Some (NmBlock, "network")
  | CidrAllowList _ => Some (NmCidrAllowList, "network")
  | DomainAllowList _ => Some (NmDomainAllowList, "network")
  end.

Definition timers_requested (t : Timers) : list (TimerCapability * string) :=
  set_fields
    [(is_set (auto_stop_ms t), TcAutoStop, "timers.auto_stop_ms");
     (is_set (auto_archive_ms t), TcAutoArchive, "timers.auto_archive_ms");
     (is_set (auto_delete_ms t), TcAutoDelete, "timers.auto_delete_ms");
     (is_set (ttl_ms t), TcTtl, "timers.ttl_ms")].

Definition some_entries {A} (l : list A) : bool := match l with [] => false | _ => true end.

Definition container_requested (c : ContainerSpec) : list (ContainerField * string) :=
  set_fields
    [(is_set (init c), CfInit, "container.init");
     (is_set (privileged c), CfPrivileged, "container.privileged");
     (some_entries (capabilities_add c), CfCapabilitiesAdd, "container.capabilities_add");
     (some_entries (capabilities_drop c), CfCapabilitiesDrop, "container.capabilities_drop");
     (some_entries (dns c), CfDns, "container.dns");
     (some_entries (entries (extra_hosts c)), CfExtraHosts, "container.extra_hosts");
     (is_set (shm_size_mb c), CfShmSizeMb, "container.shm_size_mb")].

(** *** Portable validation *)

(** A check with an error, and a loop of checks. *)
Definition ensure (b : bool) (e : Error) : result unit Error := if b then Ok tt else Err e.

Fixpoint each {A} (f : A -> result unit Error) (l : list A) : result unit Error :=
  match l with
  | [] => Ok tt
  | a :: l => check? f a in each f l
  end.

Definition nul : ascii := "000".
Definition free_of_char (a : ascii) (s : string) : bool := all_chars (fun b => negb (Ascii.eqb a b)) s.

Definition valid_env_key (key : string) : bool :=
  negb (is_empty key) && free_of_char "=" key && free_of_char nul key.

Definition validate_env (path : string) (e : gmap string string) : result unit Error :=
  each (fun kv =>
    check? ensure (valid_env_key (fst kv))
      (invalid_spec path "keys must be non-empty and must not contain '=' or NUL") in
    ensure (free_of_char nul (snd kv)) (invalid_spec path "values must not contain NUL"))
    (entries e).

Definition validate_argv (path : string) (argv : list string) : result unit Error :=
  check? ensure (match argv with a :: _ => negb (is_empty a) | [] => false end)
    (invalid_spec path "requires a non-empty executable") in
  ensure (forallb (free_of_char nul) argv) (invalid_spec path "arguments must not contain NUL").

Definition validate_name (path value : string) : result unit Error :=
  ensure (negb (is_empty value) && free_of_char nul value)
    (invalid_spec path "must be non-empty and NUL-free").

Definition network_validate (n : NetworkPolicy) : result unit Error :=
  match n with
  | CidrAllowList [] | DomainAllowList [] => Err (invalid_spec "network.allow" "must not be empty")
  | _ => Ok tt
  end.

Definition ready_validate (path : string) (r : ReadinessCheck) : result unit Error :=
  check? validate_argv (path +:+ ".command") (ready_command r) in
  check? ensure (timeout_ms r <=? deadline_ms r)
    (invalid_spec (path +:+ ".timeout_ms") "must not exceed deadline_ms") in
  ensure (negb ((1 <? retries r) && (deadline_ms r <=? interval_ms r)))
    (invalid_spec (path +:+ ".interval_ms")
      "must be shorter than deadline_ms when retries allows a second attempt").

(** [value.trim().is_empty()]. *)
Definition blank (s : string) : bool := is_empty (trim s).

Definition not_some_empty (o : option string) : bool :=
  match o with Some s => negb (is_empty s) | None => true end.

Definition service_validate (path : string) (s : ServiceSpec) : result unit Error :=
  check? ensure (negb (blank (svc_image s))) (invalid_spec (path +:+ ".image") "must not be empty") in
  check? ensure (not_some_empty (svc_credential s))
    (invalid_spec (path +:+ ".credential") "must not be empty") in
  check? validate_env (path +:+ ".env") (svc_env s) in
  match svc_ready s with
  | Some r => ready_validate (path +:+ ".ready") r
  | None => Ok tt
  end.

Definition container_validate (path : string) (c : ContainerSpec) : result unit Error :=
  check? each (fun fe => ensure (forallb (fun e => negb (blank e)) (snd fe))
      (invalid_spec (path +:+ "." +:+ fst fe) "entries must not be empty"))
    [("capabilities_add", capabilities_add c); ("capabilities_drop", capabilities_drop c); ("dns", dns c)] in
  ensure (forallb (fun kv => negb (blank (fst kv) || blank (snd kv))) (entries (extra_hosts c)))
    (invalid_spec (path +:+ ".extra_hosts") "hosts and addresses must not be empty").

Definition is_host (s : Source) : bool := match s with SHostDirectory => true | _ => false end.

Section Validate.
Context (debug_str : string -> string).

Definition validate (s : SandboxSpec) : result unit Error :=
  check? match source s with
         | SImage v | SDockerfile v => ensure (negb (blank v)) (invalid_spec "source" "must not be empty")
         | _ => Ok tt
         end in
  check? each (fun pv => ensure (not_some_empty (snd pv)) (invalid_spec (fst pv) "must not be empty"))
    [("name", name s); ("user", user s); ("working_directory", working_directory s)] in
  check? validate_env "env" (env s) in
  check? ensure (negb (is_set (workspace_ownership s) && negb (is_host (source s))))
    (invalid_spec "workspace_ownership" "requires host_directory") in
  check? ensure (negb (bool_decide (workspace_ownership s = Some WsDesignated)
                       && negb (is_set (working_directory s))))
    (invalid_spec "working_directory" "designated workspace requires a path") in
  check? network_validate (network s) in
  check? match container s with Some c => container_validate "container" c | None => Ok tt end in
  each (fun kv =>
      check? match validate_label "service name" (fst kv) 63 with
             | Ok _ => Ok tt
             | Err e => Err (invalid_spec "services" (id_error_text debug_str e))
             end in
      service_validate ("services." +:+ fst kv) (snd kv))
    (entries (services s)).

(** ** Admission *)

Definition require (supported : bool) (field : string) : result unit Error :=
  ensure supported (Unsupported field).

Definition mem {A} `{EqDecision A} (a : A) (l : list A) : bool := bool_decide (a ∈ l).

(** The checks against a descriptor, in order. *)
Definition validate_for (s : SandboxSpec) (d : Descriptor) : result unit Error :=
  check? validate s in
  let capabilities := desc_capabilities d in
  check? require (mem (source_kind (source s)) (sources d)) "source" in
  check? each (fun cf => require (mem (fst cf) (desc_resources d)) (snd cf))
    (resources_requested (resources s)) in
  check? match network_requested (network s) with
         | Some (c, f) => require (mem c (desc_network d)) f
         | None => Ok tt
         end in
  check? each (fun cf => require (mem (fst cf) (cs_timers capabilities)) (snd cf))
    (timers_requested (timers s)) in
  check? require (negb (some_entries (entries (services s))) || cs_services capabilities) "services" in
  each (fun cf => require (mem (fst cf) (cs_container_fields capabilities)) (snd cf))
    (match container s with Some c => container_requested c | None => [] end).

End Validate.

(** ** What validation means *)

Definition without (a : ascii) (s : string) : Prop := ~ exists l r, s = l +:+ String a r.

Definition env_ok (e : gmap string string) : Prop :=
  map_Forall (fun k v => k <> "" /\ without "=" k /\ without nul k /\ without nul v) e.

Definition argv_ok (argv : list string) : Prop :=
  (exists exe args, argv = exe :: args /\ exe <> "") /\ Forall (without nul) argv.

Definition ready_ok (r : ReadinessCheck) : Prop :=
  argv_ok (ready_command r) /\ timeout_ms r <= deadline_ms r /\
  (1 < retries r -> interval_ms r < deadline_ms r).

Definition service_ok (s : ServiceSpec) : Prop :=
  trim (svc_image s) <> "" /\ svc_credential s <> Some "" /\ env_ok (svc_env s) /\
  (forall r, svc_ready s = Some r -> ready_ok r).

Definition not_blank (s : string) : Prop := trim s <> "".

Definition container_ok (c : ContainerSpec) : Prop :=
  Forall not_blank (capabilities_add c) /\ Forall not_blank (capabilities_drop c) /\
  Forall not_blank (dns c) /\ map_Forall (fun h a => not_blank h /\ not_blank a) (extra_hosts c).

Record workload_ok (s : SandboxSpec) : Prop := {
  ok_source : forall v, source s = SImage v \/ source s = SDockerfile v -> not_blank v;
  ok_names : name s <> Some "" /\ user s <> Some "" /\ working_directory s <> Some "";
  ok_env : env_ok (env s);
  ok_ownership : workspace_ownership s <> None -> source s = SHostDirectory;
  ok_designated : workspace_ownership s = Some WsDesignated -> working_directory s <> None;
  ok_network : network s <> CidrAllowList [] /\ network s <> DomainAllowList [];
  ok_container : forall c, container s = Some c -> container_ok c;
  ok_services : map_Forall (fun n svc => label 63 n /\ service_ok svc) (services s);
}.

(** *** Lemmas on checks *)

Lemma ensure_ok b e : ensure b e = Ok tt <-> b = true.
Proof. by destruct b. Qed.

Lemma each_ok {A} (f : A -> result unit Error) l : each f l = Ok tt <-> Forall (fun a => f a = Ok tt) l.
Proof.
  induction l as [|a l IH]; cbn [each]; [split; [constructor|done]|].
  by rewrite rbind_ok, Forall_cons, IH.
Qed.

Lemma each_err {A} (f : A -> result unit Error) l e : each f l = Err e -> exists a, a ∈ l /\ f a = Err e.
Proof.
  induction l as [|a l IH]; cbn [each]; [done|]. destruct (f a) as [[]|e'] eqn:Ea; cbn.
  - intros (a' & Ha & He)%IH. exists a'. split; [by right|done].
  - intros [= <-]. exists a. split; [by left|done].
Qed.

Lemma free_of_char_spec a s : free_of_char a s = true <-> without a s.
Proof.
  unfold free_of_char, without. induction s as [|b s IH]; cbn [all_chars].
  - split; [|done]. intros _ (l & r & Hs). by destruct l.
  - rewrite andb_true_iff, IH, negb_true_iff. split.
    + intros [Hb Hs] (l & r & Hl). destruct l as [|c l]; cbn in Hl; injection Hl as -> Hl.
      * by rewrite Ascii.eqb_refl in Hb.
      * apply Hs. by exists l, r.
    + intros Hs. split.
      * apply Ascii.eqb_neq. intros <-. apply Hs. by exists "", s.
      * intros (l & r & ->). apply Hs. by exists (String b l), r.
Qed.

Lemma is_empty_false s : negb (is_empty s) = true <-> s <> "".
Proof. by destruct s. Qed.

Lemma blank_false s : negb (blank s) = true <-> not_blank s.
Proof. apply is_empty_false. Qed.

Lemma not_some_empty_spec o : not_some_empty o = true <-> o <> Some "".
Proof.
  destruct o as [s|]; cbn; [rewrite is_empty_false|done].
  split; [intros H [= ->]; done|intros H ->; done].
Qed.

Lemma validate_env_ok path e : validate_env path e = Ok tt <-> env_ok e.
Proof.
  unfold validate_env, env_ok. rewrite each_ok, Forall_entries. apply map_Forall_iff_ext. intros k v.
  rewrite rbind_ok, !ensure_ok. cbn [fst snd]. unfold valid_env_key.
  rewrite !andb_true_iff, !free_of_char_spec, is_empty_false. tauto.
Qed.

Lemma validate_argv_ok path argv : validate_argv path argv = Ok tt <-> argv_ok argv.
Proof.
  unfold validate_argv, argv_ok. rewrite rbind_ok, !ensure_ok, (forallb_iff _ (without nul)) by apply free_of_char_spec.
  f_equiv. destruct argv as [|a l]; [split; [done|by intros (? & ? & ? & _)]|].
  rewrite is_empty_false. split; [eauto|]. by intros (? & ? & [= <- <-] & ?).
Qed.

Lemma ready_ok_spec path r : ready_validate path r = Ok tt <-> ready_ok r.
Proof.
  unfold ready_validate, ready_ok. rewrite !rbind_ok, !ensure_ok, validate_argv_ok, Z.leb_le.
  do 2 f_equiv. rewrite negb_true_iff, andb_false_iff, Z.ltb_ge, Z.leb_gt. lia.
Qed.

Lemma service_ok_spec path s : service_validate path s = Ok tt <-> service_ok s.
Proof.
  unfold service_validate, service_ok.
  rewrite !rbind_ok, !ensure_ok, blank_false, not_some_empty_spec, validate_env_ok.
  assert (match svc_ready s with Some r => ready_validate (path +:+ ".ready") r | None => Ok tt end = Ok tt <->
    forall r, svc_ready s = Some r -> ready_ok r) as ->; [|unfold not_blank; tauto].
  destruct (svc_ready s) as [r|]; [|done]. rewrite ready_ok_spec. naive_solver.
Qed.

Lemma container_ok_spec path c : container_validate path c = Ok tt <-> container_ok c.
Proof.
  unfold container_validate, container_ok. rewrite rbind_ok, each_ok, !Forall_cons, !ensure_ok. cbn [fst snd].
  rewrite !(forallb_iff _ not_blank) by apply blank_false.
  rewrite (forallb_iff _ (fun kv => not_blank (fst kv) /\ not_blank (snd kv))), Forall_entries.
  2:{ intros kv. rewrite negb_orb, andb_true_iff. by rewrite !blank_false. }
  cbn [fst snd]. rewrite Forall_nil. tauto.
Qed.

Lemma network_ok_spec n : network_validate n = Ok tt <-> n <> CidrAllowList [] /\ n <> DomainAllowList [].
Proof.
  destruct n as [| | |[|c l]|[|c l]]; cbn; (split; [intros H; try done; split; congruence|]); try done;
    by intros [? ?].
Qed.

Section ValidateLemmas.
Context (debug_str : string -> string).

Lemma validate_ok s : validate debug_str s = Ok tt <-> workload_ok s.
Proof.
  unfold validate. rewrite !rbind_ok, !each_ok, !Forall_cons, !ensure_ok, validate_env_ok, network_ok_spec,
    Forall_entries.
  cbn [fst snd]. rewrite !not_some_empty_spec.
  assert (match source s with
          | SImage v | SDockerfile v => ensure (negb (blank v)) (InvalidSpec "source" "must not be empty")
          | _ => Ok tt end = Ok tt <-> forall v, source s = SImage v \/ source s = SDockerfile v -> not_blank v) as ->.
  { destruct (source s); rewrite ?ensure_ok, ?blank_false; naive_solver. }
  assert (negb (is_set (workspace_ownership s) && negb (is_host (source s))) = true <->
    (workspace_ownership s <> None -> source s = SHostDirectory)) as ->.
  { destruct (workspace_ownership s); [|cbn; naive_solver]. destruct (source s); cbn; naive_solver. }
  assert (negb (bool_decide (workspace_ownership s = Some WsDesignated) && negb (is_set (working_directory s)))
    = true <-> (workspace_ownership s = Some WsDesignated -> working_directory s <> None)) as ->.
  { case_bool_decide; destruct (working_directory s); cbn; naive_solver. }
  assert (match container s with Some c => container_validate "container" c | None => Ok tt end = Ok tt <->
    forall c, container s = Some c -> container_ok c) as ->.
  { destruct (container s) as [c|]; [|done]. rewrite container_ok_spec. naive_solver. }
  rewrite (map_Forall_iff_ext _ (fun n svc => label 63 n /\ service_ok svc)).
  2:{ intros k a. cbn [fst snd]. rewrite rbind_ok, service_ok_spec, <- (validate_label_spec "service name").
      f_equiv. by destruct (validate_label _ _ _). }
  split; [|intros []; rewrite Forall_nil; tauto].
  intros (? & (? & ? & ? & _) & ? & ? & ? & ? & ? & ?). by split.
Qed.

(** Every error of a check is an [InvalidSpec]. *)
Definition spec_error (e : Error) : Prop := exists path message, e = InvalidSpec path message.
Definition spec_checked (r : result unit Error) : Prop := forall e, r = Err e -> spec_error e.

Lemma checked_ensure b p m : spec_checked (ensure b (InvalidSpec p m)).
Proof. intros e. destruct b; cbn; [done|]. intros [= <-]. by eexists _, _. Qed.

Lemma checked_bind m k : spec_checked m -> spec_checked k -> spec_checked (rbind m (fun _ => k)).
Proof. intros Hm Hk e. destruct m as [[]|e']; cbn; [apply Hk|]. intros [= <-]. by apply Hm. Qed.

Lemma checked_each {A} (f : A -> result unit Error) l : (forall a, spec_checked (f a)) -> spec_checked (each f l).
Proof. intros H e (a & _ & Ha)%each_err. by apply (H a). Qed.

Lemma checked_unit : spec_checked (Ok tt).
Proof. by intros e. Qed.

Lemma checked_err p m : spec_checked (Err (InvalidSpec p m)).
Proof. intros e [= <-]. by eexists _, _. Qed.

Create HintDb checks.
#[local] Hint Resolve checked_ensure checked_bind checked_each checked_unit checked_err : checks.

Lemma validate_checked s : spec_checked (validate debug_str s).
Proof.
  assert (forall p e, spec_checked (validate_env p e)) as Henv by (intros; unfold validate_env; auto with checks).
  assert (forall p e, spec_checked (validate_argv p e)) as Hargv by (intros; unfold validate_argv; auto with checks).
  assert (forall n, spec_checked (network_validate n)) as Hn
    by (intros [| | |[|? ?]|[|? ?]]; cbn; auto with checks).
  assert (forall p c, spec_checked (container_validate p c)) as Hc
    by (intros; unfold container_validate; auto with checks).
  assert (forall p r, spec_checked (ready_validate p r)) as Hr
    by (intros; unfold ready_validate; auto 6 with checks).
  assert (forall p s, spec_checked (service_validate p s)) as Hs.
  { intros p s'. unfold service_validate. destruct (svc_ready s'); auto 8 with checks. }
  unfold validate. repeat apply checked_bind; auto with checks.
  - destruct (source s); auto with checks.
  - destruct (container s); auto with checks.
  - apply checked_each. intros a. apply checked_bind; [|done]. destruct (validate_label _ _ _); auto with checks.
Qed.

End ValidateLemmas.

(** ** What admission asks of a descriptor *)

Definition resource_set (r : Resources) (c : ResourceCapability) : Prop :=
  match c with
  | RcCpu => cpu_cores r <> None
  | RcMemory => memory_mb r <> None
  | RcDisk => disk_mb r <> None
  | RcGpus => exists n, gpus r = Some n /\ n <> 0
  end.

Definition resource_path (c : ResourceCapability) : string :=
  match c with
  | RcCpu => "resources.cpu_cores"
  | RcMemory => "resources.memory_mb"
  | RcDisk => "resources.disk_mb"
  | RcGpus => "resources.gpus"
  end.

Definition timer_set (t : Timers) (c : TimerCapability) : Prop :=
  match c with
  | TcAutoStop => auto_stop_ms t <> None
  | TcAutoArchive => auto_archive_ms t <> None
  | TcAutoDelete => auto_delete_ms t <> None
  | TcTtl => ttl_ms t <> None
  end.

Definition timer_path (c : TimerCapability) : string :=
  match c with
  | TcAutoStop => "timers.auto_stop_ms"
  | TcAutoArchive => "timers.auto_archive_ms"
  | TcAutoDelete => "timers.auto_delete_ms"
  | TcTtl => "timers.ttl_ms"
  end.

Definition field_set (c : ContainerSpec) (f : ContainerField) : Prop :=
  match f with
  | CfInit => init c <> None
  | CfPrivileged => privileged c <> None
  | CfCapabilitiesAdd => capabilities_add c <> []
  | CfCapabilitiesDrop => capabilities_drop c <> []
  | CfDns => dns c <> []
  | CfExtraHosts => extra_hosts c <> ∅
  | CfShmSizeMb => shm_size_mb c <> None
  end.

Definition field_path (f : ContainerField) : string :=
  match f with
  | CfInit => "container.init"
  | CfPrivileged => "container.privileged"
  | CfCapabilitiesAdd => "container.capabilities_add"
  | CfCapabilitiesDrop => "container.capabilities_drop"
  | CfDns => "container.dns"
  | CfExtraHosts => "container.extra_hosts"
  | CfShmSizeMb => "container.shm_size_mb"
  end.

(** [needs s f P]: field [f] of the spec needs [P] of the descriptor. *)
Inductive needs (s : SandboxSpec) : string -> (Descriptor -> Prop) -> Prop :=
  | need_source : needs s "source" (fun d => source_kind (source s) ∈ sources d)
  | need_resource c : resource_set (resources s) c ->
      needs s (resource_path c) (fun d => c ∈ desc_resources d)
  | need_network : network s <> ProviderDefault ->
      needs s "network" (fun d => raw_mode (network_into_raw (network s)) ∈ desc_network d)
  | need_timer c : timer_set (timers s) c ->
      needs s (timer_path c) (fun d => c ∈ cs_timers (desc_capabilities d))
  | need_services : services s <> ∅ -> needs s "services" (fun d => cs_services (desc_capabilities d) = true)
  | need_container c f : container s = Some c -> field_set c f ->
      needs s (field_path f) (fun d => f ∈ cs_container_fields (desc_capabilities d)).

Lemma elem_of_set_fields {C} (l : list (bool * C * string)) c f : (c, f) ∈ set_fields l <-> (true, c, f) ∈ l.
Proof.
  unfold set_fields. rewrite list_elem_of_fmap. split.
  - intros ([[b c'] f'] & [= -> ->] & H). apply list_elem_of_In, filter_In in H as [H Hb].
    cbn in Hb. subst b. by apply list_elem_of_In.
  - intros H. exists (true, c, f). split; [done|]. apply list_elem_of_In, filter_In.
    split; [by apply list_elem_of_In|done].
Qed.

Lemma is_set_spec {A} (o : option A) : true = is_set o <-> o <> None.
Proof. by destruct o. Qed.

Lemma some_entries_spec {A} (l : list A) : true = some_entries l <-> l <> [].
Proof. by destruct l. Qed.

Ltac requested := rewrite elem_of_set_fields, !elem_of_cons, elem_of_nil, !pair_equal_spec,
  ?is_set_spec, ?some_entries_spec, ?entries_empty.

Lemma resources_requested_spec r c f :
  (c, f) ∈ resources_requested r <-> f = resource_path c /\ resource_set r c.
Proof.
  unfold resources_requested. requested.
  assert (true = match gpus r with Some n => negb (n =? 0) | None => false end <->
    exists n, gpus r = Some n /\ n <> 0) as ->.
  { destruct (gpus r) as [n|]; [destruct (Z.eqb_spec n 0)|]; cbn; naive_solver. }
  destruct c; cbn; naive_solver.
Qed.

Lemma timers_requested_spec t c f :
  (c, f) ∈ timers_requested t <-> f = timer_path c /\ timer_set t c.
Proof. unfold timers_requested. requested. destruct c; cbn; naive_solver. Qed.

Lemma container_requested_spec k c f :
  (c, f) ∈ container_requested k <-> f = field_path c /\ field_set k c.
Proof. unfold container_requested. requested. destruct c; cbn; naive_solver. Qed.

Lemma network_requested_spec n c f :
  network_requested n = Some (c, f) <-> n <> ProviderDefault /\ c = raw_mode (network_into_raw n) /\ f = "network".
Proof. destruct n; cbn; naive_solver. Qed.

(** *** Checks that report the field they miss *)

Section Admit.
Context (debug_str : string -> string) (s : SandboxSpec) (d : Descriptor).

(** A check that passes exactly when every need in [N] is met, and otherwise
    names one that is not. *)
Definition decides (r : result unit Error) (N : string -> (Descriptor -> Prop) -> Prop) : Prop :=
  (r = Ok tt /\ forall f P, N f P -> P d) \/
  (exists f P, r = Err (Unsupported f) /\ N f P /\ ~ P d).

Lemma decides_bind m k M N : decides m M -> decides k N ->
  decides (rbind m (fun _ => k)) (fun f P => M f P \/ N f P).
Proof.
  intros [[-> HM]|(f & P & -> & HM & HP)] Hk; cbn.
  - destruct Hk as [[-> HN]|(f & P & -> & HN & HP)]; [left|right].
    + split; [done|]. intros f P [H|H]; [exact (HM f P H)|exact (HN f P H)].
    + exists f, P. auto.
  - right. exists f, P. auto.
Qed.

Lemma decides_ext r M N : (forall f P, M f P <-> N f P) -> decides r M -> decides r N.
Proof.
  intros H [[-> HM]|(f & P & -> & HM & HP)]; [left|right].
  - split; [done|]. intros f P HP%H. exact (HM f P HP).
  - exists f, P. split_and!; [done|by apply H|done].
Qed.

Lemma decides_require b f (P : Descriptor -> Prop) : (b = true <-> P d) ->
  decides (require b f) (fun f' P' => f' = f /\ P' = P).
Proof.
  intros H. destruct b; [left|right]; cbn.
  - split; [done|]. intros f' P' [-> ->]. by apply H.
  - exists f, P. split_and!; [done..|]. rewrite <- H. done.
Qed.

Lemma decides_each {C} `{EqDecision C} (l : list (C * string)) (have : Descriptor -> list C) :
  decides (each (fun cf => require (mem (fst cf) (have d)) (snd cf)) l)
    (fun f P => exists c, (c, f) ∈ l /\ P = (fun d => c ∈ have d)).
Proof.
  induction l as [|[c f] l IH]; cbn [each fst snd].
  { left. split; [done|]. intros f P (c & []%not_elem_of_nil & _). }
  eapply decides_ext; [|apply decides_bind; [|apply IH]].
  2:{ apply (decides_require _ f (fun d => c ∈ have d)). unfold mem. by rewrite bool_decide_eq_true. }
  intros f' P. cbn. setoid_rewrite elem_of_cons. naive_solver.
Qed.

Lemma decides_network :
  decides match network_requested (network s) with
          | Some (c, f) => require (mem c (desc_network d)) f
          | None => Ok tt
          end
    (fun f P => f = "network" /\ network s <> ProviderDefault /\
       P = (fun d => raw_mode (network_into_raw (network s)) ∈ desc_network d)).
Proof.
  destruct (network_requested (network s)) as [[c f]|] eqn:E.
  - apply network_requested_spec in E as (Hn & -> & ->).
    eapply decides_ext; [|apply (decides_require _ "network" (fun d => raw_mode (network_into_raw (network s)) ∈ desc_network d))];
      [naive_solver|]. unfold mem. by rewrite bool_decide_eq_true.
  - left. split; [done|]. intros f P (_ & H & _). by destruct (network s).
Qed.

Lemma decides_services :
  decides (require (negb (some_entries (entries (services s))) || cs_services (desc_capabilities d)) "services")
    (fun f P => f = "services" /\ services s <> ∅ /\ P = (fun d => cs_services (desc_capabilities d) = true)).
Proof.
  destruct (some_entries (entries (services s))) eqn:E; cbn [negb orb].
  - symmetry in E. rewrite some_entries_spec, entries_empty in E.
    eapply decides_ext; [|apply (decides_require _ "services" (fun d => cs_services (desc_capabilities d) = true))];
      [naive_solver|done].
  - left. split; [done|]. intros f P (_ & H & _). rewrite <- entries_empty, <- some_entries_spec, E in H. done.
Qed.

Lemma decides_admission : validate debug_str s = Ok tt -> decides (validate_for debug_str s d) (needs s).
Proof.
  intros Hv. unfold validate_for. rewrite Hv. cbn [rbind]. cbv zeta.
  eapply decides_ext; [|
    apply decides_bind; [apply (decides_require _ "source" (fun d => source_kind (source s) ∈ sources d))|
    apply decides_bind; [apply (decides_each _ desc_resources)|
    apply decides_bind; [apply (decides_network)|
    apply decides_bind; [apply (decides_each _ (fun d => cs_timers (desc_capabilities d)))|
    apply decides_bind; [apply decides_services|
    apply (decides_each _ (fun d => cs_container_fields (desc_capabilities d)))]]]]]].
  2:{ unfold mem. by rewrite bool_decide_eq_true. }
  intros f P. setoid_rewrite resources_requested_spec. setoid_rewrite timers_requested_spec.
  split.
  - intros [[-> ->]|[(c & [-> ?] & ->)|[(-> & ? & ->)|[(c & [-> ?] & ->)|[(-> & ? & ->)|(c & Hc & ->)]]]]];
      try by constructor.
    destruct (container s) as [k|] eqn:Ek; [|by apply not_elem_of_nil in Hc].
    apply container_requested_spec in Hc as [-> Hc]. by eapply need_container.
  - intros []; [tauto|eauto 10..|].
    do 5 right. exists f0. rewrite H. by rewrite container_requested_spec.
Qed.

End Admit.

Lemma network_into_try_from n : network_try_from (network_into_raw n) = Ok n.
Proof. by destruct n. Qed.

(** ** Properties *)

(** A workload spec validates exactly when it is well formed — its source,
    names, environment, workspace, allow-list, container and every service with
    its readiness check — and every rejection is an [InvalidSpec] error. *)
Theorem workload_validation debug_str s :
  (validate debug_str s = Ok tt <-> workload_ok s) /\
  (forall e, validate debug_str s = Err e -> exists path message, e = InvalidSpec path message).
Proof. split; [apply validate_ok|apply validate_checked]. Qed.

Lemma workload_validation_witness :
  exists path message, InvalidSpec "source" "must not be empty" = InvalidSpec path message.
Proof. apply (proj2 (workload_validation (fun s => s) (spec_new (SImage " ")))). reflexivity. Defined.

(** Admission reports the spec's own error first; a valid spec is admitted
    exactly when the descriptor meets every need of a field the spec sets, and
    is otherwise refused as unsupported, naming such a field: nothing a caller
    asks for is dropped silently. *)
Theorem admission_spec debug_str s d :
  (forall e, validate debug_str s = Err e -> validate_for debug_str s d = Err e) /\
  (validate debug_str s = Ok tt ->
     (validate_for debug_str s d = Ok tt <-> forall f P, needs s f P -> P d) /\
     (forall e, validate_for debug_str s d = Err e ->
        exists f P, e = Unsupported f /\ needs s f P /\ ~ P d)).
Proof.
  split; [intros e He; unfold validate_for; by rewrite He|].
  intros Hv. destruct (decides_admission debug_str s d Hv) as [[-> H]|(f & P & -> & HN & HP)].
  - split; [done|]. by intros e.
  - split; [split; [done|intros H; destruct HP; exact (H f P HN)]|]. intros e [= <-]. by exists f, P.
Qed.

Lemma admission_spec_witness :
  let d := mkDescriptor (mkSchemas "local" "1" ∅ None []) (mkNamespace "n" NsProcess) IsoNone DurProcess
    OwnerProcess [SkHostDirectory] (mkLocality None true) [] [] PortsNone
    (mkCapabilitySet [] [] false false [] [] ) in
  exists f P, Unsupported "source" = Unsupported f /\ needs (spec_new (SImage "ubuntu")) f P /\ ~ P d.
Proof.
  intros d. apply (proj2 (proj2 (admission_spec (fun s => s) (spec_new (SImage "ubuntu")) d) eq_refl)).
  reflexivity.
Defined.
