(* ===== verification/Config.v ===== *)
(** * Configured providers

    Models the data and the local checks of a catalog:
    [crates/sandbox-driver/src/contract/config.rs] (provider entries and their
    raw form, trust, environments), [identity.rs], the label filter, summaries,
    one-shot and exec requests of [runtime.rs] and [execution.rs], the schema
    compilation of [schema.rs], and of [catalog.rs] the adapter registry, the
    entry validation and the launch environment. A factory is a value of a type
    [F]; the JSON Schema engine is the interface [SchemaEngine]. *)

From S2P Require Import Prelude Text Ids Contract.

#[local] Open Scope string_scope.
#[local] Open Scope list_scope.
#[local] Open Scope Z_scope.

(** ** Provider entries *)

Inductive PluginTrust := TrustSha256 (digest : string) | TrustDevelopment.

Record ProviderEntry := mkEntry {
  plugin : string;
  config : gmap string json;
  entry_secrets : list string;
  path : option string;
  trust : option PluginTrust;
  args : list string;
  entry_env : gmap string string;
  inherit_env : option (list string);
}.

(** The entry as written: trust is two flat keys. *)
Record RawProviderEntry := mkRawEntry {
  raw_plugin : string;
  raw_config : gmap string json;
  raw_secrets : list string;
  raw_path : option string;
  raw_sha256 : option string;
  raw_dev : bool;
  raw_args : list string;
  raw_env : gmap string string;
  raw_inherit_env : option (list string);
}.

Definition entry_try_from (raw : RawProviderEntry) : result ProviderEntry string :=
  let? t := match raw_sha256 raw, raw_dev raw with
            | Some _, true => Err "dev trust does not take a sha256 pin"
            | Some digest, false => Ok (Some (TrustSha256 digest))
            | None, true => Ok (Some TrustDevelopment)
            | None, false => Ok None
            end in
  Ok (mkEntry (raw_plugin raw) (raw_config raw) (raw_secrets raw) (raw_path raw) t (raw_args raw)
        (raw_env raw) (raw_inherit_env raw)).

Definition raw_of_entry (e : ProviderEntry) : RawProviderEntry :=
  let (sha256, dev) := match trust e with
                       | Some (TrustSha256 digest) => (Some digest, false)
                       | Some TrustDevelopment => (None, true)
                       | None => (None, false)
                       end in
  mkRawEntry (plugin e) (config e) (entry_secrets e) (path e) sha256 dev (args e) (entry_env e)
    (inherit_env e).

Record Environment := mkEnvironment { env_provider : string; env_spec : SandboxSpec }.

(** ** Identity, labels and requests *)

Record SandboxRef := mkRef { provider : string; ref_namespace : string; ref_id : string }.

#[export] Instance SandboxRef_eq_dec : EqDecision SandboxRef.
Proof. solve_decision. Defined.

Definition check_namespace (r : SandboxRef) (observed : string) : result unit Error :=
  if bool_decide (ref_namespace r = observed) then Ok tt
  else Err (NamespaceMismatch (ref_namespace r) observed).

Inductive SandboxState :=
  | Creating | Starting | Running | Stopping | Stopped | Paused | Archived | Deleting | Deleted
  | SsUnhealthy | SsUnavailable | Lost | SsUnknown.

#[export] Instance SandboxState_eq_dec : EqDecision SandboxState.
Proof. solve_decision. Defined.

Record SandboxSummary := mkSummary {
  reference : SandboxRef;
  sum_name : option string;
  sum_state : SandboxState;
  sum_labels : gmap string string;
}.

#[export] Instance SandboxSummary_eq_dec : EqDecision SandboxSummary.
Proof. solve_decision. Defined.

(** [LabelFilter::matches]; the filter is its map. *)
Definition filter_matches (f labels : gmap string string) : bool :=
  forallb (fun kv => bool_decide (labels !! fst kv = Some (snd kv))) (entries f).

Definition filter_eq (key value : string) : gmap string string := {[ key := value ]}.

Record ExecSpec := mkExec {
  argv : list string;
  exec_env : gmap string string;
  exec_wd : option string;
  exec_timeout_ms : option Z;
  tty : bool;
}.

Definition exec_argv (a : list string) : ExecSpec := mkExec a ∅ None None false.

(** A check on a field that may be absent. *)
Definition on_some {A} (f : A -> result unit Error) (o : option A) : result unit Error :=
  match o with Some a => f a | None => Ok tt end.

Definition exec_validate (s : ExecSpec) : result unit Error :=
  check? validate_argv "argv" (argv s) in
  check? on_some (validate_name "working_directory") (exec_wd s) in
  validate_env "env" (exec_env s).

Inductive OneShotImage :=
  | OsImage (reference : string)
  | OsBuild (context : string) (dockerfile : option string) (tag : string) (reuse : bool).

Record OneShotSpec := mkOneShot {
  os_image : OneShotImage;
  entrypoint : option string;
  os_args : list string;
  os_env : gmap string string;
  os_wd : option string;
  os_timeout_ms : option Z;
}.

Definition one_shot_new (i : OneShotImage) : OneShotSpec := mkOneShot i None [] ∅ None None.

Definition one_shot_validate (s : OneShotSpec) : result unit Error :=
  check? match os_image s with
         | OsImage r => validate_name "image" r
         | OsBuild context dockerfile tag _ =>
             check? validate_name "image.build.context" context in
             check? on_some (validate_name "image.build.dockerfile") dockerfile in
             validate_name "image.build.tag" tag
         end in
  check? on_some (validate_name "entrypoint") (entrypoint s) in
  check? ensure (forallb (free_of_char nul) (os_args s))
    (InvalidSpec "args" "arguments must not contain NUL") in
  check? on_some (validate_name "working_directory") (os_wd s) in
  validate_env "env" (os_env s).

(** ** Schemas *)

Inductive Draft := Draft7 | Draft201909 | Draft202012.

(** The JSON Schema engine: building a validator, and the instance path of the
    first violation, if any. *)
Class SchemaEngine (V : Type) := {
  build : Draft -> json -> option V;
  violation : V -> json -> option string;
}.

(** [object]: a map as a JSON object. *)
Definition object (m : gmap string json) : json := JObj (entries m).

Definition draft_of (schema : gmap string json) : option Draft :=
  match schema !! "$schema" with
  | Some (JStr s) =>
      if String.eqb s "http://json-schema.org/draft-07/schema#" then Some Draft7
      else if String.eqb s "https://json-schema.org/draft/2019-09/schema" then Some Draft201909
      else if String.eqb s "https://json-schema.org/draft/2020-12/schema" then Some Draft202012
      else None
  | _ => None
  end.

Section Schemas.
Context {V : Type} `{SchemaEngine V}.

Record Schemas := mkCompiled { schema_config : V; schema_spec : option V }.

Definition compile (entry path : string) (schema : gmap string json) : result V Error :=
  match draft_of schema with
  | None => Err (InvalidConfig entry path
      "requires a supported declared JSON Schema dialect (draft-07, 2019-09 or 2020-12)")
  | Some draft =>
      ok_or (build draft (object schema))
        (InvalidConfig entry path "invalid schema or unresolved external reference")
  end.

Definition schemas_compile (entry : string) (s : ProviderSchemas) : result Schemas Error :=
  let? c := compile entry "config_schema" (config_schema s) in
  match spec_schema s with
  | None => Ok (mkCompiled c None)
  | Some schema => let? v := compile entry "spec_schema" schema in Ok (mkCompiled c (Some v))
  end.

Definition check_config (s : Schemas) (entry : string) (c : gmap string json) : result unit Error :=
  match violation (schema_config s) (object c) with
  | None => Ok tt
  | Some at_ => Err (InvalidConfig entry ("config" +:+ at_) "does not satisfy provider config_schema")
  end.

Definition check_spec (s : Schemas) (c : gmap string json) : result unit Error :=
  match schema_spec s with
  | None => Ok tt
  | Some v =>
      match violation v (object c) with
      | None => Ok tt
      | Some at_ => Err (InvalidSpec ("provider_config" +:+ at_) "does not satisfy provider spec_schema")
      end
  end.

End Schemas.

(** ** The adapter registry *)

Section Registry.
Context {F : Type}.

Record Registry := mkRegistry { builtins : gmap string F; plugins : option F }.

Definition registry_new : Registry := mkRegistry ∅ None.

Definition set_plugins (r : Registry) (f : F) : Registry := mkRegistry (builtins r) (Some f).

Definition builtin (r : Registry) (kind : string) (f : F) : result Registry Error :=
  if String.eqb kind "host" || is_set (builtins r !! kind)
  then Err (Unsupported "duplicate registration or built-in Host")
  else Ok (mkRegistry (<[kind := f]> (builtins r)) (plugins r)).

(** [Registry::factory]: an entry that names a path or a trust is loaded as a
    plugin; otherwise the built-in of its kind, if any, is used. *)
Definition registry_factory (r : Registry) (e : ProviderEntry) : option F :=
  if is_set (path e) || is_set (trust e) then plugins r
  else match builtins r !! plugin e with Some f => Some f | None => plugins r end.

End Registry.
Arguments Registry : clear implicits.

(** ** Local checks of an entry *)

Definition validate_entry (name : string) (e : ProviderEntry) : result unit Error :=
  check? map_err (fun _ => InvalidConfig name "env" "invalid launch environment")
    (validate_env "env" (entry_env e)) in
  check? ensure (bool_decide (NoDup (entry_secrets e)) && forallb valid_env_key (entry_secrets e))
    (InvalidConfig name "secrets" "secret names must be unique valid environment keys") in
  check? ensure (forallb (fun kv => negb (mem (fst kv) (entry_secrets e))) (entries (entry_env e)))
    (InvalidConfig name "env" "explicit environment conflicts with a secret name") in
  check? ensure (match inherit_env e with Some names => forallb valid_env_key names | None => true end)
    (InvalidConfig name "inherit_env" "invalid environment key") in
  ensure (forallb (free_of_char nul) (args e)
          && match path e with Some p => is_ok (validate_name "path" p) | None => true end)
    (InvalidConfig name "launch" "invalid executable path or argument").

Definition default_names : list string := ["PATH"; "HOME"; "TMPDIR"; "USER"].

Definition launch_environment (e : ProviderEntry) (ambient : gmap string string) : gmap string string :=
  let names := match inherit_env e with Some names => names | None => default_names end in
  let kept := List.filter (fun n => negb (mem n (entry_secrets e))) names in
  let inherited := foldl (fun acc n =>
    match ambient !! n with Some v => <[n := v]> acc | None => acc end) ∅ kept in
  foldl (fun acc kv => <[fst kv := snd kv]> acc) inherited (entries (entry_env e)).

(** The error [try_new] keeps with an entry. *)
Definition local_error_of (name : string) (e : ProviderEntry) (ambient : gmap string string) :
    option Error :=
  match
    check? validate_entry name e in
    map_err (fun _ => InvalidConfig name "inherit_env" "invalid inherited environment")
      (validate_env "env" (launch_environment e ambient))
  with
  | Ok _ => None
  | Err err => Some err
  end.

(** ** Lemmas *)

Lemma foldl_insert_lookup (l : list (string * string)) (acc : gmap string string) k :
  NoDup (fst <$> l) ->
  foldl (fun acc kv => <[fst kv := snd kv]> acc) acc l !! k =
  match (list_to_map l : gmap string string) !! k with Some v => Some v | None => acc !! k end.
Proof.
  revert acc. induction l as [|[k' v'] l IH]; intros acc Hnd; cbn; [by rewrite lookup_empty|].
  apply NoDup_cons in Hnd as [Hnot Hnd]. rewrite IH by done. cbn. destruct (decide (k = k')) as [->|Hne].
  - rewrite lookup_insert_eq. rewrite not_elem_of_list_to_map_1 by done. by rewrite lookup_insert_eq.
  - by rewrite !lookup_insert_ne.
Qed.

Lemma write_entries (m acc : gmap string string) :
  foldl (fun acc kv => <[fst kv := snd kv]> acc) acc (entries m) = m ∪ acc.
Proof.
  apply map_eq. intros k. rewrite foldl_insert_lookup.
  2:{ unfold entries. rewrite merge_sort_Permutation. apply NoDup_fst_map_to_list. }
  rewrite lookup_union.
  assert ((list_to_map (entries m) : gmap string string) = m) as ->.
  { rewrite <- (list_to_map_to_list m) at 2. apply list_to_map_proper; unfold entries.
    - rewrite merge_sort_Permutation. apply NoDup_fst_map_to_list.
    - apply merge_sort_Permutation. }
  destruct (m !! k), (acc !! k); done.
Qed.

Lemma inherited_lookup (ambient : gmap string string) names (acc : gmap string string) k :
  foldl (fun acc n => match ambient !! n with Some v => <[n := v]> acc | None => acc end) acc names !! k =
  if decide (k ∈ names) then match ambient !! k with Some v => Some v | None => acc !! k end else acc !! k.
Proof.
  revert acc. induction names as [|n names IH]; intros acc; cbn [foldl]; [by rewrite decide_False by (by apply not_elem_of_nil)|].
  rewrite IH. destruct (decide (k = n)) as [->|Hne].
  - rewrite (decide_True (P := n ∈ n :: names)) by (by left).
    destruct (ambient !! n) as [v|] eqn:Ev; [|by destruct (decide (n ∈ names))].
    destruct (decide (n ∈ names)); [done|]. by rewrite lookup_insert_eq.
  - assert ((match ambient !! n with Some v => <[n := v]> acc | None => acc end) !! k = acc !! k) as ->
      by (destruct (ambient !! n); [by rewrite lookup_insert_ne|done]).
    destruct (decide (k ∈ names)) as [Hin|Hout].
    + by rewrite decide_True by (by right).
    + rewrite decide_False; [done|]. by intros [->|?]%elem_of_cons.
Qed.

(** The names an entry inherits. *)
Definition inherits (e : ProviderEntry) (k : string) : Prop :=
  k ∈ match inherit_env e with Some names => names | None => default_names end /\ k ∉ entry_secrets e.

Lemma launch_lookup e ambient k v : launch_environment e ambient !! k = Some v <->
  entry_env e !! k = Some v \/ (entry_env e !! k = None /\ inherits e k /\ ambient !! k = Some v).
Proof.
  unfold launch_environment, inherits. rewrite write_entries, lookup_union, inherited_lookup, lookup_empty.
  set (names := match inherit_env e with Some names => names | None => default_names end).
  assert (k ∈ List.filter (fun n => negb (mem n (entry_secrets e))) names <-> k ∈ names /\ k ∉ entry_secrets e) as Hf.
  { rewrite list_elem_of_In, filter_In, <- list_elem_of_In. unfold mem. by rewrite negb_true_iff, bool_decide_eq_false. }
  destruct (entry_env e !! k) as [w|]; cbn.
  - destruct (decide _) as [|]; [destruct (ambient !! k)|]; cbn; naive_solver.
  - destruct (decide (k ∈ List.filter _ names)) as [Hin|Hout].
    + apply Hf in Hin. destruct (ambient !! k); cbn; naive_solver.
    + rewrite Hf in Hout. cbn. naive_solver.
Qed.

Lemma validate_entry_secrets name e : validate_entry name e = Ok tt ->
  NoDup (entry_secrets e) /\ forall k, k ∈ entry_secrets e -> entry_env e !! k = None.
Proof.
  unfold validate_entry. rewrite !rbind_ok, !ensure_ok, andb_true_iff, bool_decide_eq_true.
  intros (_ & [Hnd _] & He & _). split; [done|]. intros k Hk.
  destruct (entry_env e !! k) as [v|] eqn:Ev; [|done].
  rewrite (forallb_iff _ (fun kv => fst kv ∉ entry_secrets e)), Forall_entries in He.
  2:{ intros kv. unfold mem. by rewrite negb_true_iff, bool_decide_eq_false. }
  by apply He in Ev.
Qed.

Lemma local_checks name e ambient : local_error_of name e ambient = None <->
  validate_entry name e = Ok tt /\ env_ok (launch_environment e ambient).
Proof.
  unfold local_error_of.
  destruct (rbind _ _) as [[]|err] eqn:E.
  - rewrite rbind_ok, map_err_ok, validate_env_ok in E. naive_solver.
  - split; [done|]. intros [Hv He]. exfalso.
    rewrite (proj2 (rbind_ok _ _)) in E; [done|]. by rewrite map_err_ok, validate_env_ok.
Qed.

(** ** Properties *)

(** A launch environment is the entry's own variables, and the ambient value
    of each other inherited name that is not a secret; when the local checks of the
    entry pass, it is a valid environment, no name of a secret is in it, and the
    secret names differ, so that secrets and environment never conflict. *)
Theorem launch_environment_spec name e ambient :
  (forall k v, launch_environment e ambient !! k = Some v <->
     entry_env e !! k = Some v \/ (entry_env e !! k = None /\ inherits e k /\ ambient !! k = Some v)) /\
  (local_error_of name e ambient = None ->
     env_ok (launch_environment e ambient) /\ NoDup (entry_secrets e) /\
     forall k, k ∈ entry_secrets e -> launch_environment e ambient !! k = None).
Proof.
  split; [apply launch_lookup|]. intros [Hv He]%local_checks.
  apply validate_entry_secrets in Hv as [Hnd Hs]. split_and!; [done..|]. intros k Hk.
  destruct (launch_environment e ambient !! k) as [v|] eqn:Ev; [|done].
  apply launch_lookup in Ev as [Ev|(_ & [_ Hn] & _)]; [|done]. by rewrite Hs in Ev.
Qed.

Lemma launch_environment_spec_witness :
  launch_environment (mkEntry "docker" ∅ ["HOME"] None None [] ∅ None)
    {[ "HOME" := "/root"; "PATH" := "/bin" ]} !! "HOME" = None.
Proof.
  refine (proj2 (proj2 (proj2 (launch_environment_spec "d" _ _) _)) "HOME" _).
  - vm_compute. reflexivity.
  - left.
Defined.

(** The written forms of a configuration and what they mean determine each
    other: a network policy and its flat form, a provider entry and its raw form.
    Hence an allow-list mode never loses its list, no other mode carries one, and
    a pinned checksum is never dropped beside development trust. *)
Theorem config_roundtrip raw_policy policy raw entry :
  (network_try_from raw_policy = Ok policy <-> raw_policy = network_into_raw policy) /\
  (entry_try_from raw = Ok entry <-> raw = raw_of_entry entry).
Proof.
  split.
  - split; [|intros ->; apply network_into_try_from].
    destruct raw_policy as [[] []]; cbn; intros E; try done; by injection E as <-.
  - unfold entry_try_from, raw_of_entry. destruct raw as [p c s pa [d|] [] a v i]; cbn; (split; [try done|]);
      try (intros [= <-]; done); destruct entry as [p' c' s' pa' [[]|] a' v' i']; cbn; intros [=]; by subst.
Qed.

(** Registrations: what a registry can be built into. *)
Inductive registered {F} : Registry F -> Prop :=
  | registered_new : registered registry_new
  | registered_plugins r f : registered r -> registered (set_plugins r f)
  | registered_builtin r kind f r' : registered r -> builtin r kind f = Ok r' -> registered r'.

(** However a registry was built, the Host and any entry that names a path or
    a trust are loaded as plugins, never as a built-in; a built-in is never
    replaced. *)
Theorem registry_spec {F} (r : Registry F) e : registered r ->
  (plugin e = "host" \/ path e <> None \/ trust e <> None -> registry_factory r e = plugins r) /\
  (forall kind f r' k g, builtin r kind f = Ok r' -> builtins r !! k = Some g -> builtins r' !! k = Some g).
Proof.
  intros Hr. assert (builtins r !! "host" = None) as Hhost.
  { induction Hr as [|r f _ IH|r kind f r' _ IH Hb]; [apply lookup_empty|done|].
    unfold builtin in Hb. destruct (String.eqb_spec kind "host"); cbn [orb] in Hb; [done|].
    destruct (is_set _); [done|]. injection Hb as <-. cbn. by rewrite lookup_insert_ne. }
  split.
  - unfold registry_factory. intros [Hh|[Hp|Ht]].
    + rewrite Hh, Hhost. by destruct (_ || _).
    + by destruct (path e).
    + destruct (trust e); [|done]. by rewrite orb_true_r.
  - unfold builtin. intros kind f r' k g. destruct (_ || _) eqn:E; [done|]. intros [= <-] Hk. cbn.
    apply orb_false_iff in E as [_ E]. rewrite lookup_insert_ne; [done|]. intros ->. by rewrite Hk in E.
Qed.

Lemma registry_spec_witness :
  registry_factory (mkRegistry {[ "docker" := 1 ]} (Some 2)) (mkEntry "host" ∅ [] None None [] ∅ None) = Some 2.
Proof.
  apply (proj1 (registry_spec (mkRegistry {[ "docker" := 1 ]} (Some 2)) (mkEntry "host" ∅ [] None None [] ∅ None)
    (registered_builtin (set_plugins registry_new 2) "docker" 1 _ (registered_plugins _ 2 registered_new) eq_refl))).
  left. reflexivity.
Defined.
