(* ===== verification/Catalog.v ===== *)
(** * The provider catalog

    Models [crates/sandbox-driver/src/contract/catalog.rs]: entries, lazy
    activation, admission, routing by reference, inventory, shutdown and the
    sandbox builder. What lies outside — factories, runtimes, the secret store
    and the environment store — is the interface [Outside]: each call is answered
    as a function of all calls made before it, or not before a deadline; every
    call and its answer is logged in [log], newest first. An operation runs from
    its start to its end; [Race] interleaves activation with shutdown. The timeout
    of an inventory is a call that is not answered in time. The lemmas say what an
    operation leaves in place and which calls it adds; [CatalogSpec] has the properties. *)

From S2P Require Import Prelude Text Ids Units Contract Config.

#[local] Open Scope string_scope.
#[local] Open Scope list_scope.
#[local] Open Scope Z_scope.

Record PluginLocation := mkLocation {
  loc_kind : string; loc_path : option string; loc_trust : option PluginTrust }.

Record Activation := mkActivation {
  act_name : string;
  act_entry : ProviderEntry;
  act_schemas : ProviderSchemas;
  act_environment : gmap string string;
  act_secrets : gmap string string;
}.

Record WorkloadAdmission := mkAdmission { adm_spec : SandboxSpec; adm_credentials : gmap string string }.

Record Health := mkHealth { healthy : bool; health_message : option string }.

(** The answer of an awaited call, if it comes in time. *)
Inductive reply (A : Type) := Answered (r : result A Error) | Unanswered.
Arguments Answered {A} r.
Arguments Unanswered {A}.

(** A call that leaves the catalog, with its answer. [R] is the type of runtimes
    and [B] that of sandbox handles. *)
Inductive Event (R B : Type) :=
  | EvDiscover (l : PluginLocation) (a : reply ProviderSchemas)
  | EvActivate (x : Activation) (a : reply R)
  | EvDescribe (r : R) (a : reply Descriptor)
  | EvHealth (r : R) (a : reply Health)
  | EvCreate (r : R) (x : WorkloadAdmission) (a : reply B)
  | EvAttach (r : R) (id : string) (a : reply B)
  | EvList (r : R) (f : gmap string string) (a : reply (list SandboxSummary))
  | EvDestroy (r : R) (id : string) (a : reply unit)
  | EvShutdown (r : R) (a : reply unit)
  | EvResolve (name : string) (a : reply (option string))
  | EvNames (a : reply (list string))
  | EvGet (name : string) (a : reply (option Environment)).
Arguments EvDiscover {R B}.
Arguments EvActivate {R B}.
Arguments EvDescribe {R B}.
Arguments EvHealth {R B}.
Arguments EvCreate {R B}.
Arguments EvAttach {R B}.
Arguments EvList {R B}.
Arguments EvDestroy {R B}.
Arguments EvShutdown {R B}.
Arguments EvResolve {R B}.
Arguments EvNames {R B}.
Arguments EvGet {R B}.

(** The traits [ProviderFactory], [ProviderRuntime], [SecretResolver],
    [EnvironmentSource] and [Sandbox]. *)
Class Outside (F R B : Type) := {
  discover : list (Event R B) -> F -> PluginLocation -> reply ProviderSchemas;
  activate : list (Event R B) -> F -> Activation -> reply R;
  describe : list (Event R B) -> R -> reply Descriptor;
  rt_health : list (Event R B) -> R -> reply Health;
  rt_create : list (Event R B) -> R -> WorkloadAdmission -> reply B;
  rt_attach : list (Event R B) -> R -> string -> reply B;
  rt_list : list (Event R B) -> R -> gmap string string -> reply (list SandboxSummary);
  rt_destroy : list (Event R B) -> R -> string -> reply unit;
  rt_shutdown : list (Event R B) -> R -> reply unit;
  resolve : list (Event R B) -> string -> reply (option string);
  source_names : list (Event R B) -> reply (list string);
  source_get : list (Event R B) -> string -> reply (option Environment);
  reference_of : B -> SandboxRef;
}.

Section Catalog.
Context {F R B V : Type} `{SchemaEngine V} `{Outside F R B} (debug_str : string -> string).

Record Active := mkActive { runtime : R; active_schemas : Schemas (V := V); descriptor : Descriptor }.

Record Entry := mkCatalogEntry {
  entry_name : string;
  entry_config : ProviderEntry;
  environment_of : gmap string string;
  factory : option F;
  local_error : option Error;
}.

(** What changes: the activated entries, the closed flag, the shutdown result,
    and the log. *)
Record State := mkState {
  actives : gmap string Active;
  closed : bool;
  shutdown_result : option (result unit Error);
  log : list (Event R B);
}.

Definition initial : State := mkState ∅ false None [].

Definition with_log (st : State) (e : Event R B) : State :=
  mkState (actives st) (closed st) (shutdown_result st) (e :: log st).

Definition with_active (st : State) (name : string) (a : Active) : State :=
  mkState (<[name := a]> (actives st)) (closed st) (shutdown_result st) (log st).

(** *** The monad of operations *)

Definition Op (A : Type) : Type := State -> reply A * State.

Definition ret {A} (a : A) : Op A := fun st => (Answered (Ok a), st).
Definition throw {A} (e : Error) : Op A := fun st => (Answered (Err e), st).
Definition lift {A} (r : result A Error) : Op A := fun st => (Answered r, st).

Definition bind {A C} (m : Op A) (k : A -> Op C) : Op C :=
  fun st =>
    match m st with
    | (Answered (Ok a), st) => k a st
    | (Answered (Err e), st) => (Answered (Err e), st)
    | (Unanswered, st) => (Unanswered, st)
    end.

Notation "'let!' x ':=' m 'in' k" := (bind m (fun x => k))
  (at level 10, x pattern, m at level 100, k at level 200).
Notation "'do!' m 'in' k" := (bind m (fun _ => k))
  (at level 10, m at level 100, k at level 200).

(** A call to the outside, logged with its answer. *)
Definition call {A} (ask : list (Event R B) -> reply A) (ev : reply A -> Event R B) : Op A :=
  fun st => let a := ask (log st) in (a, with_log st (ev a)).

Definition transport_failed (message : string) : Error := TransportFailed message OutcomeUnknown.
Definition unavailable (message : string) (outcome : MutationOutcome) : Error := Unavailable message outcome.

(** *** Activation *)

Definition ensure_open : Op unit :=
  fun st => if closed st then throw (Stale NotStarted) st else ret tt st.

Fixpoint resolve_into (entry : string) (names : list string) (values : gmap string string) :
    Op (gmap string string) :=
  match names with
  | [] => ret values
  | name :: names =>
      match values !! name with
      | Some _ => resolve_into entry names values
      | None =>
          let! answer := call (fun l => resolve l name) (EvResolve name) in
          let! value := lift (ok_or answer (MissingSecret entry name)) in
          do! lift (ensure (free_of_char nul value)
                      (InvalidConfig entry "secrets" "secret value contains NUL")) in
          resolve_into entry names (<[name := value]> values)
      end
  end.

Definition resolve_secrets (e : Entry) (names : list string) : Op (gmap string string) :=
  resolve_into (entry_name e) names ∅.

(** The metadata of an entry's plugin, checked against its configuration. *)
Definition discovered (e : Entry) (f : F) : Op (ProviderSchemas * Schemas) :=
  let cfg := entry_config e in
  let location := mkLocation (plugin cfg) (path cfg) (trust cfg) in
  let! metadata := call (fun l => discover l f location) (EvDiscover location) in
  do! lift (ensure (String.eqb (sch_kind metadata) (plugin cfg))
              (InvalidConfig (entry_name e) "plugin" "metadata kind differs from configured plugin")) in
  let! compiled := lift (schemas_compile (entry_name e) metadata) in
  do! lift (check_config compiled (entry_name e) (config cfg)) in
  do! lift (each (fun n => ensure (mem n (entry_secrets cfg)) (MissingSecret (entry_name e) n))
              (secrets metadata)) in
  ret (metadata, compiled).

Definition schemas_eqb (a b : ProviderSchemas) : bool :=
  String.eqb (sch_kind a) (sch_kind b) && String.eqb (version a) (version b)
  && bool_decide (config_schema a = config_schema b) && bool_decide (spec_schema a = spec_schema b)
  && bool_decide (secrets a = secrets b).

Definition namespace_eqb (a b : Namespace) : bool :=
  String.eqb (ns_id a) (ns_id b) && bool_decide (ns_scope a = ns_scope b).

Definition checked_descriptor (e : Entry) (r : R) (metadata : ProviderSchemas) : Op Descriptor :=
  let! d := call (fun l => describe l r) (EvDescribe r) in
  if schemas_eqb (schemas d) metadata then ret d
  else throw (InvalidConfig (entry_name e) "schemas" "runtime metadata disagrees with discovery").

(** What [active] does for an entry that is not active yet. *)
Definition activation (e : Entry) : Op Active :=
  do! match local_error e with Some err => throw err | None => ret tt end in
  let! f := lift (ok_or (factory e) (unavailable "provider adapter is not installed" NotStarted)) in
  let! (metadata, compiled) := discovered e f in
  let! values := resolve_secrets e (entry_secrets (entry_config e)) in
  let x := mkActivation (entry_name e) (entry_config e) metadata (environment_of e) values in
  let! r := call (fun l => activate l f x) (EvActivate x) in
  fun st =>
    match checked_descriptor e r metadata st with
    | (Answered (Ok d), st) =>
        let a := mkActive r compiled d in
        (Answered (Ok a), with_active st (entry_name e) a)
    | (Answered (Err err), st) =>
        (do! call (fun l => rt_shutdown l r) (EvShutdown r) in throw err) st
    | (Unanswered, st) => (Unanswered, st)
    end.

Definition active (e : Entry) : Op Active :=
  do! ensure_open in
  do! ensure_open in
  fun st =>
    match actives st !! entry_name e with
    | Some a => ret a st
    | None => activation e st
    end.

(** *** Handle operations *)

Definition ready (e : Entry) : Op (Active * Descriptor) :=
  let! a := active e in
  do! ensure_open in
  let! d := call (fun l => describe l (runtime a)) (EvDescribe (runtime a)) in
  if negb (schemas_eqb (schemas d) (schemas (descriptor a)))
  then throw (transport_failed "runtime metadata changed after activation")
  else if negb (namespace_eqb (namespace d) (namespace (descriptor a)))
  then throw (NamespaceMismatch (ns_id (namespace (descriptor a))) (ns_id (namespace d)))
  else ret (a, d).

Definition admit_spec (e : Entry) (spec : SandboxSpec) : Op (Active * Descriptor) :=
  do! lift (validate debug_str spec) in
  let! (a, d) := ready e in
  do! lift (validate_for debug_str spec d) in
  do! lift (check_spec (active_schemas a) (provider_config spec)) in
  ret (a, d).

Definition handle_describe (e : Entry) : Op Descriptor := let! (_, d) := ready e in ret d.

Definition handle_validate_spec (e : Entry) (spec : SandboxSpec) : Op unit := do! admit_spec e spec in ret tt.

Definition handle_health (e : Entry) : Op Health :=
  let! a := active e in call (fun l => rt_health l (runtime a)) (EvHealth (runtime a)).

Fixpoint unique_summaries (e : Entry) (d : Descriptor) (filter : gmap string string)
    (matches : list SandboxSummary) (unique : gmap string SandboxSummary) :
    result (gmap string SandboxSummary) Error :=
  match matches with
  | [] => Ok unique
  | s :: rest =>
      guard? String.eqb (provider (reference s)) (entry_name e)
             && String.eqb (ref_namespace (reference s)) (ns_id (namespace d))
             && filter_matches filter (sum_labels s)
      else transport_failed "inventory returned a mismatched reference or labels" in
      match unique !! ref_id (reference s) with
      | None => unique_summaries e d filter rest (<[ref_id (reference s) := s]> unique)
      | Some s' =>
          guard? bool_decide (s' = s)
          else transport_failed "inventory returned conflicting duplicate references" in
          unique_summaries e d filter rest unique
      end
  end.

Definition handle_list (e : Entry) (filter : gmap string string) : Op (list SandboxSummary) :=
  let! (a, d) := ready e in
  let! matches := call (fun l => rt_list l (runtime a) filter) (EvList (runtime a) filter) in
  let! unique := lift (unique_summaries e d filter matches ∅) in
  ret (snd <$> entries unique).

(** *** The catalog *)

(** What a catalog is built with and never changes. *)
Record Catalog := mkCatalog { entries_of : gmap string Entry }.

(** [try_new]: local checks only. *)
Fixpoint try_entries (registry : Registry F) (ambient : gmap string string)
    (providers : list (string * ProviderEntry)) (acc : gmap string Entry) : result (gmap string Entry) Error :=
  match providers with
  | [] => Ok acc
  | (n, cfg) :: rest =>
      guard? negb (is_set (acc !! n))
      else InvalidConfig n "provider" "duplicate provider entry" in
      let e := mkCatalogEntry n cfg (launch_environment cfg ambient) (registry_factory registry cfg)
                 (local_error_of n cfg ambient) in
      try_entries registry ambient rest (<[n := e]> acc)
  end.

Definition try_new (registry : Registry F) (ambient : gmap string string)
    (providers : list (string * ProviderEntry)) : result Catalog Error :=
  let? m := try_entries registry ambient providers ∅ in Ok (mkCatalog m).

Section Operations.
Context (catalog : Catalog).

Definition providers : list string := fst <$> entries (entries_of catalog).

Definition handle (name : string) : result Entry Error :=
  ok_or (entries_of catalog !! name) (NoProvider name).

Definition provider_named (name : string) : result Entry Error :=
  let? n := map_err (fun _ => InvalidSpec "provider" "invalid provider entry name")
              (try_new_provider_name name) in
  handle n.

Definition environment (name : string) : Op Environment :=
  let! validated := lift (map_err (fun _ => InvalidSpec "environment" "invalid environment name")
                       (try_new_environment_name name)) in
  let! found := call (fun l => source_get l name) (EvGet name) in
  lift (ok_or found (NoEnvironment validated)).

Record CatalogDiagnostic := mkDiagnostic {
  diag_environment : option string; diag_entry : string; diag_error : Error }.

Fixpoint environment_diagnostics (names : list string) : Op (list CatalogDiagnostic) :=
  match names with
  | [] => ret []
  | n :: names =>
      let! found := call (fun l => source_get l n) (EvGet n) in
      let! rest := environment_diagnostics names in
      ret (match found with
           | Some env =>
               if is_set (entries_of catalog !! env_provider env) then rest
               else mkDiagnostic (Some n) (env_provider env) (NoProvider (env_provider env)) :: rest
           | None => rest
           end)
  end.

Definition diagnostics : Op (list CatalogDiagnostic) :=
  let local := omap (fun kv =>
    match local_error (snd kv) with
    | Some err => Some (mkDiagnostic None (entry_name (snd kv)) err)
    | None => None
    end) (entries (entries_of catalog)) in
  let! names := call source_names EvNames in
  let! rest := environment_diagnostics names in
  ret (local ++ rest).

Definition route (r : SandboxRef) : Op Active :=
  let! e := lift (handle (provider r)) in
  let! (a, d) := ready e in
  do! lift (check_namespace r (ns_id (namespace d))) in
  ret a.

Definition attach (r : SandboxRef) : Op B :=
  let! a := route r in
  let! sandbox := call (fun l => rt_attach l (runtime a) (ref_id r)) (EvAttach (runtime a) (ref_id r)) in
  if bool_decide (reference_of sandbox = r) then ret sandbox
  else throw (transport_failed "attach returned a different sandbox reference").

Definition destroy (r : SandboxRef) : Op unit :=
  let! a := route r in
  call (fun l => rt_destroy l (runtime a) (ref_id r)) (EvDestroy (runtime a) (ref_id r)).

(** *** Inventory *)

Record ProviderFailure := mkFailure { fail_entry : string; fail_error : Error }.

Record Found := mkFound {
  sandboxes : list SandboxSummary;
  unavailable_entries : list string;
  failures : list ProviderFailure;
}.

(** [time::timeout] around an operation. *)
Definition timeout {A} (m : Op A) (e : Error) : Op A :=
  fun st => match m st with (Unanswered, st) => (Answered (Err e), st) | p => p end.

(** The inventories of the entries in the order in which they are taken. *)
Fixpoint collect (order : list (string * Entry)) (filter : gmap string string) (st : State) :
    list (string * reply (list SandboxSummary)) * State :=
  match order with
  | [] => ([], st)
  | (n, e) :: order =>
      let (r, st) := timeout (handle_list e filter)
        (unavailable "inventory deadline elapsed" NotStarted) st in
      let (rs, st) := collect order filter st in
      ((entry_name e, r) :: rs, st)
  end.

Fixpoint assemble (results : list (string * reply (list SandboxSummary))) (found : Found) : Found :=
  match results with
  | [] => found
  | (entry, r) :: results =>
      assemble results
        match r with
        | Answered (Ok matches) =>
            mkFound (sandboxes found ++ matches) (unavailable_entries found) (failures found)
        | Answered (Err err) =>
            mkFound (sandboxes found) (unavailable_entries found ++ [entry])
              (failures found ++ [mkFailure entry err])
        | Unanswered => found
        end
  end.

(** [find], the inventories being taken in some [order] of the entries. *)
Definition find (order : list (string * Entry)) (filter : gmap string string) : Op Found :=
  do! ensure_open in
  fun st =>
    let (results, st) := collect order filter st in
    ret (assemble (merge_sort key_le results) (mkFound [] [] [])) st.

(** *** Shutdown *)

Fixpoint shutdown_all (l : list (string * Entry)) (st : State) : list (reply unit) * State :=
  match l with
  | [] => ([], st)
  | (_, e) :: l =>
      let (r, st) := match actives st !! entry_name e with
                     | Some a => call (fun l => rt_shutdown l (runtime a)) (EvShutdown (runtime a)) st
                     | None => ret tt st
                     end in
      let (rs, st) := shutdown_all l st in
      (r :: rs, st)
  end.

(** Collecting results keeps the first error; the join of the calls is answered
    when all are. *)
Fixpoint first_error (rs : list (reply unit)) : result unit Error :=
  match rs with
  | [] => Ok tt
  | Answered (Err e) :: _ => Err e
  | _ :: rs => first_error rs
  end.

Definition all_answered (rs : list (reply unit)) : bool :=
  forallb (fun r => match r with Answered _ => true | Unanswered => false end) rs.

Definition shutdown : Op unit :=
  fun st =>
    let st := mkState (actives st) true (shutdown_result st) (log st) in
    match shutdown_result st with
    | Some r => (Answered r, st)
    | None =>
        let (rs, st) := shutdown_all (entries (entries_of catalog)) st in
        if all_answered rs then
          let r := first_error rs in
          (Answered r, mkState (actives st) (closed st) (Some r) (log st))
        else (Unanswered, st)
    end.

(** *** The builder *)

Record SandboxBuilder := mkBuilder {
  builder_provider : Entry;
  builder_spec : SandboxSpec;
  builder_error : option Error;
}.

(** The builder's own operations. *)
Definition on_spec (b : SandboxBuilder) (f : SandboxSpec -> SandboxSpec) : SandboxBuilder :=
  mkBuilder (builder_provider b) (f (builder_spec b)) (builder_error b).

Definition build_spec (b : SandboxBuilder) (s : SandboxSpec) : SandboxBuilder := on_spec b (fun _ => s).
Definition build_image (b : SandboxBuilder) (image : string) : SandboxBuilder :=
  on_spec b (fun s => set_source s (SImage image)).
Definition build_dockerfile (b : SandboxBuilder) (dockerfile : string) : SandboxBuilder :=
  on_spec b (fun s => set_source s (SDockerfile dockerfile)).
Definition build_label (b : SandboxBuilder) (key value : string) : SandboxBuilder :=
  on_spec b (fun s => set_labels s (<[key := value]> (labels s))).
Definition build_env (b : SandboxBuilder) (key value : string) : SandboxBuilder :=
  on_spec b (fun s => set_env s (<[key := value]> (env s))).
Definition build_working_directory (b : SandboxBuilder) (path : string) : SandboxBuilder :=
  on_spec b (fun s => set_working_directory s (Some path)).
Definition build_user (b : SandboxBuilder) (user : string) : SandboxBuilder :=
  on_spec b (fun s => set_user s (Some user)).
Definition build_network (b : SandboxBuilder) (n : NetworkPolicy) : SandboxBuilder :=
  on_spec b (fun s => set_network s n).
Definition build_timers (b : SandboxBuilder) (t : Timers) : SandboxBuilder :=
  on_spec b (fun s => set_timers s t).
Definition build_cpu (b : SandboxBuilder) (cores : Z) : SandboxBuilder :=
  on_spec b (fun s => let r := resources s in
    set_resources s (mkResources (Some cores) (memory_mb r) (disk_mb r) (gpus r))).

(** [size]: a positive size, or the first invalid one kept as the error. *)
Definition build_size (b : SandboxBuilder) (path value : string) : option Z * SandboxBuilder :=
  let size := match parse_size_mib value with
              | Ok n => if n =? 0 then None else Some n
              | Err _ => None
              end in
  let error := match size, builder_error b with
               | None, None => Some (InvalidSpec path "requires a positive size with units")
               | _, err => err
               end in
  (size, mkBuilder (builder_provider b) (builder_spec b) error).

Definition build_memory (b : SandboxBuilder) (value : string) : SandboxBuilder :=
  match build_size b "resources.memory" value with
  | (Some n, b) => on_spec b (fun s => let r := resources s in
      set_resources s (mkResources (cpu_cores r) (Some n) (disk_mb r) (gpus r)))
  | (None, b) => b
  end.

Definition build_disk (b : SandboxBuilder) (value : string) : SandboxBuilder :=
  match build_size b "resources.disk" value with
  | (Some n, b) => on_spec b (fun s => let r := resources s in
      set_resources s (mkResources (cpu_cores r) (memory_mb r) (Some n) (gpus r)))
  | (None, b) => b
  end.

(** [provider_config]: later keys win. *)
Definition build_provider_config (b : SandboxBuilder) (values : gmap string json) : SandboxBuilder :=
  on_spec b (fun s => set_provider_config s (values ∪ provider_config s)).

Definition builder (name : string) : Op SandboxBuilder :=
  let! env := environment name in
  let! e := lift (handle (env_provider env)) in
  ret (mkBuilder e (env_spec env) None).

Definition service_credentials (spec : SandboxSpec) : list string :=
  omap (fun kv => svc_credential (snd kv)) (entries (services spec)).

Definition create (b : SandboxBuilder) : Op B :=
  match builder_error b with
  | Some err => throw err
  | None =>
      let e := builder_provider b in
      let! (a, d) := admit_spec e (builder_spec b) in
      let! credentials := resolve_secrets e (service_credentials (builder_spec b)) in
      let x := mkAdmission (builder_spec b) credentials in
      let! sandbox := call (fun l => rt_create l (runtime a) x) (EvCreate (runtime a) x) in
      let r := reference_of sandbox in
      if String.eqb (provider r) (entry_name e) && String.eqb (ref_namespace r) (ns_id (namespace d))
      then ret sandbox
      else throw (transport_failed
        "create returned a mismatched provider or namespace; outcome is unknown")
  end.

End Operations.
End Catalog.

(** ** Reading an operation's run *)

Section Runs.
Context {F R B V : Type} `{SchemaEngine V} `{Outside F R B}.

Notation State := (State (R := R) (B := B) (V := V)).
Notation Op := (Op (R := R) (B := B) (V := V)).

Lemma bind_inv {A C} (m : Op A) (k : A -> Op C) st r st' : bind m k st = (r, st') ->
  (exists a st1, m st = (Answered (Ok a), st1) /\ k a st1 = (r, st')) \/
  (exists e, m st = (Answered (Err e), st') /\ r = Answered (Err e)) \/
  (m st = (Unanswered, st') /\ r = Unanswered).
Proof. unfold bind. destruct (m st) as [[[a|e]|] s]; intros E; [eauto|injection E as <- <-; eauto..]. Qed.

Lemma bind_ok {A C} (m : Op A) (k : A -> Op C) st c st' : bind m k st = (Answered (Ok c), st') ->
  exists a st1, m st = (Answered (Ok a), st1) /\ k a st1 = (Answered (Ok c), st').
Proof. intros [?|[(? & _ & [=])|[_ [=]]]]%bind_inv. done. Qed.

Lemma lift_ok {A} (r : result A Error) st (a : A) (st' : State) : lift r st = (Answered (Ok a), st') -> r = Ok a /\ st' = st.
Proof. unfold lift. by intros [= -> ->]. Qed.

Lemma call_ok {A} ask (ev : reply A -> Event R B) (st : State) r st' : call ask ev st = (r, st') ->
  r = ask (log st) /\ st' = with_log st (ev r).
Proof. unfold call. by intros [= <- <-]. Qed.

(** A relation between the state an operation starts from and the one it leaves
    is established piece by piece. *)
Definition tracks {A} (Rel : State -> State -> Prop) (m : Op A) : Prop := forall st, Rel st (snd (m st)).

Lemma tracks_run {A} Rel (m : Op A) st r st' : tracks Rel m -> m st = (r, st') -> Rel st st'.
Proof. intros Hm E. specialize (Hm st). by rewrite E in Hm. Qed.

Section Tracks.
Context (Rel : State -> State -> Prop) `{!PreOrder Rel}.

Lemma tracks_lift {A} (r : result A Error) : tracks Rel (lift r).
Proof. by intros st. Qed.

Lemma tracks_ret {A} (a : A) : tracks Rel (ret a).
Proof. by intros st. Qed.

Lemma tracks_throw {A} e : tracks Rel (throw (A := A) e).
Proof. by intros st. Qed.

Lemma tracks_ensure_open : tracks Rel ensure_open.
Proof. intros st. unfold ensure_open. by destruct (closed st). Qed.

Lemma tracks_call {A} ask (ev : reply A -> Event R B) :
  (forall st a, Rel st (with_log st (ev a))) -> tracks Rel (call ask ev).
Proof. intros Hev st. apply Hev. Qed.

Lemma tracks_bind {A C} (m : Op A) (k : A -> Op C) :
  tracks Rel m -> (forall a, tracks Rel (k a)) -> tracks Rel (bind m k).
Proof.
  intros Hm Hk st. unfold bind. pose proof (Hm st) as Hst. destruct (m st) as [[[a|e]|] st']; [|done..].
  etrans; [exact Hst|apply Hk].
Qed.

Lemma tracks_if {A} (b : bool) (m n : Op A) : tracks Rel m -> tracks Rel n -> tracks Rel (if b then m else n).
Proof. by destruct b. Qed.

End Tracks.

(** What a run leaves in place, and the calls it adds. *)
Definition grows (P : Event R B -> Prop) (st st' : State) : Prop :=
  actives st' = actives st /\ closed st' = closed st /\ shutdown_result st' = shutdown_result st /\
  exists new, log st' = new ++ log st /\ Forall P new.

#[export] Instance grows_preorder P : PreOrder (grows P).
Proof.
  split.
  - intros st. split_and!; [done..|]. by exists [].
  - intros s1 s2 s3 (HA & HB & HC & n1 & E1 & F1) (HA' & HB' & HC' & n2 & E2 & F2).
    split_and!; try congruence. exists (n2 ++ n1). split; [by rewrite E2, E1, app_assoc|]. by apply Forall_app.
Qed.

Lemma grows_log (P : Event R B -> Prop) st ev : P ev -> grows P st (with_log st ev).
Proof. intros Hev. split_and!; [done..|]. exists [ev]. split; [done|]. by constructor. Qed.

Lemma grows_mono (P Q : Event R B -> Prop) st st' : (forall ev, P ev -> Q ev) -> grows P st st' -> grows Q st st'.
Proof.
  intros HPQ (HA & HB & HC & new & E & HF). split_and!; [done..|]. exists new. split; [done|].
  by eapply Forall_impl.
Qed.

(** The same, where an entry may have been activated. *)
Definition adds (P : Event R B -> Prop) (st st' : State) : Prop :=
  actives st ⊆ actives st' /\ closed st' = closed st /\ shutdown_result st' = shutdown_result st /\
  exists new, log st' = new ++ log st /\ Forall P new.

#[export] Instance adds_preorder P : PreOrder (adds P).
Proof.
  split.
  - intros st. split_and!; [done..|]. by exists [].
  - intros s1 s2 s3 (HA & HB & HC & n1 & E1 & F1) (HA' & HB' & HC' & n2 & E2 & F2).
    split_and!; try congruence; [by etrans|]. exists (n2 ++ n1). split; [by rewrite E2, E1, app_assoc|].
    by apply Forall_app.
Qed.

Lemma grows_adds P st st' : grows P st st' -> adds P st st'.
Proof. intros (HA & HB & HC & HD). split_and!; [by rewrite HA|done..]. Qed.

(** *** Secrets *)

Lemma resolve_into_ok entry names values (st : State) vals (st' : State) :
  resolve_into entry names values st = (Answered (Ok vals), st') ->
  exists new, log st' = new ++ log st /\ values ⊆ vals /\
    (forall n, n ∈ names -> is_Some (vals !! n)) /\
    (forall n v, vals !! n = Some v -> values !! n = Some v \/
       (n ∈ names /\ without nul v /\ EvResolve n (Answered (Ok (Some v))) ∈ new)).
Proof.
  revert values st. induction names as [|n names IH]; intros values st; cbn [resolve_into].
  { intros [= <- <-]. exists []. split_and!; [done..| |auto]. intros n Hn. by apply not_elem_of_nil in Hn. }
  destruct (values !! n) as [v|] eqn:Ev.
  - intros (new & E & Hsub & Hall & Hfrom)%IH. exists new. split_and!; [done..| |].
    + intros n' [->|Hn]%elem_of_cons; [|auto]. exists v. by eapply lookup_weaken.
    + intros n' v' [?|(? & ? & ?)]%Hfrom; [auto|]. right. split_and!; [by right|done..].
  - intros (ans & st1 & [Ha ->]%call_ok & E)%bind_ok. apply bind_ok in E as (v & st2 & [Hv ->]%lift_ok & E).
    apply bind_ok in E as ([] & st3 & [Hn ->]%lift_ok & E).
    destruct ans as [v'|]; [|done]. injection Hv as ->. rewrite ensure_ok, free_of_char_spec in Hn.
    apply IH in E as (new & E & Hsub & Hall & Hfrom).
    exists (new ++ [EvResolve n (Answered (Ok (Some v)))]). split_and!.
    + by rewrite E, <- app_assoc.
    + etrans; [by apply insert_subseteq|done].
    + intros n' [->|Hn']%elem_of_cons; [|auto]. exists v. eapply lookup_weaken; [|done]. by rewrite lookup_insert_eq.
    + intros n' v' [Hv'|(? & ? & ?)]%Hfrom.
      * destruct (decide (n' = n)) as [->|Hne].
        -- rewrite lookup_insert_eq in Hv'. injection Hv' as <-. right. split_and!; [by left|done|].
           apply elem_of_app. right. by apply list_elem_of_singleton.
        -- rewrite lookup_insert_ne in Hv' by done. auto.
      * right. split_and!; [by right|done|]. apply elem_of_app. auto.
Qed.

End Runs.

(** Follows an operation through its binds and leaves the calls. *)
Ltac track :=
  intros;
  first [ apply tracks_lift; tc_solve | apply tracks_ret; tc_solve | apply tracks_throw; tc_solve
        | apply tracks_ensure_open; tc_solve
        | apply tracks_bind; [tc_solve|track|track] | apply tracks_if; track
        | solve [auto] | idtac ].

Section Activation.
Context {F R B V : Type} `{SchemaEngine V} `{Outside F R B}.

Notation State := (State (R := R) (B := B) (V := V)).
Notation Op := (Op (R := R) (B := B) (V := V)).
Notation Entry := (Entry (F := F)).
Notation Event := (Event R B).

(** Calls that start no runtime and end none. *)
Definition quiet (ev : Event) : Prop :=
  match ev with
  | EvDiscover _ _ | EvDescribe _ _ | EvResolve _ _ => True
  | EvActivate _ (Answered (Ok _)) => False
  | EvActivate _ _ => True
  | _ => False
  end.

(** Calls that prepare an entry for an operation. *)
Definition prep (ev : Event) : Prop :=
  match ev with
  | EvDiscover _ _ | EvActivate _ _ | EvDescribe _ _ | EvResolve _ _ | EvShutdown _ _ => True
  | _ => False
  end.

Lemma quiet_prep ev : quiet ev -> prep ev.
Proof. destruct ev as [| ? []| | | | | | | | | |]; cbn; done. Qed.

Section Quiet.
Context (Rel : State -> State -> Prop) `{!PreOrder Rel} (Hlog : forall st ev, quiet ev -> Rel st (with_log st ev)).

Lemma tracks_quiet_call {A} ask (ev : reply A -> Event) : (forall a, quiet (ev a)) -> tracks Rel (call ask ev).
Proof. intros Hev. apply tracks_call. intros st a. apply Hlog, Hev. Qed.

Lemma tracks_resolve_into entry names values : tracks Rel (resolve_into entry names values).
Proof.
  revert values. induction names as [|n names IH]; intros values; cbn [resolve_into]; [track|].
  destruct (values !! n); [done|]. apply tracks_bind; [done|by apply tracks_quiet_call|track].
Qed.

Lemma tracks_resolve_secrets (e : Entry) names : tracks Rel (resolve_secrets e names).
Proof. apply tracks_resolve_into. Qed.

Lemma tracks_discovered (e : Entry) f : tracks Rel (discovered e f).
Proof. apply tracks_bind; [done|by apply tracks_quiet_call|track]. Qed.

Lemma tracks_checked_descriptor (e : Entry) r metadata : tracks Rel (checked_descriptor e r metadata).
Proof. apply tracks_bind; [done|by apply tracks_quiet_call|track]. Qed.

End Quiet.

Lemma schemas_eqb_spec a b : schemas_eqb a b = true <-> a = b.
Proof.
  unfold schemas_eqb. rewrite !andb_true_iff, !String.eqb_eq, !bool_decide_eq_true.
  destruct a, b; cbn. split; [by intros [[[[-> ->] ->] ->] ->]|intros [= -> -> -> -> ->]; done].
Qed.

Lemma namespace_eqb_spec a b : namespace_eqb a b = true <-> a = b.
Proof.
  unfold namespace_eqb. rewrite andb_true_iff, String.eqb_eq, bool_decide_eq_true.
  destruct a, b; cbn. split; [by intros [-> ->]|intros [= -> ->]; done].
Qed.

(** What discovery of an entry's plugin established. *)
Record metadata_ok (e : Entry) (metadata : ProviderSchemas) (compiled : Schemas (V := V)) : Prop := {
  metadata_kind : sch_kind metadata = plugin (entry_config e);
  metadata_compiles : schemas_compile (entry_name e) metadata = Ok compiled;
  metadata_config : check_config compiled (entry_name e) (config (entry_config e)) = Ok tt;
  metadata_secrets : Forall (fun n => n ∈ entry_secrets (entry_config e)) (secrets metadata);
}.

Lemma discovered_ok (e : Entry) f (st : State) metadata compiled st' :
  discovered e f st = (Answered (Ok (metadata, compiled)), st') -> metadata_ok e metadata compiled.
Proof.
  intros (m & st1 & _ & E)%bind_ok. apply bind_ok in E as ([] & st2 & [Hk ->]%lift_ok & E).
  apply bind_ok in E as (c & st3 & [Hc ->]%lift_ok & E). apply bind_ok in E as ([] & st4 & [Hcfg ->]%lift_ok & E).
  apply bind_ok in E as ([] & st5 & [Hs ->]%lift_ok & E). injection E as <- <- _.
  rewrite ensure_ok, String.eqb_eq in Hk. apply each_ok in Hs. split; [done..|].
  eapply Forall_impl; [exact Hs|]. intros n Hn. rewrite ensure_ok in Hn. by apply bool_decide_eq_true in Hn.
Qed.

(** The request a factory is activated with. *)
Record request_ok (e : Entry) (x : Activation) : Prop := {
  request_name : act_name x = entry_name e;
  request_entry : act_entry x = entry_config e;
  request_environment : act_environment x = environment_of e;
  request_secrets n : is_Some (act_secrets x !! n) <-> n ∈ entry_secrets (entry_config e);
  request_nul : map_Forall (fun _ v => without nul v) (act_secrets x);
}.

(** Activation either stops before a runtime exists, or has one and describes it. *)
Lemma activation_cases (e : Entry) (st : State) :
  (exists r st1, activation e st = (r, st1) /\ (forall a, r <> Answered (Ok a)) /\ grows quiet st st1) \/
  (exists st1 x r compiled,
     local_error e = None /\ request_ok e x /\ metadata_ok e (act_schemas x) compiled /\ grows quiet st st1 /\
     activation e st =
       match checked_descriptor e r (act_schemas x) (with_log st1 (EvActivate x (Answered (Ok r)))) with
       | (Answered (Ok d), st2) =>
           let a := mkActive r compiled d in (Answered (Ok a), with_active st2 (entry_name e) a)
       | (Answered (Err err), st2) =>
           (bind (call (fun l => rt_shutdown l r) (EvShutdown r)) (fun _ => throw err)) st2
       | (Unanswered, st2) => (Unanswered, st2)
       end).
Proof.
  unfold activation. destruct (local_error e) as [err|] eqn:Ele; [left|].
  { eexists _, st. by split_and?. }
  destruct (factory e) as [f|] eqn:Ef; [|left; eexists _, st; by split_and?].
  unfold bind at 1. cbn [ret]. unfold bind at 1. cbn [lift ok_or]. unfold bind at 1.
  pose proof (tracks_discovered (grows quiet) (fun st ev => grows_log quiet st ev) e f st) as Hd.
  destruct (discovered e f st) as [[[[metadata compiled]|err]|] st1] eqn:Ed; cbn [snd] in Hd;
    [|left; eexists _, st1; by split_and?..].
  pose proof (discovered_ok _ _ _ _ _ _ Ed) as Hm. unfold bind at 1.
  set (names := entry_secrets (entry_config e)).
  pose proof (tracks_resolve_secrets (grows quiet) (fun st ev => grows_log quiet st ev) e names st1) as Hr.
  destruct (resolve_secrets e names st1) as [[[values|err]|] st2] eqn:Er; cbn [snd] in Hr;
    [|left; eexists _, st2; split_and?; [done..|by etrans; [exact Hd|]]..].
  pose proof (resolve_into_ok _ _ _ _ _ _ Er) as (new & _ & _ & Hall & Hfrom). unfold bind at 1. unfold call at 1.
  set (x := mkActivation _ _ _ _ _).
  destruct (activate (log st2) f x) as [[r|err]|] eqn:Ea.
  - right. exists st2, x, r, compiled. split_and?; [done| |done|by etrans; [exact Hd|]|].
    2:{ unfold bind, ret, lift, ok_or, call. rewrite Ed, Er. fold x. by rewrite Ea. }
    split; [done..| |].
    + intros n. split; [|apply Hall]. intros [v [?|(Hn & _)]%Hfrom]; [simplify_map_eq|done].
    + intros n v [?|(_ & Hn & _)]%Hfrom; [simplify_map_eq|done].
  - left. eexists _, _. split_and?; [done..|]. etrans; [exact Hd|]. etrans; [exact Hr|]. by apply grows_log.
  - left. eexists _, _. split_and?; [done..|]. etrans; [exact Hd|]. etrans; [exact Hr|]. by apply grows_log.
Qed.

End Activation.

Section Handles.
Context {F R B V : Type} `{SchemaEngine V} `{Outside F R B} (debug_str : string -> string).

Notation State := (State (R := R) (B := B) (V := V)).
Notation Op := (Op (R := R) (B := B) (V := V)).
Notation Entry := (Entry (F := F)).
Notation Event := (Event R B).

Lemma checked_descriptor_run (e : Entry) r metadata (st : State) :
  exists ans, snd (checked_descriptor e r metadata st) = with_log st (EvDescribe r ans) /\
    match fst (checked_descriptor e r metadata st) with
    | Answered (Ok d) => ans = Answered (Ok d) /\ schemas d = metadata
    | Answered (Err _) => True
    | Unanswered => ans = Unanswered
    end.
Proof.
  exists (describe (log st) r). unfold checked_descriptor, bind, call.
  destruct (describe (log st) r) as [[d|err]|]; [|done..].
  destruct (schemas_eqb (schemas d) metadata) eqn:E; [|done]. by apply schemas_eqb_spec in E.
Qed.

Lemma activation_adds (e : Entry) (st : State) : actives st !! entry_name e = None ->
  adds prep st (snd (activation e st)).
Proof.
  intros Hnone. destruct (activation_cases e st) as [(r & st1 & -> & _ & Hg)|(st1 & x & r & compiled & _ & _ & _ & Hg & ->)].
  { apply grows_adds. eapply grows_mono; [exact quiet_prep|done]. }
  assert (grows prep st st1) as Hg' by (eapply grows_mono; [exact quiet_prep|done]).
  set (st2 := with_log st1 _). assert (grows prep st st2) as Hg2 by (etrans; [exact Hg'|by apply grows_log]).
  pose proof (checked_descriptor_run e r (act_schemas x) st2) as (ans & Hst & _).
  destruct (checked_descriptor e r (act_schemas x) st2) as [[[d|err]|] st3]; cbn [fst snd] in *; subst st3.
  - assert (grows prep st (with_log st2 (EvDescribe r ans))) as (HA & HB & HC & HD)
      by (etrans; [exact Hg2|by apply grows_log]).
    split; [cbn; rewrite <- HA in Hnone |- *; by apply insert_subseteq|done].
  - apply grows_adds. etrans; [exact Hg2|]. etrans; [by apply (grows_log prep _ (EvDescribe r ans))|].
    apply tracks_bind; [tc_solve|apply tracks_call; intros; by apply grows_log|track].
  - apply grows_adds. etrans; [exact Hg2|]. by apply grows_log.
Qed.

Lemma ensure_open_run (st : State) : ensure_open st =
  (if closed st then Answered (Err (Stale NotStarted)) else Answered (Ok tt), st).
Proof. unfold ensure_open. by destruct (closed st). Qed.

(** Activation of an open and of a closed catalog. *)
Lemma active_run (e : Entry) (st : State) : active e st =
  if closed st then (Answered (Err (Stale NotStarted)), st)
  else match actives st !! entry_name e with
       | Some a => (Answered (Ok a), st)
       | None => activation e st
       end.
Proof.
  unfold active, bind. rewrite ensure_open_run. destruct (closed st) eqn:Ec; cbn; [done|]. by rewrite ensure_open_run, Ec.
Qed.

Lemma tracks_active (e : Entry) : tracks (adds prep) (active e).
Proof.
  intros st. rewrite active_run. destruct (closed st); [done|].
  destruct (actives st !! entry_name e) as [a|] eqn:Ea; [done|]. by apply activation_adds.
Qed.

Lemma active_ok (e : Entry) (st : State) a st' : active e st = (Answered (Ok a), st') ->
  closed st = false /\ actives st' !! entry_name e = Some a.
Proof.
  rewrite active_run. destruct (closed st); [done|].
  destruct (actives st !! entry_name e) as [a'|] eqn:Ea; [by intros [= <- <-]|]. intros E. split; [done|].
  destruct (activation_cases e st) as [(r & st1 & E1 & Hr & _)|(st1 & x & r & compiled & _ & _ & _ & _ & E1)];
    rewrite E1 in E; [injection E as -> _; by destruct (Hr a)|]. clear E1.
  destruct (checked_descriptor e r (act_schemas x) _) as [[[d|err]|] st2];
    [|by apply bind_ok in E as (? & ? & _ & ?)|done].
  injection E as <- <-. cbn. by rewrite lookup_insert_eq.
Qed.

Lemma tracks_ready (e : Entry) : tracks (adds prep) (ready e).
Proof.
  apply tracks_bind; [tc_solve|apply tracks_active|]. intros a. track.
  apply tracks_call. intros st ans. by apply grows_adds, grows_log.
Qed.

(** A ready entry: the last call was a description that agrees with what
    activation saw. *)
Lemma ready_ok (e : Entry) (st : State) a d st' : ready e st = (Answered (Ok (a, d)), st') ->
  closed st = false /\ actives st' !! entry_name e = Some a /\
  schemas d = schemas (descriptor a) /\ namespace d = namespace (descriptor a) /\
  exists new, log st' = EvDescribe (runtime a) (Answered (Ok d)) :: new ++ log st /\ Forall prep new.
Proof.
  intros (a' & st1 & Ha & E)%bind_ok. pose proof (tracks_run _ _ _ _ _ (tracks_active e) Ha) as (_ & _ & _ & new & Hl & HF).
  apply active_ok in Ha as [Hc Ha]. apply bind_ok in E as ([] & st2 & Ho & E).
  rewrite ensure_open_run in Ho. destruct (closed st1); [done|]. injection Ho as <-.
  apply bind_ok in E as (d' & st2 & [Hd ->]%call_ok & E).
  destruct (schemas_eqb (schemas d') (schemas (descriptor a'))) eqn:Hs; [|done].
  destruct (namespace_eqb (namespace d') (namespace (descriptor a'))) eqn:Hn; [|done].
  injection E as <- <- <-. apply schemas_eqb_spec in Hs. apply namespace_eqb_spec in Hn.
  split_and!; [done..|]. exists new. split; [cbn; by rewrite Hl|done].
Qed.

Lemma tracks_admit (e : Entry) spec : tracks (adds prep) (admit_spec debug_str e spec).
Proof.
  apply tracks_bind; [tc_solve|apply tracks_lift; tc_solve|]. intros [].
  apply tracks_bind; [tc_solve|apply tracks_ready|]. intros [a d]. track.
Qed.

(** An admission that succeeds. *)
Lemma admit_ok (e : Entry) spec (st : State) a d st' : admit_spec debug_str e spec st = (Answered (Ok (a, d)), st') ->
  closed st = false /\ actives st' !! entry_name e = Some a /\
  schemas d = schemas (descriptor a) /\ namespace d = namespace (descriptor a) /\
  validate_for debug_str spec d = Ok tt /\ check_spec (active_schemas a) (provider_config spec) = Ok tt /\
  exists new, log st' = EvDescribe (runtime a) (Answered (Ok d)) :: new ++ log st /\ Forall prep new.
Proof.
  intros ([] & st1 & [_ ->]%lift_ok & E)%bind_ok. apply bind_ok in E as ([a' d'] & st2 & Hr & E).
  apply bind_ok in E as ([] & st3 & [Hv ->]%lift_ok & E). apply bind_ok in E as ([] & st4 & [Hs ->]%lift_ok & E).
  injection E as <- <- <-. apply ready_ok in Hr as (Hc & Ha & Hsch & Hns & Hlog). by split_and!.
Qed.

Lemma resolved_prep (e : Entry) names (st : State) : grows prep st (snd (resolve_secrets e names st)).
Proof.
  apply tracks_resolve_secrets; [tc_solve|]. intros s ev Hev. apply grows_log. by apply quiet_prep.
Qed.

End Handles.
