(* ===== verification/CatalogSpec.v ===== *)
(** * What the provider catalog guarantees

    Properties of [Catalog]: what is dispatched to a runtime and after what, the
    invariant of every reachable state, the inventory, and shutdown. [step] is one
    operation on a catalog; [reachable] is what any sequence of them leaves. The
    [demo] values answer every call, for the witnesses. *)

From S2P Require Import Prelude Text Ids Units Contract Config Catalog.

#[local] Open Scope string_scope.
#[local] Open Scope list_scope.
#[local] Open Scope Z_scope.

(** ** What is dispatched *)

Section Dispatch.
Context {F R B V : Type} `{SchemaEngine V} `{Outside F R B} (debug_str : string -> string).

Notation State := (State (R := R) (B := B) (V := V)).
Notation Entry := (Entry (F := F)).
Notation Event := (Event R B).
Notation Active := (Active (R := R) (V := V)).

(** What stands when a workload is handed to a runtime: its descriptor is
    current and admits the spec, and the credentials are those the services
    name, as the secret store gave them. *)
Record create_dispatched (spec : SandboxSpec) (a : Active) (d : Descriptor) (x : WorkloadAdmission)
    (before : list Event) : Prop := {
  cd_described : EvDescribe (runtime a) (Answered (Ok d)) ∈ before;
  cd_schemas : schemas d = schemas (descriptor a);
  cd_namespace : namespace d = namespace (descriptor a);
  cd_spec : adm_spec x = spec;
  cd_admitted : validate_for debug_str spec d = Ok tt;
  cd_config : check_spec (active_schemas a) (provider_config spec) = Ok tt;
  cd_credentials c : is_Some (adm_credentials x !! c) <-> c ∈ service_credentials spec;
  cd_resolved c v : adm_credentials x !! c = Some v -> EvResolve c (Answered (Ok (Some v))) ∈ before;
}.

(** An operation whose last call is [last], after nothing but preparation, or
    that makes no such call and fails. *)
Definition dispatches {A} (st st' : State) (r : reply A) (last : Event -> list Event -> Prop) : Prop :=
  exists new, log st' = new ++ log st /\
    ((Forall prep new /\ forall h, r <> Answered (Ok h)) \/
     exists ev before, new = ev :: before /\ Forall prep before /\ last ev before).

Lemma not_dispatched {A} (st st' : State) (r : reply A) last : adds prep st st' ->
  (forall h, r <> Answered (Ok h)) -> dispatches st st' r last.
Proof. intros (_ & _ & _ & new & Hl & HF) Hr. exists new. split; [done|]. by left. Qed.

Lemma create_cases (b : SandboxBuilder (F := F)) (st : State) r st' :
  create debug_str b st = (r, st') ->
  dispatches st st' r (fun ev before => exists a d x ans,
    ev = EvCreate (runtime a) x ans /\ actives st' !! entry_name (builder_provider b) = Some a /\
    create_dispatched (builder_spec b) a d x before /\
    forall h, r = Answered (Ok h) <->
      ans = Answered (Ok h) /\ provider (reference_of h) = entry_name (builder_provider b) /\
      ref_namespace (reference_of h) = ns_id (namespace d)).
Proof.
  unfold create. destruct (builder_error b) as [err|]; [intros [= <- <-]; by apply not_dispatched|].
  set (e := builder_provider b). set (spec := builder_spec b).
  intros [([a d] & st1 & Ha & E)|[(err & Ha & ->)|[Ha ->]]]%bind_inv.
  2,3: apply not_dispatched; [exact (tracks_run _ _ _ _ _ (tracks_admit debug_str e spec) Ha)|done].
  pose proof (tracks_run _ _ _ _ _ (tracks_admit debug_str e spec) Ha) as Hadds.
  apply admit_ok in Ha as (_ & Ha & Hsch & Hns & Hv & Hcfg & new & Hl & HF).
  pose proof (resolved_prep e (service_credentials spec) st1) as Hres.
  apply bind_inv in E as [(creds & st2 & Hc & E)|[(err & Hc & ->)|[Hc ->]]]; rewrite Hc in Hres; cbn [snd] in Hres.
  2,3: apply not_dispatched; [etrans; [exact Hadds|by apply grows_adds]|done].
  destruct Hres as (Hact & _ & _ & new' & Hl' & HF').
  apply resolve_into_ok in Hc as (new2 & Hl2 & _ & Hall & Hfrom).
  rewrite Hl2 in Hl'. apply app_inv_tail in Hl' as <-.
  set (x := mkAdmission spec creds) in E. set (ans := rt_create (log st2) (runtime a) x).
  assert (st' = with_log st2 (EvCreate (runtime a) x ans) /\ forall h, r = Answered (Ok h) <->
    ans = Answered (Ok h) /\ provider (reference_of h) = entry_name e /\
    ref_namespace (reference_of h) = ns_id (namespace d)) as [-> Hr].
  { unfold bind, call in E. fold ans in E. destruct ans as [[h|err]|]; [|injection E as <- <-; naive_solver..].
    destruct (_ && _) eqn:Ematch; injection E as <- <-; (split; [done|]); intros h'.
    - apply andb_true_iff in Ematch as [?%String.eqb_eq ?%String.eqb_eq]. naive_solver.
    - split; [done|]. intros ([= ->] & Hp & Hn). rewrite Hp, Hn, !String.eqb_refl in Ematch. done. }
  exists (EvCreate (runtime a) x ans :: new2 ++ EvDescribe (runtime a) (Answered (Ok d)) :: new).
  split; [cbn; by rewrite Hl2, Hl, <- app_assoc|]. right. eexists _, _. split; [done|].
  split; [by apply Forall_app; split; [|constructor]|].
  exists a, d, x, ans. split_and!; [done|cbn; by rewrite Hact| |done].
  split; try done.
  - apply elem_of_app. right. by left.
  - intros c. split; [|apply Hall]. intros [v [?|(? & _)]%Hfrom]; [simplify_map_eq|done].
  - intros c v [?|(_ & _ & ?)]%Hfrom; [simplify_map_eq|]. apply elem_of_app. by left.
Qed.

Context (catalog : Catalog (F := F)).

(** A reference is routed to its own entry, whose current namespace is the one
    the reference was made in. *)
Definition routed (ref : SandboxRef) (st' : State) (a : Active) (before : list Event) : Prop :=
  exists e d rest, entries_of catalog !! provider ref = Some e /\ actives st' !! entry_name e = Some a /\
    before = EvDescribe (runtime a) (Answered (Ok d)) :: rest /\
    schemas d = schemas (descriptor a) /\ namespace d = namespace (descriptor a) /\
    ns_id (namespace d) = ref_namespace ref.

Lemma tracks_route ref : tracks (adds prep) (route (B := B) (V := V) catalog ref).
Proof.
  apply tracks_bind; [tc_solve|apply tracks_lift; tc_solve|]. intros e.
  apply tracks_bind; [tc_solve|apply tracks_ready|]. intros [a d]. track.
Qed.

Lemma route_ok ref (st : State) a st' : route catalog ref st = (Answered (Ok a), st') ->
  exists before, log st' = before ++ log st /\ Forall prep before /\ routed ref st' a before.
Proof.
  intros (e & st1 & [He ->]%lift_ok & E)%bind_ok. apply bind_ok in E as ([a' d] & st1 & Hr & E).
  apply bind_ok in E as ([] & st2 & [Hn ->]%lift_ok & E). injection E as <- <-.
  apply ready_ok in Hr as (_ & Ha & Hs & Hns & new & Hl & HF).
  exists (EvDescribe (runtime a') (Answered (Ok d)) :: new). split; [done|]. split; [by constructor|].
  exists e, d, new. split_and!; try done.
  - unfold handle in He. by destruct (entries_of catalog !! provider ref); [injection He as ->|].
  - unfold check_namespace in Hn. by case_bool_decide.
Qed.

Lemma route_then {A C} ref (m : Active -> Op (R := R) (B := B) (V := V) A) (ev : Active -> reply C -> Event)
    (Q : reply A -> reply C -> Prop) (st : State) r st' :
  (forall a st, exists ans, snd (m a st) = with_log st (ev a ans) /\ Q (fst (m a st)) ans) ->
  bind (route catalog ref) m st = (r, st') ->
  dispatches st st' r (fun e before => exists a ans, e = ev a ans /\ routed ref st' a before /\ Q r ans).
Proof.
  intros Hm [(a & st1 & Ha & E)|[(err & Ha & ->)|[Ha ->]]]%bind_inv.
  2,3: apply not_dispatched; [exact (tracks_run _ _ _ _ _ (tracks_route ref) Ha)|done].
  apply route_ok in Ha as (before & Hl & HF & Hr). destruct (Hm a st1) as (ans & Hst & HQ).
  rewrite E in Hst, HQ. cbn [fst snd] in Hst, HQ. subst st'.
  exists (ev a ans :: before). split; [cbn; by rewrite Hl|]. right. exists (ev a ans), before.
  split; [done|]. split; [done|]. by exists a, ans.
Qed.

Lemma attach_cases ref (st : State) r st' : attach catalog ref st = (r, st') ->
  dispatches st st' r (fun e before => exists a ans, e = EvAttach (runtime a) (ref_id ref) ans /\
    routed ref st' a before /\
    forall h, r = Answered (Ok h) <-> ans = Answered (Ok h) /\ reference_of h = ref).
Proof.
  apply (route_then ref _ (fun a => EvAttach (runtime a) (ref_id ref))
    (fun r ans => forall h, r = Answered (Ok h) <-> ans = Answered (Ok h) /\ reference_of h = ref)).
  intros a st0. exists (rt_attach (log st0) (runtime a) (ref_id ref)). unfold bind, call.
  destruct (rt_attach _ _ _) as [[h|err]|]; [|cbn; split; [done|naive_solver]..].
  case_bool_decide; cbn; (split; [done|naive_solver]).
Qed.

Lemma destroy_cases ref (st : State) r st' : destroy catalog ref st = (r, st') ->
  dispatches st st' r (fun e before => exists a ans, e = EvDestroy (runtime a) (ref_id ref) ans /\
    routed ref st' a before /\ r = ans).
Proof.
  apply (route_then ref _ (fun a => EvDestroy (runtime a) (ref_id ref)) eq).
  intros a st0. by exists (rt_destroy (log st0) (runtime a) (ref_id ref)).
Qed.

End Dispatch.

(** ** The catalog as a state machine *)

Section Machine.
Context {F R B V : Type} `{SchemaEngine V} `{Outside F R B} (debug_str : string -> string).
Context (catalog : Catalog (F := F)).

Notation State := (State (R := R) (B := B) (V := V)).
Notation Op := (Op (R := R) (B := B) (V := V)).
Notation Entry := (Entry (F := F)).
Notation Event := (Event R B).

(** One operation on the catalog or on a handle of it. *)
Inductive step (st : State) : State -> Prop :=
  | step_describe n e : entries_of catalog !! n = Some e -> step st (snd (handle_describe e st))
  | step_validate n e spec : entries_of catalog !! n = Some e -> step st (snd (handle_validate_spec debug_str e spec st))
  | step_health n e : entries_of catalog !! n = Some e -> step st (snd (handle_health e st))
  | step_attach ref : step st (snd (attach catalog ref st))
  | step_destroy ref : step st (snd (destroy catalog ref st))
  | step_find order filter : order ≡ₚ map_to_list (entries_of catalog) ->
      step st (snd (find order filter st))
  | step_create b n : entries_of catalog !! n = Some (builder_provider b) -> step st (snd (create debug_str b st))
  | step_environment name : step st (snd (environment name st))
  | step_diagnostics : step st (snd (diagnostics catalog st))
  | step_shutdown : step st (snd (shutdown catalog st)).

Definition reachable (st : State) : Prop := rtc step initial st.

(** An active entry is one that passed its local checks, whose plugin's metadata
    was compiled and satisfied, and whose runtime it was activated with. *)
Definition inv_active (st : State) : Prop :=
  forall n a, actives st !! n = Some a -> exists e, entries_of catalog !! n = Some e /\
    local_error e = None /\ metadata_ok e (schemas (descriptor a)) (active_schemas a) /\
    exists x, EvActivate x (Answered (Ok (runtime a))) ∈ log st /\ request_ok e x.

(** A runtime that was started serves its entry, or was told to shut down, or
    its activation was cut off while it was being described. *)
Definition accounted (st : State) (x : Activation) (r : R) : Prop :=
  (exists a, actives st !! act_name x = Some a /\ runtime a = r) \/
  (exists ans, EvShutdown r ans ∈ log st) \/ EvDescribe r Unanswered ∈ log st.

Definition inv (st : State) : Prop :=
  inv_active st /\ forall x r, EvActivate x (Answered (Ok r)) ∈ log st -> accounted st x r.

(** Every runtime served stays; the catalog never reopens; the invariant holds on. *)
Definition later (st st' : State) : Prop :=
  actives st ⊆ actives st' /\ (closed st = true -> closed st' = true) /\ (inv st -> inv st').

#[export] Instance later_preorder : PreOrder later.
Proof.
  split; [by intros st|]. intros s1 s2 s3 (HA & HB & HC) (HA' & HB' & HC').
  split; [by etrans|]. split; auto.
Qed.

Definition activates (ev : Event) : Prop := match ev with EvActivate _ (Answered (Ok _)) => True | _ => False end.

Lemma inv_more (st st' : State) new :
  actives st' = actives st -> log st' = new ++ log st -> Forall (fun ev => ~ activates ev) new -> inv st -> inv st'.
Proof.
  intros Ha Hl HF [HA HB]. rewrite Forall_forall in HF. split.
  - intros n a. rewrite Ha. intros (e & He & Hle & Hm & x & Hx & Hreq)%HA.
    exists e. split_and!; [done..|]. exists x. rewrite Hl. split; [apply elem_of_app; by right|done].
  - intros x r. unfold accounted. rewrite Hl, Ha. intros [Hx|Hx]%elem_of_app; [by destruct (HF _ Hx)|].
    destruct (HB x r Hx) as [?|[[ans ?]|?]]; [by left|right; left; exists ans|right; right];
      apply elem_of_app; by right.
Qed.

Lemma later_log (st : State) ev : ~ activates ev -> later st (with_log st ev).
Proof. intros Hev. split; [done|]. split; [done|]. apply (inv_more _ _ [ev]); [done..|]. by constructor. Qed.

Lemma later_quiet (st : State) ev : quiet ev -> later st (with_log st ev).
Proof. intros Hev. apply later_log. intros Hact. by destruct ev as [| ? [[]|]| | | | | | | | | |]. Qed.

Lemma inv_grows (st st' : State) : grows quiet st st' -> inv st -> inv st'.
Proof.
  intros (HA & _ & _ & new & Hl & HF). apply (inv_more _ _ new); [done..|].
  eapply Forall_impl; [exact HF|]. intros ev Hq Hact. by destruct ev as [| ? [[]|]| | | | | | | | | |].
Qed.

(** What a fresh runtime's description leaves. *)
Lemma inv_described (e : Entry) n (st : State) x r compiled d :
  entries_of catalog !! n = Some e -> entry_name e = n -> local_error e = None -> request_ok e x ->
  metadata_ok e (schemas d) compiled -> actives st !! n = None -> inv st ->
  inv (with_active (with_log (with_log st (EvActivate x (Answered (Ok r)))) (EvDescribe r (Answered (Ok d))))
         n (mkActive r compiled d)).
Proof.
  intros He Hn Hle Hreq Hm Hnone [HA HB]. split.
  - intros n' a. cbn. destruct (decide (n' = n)) as [->|Hne].
    + rewrite lookup_insert_eq. intros [= <-]. exists e. split_and!; [done..|]. exists x. split; [|done].
      right. by left.
    + rewrite lookup_insert_ne by done. intros (e' & ? & ? & ? & x' & ? & ?)%HA. exists e'. split_and!; [done..|].
      exists x'. split; [by do 2 right|done].
  - intros x' r'. unfold accounted. cbn. rewrite !elem_of_cons. intros [[=]|[[= -> ->]|Hx]].
    + left. exists (mkActive r compiled d). split; [|done]. by rewrite (request_name _ _ Hreq), Hn, lookup_insert_eq.
    + destruct (HB x' r' Hx) as [(a & Ha & Hr)|[[ans ?]|?]]; [|right; left; exists ans; by do 2 right|by do 4 right].
      left. exists a. split; [|done]. rewrite lookup_insert_ne; [done|]. intros ->. congruence.
Qed.

(** A runtime that failed to describe itself is accounted for. *)
Lemma inv_dropped (st st' : State) x r new : inv st ->
  actives st' = actives st -> log st' = new ++ EvActivate x (Answered (Ok r)) :: log st ->
  Forall (fun ev => ~ activates ev) new -> accounted st' x r -> inv st'.
Proof.
  intros [HA HB] Ha Hl HF Hacc. rewrite Forall_forall in HF. split.
  - intros n a. rewrite Ha. intros (e & ? & ? & ? & x' & ? & ?)%HA. exists e. split_and!; [done..|].
    exists x'. rewrite Hl. split; [apply elem_of_app; right; by right|done].
  - intros x' r'. rewrite Hl. intros [Hx|[[= -> ->]|Hx]%elem_of_cons]%elem_of_app; [by destruct (HF _ Hx)|done|].
    unfold accounted. rewrite Ha, Hl.
    destruct (HB x' r' Hx) as [?|[[ans ?]|?]]; [by left|right; left; exists ans|right; right];
      apply elem_of_app; right; by right.
Qed.

Hypothesis names_match : forall n e, entries_of catalog !! n = Some e -> entry_name e = n.

Lemma activation_later (e : Entry) n (st : State) : entries_of catalog !! n = Some e ->
  actives st !! n = None -> later st (snd (activation e st)).
Proof.
  intros He Hnone. pose proof (names_match _ _ He) as Hn.
  pose proof (activation_adds e st ltac:(by rewrite Hn)) as (Hsub & Hc & _).
  split; [done|]. split; [by rewrite Hc|]. clear Hsub Hc. intros Hinv.
  destruct (activation_cases e st) as [(r & st1 & -> & _ & Hg)|(st1 & x & r & compiled & Hle & Hreq & Hm & Hg & ->)].
  { by apply (inv_grows st). }
  pose proof (inv_grows _ _ Hg Hinv) as Hinv1. destruct Hg as (Ha1 & _).
  pose proof (checked_descriptor_run e r (act_schemas x) (with_log st1 (EvActivate x (Answered (Ok r)))))
    as (ans & Hst & Hres).
  destruct (checked_descriptor e r (act_schemas x) _) as [[[d|err]|] st3]; cbn [fst snd] in *; subst st3.
  - destruct Hres as [-> Hs]. rewrite Hn. apply (inv_described e n); try done; [by rewrite Hs|by rewrite Ha1].
  - unfold bind, call. set (a := rt_shutdown _ r).
    assert (inv (with_log (with_log (with_log st1 (EvActivate x (Answered (Ok r)))) (EvDescribe r ans)) (EvShutdown r a)))
      by (apply (inv_dropped st1 _ x r [EvShutdown r a; EvDescribe r ans]); try done;
          [repeat constructor; by intros []|right; left; exists a; by left]).
    by destruct a as [[[]|]|].
  - subst ans. apply (inv_dropped st1 _ x r [EvDescribe r Unanswered]); try done; [repeat constructor; by intros []|].
    right. right. by left.
Qed.

Lemma later_active (e : Entry) n : entries_of catalog !! n = Some e -> tracks later (active e).
Proof.
  intros He st. rewrite active_run. destruct (closed st); [done|].
  rewrite (names_match _ _ He). destruct (actives st !! n) as [a|] eqn:Ea; [done|]. by eapply activation_later.
Qed.

Lemma later_call {A} ask (ev : reply A -> Event) : (forall a, activates (ev a) = False) -> tracks later (call ask ev).
Proof. intros Hev. apply tracks_call. intros st a. apply later_log. rewrite Hev. tauto. Qed.

Lemma later_ready (e : Entry) n : entries_of catalog !! n = Some e -> tracks later (ready e).
Proof.
  intros He. apply tracks_bind; [tc_solve|by eapply later_active|]. track. by apply later_call.
Qed.

Lemma later_admit (e : Entry) n spec : entries_of catalog !! n = Some e -> tracks later (admit_spec debug_str e spec).
Proof.
  intros He. apply tracks_bind; [tc_solve|apply tracks_lift; tc_solve|]. intros _.
  apply tracks_bind; [tc_solve|by eapply later_ready|]. intros [a d]. track.
Qed.

Lemma later_route ref : tracks later (route catalog ref).
Proof.
  unfold route, handle. destruct (entries_of catalog !! provider ref) as [e|] eqn:He; cbn [ok_or]; [|by intros st].
  apply (tracks_bind later (ready e)); [by eapply later_ready|]. intros [a d]. track.
Qed.

Lemma later_list (e : Entry) n filter : entries_of catalog !! n = Some e -> tracks later (handle_list e filter).
Proof.
  intros He. apply tracks_bind; [tc_solve|by eapply later_ready|]. intros [a d].
  apply tracks_bind; [tc_solve|by apply later_call|]. track.
Qed.

Lemma later_timeout {A} (m : Op A) err : tracks later m -> tracks later (timeout m err).
Proof. intros Hm st. unfold timeout. specialize (Hm st). by destruct (m st) as [[]]. Qed.

Lemma later_collect order filter (st : State) :
  Forall (fun ne => entries_of catalog !! fst ne = Some (snd ne)) order ->
  later st (snd (collect order filter st)).
Proof.
  intros HF. revert st. induction HF as [|[n e] order He HF IH]; intros st; cbn [collect]; [done|].
  pose proof (later_timeout (handle_list e filter) (unavailable "inventory deadline elapsed" NotStarted)
    (later_list e n filter He) st) as Hl.
  destruct (timeout _ _ st) as [r st1]. specialize (IH st1). destruct (collect order filter st1) as [rs st2].
  cbn [snd] in *. by etrans.
Qed.

Lemma later_find order filter : order ≡ₚ map_to_list (entries_of catalog) -> tracks later (find order filter).
Proof.
  intros Horder. apply tracks_bind; [tc_solve|apply tracks_ensure_open; tc_solve|]. intros _ st.
  pose proof (later_collect order filter st) as Hl. destruct (collect order filter st) as [rs st']. apply Hl.
  rewrite Forall_forall. intros [n e]. rewrite Horder. apply elem_of_map_to_list.
Qed.

Lemma later_environment name : tracks later (environment name).
Proof. apply tracks_bind; [tc_solve|apply tracks_lift; tc_solve|]. track. by apply later_call. Qed.

Lemma later_diagnostics : tracks later (diagnostics catalog).
Proof.
  apply tracks_bind; [tc_solve|by apply later_call|]. intros names.
  apply tracks_bind; [tc_solve| |track].
  induction names as [|n names IH]; cbn [environment_diagnostics]; [track|].
  apply tracks_bind; [tc_solve|by apply later_call|]. intros found. apply tracks_bind; [tc_solve|done|track].
Qed.

Lemma later_create (b : SandboxBuilder) n : entries_of catalog !! n = Some (builder_provider b) ->
  tracks later (create debug_str b).
Proof.
  intros He. unfold create. destruct (builder_error b); [track|].
  apply tracks_bind; [tc_solve|by eapply later_admit|]. intros [a d]. cbv zeta.
  apply tracks_bind; [tc_solve|apply tracks_resolve_secrets; [tc_solve|apply later_quiet]|]. intros creds.
  apply tracks_bind; [tc_solve|by apply later_call|]. track.
Qed.

Lemma grows_shutdown_all l (st : State) : grows (fun ev => exists r a, ev = EvShutdown r a) st (snd (shutdown_all l st)).
Proof.
  revert st. induction l as [|[n e] l IH]; intros st; cbn [shutdown_all]; [done|].
  destruct (actives st !! entry_name e) as [a|]; cbn [call ret].
  - set (st1 := with_log st _). specialize (IH st1). destruct (shutdown_all l st1) as [rs st2]. cbn [snd] in *.
    etrans; [|exact IH]. apply grows_log. eauto.
  - specialize (IH st). by destruct (shutdown_all l st) as [rs st2].
Qed.

Lemma later_shutdown : tracks later (shutdown catalog).
Proof.
  intros st. unfold shutdown. set (st1 := mkState (actives st) true (shutdown_result st) (log st)).
  assert (later st st1) as H1 by (split; [done|split; [done|apply (inv_more _ _ []); [done..|constructor]]]).
  destruct (shutdown_result st1); [done|].
  pose proof (grows_shutdown_all (entries (entries_of catalog)) st1) as (Ha & Hc & _ & new & Hl & HF).
  destruct (shutdown_all _ st1) as [rs st2]. cbn [snd] in *.
  assert (forall sr, later st1 (mkState (actives st2) (closed st2) sr (log st2))) as H2.
  { intros sr. split; [cbn; by rewrite Ha|]. split; [cbn; by rewrite Hc|].
    apply (inv_more _ _ new); [done..|]. eapply Forall_impl; [exact HF|]. intros ev (r & a & ->); tauto. }
  etrans; [exact H1|]. destruct (all_answered rs); [apply H2|]. cbn [snd]. destruct st2. apply (H2 _).
Qed.

Lemma step_later (st st' : State) : step st st' -> later st st'.
Proof.
  intros [n e He|n e spec He|n e He|ref|ref|order filter Ho|b n He|name| |].
  - apply (tracks_bind later (ready e)); [by eapply later_ready|]. intros [a d]. track.
  - apply (tracks_bind later (admit_spec debug_str e spec)); [by eapply later_admit|]. track.
  - apply (tracks_bind later (active e)); [by eapply later_active|]. intros a. by apply later_call.
  - apply (tracks_bind later (route catalog ref)); [apply later_route|]. intros a.
    apply tracks_bind; [tc_solve|by apply later_call|]. track.
  - apply (tracks_bind later (route catalog ref)); [apply later_route|]. intros a. by apply later_call.
  - by apply later_find.
  - by eapply later_create.
  - apply later_environment.
  - apply later_diagnostics.
  - apply later_shutdown.
Qed.

Lemma inv_initial : inv initial.
Proof.
  split; [intros n a; cbn; by rewrite lookup_empty|]. intros x r Hx. by apply elem_of_nil in Hx.
Qed.

Lemma steps_later (st st' : State) : rtc step st st' -> later st st'.
Proof. induction 1 as [|s1 s2 s3 Hs _ IH]; [done|]. etrans; [by apply step_later|exact IH]. Qed.

Lemma reachable_inv (st : State) : reachable st -> inv st.
Proof. intros (_ & _ & Hi)%steps_later. apply Hi, inv_initial. Qed.

End Machine.

(** ** Inventory *)

Section Inventory.
Context {F R B V : Type} `{SchemaEngine V} `{Outside F R B}.

Notation State := (State (R := R) (B := B) (V := V)).
Notation Op := (Op (R := R) (B := B) (V := V)).
Notation Entry := (Entry (F := F)).

(** A summary that answers the request: of this entry, in its current namespace,
    with the labels asked for. *)
Definition answers (e : Entry) (d : Descriptor) (filter : gmap string string) (s : SandboxSummary) : Prop :=
  provider (reference s) = entry_name e /\ ref_namespace (reference s) = ns_id (namespace d) /\
  filter ⊆ sum_labels s.

(** Summaries of one sandbox agree. *)
Definition consistent (ms : list SandboxSummary) : Prop :=
  forall s s', s ∈ ms -> s' ∈ ms -> ref_id (reference s) = ref_id (reference s') -> s = s'.

Lemma filter_matches_spec f l : filter_matches f l = true <-> f ⊆ l.
Proof.
  unfold filter_matches. rewrite (forallb_iff _ (fun kv => l !! fst kv = Some (snd kv))).
  2:{ intros kv. apply bool_decide_eq_true. }
  rewrite Forall_entries, map_subseteq_spec. done.
Qed.

Lemma answers_spec (e : Entry) d filter s :
  String.eqb (provider (reference s)) (entry_name e) && String.eqb (ref_namespace (reference s)) (ns_id (namespace d))
    && filter_matches filter (sum_labels s) = true <-> answers e d filter s.
Proof. unfold answers. rewrite !andb_true_iff, !String.eqb_eq, filter_matches_spec. tauto. Qed.

(** The deduplicated batch, from what was gathered so far. *)
Lemma unique_ok (e : Entry) d filter ms u0 u : unique_summaries e d filter ms u0 = Ok u ->
  Forall (answers e d filter) ms /\
  (forall id s, u !! id = Some s <-> u0 !! id = Some s \/ (u0 !! id = None /\ s ∈ ms /\ ref_id (reference s) = id)) /\
  (forall s s', s ∈ ms -> u !! ref_id (reference s) = Some s' -> s' = s).
Proof.
  revert u0. induction ms as [|m ms IH]; intros u0; cbn [unique_summaries].
  { intros [= ->]. split_and!; [constructor| |].
    - intros id s. split; [auto|]. intros [?|(_ & Hs & _)]; [done|by apply not_elem_of_nil in Hs].
    - intros s s' Hs. by apply not_elem_of_nil in Hs. }
  destruct (_ && _) eqn:Eg; [|done]. apply answers_spec in Eg.
  destruct (u0 !! ref_id (reference m)) as [m'|] eqn:Em.
  - case_bool_decide as Hm; [subst m'|done]. intros (HF & Hu & Hs)%IH. split_and!; [by constructor| |].
    + intros id s. rewrite Hu, elem_of_cons. split; [naive_solver|].
      intros [?|(? & [->|?] & ?)]; [auto|congruence|auto].
    + intros s s' [->|Hin]%elem_of_cons Hu'; [|auto]. apply Hu in Hu' as [?|(? & _)]; congruence.
  - intros (HF & Hu & Hs)%IH. split_and!; [by constructor| |].
    + intros id s. rewrite Hu, elem_of_cons. destruct (decide (id = ref_id (reference m))) as [->|Hne].
      * rewrite lookup_insert_eq. split; [intros [[= <-]|(? & _)]; [right; auto|done]|].
        intros [?|(_ & [->|Hin] & Hid)]; [congruence|auto|]. left. f_equal. symmetry.
        specialize (Hs s m Hin). rewrite Hid in Hs. by rewrite <- Hs; [|apply Hu; left; rewrite lookup_insert_eq].
      * rewrite lookup_insert_ne by done. split; [naive_solver|].
        intros [?|(? & [->|?] & ?)]; [auto|congruence|auto].
    + intros s s' [->|Hin]%elem_of_cons Hu'; [|auto]. apply Hu in Hu'.
      rewrite lookup_insert_eq in Hu'. destruct Hu' as [[= <-]|(? & _)]; done.
Qed.

Lemma unique_total (e : Entry) d filter ms u0 :
  Forall (answers e d filter) ms -> consistent ms ->
  (forall s s', s ∈ ms -> u0 !! ref_id (reference s) = Some s' -> s' = s) ->
  exists u, unique_summaries e d filter ms u0 = Ok u.
Proof.
  revert u0. induction ms as [|m ms IH]; intros u0 HF Hc Hu; cbn [unique_summaries]; [eauto|].
  apply Forall_cons in HF as [Hm HF]. apply answers_spec in Hm as ->.
  assert (consistent ms) as Hc' by (intros s s' ? ?; apply Hc; by right).
  destruct (u0 !! ref_id (reference m)) as [m'|] eqn:Em.
  - rewrite bool_decide_eq_true_2 by (apply Hu; [by left|done]). apply IH; [done..|]. intros s s' ?. apply Hu. by right.
  - apply IH; [done..|]. intros s s' Hs. destruct (decide (ref_id (reference s) = ref_id (reference m))) as [E|Hne].
    + rewrite E, lookup_insert_eq. intros [= <-]. apply Hc; [by left|by right|done].
    + rewrite lookup_insert_ne by done. apply Hu. by right.
Qed.

Lemma unique_spec (e : Entry) d filter ms :
  (exists u, unique_summaries e d filter ms ∅ = Ok u) <-> Forall (answers e d filter) ms /\ consistent ms.
Proof.
  split.
  - intros [u (HF & Hu & Hs)%unique_ok]. split; [done|]. intros s s' Hin Hin' E.
    apply (Hs s' s Hin'). apply Hu. right. by rewrite lookup_empty.
  - intros [HF Hc]. apply unique_total; [done..|]. intros s s' _. by rewrite lookup_empty.
Qed.

Lemma entries_values {A} (m : gmap string A) a : a ∈ (snd <$> entries m) <-> exists k, m !! k = Some a.
Proof.
  rewrite list_elem_of_fmap. split.
  - intros ([k a'] & -> & Hk%elem_of_entries). by exists k.
  - intros [k Hk%elem_of_entries]. by exists (k, a).
Qed.

(** The inventory of one entry, when it answers. *)
Lemma list_ok (e : Entry) filter (st : State) l st' : handle_list e filter st = (Answered (Ok l), st') ->
  exists (a : Active (R := R) (V := V)) d ms before,
    log st' = EvList (runtime a) filter (Answered (Ok ms)) :: EvDescribe (runtime a) (Answered (Ok d)) :: before /\
    Forall (answers e d filter) l /\ (forall s, s ∈ l <-> s ∈ ms) /\
    NoDup ((fun s => ref_id (reference s)) <$> l) /\
    StronglySorted (fun i j => String.leb i j = true) ((fun s => ref_id (reference s)) <$> l).
Proof.
  intros ([a d] & st1 & Hr & E)%bind_ok. apply bind_ok in E as (ms & st2 & [Hms ->]%call_ok & E).
  apply bind_ok in E as (u & st3 & [Hu ->]%lift_ok & E). injection E as <- <-.
  apply ready_ok in Hr as (_ & _ & _ & _ & new & Hl & _).
  apply unique_ok in Hu as (HF & Hu & _).
  assert (forall id s, u !! id = Some s <-> s ∈ ms /\ ref_id (reference s) = id) as Hu'.
  { intros id s. rewrite Hu, lookup_empty. naive_solver. }
  assert ((fun s => ref_id (reference s)) <$> (snd <$> entries u) = fst <$> entries u) as Hids.
  { rewrite <- list_fmap_compose. apply list_fmap_ext. intros i [k s] Hi%list_elem_of_lookup_2%elem_of_entries%Hu'.
    cbn. by destruct Hi as [_ ->]. }
  exists a, d, ms, (new ++ log st). split_and!.
  - cbn. by rewrite Hl.
  - rewrite Forall_forall in HF |- *. intros s [k [Hk _]%Hu']%entries_values. auto.
  - intros s. rewrite entries_values. setoid_rewrite Hu'. naive_solver.
  - rewrite Hids. unfold entries. rewrite merge_sort_Permutation. apply NoDup_fst_map_to_list.
  - rewrite Hids. apply (StronglySorted_map key_le); [by intros [] []|]. apply (StronglySorted_merge_sort _).
Qed.

(** *** All entries *)

Context (catalog : Catalog (F := F)).
Hypothesis names_match : forall n e, entries_of catalog !! n = Some e -> entry_name e = n.

(** What an entry's inventory gave when it was taken. *)
Definition listed (filter : gmap string string) (e : Entry) (r : result (list SandboxSummary) Error) : Prop :=
  exists st : State, fst (timeout (handle_list e filter) (unavailable "inventory deadline elapsed" NotStarted) st)
    = Answered r.

Lemma timeout_answers {A} (m : Op A) err (st : State) : exists r, fst (timeout m err st) = Answered r.
Proof. unfold timeout. destruct (m st) as [[r|] st']; cbn; eauto. Qed.

Lemma collect_answers order filter (st : State) :
  Forall (fun ne => entry_name (snd ne) = fst ne) order -> NoDup (fst <$> order) ->
  exists answer,
    fst (collect order filter st) = (fun ne => (fst ne, Answered (answer (fst ne)))) <$> order /\
    Forall (fun ne => listed filter (snd ne) (answer (fst ne))) order.
Proof.
  intros HF. revert st. induction HF as [|[n e] order Hn HF IH]; intros st Hnd; cbn [collect].
  { by exists (fun _ => Ok []). }
  apply NoDup_cons in Hnd as [Hnotin Hnd]. cbn [fst snd] in *.
  destruct (timeout_answers (handle_list e filter) (unavailable "inventory deadline elapsed" NotStarted) st) as [r Hr].
  assert (listed filter e r) as Hlisted by (by exists st).
  destruct (timeout _ _ st) as [r' st1]. cbn [fst] in Hr. subst r'.
  destruct (IH st1 Hnd) as (answer & Hrs & Hans). destruct (collect order filter st1) as [rs st2]. cbn [fst] in *.
  exists (fun x => if decide (x = n) then r else answer x). rewrite fmap_cons, Hn, Hrs. cbn [fst].
  rewrite decide_True by done. split.
  - f_equal. apply list_fmap_ext. intros i [n' e'] Hi%list_elem_of_lookup_2. cbn. rewrite decide_False; [done|].
    intros ->. apply Hnotin. apply list_elem_of_fmap. by exists (n, e').
  - constructor; [by cbn; rewrite decide_True|]. rewrite Forall_forall in Hans |- *. intros [n' e'] Hin. cbn.
    rewrite decide_False; [by apply (Hans (n', e'))|]. intros ->. apply Hnotin. apply list_elem_of_fmap. by exists (n, e').
Qed.

Lemma assemble_answers (answer : string -> result (list SandboxSummary) Error) names s u f :
  assemble ((fun n => (n, Answered (answer n))) <$> names) (mkFound s u f) =
  mkFound (s ++ concat ((fun n => match answer n with Ok l => l | Err _ => [] end) <$> names))
    (u ++ List.filter (fun n => negb (is_ok (answer n))) names)
    (f ++ omap (fun n => match answer n with Ok _ => None | Err e => Some (mkFailure n e) end) names).
Proof.
  revert s u f. induction names as [|n names IH]; intros s u f; cbn; [by rewrite !app_nil_r|].
  destruct (answer n) as [l|e]; cbn; rewrite IH; cbn; by rewrite <- !app_assoc.
Qed.

Lemma find_answers order filter (st : State) : order ≡ₚ map_to_list (entries_of catalog) -> closed st = false ->
  exists answer, (forall n e, entries_of catalog !! n = Some e -> listed filter e (answer n)) /\
    fst (find order filter st) = Answered (Ok (mkFound
      (concat ((fun n => match answer n with Ok l => l | Err _ => [] end) <$> providers catalog))
      (List.filter (fun n => negb (is_ok (answer n))) (providers catalog))
      (omap (fun n => match answer n with Ok _ => None | Err e => Some (mkFailure n e) end) (providers catalog)))).
Proof.
  intros Ho Hc. unfold find, bind. rewrite ensure_open_run, Hc.
  destruct (collect_answers order filter st) as (answer & Hrs & Hans).
  - rewrite Forall_forall. intros [n e]. rewrite Ho. intros He%elem_of_map_to_list. by apply names_match.
  - rewrite Ho. apply NoDup_fst_map_to_list.
  - exists answer. split.
    + intros n e He. rewrite Forall_forall in Hans. apply (Hans (n, e)). rewrite Ho. by apply elem_of_map_to_list.
    + destruct (collect order filter st) as [rs st']. cbn [fst] in Hrs. subst rs. unfold ret. cbn [fst].
      do 2 f_equal. rewrite (sort_keyed _ (fun n => Answered (answer n)) order Ho).
      by rewrite assemble_answers.
Qed.

End Inventory.

(** ** Construction and shutdown *)

Section Shutdown.
Context {F R B V : Type} `{SchemaEngine V} `{Outside F R B} (debug_str : string -> string).

Notation State := (State (R := R) (B := B) (V := V)).
Notation Entry := (Entry (F := F)).
Notation Event := (Event R B).
Notation Active := (Active (R := R) (V := V)).

Lemma try_entries_ok (registry : Registry F) ambient ps acc m : try_entries registry ambient ps acc = Ok m ->
  forall n e, m !! n = Some e -> acc !! n = Some e \/
    exists cfg, (n, cfg) ∈ ps /\
      e = mkCatalogEntry n cfg (launch_environment cfg ambient) (registry_factory registry cfg)
            (local_error_of n cfg ambient).
Proof.
  revert acc. induction ps as [|[n cfg] ps IH]; intros acc; cbn [try_entries]; [intros [= ->]; auto|].
  destruct (negb (is_set (acc !! n))) eqn:En; [|done]. intros Hm n' e' He'.
  destruct (IH _ Hm n' e' He') as [Hacc|(cfg' & ? & ?)]; [|right; exists cfg'; split; [by right|done]].
  destruct (decide (n' = n)) as [->|Hne].
  - rewrite lookup_insert_eq in Hacc. injection Hacc as <-. right. exists cfg. split; [by left|done].
  - rewrite lookup_insert_ne in Hacc by done. by left.
Qed.

Lemma try_new_ok (registry : Registry F) ambient ps catalog : try_new registry ambient ps = Ok catalog ->
  forall n e, entries_of catalog !! n = Some e -> exists cfg, (n, cfg) ∈ ps /\
    e = mkCatalogEntry n cfg (launch_environment cfg ambient) (registry_factory registry cfg)
          (local_error_of n cfg ambient).
Proof.
  unfold try_new. destruct (try_entries registry ambient ps ∅) as [m|] eqn:E; cbn; [|done].
  intros [= <-] n e He. destruct (try_entries_ok _ _ _ _ _ E n e He) as [?|?]; [simplify_map_eq|done].
Qed.

Lemma try_new_names (registry : Registry F) ambient ps catalog : try_new registry ambient ps = Ok catalog ->
  forall n e, entries_of catalog !! n = Some e -> entry_name e = n.
Proof. intros Hc n e (cfg & _ & ->)%(try_new_ok _ _ _ _ Hc). done. Qed.

(** The shutdown calls: one for each active entry, in the order given. *)
Definition shutdown_event (p : Active * reply unit) : Event := EvShutdown (runtime (fst p)) (snd p).

Definition replies (calls : list (Active * reply unit)) : list (reply unit) := snd <$> calls.

Lemma shutdown_all_calls l (st : State) : exists calls,
  fst <$> calls = omap (fun ne => actives st !! entry_name (snd ne)) l /\
  snd (shutdown_all l st) = mkState (actives st) (closed st) (shutdown_result st)
    (rev (shutdown_event <$> calls) ++ log st) /\
  first_error (fst (shutdown_all l st)) = first_error (replies calls) /\
  all_answered (fst (shutdown_all l st)) = all_answered (replies calls).
Proof.
  revert st. induction l as [|[n e] l IH]; intros st; cbn [shutdown_all].
  { exists []. split_and!; [done| |done..]. by destruct st. }
  cbn [omap list_omap snd]. destruct (actives st !! entry_name e) as [a|] eqn:Ea; cbn [call ret].
  - set (ans := rt_shutdown (log st) (runtime a)). set (st1 := with_log st _).
    destruct (IH st1) as (calls & Hc & Hst & Hf & Ha). exists ((a, ans) :: calls).
    destruct (shutdown_all l st1) as [rs st2]. cbn [fst snd replies fmap list_fmap] in *. split_and!.
    + cbn. by rewrite Hc.
    + rewrite Hst. cbn. by rewrite <- app_assoc.
    + cbn. by destruct ans as [[[]|]|].
    + unfold all_answered in *. cbn. by rewrite Ha.
  - destruct (IH st) as (calls & Hc & Hst & Hf & Ha). exists calls.
    destruct (shutdown_all l st) as [rs st2]. cbn [fst snd] in *. split_and!; done.
Qed.

Context (catalog : Catalog (F := F)).

Lemma shutdown_run (st : State) :
  let (r, st') := shutdown catalog st in
  closed st' = true /\ actives st' = actives st /\
  match shutdown_result st with
  | Some res => r = Answered res /\ log st' = log st /\ shutdown_result st' = Some res
  | None => exists calls,
      fst <$> calls = omap (fun ne => actives st !! entry_name (snd ne)) (entries (entries_of catalog)) /\
      log st' = rev (shutdown_event <$> calls) ++ log st /\
      if all_answered (replies calls)
      then r = Answered (first_error (replies calls)) /\ shutdown_result st' = Some (first_error (replies calls))
      else r = Unanswered /\ shutdown_result st' = None
  end.
Proof.
  unfold shutdown. cbn [shutdown_result]. destruct (shutdown_result st) as [res|] eqn:Er; [done|].
  destruct (shutdown_all_calls (entries (entries_of catalog)) (mkState (actives st) true (shutdown_result st) (log st)))
    as (calls & Hc & Hst & Hf & Ha). rewrite Er in Hst, Hf, Ha.
  destruct (shutdown_all _ _) as [rs st2]. cbn [fst snd] in *. subst st2. rewrite Hf, Ha.
  destruct (all_answered (replies calls)) eqn:Eall; cbn; (split; [done|split; [done|]]); exists calls; by rewrite Eall.
Qed.

(** A closed catalog: nothing is called, and nothing changes. *)
Lemma closed_active (e : Entry) (st : State) : closed st = true -> active e st = (Answered (Err (Stale NotStarted)), st).
Proof. intros Hc. by rewrite active_run, Hc. Qed.

Lemma closed_ready (e : Entry) (st : State) : closed st = true -> ready e st = (Answered (Err (Stale NotStarted)), st).
Proof. intros Hc. unfold ready, bind. by rewrite closed_active. Qed.

Lemma closed_route ref (st : State) : closed st = true ->
  exists err, route catalog ref st = (Answered (Err err), st).
Proof.
  intros Hc. unfold route, bind at 1, handle. cbn [lift].
  destruct (entries_of catalog !! provider ref) as [e|]; cbn; [|eauto]. unfold bind. rewrite closed_ready by done. eauto.
Qed.

Lemma closed_admit (e : Entry) spec (st : State) : closed st = true ->
  exists err, admit_spec debug_str e spec st = (Answered (Err err), st).
Proof.
  intros Hc. unfold admit_spec, bind at 1. cbn [lift]. destruct (validate debug_str spec) as [[]|err]; [|eauto].
  unfold bind. rewrite closed_ready by done. eauto.
Qed.

End Shutdown.

(** ** Properties *)

(** A provider outside that answers everything, for the witnesses. *)
Definition demo_engine : SchemaEngine unit := {| build _ _ := Some tt; violation _ _ := None |}.

Definition demo_schemas : ProviderSchemas :=
  mkSchemas "docker" "1" {[ "$schema" := JStr "https://json-schema.org/draft/2020-12/schema" ]} None ["TOKEN"].

Definition demo_descriptor : Descriptor :=
  mkDescriptor demo_schemas (mkNamespace "local" NsMachine) IsoContainer DurMachine Shared [SkImage]
    (mkLocality None true) [] [] PortsNone (mkCapabilitySet [] [] false false [] []).

Definition demo_outside : Outside unit string SandboxRef := {|
  discover _ _ _ := Answered (Ok demo_schemas);
  activate _ _ x := Answered (Ok (act_name x));
  describe _ _ := Answered (Ok demo_descriptor);
  rt_health _ _ := Answered (Ok (mkHealth true None));
  rt_create _ r _ := Answered (Ok (mkRef r "local" "box"));
  rt_attach _ r id := Answered (Ok (mkRef r "local" id));
  rt_list _ r _ := Answered (Ok [mkSummary (mkRef r "local" "box") None Running ∅]);
  rt_destroy _ _ _ := Answered (Ok tt);
  rt_shutdown _ _ := Answered (Ok tt);
  resolve _ name := Answered (Ok (Some "secret"));
  source_names _ := Answered (Ok []);
  source_get _ _ := Answered (Ok None);
  reference_of r := r;
|}.

Definition demo_entry : ProviderEntry := mkEntry "docker" ∅ ["TOKEN"] None None [] ∅ (Some []).
Definition demo_registry : Registry unit := mkRegistry {[ "docker" := tt ]} None.
Definition demo_catalog_entry : Entry := mkCatalogEntry "d" demo_entry ∅ (Some tt) None.
Definition demo_catalog : Catalog := mkCatalog {[ "d" := demo_catalog_entry ]}.
Definition quoted (s : string) : string := s.

Section Properties.
Context {F R B V : Type} `{SchemaEngine V} `{Outside F R B} (debug_str : string -> string).

(** C4. Whatever operations ran: an entry is active only if its local checks
    passed and its plugin's metadata has its kind, compiles, accepts its
    configuration and asks for no secret it does not name, and its runtime was
    activated with its own configuration, launch environment and resolved
    secrets; every runtime ever started serves its entry, was told to shut down,
    or was cut off while being described; an active entry keeps its runtime and a
    closed catalog stays closed. *)
Theorem catalog_invariant (registry : Registry F) ambient ps catalog (st : State (R := R) (B := B) (V := V)) :
  try_new registry ambient ps = Ok catalog -> reachable debug_str catalog st ->
  (forall n a, actives st !! n = Some a -> exists cfg e, (n, cfg) ∈ ps /\
     e = mkCatalogEntry n cfg (launch_environment cfg ambient) (registry_factory registry cfg) None /\
     local_error_of n cfg ambient = None /\
     metadata_ok e (schemas (descriptor a)) (active_schemas a) /\
     exists x, EvActivate x (Answered (Ok (runtime a))) ∈ log st /\ request_ok e x) /\
  (forall x r, EvActivate x (Answered (Ok r)) ∈ log st -> accounted st x r) /\
  (forall st', step debug_str catalog st st' ->
     actives st ⊆ actives st' /\ (closed st = true -> closed st' = true)).
Proof.
  intros Hc Hr. pose proof (try_new_names _ _ _ _ Hc) as Hn.
  destruct (reachable_inv debug_str catalog Hn st Hr) as [HA HB]. split; [|split; [done|]].
  - intros n a (e & He & Hle & Hm & Hx)%HA. destruct (try_new_ok _ _ _ _ Hc _ _ He) as (cfg & Hin & ->).
    cbn in Hle. rewrite Hle in Hm, Hx. by eexists cfg, _.
  - intros st' (? & ? & _)%(step_later debug_str catalog Hn). done.
Qed.

(** C2. [create] hands a workload to a runtime at most once, as its last call and
    after nothing but preparation: the runtime is the entry's, its current
    descriptor agrees with activation and admits the spec, the provider schema
    accepts the configuration, and the credentials are those the services name,
    as the store resolved them. Otherwise it fails. The handle is returned only
    when it names this entry and namespace. *)
Theorem create_dispatch b (st : State (R := R) (B := B) (V := V)) :
  let (r, st') := create debug_str b st in
  dispatches st st' r (fun ev before => exists a d x ans,
    ev = EvCreate (runtime a) x ans /\ actives st' !! entry_name (builder_provider b) = Some a /\
    create_dispatched debug_str (builder_spec b) a d x before /\
    forall h, r = Answered (Ok h) <->
      ans = Answered (Ok h) /\ provider (reference_of h) = entry_name (builder_provider b) /\
      ref_namespace (reference_of h) = ns_id (namespace d)) /\
  (forall e, builder_error b = Some e \/ (builder_error b = None /\ validate debug_str (builder_spec b) = Err e) ->
     r = Answered (Err e) /\ st' = st).
Proof.
  destruct (create debug_str b st) as [r st'] eqn:E. split; [by apply create_cases|].
  intros e He. unfold create, admit_spec, bind in E. destruct (builder_error b) as [err|].
  - destruct He as [[= <-]|[? _]]; [|done]. by injection E as <- <-.
  - destruct He as [?|[_ Hv]]; [done|]. rewrite Hv in E. by injection E as <- <-.
Qed.

(** [attach] and [destroy] reach a backend only through the entry the
    reference names, as their last call, right after its runtime described the
    very namespace the reference was made in; a handle with another reference is
    not returned. *)
Theorem route_dispatch catalog ref (st : State (R := R) (B := B) (V := V)) :
  (let (r, st') := attach catalog ref st in
   dispatches st st' r (fun e before => exists a ans,
     e = EvAttach (runtime a) (ref_id ref) ans /\ routed catalog ref st' a before /\
     forall h, r = Answered (Ok h) <-> ans = Answered (Ok h) /\ reference_of h = ref)) /\
  (let (r, st') := destroy catalog ref st in
   dispatches st st' r (fun e before => exists a ans,
     e = EvDestroy (runtime a) (ref_id ref) ans /\ routed catalog ref st' a before /\ r = ans)).
Proof.
  split.
  - destruct (attach catalog ref st) eqn:E. by apply attach_cases.
  - destruct (destroy catalog ref st) eqn:E. by apply destroy_cases.
Qed.

(** The inventory of one entry is exactly what its runtime listed, once each
    and ordered by identity, and every item is of this entry and namespace and has
    the labels asked for; a batch is refused exactly when an item does not or two
    items of one sandbox differ. *)
Theorem list_spec e filter (st : State (R := R) (B := B) (V := V)) l st' :
  (handle_list e filter st = (Answered (Ok l), st') ->
   exists (a : Active (R := R) (V := V)) d ms before,
     log st' = EvList (runtime a) filter (Answered (Ok ms)) :: EvDescribe (runtime a) (Answered (Ok d)) :: before /\
     Forall (answers e d filter) l /\ (forall s, s ∈ l <-> s ∈ ms) /\
     NoDup ((fun s => ref_id (reference s)) <$> l) /\
     StronglySorted (fun i j => String.leb i j = true) ((fun s => ref_id (reference s)) <$> l)) /\
  (forall d ms, (exists u, unique_summaries (F := F) e d filter ms ∅ = Ok u) <->
     Forall (answers e d filter) ms /\ consistent ms).
Proof. split; [apply list_ok|intros d ms; apply unique_spec]. Qed.

(** [find] on an open catalog always answers, in whatever order the entries
    are taken: every entry is accounted for once, in name order, by its inventory
    or by a failure that names it and keeps its error. *)
Theorem find_spec (registry : Registry F) ambient ps catalog order filter (st : State (R := R) (B := B) (V := V)) :
  try_new registry ambient ps = Ok catalog -> order ≡ₚ map_to_list (entries_of catalog) -> closed st = false ->
  exists answer, (forall n e, entries_of catalog !! n = Some e ->
      listed (R := R) (B := B) (V := V) filter e (answer n)) /\
    fst (find order filter st) = Answered (Ok (mkFound
      (concat ((fun n => match answer n with Ok l => l | Err _ => [] end) <$> providers catalog))
      (List.filter (fun n => negb (is_ok (answer n))) (providers catalog))
      (omap (fun n => match answer n with Ok _ => None | Err e => Some (mkFailure n e) end) (providers catalog)))).
Proof. intros Hc. apply find_answers. by eapply try_new_names. Qed.

(** Shutdown closes the catalog for good, tells every active runtime to shut
    down exactly once, in name order and even when one fails, starts none, reports
    the first failure, and answers every later call with the same result without
    calling anyone. A closed catalog calls nothing for any operation and fails it. *)
Theorem shutdown_spec catalog (st : State (R := R) (B := B) (V := V)) :
  (let (r, st') := shutdown catalog st in
   closed st' = true /\ actives st' = actives st /\
   match shutdown_result st with
   | Some res => r = Answered res /\ log st' = log st /\ shutdown_result st' = Some res
   | None => exists calls,
       fst <$> calls = omap (fun ne => actives st !! entry_name (snd ne)) (entries (entries_of catalog)) /\
       log st' = rev (shutdown_event <$> calls) ++ log st /\
       if all_answered (replies calls)
       then r = Answered (first_error (replies calls)) /\ shutdown_result st' = Some (first_error (replies calls))
       else r = Unanswered /\ shutdown_result st' = None
   end) /\
  (closed st = true ->
   (forall e, handle_describe e st = (Answered (Err (Stale NotStarted)), st)) /\
   (forall e, handle_health e st = (Answered (Err (Stale NotStarted)), st)) /\
   (forall order filter, find order filter st = (Answered (Err (Stale NotStarted)), st)) /\
   (forall ref, exists err, attach catalog ref st = (Answered (Err err), st)) /\
   (forall ref, exists err, destroy catalog ref st = (Answered (Err err), st)) /\
   (forall b, exists err, create debug_str b st = (Answered (Err err), st))).
Proof.
  split; [apply shutdown_run|]. intros Hc. split_and!.
  - intros e. unfold handle_describe, bind. by rewrite closed_ready.
  - intros e. unfold handle_health, bind. by rewrite closed_active.
  - intros order filter. unfold find, bind. by rewrite ensure_open_run, Hc.
  - intros ref. destruct (closed_route catalog ref st Hc) as [err E]. exists err. unfold attach, bind. by rewrite E.
  - intros ref. destruct (closed_route catalog ref st Hc) as [err E]. exists err. unfold destroy, bind. by rewrite E.
  - intros b. unfold create. destruct (builder_error b) as [err|]; [by exists err|].
    destruct (closed_admit debug_str (builder_provider b) (builder_spec b) st Hc) as [err E]. exists err.
    unfold bind at 1. by rewrite E.
Qed.

End Properties.

Definition demo_start : State (R := string) (B := SandboxRef) (V := unit) := initial.
Definition demo_run : State (R := string) (B := SandboxRef) (V := unit) :=
  snd (@handle_describe unit string SandboxRef unit demo_engine demo_outside demo_catalog_entry demo_start).

Lemma catalog_invariant_witness :
  exists a, actives demo_run !! "d" = Some a /\ exists cfg e, ("d", cfg) ∈ [("d", demo_entry)] /\
    e = mkCatalogEntry "d" cfg (launch_environment cfg ∅) (registry_factory demo_registry cfg) None /\
    local_error_of "d" cfg ∅ = None /\
    @metadata_ok unit unit demo_engine e (schemas (descriptor a)) (active_schemas a) /\
    exists x, EvActivate x (Answered (Ok (runtime a))) ∈ log demo_run /\ request_ok e x.
Proof.
  eexists. split; [vm_compute; reflexivity|].
  refine (proj1 (@catalog_invariant unit string SandboxRef unit demo_engine demo_outside quoted demo_registry ∅
    [("d", demo_entry)] demo_catalog demo_run _ _) "d" _ _).
  - vm_compute. reflexivity.
  - apply rtc_once. apply (@step_describe _ _ _ _ _ _ _ _ _ "d"). vm_compute. reflexivity.
  - vm_compute. reflexivity.
Defined.

Lemma list_spec_witness : exists l st',
  @handle_list unit string SandboxRef unit demo_engine demo_outside demo_catalog_entry ∅ demo_start
    = (Answered (Ok l), st') /\
  NoDup ((fun s => ref_id (reference s)) <$> l).
Proof.
  eexists _, _. split; [vm_compute; reflexivity|].
  refine (match proj1 (@list_spec unit string SandboxRef unit demo_engine demo_outside demo_catalog_entry ∅
    demo_start _ _) _ with ex_intro _ a (ex_intro _ d (ex_intro _ ms (ex_intro _ before (conj _ (conj _ (conj _ (conj H _))))))) => H end).
  vm_compute. reflexivity.
Defined.

Lemma find_spec_witness : exists answer, forall n e, entries_of demo_catalog !! n = Some e ->
  @listed unit string SandboxRef unit demo_engine demo_outside ∅ e (answer n).
Proof.
  refine (match @find_spec unit string SandboxRef unit demo_engine demo_outside demo_registry ∅
    [("d", demo_entry)] demo_catalog [("d", demo_catalog_entry)] ∅ demo_start _ _ _ with
    ex_intro _ answer (conj H _) => ex_intro _ answer H end).
  - vm_compute. reflexivity.
  - vm_compute. reflexivity.
  - reflexivity.
Defined.

Lemma shutdown_spec_witness :
  let closed_now := snd (@shutdown unit string SandboxRef unit demo_outside demo_catalog demo_start) in
  @handle_describe unit string SandboxRef unit demo_engine demo_outside demo_catalog_entry closed_now =
    (Answered (Err (Stale NotStarted)), closed_now).
Proof.
  intros closed_now.
  refine (proj1 (proj2 (@shutdown_spec unit string SandboxRef unit demo_engine demo_outside quoted demo_catalog
    closed_now) _) demo_catalog_entry).
  vm_compute. reflexivity.
Defined.

Lemma create_dispatch_witness : exists st',
  @create unit string SandboxRef unit demo_engine demo_outside quoted
    (mkBuilder demo_catalog_entry (spec_new (SImage " ")) None) demo_start =
    (Answered (Err (InvalidSpec "source" "must not be empty")), st') /\ st' = demo_start.
Proof.
  pose proof (@create_dispatch unit string SandboxRef unit demo_engine demo_outside quoted
    (mkBuilder demo_catalog_entry (spec_new (SImage " ")) None) demo_start) as H.
  destruct (create _ _ _) as [r st']. destruct H as [_ H].
  destruct (H (InvalidSpec "source" "must not be empty")) as [-> ->]; [right; split; reflexivity|].
  exists demo_start. split; reflexivity.
Defined.
