(* ===== verification/Race.v ===== *)
(** * Activation racing with shutdown

    Models how the tasks of [crates/sandbox-driver/src/contract/catalog.rs] that
    activate one entry ([ProviderHandle::active]) interleave with
    [Sandboxes::shutdown]: the closed flag, the entry's lock held through
    initialization, the check before and after taking it, and a task that is
    dropped at any await. A step is what one task does between two awaits. Any
    number of tasks activate; the shutdown runs once, which its [OnceCell] sees to;
    a runtime is a number. *)

From S2P Require Import Prelude.

#[local] Open Scope nat_scope.

(** Where a task of [active] stands. *)
Inductive Pc :=
  | AtOpen        (** before the first check *)
  | AtLock        (** open when checked, waiting for the lock *)
  | AtSlot        (** holds the lock, before the second check *)
  | Launching     (** holds the lock, open when checked again, initializing *)
  | Returned.

(** Where the shutdown stands with this entry. *)
Inductive ShutdownPc := SdIdle | SdClosed | SdLocked | SdDone.

Inductive Holder := HeldBy (task : nat) | HeldByShutdown.

Record State := mkState {
  closed : bool;
  lock : option Holder;
  slot : option nat;
  tasks : nat -> Pc;
  sd : ShutdownPc;
  launched : list nat;
  told : list nat;
  dropped : list nat;
}.

Definition start : State := mkState false None None (fun _ => AtOpen) SdIdle [] [] [].

Definition set_task (st : State) (i : nat) (p : Pc) : State :=
  mkState (closed st) (lock st) (slot st) (fun j => if j =? i then p else tasks st j) (sd st)
    (launched st) (told st) (dropped st).

Definition set_lock (st : State) (l : option Holder) : State :=
  mkState (closed st) l (slot st) (tasks st) (sd st) (launched st) (told st) (dropped st).

(** A task that returns, releasing the lock it holds. *)
Definition leave (st : State) (i : nat) : State := set_task (set_lock st None) i Returned.

(** How an initialization ends. *)
Inductive Launch :=
  | NoRuntime                (** an error before a runtime exists *)
  | Activated (r : nat)      (** the runtime is kept in the slot *)
  | Rejected (r : nat)       (** its description failed and it was told to shut down *)
  | Cut (r : nat).           (** the task was dropped while it was described *)

Definition finish_launch (st : State) (i : nat) (o : Launch) : State :=
  let st := leave st i in
  match o with
  | NoRuntime => st
  | Activated r => mkState (closed st) (lock st) (Some r) (tasks st) (sd st) (r :: launched st) (told st) (dropped st)
  | Rejected r => mkState (closed st) (lock st) (slot st) (tasks st) (sd st) (r :: launched st) (r :: told st) (dropped st)
  | Cut r => mkState (closed st) (lock st) (slot st) (tasks st) (sd st) (r :: launched st) (told st) (r :: dropped st)
  end.

Definition first_check (st : State) (i : nat) : State :=
  set_task st i (if closed st then Returned else AtLock).

(** The second check, and the slot: an active entry is returned. *)
Definition second_check (st : State) (i : nat) : State :=
  if closed st then leave st i
  else match slot st with
       | Some _ => leave st i
       | None => set_task st i Launching
       end.

Definition set_sd (st : State) (p : ShutdownPc) : State :=
  mkState (closed st) (lock st) (slot st) (tasks st) p (launched st) (told st) (dropped st).

Definition shutdown_start (st : State) : State :=
  mkState true (lock st) (slot st) (tasks st) SdClosed (launched st) (told st) (dropped st).

(** The runtime in the slot, if any, is told to shut down under the lock. *)
Definition shutdown_entry (st : State) : State :=
  mkState (closed st) None (slot st) (tasks st) SdDone (launched st)
    (match slot st with Some r => r :: told st | None => told st end) (dropped st).

Inductive step (st : State) : State -> Prop :=
  | step_first i : tasks st i = AtOpen -> step st (first_check st i)
  | step_lock i : tasks st i = AtLock -> lock st = None ->
      step st (set_task (set_lock st (Some (HeldBy i))) i AtSlot)
  | step_second i : tasks st i = AtSlot -> step st (second_check st i)
  | step_launch i o : tasks st i = Launching -> step st (finish_launch st i o)
  | step_drop_waiting i : tasks st i = AtOpen \/ tasks st i = AtLock -> step st (set_task st i Returned)
  | step_drop_holding i : tasks st i = AtSlot -> step st (leave st i)
  | step_shutdown_start : sd st = SdIdle -> step st (shutdown_start st)
  | step_shutdown_lock : sd st = SdClosed -> lock st = None ->
      step st (set_sd (set_lock st (Some HeldByShutdown)) SdLocked)
  | step_shutdown_entry : sd st = SdLocked -> step st (shutdown_entry st).

Definition reachable (st : State) : Prop := rtc step start st.

(** ** The invariant *)

Definition holds (p : Pc) : Prop := p = AtSlot \/ p = Launching.

Definition shut_down (st : State) (r : nat) : Prop := r ∈ told st \/ r ∈ dropped st.

Record inv (st : State) : Prop := {
  inv_lock i : holds (tasks st i) <-> lock st = Some (HeldBy i);
  inv_shutdown_lock : sd st = SdLocked <-> lock st = Some HeldByShutdown;
  inv_closed : closed st = true <-> sd st <> SdIdle;
  inv_empty i : tasks st i = Launching -> slot st = None;
  inv_late i : sd st = SdLocked \/ sd st = SdDone -> tasks st i <> Launching;
  inv_launched r : r ∈ launched st -> slot st = Some r \/ shut_down st r;
  inv_done r : sd st = SdDone -> slot st = Some r -> r ∈ told st;
}.

Lemma inv_start : inv start.
Proof. split; cbn; try naive_solver; try (intros r Hr; by apply not_elem_of_nil in Hr). unfold holds. naive_solver. Qed.

Ltac task j i := destruct (Nat.eqb_spec j i) as [->|?].

(** A task that holds no lock moves without taking it. *)
Lemma inv_move (st : State) i p : inv st -> ~ holds (tasks st i) -> ~ holds p -> inv (set_task st i p).
Proof.
  unfold holds. intros [] Hi Hp. split; cbn; try done.
  - intros j. unfold holds. task j i; [|apply inv_lock0]. rewrite <- inv_lock0. unfold holds in *. tauto.
  - intros j. task j i; [tauto|apply inv_empty0].
  - intros j Hsd. task j i; [tauto|by apply inv_late0].
Qed.

(** The holder of the lock leaves, the slot being as it was. *)
Lemma inv_leave (st : State) i : inv st -> holds (tasks st i) -> inv (leave st i).
Proof.
  intros [] Hi. pose proof Hi as Hl. apply inv_lock0 in Hl.
  split; cbn; try done.
  - intros j. task j i; [unfold holds; naive_solver|]. split; [|done]. rewrite inv_lock0, Hl. congruence.
  - rewrite inv_shutdown_lock0, Hl. done.
  - intros j. task j i; [done|apply inv_empty0].
  - intros j Hsd. task j i; [done|by apply inv_late0].
Qed.

Lemma inv_finish (st : State) i o : inv st -> tasks st i = Launching -> inv (finish_launch st i o).
Proof.
  intros Hinv Hi. assert (holds (tasks st i)) as Hh by (by right).
  pose proof (inv_empty st Hinv i Hi) as Hslot. pose proof (inv_late st Hinv i) as Hlate.
  pose proof (inv_leave st i Hinv Hh) as Hl. unfold finish_launch. set (st' := leave st i) in *.
  assert (slot st' = None) as Hslot' by done. assert (sd st' = sd st) as Hsd by done.
  destruct o as [|r|r|r]; [done|..]; destruct Hl; split; cbn; try done; unfold shut_down in *; cbn in *.
  - intros j Hj. exfalso.
    assert (tasks st j = Launching /\ j <> i) as [Hj' Hne] by (revert Hj; task j i; [done|auto]).
    pose proof (proj1 (inv_lock st Hinv j) (or_intror Hj')) as H1.
    pose proof (proj1 (inv_lock st Hinv i) Hh) as H2. congruence.
  - intros r'. rewrite elem_of_cons. intros [->|Hr]; [by left|]. right.
    destruct (inv_launched0 r' Hr) as [?|?]; [congruence|done].
  - intros r' Hd _. exfalso. apply Hlate; [|done]. by right.
  - intros r'. rewrite !elem_of_cons. intros [->|Hr]; [by right; left; left|]. specialize (inv_launched0 r' Hr). tauto.
  - intros r' Hd Hs. right. by apply inv_done0.
  - intros r'. rewrite !elem_of_cons. intros [->|Hr]; [by right; right; left|]. specialize (inv_launched0 r' Hr). tauto.
Qed.

Lemma inv_take (st : State) i : inv st -> tasks st i = AtLock -> lock st = None ->
  inv (set_task (set_lock st (Some (HeldBy i))) i AtSlot).
Proof.
  intros [] Hi Hl. split; cbn; try done.
  - intros j. task j i; [unfold holds; naive_solver|]. rewrite inv_lock0, Hl. naive_solver.
  - rewrite inv_shutdown_lock0, Hl. done.
  - intros j. task j i; [done|apply inv_empty0].
  - intros j Hsd. task j i; [done|by apply inv_late0].
Qed.

Lemma inv_launching (st : State) i : inv st -> tasks st i = AtSlot -> closed st = false -> slot st = None ->
  inv (set_task st i Launching).
Proof.
  intros [] Hi Hc Hs. assert (sd st = SdIdle) as Hsd.
  { destruct (sd st) eqn:E; [done|..]; exfalso;
      assert (closed st = true) by (apply inv_closed0; congruence); congruence. }
  split; cbn; try done.
  - intros j. task j i; [|apply inv_lock0]. rewrite <- inv_lock0, Hi. unfold holds. naive_solver.
  - intros j. rewrite Hsd. naive_solver.
Qed.

Lemma inv_step (st st' : State) : step st st' -> inv st -> inv st'.
Proof.
  intros Hstep Hinv. destruct Hstep as [i Hi|i Hi Hl|i Hi|i o Hi|i Hi|i Hi|Hsd|Hsd Hl|Hsd].
  - unfold first_check. apply inv_move; [done|rewrite Hi; by intros []|]. by destruct (closed st); intros [].
  - by apply inv_take.
  - unfold second_check. destruct (closed st) eqn:Ec; [apply inv_leave; [done|by left]|].
    destruct (slot st) eqn:Es; [apply inv_leave; [done|by left]|]. by apply inv_launching.
  - by apply inv_finish.
  - apply inv_move; [done| |by intros []]. destruct Hi as [-> | ->]; by intros [].
  - apply inv_leave; [done|by left].
  - destruct Hinv. split; cbn; try done.
    + rewrite <- inv_shutdown_lock0, Hsd. done.
    + intros i [?|?]; done.
  - destruct Hinv. split; cbn; try done.
    + intros i. rewrite inv_lock0, Hl. done.
    + rewrite inv_closed0, Hsd. done.
    + intros i _ Hi. assert (lock st = Some (HeldBy i)) by (apply inv_lock0; by right). congruence.
  - destruct Hinv. pose proof (proj1 inv_shutdown_lock0 Hsd) as Hl. split; cbn; try done.
    + intros i. rewrite inv_lock0, Hl. done.
    + rewrite inv_closed0, Hsd. done.
    + intros i _. apply inv_late0. by left.
    + intros r Hr. destruct (inv_launched0 r Hr) as [Hs|[?|?]]; unfold shut_down; cbn; [by left|right; left|by right; right].
      destruct (slot st); [by right|done].
    + intros r _ Hs. rewrite Hs. by left.
Qed.

Lemma race_inv (st : State) : reachable st -> inv st.
Proof.
  intros Hr. cut (inv start -> inv st); [intros H; apply H, inv_start|]. revert Hr. unfold reachable.
  generalize start. induction 1 as [|s1 s2 s3 Hs _ IH]; [done|]. intros H1. apply IH. by eapply inv_step.
Qed.

Lemma done_step (st st' : State) : inv st -> step st st' -> sd st = SdDone ->
  sd st' = SdDone /\ launched st' = launched st.
Proof.
  intros Hinv Hstep Hd. destruct Hstep as [i Hi|i Hi Hl|i Hi|i o Hi|i Hi|i Hi|Hsd|Hsd Hl|Hsd]; try congruence; try done.
  - unfold second_check. by destruct (closed st), (slot st).
  - destruct (inv_late st Hinv i); [by right|done].
Qed.

Lemma done_steps (st st' : State) : rtc step st st' -> inv st -> sd st = SdDone -> launched st' = launched st.
Proof.
  induction 1 as [|s1 s2 s3 Hs _ IH]; [done|]. intros Hinv Hd.
  destruct (done_step _ _ Hinv Hs Hd) as [Hd2 <-]. apply IH; [by eapply inv_step|done].
Qed.

(** C23. However tasks interleave, and wherever one is dropped: at most one task
    initializes the entry at a time; and once shutdown is done with the entry, every
    runtime ever started was told to shut down or was dropped while described, and
    no task starts another. The check made again under the lock is what ensures
    it. *)
Theorem shutdown_race (st : State) : reachable st ->
  (forall i j, tasks st i = Launching -> tasks st j = Launching -> i = j) /\
  (sd st = SdDone -> (forall r, r ∈ launched st -> shut_down st r) /\
     forall st', rtc step st st' -> launched st' = launched st).
Proof.
  intros Hr. pose proof (race_inv st Hr) as Hinv. split.
  - intros i j Hi Hj. pose proof (proj1 (inv_lock st Hinv i) (or_intror Hi)) as H1.
    pose proof (proj1 (inv_lock st Hinv j) (or_intror Hj)) as H2. congruence.
  - intros Hd. split; [|intros st' Hs; by apply (done_steps st)].
    intros r [Hs|?]%(inv_launched st Hinv); [|done]. left. by apply (inv_done st Hinv).
Qed.

(** A task that activates runtime 7, then the shutdown. *)
Definition demo_run : State :=
  shutdown_entry (set_sd (set_lock (shutdown_start (finish_launch (second_check
    (set_task (set_lock (first_check start 0) (Some (HeldBy 0))) 0 AtSlot) 0) 0 (Activated 7)))
    (Some HeldByShutdown)) SdLocked).

Lemma shutdown_race_witness : 7 ∈ launched demo_run /\ shut_down demo_run 7.
Proof.
  split; [left|].
  refine (proj1 (proj2 (shutdown_race demo_run _) eq_refl) 7 _); [|left].
  eapply rtc_l; [apply (step_first _ 0); reflexivity|].
  eapply rtc_l; [apply (step_lock _ 0); reflexivity|].
  eapply rtc_l; [apply (step_second _ 0); reflexivity|].
  eapply rtc_l; [apply (step_launch _ 0 (Activated 7)); reflexivity|].
  eapply rtc_l; [apply step_shutdown_start; reflexivity|].
  eapply rtc_l; [apply step_shutdown_lock; reflexivity|].
  eapply rtc_l; [apply step_shutdown_entry; reflexivity|].
  apply rtc_refl.
Defined.
