(* ===== verification/Frames.v ===== *)
(** * The data channel: frames and admission

    Models [crates/sandbox-driver-protocol/src/channel.rs]: the frame writer and
    reader, the expectations a host registers and the admission of a connection.
    A sink answers each write as its oracle says, and takes everything once the
    oracle is spent; a source is the bytes that arrive before it ends or fails.
    JSON decoding of the open frame is a parameter; permits, timings and the
    setup samples are not modelled, an exhausted budget is an input of [expect]. *)

From S2P Require Import Prelude Text Errors.

#[local] Open Scope string_scope.
#[local] Open Scope list_scope.
#[local] Open Scope Z_scope.

Definition MAX_FRAME_BYTES : Z := 64 * 1024.
Definition HEADER_LEN : nat := 5.

Inductive FrameKind := Open | Stdout | Stderr | Stdin | Eof.

#[export] Instance FrameKind_eq_dec : EqDecision FrameKind.
Proof. solve_decision. Defined.

Definition kind_byte (k : FrameKind) : u8 :=
  match k with Open => 0 | Stdout => 1 | Stderr => 2 | Stdin => 3 | Eof => 4 end.

Definition from_byte (byte : u8) : option FrameKind :=
  if byte =? 0 then Some Open
  else if byte =? 1 then Some Stdout
  else if byte =? 2 then Some Stderr
  else if byte =? 3 then Some Stdin
  else if byte =? 4 then Some Eof
  else None.

Definition transport_new (context : string) : Error := Transport (mkTransportError context []).
Definition transport_error (context error : string) : Error := Transport (mkTransportError context [error]).

(** [u32::to_be_bytes] and [u32::from_be_bytes]. *)
Definition to_be_bytes (n : Z) : bytes :=
  [Z.land (Z.shiftr n 24) 255; Z.land (Z.shiftr n 16) 255; Z.land (Z.shiftr n 8) 255; Z.land n 255].

Definition from_be_bytes (a b c d : u8) : Z :=
  Z.lor (Z.lor (Z.shiftl a 24) (Z.shiftl b 16)) (Z.lor (Z.shiftl c 8) d).

(** ** Writing *)

(** How the sink answers a write or a flush: bytes taken (at most those given),
    an error, or no progress within the timeout. *)
Inductive Written := Wrote (n : nat) | WriteFailed (error : string) | NoProgress.

Record FrameWriter := mkWriter {
  out : bytes;
  sink : list Written;
  flushes : Written;
  w_max_bytes : Z;
  w_finished : bool;
}.

Definition writer_new (sink : list Written) (flushes : Written) (max_frame_bytes : Z) : FrameWriter :=
  mkWriter [] sink flushes max_frame_bytes false.

(** The sink's next answer to [bs]. *)
Definition next_written (w : FrameWriter) (bs : bytes) : Written * list Written :=
  match sink w with
  | [] => (Wrote (length bs), [])
  | Wrote n :: rest => (Wrote (n `min` length bs)%nat, rest)
  | answer :: rest => (answer, rest)
  end.

Definition with_out (w : FrameWriter) (bs : bytes) (rest : list Written) : FrameWriter :=
  mkWriter (out w ++ bs) rest (flushes w) (w_max_bytes w) (w_finished w).

(** [deliver]; a turn writes at least one byte, so that as many turns as bytes
    are enough. *)
Fixpoint deliver_loop (fuel : nat) (w : FrameWriter) (bs : bytes) : FrameWriter * result unit Error :=
  match bs, fuel with
  | [], _ => (w, Ok tt)
  | _, O => (w, Err (transport_new "out of fuel"))
  | _, S fuel =>
      let '(answer, rest) := next_written w bs in
      match answer with
      | NoProgress =>
          (with_out w [] rest, Err (transport_new "data output made no progress; delivery is incomplete"))
      | WriteFailed e => (with_out w [] rest, Err (transport_error "writing data frame" e))
      | Wrote O => (with_out w [] rest, Err (transport_error "writing data frame" "write zero"))
      | Wrote n => deliver_loop fuel (with_out w (take n bs) rest) (drop n bs)
      end
  end.

Definition deliver (w : FrameWriter) (bs : bytes) : FrameWriter * result unit Error :=
  deliver_loop (length bs) w bs.

Definition header (k : FrameKind) (length : Z) : bytes := kind_byte k :: to_be_bytes length.

Definition write_one (w : FrameWriter) (k : FrameKind) (payload : bytes) : FrameWriter * result unit Error :=
  if u32_bound <=? Z.of_nat (length payload)
  then (w, Err (InvalidSpec "frame" "payload exceeds the frame size"))
  else
    let '(w, r) := deliver w (header k (Z.of_nat (length payload))) in
    match r with Err e => (w, Err e) | Ok _ => deliver w payload end.

Fixpoint write_chunks (w : FrameWriter) (k : FrameKind) (cs : list bytes) : FrameWriter * result unit Error :=
  match cs with
  | [] => (w, Ok tt)
  | c :: cs =>
      let '(w, r) := write_one w k c in
      match r with Err e => (w, Err e) | Ok _ => write_chunks w k cs end
  end.

Definition bad_limit (max_bytes : Z) : bool := (max_bytes =? 0) || (MAX_FRAME_BYTES <? max_bytes).

Definition no_bytes (bs : bytes) : bool := match bs with [] => true | _ => false end.

Definition write (w : FrameWriter) (k : FrameKind) (payload : bytes) : FrameWriter * result unit Error :=
  if w_finished w || bad_limit (w_max_bytes w)
  then (w, Err (InvalidSpec "frame" "invalid frame limit or write after EOF"))
  else if bool_decide (k = Eof) && negb (no_bytes payload)
  then (w, Err (InvalidSpec "frame" "EOF must have an empty payload"))
  else if bool_decide (k = Open) && (w_max_bytes w <? Z.of_nat (length payload))
  then (w, Err (InvalidSpec "frame" "open cannot span frames"))
  else if no_bytes payload then write_one w k payload
  else write_chunks w k (chunks (Z.to_nat (w_max_bytes w)) payload).

Definition finish (w : FrameWriter) : FrameWriter * result unit Error :=
  let '(w, r) := write w Eof [] in
  match r with
  | Err e => (w, Err e)
  | Ok _ =>
      let w := mkWriter (out w) (sink w) (flushes w) (w_max_bytes w) true in
      match flushes w with
      | NoProgress => (w, Err (transport_new "data channel flush made no progress"))
      | WriteFailed e => (w, Err (transport_error "flushing data channel" e))
      | Wrote _ => (w, Ok tt)
      end
  end.

(** ** Reading *)

(** What arrives, and whether it ends there or fails. *)
Record FrameReader := mkReader {
  input : bytes;
  failing : option string;
  r_max_bytes : Z;
  r_finished : bool;
}.

Definition reader_new (input : bytes) (failing : option string) (max_frame_bytes : Z) : FrameReader :=
  mkReader input failing max_frame_bytes false.

(** [read_exact]: the bytes asked for, or what ended the source. *)
Definition read_exact (r : FrameReader) (n : nat) (context : string) : FrameReader * result bytes Error :=
  if (length (input r) <? n)%nat then
    (mkReader [] (failing r) (r_max_bytes r) (r_finished r),
     Err (transport_error context (match failing r with Some e => e | None => "early eof" end)))
  else
    (mkReader (drop n (input r)) (failing r) (r_max_bytes r) (r_finished r), Ok (take n (input r))).

Definition set_finished (r : FrameReader) : FrameReader := mkReader (input r) (failing r) (r_max_bytes r) true.

Definition read_body (r : FrameReader) (k : FrameKind) (length : Z)
    : FrameReader * result (option (FrameKind * bytes)) Error :=
  if r_max_bytes r <? length then
    (r, Err (InvalidSpec "frame" ("payload of " +:+ print_uint length +:+ " bytes exceeds the "
               +:+ print_uint (r_max_bytes r) +:+ " limit")))
  else if bool_decide (k = Eof) && negb (length =? 0)
  then (r, Err (InvalidSpec "frame" "EOF must have an empty payload"))
  else
    let r := if bool_decide (k = Eof) then set_finished r else r in
    let '(r, payload) := read_exact r (Z.to_nat length) "reading data frame" in
    match payload with
    | Err e => (r, Err e)
    | Ok payload => (r, Ok (Some (k, payload)))
    end.

Definition read (r : FrameReader) : FrameReader * result (option (FrameKind * bytes)) Error :=
  if r_finished r then (r, Ok None)
  else if bad_limit (r_max_bytes r) then (r, Err (InvalidSpec "frame" "invalid frame limit"))
  else
    match input r with
    | [] =>
        (r, Err (match failing r with
                 | Some e => transport_error "reading data frame header" e
                 | None => transport_new "data channel closed before EOF; delivery is incomplete"
                 end))
    | byte :: rest =>
        let r := mkReader rest (failing r) (r_max_bytes r) (r_finished r) in
        let '(r, tail) := read_exact r 4 "reading data frame header" in
        match tail with
        | Err e => (r, Err e)
        | Ok [a; b; c; d] =>
            match from_byte byte with
            | None => (r, Err (InvalidSpec "frame" ("unknown kind " +:+ print_uint byte)))
            | Some k => read_body r k (from_be_bytes a b c d)
            end
        | Ok _ => (r, Err (InvalidSpec "frame" "invalid frame limit"))
        end
    end.

Definition next_stdin (r : FrameReader) : FrameReader * option bytes :=
  let '(r, frame) := read r in
  match frame with
  | Ok (Some (Stdin, payload)) => (r, Some payload)
  | _ => (r, None)
  end.

(** ** Channels *)

Record ChannelRequest := mkRequest { channel_id : Z; token : string }.
Record OpenFrame := mkOpenFrame { open_request : ChannelRequest; acknowledge : bool }.

(** Who may open data channels, and who connects. *)
Inductive TrustedPeer := TrustedProcess (pid : Z) | TrustedUser (uid : Z).
Record Credentials := mkCredentials { cred_pid : option Z; cred_uid : Z }.

Definition peer_allowed (p : TrustedPeer) (c : Credentials) : bool :=
  match p with
  | TrustedProcess pid =>
      match cred_pid c with Some v => (0 <=? v) && (v =? pid) | None => false end
  | TrustedUser uid => cred_uid c =? uid
  end.

(** A connection as the host sees it: its credentials, or why they cannot be
    read, the bytes it sends, whether its first frame comes in time, and how the
    acknowledgment is taken. *)
Record Connection := mkConnection {
  credentials : result Credentials string;
  stream : FrameReader;
  in_time : bool;
  reply : FrameWriter;
}.

(** The host's registry: expected channels with their tokens, and the ids
    given out. [waiting] are the operations that still hold their receiver. *)
Record Host := mkHost {
  next_channel : Z;
  pending : gmap Z string;
  waiting : gset Z;
  listening : bool;
}.

Definition host_start : Host := mkHost 1 ∅ ∅ true.

Section Channels.
(** [serde_json::from_slice] of an open frame: its value, or the line and
    column of the error. *)
Context (decode_open : bytes -> result OpenFrame (Z * Z)).

(** [expect], with whether each budget has a permit, and the random token. *)
Definition expect (h : Host) (io_free open_free : bool) (fresh : string) : Host * result ChannelRequest Error :=
  if negb (listening h) then (h, Err (transport_new "data listener failed"))
  else if negb io_free then (h, Err (Overloaded "active_io"))
  else if negb open_free then (h, Err (Overloaded "pending_opens"))
  else
    let id := next_channel h in
    (mkHost (id + 1) (<[id := fresh]> (pending h)) (waiting h ∪ {[id]}) (listening h), Ok (mkRequest id fresh)).

(** A receiver is dropped. *)
Definition forget (h : Host) (id : Z) : Host :=
  mkHost (next_channel h) (delete id (pending h)) (waiting h ∖ {[id]}) (listening h).

(** The listener fails: every pending open is dropped. *)
Definition listener_failed (h : Host) : Host := mkHost (next_channel h) ∅ (waiting h) false.

Definition first_frame (c : Connection) : FrameReader * result ChannelRequest Error * bool :=
  let '(r, opened) := read (stream c) in
  if negb (in_time c) then (r, Err (transport_new "data channel open timed out"), false)
  else
    match opened with
    | Err e => (r, Err e, false)
    | Ok (Some (Open, payload)) =>
        match decode_open payload with
        | Err (line, column) =>
            (r, Err (InvalidSpec "frame" ("invalid open frame at line " +:+ print_uint line +:+ " column "
                       +:+ print_uint column)), false)
        | Ok o => (r, Ok (open_request o), acknowledge o)
        end
    | Ok _ => (r, Err (InvalidSpec "frame" "the first frame on a data channel must be open"), false)
    end.

(** [admit]: the channel handed to the operation that waits on it. *)
Definition admit_channel (h : Host) (peer : TrustedPeer) (c : Connection)
    : Host * result (Z * FrameReader * FrameWriter) Error :=
  match credentials c with
  | Err e => (h, Err (transport_error "reading data peer credentials" e))
  | Ok creds =>
      if negb (peer_allowed peer creds) then (h, Err (InvalidSpec "peer" "unexpected data channel peer"))
      else
        match first_frame c with
        | (_, Err e, _) => (h, Err e)
        | (r, Ok open, ack) =>
            let id := channel_id open in
            match pending h !! id with
            | None =>
                (h, Err (InvalidSpec "channel_id" ("no operation is waiting on channel " +:+ print_uint id)))
            | Some expected =>
                if negb (String.eqb expected (token open))
                then (h, Err (InvalidSpec "token" "data channel token mismatch"))
                else
                  let h := mkHost (next_channel h) (delete id (pending h)) (waiting h) (listening h) in
                  let '(w, acked) := if ack then write (reply c) Open [] else (reply c, Ok tt) in
                  match acked with
                  | Err e => (h, Err e)
                  | Ok _ =>
                      if bool_decide (id ∈ waiting h) then (h, Ok (id, r, w))
                      else (h, Err (transport_new "the operation stopped waiting for its data channel"))
                  end
            end
        end
  end.

End Channels.

(** ** Lengths on the wire *)

Lemma testbit_byte n k i : 0 <= k -> 0 <= i ->
  Z.testbit (Z.land (Z.shiftr n k) 255) i = Z.testbit n (i + k) && (i <? 8).
Proof.
  intros Hk Hi. change 255 with (Z.ones 8). rewrite Z.land_spec, Z.shiftr_spec by done.
  by rewrite Z.testbit_ones_nonneg.
Qed.

Lemma testbit_high n i : 0 <= n < u32_bound -> 32 <= i -> Z.testbit n i = false.
Proof.
  intros Hn Hi. destruct (Z.eq_dec n 0) as [->|Hne]; [apply Z.bits_0|].
  apply Z.bits_above_log2; [lia|]. assert (Z.log2 n < 32); [|lia].
  apply Z.log2_lt_pow2; [lia|]. change (2 ^ 32) with u32_bound. lia.
Qed.

Lemma be_bytes_id n : 0 <= n < u32_bound ->
  from_be_bytes (Z.land (Z.shiftr n 24) 255) (Z.land (Z.shiftr n 16) 255) (Z.land (Z.shiftr n 8) 255) (Z.land n 255) = n.
Proof.
  intros Hn. unfold from_be_bytes. apply Z.bits_inj'. intros i Hi.
  assert (forall k, 0 <= k -> Z.testbit (Z.shiftl (Z.land (Z.shiftr n k) 255) k) i
    = (k <=? i) && (i <? k + 8) && Z.testbit n i) as Hpart.
  { intros k Hk. rewrite Z.shiftl_spec by done. destruct (Z.leb_spec k i) as [Hki|Hki]; cbn.
    - rewrite testbit_byte by lia. replace (i - k + k) with i by lia.
      destruct (Z.ltb_spec (i - k) 8), (Z.ltb_spec i (k + 8)); try lia; by destruct (Z.testbit n i).
    - apply Z.testbit_neg_r. lia. }
  rewrite !Z.lor_spec, !Hpart by lia.
  pose proof (Hpart 0 ltac:(lia)) as H0. rewrite Z.shiftl_0_r, Z.shiftr_0_r in H0. rewrite H0. clear H0 Hpart.
  destruct (Z.le_gt_cases 32 i) as [Hhi|Hlo].
  - rewrite (testbit_high n i) by done. by rewrite !andb_false_r.
  - destruct (Z.leb_spec 24 i), (Z.leb_spec 16 i), (Z.leb_spec 8 i), (Z.leb_spec 0 i), (Z.ltb_spec i (24 + 8)),
      (Z.ltb_spec i (16 + 8)), (Z.ltb_spec i (8 + 8)), (Z.ltb_spec i (0 + 8)); try lia; cbn; by rewrite ?orb_false_r.
Qed.

Lemma from_byte_kind k : from_byte (kind_byte k) = Some k.
Proof. by destruct k. Qed.

(** ** What a stream of frames is on the wire *)

Definition frame : Type := FrameKind * bytes.

Definition encode (f : frame) : bytes := header (fst f) (Z.of_nat (length (snd f))) ++ snd f.
Definition encode_all (fs : list frame) : bytes := fs ≫= encode.

Definition limit_ok (max_bytes : Z) : Prop := 0 < max_bytes <= MAX_FRAME_BYTES.

(** A frame that fits the limit; EOF carries nothing. *)
Definition frame_ok (max_bytes : Z) (f : frame) : Prop :=
  Z.of_nat (length (snd f)) <= max_bytes /\ (fst f = Eof -> snd f = []).

(** Reading to the end. *)
Inductive stream_end := Clean | Broken (e : Error) | Unfinished.

Fixpoint drain_loop (fuel : nat) (r : FrameReader) : list frame * stream_end :=
  match fuel with
  | O => ([], Unfinished)
  | S fuel =>
      match read r with
      | (_, Ok None) => ([], Clean)
      | (_, Err e) => ([], Broken e)
      | (r, Ok (Some f)) => let '(fs, e) := drain_loop fuel r in (f :: fs, e)
      end
  end.

(** Each frame takes at least a byte, the end one more turn. *)
Definition drain (r : FrameReader) : list frame * stream_end := drain_loop (2 + length (input r)) r.

Lemma limit_good m : limit_ok m -> bad_limit m = false.
Proof.
  unfold limit_ok, bad_limit. intros Hm. apply orb_false_iff.
  split; [apply Z.eqb_neq|apply Z.ltb_ge]; lia.
Qed.

Lemma read_header_part r k len rest : r_finished r = false -> bad_limit (r_max_bytes r) = false ->
  0 <= len < u32_bound -> input r = header k len ++ rest ->
  read r = read_body (mkReader rest (failing r) (r_max_bytes r) false) k len.
Proof.
  intros Hf Hm Hlen Hin. unfold read. rewrite Hf, Hm, Hin. unfold header, to_be_bytes. cbn [app].
  unfold read_exact. cbn [input length]. rewrite (proj2 (Nat.ltb_ge _ _)) by lia. cbn [take drop firstn skipn failing r_max_bytes r_finished].
  rewrite from_byte_kind, be_bytes_id by done. by destruct rest.
Qed.

Lemma read_body_ok r k p rest : input r = p ++ rest -> r_finished r = false -> frame_ok (r_max_bytes r) (k, p) ->
  read_body r k (Z.of_nat (length p)) =
    (mkReader rest (failing r) (r_max_bytes r) (bool_decide (k = Eof)), Ok (Some (k, p))).
Proof.
  intros Hin Hf [Hl He]. cbn [fst snd] in *. unfold read_body.
  rewrite (proj2 (Z.ltb_ge _ _)) by lia.
  assert (bool_decide (k = Eof) && negb (Z.of_nat (length p) =? 0) = false) as ->.
  { case_bool_decide as Hk; [|done]. by rewrite (He Hk). }
  set (r' := if bool_decide (k = Eof) then set_finished r else r).
  assert (input r' = p ++ rest /\ failing r' = failing r /\ r_max_bytes r' = r_max_bytes r /\
    r_finished r' = bool_decide (k = Eof)) as (E1 & E2 & E3 & E4).
  { unfold r'. case_bool_decide; cbn; by rewrite ?Hf. }
  unfold read_exact. rewrite E1, E2, E3, E4, Nat2Z.id, length_app.
  rewrite (proj2 (Nat.ltb_ge _ _)) by lia. by rewrite take_app_length, drop_app_length.
Qed.

Lemma frame_u32 m f : limit_ok m -> frame_ok m f -> 0 <= Z.of_nat (length (snd f)) < u32_bound.
Proof. unfold limit_ok, MAX_FRAME_BYTES, frame_ok, u32_bound. lia. Qed.

Lemma read_frame r f rest : r_finished r = false -> limit_ok (r_max_bytes r) -> frame_ok (r_max_bytes r) f ->
  input r = encode f ++ rest ->
  read r = (mkReader rest (failing r) (r_max_bytes r) (bool_decide (fst f = Eof)), Ok (Some f)).
Proof.
  destruct f as [k p]. intros Hf Hm Hok Hin. unfold encode in Hin. rewrite <- app_assoc in Hin. cbn [fst snd] in *.
  rewrite (read_header_part r k _ (p ++ rest) Hf (limit_good _ Hm) (frame_u32 _ _ Hm Hok) Hin).
  by apply (read_body_ok (mkReader (p ++ rest) (failing r) (r_max_bytes r) false)).
Qed.

(** A source that ends inside a frame fails as a transport. *)
Lemma read_short r f q : r_finished r = false -> limit_ok (r_max_bytes r) -> frame_ok (r_max_bytes r) f ->
  input r = q -> q `prefix_of` encode f -> (length q < length (encode f))%nat ->
  exists r' e, read r = (r', Err (Transport e)).
Proof.
  destruct f as [k p]. intros Hf Hm Hok Hin [t Ht] Hlen. unfold encode in *. cbn [fst snd] in *.
  destruct (Nat.lt_ge_cases (length q) 5) as [H5|H5].
  - unfold read. rewrite Hf, (limit_good _ Hm), Hin. destruct q as [|a q]; [destruct (failing r); by eexists _, _|].
    unfold read_exact. cbn [input length]. cbn in H5. rewrite (proj2 (Nat.ltb_lt _ _)) by lia. by eexists _, _.
  - assert (exists q', q = header k (Z.of_nat (length p)) ++ q' /\ p = q' ++ t) as (q' & -> & Hp).
    { exists (drop 5 q).
      assert (take 5 q = header k (Z.of_nat (length p))) as <-.
      { transitivity (take 5 (q ++ t)); [by rewrite take_app_le|]. by rewrite <- Ht. }
      split; [by rewrite take_drop|].
      transitivity (drop 5 (q ++ t)); [by rewrite <- Ht|]. by rewrite drop_app_le. }
    rewrite (read_header_part r k _ q' Hf (limit_good _ Hm) (frame_u32 _ _ Hm Hok) Hin).
    rewrite !length_app in Hlen.
    assert (k <> Eof) as Hk by (intros ->; destruct Hok as [_ Hp0]; cbn in Hp0; rewrite Hp0 in Hlen by done; cbn in Hlen; lia).
    unfold read_body. cbn [r_max_bytes fst snd]. destruct Hok as [Hl _]. cbn [fst snd] in Hl.
    rewrite (proj2 (Z.ltb_ge (r_max_bytes r) (Z.of_nat (length p)))) by lia. rewrite bool_decide_eq_false_2 by done. cbn [andb].
    unfold read_exact. cbn [input]. rewrite Nat2Z.id, (proj2 (Nat.ltb_lt _ _)) by lia. by eexists _, _.
Qed.

Definition eof : frame := (Eof, []).

Lemma encode_length f : (5 <= length (encode f))%nat.
Proof. unfold encode, header, to_be_bytes. rewrite length_app. cbn. lia. Qed.

Lemma eof_ok m : limit_ok m -> frame_ok m eof.
Proof. intros Hm. split; [unfold limit_ok in Hm; cbn; lia|done]. Qed.

(** A stream cut anywhere ends in a transport error. *)
Lemma drain_cut m fs fail p : limit_ok m -> Forall (frame_ok m) fs -> Forall (fun f => fst f <> Eof) fs ->
  p `prefix_of` encode_all fs ++ encode eof -> (length p < length (encode_all fs ++ encode eof))%nat ->
  forall fuel, (length p < fuel)%nat ->
  exists fs' e, drain_loop fuel (reader_new p fail m) = (fs', Broken (Transport e)) /\ fs' `prefix_of` fs.
Proof.
  intros Hm HF Hne. revert p. induction fs as [|f fs IH]; intros p Hp Hlen fuel Hfuel;
    (destruct fuel as [|fuel]; [lia|]); cbn [drain_loop].
  - destruct (read_short (reader_new p fail m) eof p) as (r' & e & ->); try done; [by apply eof_ok|].
    exists [], e. split; [done|apply prefix_nil].
  - apply Forall_cons in HF as [Hf HF]. apply Forall_cons in Hne as [Hf' Hne].
    cbn [encode_all mbind list_bind] in Hp, Hlen. rewrite <- app_assoc in Hp, Hlen.
    destruct (Nat.lt_ge_cases (length p) (length (encode f))) as [Hs|Hl].
    + destruct (read_short (reader_new p fail m) f p) as (r' & e & ->); try done; [by eapply prefix_short|].
      exists [], e. split; [done|apply prefix_nil].
    + apply prefix_split in Hp as (q & -> & Hq); [|done]. rewrite !length_app in Hlen. rewrite length_app in Hfuel. pose proof (encode_length f).
      rewrite (read_frame (reader_new (encode f ++ q) fail m) f q) by done.
      rewrite bool_decide_eq_false_2 by done. cbn [failing r_max_bytes reader_new].
      change (mkReader q fail m false) with (reader_new q fail m).
      destruct (IH HF Hne q Hq ltac:(unfold encode_all; rewrite length_app; lia) fuel ltac:(lia)) as (fs' & e & -> & Hpre).
      exists (f :: fs'), e. split; [done|by apply prefix_cons].
Qed.

Lemma drain_all m fs fail rest : limit_ok m -> Forall (frame_ok m) fs -> Forall (fun f => fst f <> Eof) fs ->
  forall fuel, (length (encode_all fs) + 2 <= fuel)%nat ->
  drain_loop fuel (reader_new (encode_all fs ++ encode eof ++ rest) fail m) = (fs ++ [eof], Clean).
Proof.
  intros Hm HF Hne. induction fs as [|f fs IH]; intros fuel Hfuel.
  - destruct fuel as [|[|fuel]]; cbn in Hfuel; try lia. cbn [drain_loop encode_all mbind list_bind app].
    rewrite (read_frame (reader_new (encode eof ++ rest) fail m) eof rest) by (done || by apply eof_ok).
    by rewrite bool_decide_eq_true_2.
  - apply Forall_cons in HF as [Hf HF]. apply Forall_cons in Hne as [Hf' Hne].
    cbn [encode_all mbind list_bind] in *. rewrite length_app in Hfuel. pose proof (encode_length f).
    destruct fuel as [|fuel]; [lia|]. cbn [drain_loop]. rewrite <- app_assoc.
    rewrite (read_frame _ f ((fs ≫= encode) ++ encode eof ++ rest)) by done.
    rewrite bool_decide_eq_false_2 by done. cbn [failing r_max_bytes reader_new].
    change (mkReader ?i fail m false) with (reader_new i fail m).
    fold (encode_all fs). rewrite IH by (done || (unfold encode_all; lia)). done.
Qed.

(** ** What the writer puts on the wire *)

(** A sink that makes progress at every write. *)
Definition obliging (w : FrameWriter) : Prop := Forall (fun a => exists n, a = Wrote (S n)) (sink w).

(** A run that was to write [bs]: what went out is a prefix of it, all of it on
    success, and an obliging sink makes it a success. *)
Definition wrote (w w' : FrameWriter) (res : result unit Error) (bs : bytes) : Prop :=
  (exists p, p `prefix_of` bs /\ out w' = out w ++ p /\ (res = Ok tt -> p = bs)) /\
  flushes w' = flushes w /\ w_max_bytes w' = w_max_bytes w /\ w_finished w' = w_finished w /\
  (obliging w -> obliging w' /\ res = Ok tt).

Lemma wrote_nothing w : wrote w w (Ok tt) [].
Proof. split; [exists []; by rewrite app_nil_r|]. by split_and!. Qed.

Lemma wrote_then w w1 w2 res b1 b2 : wrote w w1 (Ok tt) b1 -> wrote w1 w2 res b2 -> wrote w w2 res (b1 ++ b2).
Proof.
  intros ((p1 & _ & Ho1 & Hp1) & Hf1 & Hm1 & Hd1 & Hb1) ((p2 & Hp2 & Ho2 & Hr2) & Hf2 & Hm2 & Hd2 & Hb2).
  rewrite (Hp1 eq_refl) in Ho1. split.
  - exists (b1 ++ p2). split_and!; [by apply prefix_app|by rewrite Ho2, Ho1, app_assoc|]. intros Hr. by rewrite (Hr2 Hr).
  - split_and!; try congruence; intros Hob; by apply Hb2, Hb1.
Qed.

Lemma wrote_stopped w w' e b1 b2 : wrote w w' (Err e) b1 -> wrote w w' (Err e) (b1 ++ b2).
Proof.
  intros ((p & Hp & Ho & _) & Hf & Hm & Hd & Hb). split.
  - exists p. split_and!; [by apply prefix_app_r|done|done].
  - split_and!; try done; by intros [_ [=]]%Hb.
Qed.

Lemma wrote_failed w e rest bs : sink w <> [] -> rest = tail (sink w) -> ~ obliging w ->
  wrote w (with_out w [] rest) (Err e) bs.
Proof.
  intros _ _ Hob. split; [exists []; split_and!; [apply prefix_nil|done|done]|]. split_and!; try done.
Qed.

Lemma deliver_loop_wrote fuel w bs : (length bs <= fuel)%nat ->
  wrote w (fst (deliver_loop fuel w bs)) (snd (deliver_loop fuel w bs)) bs.
Proof.
  revert w bs. induction fuel as [|fuel IH]; intros w bs Hl.
  { destruct bs; [|cbn in Hl; lia]. apply wrote_nothing. }
  destruct bs as [|b bs]; [apply wrote_nothing|]. cbn [deliver_loop].
  assert (forall n rest, (0 < n <= length (b :: bs))%nat -> (obliging w -> Forall (fun a => exists n, a = Wrote (S n)) rest) ->
    wrote w (fst (deliver_loop fuel (with_out w (take n (b :: bs)) rest) (drop n (b :: bs))))
      (snd (deliver_loop fuel (with_out w (take n (b :: bs)) rest) (drop n (b :: bs)))) (b :: bs)) as Hgo.
  { intros n rest Hn Hrest. set (l := b :: bs) in *. set (w1 := with_out w (take n l) rest).
    assert (wrote w w1 (Ok tt) (take n l)) as H1.
    { split; [by exists (take n l)|]. split_and!; try done. intros Hob. split; [exact (Hrest Hob)|done]. }
    assert (length (drop n l) <= fuel)%nat as Hd by (rewrite length_drop; lia).
    pose proof (wrote_then _ _ _ _ _ _ H1 (IH w1 (drop n l) Hd)) as H2. by rewrite take_drop in H2. }
  unfold next_written. destruct (sink w) as [|[n|e|] rest] eqn:Es.
  - cbn [length]. apply (Hgo (S (length bs)) []); [cbn; lia|by constructor].
  - destruct n as [|n]; cbn [Nat.min].
    + apply wrote_failed; [by rewrite Es|by rewrite Es|]. unfold obliging. rewrite Es.
      intros [[? [=]] _]%Forall_cons.
    + cbn [length Nat.min]. apply (Hgo (S (n `min` length bs)) rest); [cbn; lia|].
      unfold obliging. rewrite Es. by intros [_ ?]%Forall_cons.
  - apply wrote_failed; [by rewrite Es|by rewrite Es|]. unfold obliging. rewrite Es. intros [[? [=]] _]%Forall_cons.
  - apply wrote_failed; [by rewrite Es|by rewrite Es|]. unfold obliging. rewrite Es. intros [[? [=]] _]%Forall_cons.
Qed.

Lemma deliver_wrote w bs : wrote w (fst (deliver w bs)) (snd (deliver w bs)) bs.
Proof. by apply deliver_loop_wrote. Qed.

Lemma write_one_wrote w k p : Z.of_nat (length p) < u32_bound ->
  wrote w (fst (write_one w k p)) (snd (write_one w k p)) (encode (k, p)).
Proof.
  intros Hl. unfold write_one, encode. cbn [fst snd]. rewrite (proj2 (Z.leb_gt _ _)) by done.
  pose proof (deliver_wrote w (header k (Z.of_nat (length p)))) as H1.
  destruct (deliver w _) as [w1 [[]|e]]; cbn [fst snd] in *.
  - eapply wrote_then; [exact H1|apply deliver_wrote].
  - by apply wrote_stopped.
Qed.

Lemma write_chunks_wrote w k cs : Forall (fun c => Z.of_nat (length c) < u32_bound) cs ->
  wrote w (fst (write_chunks w k cs)) (snd (write_chunks w k cs)) (encode_all ((fun c => (k, c)) <$> cs)).
Proof.
  intros HF. revert w. induction HF as [|c cs Hc HF IH]; intros w; [apply wrote_nothing|].
  cbn [write_chunks]. rewrite fmap_cons. cbn [encode_all mbind list_bind].
  pose proof (write_one_wrote w k c Hc) as H1. destruct (write_one w k c) as [w1 [[]|e]]; cbn [fst snd] in *.
  - eapply wrote_then; [exact H1|apply IH].
  - by apply wrote_stopped.
Qed.

(** The frames one write makes. *)
Definition frames_of (max_bytes : Z) (f : frame) : list frame :=
  if no_bytes (snd f) then [f] else (fun c => (fst f, c)) <$> chunks (Z.to_nat max_bytes) (snd f).

Lemma frames_of_spec m f : limit_ok m ->
  concat (snd <$> frames_of m f) = snd f /\ Forall (fun g => fst g = fst f /\ Z.of_nat (length (snd g)) <= m) (frames_of m f).
Proof.
  intros Hm. unfold limit_ok in Hm. destruct f as [k p]. unfold frames_of. cbn [fst snd].
  destruct p as [|b p]; cbn [no_bytes]; [split; [done|constructor; [cbn [fst snd length]; split; [done|lia]|done]]|].
  destruct (chunks_spec (Z.to_nat m) (b :: p)) as [Hc HF]; [lia|]. rewrite <- list_fmap_compose. split.
  - rewrite <- Hc at 2. f_equal. rewrite <- (list_fmap_id (chunks _ _)) at 2. by apply list_fmap_ext.
  - apply Forall_fmap. eapply Forall_impl; [exact HF|]. intros c Hlen. cbv beta in Hlen. unfold compose. cbn [fst snd]. split; [done|lia].
Qed.

(** What a write may be asked: no payload with EOF, an open that fits. *)
Definition sendable (max_bytes : Z) (f : frame) : Prop :=
  (fst f = Eof -> snd f = []) /\ (fst f = Open -> Z.of_nat (length (snd f)) <= max_bytes).

Lemma write_wrote w f : limit_ok (w_max_bytes w) -> w_finished w = false -> sendable (w_max_bytes w) f ->
  wrote w (fst (write w (fst f) (snd f))) (snd (write w (fst f) (snd f))) (encode_all (frames_of (w_max_bytes w) f)).
Proof.
  destruct f as [k p]. cbn [fst snd]. intros Hm Hf [He Ho]. cbn [fst snd] in *.
  pose proof (frames_of_spec _ (k, p) Hm) as [_ HF]. unfold write, frames_of in *. cbn [fst snd] in *. rewrite Hf, (limit_good _ Hm). cbn [orb].
  assert (bool_decide (k = Eof) && negb (no_bytes p) = false) as ->.
  { case_bool_decide as Hk; [|done]. by rewrite (He Hk). }
  assert (bool_decide (k = Open) && (w_max_bytes w <? Z.of_nat (length p)) = false) as ->.
  { case_bool_decide as Hk; [|done]. apply Z.ltb_ge. by apply Ho. }
  destruct (no_bytes p) eqn:Ep.
  - cbn [encode_all mbind list_bind]. rewrite app_nil_r. apply write_one_wrote. by destruct p.
  - apply write_chunks_wrote. rewrite Forall_fmap in HF. eapply Forall_impl; [exact HF|].
    intros c [_ Hc]. cbn [fst snd] in Hc. unfold limit_ok, MAX_FRAME_BYTES in Hm. unfold u32_bound in *. lia.
Qed.

(** Writes in order, stopping at the first that fails, then the end. *)
Fixpoint send_all (w : FrameWriter) (sends : list frame) : FrameWriter * result unit Error :=
  match sends with
  | [] => finish w
  | f :: sends =>
      let '(w, r) := write w (fst f) (snd f) in
      match r with Err e => (w, Err e) | Ok _ => send_all w sends end
  end.

Lemma send_all_out w sends : limit_ok (w_max_bytes w) -> w_finished w = false ->
  Forall (sendable (w_max_bytes w)) sends ->
  let wire := encode_all (sends ≫= frames_of (w_max_bytes w)) ++ encode eof in
  let (w', r) := send_all w sends in
  (exists p, out w' = out w ++ p /\ p `prefix_of` wire /\ (r = Ok tt -> p = wire)) /\
  (obliging w -> (exists n, flushes w = Wrote n) -> r = Ok tt).
Proof.
  intros Hm Hf HF. revert w Hm Hf HF. induction sends as [|f sends IH]; intros w Hm Hf HF; cbv zeta; cbn [send_all].
  - pose proof (write_wrote w eof Hm Hf ltac:(by split)) as ((p & Hp & Ho & Hr) & Hfl & _ & _ & Hob).
    change (encode_all (frames_of (w_max_bytes w) eof)) with (encode eof) in *.
    unfold finish. cbn [fst snd eof] in *. destruct (write w Eof []) as [w1 [[]|e]]; cbn [fst snd] in *.
    + rewrite (Hr eq_refl) in Ho.
      cbn [flushes out]. rewrite Hfl. destruct (flushes w) as [n|e|]; cbn;
        (split; [exists (encode eof); split_and!; [exact Ho|done|done]|]); [done|by intros _ [? [=]]..].
    + split; [|by intros [_ [=]]%Hob]. exists p. by split_and!.
  - apply Forall_cons in HF as [Hs HF].
    pose proof (write_wrote w f Hm Hf Hs) as ((p & Hp & Ho & Hr) & Hfl & Hmax & Hfin & Hob).
    destruct (write w (fst f) (snd f)) as [w1 [[]|e]]; cbn [fst snd] in *.
    + rewrite (Hr eq_refl) in Ho. rewrite <- Hmax in Hm, HF. rewrite Hf in Hfin.
      specialize (IH w1 Hm Hfin HF). destruct (send_all w1 sends) as [w2 r].
      destruct IH as [(q & Hq & Hpre & Hok) Hob2]. rewrite Hmax in Hpre, Hok. split.
      * eexists. split; [rewrite Hq, Ho, <- app_assoc; reflexivity|]. rewrite bind_cons.
        unfold encode_all in *. rewrite bind_app, <- app_assoc.
        split; [by apply prefix_app|]. intros Hres. by rewrite (Hok Hres).
      * intros Hw Hflush. apply Hob2; [by apply Hob|by rewrite Hfl].
    + split; [|by intros [_ [=]]%Hob]. exists p. split_and!; [done| |done].
      rewrite bind_cons. unfold encode_all. rewrite bind_app, <- app_assoc. by apply prefix_app_r.
Qed.

(** The payload a list of frames carries for one kind. *)
Definition payload_of (k : FrameKind) (fs : list frame) : bytes :=
  concat (snd <$> List.filter (fun f => bool_decide (fst f = k)) fs).

Lemma payload_app k fs gs : payload_of k (fs ++ gs) = payload_of k fs ++ payload_of k gs.
Proof. unfold payload_of. by rewrite List.filter_app, fmap_app, concat_app. Qed.

Lemma payload_same k k' fs : Forall (fun f => fst f = k') fs ->
  payload_of k fs = if bool_decide (k' = k) then concat (snd <$> fs) else [].
Proof.
  unfold payload_of. induction 1 as [|f fs Hf HF IH]; [by case_bool_decide|]. cbn [List.filter]. rewrite Hf.
  case_bool_decide; [|done]. cbn. by rewrite IH.
Qed.

Lemma payload_frames m k sends : limit_ok m -> payload_of k (sends ≫= frames_of m) = payload_of k sends.
Proof.
  intros Hm. induction sends as [|f sends IH]; [done|]. rewrite bind_cons, payload_app, IH.
  change (f :: sends) with ([f] ++ sends). rewrite payload_app. f_equal.
  destruct (frames_of_spec m f Hm) as [Hc HF].
  rewrite (payload_same k (fst f)) by (eapply Forall_impl; [exact HF|by intros g [? _]]).
  rewrite (payload_same k (fst f) [f]) by (by constructor). case_bool_decide; [|done]. cbn. by rewrite Hc, app_nil_r.
Qed.

Lemma frames_fit m sends : limit_ok m -> Forall (fun f => fst f <> Eof) sends ->
  Forall (frame_ok m) (sends ≫= frames_of m) /\ Forall (fun f => fst f <> Eof) (sends ≫= frames_of m).
Proof.
  intros Hm. induction 1 as [|f sends Hf HF [IH1 IH2]]; [by split|]. rewrite bind_cons, !Forall_app.
  destruct (frames_of_spec m f Hm) as [_ Hfs]. split; (split; [|done]).
  - eapply Forall_impl; [exact Hfs|]. intros g [Hg ?]. split; [done|]. congruence.
  - eapply Forall_impl; [exact Hfs|]. intros g [Hg ?]. congruence.
Qed.

(** ** Properties *)

(** C39. Whatever is written over a channel, in whatever pieces the sink takes it,
    is read back frame for frame: within the limit, in order, with the bytes of
    each kind unchanged. A stream that stops anywhere before its EOF, because the
    writer failed or the connection closed, reads as a prefix of the frames and then
    a transport error, never as a clean end; and a frame over the limit is refused
    before its payload is read. *)
Theorem channel_delivery m sends sink flush fail :
  limit_ok m -> Forall (sendable m) sends -> Forall (fun f => fst f <> Eof) sends ->
  let fs := sends ≫= frames_of m in
  let (w, r) := send_all (writer_new sink flush m) sends in
  (r = Ok tt -> drain (reader_new (out w) fail m) = (fs ++ [eof], Clean)) /\
  (Forall (fun f => Z.of_nat (length (snd f)) <= m) fs /\ forall k, payload_of k fs = payload_of k sends) /\
  (forall p, p `prefix_of` out w -> p <> encode_all fs ++ encode eof ->
     exists fs' e, drain (reader_new p fail m) = (fs', Broken (Transport e)) /\ fs' `prefix_of` fs) /\
  (Forall (fun a => exists n, a = Wrote (S n)) sink -> (exists n, flush = Wrote n) -> r = Ok tt) /\
  (forall k len rest, m < len < u32_bound -> exists reason,
     read (reader_new (header k len ++ rest) fail m) =
       (reader_new rest fail m, Err (InvalidSpec "frame" reason))).
Proof.
  intros Hm Hs Hne fs. destruct (frames_fit m sends Hm Hne) as [Hok Hkinds].
  pose proof (send_all_out (writer_new sink flush m) sends Hm eq_refl Hs) as Hsend. cbv zeta in Hsend.
  destruct (send_all _ sends) as [w r]. destruct Hsend as [(p & Ho & Hp & Hr) Hob]. cbn [out writer_new app] in Ho. subst p.
  split_and!.
  - intros Hres. rewrite (Hr Hres). rewrite <- (app_nil_r (encode eof)). apply drain_all; [done..|].
    cbn [input reader_new]. cbn [w_max_bytes writer_new]. fold fs. rewrite !length_app. lia.
  - eapply Forall_impl; [exact Hok|]. by intros f [? _].
  - intros k. by apply payload_frames.
  - intros p Hpre Hneq. cbn [w_max_bytes writer_new] in Hp.
    assert (p `prefix_of` encode_all fs ++ encode eof) as Hpre' by (by etrans).
    apply (drain_cut m fs fail p Hm Hok Hkinds Hpre'); [|cbn; lia].
    destruct Hpre' as [t Ht]. rewrite Ht, length_app. destruct t; [|cbn; lia]. by rewrite app_nil_r in Ht.
  - exact Hob.
  - intros k len rest Hlen. unfold limit_ok in Hm.
    rewrite (read_header_part (reader_new (header k len ++ rest) fail m) k len rest eq_refl (limit_good _ Hm)) by (done || lia).
    unfold read_body. cbn [r_max_bytes]. rewrite (proj2 (Z.ltb_lt _ _)) by (cbn; lia). by eexists.
Qed.

Lemma channel_delivery_witness :
  drain (reader_new (out (fst (send_all (writer_new [Wrote 2; Wrote 9] (Wrote 0) 4) [(Stdout, [1; 2; 3; 4; 5; 6]); (Stderr, [7])])))
    None 4) = ([(Stdout, [1; 2; 3; 4]); (Stdout, [5; 6]); (Stderr, [7]); eof], Clean).
Proof.
  pose proof (channel_delivery 4 [(Stdout, [1; 2; 3; 4; 5; 6]); (Stderr, [7])] [Wrote 2; Wrote 9] (Wrote 0) None
    ltac:(split; vm_compute; congruence) ltac:(repeat constructor; intros [=]) ltac:(repeat constructor; intros [=])) as H.
  cbv zeta in H. destruct (send_all _ _) as [w r] eqn:E. destruct H as [H _]. cbn [fst].
  apply H. assert (r = snd (send_all (writer_new [Wrote 2; Wrote 9] (Wrote 0) 4)
    [(Stdout, [1; 2; 3; 4; 5; 6]); (Stderr, [7])])) as -> by (by rewrite E).
  vm_compute. reflexivity.
Defined.

(** ** Admission, over a host's life *)

Section Admission.
Context (decode_open : bytes -> result OpenFrame (Z * Z)) (peer : TrustedPeer).

(** A host with the requests it handed out and the channels it admitted. *)
Record Run := mkRun { host : Host; handed : list (Z * string); admitted : list Z }.

Inductive run_step (s : Run) : Run -> Prop :=
  | run_expect io_free open_free fresh h req : expect (host s) io_free open_free fresh = (h, Ok req) ->
      run_step s (mkRun h ((channel_id req, token req) :: handed s) (admitted s))
  | run_forget id : run_step s (mkRun (forget (host s) id) (handed s) (admitted s))
  | run_failed : run_step s (mkRun (listener_failed (host s)) (handed s) (admitted s))
  | run_admit c h id r w : admit_channel decode_open (host s) peer c = (h, Ok (id, r, w)) ->
      run_step s (mkRun h (handed s) (id :: admitted s))
  | run_refuse c h e : admit_channel decode_open (host s) peer c = (h, Err e) ->
      run_step s (mkRun h (handed s) (admitted s)).

Definition run_reachable (s : Run) : Prop := rtc run_step (mkRun host_start [] []) s.

(** The open frame a connection brings: it is allowed, in time, and the frame
    decodes. *)
Definition opens (c : Connection) (open : ChannelRequest) : Prop :=
  exists creds payload o, credentials c = Ok creds /\ peer_allowed peer creds = true /\ in_time c = true /\
    snd (read (stream c)) = Ok (Some (Open, payload)) /\ decode_open payload = Ok o /\ open_request o = open.

Lemma first_frame_ok c r open ack : first_frame decode_open c = (r, Ok open, ack) -> forall creds,
  credentials c = Ok creds -> peer_allowed peer creds = true -> opens c open.
Proof.
  unfold first_frame, opens. destruct (read (stream c)) as [r' opened]. destruct (in_time c); cbn [negb]; [|done].
  destruct opened as [[[k payload]|]|e]; [destruct k|..]; try done.
  destruct (decode_open payload) as [o|[]] eqn:Ed; [|done]. intros [= _ <- _] creds Hc Hp.
  by exists creds, payload, o.
Qed.

(** An expectation is only ever consumed by the token it was handed out with. *)
Lemma admit_channel_spec h c h' res : admit_channel decode_open h peer c = (h', res) ->
  next_channel h' = next_channel h /\
  match res with
  | Ok (id, _, _) => exists open, opens c open /\ channel_id open = id /\ pending h !! id = Some (token open) /\
      pending h' = delete id (pending h) /\ id ∈ waiting h
  | Err _ => pending h' = pending h \/ exists open, opens c open /\
      pending h !! channel_id open = Some (token open) /\ pending h' = delete (channel_id open) (pending h)
  end.
Proof.
  unfold admit_channel. destruct (credentials c) as [creds|e] eqn:Ec; [|intros [= <- <-]; auto].
  destruct (peer_allowed peer creds) eqn:Ep; cbn [negb]; [|intros [= <- <-]; auto].
  destruct (first_frame decode_open c) as [[r [open|e]] ack] eqn:Ef; [|intros [= <- <-]; auto].
  pose proof (first_frame_ok _ _ _ _ Ef _ Ec Ep) as Ho.
  destruct (pending h !! channel_id open) as [t|] eqn:Et; [|intros [= <- <-]; auto].
  destruct (String.eqb_spec t (token open)) as [->|]; cbn [negb]; [|intros [= <- <-]; auto].
  destruct (if ack then _ else _) as [w [[]|e]]; [|intros [= <- <-]; split; [done|right; by exists open]].
  case_bool_decide; intros [= <- <-]; (split; [done|]); [by exists open|right; by exists open].
Qed.

Record run_inv (s : Run) : Prop := {
  ri_pending id t : pending (host s) !! id = Some t -> (id, t) ∈ handed s /\ id ∉ admitted s;
  ri_fresh id t : (id, t) ∈ handed s -> id < next_channel (host s);
  ri_handed : NoDup (fst <$> handed s);
  ri_admitted : NoDup (admitted s);
  ri_known id : id ∈ admitted s -> exists t, (id, t) ∈ handed s;
}.

(** Forgetting expectations keeps the invariant. *)
Lemma run_inv_fewer s h : run_inv s -> next_channel h = next_channel (host s) -> pending h ⊆ pending (host s) ->
  run_inv (mkRun h (handed s) (admitted s)).
Proof.
  intros [] Hn Hp. split; cbn; try done; [|by rewrite Hn]. intros id t Hid. apply ri_pending0. by eapply lookup_weaken.
Qed.

Lemma run_inv_step s s' : run_step s s' -> run_inv s -> run_inv s'.
Proof.
  intros Hstep Hinv. destruct Hstep as [io op fresh h req He|id| |c h id r w Ha|c h e Ha].
  - unfold expect in He. destruct (listening (host s)), io, op; cbn [negb] in He; try done.
    injection He as <- <-. destruct Hinv. split; cbn [host pending next_channel handed admitted channel_id token].
    + intros id t. destruct (decide (id = next_channel (host s))) as [->|Hne].
      * rewrite lookup_insert_eq. intros [= ->]. split; [by left|].
        intros (t' & Ht)%ri_known0. apply ri_fresh0 in Ht. lia.
      * rewrite lookup_insert_ne by done. intros [? ?]%ri_pending0. split; [by right|done].
    + intros id t [[= -> ->]|Hin]%elem_of_cons; [lia|]. apply ri_fresh0 in Hin. lia.
    + rewrite fmap_cons. constructor; [|done]. intros ([id t] & Hid & Hin)%list_elem_of_fmap.
      cbn in Hid. apply ri_fresh0 in Hin. lia.
    + done.
    + intros id (t & ?)%ri_known0. exists t. by right.
  - apply run_inv_fewer; [done|done|]. apply delete_subseteq.
  - apply run_inv_fewer; [done|done|]. apply map_empty_subseteq.
  - apply admit_channel_spec in Ha as (Hn & open & _ & <- & Hp & Hd & _). destruct Hinv.
    destruct (ri_pending0 _ _ Hp) as [Hh Ha]. split; cbn [host handed admitted]; rewrite ?Hn, ?Hd; try done.
    + intros id t. rewrite lookup_delete_Some. intros [Hne Hid]. destruct (ri_pending0 _ _ Hid) as [? ?].
      split; [done|]. by intros [->|?]%elem_of_cons.
    + by constructor.
    + intros id [->|?]%elem_of_cons; eauto.
  - apply admit_channel_spec in Ha as (Hn & [Hp|(open & _ & _ & Hp)]);
      apply run_inv_fewer; try done; rewrite Hp; [done|apply delete_subseteq].
Qed.

Lemma run_inv_reachable s : run_reachable s -> run_inv s.
Proof.
  unfold run_reachable. intros Hr.
  assert (forall s1 s2, rtc run_step s1 s2 -> run_inv s1 -> run_inv s2) as Hrun
    by (induction 1; eauto using run_inv_step).
  apply (Hrun _ _ Hr). split; try (by constructor).
  - intros id t Hin. by apply not_elem_of_nil in Hin.
  - intros id Hin. by apply not_elem_of_nil in Hin.
Qed.

End Admission.

(** Over a host's life, however connections, expectations and drops mix: no
    channel is admitted twice; a connection is handed to an operation only if the
    peer is the trusted one and its first frame, in time, is an open that carries the
    token handed out for that very channel; and a connection without that token
    consumes no expectation. *)
Theorem channel_admission decode_open peer s : run_reachable decode_open peer s ->
  NoDup (admitted s) /\
  (forall c h id r w, admit_channel decode_open (host s) peer c = (h, Ok (id, r, w)) ->
     exists open, opens decode_open peer c open /\ channel_id open = id /\ (id, token open) ∈ handed s /\
       id ∉ admitted s /\ id ∈ waiting (host s)) /\
  (forall c h e, admit_channel decode_open (host s) peer c = (h, Err e) ->
     pending h = pending (host s) \/ exists open, opens decode_open peer c open /\
       pending (host s) !! channel_id open = Some (token open) /\
       pending h = delete (channel_id open) (pending (host s))).
Proof.
  intros Hr. apply run_inv_reachable in Hr as []. split; [done|split].
  - intros c h id r w (_ & open & Ho & Hid & Hp & _ & Hw)%admit_channel_spec. exists open.
    destruct (ri_pending0 _ _ Hp). by split_and!.
  - by intros c h e (_ & ?)%admit_channel_spec.
Qed.

(** A decoder that knows one request, for the witness. *)
Definition demo_request : ChannelRequest := mkRequest 1 "t".
Definition demo_decode (_ : bytes) : result OpenFrame (Z * Z) := Ok (mkOpenFrame demo_request false).
Definition demo_connection : Connection :=
  mkConnection (Ok (mkCredentials (Some 7) 0)) (reader_new (encode (Open, [])) None 16) true
    (writer_new [] (Wrote 0) 16).
Definition demo_host : Host := fst (expect host_start true true "t").

Lemma channel_admission_witness : exists open,
  opens demo_decode (TrustedProcess 7) demo_connection open /\ channel_id open = 1 /\ (1, token open) ∈ [(1, "t")].
Proof.
  assert (exists h r w, admit_channel demo_decode demo_host (TrustedProcess 7) demo_connection = (h, Ok (1, r, w)))
    as (h & r & w & E) by (eexists _, _, _; vm_compute; reflexivity).
  destruct (proj1 (proj2 (channel_admission demo_decode (TrustedProcess 7) (mkRun demo_host [(1, "t")] [])
    (rtc_once _ _ (run_expect demo_decode (TrustedProcess 7) (mkRun host_start [] []) true true "t" demo_host demo_request eq_refl))))
    _ _ _ _ _ E) as (open & Ho & Hid & Hin & _).
  exists open. split; [exact Ho|]. split; [exact Hid|exact Hin].
Defined.
