(* ===== verification/Tar.v ===== *)
(** * Docker's archive transfers

    Models the scanner and the upload stream of
    [crates/sandbox-driver-docker/src/fs/tar.rs]: a ranged read out of a tar stream
    that arrives in chunks, and the archive of one file sent in bounded chunks. The
    tar crate's reading of a header block is the interface [TarHeader]. Building
    headers and re-rooting an archive are calls of that crate and are not modelled.
    The header buffer holds the bytes read so far. *)

From S2P Require Import Prelude Text Errors.

#[local] Open Scope string_scope.
#[local] Open Scope list_scope.
#[local] Open Scope Z_scope.

Definition TAR_BLOCK : Z := 512.
Definition TRANSFER_CHUNK_BYTES : Z := 64 * 1024.

(** What the tar crate reads in a header block: the size of the entry, or why it
    has none, and its kind. *)
Inductive EntryKind := KindFile | KindDirectory | KindLink | KindOther.

Class TarHeader := {
  entry_size : bytes -> result Z string;
  entry_kind : bytes -> EntryKind;
  size_range h n : entry_size h = Ok n -> 0 <= n < u64_bound;
}.

Definition padding_for (size : Z) : Z := (TAR_BLOCK - size mod TAR_BLOCK) mod TAR_BLOCK.

Inductive ScanState :=
  | Header
  | Skip (remaining : Z)
  | Content (position size : Z)
  | Done.

Inductive Step := NeedMore | Continue | Finished.

Inductive Archived := File | NotAFile.

Record TarScanner := mkScanner {
  offset : Z;
  length_ : option Z;
  header : bytes;
  state : ScanState;
  collected : bytes;
  found : bool;
}.

Definition scanner_new (offset : Z) (length : option Z) : TarScanner :=
  mkScanner offset length [] Header [] false.

Definition set_state (s : TarScanner) (st : ScanState) : TarScanner :=
  mkScanner (offset s) (length_ s) (header s) st (collected s) (found s).

(** [end]: the last byte wanted, exclusive; additions saturate. *)
Definition end_ (s : TarScanner) : Z :=
  match length_ s with
  | None => u64_bound - 1
  | Some l => Z.min (offset s + l) (u64_bound - 1)
  end.

Definition archive_error (text : string) : Error := Io "reading download archive" [text].

Definition padded (size : Z) : result Z Error :=
  if size + padding_for size <? u64_bound then Ok (size + padding_for size)
  else Err (archive_error "archive entry size overflows").

Section Scan.
Context `{TarHeader}.

(** A block is in: what the entry is and where to go next. *)
Definition enter (s : TarScanner) (block : bytes) : result (TarScanner * Step) Error :=
  let s := mkScanner (offset s) (length_ s) [] (state s) (collected s) (found s) in
  if forallb (fun byte => byte =? 0) block then Ok (set_state s Done, Finished)
  else
    let? size := map_err archive_error (entry_size block) in
    match entry_kind block with
    | KindFile =>
        Ok (mkScanner (offset s) (length_ s) [] (Content 0 size) (collected s) true, Continue)
    | KindDirectory | KindLink => Ok (set_state s Done, Finished)
    | KindOther => let? remaining := padded size in Ok (set_state s (Skip remaining), Continue)
    end.

Definition feed_header (s : TarScanner) (chunk : bytes) : result (TarScanner * bytes * Step) Error :=
  let n := Nat.min (Z.to_nat TAR_BLOCK - length (header s)) (length chunk) in
  let block := header s ++ take n chunk in
  let chunk := drop n chunk in
  if Z.of_nat (length block) <? TAR_BLOCK
  then Ok (mkScanner (offset s) (length_ s) block (state s) (collected s) (found s), chunk, NeedMore)
  else let? (s, step) := enter s block in Ok (s, chunk, step).

Definition feed_skip (s : TarScanner) (chunk : bytes) (remaining : Z) : TarScanner * bytes * Step :=
  let n := Nat.min (Z.to_nat remaining) (length chunk) in
  let remaining := remaining - Z.of_nat n in
  if 0 <? remaining then (set_state s (Skip remaining), drop n chunk, NeedMore)
  else (set_state s Header, drop n chunk, Continue).

(** The slice [from..to] of a chunk; subtractions of unsigned integers saturate. *)
Definition slice (from to : Z) (chunk : bytes) : bytes := drop (Z.to_nat from) (take (Z.to_nat to) chunk).

Definition feed_content (s : TarScanner) (chunk : bytes) (position size : Z) : TarScanner * Step :=
  let file_left := Z.max 0 (size - position) in
  let taken := Z.min (Z.of_nat (length chunk)) file_left in
  let keep_from := Z.min (Z.max 0 (offset s - position)) taken in
  let keep_to := Z.min (Z.max 0 (end_ s - position)) taken in
  let kept := if keep_from <? keep_to then slice keep_from keep_to chunk else [] in
  let s := mkScanner (offset s) (length_ s) (header s) (state s) (collected s ++ kept) (found s) in
  let position := position + taken in
  if (size <=? position) || (end_ s <=? position) then (set_state s Done, Finished)
  else (set_state s (Content position size), NeedMore).

(** One turn of [feed]: the scanner, what is left of the chunk, and the step. *)
Definition feed_step (s : TarScanner) (chunk : bytes) : result (TarScanner * bytes * Step) Error :=
  match state s with
  | Done => Ok (s, chunk, Finished)
  | Header => feed_header s chunk
  | Skip remaining => Ok (feed_skip s chunk remaining)
  | Content position size => let '(s, step) := feed_content s chunk position size in Ok (s, chunk, step)
  end.

(** The scanner and whether nothing further is wanted; [None] when the fuel is
    out. *)
Fixpoint feed_loop (fuel : nat) (s : TarScanner) (chunk : bytes) : option (result (TarScanner * bool) Error) :=
  match fuel with
  | O => None
  | S fuel =>
      match feed_step s chunk with
      | Err e => Some (Err e)
      | Ok (s, _, NeedMore) => Some (Ok (s, false))
      | Ok (s, _, Finished) => Some (Ok (s, true))
      | Ok (s, rest, Continue) => feed_loop fuel s rest
      end
  end.

(** Every second turn consumes a byte at least. *)
Definition feed (s : TarScanner) (chunk : bytes) : option (result (TarScanner * bool) Error) :=
  feed_loop (3 + 2 * length chunk) s chunk.

Definition finish (s : TarScanner) : result Archived Error :=
  match state s with
  | Done => Ok (if found s then File else NotAFile)
  | _ => Err (archive_error "archive ended before the requested file data was complete")
  end.

(** A download: chunks are fed until nothing further is wanted. *)
Fixpoint feed_all (s : TarScanner) (chunks : list bytes) : option (result TarScanner Error) :=
  match chunks with
  | [] => Some (Ok s)
  | chunk :: chunks =>
      match feed s chunk with
      | None => None
      | Some (Err e) => Some (Err e)
      | Some (Ok (s, true)) => Some (Ok s)
      | Some (Ok (s, false)) => feed_all s chunks
      end
  end.

End Scan.

(** ** Sending *)

(** How the source answers a read: some of its bytes, at most those asked for, or
    an error. *)
Inductive Read := Gave (n : nat) | ReadFailed (error : string).

Record Upload := mkUpload { source : bytes; reads : list Read; accepts : nat; sent : list bytes }.

(** [send]: the receiver takes [accepts] more messages. *)
Definition send (u : Upload) (bs : bytes) : result Upload Error :=
  match accepts u with
  | O => Err (Io "streaming upload archive" ["upload stopped reading"])
  | S n => Ok (mkUpload (source u) (reads u) n (sent u ++ [bs]))
  end.

(** A read of at most [wanted] bytes; once the oracle is spent, all that is
    wanted, as far as there is. *)
Definition read_source (u : Upload) (wanted : nat) : result (bytes * Upload) Error :=
  match reads u with
  | ReadFailed e :: _ => Err (Io "reading upload source" [e])
  | Gave n :: rest =>
      let n := Nat.min n wanted in
      Ok (take n (source u), mkUpload (drop n (source u)) rest (accepts u) (sent u))
  | [] => Ok (take wanted (source u), mkUpload (drop wanted (source u)) [] (accepts u) (sent u))
  end.

Fixpoint send_loop (fuel : nat) (u : Upload) (remaining : Z) : option (result Upload Error) :=
  if remaining <=? 0 then Some (Ok u)
  else
    match fuel with
    | O => None
    | S fuel =>
        let wanted := Nat.min (Z.to_nat remaining) (Z.to_nat TRANSFER_CHUNK_BYTES) in
        match read_source u wanted with
        | Err e => Some (Err e)
        | Ok ([], _) =>
            Some (Err (Io "reading upload source" ["source ended before the declared file length"]))
        | Ok (bs, u) =>
            match send u bs with
            | Err e => Some (Err e)
            | Ok u => send_loop fuel u (remaining - Z.of_nat (length bs))
            end
        end
    end.

(** [send_file_archive]; each turn of the loop takes a byte at least. *)
Definition send_file_archive (u : Upload) (prefix : bytes) (length : Z) : option (result Upload Error) :=
  match send u prefix with
  | Err e => Some (Err e)
  | Ok u =>
      match send_loop (Z.to_nat length) u length with
      | None => None
      | Some (Err e) => Some (Err e)
      | Some (Ok u) =>
          Some (send u (repeat 0 (Z.to_nat (padding_for length + 2 * TAR_BLOCK))))
      end
  end.

(** ** Chunks *)

(** The part of [bs] in [from..to], for any bounds. *)
Definition range (from to : Z) (bs : bytes) : bytes := slice (Z.max 0 from) (Z.max 0 to) bs.

Lemma range_app from to a b :
  range from to (a ++ b) =
  range from to a ++ range (from - Z.of_nat (length a)) (to - Z.of_nat (length a)) b.
Proof.
  unfold range, slice. set (x := Z.to_nat (Z.max 0 from)). set (y := Z.to_nat (Z.max 0 to)).
  replace (Z.to_nat (Z.max 0 (from - Z.of_nat (length a)))) with (x - length a)%nat by lia.
  replace (Z.to_nat (Z.max 0 (to - Z.of_nat (length a)))) with (y - length a)%nat by lia.
  rewrite take_app, drop_app, length_take. f_equal.
  destruct (Nat.le_gt_cases y (length a)) as [Hy|Hy].
  - replace (y - length a)%nat with O by lia. by rewrite take_0, !drop_nil.
  - by rewrite Nat.min_r by lia.
Qed.

Lemma range_empty from to bs : to <= 0 -> range from to bs = [].
Proof. intros Ht. unfold range, slice. replace (Z.to_nat (Z.max 0 to)) with O by lia. by rewrite take_0, drop_nil. Qed.

(** Clamping both bounds to what was taken is clamping the bytes. *)
Lemma slice_clamped from to (n : Z) bs : 0 <= n ->
  slice (Z.min (Z.max 0 from) n) (Z.min (Z.max 0 to) n) bs = range from to (take (Z.to_nat n) bs).
Proof.
  intros Hn. unfold range, slice. rewrite take_take.
  replace (Z.to_nat (Z.min (Z.max 0 to) n)) with (Z.to_nat (Z.max 0 to) `min` Z.to_nat n)%nat by lia.
  destruct (Z.le_gt_cases (Z.max 0 from) n) as [Hf|Hf]; [by rewrite Z.min_l|].
  rewrite !drop_ge; [done|rewrite length_take; lia..].
Qed.

Lemma kept_range from to (n : Z) bs : 0 <= n ->
  (if Z.min (Z.max 0 from) n <? Z.min (Z.max 0 to) n
   then slice (Z.min (Z.max 0 from) n) (Z.min (Z.max 0 to) n) bs else [])
  = range from to (take (Z.to_nat n) bs).
Proof.
  intros Hn. rewrite <- slice_clamped by done. destruct (Z.ltb_spec (Z.min (Z.max 0 from) n) (Z.min (Z.max 0 to) n)); [done|].
  unfold slice. rewrite drop_ge; [done|]. rewrite length_take. lia.
Qed.

Section ScanLemmas.
Context `{TarHeader}.

(** A scanner as [new] and [feed] leave it. *)
Definition wf (s : TarScanner) : Prop :=
  (length (header s) < 512)%nat /\ 0 <= offset s /\ 0 <= end_ s /\
  match state s with
  | Skip remaining => 0 <= remaining
  | Content position size => 0 <= position <= size
  | _ => True
  end.

Lemma content_run s chunk position size : 0 <= position <= size ->
  let taken := Z.min (Z.of_nat (length chunk)) (size - position) in
  feed_content s chunk position size =
    (mkScanner (offset s) (length_ s) (header s)
       (if (size <=? position + taken) || (end_ s <=? position + taken) then Done else Content (position + taken) size)
       (collected s ++ range (offset s - position) (end_ s - position) (take (Z.to_nat taken) chunk)) (found s),
     if (size <=? position + taken) || (end_ s <=? position + taken) then Finished else NeedMore).
Proof.
  intros Hp taken. unfold feed_content. rewrite Z.max_r by lia. fold taken. rewrite kept_range by lia.
  change (end_ (mkScanner (offset s) (length_ s) (header s) (state s) ?c (found s))) with (end_ s).
  by destruct (_ || _).
Qed.

(** A scanner between two chunks. *)
Definition at_rest (s : TarScanner) : Prop :=
  (length (header s) < 512)%nat /\
  match state s with
  | Skip remaining => 0 < remaining
  | Content position size => 0 <= position < size /\ position < end_ s
  | _ => True
  end.

Definition within (s : TarScanner) : Prop :=
  (length (header s) < 512)%nat /\
  match state s with
  | Skip remaining => 0 <= remaining
  | Content position size => 0 <= position <= size
  | _ => True
  end.

Lemma at_rest_within s : at_rest s -> within s.
Proof. unfold at_rest, within. destruct (state s); intuition lia. Qed.

Lemma feed_header_run s chunk : (length (header s) < 512)%nat -> feed_header s chunk =
  if (length (header s) + length chunk <? 512)%nat
  then Ok (mkScanner (offset s) (length_ s) (header s ++ chunk) (state s) (collected s) (found s), [], NeedMore)
  else match enter s (header s ++ take (512 - length (header s)) chunk) with
       | Ok (s', step) => Ok (s', drop (512 - length (header s)) chunk, step)
       | Err e => Err e
       end.
Proof.
  intros Hh. unfold feed_header. cbv zeta. change (Z.to_nat TAR_BLOCK) with 512%nat.
  change TAR_BLOCK with (Z.of_nat 512). rewrite length_app, length_take.
  rewrite (Nat.min_l (_ `min` _)) by lia.
  destruct (Nat.ltb_spec (length (header s) + length chunk) 512) as [Hl|Hl].
  - rewrite Nat.min_r by lia. rewrite firstn_all, skipn_all.
    destruct (Z.ltb_spec (Z.of_nat (length (header s) + length chunk)) (Z.of_nat 512)); [done|lia].
  - rewrite Nat.min_l by lia.
    destruct (Z.ltb_spec (Z.of_nat (length (header s) + (512 - length (header s)))) (Z.of_nat 512)); [lia|].
    by destruct (enter s _) as [[??]|].
Qed.

(** The turns of [feed] as a relation: fuel is not part of it. *)
Inductive runs : TarScanner -> bytes -> result (TarScanner * bool) Error -> Prop :=
  | runs_need s chunk s1 rest : feed_step s chunk = Ok (s1, rest, NeedMore) -> runs s chunk (Ok (s1, false))
  | runs_finished s chunk s1 rest : feed_step s chunk = Ok (s1, rest, Finished) -> runs s chunk (Ok (s1, true))
  | runs_err s chunk e : feed_step s chunk = Err e -> runs s chunk (Err e)
  | runs_continue s chunk s1 rest r :
      feed_step s chunk = Ok (s1, rest, Continue) -> runs s1 rest r -> runs s chunk r.

Lemma feed_loop_runs fuel s chunk r : feed_loop fuel s chunk = Some r -> runs s chunk r.
Proof.
  revert s chunk. induction fuel as [|fuel IH]; intros s chunk; [done|]. simpl.
  destruct (feed_step s chunk) as [[[s1 rest] []]|e] eqn:E; intros; simplify_eq; eauto using runs.
Qed.

Lemma runs_deterministic s chunk r1 r2 : runs s chunk r1 -> runs s chunk r2 -> r1 = r2.
Proof.
  intros H1. revert r2. induction H1; inversion 1; subst;
    repeat match goal with
    | A : feed_step ?s ?c = _, B : feed_step ?s ?c = _ |- _ => rewrite A in B; simplify_eq
    end; auto.
Qed.

Lemma enter_within s block s1 step : enter s block = Ok (s1, step) ->
  offset s1 = offset s /\ length_ s1 = length_ s /\ header s1 = [] /\ collected s1 = collected s /\
  match state s1 with
  | Skip remaining => 0 <= remaining /\ step = Continue
  | Content position size => position = 0 /\ 0 <= size /\ step = Continue
  | Done => step = Finished
  | Header => False
  end.
Proof.
  unfold enter. destruct (forallb _ _); [intros; by simplify_eq|].
  destruct (entry_size block) as [n|] eqn:En; [|done]. apply size_range in En. simpl.
  destruct (entry_kind block); intros; simplify_eq/=; [split_and!; done || lia..|].
  unfold padded in *. unfold padding_for, TAR_BLOCK in *.
  destruct (_ <? _); simplify_eq/=. split_and!; [done..| |done].
  pose proof (Z.mod_pos_bound (512 - n mod 512) 512). lia.
Qed.

Definition weight (s : TarScanner) (chunk : bytes) : nat :=
  match state s with
  | Header => 2 * length chunk + 1
  | Skip _ => 2 * length chunk + 2
  | Content _ _ | Done => 1
  end.

Lemma feed_step_within s chunk s1 rest step : within s -> feed_step s chunk = Ok (s1, rest, step) ->
  within s1 /\ (step = Continue -> (weight s1 rest < weight s chunk)%nat) /\ (step = NeedMore -> at_rest s1).
Proof.
  intros [Hh Hs]. unfold feed_step, weight. destruct (state s) as [|remaining|position size|] eqn:Es.
  - rewrite feed_header_run by done. destruct (Nat.ltb_spec (length (header s) + length chunk) 512) as [Hl|Hl].
    { intros; simplify_eq/=. unfold within, at_rest. simpl. rewrite Es, length_app. by split_and!; intros; try lia. }
    destruct (enter s _) as [[s2 st]|] eqn:E; [|done]. intros; simplify_eq.
    apply enter_within in E as (_ & _ & Hn & _ & Hst). unfold within, at_rest. rewrite Hn, length_drop. simpl.
    destruct (state s1); destruct_and?; try done; subst; split_and!; intros; try done; try lia.
  - unfold feed_skip. intros Hf. destruct (Z.ltb_spec 0 (remaining - Z.of_nat (Z.to_nat remaining `min` length chunk)));
      simplify_eq; unfold within, at_rest; simpl; rewrite ?length_drop; split_and!; intros; try done; lia.
  - rewrite content_run by lia. cbv zeta. intros Hf. simplify_eq. unfold within, at_rest. simpl.
    destruct (Z.leb_spec size (position + Z.min (Z.of_nat (length rest)) (size - position)));
      destruct (Z.leb_spec (end_ s) (position + Z.min (Z.of_nat (length rest)) (size - position)));
      simpl; split_and!; intros; try done; try lia; (split; [done|]); (split; [lia|assumption]).
  - intros; simplify_eq. unfold within. rewrite Es. by split_and!.
Qed.

Lemma feed_loop_total fuel s chunk : within s -> (weight s chunk <= fuel)%nat ->
  exists r, feed_loop fuel s chunk = Some r.
Proof.
  revert s chunk. induction fuel as [|fuel IH]; intros s chunk Hs Hw.
  { unfold weight in Hw. destruct (state s); lia. }
  simpl. destruct (feed_step s chunk) as [[[s1 rest] step]|] eqn:E; [|by eauto].
  apply feed_step_within in E as (Hs1 & Hc & _); [|done].
  destruct step; eauto. apply IH; [done|]. specialize (Hc eq_refl). lia.
Qed.

(** Fuel never runs out: [feed] is the relation. *)
Lemma feed_runs s chunk r : within s -> feed s chunk = Some r <-> runs s chunk r.
Proof.
  intros Hs. unfold feed.
  assert (Hw : (weight s chunk <= 3 + 2 * length chunk)%nat) by (unfold weight; destruct (state s); lia).
  destruct (feed_loop_total _ s chunk Hs Hw) as [r' Hr]. split; [apply feed_loop_runs|]. intros Hr'.
  rewrite Hr. f_equal. eapply runs_deterministic; [by eapply feed_loop_runs|done].
Qed.

Lemma feed_total s chunk : within s -> exists r, feed s chunk = Some r.
Proof. intros Hs. apply feed_loop_total; [done|]. unfold weight. destruct (state s); lia. Qed.

Lemma runs_within s chunk s1 fin : within s -> runs s chunk (Ok (s1, fin)) ->
  within s1 /\ (if fin then True else at_rest s1).
Proof.
  intros Hs Hr. remember (Ok (s1, fin)) as r eqn:Er. revert s1 fin Er.
  induction Hr as [s c s2 rest E|s c s2 rest E|s c e E|s c s2 rest r E Hr IH]; intros s1 fin Er; simplify_eq.
  1,2: by apply feed_step_within in E as (? & _ & ?); auto.
  apply feed_step_within in E as (? & _ & _); [|done]. by apply IH.
Qed.
(** A turn on a longer chunk. *)
Lemma continue_app s a b s1 rest : within s ->
  feed_step s a = Ok (s1, rest, Continue) -> feed_step s (a ++ b) = Ok (s1, rest ++ b, Continue).
Proof.
  intros [Hh Hs]. unfold feed_step. destruct (state s) as [|remaining|position size|] eqn:Es; [..|done].
  - rewrite !feed_header_run, length_app by done.
    destruct (Nat.ltb_spec (length (header s) + length a) 512); [done|].
    destruct (Nat.ltb_spec (length (header s) + (length a + length b)) 512); [lia|].
    rewrite take_app_le, drop_app_le by lia. destruct (enter s _) as [[??]|]; [|done]. by intros [= -> <- ->].
  - unfold feed_skip. rewrite length_app.
    destruct (Z.ltb_spec 0 (remaining - Z.of_nat (Z.to_nat remaining `min` length a))); [done|].
    destruct (Z.ltb_spec 0 (remaining - Z.of_nat (Z.to_nat remaining `min` (length a + length b)))); [lia|].
    intros [= <- <-]. repeat f_equal. rewrite !Nat.min_l by lia. rewrite drop_app_le by lia. done.
  - rewrite content_run by lia. cbv zeta. by destruct (_ || _).
Qed.

Lemma finished_app s a b s1 rest : within s ->
  feed_step s a = Ok (s1, rest, Finished) -> exists rest', feed_step s (a ++ b) = Ok (s1, rest', Finished).
Proof.
  intros [Hh Hs]. unfold feed_step. destruct (state s) as [|remaining|position size|] eqn:Es.
  - rewrite !feed_header_run, length_app by done.
    destruct (Nat.ltb_spec (length (header s) + length a) 512); [done|].
    destruct (Nat.ltb_spec (length (header s) + (length a + length b)) 512); [lia|].
    rewrite take_app_le, drop_app_le by lia. destruct (enter s _) as [[??]|]; [|done]. intros [= -> _ ->]. by eexists.
  - unfold feed_skip. by destruct (_ <? _).
  - rewrite !content_run by lia. cbv zeta. rewrite length_app.
    set (ta := Z.min (Z.of_nat (length a)) _). set (tb := Z.min (Z.of_nat (length a + length b)) _).
    assert (Htb : 0 <= ta <= tb /\ tb <= size - position /\ ta <= Z.of_nat (length a)) by lia.
    assert (Hcase : ta = tb \/ (ta = Z.of_nat (length a) /\ position + ta < size)) by lia.
    clearbody ta tb. destruct (_ || _) eqn:Ea; [|done]. intros [= <- _].
    replace ((size <=? position + tb) || (end_ s <=? position + tb)) with true by lia.
    assert (range (offset s - position) (end_ s - position) (take (Z.to_nat ta) a) =
      range (offset s - position) (end_ s - position) (take (Z.to_nat tb) (a ++ b))) as ->; [|by eexists].
    destruct Hcase as [->|[Ht Hp]]; [by rewrite take_app_le by lia|].
    rewrite take_app_ge by lia. rewrite firstn_all2 by lia.
    rewrite range_app, (range_empty (_ - _ - _)) by lia. by rewrite app_nil_r.
  - intros [= <- _]. by eexists.
Qed.

Lemma err_app s a b e : within s -> feed_step s a = Err e -> feed_step s (a ++ b) = Err e.
Proof.
  intros [Hh Hs]. unfold feed_step. destruct (state s) as [|remaining|position size|] eqn:Es; [|done|by destruct (feed_content _ _ _ _)|done].
  rewrite !feed_header_run, length_app by done.
  destruct (Nat.ltb_spec (length (header s) + length a) 512); [done|].
  destruct (Nat.ltb_spec (length (header s) + (length a + length b)) 512); [lia|].
  rewrite take_app_le by lia. by destruct (enter s _) as [[??]|].
Qed.

Lemma need_more_app s a b s1 rest : within s -> feed_step s a = Ok (s1, rest, NeedMore) ->
  feed_step s (a ++ b) = feed_step s1 b \/
  exists s2 step, feed_step s (a ++ b) = Ok (s2, a ++ b, step) /\ feed_step s1 b = Ok (s2, b, step) /\ step <> Continue.
Proof.
  intros [Hh Hs]. unfold feed_step. destruct (state s) as [|remaining|position size|] eqn:Es; [..|done].
  - rewrite !feed_header_run, length_app by done.
    destruct (Nat.ltb_spec (length (header s) + length a) 512) as [Hl|Hl].
    2: { destruct (enter s _) as [[s2 st]|] eqn:E; [|done]. intros [= <- _ ->].
         apply enter_within in E as (_ & _ & _ & _ & E). by destruct (state s2); destruct_and?. }
    intros [= <- _]. simpl. rewrite Es. left. rewrite feed_header_run by (simpl; rewrite length_app; lia).
    simpl. rewrite length_app, Nat.add_assoc, app_assoc.
    destruct (_ <? _)%nat; [done|]. rewrite take_app_ge, drop_app_ge by lia.
    rewrite !app_assoc. replace (512 - (length (header s) + length a))%nat with (512 - length (header s) - length a)%nat by lia.
    done.
  - unfold feed_skip. rewrite length_app.
    destruct (Z.ltb_spec 0 (remaining - Z.of_nat (Z.to_nat remaining `min` length a))) as [Hl|]; [|done].
    intros [= <- _]. left. simpl. unfold feed_skip, set_state. simpl.
    set (r1 := remaining - Z.of_nat (Z.to_nat remaining `min` length a)) in *.
    replace (remaining - Z.of_nat (Z.to_nat remaining `min` (length a + length b)))
      with (r1 - Z.of_nat (Z.to_nat r1 `min` length b)) by lia.
    replace (drop (Z.to_nat remaining `min` (length a + length b)) (a ++ b)) with (drop (Z.to_nat r1 `min` length b) b); [done|].
    rewrite drop_app_ge by lia. f_equal. lia.
  - rewrite !content_run by lia. cbv zeta. rewrite length_app.
    destruct (_ || _) eqn:Ea; [done|]. intros [= <- _]. right. simpl.
    apply orb_false_iff in Ea as [Ea1 Ea2]. apply Z.leb_gt in Ea1, Ea2.
    rewrite content_run by (simpl; lia). simpl.
    replace (Z.min (Z.of_nat (length a)) (size - position)) with (Z.of_nat (length a)) in * by lia.
    rewrite Nat2Z.id, firstn_all.
    set (tb := Z.min (Z.of_nat (length b)) _).
    replace (Z.min (Z.of_nat (length a + length b)) (size - position)) with (Z.of_nat (length a) + tb) by lia.
    replace (take (Z.to_nat (Z.of_nat (length a) + tb)) (a ++ b)) with (a ++ take (Z.to_nat tb) b)
      by (rewrite take_app_ge by lia; do 2 f_equal; lia).
    rewrite range_app, app_assoc, !Z.add_assoc.
    change (end_ (mkScanner (offset s) (length_ s) ?h ?st ?c (found s))) with (end_ s).
    rewrite !Z.sub_add_distr.
    do 2 eexists. split_and!; [done..|]. by destruct (_ || _).
Qed.

(** A chunk in two parts is the chunk. *)
Lemma runs_app s a b s1 r : within s -> runs s a (Ok (s1, false)) -> runs s1 b r -> runs s (a ++ b) r.
Proof.
  intros Hs Ha Hb. remember (Ok (s1, false)) as ra eqn:Er.
  induction Ha as [s a s2 rest E|s a s2 rest E|s a e E|s a s2 rest ra E Ha IH]; simplify_eq.
  - destruct (need_more_app s a b s1 rest Hs E) as [Heq|(s2 & step & Heq & Heq1 & Hstep)].
    + inversion Hb; subst; rewrite <- Heq in *; eauto using runs.
    + inversion Hb; subst;
        match goal with X : feed_step s1 b = _ |- _ => rewrite Heq1 in X; simplify_eq end; eauto using runs.
  - eapply runs_continue; [by apply continue_app|]. apply IH; [|done].
    by apply feed_step_within in E as [??].
Qed.

Lemma runs_stop_app s a b r : within s -> runs s a r -> (forall s1, r <> Ok (s1, false)) -> runs s (a ++ b) r.
Proof.
  intros Hs Ha. induction Ha as [s a s2 rest E|s a s2 rest E|s a e E|s a s2 rest ra E Ha IH]; intros Hr.
  - by destruct (Hr s2).
  - destruct (finished_app s a b s2 rest Hs E). eauto using runs.
  - apply runs_err. by apply err_app.
  - eapply runs_continue; [by apply continue_app|]. apply IH; [|done].
    by apply feed_step_within in E as [??].
Qed.

Lemma rest_runs s : at_rest s -> runs s [] (Ok (s, match state s with Done => true | _ => false end)).
Proof.
  intros [Hh Hs]. destruct (state s) as [|remaining|position size|] eqn:Es.
  - eapply runs_need. unfold feed_step. rewrite Es, feed_header_run by done. simpl.
    destruct (Nat.ltb_spec (length (header s) + 0) 512); [|lia]. rewrite app_nil_r. by destruct s.
  - eapply runs_need. unfold feed_step, feed_skip. rewrite Es. simpl. rewrite Nat.min_0_r. simpl.
    rewrite Z.sub_0_r. replace (0 <? remaining) with true by lia. unfold set_state. rewrite <- Es. by destruct s.
  - eapply runs_need. unfold feed_step. rewrite Es, content_run by lia. cbv zeta.
    change (Z.of_nat (length [])) with 0. replace (Z.min 0 (size - position)) with 0 by lia. rewrite Z.add_0_r.
    destruct (Z.leb_spec size position); [lia|]. destruct (Z.leb_spec (end_ s) position); [lia|]. simpl.
    unfold range, slice. rewrite take_nil, drop_nil, app_nil_r, <- Es. by destruct s.
  - eapply runs_finished. unfold feed_step. by rewrite Es.
Qed.

(** However a stream is cut into chunks, the scanner ends as if it came in one. *)
Lemma feed_all_chunks s chunks : at_rest s ->
  exists r, runs s (concat chunks) r /\
    feed_all s chunks = Some (match r with Ok (s, _) => Ok s | Err e => Err e end).
Proof.
  revert s. induction chunks as [|chunk chunks IH]; intros s Hs.
  { eexists. split; [by apply rest_runs|]. done. }
  pose proof (at_rest_within s Hs) as Hw. simpl.
  destruct (feed_total s chunk Hw) as [r Hr]. rewrite Hr. apply feed_runs in Hr; [|done].
  destruct r as [[s1 []]|e].
  - eexists. split; [by apply runs_stop_app|]. done.
  - destruct (runs_within s chunk s1 false Hw Hr) as [_ Hs1]. destruct (IH s1 Hs1) as (r & Hrs & Hf).
    exists r. split; [by eapply runs_app|done].
  - eexists. split; [by apply runs_stop_app|]. done.
Qed.
End ScanLemmas.

(** ** Archives *)

Section Archives.
Context `{TarHeader}.

(** An entry a read passes over, its padding included: a long name, a pax header. *)
Definition skipped (e : bytes * bytes) : Prop :=
  length e.1 = 512%nat /\ forallb (fun byte => byte =? 0) e.1 = false /\ entry_kind e.1 = KindOther /\
  exists size, entry_size e.1 = Ok size /\ padded size = Ok (Z.of_nat (length e.2)).

Definition file_block (block : bytes) (size : Z) : Prop :=
  length block = 512%nat /\ forallb (fun byte => byte =? 0) block = false /\
  entry_kind block = KindFile /\ entry_size block = Ok size.

(** What stands before the content of a file. *)
Definition file_prefix (es : list (bytes * bytes)) (block : bytes) : bytes :=
  concat (map (fun e => e.1 ++ e.2) es) ++ block.

Lemma block_step s block rest : state s = Header -> header s = [] -> length block = 512%nat ->
  feed_step s (block ++ rest) =
  match enter s block with Ok (s', step) => Ok (s', rest, step) | Err e => Err e end.
Proof.
  intros Hs Hh Hb. unfold feed_step. rewrite Hs, feed_header_run by (rewrite Hh; simpl; lia).
  rewrite Hh, length_app. destruct (Nat.ltb_spec (length (A:=Z) [] + (length block + length rest)) 512); [simpl in *; lia|].
  simpl. rewrite take_app_le, drop_app_le, firstn_all2, skipn_all2 by lia. done.
Qed.

Lemma skipped_runs s e rest r : skipped e -> state s = Header -> header s = [] ->
  runs s rest r -> runs s ((e.1 ++ e.2) ++ rest) r.
Proof.
  intros (Hl & Hz & Hk & size & Hn & Hp) Hs Hh Hr. rewrite <- app_assoc.
  eapply runs_continue.
  { rewrite block_step by done. unfold enter. by rewrite Hz, Hn, Hk; simpl; rewrite Hp. }
  eapply runs_continue; [|exact Hr].
  unfold feed_step, feed_skip, set_state. simpl. rewrite length_app, Nat2Z.id, Nat.min_l by lia.
  rewrite Z.sub_diag. simpl. rewrite drop_app_length. rewrite <- Hh, <- Hs at 1. by destruct s; simpl in *; subst.
Qed.

(** The scanner ends with the range asked for, whatever follows the content. *)
Lemma archive_runs offset length es block content tail :
  Forall skipped es -> file_block block (Z.of_nat (List.length content)) ->
  exists s, runs (scanner_new offset length) (file_prefix es block ++ content ++ tail) (Ok (s, true)) /\
    finish s = Ok File /\ collected s = range offset (end_ (scanner_new offset length)) content.
Proof.
  intros Hes (Hl & Hz & Hk & Hn). unfold file_prefix. rewrite <- app_assoc. induction Hes as [|e es He Hes (s & Hr & Hs)]; simpl.
  - eexists. split.
    { eapply runs_continue.
      { rewrite block_step by done. unfold enter. by rewrite Hz, Hn, Hk. }
      eapply runs_finished. unfold feed_step. cbn [state]. rewrite content_run by lia. cbv zeta.
      rewrite length_app. replace (Z.min _ _) with (Z.of_nat (List.length content)) by lia.
      rewrite Z.leb_refl. done. }
    simpl. split; [done|]. rewrite Nat2Z.id, take_app_length, !Z.sub_0_r. done.
  - exists s. split; [|done]. rewrite <- app_assoc. apply skipped_runs; done.
Qed.
(** A stream that is cut leaves the scanner where the whole stream does, or short
    of its end. *)
Lemma stream_prefix offset length chunks missing s :
  runs (scanner_new offset length) (concat chunks ++ missing) (Ok (s, true)) ->
  exists s1, feed_all (scanner_new offset length) chunks = Some (Ok s1) /\
    (s1 = s \/
     (finish s1 = Err (archive_error "archive ended before the requested file data was complete") /\ missing <> [])).
Proof.
  intros Hruns. assert (Hrest : at_rest (scanner_new offset length)) by (split; simpl; lia || done).
  destruct (feed_all_chunks _ chunks Hrest) as (r & Hr & Hfeed). pose proof (at_rest_within _ Hrest) as Hw.
  assert (Hstop : (forall s2, r <> Ok (s2, false)) -> r = Ok (s, true)).
  { intros Hne. eapply runs_deterministic; [|exact Hruns]. by apply runs_stop_app. }
  destruct r as [[s1 []]|]; [| |by discriminate Hstop].
  { exists s1. split; [done|]. left. by injection Hstop. }
  exists s1. split; [done|]. destruct (runs_within _ _ _ _ Hw Hr) as [Hw1 Hrest1].
  assert (state s1 = Done \/ state s1 <> Done) as [Hd|Hd] by (destruct (state s1); auto).
  - left. assert (runs s1 missing (Ok (s1, true))) as Hm by (eapply runs_finished; unfold feed_step; by rewrite Hd).
    pose proof (runs_app _ _ _ _ _ Hw Hr Hm) as Hall. pose proof (runs_deterministic _ _ _ _ Hall Hruns). by simplify_eq.
  - right. split; [unfold finish; by destruct (state s1)|]. intros ->. rewrite app_nil_r in Hruns.
    by pose proof (runs_deterministic _ _ _ _ Hr Hruns).
Qed.
End Archives.

(** ** Uploads *)

Definition bad_read (r : Read) : bool :=
  match r with Gave O | ReadFailed _ => true | Gave _ => false end.

Lemma read_source_spec u wanted : (0 < wanted)%nat ->
  match read_source u wanted with
  | Err _ => existsb bad_read (reads u) = true
  | Ok (bs, u1) => exists k,
      bs = take k (source u) /\ source u1 = drop k (source u) /\ (k <= wanted)%nat /\
      accepts u1 = accepts u /\ sent u1 = sent u /\
      (existsb bad_read (reads u1) = true -> existsb bad_read (reads u) = true) /\
      (bs = [] -> source u = [] \/ existsb bad_read (reads u) = true)
  end.
Proof.
  intros Hw. unfold read_source. destruct (reads u) as [|[n|] rs] eqn:Er; [| |done]; simpl.
  - exists wanted. split_and!; try done. destruct (source u), wanted; simpl; auto; lia || done.
  - exists (n `min` wanted)%nat. split_and!; try done; [lia|intros ->; apply orb_true_r|].
    destruct n as [|n]; simpl; [auto|]. destruct wanted, (source u); simpl; auto; lia || done.
Qed.

Lemma send_loop_spec fuel u remaining : 0 <= remaining -> (Z.to_nat remaining <= fuel)%nat ->
  exists r, send_loop fuel u remaining = Some r /\
  match r with
  | Ok u' =>
      remaining <= Z.of_nat (length (source u)) /\
      exists body, sent u' = sent u ++ body /\ concat body = take (Z.to_nat remaining) (source u) /\
        Forall (fun m => 0 < Z.of_nat (length m) <= TRANSFER_CHUNK_BYTES) body /\
        Z.of_nat (accepts u) <= remaining + Z.of_nat (accepts u')
  | Err _ =>
      Z.of_nat (accepts u) < remaining \/ Z.of_nat (length (source u)) < remaining \/ existsb bad_read (reads u) = true
  end.
Proof.
  revert u remaining. induction fuel as [|fuel IH]; intros u remaining Hr Hf.
  { simpl. destruct (Z.leb_spec remaining 0); [|lia]. eexists. split; [done|]. split; [lia|].
    exists []. replace (Z.to_nat remaining) with O by lia. rewrite take_0, app_nil_r. by split_and!; [..|lia]. }
  cbn [send_loop]. destruct (Z.leb_spec remaining 0) as [H0|H0].
  { eexists. split; [done|]. split; [lia|].
    exists []. replace (Z.to_nat remaining) with O by lia. rewrite take_0, app_nil_r. by split_and!; [..|lia]. }
  set (wanted := Nat.min _ _). assert (Hw : (0 < wanted <= Z.to_nat remaining)%nat /\ Z.of_nat wanted <= TRANSFER_CHUNK_BYTES)
    by (unfold wanted, TRANSFER_CHUNK_BYTES; lia). clearbody wanted. destruct Hw as [Hw Hc].
  pose proof (read_source_spec u wanted (proj1 Hw)) as Hread.
  destruct (read_source u wanted) as [[bs u1]|]; [|by eexists; split; [done|right; right]].
  destruct Hread as (k & Hbs & Hsrc & Hk & Hacc & Hsent & Hbad & Hnil).
  destruct bs as [|b bs]. { eexists. split; [done|]. destruct (Hnil eq_refl) as [->|]; [right; left; simpl; lia|by right; right]. }
  set (m := b :: bs) in *. assert (Hm : (0 < length m)%nat) by (simpl; lia). clearbody m. clear Hnil b bs.
  assert (Hlk : (length m = k `min` length (source u))%nat) by (by rewrite Hbs, length_take).
  assert (Hmk : take (length m) (source u) = m).
  { rewrite Hlk, Hbs. destruct (Nat.le_gt_cases k (length (source u))).
    - by rewrite Nat.min_l by lia.
    - rewrite Nat.min_r by lia. by rewrite firstn_all, firstn_all2 by lia. }
  unfold send. rewrite Hacc. destruct (accepts u) as [|a] eqn:Ea; [eexists; split; [done|left; lia]|].
  destruct (IH (mkUpload (source u1) (reads u1) a (sent u1 ++ [m])) (remaining - Z.of_nat (length m))) as (r & Hr' & Hspec);
    [lia..|].
  exists r. split; [done|]. simpl in Hspec. assert (Hls : length (source u1) = (length (source u) - length m)%nat)
    by (rewrite Hsrc, length_drop; lia).
  destruct r as [u'|].
  - destruct Hspec as (Hle & body & Hs' & Hcat & Hall & Ha). split; [lia|].
    exists (m :: body). rewrite Hs', Hsent, <- app_assoc. simpl. split_and!; [done| |by constructor; [lia|]|lia].
    rewrite Hcat, Hsrc. rewrite <- Hmk at 1.
    replace (drop k (source u)) with (drop (length m) (source u)).
    2:{ destruct (Nat.le_gt_cases k (length (source u))); [f_equal; lia|rewrite !skipn_all2 by lia; done]. }
    rewrite take_take_drop. f_equal. lia.
  - destruct Hspec as [?|[?|?]]; [left; lia|right; left; lia|right; right; auto].
Qed.

(** The upload as a whole: it always comes to an end. *)
Lemma send_file_archive_spec u prefix size : 0 <= size ->
  exists r, send_file_archive u prefix size = Some r /\
  match r with
  | Ok u' =>
      size <= Z.of_nat (length (source u)) /\
      exists body, sent u' = sent u ++ [prefix] ++ body ++ [repeat 0 (Z.to_nat (padding_for size + 2 * TAR_BLOCK))] /\
        concat body = take (Z.to_nat size) (source u) /\
        Forall (fun m => 0 < Z.of_nat (length m) <= TRANSFER_CHUNK_BYTES) body
  | Err _ =>
      Z.of_nat (accepts u) < size + 2 \/ Z.of_nat (length (source u)) < size \/ existsb bad_read (reads u) = true
  end.
Proof.
  intros Hs. unfold send_file_archive, send at 1. destruct (accepts u) as [|a] eqn:Ea.
  { eexists. split; [done|left; lia]. }
  destruct (send_loop_spec (Z.to_nat size) (mkUpload (source u) (reads u) a (sent u ++ [prefix])) size)
    as (r & -> & Hr); [lia..|]. destruct r as [u1|]; simpl in Hr.
  - destruct Hr as (Hl & body & Hsent & Hcat & Hall & Hacc). unfold send. destruct (accepts u1).
    + eexists. split; [done|left; lia].
    + eexists. split; [done|]. split; [done|]. exists body. simpl. rewrite Hsent, <- !app_assoc. by split_and!.
  - eexists. split; [done|]. simpl. destruct Hr as [?|[?|?]]; [left; lia|auto..].
Qed.

(** A file crosses Docker's archive stream unchanged. For every source, however
    it answers reads and however few messages the receiver takes, the upload ends:
    either with an error, and then a read failed or came back empty, the source is
    shorter than declared, or the receiver took too few messages; or with the stream
    of the prefix, the declared number of the source's bytes in chunks of at most
    64 KiB, and the padding. Feeding that stream to the scanner in any chunks at
    all, behind any entries it passes over, collects exactly the requested range of
    the file; and when the stream is cut anywhere the scanner either already holds
    that whole range or reports the archive as incomplete: never a wrong range. *)
Theorem archive_transfer `{TarHeader} (u : Upload) es block offset length size
    (Hes : Forall skipped es) (Hblock : file_block block size) (Hsent : sent u = []) :
  exists r, send_file_archive u (file_prefix es block) size = Some r /\
  match r with
  | Err _ =>
      Z.of_nat (accepts u) < size + 2 \/ Z.of_nat (List.length (source u)) < size \/
      existsb bad_read (reads u) = true
  | Ok u' =>
      size <= Z.of_nat (List.length (source u)) /\
      (exists body,
        sent u' = [file_prefix es block] ++ body ++ [repeat 0 (Z.to_nat (padding_for size + 2 * TAR_BLOCK))] /\
        concat body = take (Z.to_nat size) (source u) /\
        Forall (fun m => 0 < Z.of_nat (List.length m) <= TRANSFER_CHUNK_BYTES) body) /\
      forall chunks missing, concat chunks ++ missing = concat (sent u') ->
      exists s, feed_all (scanner_new offset length) chunks = Some (Ok s) /\
      match finish s with
      | Ok archived =>
          archived = File /\
          collected s = range offset (end_ (scanner_new offset length)) (take (Z.to_nat size) (source u))
      | Err e => missing <> [] /\ e = archive_error "archive ended before the requested file data was complete"
      end
  end.
Proof.
  pose proof Hblock as (_ & _ & _ & Hn). apply size_range in Hn.
  destruct (send_file_archive_spec u (file_prefix es block) size) as (r & Hr & Hspec); [lia|].
  exists r. split; [done|]. destruct r as [u'|]; [|done].
  destruct Hspec as (Hl & body & Hs' & Hcat & Hall). rewrite Hsent in Hs'. split; [done|].
  split; [by exists body|]. intros chunks missing Hchunks.
  destruct (archive_runs offset length es block (take (Z.to_nat size) (source u))
    (repeat 0 (Z.to_nat (padding_for size + 2 * TAR_BLOCK)))) as (s & Hruns & Hfin & Hcol); [done| |].
  { rewrite length_take, Nat.min_l by lia. by rewrite Z2Nat.id by lia. }
  rewrite Hs' in Hchunks. cbn [app concat] in Hchunks. rewrite concat_app, Hcat in Hchunks.
  cbn [concat] in Hchunks. rewrite app_nil_r in Hchunks. rewrite <- Hchunks in Hruns.
  apply stream_prefix in Hruns as (s1 & Hfeed & Hcase).
  exists s1. split; [done|]. destruct Hcase as [->|(He & Hm)]; [by rewrite Hfin|by rewrite He].
Qed.

(** A header whose first byte is the kind and whose second is the size. *)
Definition plain_header : TarHeader.
Proof.
  refine {| entry_size h := Ok (nth 1 h 0 mod 256);
            entry_kind h := match nth 0 h 0 with 48 => KindFile | 53 => KindDirectory | 50 => KindLink | _ => KindOther end |}.
  intros h n [= <-]. pose proof (Z.mod_pos_bound (nth 1 h 0) 256). unfold u64_bound. lia.
Defined.

Definition plain_block (kind size : Z) : bytes := kind :: size :: repeat 0 510.

Lemma archive_transfer_witness :
  exists u' s,
    send_file_archive (mkUpload [1; 2; 3; 4; 5; 6] [Gave 2] 9 [])
      (file_prefix [(plain_block 120 3, repeat 7 512)] (plain_block 48 5)) 5 = Some (Ok u') /\
    sent u' <> [] /\
    @feed_all plain_header (scanner_new 1 (Some 3)) (sent u') = Some (Ok s) /\
    finish s = Ok File /\ collected s = [2; 3; 4].
Proof.
  destruct (@archive_transfer plain_header (mkUpload [1; 2; 3; 4; 5; 6] [Gave 2] 9 [])
    [(plain_block 120 3, repeat 7 512)] (plain_block 48 5) 1 (Some 3) 5) as (r & Hr & Hm).
  - constructor; [|constructor]. split_and!; [reflexivity..|]. exists 3. split; reflexivity.
  - split_and!; reflexivity.
  - reflexivity.
  - destruct r as [u'|e]; [|vm_compute in Hr; discriminate Hr].
    destruct Hm as (_ & (body & Hsent & _) & Hm).
    destruct (Hm (sent u') []) as (s & Hs & Hf); [apply app_nil_r|].
    exists u', s. split; [exact Hr|]. split; [by rewrite Hsent|]. split; [exact Hs|].
    destruct (finish s) as [a|]; [|by destruct Hf]. destruct Hf as [-> ->]. split; reflexivity.
Defined.
