(* ===== verification/Encoded.v ===== *)
(** * Exact output over a text-only transport

    Models [crates/sandbox-driver-daytona/src/encoded_exec.rs]: the Bash encoder that
    writes a command's output as ASCII records, the decoder of Bash's quoting, the
    framed output that survives a torn transport, and [run], which wraps a transport.
    What [printf %q] writes is the interface [PrintfQ]; a transport is whatever it
    delivers and answers. A [tracing] event has no effect on a result and is left
    out. *)

From S2P Require Import Prelude Sanitize Capture Text Errors Exec.

#[local] Open Scope string_scope.
#[local] Open Scope list_scope.
#[local] Open Scope Z_scope.

Inductive OutputStream := Stdout | Stderr.

#[export] Instance OutputStream_eq_dec : EqDecision OutputStream.
Proof. solve_decision. Defined.

Definition MAX_FRAME_BYTES : Z := 512.

(** ** Decoding *)

Definition stream_tag (tag : u8) : option OutputStream :=
  if tag =? 79 then Some Stdout else if tag =? 69 then Some Stderr else None.

Definition printable (byte : u8) : result u8 string :=
  if in_range 0x20 0x7e byte then Ok byte else Err "non-ASCII output frame".

Fixpoint decode_plain (input : bytes) : result bytes string :=
  match input with
  | [] => Ok []
  | byte :: rest =>
      if byte =? 92 then
        match rest with
        | [] => Err "incomplete output escape"
        | byte :: rest => let? decoded := decode_plain rest in Ok (byte :: decoded)
        end
      else let? byte := printable byte in let? decoded := decode_plain rest in Ok (byte :: decoded)
  end.

(** Bash's escapes with a name, and those that stand for themselves. *)
Definition named_escape (escaped : u8) : option u8 :=
  match escaped with
  | 97 => Some 7
  | 98 => Some 8
  | 116 => Some 9
  | 110 => Some 10
  | 118 => Some 11
  | 102 => Some 12
  | 114 => Some 13
  | 101 | 69 => Some 27
  | 92 | 39 | 34 => Some escaped
  | _ => None
  end.

Definition is_octal (byte : u8) : bool := in_range 48 55 byte.

Definition octal_byte (value : Z) : result u8 string :=
  if value <? 256 then Ok value else Err "output escape exceeds a byte".

(** [decode_ansi_c]; the index into the input is the list that is left. *)
Fixpoint decode_ansi_c (input : bytes) : result bytes string :=
  match input with
  | [] => Ok []
  | byte :: rest =>
      if negb (byte =? 92) then
        let? byte := printable byte in let? decoded := decode_ansi_c rest in Ok (byte :: decoded)
      else
        match rest with
        | [] => Err "incomplete output escape"
        | escaped :: rest =>
            match named_escape escaped with
            | Some value => let? decoded := decode_ansi_c rest in Ok (value :: decoded)
            | None =>
                if is_octal escaped then
                  let push value rest := let? value := octal_byte value in
                    let? decoded := rest in Ok (value :: decoded) in
                  let value := escaped - 48 in
                  match rest with
                  | d1 :: rest1 =>
                      if is_octal d1 then
                        let value := value * 8 + (d1 - 48) in
                        match rest1 with
                        | d2 :: rest2 =>
                            if is_octal d2
                            then push (value * 8 + (d2 - 48)) (decode_ansi_c rest2)
                            else push value (decode_ansi_c rest1)
                        | [] => push value (decode_ansi_c rest1)
                        end
                      else push value (decode_ansi_c rest)
                  | [] => push value (decode_ansi_c rest)
                  end
                else Err "unknown output escape"
            end
        end
  end.

(** [strip_prefix] of a dollar and a quote, and [strip_suffix] of a quote. *)
Definition strip_open (input : bytes) : option bytes :=
  match input with
  | a :: b :: body => if (a =? 36) && (b =? 39) then Some body else None
  | _ => None
  end.

Definition strip_quote (body : bytes) : option bytes :=
  match rev body with q :: rest => if q =? 39 then Some (rev rest) else None | [] => None end.

Definition decode_quoted (input : bytes) : result bytes string :=
  if bool_decide (input = [39; 39]) then Ok []
  else
    match strip_open input with
    | Some body =>
        let? body := ok_or (strip_quote body) "unterminated quoted output" in decode_ansi_c body
    | None => decode_plain input
    end.

(** ** Framed output *)

(** A caller's sink: how it answers its calls, and what it was given. Once the
    answers are spent it accepts. *)
Record Sink := mkSink { answers : list (option Error); delivered : list (OutputStream * bytes) }.

Definition call_sink (k : Sink) (stream : OutputStream) (bs : bytes) : Sink * option Error :=
  (mkSink (drop 1 (answers k)) (delivered k ++ [(stream, bs)]),
   match answers k with a :: _ => a | [] => None end).

Record ExecControls := mkControls {
  stdin : bool;
  term : bool;
  kill : bool;
  sink : option Sink;
  retained_output_limit : option nat;
}.

Record FramedOutput := mkFramed {
  pending : bytes;
  discarding : bool;
  loss : OutputLoss;
  out : OutputSanitizer * OutputCaptureBuffer;
  err : OutputSanitizer * OutputCaptureBuffer;
  to : option Sink;
}.

Definition framed_new (policy : OutputSanitization) (controls : ExecControls) : FramedOutput :=
  let s := (Sanitize.new policy, Capture.new (retained_output_limit controls)) in
  mkFramed [] false no_loss s s (sink controls).

(** [self.streams[stream as usize]]. *)
Definition stream_of (f : FramedOutput) (stream : OutputStream) : OutputSanitizer * OutputCaptureBuffer :=
  match stream with Stdout => out f | Stderr => err f end.

Definition set_stream (f : FramedOutput) (stream : OutputStream)
    (s : OutputSanitizer * OutputCaptureBuffer) : FramedOutput :=
  match stream with
  | Stdout => mkFramed (pending f) (discarding f) (loss f) s (err f) (to f)
  | Stderr => mkFramed (pending f) (discarding f) (loss f) (out f) s (to f)
  end.

Definition set_pending (f : FramedOutput) (p : bytes) : FramedOutput :=
  mkFramed p (discarding f) (loss f) (out f) (err f) (to f).

Definition set_discarding (f : FramedOutput) (d : bool) : FramedOutput :=
  mkFramed (pending f) d (loss f) (out f) (err f) (to f).

Definition set_loss (f : FramedOutput) (l : OutputLoss) : FramedOutput :=
  mkFramed (pending f) (discarding f) l (out f) (err f) (to f).

(** Bytes that go out on a stream: kept, and given to the sink when there are
    any. *)
Definition deliver (f : FramedOutput) (stream : OutputStream) (s : OutputSanitizer) (bs : bytes)
    : FramedOutput * option Error :=
  let f := set_stream f stream (s, Capture.push (snd (stream_of f stream)) bs) in
  match bs, to f with
  | _ :: _, Some k =>
      let '(k, answer) := call_sink k stream bs in
      (mkFramed (pending f) (discarding f) (loss f) (out f) (err f) (Some k), answer)
  | _, _ => (f, None)
  end.

Definition emit (f : FramedOutput) (stream : OutputStream) (raw : bytes) : FramedOutput * option Error :=
  let '(s, bs) := Sanitize.push (fst (stream_of f stream)) raw in deliver f stream s bs.

Definition discard (f : FramedOutput) (n : nat) : FramedOutput :=
  set_loss f (mkLoss (dropped_frames (loss f) + 1) (dropped_bytes (loss f) + Z.of_nat n)).

(** The loop's segments of a chunk: each up to and with a newline, which only the
    last may lack. *)
Fixpoint segments (bs : bytes) : list (bytes * bool) :=
  match bs with
  | [] => []
  | byte :: rest =>
      if byte =? 10 then ([byte], true) :: segments rest
      else match segments rest with
           | (s, ended) :: more => (byte :: s, ended) :: more
           | [] => [([byte], false)]
           end
  end.

(** A whole record, its newline included. *)
Definition decoded (record : bytes) : option (OutputStream * result bytes string) :=
  match record with
  | [] => None
  | tag :: _ =>
      match stream_tag tag with
      | Some stream => Some (stream, decode_quoted (take (length record - 2) (drop 1 record)))
      | None => None
      end
  end.

(** One turn of the loop of [push]. *)
Definition push_segment (f : FramedOutput) (segment : bytes * bool) : FramedOutput * option Error :=
  let '(bs, ended) := segment in
  let n := length bs in
  if discarding f then
    (set_discarding
       (set_loss f (mkLoss (dropped_frames (loss f)) (dropped_bytes (loss f) + Z.of_nat n)))
       (negb ended), None)
  else if MAX_FRAME_BYTES <? Z.of_nat (length (pending f) + n) then
    (set_discarding (set_pending (discard f (length (pending f) + n)) []) (negb ended), None)
  else
    let f := set_pending f (pending f ++ bs) in
    if negb ended then (f, None)
    else if bool_decide (pending f = [10]) then (set_pending f [], None)
    else
      let record := pending f in
      let f := set_pending f [] in
      match decoded record with
      | Some (stream, Ok raw) => emit f stream raw
      | Some (_, Err _) | None => (discard f (length record), None)
      end.

Fixpoint push_segments (f : FramedOutput) (segs : list (bytes * bool)) : FramedOutput * option Error :=
  match segs with
  | [] => (f, None)
  | segment :: segs =>
      match push_segment f segment with
      | (f, Some e) => (f, Some e)
      | (f, None) => push_segments f segs
      end
  end.

Definition push (f : FramedOutput) (stream : OutputStream) (bs : bytes) : FramedOutput * option Error :=
  match stream with
  | Stderr => emit f Stderr bs
  | Stdout => push_segments f (segments bs)
  end.

(** The last bytes of one stream. *)
Definition flush (f : FramedOutput) (stream : OutputStream) : FramedOutput * option Error :=
  let '(s, bs) := Sanitize.finish (fst (stream_of f stream)) in deliver f stream s bs.

Definition settled (f : FramedOutput) (r : ExecStreamingResult) : ExecStreamingResult :=
  let truncated := truncated (stdout_capture r) || truncated (stderr_capture r) || is_lossy (loss f) in
  let marked c := mkStats (observed_bytes c) (retained_bytes c) (omitted_bytes c) (Capture.truncated c || truncated) in
  let x := sr_result r in
  mkStreaming
    (mkResult (Capture.to_bytes (snd (out f))) (Capture.to_bytes (snd (err f))) (exit_code x) (res_signal x)
       (res_termination x) (duration x))
    true (live_streaming r)
    (marked (stats (snd (out f)))) (marked (stats (snd (err f)))) (loss f).

Definition finish (f : FramedOutput) (r : ExecStreamingResult)
    : FramedOutput * result ExecStreamingResult Error :=
  let f := match pending f with [] => f | p => discard (set_pending f []) (length p) end in
  match flush f Stdout with
  | (f, Some e) => (f, Err e)
  | (f, None) =>
      match flush f Stderr with
      | (f, Some e) => (f, Err e)
      | (f, None) => (f, Ok (settled f r))
      end
  end.

(** ** The wrapped transport *)

(** What a transport does with a sink: it calls it, goes on by the answer, and
    returns. *)
Inductive Talk :=
  | Return (r : result ExecStreamingResult Error)
  | Call (stream : OutputStream) (bs : bytes) (go_on : option Error -> Talk).

Fixpoint listen (t : Talk) (f : FramedOutput) : FramedOutput * result ExecStreamingResult Error :=
  match t with
  | Return r => (f, r)
  | Call stream bs go_on => let '(f, answer) := push f stream bs in listen (go_on answer) f
  end.

Record Transport := mkTransport {
  run_streaming : ExecSpec -> Talk;
  run_buffered : ExecSpec -> result ExecStreamingResult Error;
}.

(** The encoder's script is a constant text; see [encode] for what it does. *)
Definition encoded_spec (ENCODE_OUTPUT : string) (spec : ExecSpec) : ExecSpec :=
  let encoded := spec_args ["-c"; ENCODE_OUTPUT; "sandbox-driver-output"; "env"] (spec_new "/bin/bash") in
  mkSpec (program encoded)
    (args encoded ++ map (fun kv => fst kv +:+ "=" +:+ snd kv) (entries (spec_launch_env spec)) ++
       [program spec] ++ args spec)
    (timeout spec) (stop_grace spec) (working_dir spec) (env encoded) (spec_stdin spec)
    (output_sanitization encoded).

(** The result, and what the caller's sink was given. *)
Definition run (ENCODE_OUTPUT : string) (transport : Transport) (spec : ExecSpec) (controls : ExecControls)
    : FramedOutput * result ExecStreamingResult Error :=
  let output := framed_new (output_sanitization spec) controls in
  let encoded := encoded_spec ENCODE_OUTPUT spec in
  let streaming := stdin controls || bool_decide (is_Some (sink controls)) || term controls || kill controls in
  if streaming then
    match listen (run_streaming transport encoded) output with
    | (output, Ok r) => finish output r
    | (output, Err e) => (output, Err e)
    end
  else
    match run_buffered transport encoded with
    | Err e => (output, Err e)
    | Ok r =>
        match push output Stdout (res_stdout (sr_result r)) with
        | (output, Some e) => (output, Err e)
        | (output, None) =>
            match push output Stderr (res_stderr (sr_result r)) with
            | (output, Some e) => (output, Err e)
            | (output, None) => finish output r
            end
        end
    end.

(** ** The quoting grammar *)

Inductive octal : bytes -> Z -> Prop :=
  | octal_1 a : is_octal a = true -> octal [a] (a - 48)
  | octal_2 a b : is_octal a = true -> is_octal b = true -> octal [a; b] ((a - 48) * 8 + (b - 48))
  | octal_3 a b c : is_octal a = true -> is_octal b = true -> is_octal c = true ->
      octal [a; b; c] (((a - 48) * 8 + (b - 48)) * 8 + (c - 48)).

(** An escape of fewer than three digits ends where no digit follows. *)
Definition octal_ends (ds w : bytes) : Prop :=
  length ds = 3%nat \/ match w with d :: _ => is_octal d = false | [] => True end.

(** Bash's named escapes and the bytes they stand for. *)
Definition ansi_names : list (Z * Z) :=
  [(97, 7); (98, 8); (116, 9); (110, 10); (118, 11); (102, 12); (114, 13); (101, 27); (69, 27);
   (92, 92); (39, 39); (34, 34)].

Inductive ansi_c : bytes -> bytes -> Prop :=
  | ansi_nil : ansi_c [] []
  | ansi_byte b w raw : in_range 0x20 0x7e b = true -> b <> 92 -> ansi_c w raw -> ansi_c (b :: w) (b :: raw)
  | ansi_named c v w raw : (c, v) ∈ ansi_names -> ansi_c w raw -> ansi_c (92 :: c :: w) (v :: raw)
  | ansi_octal ds v w raw : octal ds v -> v < 256 -> octal_ends ds w -> ansi_c w raw ->
      ansi_c (92 :: ds ++ w) (v :: raw).

Inductive plain : bytes -> bytes -> Prop :=
  | plain_nil : plain [] []
  | plain_byte b w raw : in_range 0x20 0x7e b = true -> b <> 92 -> plain w raw -> plain (b :: w) (b :: raw)
  | plain_escape b w raw : plain w raw -> plain (92 :: b :: w) (b :: raw).

(** The two forms [printf %q] writes, and the one for no bytes. *)
Inductive quoted : bytes -> bytes -> Prop :=
  | quoted_empty : quoted [39; 39] []
  | quoted_ansi w raw : ansi_c w raw -> quoted (36 :: 39 :: w ++ [39]) raw
  | quoted_plain w raw : plain w raw -> w <> [39; 39] -> ~ [36; 39] `prefix_of` w -> quoted w raw.

Lemma named_escape_spec c v : named_escape c = Some v <-> (c, v) ∈ ansi_names.
Proof.
  unfold ansi_names. split.
  - unfold named_escape. repeat case_match; try done; intros [= <-]; set_solver.
  - rewrite !elem_of_cons, elem_of_nil. intuition; by simplify_eq.
Qed.

Lemma octal_named a : is_octal a = true -> named_escape a = None.
Proof.
  unfold is_octal, in_range. intros H. assert (a = 48 \/ a = 49 \/ a = 50 \/ a = 51 \/ a = 52 \/ a = 53 \/ a = 54 \/ a = 55)
    as Ha by lia. by destruct Ha as [->|[->|[->|[->|[->|[->|[->| ->]]]]]]].
Qed.

Lemma printable_ok b b' : printable b = Ok b' <-> b' = b /\ in_range 0x20 0x7e b = true.
Proof. unfold printable. destruct (in_range _ _ b); naive_solver. Qed.

(** A step of a decoder: what it read, before what the rest decodes to. *)
Lemma cons_ok (m : result bytes string) v raw :
  (let? decoded := m in Ok (v :: decoded)) = Ok raw <-> exists raw', raw = v :: raw' /\ m = Ok raw'.
Proof. destruct m; cbn; naive_solver. Qed.

(** Induction on the length of an input. *)
Lemma bytes_ind (P : bytes -> Prop) :
  (forall w, (forall w', (length w' < length w)%nat -> P w') -> P w) -> forall w, P w.
Proof. intros H w. induction w as [w IH] using (induction_ltof1 _ (@length Z)). by apply H. Qed.

Lemma decode_plain_spec w raw : decode_plain w = Ok raw <-> plain w raw.
Proof.
  split.
  - revert raw. induction w as [w IH] using bytes_ind. intros raw. destruct w as [|b w]; cbn; [intros [= <-]; constructor|].
    destruct (Z.eqb_spec b 92) as [->|Hb].
    + destruct w as [|c w]; [done|]. intros (raw' & -> & H)%cons_ok. constructor. apply IH; [cbn; lia|done].
    + destruct (printable b) as [b'|] eqn:E; [|done]. apply printable_ok in E as [-> Hp].
      intros (raw' & -> & H)%cons_ok. constructor; [done..|]. apply IH; [cbn; lia|done].
  - induction 1 as [|b w raw Hp Hb _ IH|b w raw _ IH]; cbn; [done| |by rewrite IH].
    destruct (Z.eqb_spec b 92); [done|]. unfold printable. by rewrite Hp, IH.
Qed.

Lemma octal_byte_ok v v' : octal_byte v = Ok v' <-> v' = v /\ v < 256.
Proof. unfold octal_byte. destruct (Z.ltb_spec v 256); naive_solver lia. Qed.

Lemma push_ok v m raw :
  (let? value := octal_byte v in let? decoded := m in Ok (value :: decoded)) = Ok raw <->
  v < 256 /\ exists raw', raw = v :: raw' /\ m = Ok raw'.
Proof.
  unfold octal_byte. destruct (Z.ltb_spec v 256); cbn; [rewrite cons_ok|]; naive_solver lia.
Qed.

(** One octal escape at the head of an input. *)
Lemma decode_octal a w raw : is_octal a = true ->
  decode_ansi_c (92 :: a :: w) = Ok raw <->
  exists ds v rest raw', a :: w = ds ++ rest /\ octal ds v /\ octal_ends ds rest /\ v < 256 /\
    raw = v :: raw' /\ decode_ansi_c rest = Ok raw'.
Proof.
  intros Ha. cbn [decode_ansi_c]. cbn [negb Z.eqb Pos.eqb]. rewrite (octal_named a Ha), Ha. cbv zeta.
  split.
  - destruct w as [|b w]; [|destruct (is_octal b) eqn:Hb; [destruct w as [|c w]; [|destruct (is_octal c) eqn:Hc]|]];
      intros (Hv & raw' & -> & H)%push_ok.
    + exists [a], (a - 48), [], raw'. split_and!; try done; [by constructor|by right].
    + exists [a; b], ((a - 48) * 8 + (b - 48)), [], raw'. split_and!; try done; [by constructor|by right].
    + exists [a; b; c], (((a - 48) * 8 + (b - 48)) * 8 + (c - 48)), w, raw'. split_and!; try done; [by constructor|by left].
    + exists [a; b], ((a - 48) * 8 + (b - 48)), (c :: w), raw'. split_and!; try done; [by constructor|by right].
    + exists [a], (a - 48), (b :: w), raw'. split_and!; try done; [by constructor|by right].
  - intros (ds & v & rest & raw' & Hw & Hds & He & Hv & -> & Hr).
    destruct Hds as [a'|a' b' _ Hb|a' b' c' _ Hb Hc]; cbn in Hw; simplify_eq.
    + destruct rest as [|b w]; [apply push_ok; eauto|]. destruct He as [|He]; [done|]. rewrite He. apply push_ok; eauto.
    + rewrite Hb. destruct rest as [|c w]; [apply push_ok; eauto|]. destruct He as [|He]; [done|]. rewrite He. apply push_ok; eauto.
    + rewrite Hb, Hc. apply push_ok; eauto.
Qed.

Lemma decode_ansi_c_spec w raw : decode_ansi_c w = Ok raw <-> ansi_c w raw.
Proof.
  split.
  - revert raw. induction w as [w IH] using bytes_ind. intros raw.
    destruct w as [|b w]; [intros [= <-]; constructor|].
    destruct (Z.eqb_spec b 92) as [->|Hb].
    + destruct w as [|c w]; [done|]. destruct (named_escape c) as [v|] eqn:En.
      { cbn. rewrite En. intros (raw' & -> & H)%cons_ok.
        constructor; [by apply named_escape_spec|]. apply IH; [cbn; lia|done]. }
      destruct (is_octal c) eqn:Ho; [|cbn; by rewrite En, Ho].
      intros (ds & v & rest & raw' & Hw & Hds & He & Hv & -> & Hr)%decode_octal; [|done].
      rewrite Hw. constructor; [done..|]. apply IH; [|done].
      assert (length (c :: w) = length (ds ++ rest)) as Hl by (by rewrite Hw).
      rewrite length_app in Hl. cbn in *. lia.
    + cbn. destruct (Z.eqb_spec b 92); [done|]. cbn. destruct (printable b) as [b'|] eqn:E; [|done].
      apply printable_ok in E as [-> Hp]. intros (raw' & -> & H)%cons_ok. constructor; [done..|]. apply IH; [cbn; lia|done].
  - induction 1 as [|b w raw Hp Hb _ IH|c v w raw Hn _ IH|ds v w raw Hd Hv He _ IH]; [done|..].
    + cbn. destruct (Z.eqb_spec b 92); [done|]. cbn. unfold printable. by rewrite Hp; cbn; rewrite IH.
    + apply named_escape_spec in Hn. cbn. by rewrite Hn, IH.
    + assert (exists a ds', ds = a :: ds' /\ is_octal a = true) as (a & ds' & -> & Ha) by (destruct Hd; eauto).
      cbn [app]. apply decode_octal; [done|]. exists (a :: ds'), v, w, raw. by split_and!.
Qed.

Lemma strip_quote_spec body w : strip_quote body = Some w <-> body = w ++ [39].
Proof.
  unfold strip_quote. split.
  - destruct (rev body) as [|q rest] eqn:E; [done|]. destruct (Z.eqb_spec q 39) as [->|]; [|done].
    intros [= <-]. rewrite <- (rev_involutive body), E. done.
  - intros ->. rewrite rev_unit. cbn. by rewrite rev_involutive.
Qed.

Lemma strip_open_spec w body : strip_open w = Some body <-> w = 36 :: 39 :: body.
Proof.
  unfold strip_open. destruct w as [|a [|b w]]; [done..|].
  destruct (Z.eqb_spec a 36), (Z.eqb_spec b 39); cbn; naive_solver.
Qed.

(** The decoder accepts exactly the quotings of [printf %q], with one reading each. *)
Lemma decode_quoted_spec w raw : decode_quoted w = Ok raw <-> quoted w raw.
Proof.
  unfold decode_quoted. case_bool_decide as Hw.
  { subst. split; [intros [= <-]; constructor|]. inversion 1; by subst. }
  destruct (strip_open w) as [body|] eqn:E.
  - apply strip_open_spec in E as ->. split.
    + destruct (strip_quote body) as [w|] eqn:E; [|done]. apply strip_quote_spec in E as ->. cbn.
      rewrite decode_ansi_c_spec. by constructor.
    + inversion 1 as [|w raw' Hw' Heq|w raw' Hp Hne Hnp]; subst; [|destruct Hnp; by exists body].
      by rewrite (proj2 (strip_quote_spec (w ++ [39]) w)), <- decode_ansi_c_spec in * by done.
  - rewrite decode_plain_spec. split.
    + intros Hp. constructor; [done..|]. intros [body ->]. by rewrite (proj2 (strip_open_spec _ body)) in E.
    + inversion 1 as [|w' raw' Hw' Heq|w' raw' Hp Hne Hnp]; subst; done.
Qed.

(** ** Cutting and joining *)

(** Two runs of segments as the segments of the bytes joined. *)
Fixpoint glue (segs segs' : list (bytes * bool)) : list (bytes * bool) :=
  match segs with
  | [] => segs'
  | (s, true) :: more => (s, true) :: glue more segs'
  | (s, false) :: _ => match segs' with (t, e) :: more => (s ++ t, e) :: more | [] => [(s, false)] end
  end.

(** Only the last segment lacks its newline, and it is not empty. *)
Fixpoint cut_well (segs : list (bytes * bool)) : Prop :=
  match segs with
  | [] => True
  | (s, true) :: more => cut_well more
  | (s, false) :: more => s <> [] /\ more = []
  end.

Lemma segments_cut_well bs : cut_well (segments bs).
Proof.
  induction bs as [|b bs IH]; cbn; [done|]. destruct (b =? 10); [done|].
  destruct (segments bs) as [|[s []] more]; cbn in *; naive_solver.
Qed.

Lemma segments_app a b : segments (a ++ b) = glue (segments a) (segments b).
Proof.
  induction a as [|x a IH]; cbn; [done|]. destruct (x =? 10); cbn; [by rewrite IH|]. rewrite IH.
  pose proof (segments_cut_well a) as Ha.
  destruct (segments a) as [|[s []] more]; cbn; [by destruct (segments b) as [|[]]|done|].
  by destruct (segments b) as [|[]].
Qed.

Lemma segments_concat bs : concat (map fst (segments bs)) = bs.
Proof.
  induction bs as [|x bs IH]; cbn; [done|]. destruct (Z.eqb_spec x 10); cbn; [by rewrite IH|].
  destruct (segments bs) as [|[s e] more]; cbn in *; by rewrite <- IH.
Qed.

Lemma segments_record w rest : Forall (fun b => b <> 10) w ->
  segments (w ++ 10 :: rest) = (w ++ [10], true) :: segments rest.
Proof.
  induction 1 as [|b w Hb _ IH]; cbn; [done|]. destruct (Z.eqb_spec b 10); [done|]. by rewrite IH.
Qed.

(** ** The decoder's state *)

Definition ok (f : FramedOutput) : Prop :=
  Z.of_nat (length (pending f)) <= MAX_FRAME_BYTES /\ (discarding f = true -> pending f = []).

Lemma deliver_fields f stream s bs : let f' := fst (deliver f stream s bs) in
  pending f' = pending f /\ discarding f' = discarding f /\ loss f' = loss f.
Proof. unfold deliver. destruct stream, bs, (to f) as [k|] eqn:E; cbn; rewrite ?E; cbn; auto. Qed.

Lemma emit_fields f stream raw : let f' := fst (emit f stream raw) in
  pending f' = pending f /\ discarding f' = discarding f /\ loss f' = loss f.
Proof. unfold emit. destruct (Sanitize.push _ _). apply deliver_fields. Qed.

Lemma push_segment_ok f seg : ok f -> ok (fst (push_segment f seg)).
Proof.
  destruct seg as [bs e]. intros [Hp Hd]. unfold push_segment. cbv zeta.
  destruct (discarding f) eqn:Ed.
  { unfold ok. cbn. rewrite Hd by done. by split. }
  destruct (Z.ltb_spec MAX_FRAME_BYTES (Z.of_nat (length (pending f) + length bs))); [by unfold ok; cbn|].
  destruct e; cbn [negb].
  2: { unfold ok. cbn. rewrite Ed, length_app. split; [lia|done]. }
  case_bool_decide; [unfold ok; cbn; by rewrite Ed|].
  destruct (decoded _) as [[st [raw|]]|]; [|by unfold ok; cbn; rewrite ?Ed..].
  match goal with |- context [emit ?g st raw] => pose proof (emit_fields g st raw) as (Hep & Hed & _) end.
  unfold ok. rewrite Hep, Hed. cbn. by rewrite Ed.
Qed.

(** A segment in two parts is the segment. *)
Lemma push_segment_split f s t e : ok f ->
  snd (push_segment f (s, false)) = None /\
  push_segment f (s ++ t, e) = push_segment (fst (push_segment f (s, false))) (t, e).
Proof.
  intros [Hp Hd]. unfold push_segment at 1 2 4. cbv zeta. rewrite length_app.
  destruct (discarding f) eqn:Ed.
  { split; [done|]. unfold push_segment. cbn [fst discarding set_discarding negb]. cbv zeta.
    unfold set_discarding, set_loss. cbn. by rewrite Nat2Z.inj_add, Z.add_assoc. }
  destruct (Z.ltb_spec MAX_FRAME_BYTES (Z.of_nat (length (pending f) + length s))) as [H1|H1].
  - destruct (Z.ltb_spec MAX_FRAME_BYTES (Z.of_nat (length (pending f) + (length s + length t)))); [|lia].
    split; [done|]. unfold push_segment. cbn [fst discarding set_discarding negb]. cbv zeta.
    unfold set_discarding, set_pending, discard, set_loss. cbn.
    by rewrite Nat.add_assoc, Nat2Z.inj_add, Z.add_assoc.
  - split; [done|]. cbn [negb fst]. unfold push_segment. cbv zeta.
    cbn [discarding set_pending pending]. rewrite Ed, app_assoc, !length_app, !Nat.add_assoc. done.
Qed.

Lemma push_glue f segs segs' : ok f -> cut_well segs ->
  push_segments f (glue segs segs') =
  match push_segments f segs with
  | (f, Some e) => (f, Some e)
  | (f, None) => push_segments f segs'
  end.
Proof.
  revert f. induction segs as [|[s []] more IH]; intros f Hf Hw; cbn -[push_segment]; [done| |].
  - pose proof (push_segment_ok f (s, true) Hf) as Hf1. destruct (push_segment f (s, true)) as [f1 [e|]]; [done|].
    by apply IH.
  - destruct Hw as [_ ->]. destruct segs' as [|[t e] more]; cbn -[push_segment].
    + by destruct (push_segment f (s, false)) as [f1 []].
    + destruct (push_segment_split f s t e Hf) as [Hn Heq]. rewrite Heq.
      destruct (push_segment f (s, false)) as [f1 [|]]; [done|]. done.
Qed.

(** However the transport cuts its output, the decoder reads the same. *)
Lemma push_joined f a b : ok f ->
  push f Stdout (a ++ b) =
  match push f Stdout a with (f, Some e) => (f, Some e) | (f, None) => push f Stdout b end.
Proof. intros Hf. unfold push. rewrite segments_app. apply push_glue; [done|apply segments_cut_well]. Qed.

Lemma push_ok_state f a : ok f -> ok (fst (push f Stdout a)).
Proof.
  unfold push. generalize (segments a) as segs. intros segs. revert f.
  induction segs as [|seg segs IH]; intros f Hf; cbn -[push_segment]; [done|].
  pose proof (push_segment_ok f seg Hf). destruct (push_segment f seg) as [f1 []]; [done|by apply IH].
Qed.

(** ** What the records of an output hold *)

Inductive Seen := Blank | Data (stream : OutputStream) (raw : bytes) | Lost.

(** One segment of the whole output: a record over the limit, without its tag,
    with a body that does not decode, or without its newline is lost. *)
Definition seen (segment : bytes * bool) : Seen :=
  let '(bs, ended) := segment in
  if negb ended || (MAX_FRAME_BYTES <? Z.of_nat (length bs)) then Lost
  else if bool_decide (bs = [10]) then Blank
  else match decoded bs with Some (stream, Ok raw) => Data stream raw | _ => Lost end.

Definition lost (segment : bytes * bool) : bool := match seen segment with Lost => true | _ => false end.

Definition data_of (stream : OutputStream) (segment : bytes * bool) : bytes :=
  match seen segment with Data st raw => if decide (st = stream) then raw else [] | _ => [] end.

Definition data (stream : OutputStream) (segs : list (bytes * bool)) : bytes := concat (map (data_of stream) segs).

Definition length_of (segs : list (bytes * bool)) : Z := foldr (fun s n => Z.of_nat (length s.1) + n) 0 segs.

Definition loss_of (segs : list (bytes * bool)) : OutputLoss :=
  mkLoss (Z.of_nat (length (filter (fun s => lost s = true) segs))) (length_of (filter (fun s => lost s = true) segs)).

Definition plus_loss (a b : OutputLoss) : OutputLoss :=
  mkLoss (dropped_frames a + dropped_frames b) (dropped_bytes a + dropped_bytes b).

(** What a sink was given of one stream. *)
Definition given (k : Sink) (stream : OutputStream) : bytes :=
  concat (map snd (filter (fun d => d.1 = stream) (delivered k))).

Definition accepting (k : option Sink) : Prop :=
  match k with Some k => Forall (eq None) (answers k) /\ delivered k = [] | None => True end.

Section Holds.
Context (p : OutputSanitization) (n : nat) (sinks : bool).

(** The state after [bs] were pushed to a sanitizer and all it emitted captured
    and delivered. *)
Definition after (bs : bytes) : OutputSanitizer * OutputCaptureBuffer :=
  let '(s, o) := Sanitize.push (Sanitize.new p) bs in (s, having_seen n o).

Definition emitted (bs : bytes) : bytes := snd (Sanitize.push (Sanitize.new p) bs).

Definition sink_holds (f : FramedOutput) (o e : bytes) : Prop :=
  match to f with
  | Some k => sinks = true /\ Forall (eq None) (answers k) /\ given k Stdout = o /\ given k Stderr = e
  | None => sinks = false
  end.

Definition holds (f : FramedOutput) (o e : bytes) : Prop :=
  out f = after o /\ err f = after e /\ sink_holds f (emitted o) (emitted e).

Definition added (stream st : OutputStream) (raw : bytes) : bytes := if decide (st = stream) then raw else [].

Lemma given_snoc k stream bs st a :
  given (mkSink a (delivered k ++ [(stream, bs)])) st = given k st ++ added st stream bs.
Proof.
  unfold given, added. cbn. rewrite filter_app, map_app, concat_app. f_equal.
  destruct (decide (stream = st)) as [->|Hne].
  - rewrite filter_cons_True by done. cbn. by rewrite app_nil_r.
  - by rewrite filter_cons_False by done.
Qed.

(** Bytes that go out reach the capture and the sink, and a sink that accepts
    everything stops nothing. *)
Lemma deliver_holds f stream s bs o e xo xe :
  out f = (xo, having_seen n o) -> err f = (xe, having_seen n e) -> sink_holds f o e ->
  exists f', deliver f stream s bs = (f', None) /\
    out f' = (if decide (stream = Stdout) then s else xo, having_seen n (o ++ added Stdout stream bs)) /\
    err f' = (if decide (stream = Stderr) then s else xe, having_seen n (e ++ added Stderr stream bs)) /\
    sink_holds f' (o ++ added Stdout stream bs) (e ++ added Stderr stream bs).
Proof.
  intros Ho He Hs. unfold deliver, sink_holds in *.
  destruct bs as [|b bs].
  - eexists. split; [done|]. unfold added.
    destruct stream; cbn -[Capture.push]; rewrite ?Ho, ?He; cbn -[Capture.push]; rewrite push_having_seen, ?app_nil_r; by split_and!.
  - destruct stream; cbn -[Capture.push]; rewrite ?Ho, ?He; cbn -[Capture.push];
      (destruct (to f) as [k|]; [destruct Hs as (-> & Ha & <- & <-)|]); cbn -[Capture.push given].
    all: eexists; (split; [f_equal; by destruct Ha|]);
      cbn -[Capture.push given]; rewrite ?push_having_seen, ?given_snoc; unfold added; cbn -[given]; rewrite ?app_nil_r;
      split_and!; try done; by apply (Forall_drop _ 1).
Qed.

#[local] Arguments after : simpl never.
#[local] Arguments emitted : simpl never.

Lemma after_pair bs : after bs = (fst (Sanitize.push (Sanitize.new p) bs), having_seen n (emitted bs)).
Proof. unfold after, emitted. by destruct (Sanitize.push _ _). Qed.

Lemma after_app a b :
  after (a ++ b) = (fst (Sanitize.push (fst (after a)) b), having_seen n (emitted a ++ snd (Sanitize.push (fst (after a)) b))).
Proof. rewrite !after_pair. unfold emitted. rewrite Sanitize.push_app. done. Qed.

Lemma emitted_app a b : emitted (a ++ b) = emitted a ++ snd (Sanitize.push (fst (after a)) b).
Proof. rewrite after_pair. unfold emitted. by rewrite Sanitize.push_app. Qed.

Lemma emit_holds f stream raw o e : holds f o e ->
  exists f', emit f stream raw = (f', None) /\ holds f' (o ++ added Stdout stream raw) (e ++ added Stderr stream raw).
Proof.
  intros (Ho & He & Hs). unfold emit.
  destruct (Sanitize.push (fst (stream_of f stream)) raw) as [s bs] eqn:E.
  destruct (deliver_holds f stream s bs (emitted o) (emitted e) (fst (after o)) (fst (after e))) as (f' & Hd & Ho' & He' & Hs');
    [by rewrite Ho, after_pair|by rewrite He, after_pair|done|].
  exists f'. split; [done|]. unfold holds.
  destruct stream; unfold added in *; repeat case_decide; try done; cbn in E; rewrite ?app_nil_r in *;
    rewrite ?Ho, ?He in E; rewrite after_app, emitted_app, E; cbn; rewrite Ho', He', ?(after_pair o), ?(after_pair e);
    by split_and!.
Qed.

Lemma flush_holds f o e : holds f o e ->
  exists f1 f2, flush f Stdout = (f1, None) /\ flush f1 Stderr = (f2, None) /\
    snd (out f2) = having_seen n (sanitize p o) /\ snd (err f2) = having_seen n (sanitize p e) /\
    sink_holds f2 (sanitize p o) (sanitize p e).
Proof.
  intros (Ho & He & Hs). unfold flush at 1. cbn [stream_of].
  assert (Hsan : forall bs, sanitize p bs = emitted bs ++ snd (Sanitize.finish (fst (after bs)))).
  { intros bs. unfold sanitize, after, emitted. by destruct (Sanitize.push _ _). }
  destruct (Sanitize.finish (fst (out f))) as [s bs] eqn:E.
  destruct (deliver_holds f Stdout s bs (emitted o) (emitted e) (fst (after o)) (fst (after e))) as (f1 & Hd & Ho1 & He1 & Hs1);
    [by rewrite Ho, after_pair|by rewrite He, after_pair|done|].
  unfold added in *. repeat case_decide; try done. rewrite app_nil_r in *. rewrite Ho in E.
  exists f1. unfold flush. cbn [stream_of]. destruct (Sanitize.finish (fst (err f1))) as [s' bs'] eqn:E'.
  destruct (deliver_holds f1 Stderr s' bs' (emitted o ++ bs) (emitted e) s (fst (after e))) as (f2 & Hd2 & Ho2 & He2 & Hs2);
    [done..|].
  unfold added in *. repeat case_decide; try done. rewrite app_nil_r in *. rewrite He1 in E'. cbn in E'.
  exists f2. rewrite !Hsan, E, E'. cbn. rewrite Ho2, He2. by split_and!.
Qed.

(** A decoder between two records. *)
Definition between (f : FramedOutput) : Prop := pending f = [] /\ discarding f = false.

(** The first step of [finish]: what is still pending is lost. *)
Definition closed (f : FramedOutput) : OutputLoss :=
  match pending f with [] => loss f | p => loss (discard f (length p)) end.

Lemma holds_pending f o e q d l : holds f o e ->
  holds (mkFramed q d l (out f) (err f) (to f)) o e.
Proof. done. Qed.

Lemma loss_of_one s : loss_of [s] = if lost s then mkLoss 1 (Z.of_nat (length s.1)) else no_loss.
Proof.
  unfold loss_of, length_of. rewrite filter_cons, filter_nil. destruct (lost s); case_decide; try done.
  cbn. by rewrite Z.add_0_r.
Qed.

Lemma plus_no_loss a : plus_loss a no_loss = a.
Proof. destruct a. unfold plus_loss, no_loss. cbn. by rewrite !Z.add_0_r. Qed.

Lemma push_whole f bs ended o e : between f -> holds f o e -> bs <> [] ->
  exists f', push_segment f (bs, ended) = (f', None) /\ (ended = true -> between f') /\
    holds f' (o ++ data_of Stdout (bs, ended)) (e ++ data_of Stderr (bs, ended)) /\
    closed f' = plus_loss (loss f) (loss_of [(bs, ended)]).
Proof.
  intros [Hp Hd] Hh Hne. rewrite loss_of_one. unfold push_segment, data_of, lost, seen. cbv zeta. rewrite Hp, Hd. cbn [length app].
  rewrite Nat.add_0_l. destruct (Z.ltb_spec MAX_FRAME_BYTES (Z.of_nat (length bs))) as [Hl|Hl].
  { rewrite orb_true_r. eexists. split; [done|]. rewrite !app_nil_r. split; [by intros ->|].
    split; [by apply holds_pending|]. done. }
  rewrite orb_false_r. destruct ended; cbn [negb].
  2: { eexists. split; [done|]. rewrite !app_nil_r. split; [done|]. split; [by apply holds_pending|].
       unfold closed, plus_loss. cbn. by destruct bs. }
  cbn [pending set_pending]. case_bool_decide as Hb.
  { eexists. split; [done|]. rewrite !app_nil_r. split; [by split|]. split; [by apply holds_pending|].
    unfold closed. cbn. by rewrite plus_no_loss. }
  destruct (decoded bs) as [[st [raw|]]|] eqn:E.
  - match goal with |- context [emit ?g _ _] => destruct (emit_holds g st raw o e) as (f' & He & Hf'); [done|];
      pose proof (emit_fields g st raw) as (Hep & Hed & Hel) end.
    rewrite He in *. cbn in Hep, Hed, Hel. exists f'. split; [done|].
    split; [intros _; unfold between; by rewrite Hep, Hed|]. split; [done|].
    unfold closed. rewrite Hep, Hel. by rewrite plus_no_loss.
  - eexists. split; [done|]. rewrite !app_nil_r. split; [by split|]. split; [by apply holds_pending|].
    done.
  - eexists. split; [done|]. rewrite !app_nil_r. split; [by split|]. split; [by apply holds_pending|].
    done.
Qed.

Lemma loss_of_cons s segs : loss_of (s :: segs) = plus_loss (loss_of [s]) (loss_of segs).
Proof.
  unfold loss_of, plus_loss, length_of. rewrite !filter_cons, filter_nil. destruct (decide _); cbn; f_equal; lia.
Qed.

Lemma plus_loss_assoc a b c : plus_loss a (plus_loss b c) = plus_loss (plus_loss a b) c.
Proof. unfold plus_loss. cbn. by rewrite !Z.add_assoc. Qed.

(** A whole output. *)
Lemma push_whole_segments segs f o e : between f -> holds f o e -> cut_well segs -> Forall (fun s => s.1 <> []) segs ->
  exists f', push_segments f segs = (f', None) /\
    holds f' (o ++ data Stdout segs) (e ++ data Stderr segs) /\ closed f' = plus_loss (loss f) (loss_of segs).
Proof.
  revert f o e. induction segs as [|[bs ended] segs IH]; intros f o e Hb Hh Hw Hne.
  { exists f. unfold data. cbn. rewrite !app_nil_r. split; [done|]. split; [done|]. unfold closed.
    destruct Hb as [-> _]. symmetry. apply plus_no_loss. }
  apply Forall_cons in Hne as [Hne Hnes]. cbn [fst] in Hne.
  destruct (push_whole f bs ended o e Hb Hh Hne) as (f1 & Hf1 & Hb1 & Hh1 & Hl1).
  cbn [push_segments]. rewrite Hf1. destruct ended.
  - destruct (IH f1 _ _ (Hb1 eq_refl) Hh1 Hw Hnes) as (f' & Hf' & Hh' & Hl').
    exists f'. split; [done|]. split; [by unfold data; cbn [map concat]; rewrite !app_assoc|].
    rewrite Hl', loss_of_cons, plus_loss_assoc. f_equal.
    rewrite <- Hl1. unfold closed. by destruct (Hb1 eq_refl) as [-> _].
  - destruct Hw as [_ ->]. exists f1. split; [done|]. unfold data. cbn [map concat].
    rewrite (app_nil_r (data_of Stdout _)), (app_nil_r (data_of Stderr _)). by split.
Qed.
End Holds.

(** ** Running under a transport *)

(** A transport that delivers [chunks] on the encoded stream as long as they are
    taken, and returns [r]. *)
Inductive relays : Talk -> list bytes -> ExecStreamingResult -> Prop :=
  | relays_return r : relays (Return (Ok r)) [] r
  | relays_call bs go_on chunks r : relays (go_on None) chunks r ->
      relays (Call Stdout bs go_on) (bs :: chunks) r.

Definition streams_live (controls : ExecControls) : bool :=
  stdin controls || bool_decide (is_Some (sink controls)) || term controls || kill controls.

(** The encoded output of a command is [stream], however it arrives. *)
Definition carries (transport : Transport) (encoded : ExecSpec) (controls : ExecControls)
    (stream : bytes) (r : ExecStreamingResult) : Prop :=
  if streams_live controls
  then exists chunks, relays (run_streaming transport encoded) chunks r /\ concat chunks = stream
  else run_buffered transport encoded = Ok r /\ res_stdout (sr_result r) = stream /\ res_stderr (sr_result r) = [].

Lemma listen_relays t chunks r f f' : relays t chunks r -> ok f ->
  push f Stdout (concat chunks) = (f', None) -> listen t f = (f', Ok r).
Proof.
  intros Hr. revert f. induction Hr as [r|bs go_on chunks r Hr IH]; intros f Hf.
  - cbn. by intros [= ->].
  - cbn [concat]. rewrite push_joined by done. pose proof (push_ok_state f bs Hf) as Hf1. cbn [listen].
    destruct (push f Stdout bs) as [f1 [e|]]; [done|]. by apply IH.
Qed.

Lemma segments_nonempty bs : Forall (fun s => s.1 <> []) (segments bs).
Proof.
  induction bs as [|b bs IH]; cbn; [constructor|]. destruct (b =? 10); [by constructor|].
  destruct (segments bs) as [|[s e] more]; [by repeat constructor|]. inversion IH. by constructor.
Qed.

Lemma new_having_seen c : Capture.new c = having_seen (default 0%nat c) [].
Proof. unfold Capture.new, having_seen, newest. destruct c; cbn -[Nat.div]; by rewrite ?take_nil, !drop_nil. Qed.

Section Run.
Context (p : OutputSanitization) (controls : ExecControls).
Let n := default 0%nat (retained_output_limit controls).
Let sinks := bool_decide (is_Some (sink controls)).

Lemma framed_new_holds : accepting (sink controls) ->
  holds p n sinks (framed_new p controls) [] [].
Proof.
  intros Hs. unfold holds, sink_holds, after, emitted, framed_new. cbn. rewrite new_having_seen. fold n.
  assert (Sanitize.push (Sanitize.new p) [] = (Sanitize.new p, [])) as -> by (unfold Sanitize.push; by case_decide).
  split_and!; [done..|]. subst sinks. destruct (sink controls) as [k|]; [|done].
  destruct Hs as [Ha Hd]. unfold given. by rewrite Hd.
Qed.

(** What [finish] reports of an output. *)
Definition reports (f : FramedOutput) (r x : ExecStreamingResult) (stream : bytes) : Prop :=
  let segs := segments stream in
  let o := sanitize p (data Stdout segs) in
  let e := sanitize p (data Stderr segs) in
  let cut := truncated (stdout_capture r) || truncated (stderr_capture r) || is_lossy (loss_of segs) in
  x = mkStreaming
        (mkResult (head_tail n o) (head_tail n e) (exit_code (sr_result r)) (res_signal (sr_result r))
           (res_termination (sr_result r)) (duration (sr_result r)))
        true (live_streaming r)
        (mkStats (length o) (n `min` length o) (length o - n) cut)
        (mkStats (length e) (n `min` length e) (length e - n) cut)
        (loss_of segs) /\
  match to f with
  | Some k => is_Some (sink controls) /\ given k Stdout = o /\ given k Stderr = e
  | None => sink controls = None
  end.

Lemma finish_reports f r stream :
  holds p n sinks f (data Stdout (segments stream)) (data Stderr (segments stream)) ->
  closed f = loss_of (segments stream) ->
  exists f' x, finish f r = (f', Ok x) /\ reports f' r x stream.
Proof.
  intros Hh Hl. unfold finish. set (f0 := match pending f with [] => f | q => _ end).
  assert (Hh0 : holds p n sinks f0 (data Stdout (segments stream)) (data Stderr (segments stream)))
    by (subst f0; by destruct (pending f)).
  assert (Hl0 : loss f0 = loss_of (segments stream)) by (rewrite <- Hl; subst f0; unfold closed; by destruct (pending f)).
  clearbody f0. destruct (flush_holds p n sinks f0 _ _ Hh0) as (f1 & f2 & Hf1 & Hf2 & Ho & He & Hs).
  rewrite Hf1, Hf2. eexists f2, _. split; [done|]. unfold reports. cbv zeta.
  assert (Hl2 : loss f2 = loss_of (segments stream)).
  { unfold flush in Hf1, Hf2. destruct (Sanitize.finish _) as [s1 b1] in Hf1. destruct (Sanitize.finish _) as [s2 b2] in Hf2.
    pose proof (deliver_fields f0 Stdout s1 b1) as (_ & _ & H1). pose proof (deliver_fields f1 Stderr s2 b2) as (_ & _ & H2).
    rewrite Hf1 in H1. rewrite Hf2 in H2. cbn in *. congruence. }
  split.
  - unfold settled. rewrite Ho, He, !stats_having_seen, Hl2. cbn [observed_bytes retained_bytes omitted_bytes Capture.truncated].
    reflexivity.
  - unfold sink_holds in Hs. subst sinks. destruct (to f2) as [k|]; [|by case_bool_decide; destruct (sink controls); naive_solver].
    destruct Hs as (Hk & _ & ? & ?). by apply bool_decide_eq_true in Hk.
Qed.

(** Whatever the transport delivers, and however it cuts it. *)
Lemma run_reports script transport spec stream r : output_sanitization spec = p ->
  accepting (sink controls) -> carries transport (encoded_spec script spec) controls stream r ->
  exists f x, run script transport spec controls = (f, Ok x) /\ reports f r x stream.
Proof.
  intros Hp Hs Hc. unfold run. rewrite Hp. cbv zeta. pose proof (framed_new_holds Hs) as Hh.
  destruct (push_whole_segments p n sinks (segments stream) (framed_new p controls) [] []) as (f1 & Hf1 & Hh1 & Hl1);
    [by split|done|apply segments_cut_well|apply segments_nonempty|].
  cbn [app] in Hh1. change (loss (framed_new p controls)) with no_loss in Hl1.
  unfold plus_loss in Hl1. cbn -[loss_of] in Hl1.
  assert (Hl : closed f1 = loss_of (segments stream)) by (rewrite Hl1; by destruct (loss_of _)).
  unfold carries, streams_live in Hc. destruct (stdin controls || _ || _ || _).
  - destruct Hc as (chunks & Hr & <-).
    rewrite (listen_relays _ chunks r (framed_new p controls) f1) by (done || by split).
    by apply finish_reports.
  - destruct Hc as (-> & -> & ->). cbn [push]. rewrite Hf1.
    destruct (emit_holds p n sinks f1 Stderr [] _ _ Hh1) as (f2 & Hf2 & Hh2). rewrite Hf2.
    unfold added in Hh2. repeat case_decide; try done. rewrite !app_nil_r in Hh2.
    apply finish_reports; [done|].
    pose proof (emit_fields f1 Stderr []) as (Hp2 & _ & Hl2). rewrite Hf2 in Hp2, Hl2. cbn in Hp2, Hl2.
    rewrite <- Hl. unfold closed. rewrite Hp2. destruct (pending f1); cbn; by rewrite Hl2.
Qed.
End Run.

(** ** The encoder *)

(** What [printf %q] writes under [LC_ALL=C] for bytes of which none is zero. *)
Class PrintfQ := {
  quote : bytes -> bytes;
  quote_form c : c <> [] -> Forall (fun b => 0 < b < 256) c -> quoted (quote c) c;
  quote_ascii c : c <> [] -> Forall (fun b => 0 < b < 256) c -> Forall (fun b => in_range 0x20 0x7e b = true) (quote c);
}.

(** [printf '%s%q\n'], or with a body already quoted. *)
Definition record_of (tag : u8) (body : bytes) : bytes := tag :: body ++ [10].

Definition nul_body : bytes := [36; 39; 92; 48; 39].

Section Encode.
Context `{PrintfQ}.

Definition encode_chunk (tag : u8) (chunk : bytes) : list bytes :=
  match chunk with [] => [] | _ => [record_of tag (quote chunk)] end.

(** The loop of the script's [encode], up to the end of its input. [ready] is what
    [read -t 0] answers, call by call; once it is spent nothing more is ready. *)
Fixpoint encode_loop (count : nat) (tag : u8) (chunk input : bytes) (ready : list bool) : list bytes :=
  match input with
  | [] => encode_chunk tag chunk
  | byte :: input =>
      if byte =? 0 then encode_chunk tag chunk ++ record_of tag nul_body :: encode_loop count tag [] input ready
      else
        let chunk := chunk ++ [byte] in
        if (count <=? length chunk)%nat then encode_chunk tag chunk ++ encode_loop count tag [] input ready
        else
          match ready with
          | true :: ready => encode_loop count tag chunk input ready
          | _ => encode_chunk tag chunk ++ encode_loop count tag [] input (drop 1 ready)
          end
  end.

Definition encode (old_bash : bool) (tag : u8) (input : bytes) (ready : list bool) : list bytes :=
  encode_loop (if old_bash then 1 else 96)%nat tag [] input ready.

(** A record that reads back as its bytes. *)
Definition reads_as (st : OutputStream) (l raw : bytes) : Prop :=
  (exists w, l = w ++ [10] /\ Forall (fun b => b <> 10) w) /\ seen (l, true) = Data st raw.

Definition tag_of (st : OutputStream) : u8 := match st with Stdout => 79 | Stderr => 69 end.

Lemma ansi_c_length w raw : ansi_c w raw -> (length w <= 4 * length raw)%nat.
Proof. induction 1 as [| | |ds v w raw Hd]; cbn in *; try lia. rewrite length_app. destruct Hd; cbn; lia. Qed.

Lemma plain_length w raw : plain w raw -> (length w <= 4 * length raw)%nat.
Proof. induction 1; cbn in *; lia. Qed.

Lemma quoted_length w raw : quoted w raw -> (length w <= 4 * length raw + 3)%nat.
Proof.
  destruct 1 as [|w raw Hw|w raw Hw]; cbn; [lia| |].
  - rewrite length_app. apply ansi_c_length in Hw. cbn. lia.
  - apply plain_length in Hw. lia.
Qed.

Lemma record_reads st body raw : quoted body raw -> Forall (fun b => in_range 0x20 0x7e b = true) body ->
  (length body <= 510)%nat -> reads_as st (record_of (tag_of st) body) raw.
Proof.
  intros Hq Ha Hl. split.
  - exists (tag_of st :: body). split; [done|]. constructor; [by destruct st|].
    eapply Forall_impl; [exact Ha|]. intros b Hb ->. done.
  - unfold seen, record_of. cbn [negb orb length]. rewrite length_app. cbn [length].
    destruct (Z.ltb_spec MAX_FRAME_BYTES (Z.of_nat (S (length body + 1)))) as [H1|H1]; [unfold MAX_FRAME_BYTES in H1; lia|].
    rewrite bool_decide_false by (by destruct st). unfold decoded. cbn [length drop]. rewrite length_app. cbn [length].
    assert (stream_tag (tag_of st) = Some st) as -> by (by destruct st).
    rewrite drop_0, take_app_le, firstn_all2 by lia. by rewrite (proj2 (decode_quoted_spec body raw)).
Qed.

Lemma chunk_reads st chunk : Forall (fun b => 0 < b < 256) chunk -> (length chunk <= 96)%nat ->
  exists raws, Forall2 (reads_as st) (encode_chunk (tag_of st) chunk) raws /\ concat raws = chunk.
Proof.
  intros Hb Hl. destruct chunk as [|b chunk]; [by exists []|]. set (c := b :: chunk) in *.
  exists [c]. split; [|apply app_nil_r]. constructor; [|done].
  pose proof (quote_form c ltac:(done) Hb) as Hq. apply record_reads; [done|by apply quote_ascii|].
  apply quoted_length in Hq. lia.
Qed.

(** The records of a stream read back as its bytes. *)
Lemma encode_loop_reads st count chunk input ready :
  Forall is_u8 input -> Forall (fun b => 0 < b < 256) chunk -> (length chunk < count <= 96)%nat ->
  exists raws, Forall2 (reads_as st) (encode_loop count (tag_of st) chunk input ready) raws /\
    concat raws = chunk ++ input.
Proof.
  intros Hi. revert chunk ready. induction Hi as [|b input Hb Hi IH]; intros chunk ready Hc Hl; cbn [encode_loop].
  { rewrite app_nil_r. apply chunk_reads; [done|lia]. }
  assert (Hstep : forall c r, Forall (fun b => 0 < b < 256) c -> (length c <= 96)%nat ->
    exists raws, Forall2 (reads_as st) (encode_chunk (tag_of st) c ++ encode_loop count (tag_of st) [] input r) raws /\
      concat raws = c ++ input).
  { intros c r Hcb Hcl. destruct (chunk_reads st c Hcb Hcl) as (raws1 & H1 & <-).
    destruct (IH [] r) as (raws2 & H2 & H2'); [constructor|cbn; lia|].
    exists (raws1 ++ raws2). split; [by apply Forall2_app|]. by rewrite concat_app, H2'. }
  destruct (Z.eqb_spec b 0) as [->|H0].
  - destruct (chunk_reads st chunk Hc) as (raws1 & H1 & <-); [lia|].
    destruct (IH [] ready) as (raws2 & H2 & H2'); [constructor|cbn; lia|].
    exists (raws1 ++ [0] :: raws2). split; [|by rewrite concat_app; cbn; rewrite H2'].
    apply Forall2_app; [done|]. constructor; [|done].
    apply record_reads; [by apply decode_quoted_spec|by repeat constructor|cbn; lia].
  - assert (Hc' : Forall (fun b => 0 < b < 256) (chunk ++ [b])).
    { apply Forall_app. split; [done|]. constructor; [|done]. unfold is_u8 in Hb. lia. }
    cbv zeta. replace (chunk ++ b :: input) with ((chunk ++ [b]) ++ input) by (by rewrite <- app_assoc).
    assert (length (chunk ++ [b]) = length chunk + 1)%nat as Hlen by (by rewrite length_app).
    destruct (Nat.leb_spec count (length (chunk ++ [b]))); [apply Hstep; [done|lia]|].
    destruct ready as [|[] ready]; [apply Hstep; [done|lia]|apply IH; [done|lia]|apply Hstep; [done|lia]].
Qed.

Lemma encode_reads old_bash st input ready : Forall is_u8 input ->
  exists raws, Forall2 (reads_as st) (encode old_bash (tag_of st) input ready) raws /\ concat raws = input.
Proof. intros Hi. apply (encode_loop_reads st _ []); [done|constructor|]. destruct old_bash; cbn; lia. Qed.
End Encode.

(** The two encoders write to one output, a record at a time. *)
Inductive interleaved {A} : list A -> list A -> list A -> Prop :=
  | interleaved_nil : interleaved [] [] []
  | interleaved_l a l1 l2 l : interleaved l1 l2 l -> interleaved (a :: l1) l2 (a :: l)
  | interleaved_r a l1 l2 l : interleaved l1 l2 l -> interleaved l1 (a :: l2) (a :: l).

(** A whole record at the head of an output. *)
Lemma encoded_reads_first st l raw rest : reads_as st l raw ->
  (forall st', data st' (segments (l ++ rest)) = added st' st raw ++ data st' (segments rest)) /\
  loss_of (segments (l ++ rest)) = loss_of (segments rest).
Proof.
  intros [(w & -> & Hw) Hs]. rewrite <- app_assoc. cbn [app]. rewrite segments_record by done. split.
  - intros st'. unfold data. cbn [map concat]. f_equal. unfold data_of, added. by rewrite Hs.
  - rewrite loss_of_cons, loss_of_one. unfold lost. rewrite Hs. by destruct (loss_of (segments rest)).
Qed.

Lemma interleaved_reads ls1 ls2 ls raws1 raws2 : interleaved ls1 ls2 ls ->
  Forall2 (reads_as Stdout) ls1 raws1 -> Forall2 (reads_as Stderr) ls2 raws2 ->
  let segs := segments (concat ls) in
  data Stdout segs = concat raws1 /\ data Stderr segs = concat raws2 /\ loss_of segs = no_loss.
Proof.
  intros Hi. revert raws1 raws2. induction Hi as [|l ls1 ls2 ls Hi IH|l ls1 ls2 ls Hi IH]; intros raws1 raws2 H1 H2.
  - apply Forall2_nil_inv_l in H1, H2. by subst.
  - apply Forall2_cons_inv_l in H1 as (raw & raws & Hr & H1 & ->). cbn [concat].
    destruct (encoded_reads_first Stdout l raw (concat ls) Hr) as [Hd Hl]. destruct (IH raws raws2 H1 H2) as (Ho & He & Hl').
    cbv zeta. rewrite !Hd, Hl, Ho, He. unfold added. repeat case_decide; try done. all: by split_and!.
  - apply Forall2_cons_inv_l in H2 as (raw & raws & Hr & H2 & ->). cbn [concat].
    destruct (encoded_reads_first Stderr l raw (concat ls) Hr) as [Hd Hl]. destruct (IH raws1 raws H1 H2) as (Ho & He & Hl').
    cbv zeta. rewrite !Hd, Hl, Ho, He. unfold added. repeat case_decide; try done. all: by split_and!.
Qed.

(** ** Properties *)

Lemma lossy_lost segs : is_lossy (loss_of segs) = existsb lost segs.
Proof.
  unfold is_lossy, loss_of. cbn [dropped_frames dropped_bytes]. induction segs as [|s segs IH]; [done|].
  rewrite filter_cons. destruct (decide (lost s = true)) as [Hs|Hs].
  - cbn [existsb]. rewrite Hs. cbn [length].
    assert (forall k, (Z.of_nat (S k) =? 0) = false) as Hk by (intros k; apply Z.eqb_neq; lia). by rewrite Hk.
  - apply not_true_is_false in Hs. cbn [existsb]. by rewrite Hs.
Qed.

Lemma length_of_split segs :
  length_of (filter (fun s => lost s = true) segs) + length_of (filter (fun s => lost s = false) segs)
  = Z.of_nat (length (concat (map fst segs))).
Proof.
  induction segs as [|s segs IH]; [done|]. cbn [map concat]. rewrite length_app, !filter_cons.
  destruct (lost s); repeat case_decide; try done; unfold length_of in *; cbn [foldr]; lia.
Qed.

(** C7. A command's output crosses the text-only transport unchanged. Both streams
    are encoded by Bash, record by record, in any interleaving; the toolbox's client
    delivers the encoded text in any pieces, to a sink or as one buffered value; and
    the caller gets, per stream, exactly what the sanitizing policy makes of the
    bytes the command wrote, retained under the caller's limit, with nothing lost,
    nothing truncated and the streams separated. A sink is given the same bytes. *)
Theorem encoded_exec_exact `{PrintfQ} script transport spec controls r old_bash o e ready_o ready_e ls
    (Ho : Forall is_u8 o) (He : Forall is_u8 e)
    (Hls : interleaved (encode old_bash 79 o ready_o) (encode old_bash 69 e ready_e) ls)
    (Hsink : accepting (sink controls))
    (Hr : truncated (stdout_capture r) = false /\ truncated (stderr_capture r) = false)
    (Hc : carries transport (encoded_spec script spec) controls (concat ls) r) :
  let p := output_sanitization spec in
  let n := default 0%nat (retained_output_limit controls) in
  let all l := mkStats (length (sanitize p l)) (n `min` length (sanitize p l)) (length (sanitize p l) - n) false in
  exists f, run script transport spec controls = (f, Ok (mkStreaming
      (mkResult (head_tail n (sanitize p o)) (head_tail n (sanitize p e)) (exit_code (sr_result r))
         (res_signal (sr_result r)) (res_termination (sr_result r)) (duration (sr_result r)))
      true (live_streaming r) (all o) (all e) no_loss)) /\
    match to f with
    | Some k => is_Some (sink controls) /\ given k Stdout = sanitize p o /\ given k Stderr = sanitize p e
    | None => sink controls = None
    end.
Proof.
  intros p n all. destruct (encode_reads old_bash Stdout o ready_o Ho) as (raws1 & H1 & Ho').
  destruct (encode_reads old_bash Stderr e ready_e He) as (raws2 & H2 & He').
  destruct (interleaved_reads _ _ _ _ _ Hls H1 H2) as (Hdo & Hde & Hl).
  destruct (run_reports p controls script transport spec _ r eq_refl Hsink Hc) as (f & x & Hrun & Hx & Hgiven).
  destruct Hr as [Hr1 Hr2]. rewrite Hdo, Hde, Hl, Ho', He', Hr1, Hr2 in Hx. rewrite Hdo, Hde, Ho', He' in Hgiven.
  exists f. by rewrite Hrun, Hx.
Qed.

(** A torn transport is reported, never hidden. Whatever text the toolbox
    delivers, in whatever pieces, the exec does not fail for it: each record that is
    too long, without its tag, unreadable or cut off is dropped whole and counted,
    every byte delivered is either in a record that was read or counted as dropped,
    the records that can be read are, in order, and a loss marks both captures
    truncated, so that the result never passes as complete. *)
Theorem torn_output_reported script transport spec controls stream r
    (Hsink : accepting (sink controls))
    (Hc : carries transport (encoded_spec script spec) controls stream r) :
  let p := output_sanitization spec in
  let n := default 0%nat (retained_output_limit controls) in
  let segs := segments stream in
  let cut := truncated (stdout_capture r) || truncated (stderr_capture r) || existsb lost segs in
  exists f x, run script transport spec controls = (f, Ok x) /\
    res_stdout (sr_result x) = head_tail n (sanitize p (data Stdout segs)) /\
    res_stderr (sr_result x) = head_tail n (sanitize p (data Stderr segs)) /\
    dropped_frames (output_loss x) = Z.of_nat (length (filter (fun s => lost s = true) segs)) /\
    dropped_bytes (output_loss x) + length_of (filter (fun s => lost s = false) segs) = Z.of_nat (length stream) /\
    truncated (stdout_capture x) = cut /\ truncated (stderr_capture x) = cut /\
    (existsb lost segs = true -> into_complete x = Err DeliveryIncomplete) /\
    match to f with
    | Some k => given k Stdout = sanitize p (data Stdout segs) /\ given k Stderr = sanitize p (data Stderr segs)
    | None => sink controls = None
    end.
Proof.
  intros p n segs cut.
  destruct (run_reports p controls script transport spec stream r eq_refl Hsink Hc) as (f & x & Hrun & Hx & Hgiven).
  exists f, x. split; [done|]. rewrite Hx, lossy_lost. cbn [sr_result res_stdout res_stderr output_loss stdout_capture
    stderr_capture truncated dropped_frames dropped_bytes].
  split_and!; try done.
  - unfold loss_of. cbn [dropped_bytes]. subst segs. by rewrite length_of_split, segments_concat.
  - unfold into_complete. cbn [stdout_capture stderr_capture truncated]. fold segs. intros ->. by rewrite orb_true_r.
  - destruct (to f); naive_solver.
Qed.

(** A quoting that writes every byte in octal. *)
Definition octal_escape (b : u8) : bytes := [92; 48 + b / 64; 48 + b / 8 mod 8; 48 + b mod 8].

Definition octal_quote (c : bytes) : bytes := 36 :: 39 :: concat (map octal_escape c) ++ [39].

Lemma octal_digits b : 0 < b < 256 ->
  octal [48 + b / 64; 48 + b / 8 mod 8; 48 + b mod 8] b /\
  Forall (fun d => in_range 0x20 0x7e d = true) (octal_escape b).
Proof.
  intros Hb. pose proof (Z.mod_pos_bound (b / 8) 8). pose proof (Z.mod_pos_bound b 8).
  assert (0 <= b / 64 <= 3) by (split; [apply Z.div_pos; lia|]; apply Z.lt_succ_r, Z.div_lt_upper_bound; lia).
  assert (Hv : b = (b / 64 * 8 + b / 8 mod 8) * 8 + b mod 8).
  { pose proof (Z.div_mod b 8 ltac:(lia)). pose proof (Z.div_mod (b / 8) 8 ltac:(lia)).
    replace (b / 64) with (b / 8 / 8) by (rewrite Z.div_div by lia; done). lia. }
  split.
  - rewrite Hv at 4. replace (b / 64) with (48 + b / 64 - 48) at 2 by lia.
    replace (b / 8 mod 8) with (48 + b / 8 mod 8 - 48) at 2 by lia.
    replace (b mod 8) with (48 + b mod 8 - 48) at 2 by lia.
    constructor; unfold is_octal, in_range; lia.
  - unfold octal_escape, in_range. repeat constructor; lia.
Qed.

Definition octal_printf : PrintfQ.
Proof.
  refine {| quote := octal_quote |}.
  - intros c _ Hc. apply quoted_ansi. induction Hc as [|b c Hb Hc IH]; cbn [map concat]; [constructor|].
    unfold octal_escape at 1. cbn [app].
    apply (ansi_octal [48 + b / 64; 48 + b / 8 mod 8; 48 + b mod 8]); [by apply octal_digits|lia|by left|done].
  - intros c _ Hc. unfold octal_quote. do 2 (constructor; [done|]). apply Forall_app. split; [|by repeat constructor].
    induction Hc as [|b c Hb Hc IH]; cbn [map concat]; [constructor|]. apply Forall_app. split; [by apply octal_digits|done].
Defined.

(** A transport that delivers three pieces, and returns. *)
Definition in_pieces (a b c : bytes) : Transport :=
  let r := streaming_new (result_new Exited (Some 0) 5) in
  mkTransport (fun _ => Call Stdout a (fun _ => Call Stdout b (fun _ => Call Stdout c (fun _ => Return (Ok r)))))
    (fun _ => Ok r).

Definition live : ExecControls := mkControls false false true (Some (mkSink [] [])) (Some 8%nat).

Lemma in_pieces_carries a b c encoded :
  carries (in_pieces a b c) encoded live (a ++ b ++ c) (streaming_new (result_new Exited (Some 0) 5)).
Proof. exists [a; b; c]. split; [repeat constructor|]. cbn. by rewrite app_nil_r. Qed.

Lemma encoded_exec_exact_witness :
  exists ls f, interleaved (@encode octal_printf false 79 [104; 0; 255] [true]) (@encode octal_printf false 69 [33] []) ls /\
    run "encode" (in_pieces (take 7 (concat ls)) (take 20 (drop 7 (concat ls))) (drop 20 (drop 7 (concat ls))))
      (spec_new "true") live =
      (f, Ok (mkStreaming (mkResult [104; 0; 255] [33] (Some 0) None Exited 5) true false
        (mkStats 3 3 0 false) (mkStats 1 1 0 false) no_loss)) /\
    match to f with Some k => given k Stdout = [104; 0; 255] /\ given k Stderr = [33] | None => False end.
Proof.
  set (lo := @encode octal_printf false 79 [104; 0; 255] [true]). set (le := @encode octal_printf false 69 [33] []).
  set (ls := lo ++ le). assert (Hls : interleaved lo le ls).
  { vm_compute. repeat constructor. }
  destruct (@encoded_exec_exact octal_printf "encode"
    (in_pieces (take 7 (concat ls)) (take 20 (drop 7 (concat ls))) (drop 20 (drop 7 (concat ls))))
    (spec_new "true") live (streaming_new (result_new Exited (Some 0) 5)) false [104; 0; 255] [33] [true] [] ls)
    as (f & Hf & Hk).
  - repeat constructor; lia.
  - repeat constructor; lia.
  - exact Hls.
  - split; constructor.
  - split; reflexivity.
  - assert (concat ls = take 7 (concat ls) ++ take 20 (drop 7 (concat ls)) ++ drop 20 (drop 7 (concat ls))) as Heq
      by reflexivity.
    rewrite Heq at 1. apply in_pieces_carries.
  - exists ls, f. split; [exact Hls|]. split; [exact Hf|]. destruct (to f); [split; apply Hk|discriminate Hk].
Defined.

(** The second record lost its tag, and the output ends inside the fourth. *)
Lemma torn_output_reported_witness :
  exists f x, run "encode" (in_pieces [79; 104; 10; 104] [105; 10; 69; 33; 10] [79; 36]) (spec_new "true") live = (f, Ok x) /\
    res_stdout (sr_result x) = [104] /\ res_stderr (sr_result x) = [33] /\
    output_loss x = mkLoss 2 5 /\ into_complete x = Err DeliveryIncomplete.
Proof.
  destruct (torn_output_reported "encode" (in_pieces [79; 104; 10; 104] [105; 10; 69; 33; 10] [79; 36]) (spec_new "true") live
    ([79; 104; 10; 104] ++ [105; 10; 69; 33; 10] ++ [79; 36]) (streaming_new (result_new Exited (Some 0) 5)))
    as (f & x & Hrun & Ho & He & Hf & Hb & _ & _ & Hc & _).
  - split; constructor.
  - apply in_pieces_carries.
  - exists f, x. split; [exact Hrun|]. split; [exact Ho|]. split; [exact He|]. split; [|apply Hc; reflexivity].
    destruct (output_loss x) as [frames lost_bytes]. cbn [dropped_frames dropped_bytes] in Hf, Hb. f_equal.
    + rewrite Hf. reflexivity.
    + assert (lost_bytes + 6 = 11) by exact Hb. lia.
Defined.
