(* ===== verification/Control.v ===== *)
(** * The bounded control stream

    Models [crates/sandbox-driver-protocol/src/limits.rs] and
    [crates/sandbox-driver-protocol/src/control.rs]: the transport's budgets, reading
    bounded lines, counting a message before it is encoded, and the three queues of
    encoded messages whose bytes are paid for with permits. Serde's writing of a
    message is the interface [SerdeJson]. A semaphore is its free permits and a
    channel its queue, as tokio documents them; [deliver], which waits, is its steps. *)

From S2P Require Import Prelude Text Errors Wire.

#[local] Open Scope string_scope.
#[local] Open Scope list_scope.
#[local] Open Scope Z_scope.

(** ** Limits *)

(** Durations are in milliseconds. *)
Record TransportLimits := mkLimits {
  active_io : Z;
  pending_opens : Z;
  unauthenticated_handshakes : Z;
  provider_requests : Z;
  reserved_requests : Z;
  control_message_bytes : Z;
  queued_control_bytes : Z;
  reserved_control_bytes : Z;
  event_queue_bytes : Z;
  event_queue_messages : Z;
  retained_output_bytes : Z;
  buffered_value_bytes : Z;
  cached_handles : Z;
  output_progress_timeout : Z;
  hard_cancel_drain_timeout : Z;
  open_timeout : Z;
  shutdown_timeout : Z;
}.

Definition default_limits : TransportLimits := {|
  active_io := 1024;
  pending_opens := 1024;
  unauthenticated_handshakes := 64;
  provider_requests := 2048;
  reserved_requests := 64;
  control_message_bytes := 1024 * 1024;
  queued_control_bytes := 8 * 1024 * 1024;
  reserved_control_bytes := 1024 * 1024;
  event_queue_bytes := 1024 * 1024;
  event_queue_messages := 256;
  retained_output_bytes := 16 * 1024 * 1024;
  buffered_value_bytes := 16 * 1024 * 1024;
  cached_handles := 4096;
  output_progress_timeout := 30 * 1000;
  hard_cancel_drain_timeout := 5 * 1000;
  open_timeout := 10 * 1000;
  shutdown_timeout := 5 * 1000;
|}.

(** The budgets and the deadlines [validate] walks, in its order. *)
Definition budgets (l : TransportLimits) : list (string * Z) :=
  [("active_io", active_io l);
   ("pending_opens", pending_opens l);
   ("unauthenticated_handshakes", unauthenticated_handshakes l);
   ("provider_requests", provider_requests l);
   ("reserved_requests", reserved_requests l);
   ("control_message_bytes", control_message_bytes l);
   ("queued_control_bytes", queued_control_bytes l);
   ("reserved_control_bytes", reserved_control_bytes l);
   ("event_queue_bytes", event_queue_bytes l);
   ("event_queue_messages", event_queue_messages l);
   ("retained_output_bytes", retained_output_bytes l);
   ("buffered_value_bytes", buffered_value_bytes l);
   ("cached_handles", cached_handles l)].

Definition deadlines (l : TransportLimits) : list (string * Z) :=
  [("output_progress_timeout", output_progress_timeout l);
   ("hard_cancel_drain_timeout", hard_cancel_drain_timeout l);
   ("open_timeout", open_timeout l);
   ("shutdown_timeout", shutdown_timeout l)].

Fixpoint check_each (bad : Z -> bool) (reason : string) (named : list (string * Z)) : result unit Error :=
  match named with
  | [] => Ok tt
  | (name, value) :: named => if bad value then Err (InvalidSpec name reason) else check_each bad reason named
  end.

(** [MAX_PERMITS] is tokio's bound on the permits of a semaphore. *)
Definition limits_validate (MAX_PERMITS : Z) (l : TransportLimits) : result unit Error :=
  check? check_each (fun value => (value =? 0) || (Z.min MAX_PERMITS (u32_bound - 1) <? value))
           "must be positive and fit the transport budget" (budgets l) in
  check_each (fun duration => (duration =? 0) || (86400 * 1000 <? duration))
    "must be positive and at most one day" (deadlines l).

(** [limits::acquire] over the permits that are free. *)
Definition acquire (free : Z) (limit : string) : result Z Error :=
  if 0 <? free then Ok (free - 1) else Err (Overloaded limit).


(** A budget's free permits and the tasks that hold one add up to the budget. *)
Definition counts (P : nat -> bool) (free total : Z) : Prop :=
  0 <= free /\ exists F : gset nat, (forall i, i ∈ F <-> P i = true) /\ free + Z.of_nat (size F) = total.

Lemma counts_start P total : (forall i, P i = false) -> 0 <= total -> counts P total total.
Proof.
  intros HP Ht. split; [done|]. exists ∅. split; [|rewrite size_empty; lia].
  intros i. rewrite HP. set_solver.
Qed.

Lemma counts_ext P Q free total : (forall i, Q i = P i) -> counts P free total -> counts Q free total.
Proof. intros HQ [? (F & HF & ?)]. split; [done|]. exists F. split; [|done]. intros i. by rewrite HF, HQ. Qed.

Lemma counts_take P Q i free total : 0 < free -> P i = false -> Q i = true -> (forall j, j <> i -> Q j = P j) ->
  counts P free total -> counts Q (free - 1) total.
Proof.
  intros Hf HP HQ Hne [? (F & HF & ?)]. split; [lia|]. assert (i ∉ F) by (rewrite HF; congruence). exists (F ∪ {[ i ]}). split.
  - intros j. rewrite elem_of_union, elem_of_singleton, HF. destruct (decide (j = i)) as [->|Hj]; [tauto|].
    rewrite Hne by done. tauto.
  - rewrite size_union, size_singleton by (by apply disjoint_singleton_r). lia.
Qed.

Lemma counts_drop P Q i free total : P i = true -> Q i = false -> (forall j, j <> i -> Q j = P j) ->
  counts P free total -> counts Q (free + 1) total.
Proof.
  intros HP HQ Hne [? (F & HF & ?)]. split; [lia|]. assert (Hi : i ∈ F) by (by rewrite HF). exists (F ∖ {[ i ]}). split.
  - intros j. rewrite elem_of_difference, elem_of_singleton, HF. destruct (decide (j = i)) as [->|Hj].
    + rewrite HQ. split; [by intros [_ []]|done].
    + rewrite Hne by done. tauto.
  - rewrite size_difference, size_singleton by (by apply singleton_subseteq_l).
    assert (size F <> 0%nat) by (intros Hz%size_empty_iff; set_solver). lia.
Qed.

Lemma counts_pos P i free total : P i = true -> counts P free total -> free < total.
Proof.
  intros HP [? (F & HF & ?)]. assert (size F <> 0%nat); [|lia]. intros Hz%size_empty_iff. apply HF in HP. set_solver.
Qed.

(** ** Reading lines *)

(** What the stream does when it is read: some bytes, an error, or nothing before
    the caller drops the future. No bytes is its end. *)
Inductive Arrival := Chunk (bs : bytes) | ReadFailed (error : string) | Dropped.

(** The bytes buffered and not consumed, and what comes after them. *)
Record LineReader := mkLineReader { buffered : bytes; incoming : list Arrival }.

Inductive LineError := UnexpectedEof | InvalidData | ReadError (error : string).

Inductive LineRead := Line (bs : bytes) | EndOfStream | LineFailed (e : LineError) | Cancelled_.

(** One turn of the loop, over the bytes available. *)
Inductive Turn := TurnLine (line rest : bytes) | TurnMore (partial : bytes) | TurnTooLong.

Definition line_turn (available partial : bytes) (max : Z) : Turn :=
  let '(taken, rest, newline) :=
    match cut 10 available with
    | Some (l, r) => (l ++ [10], r, true)
    | None => (available, [], false)
    end in
  if Z.max 0 (max - Z.of_nat (length partial)) <? Z.of_nat (length taken) then TurnTooLong
  else if newline then TurnLine (partial ++ taken) rest else TurnMore (partial ++ taken).

Fixpoint read_arrivals (incoming : list Arrival) (partial : bytes) (max : Z)
    : LineReader * bytes * LineRead :=
  match incoming with
  | [] | Chunk [] :: _ =>
      (mkLineReader [] incoming, partial,
       match partial with [] => EndOfStream | _ => LineFailed UnexpectedEof end)
  | Dropped :: incoming => (mkLineReader [] incoming, partial, Cancelled_)
  | ReadFailed e :: incoming => (mkLineReader [] incoming, partial, LineFailed (ReadError e))
  | Chunk available :: incoming =>
      match line_turn available partial max with
      | TurnTooLong => (mkLineReader available incoming, partial, LineFailed InvalidData)
      | TurnLine line rest => (mkLineReader rest incoming, [], Line line)
      | TurnMore partial => read_arrivals incoming partial max
      end
  end.

(** The reader, the partial line the caller keeps, and the outcome. *)
Definition read_line (r : LineReader) (partial : bytes) (max : Z) : LineReader * bytes * LineRead :=
  match buffered r with
  | [] => read_arrivals (incoming r) partial max
  | available =>
      match line_turn available partial max with
      | TurnTooLong => (r, partial, LineFailed InvalidData)
      | TurnLine line rest => (mkLineReader rest (incoming r), [], Line line)
      | TurnMore partial => read_arrivals (incoming r) partial max
      end
  end.

(** ** Encoding *)

(** The pieces serde writes for a message, in order. *)
Class SerdeJson := { to_writer : Message -> list bytes }.

Record MessageSize := mkSize { ms_bytes : Z; ms_max : Z }.

Definition size_write (s : MessageSize) (bs : bytes) : option MessageSize :=
  if Z.max 0 (ms_max s - ms_bytes s) <? Z.of_nat (length bs) then None
  else Some (mkSize (ms_bytes s + Z.of_nat (length bs)) (ms_max s)).

Fixpoint size_write_all (s : MessageSize) (pieces : list bytes) : option MessageSize :=
  match pieces with
  | [] => Some s
  | piece :: pieces =>
      match size_write s piece with Some s => size_write_all s pieces | None => None end
  end.

(** ** The queues *)

Inductive Lane := Priority | Normal | Events.

#[export] Instance Lane_eq_dec : EqDecision Lane.
Proof. solve_decision. Defined.

(** An encoded message, and the permits it holds until it is dropped. *)
Record Encoded := mkEncoded { e_bytes : bytes; e_permit : Z }.

(** One queue: its channel's capacity and contents, its free permits. *)
Record Queue := mkQueue { capacity : Z; queued : list Encoded; free : Z }.

(** A call of [deliver] that is waiting: for its permits, or, holding them, for room
    in the channel. *)
Record Delivery := mkDelivery { d_id : nat; d_lane : Lane; d_bytes : bytes; d_acquired : bool }.

(** The senders' and the receiver's shared state, the message the writer holds, and,
    for the statements, what was accepted and what was received. *)
Record Control := mkControl {
  lane : Lane -> Queue;
  max_message : Z;
  receiving : bool;
  writing : option (Lane * Encoded);
  deliveries : list Delivery;
  accepted : list (Lane * bytes);
  received : list (Lane * bytes);
}.

Definition queue (l : TransportLimits) : Control :=
  mkControl
    (fun k => match k with
              | Priority => mkQueue (reserved_requests l) [] (reserved_control_bytes l)
              | Normal => mkQueue (provider_requests l) [] (queued_control_bytes l)
              | Events => mkQueue (event_queue_messages l) [] (event_queue_bytes l)
              end)
    (control_message_bytes l) true None [] [] [].

Definition set_lane (s : Control) (k : Lane) (q : Queue) : Control :=
  mkControl (fun k' => if decide (k' = k) then q else lane s k') (max_message s) (receiving s) (writing s)
    (deliveries s) (accepted s) (received s).

Definition set_deliveries (s : Control) (ds : list Delivery) : Control :=
  mkControl (lane s) (max_message s) (receiving s) (writing s) ds (accepted s) (received s).

(** Permits come and go; a dropped message gives its own back. *)
Definition take_permits (s : Control) (k : Lane) (n : Z) : Control :=
  set_lane s k (mkQueue (capacity (lane s k)) (queued (lane s k)) (free (lane s k) - n)).
Definition release (s : Control) (k : Lane) (n : Z) : Control := take_permits s k (- n).

Definition full (q : Queue) : bool := capacity q <=? Z.of_nat (length (queued q)).

(** A message enters its channel. *)
Definition push_back (s : Control) (k : Lane) (e : Encoded) : Control :=
  let s := set_lane s k (mkQueue (capacity (lane s k)) (queued (lane s k) ++ [e]) (free (lane s k))) in
  mkControl (lane s) (max_message s) (receiving s) (writing s) (deliveries s)
    (accepted s ++ [(k, e_bytes e)]) (received s).

Definition control_closed : Error := Transport (mkTransportError "control writer closed" []).

Definition HOST_EVENT := "host/event".

Section Encode.
Context `{SerdeJson}.

Definition message_size (m : Message) (max : Z) : result Z Error :=
  let too_long := LimitExceededE "control_message_bytes" max in
  let? size := ok_or (size_write_all (mkSize 0 max) (to_writer m)) too_long in
  let? size := ok_or (size_write size [10]) too_long in
  Ok (ms_bytes size).

Definition encode_message (m : Message) : bytes := concat (to_writer m) ++ [10].

(** [send]: all or nothing, at once. *)
Definition send (s : Control) (m : Message) (priority : bool) : Control * result unit Error :=
  match message_size m (max_message s) with
  | Err e => (s, Err e)
  | Ok count =>
      let k := if bool_decide (method m = Some HOST_EVENT) then Events
               else if priority then Priority else Normal in
      if free (lane s k) <? count then (s, Err (Overloaded "queued_control_bytes"))
      else
        let e := mkEncoded (encode_message m) count in
        let s := take_permits s k count in
        if negb (receiving s) then (release s k (e_permit e), Err control_closed)
        else if full (lane s k) then (release s k (e_permit e), Err (Overloaded "queued_control_messages"))
        else (push_back s k e, Ok tt)
  end.

(** [deliver], up to the point where it waits. *)
Definition deliver_start (s : Control) (id : nat) (m : Message) (priority : bool) : Control * result unit Error :=
  match message_size m (max_message s) with
  | Err e => (s, Err e)
  | Ok _ =>
      (set_deliveries s (deliveries s ++ [mkDelivery id (if priority then Priority else Normal) (encode_message m) false]),
       Ok tt)
  end.
End Encode.

Definition d_count (d : Delivery) : Z := Z.of_nat (length (d_bytes d)).

(** The waiting call gets its permits. *)
Definition deliver_acquire (s : Control) (before : list Delivery) (d : Delivery) (after : list Delivery) : Control :=
  take_permits (set_deliveries s (before ++ mkDelivery (d_id d) (d_lane d) (d_bytes d) true :: after)) (d_lane d) (d_count d).

(** It gets room, and returns; or it finds the writer gone. *)
Definition deliver_send (s : Control) (before : list Delivery) (d : Delivery) (after : list Delivery) : Control :=
  let s := set_deliveries s (before ++ after) in
  if receiving s then push_back s (d_lane d) (mkEncoded (d_bytes d) (d_count d))
  else release s (d_lane d) (d_count d).

(** Its time is up, or its caller dropped it: what it held goes back. *)
Definition deliver_abandon (s : Control) (before : list Delivery) (d : Delivery) (after : list Delivery) : Control :=
  let s := set_deliveries s (before ++ after) in
  if d_acquired d then release s (d_lane d) (d_count d) else s.

(** [recv]: the first queue, in this order, that holds a message. *)
Definition next_lane (s : Control) : option Lane :=
  match queued (lane s Priority), queued (lane s Normal), queued (lane s Events) with
  | _ :: _, _, _ => Some Priority
  | [], _ :: _, _ => Some Normal
  | [], [], _ :: _ => Some Events
  | [], [], [] => None
  end.

(** The writer receives a message and holds it while it writes. *)
Definition recv (s : Control) : option Control :=
  match next_lane s with
  | None => None
  | Some k =>
      match queued (lane s k) with
      | [] => None
      | e :: rest =>
          let s := set_lane s k (mkQueue (capacity (lane s k)) rest (free (lane s k))) in
          Some (mkControl (lane s) (max_message s) (receiving s) (Some (k, e)) (deliveries s) (accepted s)
                  (received s ++ [(k, e_bytes e)]))
      end
  end.

(** The writer is done with the message it holds. *)
Definition drop_written (s : Control) : Control :=
  match writing s with
  | None => s
  | Some (k, e) =>
      let s := release s k (e_permit e) in
      mkControl (lane s) (max_message s) (receiving s) None (deliveries s) (accepted s) (received s)
  end.

Definition permits (es : list Encoded) : Z := foldr (fun e n => e_permit e + n) 0 es.

(** The receiver is dropped with everything queued. *)
Definition close_receiver (s : Control) : Control :=
  let s := drop_written s in
  mkControl (fun k => mkQueue (capacity (lane s k)) [] (free (lane s k) + permits (queued (lane s k))))
    (max_message s) false None (deliveries s) (accepted s) (received s).

(** ** Counting *)

Lemma size_write_all_spec b max pieces : 0 <= b <= max ->
  size_write_all (mkSize b max) pieces =
  if b + Z.of_nat (length (concat pieces)) <=? max
  then Some (mkSize (b + Z.of_nat (length (concat pieces))) max) else None.
Proof.
  revert b. induction pieces as [|p pieces IH]; intros b Hb; cbn [size_write_all concat].
  { cbn. rewrite Z.add_0_r. by destruct (Z.leb_spec b max); [|lia]. }
  unfold size_write. cbn [ms_bytes ms_max]. rewrite length_app, Nat2Z.inj_add.
  destruct (Z.ltb_spec (Z.max 0 (max - b)) (Z.of_nat (length p))).
  - destruct (Z.leb_spec (b + (Z.of_nat (length p) + Z.of_nat (length (concat pieces)))) max); [lia|done].
  - rewrite IH by lia. by rewrite Z.add_assoc.
Qed.

(** The counting writer says what encoding will take, without encoding. *)
Lemma message_size_spec `{SerdeJson} m max : 0 <= max ->
  message_size m max =
  if Z.of_nat (length (encode_message m)) <=? max then Ok (Z.of_nat (length (encode_message m)))
  else Err (LimitExceededE "control_message_bytes" max).
Proof.
  intros Hm. unfold message_size, encode_message. rewrite length_app, size_write_all_spec by lia. cbn [length].
  rewrite Z.add_0_l. rewrite Nat2Z.inj_add. change (Z.of_nat 1) with 1.
  destruct (Z.leb_spec (Z.of_nat (length (concat (to_writer m)))) max); cbn [ok_or rbind].
  - unfold size_write. cbn [ms_bytes ms_max length].
    destruct (Z.ltb_spec (Z.max 0 (max - Z.of_nat (length (concat (to_writer m))))) (Z.of_nat 1));
      destruct (Z.leb_spec (Z.of_nat (length (concat (to_writer m))) + 1) max); try lia; done.
  - destruct (Z.leb_spec (Z.of_nat (length (concat (to_writer m))) + 1) max); [lia|done].
Qed.

(** ** Steps *)

Section Steps.
Context `{SerdeJson}.

(** The steps of the senders, of the waiting deliveries and of the writer, in any
    interleaving; each with how many messages it received. *)
Inductive control_step (s : Control) : nat -> Control -> Prop :=
  | step_send m priority : control_step s 0 (fst (send s m priority))
  | step_deliver id m priority : control_step s 0 (fst (deliver_start s id m priority))
  | step_acquire before d after :
      deliveries s = before ++ d :: after -> d_acquired d = false -> d_count d <= free (lane s (d_lane d)) ->
      control_step s 0 (deliver_acquire s before d after)
  | step_enqueue before d after :
      deliveries s = before ++ d :: after -> d_acquired d = true ->
      (receiving s = true -> full (lane s (d_lane d)) = false) ->
      control_step s 0 (deliver_send s before d after)
  | step_abandon before d after :
      deliveries s = before ++ d :: after -> control_step s 0 (deliver_abandon s before d after)
  | step_recv s' : receiving s = true -> writing s = None -> recv s = Some s' -> control_step s 1 s'
  | step_written : control_step s 0 (drop_written s)
  | step_close : control_step s 0 (close_receiver s).

Inductive control_steps : Control -> nat -> Control -> Prop :=
  | steps_refl s : control_steps s 0 s
  | steps_step s n s1 m s2 : control_step s n s1 -> control_steps s1 m s2 -> control_steps s (n + m) s2.

(** ** The budgets *)

(** The permits a waiting delivery holds. *)
Definition held_by (k : Lane) (d : Delivery) : Z :=
  if d_acquired d then if decide (d_lane d = k) then d_count d else 0 else 0.
Definition waiting (k : Lane) (ds : list Delivery) : Z := foldr (fun d n => held_by k d + n) 0 ds.

Definition written (k : Lane) (w : option (Lane * Encoded)) : Z :=
  match w with Some (k', e) => if decide (k' = k) then e_permit e else 0 | None => 0 end.

(** Every permit of a lane that is not free. *)
Definition used (s : Control) (k : Lane) : Z :=
  permits (queued (lane s k)) + written k (writing s) + waiting k (deliveries s).

Definition paid (max : Z) (e : Encoded) : Prop :=
  e_permit e = Z.of_nat (length (e_bytes e)) /\ e_permit e <= max.

Definition of_lane (k : Lane) (log : list (Lane * bytes)) : list bytes :=
  map snd (filter (fun m => fst m = k) log).

Record control_inv (l : TransportLimits) (s : Control) : Prop := {
  inv_max : max_message s = control_message_bytes l;
  inv_capacity k : capacity (lane s k) = capacity (lane (queue l) k);
  inv_free k : 0 <= free (lane s k) /\ free (lane s k) + used s k = free (lane (queue l) k);
  inv_room k : Z.of_nat (length (queued (lane s k))) <= capacity (lane s k);
  inv_paid k : Forall (paid (max_message s)) (queued (lane s k));
  inv_writing : match writing s with Some (_, e) => paid (max_message s) e | None => True end;
  inv_waiting : Forall (fun d => d_count d <= max_message s) (deliveries s);
  inv_closed : receiving s = false -> writing s = None /\ forall k, queued (lane s k) = [];
  inv_order k :
    (receiving s = true -> of_lane k (accepted s) = of_lane k (received s) ++ map e_bytes (queued (lane s k))) /\
    of_lane k (received s) `prefix_of` of_lane k (accepted s);
}.

#[local] Arguments queue : simpl never.
#[local] Arguments written : simpl never.
#[local] Arguments permits : simpl never.
#[local] Arguments of_lane : simpl never.
#[local] Arguments waiting : simpl never.

Lemma permits_cons e es : permits (e :: es) = e_permit e + permits es.
Proof. done. Qed.

Lemma waiting_cons k d ds : waiting k (d :: ds) = held_by k d + waiting k ds.
Proof. done. Qed.

Lemma permits_app a b : permits (a ++ b) = permits a + permits b.
Proof. induction a as [|e a IH]; [done|]. cbn [app]. rewrite !permits_cons. lia. Qed.

Lemma waiting_app k a b : waiting k (a ++ b) = waiting k a + waiting k b.
Proof. induction a as [|d a IH]; [done|]. cbn [app]. rewrite !waiting_cons. lia. Qed.

Lemma of_lane_snoc k log k' bs :
  of_lane k (log ++ [(k', bs)]) = of_lane k log ++ (if decide (k' = k) then [bs] else []).
Proof.
  unfold of_lane. rewrite filter_app, map_app. f_equal. destruct (decide (k' = k)) as [<-|Hk].
  - by rewrite filter_cons_True.
  - by rewrite filter_cons_False.
Qed.

Lemma permits_nonneg max es : Forall (paid max) es -> 0 <= permits es.
Proof. induction 1 as [|e es [He _] _ IH]; [done|]. rewrite permits_cons. lia. Qed.

Lemma waiting_nonneg k ds : 0 <= waiting k ds.
Proof.
  induction ds as [|d ds IH]; [done|]. rewrite waiting_cons.
  assert (0 <= held_by k d) by (unfold held_by, d_count; destruct (d_acquired d); [case_decide|]; lia).
  lia.
Qed.

Lemma inv_ext l s s' : control_inv l s ->
  (forall k, lane s' k = lane s k) -> max_message s' = max_message s -> receiving s' = receiving s ->
  writing s' = writing s -> deliveries s' = deliveries s -> accepted s' = accepted s -> received s' = received s ->
  control_inv l s'.
Proof.
  intros Hs Hk Hm Hr Hw Hd Ha Hre. destruct Hs.
  constructor; intros; unfold used; rewrite ?Hk, ?Hm, ?Hr, ?Hw, ?Hd, ?Ha, ?Hre; try done.
  match goal with Hc : receiving s' = false |- _ => rewrite Hr in Hc; destruct (inv_closed0 Hc) as [? Hq] end.
  split; [done|]. intros k. by rewrite Hk.
Qed.

(** A step that only moves permits between the free and the waiting. *)
Lemma inv_adjust l s k x ds : control_inv l s -> x <= free (lane s k) ->
  (forall k', waiting k' ds - waiting k' (deliveries s) = if decide (k' = k) then x else 0) ->
  Forall (fun d => d_count d <= max_message s) ds ->
  control_inv l (set_deliveries (take_permits s k x) ds).
Proof.
  intros [] Hx Hw Hd. constructor; cbn; try done.
  - intros k'. case_decide; [subst; cbn|]; done.
  - intros k'. specialize (Hw k'). specialize (inv_free0 k'). unfold used in *. cbn in *.
    repeat case_decide; subst; cbn in *; lia.
  - intros k'. case_decide; [subst; cbn|]; done.
  - intros k'. case_decide; [subst; cbn|]; done.
  - intros Hc. destruct (inv_closed0 Hc) as [? Hq]. split; [done|]. intros k'. case_decide; [subst; cbn|]; done.
  - intros k'. case_decide; [subst; cbn|]; apply inv_order0.
Qed.

(** A paid message enters its queue. *)
Lemma inv_enqueue l s k x ds e : control_inv l s -> x <= free (lane s k) ->
  (forall k', waiting k' ds - waiting k' (deliveries s) = if decide (k' = k) then x - e_permit e else 0) ->
  Forall (fun d => d_count d <= max_message s) ds -> paid (max_message s) e ->
  full (lane s k) = false -> receiving s = true ->
  control_inv l (push_back (set_deliveries (take_permits s k x) ds) k e).
Proof.
  intros [] Hx Hw Hd He Hf Hr. unfold full in Hf. apply Z.leb_gt in Hf. constructor; cbn; try done.
  - intros k'. repeat case_decide; subst; cbn; done.
  - intros k'. specialize (Hw k'). specialize (inv_free0 k'). unfold used in *. cbn in *.
    repeat case_decide; subst; try done; cbn in *; rewrite ?permits_app, ?permits_cons; change (permits []) with 0; lia.
  - intros k'. specialize (inv_room0 k'). repeat case_decide; subst; try done; cbn; rewrite ?length_app; cbn; lia.
  - intros k'. repeat case_decide; subst; cbn; [|done..]. apply Forall_app. by split; [|constructor].
  - rewrite Hr. done.
  - intros k'. destruct (inv_order0 k') as [Ho Hp]. rewrite of_lane_snoc. split.
    + intros _. rewrite Ho by done. repeat case_decide; subst; try done; cbn; rewrite ?map_app, ?app_assoc, ?app_nil_r; done.
    + by apply prefix_app_r.
Qed.

Lemma acquire_waiting k before d after : d_acquired d = false ->
  waiting k (before ++ mkDelivery (d_id d) (d_lane d) (d_bytes d) true :: after) - waiting k (before ++ d :: after)
  = if decide (k = d_lane d) then d_count d else 0.
Proof.
  intros Hd. rewrite !waiting_app, !waiting_cons. unfold held_by. cbn [d_acquired d_lane]. rewrite Hd. unfold d_count. cbn.
  repeat case_decide; subst; try done; lia.
Qed.

Lemma remove_waiting k before d after :
  waiting k (before ++ after) - waiting k (before ++ d :: after) = - held_by k d.
Proof. rewrite !waiting_app, waiting_cons. lia. Qed.

Lemma Forall_middle {A} (P : A -> Prop) before d after : Forall P (before ++ d :: after) -> Forall P (before ++ after) /\ P d.
Proof. rewrite !Forall_app, Forall_cons. tauto. Qed.

Lemma inv_send l s m priority : 0 < control_message_bytes l ->
  control_inv l s -> control_inv l (fst (send s m priority)).
Proof.
  intros Hl Hs. pose proof Hs as []. unfold send. rewrite message_size_spec by lia.
  destruct (Z.leb_spec (Z.of_nat (length (encode_message m))) (max_message s)) as [Hm|]; [|done].
  set (k := if bool_decide _ then _ else _). set (c := Z.of_nat (length (encode_message m))) in *.
  destruct (Z.ltb_spec (free (lane s k)) c); [done|]. cbn zeta.
  assert (Hback : control_inv l (release (take_permits s k c) k c)).
  { apply (inv_ext l s); try done. intros k'. cbn. repeat case_decide; subst; try done. cbn.
    replace (free (lane s k) - c - - c) with (free (lane s k)) by lia. by destruct (lane s k). }
  change (receiving (take_permits s k c)) with (receiving s).
  destruct (receiving s) eqn:Hr; cbn [negb]; [|exact Hback].
  assert (Hlane : lane (take_permits s k c) k = mkQueue (capacity (lane s k)) (queued (lane s k)) (free (lane s k) - c))
    by (cbn; by case_decide).
  rewrite Hlane. unfold full. cbn [capacity queued].
  destruct (_ <=? _) eqn:Hf; [exact Hback|]. cbn [fst].
  eapply inv_ext; [apply (inv_enqueue l s k c (deliveries s) (mkEncoded (encode_message m) c))|..]; try done.
  intros k'. cbn. case_decide; lia.
Qed.

Lemma inv_deliver l s id m priority : 0 < control_message_bytes l ->
  control_inv l s -> control_inv l (fst (deliver_start s id m priority)).
Proof.
  intros Hl Hs. pose proof Hs as []. unfold deliver_start. rewrite message_size_spec by lia.
  destruct (Z.leb_spec (Z.of_nat (length (encode_message m))) (max_message s)) as [Hm|]; [|done]. cbn [fst].
  set (d := mkDelivery _ _ _ _).
  eapply inv_ext; [apply (inv_adjust l s Normal 0 (deliveries s ++ [d]) Hs)|..]; try done.
  - apply inv_free0.
  - intros k'. rewrite waiting_app, waiting_cons. change (waiting k' []) with 0. unfold held_by. cbn. case_decide; lia.
  - apply Forall_app. split; [done|]. by constructor.
  - intros k. cbn. case_decide; [subst; cbn; rewrite Z.sub_0_r; by destruct (lane s Normal)|done].
Qed.

Lemma inv_acquire l s before d after : control_inv l s ->
  deliveries s = before ++ d :: after -> d_acquired d = false -> d_count d <= free (lane s (d_lane d)) ->
  control_inv l (deliver_acquire s before d after).
Proof.
  intros Hs Hd Ha Hc. eapply inv_ext; [apply (inv_adjust l s (d_lane d) (d_count d)
    (before ++ mkDelivery (d_id d) (d_lane d) (d_bytes d) true :: after) Hs Hc)|..]; try done.
  - intros k'. rewrite Hd. by apply acquire_waiting.
  - pose proof (inv_waiting _ _ Hs) as Hw. rewrite Hd in Hw. rewrite !Forall_app, !Forall_cons in *. done.
Qed.

Lemma inv_abandon l s before d after : control_inv l s ->
  deliveries s = before ++ d :: after -> control_inv l (deliver_abandon s before d after).
Proof.
  intros Hs Hd. pose proof (inv_waiting _ _ Hs) as Hw. rewrite Hd in Hw. apply Forall_middle in Hw as [Hw _].
  pose proof (inv_free _ _ Hs (d_lane d)) as [Hf _].
  eapply inv_ext; [eapply (inv_adjust l s (d_lane d) (if d_acquired d then - d_count d else 0) (before ++ after) Hs)|..].
  - destruct (d_acquired d); unfold d_count; lia.
  - intros k'. rewrite Hd, remove_waiting. unfold held_by.
    destruct (d_acquired d); repeat case_decide; subst; try done.
  - done.
  - intros k. unfold deliver_abandon. destruct (d_acquired d); cbn; repeat case_decide; subst; try done.
    rewrite Z.sub_0_r. by destruct (lane s (d_lane d)).
  - unfold deliver_abandon. by destruct (d_acquired d).
  - unfold deliver_abandon. by destruct (d_acquired d).
  - unfold deliver_abandon. by destruct (d_acquired d).
  - unfold deliver_abandon. by destruct (d_acquired d).
  - unfold deliver_abandon. by destruct (d_acquired d).
  - unfold deliver_abandon. by destruct (d_acquired d).
Qed.

Lemma inv_deliver_send l s before d after : control_inv l s ->
  deliveries s = before ++ d :: after -> d_acquired d = true ->
  (receiving s = true -> full (lane s (d_lane d)) = false) -> control_inv l (deliver_send s before d after).
Proof.
  intros Hs Hd Ha Hf. pose proof (inv_waiting _ _ Hs) as Hw. rewrite Hd in Hw. apply Forall_middle in Hw as [Hw Hdw].
  unfold deliver_send. cbn [receiving set_deliveries]. destruct (receiving s) eqn:Hr.
  - eapply inv_ext; [eapply (inv_enqueue l s (d_lane d) 0 (before ++ after) (mkEncoded (d_bytes d) (d_count d)) Hs)|..]; try done.
    + apply (inv_free _ _ Hs).
    + intros k'. rewrite Hd, remove_waiting. unfold held_by. rewrite Ha. cbn. repeat case_decide; subst; try done.
    + by apply Hf.
    + intros k. cbn. repeat case_decide; subst; try done. cbn. by rewrite Z.sub_0_r.
  - eapply inv_ext; [apply (inv_abandon l s before d after Hs Hd)|..]; unfold deliver_abandon; rewrite Ha; try done.
Qed.

Lemma next_lane_queued s k : next_lane s = Some k -> exists e rest, queued (lane s k) = e :: rest.
Proof.
  unfold next_lane. destruct (queued (lane s Priority)) as [|] eqn:E1; [|intros [= <-]; eauto].
  destruct (queued (lane s Normal)) as [|] eqn:E2; [|intros [= <-]; eauto].
  destruct (queued (lane s Events)) as [|] eqn:E3; [done|intros [= <-]; eauto].
Qed.

(** What a receive does. *)
Lemma recv_spec s s' : recv s = Some s' -> exists k e rest,
  next_lane s = Some k /\ queued (lane s k) = e :: rest /\
  (forall k', lane s' k' = if decide (k' = k) then mkQueue (capacity (lane s k)) rest (free (lane s k)) else lane s k') /\
  max_message s' = max_message s /\ receiving s' = receiving s /\ writing s' = Some (k, e) /\
  deliveries s' = deliveries s /\ accepted s' = accepted s /\ received s' = received s ++ [(k, e_bytes e)].
Proof.
  unfold recv. destruct (next_lane s) as [k|] eqn:En; [|done]. destruct (next_lane_queued s k En) as (e & rest & Hq).
  rewrite Hq. intros [= <-]. exists k, e, rest. by split_and!.
Qed.

Lemma inv_recv l s s' : control_inv l s -> receiving s = true -> writing s = None -> recv s = Some s' -> control_inv l s'.
Proof.
  intros [] Hr Hw (k & e & rest & _ & Hq & Hk & Hm & Hr' & Hw' & Hd & Ha & Hre)%recv_spec.
  pose proof (inv_paid0 k) as Hp. rewrite Hq in Hp. apply Forall_cons in Hp as [He Hrest].
  constructor; unfold used; rewrite ?Hm, ?Hr', ?Hw', ?Hd, ?Ha, ?Hre; try done.
  - intros k'. rewrite Hk. case_decide; [subst; apply inv_capacity0|done].
  - intros k'. specialize (inv_free0 k'). unfold used in inv_free0. rewrite Hk. rewrite Hw in inv_free0.
    unfold written in *. destruct (decide (k' = k)) as [->|Hne]; cbn.
    + destruct (decide (k = k)); [|done]. rewrite Hq, permits_cons in inv_free0. lia.
    + destruct (decide (k = k')); [by subst|]. lia.
  - intros k'. rewrite Hk. specialize (inv_room0 k'). case_decide; [subst; cbn; rewrite Hq in inv_room0; cbn in *; lia|done].
  - intros k'. rewrite Hk. case_decide; [done|apply inv_paid0].
  - rewrite Hr. done.
  - intros k'. destruct (inv_order0 k') as [Ho _]. specialize (Ho Hr). rewrite of_lane_snoc, Hk.
    assert (of_lane k' (accepted s) = (of_lane k' (received s) ++ (if decide (k = k') then [e_bytes e] else [])) ++
      map e_bytes (queued (if decide (k' = k) then mkQueue (capacity (lane s k)) rest (free (lane s k)) else lane s k'))) as Heq.
    { rewrite Ho. repeat case_decide; subst; try done; cbn; [by rewrite Hq, <- app_assoc|by rewrite app_nil_r]. }
    split; [done|]. rewrite Heq. by eexists.
Qed.

Lemma inv_written l s : control_inv l s -> control_inv l (drop_written s).
Proof.
  intros Hs. unfold drop_written. destruct (writing s) as [[k e]|] eqn:Hw; [|done].
  pose proof Hs as []. rewrite Hw in inv_writing0. destruct inv_writing0 as [He _].
  constructor; cbn; try done.
  - intros k'. case_decide; [subst; cbn|]; done.
  - intros k'. specialize (inv_free0 k'). unfold used in *. rewrite Hw in inv_free0. unfold written in *. cbn in *.
    repeat case_decide; subst; try done; cbn; lia.
  - intros k'. case_decide; [subst; cbn|]; done.
  - intros k'. case_decide; [subst; cbn|]; done.
  - intros Hc. destruct (inv_closed0 Hc) as [? Hq]. by rewrite Hw in *.
  - intros k'. case_decide; [subst; cbn|]; apply inv_order0.
Qed.

Lemma inv_close l s : control_inv l s -> control_inv l (close_receiver s).
Proof.
  intros Hs%inv_written. assert (Hw : writing (drop_written s) = None).
  { unfold drop_written. by destruct (writing s) as [[]|] eqn:E. }
  unfold close_receiver. set (s0 := drop_written s) in *. clearbody s0. destruct Hs.
  constructor; cbn; try done.
  - intros k. specialize (inv_free0 k). pose proof (permits_nonneg _ _ (inv_paid0 k)). unfold used in *. rewrite Hw in inv_free0.
    cbn. change (permits []) with 0. lia.
  - intros k. specialize (inv_room0 k). lia.
  - intros k. split; [done|]. apply inv_order0.
Qed.

Lemma inv_transition l s n s' : 0 < control_message_bytes l -> control_inv l s -> control_step s n s' -> control_inv l s'.
Proof.
  intros Hl Hs. destruct 1; eauto using inv_send, inv_deliver, inv_acquire, inv_deliver_send, inv_abandon, inv_recv,
    inv_written, inv_close.
Qed.

Lemma inv_steps l s n s' : 0 < control_message_bytes l -> control_inv l s -> control_steps s n s' -> control_inv l s'.
Proof. intros Hl Hs Hsteps. induction Hsteps; eauto using inv_transition. Qed.
End Steps.

(** ** Order and progress *)

Section Delivery.
Context `{SerdeJson}.

(** The messages queued in a lane, oldest first. *)
Definition pending (s : Control) (k : Lane) : list bytes := map e_bytes (queued (lane s k)).

Definition tagged (k : Lane) (l : list bytes) : list (Lane * bytes) := map (pair k) l.

Lemma receiving_step s n s' : control_step s n s' -> receiving s' = true -> receiving s = true.
Proof.
  destruct 1 as [m p|id m p|before d after _ _ _|before d after _ _ _|before d after _|s' Hr _ _| |]; cbn; try done.
  - unfold send. destruct (message_size m (max_message s)); cbn; [|done]. repeat case_match; done.
  - unfold deliver_start. by destruct (message_size m (max_message s)).
  - unfold deliver_send. cbn. destruct (receiving s) eqn:E; cbn; congruence.
  - unfold deliver_abandon. by destruct (d_acquired d).
  - unfold drop_written. by destruct (writing s) as [[]|].
Qed.

Lemma receiving_steps s n s' : control_steps s n s' -> receiving s' = true -> receiving s = true.
Proof. induction 1; eauto using receiving_step. Qed.

(** A step that receives nothing leaves what was received, and only adds at the
    back of a queue. *)
Lemma quiet_step s s' k : control_step s 0 s' -> receiving s' = true ->
  received s' = received s /\ exists new, pending s' k = pending s k ++ new.
Proof.
  intros Hs Hr'. pose proof (receiving_step _ _ _ Hs Hr') as Hr. unfold pending.
  inversion Hs as [m p|id m p|before d after _ _ _|before d after _ _ _|before d after _| | |]; subst.
  - unfold send in *. destruct (message_size m (max_message s)); cbn; [|split; [done|exists []; by rewrite app_nil_r]].
    destruct (_ <? _); cbn; [split; [done|exists []; by rewrite app_nil_r]|].
    rewrite Hr. cbn [negb]. destruct (full _); cbn; (split; [done|]).
    + exists []. repeat case_decide; subst; cbn; by rewrite app_nil_r.
    + repeat case_decide; subst; try done; cbn; rewrite ?map_app; first [by eexists|exists []; by rewrite app_nil_r].
  - unfold deliver_start. destruct (message_size m (max_message s)); cbn; (split; [done|]); exists []; by rewrite app_nil_r.
  - cbn. split; [done|]. exists []. case_decide; subst; cbn; by rewrite app_nil_r.
  - unfold deliver_send. cbn. rewrite Hr. cbn. split; [done|].
    case_decide; subst; cbn; [rewrite map_app; eauto|]. exists []. by rewrite app_nil_r.
  - unfold deliver_abandon. destruct (d_acquired d); cbn; (split; [done|]); exists [];
      try case_decide; subst; cbn; by rewrite app_nil_r.
  - unfold drop_written. destruct (writing s) as [[k0 e]|]; cbn; (split; [done|]); exists [];
      try case_decide; subst; cbn; by rewrite app_nil_r.
  - done.
Qed.

(** However the other senders go on, the next receives are the queued priority
    messages, in order: nothing overtakes them. *)
Lemma priority_next s n s' : control_steps s n s' -> receiving s' = true ->
  exists got, received s' = received s ++ got /\ length got = n /\
    ((n <= length (pending s Priority))%nat ->
     got = tagged Priority (take n (pending s Priority)) /\
     exists new, pending s' Priority = drop n (pending s Priority) ++ new).
Proof.
  intros Hs Hr. induction Hs as [s|s n s1 m s2 H1 H2 IH].
  { exists []. rewrite app_nil_r, take_0. split_and!; try done. intros _. split; [done|]. exists []. by rewrite app_nil_r. }
  destruct (IH Hr) as (got & Hgot & Hlen & Hp). pose proof (receiving_steps _ _ _ H2 Hr) as Hr1.
  assert (Hn : n = 0%nat \/ n = 1%nat) by (destruct H1; auto). destruct Hn as [-> | ->].
  - destruct (quiet_step _ _ Priority H1 Hr1) as [Hre (new & Hnew)]. exists got. rewrite <- Hre. split_and!; [done..|].
    cbn [Nat.add]. intros Hm. rewrite Hnew in Hp. rewrite length_app in Hp. destruct Hp as [Hg (new' & Hn')]; [lia|].
    rewrite take_app_le, drop_app_le in * by lia. split; [done|]. rewrite Hn'. exists (new ++ new'). by rewrite app_assoc.
  - inversion H1 as [| | | | |s1' _ _ Hrecv| |]; subst. apply recv_spec in Hrecv as (k & e & rest & Hn & Hq & Hk & _ & _ & _ & _ & _ & Hre).
    exists ((k, e_bytes e) :: got). rewrite Hgot, Hre, <- app_assoc. split_and!; [done|cbn; lia|].
    unfold pending in *. intros Hm. unfold next_lane in Hn.
    destruct (queued (lane s Priority)) as [|e0 rest0] eqn:Ep; [cbn in Hm; lia|]. injection Hn as <-.
    rewrite Ep in Hq. injection Hq as -> ->. rewrite Hk in Hp. case_decide; [|done]. cbn in *.
    destruct Hp as [Hg Hnew]; [lia|]. split; [by f_equal|exact Hnew].
Qed.

(** The writer on its own: it writes what it holds and receives the next. *)
Fixpoint write_all (n : nat) (s : Control) : Control :=
  match n with
  | O => drop_written s
  | S n => match recv (drop_written s) with Some s => write_all n s | None => drop_written s end
  end.

Definition queued_in_order (s : Control) : list (Lane * bytes) :=
  tagged Priority (pending s Priority) ++ tagged Normal (pending s Normal) ++ tagged Events (pending s Events).

Lemma write_all_spec n s : length (queued_in_order s) = n ->
  received (write_all n s) = received s ++ queued_in_order s /\
  writing (write_all n s) = None /\ forall k, pending (write_all n s) k = [].
Proof.
  assert (Hw : forall s, received (drop_written s) = received s /\ writing (drop_written s) = None /\
    forall k, pending (drop_written s) k = pending s k).
  { intros s0. unfold drop_written, pending. destruct (writing s0) as [[k' e]|] eqn:E; cbn; [|by rewrite E].
    split_and!; try done. intros k. case_decide; by subst. }
  revert s. induction n as [|n IH]; intros s Hn.
  { destruct (Hw s) as (Hr & Hwr & Hp). cbn. rewrite Hr. apply length_zero_iff_nil in Hn. rewrite Hn, app_nil_r.
    split_and!; [done..|]. intros k. rewrite Hp. unfold queued_in_order, tagged in Hn.
    apply app_eq_nil in Hn as [H1 [H2 H3]%app_eq_nil]. apply map_eq_nil in H1, H2, H3. by destruct k. }
  cbn. destruct (Hw s) as (Hr & _ & Hp). set (s0 := drop_written s) in *.
  assert (Hq : queued_in_order s0 = queued_in_order s) by (unfold queued_in_order; by rewrite !Hp).
  rewrite <- Hq in Hn |- *. rewrite <- Hr. clearbody s0. clear Hr Hp Hq s.
  destruct (recv s0) as [s1|] eqn:E.
  - apply recv_spec in E as (k & e & rest & Hk & Hqk & Hlane & _ & _ & _ & _ & _ & Hre).
    assert (Hq1 : queued_in_order s0 = (k, e_bytes e) :: queued_in_order s1).
    { unfold queued_in_order, pending, next_lane in *. rewrite !Hlane.
      destruct (queued (lane s0 Priority)) as [|] eqn:E1; [destruct (queued (lane s0 Normal)) as [|] eqn:E2;
        [destruct (queued (lane s0 Events)) as [|] eqn:E3; [done|]|]|]; injection Hk as <-;
        repeat case_decide; try done; rewrite ?E1, ?E2, ?E3; cbn; congruence. }
    rewrite Hq1 in Hn. injection Hn as Hn. destruct (IH s1 Hn) as (Hr1 & ? & ?).
    rewrite Hr1, Hre, Hq1, <- app_assoc. done.
  - exfalso. unfold recv, queued_in_order, pending in *. destruct (next_lane s0) as [k|] eqn:Ek.
    + destruct (next_lane_queued s0 k Ek) as (e & rest & Hq). by rewrite Hq in E.
    + unfold next_lane in Ek. destruct (queued (lane s0 Priority)), (queued (lane s0 Normal)), (queued (lane s0 Events)); done.
Qed.
End Delivery.

(** ** Lines *)

Definition bytes_of (a : Arrival) : bytes := match a with Chunk bs => bs | _ => [] end.
Definition arriving (incoming : list Arrival) : bytes := concat (map bytes_of incoming).
#[local] Arguments arriving : simpl never.

(** A stream that is cut into chunks and whose reader is dropped at will, and that
    does not fail. *)
Definition healthy (a : Arrival) : Prop :=
  match a with Chunk [] | ReadFailed _ => False | _ => True end.

(** The lines of a whole stream, and how it ends. *)
Fixpoint lines_loop (fuel : nat) (max : Z) (bs : bytes) : list bytes * LineRead :=
  match fuel with
  | O => ([], EndOfStream)
  | S fuel =>
      match cut 10 bs with
      | Some (l, rest) =>
          if max <? Z.of_nat (length l) + 1 then ([], LineFailed InvalidData)
          else let '(ls, e) := lines_loop fuel max rest in ((l ++ [10]) :: ls, e)
      | None =>
          ([], match bs with
               | [] => EndOfStream
               | _ => LineFailed (if max <? Z.of_nat (length bs) then InvalidData else UnexpectedEof)
               end)
      end
  end.

Definition lines (max : Z) (bs : bytes) : list bytes * LineRead := lines_loop (S (length bs)) max bs.

(** A caller that keeps the partial line and polls again. *)
Fixpoint read_all (fuel : nat) (r : LineReader) (partial : bytes) (max : Z) : list bytes * LineRead :=
  match fuel with
  | O => ([], Cancelled_)
  | S fuel =>
      match read_line r partial max with
      | (r, partial, Line l) => let '(ls, e) := read_all fuel r partial max in (l :: ls, e)
      | (r, partial, Cancelled_) => read_all fuel r partial max
      | (_, _, outcome) => ([], outcome)
      end
  end.

Lemma cut_app_none b p q : cut b p = None -> cut b (p ++ q) = prod_map (app p) id <$> cut b q.
Proof.
  induction p as [|x p IH]; cbn; [intros _; by destruct (cut b q) as [[]|]|].
  destruct (x =? b); [done|]. destruct (cut b p) as [[]|]; [done|]. intros _. rewrite IH by done.
  by destruct (cut b q) as [[]|].
Qed.

Lemma cut_app_some b p q l r : cut b p = Some (l, r) -> cut b (p ++ q) = Some (l, r ++ q).
Proof.
  revert l. induction p as [|x p IH]; intros l; cbn; [done|]. destruct (x =? b); [by intros [= <- <-]|].
  destruct (cut b p) as [[l' r']|]; [|done]. intros [= <- <-]. by rewrite (IH l').
Qed.

Definition kept (max : Z) (partial : bytes) : Prop := cut 10 partial = None /\ Z.of_nat (length partial) <= max.

Lemma line_turn_spec available partial max : kept max partial ->
  match line_turn available partial max with
  | TurnLine line rest => exists l, cut 10 (partial ++ available) = Some (l, rest) /\ line = l ++ [10] /\
      Z.of_nat (length l) + 1 <= max /\ (length rest < length available)%nat
  | TurnMore partial' => kept max partial' /\ partial' = partial ++ available
  | TurnTooLong => match cut 10 (partial ++ available) with
      | Some (l, _) => max < Z.of_nat (length l) + 1
      | None => max < Z.of_nat (length (partial ++ available))
      end
  end.
Proof.
  intros [Hp Hl]. unfold line_turn, kept. rewrite cut_app_none by done.
  destruct (cut 10 available) as [[l r]|] eqn:E; cbn.
  - apply cut_some in E as [-> _]. rewrite !length_app. cbn [length].
    destruct (Z.ltb_spec (Z.max 0 (max - Z.of_nat (length partial))) (Z.of_nat (length l + 1))) as [H|H].
    + lia.
    + eexists. split; [done|]. rewrite <- app_assoc. split; [done|]. rewrite length_app. split; lia.
  - destruct (Z.ltb_spec (Z.max 0 (max - Z.of_nat (length partial))) (Z.of_nat (length available))) as [H|H];
      rewrite length_app; [lia|]. split_and!; [|lia|done]. by rewrite cut_app_none, E.
Qed.

Definition unread (r : LineReader) : bytes := buffered r ++ arriving (incoming r).
Definition left (r : LineReader) : nat := (length (unread r) + length (incoming r))%nat.

(** What a call of [read_line] on [partial] and [rest] of a stream may come to. *)
Definition reads (max : Z) (partial rest : bytes) (before : nat) (res : LineReader * bytes * LineRead) : Prop :=
  match res with
  | (r', partial', Line l) => exists l0, l = l0 ++ [10] /\ cut 10 (partial ++ rest) = Some (l0, unread r') /\
      Z.of_nat (length l0) + 1 <= max /\ partial' = [] /\ Forall healthy (incoming r') /\ (left r' < before)%nat
  | (r', partial', Cancelled_) => partial ++ rest = partial' ++ unread r' /\ kept max partial' /\
      Forall healthy (incoming r') /\ (left r' < before)%nat
  | (_, partial', outcome) => lines_loop 1 max (partial ++ rest) = ([], outcome) /\ kept max partial'
  end.

Lemma too_long max p a q : 0 <= max ->
  match cut 10 (p ++ a) with
  | Some (l, _) => max < Z.of_nat (length l) + 1
  | None => max < Z.of_nat (length (p ++ a))
  end ->
  lines_loop 1 max (p ++ a ++ q) = ([], LineFailed InvalidData).
Proof.
  intros Hm Hc. cbn. rewrite app_assoc. destruct (cut 10 (p ++ a)) as [[l rest]|] eqn:E.
  - rewrite (cut_app_some _ _ _ _ _ E). by destruct (Z.ltb_spec max (Z.of_nat (length l) + 1)); [|lia].
  - rewrite cut_app_none by done. destruct (cut 10 q) as [[l rest]|]; cbn.
    + rewrite length_app. by destruct (Z.ltb_spec max (Z.of_nat (length (p ++ a) + length l) + 1)); [|lia].
    + assert (max < Z.of_nat (length ((p ++ a) ++ q))) by (rewrite length_app; lia).
      destruct ((p ++ a) ++ q) as [|x y]; [cbn in *; lia|].
      by destruct (Z.ltb_spec max (Z.of_nat (length (x :: y)))); [|lia].
Qed.

Lemma reads_joined max p a rest n m res : (n <= m)%nat -> reads max (p ++ a) rest n res -> reads max p (a ++ rest) m res.
Proof.
  intros Hnm. unfold reads. rewrite <- app_assoc. destruct res as [[r' p'] [l| |e|]]; [|done..|].
  - intros (l0 & ? & ? & ? & ? & ? & ?). exists l0. split_and!; try done. lia.
  - intros (? & ? & ? & ?). split_and!; try done. lia.
Qed.

Lemma read_arrivals_spec arr partial max : kept max partial -> Forall healthy arr ->
  reads max partial (arriving arr) (length (arriving arr) + length arr) (read_arrivals arr partial max).
Proof.
  intros Hk Ha. assert (Hm : 0 <= max) by (destruct Hk; lia). revert partial Hk.
  induction Ha as [|a arr Ha Harr IH]; intros partial Hk; cbn [read_arrivals].
  { unfold reads, arriving. cbn. destruct Hk as [Hc Hl]. rewrite app_nil_r, Hc.
    destruct partial as [|b p]; [done|]. split; [|done].
    by destruct (Z.ltb_spec max (Z.of_nat (length (b :: p)))); [lia|]. }
  destruct a as [[|b bs]|e|]; [done| |done|].
  - set (av := b :: bs) in *. pose proof (line_turn_spec av partial max Hk) as Ht.
    change (arriving (Chunk av :: arr)) with (av ++ arriving arr).
    destruct (line_turn av partial max) as [l rest|partial'|].
    + destruct Ht as (l0 & Hc & -> & Hl & Hr). exists l0. split; [done|]. rewrite app_assoc.
      split; [by apply cut_app_some|]. split_and!; try done.
      unfold left, unread. cbn [buffered incoming length]. rewrite !length_app. lia.
    + destruct Ht as [Hk' ->]. eapply reads_joined; [|by apply IH]. rewrite length_app. cbn. lia.
    + split; [|done]. by apply too_long.
  - unfold reads, left, unread. cbn. split_and!; try done. unfold arriving. cbn. lia.
Qed.

Lemma read_line_spec r partial max : kept max partial -> Forall healthy (incoming r) ->
  reads max partial (unread r) (left r) (read_line r partial max).
Proof.
  intros Hk Ha. assert (Hm : 0 <= max) by (destruct Hk; lia). unfold read_line. destruct r as [buf arr]. cbn [buffered incoming] in *.
  destruct buf as [|b bs]; [by apply read_arrivals_spec|]. set (av := b :: bs) in *.
  change (unread (mkLineReader av arr)) with (av ++ arriving arr).
  pose proof (line_turn_spec av partial max Hk) as Ht. unfold left, unread. cbn [buffered incoming].
  destruct (line_turn av partial max) as [l rest|partial'|].
  - destruct Ht as (l0 & Hc & -> & Hl & Hr). exists l0. split; [done|]. rewrite app_assoc.
    split; [by apply cut_app_some|]. split_and!; try done.
      unfold left, unread. cbn [buffered incoming length]. rewrite !length_app. lia.
  - destruct Ht as [Hk' ->]. eapply reads_joined; [|by apply read_arrivals_spec]. rewrite length_app. lia.
  - split; [|done]. by apply too_long.
Qed.

Lemma lines_loop_fuel n m max bs : (length bs < n)%nat -> (length bs < m)%nat ->
  lines_loop n max bs = lines_loop m max bs.
Proof.
  revert m bs. induction n as [|n IH]; intros m bs Hn Hm; [lia|]. destruct m as [|m]; [lia|]. cbn.
  destruct (cut 10 bs) as [[l rest]|] eqn:E; [|done]. apply cut_some in E as [-> _]. rewrite length_app in *. cbn in *.
  by rewrite (IH m rest) by lia.
Qed.

Lemma lines_cut max bs l rest : cut 10 bs = Some (l, rest) -> Z.of_nat (length l) + 1 <= max ->
  lines max bs = let '(ls, e) := lines max rest in ((l ++ [10]) :: ls, e).
Proof.
  intros Hc Hl. unfold lines. cbn [lines_loop]. rewrite Hc. destruct (Z.ltb_spec max (Z.of_nat (length l) + 1)); [lia|].
  apply cut_some in Hc as [-> _]. rewrite length_app. cbn [length]. by rewrite (lines_loop_fuel _ (S (length rest))) by lia.
Qed.

Lemma lines_end max bs e : lines_loop 1 max bs = ([], e) -> lines max bs = ([], e).
Proof.
  unfold lines. cbn. destruct (cut 10 bs) as [[l rest]|]; [|done]. by destruct (_ <? _).
Qed.

Lemma read_all_lines fuel r partial max : kept max partial -> Forall healthy (incoming r) -> (left r < fuel)%nat ->
  read_all fuel r partial max = lines max (partial ++ unread r).
Proof.
  revert r partial. induction fuel as [|fuel IH]; intros r partial Hk Ha Hf; [lia|]. cbn [read_all].
  pose proof (read_line_spec r partial max Hk Ha) as Hr. destruct (read_line r partial max) as [[r' partial'] [l| |e|]]; cbn in Hr.
  - destruct Hr as (l0 & -> & Hc & Hl & -> & Ha' & Hlt). rewrite (lines_cut _ _ _ _ Hc Hl).
    rewrite (IH r' []); [done| |done|lia]. split; [done|]. cbn. lia.
  - destruct Hr as [Hl _]. symmetry. by apply lines_end.
  - destruct Hr as [Hl _]. symmetry. by apply lines_end.
  - destruct Hr as (Heq & Hk' & Ha' & Hlt). rewrite Heq. apply IH; [done..|lia].
Qed.

(** The lines are no longer than the limit and come from the front of the stream. *)
Lemma lines_loop_ok n max bs :
  (forall l, In l (fst (lines_loop n max bs)) -> Z.of_nat (length l) <= max) /\
  concat (fst (lines_loop n max bs)) `prefix_of` bs /\
  ((length bs < n)%nat -> snd (lines_loop n max bs) = EndOfStream -> concat (fst (lines_loop n max bs)) = bs).
Proof.
  revert bs. induction n as [|n IH]; intros bs; cbn; [split_and!; [done|apply prefix_nil|lia]|].
    destruct (cut 10 bs) as [[l rest]|] eqn:E.
    - apply cut_some in E as [-> _]. destruct (Z.ltb_spec max (Z.of_nat (length l) + 1)); [split_and!; [done|apply prefix_nil|done]|].
      destruct (IH rest) as (Hin' & Hp & He). destruct (lines_loop n max rest) as [ls e]. cbn in *. split_and!.
      + intros l0 [<-|]; [rewrite length_app; cbn; lia|auto].
      + rewrite <- app_assoc. change (10 :: rest) with ([10] ++ rest). by do 2 apply prefix_app.
      + intros Hn Hend. rewrite <- app_assoc, He; [done|rewrite length_app in Hn; cbn in Hn; lia|done].
    - split_and!; [done|apply prefix_nil|]. destruct bs; [done|]. by destruct (_ <? _).
Qed.

(** Reading control lines is a function of the stream: however its bytes are cut
    into chunks and however often the read is cancelled and polled again with the
    partial line it left, the caller gets the lines of the stream, each with its
    newline and none over the limit; the first line over the limit is refused, a
    stream that ends inside a line is an error and one that ends between lines is
    its end; and what a call leaves behind is never more than the limit. *)
Theorem control_lines max incoming (Hmax : 0 <= max) (Hin : Forall healthy incoming) :
  read_all (S (length (arriving incoming) + length incoming)) (mkLineReader [] incoming) [] max
    = lines max (arriving incoming) /\
  (forall l, In l (fst (lines max (arriving incoming))) -> Z.of_nat (length l) <= max) /\
  concat (fst (lines max (arriving incoming))) `prefix_of` arriving incoming /\
  (snd (lines max (arriving incoming)) = EndOfStream -> concat (fst (lines max (arriving incoming))) = arriving incoming) /\
  (let '(_, partial, _) := read_line (mkLineReader [] incoming) [] max in Z.of_nat (length partial) <= max).
Proof.
  assert (Hk : kept max []) by (split; [done|cbn; lia]). split; [by apply read_all_lines; [| |unfold left, unread; cbn; lia]|].
  destruct (lines_loop_ok (S (length (arriving incoming))) max (arriving incoming)) as (H1 & H2 & H3).
  split; [exact H1|]. split; [exact H2|]. split; [apply H3; lia|].
  pose proof (read_line_spec (mkLineReader [] incoming) [] max Hk Hin) as Hr.
  destruct (read_line _ _ _) as [[r' p'] [l| |e|]]; cbn in Hr.
  - destruct Hr as (? & ? & ? & ? & -> & ?). cbn. lia.
  - apply Hr.
  - apply Hr.
  - apply Hr.
Qed.

(** ** What the budgets promise *)

Definition natural (l : TransportLimits) : Prop := Forall (fun b => 0 <= snd b) (budgets l).

Lemma check_each_ok bad reason named : check_each bad reason named = Ok tt <-> Forall (fun v => bad (snd v) = false) named.
Proof.
  induction named as [|[name v] named IH]; cbn; [by split|]. rewrite Forall_cons. cbn. destruct (bad v); [naive_solver|].
  rewrite IH. tauto.
Qed.

Lemma limits_validate_ok MAX_PERMITS l : limits_validate MAX_PERMITS l = Ok tt <->
  Forall (fun b => snd b <> 0 /\ snd b <= Z.min MAX_PERMITS (u32_bound - 1)) (budgets l) /\
  Forall (fun d => snd d <> 0 /\ snd d <= 86400 * 1000) (deadlines l).
Proof.
  unfold limits_validate. rewrite rbind_ok, !check_each_ok.
  f_equiv; apply Forall_iff_ext; intros [name v]; cbn; rewrite orb_false_iff, Z.eqb_neq, Z.ltb_ge; done.
Qed.

(** Bytes of encoded messages that are in memory for a lane. *)
Definition in_memory (s : Control) (k : Lane) : Z :=
  foldr (fun e n => Z.of_nat (length (e_bytes e)) + n) 0 (queued (lane s k)) +
  match writing s with Some (k', e) => if decide (k' = k) then Z.of_nat (length (e_bytes e)) else 0 | None => 0 end.

Lemma in_memory_used l s k : control_inv l s -> in_memory s k <= used s k.
Proof.
  intros []. unfold in_memory, used. pose proof (waiting_nonneg k (deliveries s)).
  assert (Hq : foldr (fun e n => Z.of_nat (length (e_bytes e)) + n) 0 (queued (lane s k)) = permits (queued (lane s k))).
  { specialize (inv_paid0 k). induction inv_paid0 as [|e es [He _] _ IH]; [done|]. cbn [foldr]. rewrite permits_cons. lia. }
  rewrite Hq. unfold written. destruct (writing s) as [[k' e]|]; [destruct inv_writing0 as [He _]; case_decide|]; lia.
Qed.

Lemma valid_inv MAX_PERMITS l : natural l -> limits_validate MAX_PERMITS l = Ok tt ->
  0 < control_message_bytes l < u32_bound /\ control_inv l (queue l).
Proof.
  intros Hn [Hv _]%limits_validate_ok. unfold natural in Hn.
  assert (Hb : forall name v, In (name, v) (budgets l) -> 0 < v < u32_bound).
  { intros name v Hin%list_elem_of_In. rewrite Forall_forall in Hn, Hv. specialize (Hn _ Hin). specialize (Hv _ Hin). cbn in *. lia. }
  assert (Hm : 0 < control_message_bytes l < u32_bound) by (apply (Hb "control_message_bytes"); cbn; tauto).
  split; [done|]. unfold queue.
  assert (0 < reserved_control_bytes l) by (apply (Hb "reserved_control_bytes"); cbn; tauto).
  assert (0 < queued_control_bytes l) by (apply (Hb "queued_control_bytes"); cbn; tauto).
  assert (0 < event_queue_bytes l) by (apply (Hb "event_queue_bytes"); cbn; tauto).
  assert (0 < reserved_requests l) by (apply (Hb "reserved_requests"); cbn; tauto).
  assert (0 < provider_requests l) by (apply (Hb "provider_requests"); cbn; tauto).
  assert (0 < event_queue_messages l) by (apply (Hb "event_queue_messages"); cbn; tauto).
  constructor; cbn; try done; intros k; unfold used, written; destruct k; cbn; solve [lia | by constructor].
Qed.

(** The control stream's memory is bounded. Under validated limits, in every state
    that any interleaving of senders, waiting replies and the writer reaches, each
    lane holds at most its budget of encoded bytes and its capacity of messages; its
    free permits are never negative and no permit is lost: with nothing queued,
    waiting or being written all are free again. Every message in a lane is within
    the message limit, and the count of one always fits the 32 bits the semaphore
    takes, so that taking its permits cannot panic. *)
Theorem control_budgets `{SerdeJson} MAX_PERMITS l n s
    (Hnat : natural l) (Hl : limits_validate MAX_PERMITS l = Ok tt) (Hs : control_steps (queue l) n s) :
  (forall k, in_memory s k <= free (lane (queue l) k) /\
    Z.of_nat (length (queued (lane s k))) <= capacity (lane (queue l) k) /\
    0 <= free (lane s k) <= free (lane (queue l) k) /\
    (queued (lane s k) = [] -> writing s = None -> deliveries s = [] -> free (lane s k) = free (lane (queue l) k)) /\
    Forall (fun e => Z.of_nat (length (e_bytes e)) <= control_message_bytes l) (queued (lane s k))) /\
  (forall m count, message_size m (max_message s) = Ok count ->
    count = Z.of_nat (length (encode_message m)) /\ 0 <= count < u32_bound).
Proof.
  destruct (valid_inv MAX_PERMITS l Hnat Hl) as [Hm Hi]. pose proof (inv_steps l _ _ _ (proj1 Hm) Hi Hs) as Hi'.
  pose proof Hi' as []. split.
  - intros k. pose proof (in_memory_used l s k Hi'). specialize (inv_free0 k).
    pose proof (permits_nonneg _ _ (inv_paid0 k)). pose proof (waiting_nonneg k (deliveries s)).
    assert (0 <= written k (writing s)).
    { unfold written. destruct (writing s) as [[k' e]|]; [|done]. destruct inv_writing0. case_decide; lia. }
    unfold used in *. split_and!; try lia.
    + rewrite <- inv_capacity0. apply inv_room0.
    + intros Hq Hw Hd. rewrite Hq, Hw, Hd in inv_free0.
      change (permits [] + written k None + waiting k []) with 0 in inv_free0. lia.
    + rewrite <- inv_max0. eapply Forall_impl; [apply inv_paid0|]. intros e []. lia.
  - intros m count. rewrite message_size_spec by lia. destruct (Z.leb_spec (Z.of_nat (length (encode_message m))) (max_message s)); [|done].
    intros [= <-]. split; [done|lia].
Qed.

(** C24. Control messages are delivered once, in order, and none waits for ever. In
    each lane what was received is a prefix of what was accepted. While the writer
    lives, whatever the senders go on doing, the messages received next are the
    priority messages that are queued, in order, so that a stop is written before
    every reply and event queued or sent. A writer left to itself empties the queues,
    priority first and events last. *)
Theorem control_delivery `{SerdeJson} MAX_PERMITS l n s
    (Hnat : natural l) (Hl : limits_validate MAX_PERMITS l = Ok tt) (Hs : control_steps (queue l) n s) :
  (forall k, of_lane k (received s) `prefix_of` of_lane k (accepted s)) /\
  (forall m s', control_steps s m s' -> receiving s' = true -> (m <= length (pending s Priority))%nat ->
    received s' = received s ++ tagged Priority (take m (pending s Priority))) /\
  (receiving s = true -> forall k,
    let s' := write_all (length (queued_in_order s)) s in
    received s' = received s ++ queued_in_order s /\ of_lane k (received s') = of_lane k (accepted s)).
Proof.
  destruct (valid_inv MAX_PERMITS l Hnat Hl) as [Hm Hi]. pose proof (inv_steps l _ _ _ (proj1 Hm) Hi Hs) as Hi'.
  split; [intros k; apply (inv_order _ _ Hi')|]. split.
  - intros m s' Hs' Hr Hle. destruct (priority_next s m s' Hs' Hr) as (got & -> & _ & Hp). by destruct (Hp Hle) as [-> _].
  - intros Hr k s'. subst s'. destruct (write_all_spec _ s eq_refl) as (-> & _ & _). split; [done|].
    destruct (inv_order _ _ Hi' k) as [Ho _]. rewrite (Ho Hr). unfold of_lane. rewrite filter_app, map_app. f_equal.
    unfold queued_in_order. rewrite !filter_app, !map_app.
    assert (Ht : forall k', map snd (filter (fun m => fst m = k) (tagged k' (pending s k'))) =
      if decide (k' = k) then pending s k' else []).
    { intros k'. unfold tagged. induction (pending s k') as [|bs bss IH]; [by case_decide|]. cbn [map]. rewrite filter_cons. cbn [fst].
      case_decide; cbn; by rewrite IH. }
    rewrite !Ht. unfold pending. destruct k; repeat case_decide; try done; cbn; by rewrite ?app_nil_r.
Qed.

(** A writing of messages that is their method. *)
Definition plain_json : SerdeJson := {| to_writer m := match method m with Some t => [to_bytes t] | None => [] end |}.

Definition control_demo : Control :=
  let send := @send plain_json in
  fst (send (fst (send (fst (send (queue default_limits) (notification HOST_EVENT JNull) false))
    (request 1 "a" JNull) false)) (request 2 "b" JNull) true).

Lemma steps_send `{SerdeJson} s n s' m priority :
  control_steps s n s' -> control_steps s n (fst (send s' m priority)).
Proof.
  induction 1 as [s|s n s1 k s2 H1 H2 IH]; [|by eapply steps_step].
  eapply (steps_step _ 0 _ 0); [apply step_send|apply steps_refl].
Qed.

Lemma control_demo_steps : @control_steps plain_json (queue default_limits) 0 control_demo.
Proof. unfold control_demo. do 3 apply steps_send. apply steps_refl. Qed.

Lemma default_limits_natural : natural default_limits.
Proof. unfold natural. repeat constructor; cbn; lia. Qed.

Lemma default_limits_valid : limits_validate (2 ^ 60) default_limits = Ok tt.
Proof. vm_compute. reflexivity. Qed.

Lemma control_budgets_witness :
  in_memory control_demo Priority = 2 /\ in_memory control_demo Priority <= reserved_control_bytes default_limits.
Proof.
  split; [vm_compute; reflexivity|].
  destruct (@control_budgets plain_json (2 ^ 60) default_limits 0 control_demo default_limits_natural default_limits_valid
    control_demo_steps) as [Hk _].
  destruct (Hk Priority) as [Hm _]. exact Hm.
Defined.

Lemma control_delivery_witness :
  received (write_all 3 control_demo) =
    [(Priority, [98; 10]); (Normal, [97; 10]); (Events, to_bytes HOST_EVENT ++ [10])].
Proof.
  pose proof (@control_delivery plain_json (2 ^ 60) default_limits 0 control_demo default_limits_natural default_limits_valid
    control_demo_steps) as (_ & _ & Hw).
  assert (Hr : receiving control_demo = true) by (vm_compute; reflexivity).
  destruct (Hw Hr Normal) as [Hq _]. change 3%nat with (length (queued_in_order control_demo)).
  rewrite Hq. vm_compute. reflexivity.
Defined.

Lemma control_lines_witness :
  read_all 30 (mkLineReader [] [Chunk [97; 10; 98]; Dropped; Chunk [99; 10]; Chunk [100; 101; 102; 103]]) [] 3
    = ([[97; 10]; [98; 99; 10]], LineFailed InvalidData) /\
  lines 3 (arriving [Chunk [97; 10; 98]; Dropped; Chunk [99; 10]; Chunk [100; 101; 102; 103]])
    = ([[97; 10]; [98; 99; 10]], LineFailed InvalidData).
Proof.
  split; [vm_compute; reflexivity|].
  destruct (control_lines 3 [Chunk [97; 10; 98]; Dropped; Chunk [99; 10]; Chunk [100; 101; 102; 103]]) as [Hl _];
    [lia|repeat constructor|].
  rewrite <- Hl. vm_compute. reflexivity.
Defined.
