(* ===== verification/Discovery.v ===== *)
(** * Finding and trusting a plugin's executable

    Models [crates/sandbox-driver-protocol/src/discovery.rs]: the configuration of a
    plugin, resolving its executable, enforcing its checksum, and the environment the
    child starts from; and the freezing of forwarded variables by
    [PluginSupervisor::launch] in [supervisor.rs]. The host's files and variables are a
    record; SHA-256 is an interface. Paths are their bytes, as on Unix. *)

From S2P Require Import Prelude Text Errors.

#[local] Open Scope string_scope.
#[local] Open Scope list_scope.
#[local] Open Scope Z_scope.

Record PluginConfig := mkPlugin {
  kind : string;
  path : option string;
  sha256 : option string;
  dev : bool;
  args : list string;
  env : gmap string string;
  inherit_env : list string;
}.

Definition plugin_new (kind : string) : PluginConfig := mkPlugin kind None None false [] ∅ [].
Definition with_path (c : PluginConfig) (p : string) : PluginConfig :=
  mkPlugin (kind c) (Some p) (sha256 c) (dev c) (args c) (env c) (inherit_env c).
Definition with_sha256 (c : PluginConfig) (pin : string) : PluginConfig :=
  mkPlugin (kind c) (path c) (Some pin) (dev c) (args c) (env c) (inherit_env c).
Definition with_dev (c : PluginConfig) (d : bool) : PluginConfig :=
  mkPlugin (kind c) (path c) (sha256 c) d (args c) (env c) (inherit_env c).
Definition with_arg (c : PluginConfig) (arg : string) : PluginConfig :=
  mkPlugin (kind c) (path c) (sha256 c) (dev c) (args c ++ [arg]) (env c) (inherit_env c).
Definition env_var (c : PluginConfig) (key value : string) : PluginConfig :=
  mkPlugin (kind c) (path c) (sha256 c) (dev c) (args c) (<[key := value]> (env c)) (inherit_env c).
Definition inherit_env_var (c : PluginConfig) (key : string) : PluginConfig :=
  mkPlugin (kind c) (path c) (sha256 c) (dev c) (args c) (env c) (inherit_env c ++ [key]).

(** What the host answers: its variables; of a path, whether it is a regular file and
    its mode, or nothing; and its content, or the chain of the error. *)
Record Host := mkHost {
  ambient : gmap string string;
  metadata : string -> option (bool * Z);
  read_file : string -> result bytes (list string);
}.

(** The digest of some bytes. *)
Class Digest := { digest : bytes -> bytes }.

Definition is_executable_file (h : Host) (p : string) : bool :=
  match metadata h p with
  | None => false
  | Some (is_file, mode) => if negb is_file then false else negb (Z.land mode 73 =? 0) (* 0o111 *)
  end.

(** [Path::join] of a name. *)
Definition path_join (dir name : string) : string :=
  if starts_with_char "/" name then name
  else if is_empty dir || ends_with_char "/" dir then dir +:+ name
  else dir +:+ "/" +:+ name.

(** [Path::display]. *)
Definition display (p : string) : string := from_utf8_lossy (to_bytes p).

Definition resolve_on_search_path (h : Host) (name search : string) : option string :=
  find (is_executable_file h) (map (fun dir => path_join dir name) (split ":" search)).

Definition resolve_plugin_binary (h : Host) (prefix : string) (c : PluginConfig) : result string Error :=
  match path c with
  | Some p => if is_executable_file h p then Ok p else Err (NotFound RkPlugin (display p))
  | None =>
      let name := prefix +:+ "-" +:+ kind c in
      let search := default "" (ambient h !! "PATH") in
      ok_or (resolve_on_search_path h name search) (NotFound RkPlugin (name +:+ " (searched PATH)"))
  end.

Definition hex_digit (n : Z) : ascii := char (if n <? 10 then 48 + n else 87 + n).

(** Each byte as two lowercase digits. *)
Definition hex (bs : bytes) : string :=
  foldr (fun b s => String (hex_digit (b / 16)) (String (hex_digit (b mod 16)) s)) "" bs.

Section Trust.
Context `{Digest}.

Definition file_sha256 (h : Host) (p : string) : result string Error :=
  let? content := map_err (fun source => Io ("reading " +:+ display p) source) (read_file h p) in
  Ok (hex (digest content)).

Definition eq_ignore_ascii_case (s t : string) : bool :=
  bool_decide (to_ascii_lowercase s = to_ascii_lowercase t).

(** Whether the executable was verified. *)
Definition enforce_checksum (h : Host) (p : string) (c : PluginConfig) : result bool Error :=
  match sha256 c with
  | Some expected =>
      let? actual := file_sha256 h p in
      if negb (eq_ignore_ascii_case actual (trim expected)) then
        Err (InvalidSpec "sha256"
          ("checksum mismatch for " +:+ display p +:+ ": pinned " +:+ expected +:+ ", found " +:+ actual))
      else Ok true
  | None =>
      if dev c then Ok false
      else Err (InvalidSpec "sha256"
        ("plugin " +:+ kind c +:+ " has no pinned sha256; pin one or explicitly mark the plugin dev"))
  end.

Definition forward (ambient : gmap string string) (child : gmap string string) (key : string) : gmap string string :=
  match ambient !! key with Some value => <[key := value]> child | None => child end.

Definition set_var (child : gmap string string) (v : string * string) : gmap string string :=
  <[fst v := snd v]> child.

(** The variables of the command, starting from none. *)
Definition child_env (h : Host) (c : PluginConfig) : gmap string string :=
  foldl set_var (foldl (forward (ambient h)) ∅ (inherit_env c)) (entries (env c)).

(** A command ready to spawn: the program, its arguments and variables, and whether
    the program was verified. *)
Record Command := mkCommand {
  program : string;
  arguments : list string;
  variables : gmap string string;
  verified : bool;
}.

Definition launch_plugin (h : Host) (prefix : string) (c : PluginConfig) : result Command Error :=
  let? p := resolve_plugin_binary h prefix c in
  let? v := enforce_checksum h p c in
  Ok (mkCommand p (args c) (child_env h c) v).
End Trust.

(** [env::var]: a variable whose value is UTF-8. *)
Definition unicode_var (h : Host) (key : string) : option string :=
  match ambient h !! key with
  | Some v => if bool_decide (from_utf8_lossy (to_bytes v) = v) then Some v else None
  | None => None
  end.

Definition freeze_var (h : Host) (frozen : gmap string string) (key : string) : gmap string string :=
  match frozen !! key with
  | Some _ => frozen
  | None => match unicode_var h key with Some value => <[key := value]> frozen | None => frozen end
  end.

(** The configuration a supervisor keeps: forwarded variables become declared ones. *)
Definition freeze (h : Host) (c : PluginConfig) : PluginConfig :=
  mkPlugin (kind c) (path c) (sha256 c) (dev c) (args c) (foldl (freeze_var h) (env c) (inherit_env c)) [].

(** ** What the child's environment holds *)

Lemma lookup_forward_all amb keys m k :
  foldl (forward amb) m keys !! k =
  if bool_decide (k ∈ keys) then match amb !! k with Some v => Some v | None => m !! k end else m !! k.
Proof.
  revert m. induction keys as [|key keys IH]; intros m; [done|]. cbn [foldl]. rewrite IH. unfold forward.
  destruct (decide (k = key)) as [->|Hne].
  - rewrite (bool_decide_true (key ∈ key :: keys)) by left.
    destruct (amb !! key) as [v|] eqn:E; [|by case_bool_decide].
    rewrite lookup_insert_eq. by case_bool_decide.
  - assert (Hl : forward amb m key !! k = m !! k).
    { unfold forward. destruct (amb !! key); [|done]. by rewrite lookup_insert_ne. }
    unfold forward in Hl. rewrite Hl. repeat case_bool_decide; set_solver.
Qed.

Lemma set_all_notin kvs m k : k ∉ kvs.*1 -> foldl set_var m kvs !! k = m !! k.
Proof.
  revert m. induction kvs as [|[k' v'] kvs IH]; intros m Hk; [done|]. cbn in *. rewrite not_elem_of_cons in Hk.
  rewrite IH by tauto. unfold set_var. cbn. rewrite lookup_insert_ne; [done|]. intros ->. tauto.
Qed.

Lemma set_all_in kvs m k v : NoDup kvs.*1 -> (k, v) ∈ kvs -> foldl set_var m kvs !! k = Some v.
Proof.
  revert m. induction kvs as [|[k' v'] kvs IH]; intros m Hn Hin; [by apply not_elem_of_nil in Hin|].
  cbn in *. apply NoDup_cons in Hn as [Hk Hn]. apply elem_of_cons in Hin as [[= -> ->]|Hin]; [|by apply IH].
  rewrite set_all_notin by done. unfold set_var. cbn. by rewrite lookup_insert_eq.
Qed.

Lemma entries_keys {V} (m : gmap string V) : NoDup (entries m).*1.
Proof.
  unfold entries. assert (Hp : (merge_sort key_le (map_to_list m)).*1 ≡ₚ (map_to_list m).*1).
  { apply fmap_Permutation. symmetry. rewrite merge_sort_Permutation. done. }
  rewrite Hp. apply NoDup_fst_map_to_list.
Qed.

Lemma lookup_set_all (e : gmap string string) m k :
  foldl set_var m (entries e) !! k = match e !! k with Some v => Some v | None => m !! k end.
Proof.
  destruct (e !! k) as [v|] eqn:E.
  - apply set_all_in; [apply entries_keys|by apply elem_of_entries].
  - apply set_all_notin. intros ([k' v'] & -> & Hin)%list_elem_of_fmap. apply elem_of_entries in Hin. cbn in E. congruence.
Qed.

Lemma lookup_child_env h c k :
  child_env h c !! k =
  match env c !! k with Some v => Some v | None => if bool_decide (k ∈ inherit_env c) then ambient h !! k else None end.
Proof.
  unfold child_env. rewrite lookup_set_all, lookup_forward_all, lookup_empty.
  destruct (env c !! k); [done|]. case_bool_decide; [|done]. by destruct (ambient h !! k).
Qed.

Lemma lookup_freeze h c k :
  env (freeze h c) !! k =
  match env c !! k with Some v => Some v | None => if bool_decide (k ∈ inherit_env c) then unicode_var h k else None end.
Proof.
  unfold freeze. cbn [env]. generalize (inherit_env c) (env c). intros keys.
  induction keys as [|key keys IH]; intros m; cbn [foldl]; [by destruct (m !! k)|]. rewrite IH. unfold freeze_var.
  destruct (decide (k = key)) as [->|Hne].
  - rewrite (bool_decide_true (key ∈ key :: keys)) by left.
    destruct (m !! key) as [v|] eqn:E; [by rewrite E|]. destruct (unicode_var h key) as [v|] eqn:Ev.
    + by rewrite lookup_insert_eq.
    + rewrite E. by case_bool_decide.
  - assert (Hl : freeze_var h m key !! k = m !! k).
    { unfold freeze_var. destruct (m !! key); [done|]. destruct (unicode_var h key); [|done]. by rewrite lookup_insert_ne. }
    unfold freeze_var in Hl. rewrite Hl. destruct (m !! k); [done|]. repeat case_bool_decide; set_solver.
Qed.

(** ** What a launch rests on *)

Lemma find_split {A} (p : A -> bool) l a : find p l = Some a ->
  exists before after, l = before ++ a :: after /\ p a = true /\ Forall (fun b => p b = false) before.
Proof.
  induction l as [|b l IH]; [done|]. cbn. destruct (p b) eqn:E.
  - intros [= ->]. by exists [], l.
  - intros (before & after & -> & Ha & Hb)%IH. exists (b :: before), after. split_and!; [done|done|by constructor].
Qed.

(** The executable a configuration names: its path, or the first match of the
    convention on the search path. *)
Definition names (h : Host) (prefix : string) (c : PluginConfig) (p : string) : Prop :=
  match path c with
  | Some explicit => p = explicit
  | None => exists before dir after,
      split ":" (default "" (ambient h !! "PATH")) = before ++ dir :: after /\
      p = path_join dir (prefix +:+ "-" +:+ kind c) /\
      Forall (fun d => is_executable_file h (path_join d (prefix +:+ "-" +:+ kind c)) = false) before
  end.

Lemma resolve_spec h prefix c p : resolve_plugin_binary h prefix c = Ok p ->
  is_executable_file h p = true /\ names h prefix c p.
Proof.
  unfold resolve_plugin_binary, names, resolve_on_search_path. destruct (path c) as [q|].
  - destruct (is_executable_file h q) eqn:E; [|done]. by intros [= <-].
  - destruct (find _ _) as [q|] eqn:E; [|done]. intros [= <-].
    apply find_split in E as (before & after & Hl & He & Hb). split; [done|].
    destruct (map_eq_app _ _ _ _ Hl) as (b & ds & -> & <- & Hd). symmetry in Hd.
    destruct ds as [|dir ds]; [done|]. cbn in Hd. injection Hd as Hq _. exists b, dir, ds.
    split_and!; [done|by rewrite Hq|]. by apply Forall_map in Hb.
Qed.

(** The digest a pin was matched with. *)
Definition pinned `{Digest} (h : Host) (p pin : string) : Prop :=
  exists content, read_file h p = Ok content /\
    to_ascii_lowercase (hex (digest content)) = to_ascii_lowercase (trim pin).

Lemma enforce_checksum_spec `{Digest} h p c v : enforce_checksum h p c = Ok v <->
  match sha256 c with Some pin => v = true /\ pinned h p pin | None => v = false /\ dev c = true end.
Proof.
  unfold enforce_checksum, pinned, file_sha256, eq_ignore_ascii_case. destruct (sha256 c) as [pin|].
  - destruct (read_file h p) as [content|]; cbn; [|naive_solver].
    case_bool_decide as E; cbn; [|naive_solver]. split; [intros [= <-]; eauto|]. by intros [-> _].
  - destruct (dev c); naive_solver.
Qed.

(** A plugin is launched only as its configuration says. The executable is the
    configured path, or the first on the search path with the conventional name, and
    is an executable file; either its content has the pinned digest and it counts as
    verified, or nothing is pinned, the configuration says it is for development and
    it counts as unverified; its environment is the declared variables and, of the
    ambient ones, those forwarded and not declared. A configuration without a pin
    that is not for development never launches. A supervisor's frozen configuration
    gives each later launch the variables of the first moment, whatever the ambient
    ones have become. *)
Theorem launch_policy `{Digest} h prefix c :
  (forall cmd, launch_plugin h prefix c = Ok cmd ->
    is_executable_file h (program cmd) = true /\ names h prefix c (program cmd) /\
    match sha256 c with
    | Some pin => verified cmd = true /\ pinned h (program cmd) pin
    | None => verified cmd = false /\ dev c = true
    end /\
    arguments cmd = args c /\
    forall k, variables cmd !! k =
      match env c !! k with
      | Some v => Some v
      | None => if bool_decide (k ∈ inherit_env c) then ambient h !! k else None
      end) /\
  (sha256 c = None -> dev c = false -> exists e, launch_plugin h prefix c = Err e) /\
  (forall h' k, child_env h' (freeze h c) !! k =
      match env c !! k with
      | Some v => Some v
      | None => if bool_decide (k ∈ inherit_env c) then unicode_var h k else None
      end).
Proof.
  split_and!.
  - intros cmd. unfold launch_plugin. destruct (resolve_plugin_binary h prefix c) as [p|] eqn:Er; [|done]. cbn [rbind].
    destruct (enforce_checksum h p c) as [v|] eqn:Ev; [|done]. intros [= <-]. cbn.
    apply resolve_spec in Er as [He Hn]. apply enforce_checksum_spec in Ev.
    split_and!; [done|done| |done|intros k; apply lookup_child_env]. by destruct (sha256 c).
  - intros Hs Hd. unfold launch_plugin. destruct (resolve_plugin_binary h prefix c) as [p|e]; [|by exists e]. cbn [rbind].
    unfold enforce_checksum. rewrite Hs, Hd. by eexists.
  - intros h' k. rewrite lookup_child_env, lookup_freeze.
    destruct (env c !! k); [done|]. case_bool_decide; [|done]. by destruct (unicode_var h k).
Qed.

(** With no search path, or an empty directory on it, the executable that is found and
    verified is the bare name, in the working directory; a bare name is then looked up
    again, on the child's search path, when it is spawned. *)
Lemma resolved_bare_name h prefix c :
  path c = None -> ambient h !! "PATH" = None -> is_executable_file h (prefix +:+ "-" +:+ kind c) = true ->
  starts_with_char "/" (prefix +:+ "-" +:+ kind c) = false ->
  resolve_plugin_binary h prefix c = Ok (prefix +:+ "-" +:+ kind c).
Proof.
  intros Hp Ha He Hs. unfold resolve_plugin_binary, resolve_on_search_path. rewrite Hp, Ha. cbn [default split map find].
  unfold path_join. rewrite Hs. cbn [is_empty orb].
  change (EmptyString +:+ (prefix +:+ "-" +:+ kind c)) with (prefix +:+ "-" +:+ kind c). by rewrite He.
Qed.

Lemma launch_policy_witness :
  let h := mkHost {[ "PATH" := "/bin:/opt/p"; "HOME" := "/h" ]}
             (fun p => if bool_decide (p = "/opt/p/pre-k") then Some (true, 493) else None) (fun _ => Ok [1; 2]) in
  let c := inherit_env_var (with_sha256 (plugin_new "k") " 0B16 ") "PATH" in
  let D : Digest := {| digest bs := [11; 22] |} in
  is_executable_file h "/opt/p/pre-k" = true /\ @pinned D h "/opt/p/pre-k" " 0B16 ".
Proof.
  intros h c D. destruct (@launch_policy D h "pre" c) as [Hl _].
  destruct (Hl (mkCommand "/opt/p/pre-k" [] {[ "PATH" := "/bin:/opt/p" ]} true)) as (He & _ & [_ Hp] & _);
    [vm_compute; reflexivity|]. by split.
Defined.
