(* ===== verification/Supervisor.v ===== *)
(** * A provider that survives its plugin dying

    Models [crates/sandbox-driver-protocol/src/supervisor.rs]: [PluginSupervisor] keeps
    at most one live generation, replaces a closed one under its lock before a call, and
    never replays a call. A step is what one task does between two awaits; tasks are
    callers, or shutdowns, and any of them may be dropped where it waits. What launching
    a plugin and probing its health answer, and when a transport closes, is up to the
    environment. A launched process is a number; the 64-bit count of generations is one
    too. *)

From S2P Require Import Prelude Text Capabilities Errors.

#[local] Open Scope string_scope.
#[local] Open Scope list_scope.
#[local] Open Scope nat_scope.

(** ** Health *)

Inductive HealthStatus := HsOk | HsUnreachable | HsUnauthorized | HsUnknown.

Record ProviderHealth := mkHealth {
  h_status : HealthStatus;
  h_message : option string;
  missing_permissions : list string;
  required_permissions : list string;
  identity : option string;
}.

Definition provider_error_with (kind message code : string) : Error :=
  Provider (mkProviderError kind (Some code) message false None []).

(** Why a launched plugin must not serve. *)
Definition health_refusal (kind : string) (h : ProviderHealth) : option Error :=
  let detail := default "the plugin gave no detail" (h_message h) in
  match h_status h with
  | HsUnreachable =>
      Some (provider_error_with kind ("the plugin's backend is unreachable: " +:+ detail) "unreachable")
  | HsUnauthorized =>
      let reason := "the plugin's backend rejected its credential: " +:+ detail in
      let reason := match missing_permissions h with
                    | [] => reason
                    | missing => reason +:+ "; missing permissions: " +:+ String.concat ", " missing
                    end in
      Some (Auth (mkAuthError kind reason []))
  | _ => None
  end.

Definition identity_changed (kind : string) (first replacement : option string) : Error :=
  provider_error_with kind
    ("the replacement plugin reports resource namespace " +:+ default "none" replacement +:+
     ", but the first generation reported " +:+ default "none" first +:+
     "; recovery does not continue into another account") "identity_changed".

(** ** State *)

Record PluginGeneration := mkGeneration {
  process : nat;
  number : nat;
  g_path : string;
  g_verified : bool;
  health : ProviderHealth;
}.

(** What a caller wants of the generation it gets. *)
Inductive Wanted := WantProvider | WantSnapshots | WantVolumes.

(** Where a task stands. *)
Inductive Pc :=
  | Calling (w : Wanted)                (** waits for the lock, to call *)
  | Closing (w : Wanted)                (** holds the lock, shutting the closed generation down *)
  | Launching (w : Wanted)              (** holds the lock, launching *)
  | Probing (w : Wanted) (p : nat) (path : string) (verified : bool)   (** holds it, awaiting [p]'s health *)
  | Refusing (e : Error)                (** holds it, shutting a refused plugin down *)
  | Serving (w : Wanted) (g : PluginGeneration)   (** got a generation, and let go of the lock *)
  | Stopping                            (** waits for the lock, to shut down *)
  | Reaping                             (** holds it, shutting the live generation down *)
  | Finished (e : option Error).        (** returned, dropped, or called the provider *)

Record State := mkState {
  live : option PluginGeneration;
  served : nat;
  lock : option nat;
  tasks : nat -> Pc;
  closed : nat -> bool;
  launched : list nat;
  told : list nat;
  dropped : list nat;
  generations : list PluginGeneration;
  obtained : list (nat * PluginGeneration);
  calls : list (nat * nat);
}.

Definition set_task (s : State) (i : nat) (p : Pc) : State :=
  mkState (live s) (served s) (lock s) (fun j => if j =? i then p else tasks s j) (closed s)
    (launched s) (told s) (dropped s) (generations s) (obtained s) (calls s).
Definition set_lock (s : State) (l : option nat) : State :=
  mkState (live s) (served s) l (tasks s) (closed s)
    (launched s) (told s) (dropped s) (generations s) (obtained s) (calls s).
Definition set_live (s : State) (g : option PluginGeneration) : State :=
  mkState g (served s) (lock s) (tasks s) (closed s)
    (launched s) (told s) (dropped s) (generations s) (obtained s) (calls s).

(** [provider.shutdown()] is called on a process. *)
Definition tell (s : State) (p : nat) : State :=
  mkState (live s) (served s) (lock s) (tasks s) (closed s)
    (launched s) (p :: told s) (dropped s) (generations s) (obtained s) (calls s).
Definition start_process (s : State) (p : nat) : State :=
  mkState (live s) (served s) (lock s) (tasks s) (closed s)
    (p :: launched s) (told s) (dropped s) (generations s) (obtained s) (calls s).

(** The only reference to a process goes, which kills it. *)
Definition drop_process (s : State) (p : nat) : State :=
  mkState (live s) (served s) (lock s) (tasks s) (closed s)
    (launched s) (told s) (p :: dropped s) (generations s) (obtained s) (calls s).

(** The caller leaves [current] with a generation. *)
Definition obtain (s : State) (i : nat) (w : Wanted) (g : PluginGeneration) : State :=
  let s := set_task (set_lock s None) i (Serving w g) in
  mkState (live s) (served s) (lock s) (tasks s) (closed s)
    (launched s) (told s) (dropped s) (generations s) (obtained s ++ [(i, g)]) (calls s).

Definition finish (s : State) (i : nat) (e : option Error) : State :=
  set_task (set_lock s None) i (Finished e).

Section Supervisor.

(** The configured kind, the namespace the first generation reported, and the services
    the provider of a process declared. *)
Context (kind : string) (first_identity : option string) (serves : nat -> Wanted -> bool).

(** ** [current] *)

(** The lock is taken: the live generation if its transport is open; a closed one is
    taken and told to shut down; otherwise a launch begins. *)
Definition current_locked (s : State) (i : nat) (w : Wanted) : State :=
  match live s with
  | Some g =>
      if closed s (process g) then set_task (tell (set_live (set_lock s (Some i)) None) (process g)) i (Closing w)
      else obtain s i w g
  | None => set_task (set_lock s (Some i)) i (Launching w)
  end.

(** [launch_plugin] answers. *)
Definition plugin_launched (s : State) (i : nat) (w : Wanted) (r : result (nat * string * bool) Error) : State :=
  match r with
  | Err e => finish s i (Some e)
  | Ok (p, path, verified) => set_task (start_process s p) i (Probing w p path verified)
  end.

(** The replacement becomes the live generation. *)
Definition install (s : State) (g : PluginGeneration) : State :=
  mkState (Some g) (number g) (lock s) (tasks s) (closed s)
    (launched s) (told s) (dropped s) (generations s ++ [g]) (obtained s) (calls s).

(** The health check answers. *)
Definition probed (s : State) (i : nat) (w : Wanted) (p : nat) (path : string) (verified : bool)
    (h : result ProviderHealth Error) : State :=
  match h with
  | Err e => set_task (tell s p) i (Refusing e)
  | Ok h =>
      match health_refusal kind h with
      | Some e => set_task (tell s p) i (Refusing e)
      | None =>
          let replacement := mkGeneration p (served s + 1) path verified h in
          if bool_decide (identity h = first_identity) then obtain (install s replacement) i w replacement
          else set_task (tell s p) i (Refusing (identity_changed kind first_identity (identity h)))
      end
  end.

(** ** The calls *)

(** The service a call needs of its generation. *)
Definition service (w : Wanted) (g : PluginGeneration) : option Error :=
  match w with
  | WantProvider => None
  | WantSnapshots => if serves (process g) w then None else Some (Unsupported CapSnapshots)
  | WantVolumes => if serves (process g) w then None else Some (Unsupported CapVolumes)
  end.

(** The provider is called, once; its answer is the caller's. *)
Definition call_provider (s : State) (i : nat) (w : Wanted) (g : PluginGeneration) : State :=
  match service w g with
  | Some e => set_task s i (Finished (Some e))
  | None =>
      let s := set_task s i (Finished None) in
      mkState (live s) (served s) (lock s) (tasks s) (closed s)
        (launched s) (told s) (dropped s) (generations s) (obtained s) (calls s ++ [(i, process g)])
  end.

(** ** [shutdown] *)

Definition shutdown_locked (s : State) (i : nat) : State :=
  match live s with
  | Some g => set_task (tell (set_live (set_lock s (Some i)) None) (process g)) i Reaping
  | None => finish s i None
  end.

(** ** Steps *)

(** A task that is dropped: the lock it holds is released, and a plugin that no
    generation owns is dropped with it. A launch may be dropped after its process
    started. *)
Definition drop_task (s : State) (i : nat) : State :=
  match tasks s i with
  | Calling _ | Serving _ _ | Stopping => set_task s i (Finished None)
  | Probing _ p _ _ => drop_process (finish s i None) p
  | Closing _ | Launching _ | Refusing _ | Reaping => finish s i None
  | Finished _ => s
  end.

Inductive step (s : State) : State -> Prop :=
  | step_current i w : tasks s i = Calling w -> lock s = None -> step s (current_locked s i w)
  | step_closed i w : tasks s i = Closing w -> step s (set_task s i (Launching w))
  | step_launched i w r : tasks s i = Launching w ->
      match r with Ok (p, _, _) => p ∉ launched s | Err _ => True end -> step s (plugin_launched s i w r)
  | step_probed i w p path verified h : tasks s i = Probing w p path verified ->
      step s (probed s i w p path verified h)
  | step_refused i e : tasks s i = Refusing e -> step s (finish s i (Some e))
  | step_call i w g : tasks s i = Serving w g -> step s (call_provider s i w g)
  | step_shutdown i : tasks s i = Stopping -> lock s = None -> step s (shutdown_locked s i)
  | step_reaped i e : tasks s i = Reaping -> step s (finish s i e)
  | step_drop i : step s (drop_task s i)
  | step_drop_launched i w p : tasks s i = Launching w -> p ∉ launched s ->
      step s (drop_process (start_process (finish s i None) p) p)
  | step_close p : step s (mkState (live s) (served s) (lock s) (tasks s)
      (fun q => if q =? p then true else closed s q)
      (launched s) (told s) (dropped s) (generations s) (obtained s) (calls s)).
End Supervisor.

(** ** [launch] *)

(** The first generation, with the callers and shutdowns to come; or why there is none,
    with the processes told to shut down. *)
Definition supervisor_launch (kind : string) (todo : nat -> Pc) (launched : result (nat * string * bool) Error)
    (h : result ProviderHealth Error) : result State (Error * list nat) :=
  match launched with
  | Err e => Err (e, [])
  | Ok (p, path, verified) =>
      match h with
      | Err e => Err (e, [p])
      | Ok h =>
          match health_refusal kind h with
          | Some e => Err (e, [p])
          | None =>
              let first := mkGeneration p 1 path verified h in
              Ok (mkState (Some first) (number first) None todo (fun _ => false) [p] [] [] [first] [] [])
          end
      end
  end.

(** ** The invariant *)

Section Invariant.
Context (kind : string) (first_identity : option string) (serves : nat -> Wanted -> bool).

Definition ended (s : State) (p : nat) : Prop := p ∈ told s \/ p ∈ dropped s.

(** What a task's place says of the lock and of what it did. *)
Definition task_ok (s : State) (i : nat) : Prop :=
  match tasks s i with
  | Calling _ | Stopping => lock s <> Some i /\ i ∉ (obtained s).*1
  | Closing _ | Launching _ | Refusing _ | Reaping => lock s = Some i /\ i ∉ (obtained s).*1
  | Probing _ p _ _ => lock s = Some i /\ i ∉ (obtained s).*1 /\ p ∈ launched s
  | Serving _ g => lock s <> Some i /\ (i, g) ∈ obtained s /\ i ∉ (calls s).*1
  | Finished _ => lock s <> Some i
  end.

(** A health report that lets a plugin serve for this supervisor. *)
Definition accepted (h : ProviderHealth) : Prop :=
  health_refusal kind h = None /\ identity h = first_identity.

Record inv (s : State) : Prop := {
  inv_task i : task_ok s i;
  inv_lock : lock s <> None -> live s = None;
  inv_ended p : p ∈ launched s ->
    ended s p \/ (exists g, live s = Some g /\ process g = p) \/
    exists i w path verified, tasks s i = Probing w p path verified;
  inv_numbers : map number (generations s) = seq 1 (served s);
  inv_accepted : Forall (fun g => accepted (health g)) (generations s);
  inv_dead g : g ∈ generations s -> live s = Some g \/ process g ∈ told s;
  inv_live g : live s = Some g -> g ∈ generations s /\ number g = served s /\ process g ∈ launched s;
  inv_sorted : StronglySorted le (map (fun o => number (snd o)) (obtained s));
  inv_obtained o : o ∈ obtained s -> snd o ∈ generations s;
  inv_once : NoDup (obtained s).*1;
  inv_calls c : c ∈ calls s -> exists g, (fst c, g) ∈ obtained s /\ process g = snd c;
  inv_calls_once : NoDup (calls s).*1;
}.

Ltac task j i := destruct (Nat.eqb_spec j i) as [->|?].

(** Only the task moves, the lock and the shared state being as they were. *)
Lemma supervisor_inv_move s i p : inv s -> (forall w q path v, tasks s i <> Probing w q path v) -> task_ok (set_task s i p) i ->
  inv (set_task s i p).
Proof.
  intros [] Hp Hi. split; cbn; try done.
  - intros j. task j i; [done|]. specialize (inv_task0 j). unfold task_ok in *. cbn.
    by destruct (Nat.eqb_spec j i).
  - intros q Hq. destruct (inv_ended0 q Hq) as [?|[?|(j & w & path & v & Hj)]]; [by left|by right; left|]. right. right.
    exists j, w, path, v. task j i; [by apply Hp in Hj|done].
Qed.

(** The holder of the lock lets it go. *)
Lemma supervisor_inv_finish s i e : inv s -> lock s = Some i \/ lock s = None ->
  (forall w q path v, tasks s i = Probing w q path v -> ended s q) -> inv (finish s i e).
Proof.
  intros [] Hl Hp. split; cbn; try done.
  - intros j. specialize (inv_task0 j). unfold task_ok in *. cbn. task j i; [by rewrite ?Nat.eqb_refl|].
    destruct (tasks s j); naive_solver.
  - intros q Hq. destruct (inv_ended0 q Hq) as [?|[?|(j & w & path & v & Hj)]]; [by left|by right; left|].
    task j i; [left; by eapply Hp|]. right. right. exists j, w, path, v. by destruct (Nat.eqb_spec j i).
Qed.

(** A process more is told, or dropped. *)
Lemma inv_tell s p : inv s -> inv (tell s p).
Proof.
  intros []. split; cbn; try done.
  - intros q Hq. unfold ended in *. cbn. specialize (inv_ended0 q Hq). set_solver.
  - intros g Hg. specialize (inv_dead0 g Hg). set_solver.
Qed.

Lemma supervisor_inv_dropped s p : inv s -> inv (drop_process s p).
Proof.
  intros []. split; cbn; try done.
  intros q Hq. unfold ended in *. cbn. specialize (inv_ended0 q Hq). set_solver.
Qed.

(** The live generation is taken by a task that had no lock, and told. *)
Lemma supervisor_inv_take s i g p : inv s -> lock s = None -> live s = Some g -> i ∉ (obtained s).*1 ->
  p = Reaping \/ (exists w, p = Closing w) -> (forall w q path v, tasks s i <> Probing w q path v) ->
  inv (set_task (tell (set_live (set_lock s (Some i)) None) (process g)) i p).
Proof.
  intros [] Hl Hg Hi Hp Hnp. split; cbn; try done.
  - intros j. specialize (inv_task0 j). unfold task_ok in *. cbn. task j i.
    + destruct Hp as [->|[w ->]]; by split.
    + destruct (tasks s j); naive_solver.
  - intros q Hq. unfold ended in *. cbn. destruct (inv_ended0 q Hq) as [[?|?]|[(g' & Hg' & <-)|(j & w & path & v & Hj)]].
    + left. left. by right.
    + left. by right.
    + left. left. replace g' with g by congruence. left.
    + right. right. exists j, w, path, v. task j i; [by apply Hnp in Hj|done].
  - intros g' Hg'. right. destruct (inv_dead0 g' Hg') as [?|?]; [|by right]. replace g' with g by congruence. left.
Qed.

(** A task takes the free lock and finds nothing live. *)
Lemma inv_enter s i w : inv s -> lock s = None -> live s = None -> i ∉ (obtained s).*1 ->
  (forall w q path v, tasks s i <> Probing w q path v) ->
  inv (set_task (set_lock s (Some i)) i (Launching w)).
Proof.
  intros [] Hl Hg Hi Hnp. split; cbn; try done.
  - intros j. specialize (inv_task0 j). unfold task_ok in *. cbn. task j i; [done|].
    destruct (tasks s j); naive_solver.
  - intros q Hq. destruct (inv_ended0 q Hq) as [?|[?|(j & w' & path & v & Hj)]]; [by left|by right; left|].
    right. right. exists j, w', path, v. task j i; [by apply Hnp in Hj|done].
Qed.

(** A task leaves with a generation of the list no other is later than. *)
Lemma inv_obtain s i w g : inv s -> live s = Some g -> i ∉ (obtained s).*1 ->
  (lock s = None \/ lock s = Some i) ->
  (forall w q path v, tasks s i = Probing w q path v -> q = process g) ->
  inv (obtain s i w g).
Proof.
  intros [] Hg Hi Hl Hnp. destruct (inv_live0 g Hg) as (Hin & Hn & Hla). split; cbn; try done.
  - intros j. specialize (inv_task0 j). unfold task_ok in *. cbn. rewrite fmap_app.
    task j i; [|destruct (tasks s j); set_solver].
    split_and!; [done|set_solver|]. intros ([i' p] & Hc & Hin')%list_elem_of_fmap. cbn in Hc. subst i'.
    destruct (inv_calls0 _ Hin') as (g' & Ho & _). apply Hi. apply list_elem_of_fmap. by exists (i, g').
  - intros q Hq. destruct (inv_ended0 q Hq) as [?|[?|(j & w' & path & v & Hj)]]; [by left|by right; left|].
    task j i; [right; left; exists g; split; [done|symmetry; by eapply Hnp]|].
    right. right. exists j, w', path, v. by destruct (Nat.eqb_spec j i).
  - rewrite map_app. cbn. apply StronglySorted_app_2; [|done|repeat constructor].
    intros x y Hx Hy. apply list_elem_of_singleton in Hy as ->. rewrite Hn.
    apply list_elem_of_fmap in Hx as (o & -> & Ho). specialize (inv_obtained0 o Ho).
    assert (Hs : number (snd o) ∈ seq 1 (served s)) by (rewrite <- inv_numbers0; apply list_elem_of_fmap; eauto).
    apply elem_of_seq in Hs. lia.
  - intros o [Ho| ->%list_elem_of_singleton]%elem_of_app; [by apply inv_obtained0|done].
  - rewrite fmap_app. apply NoDup_app. split_and!; [done| |apply NoDup_singleton].
    intros j Hj ->%list_elem_of_singleton. by apply Hi.
  - intros c Hc. destruct (inv_calls0 c Hc) as (g' & ? & ?). exists g'. set_solver.
Qed.

(** A process starts, for the task that launches. *)
Lemma supervisor_inv_start s i w p path verified : inv s -> tasks s i = Launching w ->
  inv (set_task (start_process s p) i (Probing w p path verified)).
Proof.
  intros [] Hi. pose proof (inv_task0 i) as Ht. unfold task_ok in Ht. rewrite Hi in Ht. split; cbn; try done.
  - intros j. specialize (inv_task0 j). unfold task_ok in *. cbn. task j i; [set_solver|].
    destruct (tasks s j); set_solver.
  - intros q [->|Hq]%elem_of_cons; [right; right; exists i, w, path, verified; by rewrite Nat.eqb_refl|].
    destruct (inv_ended0 q Hq) as [?|[?|(j & w' & path' & v & Hj)]]; [by left|by right; left|].
    right. right. exists j, w', path', v. task j i; [congruence|done].
  - intros g Hg. rewrite inv_lock0 in Hg; [done|]. naive_solver.
Qed.

(** A process started and dropped with the task that launched it. *)
Lemma inv_cut s p : inv s -> inv (drop_process (start_process s p) p).
Proof.
  intros []. split; cbn; try done.
  - intros j. specialize (inv_task0 j). unfold task_ok in *. cbn. destruct (tasks s j); set_solver.
  - intros q [->|Hq]%elem_of_cons; [left; right; left|].
    specialize (inv_ended0 q Hq). unfold ended in *. cbn. set_solver.
  - intros g Hg. specialize (inv_live0 g Hg). set_solver.
Qed.

(** A probed plugin is refused. *)
Lemma inv_refuse s i w p path verified e : inv s -> tasks s i = Probing w p path verified ->
  inv (set_task (tell s p) i (Refusing e)).
Proof.
  intros Hinv Hi. pose proof (inv_task s Hinv i) as Ht. unfold task_ok in Ht. rewrite Hi in Ht.
  apply (inv_tell s p) in Hinv. destruct Hinv. split; cbn; try done.
  - intros j. specialize (inv_task0 j). unfold task_ok in *. cbn. task j i; [naive_solver|done].
  - intros q Hq. destruct (inv_ended0 q Hq) as [?|[?|(j & w' & path' & v & Hj)]]; [by left|by right; left|].
    cbn in Hj. task j i; [|right; right; exists j, w', path', v; by destruct (Nat.eqb_spec j i)].
    rewrite Hi in Hj. injection Hj as <- <- <- <-. left. left. cbn. left.
Qed.

(** The replacement is installed under the lock its task holds. *)
Lemma inv_install s i w p path verified h : inv s -> tasks s i = Probing w p path verified -> accepted h ->
  inv (obtain (install s (mkGeneration p (served s + 1) path verified h)) i w (mkGeneration p (served s + 1) path verified h)).
Proof.
  intros Hinv Hi Hh. pose proof (inv_task s Hinv i) as Ht. unfold task_ok in Ht. rewrite Hi in Ht.
  destruct Ht as (Hl & Ho & Hp). assert (Hlive : live s = None) by (apply (inv_lock s Hinv); congruence).
  set (g := mkGeneration p (served s + 1) path verified h).
  assert (Hsorted : forall o, o ∈ obtained s -> number (snd o) <= served s).
  { intros o Ho'. pose proof (inv_obtained s Hinv o Ho') as Hg.
    assert (Hs : number (snd o) ∈ seq 1 (served s)) by (rewrite <- (inv_numbers s Hinv); apply list_elem_of_fmap; eauto).
    apply elem_of_seq in Hs. lia. }
  destruct Hinv. split; cbn; try done.
  - intros j. specialize (inv_task0 j). unfold task_ok in *. cbn. rewrite fmap_app. task j i.
    + split_and!; [done|set_solver|]. intros ([i' q] & Hc & Hin')%list_elem_of_fmap. cbn in Hc. subst i'.
      destruct (inv_calls0 _ Hin') as (g' & Ho' & _). apply Ho. apply list_elem_of_fmap. by exists (i, g').
    + destruct (tasks s j); set_solver.
  - intros q Hq. destruct (inv_ended0 q Hq) as [?|[(g' & ? & _)|(j & w' & path' & v & Hj)]]; [by left|congruence|].
    task j i; [right; left; exists g; split; [done|cbn; congruence]|].
    right. right. exists j, w', path', v. by destruct (Nat.eqb_spec j i).
  - rewrite map_app, inv_numbers0. cbn. by rewrite Nat.add_1_r, seq_S.
  - apply Forall_app. split; [done|]. constructor; [done|constructor].
  - intros g' [Hg'| ->%list_elem_of_singleton]%elem_of_app; [|by left].
    destruct (inv_dead0 g' Hg') as [?|?]; [congruence|by right].
  - intros g' [= <-]. split_and!; [set_solver|done|done].
  - rewrite map_app. cbn. apply StronglySorted_app_2; [|done|repeat constructor].
    intros x y Hx Hy. apply list_elem_of_singleton in Hy as ->. apply list_elem_of_fmap in Hx as (o & -> & Hx).
    specialize (Hsorted o Hx). lia.
  - intros o [Hin| ->%list_elem_of_singleton]%elem_of_app; [apply elem_of_app; left; by apply inv_obtained0|set_solver].
  - rewrite fmap_app. apply NoDup_app. split_and!; [done| |apply NoDup_singleton].
    intros j Hj ->%list_elem_of_singleton. by apply Ho.
  - intros c Hc. destruct (inv_calls0 c Hc) as (g' & ? & ?). exists g'. set_solver.
Qed.

Lemma inv_call s i w g : inv s -> tasks s i = Serving w g -> inv (call_provider serves s i w g).
Proof.
  intros Hinv Hi. pose proof (inv_task s Hinv i) as Ht. unfold task_ok in Ht. rewrite Hi in Ht.
  destruct Ht as (Hl & Ho & Hc). unfold call_provider. destruct (service serves w g) as [e|].
  { apply supervisor_inv_move; [done|by intros ????; rewrite Hi|]. unfold task_ok. cbn. by rewrite Nat.eqb_refl. }
  destruct Hinv. split; cbn; try done.
  - intros j. specialize (inv_task0 j). unfold task_ok in *. cbn. task j i; [done|].
    destruct (tasks s j); rewrite ?fmap_app; set_solver.
  - intros q Hq. destruct (inv_ended0 q Hq) as [?|[?|(j & w' & path' & v & Hj)]]; [by left|by right; left|].
    right. right. exists j, w', path', v. task j i; [congruence|done].
  - intros c [Hin| ->%list_elem_of_singleton]%elem_of_app; [by apply inv_calls0|]. by exists g.
  - rewrite fmap_app. apply NoDup_app. split_and!; [done| |apply NoDup_singleton].
    intros j Hj ->%list_elem_of_singleton. by apply Hc.
Qed.

Lemma inv_fact s i : inv s -> task_ok s i.
Proof. intros []. done. Qed.

Ltac place i := match goal with Hinv : inv ?s, Hi : tasks ?s i = _ |- _ =>
  let Ht := fresh "Ht" in pose proof (inv_fact s i Hinv) as Ht; unfold task_ok in Ht; rewrite Hi in Ht end.

Lemma inv_dropping s i : inv s -> inv (drop_task s i).
Proof.
  intros Hinv. unfold drop_task. destruct (tasks s i) as [w|w|w|w p path v|e|w g| | |e] eqn:Hi; place i; try done.
  all: try (apply supervisor_inv_move; [done|congruence|unfold task_ok; cbn; rewrite Nat.eqb_refl; tauto]).
  all: try (apply supervisor_inv_finish; [done|tauto|congruence]).
  apply (supervisor_inv_finish (drop_process s p) i None); [by apply supervisor_inv_dropped|tauto|].
  cbn. intros w' q path' v'. rewrite Hi. intros [= <- <- <- <-]. right. cbn. left.
Qed.

Lemma inv_next s s' : step kind first_identity serves s s' -> inv s -> inv s'.
Proof.
  intros Hstep Hinv. destruct Hstep as [i w Hi Hl|i w Hi|i w r Hi Hr|i w p path v h Hi|i e Hi|i w g Hi|i Hi Hl|i e Hi|i|i w p Hi Hp|p].
  - place i. unfold current_locked. destruct (live s) as [g|] eqn:Hg.
    + destruct (closed s (process g)).
      * apply supervisor_inv_take; try done; [tauto|right; by exists w|congruence].
      * apply inv_obtain; [done|done|tauto|by left|congruence].
    + apply inv_enter; try done; [tauto|congruence].
  - place i. apply supervisor_inv_move; [done|congruence|]. unfold task_ok. cbn. rewrite Nat.eqb_refl. tauto.
  - place i. unfold plugin_launched. destruct r as [[[p path] v]|e]; [by apply supervisor_inv_start|].
    apply supervisor_inv_finish; [done|tauto|congruence].
  - unfold probed. destruct h as [h|e]; [|by eapply inv_refuse]. destruct (health_refusal kind h) eqn:Eh; [by eapply inv_refuse|].
    case_bool_decide; [by apply inv_install|by eapply inv_refuse].
  - place i. apply supervisor_inv_finish; [done|tauto|congruence].
  - by apply inv_call.
  - place i. unfold shutdown_locked. destruct (live s) as [g|] eqn:Hg.
    + apply supervisor_inv_take; try done; [tauto|by left|congruence].
    + apply supervisor_inv_finish; [done|by right|congruence].
  - place i. apply supervisor_inv_finish; [done|tauto|congruence].
  - by apply inv_dropping.
  - place i. apply inv_cut. apply supervisor_inv_finish; [done|tauto|congruence].
  - destruct Hinv. split; done.
Qed.

Lemma supervisor_inv_steps s s' : rtc (step kind first_identity serves) s s' -> inv s -> inv s'.
Proof. induction 1; [done|]. eauto using inv_next. Qed.

(** What has been obtained stays, and more comes after it. *)
Lemma obtained_next s s' : step kind first_identity serves s s' -> obtained s `prefix_of` obtained s'.
Proof.
  intros Hstep. destruct Hstep; try done.
  - unfold current_locked. destruct (live s); [|done]. destruct (closed s _); [done|]. by eexists.
  - unfold plugin_launched. by destruct r as [[[? ?] ?]|].
  - unfold probed. destruct h; [|done]. destruct (health_refusal _ _); [done|]. case_bool_decide; [by eexists|done].
  - unfold call_provider. by destruct (service _ _ _).
  - unfold shutdown_locked. by destruct (live s).
  - unfold drop_task. by destruct (tasks s i).
Qed.

Lemma obtained_steps s s' : rtc (step kind first_identity serves) s s' -> obtained s `prefix_of` obtained s'.
Proof. induction 1; [done|]. etrans; [by eapply obtained_next|done]. Qed.

(** A task that has returned does nothing more. *)
Lemma finished_next s s' i e : step kind first_identity serves s s' -> tasks s i = Finished e ->
  tasks s' i = Finished e /\ forall p, (i, p) ∈ calls s' -> (i, p) ∈ calls s.
Proof.
  intros Hstep Hi. assert (Hset : forall t j pc, tasks t i = Finished e -> tasks s j <> Finished e \/ pc = Finished e ->
    tasks (set_task t j pc) i = Finished e).
  { intros t j pc Ht Hj. cbn. task i j; [|done]. destruct Hj; [congruence|done]. }
  destruct Hstep; try (split; [by apply Hset; [|left; congruence]|done]).
  - split; [|by unfold current_locked; destruct (live s); [destruct (closed s _)|]].
    unfold current_locked, obtain. destruct (live s); [destruct (closed s _)|]; apply Hset; (done || left; congruence).
  - split; [|by unfold plugin_launched; destruct r as [[[? ?] ?]|]].
    unfold plugin_launched. destruct r as [[[? ?] ?]|]; apply Hset; (done || left; congruence).
  - split; [|by unfold probed; destruct h; [destruct (health_refusal _ _); [|case_bool_decide]|]].
    unfold probed, obtain. destruct h; [destruct (health_refusal _ _); [|case_bool_decide]|];
      apply Hset; (done || left; congruence).
  - unfold call_provider. destruct (service _ _ _); [split; [by apply Hset; [|left; congruence]|done]|].
    split; [apply Hset; [done|left; congruence]|]. cbn. intros p Hp. assert (i <> i0) by congruence. set_solver.
  - split; [|by unfold shutdown_locked; destruct (live s)].
    unfold shutdown_locked. destruct (live s); apply Hset; (done || left; congruence).
  - unfold drop_task. destruct (tasks s i0) eqn:Hj; try done; (split; [apply Hset; (done || left; congruence)|done]).
  - done.
Qed.

Lemma finished_steps s s' i e : rtc (step kind first_identity serves) s s' -> tasks s i = Finished e ->
  tasks s' i = Finished e /\ forall p, (i, p) ∈ calls s' -> (i, p) ∈ calls s.
Proof.
  induction 1 as [|s1 s2 s3 Hs _ IH]; [done|]. intros [H2 Hc]%(finished_next _ _ _ _ Hs).
  destruct (IH H2) as [? Hc']. split; [done|]. auto.
Qed.
End Invariant.

(** A task that has not begun. *)
Definition waiting (p : Pc) : Prop := p = Stopping \/ exists w, p = Calling w.

Lemma launch_inv kind todo launched h s : (forall i, waiting (todo i)) ->
  supervisor_launch kind todo launched (Ok h) = Ok s -> inv kind (identity h) s.
Proof.
  intros Ht. unfold supervisor_launch. destruct launched as [[[p path] v]|]; [|done].
  destruct (health_refusal kind h) eqn:Eh; [done|]. intros [= <-]. split; cbn; try done.
  - intros i. unfold task_ok. cbn. destruct (Ht i) as [->|[w ->]]; set_solver.
  - intros q ->%list_elem_of_singleton. right. left. by eexists.
  - by repeat constructor.
  - intros g ->%list_elem_of_singleton. by left.
  - intros g [= <-]. set_solver.
  - constructor.
  - intros o Ho. by apply not_elem_of_nil in Ho.
  - constructor.
  - intros c Hc. by apply not_elem_of_nil in Hc.
  - constructor.
Qed.

Section Properties.
Context (kind : string) (serves : nat -> Wanted -> bool) (todo : nat -> Pc)
  (first : result (nat * string * bool) Error) (h : ProviderHealth) (s0 s : State).
Context (Htodo : forall i, waiting (todo i)).
Context (Hlaunch : supervisor_launch kind todo first (Ok h) = Ok s0).
Context (Hreach : rtc (step kind (identity h) serves) s0 s).

Lemma reached : inv kind (identity h) s.
Proof. eapply supervisor_inv_steps; [done|by eapply launch_inv]. Qed.

(** C25. At most one plugin is alive. However callers and shutdowns interleave and
    wherever they are dropped, two processes are never both neither told to shut down
    nor killed; the generations that served are numbered from 1 in launch order, each
    was accepted by its health check and addressed the namespace of the first; and
    every generation but the last was told to shut down, so that a handle with a lower
    number is dead. *)
Theorem supervisor_generations :
  (forall p q, p ∈ launched s -> q ∈ launched s -> ~ ended s p -> ~ ended s q -> p = q) /\
  map number (generations s) = seq 1 (served s) /\
  Forall (fun g => health_refusal kind (health g) = None /\ identity (health g) = identity h) (generations s) /\
  (forall g, g ∈ generations s -> number g < served s -> process g ∈ told s) /\
  (forall i j, lock s = Some i -> lock s = Some j -> i = j /\ live s = None /\ lock (drop_task s i) = None).
Proof.
  pose proof reached as []. split_and!; [|done|exact inv_accepted0| |].
  - intros p q Hp Hq Hep Heq. destruct (inv_ended0 p Hp) as [?|[(g & Hg & <-)|(i & w & path & v & Hi)]]; [done| |].
    + destruct (inv_ended0 q Hq) as [?|[(g' & Hg' & <-)|(j & w' & path' & v' & Hj)]]; [done|congruence|].
      specialize (inv_task0 j). unfold task_ok in inv_task0. rewrite Hj in inv_task0.
      assert (live s = None) by (apply inv_lock0; naive_solver). congruence.
    + pose proof (inv_task0 i) as Hti. unfold task_ok in Hti. rewrite Hi in Hti.
      assert (live s = None) by (apply inv_lock0; naive_solver).
      destruct (inv_ended0 q Hq) as [?|[(g' & Hg' & <-)|(j & w' & path' & v' & Hj)]]; [done|congruence|].
      pose proof (inv_task0 j) as Htj. unfold task_ok in Htj. rewrite Hj in Htj.
      assert (i = j) as -> by naive_solver. congruence.
  - intros g Hg Hn. destruct (inv_dead0 g Hg) as [Hl|?]; [|done]. destruct (inv_live0 g Hl) as (_ & ? & _). lia.
  - intros i j Hi Hj. split_and!; [congruence|apply inv_lock0; congruence|].
    specialize (inv_task0 i). unfold task_ok, drop_task in *. destruct (tasks s i); try done; naive_solver.
Qed.

(** No call is replayed. A caller obtains a generation at most once and calls its
    provider at most once, the provider of the generation it obtained; once it has
    returned it never calls again, whatever it returned; and a caller that obtains a
    generation later never gets one of a lower number. *)
Theorem supervisor_no_replay :
  NoDup (calls s).*1 /\ NoDup (obtained s).*1 /\
  (forall i p, (i, p) ∈ calls s -> exists g, (i, g) ∈ obtained s /\ process g = p /\ g ∈ generations s) /\
  forall s', rtc (step kind (identity h) serves) s s' ->
    (forall i e p, tasks s i = Finished e -> (i, p) ∈ calls s' -> (i, p) ∈ calls s) /\
    exists later, obtained s' = obtained s ++ later /\
      forall o o', o ∈ obtained s -> o' ∈ later -> number (snd o) <= number (snd o').
Proof.
  pose proof reached as Hinv. pose proof Hinv as []. split_and!; [done|done| |].
  - intros i p Hc. destruct (inv_calls0 _ Hc) as (g & Hg & Hp). exists g. split_and!; [done|done|].
    apply (inv_obtained0 _ Hg).
  - intros s' Hs'. split.
    + intros i e p Hi. destruct (finished_steps _ _ _ _ _ i e Hs' Hi) as [_ Hc]. apply Hc.
    + destruct (obtained_steps _ _ _ _ _ Hs') as [later Hl]. exists later. split; [done|]. intros o o' Ho Ho'.
      pose proof (inv_sorted _ _ _ (supervisor_inv_steps _ _ _ _ _ Hs' Hinv)) as Hsorted. rewrite Hl, map_app in Hsorted.
      eapply StronglySorted_app_1_elem_of; [exact Hsorted| |]; apply list_elem_of_fmap; eauto.
Qed.

(** A caller left to itself, with a launch and a health check that answer [r] and [a]. *)
Definition replace (s : State) (i : nat) (w : Wanted) (r : result (nat * string * bool) Error)
    (a : result ProviderHealth Error) : State :=
  let s := current_locked s i w in
  let s := match tasks s i with Closing w => set_task s i (Launching w) | _ => s end in
  let s := plugin_launched s i w r in
  match tasks s i with
  | Probing w p path verified =>
      let s := probed kind (identity h) s i w p path verified a in
      match tasks s i with Refusing e => finish s i (Some e) | _ => s end
  | _ => s
  end.

(** What it should get, as generation [n]. *)
Definition replacement_of (n : nat) (r : result (nat * string * bool) Error) (a : result ProviderHealth Error)
    : result PluginGeneration Error :=
  let? launch := r in
  let? report := a in
  match health_refusal kind report with
  | Some e => Err e
  | None =>
      if bool_decide (identity report = identity h)
      then Ok (mkGeneration (fst (fst launch)) n (snd (fst launch)) (snd launch) report)
      else Err (identity_changed kind (identity h) (identity report))
  end.

Lemma replace_steps i w r a : tasks s i = Calling w -> lock s = None ->
  (forall g, live s = Some g -> closed s (process g) = true) ->
  match r with Ok (p, _, _) => p ∉ launched s | Err _ => True end ->
  rtc (step kind (identity h) serves) s (replace s i w r a).
Proof.
  intros Hi Hl Hc Hf. eapply rtc_l; [by apply (step_current _ _ _ _ i w)|]. unfold replace.
  set (s1 := current_locked s i w).
  assert (launched s1 = launched s /\ (tasks s1 i = Closing w \/ tasks s1 i = Launching w)) as [Hla Hs1].
  { subst s1. unfold current_locked. destruct (live s) as [g|] eqn:Hg; [rewrite (Hc g eq_refl)|];
      cbn; rewrite Nat.eqb_refl; auto. }
  assert (Hfin : forall t, launched t = launched s -> tasks t i = Launching w ->
    rtc (step kind (identity h) serves) t
      (let s := plugin_launched t i w r in
       match tasks s i with
       | Probing w p path verified =>
           let s := probed kind (identity h) s i w p path verified a in
           match tasks s i with Refusing e => finish s i (Some e) | _ => s end
       | _ => s
       end)).
  { intros t Ht Hti. eapply rtc_l; [apply (step_launched _ _ _ _ i w r); [done|by rewrite Ht]|].
    cbn zeta. set (t1 := plugin_launched t i w r). destruct (tasks t1 i) as [| | |w' p path v| | | | |] eqn:E1; try done.
    eapply rtc_l; [by apply (step_probed _ _ _ _ i w' p path v a)|].
    destruct (tasks (probed _ _ t1 i w' p path v a) i) eqn:E2; try done.
    apply rtc_once. by apply step_refused. }
  destruct Hs1 as [Hs1|Hs1]; rewrite Hs1.
  - eapply rtc_l; [by apply (step_closed _ _ _ _ i w)|]. apply Hfin; [done|]. cbn. by rewrite Nat.eqb_refl.
  - by apply Hfin.
Qed.

Ltac settle := repeat (progress (cbn; rewrite ?Nat.eqb_refl)); split_and!; try done; intros; simplify_eq/=; set_solver.

(** The supervisor recovers, and one failure does not prevent the next try. A
    caller that finds an open generation gets it and launches nothing. One that finds
    it closed, or none, tells it to shut down and gets a replacement numbered next,
    which is live from then on; when the launch fails, or the plugin's health check
    fails, refuses it or reports another namespace, the caller gets that error, what
    was launched is told to shut down, nothing is live, the count is unchanged and the
    lock is free, so that the next caller tries the same number again. *)
Theorem supervisor_recovers i w (Hi : tasks s i = Calling w) (Hlock : lock s = None) :
  (forall g, live s = Some g -> closed s (process g) = false ->
    current_locked s i w = obtain s i w g) /\
  ((forall g, live s = Some g -> closed s (process g) = true) ->
   forall r a, match r with Ok (p, _, _) => p ∉ launched s | Err _ => True end ->
   let s' := replace s i w r a in
   rtc (step kind (identity h) serves) s s' /\ lock s' = None /\ calls s' = calls s /\
   (forall g, live s = Some g -> process g ∈ told s') /\
   match replacement_of (served s + 1) r a with
   | Ok g => tasks s' i = Serving w g /\ live s' = Some g /\ served s' = served s + 1
   | Err e => tasks s' i = Finished (Some e) /\ live s' = None /\ served s' = served s /\
       (forall p path verified, r = Ok (p, path, verified) -> p ∈ told s')
   end).
Proof.
  split.
  { intros g Hg Hc. unfold current_locked. by rewrite Hg, Hc. }
  intros Hc r a Hf s'. split; [by apply replace_steps|]. subst s'. unfold replace, current_locked, replacement_of.
  assert (Hg : live s = None \/ exists g, live s = Some g) by (destruct (live s); eauto).
  destruct Hg as [Hg|[g Hg]]; rewrite Hg; [|rewrite (Hc g Hg)].
  all: cbn [tasks set_task]; rewrite ?Nat.eqb_refl; unfold plugin_launched.
  all: destruct r as [[[p path] v]|e]; cbn [rbind fst snd]; [|settle].
  all: cbn [tasks set_task start_process tell set_live set_lock]; rewrite ?Nat.eqb_refl; unfold probed.
  all: destruct a as [a|e]; cbn [rbind]; [|settle].
  all: destruct (health_refusal kind a); [settle|].
  all: case_bool_decide; settle.
Qed.
End Properties.

(** ** A plugin that dies and is replaced *)

Definition demo_health : ProviderHealth := mkHealth HsOk None [] [] (Some "org").
Definition demo_first : State :=
  mkState (Some (mkGeneration 7 1 "/p" true demo_health)) 1 None (fun _ => Calling WantProvider) (fun _ => false)
    [7] [] [] [mkGeneration 7 1 "/p" true demo_health] [] [].
Definition demo_closed : State :=
  mkState (live demo_first) 1 None (tasks demo_first) (fun q => if q =? 7 then true else false)
    [7] [] [] (generations demo_first) [] [].
Definition demo_replaced : State :=
  replace "k" demo_health demo_closed 3 WantProvider (Ok (8, "/p", true)) (Ok demo_health).

Lemma demo_waiting i : waiting (tasks demo_first i).
Proof. right. by exists WantProvider. Qed.

Lemma demo_closed_steps serves : rtc (step "k" (Some "org") serves) demo_first demo_closed.
Proof. apply rtc_once. apply (step_close "k" (Some "org") serves demo_first 7). Qed.

Lemma demo_steps serves : rtc (step "k" (Some "org") serves) demo_first demo_replaced.
Proof.
  etrans; [apply demo_closed_steps|]. apply (replace_steps "k" serves demo_health); try done.
  - by intros g [= <-].
  - set_solver.
Qed.

Lemma supervisor_generations_witness :
  map number (generations demo_replaced) = [1; 2] /\ process (mkGeneration 7 1 "/p" true demo_health) ∈ told demo_replaced.
Proof.
  pose proof (supervisor_generations "k" (fun _ _ => true) (tasks demo_first) (Ok (7, "/p", true)) demo_health
    demo_first demo_replaced demo_waiting eq_refl (demo_steps _)) as (_ & Hn & _ & Ht & _).
  split; [rewrite Hn; reflexivity|]. apply Ht; [left|]. apply Nat.ltb_lt. vm_compute. reflexivity.
Defined.

Lemma supervisor_no_replay_witness :
  NoDup (calls demo_replaced).*1 /\ (obtained demo_replaced).*1 = [3].
Proof.
  pose proof (supervisor_no_replay "k" (fun _ _ => true) (tasks demo_first) (Ok (7, "/p", true)) demo_health
    demo_first demo_replaced demo_waiting eq_refl (demo_steps _)) as (Hn & _).
  split; [exact Hn|vm_compute; reflexivity].
Defined.

Lemma supervisor_recovers_witness :
  live demo_replaced = Some (mkGeneration 8 2 "/p" true demo_health).
Proof.
  pose proof (supervisor_recovers "k" (fun _ _ => true) (tasks demo_first) (Ok (7, "/p", true)) demo_health
    demo_first demo_closed demo_waiting eq_refl (demo_closed_steps _) 3 WantProvider eq_refl eq_refl) as [_ Hr].
  assert (Hc : forall g, live demo_closed = Some g -> closed demo_closed (process g) = true) by (by intros g [= <-]).
  assert (Hf : 8 ∉ launched demo_closed) by set_solver.
  destruct (Hr Hc (Ok (8, "/p", true)) (Ok demo_health) Hf) as (_ & _ & _ & _ & _ & Hl & _). exact Hl.
Defined.
