(* ===== verification/Methods.v ===== *)
(** * The methods of the plugin protocol

    Models the method names of [crates/sandbox-driver-protocol/src/methods.rs] that the
    transport treats apart, and [traits], the one table both peers read their admission
    and stream bookkeeping from. *)

From S2P Require Import Prelude.

#[local] Open Scope string_scope.

Definition PROTOCOL_VERSION : Z := 2.
Definition INITIALIZE := "initialize".
Definition SHUTDOWN := "shutdown".
Definition SANDBOX_STOP := "sandbox/stop".
Definition SANDBOX_DELETE := "sandbox/delete".
Definition EXEC_STREAM := "exec/stream".
Definition EXEC_STOP := "exec/stop".
Definition EXEC_STDIO_OPEN := "exec/stdio_open".
Definition EXEC_STDIO_TERMINATE := "exec/stdio_terminate".
Definition ONE_SHOT_RUN := "one_shot/run".
Definition PTY_OPEN := "pty/open".
Definition PTY_CLOSE := "pty/close".
Definition LOGS_FOLLOW := "logs/follow".
Definition STREAM_CANCEL := "stream/cancel".
Definition FS_READ := "fs/read".
Definition FS_WRITE := "fs/write".
Definition SNAPSHOT_BUILD_LOGS := "snapshot/build_logs".
Definition TRANSPORT_DIAGNOSTICS := "transport/diagnostics".
Definition PROVIDER_HEALTH := "provider/health".
Definition ACCESS_PREVIEW_RELEASE := "access/preview_release".

Record MethodTraits := mkTraits {
  reserved : bool;
  uses_io : bool;
  owns_stream : bool;
}.

Definition is_one_of (names : list string) (method : string) : bool := bool_decide (method ∈ names).

(** Every trait is false for a method the table does not name. *)
Definition traits (method : string) : MethodTraits :=
  {| reserved := is_one_of
       [EXEC_STOP; EXEC_STDIO_TERMINATE; PTY_CLOSE; STREAM_CANCEL; SHUTDOWN; SANDBOX_STOP; SANDBOX_DELETE;
        ACCESS_PREVIEW_RELEASE; TRANSPORT_DIAGNOSTICS; PROVIDER_HEALTH] method;
     uses_io := is_one_of
       [EXEC_STREAM; ONE_SHOT_RUN; EXEC_STDIO_OPEN; PTY_OPEN; LOGS_FOLLOW; FS_READ; FS_WRITE; SNAPSHOT_BUILD_LOGS]
       method;
     owns_stream := is_one_of [LOGS_FOLLOW; SNAPSHOT_BUILD_LOGS] method |}.

(** What must get through a full transport moves no bytes of its own, and whatever can
    be cancelled by its stream holds a stream's slot. *)
Lemma traits_apart method :
  (reserved (traits method) = true -> uses_io (traits method) = false) /\
  (owns_stream (traits method) = true -> uses_io (traits method) = true).
Proof.
  unfold traits, is_one_of. cbn [reserved uses_io owns_stream]. rewrite !bool_decide_eq_true, bool_decide_eq_false.
  split; [|set_solver]. intros Hr Hu. repeat (apply elem_of_cons in Hr as [->|Hr]; [by vm_compute in Hu; set_solver|]).
  by apply not_elem_of_nil in Hr.
Qed.
