(* ===== verification/Client.v ===== *)
(** * Requests in flight on a plugin connection

    Models the correlation of requests and responses in
    [crates/sandbox-driver-protocol/src/client/mod.rs]: [Client::call] with its admission
    and its [PendingCall] guard, the reader's [route] of a response, and
    [Client::mark_closed], which the reader and the writer may both run. Callers, reader
    and closers are threads; a step is what one does under one lock or on one atomic.
    Messages leave through the queues of [Control]. Request ids are unbounded. *)

From S2P Require Import Prelude Text Errors Wire Control Methods.

#[local] Open Scope string_scope.
#[local] Open Scope list_scope.
#[local] Open Scope Z_scope.

(** A response as its call sees it: the result, or the error. *)
Definition Outcome := result json Error.

(** Where a call stands. *)
Inductive Pc :=
  | Ready
  | Permitted                               (** holds a permit *)
  | Numbered (id : Z) (params : json)      (** has its id *)
  | Registered (id : Z) (params : json)    (** is in the pending table, with its guard *)
  | Failing (id : Z)                       (** saw the transport closed *)
  | Checked (id : Z) (params : json)       (** saw it open *)
  | Waiting (id : Z)                       (** its request is queued *)
  | Returned (o : Outcome)
  | Dropped.

(** Where a run of [mark_closed] stands. *)
Inductive Closer :=
  | Idle
  | Swapped (e : TransportError)                 (** the flag is set *)
  | Errored (e : TransportError)                 (** the error is the first closer's *)
  | Drained (e : TransportError) (ids : list Z)  (** these senders are to be failed *)
  | Done.

Record State := mkState {
  next_id : Z;
  pending : gset Z;
  answers : gmap Z Outcome;
  closed : bool;
  closed_error : option TransportError;
  requests : Z;
  reserve : Z;
  outbound : Control;
  calls : nat -> Pc;
  closers : nat -> Closer;
  routing : option (Z * Outcome);
  routed : list (Z * Outcome);
}.

Definition set_call (s : State) (i : nat) (p : Pc) : State :=
  mkState (next_id s) (pending s) (answers s) (closed s) (closed_error s) (requests s) (reserve s) (outbound s)
    (fun j => if (j =? i)%nat then p else calls s j) (closers s) (routing s) (routed s).
Definition set_closer (s : State) (j : nat) (c : Closer) : State :=
  mkState (next_id s) (pending s) (answers s) (closed s) (closed_error s) (requests s) (reserve s) (outbound s)
    (calls s) (fun k => if (k =? j)%nat then c else closers s k) (routing s) (routed s).
Definition set_pending (s : State) (p : gset Z) : State :=
  mkState (next_id s) p (answers s) (closed s) (closed_error s) (requests s) (reserve s) (outbound s)
    (calls s) (closers s) (routing s) (routed s).
Definition set_outbound (s : State) (o : Control) : State :=
  mkState (next_id s) (pending s) (answers s) (closed s) (closed_error s) (requests s) (reserve s) o
    (calls s) (closers s) (routing s) (routed s).
Definition set_permits (s : State) (priority : bool) (n : Z) : State :=
  mkState (next_id s) (pending s) (answers s) (closed s) (closed_error s)
    (if priority then requests s else n) (if priority then n else reserve s) (outbound s)
    (calls s) (closers s) (routing s) (routed s).
Definition permits_of (s : State) (priority : bool) : Z := if priority then reserve s else requests s.

(** A oneshot takes one value, and only if its call's end is still there. *)
Definition answer (s : State) (id : Z) (o : Outcome) : State :=
  mkState (next_id s) (pending s) (<[id := o]> (answers s)) (closed s) (closed_error s) (requests s) (reserve s)
    (outbound s) (calls s) (closers s) (routing s) (routed s).

(** [Client::start]: a connection with nothing in flight. *)
Definition client_start (l : TransportLimits) : State :=
  mkState 1 ∅ ∅ false None (provider_requests l) (reserved_requests l) (queue l) (fun _ => Ready) (fun _ => Idle)
    None [].

Section Calls.
Context `{SerdeJson} `{Base64}.

(** What call [i] is: its method, its parameters or the error of encoding them, and the
    error its result's decoding gives a value, if any. *)
Context (method_of : nat -> string) (params_of : nat -> result json (list string))
  (undecodable : nat -> json -> option (list string)).

Definition priority_of (i : nat) : bool := reserved (traits (method_of i)).

(** The locals go: the guard takes the id from the table, the permit is freed. *)
Definition release_permit (s : State) (i : nat) : State :=
  set_permits s (priority_of i) (permits_of s (priority_of i) + 1).
Definition leave (s : State) (i : nat) (id : Z) (p : Pc) : State :=
  set_call (release_permit (set_pending s (pending s ∖ {[ id ]})) i) i p.

(** ** [call] *)

Definition begin_call (s : State) (i : nat) : State :=
  let priority := priority_of i in
  match acquire (permits_of s priority) (if priority then "reserved_requests" else "provider_requests") with
  | Err e => set_call s i (Returned (Err e))
  | Ok free => set_call (set_permits s priority free) i Permitted
  end.

Definition number_call (s : State) (i : nat) : State :=
  let id := next_id s in
  let s := mkState (id + 1) (pending s) (answers s) (closed s) (closed_error s) (requests s) (reserve s) (outbound s)
             (calls s) (closers s) (routing s) (routed s) in
  match params_of i with
  | Err source =>
      set_call (release_permit s i) i
        (Returned (Err (Transport (mkTransportError "encoding plugin request parameters" source))))
  | Ok params => set_call s i (Numbered id params)
  end.

Definition register_call (s : State) (i : nat) (id : Z) (params : json) : State :=
  set_call (set_pending s (pending s ∪ {[ id ]})) i (Registered id params).

Definition check_closed (s : State) (i : nat) (id : Z) (params : json) : State :=
  set_call s i (if closed s then Failing id else Checked id params).

(** [closed_error]. *)
Definition current_error (s : State) : Error :=
  Transport (default (mkTransportError "plugin transport closed" []) (closed_error s)).

Definition send_request (s : State) (i : nat) (id : Z) (params : json) : State :=
  let '(o, r) := send (outbound s) (request id (method_of i) params) (priority_of i) in
  let s := set_outbound s o in
  match r with
  | Err e => leave s i id (Returned (Err e))
  | Ok _ => set_call s i (Waiting id)
  end.

Definition receive (s : State) (i : nat) (id : Z) (o : Outcome) : State :=
  leave s i id (Returned (
    let? value := o in
    match undecodable i value with
    | Some source => Err (Transport (mkTransportError "decoding plugin response result" source))
    | None => Ok value
    end)).

(** ** [route], of a response *)

Definition response_outcome (m : Message) : Outcome :=
  match msg_error m, msg_result m with
  | Some e, _ => Err (into_error e)
  | None, Some r => Ok r
  | None, None => Ok JNull
  end.

(** The sender is taken from the table; a response no call waits for is dropped. *)
Definition route_take (s : State) (id : Z) (o : Outcome) : State :=
  mkState (next_id s) (pending s ∖ {[ id ]}) (answers s) (closed s) (closed_error s) (requests s) (reserve s)
    (outbound s) (calls s) (closers s) (if bool_decide (id ∈ pending s) then Some (id, o) else None)
    (routed s ++ [(id, o)]).

Definition route_send (s : State) (id : Z) (o : Outcome) : State :=
  let s := answer s id o in
  mkState (next_id s) (pending s) (answers s) (closed s) (closed_error s) (requests s) (reserve s)
    (outbound s) (calls s) (closers s) None (routed s).

(** ** [mark_closed] *)

Definition close_swap (s : State) (j : nat) (e : TransportError) : State :=
  set_closer (mkState (next_id s) (pending s) (answers s) true (closed_error s) (requests s) (reserve s) (outbound s)
                (calls s) (closers s) (routing s) (routed s)) j (Swapped e).

Definition close_error (s : State) (j : nat) (e : TransportError) : State :=
  let e := default e (closed_error s) in
  set_closer (mkState (next_id s) (pending s) (answers s) (closed s) (Some e) (requests s) (reserve s) (outbound s)
                (calls s) (closers s) (routing s) (routed s)) j (Errored e).

Definition close_drain (s : State) (j : nat) (e : TransportError) : State :=
  set_closer (set_pending s ∅) j (Drained e (elements (pending s))).

Definition close_send (s : State) (j : nat) (e : TransportError) (ids : list Z) : State :=
  match ids with
  | [] => set_closer s j Done
  | id :: ids => set_closer (answer s id (Err (Transport e))) j (Drained e ids)
  end.

(** ** Steps *)

Inductive step (s : State) : State -> Prop :=
  | step_begin i : calls s i = Ready -> step s (begin_call s i)
  | step_number i : calls s i = Permitted -> step s (number_call s i)
  | step_register i id p : calls s i = Numbered id p -> step s (register_call s i id p)
  | step_check i id p : calls s i = Registered id p -> step s (check_closed s i id p)
  | step_fail i id : calls s i = Failing id -> step s (leave s i id (Returned (Err (current_error s))))
  | step_request i id p : calls s i = Checked id p -> step s (send_request s i id p)
  | step_receive i id o : calls s i = Waiting id -> answers s !! id = Some o -> step s (receive s i id o)
  | step_drop i id : calls s i = Waiting id -> step s (leave s i id Dropped)
  | step_route id m : routing s = None -> msg_id m = Some id -> step s (route_take s id (response_outcome m))
  | step_routed id o : routing s = Some (id, o) -> step s (route_send s id o)
  | step_swap j e : closers s j = Idle -> step s (close_swap s j e)
  | step_error j e : closers s j = Swapped e -> step s (close_error s j e)
  | step_drain j e : closers s j = Errored e -> step s (close_drain s j e)
  | step_answer j e ids : closers s j = Drained e ids -> step s (close_send s j e ids)
  | step_control n o : control_step (outbound s) n o -> step s (set_outbound s o).
End Calls.
#[global] Arguments priority_of : simpl never.

(** ** The invariant *)

Section Invariant.
Context `{SerdeJson} `{Base64}.
Context (method_of : nat -> string) (params_of : nat -> result json (list string))
  (undecodable : nat -> json -> option (list string)).
#[local] Notation step := (step method_of params_of undecodable).
#[local] Notation priority_of := (priority_of method_of).
#[local] Notation leave := (leave method_of).

Definition id_of (p : Pc) : option Z :=
  match p with
  | Numbered id _ | Registered id _ | Failing id | Checked id _ | Waiting id => Some id
  | _ => None
  end.

(** Whether a call holds a permit. *)
Definition flying (p : Pc) : bool := match p with Ready | Returned _ | Dropped => false | _ => true end.

(** Whether its guard is up, and whether it saw the transport open. *)
Definition guarded (p : Pc) : bool :=
  match p with Registered _ _ | Failing _ | Checked _ _ | Waiting _ => true | _ => false end.
Definition committed (p : Pc) : bool := match p with Checked _ _ | Waiting _ => true | _ => false end.

(** Where a registered call's sender is. *)
Definition located (s : State) (id : Z) : Prop :=
  id ∈ pending s \/ is_Some (answers s !! id) \/ (exists o, routing s = Some (id, o)) \/
  exists j e ids, closers s j = Drained e ids /\ id ∈ ids.

Definition drained (c : Closer) : bool := match c with Drained _ _ | Done => true | _ => false end.
Definition error_of (c : Closer) : option TransportError :=
  match c with Errored e | Drained e _ => Some e | _ => None end.

Record inv (l : TransportLimits) (s : State) : Prop := {
  inv_id i id : id_of (calls s i) = Some id -> id < next_id s;
  inv_distinct i j id : id_of (calls s i) = Some id -> id_of (calls s j) = Some id -> i = j;
  inv_pending id : id ∈ pending s -> exists i, id_of (calls s i) = Some id /\ guarded (calls s i) = true;
  inv_located i id : id_of (calls s i) = Some id -> guarded (calls s i) = true -> located s id;
  inv_drained j i id : drained (closers s j) = true -> committed (calls s i) = true ->
    id_of (calls s i) = Some id -> id ∉ pending s;
  inv_closed j : closers s j <> Idle -> closed s = true;
  inv_answers id o : answers s !! id = Some o ->
    (id, o) ∈ routed s \/ exists e, o = Err (Transport e) /\ closed_error s = Some e;
  inv_routing id o : routing s = Some (id, o) -> (id, o) ∈ routed s;
  inv_error j e : error_of (closers s j) = Some e -> closed_error s = Some e;
  inv_permits k : exists F : gset nat,
    (forall i, i ∈ F <-> priority_of i = k /\ flying (calls s i) = true) /\
    permits_of s k + Z.of_nat (size F) = permits_of (client_start l) k;
  inv_free k : 0 <= permits_of s k;
}.

Ltac task j i := destruct (Nat.eqb_spec j i) as [->|?].

Lemma client_inv_start l : 0 <= provider_requests l -> 0 <= reserved_requests l -> inv l (client_start l).
Proof.
  intros Hp Hr. split; cbn; try done.
  - intros k. exists ∅. split; [set_solver|]. rewrite size_empty. lia.
  - by intros [].
Qed.

(** A call moves on, keeping its id, its permit and its guard. *)
Lemma inv_advance l s i p : inv l s -> id_of p = id_of (calls s i) -> flying p = flying (calls s i) ->
  guarded p = guarded (calls s i) -> (committed p = true -> committed (calls s i) = true \/ closed s = false) ->
  inv l (set_call s i p).
Proof.
  intros [] Hid Hf Hg Hc. split; cbn; try done.
  - intros j id. task j i; [rewrite Hid|]; apply inv_id0.
  - intros j k id. task j i; task k i; rewrite ?Hid; apply inv_distinct0.
  - intros id Hin. destruct (inv_pending0 id Hin) as (j & Hj & Hgj). exists j. task j i; [by rewrite Hid, Hg|done].
  - intros j id. task j i; [rewrite Hid, Hg|]; apply inv_located0.
  - intros j k id Hd. task k i; [|by apply (inv_drained0 j)]. intros [Hp|Hcl]%Hc; [rewrite Hid; by apply (inv_drained0 j)|].
    assert (closed s = true) by (apply (inv_closed0 j); intros Hj; by rewrite Hj in Hd). congruence.
  - intros k. destruct (inv_permits0 k) as (F & HF & Hs). exists F. split; [|done]. intros j. rewrite HF.
    task j i; [by rewrite Hf|done].
Qed.

(** A call gives its permit back. *)
Lemma permits_freed (s : State) (k : bool) (F : gset nat) i p total :
  (forall j, j ∈ F <-> priority_of j = k /\ flying (calls s j) = true) ->
  permits_of s k + Z.of_nat (size F) = total -> flying (calls s i) = true -> flying p = false ->
  exists F' : gset nat, (forall j, j ∈ F' <-> priority_of j = k /\ flying (if (j =? i)%nat then p else calls s j) = true) /\
    permits_of (release_permit method_of s i) k + Z.of_nat (size F') = total.
Proof.
  intros HF Ht Hi Hp. unfold release_permit, set_permits, permits_of in *. cbn. destruct (decide (priority_of i = k)) as [Hk|Hk].
  - exists (F ∖ {[ i ]}). split.
    + intros j. rewrite elem_of_difference, HF, elem_of_singleton. task j i; [|tauto]. rewrite Hp. split; [tauto|by intros []].
    + assert (Hin : {[ i ]} ⊆ F) by (apply singleton_subseteq_l, HF; done).
      rewrite size_difference, size_singleton by done.
      assert (size F <> 0%nat) by (intros Hz%size_empty_iff; set_solver). rewrite Hk. destruct k; lia.
  - exists F. split; [|by destruct k, (priority_of i)]. intros j. rewrite HF. task j i; [|done]. rewrite Hp. split; [tauto|by intros []].
Qed.

Lemma free_freed (s : State) i k : (forall k, 0 <= permits_of s k) -> 0 <= permits_of (release_permit method_of s i) k.
Proof.
  intros Hp. unfold release_permit, set_permits, permits_of in *. cbn. pose proof (Hp true). pose proof (Hp false).
  destruct k, (priority_of i); cbn in *; lia.
Qed.

(** A registered call returns or is dropped. *)
Lemma client_inv_leave l s i id p : inv l s -> id_of (calls s i) = Some id -> id_of p = None -> flying p = false ->
  inv l (leave s i id p).
Proof.
  intros [] Hi Hp Hf. assert (Hc : guarded p = false /\ committed p = false) by (by destruct p). destruct Hc as [Hg Hc].
  assert (Hfl : flying (calls s i) = true) by (by destruct (calls s i)).
  split; cbn; try done.
  - intros j id'. task j i; [congruence|apply inv_id0].
  - intros j k id'. task j i; task k i; try congruence. apply inv_distinct0.
  - intros id' [Hin Hne]%elem_of_difference. destruct (inv_pending0 id' Hin) as (j & Hj & Hgj). exists j.
    task j i; [|done]. set_solver.
  - intros j id'. task j i; [congruence|]. intros Hj Hgj. unfold located. cbn.
    destruct (inv_located0 j id' Hj Hgj) as [Hin|?]; [|by right]. left. apply elem_of_difference. split; [done|].
    intros ->%elem_of_singleton. by apply inv_distinct0 with (i := j) in Hi.
  - intros j k id'. task k i; [congruence|]. intros Hd Hk Hid. specialize (inv_drained0 j k id' Hd Hk Hid). set_solver.
  - intros k. destruct (inv_permits0 k) as (F & HF & Hs). by apply (permits_freed (set_pending s (pending s ∖ {[ id ]})) k F).
  - intros k. by apply (free_freed (set_pending s (pending s ∖ {[ id ]}))).
Qed.

(** A call that gave nothing but a permit back, or took nothing. *)
Lemma inv_quit l s i o : inv l s -> calls s i = Ready -> inv l (set_call s i (Returned o)).
Proof. intros Hinv Hi. apply inv_advance; by rewrite ?Hi. Qed.

Lemma inv_begin l s i : inv l s -> calls s i = Ready -> inv l (begin_call method_of s i).
Proof.
  intros Hinv Hi. unfold begin_call, acquire. destruct (Z.ltb_spec 0 (permits_of s (priority_of i))) as [Hlt|]; [|by apply inv_quit].
  destruct Hinv. split; cbn; try done.
  - intros j id. task j i; [done|apply inv_id0].
  - intros j k id. task j i; task k i; try done. apply inv_distinct0.
  - intros id Hin. destruct (inv_pending0 id Hin) as (j & Hj & Hgj). exists j. task j i; [by rewrite Hi in Hj|done].
  - intros j id. task j i; [done|apply inv_located0].
  - intros j k id Hd. task k i; [done|by apply (inv_drained0 j)].
  - intros k. destruct (inv_permits0 k) as (F & HF & Hs). unfold permits_of, set_permits in *. cbn in *.
    destruct (decide (priority_of i = k)) as [Hk|Hk].
    + exists (F ∪ {[ i ]}). split.
      * intros j. rewrite elem_of_union, HF, elem_of_singleton. task j i; [naive_solver|tauto].
      * assert (i ∉ F) by (rewrite HF, Hi; by intros []). rewrite size_union, size_singleton by set_solver.
        rewrite Hk in *. destruct k; lia.
    + exists F. split; [|destruct k, (priority_of i); (done || lia)].
      intros j. rewrite HF. task j i; [|done]. rewrite Hi. naive_solver.
  - intros k. pose proof (inv_free0 true). pose proof (inv_free0 false). unfold permits_of, set_permits in *. cbn in *.
    destruct k, (priority_of i); lia.
Qed.

Lemma inv_number l s i : inv l s -> calls s i = Permitted -> inv l (number_call method_of params_of s i).
Proof.
  intros Hinv Hi. unfold number_call.
  assert (Hn : forall p, id_of p = Some (next_id s) \/ id_of p = None -> guarded p = false -> flying p = true ->
    inv l (set_call (mkState (next_id s + 1) (pending s) (answers s) (closed s) (closed_error s) (requests s) (reserve s)
      (outbound s) (calls s) (closers s) (routing s) (routed s)) i p)).
  { intros p Hid Hg Hf. assert (Hc : committed p = false) by (by destruct p). destruct Hinv. split; cbn; try done.
    - intros j id. task j i; [destruct Hid as [-> | ->]; [intros [= <-]; lia|done]|]. intros Hj. apply inv_id0 in Hj. lia.
    - intros j k id. task j i; task k i; try done; [| |apply inv_distinct0].
      + intros Hp Hk. apply inv_id0 in Hk. destruct Hid as [Hid|Hid]; rewrite Hid in Hp; [injection Hp; lia|done].
      + intros Hj Hp. apply inv_id0 in Hj. destruct Hid as [Hid|Hid]; rewrite Hid in Hp; [injection Hp; lia|done].
    - intros id Hin. destruct (inv_pending0 id Hin) as (j & Hj & Hgj). exists j. task j i; [by rewrite Hi in Hj|done].
    - intros j id. task j i; [congruence|apply inv_located0].
    - intros j k id Hd. task k i; [congruence|by apply (inv_drained0 j)].
    - intros k. destruct (inv_permits0 k) as (F & HF & Hs). exists F. split; [|done]. intros j. rewrite HF.
      task j i; [|done]. by rewrite Hi, Hf. }
  destruct (params_of i) as [p|source]; [by apply Hn; [left| |]|].
  specialize (Hn Permitted (or_intror eq_refl) eq_refl eq_refl). destruct Hn. cbn in *.
  set (s1 := mkState (next_id s + 1) _ _ _ _ _ _ _ (calls s) _ _ _).
  assert (Hsame : forall j, (if (j =? i)%nat then Permitted else calls s j) = calls s j) by (intros j; by task j i).
  setoid_rewrite Hsame in inv_id0. setoid_rewrite Hsame in inv_distinct0. setoid_rewrite Hsame in inv_pending0.
  setoid_rewrite Hsame in inv_located0. setoid_rewrite Hsame in inv_drained0. setoid_rewrite Hsame in inv_permits0.
  split; cbn; try done.
  - intros j id. task j i; [done|apply inv_id0].
  - intros j k id. task j i; task k i; try done. apply inv_distinct0.
  - intros id Hin. destruct (inv_pending0 id Hin) as (j & Hj & Hgj). exists j. task j i; [by rewrite Hi in Hj|done].
  - intros j id. task j i; [done|apply inv_located0].
  - intros j k id Hd. task k i; [done|by apply (inv_drained0 j)].
  - intros k. destruct (inv_permits0 k) as (F & HF & Hs). apply (permits_freed s1 k F); [done|done|by cbn; rewrite Hi|done].
  - intros k. by apply (free_freed s1).
Qed.

Lemma inv_register l s i id p : inv l s -> calls s i = Numbered id p -> inv l (register_call s i id p).
Proof.
  intros [] Hi. assert (Hid : id_of (calls s i) = Some id) by (by rewrite Hi).
  assert (Hsame : forall j, id_of (if (j =? i)%nat then Registered id p else calls s j) = id_of (calls s j)).
  { intros j. task j i; [by rewrite Hi|done]. }
  split; cbn; try done.
  - intros j id'. rewrite Hsame. apply inv_id0.
  - intros j k id'. rewrite !Hsame. apply inv_distinct0.
  - intros id' [Hin| ->%elem_of_singleton]%elem_of_union.
    + destruct (inv_pending0 id' Hin) as (j & Hj & Hgj). exists j. rewrite Hsame. split; [done|]. by task j i.
    + exists i. rewrite Hsame. split; [done|]. by rewrite Nat.eqb_refl.
  - intros j id'. rewrite Hsame. unfold located. cbn. task j i; [rewrite Hi; intros [= ->] _; left; set_solver|].
    intros Hj Hgj. destruct (inv_located0 j id' Hj Hgj) as [?|?]; [left; set_solver|by right].
  - intros j k id' Hd. rewrite Hsame. task k i; [done|]. intros Hk Hid'. specialize (inv_drained0 j k id' Hd Hk Hid').
    intros [?| ->%elem_of_singleton]%elem_of_union; [done|]. by pose proof (inv_distinct0 _ _ _ Hid Hid').
  - intros k. destruct (inv_permits0 k) as (F & HF & Hs). exists F. split; [|done]. intros j. rewrite HF.
    task j i; [by rewrite Hi|done].
Qed.

Lemma inv_outbound l s o : inv l s -> inv l (set_outbound s o).
Proof. intros []. by split. Qed.

Lemma inv_request l s i id p : inv l s -> calls s i = Checked id p -> inv l (send_request method_of s i id p).
Proof.
  intros Hinv Hi. unfold send_request. destruct (send _ _ _) as [o [?|e]]; apply (inv_outbound l s o) in Hinv.
  - apply inv_advance; [done|..]; cbn; try (by rewrite Hi). intros _. left. by rewrite Hi.
  - apply client_inv_leave; [done|cbn; by rewrite Hi|done|done].
Qed.

Lemma inv_route l s id o : inv l s -> routing s = None -> inv l (route_take s id o).
Proof.
  intros [] Hr. split; cbn; try done.
  - intros id' Hin. apply inv_pending0. set_solver.
  - intros j id' Hj Hg. unfold located. cbn. destruct (inv_located0 j id' Hj Hg) as [Hin|[?|[[o' ?]|?]]].
    + destruct (decide (id' = id)) as [->|]; [|left; set_solver]. right. right. left. exists o. by rewrite bool_decide_true.
    + by right; left.
    + congruence.
    + by do 3 right.
  - intros j k id' Hd Hk Hid. specialize (inv_drained0 j k id' Hd Hk Hid). set_solver.
  - intros id' o' Ho. destruct (inv_answers0 id' o' Ho) as [?|?]; [left; set_solver|by right].
  - intros id' o'. case_bool_decide; [|done]. intros [= <- <-]. set_solver.
Qed.

Lemma inv_routed l s id o : inv l s -> routing s = Some (id, o) -> inv l (route_send s id o).
Proof.
  intros [] Hr. split; cbn; try done.
  - intros j id' Hj Hg. unfold located. cbn. destruct (decide (id' = id)) as [->|Hne].
    + right. left. rewrite lookup_insert_eq. by eexists.
    + rewrite lookup_insert_ne by done. destruct (inv_located0 j id' Hj Hg) as [?|[?|[[o' ?]|?]]];
        [by left|by right; left|congruence|by do 3 right].
  - intros id' o'. rewrite lookup_insert_Some. intros [[<- <-]|[_ Ho]]; [left; by apply inv_routing0|by apply inv_answers0].
Qed.

Lemma client_inv_close l s j e : inv l s -> closers s j = Idle -> inv l (close_swap s j e).
Proof.
  intros [] Hj. split; cbn; try done.
  - intros i id Hi Hg. destruct (inv_located0 i id Hi Hg) as [?|[?|[?|(k & e' & ids & Hk & Hin)]]];
      [by left|by right; left|by do 2 right; left|]. do 3 right. exists k, e', ids. cbn. task k j; [congruence|done].
  - intros k i id. task k j; [done|apply inv_drained0].
  - intros k e'. task k j; [done|apply inv_error0].
Qed.

Lemma inv_close_error l s j e : inv l s -> closers s j = Swapped e -> inv l (close_error s j e).
Proof.
  intros [] Hj. split; cbn; try done.
  - intros i id Hi Hg. destruct (inv_located0 i id Hi Hg) as [?|[?|[?|(k & e' & ids & Hk & Hin)]]];
      [by left|by right; left|by do 2 right; left|]. do 3 right. exists k, e', ids. cbn. task k j; [congruence|done].
  - intros k i id. task k j; [done|apply inv_drained0].
  - intros k. task k j; [intros _; apply (inv_closed0 j); congruence|apply inv_closed0].
  - intros id o Ho. destruct (inv_answers0 id o Ho) as [?|(e' & -> & ->)]; [by left|right; by exists e'].
  - intros k e'. task k j; [by intros [= <-]|]. intros He. by rewrite (inv_error0 k e' He).
Qed.

Lemma inv_close_drain l s j e : inv l s -> closers s j = Errored e -> inv l (close_drain s j e).
Proof.
  intros [] Hj. split; cbn; try done.
  - intros i id Hi Hg. unfold located. cbn. destruct (inv_located0 i id Hi Hg) as [Hin|[?|[?|(k & e' & ids & Hk & Hin)]]].
    + do 3 right. exists j, e, (elements (pending s)). rewrite Nat.eqb_refl. split; [done|]. by apply elem_of_elements.
    + by right; left.
    + by do 2 right; left.
    + do 3 right. exists k, e', ids. task k j; [congruence|done].
  - intros k. task k j; [intros _; apply (inv_closed0 j); congruence|apply inv_closed0].
  - intros k e'. task k j; [intros [= <-]; apply (inv_error0 j); by rewrite Hj|apply inv_error0].
Qed.

Lemma inv_close_send l s j e ids : inv l s -> closers s j = Drained e ids -> inv l (close_send s j e ids).
Proof.
  intros [] Hj. assert (Hcl : closed s = true) by (apply (inv_closed0 j); congruence).
  assert (Hd : drained (closers s j) = true) by (by rewrite Hj). destruct ids as [|id ids]; split; cbn; try done.
  - intros i id' Hi Hg. destruct (inv_located0 i id' Hi Hg) as [?|[?|[?|(k & e' & ids' & Hk & Hin)]]];
      [by left|by right; left|by do 2 right; left|]. do 3 right. exists k, e', ids'. cbn. task k j; [|done].
    rewrite Hj in Hk. injection Hk as <- <-. by apply not_elem_of_nil in Hin.
  - intros k i id'. task k j; [intros _; by apply (inv_drained0 j)|apply inv_drained0].
  - intros k e'. task k j; [done|apply inv_error0].
  - intros i id' Hi Hg. unfold located. cbn. destruct (decide (id' = id)) as [->|Hne].
    { right. left. rewrite lookup_insert_eq. by eexists. }
    rewrite lookup_insert_ne by done. destruct (inv_located0 i id' Hi Hg) as [?|[?|[?|(k & e' & ids' & Hk & Hin)]]];
      [by left|by right; left|by do 2 right; left|]. do 3 right. task k j.
    + rewrite Hj in Hk. injection Hk as <- <-. exists j, e, ids. rewrite Nat.eqb_refl. set_solver.
    + exists k, e', ids'. by destruct (Nat.eqb_spec k j).
  - intros k i id'. task k j; [intros _; by apply (inv_drained0 j)|apply inv_drained0].
  - intros id' o'. rewrite lookup_insert_Some. intros [[<- <-]|[_ Ho]]; [right|by apply inv_answers0].
    exists e. split; [done|]. apply (inv_error0 j). by rewrite Hj.
  - intros k e'. task k j; [intros [= <-]; apply (inv_error0 j); by rewrite Hj|apply inv_error0].
Qed.

Lemma client_inv_next l s s' : step s s' -> inv l s -> inv l s'.
Proof.
  intros Hstep Hinv.
  destruct Hstep as [i Hi|i Hi|i id p Hi|i id p Hi|i id Hi|i id p Hi|i id o Hi Ho|i id Hi|id m Hr Hm|id o Hr|j e Hj|j e Hj|j e Hj|j e ids Hj|n o Ho].
  - by apply inv_begin.
  - by apply inv_number.
  - by apply inv_register.
  - unfold check_closed. destruct (closed s) eqn:Hc; (apply inv_advance; [done|by rewrite Hi..|]); [done|by right].
  - apply client_inv_leave; [done|by rewrite Hi|done|done].
  - by apply inv_request.
  - apply client_inv_leave; [done|by rewrite Hi|done|done].
  - apply client_inv_leave; [done|by rewrite Hi|done|done].
  - by apply inv_route.
  - by apply inv_routed.
  - by apply client_inv_close.
  - by apply inv_close_error.
  - by apply inv_close_drain.
  - by apply inv_close_send.
  - by apply inv_outbound.
Qed.

Lemma inv_reach l s : 0 <= provider_requests l -> 0 <= reserved_requests l -> rtc step (client_start l) s -> inv l s.
Proof.
  intros Hp Hr Hs. pose proof (client_inv_start l Hp Hr) as Hinv. revert Hinv. induction Hs; [done|]. eauto using client_inv_next.
Qed.

(** Once the transport is closed no call begins to wait. *)
Lemma closed_next s s' i : step s s' -> closed s = true ->
  closed s' = true /\ (committed (calls s' i) = true -> committed (calls s i) = true).
Proof.
  intros Hstep Hc.
  assert (Hset : forall t k p, calls t i = calls s i ->
    (committed p = true -> committed (calls s k) = true) -> committed (calls (set_call t k p) i) = true -> committed (calls s i) = true).
  { intros t k p Ht Hp. cbn. task i k; [done|by rewrite Ht]. }
  destruct Hstep as [k Hk|k Hk|k id p Hk|k id p Hk|k id Hk|k id p Hk|k id o Hk Ho|k id Hk|id m Hr Hm|id o Hr|j e Hj|j e Hj|j e Hj|j e ids Hj|n o Ho].
  all: try (split; [done|by apply Hset]).
  - unfold begin_call. destruct (acquire _ _); (split; [done|by apply Hset]).
  - unfold number_call. destruct (params_of k); (split; [done|by apply Hset]).
  - unfold check_closed. rewrite Hc. split; [done|by apply Hset].
  - unfold send_request. destruct (send _ _ _) as [o [?|e]]; (split; [done|apply Hset; [done|by rewrite Hk]]).
  - done.
  - done.
  - done.
  - done.
  - done.
  - unfold close_send. by destruct ids.
  - done.
Qed.

Lemma closed_steps s s' i : rtc step s s' -> closed s = true -> committed (calls s' i) = true -> committed (calls s i) = true.
Proof.
  induction 1 as [|s1 s2 s3 Hs _ IH]; [done|]. intros Hc.
  destruct (closed_next _ _ i Hs Hc) as [Hc2 Hi]. auto.
Qed.

(** A closer that has taken the senders fails them all. *)
Lemma closer_finishes j e ids s : closers s j = Drained e ids ->
  exists s', nsteps step (S (length ids)) s s' /\ closers s' j = Done /\ calls s' = calls s /\
    (forall id, id ∈ ids -> answers s' !! id = Some (Err (Transport e))) /\
    (forall id, id ∉ ids -> answers s' !! id = answers s !! id).
Proof.
  revert s. induction ids as [|id ids IH]; intros s Hj.
  - exists (close_send s j e []). split_and!; [eapply nsteps_once; by constructor|cbn; by rewrite Nat.eqb_refl|done|set_solver|done].
  - destruct (IH (close_send s j e (id :: ids))) as (s' & Hs & Hd & Hc & Hin & Hout); [cbn; by rewrite Nat.eqb_refl|].
    exists s'. split_and!; [eapply nsteps_l; [by eapply step_answer|done]|done|done| |].
    + intros id' Hid. destruct (decide (id' ∈ ids)) as [?|Hn]; [by apply Hin|]. rewrite Hout by done.
      apply elem_of_cons in Hid as [->|?]; [|done]. cbn. by rewrite lookup_insert_eq.
    + intros id' Hid. rewrite Hout by set_solver. cbn. rewrite lookup_insert_ne; [done|]. set_solver.
Qed.

Section Reached.
Context (l : TransportLimits) (s : State).
Context (Hrequests : 0 <= provider_requests l) (Hreserved : 0 <= reserved_requests l).
Context (Hreach : rtc step (client_start l) s).

(** C26. No call waits on a dead transport. However callers, the reader and the closers
    interleave: once a closer has emptied the table, every call that waits has its
    answer or is about to get it from the reader or a closer that has its sender, and
    such a closer, by itself, fails every sender it has in one step each; and once the
    closed flag is set no call that had not seen the transport open comes to wait. *)
Theorem client_calls_resolve :
  (forall j i id, drained (closers s j) = true -> calls s i = Waiting id ->
    is_Some (answers s !! id) \/ (exists o, routing s = Some (id, o)) \/
    exists k e ids, closers s k = Drained e ids /\ id ∈ ids) /\
  (forall j e ids, closers s j = Drained e ids ->
    exists s', nsteps step (S (length ids)) s s' /\ closers s' j = Done /\ calls s' = calls s /\
      forall id, id ∈ ids -> answers s' !! id = Some (Err (Transport e))) /\
  (forall s' i, rtc step s s' -> closed s = true -> committed (calls s' i) = true -> committed (calls s i) = true).
Proof.
  pose proof (inv_reach l s Hrequests Hreserved Hreach) as []. split_and!.
  - intros j i id Hd Hi. assert (Hid : id_of (calls s i) = Some id) by (by rewrite Hi).
    assert (guarded (calls s i) = true /\ committed (calls s i) = true) as [Hg Hc] by (by rewrite Hi).
    destruct (inv_located0 i id Hid Hg) as [Hin|?]; [|done]. by destruct (inv_drained0 j i id Hd Hc Hid).
  - intros j e ids Hj. destruct (closer_finishes j e ids s Hj) as (s' & ? & ? & ? & ? & _). by exists s'.
  - intros s' i Hs'. by apply closed_steps.
Qed.

(** A call gets its own answer. Calls in flight have different ids, and the table
    holds the ids of calls in flight only, so that a call that returned or was dropped
    leaves nothing in it; what a waiting call is answered with is a response that came
    with its id, or the error of the first closer; and a response no call waits for
    changes no call. *)
Theorem client_correlation :
  (forall i j id, id_of (calls s i) = Some id -> id_of (calls s j) = Some id -> i = j) /\
  (forall id, id ∈ pending s -> exists i, id_of (calls s i) = Some id /\ guarded (calls s i) = true) /\
  (forall i id o, calls s i = Waiting id -> answers s !! id = Some o ->
    (id, o) ∈ routed s \/ exists e, o = Err (Transport e) /\ closed_error s = Some e) /\
  (forall id o, id ∉ pending s ->
    let s' := route_take s id o in calls s' = calls s /\ pending s' = pending s /\ routing s' = None /\ answers s' = answers s).
Proof.
  pose proof (inv_reach l s Hrequests Hreserved Hreach) as []. split_and!; [done|done| |].
  - intros i id o _. apply inv_answers0.
  - intros id o Hin. cbn. rewrite bool_decide_false by done. split_and!; [done|set_solver|done|done].
Qed.

Definition id_in (i : nat) : option Z := id_of (calls s i).

Lemma pending_small (F : gset nat) : (forall i, flying (calls s i) = true -> i ∈ F) ->
  (forall id, id ∈ pending s -> exists i, id_of (calls s i) = Some id /\ guarded (calls s i) = true) ->
  (size (pending s) <= size F)%nat.
Proof.
  intros HF Hp. assert (Hsub : pending s ⊆ list_to_set (omap id_in (elements F))).
  { intros id Hin. destruct (Hp id Hin) as (i & Hi & Hg). apply elem_of_list_to_set, list_elem_of_omap. exists i.
    split; [|exact Hi]. apply elem_of_elements, HF. by destruct (calls s i). }
  apply subseteq_size in Hsub. etrans; [exact Hsub|]. change (size F) with (length (elements F)).
  assert (Hlen : forall xs : list nat, (size (list_to_set (omap id_in xs) : gset Z) <= length xs)%nat).
  { induction xs as [|x xs IH]; [done|]. cbn. destruct (id_in x); cbn; [|lia].
    rewrite size_union_alt, size_singleton.
    assert ((list_to_set (omap id_in xs) ∖ {[ z ]} : gset Z) ⊆ list_to_set (omap id_in xs)) as Hsz%subseteq_size by set_solver. lia. }
  apply Hlen.
Qed.

(** Admission is exact. Each budget's free permits and the calls of that kind in
    flight always add up to the budget: no call is admitted beyond it, whether a call
    returns, fails or is dropped its permit comes back, and the pending table never
    outgrows the two budgets; and as stops, cancels and closes are admitted from a
    reserve, one begins however many ordinary calls are in flight. *)
Theorem client_admission :
  (forall k, 0 <= permits_of s k /\ exists F : gset nat,
    (forall i, i ∈ F <-> priority_of i = k /\ flying (calls s i) = true) /\
    permits_of s k + Z.of_nat (size F) = if k then reserved_requests l else provider_requests l) /\
  Z.of_nat (size (pending s)) <= provider_requests l + reserved_requests l /\
  (forall i, calls s i = Ready -> priority_of i = true ->
    (forall F : gset nat, (forall j, j ∈ F -> priority_of j = true /\ flying (calls s j) = true) ->
      Z.of_nat (size F) < reserved_requests l) ->
    calls (begin_call method_of s i) i = Permitted).
Proof.
  pose proof (inv_reach l s Hrequests Hreserved Hreach) as []. split_and!.
  - intros k. split; [done|]. destruct (inv_permits0 k) as (F & HF & Hs). exists F. split; [done|]. by destruct k.
  - destruct (inv_permits0 true) as (F & HF & Hs), (inv_permits0 false) as (G & HG & Ht).
    assert (Hle : (size (pending s) <= size (F ∪ G))%nat).
    { apply pending_small; [|done]. intros i Hi. apply elem_of_union. rewrite HF, HG. destruct (priority_of i); auto. }
    rewrite size_union_alt in Hle.
    assert ((G ∖ F : gset nat) ⊆ G) as Hg%subseteq_size by set_solver.
    pose proof (inv_free0 true). pose proof (inv_free0 false). cbn in *. lia.
  - intros i Hi Hk Hfew. destruct (inv_permits0 true) as (F & HF & Hs).
    assert (Z.of_nat (size F) < reserved_requests l) by (apply Hfew; intros j; apply HF).
    unfold begin_call, acquire. rewrite Hk. destruct (Z.ltb_spec 0 (permits_of s true)); [|cbn in *; lia].
    cbn. by rewrite Nat.eqb_refl.
Qed.
End Reached.
End Invariant.

(** ** A call answered, and one failed by the transport's end *)

Section Demo.
Context `{SerdeJson} `{Base64}.
#[local] Notation method_of := (fun _ : nat => "sandbox/list").
#[local] Notation params_of := (fun _ : nat => Ok (E := list string) JNull).
#[local] Notation demo_step := (step method_of params_of (fun _ _ => None)).

Definition demo_call (s : State) (i : nat) : State :=
  let id := next_id s in
  send_request method_of (check_closed (register_call (number_call method_of params_of (begin_call method_of s i) i) i id JNull)
    i id JNull) i id JNull.

Lemma demo_call_steps s i : calls s i = Ready -> 0 < requests s -> closed s = false -> rtc demo_step s (demo_call s i).
Proof.
  intros Hi Hp Hc. unfold demo_call. set (s1 := begin_call method_of s i).
  assert (Hs1 : calls s1 i = Permitted /\ next_id s1 = next_id s /\ closed s1 = false).
  { subst s1. unfold begin_call, acquire. change (permits_of s (priority_of method_of i)) with (requests s).
    destruct (Z.ltb_spec 0 (requests s)); [|lia]. cbn. by rewrite Nat.eqb_refl. }
  destruct Hs1 as (Hs1 & Hn1 & Hc1). eapply rtc_l; [by apply step_begin|]. fold s1.
  eapply rtc_l; [by apply step_number|]. set (s2 := number_call method_of params_of s1 i).
  assert (Hs2 : calls s2 i = Numbered (next_id s) JNull) by (cbn; by rewrite Nat.eqb_refl, Hn1).
  eapply rtc_l; [by apply step_register, Hs2|]. set (s3 := register_call s2 i _ _).
  eapply rtc_l; [apply (step_check _ _ _ _ i (next_id s) JNull); cbn; by rewrite Nat.eqb_refl|].
  apply rtc_once. apply (step_request _ _ _ _ i (next_id s) JNull). unfold check_closed.
  change (closed s3) with (closed s1). rewrite Hc1. cbn. by rewrite Nat.eqb_refl.
Qed.

Definition demo_waiting : State := demo_call (demo_call (client_start default_limits) 0) 1.
Definition demo_error : TransportError := mkTransportError "plugin response transport closed" [].
Definition demo_closed : State :=
  let s := route_send (route_take demo_waiting 2 (Ok (JBool true))) 2 (Ok (JBool true)) in
  close_drain (close_error (close_swap s 0 demo_error) 0 demo_error) 0 demo_error.
End Demo.

#[local] Instance demo_serde : SerdeJson := plain_json.

Lemma demo_waiting_steps `{Base64} : rtc (step (fun _ => "sandbox/list") (fun _ => Ok JNull) (fun _ _ => None))
  (client_start default_limits) demo_waiting.
Proof.
  unfold demo_waiting. etrans; apply demo_call_steps; first [reflexivity | vm_compute; reflexivity].
Qed.

Lemma client_demo_closed_steps `{Base64} : rtc (step (fun _ => "sandbox/list") (fun _ => Ok JNull) (fun _ _ => None))
  (client_start default_limits) demo_closed.
Proof.
  etrans; [apply demo_waiting_steps|]. unfold demo_closed.
  eapply rtc_l; [apply (step_route _ _ _ _ 2 (response 2 (JBool true))); vm_compute; reflexivity|].
  eapply rtc_l; [apply step_routed; vm_compute; reflexivity|].
  eapply rtc_l; [apply (step_swap _ _ _ _ 0 demo_error); vm_compute; reflexivity|].
  eapply rtc_l; [apply (step_error _ _ _ _ 0%nat demo_error); vm_compute; reflexivity|].
  apply rtc_once. apply (step_drain _ _ _ _ 0%nat demo_error); vm_compute; reflexivity.
Qed.

Lemma demo_limits : 0 <= provider_requests default_limits /\ 0 <= reserved_requests default_limits.
Proof. split; vm_compute; discriminate. Qed.

#[local] Instance demo_base64 : Base64 := plain_base64.

Lemma client_calls_resolve_witness :
  exists s', closers s' 0%nat = Done /\ answers s' !! 1 = Some (Err (Transport demo_error)).
Proof.
  destruct (client_calls_resolve (fun _ => "sandbox/list") (fun _ => Ok JNull) (fun _ _ => None) default_limits demo_closed
    (proj1 demo_limits) (proj2 demo_limits) client_demo_closed_steps) as (_ & Hc & _).
  destruct (Hc 0%nat demo_error [1]) as (s' & _ & Hd & _ & Ha); [vm_compute; reflexivity|].
  exists s'. split; [exact Hd|]. apply Ha. left.
Defined.

Lemma client_correlation_witness :
  calls demo_closed 1%nat = Waiting 2 /\ (2, Ok (JBool true)) ∈ routed demo_closed /\
  (exists i, id_of (calls demo_waiting i) = Some 1).
Proof.
  destruct (client_correlation (fun _ => "sandbox/list") (fun _ => Ok JNull) (fun _ _ => None) default_limits demo_waiting
    (proj1 demo_limits) (proj2 demo_limits) demo_waiting_steps) as (_ & Hp & _).
  split; [vm_compute; reflexivity|]. split; [left|]. destruct (Hp 1) as (i & Hi & _); [|by exists i].
  apply (bool_decide_unpack _). vm_compute. exact I.
Defined.

Lemma client_admission_witness :
  Z.of_nat (size (pending demo_waiting)) = 2 /\ Z.of_nat (size (pending demo_waiting)) <= 2112.
Proof.
  destruct (client_admission (fun _ => "sandbox/list") (fun _ => Ok JNull) (fun _ _ => None) default_limits demo_waiting
    (proj1 demo_limits) (proj2 demo_limits) demo_waiting_steps) as (_ & Hb & _).
  split; [vm_compute; reflexivity|exact Hb].
Defined.
