(* ===== verification/HostEvents.v ===== *)
(** * Events a plugin reports to its host

    Models the event subscription of [crates/sandbox-driver-protocol/src/client/mod.rs]:
    the two bounded caches of contexts, [route] of a notification, and the task that
    forwards events to their observers, one at a time. An event's bytes hold permits
    until it is dropped. What an event is, and a context, are parameters, with the
    decoding of a notification; a [HashMap] gives its keys in any order. *)

From S2P Require Import Prelude Text Errors Wire Control.

#[local] Open Scope string_scope.
#[local] Open Scope list_scope.
#[local] Open Scope Z_scope.

(** The first key a map iterates over: some key of it. *)
Class AnyKey (C : Type) := {
  any_key : gmap string C -> option string;
  any_key_in m k : any_key m = Some k -> is_Some (m !! k);
  any_key_some m : m <> ∅ -> is_Some (any_key m);
}.

Record Notification (E : Type) := mkNotification { route_id : option string; event : E }.
Arguments mkNotification {E}.
Arguments route_id {E}.
Arguments event {E}.

(** An event in the queue, with its context and the permits its bytes hold. *)
Record Delivered (C E : Type) := mkDelivered { d_context : C; d_event : E; d_bytes : Z }.
Arguments mkDelivered {C E}.
Arguments d_context {C E}.
Arguments d_event {C E}.
Arguments d_bytes {C E}.

(** The task that forwards. *)
Inductive Consumer (C E : Type) := Receiving | Forwarding (d : Delivered C E) | Ended.
Arguments Receiving {C E}.
Arguments Forwarding {C E}.
Arguments Ended {C E}.

Section Events.
Context {C E : Type} `{AnyKey C}.
Context (decode : json -> result (Notification E) (list string)) (resource_of : E -> option string).
Context (limits : TransportLimits).

(** The last two are for the statements: what arrived, with the context it was for, and
    what was handed to an observer. *)
Record State := mkState {
  failure : option TransportError;
  contexts : gmap string C;
  routes : gmap string C;
  next_operation : Z;
  free : Z;
  queue : list (Delivered C E);
  consumer : Consumer C E;
  arrived : list (option C * E);
  observed : list (C * E);
}.

Definition events_start : State := mkState None ∅ ∅ 1 (event_queue_bytes limits) [] Receiving [] [].

Definition set_failure (s : State) (context : string) : State :=
  mkState (Some (mkTransportError context [])) (contexts s) (routes s) (next_operation s) (free s) (queue s)
    (consumer s) (arrived s) (observed s).

(** A full cache loses some older entry. *)
Definition make_room (m : gmap string C) : gmap string C :=
  if cached_handles limits <=? Z.of_nat (size m)
  then match any_key m with Some old => delete old m | None => m end
  else m.

Definition remember_event_context (s : State) (id : string) (context : C) : State :=
  mkState (failure s) (<[id := context]> (make_room (contexts s))) (routes s) (next_operation s) (free s) (queue s)
    (consumer s) (arrived s) (observed s).

Definition register_events (s : State) (context : C) : State * string :=
  let route := "event-" +:+ print_uint (next_operation s) in
  (mkState (failure s) (contexts s) (<[route := context]> (make_room (routes s))) (next_operation s + 1) (free s)
     (queue s) (consumer s) (arrived s) (observed s), route).

(** Part of [mark_closed]. *)
Definition clear_caches (s : State) : State :=
  mkState (failure s) ∅ ∅ (next_operation s) (free s) (queue s) (consumer s) (arrived s) (observed s).

(** The route id first, then the resource in the event's subject. *)
Definition context_for (s : State) (n : Notification E) : option C :=
  match route_id n ≫= fun r => routes s !! r with
  | Some c => Some c
  | None => resource_of (event n) ≫= fun id => contexts s !! id
  end.

Definition note_arrival (s : State) (c : option C) (e : E) : State :=
  mkState (failure s) (contexts s) (routes s) (next_operation s) (free s) (queue s) (consumer s)
    (arrived s ++ [(c, e)]) (observed s).

(** Permits, then the queue: both, or the subscription fails. *)
Definition deliver (s : State) (c : C) (e : E) (bytes : Z) : State :=
  match failure s with
  | Some _ => s
  | None =>
      let ended := match consumer s with Ended => true | _ => false end in
      if (bytes <=? free s) && negb (event_queue_messages limits <=? Z.of_nat (length (queue s))) && negb ended
      then mkState None (contexts s) (routes s) (next_operation s) (free s - bytes) (queue s ++ [mkDelivered c e bytes])
             (consumer s) (arrived s) (observed s)
      else set_failure s "event delivery capacity exceeded; event subscription is incomplete"
  end.

(** [route] of a message without an id; [bytes] is the length of its line. *)
Definition route (s : State) (m : Message) (bytes : Z) : result State TransportError :=
  match method m with
  | None => Ok s
  | Some method =>
      let params := default JNull (params m) in
      let s := if bool_decide (method = "host/event_failed")
               then set_failure s "plugin event subscription exceeded its delivery capacity" else s in
      if bool_decide (method = HOST_EVENT) then
        let? n := map_err (mkTransportError "decoding plugin host event") (decode params) in
        let context := context_for s n in
        let s := note_arrival s context (event n) in
        Ok match context with
           | None => set_failure s "event route expired; event subscription is incomplete"
           | Some c => deliver s c (event n) bytes
           end
      else Ok s
  end.

(** The task receives an event: it ends if the subscription failed, dropping the queue. *)
Definition consume (s : State) : State :=
  match queue s with
  | [] => s
  | d :: rest =>
      match failure s with
      | Some _ =>
          mkState (failure s) (contexts s) (routes s) (next_operation s)
            (free s + foldr (fun d n => d_bytes d + n) 0 (queue s)) [] Ended (arrived s) (observed s)
      | None =>
          mkState (failure s) (contexts s) (routes s) (next_operation s) (free s) rest (Forwarding d) (arrived s)
            (observed s ++ [(d_context d, d_event d)])
      end
  end.

(** The observer is done with it. *)
Definition forwarded (s : State) (d : Delivered C E) : State :=
  mkState (failure s) (contexts s) (routes s) (next_operation s) (free s + d_bytes d) (queue s) Receiving (arrived s)
    (observed s).

(** It took too long: the task ends, and with it the queue. *)
Definition timed_out (s : State) (d : Delivered C E) : State :=
  let s := set_failure s "event observer timed out; event subscription is incomplete" in
  mkState (failure s) (contexts s) (routes s) (next_operation s)
    (free s + d_bytes d + foldr (fun d n => d_bytes d + n) 0 (queue s)) [] Ended (arrived s) (observed s).

Inductive step (s : State) : State -> Prop :=
  | step_route m bytes s' : 0 <= bytes -> route s m bytes = Ok s' -> step s s'
  | step_remember id c : step s (remember_event_context s id c)
  | step_register c : step s (fst (register_events s c))
  | step_clear : step s (clear_caches s)
  | step_consume : consumer s = Receiving -> step s (consume s)
  | step_forwarded d : consumer s = Forwarding d -> step s (forwarded s d)
  | step_timed_out d : consumer s = Forwarding d -> step s (timed_out s d).

(** ** The invariant *)

Definition held (s : State) : Z :=
  foldr (fun d n => d_bytes d + n) 0 (queue s) + match consumer s with Forwarding d => d_bytes d | _ => 0 end.

Definition in_order (s : State) : list (option C * E) :=
  map (fun o => (Some (fst o), snd o)) (observed s) ++ map (fun d => (Some (d_context d), d_event d)) (queue s).

Record inv (s : State) : Prop := {
  inv_prefix : in_order s `prefix_of` arrived s;
  inv_all : failure s = None -> in_order s = arrived s;
  inv_ended : consumer s = Ended -> failure s <> None /\ queue s = [];
  inv_bytes : free s + held s = event_queue_bytes limits;
  inv_free : 0 <= free s;
  inv_each : Forall (fun d => 0 <= d_bytes d) (queue s);
  inv_current : match consumer s with Forwarding d => 0 <= d_bytes d | _ => True end;
  inv_queue : Z.of_nat (length (queue s)) <= event_queue_messages limits;
  inv_contexts : Z.of_nat (size (contexts s)) <= cached_handles limits;
  inv_routes : Z.of_nat (size (routes s)) <= cached_handles limits;
}.

Lemma make_room_size m : 1 <= cached_handles limits -> Z.of_nat (size m) <= cached_handles limits ->
  Z.of_nat (size (make_room m)) <= cached_handles limits - 1.
Proof.
  intros Hc Hm. unfold make_room. destruct (Z.leb_spec (cached_handles limits) (Z.of_nat (size m))) as [Hle|]; [|lia].
  assert (Hne : m <> ∅) by (intros ->; rewrite map_size_empty in Hle; lia).
  destruct (any_key_some m Hne) as [old Hold]. rewrite Hold. destruct (any_key_in m old Hold) as [c Hc'].
  rewrite map_size_delete_Some by (by eexists). lia.
Qed.

Lemma insert_size (m : gmap string C) k c : Z.of_nat (size (<[k := c]> m)) <= Z.of_nat (size m) + 1.
Proof. rewrite map_size_insert. destruct (m !! k); unfold id; lia. Qed.

Lemma bytes_nonneg (l : list (Delivered C E)) : Forall (fun d => 0 <= d_bytes d) l -> 0 <= foldr (fun d n => d_bytes d + n) 0 l.
Proof. induction 1; cbn; lia. Qed.

Lemma bytes_app (l k : list (Delivered C E)) :
  foldr (fun d n => d_bytes d + n) 0 (l ++ k) = foldr (fun d n => d_bytes d + n) 0 l + foldr (fun d n => d_bytes d + n) 0 k.
Proof. induction l; cbn; lia. Qed.

Lemma inv_start_events : 0 <= event_queue_bytes limits -> 0 <= event_queue_messages limits -> 1 <= cached_handles limits ->
  inv events_start.
Proof. intros. split; unfold held; cbn; rewrite ?map_size_empty; first [done | lia]. Qed.

Lemma inv_failure s context : inv s -> inv (set_failure s context).
Proof. intros []. split; cbn; try done. intros Hc. by destruct (inv_ended0 Hc). Qed.

Lemma hostevents_inv_route s m bytes s' : inv s -> 0 <= bytes -> route s m bytes = Ok s' -> inv s'.
Proof.
  intros Hinv Hb. unfold route. destruct (method m) as [t|]; [|by intros [= <-]].
  set (s1 := if bool_decide (t = "host/event_failed") then _ else s).
  assert (inv s1) as Hinv1 by (subst s1; case_bool_decide; [by apply inv_failure|done]).
  case_bool_decide; [|by intros [= <-]]. destruct (decode _) as [n|]; [|done]. cbn. intros [= <-].
  generalize dependent s1. clear s Hinv. intros s [].
  assert (Hmore : in_order s `prefix_of` arrived s ++ [(context_for s n, event n)]) by (by apply prefix_app_r).
  destruct (context_for s n) as [c|]; [|split; cbn; try done; intros Hc; by destruct (inv_ended0 Hc)].
  unfold deliver. cbn. destruct (failure s) eqn:Ef; [split; cbn; try done; naive_solver|].
  destruct (Z.leb_spec bytes (free s)); cbn; [|split; cbn; try done; intros Hc; by destruct (inv_ended0 Hc)].
  destruct (Z.leb_spec (event_queue_messages limits) (Z.of_nat (length (queue s)))); cbn;
    [split; cbn; try done; intros Hc; by destruct (inv_ended0 Hc)|].
  destruct (match consumer s with Ended => true | _ => false end) eqn:Ee; cbn.
  { destruct (consumer s); try done. by destruct (inv_ended0 eq_refl). }
  set (s' := mkState None _ _ _ _ _ _ _ _).
  assert (Ho : in_order s' = in_order s ++ [(Some c, event n)]) by (unfold in_order; cbn; by rewrite map_app, app_assoc).
  split; rewrite ?Ho; cbn; rewrite ?inv_all0 by done; try done.
  - intros Hc. by rewrite Hc in Ee.
  - unfold held in *. cbn. rewrite bytes_app. cbn. lia.
  - lia.
  - apply Forall_app. split; [done|by repeat constructor].
  - rewrite length_app. cbn. lia.
Qed.

Lemma hostevents_inv_next s s' : 1 <= cached_handles limits -> step s s' -> inv s -> inv s'.
Proof.
  intros Hcap Hstep Hinv. destruct Hstep as [m bytes s' Hb Hr|id c|c| |Hc|d Hc|d Hc].
  - by eapply hostevents_inv_route.
  - destruct Hinv. split; cbn; try done. pose proof (insert_size (make_room (contexts s)) id c).
    pose proof (make_room_size (contexts s) Hcap inv_contexts0). lia.
  - destruct Hinv. split; cbn; try done. pose proof (make_room_size (routes s) Hcap inv_routes0).
    etrans; [apply insert_size|lia].
  - destruct Hinv. split; cbn; try done; rewrite map_size_empty; lia.
  - destruct Hinv. unfold consume. destruct (queue s) as [|d rest] eqn:Eq; [by split; rewrite ?Eq|].
    apply Forall_cons in inv_each0 as [Hd Hrest]. pose proof (bytes_nonneg rest Hrest).
    unfold held in inv_bytes0. rewrite Eq, Hc in inv_bytes0. cbn in inv_bytes0.
    destruct (failure s) eqn:Ef; split; cbn; try done; unfold in_order, held in *; cbn; rewrite ?Eq in *; cbn in *.
    + rewrite app_nil_r. etrans; [|exact inv_prefix0]. by apply prefix_app_r.
    + lia.
    + lia.
    + lia.
    + by rewrite map_app, <- app_assoc.
    + intros _. rewrite map_app, <- app_assoc. by apply inv_all0.
    + lia.
    + lia.
  - destruct Hinv. rewrite Hc in inv_current0. split; cbn; try done.
    + unfold held in *. cbn. rewrite Hc in inv_bytes0. lia.
    + lia.
  - destruct Hinv. rewrite Hc in inv_current0. pose proof (bytes_nonneg _ inv_each0). split; cbn; try done.
    + unfold in_order in *. cbn. rewrite app_nil_r. etrans; [|exact inv_prefix0]. by apply prefix_app_r.
    + unfold held in *. cbn. rewrite Hc in inv_bytes0. lia.
    + lia.
    + lia.
Qed.

(** A failure of the subscription is for good. *)
Lemma failure_next s s' : step s s' -> failure s <> None -> failure s' <> None.
Proof.
  intros Hstep Hf. destruct Hstep as [m bytes s' Hb Hr|id c|c| |Hc|d Hc|d Hc]; try done.
  - unfold route in Hr. destruct (method m) as [t|]; [|by injection Hr as <-].
    set (s1 := if bool_decide (t = "host/event_failed") then _ else s) in Hr.
    assert (failure s1 <> None) by (subst s1; by destruct (bool_decide (t = "host/event_failed"))).
    case_bool_decide; [|by injection Hr as <-]. destruct (decode _) as [n|]; [|done]. injection Hr as <-.
    destruct (context_for s1 n); [|done]. unfold deliver. cbn. clearbody s1.
    destruct (failure s1) eqn:Ef; [cbn; congruence|done].
  - unfold consume. destruct (queue s); [done|]. by destruct (failure s) eqn:Ef.
Qed.

Lemma failure_steps s s' : rtc step s s' -> failure s <> None -> failure s' <> None.
Proof. induction 1; eauto using failure_next. Qed.

Section Reached.
Context (Hbytes : 0 <= event_queue_bytes limits) (Hmessages : 0 <= event_queue_messages limits)
  (Hcache : 1 <= cached_handles limits).
Context (s : State) (Hreach : rtc step events_start s).

Lemma events_inv : inv s.
Proof.
  pose proof (inv_start_events Hbytes Hmessages Hcache) as Hinv. revert Hinv. induction Hreach; [done|]. eauto using hostevents_inv_next.
Qed.

(** No event is lost in silence. Observers are handed the events of the connection
    in the order they arrived and with the context they were for, without a gap: what
    was handed out and what is queued is a prefix of what arrived, all of it unless
    the subscription has failed, and a failure, whatever its cause, is for good.
    Meanwhile the queue stays within its messages and its bytes, every byte permit is
    free or held by an event, and the two caches stay within theirs. *)
Theorem events_never_lost :
  in_order s `prefix_of` arrived s /\
  (failure s = None -> in_order s = arrived s) /\
  (forall s', rtc step s s' -> failure s <> None -> failure s' <> None) /\
  (0 <= free s /\ free s + held s = event_queue_bytes limits) /\
  Z.of_nat (length (queue s)) <= event_queue_messages limits /\
  Z.of_nat (size (contexts s)) <= cached_handles limits /\
  Z.of_nat (size (routes s)) <= cached_handles limits.
Proof. pose proof events_inv as []. split_and!; try done. intros s' Hs'. by apply failure_steps. Qed.
End Reached.
End Events.

(** Two events, the second larger than the bytes left. *)
Definition demo_any {C} (m : gmap string C) : option string := fst <$> head (map_to_list m).

Lemma demo_any_in {C} (m : gmap string C) k : demo_any m = Some k -> is_Some (m !! k).
Proof.
  unfold demo_any. destruct (map_to_list m) as [|[k' c] l] eqn:E; [done|]. cbn. intros [= <-]. exists c.
  apply elem_of_map_to_list. rewrite E. left.
Qed.

Lemma demo_any_some {C} (m : gmap string C) : m <> ∅ -> is_Some (demo_any m).
Proof.
  intros Hm. unfold demo_any. destruct (map_to_list m) as [|kc l] eqn:E; [|by eexists].
  by apply map_to_list_empty_iff in E.
Qed.

Definition demo_keys : AnyKey nat := {| any_key := demo_any; any_key_in := demo_any_in; any_key_some := demo_any_some |}.
Definition demo_decode (j : json) : result (Notification nat) (list string) := Ok (mkNotification (Some "event-1") 5%nat).

Definition demo_events : State :=
  let s := fst (@register_events nat nat demo_keys default_limits (events_start default_limits) 7%nat) in
  let s := default s (match @route nat nat demo_decode (fun _ => None) default_limits s (notification HOST_EVENT JNull) 100 with
                      | Ok s => Some s | Err _ => None end) in
  default s (match @route nat nat demo_decode (fun _ => None) default_limits s (notification HOST_EVENT JNull) (2 ^ 30) with
             | Ok s => Some s | Err _ => None end).

Lemma demo_events_steps :
  rtc (@step nat nat demo_keys demo_decode (fun _ => None) default_limits) (events_start default_limits) demo_events.
Proof.
  eapply rtc_l; [apply (step_register _ _ _ _ 7%nat)|].
  eapply rtc_l; [apply (step_route _ _ _ _ (notification HOST_EVENT JNull) 100); [lia|reflexivity]|].
  apply rtc_once. apply (step_route _ _ _ _ (notification HOST_EVENT JNull) (2 ^ 30)); [lia|reflexivity].
Qed.

Lemma events_never_lost_witness :
  in_order demo_events = [(Some 7%nat, 5%nat)] /\ in_order demo_events `prefix_of` arrived demo_events /\
  length (arrived demo_events) = 2%nat /\ failure demo_events <> None.
Proof.
  destruct (@events_never_lost nat nat demo_keys demo_decode (fun _ => None) default_limits ltac:(vm_compute; discriminate)
    ltac:(vm_compute; discriminate) ltac:(vm_compute; discriminate) demo_events demo_events_steps) as (Hp & _).
  split; [vm_compute; reflexivity|]. split; [exact Hp|]. split; [vm_compute; reflexivity|]. vm_compute. discriminate.
Defined.
