(* ===== verification/RemoteExec.v ===== *)
(** * An operation whose bytes ride a data channel

    Models, of [crates/sandbox-driver-protocol/src/client], [call_with_pump] and
    [Client::call_with_channel] in [mod.rs], and the remote exec in [exec.rs]: the pump
    of its channel, the deadline after a hard cancel, and the assembly of its result.
    As in [Drain], a future is the instant it resolves at with its output, or nothing;
    an oracle says which of two futures ready at one instant a [select!] polls first.
    Instants and durations are in milliseconds. *)

From S2P Require Import Prelude Text Capture Exec Errors Frames.

#[local] Open Scope string_scope.
#[local] Open Scope list_scope.
#[local] Open Scope Z_scope.

Notation future A := (option (Z * A)) (only parsing).

Definition LATE_CHANNEL_GRACE : Z := 10 * 1000.

Definition transport_new (context : string) : Error := Transport (mkTransportError context []).

(** The futures that are there by an instant. *)
Definition by_then {A} (f : future A) (t : Z) : option A :=
  match f with Some (d, a) => if d <=? t then Some a else None | None => None end.

Section Channel.
Context {R T : Type}.

Definition late_channel (method : string) : Error :=
  transport_new ("the plugin answered " +:+ method +:+ " without opening its data channel").

Definition pair_up (r : R) (t : result T Error) : result (R * T) Error := let? t := t in Ok (r, t).

(** Whether the pump is taken before the call. *)
Definition pump_first (tie : bool) (call : Z) (pump : future (result T Error)) : bool :=
  match pump with Some (p, _) => (p <? call) || ((p =? call) && tie) | None => false end.

(** [accepted] is when the channel was accepted, if it was. *)
Definition call_with_pump (tie : bool) (method : string) (call : future (result R Error))
    (pump : future (result T Error)) (accepted : option Z) : future (result (R * T) Error) :=
  match call with
  | None =>
      match pump with
      | Some (p, Err e) => Some (p, Err e)
      | _ => None
      end
  | Some (c, r) =>
      if pump_first tie c pump then
        match pump with
        | Some (p, Err e) => Some (p, Err e)
        | Some (_, Ok t) => Some (c, let? r := r in Ok (r, t))
        | None => None
        end
      else
        match r with
        | Err e => Some (c, Err e)
        | Ok r =>
            let is_accepted := match accepted with Some a => (a <? c) || ((a =? c) && tie) | None => false end in
            if is_accepted then match pump with Some (p, t) => Some (p, pair_up r t) | None => None end
            else
              match by_then pump (c + LATE_CHANNEL_GRACE), pump with
              | Some t, Some (p, _) => Some (p, pair_up r t)
              | _, _ => Some (c + LATE_CHANNEL_GRACE, Err (late_channel method))
              end
        end
  end.

(** [closed] is when the transport closes, [error] why; [drain] the hard-cancel drain. *)
Definition call_with_channel (tie : bool) (method : string) (call : future (result R Error))
    (pump : future (result T Error)) (accepted closed : option Z) (error : Error) (drain : Z)
    : future (result (R * T) Error) :=
  let operation := call_with_pump tie method call pump accepted in
  match closed with
  | None => operation
  | Some z =>
      match by_then operation z with
      | Some _ => operation
      | None =>
          match by_then call z with
          | Some (Ok _) =>
              match by_then operation (z + drain) with
              | Some _ => operation
              | None => Some (z + drain, Err error)
              end
          | _ => Some (z, Err error)
          end
      end
  end.
End Channel.

(** ** The pump of an exec *)

Inductive Read := RFrame (k : FrameKind) (payload : bytes) | REnd | RError (e : Error).

Inductive OutputStream := OutStdout | OutStderr.

#[export] Instance OutputStream_eq_dec : EqDecision OutputStream.
Proof. solve_decision. Defined.

Record PumpedOutput := mkPumped {
  p_stdout : OutputCaptureBuffer;
  p_stderr : OutputCaptureBuffer;
  sink_error : option Error;
}.

(** What pumping came to: when and how it ended, when the kill token fired, and what
    the sink was given. *)
Record PumpRun := mkRun {
  pump_ended : future (result PumpedOutput Error);
  killed : option Z;
  fed : list (OutputStream * bytes);
}.

Definition pumped_new (limit : option nat) : PumpedOutput := mkPumped (Capture.new limit) (Capture.new limit) None.

Definition push_output (o : PumpedOutput) (s : OutputStream) (payload : bytes) : PumpedOutput :=
  match s with
  | OutStdout => mkPumped (push (p_stdout o) payload) (p_stderr o) (sink_error o)
  | OutStderr => mkPumped (p_stdout o) (push (p_stderr o) payload) (sink_error o)
  end.

(** A token fires once. *)
Definition cancel (token : option Z) (now : Z) : option Z := Some (match token with Some t => Z.min t now | None => now end).

Definition stream_of (k : FrameKind) : option OutputStream :=
  match k with Stdout => Some OutStdout | Stderr => Some OutStderr | _ => None end.

Definition kind_name (k : FrameKind) : string :=
  match k with Open => "Open" | Stdout => "Stdout" | Stderr => "Stderr" | Stdin => "Stdin" | Eof => "Eof" end.

Section Pump.

(** How long each call of the sink takes and its answer, or nothing if there is no sink;
    the progress timeout. *)
Context (sink : option (nat -> future (result unit Error))) (timeout : Z).

(** One delivery under the timeout: how long it took, and what it came to. *)
Definition delivered (f : future (result unit Error)) : Z * result unit Error :=
  match f with
  | Some (d, r) => if d <=? timeout then (d, r) else (timeout, Err (transport_new "output sink made no progress"))
  | None => (timeout, Err (transport_new "output sink made no progress"))
  end.

(** The loop over what the reader gives and when; a read that comes while the pump is
    busy waits for it. *)
Fixpoint pump_loop (reads : list (Z * Read)) (now : Z) (o : PumpedOutput) (kill : option Z)
    (given : list (OutputStream * bytes)) : PumpRun :=
  match reads with
  | [] => mkRun None kill given
  | (at_, r) :: reads =>
      let now := Z.max now at_ in
      match r with
      | RError e => mkRun (Some (now, Err e)) kill given
      | REnd => mkRun (Some (now, Ok o)) kill given
      | RFrame Eof _ => mkRun (Some (now, Ok o)) kill given
      | RFrame k payload =>
          match stream_of k with
          | None =>
              mkRun (Some (now, Err (InvalidSpec "frame" ("unexpected " +:+ kind_name k +:+ " frame on exec output")))) kill given
          | Some s =>
              let o := push_output o s payload in
              match sink_error o, payload, sink with
              | None, _ :: _, Some sink =>
                  let '(d, r) := delivered (sink (length given)) in
                  let now := now + d in
                  let given := given ++ [(s, payload)] in
                  match r with
                  | Ok _ => pump_loop reads now o kill given
                  | Err e => pump_loop reads now (mkPumped (p_stdout o) (p_stderr o) (Some e)) (cancel kill now) given
                  end
              | _, _, _ => pump_loop reads now o kill given
              end
          end
      end
  end.

(** [input] is when the stdin task failed, and how. *)
Definition pump_exec_channel (reads : list (Z * Read)) (opened : Z) (limit : option nat) (input : future Error)
    (kill : option Z) : PumpRun :=
  let run := pump_loop reads opened (pumped_new limit) kill [] in
  match input with
  | None => run
  | Some (i, e) =>
      match pump_ended run with
      | Some (t, r) =>
          if i <=? t then
            mkRun (Some (t, match r with Ok _ => Err e | Err e' => Err e' end)) (cancel (killed run) i) (fed run)
          else run
      | None => mkRun None (cancel (killed run) i) (fed run)
      end
  end.
End Pump.

(** ** The result *)

Record ExecStreamResult := mkStreamResult {
  esr_exit_code : option Z;
  esr_signal : option Z;
  esr_termination : Termination;
  esr_duration_ms : Z;
  esr_streams_separated : bool;
  esr_live_streaming : bool;
  esr_stdout_capture : CaptureStats;
  esr_stderr_capture : CaptureStats;
  esr_output_loss : OutputLoss;
}.

(** What the plugin answers with of the result its provider gave it; the bytes went over
    the channel. *)
Definition stream_result (s : ExecStreamingResult) : ExecStreamResult :=
  let r := sr_result s in
  mkStreamResult (exit_code r) (res_signal r) (res_termination r) (Z.min (duration r) (u64_bound - 1))
    (streams_separated s) (live_streaming s) (stdout_capture s) (stderr_capture s) (output_loss s).

Definition into_result (r : ExecStreamResult) (out err : bytes) : ExecResult :=
  mkResult out err (esr_exit_code r) (esr_signal r) (esr_termination r) (esr_duration_ms r).

Definition set_truncated (s : CaptureStats) (b : bool) : CaptureStats :=
  mkStats (observed_bytes s) (retained_bytes s) (omitted_bytes s) b.

Definition failed_sink (o : PumpedOutput) : bool := match sink_error o with Some _ => true | None => false end.

(** The host's copy of the output with what the plugin says of the command. *)
Definition assemble (r : ExecStreamResult) (pumped : PumpedOutput) : ExecStreamingResult :=
  let '(out, out_stats) := into_parts (p_stdout pumped) in
  let '(err, err_stats) := into_parts (p_stderr pumped) in
  let res := into_result r out err in
  let res := if failed_sink pumped
             then mkResult (res_stdout res) (res_stderr res) (exit_code res) (res_signal res) Cancelled (duration res)
             else res in
  mkStreaming res (esr_streams_separated r) (esr_live_streaming r)
    (set_truncated out_stats (truncated (esr_stdout_capture r) || failed_sink pumped))
    (set_truncated err_stats (truncated (esr_stderr_capture r) || failed_sink pumped))
    (esr_output_loss r).

(** What the plugin has confirmed by an instant. *)
Definition progress_incomplete (stop_acknowledged : option Z) (call : future (result ExecStreamResult Error)) (now : Z)
    (operation : string) : IncompleteOperation :=
  mkIncomplete operation true
    (match stop_acknowledged with Some t => t <=? now | None => false end)
    (match by_then call now with
     | Some (Ok r) => match esr_termination r with Exited | Killed => true | _ => false end
     | _ => false
     end) false.

(** [run_channel_exec], given when the call answers, when the channel is accepted or its
    acceptance fails, what is read from it, when stdin fails, when the caller kills and
    the plugin acknowledges, and when the transport closes. *)
Definition run_channel_exec (tie late : bool) (method : string) (retained_output_bytes : nat) (limit : option nat)
    (sink : option (nat -> future (result unit Error))) (timeout drain : Z)
    (call : future (result ExecStreamResult Error)) (accept : future (result unit Error))
    (reads : list (Z * Read)) (input : future Error) (kill stop_acknowledged closed : option Z) (error : Error)
    : future (result ExecStreamingResult Error) :=
  if match limit with Some n => (retained_output_bytes <? n)%nat | None => false end
  then Some (0, Err (LimitExceededE "retained_output_bytes" (Z.of_nat retained_output_bytes)))
  else
    let run := match accept with
               | Some (a, Ok _) => pump_exec_channel sink timeout reads a limit input kill
               | Some (a, Err e) => mkRun (Some (a, Err e)) kill []
               | None => mkRun None kill []
               end in
    let accepted := match accept with Some (a, Ok _) => Some a | _ => None end in
    let execution := call_with_channel tie method call (pump_ended run) accepted closed error drain in
    match killed run, execution with
    | Some k, Some (d, _) =>
        if (d <? k + drain) || ((d =? k + drain) && negb late)
        then (fun x => (fst x, let? rp := snd x in Ok (assemble (fst rp) (snd rp)))) <$> execution
        else Some (k + drain, Err (Incomplete (progress_incomplete stop_acknowledged call (k + drain) "hard cancellation drain")))
    | Some k, None =>
        Some (k + drain, Err (Incomplete (progress_incomplete stop_acknowledged call (k + drain) "hard cancellation drain")))
    | None, _ => (fun x => (fst x, let? rp := snd x in Ok (assemble (fst rp) (snd rp)))) <$> execution
    end.

(** ** The operation and its two halves *)

(** An operation that succeeds has both halves, and is not done before either. *)
Definition complete_at {R T} (call : future (result R Error)) (pump : future (result T Error)) (o : Z * result (R * T) Error)
    : Prop :=
  match o with
  | (d, Ok (r, t)) => exists c p, call = Some (c, Ok r) /\ pump = Some (p, Ok t) /\ d = Z.max c p
  | _ => True
  end.

Lemma call_with_pump_complete {R T} tie method (call : future (result R Error)) (pump : future (result T Error)) accepted o :
  call_with_pump tie method call pump accepted = Some o -> complete_at call pump o.
Proof.
  unfold call_with_pump, pump_first, by_then. destruct call as [[c [r|e]]|], pump as [[p [t|e']]|]; cbn; try done.
  - destruct (Z.ltb_spec p c); cbn; [intros [= <-]; exists c, p; split_and!; (done || lia)|].
    destruct (Z.eqb_spec p c) as [->|]; cbn.
    + destruct tie; cbn; [intros [= <-]; exists c, c; split_and!; (done || lia)|].
      destruct (match accepted with Some a => _ | None => _ end); [intros [= <-]; exists c, c; split_and!; (done || lia)|].
      destruct (_ <=? _); intros [= <-]; [exists c, c; split_and!; (done || lia)|done].
    + destruct (match accepted with Some a => _ | None => _ end); [intros [= <-]; exists c, p; split_and!; (done || lia)|].
      destruct (_ <=? _); intros [= <-]; [exists c, p; split_and!; (done || lia)|done].
  - destruct (_ || _); [by intros [= <-]|]. destruct (match accepted with Some a => _ | None => _ end); [by intros [= <-]|].
    destruct (_ <=? _); by intros [= <-].
  - destruct (match accepted with Some a => _ | None => _ end); [done|]. by intros [= <-].
  - destruct (_ || _); by intros [= <-].
  - destruct (_ || _); by intros [= <-].
  - by intros [= <-].
  - by intros [= <-].
Qed.

Lemma call_with_channel_complete {R T} tie method (call : future (result R Error)) (pump : future (result T Error))
    accepted closed error drain o :
  call_with_channel tie method call pump accepted closed error drain = Some o -> complete_at call pump o.
Proof.
  unfold call_with_channel. pose proof (fun o => call_with_pump_complete tie method call pump accepted o) as Hp.
  destruct closed as [z|]; [|apply Hp]. destruct (by_then _ z); [apply Hp|].
  destruct (by_then call z) as [[r|e]|]; [|by intros [= <-]|by intros [= <-]].
  destruct (by_then _ (z + drain)); [apply Hp|by intros [= <-]].
Qed.

(** A result never lands ahead of the bytes it describes, and the operation ends.
    When an operation with a channel succeeds, the plugin has answered and the pump has
    ended, and it is done at the later of the two; when the call or the pump fails
    first, it fails then; when the transport closes at [z] it is over by [z] if the
    plugin had not answered, and by the end of the drain in any case; and when the
    plugin answered without opening the channel, by the end of the grace. *)
Theorem channel_operation {R T} tie method (call : future (result R Error)) (pump : future (result T Error))
    accepted closed error drain :
  let operation := call_with_channel tie method call pump accepted closed error drain in
  (forall o, operation = Some o -> complete_at call pump o) /\
  (forall z, closed = Some z -> 0 <= drain -> exists d o, operation = Some (d, o) /\ d <= z + drain /\
    (match by_then call z with Some (Ok _) => False | _ => True end -> d <= z)) /\
  (forall c r, call = Some (c, Ok r) -> accepted = None -> exists d o, operation = Some (d, o) /\ d <= c + LATE_CHANNEL_GRACE) /\
  (closed = None ->
    (forall c e, call = Some (c, Err e) -> match pump with Some (p, _) => c < p | None => True end -> operation = Some (c, Err e)) /\
    (forall p e, pump = Some (p, Err e) -> match call with Some (c, _) => p < c | None => True end -> operation = Some (p, Err e))).
Proof.
  intros operation. subst operation. split_and!.
  - intros o. apply call_with_channel_complete.
  - intros z -> Hd. unfold call_with_channel. destruct (by_then _ z) eqn:Ez.
    { unfold by_then in Ez. destruct (call_with_pump _ _ _ _ _) as [[d o]|]; [|done].
      destruct (Z.leb_spec d z); [|done]. exists d, o. split_and!; (done || lia). }
    destruct (by_then call z) as [[r|e]|]; [|exists z, (Err error); split_and!; (done || lia)..].
    destruct (by_then _ (z + drain)) eqn:Ed; [|exists (z + drain), (Err error); split_and!; (done || lia)].
    unfold by_then in Ed. destruct (call_with_pump _ _ _ _ _) as [[d o]|]; [|done].
    destruct (Z.leb_spec d (z + drain)); [|done]. exists d, o. split_and!; (done || lia).
  - intros c r -> ->.
    assert (Hp : exists d o, call_with_pump tie method (Some (c, Ok r)) pump None = Some (d, o) /\ d <= c + LATE_CHANNEL_GRACE).
    { unfold call_with_pump, pump_first, by_then, LATE_CHANNEL_GRACE. destruct pump as [[p [t|e]]|]; [..|by eexists _, _].
      - destruct (_ || _); [eexists _, _; split; [done|lia]|]. destruct (Z.leb_spec p (c + 10 * 1000)); by eexists _, _.
      - destruct (Z.ltb_spec p c); cbn; [eexists _, _; split; [done|lia]|].
        destruct (Z.eqb_spec p c); cbn; [destruct tie; [eexists _, _; split; [done|lia]|]|];
          (destruct (Z.leb_spec p (c + 10 * 1000)); by eexists _, _). }
    destruct Hp as (d & o & Hp & Hd). unfold call_with_channel. rewrite Hp. destruct closed as [z|]; [|by exists d, o].
    unfold by_then. destruct (Z.leb_spec d z); [by exists d, o|]. destruct (Z.leb_spec c z).
    + destruct (Z.leb_spec d (z + drain)); [by exists d, o|]. eexists _, _. split; [done|lia].
    + eexists _, _. split; [done|lia].
  - intros ->. unfold call_with_channel, call_with_pump, pump_first. split.
    + intros c e -> Hc. destruct pump as [[p t]|]; [|done].
      destruct (Z.ltb_spec p c); [lia|]. destruct (Z.eqb_spec p c); [lia|]. done.
    + intros p e -> Hp. destruct call as [[c r]|]; [|done]. by destruct (Z.ltb_spec p c); [|lia].
Qed.

(** The grace bounds the whole pump, not the opening of the channel alone: a channel
    opened within it whose bytes end after it is reported as one never opened. *)
Lemma late_channel_cut {R T} tie method (r : R) (t : T) c a p :
  c < a <= c + LATE_CHANNEL_GRACE -> c + LATE_CHANNEL_GRACE < p ->
  call_with_pump tie method (Some (c, Ok r)) (Some (p, Ok t)) (Some a)
    = Some (c + LATE_CHANNEL_GRACE, Err (late_channel method)).
Proof.
  unfold LATE_CHANNEL_GRACE. intros Ha Hp. unfold call_with_pump, pump_first, by_then, LATE_CHANNEL_GRACE.
  destruct (Z.ltb_spec p c); [lia|]. destruct (Z.eqb_spec p c); [lia|]. cbn.
  destruct (Z.ltb_spec a c); [lia|]. destruct (Z.eqb_spec a c); [lia|]. cbn.
  by destruct (Z.leb_spec p (c + 10 * 1000)); [lia|].
Qed.

(** ** What the pump keeps and what the sink is given *)

Section PumpSpec.
Context (sink : nat -> future (result unit Error)) (timeout : Z).

(** The frames of some output, ended. *)
Definition kind_of (s : OutputStream) : FrameKind := match s with OutStdout => Stdout | OutStderr => Stderr end.

Fixpoint frames (output : list (Z * (OutputStream * bytes))) (last : Z) : list (Z * Read) :=
  match output with
  | [] => [(last, RFrame Eof [])]
  | (t, (s, payload)) :: output => (t, RFrame (kind_of s) payload) :: frames output last
  end.

Definition payloads (s : OutputStream) (output : list (Z * (OutputStream * bytes))) : list bytes :=
  map snd (filter (fun c => fst c = s) (map snd output)).

(** The chunks a sink is called for. *)
Definition sinkable (output : list (Z * (OutputStream * bytes))) : list (OutputStream * bytes) :=
  filter (fun c => snd c <> []) (map snd output).

Definition sink_ok (i : nat) : Prop := exists u, snd (delivered timeout (sink i)) = Ok u.

(** Everything is kept, whatever the sink does. *)
Definition kept (o o' : PumpedOutput) (output : list (Z * (OutputStream * bytes))) : Prop :=
  p_stdout o' = push_all (p_stdout o) (payloads OutStdout output) /\
  p_stderr o' = push_all (p_stderr o) (payloads OutStderr output).

Lemma kept_cons o o' o'' s payload t output :
  p_stdout o' = p_stdout (push_output o s payload) -> p_stderr o' = p_stderr (push_output o s payload) ->
  kept o' o'' output -> kept o o'' ((t, (s, payload)) :: output).
Proof.
  unfold kept, payloads. intros Ho He [-> ->]. rewrite Ho, He. cbn [map snd]. rewrite !filter_cons. cbn [fst].
  by destruct s; repeat case_decide; try congruence.
Qed.

(** A pump whose sink has failed. *)
Lemma pump_failed output last now o kill given e : sink_error o = Some e ->
  exists d o', pump_loop (Some sink) timeout (frames output last) now o kill given = mkRun (Some (d, Ok o')) kill given /\
    kept o o' output /\ sink_error o' = Some e.
Proof.
  revert now o. induction output as [|[t [s payload]] output IH]; intros now o He.
  - cbn. eexists _, o. split_and!; try done.
  - destruct (IH (Z.max now t) (push_output o s payload)) as (d & o' & Hrun & Hk & He').
    { by destruct s. }
    exists d, o'. split_and!; [|by eapply kept_cons|done]. cbn [frames pump_loop].
    replace (stream_of (kind_of s)) with (Some s) by (by destruct s).
    assert (Hs : sink_error (push_output o s payload) = Some e) by (by destruct s). rewrite Hs.
    destruct s; exact Hrun.
Qed.

(** The pump, its sink being called for the [length given]th time next. *)
Lemma pump_spec output last now o kill given : sink_error o = None ->
  exists d o', let run := pump_loop (Some sink) timeout (frames output last) now o kill given in
    pump_ended run = Some (d, Ok o') /\ kept o o' output /\
    (((forall i, (i < length (sinkable output))%nat -> sink_ok (length given + i)) /\
      sink_error o' = None /\ fed run = given ++ sinkable output /\ killed run = kill) \/
     exists n e k, (n < length (sinkable output))%nat /\ (forall i, (i < n)%nat -> sink_ok (length given + i)) /\
       snd (delivered timeout (sink (length given + n))) = Err e /\
       sink_error o' = Some e /\ fed run = given ++ take (S n) (sinkable output) /\ killed run = Some k).
Proof.
  revert now o given. induction output as [|[t [s payload]] output IH]; intros now o given He.
  - cbn. eexists _, o. split_and!; try done. left. split_and!; try done; [intros i; lia|by rewrite app_nil_r].
  - cbn [frames pump_loop]. replace (stream_of (kind_of s)) with (Some s) by (by destruct s).
    assert (Hs : sink_error (push_output o s payload) = None) by (by destruct s). rewrite Hs.
    set (now' := Z.max now t).
    assert (Hsk : sinkable ((t, (s, payload)) :: output) =
      match payload with [] => sinkable output | _ => (s, payload) :: sinkable output end).
    { unfold sinkable. cbn [map snd]. rewrite filter_cons. cbn [snd]. by destruct payload; case_decide. }
    destruct payload as [|b payload].
    { destruct (IH now' (push_output o s []) given Hs) as (d & o' & Hd & Hk & Hsp). exists d, o'. rewrite Hsk.
      split_and!; [by destruct s|by eapply kept_cons|by destruct s]. }
    assert (Hread : forall A (x y : A), match kind_of s with Eof => x | _ => y end = y) by (by destruct s).
    destruct (delivered timeout (sink (length given))) as [dur [u|e]] eqn:Ed.
    + destruct (IH (now' + dur) (push_output o s (b :: payload)) (given ++ [(s, b :: payload)]) Hs)
        as (d & o' & Hd & Hk & Hsp).
      rewrite length_app in Hsp. cbn [length] in Hsp. exists d, o'. rewrite Hsk, Hread.
      split_and!; [done|by eapply kept_cons|]. destruct Hsp as [(Hok & Hno & Hf & Hkl)|(n & e & k & Hn & Hok & Hfail & Hse & Hf & Hkl)].
      * left. split_and!; [|done|by rewrite Hf, <- app_assoc|done]. intros [|i] Hi; [rewrite Nat.add_0_r; exists u; by rewrite Ed|].
        cbn in Hi. replace (length given + S i)%nat with (length given + 1 + i)%nat by lia. apply Hok. lia.
      * right. exists (S n), e, k. split_and!; [cbn; lia| | |done|by rewrite Hf, <- app_assoc|done].
        -- intros [|i] Hi; [rewrite Nat.add_0_r; exists u; by rewrite Ed|].
           replace (length given + S i)%nat with (length given + 1 + i)%nat by lia. apply Hok. lia.
        -- by replace (length given + S n)%nat with (length given + 1 + n)%nat by lia.
    + set (o1 := mkPumped (p_stdout (push_output o s (b :: payload))) (p_stderr (push_output o s (b :: payload))) (Some e)).
      destruct (pump_failed output last (now' + dur) o1 (cancel kill (now' + dur)) (given ++ [(s, b :: payload)]) e eq_refl)
        as (d & o' & Hrun & Hk & He').
      exists d, o'. rewrite Hsk, Hread, Hrun. split_and!; [done|by eapply kept_cons; [..|exact Hk]|]. right.
      eexists 0%nat, e, _. split_and!; [cbn; lia|intros i; lia|by rewrite Nat.add_0_r, Ed|done|done|done].
Qed.
End PumpSpec.

(** ** The exec *)

Lemma pump_killed sink timeout reads now o kill given k : kill = Some k ->
  exists k', killed (pump_loop sink timeout reads now o kill given) = Some k' /\ k' <= k.
Proof.
  revert now o kill given k. induction reads as [|[t r] reads IH]; intros now o kill given k ->; [exists k; split; (done || lia)|].
  cbn [pump_loop]. destruct r as [fk payload| |e]; [|exists k; split; (done || lia)..].
  assert (Hgo : exists k', killed (match stream_of fk with
      | None => mkRun (Some (Z.max now t, Err (InvalidSpec "frame" ("unexpected " +:+ kind_name fk +:+ " frame on exec output"))))
                  (Some k) given
      | Some s =>
          let o := push_output o s payload in
          match sink_error o, payload, sink with
          | None, _ :: _, Some sink' =>
              let '(d, r) := delivered timeout (sink' (length given)) in
              let now := Z.max now t + d in
              let given := given ++ [(s, payload)] in
              match r with
              | Ok _ => pump_loop sink timeout reads now o (Some k) given
              | Err e => pump_loop sink timeout reads now (mkPumped (p_stdout o) (p_stderr o) (Some e)) (cancel (Some k) now) given
              end
          | _, _, _ => pump_loop sink timeout reads (Z.max now t) o (Some k) given
          end
      end) = Some k' /\ k' <= k).
  { destruct (stream_of fk) as [s|]; [|exists k; split; (done || lia)]. cbn zeta.
    destruct (sink_error _), payload, sink as [sink'|]; try (by apply IH).
    destruct (delivered timeout (sink' (length given))) as [d [u|e]]; [by apply IH|].
    edestruct IH as (k' & Hk' & Hle); [reflexivity|]. exists k'. split; [exact Hk'|]. cbn in Hle. lia. }
  by destruct fk; exact Hgo.
Qed.

Lemma pump_exec_killed sink timeout reads a limit input kill k : kill = Some k ->
  exists k', killed (pump_exec_channel sink timeout reads a limit input kill) = Some k' /\ k' <= k.
Proof.
  intros ->. unfold pump_exec_channel.
  destruct (pump_killed sink timeout reads a (pumped_new limit) (Some k) [] k eq_refl) as (k' & Hk & Hle).
  destruct input as [[i e]|]; [|by exists k'].
  destruct (pump_ended _) as [[t r]|]; [destruct (i <=? t); [|by exists k']|]; cbn; rewrite Hk; eexists; split; (done || cbn; lia).
Qed.

(** A hard cancel is bounded. Once the caller has killed a remote exec it is over
    by the end of the drain, whatever the plugin, the channel, the sink or standard
    input do; and what it then returns, if the result has not arrived, says no more
    than what the plugin had confirmed. *)
Theorem remote_kill_bounded tie late method retained limit sink timeout drain call accept reads input z ack closed error :
  match limit with Some n => (n <= retained)%nat | None => True end ->
  exists d o, run_channel_exec tie late method retained limit sink timeout drain call accept reads input (Some z) ack closed error
      = Some (d, o) /\ d <= z + drain /\
    ((exists k, k <= z /\ d = k + drain /\
        o = Err (Incomplete (progress_incomplete ack call (k + drain) "hard cancellation drain"))) \/
     exists pumped accepted x, call_with_channel tie method call pumped accepted closed error drain = Some (d, x) /\
       o = (let? rp := x in Ok (assemble (fst rp) (snd rp)))).
Proof.
  intros Hl. unfold run_channel_exec.
  replace (match limit with Some n => (retained <? n)%nat | None => false end) with false
    by (destruct limit; [symmetry; by apply Nat.ltb_ge|done]).
  set (run := match accept with Some (a, Ok _) => _ | Some (a, Err e) => _ | None => _ end).
  assert (Hk : exists k, killed run = Some k /\ k <= z).
  { subst run. destruct accept as [[a [u|e]]|]; [by apply pump_exec_killed|exists z; split; (done || lia)..]. }
  destruct Hk as (k & Hk & Hle). rewrite Hk. cbn zeta.
  destruct (call_with_channel _ _ _ _ _ _ _ _) as [[d o]|] eqn:Eo.
  - destruct ((d <? k + drain) || ((d =? k + drain) && negb late)) eqn:Ed.
    + eexists d, _. split; [done|]. split; [|right; eexists _, _, o; split; [exact Eo|done]].
      apply orb_true_iff in Ed as [?%Z.ltb_lt|[?%Z.eqb_eq _]%andb_true_iff]; lia.
    + eexists _, _. split; [done|]. split; [lia|]. left. exists k. split_and!; (done || lia).
  - eexists _, _. split; [done|]. split; [lia|]. left. exists k. split_and!; (done || lia).
Qed.

(** A command, whatever ran it: the bytes of its streams, how it ended, and what its
    provider says of the delivery. *)
Record Command := mkCommand {
  c_stdout : bytes;
  c_stderr : bytes;
  c_exit_code : option Z;
  c_signal : option Z;
  c_termination : Termination;
  c_duration : Z;
  c_separated : bool;
  c_live : bool;
  c_stdout_truncated : bool;
  c_stderr_truncated : bool;
  c_loss : OutputLoss;
}.

(** What its caller has of it where it runs: the head and the tail of each stream that
    the limit leaves, an account of every byte, and all that is known of its end. *)
Definition account (limit : option nat) (stream : bytes) (cut : bool) : CaptureStats :=
  let n := default 0%nat limit in
  mkStats (length stream) (n `min` length stream)%nat (length stream - n)%nat cut.
Definition kept_of (limit : option nat) (stream : bytes) : bytes := head_tail (default 0%nat limit) stream.
Definition local (limit : option nat) (cmd : Command) : ExecStreamingResult :=
  mkStreaming
    (mkResult (kept_of limit (c_stdout cmd)) (kept_of limit (c_stderr cmd)) (c_exit_code cmd) (c_signal cmd)
       (c_termination cmd) (c_duration cmd))
    (c_separated cmd) (c_live cmd)
    (account limit (c_stdout cmd) (c_stdout_truncated cmd)) (account limit (c_stderr cmd) (c_stderr_truncated cmd))
    (c_loss cmd).

(** The same command, cancelled, its delivery cut short. *)
Definition cancelled (cmd : Command) : Command :=
  mkCommand (c_stdout cmd) (c_stderr cmd) (c_exit_code cmd) (c_signal cmd) Cancelled (c_duration cmd)
    (c_separated cmd) (c_live cmd) true true (c_loss cmd).

Lemma assemble_local limit cmd output failed : c_duration cmd < u64_bound ->
  concat (payloads OutStdout output) = c_stdout cmd -> concat (payloads OutStderr output) = c_stderr cmd ->
  assemble (stream_result (local (Some 0%nat) cmd))
    (mkPumped (push_all (Capture.new limit) (payloads OutStdout output))
              (push_all (Capture.new limit) (payloads OutStderr output)) failed) =
  local limit (match failed with Some _ => cancelled cmd | None => cmd end).
Proof.
  intros Hd Ho He. unfold assemble, failed_sink. cbn [p_stdout p_stderr sink_error].
  rewrite !captured_parts, Ho, He. cbn zeta iota beta. destruct cmd as [out err code sig t d sep live co ce loss]. cbn in Hd.
  cbv [stream_result local cancelled into_result set_truncated account kept_of sr_result esr_exit_code esr_signal
    esr_termination esr_duration_ms esr_streams_separated esr_live_streaming esr_stdout_capture esr_stderr_capture
    esr_output_loss exit_code res_signal res_termination duration res_stdout res_stderr streams_separated live_streaming
    stdout_capture stderr_capture output_loss observed_bytes retained_bytes omitted_bytes truncated c_stdout c_stderr
    c_exit_code c_signal c_termination c_duration c_separated c_live c_stdout_truncated c_stderr_truncated c_loss].
  rewrite Z.min_l by lia. by destruct failed; rewrite ?orb_true_r, ?orb_false_r.
Qed.

(** The channel is opened before the plugin answers, or what it carries is there within
    the grace. *)
Definition opened_in_time (opened answered : Z) (ended : future (result PumpedOutput Error)) : Prop :=
  opened < answered \/ match ended with Some (p, _) => p <= answered + LATE_CHANNEL_GRACE | None => False end.

Lemma operation_joins tie method (r : ExecStreamResult) c a p (o : PumpedOutput) error drain :
  opened_in_time a c (Some (p, Ok o)) ->
  exists d, c <= d /\ call_with_channel tie method (Some (c, Ok r)) (Some (p, Ok o)) (Some a) None error drain
    = Some (d, Ok (r, o)).
Proof.
  intros Hopen. unfold call_with_channel, call_with_pump, pump_first, by_then.
  destruct (Z.ltb_spec p c); cbn; [exists c; split; (done || lia)|].
  destruct (Z.eqb_spec p c); cbn; [destruct tie; [exists c; split; (done || lia)|]|];
    (exists p; split; [lia|]; destruct (Z.ltb_spec a c); cbn; [done|];
     destruct Hopen as [?|Hp]; [lia|]; case_match; [done|]; by destruct (Z.leb_spec p (c + LATE_CHANNEL_GRACE)); [|lia]).
Qed.

(** C35. A remote exec is a local one. Take a command, any, as its provider reports it to
    the plugin, which retains none of its output; let the channel carry the bytes of its
    streams in whatever frames, and its end, and be opened before the plugin's answer or
    carry all within the grace that follows it; and let the caller ask for no more output
    than the client may retain and kill nothing, its input not fail, and the connection
    stay up ([remote_kill_bounded] and [channel_operation] have the rest). Then the host
    returns exactly what the caller would have where the command runs: the bytes its own
    limit leaves, the account of all that were written, and the plugin's exit code,
    signal, termination, duration (of less than 2^64 milliseconds), stream flags,
    truncation flags and losses; for one that ran to its end and lost nothing that is what
    a provider builds from the chunks.
    The sink is given every chunk that is not empty, in order. If a call of it fails, it
    is given no more, the rest of the output is still retained, the command is killed,
    and the exec returns that result as a cancellation with both streams cut, which is
    not taken for complete, or says that it could not be drained in time. *)
Theorem remote_exec tie late method retained limit sink timeout drain cmd output last c a error
    (Hlimit : match limit with Some n => (n <= retained)%nat | None => True end) (Hfits : c_duration cmd < u64_bound)
    (Hout : concat (payloads OutStdout output) = c_stdout cmd) (Herr : concat (payloads OutStderr output) = c_stderr cmd) :
  let run := pump_exec_channel (Some sink) timeout (frames output last) a limit None None in
  let call := Some (c, Ok (stream_result (local (Some 0%nat) cmd))) in
  let result := run_channel_exec tie late method retained limit (Some sink) timeout drain call (Some (a, Ok tt))
                  (frames output last) None None None None error in
  opened_in_time a c (pump_ended run) ->
  ((forall i, (i < length (sinkable output))%nat -> sink_ok sink timeout i) ->
    fed run = sinkable output /\ killed run = None /\ exists d, c <= d /\ result = Some (d, Ok (local limit cmd))) /\
  (forall n e, (n < length (sinkable output))%nat -> (forall i, (i < n)%nat -> sink_ok sink timeout i) ->
    snd (delivered timeout (sink n)) = Err e ->
    fed run = take (S n) (sinkable output) /\
    exists k d o, killed run = Some k /\ result = Some (d, o) /\
      (o = Ok (local limit (cancelled cmd)) \/
       d = k + drain /\ o = Err (Incomplete (progress_incomplete None call (k + drain) "hard cancellation drain")))) /\
  into_complete (local limit (cancelled cmd)) = Err DeliveryIncomplete /\
  (c_signal cmd = None -> c_separated cmd = true -> c_live cmd = true -> c_stdout_truncated cmd = false ->
   c_stderr_truncated cmd = false ->
   local limit cmd = captured limit (payloads OutStdout output) (payloads OutStderr output) (c_termination cmd)
     (c_exit_code cmd) (c_duration cmd) (c_loss cmd)).
Proof.
  intros run call result Hopen. set (r := stream_result (local (Some 0%nat) cmd)) in *.
  destruct (pump_spec sink timeout output last a (pumped_new limit) None [] eq_refl) as (p & o & Hended & [Ho Hoe] & Hcases).
  change (pump_loop (Some sink) timeout (frames output last) a (pumped_new limit) None []) with run in *.
  rewrite Hended in Hopen. destruct (operation_joins tie method r c a p o error drain Hopen) as (d & Hcd & Hexec).
  assert (Hloc : assemble r o = local limit (match sink_error o with Some _ => cancelled cmd | None => cmd end)).
  { rewrite <- (assemble_local limit cmd output (sink_error o) Hfits Hout Herr). cbn in Ho, Hoe. rewrite <- Ho, <- Hoe.
    by destruct o. }
  assert (Hresult : result = match killed run with
      | Some k => if (d <? k + drain) || ((d =? k + drain) && negb late) then Some (d, Ok (assemble r o))
                  else Some (k + drain, Err (Incomplete (progress_incomplete None call (k + drain) "hard cancellation drain")))
      | None => Some (d, Ok (assemble r o))
      end).
  { subst result. unfold run_channel_exec.
    replace (match limit with Some n => (retained <? n)%nat | None => false end) with false
      by (destruct limit; [symmetry; by apply Nat.ltb_ge|done]).
    change (pump_exec_channel (Some sink) timeout (frames output last) a limit None None) with run. cbn zeta.
    rewrite Hended. subst call. rewrite Hexec. done. }
  rewrite Hloc in Hresult. clear Hloc Hexec. split_and!.
  - intros Hok. destruct Hcases as [(_ & Hse & Hf & Hk)|(n & e & k & Hn & _ & Hfail & _)].
    + cbn in Hf. split_and!; [done|done|]. exists d. split; [done|]. by rewrite Hresult, Hk, Hse.
    + destruct (Hok n Hn) as [u Hu]. cbn in Hfail. congruence.
  - intros n e Hn Hok Hfail. destruct Hcases as [(Hall & _)|(n' & e' & k & Hn' & Hok' & Hfail' & Hse & Hf & Hk)].
    { destruct (Hall n Hn) as [u Hu]. cbn in Hu. congruence. }
    assert (n' = n) as ->.
    { destruct (Nat.lt_trichotomy n n') as [Hlt|[->|Hlt]]; [|done|].
      - destruct (Hok' n Hlt) as [u Hu]. cbn in Hu. congruence.
      - destruct (Hok n' Hlt) as [u Hu]. cbn in Hfail'. congruence. }
    split; [done|]. rewrite Hresult, Hk, Hse. exists k.
    destruct (_ || _); eexists _, _; (split_and!; [done|done|]); [by left|by right].
  - done.
  - intros H1 H2 H3 H4 H5. unfold captured. rewrite !captured_parts, Hout, Herr. cbn zeta iota beta.
    unfold local. by rewrite H1, H2, H3, H4, H5.
Qed.

(** A command a signal ended, some of whose standard error its provider could not drain. *)
Definition demo_command : Command :=
  mkCommand [104; 105; 10] [33] None (Some 15) Exited 5 true true false true no_loss.
Definition demo_output : list (Z * (OutputStream * bytes)) :=
  [(11, (OutStdout, [104; 105])); (12, (OutStderr, [33])); (13, (OutStdout, [10]))].

Lemma remote_exec_witness :
  exists d, run_channel_exec true false "exec/stream" 100 (Some 2%nat) (Some (fun _ => Some (1, Ok tt))) 1000 5000
    (Some (20, Ok (stream_result (local (Some 0%nat) demo_command)))) (Some (10, Ok tt)) (frames demo_output 15) None None None None (Io "" [])
  = Some (d, Ok (mkStreaming (mkResult [104; 10] [33] None (Some 15) Exited 5) true true
      (mkStats 3 2 1 false) (mkStats 1 1 0 true) no_loss)).
Proof.
  destruct (remote_exec true false "exec/stream" 100 (Some 2%nat) (fun _ => Some (1, Ok tt)) 1000 5000 demo_command demo_output 15 20
    10 (Io "" [])) as (Hok & _); [lia|reflexivity|reflexivity|reflexivity|left; lia|].
  destruct Hok as (_ & _ & d & _ & Hd); [intros i _; by exists tt|]. exists d. rewrite Hd. reflexivity.
Defined.

Lemma remote_kill_bounded_witness :
  exists d o, run_channel_exec true false "exec/stream" 100 None None 1000 5000 None (Some (10, Ok tt)) [] None (Some 30) (Some 31)
    None (Io "" []) = Some (d, o) /\ d <= 5030.
Proof.
  destruct (remote_kill_bounded true false "exec/stream" 100 None None 1000 5000 None (Some (10, Ok tt)) [] None 30 (Some 31) None
    (Io "" []) I) as (d & o & He & Hd & _).
  exists d, o. split; [exact He|exact Hd].
Defined.

Lemma channel_operation_witness :
  call_with_channel true "fs/read" (Some (3, Ok 1)) (Some (7, Ok 2)) (Some 2) (Some 5) (Io "" []) 5000 = Some (7, Ok (1, 2)) /\
  exists d o, call_with_channel (R := Z) (T := Z) true "fs/read" None None None (Some 5) (Io "" []) 5000 = Some (d, o) /\ d <= 5.
Proof.
  split; [vm_compute; reflexivity|].
  destruct (channel_operation (R := Z) (T := Z) true "fs/read" None None None (Some 5) (Io "" []) 5000) as (_ & Hz & _).
  destruct (Hz 5 eq_refl) as (d & o & He & _ & Hd); [lia|]. exists d, o. split; [exact He|]. apply Hd. exact I.
Defined.
