(* ===== verification/Server.v ===== *)
(** * What a plugin holds for its host

    Models, of [crates/sandbox-driver-protocol/src/server], the admission of requests
    and the end of a connection in [mod.rs], the registries of [registry.rs], the exec
    registrations of [exec.rs], the stdio processes and terminals of [sessions.rs] and
    the stream registrations of [services.rs]. Every request is a task; a step is what
    one does between two awaits, and what the provider and the channels answer is up to
    the environment. A session is the request that opened it, and a request's tokens
    are its own. *)

From S2P Require Import Prelude Exec Errors Control Methods HostEvents.

#[local] Open Scope string_scope.
#[local] Open Scope list_scope.
#[local] Open Scope Z_scope.

(** ** Registries *)

Section Registry.
Context {T : Type}.
Implicit Type r : gmap string T.

(** The value comes back when the id is taken. *)
Definition try_insert (r : gmap string T) (id : string) (v : T) : result (gmap string T) T :=
  match r !! id with None => Ok (<[id := v]> r) | Some _ => Err v end.

Definition insert_bounded `{AnyKey T} (r : gmap string T) (id : string) (v : T) (max : Z) : gmap string T :=
  let r :=
    match r !! id with
    | None => if max <=? Z.of_nat (size r)
              then match any_key r with Some oldest => delete oldest r | None => r end
              else r
    | Some _ => r
    end in
  <[id := v]> r.

(** [drain]: every value, in any order. *)
Definition drained_to (r : gmap string T) (vs : list T) : Prop := vs ≡ₚ (map_to_list r).*2.

Lemma insert_bounded_size `{AnyKey T} r id v max : 1 <= max -> Z.of_nat (size r) <= max ->
  Z.of_nat (size (insert_bounded r id v max)) <= max /\ insert_bounded r id v max !! id = Some v.
Proof.
  intros Hm Hr. unfold insert_bounded. split; [|by rewrite lookup_insert_eq]. rewrite map_size_insert.
  destruct (r !! id) eqn:E; [by rewrite E|]. destruct (Z.leb_spec max (Z.of_nat (size r))); [|rewrite E; lia].
  assert (Hne : r <> ∅) by (intros ->; rewrite map_size_empty in *; lia).
  destruct (any_key_some r Hne) as [old Hold]. rewrite Hold. destruct (any_key_in r old Hold) as [c Hc].
  rewrite lookup_delete_ne by congruence. rewrite E, map_size_delete_Some by (by eexists). lia.
Qed.
End Registry.

(** ** State *)

Inductive Kind := Stdio | Pty.
Inductive Claim := ExecClaim | StreamClaim.

#[export] Instance Kind_eq_dec : EqDecision Kind.
Proof. solve_decision. Defined.
#[export] Instance Claim_eq_dec : EqDecision Claim.
Proof. solve_decision. Defined.

(** What a request asks for; a one-shot run is an exec, and build logs a follow. *)
Inductive Job :=
  | JExec (id : string)
  | JOpen (k : Kind) (id : string)
  | JTerminate (id : string)
  | JWait (id : string)
  | JClose (id : string)
  | JFollow (id : string)
  | JStop (id : string) (level : StopLevel)
  | JCancel (id : string)
  | JOther (method : string).

Definition method_of (j : Job) : string :=
  match j with
  | JExec _ => EXEC_STREAM
  | JOpen Stdio _ => EXEC_STDIO_OPEN
  | JOpen Pty _ => PTY_OPEN
  | JTerminate _ => EXEC_STDIO_TERMINATE
  | JWait _ => "exec/stdio_wait"
  | JClose _ => PTY_CLOSE
  | JFollow _ => LOGS_FOLLOW
  | JStop _ _ => EXEC_STOP
  | JCancel _ => STREAM_CANCEL
  | JOther method => method
  end.

(** Where a request stands. *)
Inductive Pc :=
  | Unsent
  | Rejected
  | Started
  | Registered                 (** an exec's tokens are in the registry *)
  | Connecting                 (** opening its data channel *)
  | Streaming                  (** an exec, or a stream, running *)
  | Opening                    (** its channel is open, its session opening *)
  | Duplicate                  (** its session opened under a taken id, and is being closed *)
  | WaitingOn (session : nat)  (** waits for a process, or terminates it *)
  | ClosingOf (session : nat)  (** took a terminal out of the registry, closing it *)
  | Replying
  | Finished.

(** A request's work runs; it holds its slot; it holds a slot for opening. *)
Definition working (p : Pc) : bool :=
  match p with Unsent | Rejected | Replying | Finished => false | _ => true end.
Definition holding (p : Pc) : bool := match p with Unsent | Rejected | Finished => false | _ => true end.
Definition connecting (p : Pc) : bool := match p with Connecting => true | _ => false end.

(** Where the connection stands: serving; closing the processes, then the terminals
    left to close; waiting for the requests; or giving up on them. *)
Inductive Phase :=
  | Serving
  | Draining (k : Kind)
  | ClosingAll (k : Kind) (left : list nat)
  | Joining
  | Aborting.

Record State := mkState {
  request_free : Z;
  reserved_free : Z;
  open_free : Z;
  io_free : Z;
  io_held : gset nat;
  pumping : gset nat;
  claims : Claim -> gmap string nat;
  sessions : Kind -> gmap string nat;
  termed : gset nat;
  killed : gset nat;
  cancelled : gset nat;
  exec_shutdown : bool;
  requests : nat -> Pc;
  phase : Phase;
  opened : gset nat;
  told : gset nat;
  ended : gset nat;
  forgotten : gset nat;
  late : gset nat;
}.

Definition server_start (l : TransportLimits) : State :=
  mkState (provider_requests l) (reserved_requests l) (pending_opens l) (active_io l) ∅ ∅ (fun _ => ∅) (fun _ => ∅)
    ∅ ∅ ∅ false (fun _ => Unsent) Serving ∅ ∅ ∅ ∅ ∅.

Definition set_request (s : State) (i : nat) (p : Pc) : State :=
  mkState (request_free s) (reserved_free s) (open_free s) (io_free s) (io_held s) (pumping s) (claims s) (sessions s)
    (termed s) (killed s) (cancelled s) (exec_shutdown s) (fun j => if (j =? i)%nat then p else requests s j) (phase s)
    (opened s) (told s) (ended s) (forgotten s) (late s).
Definition set_claims (s : State) (c : Claim) (r : gmap string nat) : State :=
  mkState (request_free s) (reserved_free s) (open_free s) (io_free s) (io_held s) (pumping s)
    (fun c' => if decide (c' = c) then r else claims s c') (sessions s)
    (termed s) (killed s) (cancelled s) (exec_shutdown s) (requests s) (phase s)
    (opened s) (told s) (ended s) (forgotten s) (late s).
Definition set_sessions (s : State) (k : Kind) (r : gmap string nat) : State :=
  mkState (request_free s) (reserved_free s) (open_free s) (io_free s) (io_held s) (pumping s) (claims s)
    (fun k' => if decide (k' = k) then r else sessions s k')
    (termed s) (killed s) (cancelled s) (exec_shutdown s) (requests s) (phase s)
    (opened s) (told s) (ended s) (forgotten s) (late s).
Definition set_phase (s : State) (p : Phase) : State :=
  mkState (request_free s) (reserved_free s) (open_free s) (io_free s) (io_held s) (pumping s) (claims s) (sessions s)
    (termed s) (killed s) (cancelled s) (exec_shutdown s) (requests s) p
    (opened s) (told s) (ended s) (forgotten s) (late s).
Definition set_budgets (s : State) (request reserved open io : Z) (held : gset nat) : State :=
  mkState request reserved open io held (pumping s) (claims s) (sessions s)
    (termed s) (killed s) (cancelled s) (exec_shutdown s) (requests s) (phase s)
    (opened s) (told s) (ended s) (forgotten s) (late s).
Definition set_pumping (s : State) (p : gset nat) : State :=
  mkState (request_free s) (reserved_free s) (open_free s) (io_free s) (io_held s) p (claims s) (sessions s)
    (termed s) (killed s) (cancelled s) (exec_shutdown s) (requests s) (phase s)
    (opened s) (told s) (ended s) (forgotten s) (late s).
Definition set_tokens (s : State) (t k c : gset nat) (down : bool) : State :=
  mkState (request_free s) (reserved_free s) (open_free s) (io_free s) (io_held s) (pumping s) (claims s) (sessions s)
    t k c down (requests s) (phase s) (opened s) (told s) (ended s) (forgotten s) (late s).
Definition set_history (s : State) (o t e f l : gset nat) : State :=
  mkState (request_free s) (reserved_free s) (open_free s) (io_free s) (io_held s) (pumping s) (claims s) (sessions s)
    (termed s) (killed s) (cancelled s) (exec_shutdown s) (requests s) (phase s) o t e f l.

(** A session's [terminate] or [close] is called. *)
Definition tell (s : State) (i : nat) : State :=
  set_history s (opened s) (told s ∪ {[ i ]}) (ended s) (forgotten s) (late s).

Section Server.
Context (job : nat -> Job).

Definition priority_of (i : nat) : bool := reserved (traits (method_of (job i))).
Definition io_of (i : nat) : bool := uses_io (traits (method_of (job i))).

(** ** [admit] *)

Definition free_of (s : State) (priority : bool) : Z := if priority then reserved_free s else request_free s.
Definition set_free (s : State) (priority : bool) (n : Z) : State :=
  set_budgets s (if priority then request_free s else n) (if priority then n else reserved_free s) (open_free s)
    (io_free s) (io_held s).

(** A request's slots, or the limit that was reached; nothing is held after an error. *)
Definition admit_request (s : State) (i : nat) : result State Error :=
  let priority := priority_of i in
  let? free := acquire (free_of s priority) (if priority then "reserved_requests" else "provider_requests") in
  if io_of i then
    let? io := acquire (io_free s) "active_io" in
    Ok (set_budgets (set_free s priority free) (request_free (set_free s priority free))
          (reserved_free (set_free s priority free)) (open_free s) io (io_held s ∪ {[ i ]}))
  else Ok (set_free s priority free).

(** The id a request's tokens are registered under, given where it stands. *)
Definition claim_of (i : nat) (p : Pc) : option (Claim * string) :=
  match job i, p with
  | JExec id, (Registered | Connecting | Streaming) => Some (ExecClaim, id)
  | JFollow id, (Started | Connecting | Streaming) => Some (StreamClaim, id)
  | _, _ => None
  end.

(** [serve]: a request is admitted, and a stream registered before its task starts. *)
Definition receive_request (s : State) (i : nat) : State :=
  match admit_request s i with
  | Err _ => set_request s i Rejected
  | Ok s' =>
      match job i with
      | JFollow id =>
          match try_insert (claims s StreamClaim) id i with
          | Err _ =>
              (* the slots are dropped with the admission *)
              set_request s i Rejected
          | Ok r => set_request (set_claims s' StreamClaim r) i Started
          end
      | _ => set_request s' i Started
      end
  end.

(** ** A request's work *)

(** Its registration, if any, goes: the entry under its id is removed. *)
Definition unregister (s : State) (i : nat) : State :=
  match claim_of i (requests s i) with
  | Some (c, id) => set_claims s c (delete id (claims s c))
  | None => s
  end.

(** The work is over, with whatever result. *)
Definition finish_work (s : State) (i : nat) : State := set_request (unregister s i) i Replying.

(** [ExecRegistration::open]. *)
Definition register_exec (s : State) (i : nat) (id : string) : State :=
  match try_insert (claims s ExecClaim) id i with
  | Err _ => set_request s i Replying
  | Ok r => set_request (set_claims s ExecClaim r) i Registered
  end.

(** [open_channel]: its slot, then the connection. *)
Definition set_open (s : State) (n : Z) : State :=
  set_budgets s (request_free s) (reserved_free s) n (io_free s) (io_held s).
Definition open_start (s : State) (i : nat) : State :=
  match acquire (open_free s) "pending_opens" with
  | Err _ => finish_work s i
  | Ok n => set_request (set_open s n) i Connecting
  end.
Definition open_done (s : State) (i : nat) (ok : bool) : State :=
  let s := set_open s (open_free s + 1) in
  if ok then set_request s i (match job i with JOpen _ _ => Opening | _ => Streaming end) else finish_work s i.

(** Whether a registry has been drained, the connection waiting for what is left. *)
Definition is_drained (p : Phase) (k : Kind) : bool :=
  match p, k with
  | Serving, _ | Draining Stdio, _ => false
  | ClosingAll Stdio _, Stdio | Draining Pty, Stdio => true
  | ClosingAll Stdio _, Pty | Draining Pty, Pty => false
  | ClosingAll Pty _, _ | Joining, _ => true
  | Aborting, _ => false
  end.

(** The provider opened the session: it is registered, with two pumps, or its id is
    taken and it is closed. *)
Definition session_opened (s : State) (i : nat) (k : Kind) (id : string) : State :=
  let s := set_history s (opened s ∪ {[ i ]}) (told s) (ended s) (forgotten s)
             (if is_drained (phase s) k then late s ∪ {[ i ]} else late s) in
  match try_insert (sessions s k) id i with
  | Err _ => set_request (tell s i) i Duplicate
  | Ok r => set_request (set_pumping (set_sessions s k r) (pumping s ∪ {[ i ]})) i Replying
  end.

(** [exec/stdio_terminate], until the process has been told. *)
Definition terminate_session (s : State) (i : nat) (id : string) : State :=
  match sessions s Stdio !! id with
  | None => set_request s i Replying
  | Some p => set_request (tell s p) i (WaitingOn p)
  end.

(** [exec/stdio_wait]: the process's end is awaited, then the entry under its id is
    removed. *)
Definition wait_start (s : State) (i : nat) (id : string) : State :=
  match sessions s Stdio !! id with
  | None => set_request s i Replying
  | Some p => set_request s i (WaitingOn p)
  end.
Definition forget (s : State) (o : option nat) (but : nat) : State :=
  match o with
  | Some j => if decide (j = but) then s
              else set_history s (opened s) (told s) (ended s) (forgotten s ∪ {[ j ]}) (late s)
  | None => s
  end.
Definition wait_done (s : State) (i : nat) (id : string) (p : nat) : State :=
  let s := forget s (sessions s Stdio !! id) p in
  let s := set_history s (opened s) (told s) (ended s ∪ {[ p ]}) (forgotten s) (late s) in
  set_request (set_sessions s Stdio (delete id (sessions s Stdio))) i Replying.

(** [pty/close]: the terminal is taken out and closed; if closing fails it is put back,
    over whatever the id has come to name. *)
Definition close_start (s : State) (i : nat) (id : string) : State :=
  match sessions s Pty !! id with
  | None => set_request s i Replying
  | Some p => set_request (set_sessions (tell s p) Pty (delete id (sessions s Pty))) i (ClosingOf p)
  end.
Definition close_done (s : State) (i : nat) (id : string) (p : nat) (ok : bool) : State :=
  if ok then set_request s i Replying
  else
    let s := forget s (sessions s Pty !! id) p in
    set_request (set_sessions s Pty (<[id := p]> (sessions s Pty))) i Replying.

(** [exec/stop] and [stream/cancel]. *)
Definition cancel_token (s : State) (level : StopLevel) (j : nat) : State :=
  match level with
  | Term => set_tokens s (termed s ∪ {[ j ]}) (killed s) (cancelled s) (exec_shutdown s)
  | Kill => set_tokens s (termed s) (killed s ∪ {[ j ]}) (cancelled s) (exec_shutdown s)
  end.
Definition stop_exec (s : State) (i : nat) (id : string) (level : StopLevel) : State :=
  set_request (match claims s ExecClaim !! id with Some j => cancel_token s level j | None => s end) i Replying.
Definition cancel_stream (s : State) (i : nat) (id : string) : State :=
  set_request
    (match claims s StreamClaim !! id with
     | Some j => set_tokens s (termed s) (killed s) (cancelled s ∪ {[ j ]}) (exec_shutdown s)
     | None => s
     end) i Replying.

(** The reply is delivered, or not: the request's slot is freed. *)
Definition reply (s : State) (i : nat) : State :=
  set_request (set_free s (priority_of i) (free_of s (priority_of i) + 1)) i Finished.

(** Who still has a share of a request's I/O slot: its own work, the session it opened
    in a registry, its pumps, a request that waits for the session or closes it, and the
    end of the connection closing it. *)
Definition io_shared (s : State) (i : nat) : Prop :=
  working (requests s i) = true /\ io_of i = true \/ i ∈ pumping s \/
  (exists k id, sessions s k !! id = Some i) \/ (exists j, requests s j = WaitingOn i \/ requests s j = ClosingOf i) \/
  (exists k l, phase s = ClosingAll k l /\ i ∈ l).
Definition release_io (s : State) (i : nat) : State :=
  set_budgets s (request_free s) (reserved_free s) (open_free s) (io_free s + 1) (io_held s ∖ {[ i ]}).

(** ** [shutdown] *)

(** What is still running when time is up is dropped where it stands. *)
Definition abort_request (s : State) (i : nat) : State :=
  let s := if connecting (requests s i) then set_open s (open_free s + 1) else s in
  reply (finish_work s i) i.

(** Every exec is killed outright, registered or not, and every stream cancelled. *)
Definition close_claims (s : State) : State :=
  let s := set_tokens s (termed s) (killed s) (cancelled s) true in
  set_phase (set_claims (set_claims s ExecClaim ∅) StreamClaim ∅) (Draining Stdio).
Definition drain_sessions (s : State) (k : Kind) (all : list nat) : State :=
  set_phase (set_sessions s k ∅) (ClosingAll k all).
Definition next_kind (k : Kind) : Phase := match k with Stdio => Draining Pty | Pty => Joining end.
Definition close_next (s : State) (k : Kind) (left : list nat) : State :=
  match left with
  | [] => set_phase s (next_kind k)
  | p :: left => set_phase (tell s p) (ClosingAll k left)
  end.

Inductive step (s : State) : State -> Prop :=
  | step_receive i : phase s = Serving -> requests s i = Unsent -> step s (receive_request s i)
  | step_register i id : requests s i = Started -> job i = JExec id -> step s (register_exec s i id)
  | step_open_start i : (requests s i = Registered /\ exists id, job i = JExec id) \/
      (requests s i = Started /\ ((exists k id, job i = JOpen k id) \/ exists id, job i = JFollow id)) ->
      step s (open_start s i)
  | step_open_done i ok : requests s i = Connecting -> step s (open_done s i ok)
  | step_fail i : requests s i = Started \/ requests s i = Registered \/ requests s i = Streaming \/ requests s i = Opening ->
      step s (finish_work s i)
  | step_opened i k id : requests s i = Opening -> job i = JOpen k id -> step s (session_opened s i k id)
  | step_duplicate i : requests s i = Duplicate -> step s (set_request s i Replying)
  | step_terminate i id : requests s i = Started -> job i = JTerminate id -> step s (terminate_session s i id)
  | step_terminated i id p : requests s i = WaitingOn p -> job i = JTerminate id -> step s (set_request s i Replying)
  | step_wait i id : requests s i = Started -> job i = JWait id -> step s (wait_start s i id)
  | step_waited i id p : requests s i = WaitingOn p -> job i = JWait id -> step s (wait_done s i id p)
  | step_close i id : requests s i = Started -> job i = JClose id -> step s (close_start s i id)
  | step_closed i id p ok : requests s i = ClosingOf p -> job i = JClose id -> step s (close_done s i id p ok)
  | step_stop i id level : requests s i = Started -> job i = JStop id level -> step s (stop_exec s i id level)
  | step_cancel i id : requests s i = Started -> job i = JCancel id -> step s (cancel_stream s i id)
  | step_reply i : requests s i = Replying -> step s (reply s i)
  | step_pumped i : step s (set_pumping s (pumping s ∖ {[ i ]}))
  | step_io i : i ∈ io_held s -> ~ io_shared s i -> step s (release_io s i)
  | step_break : phase s = Serving -> step s (close_claims s)
  | step_drain k all : phase s = Draining k -> drained_to (sessions s k) all -> step s (drain_sessions s k all)
  | step_close_next k left : phase s = ClosingAll k left -> step s (close_next s k left)
  | step_deadline : phase s <> Serving -> step s (set_phase s Aborting)
  | step_abort i : phase s = Aborting -> holding (requests s i) = true -> step s (abort_request s i).
#[local] Arguments priority_of : simpl never.
#[local] Arguments io_of : simpl never.

Ltac task j i := destruct (Nat.eqb_spec j i) as [->|?].

(** ** Registered tokens *)

Record claims_inv (s : State) : Prop := {
  ci_entry c id i : claims s c !! id = Some i -> claim_of i (requests s i) = Some (c, id);
  ci_claim c id i : claim_of i (requests s i) = Some (c, id) -> claims s c !! id = Some i \/ exec_shutdown s = true;
  ci_down : exec_shutdown s = true <-> phase s <> Serving;
}.

Lemma claims_frame s s' : claims s' = claims s -> exec_shutdown s' = exec_shutdown s ->
  (phase s' = Serving <-> phase s = Serving) ->
  (forall i, claim_of i (requests s' i) = claim_of i (requests s i)) -> claims_inv s -> claims_inv s'.
Proof.
  intros Hc He Hp Hr []. split.
  - intros c id i. rewrite Hc, Hr. auto.
  - intros c id i. rewrite Hc, Hr, He. auto.
  - rewrite He. tauto.
Qed.

(** A request moves and claims what it did. *)
Lemma claims_move s i p : claim_of i p = claim_of i (requests s i) -> claims_inv s -> claims_inv (set_request s i p).
Proof. intros Hp. apply claims_frame; try done. intros j. cbn. by task j i. Qed.

Lemma claims_finish s i p : claim_of i p = None -> claims_inv s -> claims_inv (set_request (unregister s i) i p).
Proof.
  intros Hp Hinv. unfold unregister. destruct (claim_of i (requests s i)) as [[c id]|] eqn:Hi; [|apply claims_move; congruence].
  destruct Hinv. split; cbn.
  - intros c' id' j. destruct (decide (c' = c)) as [->|Hc]; [rewrite lookup_delete_Some; intros [Hne Hj]|intros Hj];
      apply ci_entry0 in Hj as Hj'; task j i; congruence.
  - intros c' id' j. task j i; [congruence|]. intros Hj. destruct (ci_claim0 _ _ _ Hj) as [He|?]; [|by right].
    destruct (ci_claim0 _ _ _ Hi) as [He'|?]; [|by right]. left.
    destruct (decide (c' = c)) as [->|Hc]; [|done]. rewrite lookup_delete_ne; [done|]. intros <-. congruence.
  - done.
Qed.

Lemma claims_enter s i c id p : claims s c !! id = None -> claim_of i (requests s i) = None -> claim_of i p = Some (c, id) ->
  claims_inv s -> claims_inv (set_request (set_claims s c (<[id := i]> (claims s c))) i p).
Proof.
  intros Hn Hi Hp []. split; cbn.
  - intros c' id' j. destruct (decide (c' = c)) as [->|Hc]; [rewrite lookup_insert_Some; intros [[<- <-]|[_ Hj]]|intros Hj].
    + by rewrite Nat.eqb_refl.
    + apply ci_entry0 in Hj. task j i; congruence.
    + apply ci_entry0 in Hj. task j i; congruence.
  - intros c' id' j. task j i.
    + rewrite Hp. intros [= <- <-]. left. rewrite decide_True by done. apply lookup_insert_eq.
    + intros Hj. destruct (ci_claim0 _ _ _ Hj) as [He|?]; [left|by right].
      destruct (decide (c' = c)) as [->|Hc]; [|done]. rewrite lookup_insert_ne; [done|]. intros <-. congruence.
  - done.
Qed.

Lemma claim_none i p : working p = false -> claim_of i p = None.
Proof. unfold claim_of. by destruct (job i), p. Qed.

(** A request moves, and no claim does. *)
Lemma claims_moved s t i p : claims t = claims s -> exec_shutdown t = exec_shutdown s -> phase t = phase s ->
  requests t = requests s -> claim_of i p = claim_of i (requests s i) -> claims_inv s -> claims_inv (set_request t i p).
Proof.
  intros Hc He Hp Hr Hi Hinv. apply claims_move; [by rewrite Hr|]. by apply (claims_frame s); rewrite ?Hp, ?Hr.
Qed.

Lemma claims_receive s i : requests s i = Unsent -> claims_inv s -> claims_inv (receive_request s i).
Proof.
  intros Hi Hinv. unfold receive_request. assert (Hn : claim_of i (requests s i) = None) by (by apply claim_none; rewrite Hi).
  destruct (admit_request s i) as [t|] eqn:Ht; [|apply claims_move; [by rewrite Hn; apply claim_none|done]].
  assert (Hsame : claims t = claims s /\ exec_shutdown t = exec_shutdown s /\ phase t = phase s /\ requests t = requests s).
  { unfold admit_request in Ht. destruct (acquire _ _); [|done]. cbn in Ht. destruct (io_of i); [destruct (acquire _ _); [|done]|];
      by injection Ht as <-. }
  destruct Hsame as (Hc & He & Hp & Hr). assert (Ht' : claims_inv t) by (by apply (claims_frame s); rewrite ?Hp, ?Hr).
  destruct (job i) eqn:Hj; try (apply (claims_moved s); [done..| |done]; rewrite Hi; unfold claim_of; by rewrite Hj).
  unfold try_insert. destruct (claims s StreamClaim !! id) eqn:Hid; [apply claims_move; [by rewrite Hn; apply claim_none|done]|].
  rewrite <- Hc in *. apply claims_enter; [done|by rewrite Hr|by unfold claim_of; rewrite Hj|done].
Qed.

Lemma claims_register s i id : requests s i = Started -> job i = JExec id -> claims_inv s -> claims_inv (register_exec s i id).
Proof.
  intros Hi Hj Hinv. assert (Hn : claim_of i (requests s i) = None) by (unfold claim_of; by rewrite Hj, Hi).
  unfold register_exec, try_insert. destruct (claims s ExecClaim !! id) eqn:Hid.
  - apply claims_move; [|done]. rewrite Hn. by apply claim_none.
  - apply claims_enter; [done|done|by unfold claim_of; rewrite Hj|done].
Qed.

Lemma claims_open_start s i : (requests s i = Registered /\ (exists id, job i = JExec id)) \/ (requests s i = Started /\ forall id, job i <> JExec id) ->
  claims_inv s -> claims_inv (open_start s i).
Proof.
  intros Hi Hinv. unfold open_start. destruct (acquire _ _).
  - apply (claims_moved s); try done. unfold claim_of. destruct Hi as [[-> [id ->]]|[-> Hn]]; [done|].
    destruct (job i) eqn:Hj; try done. by destruct (Hn id).
  - apply claims_finish; [by apply claim_none|done].
Qed.

Lemma claims_open_done s i ok : requests s i = Connecting -> claims_inv s -> claims_inv (open_done s i ok).
Proof.
  intros Hi Hinv. unfold open_done. destruct ok.
  - apply (claims_moved s); try done. unfold claim_of. rewrite Hi. by destruct (job i).
  - apply claims_finish; [by apply claim_none|]. by apply (claims_frame s).
Qed.

Lemma claims_session s i p q : job i = p -> (forall id, p <> JExec id) -> (forall id, p <> JFollow id) ->
  claim_of i q = claim_of i (requests s i).
Proof. unfold claim_of. intros -> He Hf. destruct p; try done; [by destruct (He id)|by destruct (Hf id)]. Qed.

Lemma claims_inv_next s s' : step s s' -> claims_inv s -> claims_inv s'.
Proof.
  intros Hstep Hinv. destruct Hstep.
  all: try (by apply (claims_frame s)).
  all: try (apply claims_finish; [by apply claim_none|done]).
  all: try (apply (claims_moved s); try done; eapply claims_session; [eassumption|done..]).
  all: try (unfold session_opened, terminate_session, wait_start, wait_done, close_start, close_done, forget, stop_exec,
    cancel_stream, cancel_token; cbv zeta; repeat case_match;
    (apply (claims_moved s); [done..| |done]); eapply claims_session; [eassumption|done..]).
  - by apply claims_receive.
  - by apply claims_register.
  - apply claims_open_start; [|done]. destruct H as [?|[? [(k & id & Hj)|(id & Hj)]]]; [by left|right..]; split; congruence.
  - by apply claims_open_done.
  - apply claims_move; [|done]. unfold claim_of. rewrite H. by destruct (job i).
  - apply claims_move; [|by apply (claims_frame s)]. unfold claim_of. cbn. rewrite H. by destruct (job i).
  - split; cbn; [|by right|by split]. intros c id i. by destruct c.
  - apply (claims_frame s); try done. cbn. by rewrite H.
  - destruct left; apply (claims_frame s); try done; cbn; rewrite H; by destruct k.
  - unfold abort_request, reply, finish_work.
    apply claims_move; [by cbn; rewrite Nat.eqb_refl, !claim_none|].
    eapply claims_frame; [..|apply (claims_finish (if connecting (requests s i) then set_open s (open_free s + 1) else s) i Replying)]; try done.
    + by apply claim_none.
    + by destruct (connecting _); [apply (claims_frame s)|].
Qed.
(** ** What a request asks for *)

(** Whose session a registry entry, or a request that holds one, is. *)
Record sessions_jobs (s : State) : Prop := {
  sj_entry k id i : sessions s k !! id = Some i -> job i = JOpen k id;
  sj_waiting i p : requests s i = WaitingOn p -> exists id, job p = JOpen Stdio id /\ (job i = JTerminate id \/ job i = JWait id);
  sj_closing i p : requests s i = ClosingOf p -> exists id, job p = JOpen Pty id /\ job i = JClose id;
}.

Lemma jobs_frame s s' : (forall k id i, sessions s' k !! id = Some i -> sessions s k !! id = Some i \/ job i = JOpen k id) ->
  (forall i p, requests s' i = WaitingOn p -> requests s i = WaitingOn p \/
     exists id, job p = JOpen Stdio id /\ (job i = JTerminate id \/ job i = JWait id)) ->
  (forall i p, requests s' i = ClosingOf p -> requests s i = ClosingOf p \/ exists id, job p = JOpen Pty id /\ job i = JClose id) ->
  sessions_jobs s -> sessions_jobs s'.
Proof. intros He Hw Hc []. split; naive_solver. Qed.

(** A request moves to a place where it holds no session. *)
Lemma jobs_moved s t i p : requests t = requests s ->
  (forall k id j, sessions t k !! id = Some j -> sessions s k !! id = Some j \/ job j = JOpen k id) ->
  (forall q, p <> WaitingOn q /\ p <> ClosingOf q) -> sessions_jobs s -> sessions_jobs (set_request t i p).
Proof.
  intros Hr Hs Hp. apply jobs_frame; [done|..]; cbn; rewrite Hr; intros j q; (task j i; [|by left]); intros ->; by destruct (Hp q).
Qed.

Lemma sessions_put s k k' id id' i j (r := <[id := i]> (sessions s k)) :
  (if decide (k' = k) then r else sessions s k') !! id' = Some j -> sessions s k' !! id' = Some j \/ (k' = k /\ id' = id /\ j = i).
Proof.
  destruct (decide (k' = k)) as [->|]; [|by left]. subst r. rewrite lookup_insert_Some. intros [[-> ->]|[_ ?]]; auto.
Qed.

Lemma sessions_gone s k k' id id' j (r := delete id (sessions s k)) :
  (if decide (k' = k) then r else sessions s k') !! id' = Some j -> sessions s k' !! id' = Some j.
Proof. destruct (decide (k' = k)) as [->|]; [|done]. subst r. by rewrite lookup_delete_Some; intros []. Qed.

(** Two states with the same requests and the same sessions. *)
Record same_sessions (s t : State) : Prop := {
  ss_requests : requests t = requests s;
  ss_sessions : sessions t = sessions s;
  ss_phase : phase t = phase s;
  ss_pumping : pumping t = pumping s;
  ss_opened : opened t = opened s;
  ss_told : told t = told s;
  ss_ended : ended t = ended s;
  ss_forgotten : forgotten t = forgotten s;
  ss_late : late t = late s;
}.

Lemma receive_frame s i : exists t p, receive_request s i = set_request t i p /\ (p = Rejected \/ p = Started) /\ same_sessions s t.
Proof.
  unfold receive_request. destruct (admit_request s i) as [t|] eqn:Ht; [|exists s, Rejected; by split_and!; [|left|]].
  assert (Hsame : same_sessions s t).
  { unfold admit_request in Ht. destruct (acquire _ _); [|done]. cbn in Ht. destruct (io_of i); [destruct (acquire _ _); [|done]|];
      by injection Ht as <-. }
  destruct (job i); try (exists t, Started; by split_and!; [|right|]).
  destruct (try_insert _ _ _); [|exists s, Rejected; by split_and!; [|left|]]. eexists _, Started. split_and!; [done|by right|]. destruct Hsame. by split.
Qed.

Lemma unregister_frame s i : exists c r, unregister s i = set_claims s c r \/ unregister s i = s.
Proof. unfold unregister. destruct (claim_of _ _) as [[c id]|]; [exists c; eauto|exists ExecClaim, ∅; by right]. Qed.

Lemma jobs_finish s i : sessions_jobs s -> sessions_jobs (finish_work s i).
Proof.
  unfold finish_work. destruct (unregister_frame s i) as (c & r & [->| ->]); apply (jobs_moved s); try done; auto.
Qed.

Lemma jobs_next s s' : step s s' -> sessions_jobs s -> sessions_jobs s'.
Proof.
  intros Hstep Hinv. destruct Hstep.
  all: try (by apply (jobs_frame s); auto).
  all: try (by apply jobs_finish).
  all: try (apply (jobs_moved s); by auto).
  - destruct (receive_frame s i) as (t & p & -> & Hp & Hs). apply (jobs_moved s); [apply Hs| |by destruct Hp as [-> | ->]|done].
    rewrite (ss_sessions _ _ Hs). auto.
  - unfold register_exec. destruct (try_insert _ _ _); apply (jobs_moved s); by auto.
  - unfold open_start. destruct (acquire _ _); [apply (jobs_moved s); by auto|by apply jobs_finish].
  - unfold open_done. destruct ok; [apply (jobs_moved s); try done; [by auto|by destruct (job i)]|].
    apply jobs_finish. by apply (jobs_frame s); auto.
  - unfold session_opened, try_insert. destruct (_ !! id); apply (jobs_moved s); try done; cbn; [by auto|].
    intros k' id' j [?|(-> & -> & ->)]%sessions_put; auto.
  - unfold terminate_session. destruct (sessions s Stdio !! id) as [p|] eqn:Hp; [|apply (jobs_moved s); by auto].
    apply Hinv in Hp. apply (jobs_frame s); try done; cbn; [by auto|..]; intros j q; (task j i; [|by left]); [|done].
    intros [= ->]. right. eauto.
  - unfold wait_start. destruct (sessions s Stdio !! id) as [p|] eqn:Hp; [|apply (jobs_moved s); by auto].
    apply Hinv in Hp. apply (jobs_frame s); try done; cbn; [by auto|..]; intros j q; (task j i; [|by left]); [|done].
    intros [= ->]. right. eauto.
  - unfold wait_done, forget. repeat case_match; apply (jobs_moved s); try done; cbn; intros k' id' j ?%sessions_gone; auto.
  - unfold close_start. destruct (sessions s Pty !! id) as [p|] eqn:Hp; [|apply (jobs_moved s); by auto].
    apply Hinv in Hp. apply (jobs_frame s); try done; cbn; [intros k' id' j ?%sessions_gone; auto|..];
      intros j q; (task j i; [|by left]); [done|]. intros [= ->]. right. eauto.
  - apply Hinv in H as Hp. destruct Hp as (id' & Hp & Hid). assert (id' = id) as -> by congruence.
    unfold close_done, forget. destruct ok; [apply (jobs_moved s); by auto|].
    repeat case_match; apply (jobs_moved s); try done; cbn; intros k' id' j [?|(-> & -> & ->)]%sessions_put; auto.
  - unfold stop_exec, cancel_token. repeat case_match; apply (jobs_moved s); by auto.
  - unfold cancel_stream. repeat case_match; apply (jobs_moved s); by auto.
  - apply (jobs_frame s); try done; cbn; try by auto. intros k' id j. destruct (decide _); [by rewrite lookup_empty|by left].
  - destruct left; apply (jobs_frame s); by auto.
  - unfold abort_request, reply. apply (jobs_moved (finish_work (if connecting (requests s i) then set_open s (open_free s + 1) else s) i)).
    + done.
    + by auto.
    + done.
    + apply jobs_finish. destruct (connecting _); [by apply (jobs_frame s); auto|done].
Qed.
(** ** Slots *)

Definition held_of (s : State) (k : bool) (i : nat) : bool := Bool.eqb (priority_of i) k && holding (requests s i).
Definition budget_of (l : TransportLimits) (k : bool) : Z := if k then reserved_requests l else provider_requests l.

Record slots_inv (l : TransportLimits) (s : State) : Prop := {
  sl_free k : counts (held_of s k) (free_of s k) (budget_of l k);
  sl_open : counts (fun i => connecting (requests s i)) (open_free s) (pending_opens l);
  sl_io : 0 <= io_free s /\ io_free s + Z.of_nat (size (io_held s)) = active_io l;
  sl_shared i : io_shared s i -> i ∈ io_held s;
  sl_sent i : i ∈ io_held s -> requests s i <> Unsent;
}.

Lemma slots_frame l s s' : (forall k, free_of s' k = free_of s k) -> open_free s' = open_free s -> io_free s' = io_free s ->
  io_held s' = io_held s ->
  (forall i, holding (requests s' i) = holding (requests s i) /\ connecting (requests s' i) = connecting (requests s i) /\
     (requests s' i = Unsent -> requests s i = Unsent)) ->
  (forall i, io_shared s' i -> io_shared s i) -> slots_inv l s -> slots_inv l s'.
Proof.
  intros Hf Ho Hi Hh Hr Hs []. split.
  - intros k. rewrite Hf. eapply counts_ext; [|apply sl_free0]. intros i. unfold held_of. by destruct (Hr i) as (-> & _).
  - rewrite Ho. eapply counts_ext; [|exact sl_open0]. intros i. by destruct (Hr i) as (_ & -> & _).
  - by rewrite Hi, Hh.
  - intros i. rewrite Hh. auto.
  - intros i. rewrite Hh. intros Hin Hu. apply (sl_sent0 i Hin). by apply Hr.
Qed.

(** A request moves and keeps its slot, sharing no I/O slot that was not shared. *)
Lemma slots_moved l s t i p : (forall k, free_of t k = free_of s k) -> open_free t = open_free s -> io_free t = io_free s ->
  io_held t = io_held s -> requests t = requests s ->
  holding p = holding (requests s i) -> connecting p = connecting (requests s i) -> p <> Unsent ->
  (forall j, io_shared (set_request t i p) j -> io_shared s j) -> slots_inv l s -> slots_inv l (set_request t i p).
Proof.
  intros Hf Ho Hi Hh Hr Hp Hc Hu Hs. apply slots_frame; try done. intros j. cbn. rewrite Hr. by task j i; rewrite ?Hp, ?Hc.
Qed.

(** Only the place of a request changes, to one where it holds no session. *)
Lemma shared_except s t i p : requests t = requests s -> sessions t = sessions s -> phase t = phase s -> pumping t = pumping s ->
  (forall q, p <> WaitingOn q /\ p <> ClosingOf q) ->
  forall j, io_shared (set_request t i p) j -> io_shared s j \/ (j = i /\ working p = true /\ io_of i = true).
Proof.
  intros Hr Hs Hp Hm Hq j. unfold io_shared. cbn. rewrite Hr, Hs, Hp, Hm.
  intros [[Hj ?]|[?|[?|[(n & Hn)|?]]]]; [|left; by right; left|left; by do 2 right; left|left; do 3 right; left|left; by do 4 right].
  - revert Hj. task j i; auto.
  - exists n. revert Hn. task n i; [|done]. intros [Hn|Hn]; by destruct (Hq j).
Qed.

Lemma shared_moved s t i p : requests t = requests s -> sessions t = sessions s -> phase t = phase s -> pumping t = pumping s ->
  (working p = true -> io_of i = true -> working (requests s i) = true) -> (forall q, p <> WaitingOn q /\ p <> ClosingOf q) ->
  forall j, io_shared (set_request t i p) j -> io_shared s j.
Proof.
  intros Hr Hs Hp Hm Hw Hq j Hj. apply (shared_except s) in Hj as [?|(-> & ? & ?)]; try done. left. auto.
Qed.

Lemma finish_frame s i : exists t, finish_work s i = set_request t i Replying /\ (forall k, free_of t k = free_of s k) /\
  open_free t = open_free s /\ io_free t = io_free s /\ io_held t = io_held s /\ same_sessions s t.
Proof.
  unfold finish_work. destruct (unregister_frame s i) as (c & r & [->| ->]); eexists; by split_and!.
Qed.

Lemma slots_finish l s i : holding (requests s i) = true -> connecting (requests s i) = false ->
  slots_inv l s -> slots_inv l (finish_work s i).
Proof.
  intros Hh Hc. destruct (finish_frame s i) as (t & -> & Hf & Ho & Hi & Hio & [Hr Hs Hp Hm]).
  apply (slots_moved _ s); rewrite ?Hh, ?Hc; try done. by apply shared_moved.
Qed.

Lemma acquire_ok free name n : acquire free name = Ok n <-> 0 < free /\ n = free - 1.
Proof. unfold acquire. destruct (Z.ltb_spec 0 free); naive_solver lia. Qed.

(** A request is admitted, or gives its slot back. *)
Lemma free_changed l s i p n (t : State) : slots_inv l s -> (forall k, free_of t k = if Bool.eqb (priority_of i) k then n else free_of s k) ->
  requests t = requests s ->
  (holding (requests s i) = false /\ holding p = true /\ 0 < free_of s (priority_of i) /\ n = free_of s (priority_of i) - 1 \/
   holding (requests s i) = true /\ holding p = false /\ n = free_of s (priority_of i) + 1) ->
  forall k, counts (held_of (set_request t i p) k) (free_of t k) (budget_of l k).
Proof.
  intros Hinv Hf Hr Hp k. pose proof (sl_free l s Hinv k) as Hk. rewrite Hf.
  assert (Hother : forall j, j <> i -> held_of (set_request t i p) k j = held_of s k j).
  { intros j Hj. unfold held_of. cbn. rewrite Hr. by task j i. }
  assert (Hi : held_of s k i = Bool.eqb (priority_of i) k && holding (requests s i) /\
    held_of (set_request t i p) k i = Bool.eqb (priority_of i) k && holding p) by (unfold held_of; cbn; by rewrite Nat.eqb_refl).
  destruct Hi as [Hi Hi']. destruct (Bool.eqb (priority_of i) k) eqn:Heq.
  - apply eqb_prop in Heq. rewrite Heq in Hp. destruct Hp as [(Hh & Hh' & Hpos & ->)|(Hh & Hh' & ->)]; [eapply counts_take|eapply counts_drop];
      rewrite ?Hi, ?Hi', ?Hh, ?Hh'; eauto.
  - eapply counts_ext; [|exact Hk]. intros j. destruct (decide (j = i)) as [->|]; [by rewrite Hi, Hi'|auto].
Qed.

Lemma set_free_of s p n k : free_of (set_free s p n) k = if Bool.eqb p k then n else free_of s k.
Proof. by destruct p, k. Qed.

Lemma slots_admitted l s i t : requests s i = Unsent -> admit_request s i = Ok t -> slots_inv l s ->
  slots_inv l (set_request t i Started).
Proof.
  intros Hi Ht Hinv. unfold admit_request in Ht. destruct (acquire (free_of s _) _) as [n|] eqn:Hn; [|done]. cbn [rbind] in Ht.
  apply acquire_ok in Hn as [Hpos Hn].
  assert (Hfree : requests t = requests s -> (forall k, free_of t k = if Bool.eqb (priority_of i) k then n else free_of s k) ->
    forall k, counts (held_of (set_request t i Started) k) (free_of (set_request t i Started) k) (budget_of l k)).
  { intros Hr Hf k. apply (free_changed l s i Started n t); [done|done|done|]. left. by rewrite Hi. }
  assert (Hopen : requests t = requests s -> open_free t = open_free s ->
    counts (fun j => connecting (requests (set_request t i Started) j)) (open_free t) (pending_opens l)).
  { intros Hr ->. eapply counts_ext; [|apply Hinv]. intros j. cbn. rewrite Hr. task j i; [by rewrite Hi|done]. }
  destruct Hinv as [_ _ [Hio Hsum] Hsh Hsent]. destruct (io_of i) eqn:Hiof.
  - destruct (acquire (io_free s) _) as [m|] eqn:Hm; [|done]. apply acquire_ok in Hm as [Hmpos ->]. injection Ht as <-.
    assert (Hni : i ∉ io_held s) by (intros Hin; by apply (Hsent i)).
    split; [apply Hfree; [done|apply set_free_of]|by apply Hopen|cbn|..].
    + rewrite size_union, size_singleton by (by apply disjoint_singleton_r). lia.
    + intros j Hj. apply (shared_except s) in Hj as [?|(-> & _)]; try done; cbn; [apply elem_of_union_l; auto|set_solver].
    + intros j. cbn. task j i; [done|]. rewrite elem_of_union, elem_of_singleton. naive_solver.
  - injection Ht as <-. split; [apply Hfree; [done|apply set_free_of]|by apply Hopen|done|..].
    + intros j Hj. apply Hsh. revert Hj. apply shared_moved; try done. congruence.
    + intros j. cbn. task j i; [done|]. auto.
Qed.
Lemma slots_receive l s i : requests s i = Unsent -> slots_inv l s -> slots_inv l (receive_request s i).
Proof.
  intros Hi Hinv.
  assert (Hrej : slots_inv l (set_request s i Rejected)).
  { apply (slots_moved _ s); rewrite ?Hi; try done. apply shared_moved; by rewrite ?Hi. }
  unfold receive_request. destruct (admit_request s i) as [t|] eqn:Ht; [|done].
  pose proof (slots_admitted l s i t Hi Ht Hinv) as Hs. destruct (job i); try done.
  destruct (try_insert _ _ _); [|done]. by apply (slots_frame l (set_request t i Started)).
Qed.

(** A request takes a slot for opening its channel, or gives it back. *)
Lemma slots_open l s t i p n : slots_inv l s -> t = set_open s n -> holding p = true -> holding (requests s i) = true ->
  (connecting (requests s i) = false /\ connecting p = true /\ 0 < open_free s /\ n = open_free s - 1 \/
   connecting (requests s i) = true /\ connecting p = false /\ n = open_free s + 1) ->
  (working p = true -> working (requests s i) = true) -> (forall q, p <> WaitingOn q /\ p <> ClosingOf q) ->
  slots_inv l (set_request t i p).
Proof.
  intros [] -> Hh Hi Hc Hw Hq. split; cbn.
  - intros k. eapply counts_ext; [|apply sl_free0]. intros j. unfold held_of. cbn. task j i; by rewrite ?Hh, ?Hi.
  - set (P := fun j => connecting (requests s j)).
    destruct Hc as [(Hci & Hcp & Hpos & ->)|(Hci & Hcp & ->)]; [apply (counts_take P _ i)|apply (counts_drop P _ i)];
      try done; cbn; rewrite ?Nat.eqb_refl; try done; intros j Hj; by task j i.
  - done.
  - intros j Hj. apply sl_shared0. revert Hj. apply shared_moved; auto.
  - intros j Hj. task j i; [by destruct p|auto].
Qed.

Lemma slots_open_done l s i p : slots_inv l s -> connecting (requests s i) = true -> connecting p = false -> holding p = true ->
  (forall q, p <> WaitingOn q /\ p <> ClosingOf q) -> slots_inv l (set_request (set_open s (open_free s + 1)) i p).
Proof.
  intros Hinv Hi Hp Hh Hq. assert (Hci : requests s i = Connecting) by (by destruct (requests s i)).
  apply (slots_open l s _ i p (open_free s + 1)); try done; rewrite ?Hci; auto.
Qed.

Lemma slots_open_failed l s i : slots_inv l s -> connecting (requests s i) = true ->
  slots_inv l (finish_work (set_open s (open_free s + 1)) i).
Proof.
  intros Hinv Hi. destruct (finish_frame (set_open s (open_free s + 1)) i) as (t & -> & Hf & Ho & Hio & Hh & [Hr Hs Hp Hm]).
  apply (slots_frame _ (set_request (set_open s (open_free s + 1)) i Replying)); try done.
  - intros j. cbn. by rewrite Hr.
  - intros j. unfold io_shared. cbn. by rewrite Hr, Hs, Hp, Hm.
  - by apply slots_open_done.
Qed.

Lemma slots_reply l s i : requests s i = Replying -> slots_inv l s -> slots_inv l (reply s i).
Proof.
  intros Hi Hinv. unfold reply.
  split.
  - intros k. apply (free_changed l s i Finished _ (set_free s (priority_of i) (free_of s (priority_of i) + 1)) Hinv
      (set_free_of _ _ _) eq_refl). right. by rewrite Hi.
  - cbn. eapply counts_ext; [|apply Hinv]. intros j. cbn. task j i; [by rewrite Hi|done].
  - apply Hinv.
  - intros j Hj. apply Hinv. revert Hj. by apply shared_moved.
  - intros j. cbn. task j i; [done|]. apply Hinv.
Qed.

Lemma slots_release l s i : i ∈ io_held s -> ~ io_shared s i -> slots_inv l s -> slots_inv l (release_io s i).
Proof.
  intros Hi Hn []. split; try done; cbn.
  - rewrite size_difference, size_singleton by (by apply singleton_subseteq_l).
    assert (size (io_held s) <> 0%nat) by (intros Hz%size_empty_iff; set_solver). lia.
  - intros j Hj. assert (j <> i) by (intros ->; by apply Hn). apply elem_of_difference. split; [by apply sl_shared0|set_solver].
  - intros j [? _]%elem_of_difference. auto.
Qed.

(** A request that works on sessions takes a share from those who had one. *)
Lemma slots_session l s t i p : (forall k, free_of t k = free_of s k) -> open_free t = open_free s -> io_free t = io_free s ->
  io_held t = io_held s -> requests t = requests s -> phase t = phase s ->
  working (requests s i) = true -> connecting (requests s i) = false -> holding p = true -> connecting p = false ->
  (forall k id j, sessions t k !! id = Some j -> io_shared s j) -> (forall j, j ∈ pumping t -> io_shared s j) ->
  (forall q, p = WaitingOn q \/ p = ClosingOf q -> io_shared s q) -> slots_inv l s -> slots_inv l (set_request t i p).
Proof.
  intros Hf Ho Hi Hh Hr Hp Hw Hc Hw' Hc' Hs Hm Hq Hinv. apply (slots_moved _ s); try done.
  - rewrite Hw'. by destruct (requests s i).
  - by rewrite Hc.
  - by intros ->.
  - intros j [[Hj ?]|[?|[(k & id & ?)|[(n & Hn)|?]]]]; cbn in *.
    + left. split; [|done]. revert Hj. rewrite Hr. by task j i.
    + auto.
    + eauto.
    + revert Hn. task n i; [intros [->| ->]; auto|]. rewrite Hr. intros Hn. do 3 right. left. by exists n.
    + do 4 right. by rewrite <- Hp.
Qed.

Lemma shared_entry s k id i : sessions s k !! id = Some i -> io_shared s i.
Proof. intros. do 2 right. left. eauto. Qed.
Lemma shared_pump s i : i ∈ pumping s -> io_shared s i.
Proof. intros. right. by left. Qed.
Lemma shared_request s i j : requests s j = WaitingOn i \/ requests s j = ClosingOf i -> io_shared s i.
Proof. intros. do 3 right. left. eauto. Qed.
#[local] Hint Resolve shared_entry shared_pump shared_request : server.

Ltac session_move s H := apply (slots_session _ s); rewrite ?H; try done; cbn; eauto with server; try (by intros ? []);
  try (intros ? [[=]|[=]]; subst); try (intros ? ? ? ?%sessions_gone);
  try (intros ? ? ? [?|(_ & _ & ->)]%sessions_put); eauto with server.

Lemma open_io i k id : job i = JOpen k id -> io_of i = true.
Proof. unfold io_of. intros ->. by destruct k. Qed.

Lemma shared_phase s t : requests t = requests s -> pumping t ⊆ pumping s ->
  (forall k id j, sessions t k !! id = Some j -> io_shared s j) ->
  (forall k left j, phase t = ClosingAll k left -> j ∈ left -> io_shared s j) -> forall j, io_shared t j -> io_shared s j.
Proof.
  intros Hr Hm Hs Hp j. unfold io_shared at 1. rewrite Hr.
  intros [?|[?|[(k & id & ?)|[(n & ?)|(k & rest & ? & ?)]]]]; [by left| | | |]; eauto with server.
Qed.

Lemma slots_next l s s' : step s s' -> sessions_jobs s -> slots_inv l s -> slots_inv l s'.
Proof.
  intros Hstep Hj Hinv. destruct Hstep.
  all: try (by apply (slots_moved _ s); try done; rewrite ?H; try done; apply shared_moved; rewrite ?H).
  - by apply slots_receive.
  - unfold register_exec. destruct (try_insert _ _ _); (apply (slots_moved _ s); try done; rewrite ?H; try done;
      apply shared_moved; try done; by rewrite ?H).
  - assert (Hi : working (requests s i) = true /\ connecting (requests s i) = false) by (by destruct H as [[-> _]|[-> _]]).
    destruct Hi as [Hi Hc]. assert (Hh : holding (requests s i) = true) by (by destruct (requests s i)).
    unfold open_start. destruct (acquire _ _) as [n|] eqn:Hn; [|by apply slots_finish].
    apply acquire_ok in Hn as [Hpos ->]. by apply (slots_open l s _ i Connecting (open_free s - 1)); auto.
  - assert (Hi : connecting (requests s i) = true) by (by rewrite H). unfold open_done. destruct ok.
    + apply slots_open_done; try done; by destruct (job i).
    + by apply slots_open_failed.
  - assert (Hi : holding (requests s i) = true /\ connecting (requests s i) = false) by (by destruct H as [H|[H|[H|H]]]; rewrite H).
    destruct Hi. by apply slots_finish.
  - assert (Hi : io_shared s i) by (left; rewrite H; eauto using open_io).
    assert (Hm : forall j, j ∈ pumping s ∪ {[ i ]} -> io_shared s j).
    { intros j [?| ->%elem_of_singleton]%elem_of_union; eauto with server. }
    unfold session_opened, try_insert. destruct (_ !! id); session_move s H.
  - unfold terminate_session. destruct (sessions s Stdio !! id) eqn:Hp; session_move s H.
  - unfold wait_start. destruct (sessions s Stdio !! id) eqn:Hp; session_move s H.
  - unfold wait_done, forget. repeat case_match; session_move s H.
  - unfold close_start. destruct (sessions s Pty !! id) eqn:Hp; session_move s H.
  - unfold close_done, forget. destruct ok; [|repeat case_match]; session_move s H.
  - unfold stop_exec, cancel_token. repeat case_match; session_move s H.
  - unfold cancel_stream. repeat case_match; session_move s H.
  - by apply slots_reply.
  - apply (slots_frame _ s); try done. apply shared_phase; try done; cbn; [set_solver| |]; eauto with server.
    intros k rest j Hp Hin. do 4 right. eauto.
  - by apply slots_release.
  - apply (slots_frame _ s); try done. apply shared_phase; try done. eauto with server.
  - apply (slots_frame _ s); try done. apply shared_phase; try done; cbn.
    + intros k' id j. destruct (decide (k' = k)); [by rewrite lookup_empty|]. eauto with server.
    + intros k' left j [= <- <-]. rewrite H0. intros ([id j'] & -> & Hin)%list_elem_of_fmap.
      apply elem_of_map_to_list in Hin. eauto with server.
  - apply (slots_frame _ s); try (by destruct left). apply shared_phase; try (by destruct left).
    + destruct left; cbn; eauto with server.
    + intros k' left' j. destruct left; cbn; [by destruct k|]. intros [= <- <-] Hin. do 4 right. exists k, (n :: left).
      split; [done|]. by right.
  - apply (slots_frame _ s); try done. apply shared_phase; try done. eauto with server.
  - unfold abort_request. apply slots_reply; [cbn; by rewrite Nat.eqb_refl|].
    destruct (connecting (requests s i)) eqn:Hc; [by apply slots_open_failed|by apply slots_finish].
Qed.
(** ** Sessions *)

Definition accounted (s : State) (i : nat) : Prop := i ∈ told s \/ i ∈ ended s \/ i ∈ forgotten s.
(** Where an open session is: told to end, ended, pushed out of its registry, in it, or
    about to be closed. *)
Definition kept (s : State) (i : nat) : Prop :=
  accounted s i \/ (exists k id, sessions s k !! id = Some i) \/ (exists k rest, phase s = ClosingAll k rest /\ i ∈ rest).
Definition same_id (i j : nat) : Prop := i <> j /\ exists k id, job i = JOpen k id /\ job j = JOpen k id.

Record kept_inv (s : State) : Prop := {
  kp_open i : phase s <> Aborting -> i ∈ opened s -> kept s i;
  kp_drained k id i : is_drained (phase s) k = true -> sessions s k !! id = Some i -> i ∈ late s \/ i ∈ told s;
  kp_closing i j : requests s j = ClosingOf i -> i ∈ told s;
  kp_forgotten i : i ∈ forgotten s -> exists j, same_id i j;
}.

(** Requests move and histories grow, the registries keeping what they had but for what
    is accounted for. *)
Lemma kept_grows s t : phase t = phase s -> told s ⊆ told t -> late s ⊆ late t -> ended s ⊆ ended t -> forgotten s ⊆ forgotten t ->
  (forall i, i ∈ opened t -> i ∈ opened s \/ kept t i) ->
  (forall i, i ∈ forgotten t -> i ∈ forgotten s \/ exists j, same_id i j) ->
  (forall k id i, sessions s k !! id = Some i -> kept t i) ->
  (forall k id i, sessions t k !! id = Some i ->
    sessions s k !! id = Some i \/ i ∈ told t \/ (is_drained (phase s) k = true -> i ∈ late t)) ->
  (forall i j, requests t j = ClosingOf i -> requests s j = ClosingOf i \/ i ∈ told t) -> kept_inv s -> kept_inv t.
Proof.
  intros Hp Ht Hl He Hf Ho Hff Hs Hs' Hc []. split.
  - intros i. rewrite Hp. intros Hna [Hi|?]%Ho; [|done]. destruct (kp_open0 i Hna Hi) as [[?|[?|?]]|[(k & id & ?)|?]].
    + left. left. auto.
    + left. right. left. auto.
    + left. right. right. auto.
    + eauto.
    + do 2 right. by rewrite Hp.
  - intros k id i. rewrite Hp. intros Hd [Hi|[?|?]]%Hs'; [|by right|left; auto]. destruct (kp_drained0 k id i Hd Hi); [left|right]; auto.
  - intros i j [Hj|?]%Hc; [|done]. eauto.
  - intros i [?|?]%Hff; auto.
Qed.

(** The session a request deals with is told; no other session is touched. *)
Lemma kept_moved s t i p : requests t = requests s -> sessions t = sessions s -> phase t = phase s -> opened t = opened s ->
  told s ⊆ told t -> late t = late s -> ended t = ended s -> forgotten t = forgotten s -> (forall q, p <> ClosingOf q) ->
  kept_inv s -> kept_inv (set_request t i p).
Proof.
  intros Hr Hs Hp Ho Ht Hl He Hf Hq. apply kept_grows; cbn; rewrite ?Ho, ?Hl, ?He, ?Hf; try done.
  - by left.
  - by left.
  - intros k id j ?. right. left. exists k, id. cbn. by rewrite Hs.
  - rewrite Hs. by left.
  - intros j n. rewrite Hr. task n i; [intros ->; by destruct (Hq j)|by left].
Qed.

Lemma kept_same s t i p : same_sessions s t -> (forall q, p <> ClosingOf q) -> kept_inv s -> kept_inv (set_request t i p).
Proof. intros [] Hq. apply kept_moved; congruence. Qed.

Lemma kept_finish s i : kept_inv s -> kept_inv (finish_work s i).
Proof. destruct (finish_frame s i) as (t & -> & _ & _ & _ & _ & Hs). by apply kept_same. Qed.

Lemma sessions_rest s k k' id id' j (r : gmap string nat) : (forall id', id' <> id -> r !! id' = sessions s k !! id') ->
  sessions s k' !! id' = Some j -> (if decide (k' = k) then r else sessions s k') !! id' = Some j \/ (k' = k /\ id' = id).
Proof.
  intros Hr Hj. destruct (decide (k' = k)) as [->|]; [|by left]. destruct (decide (id' = id)) as [->|]; [by right|left].
  by rewrite Hr.
Qed.

Lemma kept_opened s i k id : requests s i = Opening -> kept_inv s -> kept_inv (session_opened s i k id).
Proof.
  intros Hi. unfold session_opened, try_insert. set (l := if is_drained (phase s) k then _ else _).
  assert (Hl : late s ⊆ l) by (subst l; destruct (is_drained _ _); set_solver). cbn [sessions set_history].
  destruct (sessions s k !! id) eqn:Hid; apply kept_grows; try done; cbn; try set_solver.
  - intros j [?| ->%elem_of_singleton]%elem_of_union; [by left|]. right. left. left. cbn. set_solver.
  - intros k' id' j Hj. right. left. by exists k', id'.
  - intros j m. task m i; [done|by left].
  - intros j [?| ->%elem_of_singleton]%elem_of_union; [by left|]. right. right. left. exists k, id. cbn.
    rewrite decide_True by done. apply lookup_insert_eq.
  - intros k' id' j Hj. right. left. exists k', id'. cbn.
    destruct (sessions_rest s k k' id id' j (<[id := i]> (sessions s k))) as [?|[-> ->]]; [|done|done|congruence].
    intros. by apply lookup_insert_ne.
  - intros k' id' j [?|(-> & -> & ->)]%sessions_put; [by left|]. do 2 right. intros Hd. subst l. rewrite Hd. set_solver.
  - intros j n. task n i; [done|by left].
Qed.

(** What [forget] remembers, besides what it was told. *)
Lemma forget_frame s o p : exists f, forget s o p = set_history s (opened s) (told s) (ended s) f (late s) /\
  forgotten s ⊆ f /\ (forall j, j ∈ f -> j ∈ forgotten s \/ o = Some j /\ j <> p) /\ (forall j, o = Some j -> j = p \/ j ∈ f).
Proof.
  unfold forget. destruct o as [j|]; [destruct (decide (j = p)) as [->|Hne]|].
  - exists (forgotten s). split_and!; [by destruct s|done|by left|]. intros j [= ->]. by left.
  - exists (forgotten s ∪ {[ j ]}). split_and!; [done|set_solver|..].
    + intros n [?| ->%elem_of_singleton]%elem_of_union; auto.
    + intros n [= ->]. right. set_solver.
  - exists (forgotten s). split_and!; [by destruct s|done|by left|done].
Qed.

Lemma kept_waited s i id p : requests s i = WaitingOn p -> job i = JWait id -> sessions_jobs s -> kept_inv s ->
  kept_inv (wait_done s i id p).
Proof.
  intros Hi Hid Hj. destruct (sj_waiting s Hj i p Hi) as (id' & Hp & Hid'). assert (id' = id) as -> by naive_solver congruence.
  unfold wait_done. destruct (forget_frame s (sessions s Stdio !! id) p) as (f & -> & Hf & Hff & Hout).
  apply kept_grows; try done; cbn; try set_solver.
  - intros j [?|[He Hne]]%Hff; [by left|right]. exists p. split; [done|]. exists Stdio, id. split; [by apply Hj in He|done].
  - intros k id' j He. destruct (sessions_rest s Stdio k id id' j (delete id (sessions s Stdio))) as [?|[-> ->]]; [|done| |].
    + intros. by apply lookup_delete_ne.
    + right. left. by exists k, id'.
    + left. right. destruct (Hout j He) as [->|?]; [left|right]; cbn; set_solver.
  - intros k id' j ?%sessions_gone. by left.
  - intros j n. task n i; [done|by left].
Qed.

Lemma kept_close s i id : kept_inv s -> kept_inv (close_start s i id).
Proof.
  intros Hinv. unfold close_start. destruct (sessions s Pty !! id) as [p|] eqn:Hp; [|by apply (kept_same s); [split| |]].
  revert Hinv. apply kept_grows; try done; cbn; try set_solver.
  - intros k id' j He. destruct (sessions_rest s Pty k id id' j (delete id (sessions s Pty))) as [?|[-> ->]]; [|done| |].
    + intros. by apply lookup_delete_ne.
    + right. left. by exists k, id'.
    + left. left. cbn. assert (j = p) as -> by congruence. set_solver.
  - intros k id' j ?%sessions_gone. by left.
  - intros j n. task n i; [intros [= ->]; right; set_solver|by left].
Qed.

Lemma kept_closed s i id p ok : requests s i = ClosingOf p -> job i = JClose id -> sessions_jobs s -> kept_inv s ->
  kept_inv (close_done s i id p ok).
Proof.
  intros Hi Hid Hj Hinv. destruct (sj_closing s Hj i p Hi) as (id' & Hp & Hid'). assert (id' = id) as -> by congruence.
  pose proof (kp_closing s Hinv p i Hi) as Htold. unfold close_done. destruct ok; [by apply (kept_same s); [split| |]|].
  revert Hinv. destruct (forget_frame s (sessions s Pty !! id) p) as (f & -> & Hf & Hff & Hout).
  apply kept_grows; try done; cbn.
  - by left.
  - intros j [?|[He Hne]]%Hff; [by left|right]. exists p. split; [done|]. exists Pty, id. split; [by apply Hj in He|done].
  - intros k id' j He. destruct (sessions_rest s Pty k id id' j (<[id := p]> (sessions s Pty))) as [?|[-> ->]]; [|done| |].
    + intros. by apply lookup_insert_ne.
    + right. left. by exists k, id'.
    + left. destruct (Hout j He) as [->|?]; [by left|by right; right].
  - intros k id' j [?|(-> & -> & ->)]%sessions_put; [by left|by right; left].
  - intros j n. task n i; [done|by left].
Qed.

Lemma kept_phase s t : kept_inv s -> phase s <> Aborting -> requests t = requests s -> forgotten t = forgotten s ->
  (forall i, i ∈ opened t -> i ∈ opened s) ->
  (forall i, kept s i -> kept t i) ->
  (forall k id i, is_drained (phase t) k = true -> sessions t k !! id = Some i -> i ∈ late t \/ i ∈ told t) ->
  told s ⊆ told t -> kept_inv t.
Proof.
  intros [] Hna Hr Hf Ho Hk Hd Ht. split.
  - intros i _ Hi. auto.
  - done.
  - intros i j. rewrite Hr. intros Hj. eauto.
  - intros i. rewrite Hf. auto.
Qed.

Lemma kept_next s s' : step s s' -> sessions_jobs s -> kept_inv s -> kept_inv s'.
Proof.
  intros Hstep Hj Hinv. destruct Hstep.
  all: try (by apply (kept_same s); [split| |]).
  all: try (by apply kept_finish).
  all: try (unfold stop_exec, cancel_stream, cancel_token, wait_start, terminate_session, register_exec, open_start;
    repeat case_match; first [by apply kept_finish|by apply (kept_same s); [split| |]|apply (kept_moved s); try done; cbn; set_solver]).
  - destruct (receive_frame s i) as (t & p & -> & Hp & Hs). apply (kept_same s); [done|by destruct Hp as [-> | ->]|done].
  - unfold open_done. destruct ok; [apply (kept_same s); [done|by destruct (job i)|done]|]. apply kept_finish. by destruct Hinv.
  - by apply kept_opened.
  - by apply kept_waited.
  - by apply kept_close.
  - by apply kept_closed.
  - by destruct Hinv.
  - by destruct Hinv.
  - apply (kept_phase s); try done; cbn; try congruence; try by auto.
    intros j [?|[?|(k & rest & Hp & _)]]; [by left|by right; left|congruence].
  - apply (kept_phase s); try done; cbn; try congruence; try by auto.
    + intros j [?|[(k' & id & Hk)|(k' & rest & Hp & _)]]; [by left| |congruence].
      destruct (decide (k' = k)) as [->|Hne].
      * do 2 right. exists k, all. split; [done|]. rewrite H0. apply list_elem_of_fmap. exists (id, j). split; [done|].
        by apply elem_of_map_to_list.
      * right. left. exists k', id. cbn. by rewrite decide_False.
    + intros k' id j. destruct (decide (k' = k)); [by rewrite lookup_empty|]. intros Hd Hk.
      apply (kp_drained s Hinv k' id j); [|done]. rewrite H. by destruct k, k'.
  - destruct left as [|p rest]; (apply (kept_phase s); try done; cbn; try congruence; try by auto); try set_solver.
    + intros j [?|[?|(k' & rest' & Hp & Hin)]]; [by left|by right; left|]. rewrite H in Hp. injection Hp as <- <-.
      by apply not_elem_of_nil in Hin.
    + intros k' id j Hd Hk. apply (kp_drained s Hinv k' id j); [|done]. rewrite H. by destruct k, k'.
    + intros j [[?|?]|[?|(k' & rest' & Hp & Hin)]]; [left; left; cbn; set_solver|left; by right|by right; left|].
      rewrite H in Hp. injection Hp as <- <-. apply elem_of_cons in Hin as [->|?]; [left; left; cbn; set_solver|].
      do 2 right. by exists k, rest.
    + intros k' id j Hd Hk. destruct (kp_drained s Hinv k' id j) as [?|?]; [by rewrite H|done|by left|right; set_solver].
  - destruct Hinv. by split.
  - unfold abort_request, reply. eapply kept_same; [|done|apply (kept_finish (if connecting (requests s i) then set_open s (open_free s + 1) else s) i)]; [by split|].
    destruct (connecting _); [by destruct Hinv|done].
Qed.
(** Every reachable state. *)
Record server_inv (l : TransportLimits) (s : State) : Prop := {
  sv_claims : claims_inv s;
  sv_jobs : sessions_jobs s;
  sv_slots : slots_inv l s;
  sv_kept : kept_inv s;
}.

Definition sound_limits (l : TransportLimits) : Prop :=
  0 <= provider_requests l /\ 0 <= reserved_requests l /\ 0 <= pending_opens l /\ 0 <= active_io l.

Lemma server_inv_start l : sound_limits l -> server_inv l (server_start l).
Proof.
  intros (Hp & Hr & Ho & Hio). split.
  - split; cbn; [done|..]; [|by split]. intros c id i Hi. by rewrite claim_none in Hi.
  - by split.
  - split; cbn.
    + intros k. apply counts_start; [|by destruct k]. intros i. unfold held_of. cbn. by destruct (Bool.eqb _ _).
    + by apply counts_start.
    + rewrite size_empty. lia.
    + intros i [[? _]|[?|[(k & id & ?)|[(j & [?|?])|(k & rest & ? & _)]]]]; by set_solver.
    + set_solver.
  - by split; set_solver.
Qed.

Lemma server_inv_reach l s : sound_limits l -> rtc step (server_start l) s -> server_inv l s.
Proof.
  intros Hl Hs. pose proof (server_inv_start l Hl) as Hinv. revert Hinv. induction Hs as [|s1 s2 s3 Hs _ IH]; [done|].
  intros []. apply IH. split; [by eapply claims_inv_next|by eapply jobs_next|by eapply slots_next|by eapply kept_next].
Qed.

Lemma entry_values (r : gmap string nat) k : (forall id i, r !! id = Some i -> job i = JOpen k id) -> NoDup (map_to_list r).*2.
Proof.
  intros Hr. apply NoDup_fmap_2_strong; [|apply NoDup_map_to_list].
  intros [id i] [id' j] Hi Hj. apply elem_of_map_to_list in Hi, Hj. cbn. intros ->. apply Hr in Hi, Hj. congruence.
Qed.

(** The sessions held between requests are no more than the I/O slots. *)
Lemma sessions_bounded l s : sessions_jobs s -> slots_inv l s ->
  Z.of_nat (size (sessions s Stdio)) + Z.of_nat (size (sessions s Pty)) <= active_io l.
Proof.
  intros Hj [_ _ [Hpos Hio] Hsh _]. set (all := (map_to_list (sessions s Stdio)).*2 ++ (map_to_list (sessions s Pty)).*2).
  assert (Hin : forall k i, i ∈ (map_to_list (sessions s k)).*2 -> exists id, sessions s k !! id = Some i).
  { intros k i ([id j] & -> & Hin)%list_elem_of_fmap. apply elem_of_map_to_list in Hin. by exists id. }
  assert (Hnd : NoDup all).
  { apply NoDup_app. split_and!; [eapply entry_values, Hj| |eapply entry_values, Hj].
    intros i [id Hi]%Hin [id' Hi']%Hin. apply Hj in Hi, Hi'. congruence. }
  assert (Hsub : all ⊆+ elements (io_held s)).
  { apply NoDup_submseteq; [done|]. intros i [[id ?]%Hin|[id ?]%Hin]%elem_of_app; eapply elem_of_elements, Hsh, shared_entry; eassumption. }
  apply submseteq_length in Hsub. unfold all in Hsub. rewrite length_app, !length_fmap, !length_map_to_list in Hsub.
  change (length (elements (io_held s))) with (size (io_held s)) in Hsub. lia.
Qed.

Section Reached.
Context (l : TransportLimits) (s : State) (Hl : sound_limits l) (Hreach : rtc step (server_start l) s).

(** C29. A stop reaches its exec. A streaming command's tokens are registered before its
    data channel begins to open and until its work is over, so that a stop sent by a
    host that accepted the channel finds them: a kill always takes effect, a term unless
    the connection is ending and has killed it outright; a stream, registered before its
    task starts, is found by a cancel that overtakes it; and what is under an id is the
    one command or stream that claimed it, so no other is stopped. *)
Theorem server_stops :
  (forall i j id level, requests s i = Started -> job i = JStop id level -> claim_of j (requests s j) = Some (ExecClaim, id) ->
    let s' := stop_exec s i id level in
    exec_shutdown s' = true \/ j ∈ match level with Term => termed s' | Kill => killed s' end) /\
  (forall i j id, requests s i = Started -> job i = JCancel id -> claim_of j (requests s j) = Some (StreamClaim, id) ->
    let s' := cancel_stream s i id in exec_shutdown s' = true \/ j ∈ cancelled s') /\
  (forall i id, job i = JExec id -> connecting (requests s i) = true -> claim_of i (requests s i) = Some (ExecClaim, id)) /\
  (forall i id, job i = JFollow id -> requests s i = Unsent ->
    let s' := receive_request s i in requests s' i = Rejected \/ claims s' StreamClaim !! id = Some i) /\
  (forall c id i, claims s c !! id = Some i -> claim_of i (requests s i) = Some (c, id)).
Proof.
  destruct (server_inv_reach l s Hl Hreach) as [Hc _ _ _]. split_and!.
  - intros i j id level _ _ Hj. destruct (ci_claim s Hc _ _ _ Hj) as [He|Hd].
    + right. unfold stop_exec. rewrite He. destruct level; cbn; set_solver.
    + left. unfold stop_exec. by destruct (_ !! id), level.
  - intros i j id _ _ Hj. destruct (ci_claim s Hc _ _ _ Hj) as [He|Hd].
    + right. unfold cancel_stream. rewrite He. cbn. set_solver.
    + left. unfold cancel_stream. by destruct (_ !! id).
  - intros i id Hi. unfold claim_of. rewrite Hi. by destruct (requests s i).
  - intros i id Hi Hu. cbn. unfold receive_request. rewrite Hi. destruct (admit_request s i); [|left; cbn; by rewrite Nat.eqb_refl].
    unfold try_insert. destruct (_ !! id); [left|right]; cbn; [by rewrite Nat.eqb_refl|apply lookup_insert_eq].
  - apply Hc.
Qed.

(** C30. Admission is exact and never waits. The free slots of each budget and the
    requests that hold one add up to the budget, through rejections, failures and drops,
    and so do the slots for opening channels; the processes and terminals held between
    requests are never more than the I/O slots; and a stop, cancel or close is admitted
    while its reserve lasts, however full the plugin is. *)
Theorem server_admission :
  (forall k, counts (fun i => Bool.eqb (priority_of i) k && holding (requests s i)) (free_of s k)
    (if k then reserved_requests l else provider_requests l)) /\
  counts (fun i => connecting (requests s i)) (open_free s) (pending_opens l) /\
  0 <= io_free s /\ io_free s + Z.of_nat (size (io_held s)) = active_io l /\
  Z.of_nat (size (sessions s Stdio)) + Z.of_nat (size (sessions s Pty)) <= active_io l /\
  (forall i, io_shared s i -> i ∈ io_held s) /\
  (forall i, requests s i = Unsent -> priority_of i = true -> 0 < reserved_free s -> requests (receive_request s i) i = Started).
Proof.
  destruct (server_inv_reach l s Hl Hreach) as [_ Hj Hs _]. pose proof (sessions_bounded l s Hj Hs) as Hb.
  destruct Hs as [Hf Ho [? ?] Hsh Hsent]. split_and!; try done.
  intros i _ Hp Hfree. assert (Hio : io_of i = false) by (by apply traits_apart).
  unfold receive_request, admit_request. rewrite Hp, Hio. unfold acquire. cbn [free_of].
  destruct (Z.ltb_spec 0 (reserved_free s)); [|lia]. cbn [rbind].
  destruct (job i) eqn:Hi; cbn; rewrite ?Nat.eqb_refl; try done.
  unfold io_of in Hio. by rewrite Hi in Hio.
Qed.

(** C31. No session is lost. Until the connection gives up on its deadline, whatever was
    opened is in its registry under the id the host gave it, about to be closed, told to
    end, known to have ended, or was pushed out of the registry by another session, which
    takes a host that opened two under one id. After a shutdown that met its deadline
    each has been told or has ended, but for those whose open finished after their
    registry was emptied. *)
Theorem server_sessions :
  (phase s <> Aborting -> forall i, i ∈ opened s ->
    i ∈ told s \/ i ∈ ended s \/ i ∈ forgotten s \/ (exists k id, job i = JOpen k id /\ sessions s k !! id = Some i) \/
    (exists k rest, phase s = ClosingAll k rest /\ i ∈ rest)) /\
  (forall i, i ∈ forgotten s -> exists j k id, i <> j /\ job i = JOpen k id /\ job j = JOpen k id) /\
  (phase s = Joining -> forall i, i ∈ opened s -> i ∈ told s \/ i ∈ ended s \/ i ∈ forgotten s \/ i ∈ late s).
Proof.
  destruct (server_inv_reach l s Hl Hreach) as [_ [He _ _] _ [Ho Hd _ Hf]]. split_and!.
  - intros Hp i Hi. destruct (Ho i Hp Hi) as [[?|[?|?]]|[(k & id & Hk)|?]]; auto 6. do 3 right. left. exists k, id. eauto.
  - intros i Hi. destruct (Hf i Hi) as (j & Hne & k & id & ? & ?). eauto 10.
  - intros Hp i Hi. destruct (Ho i) as [[?|[?|?]]|[(k & id & Hk)|(k & rest & Hk & _)]]; try congruence; auto.
    destruct (Hd k id i) as [?|?]; auto. by rewrite Hp.
Qed.
End Reached.

(** One registry's sessions are closed, one step each. *)
Lemma close_list s k rest : phase s = ClosingAll k rest ->
  exists s', nsteps step (S (length rest)) s s' /\ phase s' = next_kind k /\ requests s' = requests s /\ sessions s' = sessions s /\
    exec_shutdown s' = exec_shutdown s /\ told s ⊆ told s' /\ forall i, i ∈ rest -> i ∈ told s'.
Proof.
  revert s. induction rest as [|p rest IH]; intros s Hp.
  - exists (close_next s k []). split_and!; [eapply nsteps_once; by constructor|done..|]. by intros i ?%not_elem_of_nil.
  - destruct (IH (close_next s k (p :: rest))) as (s' & Hs & Hp' & Hr & He & Hd & Ht & Hin); [done|]. exists s'.
    split_and!; [eapply nsteps_l; [by constructor|done]|done|done|done|done|set_solver|].
    intros i [->|?]%elem_of_cons; [|auto]. apply Ht. cbn. set_solver.
Qed.

Lemma drain_list s k : phase s = Draining k ->
  exists s', nsteps step (2 + size (sessions s k)) s s' /\ phase s' = next_kind k /\ requests s' = requests s /\
    (forall k', k' <> k -> sessions s' k' = sessions s k') /\ exec_shutdown s' = exec_shutdown s /\ told s ⊆ told s' /\
    forall id i, sessions s k !! id = Some i -> i ∈ told s'.
Proof.
  intros Hp. set (all := (map_to_list (sessions s k)).*2).
  destruct (close_list (drain_sessions s k all) k all eq_refl) as (s' & Hs & Hp' & Hr & He & Hd & Ht & Hin). exists s'.
  assert (Hlen : length all = size (sessions s k)) by (unfold all; by rewrite length_fmap, length_map_to_list). rewrite <- Hlen.
  split_and!; [eapply nsteps_l; [apply step_drain; [done|by unfold drained_to]|done]|done|done| |done|done|].
  - intros k' Hne. rewrite He. cbn. by rewrite decide_False.
  - intros id i Hi. apply Hin, list_elem_of_fmap. exists (id, i). split; [done|]. by apply elem_of_map_to_list.
Qed.

(** The end of a connection closes everything it holds. From any state it serves in,
    its own steps, one to kill every exec, one to empty each registry and one for each
    session, bring it to waiting for its requests: every exec is then killed, registered
    or not, every process and terminal that was held has been told, and no request was
    disturbed on the way. *)
Theorem server_closes s : phase s = Serving ->
  exists s', nsteps step (5 + size (sessions s Stdio) + size (sessions s Pty)) s s' /\
    phase s' = Joining /\ requests s' = requests s /\ exec_shutdown s' = true /\
    forall k id i, sessions s k !! id = Some i -> i ∈ told s'.
Proof.
  intros Hp. destruct (drain_list (close_claims s) Stdio eq_refl) as (s1 & Hs1 & Hp1 & Hr1 & He1 & Hd1 & Ht1 & Hin1).
  destruct (drain_list s1 Pty Hp1) as (s2 & Hs2 & Hp2 & Hr2 & He2 & Hd2 & Ht2 & Hin2).
  change (sessions (close_claims s) Stdio) with (sessions s Stdio) in *. rewrite (He1 Pty) in * by done.
  change (sessions (close_claims s) Pty) with (sessions s Pty) in *.
  exists s2. split_and!; [|done|by rewrite Hr2, Hr1| |].
  - replace (5 + _ + _)%nat with (1 + ((2 + size (sessions s Stdio)) + (2 + size (sessions s Pty))))%nat by lia.
    eapply nsteps_l; [by apply step_break|]. by eapply nsteps_trans.
  - by rewrite Hd2, Hd1.
  - intros [] id i Hi; [apply Ht2; eauto|eauto].
Qed.
End Server.

(** ** A plugin that is stopped, and one whose terminal fails to close *)

#[local] Notation demo_job := (fun i : nat =>
  match i with
  | 0 => JExec "a" | 1 => JStop "a" Kill | 2 => JOpen Pty "t" | 3 => JOpen Pty "t" | 4 => JClose "t"
  | _ => JOther "sandbox/list"
  end%nat).
#[local] Notation demo_step := (step demo_job).

Definition demo_running : State :=
  let s := receive_request demo_job (server_start default_limits) 0 in
  let s := open_start demo_job (register_exec s 0 "a") 0 in
  receive_request demo_job (open_done demo_job s 0 true) 1.

Definition open_terminal (s : State) (i : nat) : State :=
  open_done demo_job (open_start demo_job (receive_request demo_job s i) i) i true.
Definition demo_terminal : State := session_opened (open_terminal (server_start default_limits) 2) 2 Pty "t".
(** The close fails after another terminal was opened under the id. *)
Definition demo_overwritten : State :=
  let s := close_start (receive_request demo_job demo_terminal 4) 4 "t" in
  close_done (session_opened (open_terminal s 3) 3 Pty "t") 4 "t" 2 false.
(** The terminal opens when the registries have been emptied. *)
Definition demo_late : State :=
  let s := close_claims (open_terminal (server_start default_limits) 2) in
  let s := close_next (drain_sessions s Stdio []) Stdio [] in
  session_opened (close_next (drain_sessions s Pty []) Pty []) 2 Pty "t".

Lemma open_terminal_steps s i : phase s = Serving -> requests s i = Unsent -> i = 2%nat \/ i = 3%nat ->
  requests (receive_request demo_job s i) i = Started -> requests (open_start demo_job (receive_request demo_job s i) i) i = Connecting ->
  rtc demo_step s (open_terminal s i).
Proof.
  intros Hp Hi Hn Hs Hc. eapply rtc_l; [by apply step_receive|]. eapply rtc_l.
  - apply step_open_start. right. split; [done|left]. exists Pty, "t". by destruct Hn as [-> | ->].
  - apply rtc_once. by apply step_open_done.
Qed.

Lemma demo_running_steps : rtc demo_step (server_start default_limits) demo_running.
Proof.
  unfold demo_running. eapply rtc_l; [by apply (step_receive demo_job _ 0)|].
  eapply rtc_l; [by eapply (step_register demo_job _ 0 "a")|].
  eapply rtc_l; [apply (step_open_start demo_job _ 0); left; split; [by vm_compute|by exists "a"]|].
  eapply rtc_l; [by apply (step_open_done demo_job _ 0 true)|]. apply rtc_once. by apply (step_receive demo_job _ 1).
Qed.

Lemma demo_terminal_steps : rtc demo_step (server_start default_limits) demo_terminal.
Proof.
  etrans; [by apply (open_terminal_steps _ 2); auto|]. apply rtc_once. by apply (step_opened demo_job _ 2 Pty "t").
Qed.

(** A terminal is forgotten: no longer in the registry, neither closed nor ended. *)
Lemma overwritten_terminal : rtc demo_step (server_start default_limits) demo_overwritten /\
  3%nat ∈ opened demo_overwritten /\ 3%nat ∉ told demo_overwritten /\ 3%nat ∉ ended demo_overwritten /\
  forall k id, sessions demo_overwritten k !! id <> Some 3%nat.
Proof.
  split; [|split_and!; try (by vm_compute)].
  - etrans; [apply demo_terminal_steps|]. unfold demo_overwritten.
    eapply rtc_l; [by apply (step_receive demo_job _ 4)|]. eapply rtc_l; [by apply (step_close demo_job _ 4 "t")|].
    etrans; [by apply (open_terminal_steps _ 3); auto|]. eapply rtc_l; [by apply (step_opened demo_job _ 3 Pty "t")|].
    apply rtc_once. by apply (step_closed demo_job _ 4 "t" 2 false).
  - intros k id.
    assert (sessions demo_overwritten k = match k with Stdio => ∅ | Pty => {[ "t" := 2%nat ]} end) as -> by (by destruct k; vm_compute).
    destruct k; [by rewrite lookup_empty|]. intros [_ ?]%lookup_singleton_Some. done.
Qed.

(** A terminal opened late is held, and not closed, when the connection is done closing. *)
Lemma late_terminal : rtc demo_step (server_start default_limits) demo_late /\ phase demo_late = Joining /\
  sessions demo_late Pty !! "t" = Some 2%nat /\ 2%nat ∉ told demo_late /\ 2%nat ∉ ended demo_late.
Proof.
  split; [|split_and!; by vm_compute].
  etrans; [by apply (open_terminal_steps _ 2); auto|]. unfold demo_late.
  eapply rtc_l; [by apply step_break|]. eapply rtc_l; [apply (step_drain demo_job _ Stdio []); [done|by vm_compute]|].
  eapply rtc_l; [by apply step_close_next|]. eapply rtc_l; [apply (step_drain demo_job _ Pty []); [done|by vm_compute]|].
  eapply rtc_l; [by apply step_close_next|]. apply rtc_once. by apply (step_opened demo_job _ 2 Pty "t").
Qed.

Lemma demo_sound : sound_limits default_limits.
Proof. by vm_compute. Qed.

Lemma server_stops_witness : 0%nat ∈ killed (stop_exec demo_running 1 "a" Kill).
Proof.
  destruct (server_stops demo_job default_limits demo_running demo_sound demo_running_steps) as (Hs & _).
  destruct (Hs 1%nat 0%nat "a" Kill eq_refl eq_refl eq_refl) as [Hd|Hk]; [vm_compute in Hd; discriminate|exact Hk].
Defined.

Lemma server_admission_witness : io_free demo_terminal = active_io default_limits - 1 /\
  Z.of_nat (size (sessions demo_terminal Pty)) = 1 /\ Z.of_nat (size (sessions demo_terminal Stdio)) + 1 <= active_io default_limits.
Proof.
  destruct (server_admission demo_job default_limits demo_terminal demo_sound demo_terminal_steps) as (_ & _ & _ & _ & Hb & _).
  split; [vm_compute; reflexivity|]. split; [vm_compute; reflexivity|exact Hb].
Defined.

Lemma server_sessions_witness : 2%nat ∈ late demo_late /\
  (2%nat ∈ told demo_late \/ 2%nat ∈ ended demo_late \/ 2%nat ∈ forgotten demo_late \/ 2%nat ∈ late demo_late).
Proof.
  destruct (server_sessions demo_job default_limits demo_late demo_sound (proj1 late_terminal)) as (_ & _ & Hj).
  split; [vm_compute; reflexivity|]. apply Hj; vm_compute; reflexivity.
Defined.

Lemma server_closes_witness : exists s', nsteps demo_step 6 demo_terminal s' /\ phase s' = Joining /\ 2%nat ∈ told s'.
Proof.
  destruct (server_closes demo_job demo_terminal eq_refl) as (s' & Hs & Hp & _ & _ & Ht). exists s'.
  split; [exact Hs|]. split; [exact Hp|]. apply (Ht Pty "t"). vm_compute. reflexivity.
Defined.
