(* ===== verification/Fence.v ===== *)
(** * Process groups the host owns

    Models [crates/sandbox-driver-host/src/fence/sentinel.rs]: the process groups of a
    host sandbox, each pinned by a sentinel that is not reaped before the sandbox stops,
    and the drain that kills, reaps and forgets them, as steps that interleave with the
    kernel's: processes fork, lead groups of their own, exit and are reaped, and ids are
    used again. A process has, besides its id, a birth that is never used again, and so
    has a group; no definition of the program reads one. The process table is read in one
    instant. *)

From S2P Require Import Prelude.

#[local] Open Scope list_scope.
#[local] Open Scope Z_scope.

(** ** State *)

Record Process := mkProcess {
  birth : nat;
  pgrp : Z;
  group_birth : nat;
  zombie : bool;
}.

Inductive Signal := SIGTERM | SIGKILL.

(** Whether a sentinel still pins its group's id; [Reaping]: its child was taken out to
    be reaped. *)
Inductive Pin := Held | Reaping | Reaped.

Record PinnedGroup := mkGroup {
  pgid : Z;
  sentinel : nat;
  pin : Pin;
}.

(** Where [drain] stands. The rounds of [kill_owned_groups] have what the last one saw,
    the groups left to signal, and which signals were accepted; reaping has the groups
    left and the child it waits for; then the ids awaited. [Dropping]: the owner's
    [Drop]. *)
Inductive Stage :=
  | Killing (was_empty : bool) (rest : list nat) (signals : list (nat * bool))
  | ReapNext (rest : list nat)
  | WaitChild (i : nat) (rest : list nat)
  | AwaitGone (pgids : list Z)
  | Removing
  | Dropping (rest : list nat).

Record Drain := mkDrain {
  for_start : bool;
  saved : list Z;
  stage : Stage;
}.

(** [lock]: who holds the state's lock. [signalled]: which groups, by birth, a signal to
    a pinned group reached. *)
Record State := mkState {
  table : gmap Z Process;
  births : nat;
  groups : gmap nat PinnedGroup;
  accepting_work : bool;
  generation : option (list nat);
  lock : option Drain;
  closing : bool;
  gone : bool;
  signalled : list (nat * nat);
}.

Definition groups_new (running : bool) (t : gmap Z Process) (b : nat) : State :=
  mkState t b ∅ running None None false false [].

Definition set_table (s : State) (t : gmap Z Process) (b : nat) : State :=
  mkState t b (groups s) (accepting_work s) (generation s) (lock s) (closing s) (gone s) (signalled s).
Definition set_lock (s : State) (d : option Drain) : State :=
  mkState (table s) (births s) (groups s) (accepting_work s) (generation s) d (closing s) (gone s) (signalled s).
Definition set_stage (s : State) (d : Drain) (p : Stage) : State :=
  set_lock s (Some (mkDrain (for_start d) (saved d) p)).
Definition set_pin (s : State) (i : nat) (p : Pin) : State :=
  mkState (table s) (births s) (alter (fun g => mkGroup (pgid g) (sentinel g) p) i (groups s)) (accepting_work s)
    (generation s) (lock s) (closing s) (gone s) (signalled s).
Definition set_accepting (s : State) (b : bool) : State :=
  mkState (table s) (births s) (groups s) b (generation s) (lock s) (closing s) (gone s) (signalled s).
Definition set_closing (s : State) (c g : bool) : State :=
  mkState (table s) (births s) (groups s) (accepting_work s) (generation s) (lock s) c g (signalled s).

(** ** Signals and observation *)

Definition in_group (g : Z) (p : Process) : bool := pgrp p =? g.

(** [killpg]: a SIGKILL ends every member; what a SIGTERM does is the members' business. *)
Definition killpg (t : gmap Z Process) (g : Z) (sig : Signal) : gmap Z Process :=
  match sig with
  | SIGTERM => t
  | SIGKILL => (fun p => if in_group g p then mkProcess (birth p) (pgrp p) (group_birth p) true else p) <$> t
  end.
Definition members (t : gmap Z Process) (g : Z) : list Process := filter (fun p => in_group g p = true) (map_to_list t).*2.

(** [PinnedGroup::signal]; the kernel may reject a signal. *)
Definition signal (s : State) (i : nat) (sig : Signal) (accepted : bool) : State * option bool :=
  match groups s !! i with
  | Some g =>
      match pin g with
      | Held =>
          if accepted
          then (mkState (killpg (table s) (pgid g) sig) (births s) (groups s) (accepting_work s) (generation s) (lock s)
                  (closing s) (gone s)
                  (signalled s ++ ((fun p => (i, group_birth p)) <$> members (table s) (pgid g))), Some true)
          else (s, Some false)
      | _ => (s, None)
      end
  | None => (s, None)
  end.

Definition group_is_live (t : gmap Z Process) (g : Z) : bool :=
  existsb (fun p => in_group g p && negb (zombie p)) (map_to_list t).*2.
Definition live_groups (t : gmap Z Process) (gs : list Z) : list Z := filter (fun g => group_is_live t g = true) gs.

Definition pgids_of (s : State) (l : list nat) : list Z := omap (fun i => pgid <$> groups s !! i) l.
Definition is_pinned (s : State) (i : nat) : bool :=
  match groups s !! i with Some g => match pin g with Held => true | _ => false end | None => false end.

(** ** Spawning *)

(** The kernel gives out an id no process and no group has. *)
Definition free_id (t : gmap Z Process) (pid : Z) : Prop := t !! pid = None /\ forall q p, t !! q = Some p -> pgrp p <> pid.

(** [ProcessGroups::spawn]: a stopped sandbox refuses; the generation stays when spawning
    fails. *)
Definition generation_or_create (s : State) : list nat := default [] (generation s).
Definition spawn (s : State) (i : nat) (pid : option Z) : State :=
  let gen := generation_or_create s in
  if negb (accepting_work s) then s else
  match pid with
  | Some pid =>
      mkState (<[pid := mkProcess (births s) pid (births s) false]> (table s)) (S (births s))
        (<[i := mkGroup pid (births s) Held]> (groups s)) (accepting_work s) (Some (gen ++ [i])) (lock s) (closing s)
        (gone s) (signalled s)
  | None =>
      mkState (table s) (births s) (groups s) (accepting_work s) (Some gen) (lock s) (closing s) (gone s) (signalled s)
  end.

(** ** [drain] *)

(** The saved generations are fenced, or not. *)
Definition drain_begin (s : State) (start : bool) (saved : option (list Z)) : State :=
  match saved with
  | None => s
  | Some saved =>
      set_lock s (Some (mkDrain start saved
        (match generation s with Some gen => Killing false gen [] | None => AwaitGone saved end)))
  end.
Definition stop (s : State) (saved : option (list Z)) : State := drain_begin (set_accepting s false) false saved.
Definition start (s : State) (saved : option (list Z)) : State :=
  if accepting_work s then s else drain_begin s true saved.

(** One signal of a round. *)
Definition kill_next (s : State) (d : Drain) (was : bool) (i : nat) (rest : list nat) (signals : list (nat * bool))
    (accepted : bool) : State :=
  match signal s i SIGKILL accepted with
  | (s, Some ok) => set_stage s d (Killing was rest (signals ++ [(i, ok)]))
  | (s, None) => set_stage s d (Killing was rest signals)
  end.

(** A round ends: a rejected signal matters only if a live member remains. *)
Definition observe (s : State) (d : Drain) (was : bool) (signals : list (nat * bool)) : State :=
  let gen := generation_or_create s in
  let live := live_groups (table s) (pgids_of s signals.*1) in
  let live_at (i : nat) := existsb (fun g => bool_decide (g ∈ live)) (pgids_of s [i]) in
  if existsb (fun x => negb (snd x) && live_at (fst x)) signals then set_lock s None
  else
    let alive := existsb (fun x => live_at (fst x)) signals in
    if negb alive && was then set_stage s d (ReapNext gen)
    else set_stage s d (Killing (negb alive) gen []).

(** [take_for_reap]: nothing to take unless the child is held. *)
Definition reap_next (s : State) (d : Drain) (i : nat) (rest : list nat) : State :=
  if is_pinned s i then set_stage (set_pin s i Reaping) d (WaitChild i rest) else set_stage s d (ReapNext rest).
(** The child was waited for: its id is free from now on. *)
Definition reap_done (s : State) (d : Drain) (i : nat) (rest : list nat) : State :=
  let t := match groups s !! i with Some g => delete (pgid g) (table s) | None => table s end in
  set_stage (set_pin (set_table s t (births s)) i Reaped) d (ReapNext rest).
Definition restore (s : State) (i : nat) : State := set_lock (set_pin s i Held) None.

Definition await_start (s : State) (d : Drain) : State :=
  set_stage s d (AwaitGone (saved d ++ pgids_of s (generation_or_create s))).
(** One observation of [await_groups_gone]. *)
Definition await_next (s : State) (d : Drain) (pgids : list Z) : State :=
  match live_groups (table s) pgids with
  | [] => set_stage s d Removing
  | pgids => set_stage s d (AwaitGone pgids)
  end.
Definition drain_done (s : State) (d : Drain) : State :=
  mkState (table s) (births s) (groups s) (for_start d || accepting_work s) None None (closing s) (gone s) (signalled s).

(** [Drop]. *)
Definition drop_begin (s : State) (cleanup : bool) : State :=
  match generation s with
  | Some gen => if cleanup then set_lock (set_closing s true false) (Some (mkDrain false [] (Dropping gen)))
                else set_closing s true true
  | None => set_closing s true true
  end.
Definition drop_next (s : State) (d : Drain) (i : nat) (rest : list nat) (accepted : bool) : State :=
  set_stage (set_pin (fst (signal s i SIGKILL accepted)) i Reaped) d (Dropping rest).
Definition drop_done (s : State) : State := set_lock (set_closing s true true) None.

(** The program's steps: callers of the lifecycle one at a time, each of which may fail,
    run out of time or be dropped where it waits; any command's handle at any time. *)
Inductive pstep (s : State) : State -> Prop :=
  | step_spawn i pid : lock s = None -> closing s = false -> groups s !! i = None ->
      (forall p, pid = Some p -> free_id (table s) p) -> pstep s (spawn s i pid)
  | step_signal i sig ok : closing s = false -> pstep s (fst (signal s i sig ok))
  | step_stop saved : lock s = None -> closing s = false -> pstep s (stop s saved)
  | step_start saved : lock s = None -> closing s = false -> pstep s (start s saved)
  | step_kill d was i rest sigs ok : lock s = Some d -> stage d = Killing was (i :: rest) sigs ->
      pstep s (kill_next s d was i rest sigs ok)
  | step_observe d was sigs : lock s = Some d -> stage d = Killing was [] sigs -> pstep s (observe s d was sigs)
  | step_take d i rest : lock s = Some d -> stage d = ReapNext (i :: rest) -> pstep s (reap_next s d i rest)
  | step_reaped d i rest g p : lock s = Some d -> stage d = WaitChild i rest -> groups s !! i = Some g ->
      table s !! pgid g = Some p -> zombie p = true -> pstep s (reap_done s d i rest)
  | step_restore d i rest : lock s = Some d -> stage d = WaitChild i rest -> pstep s (restore s i)
  | step_await d : lock s = Some d -> stage d = ReapNext [] -> pstep s (await_start s d)
  | step_gone d pgids : lock s = Some d -> stage d = AwaitGone pgids -> pstep s (await_next s d pgids)
  | step_removed d : lock s = Some d -> stage d = Removing -> pstep s (drain_done s d)
  | step_abandon d : lock s = Some d -> closing s = false -> pstep s (set_lock s None)
  | step_drop cleanup : lock s = None -> closing s = false -> pstep s (drop_begin s cleanup)
  | step_drop_next d i rest ok : lock s = Some d -> stage d = Dropping (i :: rest) -> pstep s (drop_next s d i rest ok)
  | step_drop_done d : lock s = Some d -> stage d = Dropping [] -> pstep s (drop_done s).

(** Whether the program still has a group's child, so that nobody else can reap it. *)
Definition child_held (s : State) (i : nat) (g : PinnedGroup) : Prop :=
  gone s = false /\
  match pin g with
  | Held => True
  | Reaping => exists d rest, lock s = Some d /\ stage d = WaitChild i rest
  | Reaped => False
  end.

(** The kernel's steps: a live process forks, leads a new group, exits; an unrelated
    process appears; a zombie goes, unless it is a child the program holds. *)
Definition exits (p : Process) : Process := mkProcess (birth p) (pgrp p) (group_birth p) true.
Inductive kstep (s : State) : State -> Prop :=
  | kernel_fork pid p new : table s !! pid = Some p -> zombie p = false -> free_id (table s) new ->
      kstep s (set_table s (<[new := mkProcess (births s) (pgrp p) (group_birth p) false]> (table s)) (S (births s)))
  | kernel_lead pid p : table s !! pid = Some p -> zombie p = false -> (forall q r, table s !! q = Some r -> pgrp r <> pid) ->
      kstep s (set_table s (<[pid := mkProcess (birth p) pid (births s) false]> (table s)) (S (births s)))
  | kernel_new new : free_id (table s) new ->
      kstep s (set_table s (<[new := mkProcess (births s) new (births s) false]> (table s)) (S (births s)))
  | kernel_exit pid p : table s !! pid = Some p -> kstep s (set_table s (<[pid := exits p]> (table s)) (births s))
  | kernel_reap pid p : table s !! pid = Some p -> zombie p = true ->
      (forall i g, groups s !! i = Some g -> child_held s i g -> sentinel g <> birth p) ->
      kstep s (set_table s (delete pid (table s)) (births s)).

Definition step (s s' : State) : Prop := pstep s s' \/ kstep s s'.

(** ** The process table *)

Record table_ok (t : gmap Z Process) (b : nat) : Prop := {
  to_born pid p : t !! pid = Some p -> (birth p < b /\ group_birth p < b)%nat;
  to_group q r p p' : t !! q = Some p -> t !! r = Some p' -> pgrp p = pgrp p' -> group_birth p = group_birth p';
}.

(** No process joins a group from outside, and the dead stay so. *)
Definition evolves (t : gmap Z Process) (b : nat) (t' : gmap Z Process) : Prop :=
  forall pid p', t' !! pid = Some p' -> (group_birth p' < b)%nat ->
    exists q p, t !! q = Some p /\ group_birth p = group_birth p' /\ pgrp p = pgrp p' /\ (zombie p' = false -> zombie p = false).
Definition same_process (p p' : Process) : Prop :=
  birth p' = birth p /\ pgrp p' = pgrp p /\ group_birth p' = group_birth p.

Lemma evolves_refl t b : evolves t b t.
Proof. intros pid p ? _. eauto 10. Qed.

Lemma insert_fresh t b pid p : evolves t b (<[pid := p]> t) <->
  ((group_birth p < b)%nat -> exists q p0, t !! q = Some p0 /\ group_birth p0 = group_birth p /\ pgrp p0 = pgrp p /\
    (zombie p = false -> zombie p0 = false)).
Proof.
  split.
  - intros Hev Hb. apply (Hev pid p); [apply lookup_insert_eq|done].
  - intros Hp q p'. rewrite lookup_insert_Some. intros [[<- <-]|[_ ?]]; [done|]. intros _. eauto 10.
Qed.

(** A process that is alone in a new group enters, or leads it. *)
Lemma table_lead t b pid x z : table_ok t b -> (x <= b)%nat -> (forall q p, t !! q = Some p -> pgrp p <> pid) ->
  let t' := <[pid := mkProcess x pid b z]> t in table_ok t' (S b) /\ evolves t b t'.
Proof.
  intros [Hb Hg] Hx Hfree t'. split; [split|].
  - intros q p. subst t'. rewrite lookup_insert_Some. intros [[<- <-]|[_ Hq]]; cbn; [lia|]. apply Hb in Hq. lia.
  - intros q r p p'. subst t'. rewrite !lookup_insert_Some. intros [[<- <-]|[_ Hq]] [[<- <-]|[_ Hr]]; cbn; try done; eauto.
    + intros Heq. by destruct (Hfree r p').
    + intros Heq. by destruct (Hfree q p).
  - apply insert_fresh. cbn. lia.
Qed.

Lemma table_exits t b pid p : table_ok t b -> t !! pid = Some p ->
  table_ok (<[pid := exits p]> t) b /\ evolves t b (<[pid := exits p]> t).
Proof.
  intros [Hb Hg] Hp. split; [split|].
  - intros q r. rewrite lookup_insert_Some. intros [[<- <-]|[_ Hq]]; cbn; eauto.
  - intros q r p1 p2. rewrite !lookup_insert_Some. intros [[<- <-]|[_ Hq]] [[<- <-]|[_ Hr]]; cbn; eauto.
  - apply insert_fresh. intros _. exists pid, p. by cbn.
Qed.

Lemma table_delete t b pid : table_ok t b -> table_ok (delete pid t) b /\ evolves t b (delete pid t).
Proof.
  intros [Hb Hg]. split; [split|].
  - intros q p [_ ?]%lookup_delete_Some. eauto.
  - intros q r p p' [_ ?]%lookup_delete_Some [_ ?]%lookup_delete_Some. eauto.
  - intros q p' [_ ?]%lookup_delete_Some _. eauto 10.
Qed.

Lemma killpg_lookup t g sig pid p : killpg t g sig !! pid = Some p ->
  exists p0, t !! pid = Some p0 /\ same_process p0 p /\ (zombie p = false -> zombie p0 = false) /\
    (sig = SIGKILL -> pgrp p = g -> zombie p = true).
Proof.
  destruct sig; cbn; [intros ?; exists p; by split_and!|].
  rewrite lookup_fmap. destruct (t !! pid) as [p0|] eqn:Hp; [|done]. cbn. intros [= <-]. exists p0. unfold in_group.
  destruct (Z.eqb_spec (pgrp p0) g); by split_and!.
Qed.

Lemma killpg_keeps t g sig pid p : t !! pid = Some p -> exists p', killpg t g sig !! pid = Some p' /\ same_process p p'.
Proof.
  destruct sig; cbn; [intros ?; exists p; by split|]. intros Hp. rewrite lookup_fmap, Hp. cbn. eexists. split; [done|].
  by destruct (in_group g p).
Qed.

Lemma table_killpg t b g sig : table_ok t b -> table_ok (killpg t g sig) b /\ evolves t b (killpg t g sig).
Proof.
  intros [Hb Hg]. split; [split|].
  - intros pid p (p0 & Hp & (-> & _ & ->) & _)%killpg_lookup. eauto.
  - intros q r p p' (p0 & Hp & (_ & Hpg & ->) & _)%killpg_lookup (p0' & Hp' & (_ & Hpg' & ->) & _)%killpg_lookup Heq.
    apply (Hg q r); congruence.
  - intros pid p (p0 & Hp & (_ & Hpg & Hgb) & Hz & _)%killpg_lookup _. exists pid, p0. by split_and!.
Qed.

(** ** Invariant *)

(** Every member of a group, by its birth, is dead. *)
Definition dead (t : gmap Z Process) (b : nat) : Prop := forall pid p, t !! pid = Some p -> group_birth p = b -> zombie p = true.

Lemma dead_evolves t b t' x : evolves t b t' -> (x < b)%nat -> dead t x -> dead t' x.
Proof.
  intros Hev Hx Hd pid p Hp Heq. destruct (Hev pid p Hp) as (q & p0 & Hq & Hb & _ & Hz); [lia|].
  destruct (zombie p); [done|]. assert (zombie p0 = true) by (apply (Hd q); congruence). specialize (Hz eq_refl). congruence.
Qed.

(** Where a drain stands: which groups of the generation are dead, and which are let go. *)
Definition stage_ok (s : State) (gen : list nat) (p : Stage) : Prop :=
  let unheld i := forall g, groups s !! i = Some g -> pin g <> Held in
  let all_dead := forall i g, i ∈ gen -> groups s !! i = Some g -> dead (table s) (sentinel g) in
  match p with
  | Killing _ rest signals => forall i, i ∈ gen -> i ∈ rest \/ i ∈ signals.*1 \/ unheld i
  | ReapNext rest => all_dead /\ (forall i, i ∈ gen -> i ∈ rest \/ unheld i) /\ forall i, i ∈ rest -> i ∈ gen
  | WaitChild i rest =>
      all_dead /\ (forall j, j ∈ gen -> j ∈ rest \/ unheld j) /\ (forall j, j ∈ i :: rest -> j ∈ gen) /\
      exists g, groups s !! i = Some g /\ pin g = Reaping
  | AwaitGone _ | Removing => all_dead /\ forall i, i ∈ gen -> unheld i
  | Dropping _ => True
  end.

Definition dropping (p : Stage) : bool := match p with Dropping _ => true | _ => false end.

Record fence_inv (s : State) : Prop := {
  fi_table : table_ok (table s) (births s);
  fi_born i g : groups s !! i = Some g -> (sentinel g < births s)%nat;
  fi_unique i j g h : groups s !! i = Some g -> groups s !! j = Some h -> sentinel g = sentinel h -> i = j;
  fi_held i g : groups s !! i = Some g -> child_held s i g ->
    exists p, table s !! pgid g = Some p /\ birth p = sentinel g /\ pgrp p = pgid g /\ group_birth p = sentinel g;
  fi_id i g pid p : groups s !! i = Some g -> table s !! pid = Some p -> group_birth p = sentinel g -> pgrp p = pgid g;
  fi_log i b : (i, b) ∈ signalled s -> exists g, groups s !! i = Some g /\ b = sentinel g;
  fi_dead i g : closing s = false -> groups s !! i = Some g -> pin g <> Held -> dead (table s) (sentinel g);
  fi_past i g : closing s = false -> groups s !! i = Some g -> i ∉ generation_or_create s -> pin g <> Held;
  fi_stage d : closing s = false -> lock s = Some d -> stage_ok s (generation_or_create s) (stage d);
  fi_drop d : lock s = Some d -> closing s = dropping (stage d) /\ (closing s = true -> gone s = false);
  fi_gone : gone s = true -> closing s = true;
}.

Lemma fence_inv_start running t b : table_ok t b -> fence_inv (groups_new running t b).
Proof. intros Ht. split; cbn; try done; by intros i b' ?%not_elem_of_nil. Qed.

(** The kernel moves, no child the program holds being touched. *)
Lemma fence_inv_kernel s t b : table_ok t b -> (births s <= b)%nat -> evolves (table s) (births s) t ->
  (forall i g p, groups s !! i = Some g -> child_held s i g -> table s !! pgid g = Some p -> birth p = sentinel g ->
    pgrp p = pgid g -> exists p', t !! pgid g = Some p' /\ same_process p p') ->
  fence_inv s -> fence_inv (set_table s t b).
Proof.
  intros Ht Hb Hev Hk []. 
  assert (Hdead : forall i g, groups s !! i = Some g -> dead (table s) (sentinel g) -> dead t (sentinel g)).
  { intros i g Hg. eapply dead_evolves; [done|eauto]. }
  split; cbn; try done.
  - intros i g Hg. apply fi_born0 in Hg. lia.
  - intros i g Hg Hh. destruct (fi_held0 i g Hg Hh) as (p & Hp & Hbi & Hgr & Hgb).
    destruct (Hk i g p Hg Hh Hp Hbi Hgr) as (p' & Hp' & Hbi' & Hgr' & Hgb'). exists p'. split_and!; congruence.
  - intros i g pid p Hg Hp Hgb. pose proof (fi_born0 i g Hg). destruct (Hev pid p Hp) as (q & p0 & Hq & Hb0 & Hpg & _); [lia|].
    rewrite <- Hpg. apply (fi_id0 i g q); congruence.
  - eauto.
  - intros d Hc Hd. specialize (fi_stage0 d Hc Hd). change (generation_or_create (set_table s t b)) with (generation_or_create s).
    destruct (stage d); cbn in *; [done| | | | |done]; destruct fi_stage0 as [Had ?]; (split; [|done]); eauto.
Qed.

Lemma fence_inv_kstep s s' : kstep s s' -> fence_inv s -> fence_inv s'.
Proof.
  intros Hstep Hinv. pose proof (fi_table s Hinv) as Ht. destruct Hstep.
  - assert (Hok : table_ok (<[new := mkProcess (births s) (pgrp p) (group_birth p) false]> (table s)) (S (births s)) /\
      evolves (table s) (births s) (<[new := mkProcess (births s) (pgrp p) (group_birth p) false]> (table s))).
    { destruct Ht as [Hb Hg]. split; [split|].
      - intros q r. rewrite lookup_insert_Some. intros [[<- <-]|[_ Hq]]; cbn; [apply Hb in H; lia|apply Hb in Hq; lia].
      - intros q r p1 p2. rewrite !lookup_insert_Some. intros [[<- <-]|[_ Hq]] [[<- <-]|[_ Hr]]; cbn; eauto.
      - apply insert_fresh. intros _. exists pid, p. by cbn. }
    destruct Hok as [Hok Hev]. apply fence_inv_kernel; try done; [lia|]. intros i g q _ _ Hq _ _. exists q. split; [|done].
    destruct H1 as [Hnone _]. rewrite lookup_insert_ne; [done|]. intros Heq. congruence.
  - destruct (table_lead (table s) (births s) pid (birth p) false Ht) as [Hok Hev]; [apply Ht in H; lia|done|].
    apply fence_inv_kernel; try done; [lia|]. intros i g q _ _ Hq _ Hgr. exists q. split; [|done].
    rewrite lookup_insert_ne; [done|]. intros ->. by apply (H1 _ _ Hq).
  - destruct H as [Hnone Hfree]. destruct (table_lead (table s) (births s) new (births s) false Ht) as [Hok Hev]; [lia|done|].
    apply fence_inv_kernel; try done; [lia|]. intros i g q _ _ Hq _ Hgr. exists q. split; [|done].
    rewrite lookup_insert_ne; [done|]. intros Heq. congruence.
  - destruct (table_exits (table s) (births s) pid p Ht H) as [Hok Hev]. apply fence_inv_kernel; try done.
    intros i g q _ _ Hq _ _. destruct (decide (pid = pgid g)) as [Heq|].
    + exists (exits p). rewrite Heq in *. rewrite lookup_insert_eq. split; [done|]. by assert (q = p) as -> by congruence.
    + exists q. by rewrite lookup_insert_ne.
  - destruct (table_delete (table s) (births s) pid Ht) as [Hok Hev]. apply fence_inv_kernel; try done.
    intros i g q Hg Hh Hq Hb _. exists q. split; [|done]. rewrite lookup_delete_ne; [done|]. intros ->.
    apply (H1 i g Hg Hh). congruence.
Qed.

Lemma members_elem t g p : p ∈ members t g <-> pgrp p = g /\ exists pid, t !! pid = Some p.
Proof.
  unfold members, in_group. rewrite list_elem_of_filter, Z.eqb_eq. f_equiv. split.
  - intros ([pid q] & -> & Hin)%list_elem_of_fmap. apply elem_of_map_to_list in Hin. by exists pid.
  - intros [pid Hp]. apply list_elem_of_fmap. exists (pid, p). split; [done|]. by apply elem_of_map_to_list.
Qed.

(** A signal reaches only the members of the group it was meant for. *)
Lemma signal_members s i g p : fence_inv s -> groups s !! i = Some g -> pin g = Held -> gone s = false ->
  p ∈ members (table s) (pgid g) -> group_birth p = sentinel g.
Proof.
  intros Hinv Hg Hp Hgone [Hpg [pid Hpid]]%members_elem. destruct (fi_held s Hinv i g Hg) as (q & Hq & _ & Hqg & Hqb).
  { unfold child_held. by rewrite Hp. }
  rewrite <- Hqb. apply (to_group _ _ (fi_table s Hinv) pid (pgid g)); congruence.
Qed.

Lemma fence_inv_signal s i sig ok : gone s = false -> fence_inv s -> fence_inv (fst (signal s i sig ok)).
Proof.
  intros Hgone Hinv. unfold signal. destruct (groups s !! i) as [g|] eqn:Hg; [|done]. destruct (pin g) eqn:Hp; [|done..].
  destruct ok; [|done]. cbn [fst]. destruct (table_killpg (table s) (births s) (pgid g) sig (fi_table s Hinv)) as [Hok Hev].
  assert (Hk : fence_inv (set_table s (killpg (table s) (pgid g) sig) (births s))).
  { apply fence_inv_kernel; try done. intros j h q _ _ Hq _ _. by apply killpg_keeps. }
  destruct Hk. split; try done. intros j b [Hin|Hin]%elem_of_app; [by apply fi_log0|].
  apply list_elem_of_fmap in Hin as (p & [= -> ->] & Hin). exists g. split; [done|]. by apply (signal_members s i).
Qed.

Lemma signal_fields s i sig ok : let s' := fst (signal s i sig ok) in
  groups s' = groups s /\ generation s' = generation s /\ lock s' = lock s /\ closing s' = closing s /\ gone s' = gone s /\
  accepting_work s' = accepting_work s /\ (snd (signal s i sig ok) = None -> forall g, groups s !! i = Some g -> pin g <> Held) /\
  (forall b, snd (signal s i sig ok) = Some b -> b = ok).
Proof.
  unfold signal. destruct (groups s !! i) as [g|] eqn:Hg; [|done]. destruct (pin g) eqn:Hp; cycle 1.
  - split_and!; try done. intros _ h [= <-]. by rewrite Hp.
  - split_and!; try done. intros _ h [= <-]. by rewrite Hp.
  - destruct ok; split_and!; try done; by intros b [= <-].
Qed.

Lemma fence_inv_lock s l : fence_inv s ->
  (forall i g d rest, groups s !! i = Some g -> pin g = Reaping -> l = Some d -> stage d = WaitChild i rest ->
    exists d0 rest0, lock s = Some d0 /\ stage d0 = WaitChild i rest0) ->
  (forall d, closing s = false -> l = Some d -> stage_ok s (generation_or_create s) (stage d)) ->
  (forall d, l = Some d -> closing s = dropping (stage d) /\ (closing s = true -> gone s = false)) -> fence_inv (set_lock s l).
Proof.
  intros [] Hw Hs Hd. split; cbn; try done.
  - intros i g Hg [Hgone Hh]. apply (fi_held0 i g Hg). split; [done|]. destruct (pin g) eqn:Hp; [done| |done].
    destruct Hh as (d & rest & Hl & Hst). by eapply Hw.
Qed.

Lemma fence_inv_pin s i p l : fence_inv s ->
  (p = Held \/ p = Reaping -> gone s = false -> forall g, groups s !! i = Some g -> child_held s i g) ->
  (forall j g, j <> i -> groups s !! j = Some g -> pin g = Reaping ->
    (exists d rest, l = Some d /\ stage d = WaitChild j rest) -> child_held s j g) ->
  (p <> Held -> closing s = false -> forall g, groups s !! i = Some g -> dead (table s) (sentinel g)) ->
  (p = Held -> closing s = false -> i ∈ generation_or_create s) ->
  (forall d, closing s = false -> l = Some d -> stage_ok (set_pin s i p) (generation_or_create s) (stage d)) ->
  (forall d, l = Some d -> closing s = dropping (stage d) /\ (closing s = true -> gone s = false)) ->
  fence_inv (set_lock (set_pin s i p) l).
Proof.
  intros [] Hi Hother Hdead Hgen Hs Hd.
  assert (Hlook : forall j g, groups (set_pin s i p) !! j = Some g -> exists g0, groups s !! j = Some g0 /\ pgid g = pgid g0 /\
    sentinel g = sentinel g0 /\ pin g = if decide (j = i) then p else pin g0).
  { intros j g. cbn. rewrite lookup_alter_Some. intros [[-> (g0 & Hg0 & ->)]|[Hne Hg]].
    - exists g0. by rewrite decide_True.
    - exists g. by rewrite decide_False. }
  split; cbn [set_lock table births closing gone lock signalled].
  - done.
  - intros j g (g0 & Hg & _ & -> & _)%Hlook. eauto.
  - intros j k g h (g0 & Hg & _ & -> & _)%Hlook (h0 & Hh & _ & -> & _)%Hlook. eauto.
  - intros j g (g0 & Hg & -> & -> & Hp)%Hlook [Hgone Hh]. apply (fi_held0 j g0 Hg). rewrite Hp in Hh.
    destruct (decide (j = i)) as [->|Hne].
    + apply Hi; [destruct p; [by left|by right|done]|done|done].
    + destruct (pin g0) eqn:Hp0; [unfold child_held; by rewrite Hp0| |done]. by apply Hother.
  - intros j g pid q (g0 & Hg & -> & -> & _)%Hlook. eauto.
  - intros j b Hin. destruct (fi_log0 j b Hin) as (g & Hg & ->). cbn. destruct (decide (j = i)) as [->|Hne].
    + eexists. rewrite lookup_alter_eq, Hg. done.
    + exists g. by rewrite lookup_alter_ne.
  - intros j g Hc (g0 & Hg & _ & -> & Hp)%Hlook. rewrite Hp. destruct (decide (j = i)) as [->|Hne]; eauto.
  - intros j g Hc (g0 & Hg & _ & _ & Hp)%Hlook. rewrite Hp. change (generation_or_create _) with (generation_or_create s).
    destruct (decide (j = i)) as [->|Hne]; [|eauto]. intros Hn ->. auto.
  - intros d Hc Hl. specialize (Hs d Hc Hl). by destruct (stage d).
  - done.
  - done.
Qed.

Lemma pgids_elem s l g : g ∈ pgids_of s l <-> exists i h, i ∈ l /\ groups s !! i = Some h /\ pgid h = g.
Proof.
  unfold pgids_of. rewrite list_elem_of_omap. split.
  - intros (i & Hi & Hg). destruct (groups s !! i) as [h|] eqn:Hh; [|done]. injection Hg as <-. eauto.
  - intros (i & h & Hi & Hh & <-). exists i. by rewrite Hh.
Qed.

Lemma live_spec t g : group_is_live t g = true <-> exists pid p, t !! pid = Some p /\ pgrp p = g /\ zombie p = false.
Proof.
  unfold group_is_live, in_group. rewrite existsb_exists. split.
  - intros (p & Hin & Hp). apply andb_true_iff in Hp as [Hg Hz]. apply Z.eqb_eq in Hg. apply negb_true_iff in Hz.
    apply list_elem_of_In, list_elem_of_fmap in Hin as ([pid q] & -> & Hin). apply elem_of_map_to_list in Hin. eauto.
  - intros (pid & p & Hpid & <- & Hz). exists p. split; [|by rewrite Z.eqb_refl, Hz].
    apply list_elem_of_In, list_elem_of_fmap. exists (pid, p). split; [done|]. by apply elem_of_map_to_list.
Qed.

Lemma live_groups_elem t gs g : g ∈ live_groups t gs <-> g ∈ gs /\ group_is_live t g = true.
Proof. unfold live_groups. rewrite list_elem_of_filter. tauto. Qed.

(** What a group that is seen dead, or rejected alive, is. *)
Lemma live_at_spec s (l : list nat) i :
  existsb (fun g => bool_decide (g ∈ live_groups (table s) (pgids_of s l))) (pgids_of s [i]) = false -> i ∈ l ->
  forall g, groups s !! i = Some g -> group_is_live (table s) (pgid g) = false.
Proof.
  intros Hl Hi g Hg. apply not_true_iff_false. intros Hlive. apply not_true_iff_false in Hl. apply Hl, existsb_exists.
  exists (pgid g). split; [apply list_elem_of_In, pgids_elem; exists i, g; split_and!; [by left|done|done]|].
  apply bool_decide_eq_true, live_groups_elem. split; [|done]. apply pgids_elem. eauto.
Qed.

Lemma unseen_dead s i g : fence_inv s -> groups s !! i = Some g -> group_is_live (table s) (pgid g) = false ->
  dead (table s) (sentinel g).
Proof.
  intros Hinv Hg Hl pid p Hp Hb. destruct (zombie p) eqn:Hz; [done|]. apply not_true_iff_false in Hl. destruct Hl.
  apply live_spec. exists pid, p. split_and!; [done|by apply (fi_id s Hinv i g pid)|done].
Qed.

Lemma fence_inv_unlock s : fence_inv s -> fence_inv (set_lock s None).
Proof. intros Hinv. by apply fence_inv_lock. Qed.

Lemma closing_gone s : fence_inv s -> closing s = false -> gone s = false.
Proof. intros Hinv Hc. destruct (gone s) eqn:Hg; [|done]. apply (fi_gone s Hinv) in Hg. congruence. Qed.

Lemma fence_inv_begin s st sv : lock s = None -> closing s = false -> fence_inv s -> fence_inv (drain_begin s st sv).
Proof.
  intros Hl Hc Hinv. unfold drain_begin. destruct sv as [sv|]; [|done]. apply fence_inv_lock; [done|..].
  - intros i g d rest _ _ [= <-]. cbn. by destruct (generation s).
  - intros d _ [= <-]. unfold generation_or_create. cbn. destruct (generation s) as [gen|] eqn:Hg; cbn.
    + intros i Hi. by left.
    + split; [by intros i g ?%not_elem_of_nil|by intros i ?%not_elem_of_nil].
  - intros d [= <-]. rewrite Hc. cbn. by destruct (generation s).
Qed.

Lemma fence_inv_observe s d was sigs : lock s = Some d -> stage d = Killing was [] sigs -> closing s = false -> fence_inv s ->
  fence_inv (observe s d was sigs).
Proof.
  intros Hl Hst Hc Hinv. unfold observe. destruct (existsb _ sigs); [by apply fence_inv_unlock|].
  destruct (negb _ && was) eqn:Hseen; (apply fence_inv_lock; [done|by intros i g d' rest _ _ [= <-]|..|intros d' [= <-]; by rewrite Hc]).
  - intros d' _ [= <-]. cbn. pose proof (fi_stage s Hinv d Hc Hl) as Hok. rewrite Hst in Hok. cbn in Hok.
    apply andb_true_iff in Hseen as [Hseen _]. apply negb_true_iff in Hseen.
    split; [|split; [by left|done]]. intros i g Hi Hg. destruct (Hok i Hi) as [?%not_elem_of_nil|[Hin|Hun]]; [done| |].
    + eapply unseen_dead; [done..|]. eapply live_at_spec; [|done|done].
      apply list_elem_of_fmap in Hin as ([j ok] & Hj & Hin). cbn in Hj. subst j.
      apply not_true_iff_false. intros He. apply not_true_iff_false in Hseen. apply Hseen, existsb_exists.
      exists (i, ok). split; [by apply list_elem_of_In|done].
    + apply (fi_dead s Hinv i g Hc Hg). auto.
  - intros d' _ [= <-]. cbn. by left.
Qed.

Lemma fence_inv_kill_next s d was i rest sigs ok : lock s = Some d -> stage d = Killing was (i :: rest) sigs -> closing s = false ->
  fence_inv s -> fence_inv (kill_next s d was i rest sigs ok).
Proof.
  intros Hl Hst Hc Hinv. pose proof (closing_gone s Hinv Hc) as Hgone.
  pose proof (fence_inv_signal s i SIGKILL ok Hgone Hinv) as Hinv'.
  pose proof (signal_fields s i SIGKILL ok) as (Hg & Hgen & Hlk & Hcl & _ & _ & Hnone & _).
  pose proof (fi_stage s Hinv d Hc Hl) as Hok. rewrite Hst in Hok. cbn in Hok.
  unfold kill_next. destruct (signal s i SIGKILL ok) as [s' o]. cbn in *.
  destruct o as [b|]; (apply fence_inv_lock; [done|by intros j g d' rest' _ _ [= <-]|..|intros d' [= <-]; cbn; by rewrite ?Hcl, Hc]);
    intros d' _ [= <-]; cbn; unfold generation_or_create; rewrite Hgen, Hg; intros j Hj;
    destruct (Hok j Hj) as [[->|?]%elem_of_cons|[?|?]]; auto.
  - right. left. rewrite fmap_app. set_solver.
  - right. left. rewrite fmap_app. set_solver.
Qed.

Lemma fence_inv_take s d i rest : lock s = Some d -> stage d = ReapNext (i :: rest) -> closing s = false ->
  fence_inv s -> fence_inv (reap_next s d i rest).
Proof.
  intros Hl Hst Hc Hinv. pose proof (fi_stage s Hinv d Hc Hl) as Hok. rewrite Hst in Hok. destruct Hok as (Hd & Hok & Hin).
  unfold reap_next, is_pinned. destruct (groups s !! i) as [g|] eqn:Hg; [destruct (pin g) eqn:Hp|].
  2,3,4: apply fence_inv_lock; [done|by intros j h d' rest' _ _ [= <-]|..|intros d' [= <-]; cbn; by rewrite ?Hcl, Hc];
    intros d' _ [= <-]; cbn; (split; [done|split]); [|intros j Hj; apply Hin; by right];
    intros j Hj; destruct (Hok j Hj) as [[->|?]%elem_of_cons|?]; auto; right; congruence.
  unfold set_stage. apply fence_inv_pin; try done.
  - intros _ Hgone h Hh. split; [done|]. assert (h = g) as -> by congruence. by rewrite Hp.
  - intros j h Hne _ _ (d' & rest' & [= <-] & Hw). cbn in Hw. congruence.
  - intros _ _ h Hh. apply (Hd i); [apply Hin; by left|done].
  - intros d' _ [= <-]. cbn. split_and!.
    + intros j h Hj. rewrite lookup_alter_Some. intros [[-> (h0 & Hh & ->)]|[_ Hh]]; cbn; eauto.
    + intros j Hj. destruct (decide (j = i)) as [->|Hne].
      * right. intros h. rewrite lookup_alter_eq, Hg. cbn. by intros [= <-].
      * destruct (Hok j Hj) as [[->|?]%elem_of_cons|?]; [done|by left|right]. intros h. rewrite lookup_alter_ne by done. auto.
    + done.
    + eexists. rewrite lookup_alter_eq, Hg. by cbn.
  - intros d' [= <-]. by rewrite Hc.
Qed.

Lemma fence_inv_reaped s d i rest g p : lock s = Some d -> stage d = WaitChild i rest -> closing s = false ->
  groups s !! i = Some g -> table s !! pgid g = Some p -> fence_inv s -> fence_inv (reap_done s d i rest).
Proof.
  intros Hl Hst Hc Hg Hp Hinv. pose proof (fi_stage s Hinv d Hc Hl) as Hok. rewrite Hst in Hok. destruct Hok as (Hd & Hok & Hin & g' & Hg' & Hpin).
  assert (g' = g) as -> by congruence. unfold reap_done. rewrite Hg.
  assert (Hheld : child_held s i g) by (split; [by apply closing_gone|rewrite Hpin; eauto]).
  destruct (fi_held s Hinv i g Hg Hheld) as (q & Hq & Hqb & _ & _). assert (q = p) as -> by congruence.
  set (t := delete (pgid g) (table s)). destruct (table_delete (table s) (births s) (pgid g) (fi_table s Hinv)) as [Ht Hev]. fold t in Ht, Hev.
  set (s1 := set_stage (set_pin s i Reaped) d (ReapNext rest)).
  assert (Hinv1 : fence_inv s1).
  { apply fence_inv_pin; try done; [by intros [|]|..].
    - intros j h Hne Hh Hpj (d' & rest' & [= <-] & Hw). done.
    - intros _ _ h Hh. apply (Hd i); [apply Hin; by left|done].
    - intros d' _ [= <-]. cbn. split_and!.
      + intros j h Hj. rewrite lookup_alter_Some. intros [[-> (h0 & Hh & ->)]|[_ Hh]]; cbn; eauto.
      + intros j Hj. destruct (Hok j Hj) as [?|Hun]; [by left|right]. intros h. rewrite lookup_alter_Some.
        intros [[-> (h0 & Hh & ->)]|[_ Hh]]; [done|auto].
      + intros j Hj. apply Hin. by right.
    - intros d' [= <-]. by rewrite Hc. }
  change (fence_inv (set_table s1 t (births s1))). apply fence_inv_kernel; try done.
  intros j h q Hh Hch Hqh Hqbh _. exists q. split; [|done]. change (table s1) with (table s) in Hqh. subst t.
  rewrite lookup_delete_ne; [done|]. intros Heq. change (groups s1) with (alter (fun g => mkGroup (pgid g) (sentinel g) Reaped) i (groups s)) in Hh.
  rewrite lookup_alter_Some in Hh. destruct Hh as [[-> (h0 & Hh & ->)]|[Hne Hh]]; [by destruct Hch|].
  apply Hne, (fi_unique s Hinv i j g h Hg Hh). congruence.
Qed.

Lemma fence_inv_restore s d i rest : lock s = Some d -> stage d = WaitChild i rest -> closing s = false -> fence_inv s ->
  fence_inv (restore s i).
Proof.
  intros Hl Hst Hc Hinv. pose proof (fi_stage s Hinv d Hc Hl) as Hok. rewrite Hst in Hok. destruct Hok as (_ & _ & Hin & g' & Hg' & Hpin).
  apply fence_inv_pin; try done.
  - intros _ Hgone g Hg. assert (g' = g) as -> by congruence. split; [done|]. rewrite Hpin. eauto.
  - intros j h _ _ _ (d' & rest' & ? & _). done.
  - intros _ _. apply Hin. by left.
Qed.

Lemma fence_inv_await s d : lock s = Some d -> stage d = ReapNext [] -> closing s = false -> fence_inv s -> fence_inv (await_start s d).
Proof.
  intros Hl Hst Hc Hinv. pose proof (fi_stage s Hinv d Hc Hl) as Hok. rewrite Hst in Hok. destruct Hok as (Hd & Hok & _).
  apply fence_inv_lock; [done|by intros i g d' rest _ _ [= <-]| |intros d' [= <-]; by rewrite Hc].
  intros d' _ [= <-]. cbn. split; [done|]. intros i Hi. by destruct (Hok i Hi) as [?%not_elem_of_nil|?].
Qed.

Lemma fence_inv_await_next s d pgids : lock s = Some d -> stage d = AwaitGone pgids -> closing s = false -> fence_inv s ->
  fence_inv (await_next s d pgids).
Proof.
  intros Hl Hst Hc Hinv. pose proof (fi_stage s Hinv d Hc Hl) as Hok. rewrite Hst in Hok.
  unfold await_next. destruct (live_groups _ _); (apply fence_inv_lock; [done|by intros i g d' rest _ _ [= <-]| |intros d' [= <-]; by rewrite Hc]);
    by intros d' _ [= <-].
Qed.

Lemma fence_inv_done s d : lock s = Some d -> stage d = Removing -> closing s = false -> fence_inv s -> fence_inv (drain_done s d).
Proof.
  intros Hl Hst Hc Hinv. pose proof (fi_stage s Hinv d Hc Hl) as Hok. rewrite Hst in Hok. destruct Hok as (Hd & Hok).
  assert (Hun := fence_inv_unlock s Hinv). destruct Hun. split; try done; cbn.
  intros i g _ Hg _. destruct (decide (i ∈ generation_or_create s)) as [Hi|Hi]; [by apply (Hok i Hi)|by apply (fi_past0 i g)].
Qed.

Lemma fence_inv_closing s c g : fence_inv s -> lock s = None -> c = true -> (g = true \/ gone s = g) -> fence_inv (set_closing s c g).
Proof.
  intros Hinv Hl -> Hg. pose proof (fence_inv_unlock s Hinv) as []. split; try done; cbn.
  - intros i h Hh [Hgone Hch]. cbn in *. apply (fi_held0 i h Hh). destruct Hg as [->|Hg]; [done|]. split; [cbn; congruence|].
    destruct (pin h); [done| |done]. by rewrite Hl in Hch.
  - congruence.
Qed.

Lemma fence_inv_drop s cleanup : lock s = None -> closing s = false -> fence_inv s -> fence_inv (drop_begin s cleanup).
Proof.
  intros Hl Hc Hinv. pose proof (closing_gone s Hinv Hc) as Hgone. unfold drop_begin.
  destruct (generation s) as [gen|]; [destruct cleanup|]; try (apply fence_inv_closing; by auto).
  apply fence_inv_lock; [apply fence_inv_closing; by auto|by intros i g d rest _ _ [= <-]|by intros d ? [= <-]|by intros d [= <-]].
Qed.

Lemma fence_inv_drop_next s d i rest ok : lock s = Some d -> stage d = Dropping (i :: rest) -> fence_inv s ->
  fence_inv (drop_next s d i rest ok).
Proof.
  intros Hl Hst Hinv. destruct (fi_drop s Hinv d Hl) as [Hc Hgone]. rewrite Hst in Hc. cbn in Hc. specialize (Hgone Hc).
  pose proof (fence_inv_signal s i SIGKILL ok Hgone Hinv) as Hinv'.
  pose proof (signal_fields s i SIGKILL ok) as (_ & _ & _ & Hcl & Hgo & _).
  unfold drop_next. apply fence_inv_pin; try done; rewrite ?Hcl, ?Hgo, ?Hc, ?Hgone; try done.
  - by intros [|].
  - intros j h _ _ _ (d' & rest' & [= <-] & Hw). done.
  - by intros d' [= <-].
Qed.

Lemma fence_inv_spawn s i pid : lock s = None -> closing s = false -> groups s !! i = None ->
  (forall p, pid = Some p -> free_id (table s) p) -> fence_inv s -> fence_inv (spawn s i pid).
Proof.
  intros Hl Hc Hi Hfree Hinv. unfold spawn. destruct (negb _); [done|]. destruct pid as [pid|].
  2: { destruct Hinv. by split. }
  specialize (Hfree pid eq_refl). destruct (fi_table s Hinv) as [Hb Hg].
  destruct (table_lead (table s) (births s) pid (births s) false (fi_table s Hinv)) as [Ht Hev]; [lia|apply Hfree|].
  assert (Hk : fence_inv (set_table s (<[pid := mkProcess (births s) pid (births s) false]> (table s)) (S (births s)))).
  { apply fence_inv_kernel; try done; [lia|]. intros j h q _ _ Hq _ _. exists q. split; [|done]. destruct Hfree as [Hnone _].
    rewrite lookup_insert_ne; [done|]. intros Heq. congruence. }
  pose proof (fi_born s Hinv) as Hborn. destruct Hk. cbn in *.
  split; try done; cbn.
  - intros j g. rewrite lookup_insert_Some. intros [[<- <-]|[_ Hj]]; cbn; [lia|eauto].
  - intros j k g h. rewrite !lookup_insert_Some. intros [[<- <-]|[_ Hj]] [[<- <-]|[_ Hk]]; cbn; try done; [| |eauto].
    + intros Heq. apply Hborn in Hk. lia.
    + intros Heq. apply Hborn in Hj. lia.
  - intros j g. rewrite lookup_insert_Some. intros [[<- <-]|[_ Hj]]; cbn; [|by apply fi_held0].
    intros _. eexists. rewrite lookup_insert_eq. by split_and!.
  - intros j g q p. rewrite (lookup_insert_Some (groups s)). intros [[<- <-]|[_ Hj]]; cbn; [|by apply (fi_id0 j)].
    rewrite lookup_insert_Some. intros [[<- <-]|[_ Hq]]; [done|]. intros Heq. apply Hb in Hq. lia.
  - intros j b Hin. destruct (fi_log0 j b Hin) as (g & Hg' & ->). exists g. split; [|done].
    rewrite lookup_insert_ne; [done|]. intros ->. congruence.
  - intros j g _. rewrite lookup_insert_Some. intros [[<- <-]|[_ Hj]]; [by destruct 1|]. by apply (fi_dead0 j).
  - intros j g _. rewrite lookup_insert_Some. unfold generation_or_create. cbn. intros [[<- <-]|[_ Hj]]; [set_solver|].
    intros Hn. apply (fi_past0 j g); [done|done|]. unfold generation_or_create in *. cbn in *. set_solver.
  - by rewrite Hl.
Qed.

Lemma fence_inv_pstep s s' : pstep s s' -> fence_inv s -> fence_inv s'.
Proof.
  intros Hstep Hinv.
  assert (Hopen : forall d, lock s = Some d -> dropping (stage d) = false -> closing s = false).
  { intros d Hl Hd. destruct (fi_drop s Hinv d Hl) as [-> _]. done. }
  destruct Hstep.
  - by apply fence_inv_spawn.
  - apply fence_inv_signal; [by apply closing_gone|done].
  - apply fence_inv_begin; [done|done|]. destruct Hinv. by split.
  - unfold start. destruct (accepting_work s); [done|]. by apply fence_inv_begin.
  - eapply fence_inv_kill_next; [done..| |done]. apply (Hopen d); [done|by rewrite H0].
  - eapply fence_inv_observe; [done..| |done]. apply (Hopen d); [done|by rewrite H0].
  - eapply fence_inv_take; [done..| |done]. apply (Hopen d); [done|by rewrite H0].
  - eapply fence_inv_reaped; [done..| |done|done|done]. apply (Hopen d); [done|by rewrite H0].
  - eapply fence_inv_restore; [done..| |done]. apply (Hopen d); [done|by rewrite H0].
  - eapply fence_inv_await; [done..| |done]. apply (Hopen d); [done|by rewrite H0].
  - eapply fence_inv_await_next; [done..| |done]. apply (Hopen d); [done|by rewrite H0].
  - eapply fence_inv_done; [done..| |done]. apply (Hopen d); [done|by rewrite H0].
  - by apply fence_inv_unlock.
  - by apply fence_inv_drop.
  - by apply fence_inv_drop_next.
  - unfold drop_done. destruct (fi_drop s Hinv d H) as [Hc _]. rewrite H0 in Hc. cbn in Hc.
    apply (fence_inv_closing (set_lock s None)); auto. by apply fence_inv_unlock.
Qed.

Lemma fence_inv_reach running t b s : table_ok t b -> rtc step (groups_new running t b) s -> fence_inv s.
Proof.
  intros Ht Hs. pose proof (fence_inv_start running t b Ht) as Hinv. revert Hinv. induction Hs as [|s1 s2 s3 [Hs|Hs] _ IH]; [done|..].
  - intros Hinv. apply IH. by eapply fence_inv_pstep.
  - intros Hinv. apply IH. by eapply fence_inv_kstep.
Qed.

(** ** A drain that nothing hinders *)

Definition quiet (s : State) (gs : list Z) : Prop := forall g, g ∈ gs -> group_is_live (table s) g = false.

Definition identity (g : PinnedGroup) : Z * nat := (pgid g, sentinel g).
(** What the program's own steps of a drain leave alone. *)
Record drains (s s' : State) : Prop := {
  dr_births : births s' = births s;
  dr_generation : generation s' = generation s;
  dr_closing : closing s' = closing s;
  dr_accepting : accepting_work s' = accepting_work s;
  dr_ids i : identity <$> groups s' !! i = identity <$> groups s !! i;
  dr_quiet g : group_is_live (table s) g = false -> group_is_live (table s') g = false;
}.

#[export] Instance drains_refl : Reflexive drains.
Proof. by split. Qed.
#[export] Instance drains_trans : Transitive drains.
Proof.
  intros s1 s2 s3 [] []. split; try congruence. auto.
Qed.

Lemma dr_back s s' i g : drains s s' -> groups s' !! i = Some g -> exists g0, groups s !! i = Some g0 /\ pgid g = pgid g0.
Proof.
  intros Hd Hg. pose proof (dr_ids _ _ Hd i) as Hi. rewrite Hg in Hi. destruct (groups s !! i) as [g0|]; [|done].
  injection Hi as Hp _. by exists g0.
Qed.

Lemma live_mono t t' g : (forall pid p, t' !! pid = Some p -> pgrp p = g -> zombie p = false ->
    exists q p0, t !! q = Some p0 /\ pgrp p0 = g /\ zombie p0 = false) ->
  group_is_live t g = false -> group_is_live t' g = false.
Proof.
  intros Hm Hl. apply not_true_iff_false. intros (pid & p & Hp & Hg & Hz)%live_spec. apply not_true_iff_false in Hl. apply Hl.
  apply live_spec. eauto.
Qed.

Lemma killpg_quiet t g h : group_is_live t h = false -> group_is_live (killpg t g SIGKILL) h = false.
Proof.
  apply live_mono. intros pid p (p0 & Hp & (_ & Hg & _) & Hz & _)%killpg_lookup <- Hzp. exists pid, p0. split_and!; auto.
Qed.

Lemma killpg_kills t g : group_is_live (killpg t g SIGKILL) g = false.
Proof.
  apply not_true_iff_false. intros (pid & p & Hp & Hg & Hz)%live_spec.
  apply killpg_lookup in Hp as (p0 & _ & _ & _ & Hk). rewrite Hk in Hz; done.
Qed.

Lemma same_drains s l : drains s (set_lock s l).
Proof. by split. Qed.

Lemma kill_round rest : forall s d was sigs, lock s = Some d -> stage d = Killing was rest sigs ->
  exists s', rtc pstep s s' /\ drains s s' /\ groups s' = groups s /\
    (exists sigs', lock s' = Some (mkDrain (for_start d) (saved d) (Killing was [] (sigs ++ sigs'))) /\
       forall i ok, (i, ok) ∈ sigs' -> ok = true /\ i ∈ rest /\ is_pinned s i = true) /\
    forall i g, i ∈ rest -> groups s !! i = Some g -> pin g = Held -> group_is_live (table s') (pgid g) = false.
Proof.
  induction rest as [|i rest IH]; intros s d was sigs Hl Hst.
  { exists s. split_and!; [done|done|done| |by intros i g ?%not_elem_of_nil].
    exists []. rewrite app_nil_r. split; [destruct d; cbn in *; congruence|by intros i ok ?%not_elem_of_nil]. }
  assert (Hstep := step_kill s d was i rest sigs true Hl Hst). set (s1 := kill_next s d was i rest sigs true) in Hstep.
  assert (H1 : drains s s1 /\ groups s1 = groups s /\ exists o,
    lock s1 = Some (mkDrain (for_start d) (saved d) (Killing was rest (sigs ++ o))) /\
    (forall j ok, (j, ok) ∈ o -> ok = true /\ j = i /\ is_pinned s i = true) /\
    forall g, groups s !! i = Some g -> pin g = Held -> group_is_live (table s1) (pgid g) = false).
  { subst s1. unfold kill_next, signal, is_pinned. destruct (groups s !! i) as [g|] eqn:Hg; [destruct (pin g) eqn:Hp|].
    2,3,4: split_and!; [apply same_drains|done|]; exists []; rewrite app_nil_r; split_and!; [done|by intros ? ? ?%not_elem_of_nil|congruence].
    split_and!; [split; try done; apply killpg_quiet|done|].
    - exists [(i, true)]. split_and!; [done|by intros j ok [= -> ->]%list_elem_of_singleton|].
      intros h [= <-] _. apply killpg_kills. }
  destruct H1 as (Hd1 & Hg1 & o & Hl1 & Ho & Hq1). destruct (IH s1 _ was (sigs ++ o) Hl1 eq_refl) as (s' & Hs & Hd & Hg & (o' & Hl' & Ho') & Hq).
  exists s'. split_and!; [eapply rtc_l; done|by etrans|congruence| |].
  - exists (o ++ o'). rewrite app_assoc. split; [done|]. intros j ok [Hin|Hin]%elem_of_app.
    + destruct (Ho j ok Hin) as (? & -> & ?). split_and!; [done|by left|done].
    + destruct (Ho' j ok Hin) as (? & ? & Hp). split_and!; [done|by right|]. unfold is_pinned in *. by rewrite <- Hg1.
  - intros j g [->|Hj]%elem_of_cons Hgj Hp; [apply Hd; eauto|]. apply (Hq j g); [done|by rewrite Hg1|done].
Qed.

(** A round in which nothing was rejected, and nothing is alive. *)
Lemma observe_quiet s d was sigs : lock s = Some d -> (forall i ok g, (i, ok) ∈ sigs -> groups s !! i = Some g ->
    group_is_live (table s) (pgid g) = false) ->
  observe s d was sigs = set_stage s d (if was then ReapNext (generation_or_create s) else Killing true (generation_or_create s) []).
Proof.
  intros Hl Hq. unfold observe. set (live := live_groups _ _).
  assert (Hl0 : forall i ok, (i, ok) ∈ sigs -> existsb (fun g => bool_decide (g ∈ live)) (pgids_of s [i]) = false).
  { intros i ok Hin. apply not_true_iff_false. intros (g & Hg & Hlive)%existsb_exists.
    apply list_elem_of_In, pgids_elem in Hg as (j & h & ->%list_elem_of_singleton & Hh & <-).
    apply bool_decide_eq_true, live_groups_elem in Hlive as [_ Hlive]. rewrite (Hq i ok h Hin Hh) in Hlive. done. }
  assert (Ha : forall f, (forall b, f false b = false) ->
    existsb (fun x : nat * bool => f (existsb (fun g => bool_decide (g ∈ live)) (pgids_of s [fst x])) (snd x)) sigs = false).
  { intros f Hf. apply not_true_iff_false. intros ([i ok] & Hin & Hx)%existsb_exists. cbn [fst snd] in Hx.
    rewrite (Hl0 i ok), Hf in Hx; [done|by apply list_elem_of_In]. }
  rewrite (Ha (fun l ok => negb ok && l)) by (intros []; done). rewrite (Ha (fun l _ => l)) by done. by destruct was.
Qed.

Lemma reap_all rest : forall s d, fence_inv s -> lock s = Some d -> stage d = ReapNext rest -> closing s = false ->
  (forall i g, i ∈ rest -> groups s !! i = Some g -> group_is_live (table s) (pgid g) = false) ->
  exists s', rtc pstep s s' /\ drains s s' /\ lock s' = Some (mkDrain (for_start d) (saved d) (ReapNext [])).
Proof.
  induction rest as [|i rest IH]; intros s d Hinv Hl Hst Hc Hq.
  { exists s. split_and!; [done|done|]. destruct d; cbn in *; congruence. }
  assert (Hstep := step_take s d i rest Hl Hst). set (s1 := reap_next s d i rest) in Hstep.
  pose proof (fence_inv_pstep s s1 Hstep Hinv) as Hinv1.
  destruct (is_pinned s i) eqn:Hp.
  - unfold is_pinned in Hp. destruct (groups s !! i) as [g|] eqn:Hg; [|done]. destruct (pin g) eqn:Hpin; [clear Hp|done..].
    assert (Hs1 : s1 = set_stage (set_pin s i Reaping) d (WaitChild i rest)) by (unfold s1, reap_next, is_pinned; by rewrite Hg, Hpin).
    assert (Hg1 : groups s1 !! i = Some (mkGroup (pgid g) (sentinel g) Reaping)) by (rewrite Hs1; cbn; by rewrite lookup_alter_eq, Hg).
    destruct (fi_held s Hinv i g Hg) as (p & Htab & _ & Hpg & _); [split; [by apply closing_gone|by rewrite Hpin]|].
    assert (Hz : zombie p = true).
    { destruct (zombie p) eqn:Hz; [done|]. assert (Hlive : group_is_live (table s) (pgid g) = true) by (apply live_spec; eauto).
      rewrite (Hq i g) in Hlive; [done|by left|done]. }
    set (d1 := mkDrain (for_start d) (saved d) (WaitChild i rest)).
    assert (Hstep2 : pstep s1 (reap_done s1 d1 i rest)) by (eapply (step_reaped s1 d1 i rest _ p); rewrite ?Hg1, ?Hs1; done).
    set (s2 := reap_done s1 d1 i rest) in Hstep2.
    pose proof (fence_inv_pstep _ _ Hstep2 Hinv1) as Hinv2.
    assert (Hd2 : drains s s2).
    { subst s2. rewrite Hs1. unfold reap_done. cbn. rewrite lookup_alter_eq, Hg. cbn. split; try done.
      - intros j. cbn. destruct (decide (j = i)) as [->|Hne]; [by rewrite !lookup_alter_eq, Hg|by rewrite !lookup_alter_ne].
      - intros h. apply live_mono. cbn. intros pid q [_ ?]%lookup_delete_Some ? ?. eauto. }
    destruct (IH s2 (mkDrain (for_start d) (saved d) (ReapNext rest))) as (s' & Hs & Hd & Hl'); try done.
    + by rewrite (dr_closing _ _ Hd2).
    + intros j h Hj Hh. destruct (dr_back _ _ j h Hd2 Hh) as (h0 & Hh0 & ->). apply Hd2, (Hq j); [by right|done].
    + exists s'. split_and!; [eapply rtc_l; [done|]; by eapply rtc_l|by etrans|done].
  - assert (Hs1 : s1 = set_stage s d (ReapNext rest)) by (unfold s1, reap_next; by rewrite Hp).
    destruct (IH s1 (mkDrain (for_start d) (saved d) (ReapNext rest))) as (s' & Hs & Hd & Hl'); try done; try by rewrite Hs1.
    + intros j h Hj Hh. rewrite Hs1 in Hh |- *. apply (Hq j); [by right|done].
    + exists s'. split_and!; [by eapply rtc_l|etrans; [|done]; rewrite Hs1; apply same_drains|done].
Qed.

Definition unheld_quiet (s : State) : Prop :=
  forall i g, groups s !! i = Some g -> pin g <> Held -> group_is_live (table s) (pgid g) = false.

Lemma full_round s d was gen : lock s = Some d -> stage d = Killing was gen [] -> generation s = Some gen -> unheld_quiet s ->
  exists s', rtc pstep s s' /\ drains s s' /\ groups s' = groups s /\
    lock s' = Some (mkDrain (for_start d) (saved d) (if was then ReapNext gen else Killing true gen [])) /\
    forall i g, i ∈ gen -> groups s' !! i = Some g -> group_is_live (table s') (pgid g) = false.
Proof.
  intros Hl Hst Hgen Hun. destruct (kill_round gen s d was [] Hl Hst) as (s1 & Hs1 & Hd1 & Hg1 & (sg & Hl1 & Hsg) & Hq1).
  assert (Hquiet : forall i g, i ∈ gen -> groups s1 !! i = Some g -> group_is_live (table s1) (pgid g) = false).
  { intros i g Hi Hg. rewrite Hg1 in Hg. destruct (pin g) eqn:Hp; [by apply (Hq1 i)|apply Hd1, (Hun i g Hg); congruence..]. }
  pose proof (step_observe s1 _ _ _ Hl1 eq_refl) as Hs2. rewrite (observe_quiet s1 _ _ _ Hl1) in Hs2.
  2: { intros i ok g Hin Hg. apply (Hquiet i g); [|done]. by destruct (Hsg i ok Hin) as (_ & ? & _). }
  assert (Hgen1 : generation_or_create s1 = gen) by (unfold generation_or_create; by rewrite (dr_generation _ _ Hd1), Hgen).
  rewrite Hgen1 in Hs2. eexists. split_and!; [eapply rtc_r; [exact Hs1|exact Hs2]|etrans; [exact Hd1|apply same_drains]|done|done|done].
Qed.

Lemma fence_inv_psteps s s' : rtc pstep s s' -> fence_inv s -> fence_inv s'.
Proof. induction 1; eauto using fence_inv_pstep. Qed.

(** A drain of a generation, to the point where it only waits for ids. *)
Lemma drain_to_gone s d gen : fence_inv s -> lock s = Some d -> stage d = Killing false gen [] -> generation s = Some gen ->
  closing s = false -> unheld_quiet s ->
  exists s', rtc pstep s s' /\ drains s s' /\ quiet s' (pgids_of s' gen) /\
    lock s' = Some (mkDrain (for_start d) (saved d) (AwaitGone (saved d ++ pgids_of s' gen))).
Proof.
  intros Hinv Hl Hst Hgen Hc Hun. destruct (full_round s d false gen Hl Hst Hgen Hun) as (s1 & Hs1 & Hd1 & Hg1 & Hl1 & _).
  assert (Hun1 : unheld_quiet s1) by (intros i g Hg Hp; rewrite Hg1 in Hg; apply Hd1; eauto).
  destruct (full_round s1 _ true gen Hl1 eq_refl) as (s2 & Hs2 & Hd2 & Hg2 & Hl2 & Hq2); [by rewrite (dr_generation _ _ Hd1)|done|].
  cbn in Hl2. assert (Hd12 : drains s s2) by (by etrans).
  assert (Hinv2 : fence_inv s2) by (eapply fence_inv_psteps; [|exact Hinv]; by etrans).
  destruct (reap_all gen s2 _ Hinv2 Hl2 eq_refl) as (s3 & Hs3 & Hd3 & Hl3); [by rewrite (dr_closing _ _ Hd12)|done|].
  assert (Hd13 : drains s s3) by (by etrans).
  pose proof (step_await s3 _ Hl3 eq_refl) as Hs4. unfold await_start, generation_or_create in Hs4.
  rewrite (dr_generation _ _ Hd13), Hgen in Hs4. cbn in Hs4. eexists. split_and!; [eapply rtc_r; [by etrans; [|etrans]|exact Hs4]| | |done].
  - etrans; [exact Hd13|apply same_drains].
  - intros g (i & h & Hi & Hh & <-)%pgids_elem. cbn in Hh. destruct (dr_back _ _ i h Hd3 Hh) as (h2 & Hh2 & ->).
    apply Hd3. by apply (Hq2 i).
Qed.

(** ** Every reachable state *)

Section Reached.
Context (running : bool) (t : gmap Z Process) (b : nat) (s : State).
Context (Htable : table_ok t b) (Hreach : rtc step (groups_new running t b) s).

(** C27. No signal reaches a stranger. However handles signal, stops fail or are dropped
    and ids are used again, every signal the fence sent reached members of the group its
    handle spawned and no other, by birth and not by id: while a group can be signalled
    its unreaped sentinel keeps the id from being given out, a signal changes no process
    of another group, and a group that is being reaped or was reaped is not signalled. *)
Theorem fence_signals :
  (forall i x, (i, x) ∈ signalled s -> exists g, groups s !! i = Some g /\ x = sentinel g) /\
  (forall i g, groups s !! i = Some g -> pin g = Held -> gone s = false ->
    ~ free_id (table s) (pgid g) /\ forall p, p ∈ members (table s) (pgid g) -> group_birth p = sentinel g) /\
  (forall i g sig ok pid p, groups s !! i = Some g -> gone s = false -> table s !! pid = Some p -> group_birth p <> sentinel g ->
    table (fst (signal s i sig ok)) !! pid = Some p) /\
  (forall i g sig ok, groups s !! i = Some g -> pin g <> Held -> signal s i sig ok = (s, None)).
Proof.
  pose proof (fence_inv_reach running t b s Htable Hreach) as Hinv. split_and!.
  - apply Hinv.
  - intros i g Hg Hp Hgone. split; [|intros p; by apply (signal_members s i)].
    intros [Hnone _]. destruct (fi_held s Hinv i g Hg) as (p & ? & _); [unfold child_held; by rewrite Hp|congruence].
  - intros i g sig ok pid p Hg Hgone Hp Hne. unfold signal. rewrite Hg. destruct (pin g) eqn:Hpin; [|done..]. destruct ok; [|done].
    cbn. destruct sig; [done|]. cbn. rewrite lookup_fmap, Hp. cbn. unfold in_group.
    destruct (Z.eqb_spec (pgrp p) (pgid g)) as [Heq|]; [|done]. destruct Hne. apply (signal_members s i); try done.
    apply members_elem. eauto.
  - intros i g sig ok Hg Hp. unfold signal. rewrite Hg. by destruct (pin g).
Qed.

(** C28. A stop fences what ran in the sandbox's process groups. Of a group that is no
    longer in its generation, every process born to it, descendants included, is dead for
    good, and its id is let go; a drain that gets to its end leaves no generation, so that
    in a stopped and drained sandbox no process of any of its groups is alive; a stopped
    sandbox spawns nothing; and a reap that fails leaves the child held and the generation
    in place, for the next stop. A process that has left its group to lead one of its own
    ([setsid], [setpgid]) is not covered: no signal of the sandbox reaches it, and it may
    live on after the stop ([leader_outlives_stop]). *)
Theorem fence_fences : closing s = false ->
  (forall i g, groups s !! i = Some g -> (forall gen, generation s = Some gen -> i ∉ gen) ->
    pin g <> Held /\ forall pid p, table s !! pid = Some p -> group_birth p = sentinel g -> zombie p = true) /\
  (forall d, lock s = Some d -> stage d = Removing ->
    let s' := drain_done s d in generation s' = None /\ lock s' = None /\ (for_start d = false -> accepting_work s' = accepting_work s)) /\
  (accepting_work s = false -> forall i pid, spawn s i pid = s) /\
  (forall d i rest, lock s = Some d -> stage d = WaitChild i rest ->
    let s' := restore s i in is_pinned s' i = true /\ generation s' = generation s /\ lock s' = None).
Proof.
  pose proof (fence_inv_reach running t b s Htable Hreach) as Hinv. intros Hc. split_and!.
  - intros i g Hg Hgen. assert (Hn : pin g <> Held).
    { apply (fi_past s Hinv i g Hc Hg). unfold generation_or_create. destruct (generation s) as [gen|]; cbn; [by apply Hgen|set_solver]. }
    split; [done|]. by apply (fi_dead s Hinv i).
  - intros d _ _. cbn. by split_and!; [..|intros ->].
  - intros Ha i pid. unfold spawn. by rewrite Ha.
  - intros d i rest Hl Hst. pose proof (fi_stage s Hinv d Hc Hl) as Hok. rewrite Hst in Hok. destruct Hok as (_ & _ & _ & g & Hg & _).
    unfold is_pinned. cbn. by rewrite lookup_alter_eq, Hg.
Qed.

(** A stop ends. Where no signal is rejected, the ids the sandbox let go and those of
    saved generations are not in use, and nothing else moves, the drain's own steps bring
    it to its end: two rounds of signals, every sentinel reaped, and nothing left. *)
Theorem fence_drain_completes sv : closing s = false -> lock s = None ->
  (forall g, g ∈ sv -> group_is_live (table s) g = false) ->
  (forall i g, groups s !! i = Some g -> pin g <> Held -> group_is_live (table s) (pgid g) = false) ->
  exists s', rtc pstep (stop s (Some sv)) s' /\ lock s' = None /\ generation s' = None /\ accepting_work s' = false /\
    forall i g, groups s' !! i = Some g -> dead (table s') (sentinel g) /\ pin g <> Held.
Proof.
  pose proof (fence_inv_reach running t b s Htable Hreach) as Hinv0. intros Hc Hl Hsv Hun.
  assert (Hinv : fence_inv (stop s (Some sv))) by (eapply fence_inv_pstep; [by apply step_stop|done]).
  assert (Hend : exists s3 d pgids, rtc pstep (stop s (Some sv)) s3 /\ lock s3 = Some d /\ stage d = AwaitGone pgids /\
    for_start d = false /\ drains (set_accepting s false) s3 /\ quiet s3 pgids).
  { unfold stop, drain_begin in *. cbn in *. destruct (generation s) as [gen|] eqn:Hgen.
    - edestruct (drain_to_gone _ _ gen Hinv eq_refl eq_refl) as (s3 & Hs3 & Hd3 & Hq3 & Hl3); try done. cbn in Hl3.
      eexists s3, _, _. split_and!; [done|done|done|done| |].
      + etrans; [|exact Hd3]. apply same_drains.
      + intros g [Hg|Hg]%elem_of_app; [apply Hd3; by apply Hsv|by apply Hq3].
    - eexists _, _, sv. split_and!; [done|done|done|done|apply same_drains|done]. }
  destruct Hend as (s3 & d & pgids & Hs3 & Hl3 & Hst & Hfs & Hd3 & Hq3).
  pose proof (step_gone s3 d pgids Hl3 Hst) as Hs4. unfold await_next in Hs4.
  replace (live_groups (table s3) pgids) with ([] : list Z) in Hs4.
  2: { symmetry. apply elem_of_nil_inv. intros g [Hg Hlive]%live_groups_elem. rewrite (Hq3 g Hg) in Hlive. done. }
  pose proof (step_removed (set_stage s3 d Removing) _ eq_refl eq_refl) as Hs5.
  eexists. split; [eapply rtc_r; [eapply rtc_r; [exact Hs3|exact Hs4]|exact Hs5]|].
  match type of Hs5 with pstep _ ?x => assert (Hinv5 : fence_inv x) end.
  { eapply fence_inv_pstep; [exact Hs5|]. eapply fence_inv_pstep; [exact Hs4|]. by eapply fence_inv_psteps. }
  split_and!; [done|done|cbn; rewrite Hfs; cbn; apply Hd3|]. intros i g Hg.
  assert (Hc5 : closing s3 = false) by (by rewrite (dr_closing _ _ Hd3)).
  assert (Hn : pin g <> Held) by (apply (fi_past _ Hinv5 i g); [done|done|cbn; set_solver]).
  split; [|done]. by apply (fi_dead _ Hinv5 i).
Qed.
End Reached.

(** ** A sandbox with one command that forked *)

Definition demo_work : State :=
  let s := spawn (groups_new true ∅ 0) 0 (Some 100) in
  set_table s (<[101 := mkProcess (births s) 100 0 false]> (table s)) (S (births s)).

Lemma table_empty : table_ok ∅ 0.
Proof. by split. Qed.

Lemma demo_work_steps : rtc step (groups_new true ∅ 0) demo_work.
Proof.
  eapply rtc_l; [left; by apply (step_spawn _ 0 (Some 100))|].
  apply rtc_once. right. apply (kernel_fork _ 100 (mkProcess 0 100 0 false) 101); [by vm_compute..|].
  split; [by vm_compute|]. intros q r. cbn. rewrite lookup_insert_Some. intros [[<- <-]|[_ ?]]; [done|by rewrite lookup_empty in *].
Qed.

(** Its id is used again while a stop still waits for it. *)
Definition demo_at (p : Stage) : Drain := mkDrain false [] p.
Definition demo_stop : State := stop demo_work (Some []).
Definition demo_killed : State := kill_next demo_stop (demo_at (Killing false [0%nat] [])) false 0 [] [] true.
Definition demo_once : State := observe demo_killed (demo_at (Killing false [] [(0%nat, true)])) false [(0%nat, true)].
Definition demo_again : State := kill_next demo_once (demo_at (Killing true [0%nat] [])) true 0 [] [] true.
Definition demo_dead : State := observe demo_again (demo_at (Killing true [] [(0%nat, true)])) true [(0%nat, true)].
Definition demo_taken : State := reap_next demo_dead (demo_at (ReapNext [0%nat])) 0 [].
Definition demo_reaped : State := reap_done demo_taken (demo_at (WaitChild 0 [])) 0 [].
Definition demo_recycled : State :=
  let s := set_table demo_reaped (delete 101 (table demo_reaped)) (births demo_reaped) in
  let s := set_table s (<[100 := mkProcess (births s) 100 (births s) false]> (table s)) (S (births s)) in
  await_start s (mkDrain false [] (ReapNext [])).

Lemma demo_reaped_steps : rtc step demo_work demo_reaped.
Proof.
  eapply rtc_l; [left; by apply (step_stop demo_work (Some []))|].
  eapply rtc_l; [left; by apply (step_kill demo_stop (demo_at (Killing false [0%nat] [])) false 0 [] [] true)|].
  eapply rtc_l; [left; by apply (step_observe demo_killed (demo_at (Killing false [] [(0%nat, true)])) false [(0%nat, true)]); vm_compute|].
  eapply rtc_l; [left; by apply (step_kill demo_once (demo_at (Killing true [0%nat] [])) true 0 [] [] true); vm_compute|].
  eapply rtc_l; [left; by apply (step_observe demo_again (demo_at (Killing true [] [(0%nat, true)])) true [(0%nat, true)]); vm_compute|].
  eapply rtc_l; [left; by apply (step_take demo_dead (demo_at (ReapNext [0%nat])) 0 []); vm_compute|]. apply rtc_once. left.
  by apply (step_reaped demo_taken (demo_at (WaitChild 0 [])) 0 [] (mkGroup 100 0 Reaping) (mkProcess 0 100 0 true)); vm_compute.
Qed.

Lemma demo_stopped_steps : rtc step (groups_new true ∅ 0) demo_reaped.
Proof. etrans; [apply demo_work_steps|apply demo_reaped_steps]. Qed.

(** A stop waits for an id it let go, which names an unrelated process now. *)
Lemma recycled_id_awaited : rtc step (groups_new true ∅ 0) demo_recycled /\
  (exists d, lock demo_recycled = Some d /\ stage d = AwaitGone [100] /\ await_next demo_recycled d [100] = demo_recycled) /\
  (exists g, groups demo_recycled !! 0%nat = Some g /\ pin g = Reaped /\
    forall pid p, table demo_recycled !! pid = Some p -> group_birth p <> sentinel g).
Proof.
  split; [|split].
  - etrans; [apply demo_work_steps|]. etrans; [apply demo_reaped_steps|]. eapply rtc_l; [|eapply rtc_l; [|eapply rtc_once]].
    + right. eapply (kernel_reap _ 101); [by vm_compute..|]. intros i g Hg [_ Hp].
      assert (groups demo_reaped = {[ 0%nat := mkGroup 100 0 Reaped ]}) as Hgr by (by vm_compute). rewrite Hgr in Hg.
      apply lookup_singleton_Some in Hg as [<- <-]. done.
    + right. apply (kernel_new _ 100). split; [by vm_compute|].
      assert (forall m, m = delete 101 (table demo_reaped) -> m = ∅) as Hm by (intros m ->; by vm_compute).
      intros q r. cbn -[demo_reaped]. rewrite (Hm _ eq_refl). by rewrite lookup_empty.
    + left. by eapply step_await.
  - eexists. split_and!; by vm_compute.
  - eexists. split_and!; [by vm_compute..|]. assert (Ht : table demo_recycled = {[ 100 := mkProcess 2 100 2 false ]}) by (by vm_compute).
    intros pid p. rewrite Ht. intros [<- <-]%lookup_singleton_Some. done.
Qed.

(** The child leads a group of its own before the stop: the drain gets to its end with
    the generation forgotten, and the child alive. *)
Definition demo_left : State :=
  set_table demo_work (<[101 := mkProcess 1 101 2 false]> (table demo_work)) 3.
Definition left_stop : State := stop demo_left (Some []).
Definition left_killed : State := kill_next left_stop (demo_at (Killing false [0%nat] [])) false 0 [] [] true.
Definition left_once : State := observe left_killed (demo_at (Killing false [] [(0%nat, true)])) false [(0%nat, true)].
Definition left_again : State := kill_next left_once (demo_at (Killing true [0%nat] [])) true 0 [] [] true.
Definition left_dead : State := observe left_again (demo_at (Killing true [] [(0%nat, true)])) true [(0%nat, true)].
Definition left_taken : State := reap_next left_dead (demo_at (ReapNext [0%nat])) 0 [].
Definition left_reaped : State := reap_done left_taken (demo_at (WaitChild 0 [])) 0 [].
Definition left_await : State := await_start left_reaped (demo_at (ReapNext [])).
Definition left_gone : State := await_next left_await (demo_at (AwaitGone [100])) [100].
Definition left_done : State := drain_done left_gone (demo_at Removing).

Lemma demo_left_steps : rtc step (groups_new true ∅ 0) demo_left.
Proof.
  etrans; [apply demo_work_steps|]. apply rtc_once. right. apply (kernel_lead demo_work 101 (mkProcess 1 100 0 false)); [by vm_compute..|].
  intros q r. assert (Ht : table demo_work = {[ 100 := mkProcess 0 100 0 false; 101 := mkProcess 1 100 0 false ]}) by (by vm_compute).
  rewrite Ht. intros [[_ <-]|[_ [_ <-]%lookup_singleton_Some]]%lookup_insert_Some; done.
Qed.

Lemma left_steps : rtc step demo_left left_done.
Proof.
  eapply rtc_l; [left; by apply (step_stop demo_left (Some []))|].
  eapply rtc_l; [left; by apply (step_kill left_stop (demo_at (Killing false [0%nat] [])) false 0 [] [] true)|].
  eapply rtc_l; [left; by apply (step_observe left_killed (demo_at (Killing false [] [(0%nat, true)])) false [(0%nat, true)]); vm_compute|].
  eapply rtc_l; [left; by apply (step_kill left_once (demo_at (Killing true [0%nat] [])) true 0 [] [] true); vm_compute|].
  eapply rtc_l; [left; by apply (step_observe left_again (demo_at (Killing true [] [(0%nat, true)])) true [(0%nat, true)]); vm_compute|].
  eapply rtc_l; [left; by apply (step_take left_dead (demo_at (ReapNext [0%nat])) 0 []); vm_compute|].
  eapply rtc_l; [left; by apply (step_reaped left_taken (demo_at (WaitChild 0 [])) 0 [] (mkGroup 100 0 Reaping) (mkProcess 0 100 0 true)); vm_compute|].
  eapply rtc_l; [left; by apply (step_await left_reaped (demo_at (ReapNext []))); vm_compute|].
  eapply rtc_l; [left; by apply (step_gone left_await (demo_at (AwaitGone [100])) [100]); vm_compute|].
  apply rtc_once. left. by apply (step_removed left_gone (demo_at Removing)); vm_compute.
Qed.

Lemma leader_outlives_stop : rtc step (groups_new true ∅ 0) left_done /\
  generation left_done = None /\ lock left_done = None /\ accepting_work left_done = false /\
  exists p, table left_done !! 101 = Some p /\ zombie p = false.
Proof.
  split; [etrans; [apply demo_left_steps|apply left_steps]|]. split_and!; [by vm_compute..|]. eexists. split; by vm_compute.
Qed.

Lemma fence_signals_witness :
  (0%nat, 0%nat) ∈ signalled (fst (signal demo_work 0 SIGKILL true)) /\
  (forall pid p, table demo_work !! pid = Some p -> group_birth p <> 0%nat ->
    table (fst (signal demo_work 0 SIGKILL true)) !! pid = Some p).
Proof.
  destruct (fence_signals true ∅ 0 demo_work table_empty demo_work_steps) as (_ & _ & Hs & _). split; [left|].
  intros pid p. exact (Hs 0%nat (mkGroup 100 0 Held) SIGKILL true pid p eq_refl eq_refl).
Defined.

Lemma fence_fences_witness : accepting_work demo_reaped = false /\ spawn demo_reaped 1 (Some 200) = demo_reaped.
Proof.
  destruct (fence_fences true ∅ 0 demo_reaped table_empty demo_stopped_steps eq_refl) as (_ & _ & Hs & _).
  split; [vm_compute; reflexivity|]. apply Hs. vm_compute. reflexivity.
Defined.

Lemma fence_drain_completes_witness : exists s', rtc pstep (stop demo_work (Some [])) s' /\ generation s' = None /\
  exists g, groups demo_work !! 0%nat = Some g /\ pin g = Held.
Proof.
  destruct (fence_drain_completes true ∅ 0 demo_work table_empty demo_work_steps []) as (s' & Hs & _ & Hg & _).
  - reflexivity.
  - reflexivity.
  - intros g Hg. destruct (not_elem_of_nil g Hg).
  - intros i g. change (groups demo_work) with ({[ 0%nat := mkGroup 100 0 Held ]} : gmap nat PinnedGroup).
    intros [_ <-]%lookup_singleton_Some Hp. destruct (Hp eq_refl).
  - exists s'. split; [exact Hs|]. split; [exact Hg|]. eexists. split; vm_compute; reflexivity.
Defined.
