(* ===== verification/Sentinel.v ===== *)
(** * Sentinels, their records, and what is seen of their groups

    Models, of [crates/sandbox-driver-host/src/fence], the reading of the process table
    in [observation.rs] (Linux), and of [sentinel.rs] the sentinel's script against a
    recovery that fences its generation, and the end of a command as its handle reports
    it. *)

From S2P Require Import Prelude Text Exec.

#[local] Open Scope string_scope.
#[local] Open Scope list_scope.
#[local] Open Scope Z_scope.

(** ** Reading the process table *)

Definition live_group_from_stat (stat : string) : option Z :=
  match rsplit_once ")" stat with
  | None => None
  | Some (_, rest) =>
      match split_whitespace rest with
      | state :: _ :: group :: _ =>
          match parse_i32 group with
          | Some g => if String.eqb state "Z" then None else Some g
          | None => None
          end
      | _ => None
      end
  end.

(** A directory of processes: the name of each entry, and its stat where it can be read. *)
Notation procfs := (list (string * option string)).

Definition numbered (name : string) : bool := all_chars is_ascii_digit name.

(** One entry of the process table, for a batch of groups. *)
Definition add_live (requested live : gset Z) (e : string * option string) : gset Z :=
  if numbered (fst e) then
    match snd e with
    | Some stat =>
        match live_group_from_stat stat with
        | Some g => if decide (g ∈ requested) then live ∪ {[ g ]} else live
        | None => live
        end
    | None => live
    end
  else live.

Definition live_groups_in (entries : option procfs) (pgids : list Z) : gset Z :=
  let requested : gset Z := list_to_set pgids in
  if decide (requested = ∅) then ∅
  else match entries with None => ∅ | Some es => foldl (add_live requested) ∅ es end.

Definition stat_is_live_in_group (stat : string) (pgid : Z) : bool := bool_decide (live_group_from_stat stat = Some pgid).

(** One file: the sentinel's own. *)
Definition read_stat (es : procfs) (name : string) : option string :=
  match List.find (fun e => String.eqb (fst e) name) es with Some e => snd e | None => None end.
Definition sentinel_is_live (es : procfs) (pgid : Z) : bool :=
  match read_stat es (print_uint pgid) with Some stat => stat_is_live_in_group stat pgid | None => false end.
Definition has_live_group_members (entries : option procfs) (pgid : Z) : bool :=
  match entries with
  | None => false
  | Some es =>
      existsb (fun e => numbered (fst e) && match snd e with Some stat => stat_is_live_in_group stat pgid | None => false end) es
  end.
Definition group_is_live (es : procfs) (pgid : Z) : bool := sentinel_is_live es pgid || has_live_group_members (Some es) pgid.

(** ** A command's end *)

Inductive ExitStatus := ExitCode (code : Z) | ExitSignal (n : Z).
Definition status_code (s : ExitStatus) : option Z := match s with ExitCode c => Some c | ExitSignal _ => None end.
Definition status_signal (s : ExitStatus) : option Z := match s with ExitSignal n => Some n | ExitCode _ => None end.
Definition killed_status : ExitStatus := ExitSignal 9.

(** What the status file holds, if it is there. *)
Definition recorded_status (file : option string) : option ExitStatus :=
  match file with Some text => ExitCode <$> parse_uint 256 (trim text) | None => None end.

(** A turn of [HostChild::wait]: the status file, whether the group is pinned, whether it
    is alive, and the status file again. *)
Record Turn := mkTurn {
  first_file : option string;
  pinned : bool;
  alive : result bool string;
  last_file : option string;
}.
Definition wait_turn (t : Turn) : option (result ExitStatus string) :=
  match recorded_status (first_file t) with
  | Some status => Some (Ok status)
  | None =>
      if negb (pinned t) then Some (Ok killed_status)
      else match alive t with
           | Err e => Some (Err e)
           | Ok true => None
           | Ok false => Some (Ok (default killed_status (recorded_status (last_file t))))
           end
  end.
Fixpoint wait (turns : list Turn) : option (result ExitStatus string) :=
  match turns with
  | [] => None
  | t :: turns => match wait_turn t with Some o => Some o | None => wait turns end
  end.

(** A signal that ended the sentinel outranks the one its status tells of. *)
Definition exec_result (t : Termination) (status : ExitStatus) (d : Z) : ExecResult :=
  let r := from_shell_status t (status_code status) d in
  mkResult (res_stdout r) (res_stderr r) (exit_code r)
    (match status_signal status with Some n => Some n | None => res_signal r end) (res_termination r) (duration r).

(** ** A recovery against the sentinels of a generation *)

(** Where a sentinel's script stands: about to publish its record, to look for the fence,
    to start the workload; running it, or gone. *)
Inductive Script := Unborn | Starting | Published | Cleared | Running | Gone.

(** Where the recovery stands: the fence is written, the records are read, all of them
    are seen dead, the directory is removed. *)
Inductive Recovery := Unfenced | Fenced | Awaiting (pgids : gset nat) | Observed | Removed.

(** [late]: who published its record after the records were read. No definition of the
    program reads it. *)
Record Saved := mkSaved {
  directory : bool;
  marker : bool;
  records : gset nat;
  recovery : Recovery;
  script : nat -> Script;
  late : gset nat;
}.

Definition saved_start : Saved := mkSaved true false ∅ Unfenced (fun _ => Unborn) ∅.

Definition set_script (s : Saved) (j : nat) (p : Script) : Saved :=
  mkSaved (directory s) (marker s) (records s) (recovery s) (fun k => if (k =? j)%nat then p else script s k) (late s).
Definition set_recovery (s : Saved) (r : Recovery) : Saved :=
  mkSaved (directory s) (marker s) (records s) r (script s) (late s).

Definition records_read (r : Recovery) : bool := match r with Unfenced | Fenced => false | _ => true end.

(** The script publishes its record, or leaves when it cannot. *)
Definition publish (s : Saved) (j : nat) : Saved :=
  if directory s
  then set_script (mkSaved (directory s) (marker s) (records s ∪ {[ j ]}) (recovery s) (script s)
                     (if records_read (recovery s) then late s ∪ {[ j ]} else late s)) j Published
  else set_script s j Gone.
(** It looks for the fence, which is a file of the directory. *)
Definition look (s : Saved) (j : nat) : Saved := set_script s j (if marker s then Gone else Cleared).

Definition write_fence (s : Saved) : Saved :=
  mkSaved (directory s) true (records s) Fenced (script s) (late s).
Definition read_records (s : Saved) : Saved := set_recovery s (Awaiting (records s)).
(** What is gone is no longer awaited. The step of the relation has what is seen dead be
    dead: a process table that cannot be read, which the code takes for one without live
    groups ([groups_observed]), is left out. *)
Definition observe_saved (s : Saved) (dead left : gset nat) : Saved :=
  set_recovery s (if decide (left = ∅) then Observed else Awaiting left).
(** The directory goes with the fence and the records, at once; the code unlinks its
    entries one by one. *)
Definition remove_directory (s : Saved) : Saved :=
  mkSaved false false ∅ Removed (script s) (late s).

Inductive saved_step (s : Saved) : Saved -> Prop :=
  | script_born j : recovery s = Unfenced -> script s j = Unborn -> saved_step s (set_script s j Starting)
  | script_publish j : script s j = Starting -> saved_step s (publish s j)
  | script_look j : script s j = Published -> saved_step s (look s j)
  | script_run j : script s j = Cleared -> saved_step s (set_script s j Running)
  | script_die j : script s j <> Unborn -> saved_step s (set_script s j Gone)
  | recovery_fence : recovery s = Unfenced -> saved_step s (write_fence s)
  | recovery_read : recovery s = Fenced -> saved_step s (read_records s)
  | recovery_observe all dead left : recovery s = Awaiting all -> all = dead ∪ left -> (forall j, j ∈ dead -> script s j = Gone) ->
      saved_step s (observe_saved s dead left)
  | recovery_remove : recovery s = Observed -> saved_step s (remove_directory s).

(** ** What a stat line says *)

Definition no_paren (s : string) : Prop := all_chars (fun c => negb (Ascii.eqb ")" c)) s = true.
(** What follows the fields that are read. *)
Definition rest_of_line (s : string) : Prop := no_paren s /\ (s = EmptyString \/ exists r, s = String " " r).
Definition stat_line (pid comm state ppid : string) (pgrp : Z) (rest : string) : string :=
  pid +:+ " (" +:+ comm +:+ ") " +:+ state +:+ " " +:+ ppid +:+ " " +:+ print_uint pgrp +:+ rest.

Lemma digit_visible s : all_chars is_ascii_digit s = true -> visible s /\ no_paren s.
Proof.
  intros Hs. split; revert Hs; apply all_chars_impl; intros a; unfold is_ascii_digit, in_range;
    intros [H1%Z.leb_le H2%Z.leb_le]%andb_true_iff.
  - apply andb_true_iff. split; apply Z.leb_le; lia.
  - apply negb_true_iff, Ascii.eqb_neq. intros <-. by vm_compute in H1.
Qed.

Lemma no_paren_app s t : no_paren s -> no_paren t -> no_paren (s +:+ t).
Proof. unfold no_paren. rewrite all_chars_app. by intros -> ->. Qed.

(** A stat line is read for what it says, whatever the command is called. *)
Lemma stat_line_read pid comm state ppid g rest : visible state -> no_paren state -> is_empty state = false ->
  visible ppid -> no_paren ppid -> is_empty ppid = false -> 0 <= g < 2 ^ 31 -> rest_of_line rest ->
  live_group_from_stat (stat_line pid comm state ppid g rest) = if String.eqb state "Z" then None else Some g.
Proof.
  intros Hs Hsp Hsn Hp Hpp Hpn Hg [Hr Hrest]. destruct (print_uint_digits g) as [Hd Hn]; [lia|]. destruct (digit_visible _ Hd) as [Hv Hgp].
  unfold live_group_from_stat.
  assert (stat_line pid comm state ppid g rest =
    (pid +:+ " (" +:+ comm) +:+ String ")" (" " +:+ state +:+ " " +:+ ppid +:+ " " +:+ print_uint g +:+ rest)) as ->.
  { unfold stat_line. rewrite <- !app_assoc_string. done. }
  rewrite rsplit_once_last by (apply no_paren_app; [done|]; repeat (apply no_paren_app; [done|]); done).
  change (" " +:+ state +:+ " " +:+ ppid +:+ " " +:+ print_uint g +:+ rest) with
    (String " " (state +:+ String " " (ppid +:+ String " " (print_uint g +:+ rest)))).
  rewrite split_whitespace_space, (split_whitespace_word state), (split_whitespace_word ppid) by done.
  destruct Hrest as [->|[r ->]].
  - rewrite app_nil_r_string, split_whitespace_last, parse_i32_print by done. done.
  - rewrite split_whitespace_word, parse_i32_print by done. done.
Qed.

Lemma live_groups_in_elem es pgids g : g ∈ live_groups_in (Some es) pgids <->
  g ∈ pgids /\ exists name stat, (name, Some stat) ∈ es /\ numbered name = true /\ live_group_from_stat stat = Some g.
Proof.
  unfold live_groups_in. set (requested := list_to_set pgids : gset Z).
  assert (Hreq : forall x, x ∈ requested <-> x ∈ pgids) by (intros x; subst requested; by rewrite elem_of_list_to_set).
  destruct (decide (requested = ∅)) as [He|_].
  { split; [set_solver|]. intros [Hg%Hreq _]. rewrite He in Hg. set_solver. }
  assert (Hfold : forall live : gset Z, g ∈ foldl (add_live requested) live es <->
    g ∈ live \/ g ∈ pgids /\ exists name stat, (name, Some stat) ∈ es /\ numbered name = true /\ live_group_from_stat stat = Some g).
  2: { rewrite Hfold. set_solver. }
  induction es as [|[name o] es IH]; intros live; cbn [foldl].
  - split; [by left|]. intros [?|(_ & n & st & Hin%not_elem_of_nil & _)]; done.
  - rewrite IH. setoid_rewrite elem_of_cons. unfold add_live. cbn [fst snd]. destruct (numbered name) eqn:Hn; [destruct o as [stat|]; [destruct (live_group_from_stat stat) as [h|] eqn:Hst; [destruct (decide (h ∈ requested)) as [Hh|Hh]|]|]|].
    + rewrite elem_of_union, elem_of_singleton. apply Hreq in Hh. split.
      * intros [[?| ->]|(? & n & st & ? & ? & ?)]; [by left|right|right; naive_solver].
        split; [done|]. exists name, stat. by split_and!; [left|..].
      * intros [?|(? & n & st & [[= -> ->]|?] & ? & ?)]; [by left; left|left; right; congruence|right; naive_solver].
    + rewrite Hreq in Hh. split; [intros [?|?]; [by left|right; naive_solver]|].
      intros [?|(? & n & st & [[= -> ->]|?] & ? & ?)]; [by left|congruence|right; naive_solver].
    + split; [intros [?|?]; [by left|right; naive_solver]|].
      intros [?|(? & n & st & [[= -> ->]|?] & ? & ?)]; [by left|congruence|right; naive_solver].
    + split; [intros [?|?]; [by left|right; naive_solver]|].
      intros [?|(? & n & st & [[= ->]|?] & ? & ?)]; [by left|right; naive_solver].
    + split; [intros [?|?]; [by left|right; naive_solver]|].
      intros [?|(? & n & st & [[= -> ?]|?] & ? & ?)]; [by left|congruence|right; naive_solver].
Qed.

Lemma has_live_elem es g : has_live_group_members (Some es) g = true <-> g ∈ live_groups_in (Some es) [g].
Proof.
  rewrite live_groups_in_elem. cbn. rewrite existsb_exists. split.
  - intros ([name [stat|]] & Hin & [Hn Hs]%andb_true_iff); cbn in *; [|done].
    unfold stat_is_live_in_group in Hs. apply bool_decide_eq_true in Hs. apply list_elem_of_In in Hin.
    split; [by left|]. eauto 10.
  - intros (_ & name & stat & Hin & Hn & Hs). exists (name, Some stat). split; [by apply list_elem_of_In|].
    cbn [fst snd]. rewrite Hn. by apply bool_decide_eq_true.
Qed.

(** The process table is read for what it says. A stat line gives its process's group
    unless the process is a zombie, whatever its command is called; the groups seen alive
    are those asked for that have a member that is not a zombie, whether they are asked
    for together or one at a time, and looking at the sentinel first changes no answer;
    where the table cannot be read, none. *)
Theorem groups_observed :
  (forall pid comm state ppid g rest, visible state -> no_paren state -> is_empty state = false ->
    visible ppid -> no_paren ppid -> is_empty ppid = false -> 0 <= g < 2 ^ 31 -> rest_of_line rest ->
    live_group_from_stat (stat_line pid comm state ppid g rest) = if String.eqb state "Z" then None else Some g) /\
  (forall es pgids g, g ∈ live_groups_in (Some es) pgids <->
    g ∈ pgids /\ exists name stat, (name, Some stat) ∈ es /\ numbered name = true /\ live_group_from_stat stat = Some g) /\
  (forall es g, 0 <= g < 2 ^ 31 -> group_is_live es g = true <-> g ∈ live_groups_in (Some es) [g]) /\
  (forall pgids, live_groups_in None pgids = ∅).
Proof.
  split_and!; [intros; by apply stat_line_read|apply live_groups_in_elem| |].
  - intros es g Hg. unfold group_is_live. rewrite orb_true_iff, has_live_elem. split; [|by right]. intros [Hs|?]; [|done].
    unfold sentinel_is_live, read_stat in Hs. destruct (List.find _ es) as [[name o]|] eqn:Hf; [|done]. cbn in Hs.
    destruct o as [stat|]; [|done]. apply List.find_some in Hf as [Hin Hname]. cbn in Hname. apply String.eqb_eq in Hname as ->.
    apply live_groups_in_elem. split; [by left|]. exists (print_uint g), stat. split_and!.
    + by apply list_elem_of_In.
    + apply print_uint_digits. lia.
    + by apply bool_decide_eq_true in Hs.
  - intros pgids. unfold live_groups_in. by destruct (decide _).
Qed.

Lemma parse_digits_range bound s : forall acc n, 0 <= acc < bound -> parse_digits bound acc s = Some n -> 0 <= n < bound.
Proof.
  induction s as [|a s IH]; intros acc n Ha; cbn; [by intros [= <-]|]. destruct (is_ascii_digit a) eqn:Hd; [|done].
  unfold is_ascii_digit, in_range in Hd. apply andb_true_iff in Hd as [H1%Z.leb_le H2%Z.leb_le].
  destruct (Z.ltb_spec (acc * 10 + (code a - 48)) bound); [|done]. apply IH. lia.
Qed.

Lemma parse_uint_range bound s n : 0 < bound -> parse_uint bound s = Some n -> 0 <= n < bound.
Proof. unfold parse_uint. intros Hb. destruct (is_empty _); [done|]. apply parse_digits_range. lia. Qed.

(** A command ends for a reason that was seen. Its handle reports a status only if
    the status file held it, or a kill when its group was let go or had no live member;
    it waits while the group lives; it stops waiting at the first turn that has either;
    and a command's result shows a signal that ended it, whether the shell told of it or
    the sentinel itself died of it, and its exit code otherwise. *)
Theorem command_end :
  (forall turns status, wait turns = Some (Ok status) -> exists t, t ∈ turns /\
    (recorded_status (first_file t) = Some status \/ recorded_status (last_file t) = Some status \/
     status = killed_status /\ (pinned t = false \/ alive t = Ok false))) /\
  (forall turns t, (forall u, u ∈ turns -> wait_turn u = None) -> wait (turns ++ [t]) = wait_turn t) /\
  (forall t, wait_turn t = None <-> recorded_status (first_file t) = None /\ pinned t = true /\ alive t = Ok true) /\
  (forall file status, recorded_status file = Some status -> exists c, status = ExitCode c /\ 0 <= c < 256) /\
  (forall t c d, let r := exec_result t (ExitCode c) d in
    exit_code r = Some c /\ res_termination r = t /\ forall n, res_signal r = Some n <-> 1 <= n <= 64 /\ c = 128 + n) /\
  (forall t n d, let r := exec_result t (ExitSignal n) d in exit_code r = None /\ res_signal r = Some n /\ success r = false).
Proof.
  split_and!.
  - induction turns as [|t turns IH]; intros status; [done|]. cbn. destruct (wait_turn t) as [o|] eqn:Ht.
    + intros [= ->]. exists t. split; [by left|]. unfold wait_turn in Ht. destruct (recorded_status (first_file t)) eqn:Hr.
      * left. congruence.
      * right. destruct (pinned t); cbn in Ht; [|right; split; [congruence|by left]].
        destruct (alive t) as [[]|]; [done| |done]. destruct (recorded_status (last_file t)); cbn in Ht;
          [left; congruence|right; split; [congruence|by right]].
    + intros Hw. destruct (IH status Hw) as (u & Hu & ?). exists u. split; [by right|done].
  - induction turns as [|u turns IH]; intros t Hn; cbn.
    + by destruct (wait_turn t).
    + rewrite Hn by (by left). apply IH. intros v Hv. apply Hn. by right.
  - intros t. unfold wait_turn. destruct (recorded_status (first_file t)); [naive_solver|]. destruct (pinned t); cbn; [|naive_solver].
    destruct (alive t) as [[]|]; naive_solver.
  - intros [text|] status; [|done]. cbn. destruct (parse_uint 256 (trim text)) as [c|] eqn:Hp; [|done]. intros [= <-].
    exists c. split; [done|]. by apply parse_uint_range in Hp.
  - intros t c d. cbn. destruct (from_shell_status_spec t (Some c) d) as (He & Ht & Hs & _). split_and!; [done|done|].
    intros n. rewrite Hs. split; intros [? ?]; (split; [done|]); congruence.
  - intros t n d. split_and!; [done|done|]. unfold success. cbn. by destruct t.
Qed.

(** ** A recovery *)

Definition at_work (p : Script) : bool := match p with Cleared | Running => true | _ => false end.
Definition recorded (p : Script) : bool := match p with Published | Cleared | Running => true | _ => false end.
Definition fenced (r : Recovery) : bool := match r with Fenced | Awaiting _ | Observed => true | _ => false end.

Record saved_inv (s : Saved) : Prop := {
  sv_directory : directory s = true <-> recovery s <> Removed;
  sv_marker : marker s = fenced (recovery s);
  sv_records j : directory s = true -> recorded (script s j) = true -> j ∈ records s;
  sv_await a j : recovery s = Awaiting a -> recorded (script s j) = true -> j ∈ a \/ j ∈ late s;
  sv_after j : recovery s = Observed \/ recovery s = Removed -> recorded (script s j) = true -> j ∈ late s;
  sv_unread : records_read (recovery s) = false -> late s = ∅;
  sv_late j : j ∈ late s -> at_work (script s j) = true -> recovery s = Removed;
}.

Ltac script_case k j := destruct (Nat.eqb_spec k j) as [->|?].

Lemma at_work_recorded p : at_work p = true -> recorded p = true.
Proof. by destruct p. Qed.

Lemma saved_inv_move s j p : (recorded p = true -> recorded (script s j) = true) ->
  (at_work p = true -> at_work (script s j) = true \/ recovery s = Unfenced \/ recovery s = Removed) ->
  saved_inv s -> saved_inv (set_script s j p).
Proof.
  intros Hr Hw []. split; cbn; try done.
  - intros k Hd. script_case k j; auto.
  - intros a k Ha. script_case k j; eauto.
  - intros k Ho. script_case k j; eauto.
  - intros k Hl. script_case k j; [|eauto]. intros Hp. destruct (Hw Hp) as [?|[Hu|?]]; [eauto| |done].
    rewrite Hu in sv_unread0. specialize (sv_unread0 eq_refl). set_solver.
Qed.

Lemma saved_inv_next s s' : saved_step s s' -> saved_inv s -> saved_inv s'.
Proof.
  intros Hstep Hinv. destruct Hstep as [j _ Hj|j Hj|j Hj|j Hj|j Hj|Hr|Hr|all dead left Hr Hall Hdead|Hr].
  - by apply saved_inv_move.
  - unfold publish. destruct (directory s) eqn:Hd; [|by apply saved_inv_move].
    destruct Hinv. assert (Hlate : forall k, k ∈ late s -> k ∈ (if records_read (recovery s) then late s ∪ {[ j ]} else late s)).
    { intros k. destruct (records_read _); set_solver. }
    split; cbn; try done.
    + split; [intros _; by apply sv_directory0|done].
    + intros k _. script_case k j; [set_solver|]. intros Hk. apply elem_of_union_l. auto.
    + intros a k Ha. script_case k j; [right; rewrite Ha; set_solver|]. intros Hk. destruct (sv_await0 a k Ha Hk); auto.
    + intros k Ho. script_case k j; [|auto]. intros _. destruct Ho as [Ho|Ho]; rewrite Ho; set_solver.
    + intros Hr. rewrite Hr. auto.
    + intros k. script_case k j; [done|]. intros Hk. apply sv_late0. destruct (records_read _); set_solver.
  - unfold look. pose proof (sv_marker s Hinv) as Hm. destruct (marker s); (apply saved_inv_move; [|..|done]; try done).
    + by rewrite Hj.
    + intros _. right. destruct (recovery s); try done; auto.
  - apply saved_inv_move; [by rewrite Hj|by rewrite Hj; left|done].
  - by apply saved_inv_move.
  - destruct Hinv. rewrite Hr in *. split; cbn; try done.
    + split; [done|]. intros _. by apply sv_directory0.
    + naive_solver.
    + intros j. rewrite sv_unread0 by done. set_solver.
  - destruct Hinv. rewrite Hr in *. split; cbn; try done.
    + split; [done|]. intros _. by apply sv_directory0.
    + intros a j [= <-] Hw. left. apply sv_records0; [by apply sv_directory0|done].
    + naive_solver.
    + intros j. rewrite sv_unread0 by done. set_solver.
  - destruct Hinv. rewrite Hr in *. unfold observe_saved.
    assert (Hleft : forall j, recorded (script s j) = true -> j ∈ left \/ j ∈ late s).
    { intros j Hw. destruct (sv_await0 all j eq_refl Hw) as [Hin|?]; [|by right]. rewrite Hall in Hin.
      apply elem_of_union in Hin as [Hin|?]; [|by left]. by rewrite (Hdead j Hin) in Hw. }
    assert (Hl : forall j, j ∈ late s -> at_work (script s j) = false).
    { intros j Hj. destruct (at_work _) eqn:Hw; [|done]. by specialize (sv_late0 j Hj Hw). }
    assert (Hd : directory s = true) by (by apply sv_directory0).
    destruct (decide (left = ∅)) as [->|_]; (split; cbn; [done|done|auto|try done|try done|done|]).
    + intros j _ Hw. destruct (Hleft j Hw); set_solver.
    + intros j Hj Hw. by rewrite (Hl j Hj) in Hw.
    + intros a j [= <-]. auto.
    + naive_solver.
    + intros j Hj Hw. by rewrite (Hl j Hj) in Hw.
  - destruct Hinv. split; cbn; try done. eauto.
Qed.

Lemma saved_inv_reach s : rtc saved_step saved_start s -> saved_inv s.
Proof.
  intros Hs. assert (Hinv : saved_inv saved_start) by (split; cbn; naive_solver). revert Hinv.
  induction Hs; [done|]. eauto using saved_inv_next.
Qed.

(** C36. A recovery lets no saved work run on. However the sentinels of a generation
    interleave with the recovery that fences it: from the fence on, a sentinel that looks
    leaves without starting its workload; every sentinel that published its record before
    the records were read, whether or not it has looked, is awaited as long as it has not
    left, and so is every one that started its workload; when all that is awaited is seen
    dead, whoever published before the records were read is gone, and no workload runs or
    will while the records stand; and after their removal the only workload that can run
    is that of a sentinel that published its record after they were read, and so was not
    awaited, and looked for the fence only once it was removed with them. What is seen
    dead is dead here, where an unreadable process table shows nothing alive; and the
    directory goes at once, where the code removes its entries one by one. *)
Theorem recovery_fences s : rtc saved_step saved_start s ->
  (forall j, fenced (recovery s) = true -> script (look s j) j = Gone) /\
  (forall a j, recovery s = Awaiting a -> recorded (script s j) = true -> j ∈ a \/ j ∈ late s) /\
  (forall a j, recovery s = Awaiting a -> script s j = Cleared \/ script s j = Running -> j ∈ a) /\
  (forall j, recovery s = Observed -> (recorded (script s j) = true -> j ∈ late s) /\ script s j <> Cleared /\ script s j <> Running) /\
  (forall j, recovery s = Removed -> script s j = Cleared \/ script s j = Running -> j ∈ late s) /\
  (forall j, j ∈ late s -> script s j = Cleared \/ script s j = Running -> recovery s = Removed).
Proof.
  intros Hs. destruct (saved_inv_reach s Hs).
  assert (Hwork : forall j, script s j = Cleared \/ script s j = Running -> at_work (script s j) = true) by (by intros j [-> | ->]).
  assert (Hnot : forall j, recovery s <> Removed -> j ∈ late s -> script s j = Cleared \/ script s j = Running -> False) by eauto.
  split_and!.
  - intros j Hf. unfold look. rewrite sv_marker0, Hf. cbn. by rewrite Nat.eqb_refl.
  - eauto.
  - intros a j Ha Hw. destruct (sv_await0 a j Ha (at_work_recorded _ (Hwork j Hw))) as [?|Hl]; [done|].
    by destruct (Hnot j ltac:(congruence) Hl Hw).
  - intros j Ho. assert (Hl : recorded (script s j) = true -> j ∈ late s) by eauto.
    assert (Hn : ~ (script s j = Cleared \/ script s j = Running)).
    { intros Hw. apply (Hnot j); [congruence|by apply Hl, at_work_recorded, Hwork|done]. }
    split_and!; [done|intros E; apply Hn; by left|intros E; apply Hn; by right].
  - intros j Hr Hw. apply sv_after0; [by right|]. by apply at_work_recorded, Hwork.
  - eauto.
Qed.

(** A sentinel publishes after the records are read, and looks once the fence is gone. *)
Definition demo_slipped : Saved :=
  let s := read_records (write_fence (set_script saved_start 0 Starting)) in
  let s := remove_directory (observe_saved (publish s 0) ∅ ∅) in
  set_script (look s 0) 0 Running.

Lemma workload_slips : rtc saved_step saved_start demo_slipped /\ recovery demo_slipped = Removed /\ script demo_slipped 0%nat = Running.
Proof.
  split; [|by split]. eapply rtc_l; [by apply (script_born _ 0)|]. eapply rtc_l; [by apply recovery_fence|].
  eapply rtc_l; [by apply recovery_read|]. eapply rtc_l; [by apply (script_publish _ 0)|].
  eapply rtc_l; [by apply (recovery_observe _ ∅ ∅ ∅)|]. eapply rtc_l; [by apply recovery_remove|].
  eapply rtc_l; [by apply (script_look _ 0)|]. apply rtc_once. by apply (script_run _ 0).
Qed.

Lemma recovery_fences_witness : 0%nat ∈ late demo_slipped.
Proof.
  destruct (recovery_fences demo_slipped (proj1 workload_slips)) as (_ & _ & _ & _ & Hs & _). apply Hs; [reflexivity|right; reflexivity].
Defined.

Lemma groups_observed_witness :
  live_group_from_stat (stat_line "101" "child (with) spaces)" "S" "100" 100 " 100 0") = Some 100.
Proof.
  destruct groups_observed as (Hs & _). rewrite Hs; try (vm_compute; reflexivity); [vm_compute; split; congruence|].
  split; [vm_compute; reflexivity|right]. exists "100 0". reflexivity.
Defined.
