(* ===== verification/Session.v ===== *)
(** * Command sessions of the Daytona provider

    Models [session.rs], [shell.rs] and the session transport of [exec.rs] under
    [crates/sandbox-driver-daytona/src]: the quoting of a command for the
    toolbox's shell, the wait for a command's end, the ending of a run's session,
    and the merging of the live log stream with the final log fetch. The
    toolbox's answers are inputs; durations and instants of the wait are in
    milliseconds, as in [Exec]. *)

From S2P Require Import Prelude Text Shell Sanitize Capture Exec Errors Encoded.

#[local] Open Scope string_scope.
#[local] Open Scope Z_scope.

(** ** Shell words *)

Definition exec_line (env : gmap string string) (program : string) (args : list string) : string :=
  let line := "exec env" in
  let line := foldl (fun line kv => line +:+ " " +:+ shell_quote (fst kv +:+ "=" +:+ snd kv)) line (entries env) in
  let line := line +:+ " " +:+ shell_quote program in
  foldl (fun line arg => line +:+ " " +:+ shell_quote arg) line args.

Definition build_session_script (cwd command : string) : string :=
  String.concat NEWLINE
    ["cd " +:+ shell_quote cwd +:+ " || exit $?"; "export BASH_ENV=''"; "("; command; ")"].

Definition wrap_session_script (script : string) : string := "/bin/bash -c " +:+ shell_quote script.

(** ** Logs *)

Record Logs := mkLogs { logs_stdout : string; logs_stderr : string; logs_output : string; separated : bool }.

Definition MARKER_OUT : bytes := [1; 1; 1].
Definition MARKER_ERR : bytes := [2; 2; 2].

(** [windows(3).position(..)]: the first marker. *)
Fixpoint marker_at (bs : bytes) : option nat :=
  match bs with
  | [] => None
  | b :: rest =>
      if bool_decide (take 3 bs = MARKER_OUT) || bool_decide (take 3 bs = MARKER_ERR) then Some 0%nat
      else S <$> marker_at rest
  end.

Definition append_text (logs : Logs) (stderr : bool) (text : string) : Logs :=
  mkLogs (if stderr then logs_stdout logs else logs_stdout logs +:+ text)
    (if stderr then logs_stderr logs +:+ text else logs_stderr logs)
    (logs_output logs +:+ text) (separated logs).

(** The loop over markers, with fuel for the bytes that remain: a marker takes
    three. *)
Fixpoint split_logs (fuel : nat) (remaining : bytes) (stderr : bool) (logs : Logs) : Logs :=
  let marker := marker_at remaining in
  let text := from_utf8_lossy (take (default (length remaining) marker) remaining) in
  let logs := append_text logs stderr text in
  match marker, fuel with
  | Some marker, S fuel =>
      let stderr := bool_decide (remaining !! marker = Some 2) in
      split_logs fuel (drop (marker + 3) remaining) stderr
        (mkLogs (logs_stdout logs) (logs_stderr logs) (logs_output logs) true)
  | _, _ => logs
  end.

(** A string member, or the empty string. *)
Definition str_member (key : string) (members : list (string * json)) : string :=
  match find (fun kv => bool_decide (fst kv = key)) members with
  | Some (_, JStr s) => s
  | _ => EmptyString
  end.

(** [parse_logs], over [serde_json::from_slice]. *)
Definition parse_logs (from_slice : bytes -> option json) (bs : bytes) : Logs :=
  let parsed := from_slice bs in
  match parsed with
  | Some (JObj members) =>
      mkLogs (str_member "stdout" members) (str_member "stderr" members) (str_member "output" members) true
  | _ =>
      let bs := match parsed with Some (JStr s) => Text.to_bytes s | _ => bs end in
      split_logs (length bs) bs false (mkLogs EmptyString EmptyString EmptyString false)
  end.

(** ** Waiting for the command *)

Definition STATUS_POLL : Z := 250.

Record WaitOutcome := mkWait { wait_code : option Z; wait_termination : Termination; final_logs : option Logs }.

(** The arms of the [select!]. *)
Inductive arm := Poll | DeadlineHit | StopRequested | SinkGone.

#[export] Instance arm_eq_dec : EqDecision arm.
Proof. solve_decision. Defined.

(** How a wait ends: with an outcome and its instant, with a poll's error, on a
    poll that is never answered, or not within its fuel. *)
Inductive wait_end := Waited (o : WaitOutcome) (at_ : Z) | PollFailed (e : Error) (at_ : Z) | Unanswered | Unfinished.

Section Wait.
(** How long the [n]th poll takes, and its answer; when the deadline passes, the
    caller's stop request resolves and the sink fails; what a log fetch answers;
    which of the ready arms the [n]th select takes. *)
Context (poll : nat -> option (Z * result (option Z) Error)).
Context (deadline : option Z) (stop : option (Z * StopLevel)) (sink_gone : option Z).
Context (logs : option Logs) (tie : nat -> nat).

Definition arms : list arm := [Poll; DeadlineHit; StopRequested; SinkGone].

Definition arm_at (now : Z) (a : arm) : option Z :=
  match a with
  | Poll => Some (now + STATUS_POLL)
  | DeadlineHit => Z.max now <$> deadline
  | StopRequested => (fun s => Z.max now (fst s)) <$> stop
  | SinkGone => Z.max now <$> sink_gone
  end.

(** The first instant at which an arm is ready; the poll's always comes. *)
Definition wakes_at (now : Z) : Z :=
  foldr (fun a t => match arm_at now a with Some x => Z.min x t | None => t end) (now + STATUS_POLL) arms.

Definition ready_arms (now : Z) : list arm :=
  List.filter (fun a => bool_decide (arm_at now a = Some (wakes_at now))) arms.

Definition taken (n : nat) (now : Z) : option arm := ready_arms now !! (tie n `mod` length (ready_arms now))%nat.

(** The loop, [n] polls in. *)
Fixpoint wait_loop (fuel n : nat) (now : Z) : wait_end :=
  match fuel with
  | O => Unfinished
  | S fuel =>
      let t := wakes_at now in
      match taken n now with
      | Some Poll =>
          match poll n with
          | None => Unanswered
          | Some (d, Err e) => PollFailed e (t + d)
          | Some (d, Ok (Some code)) => Waited (mkWait (Some code) Exited None) (t + d)
          | Some (d, Ok None) => wait_loop fuel (S n) (t + d)
          end
      | Some DeadlineHit => Waited (mkWait None TimedOut logs) t
      | Some StopRequested =>
          match stop with
          | Some (_, level) => Waited (mkWait None (level_termination level) logs) t
          | None => Unfinished
          end
      | Some SinkGone => Waited (mkWait None Cancelled logs) t
      | None => Unfinished
      end
  end.

Definition wait_for_completion (fuel : nat) (initial_exit_code : option Z) : wait_end :=
  match initial_exit_code with
  | Some code => Waited (mkWait (Some code) Exited None) 0
  | None => wait_loop fuel 0 0
  end.
End Wait.

(** ** The final logs against the stream *)

Definition MIN_DEDUP_BYTES : nat := Z.to_nat (64 * 1024).

#[global] Opaque MIN_DEDUP_BYTES.

Definition dedup_limit (retained_output_limit : option nat) : nat :=
  default 0%nat retained_output_limit `max` MIN_DEDUP_BYTES.

Definition dedup_capture (retained_output_limit : option nat) : OutputCaptureBuffer :=
  Capture.new (Some (dedup_limit retained_output_limit)).

Definition starts_with (bs prefix : bytes) : bool := bool_decide (prefix = take (length prefix) bs).

(** The loop from the longest overlap down. *)
Fixpoint overlap (n : nat) (seen final : bytes) : nat :=
  match n with
  | O => 0
  | S m => if bool_decide (drop (length seen - n) seen = take n final) then n else overlap m seen final
  end.

Definition plain_suffix_offset (seen final : bytes) : nat :=
  if starts_with final seen then length seen
  else if starts_with seen final then length final
  else overlap (length seen `min` length final) seen final.

Definition suffix_offset (b : OutputCaptureBuffer) (final : bytes) : nat :=
  let s := stats b in
  if (omitted_bytes s =? 0)%nat then plain_suffix_offset (to_bytes b) final
  else
    let n := observed_bytes s in
    let '(head, tail) := retained_slices b in
    if (n <=? length final)%nat && starts_with final head &&
       bool_decide (tail = drop (n - length tail) (take n final))
    then n
    else if (length final <=? n)%nat && starts_with final head then length final
    else overlap (length tail `min` length final) tail final.

Definition missing_suffix (b : OutputCaptureBuffer) (final : bytes) : bytes :=
  let offset := suffix_offset b final in
  if (length final <=? offset)%nat then [] else drop offset final.

(** ** The run's output *)

Record Side := mkSide { raw_seen : OutputCaptureBuffer; side_seen : OutputCaptureBuffer; sanitizer : OutputSanitizer }.

Record SessionOutput := mkOutput {
  side_out : Side;
  side_err : Side;
  saw_live : bool;
  to_sink : option Sink;
  sink_failed : bool;
}.

Definition output_new (policy : OutputSanitization) (controls : ExecControls) : SessionOutput :=
  let side := mkSide (dedup_capture (retained_output_limit controls))
                (Capture.new (retained_output_limit controls)) (Sanitize.new policy) in
  mkOutput side side false (sink controls) false.

(** [self.sides[stream as usize]]. *)
Definition side_of (o : SessionOutput) (stream : OutputStream) : Side :=
  match stream with Stdout => side_out o | Stderr => side_err o end.

Definition set_side (o : SessionOutput) (stream : OutputStream) (s : Side) : SessionOutput :=
  match stream with
  | Stdout => mkOutput s (side_err o) (saw_live o) (to_sink o) (sink_failed o)
  | Stderr => mkOutput (side_out o) s (saw_live o) (to_sink o) (sink_failed o)
  end.

(** Raw bytes through a side: remembered, sanitized, retained; and what the
    sanitizer let out. *)
Definition side_push (s : Side) (raw : bytes) : Side * bytes :=
  let raw_seen := Capture.push (raw_seen s) raw in
  let '(sanitizer, bs) := Sanitize.push (sanitizer s) raw in
  (mkSide raw_seen (Capture.push (side_seen s) bs) sanitizer, bs).

Definition set_saw_live (o : SessionOutput) : SessionOutput :=
  mkOutput (side_out o) (side_err o) true (to_sink o) (sink_failed o).

(** The sink's answer to a call; a failure cancels the token. *)
Definition send_to_sink (o : SessionOutput) (stream : OutputStream) (bs : bytes) : SessionOutput * bool :=
  match to_sink o with
  | None => (o, true)
  | Some k =>
      let '(k, answer) := call_sink k stream bs in
      let failed := bool_decide (is_Some answer) in
      (mkOutput (side_out o) (side_err o) (saw_live o) (Some k) (sink_failed o || failed), negb failed)
  end.

(** [SessionOutput::deliver]: false is the error that ends the stream. *)
Definition deliver (o : SessionOutput) (stream : OutputStream) (chunk : bytes) : SessionOutput * bool :=
  match chunk with
  | [] => (o, true)
  | _ =>
      let o := set_saw_live o in
      let '(s, bs) := side_push (side_of o stream) chunk in
      let o := set_side o stream s in
      match bs with [] => (o, true) | _ => send_to_sink o stream bs end
  end.

Definition emit (o : SessionOutput) (stream : OutputStream) (bs : bytes) : SessionOutput :=
  match bs with
  | [] => o
  | _ => if sink_failed o then o else fst (send_to_sink o stream bs)
  end.

Definition append_stream (o : SessionOutput) (stream : OutputStream) (final : bytes) : SessionOutput :=
  let side := side_of o stream in
  let '(s, bs) := side_push side (missing_suffix (raw_seen side) final) in
  emit (set_side o stream s) stream bs.

Definition append_final_logs (o : SessionOutput) (logs : Logs) : SessionOutput :=
  append_stream (append_stream o Stdout (Text.to_bytes (logs_stdout logs))) Stderr (Text.to_bytes (logs_stderr logs)).

Definition flush_side (o : SessionOutput) (stream : OutputStream) : SessionOutput :=
  let side := side_of o stream in
  let '(sanitizer, bs) := Sanitize.finish (sanitizer side) in
  emit (set_side o stream (mkSide (raw_seen side) (Capture.push (side_seen side) bs) sanitizer)) stream bs.

(** [SessionOutput::finish]: the two captures are then taken out of it. *)
Definition finish (o : SessionOutput) : SessionOutput * (OutputCaptureBuffer * OutputCaptureBuffer) :=
  let o := flush_side (flush_side o Stdout) Stderr in
  (o, (side_seen (side_out o), side_seen (side_err o))).

(** The stream task: its chunks delivered in turn, until one fails; and whether
    none did. *)
Fixpoint follow (o : SessionOutput) (chunks : list (OutputStream * bytes)) : SessionOutput * bool :=
  match chunks with
  | [] => (o, true)
  | (stream, chunk) :: chunks =>
      match deliver o stream chunk with
      | (o, true) => follow o chunks
      | (o, false) => (o, false)
      end
  end.

(** ** One run *)

(** What a run does to the sandbox, and to the tasks it owns. *)
Inductive Effect :=
  | UploadFile (path : string)
  | CreateSession
  | Execute (program : string)
  | FollowLogs
  | PumpInput
  | StopInput
  | StopStream
  | DrainStream
  | FetchLogs
  | DeleteSession
  | DeleteFile (path : string).

#[export] Instance Effect_eq_dec : EqDecision Effect.
Proof. solve_decision. Defined.

(** [SessionRun]: whether its session is open, the stdin file it holds, and what
    it has done. *)
Record SessionRun := mkRun {
  session_open : bool;
  stdin_file : option string;
  done_ : list Effect;
}.

Definition did (r : SessionRun) (l : list Effect) : SessionRun :=
  mkRun (session_open r) (stdin_file r) (done_ r ++ l).

(** What a wait meets: the polls' latencies and answers, the instants of a stop
    request and of the sink's failure, the scheduler's choices, the instant and
    error of input that cannot be delivered, and whether that wins a tie. *)
Record Waiting := mkWaiting {
  polls : nat -> option (Z * result (option Z) Error);
  stop_at : option (Z * StopLevel);
  sink_gone_at : option Z;
  choices : nat -> nat;
  input_failure : option (Z * Error);
  input_first : bool;
}.

(** What the toolbox answers a run, and what its command does. *)
Record World := mkWorld {
  sandbox : result unit Error;
  stdin_path : string;
  upload : bytes -> result unit Error;
  create : result unit Error;
  execute : string -> result (option Z) Error;
  stream_process : result unit Error;
  input_process : result unit Error;
  waiting : Waiting;
  chunks : list (OutputStream * bytes);
  ends_cleanly : bool;
  fetched : option Logs;
  deleted : bool;
}.

Definition DEFAULT_BUFFER_BYTES : Z := 16 * 1024 * 1024.

Record Settled := mkSettled {
  outcome : WaitOutcome;
  stream_clean : bool;
  settled_logs : option Logs;
  output : SessionOutput;
}.

Section Run.
Context (w : World).

(** [StdinFile::create]. *)
Definition create_file (r : SessionRun) (bs : bytes) : SessionRun * result unit Error :=
  if DEFAULT_BUFFER_BYTES <? Z.of_nat (length bs)
  then (r, Err (LimitExceededE "buffered_value_bytes" DEFAULT_BUFFER_BYTES))
  else
    match upload w bs with
    | Err e => (r, Err e)
    | Ok _ => (did (mkRun (session_open r) (Some (stdin_path w)) (done_ r)) [UploadFile (stdin_path w)], Ok tt)
    end.

Definition close_stdin (r : SessionRun) : SessionRun :=
  match stdin_file r with
  | Some path => did (mkRun (session_open r) None (done_ r)) [DeleteFile path]
  | None => r
  end.

(** [Session::close]: whether the session is known to be gone. *)
Definition close (r : SessionRun) : SessionRun * bool :=
  if session_open r
  then (did (mkRun false (stdin_file r) (done_ r)) [DeleteSession], deleted w)
  else (r, true).

Definition fetch_logs (r : SessionRun) : SessionRun * option Logs :=
  if session_open r then (did r [FetchLogs], fetched w) else (r, None).

Definition abort (r : SessionRun) : SessionRun :=
  close_stdin (fst (close (did r [StopInput; StopStream]))).

(** [Session::start_command], into the run's record. *)
Definition start_command (r : SessionRun) (cwd command : string) : SessionRun * result (option Z) Error :=
  let program := wrap_session_script (build_session_script cwd command) in
  match create w with
  | Err e => (r, Err e)
  | Ok _ =>
      let r := did (mkRun true (stdin_file r) (done_ r)) [CreateSession; Execute program] in
      match execute w program with
      | Ok code => (r, Ok code)
      | Err e => (fst (close r), Err e)
      end
  end.

Definition decoded_command (DECODE_INPUT command : string) : string :=
  DECODE_INPUT +:+ command +:+ " < <(sandbox_driver_decode <&5) 5<&-".

(** [SessionRun::start], with the code of a command that completed at once. *)
Definition start (DECODE_INPUT cwd : string) (spec : ExecSpec) (controls : ExecControls)
    : SessionRun * result (option Z) Error :=
  let r := mkRun false None [] in
  match sandbox w with
  | Err e => (r, Err e)
  | Ok _ =>
      let streamed := stdin controls in
      match (if streamed then (r, Ok tt) else match spec_stdin spec with Some bs => create_file r bs | None => (r, Ok tt) end) with
      | (r, Err e) => (r, Err e)
      | (r, Ok _) =>
          let command := exec_line (spec_launch_env spec) (program spec) (args spec) in
          let command :=
            if streamed then decoded_command DECODE_INPUT command
            else match stdin_file r with Some path => command +:+ " < " +:+ shell_quote path | None => command end in
          match start_command r cwd command with
          | (r, Err e) => (close_stdin r, Err e)
          | (r, Ok code) =>
              match stream_process w with
              | Err e => (abort r, Err e)
              | Ok _ =>
                  let r := did r [FollowLogs] in
                  if streamed then
                    match input_process w with
                    | Err e => (abort r, Err e)
                    | Ok _ => (did r [PumpInput], Ok code)
                    end
                  else (r, Ok code)
              end
          end
      end
  end.

(** [SessionRun::wait]: none when nothing ends it. *)
Definition wait (fuel : nat) (deadline : option Z) (initial_exit_code : option Z)
    : option (result WaitOutcome Error) :=
  let x := waiting w in
  let unless t (answer : result WaitOutcome Error) :=
    match input_failure x with
    | Some (u, e) => if (u <? t) || ((u =? t) && input_first x) then Err e else answer
    | None => answer
    end in
  match wait_for_completion (polls x) deadline (stop_at x) (sink_gone_at x) (fetched w) (choices x) fuel initial_exit_code with
  | Waited o t => Some (unless t (Ok o))
  | PollFailed e t => Some (unless t (Err e))
  | Unanswered => (fun f => Err (snd f)) <$> input_failure x
  | Unfinished => None
  end.

(** [SessionRun::settle], for what the stream task left. *)
Definition settle (r : SessionRun) (o : WaitOutcome) (followed : SessionOutput * bool)
    : SessionRun * result Settled Error :=
  let r := did r [StopInput] in
  let '(r, gone) := if bool_decide (wait_termination o = Exited) then (r, true) else close r in
  if negb gone then (abort r, Err (Incomplete (incomplete_new "Daytona session termination")))
  else
    let r := did r [DrainStream] in
    let clean := snd followed && ends_cleanly w in
    let '(r, logs) :=
      match final_logs o with
      | Some logs => (r, Some logs)
      | None => if negb clean then fetch_logs r else (r, None)
      end in
    let '(r, confirmed) := close r in
    let r := close_stdin r in
    if negb confirmed then
      (r, Err (Incomplete (mkIncomplete "Daytona session cleanup" (negb clean)
                             false (bool_decide (wait_termination o = Exited)) false)))
    else (r, Ok (mkSettled o clean logs (fst followed))).

(** [Settled::into_result]; the output is what the sink was given. *)
Definition into_result (s : Settled) (elapsed : Z) : SessionOutput * ExecStreamingResult :=
  let out := match settled_logs s with Some logs => append_final_logs (output s) logs | None => output s end in
  let logs_separated := match settled_logs s with Some logs => separated logs | None => false end in
  let '(out, (o, e)) := finish out in
  let '(o, ostats) := into_parts o in
  let '(e, estats) := into_parts e in
  let termination := if sink_failed out then Cancelled else wait_termination (outcome s) in
  let code := if bool_decide (termination = Exited) then wait_code (outcome s) else None in
  let r := from_shell_status termination code elapsed in
  let cut := (negb (stream_clean s) && bool_decide (settled_logs s = None)) || sink_failed out in
  let stats c := mkStats (observed_bytes c) (retained_bytes c) (omitted_bytes c) (Capture.truncated c || cut) in
  (out,
   mkStreaming (mkResult o e (exit_code r) (res_signal r) (res_termination r) (duration r))
     (stream_clean s || logs_separated) (stream_clean s || saw_live out) (stats ostats) (stats estats) no_loss).

(** [DaytonaTransport::run_session]: what was done, and the result with what the
    sink was given; no result when the wait has none. A wait that stops the
    command has fetched the logs. *)
Definition run_session (DECODE_INPUT cwd : string) (fuel : nat) (elapsed : Z) (spec : ExecSpec)
    (controls : ExecControls) : SessionRun * option (result (SessionOutput * ExecStreamingResult) Error) :=
  match start DECODE_INPUT cwd spec controls with
  | (r, Err e) => (r, Some (Err e))
  | (r, Ok initial_exit_code) =>
      match wait fuel (timeout spec) initial_exit_code with
      | None => (r, None)
      | Some (Err e) => (abort r, Some (Err e))
      | Some (Ok o) =>
          let r := if bool_decide (wait_termination o = Exited) then r else did r [FetchLogs] in
          match settle r o (follow (output_new (output_sanitization spec) controls) (chunks w)) with
          | (r, Err e) => (r, Some (Err e))
          | (r, Ok s) => (r, Some (Ok (into_result s elapsed)))
          end
      end
  end.
End Run.

(** ** The wait ends, for a reason *)

Lemma foldr_first {A} (f : A -> option Z) t0 l :
  let t := foldr (fun a t => match f a with Some x => Z.min x t | None => t end) t0 l in
  (t = t0 \/ exists a, In a l /\ f a = Some t) /\ t <= t0 /\ forall a x, In a l -> f a = Some x -> t <= x.
Proof.
  induction l as [|a l (IH & Hle & Hmin)]; cbn; [split_and!; auto; lia|].
  set (t := foldr _ t0 l) in *. destruct (f a) as [x|] eqn:E.
  - split_and!; [|lia|intros b y [<-|Hb] Hy; [congruence || (rewrite E in Hy; injection Hy as <-; lia)|specialize (Hmin b y Hb Hy); lia]].
    destruct (Z.min_spec x t) as [[_ ->]|[_ ->]]; [right; exists a; auto|].
    destruct IH as [->|(b & Hb & Hfb)]; [by left|right; exists b; auto].
  - split_and!; [|lia|intros b y [<-|Hb] Hy; [congruence|eauto]].
    destruct IH as [->|(b & Hb & Hfb)]; [by left|right; exists b; auto].
Qed.

#[local] Arguments wakes_at : simpl never.

Section WaitSpec.
Context (poll : nat -> option (Z * result (option Z) Error)).
Context (deadline : option Z) (stop : option (Z * StopLevel)) (sink_gone : option Z).
Context (logs : option Logs) (tie : nat -> nat).

#[local] Notation ready_from := (arm_at deadline stop sink_gone).
#[local] Notation wakes := (wakes_at deadline stop sink_gone).
#[local] Notation takes := (taken deadline stop sink_gone tie).
#[local] Notation loop := (wait_loop poll deadline stop sink_gone logs tie).

Lemma wakes_first now :
  (exists a, In a arms /\ ready_from now a = Some (wakes now)) /\
  forall a x, ready_from now a = Some x -> wakes now <= x.
Proof.
  destruct (foldr_first (ready_from now) (now + STATUS_POLL) arms) as (H & _ & Hmin).
  change (foldr _ (now + STATUS_POLL) arms) with (wakes now) in H.
  change (forall a x, In a arms -> ready_from now a = Some x -> wakes now <= x) in Hmin. split.
  - destruct H as [H|H]; [|done]. exists Poll. split; [cbn; auto|]. by rewrite H.
  - intros a x. apply Hmin. destruct a; cbn; auto.
Qed.

(** The select always takes an arm, one that is ready first. *)
Lemma taken_some n now : exists a, takes n now = Some a /\ ready_from now a = Some (wakes now).
Proof.
  destruct (wakes_first now) as [(a & Ha & Hready) _]. unfold taken.
  set (l := ready_arms _ _ _ _).
  assert (In a l) as Hin by (subst l; unfold ready_arms; apply List.filter_In; split; [done|by apply bool_decide_eq_true]).
  destruct (l !! (tie n `mod` length l)%nat) as [b|] eqn:E.
  - exists b. split; [done|]. apply list_elem_of_lookup_2, list_elem_of_In in E. subst l. unfold ready_arms in E.
    by apply List.filter_In in E as [_ E%bool_decide_eq_true].
  - apply lookup_ge_None in E. destruct l as [|x l]; [done|].
    pose proof (Nat.mod_upper_bound (tie n) (length (x :: l)) ltac:(done)). lia.
Qed.

Lemma ready_from_some now a t : ready_from now a = Some t ->
  match a with
  | Poll => t = now + STATUS_POLL
  | DeadlineHit => exists d, deadline = Some d /\ t = Z.max now d
  | StopRequested => exists s level, stop = Some (s, level) /\ t = Z.max now s
  | SinkGone => exists s, sink_gone = Some s /\ t = Z.max now s
  end.
Proof.
  destruct a; cbn; [by intros [= <-]|..].
  - destruct deadline; [|done]. cbn. intros [= <-]. eauto.
  - destruct stop as [[]|]; [|done]. cbn. intros [= <-]. eauto.
  - destruct sink_gone; [|done]. cbn. intros [= <-]. eauto.
Qed.

(** Why a wait ended as it did. *)
Definition wait_reason (o : WaitOutcome) (t : Z) : Prop :=
  match wait_termination o with
  | Exited => final_logs o = None /\ exists n d code, wait_code o = Some code /\ poll n = Some (d, Ok (Some code))
  | TimedOut => wait_code o = None /\ final_logs o = logs /\ exists d, deadline = Some d /\ d <= t
  | Cancelled => wait_code o = None /\ final_logs o = logs /\
      ((exists s, stop = Some (s, Term) /\ s <= t) \/ exists s, sink_gone = Some s /\ s <= t)
  | Killed => wait_code o = None /\ final_logs o = logs /\ exists s, stop = Some (s, Kill) /\ s <= t
  | Unknown => False
  end.

Definition ends_for_reason (e : wait_end) : Prop :=
  match e with
  | Waited o t => wait_reason o t
  | PollFailed err _ => exists n d, poll n = Some (d, Err err)
  | Unanswered => exists n, poll n = None
  | Unfinished => True
  end.

Lemma wait_loop_reason fuel n now : ends_for_reason (loop fuel n now).
Proof.
  revert n now. induction fuel as [|fuel IH]; intros n now; [done|]. 
  cbn [wait_loop]. cbv zeta.
  destruct (taken_some n now) as (a & Ht & Ha). rewrite Ht.
  apply ready_from_some in Ha. set (t := wakes now) in *. clearbody t. destruct a.
  - destruct (poll n) as [[d [[code|]|e]]|] eqn:E; cbn.
    + split; [done|]. by exists n, d, code.
    + apply IH.
    + by exists n, d.
    + by exists n.
  - destruct Ha as (d & Hd & Ha). cbn. split_and!; try done. exists d. split; [done|lia].
  - destruct Ha as (s & level & Hs & Ha). rewrite Hs.
    destruct level; cbn; split_and!; try done; [left|]; exists s; (split; [done|lia]).
  - destruct Ha as (s & Hs & Ha). cbn. split_and!; try done. right. exists s. split; [done|lia].
Qed.

(** When something ends the wait. *)
Definition ends_at (x : Z) : Prop :=
  deadline = Some x \/ (exists level, stop = Some (x, level)) \/ sink_gone = Some x.

Lemma wakes_by x now : ends_at x -> wakes now <= Z.max now x.
Proof.
  destruct (wakes_first now) as [_ Hmin]. intros [H|[[level H]|H]].
  - apply (Hmin DeadlineHit). cbn. by rewrite H.
  - apply (Hmin StopRequested). cbn. by rewrite H.
  - apply (Hmin SinkGone). cbn. by rewrite H.
Qed.

(** A poll is takes only while nothing has ended the wait. *)
Lemma polls_before x n now : ends_at x -> takes n now = Some Poll -> now + STATUS_POLL <= x.
Proof.
  intros Hx Ht. pose proof (wakes_by x now Hx). destruct (taken_some n now) as (a & Ht' & Ha).
  rewrite Ht in Ht'. injection Ht' as <-. cbn in Ha. injection Ha as Ha. unfold STATUS_POLL in *. lia.
Qed.

Context (x slow : Z).

Definition ended_by (e : wait_end) : Prop :=
  match e with
  | Waited _ t | PollFailed _ t => t <= x + slow
  | Unanswered | Unfinished => False
  end.

Lemma wait_loop_bounded fuel n now : ends_at x ->
  (forall n, exists d answer, poll n = Some (d, answer) /\ 0 <= d <= slow) ->
  now <= x + slow -> 0 <= slow -> (Z.to_nat (x - now) / 250 < fuel)%nat ->
  ended_by (loop fuel n now).
Proof.
  intros Hx Hpoll. revert n now. induction fuel as [|fuel IH]; intros n now Hnow Hslow Hf; [lia|].
  cbn [wait_loop]. cbv zeta.
  destruct (taken_some n now) as (a & Ht & Ha). rewrite Ht.
  pose proof (wakes_by x now Hx) as Hwake.
  apply ready_from_some in Ha. set (t := wakes now) in *. clearbody t. destruct a.
  - pose proof (polls_before x n now Hx Ht) as Hbefore. unfold STATUS_POLL in *.
    destruct (Hpoll n) as (d & answer & -> & Hd).
    destruct answer as [[code|]|e]; cbn; [lia| |lia]. apply IH; [lia|lia|].
    assert (Z.to_nat (x - now) = (1 * 250 + Z.to_nat (x - now - 250)))%nat as E by lia.
    rewrite E, Nat.div_add_l in Hf by done.
    assert (Z.to_nat (x - (t + d)) / 250 <= Z.to_nat (x - now - 250) / 250)%nat by (apply Nat.Div0.div_le_mono; lia). lia.
  - cbn. lia.
  - destruct Ha as (s & level & -> & _). cbn. lia.
  - cbn. lia.
Qed.
End WaitSpec.

(** ** Merging the stream with the final logs *)

(** The logs go on from the stream, or the stream from the logs; in the second
    case the window kept of the stream still covers the logs' end. *)
Definition consistent (m : nat) (seen final : bytes) : Prop :=
  seen `prefix_of` final \/
  (final `prefix_of` seen /\ ((length seen <= m)%nat \/ (m / 2 <= length final)%nat)).

Lemma session_starts_with_spec bs prefix : starts_with bs prefix = true <-> prefix `prefix_of` bs.
Proof.
  unfold starts_with. rewrite bool_decide_eq_true. split.
  - intros ->. apply prefix_take.
  - intros [more ->]. by rewrite take_app_length.
Qed.

Lemma starts_with_app bs more : starts_with (bs ++ more) bs = true.
Proof. apply session_starts_with_spec. by exists more. Qed.

Lemma missing_suffix_drop m seen final : consistent m seen final ->
  missing_suffix (having_seen m seen) final = drop (length seen) final.
Proof.
  intros Hc. unfold missing_suffix.
  assert (Hoff : forall n, (length seen <= length final /\ n = length seen \/ length final <= length seen /\ n = length final)%nat ->
    (if (length final <=? n)%nat then [] else drop n final) = drop (length seen) final).
  { intros n [[H ->]|[H ->]].
    - destruct (Nat.leb_spec (length final) (length seen)); [by rewrite drop_ge by lia|done].
    - rewrite Nat.leb_refl. by rewrite drop_ge by lia. }
  apply Hoff. clear Hoff. unfold suffix_offset. rewrite stats_having_seen. cbn [omitted_bytes observed_bytes].
  pose proof (half_le m) as Hh. destruct (Nat.eqb_spec (length seen - m) 0) as [Hm|Hm].
  - assert (Capture.to_bytes (having_seen m seen) = seen) as ->.
    { transitivity (head_tail m seen); [done|]. apply head_tail_all. lia. }
    unfold plain_suffix_offset. destruct Hc as [[more ->]|[[more ->] _]].
    + rewrite starts_with_app, length_app. lia.
    + destruct (starts_with final (final ++ more)) eqn:E.
      * apply session_starts_with_spec, prefix_length in E. rewrite length_app in *. lia.
      * rewrite starts_with_app, length_app. lia.
  - cbn [retained_slices having_seen head tail]. unfold newest. rewrite !length_drop, drop_drop.
    replace (m / 2 + (length seen - m / 2 - (m - m / 2)))%nat with (length seen - (m - m / 2))%nat by lia.
    replace (length seen - (length seen - (length seen - (m - m / 2))))%nat with (length seen - (m - m / 2))%nat by lia.
    destruct Hc as [[more ->]|[[more ->] Hc]].
    + assert (starts_with (seen ++ more) (take (m / 2) seen) = true) as ->.
      { apply session_starts_with_spec. apply prefix_app_r, prefix_take. }
      rewrite take_app_length.
      rewrite bool_decide_true by (f_equal; lia). rewrite length_app.
      destruct (Nat.leb_spec (length seen) (length seen + length more)); [|lia]. cbn. lia.
    + rewrite length_app in *. destruct Hc as [Hc|Hc]; [lia|].
      assert (starts_with final (take (m / 2) (final ++ more)) = true) as ->.
      { apply session_starts_with_spec. rewrite take_app_le by lia. apply prefix_take. }
      rewrite !andb_true_r.
      assert (length final <=? length final + length more = true)%nat as -> by (apply Nat.leb_le; lia).
      destruct (_ && _) eqn:E; [|lia].
      apply andb_true_iff in E as [E%Nat.leb_le _]. lia.
Qed.

(** A snapshot shorter than the window's head, of a stream that outran the
    window, is not recognised: its bytes are appended again. *)
Lemma short_snapshot_repeated m k a b : a <> b -> (2 <= m / 2)%nat -> (m < k)%nat ->
  missing_suffix (having_seen m (a :: replicate k b)) [a] = [a].
Proof.
  intros Hab Hm Hk. pose proof (half_le m) as Hle. pose proof (Nat.div_lt m 2 ltac:(lia) ltac:(lia)) as Hh. unfold missing_suffix, suffix_offset.
  rewrite stats_having_seen. cbn [omitted_bytes observed_bytes retained_slices having_seen head tail length].
  rewrite length_replicate. destruct (Nat.eqb_spec (S k - m) 0); [lia|].
  assert (starts_with [a] (take (m / 2) (a :: replicate k b)) = false) as ->.
  { apply not_true_iff_false. intros H%session_starts_with_spec%prefix_length. cbn [length] in H.
    rewrite length_take in H. cbn [length] in H. rewrite length_replicate in H. lia. }
  rewrite andb_false_r, andb_false_r. cbn [andb].
  assert (newest (m - m / 2) (drop (m / 2) (a :: replicate k b)) = replicate (S (m - m / 2 - 1)) b) as ->.
  { unfold newest. rewrite !length_drop, drop_drop. cbn [length]. rewrite length_replicate.
    replace (m / 2 + (S k - m / 2 - (m - m / 2)))%nat with (S (k - (m - m / 2)))%nat by lia.
    cbn [drop]. rewrite drop_replicate. f_equal. lia. }
  rewrite length_replicate, Nat.min_r by lia. cbn [overlap]. rewrite length_replicate, drop_replicate.
  replace (S (m - m / 2 - 1) - 1)%nat with (m - m / 2 - 1)%nat by lia.
  replace (S (m - m / 2 - 1) - (m - m / 2 - 1))%nat with 1%nat by lia.
  cbn. rewrite bool_decide_false by congruence. done.
Qed.

(** The longer of two logs. *)
Definition longer (seen final : bytes) : bytes := seen ++ drop (length seen) final.

Lemma longer_spec m seen final : consistent m seen final ->
  seen `prefix_of` longer seen final /\ final `prefix_of` longer seen final /\
  (longer seen final = seen \/ longer seen final = final).
Proof.
  unfold longer. intros [[more ->]|[[more ->] _]].
  - rewrite drop_app_length. split_and!; [by exists more|done|by right].
  - rewrite drop_ge by (rewrite length_app; lia). rewrite app_nil_r. split_and!; [done|by exists more|by left].
Qed.

(** ** What the run's output holds *)

#[local] Open Scope list_scope.

Section Held.
Context (p : OutputSanitization) (m n : nat).

(** The side that has taken in exactly [raw]. *)
Definition side_at (raw : bytes) : Side :=
  mkSide (having_seen m raw) (having_seen n (emitted p raw)) (fst (Sanitize.push (Sanitize.new p) raw)).

(** The sink has been given [a] and [b] and refuses nothing. *)
Definition sink_at (k : option Sink) (a b : bytes) : Prop :=
  match k with
  | Some k => Forall (eq None) (answers k) /\ given k Stdout = a /\ given k Stderr = b
  | None => True
  end.

Definition output_at (o : SessionOutput) (a b : bytes) : Prop :=
  side_out o = side_at a /\ side_err o = side_at b /\ sink_failed o = false /\
  sink_at (to_sink o) (emitted p a) (emitted p b).

Lemma side_push_at raw more :
  side_push (side_at raw) more =
  (side_at (raw ++ more), snd (Sanitize.push (fst (Sanitize.push (Sanitize.new p) raw)) more)).
Proof.
  unfold side_push, side_at, emitted. cbn [raw_seen side_seen sanitizer].
  rewrite push_having_seen, Sanitize.push_app.
  destruct (Sanitize.push (fst _) more) as [s bs]. cbn [fst snd]. by rewrite push_having_seen.
Qed.

Lemma emitted_more raw more :
  emitted p (raw ++ more) = emitted p raw ++ snd (Sanitize.push (fst (Sanitize.push (Sanitize.new p) raw)) more).
Proof. unfold emitted. by rewrite Sanitize.push_app. Qed.

(** A sink that refuses nothing takes what it is given. *)
Lemma send_accepts o stream bs a b : sink_at (to_sink o) a b ->
  exists k, send_to_sink o stream bs = (mkOutput (side_out o) (side_err o) (saw_live o) k (sink_failed o), true) /\
    sink_at k (a ++ added Stdout stream bs) (b ++ added Stderr stream bs) /\ (k = None <-> to_sink o = None).
Proof.
  unfold send_to_sink. destruct o as [so se live [k|] failed]; cbn [to_sink sink_at].
  - intros (Ha & <- & <-). cbn [call_sink]. assert (Hans : match answers k with a :: _ => a | [] => None end = None) by (by destruct Ha).
    rewrite Hans, bool_decide_false by (intros [? ?]; done). cbn [orb negb side_out side_err saw_live sink_failed].
    eexists. split; [by rewrite orb_false_r|]. split; [|done]. cbn [sink_at answers]. rewrite !given_snoc. split_and!; try done.
    by apply (Forall_drop _ 1).
  - intros _. exists None. by split_and!.
Qed.

Lemma added_nil st stream : added st stream [] = [].
Proof. unfold added. by case_decide. Qed.

Lemma emit_accepts o stream bs a b : sink_failed o = false -> sink_at (to_sink o) a b ->
  exists k, emit o stream bs = mkOutput (side_out o) (side_err o) (saw_live o) k false /\
    sink_at k (a ++ added Stdout stream bs) (b ++ added Stderr stream bs) /\ (k = None <-> to_sink o = None).
Proof.
  intros Hf Hs. unfold emit. destruct bs as [|x bs].
  - rewrite !added_nil, !app_nil_r. exists (to_sink o). by destruct o; cbn in *; subst.
  - rewrite Hf. destruct (send_accepts o stream (x :: bs) a b Hs) as (k & -> & Hk). exists k. by rewrite Hf.
Qed.

(** Raw bytes taken in on one stream. *)
Definition taken_in (st stream : OutputStream) (raw more : bytes) : bytes := raw ++ added st stream more.

Lemma taken_emitted st stream raw more :
  emitted p (taken_in st stream raw more) =
  emitted p raw ++ added st stream (snd (Sanitize.push (fst (Sanitize.push (Sanitize.new p) raw)) more)).
Proof.
  unfold taken_in, added. case_decide; [apply emitted_more|by rewrite !app_nil_r].
Qed.

Lemma deliver_at o stream chunk a b : output_at o a b ->
  exists o', deliver o stream chunk = (o', true) /\
    output_at o' (taken_in Stdout stream a chunk) (taken_in Stderr stream b chunk) /\
    (to_sink o' = None <-> to_sink o = None) /\
    saw_live o' = saw_live o || negb (bool_decide (chunk = [])).
Proof.
  intros (Ho & He & Hf & Hs). unfold deliver. destruct chunk as [|c chunk].
  { exists o. unfold taken_in. rewrite !added_nil, !app_nil_r. cbn. rewrite orb_false_r. by split_and!. }
  set (raw := c :: chunk).
  assert (side_of (set_saw_live o) stream = side_at (match stream with Stdout => a | Stderr => b end)) as ->
    by (by destruct stream).
  rewrite side_push_at. set (bs := snd (Sanitize.push _ raw)).
  set (o1 := set_side _ _ _).
  assert (H1 : side_out o1 = side_at (taken_in Stdout stream a raw) /\ side_err o1 = side_at (taken_in Stderr stream b raw) /\
    sink_failed o1 = false /\ to_sink o1 = to_sink o /\ saw_live o1 = true).
  { subst o1. unfold taken_in, added. destruct stream; cbn; rewrite ?Ho, ?He, ?app_nil_r; by split_and!. }
  clearbody o1. destruct H1 as (Ho1 & He1 & Hf1 & Hk1 & Hl1).
  assert (Hs1 : sink_at (to_sink o1) (emitted p a) (emitted p b)) by (by rewrite Hk1).
  assert (Ha : emitted p (taken_in Stdout stream a raw) = emitted p a ++ added Stdout stream bs).
  { rewrite taken_emitted. subst bs. by destruct stream. }
  assert (Hb : emitted p (taken_in Stderr stream b raw) = emitted p b ++ added Stderr stream bs).
  { rewrite taken_emitted. subst bs. by destruct stream. }
  rewrite (bool_decide_false (raw = [])) by done. rewrite orb_true_r.
  destruct (send_accepts o1 stream bs _ _ Hs1) as (k & Hsend & Hk & Hnone).
  destruct bs as [|x bs].
  - exists o1. rewrite !added_nil, !app_nil_r in *. unfold output_at. rewrite Ha, Hb. by split_and!; rewrite ?Hk1.
  - rewrite Hsend. eexists. split; [done|]. unfold output_at. cbn. rewrite Ha, Hb, Hf1, Hl1.
    rewrite Hk1 in Hnone. by split_and!.
Qed.

Lemma append_at o stream final a b : output_at o a b ->
  consistent m (match stream with Stdout => a | Stderr => b end) final ->
  let more := drop (length (match stream with Stdout => a | Stderr => b end)) final in
  output_at (append_stream o stream final) (taken_in Stdout stream a more) (taken_in Stderr stream b more) /\
  (to_sink (append_stream o stream final) = None <-> to_sink o = None) /\
  saw_live (append_stream o stream final) = saw_live o.
Proof.
  intros (Ho & He & Hf & Hs) Hc more. unfold append_stream.
  assert (side_of o stream = side_at (match stream with Stdout => a | Stderr => b end)) as -> by (by destruct stream).
  cbn [raw_seen side_at]. rewrite missing_suffix_drop by done. fold more. rewrite side_push_at.
  set (bs := snd (Sanitize.push _ more)). set (o1 := set_side _ _ _).
  assert (H1 : side_out o1 = side_at (taken_in Stdout stream a more) /\ side_err o1 = side_at (taken_in Stderr stream b more) /\
    sink_failed o1 = false /\ to_sink o1 = to_sink o /\ saw_live o1 = saw_live o).
  { subst o1. unfold taken_in, added. destruct stream; cbn; rewrite ?Ho, ?He, ?app_nil_r; by split_and!. }
  clearbody o1. destruct H1 as (Ho1 & He1 & Hf1 & Hk1 & Hl1).
  assert (Hs1 : sink_at (to_sink o1) (emitted p a) (emitted p b)) by (by rewrite Hk1).
  destruct (emit_accepts o1 stream bs _ _ Hf1 Hs1) as (k & -> & Hk & Hnone).
  unfold output_at. cbn. rewrite !taken_emitted, Ho1, He1, Hl1. rewrite Hk1 in Hnone. subst bs.
  destruct stream; by split_and!.
Qed.

Lemma sanitize_rest raw :
  sanitize p raw = emitted p raw ++ snd (Sanitize.finish (fst (Sanitize.push (Sanitize.new p) raw))).
Proof. unfold sanitize, emitted. by destruct (Sanitize.push _ _). Qed.

Lemma flush_accepts o stream raw a b :
  side_of o stream = side_at raw -> sink_failed o = false -> sink_at (to_sink o) a b ->
  let bs := snd (Sanitize.finish (fst (Sanitize.push (Sanitize.new p) raw))) in
  exists k s, flush_side o stream =
      set_side (mkOutput (side_out o) (side_err o) (saw_live o) k false) stream
        (mkSide (having_seen m raw) (having_seen n (sanitize p raw)) s) /\
    sink_at k (a ++ added Stdout stream bs) (b ++ added Stderr stream bs) /\ (k = None <-> to_sink o = None).
Proof.
  intros Ho Hf Hs bs. unfold flush_side. rewrite Ho, sanitize_rest. cbn [sanitizer side_at side_seen raw_seen].
  subst bs. destruct (Sanitize.finish _) as [s bs]. rewrite push_having_seen. cbn [snd].
  set (o1 := set_side _ _ _).
  assert (H1 : sink_failed o1 = false /\ to_sink o1 = to_sink o) by (by destruct stream). destruct H1 as [Hf1 Hk1].
  rewrite <- Hk1 in Hs. destruct (emit_accepts o1 stream bs a b Hf1 Hs) as (k & -> & Hk & Hnone).
  rewrite Hk1 in Hnone. exists k, s. split; [|done]. subst o1. by destruct stream.
Qed.

Lemma finish_at o a b : output_at o a b ->
  exists o', finish o = (o', (having_seen n (sanitize p a), having_seen n (sanitize p b))) /\
    sink_at (to_sink o') (sanitize p a) (sanitize p b) /\ (to_sink o' = None <-> to_sink o = None) /\
    sink_failed o' = false /\ saw_live o' = saw_live o.
Proof.
  intros (Ho & He & Hf & Hs). unfold finish.
  destruct (flush_accepts o Stdout a _ _ Ho Hf Hs) as (k & s & -> & Hk & Hnone).
  set (o1 := set_side _ _ _).
  destruct (flush_accepts o1 Stderr b _ _ He eq_refl Hk) as (k' & s' & -> & Hk' & Hnone').
  eexists. split; [reflexivity|]. cbn [set_side to_sink sink_failed saw_live].
  unfold added in Hk'. repeat case_decide; try done. rewrite !app_nil_r, <- !sanitize_rest in Hk'.
  split_and!; try done. by rewrite Hnone'.
Qed.
End Held.

(** What a stream's chunks carry of one side. *)
Definition streamed (st : OutputStream) (cs : list (OutputStream * bytes)) : bytes :=
  concat (map snd (filter (fun c => fst c = st) cs)).

Lemma streamed_cons st stream chunk cs :
  streamed st ((stream, chunk) :: cs) = added st stream chunk ++ streamed st cs.
Proof.
  unfold streamed, added. rewrite filter_cons. cbn [fst].
  destruct (decide (stream = st)) as [->|Hne]; by repeat case_decide.
Qed.

Lemma follow_at p m n cs o a b : output_at p m n o a b ->
  exists o', follow o cs = (o', true) /\
    output_at p m n o' (a ++ streamed Stdout cs) (b ++ streamed Stderr cs) /\
    (to_sink o' = None <-> to_sink o = None) /\
    saw_live o' = saw_live o || existsb (fun c => negb (bool_decide (snd c = []))) cs.
Proof.
  revert o a b. induction cs as [|[stream chunk] cs IH]; intros o a b Ho; cbn [follow existsb].
  { exists o. unfold streamed. cbn. rewrite !app_nil_r, orb_false_r. by split_and!. }
  destruct (deliver_at p m n o stream chunk a b Ho) as (o1 & -> & H1 & Hn1 & Hl1).
  destruct (IH _ _ _ H1) as (o' & -> & H' & Hn' & Hl').
  exists o'. split; [done|]. rewrite !streamed_cons, !app_assoc. split; [done|].
  split; [by rewrite Hn'|]. by rewrite Hl', Hl1, orb_assoc.
Qed.

Lemma new_output_at p controls : accepting (sink controls) ->
  output_at p (dedup_limit (retained_output_limit controls)) (default 0%nat (retained_output_limit controls))
    (output_new p controls) [] [].
Proof.
  intros Hs. unfold output_at, output_new, side_at, dedup_capture, emitted. cbn [side_out side_err sink_failed to_sink].
  rewrite !new_having_seen. cbn [default].
  assert (Sanitize.push (Sanitize.new p) [] = (Sanitize.new p, [])) as -> by (unfold Sanitize.push; by case_decide).
  split_and!; try done. destruct (sink controls) as [k|]; [|done]. destruct Hs as [Ha Hd].
  unfold sink_at, given. by rewrite Hd.
Qed.

(** What the final logs hold of one stream, when they were fetched. *)
Definition logged (st : OutputStream) (logs : option Logs) : bytes :=
  match logs, st with
  | Some l, Stdout => Text.to_bytes (logs_stdout l)
  | Some l, Stderr => Text.to_bytes (logs_stderr l)
  | None, _ => []
  end.

(** [all] is the longer of two logs of one stream, one of which goes on from the
    other. *)
Definition merges (seen final all : bytes) : Prop :=
  seen `prefix_of` all /\ final `prefix_of` all /\ (all = seen \/ all = final).

Lemma parts_seen n l :
  into_parts (having_seen n l) = (head_tail n l, mkStats (length l) (n `min` length l) (length l - n) false).
Proof. unfold into_parts, having_seen. cbn [head tail observed omitted]. fold (head_tail n l). by rewrite length_head_tail. Qed.

Lemma longer_nil seen : longer seen [] = seen.
Proof. unfold longer. by rewrite drop_nil, app_nil_r. Qed.

Lemma consistent_merges m st cs logs :
  (is_Some logs -> consistent m (streamed st cs) (logged st logs)) ->
  merges (streamed st cs) (logged st logs) (longer (streamed st cs) (logged st logs)).
Proof.
  intros Hc. destruct logs as [l|]; [by eapply longer_spec, Hc|].
  assert (logged st None = []) as -> by (by destruct st). rewrite longer_nil.
  split_and!; [done|apply prefix_nil|by left].
Qed.

Lemma appended_at p m n logs cs o :
  (forall st, is_Some logs -> consistent m (streamed st cs) (logged st logs)) ->
  output_at p m n o (streamed Stdout cs) (streamed Stderr cs) ->
  let o' := match logs with Some l => append_final_logs o l | None => o end in
  output_at p m n o' (longer (streamed Stdout cs) (logged Stdout logs)) (longer (streamed Stderr cs) (logged Stderr logs)) /\
  (to_sink o' = None <-> to_sink o = None) /\ saw_live o' = saw_live o.
Proof.
  intros Hc Ho. destruct logs as [l|]; cbn [logged]; [|by rewrite !longer_nil].
  unfold append_final_logs.
  destruct (append_at p m n o Stdout (Text.to_bytes (logs_stdout l)) _ _ Ho (Hc Stdout (mk_is_Some _ _ eq_refl))) as (H1 & Hn1 & Hl1).
  unfold taken_in, added in H1. repeat case_decide; try done. rewrite app_nil_r in H1.
  destruct (append_at p m n _ Stderr (Text.to_bytes (logs_stderr l)) _ _ H1 (Hc Stderr (mk_is_Some _ _ eq_refl))) as (H2 & Hn2 & Hl2).
  unfold taken_in, added in H2. repeat case_decide; try done. rewrite app_nil_r in H2.
  split; [done|]. by rewrite Hn2, Hl2.
Qed.

(** A run's output is the command's: of what the live stream delivered and the
    final fetch returned, the longer, each byte once, sanitized as a whole;
    retained under the caller's limit and given to the caller's sink in full. It
    holds when one of the two goes on from the other, and the fetch does not end
    before what the window still covers; the result is marked cut when the
    stream broke off and nothing was fetched. *)
Theorem session_output policy controls cs o clean logs elapsed :
  accepting (sink controls) ->
  let limit := retained_output_limit controls in
  (forall st, is_Some logs -> consistent (dedup_limit limit) (streamed st cs) (logged st logs)) ->
  exists all_out all_err live out r,
    merges (streamed Stdout cs) (logged Stdout logs) all_out /\
    merges (streamed Stderr cs) (logged Stderr logs) all_err /\
    follow (output_new policy controls) cs = (live, true) /\
    into_result (mkSettled o clean logs live) elapsed = (out, r) /\
    let n := default 0%nat limit in
    let stdout := sanitize policy all_out in
    let stderr := sanitize policy all_err in
    let cut := negb clean && bool_decide (logs = None) in
    let code := if bool_decide (wait_termination o = Exited) then wait_code o else None in
    res_stdout (sr_result r) = head_tail n stdout /\ res_stderr (sr_result r) = head_tail n stderr /\
    stdout_capture r = mkStats (length stdout) (n `min` length stdout) (length stdout - n) cut /\
    stderr_capture r = mkStats (length stderr) (n `min` length stderr) (length stderr - n) cut /\
    res_termination (sr_result r) = wait_termination o /\ exit_code (sr_result r) = code /\
    match to_sink out with
    | Some k => given k Stdout = stdout /\ given k Stderr = stderr
    | None => sink controls = None
    end.
Proof.
  intros Hs limit Hc. set (m := dedup_limit limit) in *. set (n := default 0%nat limit).
  destruct (follow_at policy m n cs _ _ _ (new_output_at policy controls Hs)) as (live & Hf & Hlive & Hnone & _).
  cbn [app] in Hlive.
  destruct (appended_at policy m n logs cs live Hc Hlive) as (Hall & Hnone1 & _).
  set (o1 := match logs with Some l => append_final_logs live l | None => live end) in *.
  destruct (finish_at policy m n o1 _ _ Hall) as (out & Hfin & Hsink & Hnone2 & Hfail & _).
  eexists _, _, live, out, _. split; [apply (consistent_merges m Stdout cs logs (Hc Stdout))|].
  split; [apply (consistent_merges m Stderr cs logs (Hc Stderr))|].
  split; [done|]. unfold into_result. cbn [settled_logs output outcome stream_clean]. fold o1. rewrite Hfin, Hfail, !parts_seen.
  split; [reflexivity|]. cbv zeta. cbn [sr_result res_stdout res_stderr stdout_capture stderr_capture res_termination exit_code
    observed_bytes retained_bytes omitted_bytes Capture.truncated orb].
  destruct (from_shell_status_spec (wait_termination o) (if bool_decide (wait_termination o = Exited) then wait_code o else None) elapsed)
    as (-> & -> & _). rewrite orb_false_r. split_and!; try done.
  destruct (to_sink out); [by destruct Hsink as (_ & ? & ?)|]. by apply Hnone, Hnone1, Hnone2.
Qed.

(** ** A run releases what it took *)

Definition times (e : Effect) (l : list Effect) : nat := length (filter (eq e) l).

Lemma times_app e l l' : times e (l ++ l') = (times e l + times e l')%nat.
Proof. unfold times. by rewrite filter_app, length_app. Qed.

Lemma times_nil e : times e [] = 0%nat.
Proof. done. Qed.

Lemma times_cons e x l : times e (x :: l) = ((if decide (e = x) then 1 else 0) + times e l)%nat.
Proof. unfold times. rewrite filter_cons. by case_decide. Qed.

#[local] Arguments times : simpl never.

(** Counts the effects of a list that is written out. *)
Ltac tally := cbn [did done_ session_open stdin_file]; rewrite ?times_app, ?times_cons, ?times_nil;
  repeat case_decide; simplify_eq; try lia.

(** Its session and stdin file are each created as often as deleted, but for
    those it still holds; a task it started and has not ended is one of the
    [going]. *)
Record accounted (r : SessionRun) (going : list Effect) : Prop := {
  acc_session : times CreateSession (done_ r) = (times DeleteSession (done_ r) + if session_open r then 1 else 0)%nat;
  acc_once : (times CreateSession (done_ r) <= 1)%nat;
  acc_file path : times (UploadFile path) (done_ r) =
    (times (DeleteFile path) (done_ r) + if decide (stdin_file r = Some path) then 1 else 0)%nat;
  acc_stream : FollowLogs ∈ done_ r -> FollowLogs ∈ going \/ StopStream ∈ done_ r \/ DrainStream ∈ done_ r;
  acc_input : PumpInput ∈ done_ r -> PumpInput ∈ going \/ StopInput ∈ done_ r;
}.

(** Nothing is held or running. *)
Definition released (r : SessionRun) : Prop :=
  session_open r = false /\ stdin_file r = None /\ accounted r [].

(** Effects that neither take nor give back. *)
Definition neutral (e : Effect) : bool :=
  match e with CreateSession | DeleteSession | UploadFile _ | DeleteFile _ => false | _ => true end.

Lemma times_neutral e l : neutral e = false -> forallb neutral l = true -> times e l = 0%nat.
Proof.
  intros He. induction l as [|x l IH]; [done|]. cbn [forallb]. intros [Hx Hl]%andb_true_iff.
  rewrite times_cons, IH by done. rewrite decide_False; [done|]. by intros ->; rewrite He in Hx.
Qed.

Lemma accounted_did r going going' l : accounted r going -> forallb neutral l = true ->
  (FollowLogs ∈ going \/ FollowLogs ∈ l -> FollowLogs ∈ going' \/ StopStream ∈ l \/ DrainStream ∈ l) ->
  (PumpInput ∈ going \/ PumpInput ∈ l -> PumpInput ∈ going' \/ StopInput ∈ l) ->
  accounted (did r l) going'.
Proof.
  intros [Hs Ho Hf Hst Hin] Hl Hg1 Hg2. constructor; cbn.
  - rewrite !times_app, !(times_neutral _ l), !Nat.add_0_r by done. done.
  - by rewrite times_app, (times_neutral _ l), Nat.add_0_r by done.
  - intros path. rewrite !times_app, !(times_neutral _ l), !Nat.add_0_r by done. apply Hf.
  - rewrite !elem_of_app. tauto.
  - rewrite !elem_of_app. tauto.
Qed.

Lemma accounted_close w r going : accounted r going ->
  accounted (fst (close w r)) going /\ session_open (fst (close w r)) = false /\
  stdin_file (fst (close w r)) = stdin_file r /\ snd (close w r) = negb (session_open r) || deleted w.
Proof.
  intros Hr. unfold close. destruct (session_open r) eqn:E; cbn [fst snd]; [|by split_and!].
  destruct Hr as [Hs Ho Hf Hst Hin]. rewrite E in Hs. split_and!; try done. constructor; cbn.
  - tally.
  - tally.
  - intros path. specialize (Hf path). rewrite ?E in Hf. tally.
  - rewrite !elem_of_app, !list_elem_of_singleton. naive_solver.
  - rewrite !elem_of_app, !list_elem_of_singleton. naive_solver.
Qed.

Lemma accounted_close_stdin r going : accounted r going ->
  accounted (close_stdin r) going /\ session_open (close_stdin r) = session_open r /\ stdin_file (close_stdin r) = None.
Proof.
  intros Hr. unfold close_stdin. destruct (stdin_file r) as [p|] eqn:E; [|by split_and!].
  destruct Hr as [Hs Ho Hf Hst Hin]. split_and!; try done. constructor; cbn.
  - tally.
  - tally.
  - intros path. specialize (Hf path). rewrite ?E in Hf. tally.
  - rewrite !elem_of_app, !list_elem_of_singleton. naive_solver.
  - rewrite !elem_of_app, !list_elem_of_singleton. naive_solver.
Qed.

Lemma released_abort w r going : accounted r going -> released (abort w r).
Proof.
  intros Hr. unfold abort.
  assert (H1 : accounted (did r [StopInput; StopStream]) []).
  { eapply accounted_did; [done|done|..]; intros _; right; set_solver. }
  destruct (accounted_close w _ _ H1) as (H2 & Ho & _).
  destruct (accounted_close_stdin _ _ H2) as (H3 & Ho' & Hf). split_and!; [by rewrite Ho'|done|done].
Qed.

Lemma accounted_new : accounted (mkRun false None []) [].
Proof. constructor; cbn; [tally|tally|intros; tally|intros H; by apply elem_of_nil in H..]. Qed.

Lemma accounted_create_file w bs r e : create_file w (mkRun false None []) bs = (r, e) ->
  accounted r [] /\ session_open r = false /\ times CreateSession (done_ r) = 0%nat /\
  (e = Ok tt \/ stdin_file r = None).
Proof.
  unfold create_file. destruct (_ <? _); [intros [= <- <-]; split_and!; [apply accounted_new|done|done|by right]|].
  destruct (upload w bs); intros [= <- <-]; [|split_and!; [apply accounted_new|done|done|by right]].
  split_and!; [|done|done|by left]. constructor; cbn.
  - tally.
  - tally.
  - intros path. tally.
  - set_solver.
  - set_solver.
Qed.

Lemma accounted_start_command w r cwd command :
  accounted r [] -> session_open r = false -> times CreateSession (done_ r) = 0%nat ->
  match start_command w r cwd command with
  | (r', Ok _) => accounted r' [] /\ session_open r' = true
  | (r', Err _) => accounted r' [] /\ session_open r' = false
  end.
Proof.
  intros Hr Ho Hc. unfold start_command. destruct (create w); [|done].
  set (r1 := did _ _). assert (H1 : accounted r1 []).
  { destruct Hr as [Hs Hl Hf Hst Hin]. rewrite Ho in Hs. subst r1. constructor; cbn.
    - tally.
    - tally.
    - intros path. specialize (Hf path). tally.
    - rewrite !elem_of_app. set_solver.
    - rewrite !elem_of_app. set_solver. }
  destruct (execute w _); [done|]. by destruct (accounted_close w r1 [] H1) as (? & ? & _).
Qed.

Lemma start_accounts w DECODE_INPUT cwd spec controls :
  match start w DECODE_INPUT cwd spec controls with
  | (r, Ok _) => accounted r [FollowLogs; PumpInput] /\ session_open r = true
  | (r, Err _) => released r
  end.
Proof.
  unfold start. destruct (sandbox w); [|split_and!; [done|done|apply accounted_new]].
  set (first := if stdin controls then _ else _).
  assert (H0 : accounted (fst first) [] /\ session_open (fst first) = false /\
    times CreateSession (done_ (fst first)) = 0%nat /\ (snd first = Ok tt \/ stdin_file (fst first) = None)).
  { subst first. destruct (stdin controls); [split_and!; [apply accounted_new|done|done|by left]|].
    destruct (spec_stdin spec) as [bs|]; [|split_and!; [apply accounted_new|done|done|by left]].
    destruct (create_file w _ bs) as [r e] eqn:E. by apply accounted_create_file in E. }
  destruct first as [r [[]|e]]; cbn [fst snd] in H0; destruct H0 as (Hr & Ho & Hc & He).
  2: { destruct He as [|He]; [done|]. by split_and!. }
  match goal with |- context [start_command w r cwd ?command] =>
    pose proof (accounted_start_command w r cwd command Hr Ho Hc) as Hstart;
    destruct (start_command w r cwd command) as [r1 [code|e]] end.
  2: { destruct Hstart as [H1 Ho1]. destruct (accounted_close_stdin r1 [] H1) as (H2 & Ho2 & Hf2).
       split_and!; [by rewrite Ho2|done|done]. }
  destruct Hstart as [H1 Ho1]. destruct (stream_process w); [|by eapply released_abort].
  assert (H2 : accounted (did r1 [FollowLogs]) [FollowLogs]) by (eapply accounted_did; [done|done|set_solver|set_solver]).
  destruct (stdin controls).
  - destruct (input_process w); [|by eapply released_abort]. split; [|done].
    eapply accounted_did; [done|done|set_solver|set_solver].
  - split; [|done]. destruct H2 as [Hs Hl Hf Hst Hin]. constructor; [done..| |]; set_solver.
Qed.

Lemma settle_accounts w r o followed : accounted r [FollowLogs; PumpInput] -> session_open r = true ->
  released (fst (settle w r o followed)) /\
  if deleted w then exists s, snd (settle w r o followed) = Ok s
  else exists e, snd (settle w r o followed) = Err (Incomplete e) /\
         termination_confirmed e = bool_decide (wait_termination o = Exited).
Proof.
  intros Hr Ho. unfold settle. set (r1 := did r [StopInput]).
  assert (H1 : accounted r1 [FollowLogs]) by (eapply accounted_did; [done|done|set_solver|set_solver]).
  set (clean := snd followed && ends_cleanly w).
  assert (Htail : forall r2, accounted r2 [FollowLogs] ->
    let fetched := match final_logs o with
                   | Some logs => (did r2 [DrainStream], Some logs)
                   | None => if negb clean then fetch_logs w (did r2 [DrainStream]) else (did r2 [DrainStream], None)
                   end in
    accounted (fst fetched) [] /\ session_open (fst fetched) = session_open r2).
  { intros r2 H2.
    assert (H3 : accounted (did r2 [DrainStream]) []) by (eapply accounted_did; [done|done|set_solver|set_solver]).
    destruct (final_logs o); [done|]. destruct clean; [done|]. unfold fetch_logs. cbn [negb session_open did].
    destruct (session_open r2) eqn:E; cbn [fst]; [|done]. split; [|done].
    eapply accounted_did; [done|done|set_solver|set_solver]. }
  assert (Hend : forall r3, accounted r3 [] -> released (close_stdin (fst (close w r3))) /\
    snd (close w r3) = negb (session_open r3) || deleted w).
  { intros r3 H3. destruct (accounted_close w r3 [] H3) as (H4 & Ho4 & _ & Hc).
    destruct (accounted_close_stdin _ [] H4) as (H5 & Ho5 & Hf5). split; [|done].
    split_and!; [by rewrite Ho5|done|done]. }
  destruct (bool_decide (wait_termination o = Exited)) eqn:Et; cbn [negb].
  - destruct (Htail r1 H1) as [H3 Ho3]. cbv zeta in H3, Ho3. destruct (match final_logs o with Some _ => _ | None => _ end) as [r3 logs].
    destruct (Hend r3 H3) as [H5 Hc]. destruct (close w r3) as [r4 confirmed]. cbn [fst snd] in *.
    rewrite Ho3 in Hc. cbn in Hc. rewrite Ho in Hc. cbn in Hc. subst confirmed.
    destruct (deleted w); cbn [negb fst snd]; (split; [done|]); eexists; [done|]. by split.
  - destruct (accounted_close w r1 _ H1) as (H2 & Ho2 & _ & Hgone). destruct (close w r1) as [r2 gone]. cbn [fst snd] in *.
    cbn in Hgone. rewrite Ho in Hgone. cbn in Hgone. subst gone.
    destruct (deleted w) eqn:Ed; cbn [negb].
    2: { cbn [fst snd]. split; [by eapply released_abort|]. by eexists. }
    destruct (Htail r2 H2) as [H3 Ho3]. cbv zeta in H3, Ho3. destruct (match final_logs o with Some _ => _ | None => _ end) as [r3 logs].
    destruct (Hend r3 H3) as [H5 Hc]. destruct (close w r3) as [r4 confirmed]. cbn [fst snd] in *.
    rewrite Ho3, Ho2 in Hc. cbn in Hc. subst confirmed. cbn [negb fst snd]. split; [done|]. by eexists.
Qed.

(** Whatever fails, a run that ends gives back what it took: its session is
    deleted exactly once if it was created, its stdin file if it was uploaded,
    and the tasks that follow the output and forward the input are ended. It
    returns a result only after the deletion was confirmed; once the command's
    wait is over, a refused deletion is an incomplete operation that says whether
    the command had ended by itself, and nothing else fails. *)
Theorem session_released w DECODE_INPUT cwd fuel elapsed spec controls r res :
  run_session w DECODE_INPUT cwd fuel elapsed spec controls = (r, Some res) ->
  released r /\
  (is_ok res = true -> deleted w = true) /\
  forall code o, snd (start w DECODE_INPUT cwd spec controls) = Ok code ->
    wait w fuel (timeout spec) code = Some (Ok o) ->
    if deleted w then is_ok res = true
    else exists e, res = Err (Incomplete e) /\ termination_confirmed e = bool_decide (wait_termination o = Exited).
Proof.
  unfold run_session. pose proof (start_accounts w DECODE_INPUT cwd spec controls) as Hs.
  destruct (start w DECODE_INPUT cwd spec controls) as [r0 [code|e]]; cbn [fst snd].
  2: { intros [= <- <-]. by split_and!. }
  destruct Hs as [H0 Ho]. destruct (wait w fuel (timeout spec) code) as [[o|e]|] eqn:Ew; [| |done].
  2: { intros [= <- <-]. split; [by eapply released_abort|]. split; [done|]. intros c o [= <-]. by rewrite Ew. }
  set (r1 := if bool_decide _ then r0 else did r0 [FetchLogs]). set (followed := follow _ _).
  assert (H1 : accounted r1 [FollowLogs; PumpInput] /\ session_open r1 = true).
  { subst r1. case_bool_decide; [done|]. split; [|done]. eapply accounted_did; [done|done|set_solver|set_solver]. }
  destruct (settle_accounts w r1 o followed (proj1 H1) (proj2 H1)) as [Hr Hd].
  destruct (settle w r1 o followed) as [r2 [s|e]]; cbn [fst snd] in *; intros [= <- <-].
  - split; [done|]. destruct (deleted w) eqn:Ed; [|by destruct Hd as (? & ? & _)]. by split_and!.
  - split; [done|]. split; [done|]. intros c o' [= <-]. rewrite Ew. intros [= <-].
    destruct (deleted w); [by destruct Hd|]. destruct Hd as (inc & [= ->] & Hd). by exists inc.
Qed.

(** ** The wait *)

(** The wait ends for a reason: an exit was polled or was known at the start, the
    deadline had passed, the caller had asked for a stop, or the sink had failed;
    only a natural end leaves the logs to be fetched later. Once a deadline, a
    stop request or a failed sink is due at [x], and polls are answered within
    [slow], it ends by [x + slow], within [x / 250 + 1] polls. *)
Theorem session_wait poll deadline stop sink_gone logs tie code x slow :
  ends_at deadline stop sink_gone x ->
  (forall n, exists d answer, poll n = Some (d, answer) /\ 0 <= d <= slow) ->
  0 <= x -> 0 <= slow ->
  let e := wait_for_completion poll deadline stop sink_gone logs tie (S (Z.to_nat x / 250)) code in
  ended_by x slow e /\
  match code with
  | Some c => e = Waited (mkWait (Some c) Exited None) 0
  | None => ends_for_reason poll deadline stop sink_gone logs e
  end.
Proof.
  intros Hx Hpoll Hpos Hslow e. subst e. destruct code as [c|]; cbn [wait_for_completion]; [cbn; split; [lia|done]|].
  split; [|apply wait_loop_reason]. apply wait_loop_bounded; [done..|lia|done|]. rewrite Z.sub_0_r. lia.
Qed.

(** A poll that is never answered holds the wait, whatever its deadline. *)
Lemma unanswered_poll_holds deadline stop sink_gone logs tie fuel :
  (forall x, ends_at deadline stop sink_gone x -> STATUS_POLL < x) ->
  wait_for_completion (fun _ => None) deadline stop sink_gone logs tie (S fuel) None = Unanswered.
Proof.
  intros Hlate. cbn [wait_for_completion wait_loop]. cbv zeta.
  destruct (taken_some deadline stop sink_gone tie 0 0) as (a & -> & Ha).
  destruct (wakes_first deadline stop sink_gone 0) as [_ Hmin]. specialize (Hmin Poll _ eq_refl).
  apply ready_from_some in Ha. unfold STATUS_POLL in *. destruct a; [done|..].
  - destruct Ha as (d & -> & Ha). specialize (Hlate d (or_introl eq_refl)). lia.
  - destruct Ha as (s & level & -> & Ha). specialize (Hlate s (or_intror (or_introl (ex_intro _ level eq_refl)))). lia.
  - destruct Ha as (s & -> & Ha). specialize (Hlate s (or_intror (or_intror eq_refl))). lia.
Qed.

(** ** Words *)

Section Words.
#[local] Open Scope string_scope.

(** Quoting is literal. The shell reads a command line back as exactly
    the words of the spec — [env] with each variable as one assignment, the
    program, its arguments — whatever bytes they hold, and the session's script
    as the one operand of [/bin/bash -c]. *)
Theorem session_words env program args script :
  shell_words (exec_line env program args) false None =
    Some (["exec"; "env"] ++ map (fun kv => fst kv +:+ "=" +:+ snd kv) (entries env) ++ program :: args)%list /\
  shell_words (wrap_session_script script) false None = Some ["/bin/bash"; "-c"; script].
Proof.
  split; apply reads_as_words.
  - pose proof (reads_as_plain "exec" ["env"] eq_refl) as H0.
    pose proof (reads_as_fold (fun kv => fst kv +:+ "=" +:+ snd kv) (entries env) _ _ H0) as H1.
    pose proof (reads_as_fold (fun arg => arg) args _ _ (reads_as_quoted _ _ program H1)) as H3.
    rewrite map_id, <- !app_assoc in H3. exact H3.
  - exact (reads_as_quoted _ _ script (reads_as_plain "/bin/bash" ["-c"] eq_refl)).
Qed.
End Words.

(** ** Marked logs *)

Section Marked.
#[local] Open Scope string_scope.

(** Text that cannot be taken for a marker. *)
Definition unmarked (t : bytes) : Prop := Forall (fun b => b <> 1 /\ b <> 2) t.

Definition marker (stderr : bool) : bytes := if stderr then MARKER_ERR else MARKER_OUT.

(** The toolbox's form: each run of text behind the marker of its stream. *)
Definition marked (runs : list (bool * bytes)) : bytes := concat (map (fun r => (marker (fst r) ++ snd r)%list) runs).

(** The text of one stream. *)
Definition text_of (stderr : bool) (runs : list (bool * bytes)) : string :=
  foldr (fun r acc => if Bool.eqb (fst r) stderr then from_utf8_lossy (snd r) +:+ acc else acc) EmptyString runs.

Definition all_text (runs : list (bool * bytes)) : string :=
  foldr (fun r acc => from_utf8_lossy (snd r) +:+ acc) EmptyString runs.

Lemma marker_at_skip t rest : unmarked t -> marker_at (t ++ rest)%list = Nat.add (length t) <$> marker_at rest.
Proof.
  induction 1 as [|b t [H1 H2] Ht IH]; [cbn; by destruct (marker_at rest)|].
  cbn [app marker_at]. rewrite !bool_decide_false by (intros E; by injection E). cbn [orb].
  rewrite IH. by destruct (marker_at rest).
Qed.

Lemma marker_at_marked runs : marker_at (marked runs) = match runs with [] => None | _ => Some 0%nat end.
Proof. destruct runs as [|[[] t] runs]; [done|reflexivity..]. Qed.

Lemma split_logs_marked runs fuel t stderr logs :
  unmarked t -> Forall (fun r => unmarked (snd r)) runs -> (length runs <= fuel)%nat ->
  split_logs fuel (t ++ marked runs)%list stderr logs =
  mkLogs (logs_stdout logs +:+ text_of false ((stderr, t) :: runs)) (logs_stderr logs +:+ text_of true ((stderr, t) :: runs))
    (logs_output logs +:+ all_text ((stderr, t) :: runs)) (separated logs || negb (bool_decide (runs = []))).
Proof.
  revert fuel t stderr logs. induction runs as [|[e t'] runs IH]; intros fuel t stderr logs Ht Hr Hf.
  - assert (marker_at (t ++ marked [])%list = None) as Hm by (by rewrite marker_at_skip, marker_at_marked).
    destruct fuel; cbn [split_logs]; rewrite Hm; cbn [default]; unfold marked; cbn [map concat];
      rewrite app_nil_r, firstn_all; unfold append_text; destruct stderr; cbn; rewrite ?app_nil_r_string, orb_false_r; done.
  - apply Forall_cons in Hr as [Ht' Hr]. cbn [snd] in Ht'. destruct fuel as [|fuel]; [cbn in Hf; lia|]. cbn [length] in Hf.
    assert (marker_at (t ++ marked ((e, t') :: runs))%list = Some (length t)) as Hm
      by (rewrite marker_at_skip, marker_at_marked by done; cbn; f_equal; lia).
    assert (Hcons : marked ((e, t') :: runs) = (marker e ++ t' ++ marked runs)%list) by (unfold marked; cbn; by rewrite <- app_assoc).
    assert (Hb : bool_decide ((t ++ marked ((e, t') :: runs))%list !! length t = Some 2) = e).
    { rewrite lookup_app_r, Nat.sub_diag by done. by rewrite Hcons; destruct e. }
    assert (Hd : drop (length t + 3) (t ++ marked ((e, t') :: runs)) = (t' ++ marked runs)%list).
    { rewrite <- drop_drop, drop_app_length, Hcons. by destruct e. }
    cbn [split_logs]. rewrite Hm, Hb, Hd. cbn [default id]. rewrite take_app_length.
    rewrite IH by (done || lia). unfold append_text.
    destruct stderr; cbn [logs_stdout logs_stderr logs_output separated text_of all_text foldr fst snd Bool.eqb];
      rewrite <- ?app_assoc_string, ?orb_true_r; done.
Qed.

(** The toolbox's marked text is split back into its streams: text before the
    first marker and after a stdout marker is stdout's, text after a stderr
    marker is stderr's, and the streams count as separated when there is one. *)
Theorem parse_logs_marked from_slice t runs :
  unmarked t -> Forall (fun r => unmarked (snd r)) runs ->
  from_slice (t ++ marked runs)%list = None ->
  parse_logs from_slice (t ++ marked runs)%list =
  mkLogs (text_of false ((false, t) :: runs)) (text_of true ((false, t) :: runs)) (all_text ((false, t) :: runs))
    (negb (bool_decide (runs = []))).
Proof.
  intros Ht Hr Hn. unfold parse_logs. rewrite Hn. rewrite split_logs_marked; [done..|].
  rewrite length_app. clear. induction runs as [|[e t'] runs IH]; [cbn; lia|]. cbn [length].
  unfold marked in *. cbn [map concat fst snd]. rewrite !length_app. destruct e; cbn [marker length MARKER_OUT MARKER_ERR]; lia.
Qed.
End Marked.

(** ** Witnesses *)

Definition demo_logs : Logs := mkLogs (of_bytes [97; 27; 91; 49; 109; 98]) EmptyString EmptyString true.

Lemma session_output_witness :
  exists all_out r,
    merges [97; 27] [97; 27; 91; 49; 109; 98] all_out /\
    res_stdout (sr_result r) = [97; 98] /\ stdout_capture r = mkStats 2 2 0 false.
Proof.
  destruct (session_output StripAnsi (mkControls false false true None (Some 8%nat)) [(Stdout, [97; 27])]
              (mkWait (Some 0) Exited None) false (Some demo_logs) 5) as (a & b & live & out & r & Ha & Hb & _ & _ & Hr).
  - done.
  - intros [] _; left; [exists [91; 49; 109; 98]|exists []]; reflexivity.
  - exists a, r. split; [exact Ha|].
    assert (a = [97; 27; 91; 49; 109; 98]) as ->.
    { destruct Ha as (_ & Hf & [->| ->]); [|reflexivity]. apply prefix_length in Hf. change (6 <= 2)%nat in Hf. lia. }
    destruct Hr as (-> & _ & -> & _). by split.
Defined.

Definition demo_waiting : Waiting :=
  mkWaiting (fun _ => Some (5, Ok None)) (Some (600, Kill)) None (fun _ => 0%nat) None false.

(** A kill request ends a run whose deletion the toolbox refuses to confirm. *)
Definition demo_world : World :=
  mkWorld (Ok tt) "/tmp/in" (fun _ => Ok tt) (Ok tt) (fun _ => Ok None) (Ok tt) (Ok tt) demo_waiting
    [(Stdout, [97])] true None false.

Definition demo_spec : ExecSpec :=
  mkSpec "cat" [] None None None ∅ (Some [1; 2]) Raw.

Definition demo_controls : ExecControls := mkControls false false true None None.

Lemma session_released_witness :
  let r := run_session demo_world EmptyString "/w" 9 7 demo_spec demo_controls in
  released (fst r) /\ times DeleteSession (done_ (fst r)) = 1%nat /\ deleted demo_world = false /\
  exists e, snd r = Some (Err (Incomplete e)) /\ termination_confirmed e = false.
Proof.
  destruct (session_released demo_world EmptyString "/w" 9 7 demo_spec demo_controls
              (fst (run_session demo_world EmptyString "/w" 9 7 demo_spec demo_controls))
              (Err (Incomplete (incomplete_new "Daytona session termination")))) as (Hr & _ & Hw).
  - vm_compute. reflexivity.
  - split; [exact Hr|]. split; [vm_compute; reflexivity|]. split; [reflexivity|].
    destruct (Hw None (mkWait None Killed None)) as (e & He & Ht); [vm_compute; reflexivity..|].
    exists e. split; [|exact Ht]. injection He as <-. vm_compute. reflexivity.
Defined.

Lemma session_wait_witness :
  let e := wait_for_completion (polls demo_waiting) (Some 700) (stop_at demo_waiting) None None (choices demo_waiting) 3 None in
  ended_by 600 5 e /\ e = Waited (mkWait None Killed None) 600.
Proof.
  destruct (session_wait (polls demo_waiting) (Some 700) (stop_at demo_waiting) None None (choices demo_waiting) None 600 5)
    as [H _].
  - right. left. by exists Kill.
  - intros n. exists 5, (Ok None). split; [reflexivity|lia].
  - lia.
  - lia.
  - split; [exact H|vm_compute; reflexivity].
Defined.
