(* ===== verification/StreamedStdin.v ===== *)
(** * Streamed standard input over the Daytona toolbox

    Models [crates/sandbox-driver-daytona/src/streamed_stdin.rs]: the records that
    carry a command's input as text, the task that forwards them, and the Bash
    decoder that reads them in the sandbox ([DECODE_INPUT]). Of [printf %b] the
    model has the escapes the encoder writes; the decoder's answer to any other
    is left open. *)

From S2P Require Import Prelude Text Errors.

#[local] Open Scope Z_scope.

(** ** The encoder *)

Definition RECORD_BYTES : nat := Z.to_nat 4096.
Definition REQUEST_BYTES : nat := Z.to_nat (64 * 1024).

#[global] Opaque RECORD_BYTES.

Definition NEWLINE : u8 := 10.
Definition BACKSLASH : u8 := 92.
Definition DATA : u8 := 68.
Definition END : u8 := 69.
Definition ZERO : u8 := 48.

(** One byte of input: printable ASCII but the backslash as it is, any other as
    [\0ooo]. *)
Definition encode_byte (byte : u8) : bytes :=
  if negb (byte =? BACKSLASH) && in_range 0x20 0x7e byte then [byte]
  else [BACKSLASH; ZERO; ZERO + byte / 64; ZERO + byte / 8 mod 8; ZERO + byte mod 8].

Definition encode_record (chunk : bytes) : bytes := DATA :: concat (map encode_byte chunk) ++ [NEWLINE].

Definition encode_records (bs : bytes) : bytes :=
  concat (map encode_record (chunks RECORD_BYTES bs)).

Definition END_RECORD : bytes := [END; NEWLINE].

(** ** Forwarding *)

(** The text of one request, for what one read returned; an empty read is the end
    of the input. *)
Definition request (read : bytes) : bytes :=
  match read with [] => END_RECORD | _ => encode_records read end.

(** The reader's answers, and the toolbox's: accepted, or the error, with whether
    the command is then found to have ended. The requests made, and how
    forwarding ended, if the reader let it. *)
Fixpoint forward (reads : list (result bytes Error)) (answers : list (option (Error * bool)))
    : list bytes * option (result unit Error) :=
  match reads with
  | [] => ([], None)
  | Err e :: _ => ([], Some (Err e))
  | Ok read :: reads =>
      let records := request read in
      match answers with
      | Some (e, ended) :: _ => ([records], Some (if ended : bool then Ok tt else Err e))
      | None :: answers =>
          match read with
          | [] => ([records], Some (Ok tt))
          | _ => let '(sent, r) := forward reads answers in (records :: sent, r)
          end
      | [] => ([records], None)
      end
  end.

(** ** The decoder *)

(** Where [printf %b] stands in its argument: in text, behind a backslash, or in
    an octal escape with the digits read and their value. *)
Inductive escape := InText | Escaped | Octal (digits : nat) (value : Z).

Fixpoint printf_b (st : escape) (input : bytes) : option bytes :=
  match input with
  | [] =>
      match st with
      | InText => Some []
      | Escaped => None
      | Octal _ value => Some [value mod 256]
      end
  | b :: rest =>
      let text := if b =? BACKSLASH then printf_b Escaped rest else cons b <$> printf_b InText rest in
      match st with
      | InText => text
      | Escaped => if b =? ZERO then printf_b (Octal 0 0) rest else None
      | Octal digits value =>
          if (digits <? 3)%nat && in_range 48 55 b
          then printf_b (Octal (S digits) (value * 8 + (b - ZERO))) rest
          else cons (value mod 256) <$> text
      end
  end.

(** How the decoder stands after some input: waiting for more, done with the
    program's input closed, or having killed the program. *)
Inductive decoder := Waiting | Closed | Killed | Unspecified.

(** [sandbox_driver_decode]: the bytes written to the program. [line] is the
    unfinished record. *)
Fixpoint decode (line input : bytes) : bytes * decoder :=
  match input with
  | [] => ([], Waiting)
  | b :: rest =>
      if b =? NEWLINE then
        match line with
        | d :: body =>
            if d =? DATA then
              match printf_b InText body with
              | Some out => let '(more, st) := decode [] rest in (out ++ more, st)
              | None => ([], Unspecified)
              end
            else if bool_decide (line = [END]) then ([], Closed)
            else ([], Killed)
        | [] => ([], Killed)
        end
      else decode (line ++ [b]) rest
  end.

(** ** The decoder reads what the encoder writes *)

Lemma printf_octal b rest : is_u8 b ->
  printf_b InText ([BACKSLASH; ZERO; ZERO + b / 64; ZERO + b / 8 mod 8; ZERO + b mod 8] ++ rest) =
  cons b <$> printf_b InText rest.
Proof.
  intros Hb. unfold is_u8 in Hb. unfold ZERO, BACKSLASH in *. cbn [app printf_b].
  pose proof (Z.mod_pos_bound (b / 8) 8 ltac:(lia)). pose proof (Z.mod_pos_bound b 8 ltac:(lia)).
  assert (0 <= b / 64 < 4) by (split; [apply Z.div_pos; lia|apply Z.div_lt_upper_bound; lia]).
  assert (Hd : forall x, 0 <= x < 8 -> in_range 48 55 (48 + x) = true).
  { intros x Hx. unfold in_range. apply andb_true_iff. split; apply Z.leb_le; lia. }
  change (92 =? BACKSLASH) with true. change (48 =? ZERO) with true. cbn iota.
  rewrite !Hd by lia. cbn [Nat.ltb Nat.leb andb].
  assert (Hv : (((0 * 8 + (48 + b / 64 - 48)) * 8 + (48 + b / 8 mod 8 - 48)) * 8 + (48 + b mod 8 - 48)) = b).
  { assert (b / 64 = b / 8 / 8) as -> by (rewrite Z.div_div by lia; done).
    pose proof (Z.div_mod (b / 8) 8 ltac:(lia)). pose proof (Z.div_mod b 8 ltac:(lia)). lia. }
  unfold ZERO. rewrite Hv. destruct rest as [|c rest]; cbn [printf_b Nat.ltb Nat.leb andb];
    rewrite Z.mod_small by lia; done.
Qed.

Lemma printf_encoded chunk rest : Forall is_u8 chunk ->
  printf_b InText (concat (map encode_byte chunk) ++ rest) = app chunk <$> printf_b InText rest.
Proof.
  induction 1 as [|b chunk Hb Hc IH]; [cbn; by destruct (printf_b InText rest)|].
  cbn [map concat]. rewrite <- app_assoc. unfold encode_byte at 1.
  destruct (negb _ && _) eqn:E.
  - apply andb_true_iff in E as [E _]. apply negb_true_iff in E. cbn [app printf_b]. rewrite E, IH.
    by destruct (printf_b InText rest).
  - rewrite printf_octal, IH by done. by destruct (printf_b InText rest).
Qed.

Lemma encode_byte_line b : is_u8 b -> Forall (fun c => c <> NEWLINE) (encode_byte b).
Proof.
  intros Hb. unfold is_u8, encode_byte, NEWLINE, ZERO, BACKSLASH in *. destruct (negb _ && _) eqn:E.
  - apply andb_true_iff in E as [_ E]. reflect_bools. repeat constructor. lia.
  - pose proof (Z.mod_pos_bound (b / 8) 8 ltac:(lia)). pose proof (Z.mod_pos_bound b 8 ltac:(lia)).
    assert (0 <= b / 64) by (apply Z.div_pos; lia). repeat constructor; lia.
Qed.

Lemma decode_line line more rest : Forall (fun c => c <> NEWLINE) more ->
  decode line (more ++ rest) = decode (line ++ more) rest.
Proof.
  intros Hm. revert line. induction Hm as [|c more Hc Hm IH]; intros line; [by rewrite app_nil_r|].
  cbn [app decode]. destruct (Z.eqb_spec c NEWLINE); [done|]. rewrite IH, <- app_assoc. done.
Qed.

Lemma decode_record chunk rest : Forall is_u8 chunk ->
  decode [] (encode_record chunk ++ rest) = (chunk ++ fst (decode [] rest), snd (decode [] rest)).
Proof.
  intros Hc. unfold encode_record.
  change (DATA :: concat (map encode_byte chunk) ++ [NEWLINE]) with
    ((DATA :: concat (map encode_byte chunk)) ++ [NEWLINE]). rewrite <- app_assoc, decode_line.
  - change ([NEWLINE] ++ rest) with (NEWLINE :: rest). cbn [app decode]. rewrite Z.eqb_refl.
    change (DATA =? DATA) with true. cbn iota.
    pose proof (printf_encoded chunk [] Hc) as Hp. rewrite app_nil_r in Hp. rewrite Hp. cbn. rewrite app_nil_r.
    by destruct (decode [] rest).
  - constructor; [done|]. apply Forall_concat, Forall_map. eapply Forall_impl; [done|]. apply encode_byte_line.
Qed.

Lemma decode_records l rest : Forall (Forall is_u8) l ->
  decode [] (concat (map encode_record l) ++ rest) = (concat l ++ fst (decode [] rest), snd (decode [] rest)).
Proof.
  induction 1 as [|chunk l Hc Hl IH]; [cbn; by destruct (decode [] rest)|].
  cbn [map concat]. rewrite <- app_assoc, decode_record, IH by done. cbn. by rewrite app_assoc.
Qed.

Lemma record_bytes_pos : (0 < RECORD_BYTES)%nat.
Proof. Transparent RECORD_BYTES. unfold RECORD_BYTES. lia. Opaque RECORD_BYTES. Qed.

(** What the decoder makes of whole requests: their input, until the first empty
    one. *)
Fixpoint input_of (reads : list bytes) : bytes * decoder :=
  match reads with
  | [] => ([], Waiting)
  | [] :: _ => ([], Closed)
  | read :: reads => let '(more, st) := input_of reads in (read ++ more, st)
  end.

Lemma decode_requests reads : Forall (Forall is_u8) reads ->
  decode [] (concat (map request reads)) = input_of reads.
Proof.
  induction 1 as [|read reads Hr Hrs IH]; [done|]. cbn [map concat input_of].
  destruct read as [|b read]; [reflexivity|].
  change (request (b :: read)) with (encode_records (b :: read)). unfold encode_records.
  rewrite decode_records by (by apply chunks_forall). rewrite (proj1 (chunks_spec RECORD_BYTES _ record_bytes_pos)).
  rewrite IH. by destruct (input_of reads).
Qed.

(** ** Forwarding *)

(** The reads whose requests were made. *)
Definition good_reads (reads : list (result bytes Error)) : list bytes :=
  omap (fun r => match r with Ok bs => Some bs | Err _ => None end) reads.

Lemma forward_sent reads answers :
  exists k, fst (forward reads answers) = map request (take k (good_reads reads)).
Proof.
  revert answers. induction reads as [|[read|e] reads IH]; intros answers; [by exists 0%nat| |by exists 0%nat].
  cbn [forward good_reads omap list_omap]. destruct answers as [|[[e ended]|] answers]; [by exists 1%nat..|].
  destruct read as [|b read]; [by exists 1%nat|].
  destruct (IH answers) as [k Hk]. destruct (forward reads answers) as [sent r]. cbn [fst] in *.
  exists (S k). cbn [take map]. by rewrite Hk.
Qed.

Lemma input_of_prefix reads : fst (input_of reads) `prefix_of` concat reads.
Proof.
  induction reads as [|[|b read] reads IH]; cbn [input_of concat]; [done|apply prefix_nil|].
  destruct (input_of reads) as [more st]. cbn [fst] in *. by apply prefix_app.
Qed.

Lemma input_of_state reads :
  snd (input_of reads) = Waiting \/
  snd (input_of reads) = Closed /\ exists before after, reads = before ++ [] :: after /\ fst (input_of reads) = concat before.
Proof.
  induction reads as [|[|b read] reads IH]; cbn [input_of]; [by left|right; split; [done|]; by exists [], reads|].
  destruct (input_of reads) as [more st]. cbn [fst snd] in *. destruct IH as [->|[-> (before & after & -> & ->)]]; [by left|].
  right. split; [done|]. by exists ((b :: read) :: before), after.
Qed.

Lemma input_of_closed pieces after : Forall (fun bs => bs <> []) pieces ->
  input_of (pieces ++ [] :: after) = (concat pieces, Closed).
Proof.
  induction 1 as [|[|b p] pieces Hp Hps IH]; [done|done|]. cbn [app input_of]. by rewrite IH.
Qed.

Lemma prefix_concat_take {A} k (l : list (list A)) : concat (take k l) `prefix_of` concat l.
Proof. rewrite <- (take_drop k l) at 2. rewrite concat_app. by exists (concat (drop k l)). Qed.

Lemma forward_accepted pieces answers : Forall (fun bs => bs <> []) pieces ->
  Forall (eq None) answers -> (length pieces < length answers)%nat ->
  forward (map Ok pieces ++ [Ok []]) answers = (map request (pieces ++ [[]]), Some (Ok tt)).
Proof.
  intros Hp. revert answers. induction Hp as [|piece pieces Hne Hps IH]; intros answers Ha Hl;
    (destruct answers as [|a answers]; [cbn in Hl; lia|]); apply Forall_cons in Ha as [<- Ha]; [done|].
  cbn [map app forward]. destruct piece as [|b piece]; [done|].
  rewrite IH; [done|done|cbn in Hl; lia].
Qed.

(** A command's streamed input arrives as it was read. Whatever the
    reader and the toolbox answer, and however many of the requests have arrived,
    the program has been written a prefix of the input, byte for byte, is never
    killed, and has its input closed only where the reader's input ended, with
    all of it before. When every request is accepted the whole input is written
    and then closed, and forwarding ends without an error. *)
Theorem streamed_stdin reads answers arrived pieces :
  Forall (Forall is_u8) (good_reads reads) ->
  Forall (fun bs => bs <> []) pieces -> Forall (Forall is_u8) pieces ->
  (let sent := fst (forward reads answers) in
   let '(written, st) := decode [] (concat (take arrived sent)) in
   written `prefix_of` concat (good_reads reads) /\
   (st = Waiting \/
    st = Closed /\ exists before after, good_reads reads = before ++ [] :: after /\ written = concat before)) /\
  (Forall (eq None) answers -> (length pieces < length answers)%nat ->
   let '(sent, ended) := forward (map Ok pieces ++ [Ok []]) answers in
   ended = Some (Ok tt) /\ decode [] (concat sent) = (concat pieces, Closed)).
Proof.
  intros Hr Hp Hpb. split.
  - destruct (forward_sent reads answers) as [k ->]. cbv zeta. rewrite firstn_map, decode_requests by (by apply Forall_take, Forall_take).
    rewrite take_take. set (got := take _ (good_reads reads)). pose proof (input_of_prefix got) as Hpre.
    pose proof (input_of_state got) as Hst. destruct (input_of got) as [written st]. cbn [fst snd] in *. split.
    + etrans; [exact Hpre|]. apply prefix_concat_take.
    + destruct Hst as [->|[-> (before & after & Hgot & ->)]]; [by left|]. right. split; [done|].
      exists before, (after ++ drop (arrived `min` k) (good_reads reads)). split; [|done].
      rewrite <- (take_drop (arrived `min` k) (good_reads reads)) at 1. fold got. rewrite Hgot. by rewrite <- app_assoc.
  - intros Ha Hl. rewrite forward_accepted by done. split; [done|].
    rewrite decode_requests by (apply Forall_app; split; [done|by repeat constructor]). by apply input_of_closed.
Qed.

(** A record the encoder did not write kills the program. *)
Example malformed_record : decode [] [DATA; 111; NEWLINE; 88; NEWLINE] = ([111], Killed).
Proof. reflexivity. Qed.

Lemma streamed_stdin_witness :
  let '(sent, ended) := forward [Ok [0; 92; 65]; Ok [255]; Ok []] [None; None; None] in
  ended = Some (Ok tt) /\ decode [] (concat sent) = ([0; 92; 65; 255], Closed).
Proof.
  destruct (streamed_stdin [Ok [0; 92; 65]] [None; None; None] 1 [[0; 92; 65]; [255]]) as [_ H].
  - repeat constructor; unfold is_u8; lia.
  - repeat constructor; discriminate.
  - repeat constructor; unfold is_u8; lia.
  - apply H; [repeat constructor|cbn; lia].
Defined.
