(* ===== verification/HostIds.v ===== *)
(** * Ids of host directories

    Models the ids of [crates/sandbox-driver-host/src]: the id a designated
    directory is known by ([directory_id] and [directory_from_id] of [lib.rs]) and
    the registry directory of an id ([resource_dir] and [missing] of
    [registry.rs]). A path is its bytes; indexing a string inside a character
    panics. *)

From S2P Require Import Prelude Text Ids Errors Hex.

#[local] Open Scope string_scope.
#[local] Open Scope Z_scope.

(** What code that can panic comes to. *)
Inductive outcome (A : Type) := Returns (a : A) | Panics.
Arguments Returns {A} a.
Arguments Panics {A}.

Definition missing (id : string) : Error := NotFound RkSandbox id.

Definition resource_char (b : ascii) : bool := is_ascii_alphanumeric b || Ascii.eqb b "-".

(** [registry::resource_dir]: the name of the directory under the root. *)
Definition resource_dir (id : string) : result string Error :=
  if starts_with "host-" id && all_chars resource_char id then Ok id else Err (missing id).

Definition DIRECTORY_ID_PREFIX : string := "host-dir-".

Definition hex_byte (a : ascii) : string :=
  String (hex_digit (code a / 16)) (String (hex_digit (code a mod 16)) EmptyString).

Fixpoint hex_text (path : string) : string :=
  match path with
  | EmptyString => EmptyString
  | String a path => hex_byte a +:+ hex_text path
  end.

Definition directory_id (path : string) : option string :=
  match try_new_sandbox_id (DIRECTORY_ID_PREFIX +:+ hex_text path) with
  | Ok id => Some id
  | Err _ => None
  end.

(** [u8::from_str_radix] on a text of two bytes: a sign may precede a digit. *)
Definition from_hex_pair (a b : ascii) : option Z :=
  match to_digit b with
  | None => None
  | Some low =>
      if Ascii.eqb a "+" then Some low
      else match to_digit a with Some high => Some (high * 16 + low) | None => None end
  end.

(** The iteration over the byte pairs of [whole] from [index] on, [rest] being
    what is left; it stops at the first pair that is not a byte. *)
Fixpoint decode_pairs (whole : string) (index : nat) (rest : string) : outcome (option bytes) :=
  match rest with
  | String a (String b rest) =>
      if is_char_boundary whole index && is_char_boundary whole (index + 2) then
        match from_hex_pair a b with
        | None => Returns None
        | Some byte =>
            match decode_pairs whole (index + 2) rest with
            | Returns (Some bs) => Returns (Some (byte :: bs))
            | r => r
            end
        end
      else Panics
  | _ => Returns (Some [])
  end.

(** [String::from_utf8]. *)
Definition from_utf8 (bs : bytes) : option string :=
  if bool_decide (utf8 (of_bytes bs)) then Some (of_bytes bs) else None.

Definition directory_from_id (id : string) : outcome (option string) :=
  match strip_prefix DIRECTORY_ID_PREFIX id with
  | None => Returns None
  | Some hex =>
      if is_empty hex || negb (Nat.even (String.length hex)) then Returns None
      else match decode_pairs hex 0 hex with
           | Returns (Some bs) => Returns (from_utf8 bs)
           | Returns None => Returns None
           | Panics => Panics
           end
  end.

Example root_id : directory_id "/a" = Some "host-dir-2f61". Proof. vm_compute. reflexivity. Qed.
Example root_path : directory_from_id "host-dir-2f61" = Returns (Some "/a"). Proof. vm_compute. reflexivity. Qed.

(** A character of two bytes across a pair of an id of even length: reading the
    path of that id panics. *)
Lemma torn_pair_panics :
  directory_from_id (DIRECTORY_ID_PREFIX +:+ of_bytes [97; 0xc3; 0xa9; 98]) = Panics /\
  is_ok (try_new_sandbox_id (DIRECTORY_ID_PREFIX +:+ of_bytes [97; 0xc3; 0xa9; 98])) = true.
Proof. split; vm_compute; reflexivity. Qed.

(** ** Round trip *)

Lemma hex_digit_char n : 0 <= n < 16 ->
  resource_char (hex_digit n) = true /\ in_range 0x80 0xbf (code (hex_digit n)) = false /\
  Ascii.eqb (hex_digit n) "+" = false /\ (code (hex_digit n) <? 128) = true.
Proof.
  intros Hn.
  pose proof (all_digits (fun n => resource_char (hex_digit n) && negb (in_range 0x80 0xbf (code (hex_digit n))) &&
    negb (Ascii.eqb (hex_digit n) "+") && (code (hex_digit n) <? 128)) n ltac:(vm_compute; reflexivity) Hn) as H.
  cbn beta in H. repeat (apply andb_true_iff in H as [H ?]).
  rewrite !negb_true_iff in *. by split_and!.
Qed.

Lemma hex_pair a : from_hex_pair (hex_digit (code a / 16)) (hex_digit (code a mod 16)) = Some (code a).
Proof.
  destruct (byte_digits a) as (Hh & Hl & E). unfold from_hex_pair.
  destruct (to_digit_hex _ Hh) as [-> _], (to_digit_hex _ Hl) as [-> _].
  destruct (hex_digit_char (code a / 16)) as (_ & _ & -> & _); [done|]. by rewrite E.
Qed.

Lemma hex_text_all (P : ascii -> bool) path : (forall n, 0 <= n < 16 -> P (hex_digit n) = true) ->
  all_chars P (hex_text path) = true.
Proof.
  intros HP. induction path as [|a path IH]; [done|].
  destruct (byte_digits a) as (Hh & Hl & _). cbn [hex_text hex_byte String.app all_chars]. by rewrite !HP, IH.
Qed.

Lemma length_hex_text path : String.length (hex_text path) = (2 * String.length path)%nat.
Proof. induction path as [|a path IH]; [done|]. cbn. cbn in IH. lia. Qed.

(** Every position of an ASCII string is a boundary. *)
Lemma ascii_boundary s i : all_chars (fun a => negb (in_range 0x80 0xbf (code a))) s = true ->
  (i <= String.length s)%nat -> is_char_boundary s i = true.
Proof.
  intros Hs Hi. unfold is_char_boundary. destruct i as [|i]; [done|]. revert i Hi. induction s as [|a s IH]; intros i Hi.
  - cbn in Hi. lia.
  - cbn [all_chars] in Hs. apply andb_true_iff in Hs as [_ Hs]. specialize (IH Hs). cbn [String.length] in Hi.
    cbn [String.get]. destruct i as [|i].
    + destruct s as [|b s]; [done|]. cbn [String.get]. cbn [all_chars] in Hs. by apply andb_true_iff in Hs as [-> _].
    + specialize (IH i ltac:(lia)). destruct (String.get (S i) s) eqn:E; [done|].
      apply Nat.eqb_eq in IH. apply Nat.eqb_eq. cbn. lia.
Qed.

Lemma decode_hex whole index path : all_chars (fun a => negb (in_range 0x80 0xbf (code a))) whole = true ->
  (index + 2 * String.length path <= String.length whole)%nat ->
  decode_pairs whole index (hex_text path) = Returns (Some (to_bytes path)).
Proof.
  intros Hw. revert index. induction path as [|a path IH]; intros index Hi; [done|].
  cbn [String.length] in Hi. cbn [hex_text hex_byte String.app decode_pairs].
  rewrite !ascii_boundary by (done || lia). cbn [andb]. rewrite hex_pair, IH by lia. done.
Qed.

Lemma directory_id_some path id : directory_id path = Some id ->
  id = DIRECTORY_ID_PREFIX +:+ hex_text path.
Proof.
  unfold directory_id, try_new_sandbox_id. destruct (validate_id _ _) as [v|e] eqn:E; [|done].
  intros [= <-]. by apply validate_id_spec in E as [-> _].
Qed.

Lemma hex_text_boundary path : all_chars (fun a => negb (in_range 0x80 0xbf (code a))) (hex_text path) = true.
Proof. apply hex_text_all. intros n Hn. by destruct (hex_digit_char n Hn) as (_ & -> & _). Qed.

(** The hexadecimal text of a path is read back. *)
Lemma decode_hex_text path : decode_pairs (hex_text path) 0 (hex_text path) = Returns (Some (to_bytes path)).
Proof. apply decode_hex; [apply hex_text_boundary|]. rewrite length_hex_text. lia. Qed.

Lemma hex_text_inj path path' : hex_text path = hex_text path' -> path = path'.
Proof.
  intros E. pose proof (decode_hex_text path) as H. rewrite E, decode_hex_text in H. injection H as H.
  by rewrite <- (of_to_bytes path), <- (of_to_bytes path'), H.
Qed.

Lemma directory_id_inj path path' id : directory_id path = Some id -> directory_id path' = Some id -> path = path'.
Proof.
  intros ->%directory_id_some H%directory_id_some. apply hex_text_inj.
  pose proof (proj2 (strip_prefix_spec DIRECTORY_ID_PREFIX _ (hex_text path)) eq_refl) as H1.
  rewrite H in H1. rewrite (proj2 (strip_prefix_spec DIRECTORY_ID_PREFIX _ (hex_text path')) eq_refl) in H1. congruence.
Qed.

(** The id of a directory carries its path: what an attach reads from the id is
    the path it was made from, no other path has it, and it names a directory of
    the registry. *)
Theorem directory_id_roundtrip path id : path <> EmptyString -> utf8 path -> directory_id path = Some id ->
  directory_from_id id = Returns (Some path) /\ resource_dir id = Ok id /\
  forall path', directory_id path' = Some id -> path' = path.
Proof.
  intros Hne Hu Hid. pose proof (directory_id_some path id Hid) as E. split_and!.
  - unfold directory_from_id. rewrite E, (proj2 (strip_prefix_spec DIRECTORY_ID_PREFIX _ (hex_text path)) eq_refl).
    rewrite length_hex_text, Nat.even_mul. destruct path as [|a path]; [done|]. cbn [hex_text hex_byte String.app is_empty negb orb Nat.even].
    change (String _ (String _ (hex_text path))) with (hex_text (String a path)). rewrite decode_hex_text.
    unfold from_utf8. by rewrite of_to_bytes, bool_decide_true.
  - unfold resource_dir. rewrite E. change (starts_with "host-" (DIRECTORY_ID_PREFIX +:+ hex_text path)) with true.
    rewrite all_chars_app. rewrite (hex_text_all resource_char); [done|]. intros n Hn. by destruct (hex_digit_char n Hn).
  - intros path' Hid'. by eapply directory_id_inj.
Qed.

Lemma directory_id_roundtrip_witness :
  directory_id "/srv" = Some "host-dir-2f737276" /\ directory_from_id "host-dir-2f737276" = Returns (Some "/srv").
Proof.
  split; [vm_compute; reflexivity|].
  apply (directory_id_roundtrip "/srv" "host-dir-2f737276"); [discriminate|vm_compute; reflexivity..].
Defined.
