(* ===== verification/Host.v ===== *)
(** * Lifecycle of the Host provider

    Models [crates/sandbox-driver-host/src]: the provider and its sandboxes
    ([lib.rs]) over the durable records of a registry ([registry.rs]). The state is
    what the provider holds in memory, the registry it owns, the one it may
    observe, and the directories of the machine; an operation is a computation on
    it that may fail or panic. Whether an input or output operation fails is an
    oracle, a list of answers taken one by one. Process groups are their admission
    here; [Fence] has the rest of them. Two handles of one sandbox share its state:
    a handle is an index into the sandboxes built so far. *)

From S2P Require Import Prelude Text Ids Capabilities Errors Spec Owned HostIds.

#[local] Open Scope string_scope.
#[local] Open Scope list_scope.
#[local] Open Scope Z_scope.

(** ** Records *)

Record HostRecord := mkRecord {
  rec_version : Z;
  rec_id : string;
  rec_name : option string;
  rec_workspace : string;
  rec_ownership : WorkspaceOwnership;
  rec_env : gmap string string;
  rec_labels : gmap string string;
  rec_state : SandboxState;
  rec_created_at : Z;
}.

Definition with_state (r : HostRecord) (s : SandboxState) : HostRecord :=
  mkRecord (rec_version r) (rec_id r) (rec_name r) (rec_workspace r) (rec_ownership r) (rec_env r) (rec_labels r) s
    (rec_created_at r).

(** [format!("{state:?}").to_lowercase()]. *)
Definition state_text (s : SandboxState) : string :=
  match s with
  | StCreating => "creating" | StStarting => "starting" | StRunning => "running" | StStopping => "stopping"
  | StStopped => "stopped" | StPausing => "pausing" | StPaused => "paused" | StResuming => "resuming"
  | StArchiving => "archiving" | StArchived => "archived" | StRestoring => "restoring" | StResizing => "resizing"
  | StForking => "forking" | StSnapshotting => "snapshotting" | StDeleting => "deleting" | StDeleted => "deleted"
  | StError => "error" | StUnknown => "unknown"
  end.

(** [Record::status]. *)
Definition record_status (r : HostRecord) (s : SandboxState) : SandboxStatus :=
  mkSandboxStatus (rec_id r) (rec_name r) s (state_text s) None None None None (rec_labels r) None None None
    (Some (rec_ownership r)) None (Some (rec_created_at r)) None.

(** What the directory of a registry entry holds. *)
Inductive Entry := NotADirectory | NoRecord | Undecodable | Holds (r : HostRecord).

(** The entries of a registry, in the order its directory lists them. *)
Notation Disk := (list (string * Entry)).

Definition entry_of (d : Disk) (id : string) : option Entry :=
  snd <$> find (fun e => bool_decide (fst e = id)) d.

(** A record renamed into place. *)
Fixpoint publish (d : Disk) (r : HostRecord) : Disk :=
  match d with
  | [] => [(rec_id r, Holds r)]
  | (id, e) :: d => if decide (id = rec_id r) then (id, Holds r) :: d else (id, e) :: publish d r
  end.

(** ** State *)

(** A sandbox the provider has built: its record as it was then, whether it is
    read-only, its live state and whether its process groups accept work. *)
Record HostSandbox := mkSandbox {
  h_record : HostRecord;
  h_read_only : bool;
  h_state : SandboxState;
  h_admits : bool;
}.

(** [unsynced] remembers that a published record could not be synced. *)
Record Host := mkHost {
  own : Disk;
  observed : option Disk;
  tree : gmap string bool;
  cache : gmap string nat;
  sandboxes : list HostSandbox;
  fresh : nat;
  faults : list (option Error);
  unsynced : bool;
}.

Definition set_own (st : Host) (d : Disk) : Host :=
  mkHost d (observed st) (tree st) (cache st) (sandboxes st) (fresh st) (faults st) (unsynced st).
Definition set_tree (st : Host) (t : gmap string bool) : Host :=
  mkHost (own st) (observed st) t (cache st) (sandboxes st) (fresh st) (faults st) (unsynced st).
Definition set_cache (st : Host) (c : gmap string nat) : Host :=
  mkHost (own st) (observed st) (tree st) c (sandboxes st) (fresh st) (faults st) (unsynced st).
Definition set_sandboxes (st : Host) (l : list HostSandbox) : Host :=
  mkHost (own st) (observed st) (tree st) (cache st) l (fresh st) (faults st) (unsynced st).
Definition set_fresh (st : Host) (n : nat) : Host :=
  mkHost (own st) (observed st) (tree st) (cache st) (sandboxes st) n (faults st) (unsynced st).
Definition set_faults (st : Host) (l : list (option Error)) : Host :=
  mkHost (own st) (observed st) (tree st) (cache st) (sandboxes st) (fresh st) l (unsynced st).
Definition set_unsynced (st : Host) : Host :=
  mkHost (own st) (observed st) (tree st) (cache st) (sandboxes st) (fresh st) (faults st) true.

(** ** Computations *)

Definition M (A : Type) : Type := Host -> Host * outcome (result A Error).

Definition ret {A} (a : A) : M A := fun st => (st, Returns (Ok a)).
Definition throw {A} (e : Error) : M A := fun st => (st, Returns (Err e)).
Definition panic {A} : M A := fun st => (st, Panics).
Definition lift {A} (r : result A Error) : M A := fun st => (st, Returns r).
Definition get : M Host := fun st => (st, Returns (Ok st)).
Definition modify (f : Host -> Host) : M unit := fun st => (f st, Returns (Ok tt)).

Definition bind {A B} (m : M A) (k : A -> M B) : M B :=
  fun st =>
    match m st with
    | (st, Returns (Ok a)) => k a st
    | (st, Returns (Err e)) => (st, Returns (Err e))
    | (st, Panics) => (st, Panics)
    end.

(** An error taken as a value. *)
Definition attempt {A} (m : M A) : M (result A Error) :=
  fun st => match m st with (st, Returns r) => (st, Returns (Ok r)) | (st, Panics) => (st, Panics) end.

Notation "'let!' x ':=' m 'in' k" := (bind m (fun x => k))
  (at level 10, x pattern, m at level 100, k at level 200) : driver_scope.
Notation "'do!' m 'in' k" := (bind m (fun _ => k))
  (at level 10, m at level 100, k at level 200) : driver_scope.

(** An operation on files or processes that may fail. *)
Definition io : M unit :=
  fun st =>
    match faults st with
    | Some e :: l => (set_faults st l, Returns (Err e))
    | None :: l => (set_faults st l, Returns (Ok tt))
    | [] => (st, Returns (Ok tt))
    end.

Definition is_not_found (e : Error) : bool := match e with NotFound _ _ => true | _ => false end.

(** ** The registry *)

Definition is_absolute (path : string) : bool := starts_with_char "/" path.

Definition differs : Error := Io "invalid host sandbox record" ["record identity, version, or workspace differs"].

Definition read (d : Disk) (id : string) : M HostRecord :=
  let! directory := lift (resource_dir id) in
  match entry_of d directory with
  | None | Some NoRecord => throw (missing id)
  | Some NotADirectory => throw (Io "reading host sandbox record" [])
  | Some Undecodable => do! io in throw (Io "decoding host sandbox record" [])
  | Some (Holds r) =>
      do! io in
      if negb (rec_version r =? 1) || negb (bool_decide (rec_id r = id)) || negb (is_absolute (rec_workspace r))
      then throw differs
      else ret r
  end.

(** The loop of [records] over the entries that are left. *)
Fixpoint read_entries (d : Disk) (entries : Disk) : M (list HostRecord) :=
  match entries with
  | [] => ret []
  | (_, NotADirectory) :: entries => read_entries d entries
  | (name, _) :: entries =>
      match try_new_sandbox_id name with
      | Err _ => read_entries d entries
      | Ok id =>
          let! r := attempt (read d id) in
          match r with
          | Ok record => let! more := read_entries d entries in ret (record :: more)
          | Err e => if is_not_found e then read_entries d entries else throw e
          end
      end
  end.

Definition records (d : Disk) : M (list HostRecord) := do! io in read_entries d d.

(** The directory is made and the record written beside its place, renamed into
    it, and the directory synced. *)
Definition write (r : HostRecord) : M unit :=
  do! lift (resource_dir (rec_id r)) in
  do! io in
  do! modify (fun st => set_own st (publish (own st) r)) in
  let! synced := attempt io in
  match synced with
  | Ok _ => ret tt
  | Err e => do! modify set_unsynced in throw e
  end.

(** ** Directories *)

Section Provider.
(** The canonical spelling of a path, the registry's own path, and what the
    counter's ids look like. *)
Context (resolve : string -> string) (root : string) (fresh_id : nat -> string) (now : Z).

Definition canonical_directory (path : string) : M string :=
  let! st := get in
  match tree st !! resolve path with
  | None => throw (Io ("designated directory " +:+ path +:+ " is not usable") [])
  | Some false => throw (InvalidSpec "working_directory" "designated path is not a directory")
  | Some true => do! io in ret (resolve path)
  end.

(** [create_dir_all], of the directory itself; a file in its place fails it. *)
Definition create_dir_all (path : string) : M unit :=
  do! io in
  let! st := get in
  if bool_decide (tree st !! resolve path = Some false) then throw (Io "creating directory" [])
  else modify (fun st => set_tree st (<[resolve path := true]> (tree st))).

(** Whether a path is a directory or is in it. *)
Definition within (dir path : string) : bool := bool_decide (path = dir) || starts_with (dir +:+ "/") path.

(** [remove_dir_all]; a directory that is gone is no error to its caller. *)
Definition remove_dir_all (path : string) : M unit :=
  let! st := get in
  match tree st !! path with
  | None => ret tt
  | Some _ =>
      do! io in
      modify (fun st => set_tree st (filter (fun e => within path (fst e) = false) (tree st)))
  end.

(** [WorkspacePlan]. *)
Inductive WorkspacePlan := PlanDesignated (path : string) | PlanManagedNamed (path : string) | PlanManagedFresh.

Definition plan_of (spec : SandboxSpec) : WorkspacePlan :=
  match working_directory spec with
  | None => PlanManagedFresh
  | Some path =>
      if bool_decide (workspace_ownership spec = Some Managed) then PlanManagedNamed path else PlanDesignated path
  end.

Definition designated_directory (plan : WorkspacePlan) : M (option string) :=
  match plan with
  | PlanDesignated path =>
      let! r := attempt (canonical_directory path) in
      ret (match r with Ok p => Some p | Err _ => None end)
  | _ => ret None
  end.

Definition realize (plan : WorkspacePlan) (id : string) : M (string * WorkspaceOwnership) :=
  match plan with
  | PlanDesignated path => let! path := canonical_directory path in ret (path, Designated)
  | PlanManagedNamed path =>
      do! create_dir_all path in
      let! path := canonical_directory path in ret (path, Managed)
  | PlanManagedFresh =>
      let! directory := lift (resource_dir id) in
      let path := root +:+ "/" +:+ directory +:+ "/workspace" in
      do! create_dir_all path in
      do! io in ret (resolve path, Managed)
  end.

(** ** Handles *)

(** [HostSandbox::new] and [cache_handle]. *)
Definition cache_handle (r : HostRecord) (read_only : bool) : M nat :=
  do! lift (resource_dir (rec_id r)) in
  let! st := get in
  let i := length (sandboxes st) in
  let h := mkSandbox r read_only (rec_state r) (read_only || bool_decide (rec_state r = StRunning)) in
  do! modify (fun st => set_sandboxes st (sandboxes st ++ [h])) in
  do! modify (fun st => set_cache st (<[rec_id r := i]> (cache st))) in
  ret i.

Definition sandbox (i : nat) : M HostSandbox :=
  let! st := get in
  match sandboxes st !! i with Some h => ret h | None => panic end.

(** [HostSandbox::status]. *)
Definition status (i : nat) : M SandboxStatus :=
  let! h := sandbox i in
  if h_read_only h then
    let! st := get in
    match observed st with
    | Some d => let! r := read d (rec_id (h_record h)) in ret (record_status r (rec_state r))
    | None => panic
    end
  else ret (record_status (h_record h) (h_state h)).

Definition remove_cached_handle (id : string) : M unit := modify (fun st => set_cache st (delete id (cache st))).

(** The record for an id, and whether it is the observed registry's. *)
Definition read_record (id : string) : M (HostRecord * bool) :=
  let! st := get in
  let! r := attempt (read (own st) id) in
  match r with
  | Ok r => ret (r, false)
  | Err e =>
      if negb (is_not_found e) then throw e
      else
        let! st := get in
        match observed st with
        | None => throw (missing id)
        | Some d => let! r := read d id in ret (r, true)
        end
  end.

Definition load (id : string) : M nat :=
  let! st := get in
  match cache st !! id with
  | Some i =>
      let! h := sandbox i in
      if h_read_only h then
        let! s := status i in
        if bool_decide (st_state s = StDeleted)
        then do! remove_cached_handle id in throw (missing id)
        else ret i
      else ret i
  | None =>
      let! (r, read_only) := read_record id in
      if bool_decide (rec_state r = StDeleted) then throw (missing id) else cache_handle r read_only
  end.

(** [recorded_at]: the own registry first. *)
Definition recorded_in (d : Disk) (workspace : string) : M (option string) :=
  let! l := records d in
  ret (rec_id <$> find (fun r => negb (bool_decide (rec_state r = StDeleted)) && bool_decide (rec_workspace r = workspace)) l).

Definition recorded_at (workspace : string) : M (option string) :=
  let! st := get in
  let! found := recorded_in (own st) workspace in
  match found, observed st with
  | Some id, _ => ret (Some id)
  | None, Some d => recorded_in d workspace
  | None, None => ret None
  end.

Definition fresh_record (id : string) (name : option string) (workspace : string) (ownership : WorkspaceOwnership)
    (env labels : gmap string string) : HostRecord :=
  mkRecord 1 id name workspace ownership env labels StRunning now.

Definition adopt_directory (id : string) : M nat :=
  match directory_from_id id with
  | Panics => panic
  | Returns None => throw (missing id)
  | Returns (Some path) =>
      let! workspace := attempt (canonical_directory path) in
      match workspace with
      | Err _ => throw (missing id)
      | Ok workspace =>
          if negb (bool_decide (directory_id workspace = Some id)) then throw (missing id)
          else
            do! io in
            let r := fresh_record id None workspace Designated ∅ ∅ in
            do! write r in
            cache_handle r false
      end
  end.

(** ** The provider *)

Definition unsupported (field reason : string) : result unit Error := Err (InvalidSpec field reason).

(** [validate_supported_creation_fields]. *)
Definition validate_supported (s : SandboxSpec) : result unit Error :=
  if negb (match resources s with mkResources None None None None => true | _ => false end)
  then unsupported "resources" "the host provider does not manage compute resources"
  else if is_some (user s) then unsupported "user" "the host provider always runs as the calling user"
  else if negb (match network s with ProviderDefault => true | _ => false end)
  then unsupported "network" "the host provider does not manage host networking"
  else if negb (match timers s with mkTimers None None None None None => true | _ => false end)
  then unsupported "timers" "the host provider does not support lifecycle timers"
  else if ephemeral s then unsupported "ephemeral" "the host provider does not support stop-triggered deletion"
  else if is_some (public s) then unsupported "public" "the host provider does not manage public access"
  else if is_some (region s) then unsupported "region" "the host provider does not select a region"
  else if negb (bool_decide (provider_config s = JNull))
  then unsupported "provider_config" "the host provider has no provider-specific creation options"
  else if is_some (sandbox_kind s)
  then unsupported "sandbox_kind" "the host provider does not provision containers or virtual machines"
  else if negb (match source s with HostDirectory => true | _ => false end)
  then unsupported "source" "the host provider only supports SandboxSource::HostDirectory"
  else match volumes s with [] => Ok tt | _ => unsupported "volumes" "the host provider has no volumes" end.

(** The part of [create] before its events: a fresh id, or a designated
    directory's own; and the handle cached for it. The registry's lock is released
    between the parts. *)
Definition create_lookup (spec : SandboxSpec) : M (string * option nat) :=
  do! lift (Spec.validate spec) in
  do! lift (validate_supported spec) in
  let! directory := designated_directory (plan_of spec) in
  let! id :=
    match match directory with Some d => directory_id d | None => None end with
    | Some id => ret id
    | None =>
        let! st := get in
        do! modify (fun st => set_fresh st (S (fresh st))) in
        match try_new_sandbox_id ("host-" +:+ fresh_id (fresh st)) with Ok id => ret id | Err _ => panic end
    end in
  let! st := get in
  ret (id, cache st !! id).

Definition create_record (spec : SandboxSpec) (id : string) : M HostRecord :=
  do! io in
  do! io in
  let! (workspace, ownership) := realize (plan_of spec) id in
  let r := fresh_record id (name spec) workspace ownership (env spec) (labels spec) in
  do! write r in
  ret r.

Definition create_finish (spec : SandboxSpec) (id : string) : M nat :=
  let! r := create_record spec id in
  cache_handle r false.

Definition create (spec : SandboxSpec) : M nat :=
  let! (id, existing) := create_lookup spec in
  match existing with Some i => ret i | None => create_finish spec id end.

Definition attach (id : string) : M nat :=
  let! loaded := attempt (load id) in
  let! i := match loaded with
            | Ok i => ret i
            | Err e => if is_not_found e then adopt_directory id else throw e
            end in
  let! h := sandbox i in
  if bool_decide (h_state h = StDeleted) then throw (missing id) else ret i.

(** The error of a directory no live record names. *)
Definition missing_directory (path : string) : Error := NotFound RkSandbox path.

Definition attach_directory (path : string) : M nat :=
  let! workspace := attempt (canonical_directory path) in
  match workspace with
  | Err _ => throw (missing_directory path)
  | Ok workspace =>
      let! id := recorded_at workspace in
      match id with Some id => load id | None => throw (missing_directory path) end
  end.

Definition listed (filter : SandboxFilter) (r : HostRecord) : bool :=
  negb (bool_decide (rec_state r = StDeleted)) &&
  forallb (fun kv => bool_decide (rec_labels r !! fst kv = Some (snd kv))) (map_to_list (filter_labels filter)).

Definition list_all (filter : SandboxFilter) : M (list SandboxStatus) :=
  let! st := get in
  let! mine := records (own st) in
  let! theirs :=
    match observed st with
    | None => ret []
    | Some d =>
        let! l := records d in
        ret (List.filter (fun r => negb (bool_decide (rec_id r ∈ map rec_id mine))) l)
    end in
  ret (map (fun r => record_status r (rec_state r)) (List.filter (listed filter) (mine ++ theirs))).

(** ** Lifecycle changes *)

Definition set_admits (i : nat) (admits : bool) : M unit :=
  modify (fun st => set_sandboxes st (alter (fun h => mkSandbox (h_record h) (h_read_only h) (h_state h) admits) i (sandboxes st))).

Definition set_live (i : nat) (s : SandboxState) : M unit :=
  modify (fun st => set_sandboxes st (alter (fun h => mkSandbox (h_record h) (h_read_only h) s (h_admits h)) i (sandboxes st))).

(** [admit_work], with [ProcessGroups::start] and [stop]: closed groups drain
    before they open, and close before they drain. *)
Definition admit_work (i : nat) (running : bool) : M unit :=
  let! h := sandbox i in
  if running
  then if h_admits h then ret tt else do! io in set_admits i true
  else do! set_admits i false in io.

Definition transition (i : nat) (action : Action) (target : SandboxState) (work : M unit) : M unit :=
  let! h := sandbox i in
  let id := rec_id (h_record h) in
  if h_read_only h then throw (ReadOnly RkSandbox id action)
  else if bool_decide (h_state h = StDeleted) then
    if bool_decide (target = StRunning) then throw (missing id) else remove_cached_handle id
  else
    do! admit_work i (bool_decide (target = StRunning)) in
    let! done_ := attempt (do! work in write (with_state (h_record h) target)) in
    match done_ with
    | Err e =>
        do! attempt (admit_work i (bool_decide (h_state h = StRunning))) in
        throw e
    | Ok _ =>
        do! set_live i target in
        if bool_decide (target = StDeleted) then remove_cached_handle id else ret tt
    end.

Definition remove_managed_workspace (i : nat) : M unit :=
  let! h := sandbox i in
  if negb (bool_decide (rec_ownership (h_record h) = Managed)) then ret tt
  else remove_dir_all (rec_workspace (h_record h)).

Definition start (i : nat) : M unit := transition i ActStart StRunning (ret tt).
Definition stop (i : nat) : M unit := transition i ActStop StStopped (ret tt).
Definition delete_handle (i : nat) : M unit := transition i ActDelete StDeleted (remove_managed_workspace i).

(** [SandboxProvider::delete]. *)
Definition provider_delete (id : string) : M unit :=
  let! loaded := attempt (load id) in
  match loaded with
  | Ok i => delete_handle i
  | Err e => if is_not_found e then ret tt else throw e
  end.

(** ** Runs *)

(** The calls of a provider and of its handles. *)
Inductive Op :=
  | OpCreate (spec : SandboxSpec)
  | OpAttach (id : string)
  | OpAttachDirectory (path : string)
  | OpDelete (id : string)
  | OpList (filter : SandboxFilter)
  | OpDescribe (i : nat)
  | OpStart (i : nat)
  | OpStop (i : nat)
  | OpDeleteHandle (i : nat).

Definition perform (op : Op) (st : Host) : Host :=
  match op with
  | OpCreate spec => fst (create spec st)
  | OpAttach id => fst (attach id st)
  | OpAttachDirectory path => fst (attach_directory path st)
  | OpDelete id => fst (provider_delete id st)
  | OpList filter => fst (list_all filter st)
  | OpDescribe i => fst (status i st)
  | OpStart i => fst (start i st)
  | OpStop i => fst (stop i st)
  | OpDeleteHandle i => fst (delete_handle i st)
  end.

(** No lifecycle call is made on a handle whose sandbox was deleted. *)
Definition on_live (op : Op) (st : Host) : Prop :=
  match op with
  | OpStart i | OpStop i | OpDeleteHandle i =>
      match sandboxes st !! i with Some h => h_state h <> StDeleted | None => True end
  | _ => True
  end.

(** A call, taken at once; or a change made by others: the machine's directories, the
    observed registry by its owner, and what will fail from now on. Unless its calls
    keep [apart], a lifecycle call may be made on a deleted sandbox's handle, and a create,
    which holds no lock throughout, may be overlapped by any calls: it looks, writes a
    record for any id that it or another has seen free, and caches a handle for what some
    create has written. *)
Inductive step (apart : bool) : Host -> Host -> Prop :=
  | step_op op st : (apart = true -> on_live op st) -> step apart st (perform op st)
  | step_look spec st : step apart st (fst (create_lookup spec st))
  | step_record spec id st : apart = false -> step apart st (fst (create_record spec id st))
  | step_cache spec id before r st : apart = false -> snd (create_record spec id before) = Returns (Ok r) ->
      step apart st (fst (cache_handle r false st))
  | step_tree t st : step apart st (set_tree st t)
  | step_observed d st : is_Some (observed st) ->
      step apart st (mkHost (own st) (Some d) (tree st) (cache st) (sandboxes st) (fresh st) (faults st) (unsynced st))
  | step_faults l st : step apart st (set_faults st l).

(** A provider that has just been opened over what the registries hold. *)
Definition opened (st : Host) : Prop :=
  cache st = ∅ /\ sandboxes st = [] /\ unsynced st = false /\ NoDup (map fst (own st)).

Definition reached (apart : bool) (st : Host) : Prop := exists st0, opened st0 /\ rtc (step apart) st0 st.

(** By calls that keep apart. *)
Definition reachable : Host -> Prop := reached true.

(** ** The provider's invariant *)

(** The sandbox [h] is recorded as it is; after a publication that could not be
    synced its state may differ. *)
Definition recorded (st : Host) (h : HostSandbox) : Prop :=
  exists s, entry_of (own st) (rec_id (h_record h)) = Some (Holds (with_state (h_record h) s)) /\
    (unsynced st = false -> s = h_state h).

(** A handle admits work only while its sandbox runs; a read-only one always. *)
Definition admits_well (h : HostSandbox) : Prop :=
  if h_read_only h then h_admits h = true else h_admits h = true -> h_state h = StRunning.

(** What every record read or made satisfies. *)
Definition good_record (r : HostRecord) : Prop :=
  rec_version r = 1 /\ is_absolute (rec_workspace r) = true /\ is_ok (resource_dir (rec_id r)) = true.

Record host_inv (apart : bool) (st : Host) : Prop := {
  hi_names : NoDup (map fst (own st));
  hi_cached id i : cache st !! id = Some i -> exists h, sandboxes st !! i = Some h /\ rec_id (h_record h) = id /\
    (h_read_only h = false -> h_state h <> StDeleted);
  hi_admits i h : sandboxes st !! i = Some h -> admits_well h /\ good_record (h_record h);
  hi_live i h : apart = true -> sandboxes st !! i = Some h -> h_read_only h = false -> h_state h <> StDeleted ->
    cache st !! rec_id (h_record h) = Some i /\ recorded st h;
}.

(** *** How computations keep it *)

(** [m] keeps [P], and yields what satisfies [Q]. *)
Definition keeps {A} (P : Host -> Prop) (m : M A) (Q : A -> Host -> Prop) : Prop :=
  forall st, P st -> P (fst (m st)) /\ forall a, snd (m st) = Returns (Ok a) -> Q a (fst (m st)).

Definition any {A} : A -> Host -> Prop := fun _ _ => True.

Lemma keeps_bind {A B} P (m : M A) (k : A -> M B) Q R :
  keeps P m Q -> (forall a st, P st -> Q a st -> P (fst (k a st)) /\ forall b, snd (k a st) = Returns (Ok b) -> R b (fst (k a st))) ->
  keeps P (bind m k) R.
Proof.
  intros Hm Hk st Hst. destruct (Hm st Hst) as [HP HQ]. unfold bind.
  destruct (m st) as [st1 [[a|e]|]]; cbn [fst snd] in *; [|by split|by split].
  apply Hk; [done|]. by apply HQ.
Qed.

Lemma keeps_attempt {A} P (m : M A) Q : keeps P m Q ->
  keeps P (attempt m) (fun r st => match r with Ok a => Q a st | Err _ => True end).
Proof.
  intros Hm st Hst. destruct (Hm st Hst) as [HP HQ]. unfold attempt.
  destruct (m st) as [st1 [[a|e]|]]; cbn [fst snd] in *; (split; [done|]); intros r [= <-]; [|done]. by apply HQ.
Qed.

(** What a computation that neither writes records nor touches handles leaves. *)
Definition frame (st st' : Host) : Prop :=
  own st' = own st /\ observed st' = observed st /\ cache st' = cache st /\ sandboxes st' = sandboxes st /\
  unsynced st' = unsynced st.

Definition quiet {A} (m : M A) : Prop := forall st, frame st (fst (m st)).

Lemma frame_refl st : frame st st.
Proof. by split_and!. Qed.

Lemma frame_trans st1 st2 st3 : frame st1 st2 -> frame st2 st3 -> frame st1 st3.
Proof. intros (? & ? & ? & ? & ?) (? & ? & ? & ? & ?). split_and!; congruence. Qed.

Lemma quiet_ret {A} (a : A) : quiet (ret a).
Proof. intros st. apply frame_refl. Qed.
Lemma quiet_throw {A} e : quiet (throw e : M A).
Proof. intros st. apply frame_refl. Qed.
Lemma quiet_panic {A} : quiet (panic : M A).
Proof. intros st. apply frame_refl. Qed.
Lemma quiet_lift {A} (r : result A Error) : quiet (lift r).
Proof. intros st. apply frame_refl. Qed.
Lemma quiet_get : quiet get.
Proof. intros st. apply frame_refl. Qed.
Lemma quiet_io : quiet io.
Proof. intros st. unfold io. destruct (faults st) as [|[e|] l]; by split_and!. Qed.

Lemma quiet_bind {A B} (m : M A) (k : A -> M B) : quiet m -> (forall a, quiet (k a)) -> quiet (bind m k).
Proof.
  intros Hm Hk st. specialize (Hm st). unfold bind. destruct (m st) as [st1 [[a|e]|]]; [|done..].
  eapply frame_trans; [done|apply Hk].
Qed.

Lemma quiet_attempt {A} (m : M A) : quiet m -> quiet (attempt m).
Proof. intros Hm st. specialize (Hm st). unfold attempt. by destruct (m st) as [st1 []]. Qed.

Hint Resolve quiet_ret quiet_throw quiet_panic quiet_lift quiet_get quiet_io : quiet.

(** Takes a computation apart. *)
Ltac quieten :=
  repeat first
    [ progress eauto with quiet
    | apply quiet_bind; [|intros ?]
    | apply quiet_attempt
    | match goal with |- quiet (match ?x with _ => _ end) => destruct x end
    | match goal with |- quiet (let _ := _ in _) => cbv zeta end ].

Lemma quiet_read d id : quiet (read d id).
Proof. unfold read. quieten. Qed.

Lemma quiet_read_entries d l : quiet (read_entries d l).
Proof.
  induction l as [|[name e] l IH]; cbn [read_entries]; [quieten|]. pose proof quiet_read.
  destruct e; quieten.
Qed.

Lemma quiet_records d : quiet (records d).
Proof. unfold records. pose proof (quiet_read_entries d). quieten. Qed.

Lemma quiet_set_tree f : quiet (modify (fun st => set_tree st (f st))).
Proof. intros st. by split_and!. Qed.

Lemma quiet_set_fresh f : quiet (modify (fun st => set_fresh st (f st))).
Proof. intros st. by split_and!. Qed.

Hint Resolve quiet_read quiet_read_entries quiet_records : quiet.

Lemma quiet_canonical path : quiet (canonical_directory path).
Proof. unfold canonical_directory. quieten. Qed.

Lemma quiet_create_dir_all path : quiet (create_dir_all path).
Proof. unfold create_dir_all. quieten; apply quiet_set_tree. Qed.

Lemma quiet_remove_dir_all path : quiet (remove_dir_all path).
Proof. unfold remove_dir_all. quieten; apply quiet_set_tree. Qed.

Hint Resolve quiet_canonical quiet_create_dir_all quiet_remove_dir_all : quiet.

Lemma quiet_sandbox i : quiet (sandbox i).
Proof. unfold sandbox. quieten. Qed.

Hint Resolve quiet_sandbox : quiet.

Lemma quiet_realize plan id : quiet (realize plan id).
Proof. unfold realize. quieten. Qed.

Lemma quiet_designated plan : quiet (designated_directory plan).
Proof. unfold designated_directory. quieten. Qed.

Lemma quiet_status i : quiet (status i).
Proof. unfold status. quieten. Qed.

Lemma quiet_read_record id : quiet (read_record id).
Proof. unfold read_record. quieten. Qed.

Hint Resolve quiet_realize quiet_designated quiet_status quiet_read_record : quiet.

Lemma quiet_recorded_at workspace : quiet (recorded_at workspace).
Proof. unfold recorded_at, recorded_in. quieten. Qed.

Lemma quiet_list filter : quiet (list_all filter).
Proof. unfold list_all. quieten. Qed.

Lemma quiet_create_lookup spec : quiet (create_lookup spec).
Proof. unfold create_lookup. quieten; apply quiet_set_fresh. Qed.

Lemma quiet_remove_managed i : quiet (remove_managed_workspace i).
Proof. unfold remove_managed_workspace. quieten. Qed.

Hint Resolve quiet_recorded_at quiet_list quiet_create_lookup quiet_remove_managed : quiet.

Lemma inv_frame apart st st' : frame st st' -> host_inv apart st -> host_inv apart st'.
Proof.
  intros (Ho & _ & Hc & Hs & Hu) [H1 H2 H3 H4]. constructor; unfold recorded; rewrite ?Ho, ?Hc, ?Hs, ?Hu; done.
Qed.

(** ** Records on the disk *)

Lemma entry_publish d r id : entry_of (publish d r) id = if decide (id = rec_id r) then Some (Holds r) else entry_of d id.
Proof.
  unfold entry_of. induction d as [|[n e] d IH]; cbn [publish find fst].
  - destruct (decide (id = rec_id r)) as [->|Hne].
    + by rewrite bool_decide_true.
    + by rewrite bool_decide_false by congruence.
  - destruct (decide (n = rec_id r)) as [->|Hn]; cbn [find fst].
    + destruct (decide (id = rec_id r)) as [->|Hne]; [by rewrite bool_decide_true|by rewrite !bool_decide_false by congruence].
    + destruct (decide (n = id)) as [->|Hid].
      * rewrite !bool_decide_true by done. by rewrite decide_False.
      * by rewrite !(bool_decide_false (n = id)) by done.
Qed.

Lemma publish_names d r : NoDup (map fst d) -> NoDup (map fst (publish d r)).
Proof.
  induction d as [|[n e] d IH]; cbn [publish map fst]; intros Hd; [repeat constructor; by intros ?%elem_of_nil|].
  destruct (decide (n = rec_id r)) as [->|Hn]; [done|]. cbn [map fst]. apply NoDup_cons in Hd as [Hnot Hd].
  constructor; [|by apply IH]. intros Hin. apply Hnot. clear -Hin Hn.
  induction d as [|[m e'] d IH]; cbn [publish map fst] in *.
  - apply list_elem_of_singleton in Hin. by rewrite Hin in Hn.
  - destruct (decide (m = rec_id r)); cbn [map fst] in *; [done|].
    apply elem_of_cons in Hin as [->|Hin]; [left|right; by apply IH].
Qed.

Lemma read_ok d id st r : snd (read d id st) = Returns (Ok r) ->
  entry_of d id = Some (Holds r) /\ rec_id r = id /\ rec_version r = 1 /\ is_absolute (rec_workspace r) = true.
Proof.
  unfold read, bind at 1, lift. destruct (resource_dir id) as [dir|e] eqn:Ed; [|done].
  assert (dir = id) as -> by (unfold resource_dir in Ed; destruct (_ && _) in Ed; congruence).
  destruct (entry_of d id) as [[| | |r']|] eqn:E; try done.
  - unfold bind. by destruct (io st) as [? [[]|]].
  - unfold bind. destruct (io st) as [st1 [[]|]]; [|done..].
    destruct (_ || _) eqn:Eb; [done|]. intros [= <-]. apply orb_false_iff in Eb as [[Hv Hid]%orb_false_iff Hp].
    apply negb_false_iff in Hv, Hid, Hp. apply bool_decide_eq_true in Hid. apply Z.eqb_eq in Hv. by split_and!.
Qed.

Lemma host_bind_ok {A B} (m : M A) (k : A -> M B) st st' b :
  bind m k st = (st', Returns (Ok b)) -> exists st1 a, m st = (st1, Returns (Ok a)) /\ k a st1 = (st', Returns (Ok b)).
Proof. unfold bind. destruct (m st) as [st1 [[a|e]|]]; [|done..]. intros H. by exists st1, a. Qed.

(** The three ways of a write: nothing, the record published and synced, or
    published only. *)
Lemma write_cases r st st' res : write r st = (st', res) ->
  (frame st st' /\ exists e, res = Returns (Err e)) \/
  (frame (set_own st (publish (own st) r)) st' /\ res = Returns (Ok tt)) \/
  (frame (set_unsynced (set_own st (publish (own st) r))) st' /\ exists e, res = Returns (Err e)).
Proof.
  unfold write, bind at 1, lift. destruct (resource_dir _) as [dir|e].
  2: { intros [= <- <-]. left. split; [apply frame_refl|eauto]. }
  unfold bind at 1. pose proof (quiet_io st) as Hq. destruct (io st) as [st1 [[[]|e]|]] eqn:E1; cbn [fst] in Hq.
  2: { intros [= <- <-]. left. eauto. }
  2: { exfalso. unfold io in E1. by destruct (faults st) as [|[]]. }
  unfold bind at 1, modify. unfold bind, attempt. set (st2 := set_own st1 _).
  assert (H2 : frame (set_own st (publish (own st) r)) st2).
  { destruct Hq as (Ho & ? & ? & ? & ?). subst st2. by split_and!; cbn; rewrite ?Ho. }
  pose proof (quiet_io st2) as Hq2. destruct (io st2) as [st3 [[[]|e]|]] eqn:E2; cbn [fst] in Hq2.
  - intros [= <- <-]. right. left. split; [by eapply frame_trans|done].
  - intros [= <- <-]. right. right. split; [|eauto]. destruct (frame_trans _ _ _ H2 Hq2) as (? & ? & ? & ? & ?).
    by split_and!.
  - exfalso. unfold io in E2. by destruct (faults st2) as [|[]].
Qed.

(** A sandbox replaced. *)
Definition put (st : Host) (i : nat) (h : HostSandbox) : Host := set_sandboxes st (<[i := h]> (sandboxes st)).

Lemma alter_put st i h f : sandboxes st !! i = Some h -> set_sandboxes st (alter f i (sandboxes st)) = put st i (f h).
Proof.
  intros Hi. unfold put. f_equal. apply list_eq. intros j. destruct (decide (i = j)) as [->|Hj].
  - rewrite list_lookup_alter_eq, Hi. rewrite list_lookup_insert_eq; [done|]. by apply lookup_lt_Some in Hi.
  - by rewrite list_lookup_alter_ne, list_lookup_insert_ne.
Qed.

Lemma frame_put st st' i h : frame st st' -> frame (put st i h) (put st' i h).
Proof. intros (? & ? & ? & Hs & ?). unfold put. by split_and!; cbn; rewrite ?Hs. Qed.

(** With its admission changed. *)
Definition admitting (h : HostSandbox) (a : bool) : HostSandbox := mkSandbox (h_record h) (h_read_only h) (h_state h) a.

Lemma put_put st i h h' : put (put st i h) i h' = put st i h'.
Proof. unfold put. cbn. by rewrite list_insert_insert_eq. Qed.

Lemma put_same st i h : sandboxes st !! i = Some h -> put st i h = st.
Proof. intros Hi. unfold put. rewrite list_insert_id by done. by destruct st. Qed.

Lemma lookup_put st i h h' : sandboxes st !! i = Some h -> sandboxes (put st i h') !! i = Some h'.
Proof. intros Hi. cbn. apply list_lookup_insert_eq. by apply lookup_lt_Some in Hi. Qed.

(** Admission as asked for, or an error: closing always closes. *)
Lemma admit_work_cases i running st h st' res : sandboxes st !! i = Some h -> admit_work i running st = (st', res) ->
  (res = Returns (Ok tt) /\ frame (put st i (admitting h running)) st') \/
  (exists e, res = Returns (Err e) /\ frame (put st i (admitting h (running && h_admits h))) st' /\ h_admits h && running = false).
Proof.
  intros Hi. unfold admit_work, sandbox, bind, get, ret. rewrite Hi. destruct running.
  - destruct (h_admits h) eqn:Ea.
    + intros [= <- <-]. left. split; [done|]. replace (admitting h true) with h by (destruct h; cbn in *; by subst).
      rewrite put_same by done. apply frame_refl.
    + pose proof (quiet_io st) as Hq. destruct (io st) as [st1 [[[]|e]|]] eqn:E; cbn [fst] in Hq.
      * unfold set_admits, modify. intros [= <- <-]. left. split; [done|].
        assert (Hi1 : sandboxes st1 !! i = Some h) by (destruct Hq as (_ & _ & _ & -> & _); done).
        rewrite (alter_put st1 i h) by done. by apply frame_put.
      * intros [= <- <-]. right. exists e. split; [done|]. split; [|done]. cbn [andb].
        replace (admitting h false) with h by (destruct h; cbn in *; by subst). by rewrite put_same.
      * exfalso. unfold io in E. by destruct (faults st) as [|[]].
  - unfold set_admits, modify. rewrite (alter_put st i h) by done. fold (admitting h false).
    pose proof (quiet_io (put st i (admitting h false))) as Hq.
    destruct (io (put st i (admitting h false))) as [st1 [[[]|e]|]] eqn:E; cbn [fst] in Hq; intros [= <- <-].
    + by left.
    + right. exists e. split; [done|]. split; [done|]. apply andb_false_r.
    + exfalso. unfold io in E. by destruct (faults _) as [|[]].
Qed.

Definition never_panics {A} (m : M A) (i : nat) : Prop :=
  forall st, is_Some (sandboxes st !! i) -> snd (m st) <> Panics.

(** A lifecycle change of a live sandbox: done, or failed with the state as it was
    and no work admitted but while it runs; the record is then the old one, or the
    new one that could not be synced. *)
Definition changed (st : Host) (i : nat) (h : HostSandbox) (target : SandboxState) : Host :=
  let st := put (set_own st (publish (own st) (with_state (h_record h) target))) i
              (mkSandbox (h_record h) (h_read_only h) target (bool_decide (target = StRunning))) in
  if bool_decide (target = StDeleted) then set_cache st (delete (rec_id (h_record h)) (cache st)) else st.

Definition refused (st : Host) (i : nat) (h : HostSandbox) (target : SandboxState) (a published : bool) : Host :=
  let st := put st i (admitting h a) in
  if published then set_unsynced (set_own st (publish (own st) (with_state (h_record h) target))) else st.

(** The rollback of a failed change, from any state it left. *)
Lemma rollback_cases i h st e : sandboxes st !! i = Some h ->
  exists a st', bind (attempt (admit_work i (bool_decide (h_state h = StRunning)))) (fun _ => throw e : M unit) st = (st', Returns (Err e)) /\
    (a = true -> h_state h = StRunning) /\ frame (put st i (admitting h a)) st'.
Proof.
  intros Hi. unfold bind, attempt. destruct (admit_work i _ st) as [st' r] eqn:E.
  destruct (admit_work_cases _ _ _ _ _ _ Hi E) as [[-> H]|(e' & -> & H & _)].
  - exists (bool_decide (h_state h = StRunning)), st'. split; [done|]. split; [by intros ?%bool_decide_eq_true|done].
  - eexists _, st'. split; [done|]. split; [|done]. by intros [?%bool_decide_eq_true _]%andb_true_iff.
Qed.

Lemma transition_cases i action target work st h st' res :
  sandboxes st !! i = Some h -> h_read_only h = false -> h_state h <> StDeleted ->
  quiet work -> never_panics work i ->
  transition i action target work st = (st', res) ->
  (res = Returns (Ok tt) /\ frame (changed st i h target) st') \/
  (exists e a published, res = Returns (Err e) /\ (a = true -> h_state h = StRunning) /\ frame (refused st i h target a published) st').
Proof.
  intros Hi Hro Hst Hw Hp. unfold transition, sandbox, bind at 1 2, get, ret. rewrite Hi, Hro, bool_decide_false by done.
  set (run := bool_decide (target = StRunning)). unfold bind at 1.
  destruct (admit_work i run st) as [st1 r1] eqn:E1.
  destruct (admit_work_cases i run st h st1 r1 Hi E1) as [[-> H1]|(e & -> & H1 & Ha)].
  2: { intros [= <- <-]. right. exists e, (run && h_admits h), false. split; [done|]. split; [|done].
       rewrite andb_comm. by rewrite Ha. }
  assert (Hi1 : sandboxes st1 !! i = Some (admitting h run)).
  { destruct H1 as (_ & _ & _ & -> & _). by apply (lookup_put st i h). }
  unfold bind at 1, attempt at 1. unfold bind at 1.
  pose proof (Hw st1) as Hq. pose proof (Hp st1 ltac:(by rewrite Hi1)) as Hnp.
  assert (Hrefuse : forall st2 e (published : bool), frame (if published then set_unsynced (set_own st1 (publish (own st1) (with_state (h_record h) target))) else st1) st2 ->
    bind (attempt (admit_work i (bool_decide (h_state h = StRunning)))) (fun _ => throw e : M unit) st2 = (st', res) ->
    exists e a published, res = Returns (Err e) /\ (a = true -> h_state h = StRunning) /\ frame (refused st i h target a published) st').
  { intros st2 e published H2. assert (Hi2 : sandboxes st2 !! i = Some (admitting h run)).
    { destruct H2 as (_ & _ & _ & -> & _). by destruct published. }
    pose proof (rollback_cases i _ st2 e Hi2) as Hback. cbn [h_state admitting] in Hback.
    destruct Hback as (a & st3 & -> & Ha & H3). intros [= <- <-]. exists e, a, published.
    split; [done|]. split; [done|]. eapply frame_trans; [|exact H3]. destruct H1 as (Ho & Hob & Hc & Hs & Hu).
    destruct H2 as (Ho2 & Hob2 & Hc2 & Hs2 & Hu2). unfold refused, frame.
    destruct published; cbn in *; rewrite ?Ho2, ?Ho, ?Hob2, ?Hob, ?Hc2, ?Hc, ?Hs2, ?Hs, ?Hu2, ?Hu, ?list_insert_insert_eq; done. }
  destruct (work st1) as [st2 [[[]|e]|]] eqn:Ework; cbn [fst snd] in *; [|intros H; right; by apply (Hrefuse st2 e false)|done].
  destruct (write (with_state (h_record h) target) st2) as [st3 r3] eqn:E3.
  assert (H12 : frame st1 st2) by done.
  destruct (write_cases _ _ _ _ E3) as [[H3 [e ->]]|[[H3 ->]|[H3 [e ->]]]].
  - intros H. right. apply (Hrefuse st3 e false); [by eapply frame_trans|done].
  - unfold set_live, bind, modify. intros H. left.
    assert (Hi3 : sandboxes st3 !! i = Some (admitting h run)).
    { destruct H3 as (_ & _ & _ & -> & _). destruct H12 as (_ & _ & _ & H12 & _). cbn. by rewrite H12. }
    rewrite (alter_put st3 i _ _ Hi3) in H. destruct H1 as (Ho1 & Hob1 & Hc1 & Hs1 & Hu1).
    destruct H12 as (Ho2 & Hob2 & Hc2 & Hs2 & Hu2). destruct H3 as (Ho3 & Hob3 & Hc3 & Hs3 & Hu3). cbn in Ho3, Hob3, Hc3, Hs3, Hu3.
    unfold changed. subst run. destruct (bool_decide (target = StDeleted)); injection H as <- <-; (split; [done|]); unfold frame; cbn in *;
      rewrite ?Ho3, ?Hob3, ?Hc3, ?Hs3, ?Hu3, ?Ho2, ?Hob2, ?Hc2, ?Hs2, ?Hu2, ?Ho1, ?Hob1, ?Hc1, ?Hs1, ?Hu1, ?list_insert_insert_eq; done.
  - intros H. right. apply (Hrefuse st3 e true); [|done]. destruct H12 as (Ho2 & Hob2 & Hc2 & Hs2 & Hu2).
    eapply frame_trans; [|exact H3]. unfold frame. cbn. by rewrite Ho2.
Qed.

(** ** The invariant is kept *)

#[local] Arguments entry_of : simpl never.
#[local] Arguments publish : simpl never.

(** A canonical path is absolute. *)
Hypothesis resolve_absolute : forall path, is_absolute (resolve path) = true.

Section Kept.
Context (apart : bool).

(** A live sandbox replaced by one with the same record: the others stand as they
    did. *)
Lemma inv_replace st i h h' d c u :
  host_inv apart st -> sandboxes st !! i = Some h -> h_read_only h = false -> h_state h <> StDeleted ->
  h_record h' = h_record h -> h_read_only h' = false -> admits_well h' ->
  NoDup (map fst d) -> (forall id, id <> rec_id (h_record h) -> entry_of d id = entry_of (own st) id) ->
  (unsynced st = true -> u = true) ->
  c = (if bool_decide (h_state h' = StDeleted) then delete (rec_id (h_record h)) (cache st) else cache st) ->
  (apart = true -> h_state h' <> StDeleted -> exists s, entry_of d (rec_id (h_record h)) = Some (Holds (with_state (h_record h) s)) /\ (u = false -> s = h_state h')) ->
  host_inv apart (mkHost d (observed st) (tree st) c (<[i := h']> (sandboxes st)) (fresh st) (faults st) u).
Proof.
  intros [H1 H2 H3 H4] Hi Hro Hst Hr' Hro' Ha Hd Hother Hu Hc Hrec.
  assert (Hlt : (i < length (sandboxes st))%nat) by (by apply lookup_lt_Some in Hi).
  constructor; cbn; [done|..].
  - intros id j Hj. assert (Hold : cache st !! id = Some j).
    { subst c. destruct (bool_decide _); [|done]. by apply lookup_delete_Some in Hj as [_ ?]. }
    destruct (H2 id j Hold) as (hj & Hhj & Hid & Hlive). destruct (decide (i = j)) as [<-|Hne].
    + rewrite Hi in Hhj. injection Hhj as <-. exists h'. rewrite list_lookup_insert_eq by done. rewrite Hr'. split; [done|].
      split; [done|]. intros _ Hdel. subst c. rewrite bool_decide_true in Hj by done. rewrite Hid, lookup_delete_eq in Hj. done.
    + exists hj. by rewrite list_lookup_insert_ne.
  - intros j hj Hj. destruct (decide (i = j)) as [<-|Hne].
    + rewrite list_lookup_insert_eq in Hj by done. injection Hj as <-. split; [done|]. rewrite Hr'. by apply (H3 i).
    + rewrite list_lookup_insert_ne in Hj by done. by apply (H3 j).
  - intros j hj Hap Hj Hroj Hstj. destruct (H4 i h Hap Hi Hro Hst) as [Hci _]. destruct (decide (i = j)) as [<-|Hne].
    + rewrite list_lookup_insert_eq in Hj by done. injection Hj as <-. rewrite Hr'. split.
      * subst c. by rewrite bool_decide_false.
      * unfold recorded. cbn. rewrite Hr'. by apply Hrec.
    + rewrite list_lookup_insert_ne in Hj by done. destruct (H4 j hj Hap Hj Hroj Hstj) as [Hcj Hrj].
      assert (Hid : rec_id (h_record hj) <> rec_id (h_record h)) by (intros E; rewrite E in Hcj; congruence).
      split.
      * subst c. destruct (bool_decide _); [|done]. by rewrite lookup_delete_ne by congruence.
      * destruct Hrj as (s & Hs & Hsu). exists s. cbn. rewrite Hother by done. split; [done|]. intros ->. apply Hsu.
        destruct (unsynced st); [by rewrite Hu in *|done].
Qed.

Lemma publish_other d r id : id <> rec_id r -> entry_of (publish d r) id = entry_of d id.
Proof. intros Hne. rewrite entry_publish. by rewrite decide_False. Qed.

Lemma publish_own d r : entry_of (publish d r) (rec_id r) = Some (Holds r).
Proof. rewrite entry_publish. by rewrite decide_True. Qed.

Lemma inv_changed st i h target : host_inv apart st -> sandboxes st !! i = Some h -> h_read_only h = false ->
  h_state h <> StDeleted -> host_inv apart (changed st i h target).
Proof.
  intros Hinv Hi Hro Hst.
  set (h' := mkSandbox (h_record h) (h_read_only h) target (bool_decide (target = StRunning))).
  pose proof (inv_replace st i h h' (publish (own st) (with_state (h_record h) target))
    (if bool_decide (h_state h' = StDeleted) then delete (rec_id (h_record h)) (cache st) else cache st) (unsynced st)
    Hinv Hi Hro Hst eq_refl Hro) as H.
  assert (E : changed st i h target = mkHost (publish (own st) (with_state (h_record h) target)) (observed st) (tree st)
    (if bool_decide (h_state h' = StDeleted) then delete (rec_id (h_record h)) (cache st) else cache st)
    (<[i := h']> (sandboxes st)) (fresh st) (faults st) (unsynced st)).
  { unfold changed. change (h_state h') with target. by destruct (bool_decide (target = StDeleted)). }
  rewrite E. apply H.
  - unfold admits_well. cbn. rewrite Hro. by intros ?%bool_decide_eq_true.
  - apply publish_names, Hinv.
  - intros id Hid. by apply publish_other.
  - done.
  - done.
  - intros _ _. exists target. split; [|done]. apply (publish_own (own st) (with_state (h_record h) target)).
Qed.

Lemma inv_refused st i h target a published : host_inv apart st -> sandboxes st !! i = Some h -> h_read_only h = false ->
  h_state h <> StDeleted -> (a = true -> h_state h = StRunning) -> host_inv apart (refused st i h target a published).
Proof.
  intros Hinv Hi Hro Hst Ha.
  set (d := if published then publish (own st) (with_state (h_record h) target) else own st).
  pose proof (inv_replace st i h (admitting h a) d (cache st) (unsynced st || published) Hinv Hi Hro Hst eq_refl Hro) as H.
  assert (E : refused st i h target a published = mkHost d (observed st) (tree st) (cache st)
    (<[i := admitting h a]> (sandboxes st)) (fresh st) (faults st) (unsynced st || published)).
  { unfold refused. subst d. destruct published; cbn; [by rewrite orb_true_r|]. by rewrite orb_false_r. }
  rewrite E. apply H.
  - unfold admits_well. cbn. by rewrite Hro.
  - subst d. destruct published; [apply publish_names|]; apply Hinv.
  - intros id Hid. subst d. destruct published; [by apply publish_other|done].
  - by intros ->.
  - cbn. by rewrite bool_decide_false.
  - intros Hap _. destruct (hi_live apart st Hinv i h Hap Hi Hro Hst) as [_ (s & Hs & Hsu)]. subst d. destruct published.
    + exists target. rewrite orb_true_r. split; [|done]. apply (publish_own (own st) (with_state (h_record h) target)).
    + exists s. rewrite orb_false_r. done.
Qed.

(** No live sandbox of the provider's own has the id, as long as calls keep apart. *)
Definition unclaimed (st : Host) (id : string) : Prop :=
  forall i h, apart = true -> sandboxes st !! i = Some h -> h_read_only h = false -> h_state h <> StDeleted -> rec_id (h_record h) <> id.

Lemma uncached_unclaimed st id : host_inv apart st -> cache st !! id = None -> unclaimed st id.
Proof. intros Hinv Hc i h Hap Hi Hro Hst E. destruct (hi_live apart st Hinv i h Hap Hi Hro Hst) as [Hci _]. rewrite E in Hci. congruence. Qed.

Lemma inv_published st r u : host_inv apart st -> unclaimed st (rec_id r) -> (unsynced st = true -> u = true) ->
  host_inv apart (mkHost (publish (own st) r) (observed st) (tree st) (cache st) (sandboxes st) (fresh st) (faults st) u).
Proof.
  intros [H1 H2 H3 H4] Hun Hu. constructor; cbn; [by apply publish_names|done..|].
  intros i h Hap Hi Hro Hst. destruct (H4 i h Hap Hi Hro Hst) as [Hc (s & Hs & Hsu)]. split; [done|].
  exists s. cbn. rewrite publish_other by (by eapply Hun). split; [done|]. intros ->. apply Hsu.
  destruct (unsynced st); [by rewrite Hu in *|done].
Qed.

Lemma with_state_same r : with_state r (rec_state r) = r.
Proof. by destruct r. Qed.

Lemma inv_cached st r ro : host_inv apart st -> unclaimed st (rec_id r) -> rec_state r <> StDeleted ->
  rec_version r = 1 -> is_absolute (rec_workspace r) = true ->
  (apart = true -> ro = false -> entry_of (own st) (rec_id r) = Some (Holds r)) ->
  host_inv apart (fst (cache_handle r ro st)).
Proof.
  intros [H1 H2 H3 H4] Hun Hst Hv Hp He. unfold cache_handle, bind, lift. destruct (resource_dir _) eqn:Ed; [|done].
  unfold get, modify, ret. cbn [fst]. set (h := mkSandbox r ro (rec_state r) _).
  assert (Hnew : (sandboxes st ++ [h]) !! length (sandboxes st) = Some h) by (by rewrite lookup_app_r, Nat.sub_diag).
  assert (Hold : forall j hj, (sandboxes st ++ [h]) !! j = Some hj -> (j = length (sandboxes st) /\ hj = h) \/ sandboxes st !! j = Some hj).
  { intros j hj Hj. apply lookup_app_Some in Hj as [?|[Hle Hj]]; [by right|]. left.
    destruct (j - length (sandboxes st))%nat eqn:E; [|done]. cbn in Hj. injection Hj as <-. split; [lia|done]. }
  constructor; cbn; [done|..].
  - intros id j Hj. apply lookup_insert_Some in Hj as [[<- <-]|[Hne Hj]]; [by exists h|].
    destruct (H2 id j Hj) as (hj & Hhj & Hrest). exists hj. split; [|done].
    rewrite lookup_app_l; [done|]. by apply lookup_lt_Some in Hhj.
  - intros j hj [[-> ->]|Hj]%Hold; [|by apply (H3 j)]. unfold h; cbn. split; [|by unfold good_record; rewrite Ed].
    unfold admits_well; cbn. destruct ro; cbn; [done|]. by intros ?%bool_decide_eq_true.
  - intros j hj Hap [[-> ->]|Hj]%Hold Hro Hst'.
    + subst h. cbn in *. subst ro. split; [by rewrite lookup_insert_eq|]. exists (rec_state r). cbn. split; [|done].
      rewrite with_state_same. by apply He.
    + destruct (H4 j hj Hap Hj Hro Hst') as [Hc (s & Hs & Hsu)]. split; [|by exists s].
      rewrite lookup_insert_ne; [done|]. by apply not_eq_sym, (Hun j hj).
Qed.

(** *** Its calls *)

Lemma canonical_ok path st st' p : canonical_directory path st = (st', Returns (Ok p)) -> p = resolve path.
Proof.
  intros H. unfold canonical_directory in H. apply host_bind_ok in H as (st1 & s1 & _ & H).
  destruct (tree s1 !! _) as [[]|]; [|done..]. apply host_bind_ok in H as (st2 & ? & _ & H). by injection H as <- <-.
Qed.

Lemma realize_absolute plan id st st' p o : realize plan id st = (st', Returns (Ok (p, o))) -> is_absolute p = true.
Proof.
  intros H. destruct plan; cbn [realize] in H.
  - apply host_bind_ok in H as (st1 & q & H1 & H). injection H as <- <- <-. by rewrite (canonical_ok _ _ _ _ H1).
  - apply host_bind_ok in H as (st0 & ? & _ & H). apply host_bind_ok in H as (st1 & q & H1 & H). injection H as <- <- <-.
    by rewrite (canonical_ok _ _ _ _ H1).
  - apply host_bind_ok in H as (st0 & ? & _ & H). apply host_bind_ok in H as (st1 & ? & _ & H). apply host_bind_ok in H as (st2 & ? & _ & H).
    by injection H as <- <- <-.
Qed.

Lemma bind_eq {A B} (m : M A) (k : A -> M B) st :
  bind m k st = match m st with
                | (st, Returns (Ok a)) => k a st
                | (st, Returns (Err e)) => (st, Returns (Err e))
                | (st, Panics) => (st, Panics)
                end.
Proof. reflexivity. Qed.

Lemma unclaimed_frame st st' id : frame st st' -> unclaimed st id -> unclaimed st' id.
Proof. intros (_ & _ & _ & Hs & _) Hun i h. rewrite Hs. apply Hun. Qed.

Lemma inv_evict st id : host_inv apart st -> unclaimed st id -> host_inv apart (set_cache st (delete id (cache st))).
Proof.
  intros [H1 H2 H3 H4] Hun. constructor; cbn; [done|..].
  - intros id' i [_ Hi]%lookup_delete_Some. by apply H2.
  - done.
  - intros i h Hap Hi Hro Hst. destruct (H4 i h Hap Hi Hro Hst) as [Hc Hr]. split; [|done].
    rewrite lookup_delete_ne; [done|]. by apply not_eq_sym, (Hun i h).
Qed.

(** An id cached as a read-only sandbox is not claimed. *)
Lemma observed_unclaimed st id i h : host_inv apart st -> cache st !! id = Some i -> sandboxes st !! i = Some h ->
  h_read_only h = true -> unclaimed st id.
Proof.
  intros Hinv Hc Hi Hro j hj Hap Hj Hroj Hstj E. destruct (hi_live apart st Hinv j hj Hap Hj Hroj Hstj) as [Hcj _].
  rewrite E in Hcj. congruence.
Qed.

(** After a quiet computation the rest starts from the same registry and handles. *)
Lemma inv_after {A B} (m : M A) (k : A -> M B) st : quiet m -> host_inv apart st ->
  (forall a st', m st = (st', Returns (Ok a)) -> frame st st' -> host_inv apart st' -> host_inv apart (fst (k a st'))) -> host_inv apart (fst (bind m k st)).
Proof.
  intros Hm Hinv Hk. pose proof (Hm st) as Hq. rewrite bind_eq. destruct (m st) as [st1 [[a|e]|]]; cbn [fst] in *.
  - apply Hk; [done|done|]. by eapply inv_frame.
  - by eapply inv_frame.
  - by eapply inv_frame.
Qed.

Lemma inv_quiet {A} (m : M A) st : quiet m -> host_inv apart st -> host_inv apart (fst (m st)).
Proof. intros Hm. apply inv_frame, Hm. Qed.

Lemma inv_write st r : host_inv apart st -> unclaimed st (rec_id r) ->
  let st' := fst (write r st) in
  host_inv apart st' /\ (snd (write r st) = Returns (Ok tt) -> unclaimed st' (rec_id r) /\ entry_of (own st') (rec_id r) = Some (Holds r)).
Proof.
  intros Hinv Hun. destruct (write r st) as [st1 r1] eqn:E. cbn [fst snd].
  destruct (write_cases _ _ _ _ E) as [[H [e ->]]|[[H ->]|[H [e ->]]]].
  - split; [by eapply inv_frame|done].
  - pose proof (inv_published st r (unsynced st) Hinv Hun (fun H => H)) as H1. split; [eapply inv_frame; [exact H|exact H1]|].
    intros _. split; [by eapply unclaimed_frame|]. destruct H as (-> & _). cbn. apply publish_own.
  - pose proof (inv_published st r true Hinv Hun (fun _ => eq_refl)) as H1. split; [eapply inv_frame; [exact H|exact H1]|done].
Qed.

Lemma inv_record st r : host_inv apart st -> unclaimed st (rec_id r) -> rec_state r <> StDeleted ->
  rec_version r = 1 -> is_absolute (rec_workspace r) = true ->
  host_inv apart (fst (bind (write r) (fun _ => cache_handle r false) st)).
Proof.
  intros Hinv Hun Hst Hv Hp. destruct (inv_write st r Hinv Hun) as [H1 H2]. rewrite bind_eq.
  destruct (write r st) as [st1 [[[]|e]|]]; cbn [fst snd] in *; [|done..]. destruct (H2 eq_refl) as [Hun1 He].
  by apply inv_cached.
Qed.

Lemma read_record_ok id st st' r ro : read_record id st = (st', Returns (Ok (r, ro))) ->
  rec_id r = id /\ rec_version r = 1 /\ is_absolute (rec_workspace r) = true /\
  (ro = false -> entry_of (own st) id = Some (Holds r)).
Proof.
  unfold read_record. intros H. apply host_bind_ok in H as (st1 & s1 & [= <- <-] & H).
  apply host_bind_ok in H as (st2 & r2 & H2 & H). unfold attempt in H2.
  destruct (read (own st) id st) as [st3 [r3|]] eqn:E; [|done]. injection H2 as <- <-. destruct r3 as [r3|e].
  - injection H as <- <- <-. destruct (read_ok (own st) id st r3) as (He & Hid & Hv & Hp); [by rewrite E|]. by split_and!.
  - destruct (negb (is_not_found e)); [done|]. apply host_bind_ok in H as (st4 & s4 & [= <- <-] & H).
    destruct (observed st3) as [d|]; [|done]. apply host_bind_ok in H as (st5 & r5 & H5 & H).
    injection H as <- <- <-. destruct (read_ok d id st3 r5) as (_ & Hid & Hv & Hp); [by rewrite H5|]. by split_and!.
Qed.

Lemma cache_handle_ok r ro st st' i : cache_handle r ro st = (st', Returns (Ok i)) ->
  exists h, sandboxes st' !! i = Some h /\ h_record h = r /\ h_read_only h = ro /\ h_state h = rec_state r.
Proof.
  unfold cache_handle, bind, lift. destruct (resource_dir _); [|done]. unfold get, modify, ret. intros [= <- <-]. cbn.
  eexists. rewrite lookup_app_r, Nat.sub_diag by done. by split_and!.
Qed.

Lemma inv_load id st : host_inv apart st ->
  host_inv apart (fst (load id st)) /\
  (forall i, snd (load id st) = Returns (Ok i) -> exists h, sandboxes (fst (load id st)) !! i = Some h /\
     rec_id (h_record h) = id /\ (h_read_only h = false -> h_state h <> StDeleted)) /\
  (forall e, snd (load id st) = Returns (Err e) -> unclaimed (fst (load id st)) id).
Proof.
  intros Hinv. unfold load.
  match goal with |- context [bind get ?k st] => change (bind get k st) with (k st st) end. cbv beta.
  destruct (cache st !! id) as [i|] eqn:Hc.
  - destruct (hi_cached apart st Hinv id i Hc) as (h & Hi & Hid & Hlive).
    assert (Hs : forall k : HostSandbox -> M nat, bind (sandbox i) k st = k h st).
    { intros k. unfold sandbox, bind, get, ret. by rewrite Hi. }
    rewrite !Hs. destruct (h_read_only h) eqn:Ero.
    2: { cbn [ret fst snd]. split; [done|]. split; [|discriminate]. intros j [= <-]. exists h. split; [done|]. split; [done|]. intros _. by apply Hlive. }
    pose proof (observed_unclaimed st id i h Hinv Hc Hi Ero) as Hun. pose proof (quiet_status i st) as Hq.
    rewrite (bind_eq (status i)). destruct (status i st) as [st1 [[s|e]|]]; cbn [fst snd] in *.
    + destruct (bool_decide (st_state s = StDeleted)).
      * unfold remove_cached_handle, bind, modify, throw. cbn [fst snd]. split; [|split; [done|]].
        -- apply inv_evict; [by eapply inv_frame|by eapply unclaimed_frame].
        -- intros e _. change (unclaimed st1 id). by eapply unclaimed_frame.
      * cbn [ret fst snd]. split; [by eapply inv_frame|]. split; [|discriminate]. intros j [= <-]. exists h.
        destruct Hq as (_ & _ & _ & -> & _). split; [done|]. split; [done|]. by rewrite Ero.
    + split; [by eapply inv_frame|]. split; [done|]. intros e' _. by eapply unclaimed_frame.
    + split; [by eapply inv_frame|]. by split.
  - pose proof (uncached_unclaimed st id Hinv Hc) as Hun. pose proof (quiet_read_record id st) as Hq.
    rewrite (bind_eq (read_record id)). destruct (read_record id st) as [st1 [[[r ro]|e]|]] eqn:E; cbn [fst snd] in *.
    + destruct (read_record_ok id st st1 r ro E) as (Hid & Hv & Hp & He). assert (Hinv1 : host_inv apart st1) by (by eapply inv_frame).
      assert (Hun1 : unclaimed st1 id) by (by eapply unclaimed_frame).
      destruct (bool_decide (rec_state r = StDeleted)) eqn:Ed.
      { cbn [throw fst snd]. by split_and!. }
      apply bool_decide_eq_false in Ed. split; [|split].
      * apply inv_cached; [done|by rewrite Hid|done..|]. intros _ ->. destruct Hq as (-> & _). rewrite Hid. by apply He.
      * intros i Hi. destruct (cache_handle r ro st1) as [st2 r2] eqn:E2. cbn in Hi. subst r2. cbn [fst].
        destruct (cache_handle_ok _ _ _ _ _ E2) as (h & Hh & <- & Hro & Hst). exists h. split; [done|]. split; [done|].
        intros _. by rewrite Hst.
      * unfold cache_handle, bind, lift. destruct (resource_dir _); [done|]. cbn [fst snd]. done.
    + split; [by eapply inv_frame|]. split; [done|]. intros e' _. by eapply unclaimed_frame.
    + split; [by eapply inv_frame|]. by split.
Qed.

Lemma inv_adopt id st : host_inv apart st -> unclaimed st id -> host_inv apart (fst (adopt_directory id st)).
Proof.
  intros Hinv Hun. unfold adopt_directory. destruct (directory_from_id id) as [[path|]|]; [|done..].
  apply inv_after; [quieten|done|]. intros workspace st1 Hw Hf1 Hinv1. destruct workspace as [workspace|]; [|done].
  unfold attempt in Hw. destruct (canonical_directory path st) as [st0 [r0|]] eqn:Ec; [|done]. injection Hw as -> ->.
  apply canonical_ok in Ec as ->. destruct (negb _); [done|]. apply inv_after; [quieten|done|]. intros [] st2 _ Hf2 Hinv2.
  apply (inv_record st2 (fresh_record id None (resolve path) Designated ∅ ∅)); [done| |done..|apply resolve_absolute].
  eapply unclaimed_frame; [exact Hf2|]. by eapply unclaimed_frame.
Qed.

(** What a create writes for a free id, and what is there when it has. *)
Lemma create_record_split spec id st : exists st' res, frame st st' /\
  (create_record spec id st = (st', res) /\ (forall r, res <> Returns (Ok r)) \/
   exists r, create_record spec id st = bind (write r) (fun _ => ret r) st' /\ rec_id r = id /\ rec_state r = StRunning /\
     rec_version r = 1 /\ is_absolute (rec_workspace r) = true).
Proof.
  unfold create_record. rewrite bind_eq. pose proof (quiet_io st) as H1.
  destruct (io st) as [st1 [[[]|e]|]]; cbn [fst] in H1; [|by eexists _, _; split; [exact H1|left]..].
  rewrite bind_eq. pose proof (frame_trans _ _ _ H1 (quiet_io st1)) as H2.
  destruct (io st1) as [st2 [[[]|e]|]]; cbn [fst] in H2; [|by eexists _, _; split; [exact H2|left]..].
  rewrite bind_eq. pose proof (frame_trans _ _ _ H2 (quiet_realize (plan_of spec) id st2)) as H3.
  destruct (realize (plan_of spec) id st2) as [st3 [[[workspace ownership]|e]|]] eqn:E; cbn [fst] in H3;
    [|by eexists _, _; split; [exact H3|left]..].
  apply realize_absolute in E. exists st3, Panics. split; [done|]. right. by eexists.
Qed.

Lemma inv_create_record spec id st : host_inv apart st -> unclaimed st id ->
  host_inv apart (fst (create_record spec id st)) /\
  forall r, snd (create_record spec id st) = Returns (Ok r) ->
    rec_id r = id /\ rec_state r <> StDeleted /\ rec_version r = 1 /\ is_absolute (rec_workspace r) = true /\
    unclaimed (fst (create_record spec id st)) id /\ entry_of (own (fst (create_record spec id st))) id = Some (Holds r).
Proof.
  intros Hinv Hun. destruct (create_record_split spec id st) as (st1 & res & Hf & [[-> Hno]|(r & -> & Hid & Hst & Hv & Hp)]).
  { cbn [fst snd]. split; [by eapply inv_frame|]. intros r Hr. by destruct (Hno r). }
  destruct (inv_write st1 r) as [Hinv1 Hok]; [by eapply inv_frame|rewrite Hid; by eapply unclaimed_frame|].
  rewrite bind_eq. destruct (write r st1) as [st2 [[[]|e]|]]; cbn [fst snd ret] in *; [|done..].
  split; [done|]. intros r' [= <-]. destruct (Hok eq_refl) as [Hun2 He]. rewrite Hst, Hid in *. by split_and!.
Qed.

Lemma inv_create spec st : host_inv apart st -> host_inv apart (fst (create spec st)).
Proof.
  intros Hinv. unfold create. apply inv_after; [apply quiet_create_lookup|done|].
  intros [id existing] st1 Hl Hf1 Hinv1. destruct existing as [i|]; [done|].
  assert (Hc : cache st1 !! id = None).
  { unfold create_lookup in Hl. apply host_bind_ok in Hl as (? & ? & _ & Hl). apply host_bind_ok in Hl as (? & ? & _ & Hl).
    apply host_bind_ok in Hl as (? & d & _ & Hl). apply host_bind_ok in Hl as (sa & id' & _ & Hl).
    apply host_bind_ok in Hl as (? & ? & [= <- <-] & Hl). by injection Hl as <- <- ->. }
  pose proof (uncached_unclaimed st1 id Hinv1 Hc) as Hun. unfold create_finish.
  destruct (inv_create_record spec id st1 Hinv1 Hun) as [Hinv2 Hok]. rewrite bind_eq.
  destruct (create_record spec id st1) as [st2 [[r|e]|]]; cbn [fst snd] in *; [|done..].
  destruct (Hok r eq_refl) as (Hid & Hst & Hv & Hp & Hun2 & He). by apply inv_cached; [|rewrite Hid|..|rewrite Hid].
Qed.

Lemma inv_attach id st : host_inv apart st -> host_inv apart (fst (attach id st)).
Proof.
  intros Hinv. destruct (inv_load id st Hinv) as (Hinv1 & _ & Herr). unfold attach. rewrite bind_eq. unfold attempt.
  destruct (load id st) as [st1 [r|]]; cbn [fst snd] in *; [|done].
  assert (H2 : host_inv apart (fst (match r with Ok i => ret i | Err e => if is_not_found e then adopt_directory id else throw e end st1))).
  { destruct r as [i|e]; [done|]. destruct (is_not_found e); [|done]. by apply inv_adopt, (Herr e). }
  rewrite bind_eq. destruct (match r with Ok i => ret i | Err e => _ end st1) as [st2 [[i|e]|]]; cbn [fst] in H2; [|done..].
  apply inv_quiet; [|done]. quieten.
Qed.

Lemma inv_attach_directory path st : host_inv apart st -> host_inv apart (fst (attach_directory path st)).
Proof.
  intros Hinv. unfold attach_directory. apply inv_after; [quieten|done|]. intros workspace st1 _ _ Hinv1.
  destruct workspace as [workspace|]; [|done]. apply inv_after; [quieten|done|]. intros [id|] st2 _ _ Hinv2; [|done].
  by apply inv_load.
Qed.

Lemma never_panics_ret i : never_panics (ret tt) i.
Proof. by intros st _. Qed.

Lemma io_returns st : exists st' r, io st = (st', Returns r).
Proof. unfold io. destruct (faults st) as [|[]]; eauto. Qed.

Lemma never_panics_remove i : never_panics (remove_managed_workspace i) i.
Proof.
  intros st [h Hi]. unfold remove_managed_workspace, sandbox, bind at 1 2, get, ret. rewrite Hi.
  destruct (negb _); [done|]. unfold remove_dir_all. rewrite bind_eq. cbn [get].
  destruct (tree st !! _); [|done]. rewrite bind_eq. destruct (io_returns st) as (st' & [[]|e] & ->); done.
Qed.

Lemma host_inv_transition i action target work st : host_inv apart st -> quiet work -> never_panics work i ->
  (forall h, apart = true -> sandboxes st !! i = Some h -> h_read_only h = false -> h_state h <> StDeleted) ->
  host_inv apart (fst (transition i action target work st)).
Proof.
  intros Hinv Hw Hp Hlive. destruct (sandboxes st !! i) as [h|] eqn:Hi.
  2: { unfold transition, sandbox, bind at 1 2, get. by rewrite Hi. }
  destruct (h_read_only h) eqn:Hro.
  { unfold transition, sandbox, bind at 1 2, get, ret. by rewrite Hi, Hro. }
  destruct (decide (h_state h = StDeleted)) as [Hd|Hst].
  { unfold transition, sandbox, bind at 1 2, get, ret. rewrite Hi, Hro, bool_decide_true by done.
    destruct (bool_decide _); [done|]. apply inv_evict; [done|]. intros j hj Hap. by destruct (Hlive h Hap eq_refl Hro). }
  destruct (transition i action target work st) as [st' res] eqn:E.
  destruct (transition_cases _ _ _ _ _ _ _ _ Hi Hro Hst Hw Hp E) as [[_ Hf]|(e & a & pub & _ & Ha & Hf)]; cbn [fst].
  - eapply inv_frame; [exact Hf|]. by apply inv_changed.
  - eapply inv_frame; [exact Hf|]. by apply inv_refused.
Qed.

Lemma inv_provider_delete id st : host_inv apart st -> host_inv apart (fst (provider_delete id st)).
Proof.
  intros Hinv. destruct (inv_load id st Hinv) as (Hinv1 & Hok & _). unfold provider_delete. rewrite bind_eq. unfold attempt.
  destruct (load id st) as [st1 [[i|e]|]]; cbn [fst snd] in *; [|by destruct (is_not_found e)|done].
  destruct (Hok i eq_refl) as (h & Hi & _ & Hlive).
  apply host_inv_transition; [done|apply quiet_remove_managed|apply never_panics_remove|].
  intros h' _. rewrite Hi. by intros [= <-].
Qed.

Lemma host_inv_step st st' : step apart st st' -> host_inv apart st -> host_inv apart st'.
Proof.
  destruct 1 as [op st Hlive|spec st|spec id st Ha|spec id before r st Ha Hr|t st|d st _|l st]; intros Hinv;
    try (by destruct Hinv; constructor).
  2: by apply inv_quiet; [apply quiet_create_lookup|].
  2: { apply inv_create_record; [done|]. intros i h Hap. congruence. }
  2: { destruct (create_record_split spec id before) as (st1 & res & _ & [[E Hno]|(r' & E & _ & Hst & Hv & Hp)]); rewrite E in Hr.
    { by destruct (Hno r). }
    rewrite bind_eq in Hr. destruct (write r' st1) as [st2 [[[]|e]|]]; [|done..]. injection Hr as <-.
    apply inv_cached; [done| |by rewrite Hst|done..|]; [intros i h Hap|intros Hap]; congruence. }
  assert (Hl : forall i h, (apart = true -> match sandboxes st !! i with Some h => h_state h <> StDeleted | None => True end) ->
    apart = true -> sandboxes st !! i = Some h -> h_read_only h = false -> h_state h <> StDeleted).
  { intros i h H Hap E. specialize (H Hap). by rewrite E in H. }
  destruct op; cbn [perform] in *.
  - by apply inv_create.
  - by apply inv_attach.
  - by apply inv_attach_directory.
  - by apply inv_provider_delete.
  - by apply inv_quiet; [apply quiet_list|].
  - by apply inv_quiet; [apply quiet_status|].
  - apply host_inv_transition; [done|apply quiet_ret|apply never_panics_ret|eauto].
  - apply host_inv_transition; [done|apply quiet_ret|apply never_panics_ret|eauto].
  - apply host_inv_transition; [done|apply quiet_remove_managed|apply never_panics_remove|eauto].
Qed.

Lemma inv_opened st : opened st -> host_inv apart st.
Proof. intros (Hc & Hs & Hu & Hd). constructor; rewrite ?Hc, ?Hs; done. Qed.

Lemma inv_reached st : reached apart st -> host_inv apart st.
Proof. intros (st0 & H0%inv_opened & Hsteps). induction Hsteps as [|a b c Hab _ IH]; [done|]. by apply IH, (host_inv_step a). Qed.
End Kept.

Lemma inv_reachable st : reachable st -> host_inv true st.
Proof. apply inv_reached. Qed.

(** ** What the provider promises *)


(** A lifecycle change a caller asks a handle for. *)
Inductive change := Start | Stop | Delete.

#[export] Instance change_eq_dec : EqDecision change.
Proof. solve_decision. Defined.

Definition target_of (c : change) : SandboxState :=
  match c with Start => StRunning | Stop => StStopped | Delete => StDeleted end.

Definition action_of (c : change) : Action := match c with Start => ActStart | Stop => ActStop | Delete => ActDelete end.

Definition run_change (c : change) (i : nat) : M unit :=
  match c with Start => start i | Stop => stop i | Delete => delete_handle i end.

Lemma run_change_cases c i st h st' res : sandboxes st !! i = Some h -> h_read_only h = false -> h_state h <> StDeleted ->
  run_change c i st = (st', res) ->
  (res = Returns (Ok tt) /\ frame (changed st i h (target_of c)) st') \/
  (exists e a published, res = Returns (Err e) /\ (a = true -> h_state h = StRunning) /\
     frame (refused st i h (target_of c) a published) st').
Proof.
  intros Hi Hro Hst. destruct c; (eapply transition_cases; [done|done|done|..]).
  - apply quiet_ret.
  - apply never_panics_ret.
  - apply quiet_ret.
  - apply never_panics_ret.
  - apply quiet_remove_managed.
  - apply never_panics_remove.
Qed.

Lemma sandboxes_changed st i h target st' : frame (changed st i h target) st' ->
  sandboxes st' = <[i := mkSandbox (h_record h) (h_read_only h) target (bool_decide (target = StRunning))]> (sandboxes st) /\
  own st' = publish (own st) (with_state (h_record h) target) /\ unsynced st' = unsynced st.
Proof.
  intros (Ho & _ & _ & Hs & Hu). rewrite Ho, Hs, Hu. unfold changed. by destruct (bool_decide (target = StDeleted)).
Qed.

(** What a lifecycle change does. A read-only handle refuses it and
    nothing changes. A deleted sandbox cannot start; stopping or deleting it again
    succeeds and only drops the cached handle. A change that succeeds leaves the
    sandbox in the asked state, accepting work just when it runs, with its record
    written; one that fails leaves its state, no work admitted but while it runs,
    and the old record, or the new one if only its sync failed. No other sandbox
    and no other record is touched. *)
Theorem lifecycle_change c i st h st' res : sandboxes st !! i = Some h -> run_change c i st = (st', res) ->
  let id := rec_id (h_record h) in
  if h_read_only h then st' = st /\ res = Returns (Err (ReadOnly RkSandbox id (action_of c)))
  else if bool_decide (h_state h = StDeleted) then
    if bool_decide (c = Start) then st' = st /\ res = Returns (Err (missing id))
    else st' = set_cache st (delete id (cache st)) /\ res = Returns (Ok tt)
  else exists h', sandboxes st' = <[i := h']> (sandboxes st) /\ h_record h' = h_record h /\
    (forall id', id' <> id -> entry_of (own st') id' = entry_of (own st) id') /\
    match res with
    | Returns (Ok _) =>
        h_state h' = target_of c /\ h_admits h' = bool_decide (target_of c = StRunning) /\
        entry_of (own st') id = Some (Holds (with_state (h_record h) (target_of c))) /\ unsynced st' = unsynced st
    | Returns (Err _) =>
        h_state h' = h_state h /\ (h_admits h' = true -> h_state h = StRunning) /\
        (own st' = own st /\ unsynced st' = unsynced st \/
         entry_of (own st') id = Some (Holds (with_state (h_record h) (target_of c))) /\ unsynced st' = true)
    | Panics => False
    end.
Proof.
  intros Hi Hrun id. destruct (h_read_only h) eqn:Hro.
  { destruct c; cbn [run_change] in Hrun; unfold start, stop, delete_handle, transition, sandbox, bind at 1 2, get, ret in Hrun;
      rewrite Hi, Hro in Hrun; injection Hrun as <- <-; done. }
  destruct (bool_decide (h_state h = StDeleted)) eqn:Hd.
  { destruct c; cbn [run_change] in Hrun; unfold start, stop, delete_handle, transition, sandbox, bind at 1 2, get, ret in Hrun;
      rewrite Hi, Hro, Hd in Hrun; injection Hrun as <- <-; done. }
  apply bool_decide_eq_false in Hd.
  destruct (run_change_cases c i st h st' res Hi Hro Hd Hrun) as [[-> Hf]|(e & a & pub & -> & Ha & Hf)].
  - destruct (sandboxes_changed _ _ _ _ _ Hf) as (Hs & Ho & Hu). eexists. split; [exact Hs|]. split; [done|]. rewrite Ho, Hu. split.
    + intros id' Hid. by apply publish_other.
    + split_and!; try done. apply (publish_own (own st) (with_state (h_record h) (target_of c))).
  - destruct Hf as (Ho & _ & _ & Hs & Hu). exists (admitting h a). unfold refused in *. destruct pub; cbn in Ho, Hs, Hu; rewrite Hs, Ho, Hu.
    + split; [done|]. split; [done|]. split; [intros id' Hid; by apply publish_other|]. split; [done|]. split; [done|].
      right. split; [|done]. apply (publish_own (own st) (with_state (h_record h) (target_of c))).
    + split_and!; try done. by left.
Qed.

(** A provider opened anew over the registry of another attaches to
    each of its live sandboxes and reports it as the first one did: id, name,
    labels, ownership, state. *)
Theorem restart_reports st i h st' : reachable st -> unsynced st = false ->
  sandboxes st !! i = Some h -> h_read_only h = false -> h_state h <> StDeleted ->
  opened st' -> own st' = own st -> faults st' = [] ->
  exists st1 j, attach (rec_id (h_record h)) st' = (st1, Returns (Ok j)) /\
    snd (status j st1) = snd (status i st) /\ snd (status i st) = Returns (Ok (record_status (h_record h) (h_state h))).
Proof.
  intros Hr Hu Hi Hro Hst (Hc & Hs & _ & _) Ho Hf. apply inv_reachable in Hr.
  destruct (hi_live true st Hr i h eq_refl Hi Hro Hst) as [_ (s & He & Hsu)]. specialize (Hsu Hu) as ->.
  destruct (hi_admits true st Hr i h Hi) as [_ (Hv & Hp & Hd)].
  set (id := rec_id (h_record h)) in *. set (r := with_state (h_record h) (h_state h)) in *.
  assert (Hdir : resource_dir id = Ok id).
  { unfold resource_dir in *. by destruct (_ && _). }
  assert (Hio : io st' = (st', Returns (Ok tt))) by (unfold io; by rewrite Hf).
  assert (Hread : read (own st') id st' = (st', Returns (Ok r))).
  { unfold read. rewrite bind_eq. unfold lift. rewrite Hdir, Ho, He, bind_eq, Hio. subst r. cbn [with_state rec_version rec_id rec_workspace].
    rewrite Hv, Hp, bool_decide_true by done. done. }
  assert (Hrec : read_record id st' = (st', Returns (Ok (r, false)))).
  { unfold read_record. rewrite bind_eq. cbn [get]. rewrite bind_eq. unfold attempt. rewrite Hread. done. }
  assert (Hload : load id st' = cache_handle r false st').
  { unfold load. rewrite bind_eq. cbn [get]. rewrite Hc, lookup_empty, bind_eq, Hrec. subst r. cbn [with_state rec_state].
    by rewrite bool_decide_false. }
  destruct (cache_handle r false st') as [st1 res] eqn:Ecache.
  assert (Hok : res = Returns (Ok 0%nat)).
  { unfold cache_handle in Ecache. rewrite bind_eq in Ecache. unfold lift in Ecache. subst r. cbn [with_state rec_id] in Ecache.
    fold id in Ecache. rewrite Hdir in Ecache. unfold bind, get, modify, ret in Ecache. rewrite Hs in Ecache. by injection Ecache as _ <-. }
  subst res. destruct (cache_handle_ok _ _ _ _ _ Ecache) as (h' & Hh' & Hr' & Hro' & Hst').
  assert (Hsand : forall (B : Type) (k : HostSandbox -> M B), bind (sandbox 0) k st1 = k h' st1).
  { intros B k. unfold sandbox, bind, get, ret. by rewrite Hh'. }
  exists st1, 0%nat. split.
  - unfold attach. rewrite bind_eq. unfold attempt. rewrite Hload. rewrite bind_eq. cbn [ret]. rewrite Hsand, Hst'.
    subst r. cbn [with_state rec_state]. by rewrite bool_decide_false.
  - unfold status. rewrite Hsand, Hro'. rewrite bind_eq. unfold sandbox, bind, get, ret. rewrite Hi, Hro. cbn [snd]. split; [|done].
    rewrite Hr', Hst'. subst r. done.
Qed.

(** ** Directories that are removed *)

(** From a state in [I], [m] stays in [I] and removes no directory but those in [D]. *)
Definition loses {A} (I : Host -> Prop) (D : string -> Prop) (m : M A) : Prop :=
  forall st, I st -> I (fst (m st)) /\
    forall p, is_Some (tree st !! p) -> tree (fst (m st)) !! p = None -> D p.

Section Loses.
Context (I : Host -> Prop) (D : string -> Prop).
Hypothesis I_sandboxes : forall st st', sandboxes st' = sandboxes st -> I st -> I st'.

Lemma loses_tree {A} (m : M A) : (forall st, sandboxes (fst (m st)) = sandboxes st /\ tree (fst (m st)) = tree st) -> loses I D m.
Proof.
  intros Hm st Hst. destruct (Hm st) as [Hs Ht]. split; [by eapply I_sandboxes|]. intros p [b Hp]. by rewrite Ht, Hp.
Qed.

Lemma loses_bind {A B} (m : M A) (k : A -> M B) : loses I D m -> (forall a, loses I D (k a)) -> loses I D (bind m k).
Proof.
  intros Hm Hk st Hst. destruct (Hm st Hst) as [HI HD]. rewrite bind_eq.
  destruct (m st) as [st1 [[a|e]|]]; cbn [fst] in *; [|done..]. destruct (Hk a st1 HI) as [HI2 HD2]. split; [done|].
  intros p Hp Hlost. destruct (tree st1 !! p) eqn:E; [by apply HD2|by apply HD].
Qed.

Lemma loses_attempt {A} (m : M A) : loses I D m -> loses I D (attempt m).
Proof.
  intros Hm st Hst. destruct (Hm st Hst) as [HI HD]. unfold attempt. by destruct (m st) as [st1 []].
Qed.

Lemma loses_io : loses I D io.
Proof. apply loses_tree. intros st. unfold io. by destruct (faults st) as [|[]]. Qed.

Lemma loses_grow path : loses I D (modify (fun st => set_tree st (<[path := true]> (tree st)))).
Proof.
  intros st Hst. split; [by eapply I_sandboxes, Hst|]. cbn. intros p Hp [Hlost _]%lookup_insert_None.
  rewrite Hlost in Hp. by destruct Hp.
Qed.

Ltac settle :=
  repeat first
    [ apply loses_bind; [|intros ?]
    | apply loses_attempt
    | apply loses_io
    | apply loses_grow
    | match goal with |- loses _ _ (match ?x with _ => _ end) => destruct x end
    | match goal with |- loses _ _ (let _ := _ in _) => cbv zeta end
    | solve [apply loses_tree; intros ?; by split]
    | solve [eauto] ].

Lemma loses_read d id : loses I D (read d id).
Proof. unfold read. settle. Qed.

Lemma loses_records d : loses I D (records d).
Proof.
  unfold records. apply loses_bind; [apply loses_io|]. intros _. generalize d at 2 as l. intros l. pose proof loses_read.
  induction l as [|[name e] l IH]; cbn [read_entries]; settle.
Qed.

Lemma loses_write r : loses I D (write r).
Proof. unfold write. settle. Qed.

Lemma loses_canonical path : loses I D (canonical_directory path).
Proof. unfold canonical_directory. settle. Qed.

Lemma loses_create_dir_all path : loses I D (create_dir_all path).
Proof. unfold create_dir_all. settle. Qed.

Lemma loses_realize plan id : loses I D (realize plan id).
Proof. unfold realize. pose proof loses_canonical. pose proof loses_create_dir_all. settle. Qed.

Lemma loses_sandbox i : loses I D (sandbox i).
Proof. unfold sandbox. settle. Qed.

Lemma loses_status i : loses I D (status i).
Proof. unfold status. pose proof loses_sandbox. pose proof loses_read. settle. Qed.

Lemma loses_read_record id : loses I D (read_record id).
Proof. unfold read_record. pose proof loses_read. settle. Qed.
End Loses.

(** Takes a computation apart, down to those whose directories are known. *)
Ltac settle_any :=
  repeat match goal with
  | |- loses _ _ (bind _ _) => apply loses_bind; [|intros ?]
  | |- loses _ _ (attempt _) => apply loses_attempt
  | |- loses _ _ io => by apply loses_io
  | |- loses _ _ (read _ _) => by apply loses_read
  | |- loses _ _ (records _) => by apply loses_records
  | |- loses _ _ (write _) => by apply loses_write
  | |- loses _ _ (canonical_directory _) => by apply loses_canonical
  | |- loses _ _ (realize _ _) => by apply loses_realize
  | |- loses _ _ (sandbox _) => by apply loses_sandbox
  | |- loses _ _ (status _) => by apply loses_status
  | |- loses _ _ (read_record _) => by apply loses_read_record
  | |- loses _ _ (match ?x with _ => _ end) => destruct x
  | |- loses _ _ _ => solve [eauto with preserves]
  | |- loses _ _ _ => solve [apply loses_tree; [done|intros ?; by split]]
  end.

(** Nothing is removed. *)
#[local] Notation preserves m := (loses (fun _ => True) (fun _ => False) m).

Lemma preserves_cache_handle r ro : preserves (cache_handle r ro).
Proof.
  unfold cache_handle. settle_any; intros st _; (split; [done|]); intros p [? Hp] Hl; cbn in Hl; congruence.
Qed.

Hint Resolve preserves_cache_handle : preserves.

Lemma preserves_load id : preserves (load id).
Proof.
  unfold load. settle_any; intros st _; (split; [done|]); intros p [? Hp] Hl; cbn in Hl; congruence.
Qed.

Lemma preserves_adopt id : preserves (adopt_directory id).
Proof. unfold adopt_directory. settle_any. Qed.

Hint Resolve preserves_load preserves_adopt : preserves.

Lemma preserves_attach id : preserves (attach id).
Proof. unfold attach. settle_any. Qed.

Lemma preserves_attach_directory path : preserves (attach_directory path).
Proof. unfold attach_directory, recorded_at, recorded_in. settle_any. Qed.

Lemma preserves_create spec : preserves (create spec).
Proof. unfold create, create_lookup, designated_directory, create_finish, create_record. settle_any. Qed.

Lemma preserves_list filter : preserves (list_all filter).
Proof. unfold list_all. settle_any. Qed.

(** ** Only managed workspaces are removed *)

(** Sandbox [i] has the record [r]. *)
Definition has_record (i : nat) (r : HostRecord) (st : Host) : Prop :=
  exists h, sandboxes st !! i = Some h /\ h_record h = r.

Lemma has_record_sandboxes i r st st' : sandboxes st' = sandboxes st -> has_record i r st -> has_record i r st'.
Proof. unfold has_record. by intros ->. Qed.

Lemma loses_alter i r D (f : HostSandbox -> HostSandbox) : (forall h, h_record (f h) = h_record h) ->
  loses (has_record i r) D (modify (fun st => set_sandboxes st (alter f i (sandboxes st)))).
Proof.
  intros Hf st (h & Hi & Hr). split.
  - exists (f h). cbn. rewrite list_lookup_alter_eq, Hi. by rewrite Hf.
  - intros p [? Hp] Hl. cbn in Hl. congruence.
Qed.

Lemma loses_uncache i r D id : loses (has_record i r) D (remove_cached_handle id).
Proof. apply loses_tree; [apply has_record_sandboxes|]. intros st. by split. Qed.

Lemma loses_admit_work i r D running : loses (has_record i r) D (admit_work i running).
Proof.
  unfold admit_work. apply loses_bind; [apply loses_sandbox, has_record_sandboxes|]. intros h.
  destruct running; [destruct (h_admits h)|].
  - apply loses_tree; [apply has_record_sandboxes|]. intros st. by split.
  - apply loses_bind; [apply loses_io, has_record_sandboxes|]. intros []. by apply loses_alter.
  - apply loses_bind; [by apply loses_alter|]. intros []. apply loses_io, has_record_sandboxes.
Qed.

Lemma loses_transition i r D action target work : loses (has_record i r) D work ->
  loses (has_record i r) D (transition i action target work).
Proof.
  intros Hw. unfold transition. apply loses_bind; [apply loses_sandbox, has_record_sandboxes|]. intros h. cbv zeta.
  assert (Hret : forall (A : Type) (res : outcome (result A Error)), loses (has_record i r) D (fun st => (st, res))).
  { intros A res. apply loses_tree; [apply has_record_sandboxes|]. intros st. by split. }
  destruct (h_read_only h); [apply Hret|]. destruct (bool_decide (h_state h = StDeleted)).
  { destruct (bool_decide _); [apply Hret|apply loses_uncache]. }
  apply loses_bind; [apply loses_admit_work|]. intros []. apply loses_bind.
  { apply loses_attempt, loses_bind; [done|]. intros []. apply loses_write, has_record_sandboxes. }
  intros [[]|e].
  - apply loses_bind; [by apply loses_alter|]. intros []. destruct (bool_decide _); [apply loses_uncache|apply Hret].
  - apply loses_bind; [apply loses_attempt, loses_admit_work|]. intros [].
    all: apply Hret.
Qed.

Lemma loses_remove_managed i r : loses (has_record i r)
  (fun p => rec_ownership r = Managed /\ within (rec_workspace r) p = true) (remove_managed_workspace i).
Proof.
  intros st Hst. pose proof Hst as (h & Hi & Hr). unfold remove_managed_workspace.
  assert (Hs : bind (sandbox i) (fun h => if negb (bool_decide (rec_ownership (h_record h) = Managed)) then ret tt
             else remove_dir_all (rec_workspace (h_record h))) st =
    (if negb (bool_decide (rec_ownership r = Managed)) then ret tt else remove_dir_all (rec_workspace r)) st).
  { unfold sandbox, bind at 1 2, get, ret at 1. by rewrite Hi, Hr. }
  rewrite Hs. clear Hs. destruct (bool_decide (rec_ownership r = Managed)) eqn:Em; cbn [negb].
  2: { split; [done|]. intros p [? Hp] Hl. cbn in Hl. congruence. }
  apply bool_decide_eq_true in Em. unfold remove_dir_all. rewrite bind_eq. cbn [get].
  destruct (tree st !! rec_workspace r); [|split; [done|]; intros p [? Hp] Hl; cbn in Hl; congruence].
  destruct (loses_io (has_record i r) (fun _ => False) (has_record_sandboxes i r) st Hst) as [HI HD].
  rewrite bind_eq. destruct (io st) as [st1 [[[]|e]|]]; cbn [fst] in *.
  - split; [exact HI|]. intros p Hp Hl. cbn in Hl. split; [done|].
    destruct (tree st1 !! p) as [d|] eqn:Ep; [|by destruct (HD p)].
    destruct (within (rec_workspace r) p) eqn:Ew; [done|].
    assert (Hk : filter (fun e : string * bool => within (rec_workspace r) (fst e) = false) (tree st1) !! p = Some d)
      by (by apply map_lookup_filter_Some).
    cbn in Hk. rewrite Hk in Hl. done.
  - split; [done|]. intros p Hp Hl. by destruct (HD p).
  - split; [done|]. intros p Hp Hl. by destruct (HD p).
Qed.

Lemma lost_in_delete i st p : is_Some (tree st !! p) -> tree (fst (delete_handle i st)) !! p = None ->
  exists h, sandboxes st !! i = Some h /\ rec_ownership (h_record h) = Managed /\ within (rec_workspace (h_record h)) p = true.
Proof.
  intros Hp Hl. destruct (sandboxes st !! i) as [h|] eqn:Hi.
  2: { unfold delete_handle, transition, sandbox, bind at 1 2, get in Hl. rewrite Hi in Hl. cbn in Hl. destruct Hp; congruence. }
  destruct (loses_transition i (h_record h) _ ActDelete StDeleted _ (loses_remove_managed i (h_record h)) st) as [_ HD].
  { by exists h. }
  exists h. split; [done|]. by apply HD.
Qed.

Lemma lost_in_change i action target st p : is_Some (tree st !! p) ->
  tree (fst (transition i action target (ret tt) st)) !! p = None -> False.
Proof.
  intros Hp Hl. destruct (sandboxes st !! i) as [h|] eqn:Hi.
  2: { unfold transition, sandbox, bind at 1 2, get in Hl. rewrite Hi in Hl. cbn in Hl. destruct Hp; congruence. }
  destruct (loses_transition i (h_record h) (fun _ => False) action target (ret tt)) with st as [_ HD]; [|by exists h|by eapply HD].
  apply loses_tree; [apply has_record_sandboxes|]. intros st'. by split.
Qed.

(** A caller's directory is safe. A directory that a call of the
    provider removes is, or lies in, the workspace of a sandbox whose record says
    that the provider manages it, and the call deletes that sandbox. *)
Theorem designated_untouched op st p : reachable st -> is_Some (tree st !! p) -> tree (perform op st) !! p = None ->
  exists r, rec_ownership r = Managed /\ within (rec_workspace r) p = true /\
    (op = OpDelete (rec_id r) \/ exists i h, op = OpDeleteHandle i /\ sandboxes st !! i = Some h /\ h_record h = r).
Proof.
  intros Hr%inv_reachable Hp Hl. destruct op; cbn [perform] in Hl;
    try (exfalso; first [by eapply (preserves_create spec st I)|by eapply (preserves_attach id st I)
      |by eapply (preserves_attach_directory path st I)|by eapply (preserves_list filter0 st I)|by eapply (preserves_list filter st I)
      |by eapply lost_in_change
      |destruct (loses_status (fun _ => True) (fun _ => False) ltac:(done) i st I) as [_ HD]; by eapply HD]).
  - destruct (inv_load true id st Hr) as (_ & Hok & _). destruct (preserves_load id st I) as [_ HD].
    unfold provider_delete in Hl. rewrite bind_eq in Hl. unfold attempt in Hl.
    destruct (load id st) as [st1 [[i|e]|]]; cbn [fst snd] in *.
    + destruct (Hok i eq_refl) as (h & Hi & Hid & _). destruct (tree st1 !! p) eqn:E; [|by destruct (HD p)].
      destruct (lost_in_delete i st1 p) as (h' & Hi' & Hm & Hw); [by rewrite E|done|]. rewrite Hi in Hi'. injection Hi' as <-.
      exists (h_record h). rewrite Hid. auto.
    + exfalso. apply (HD p Hp). by destruct (is_not_found e).
    + exfalso. by apply (HD p Hp).
  - destruct (lost_in_delete i st p Hp Hl) as (h & Hi & Hm & Hw). exists (h_record h). split_and!; [done..|]. right. by exists i, h.
Qed.
End Provider.

(** ** A provider at work *)

Definition demo_resolve (path : string) : string := if is_absolute path then path else "/" +:+ path.
Definition demo_fresh (n : nat) : string := "g" +:+ print_uint (Z.of_nat n).

Lemma demo_resolve_absolute path : is_absolute (demo_resolve path) = true.
Proof. unfold demo_resolve. by destruct (is_absolute path) eqn:E. Qed.

(** A caller's directory, and the spec of a sandbox on it; and of one whose
    workspace the provider manages. *)
Definition demo_empty : Host := mkHost [] None {["/w" := true]} ∅ [] 0 [] false.

Definition demo_spec (ownership : option WorkspaceOwnership) : SandboxSpec :=
  mkSandboxSpec None HostDirectory no_resources None ∅ {["team" := "a"]} None (Some "/w") ownership ProviderDefault [] no_timers
    false None None JNull.

Definition demo_id : string := "host-dir-2f77".

Definition demo_do (op : Op) (st : Host) : Host := perform demo_resolve "/r" demo_fresh 5 op st.
Definition demo_all (ops : list Op) : Host := foldl (fun st op => demo_do op st) demo_empty ops.

Lemma demo_opened : opened demo_empty.
Proof. split_and!; [done..|]. constructor. Qed.

Lemma demo_reached ops : reached demo_resolve "/r" demo_fresh 5 false (demo_all ops).
Proof.
  exists demo_empty. split; [apply demo_opened|]. unfold demo_all. generalize demo_empty as st.
  induction ops as [|op ops IH]; intros st; [done|]. eapply rtc_l; [|apply IH]. by apply step_op.
Qed.

(** The handle of a deleted sandbox still drops what is cached under its id. Once
    the directory has a new sandbox, a second stop of the deleted one makes the
    provider forget it: an attach then builds a third, whose stop leaves the
    second one's processes running while the registry says that all is stopped. *)
Lemma deleted_handle_evicts :
  let st := demo_all [OpCreate (demo_spec None); OpDeleteHandle 0; OpCreate (demo_spec None); OpStop 0;
                      OpAttach demo_id; OpStop 2] in
  reached demo_resolve "/r" demo_fresh 5 false st /\
  (exists h, sandboxes st !! 1%nat = Some h /\ h_state h = StRunning /\ h_admits h = true) /\
  (exists r, entry_of (own st) demo_id = Some (Holds r) /\ rec_state r = StStopped).
Proof. cbv zeta. split; [apply demo_reached|]. split; eexists; (split; [vm_compute; reflexivity|]); by vm_compute. Qed.

(** Attaching to a deleted designated directory makes a new sandbox of it, without
    its labels. *)
Lemma attach_revives :
  let st := demo_all [OpCreate (demo_spec None); OpDelete demo_id] in
  (exists r, entry_of (own st) demo_id = Some (Holds r) /\ rec_state r = StDeleted) /\
  let st := demo_do (OpAttach demo_id) st in
  exists r, entry_of (own st) demo_id = Some (Holds r) /\ rec_state r = StRunning /\ rec_labels r = ∅.
Proof. cbv zeta. split; eexists; (split; [vm_compute; reflexivity|]); by vm_compute. Qed.

(** A create on a directory that has a sandbox returns that one, whatever labels it is
    asked for: a scoped provider, which does not check what a create returns, hands out
    a sandbox that it does not own. *)
Lemma create_returns_foreign :
  let spec := with_labels (demo_spec None) (stamp ours (labels (demo_spec None))) in
  let st := demo_all [OpCreate (demo_spec None)] in
  owns ours (labels spec) = true /\
  exists i s, snd (create demo_resolve "/r" demo_fresh 5 spec st) = Returns (Ok i) /\ snd (status i st) = Returns (Ok s) /\
    owns ours (st_labels s) = false.
Proof. cbv zeta. split; [by vm_compute|]. do 2 eexists. split_and!; by vm_compute. Qed.

(** A stop whose drain fails leaves the sandbox running by its state, and refusing
    work. *)
Lemma failed_stop_refuses :
  let st := set_faults (demo_all [OpCreate (demo_spec None)]) [Some (Io "draining" [])] in
  exists h, sandboxes (demo_do (OpStop 0) st) !! 0%nat = Some h /\ h_state h = StRunning /\ h_admits h = false.
Proof. cbv zeta. eexists. split; [vm_compute; reflexivity|]. by vm_compute. Qed.

(** Two creates on one directory that both look before either is recorded give two
    live sandboxes one id. *)
Definition demo_record : HostRecord := fresh_record 5 demo_id None "/w" Designated ∅ {["team" := "a"]}.

Definition demo_racing : Host :=
  let look st := fst (create_lookup demo_resolve demo_fresh (demo_spec None) st) in
  let record st := fst (create_record demo_resolve "/r" 5 (demo_spec None) demo_id st) in
  let cached st := fst (cache_handle demo_record false st) in
  cached (record (cached (record (look (look demo_empty))))).

Lemma racing_reached : reached demo_resolve "/r" demo_fresh 5 false demo_racing.
Proof.
  assert (Hr : forall st, snd (create_record demo_resolve "/r" 5 (demo_spec None) demo_id demo_empty) = Returns (Ok demo_record) ->
    rtc (step demo_resolve "/r" demo_fresh 5 false) st
      (fst (cache_handle demo_record false (fst (create_record demo_resolve "/r" 5 (demo_spec None) demo_id st))))).
  { intros st H. eapply rtc_l; [by apply (step_record demo_resolve "/r" demo_fresh 5 false)|].
    apply rtc_once. by apply (step_cache demo_resolve "/r" demo_fresh 5 false (demo_spec None) demo_id demo_empty). }
  exists demo_empty. split; [apply demo_opened|]. do 2 (eapply rtc_l; [apply (step_look _ _ _ _ _ (demo_spec None))|]).
  etransitivity; apply Hr; by vm_compute.
Qed.

Lemma racing_creates :
  let look := create_lookup demo_resolve demo_fresh (demo_spec None) in
  snd (look demo_empty) = Returns (Ok (demo_id, None)) /\ snd (look (fst (look demo_empty))) = Returns (Ok (demo_id, None)) /\
  exists h h', sandboxes demo_racing !! 0%nat = Some h /\ sandboxes demo_racing !! 1%nat = Some h' /\
    rec_id (h_record h) = rec_id (h_record h') /\ h_state h = StRunning /\ h_state h' = StRunning.
Proof. cbv zeta. split_and!; [vm_compute; reflexivity..|]. do 2 eexists. split_and!; by vm_compute. Qed.

Lemma demo_reachable : reachable demo_resolve "/r" demo_fresh 5 (demo_all [OpCreate (demo_spec (Some Managed)); OpStop 0]).
Proof.
  exists demo_empty. split; [apply demo_opened|]. eapply rtc_l; [by apply (step_op demo_resolve "/r" demo_fresh 5 true (OpCreate (demo_spec (Some Managed))))|].
  apply rtc_once. apply (step_op demo_resolve "/r" demo_fresh 5 true (OpStop 0)). intros _. vm_compute. discriminate.
Qed.

Definition demo_stopped : Host := demo_all [OpCreate (demo_spec (Some Managed)); OpStop 0].

Definition demo_sandbox : HostSandbox :=
  mkSandbox (mkRecord 1 "host-g0" None "/w" Managed ∅ {["team" := "a"]} StRunning 5) false StStopped false.

Lemma demo_stopped_sandbox : sandboxes demo_stopped !! 0%nat = Some demo_sandbox.
Proof. vm_compute. reflexivity. Qed.


Lemma lifecycle_change_witness :
  exists st', run_change Start 0 demo_stopped = (st', Returns (Ok tt)) /\
  exists h', sandboxes st' = <[0%nat := h']> (sandboxes demo_stopped) /\ h_state h' = StRunning /\ h_admits h' = true.
Proof.
  exists (fst (run_change Start 0 demo_stopped)). split; [vm_compute; reflexivity|].
  destruct (lifecycle_change Start 0 demo_stopped demo_sandbox (fst (run_change Start 0 demo_stopped)) (Returns (Ok tt)) demo_stopped_sandbox)
    as (h' & Hs & _ & _ & Hst & Ha & _); [vm_compute; reflexivity|].
  exists h'. split; [exact Hs|]. split; [exact Hst|exact Ha].
Defined.

Definition demo_reopened : Host := mkHost (own demo_stopped) None ∅ ∅ [] 0 [] false.

Lemma restart_reports_witness :
  exists st1 j, attach demo_resolve 5 "host-g0" demo_reopened = (st1, Returns (Ok j)) /\
    snd (status j st1) = Returns (Ok (record_status (h_record demo_sandbox) StStopped)).
Proof.
  destruct (restart_reports demo_resolve "/r" demo_fresh 5 demo_resolve_absolute demo_stopped 0 demo_sandbox demo_reopened demo_reachable)
    as (st1 & j & Ha & Hs & He).
  - vm_compute. reflexivity.
  - exact demo_stopped_sandbox.
  - reflexivity.
  - discriminate.
  - split_and!; [reflexivity..|]. vm_compute. repeat constructor. by intros ?%elem_of_nil.
  - reflexivity.
  - reflexivity.
  - exists st1, j. split; [exact Ha|]. rewrite Hs. exact He.
Defined.

Lemma designated_untouched_witness :
  is_Some (tree demo_stopped !! "/w") /\ tree (demo_do (OpDeleteHandle 0) demo_stopped) !! "/w" = None /\
  exists r, rec_ownership r = Managed /\ within (rec_workspace r) "/w" = true.
Proof.
  split; [vm_compute; by eexists|]. split; [vm_compute; reflexivity|].
  destruct (designated_untouched demo_resolve "/r" demo_fresh 5 demo_resolve_absolute (OpDeleteHandle 0) demo_stopped "/w" demo_reachable)
    as (r & Hm & Hw & _); [vm_compute; by eexists|vm_compute; reflexivity|].
  exists r. split; [exact Hm|exact Hw].
Defined.
