(* ===== verification/DockerApi.v ===== *)
(** * The Docker daemon, as the provider calls it

    The calls of [crates/sandbox-driver-docker] to the daemon, with what it hands
    over and gets back, the errors of [daemon.rs] and the programs made of calls.
    The daemon is not the repository's: what the provider relies on is stated as
    the law [answers] of a call on what a daemon holds. A call may also fail, before or
    after it took effect, and between calls a container may exit and time passes; the
    other clients of the daemon are assumed to leave it alone meanwhile. [sim] is a
    daemon that keeps the law. *)

From S2P Require Import Prelude Text Errors.

#[local] Open Scope string_scope.
#[local] Open Scope list_scope.
#[local] Open Scope Z_scope.

(** ** Names of the provider *)

Definition MANAGED_LABEL : string := "sh.sandbox-driver.managed".
Definition SIDECAR_NETWORK_LABEL : string := "sh.sandbox-driver.sidecar-network".
Definition ONE_SHOT_LABEL : string := "sh.sandbox-driver.one-shot".
Definition NETWORK_LABEL : string := "sh.sandbox-driver.network".
Definition DEFAULT_WORKING_DIRECTORY : string := "/workspace".
Definition RUNTIME_DIRECTORY_PARENT : string := "/tmp/sandbox-driver".
Definition RUNTIME_DIRECTORY : string := "/tmp/sandbox-driver/runtime".
Definition POSIX_SH : string := "/bin/sh".
Definition docker_kind : string := "docker".

Definition non_empty {A} (items : list A) : option (list A) := match items with [] => None | _ => Some items end.

(** ** Errors *)

(** An error of the client, with its text. *)
Inductive ApiError :=
  | ServerError (status : Z) (text : string)
  | WaitError (code : Z) (text : string)
  | ClientError (text : string).

Definition api_text (e : ApiError) : string :=
  match e with ServerError _ t => t | WaitError _ t => t | ClientError t => t end.

Definition docker_error (context : string) (error : ApiError) : Error :=
  let provider := mkProviderError docker_kind None context false None [api_text error] in
  match error with
  | ServerError status _ =>
      Provider (mkProviderError docker_kind (Some (print_uint status)) context (500 <=? status) None [api_text error])
  | _ => Provider provider
  end.

Definition status_is (status : Z) (e : ApiError) : bool := match e with ServerError s _ => s =? status | _ => false end.
Definition is_not_found : ApiError -> bool := status_is 404.
Definition is_not_modified : ApiError -> bool := status_is 304.
Definition is_conflict : ApiError -> bool := status_is 409.

Definition tolerate_not_modified (outcome : result unit ApiError) (context : string) : result unit Error :=
  match outcome with
  | Ok _ => Ok tt
  | Err error => if is_not_modified error || is_not_found error then Ok tt else Err (docker_error context error)
  end.

(** ** What is handed over and got back *)

Inductive MountType := MtBind | MtVolume | MtOther.

#[export] Instance MountType_eq_dec : EqDecision MountType.
Proof. solve_decision. Defined.

Record Mount := mkMount { mt_target : option string; mt_source : option string; mt_type : option MountType; mt_read_only : option bool }.

Record HealthConfig := mkHealthConfig {
  hc_test : list string;
  hc_interval : option Z;
  hc_timeout : option Z;
  hc_retries : option Z;
  hc_start_period : option Z;
}.

Record HostConfig := mkHostConfig {
  network_mode : option string;
  binds : option (list string);
  mounts : option (list Mount);
  init : option bool;
  privileged : option bool;
  extra_hosts : option (list string);
  dns : option (list string);
  cap_add : option (list string);
  memory : option Z;
  cpu_quota : option Z;
}.

Record Config := mkConfig {
  image : string;
  cf_user : option string;
  entrypoint : option (list string);
  cmd : option (list string);
  working_dir : option string;
  cf_env : option (list string);
  cf_labels : gmap string string;
  healthcheck : option HealthConfig;
  host_config : HostConfig;
  (** The endpoints: networks with their aliases. *)
  endpoints : list (string * list string);
}.

Record DockerCredentials := mkCredentials { cred_username : string; cred_password : string; cred_server : option string }.

Record CreateOptions := mkCreateOptions { co_name : string; co_platform : option string }.

Inductive StateStatus := SsRunning | SsCreated | SsExited | SsPaused | SsRestarting | SsRemoving | SsDead | SsEmpty.

#[export] Instance StateStatus_eq_dec : EqDecision StateStatus.
Proof. solve_decision. Defined.

Inductive HealthStatus := HsHealthy | HsUnhealthy | HsOther.

Record ContainerState := mkState {
  status : option StateStatus;
  paused : option bool;
  is_running : option bool;
  exit_code : option Z;
  (** The health, when there is a check; its status, when it has one. *)
  health : option (option HealthStatus);
}.

Record MountPoint := mkPoint {
  mp_type : option MountType;
  mp_name : option string;
  mp_source : option string;
  mp_destination : option string;
  mp_rw : option bool;
}.

Record ContainerConfig := mkContainerConfig {
  cc_image : option string;
  cc_working_dir : option string;
  cc_labels : option (gmap string string);
  cc_env : option (list string);
}.

Record Inspect := mkInspect {
  in_id : option string;
  in_name : option string;
  in_state : option ContainerState;
  in_config : option ContainerConfig;
  in_network_mode : option string;
  in_networks : option (gset string);
  in_mounts : option (list MountPoint);
}.

(** ** Calls *)

Inductive Call :=
  | CreateContainer (options : option CreateOptions) (config : Config)
  | StartContainer (id : string)
  | StopContainer (id : string) (grace : Z)
  | PauseContainer (id : string)
  | UnpauseContainer (id : string)
  | KillContainer (id signal : string)
  | RemoveContainer (id : string) (volumes : bool)
  | InspectContainer (id : string)
  | ListContainers (labels : list string)
  | AttachContainer (id : string)
  | WaitContainer (id : string) (limit : Z)
  | CreateNetwork (name : string) (labels : gmap string string)
  | InspectNetwork (name : string)
  | ConnectNetwork (name id : string)
  | DisconnectNetwork (name id : string)
  | RemoveNetwork (name : string)
  | InspectImage (reference : string)
  | CreateImage (from_image tag platform : string) (credentials : option DockerCredentials)
  | BuildImage (dockerfile tag : string) (context : bytes)
  | Download (id path : string)
  | Logs (id : string) (tail limit : Z)
  | Ping
  | Now
  | Sleep (ms : Z).

(** What a call answers: a list the ids, a network the containers on it, a build the
    error it reports, a wait the code that came in time, the logs the bytes of both
    streams. *)
Definition Answer (c : Call) : Type :=
  match c with
  | CreateContainer _ _ => string
  | InspectContainer _ => Inspect
  | ListContainers _ => list (option string)
  | WaitContainer _ _ => option Z
  | InspectNetwork _ => option (gset string)
  | BuildImage _ _ _ => option string
  | Download _ _ => bytes
  | Logs _ _ _ => bytes
  | Now => Z
  | _ => unit
  end.

(** ** Programs *)

Inductive Prog (A : Type) :=
  | Return (r : result A Error)
  | Do (c : Call) (k : result (Answer c) ApiError -> Prog A).
Arguments Return {A} r.
Arguments Do {A} c k.

Definition pret {A} (a : A) : Prog A := Return (Ok a).
Definition pthrow {A} (e : Error) : Prog A := Return (Err e).

Fixpoint pbind {A B} (m : Prog A) (k : A -> Prog B) : Prog B :=
  match m with
  | Return (Ok a) => k a
  | Return (Err e) => Return (Err e)
  | Do c h => Do c (fun r => pbind (h r) k)
  end.

(** The program that goes on from the other's result, error or not. *)
Fixpoint pmatch {A B} (m : Prog A) (k : result A Error -> Prog B) : Prog B :=
  match m with
  | Return r => k r
  | Do c h => Do c (fun r => pmatch (h r) k)
  end.

Notation "'let*' x ':=' m 'in' k" := (pbind m (fun x => k))
  (at level 10, x pattern, m at level 100, k at level 200) : driver_scope.
Notation "'seq*' m 'in' k" := (pbind m (fun _ => k))
  (at level 10, m at level 100, k at level 200) : driver_scope.

(** A call whose failure is the provider's error with that context. *)
Definition call (context : string) (c : Call) : Prog (Answer c) :=
  Do c (fun r => match r with Ok a => pret a | Err e => pthrow (docker_error context e) end).

(** ** A run *)

Section Run.
Context {W : Type} (daemon : forall c : Call, W -> W * result (Answer c) ApiError).

Fixpoint run {A} (m : Prog A) (w : W) : W * result A Error :=
  match m with
  | Return r => (w, r)
  | Do c k => let '(w, r) := daemon c w in run (k r) w
  end.

Lemma run_bind {A B} (m : Prog A) (k : A -> Prog B) w :
  run (pbind m k) w = let '(w, r) := run m w in match r with Ok a => run (k a) w | Err e => (w, Err e) end.
Proof. revert w. induction m as [[a|e]|c h IH]; intros w; cbn [pbind run]; [done..|]. destruct (daemon c w). apply IH. Qed.

Lemma run_match {A B} (m : Prog A) (k : result A Error -> Prog B) w :
  run (pmatch m k) w = let '(w, r) := run m w in run (k r) w.
Proof. revert w. induction m as [r|c h IH]; intros w; cbn [pmatch run]; [done|]. destruct (daemon c w). apply IH. Qed.
End Run.

(** ** What a daemon holds *)

Record Container := mkContainer {
  c_name : string;
  c_labels : gmap string string;
  c_mode : string;
  c_networks : gset string;
  c_running : bool;
  c_paused : bool;
}.

Record Daemon := mkDaemon { containers : gmap string Container; networks : gset string; clock : Z }.

(** Whether a container is the one a reference names: by its id, else by its name or
    the head of its id. *)
Definition refers (d : Daemon) (r id : string) : bool :=
  match containers d !! id with
  | None => false
  | Some c =>
      if bool_decide (is_Some (containers d !! r)) then String.eqb r id
      else String.eqb (c_name c) r || starts_with r id
  end.

(** A filter is a label's key, or its key and value. *)
Definition labelled (c : Container) (labels : list string) : bool :=
  forallb (fun l => match split_once "=" l with
    | Some (k, v) => bool_decide (c_labels c !! k = Some v)
    | None => bool_decide (is_Some (c_labels c !! l))
    end) labels.

Definition put (id : string) (c : Container) (d : Daemon) : Daemon :=
  mkDaemon (<[id := c]> (containers d)) (networks d) (clock d).
Definition drop_container (id : string) (d : Daemon) : Daemon :=
  mkDaemon (delete id (containers d)) (networks d) (clock d).
Definition with_networks (n : gset string) (d : Daemon) : Daemon := mkDaemon (containers d) n (clock d).
Definition set_run (running paused : bool) (c : Container) : Container :=
  mkContainer (c_name c) (c_labels c) (c_mode c) (c_networks c) running paused.
Definition set_networks (n : gset string) (c : Container) : Container :=
  mkContainer (c_name c) (c_labels c) (c_mode c) n (c_running c) (c_paused c).

(** The same, but for the time. *)
Definition later (d d' : Daemon) : Prop :=
  containers d' = containers d /\ networks d' = networks d /\ clock d <= clock d'.

(** What an inspect tells of a container. *)
Definition describes (id : string) (c : Container) (i : Inspect) : Prop :=
  in_id i = Some id /\ in_name i = Some ("/" +:+ c_name c) /\
  (in_config i ≫= cc_labels) = Some (c_labels c) /\ in_network_mode i = Some (c_mode c) /\
  in_networks i = Some (c_networks c) /\
  exists st, in_state i = Some st /\ is_running st = Some (c_running c) /\ paused st = Some (c_paused c) /\
    (status st = Some SsRunning -> c_running c = true /\ c_paused c = false).

(** A container that is named, and what it becomes. *)
Definition updates (r : string) (d d' : Daemon) (f : Container -> Container -> Prop) : Prop :=
  exists id c c', refers d r id = true /\ containers d !! id = Some c /\ f c c' /\ later (put id c' d) d'.

(** The labels a container gets: those asked for, and the image's, none of which is
    the provider's. *)
Definition LABEL_SPACE : string := "sh.sandbox-driver.".

Definition carries (asked labels : gmap string string) : Prop :=
  asked ⊆ labels /\ forall k, starts_with LABEL_SPACE k = true -> labels !! k = asked !! k.

(** What a call does when it does what it is for. *)
Definition effect (k : Call) : Daemon -> Daemon -> Answer k -> Prop :=
  match k with
  | CreateContainer options config => fun d d' id =>
      containers d !! id = None /\
      exists c, later (put id c d) d' /\ carries (cf_labels config) (c_labels c) /\
        c_mode c = default "default" (network_mode (host_config config)) /\ c_running c = false /\ c_paused c = false
  | StartContainer r => fun d d' _ => updates r d d' (fun c c' => c_paused c = false /\ c' = set_run true false c)
  | StopContainer r _ => fun d d' _ => updates r d d' (fun c c' => c' = set_run false false c)
  | PauseContainer r => fun d d' _ => updates r d d' (fun c c' => c_running c = true /\ c' = set_run true true c)
  | UnpauseContainer r => fun d d' _ => updates r d d' (fun c c' => c_paused c = true /\ c' = set_run true false c)
  | KillContainer r _ => fun d d' _ => updates r d d' (fun c c' => c' = c \/ c' = set_run false false c)
  | RemoveContainer r _ => fun d d' _ => exists id, refers d r id = true /\ later (drop_container id d) d'
  | InspectContainer r => fun d d' i =>
      later d d' /\ exists id c, refers d r id = true /\ containers d !! id = Some c /\ describes id c i
  | ListContainers labels => fun d d' ids =>
      later d d' /\ exists l, ids = map Some l /\ NoDup l /\
        forall id, id ∈ l <-> exists c, containers d !! id = Some c /\ labelled c labels = true
  | CreateNetwork n _ => fun d d' _ => n ∉ networks d /\ later (with_networks ({[n]} ∪ networks d) d) d'
  | InspectNetwork n => fun d d' on =>
      n ∈ networks d /\ later d d' /\ forall s id, on = Some s -> id ∈ s -> is_Some (containers d !! id)
  | ConnectNetwork n r => fun d d' _ => updates r d d' (fun c c' => c' = set_networks ({[n]} ∪ c_networks c) c)
  | DisconnectNetwork n r => fun d d' _ => updates r d d' (fun c c' => c' = set_networks (c_networks c ∖ {[n]}) c)
  | RemoveNetwork n => fun d d' _ => n ∈ networks d /\ later (with_networks (networks d ∖ {[n]}) d) d'
  | Now => fun d d' t => later d d' /\ t = clock d'
  | Sleep ms => fun d d' _ => later d d' /\ clock d + ms <= clock d'
  | _ => fun d d' _ => later d d'
  end.

(** What a refusal with 404 or 304 says of the daemon. *)
Definition refused (k : Call) (d : Daemon) (e : ApiError) : Prop :=
  match k with
  | StartContainer r =>
      is_not_modified e = true ->
      exists id c, refers d r id = true /\ containers d !! id = Some c /\ c_running c = true /\ c_paused c = false
  | StopContainer r _ =>
      (is_not_found e = true -> forall id, refers d r id = false) /\
      (is_not_modified e = true -> exists id c, refers d r id = true /\ containers d !! id = Some c /\ c_running c = false)
  | RemoveContainer r _ | InspectContainer r => is_not_found e = true -> forall id, refers d r id = false
  | InspectNetwork n | RemoveNetwork n => is_not_found e = true -> n ∉ networks d
  | _ => True
  end.

(** A container may exit between two calls. *)
Definition drift (d d' : Daemon) : Prop :=
  networks d' = networks d /\ clock d <= clock d' /\
  forall id, match containers d !! id with
             | Some c => exists b, containers d' !! id = Some (if b : bool then set_run false false c else c)
             | None => containers d' !! id = None
             end.

Definition answers (k : Call) (d d' : Daemon) (r : result (Answer k) ApiError) : Prop :=
  exists d1, drift d d1 /\
    match r with
    | Ok a => effect k d1 d' a
    | Err e =>
        (later d1 d' \/ exists a, effect k d1 d' a) /\
        (is_not_found e || is_not_modified e || is_conflict e = true -> later d1 d' /\ refused k d1 e) /\
        match k with Now | Sleep _ => False | _ => True end
    end.

(** ** What a program makes of a daemon *)

Section Triples.
Context {W : Type} (daemon : forall k : Call, W -> W * result (Answer k) ApiError) (view : W -> Daemon).

Definition lawful : Prop := forall k w, let '(w', r) := daemon k w in answers k (view w) (view w') r.

Definition triple {A} (P : Daemon -> Prop) (m : Prog A) (Q : result A Error -> Daemon -> Prop) : Prop :=
  forall w, P (view w) -> let '(w', r) := run daemon m w in Q r (view w').

Lemma triple_run {A} P (m : Prog A) Q w w' r : triple P m Q -> P (view w) -> run daemon m w = (w', r) -> Q r (view w').
Proof. intros H HP E. specialize (H w HP). by rewrite E in H. Qed.

Lemma triple_return {A} (P : Daemon -> Prop) (r : result A Error) (Q : result A Error -> Daemon -> Prop) :
  (forall d, P d -> Q r d) -> triple P (Return r) Q.
Proof. intros H w HP. by apply H. Qed.

Lemma triple_bind {A B} P (m : Prog A) (k : A -> Prog B) R Q :
  triple P m R -> (forall a, triple (R (Ok a)) (k a) Q) -> (forall e d, R (Err e) d -> Q (Err e) d) ->
  triple P (pbind m k) Q.
Proof.
  intros Hm Hk He w HP. rewrite run_bind. specialize (Hm w HP). destruct (run daemon m w) as [w1 [a|e]].
  - by apply Hk.
  - by apply He.
Qed.

Lemma triple_match {A B} P (m : Prog A) (k : result A Error -> Prog B) R Q :
  triple P m R -> (forall r, triple (R r) (k r) Q) -> triple P (pmatch m k) Q.
Proof. intros Hm Hk w HP. rewrite run_match. specialize (Hm w HP). destruct (run daemon m w) as [w1 r]. by apply Hk. Qed.

Lemma triple_weaken {A} (P P' : Daemon -> Prop) (m : Prog A) (Q Q' : result A Error -> Daemon -> Prop) :
  triple P m Q -> (forall d, P' d -> P d) -> (forall r d, Q r d -> Q' r d) -> triple P' m Q'.
Proof. intros H HP HQ w Hw. specialize (H w (HP _ Hw)). destruct (run daemon m w). by apply HQ. Qed.

(** A fact about the daemon before, kept at hand. *)
Lemma triple_from {A} (P : Daemon -> Prop) (m : Prog A) Q :
  (forall d0, P d0 -> triple (fun d => d = d0) m Q) -> triple P m Q.
Proof. intros H w HP. by apply (H (view w)). Qed.

Lemma triple_pure {A} (P : Daemon -> Prop) (p : Prop) (m : Prog A) Q :
  (p -> triple P m Q) -> triple (fun d => p /\ P d) m Q.
Proof. intros H w [Hp HP]. by apply H. Qed.

Context (law : lawful).

Lemma triple_do {A} P (k : Call) (h : result (Answer k) ApiError -> Prog A) Q :
  (forall r, triple (fun d' => exists d, P d /\ answers k d d' r) (h r) Q) -> triple P (Do k h) Q.
Proof.
  intros H w HP. cbn [run]. pose proof (law k w) as Hl. destruct (daemon k w) as [w1 r].
  apply H. by exists (view w).
Qed.

(** What stays so whatever the outcome. *)
Definition keeps {A} (I : Daemon -> Prop) (m : Prog A) : Prop := triple I m (fun _ => I).

Lemma keeps_return {A} I (r : result A Error) : keeps I (Return r).
Proof. by apply triple_return. Qed.

Lemma keeps_then {A B} I (m : Prog A) (k : A -> Prog B) : keeps I m -> (forall a, keeps I (k a)) -> keeps I (pbind m k).
Proof. intros Hm Hk. by apply (triple_bind I m k (fun _ => I)). Qed.

Lemma keeps_match {A B} I (m : Prog A) (k : result A Error -> Prog B) : keeps I m -> (forall r, keeps I (k r)) -> keeps I (pmatch m k).
Proof. intros Hm Hk. by apply (triple_match I m k (fun _ => I)). Qed.

(** A call that keeps it, and a program whose calls all do. *)
Definition stable (I : Daemon -> Prop) (k : Call) : Prop := forall d d' r, I d -> answers k d d' r -> I d'.

Lemma keeps_do {A} I (k : Call) (h : result (Answer k) ApiError -> Prog A) :
  stable I k -> (forall r, keeps I (h r)) -> keeps I (Do k h).
Proof.
  intros Hk Hh. apply triple_do. intros r. eapply triple_weaken; [apply (Hh r)| |done].
  intros d' (d & HI & Ha). by apply (Hk d d' r).
Qed.

Lemma keeps_call I context (k : Call) : stable I k -> keeps I (call context k).
Proof. intros Hk. apply keeps_do; [done|]. intros [a|e]; apply keeps_return. Qed.
End Triples.

Create HintDb keeps.
#[export] Hint Resolve keeps_return : keeps.

(** ** The labels a daemon holds, and its networks *)

Definition labels_of (d : Daemon) : gmap string (gmap string string) := c_labels <$> containers d.

(** What a call may do to them. *)
Definition delta (k : Call) (d d' : Daemon) : Prop :=
  match k with
  | CreateContainer _ config =>
      exists id l, containers d !! id = None /\ carries (cf_labels config) l /\
        labels_of d' = <[id := l]> (labels_of d) /\ networks d' = networks d
  | RemoveContainer r _ => exists id, refers d r id = true /\ labels_of d' = delete id (labels_of d) /\ networks d' = networks d
  | CreateNetwork n _ => labels_of d' = labels_of d /\ networks d' = {[n]} ∪ networks d
  | RemoveNetwork n => labels_of d' = labels_of d /\ networks d' = networks d ∖ {[n]}
  | _ => labels_of d' = labels_of d /\ networks d' = networks d
  end.

Lemma drift_labels d d' : drift d d' -> labels_of d' = labels_of d /\ networks d' = networks d.
Proof.
  intros (Hn & _ & H). split; [|done]. apply map_eq. intros id. unfold labels_of. rewrite !lookup_fmap.
  specialize (H id). destruct (containers d !! id) as [c|]; [destruct H as [b ->]; by destruct b|by rewrite H].
Qed.

Lemma later_labels d d' : later d d' -> labels_of d' = labels_of d /\ networks d' = networks d.
Proof. intros (Hc & Hn & _). unfold labels_of. by rewrite Hc. Qed.

Lemma updates_labels r d d' f : (forall c c', f c c' -> c_labels c' = c_labels c) -> updates r d d' f ->
  labels_of d' = labels_of d /\ networks d' = networks d.
Proof.
  intros Hf (id & c & c' & _ & Hc & Hcc & (Hl & Hn & _)). split; [|done]. unfold labels_of. rewrite Hl. cbn.
  rewrite fmap_insert, (Hf _ _ Hcc), insert_id; [done|]. by rewrite lookup_fmap, Hc.
Qed.

Lemma effect_delta k d d' a : effect k d d' a -> delta k d d'.
Proof.
  destruct k; cbn; try (by apply later_labels); try (by intros [H _]; apply later_labels);
    try (apply updates_labels; intros c c' H; naive_solver).
  - intros (Hid & c & (Hc & Hn & _) & Hl & _). exists a, (c_labels c). unfold labels_of. rewrite Hc, Hn. cbn. by rewrite fmap_insert.
  - intros (x & Hr & Hc & Hn & _). exists x. unfold labels_of. rewrite Hc, Hn. cbn. by rewrite fmap_delete.
  - intros (_ & Hc & Hn & _). unfold labels_of. by rewrite Hc, Hn.
  - by intros (_ & ?%later_labels & _).
  - intros (_ & Hc & Hn & _). unfold labels_of. by rewrite Hc, Hn.
Qed.

Lemma drift_refers d d' r id : drift d d' -> refers d' r id = refers d r id.
Proof.
  intros (_ & _ & H). unfold refers. pose proof (H id) as H1. destruct (containers d !! id) as [c|]; [|by rewrite H1].
  destruct H1 as [b ->]. pose proof (H r) as H2.
  destruct (containers d !! r) as [c2|]; [destruct H2 as [b2 ->]|rewrite H2]; rewrite ?bool_decide_true by done; [done|].
  by destruct b.
Qed.

(** An answer: nothing, or what the call may do; a refusal nothing. *)
Lemma answers_delta k d d' r : answers k d d' r ->
  (labels_of d' = labels_of d /\ networks d' = networks d) \/
  (exists d1, drift d d1 /\ delta k d1 d').
Proof.
  intros (d1 & Hd & H). destruct (drift_labels _ _ Hd) as [H1 H2]. destruct r as [a|e].
  - right. exists d1. split; [done|]. by apply (effect_delta _ _ _ a).
  - destruct H as ([[H3 H4]%later_labels|[a Ha]] & _).
    + left. by rewrite H3, H4.
    + right. exists d1. split; [done|]. by apply (effect_delta _ _ _ a).
Qed.
