(* ===== verification/DockerSim.v ===== *)
(** * A daemon that keeps the law

    An executable daemon, with calls that fail on command, before or after they took
    effect: what the theorems on the provider's programs are tried on. *)

From S2P Require Import Prelude Text Errors DockerApi.

#[local] Open Scope string_scope.
#[local] Open Scope list_scope.
#[local] Open Scope Z_scope.

Definition find_ref (d : Daemon) (r : string) : option (string * Container) :=
  List.find (fun kv => refers d r (fst kv)) (map_to_list (containers d)).

Definition error {A} (status : Z) : result A ApiError := Err (ServerError status EmptyString).

(** A container that runs is healthy, one that is paused not yet. *)
Definition sim_health (c : Container) : HealthStatus := if c_paused c then HsOther else if c_running c then HsHealthy else HsUnhealthy.

Definition sim_inspect (id : string) (c : Container) : Inspect :=
  mkInspect (Some id) (Some ("/" +:+ c_name c))
    (Some (mkState (Some (if c_paused c then SsPaused else if c_running c then SsRunning else SsExited))
             (Some (c_paused c)) (Some (c_running c)) (Some 0) (Some (Some (sim_health c)))))
    (Some (mkContainerConfig None None (Some (c_labels c)) None)) (Some (c_mode c)) (Some (c_networks c)) None.

(** A call on a container: gone, refused, or done. *)
Definition on_container {A} (d : Daemon) (r : string) (f : string -> Container -> Daemon * result A ApiError) : Daemon * result A ApiError :=
  match find_ref d r with Some (id, c) => f id c | None => (d, error 404) end.

Definition network_gone {A} (d : Daemon) (n : string) (k : Daemon * result A ApiError) : Daemon * result A ApiError :=
  if bool_decide (n ∈ networks d) then k else (d, error 404).

Definition taken (d : Daemon) (id name : string) : bool :=
  bool_decide (is_Some (containers d !! id)) || existsb (fun kv => String.eqb (c_name (snd kv)) name) (map_to_list (containers d)).

Definition attached (d : Daemon) (n : string) : gset string :=
  list_to_set (map fst (List.filter (fun kv => bool_decide (n ∈ c_networks (snd kv))) (map_to_list (containers d)))).

(** A call that goes well, [fresh] an id for a new container. *)
Definition perform (fresh : string) (k : Call) (d : Daemon) : Daemon * result (Answer k) ApiError :=
  match k with
  | CreateContainer options config =>
      let name := match options with Some o => if String.eqb (co_name o) EmptyString then fresh else co_name o | None => fresh end in
      let mode := default "default" (network_mode (host_config config)) in
      if taken d fresh name then (d, error 409)
      else (put fresh (mkContainer name (cf_labels config) mode ∅ false false) d, Ok fresh)
  | StartContainer r => on_container d r (fun id c =>
      if c_paused c then (d, error 409) else if c_running c then (d, error 304) else (put id (set_run true false c) d, Ok tt))
  | StopContainer r _ => on_container d r (fun id c =>
      if c_running c then (put id (set_run false false c) d, Ok tt) else (d, error 304))
  | PauseContainer r => on_container d r (fun id c =>
      if c_running c then (put id (set_run true true c) d, Ok tt) else (d, error 409))
  | UnpauseContainer r => on_container d r (fun id c =>
      if c_paused c then (put id (set_run true false c) d, Ok tt) else (d, error 500))
  | KillContainer r _ => on_container d r (fun id c => (put id (set_run false false c) d, Ok tt))
  | RemoveContainer r _ => on_container d r (fun id c => (drop_container id d, Ok tt))
  | InspectContainer r => on_container d r (fun id c => (d, Ok (sim_inspect id c)))
  | ListContainers labels =>
      (d, Ok (map Some (map fst (List.filter (fun kv => labelled (snd kv) labels) (map_to_list (containers d))))))
  | CreateNetwork n _ => if bool_decide (n ∈ networks d) then (d, error 409) else (with_networks ({[n]} ∪ networks d) d, Ok tt)
  | InspectNetwork n => network_gone d n (d, Ok (Some (attached d n)))
  | ConnectNetwork n r => on_container d r (fun id c => (put id (set_networks ({[n]} ∪ c_networks c) c) d, Ok tt))
  | DisconnectNetwork n r => on_container d r (fun id c => (put id (set_networks (c_networks c ∖ {[n]}) c) d, Ok tt))
  | RemoveNetwork n => network_gone d n (with_networks (networks d ∖ {[n]}) d, Ok tt)
  | WaitContainer _ _ => (d, Ok (Some 0))
  | BuildImage _ _ _ => (d, Ok None)
  | Download _ _ => (d, Ok [])
  | Logs _ _ _ => (d, Ok [])
  | Now => (d, Ok (clock d))
  | Sleep ms => (mkDaemon (containers d) (networks d) (clock d + Z.max 0 ms), Ok tt)
  | _ => (d, Ok tt)
  end.

(** The daemon, the ids it has for new containers, and what is to become of the next
    calls: as they go, or a failure before or after the effect. *)
Record Sim := mkSim { sim_daemon : Daemon; ids : list string; faults : list (option bool) }.

Definition sim (k : Call) (w : Sim) : Sim * result (Answer k) ApiError :=
  let '(fresh, rest) := match ids w with id :: rest => (id, rest) | [] => (EmptyString, []) end in
  let ids' := match k with CreateContainer _ _ => rest | _ => ids w end in
  match k, faults w with
  | Now, _ | Sleep _, _ | _, [] => let '(d, r) := perform fresh k (sim_daemon w) in (mkSim d ids' (faults w), r)
  | _, None :: fs => let '(d, r) := perform fresh k (sim_daemon w) in (mkSim d ids' fs, r)
  | _, Some false :: fs => (mkSim (sim_daemon w) ids' fs, error 500)
  | _, Some true :: fs => (mkSim (fst (perform fresh k (sim_daemon w))) ids' fs, error 500)
  end.

(** ** It keeps the law *)

Lemma drift_refl d : drift d d.
Proof. split; [done|]. split; [lia|]. intros id. destruct (containers d !! id); [by exists false|done]. Qed.

Lemma later_refl d : later d d.
Proof. repeat split. lia. Qed.

Lemma find_ref_some d r id c : find_ref d r = Some (id, c) -> refers d r id = true /\ containers d !! id = Some c.
Proof.
  intros H. apply find_some in H as [Hin Hr]. split; [done|]. apply elem_of_map_to_list, list_elem_of_In, Hin.
Qed.

Lemma find_ref_none d r : find_ref d r = None -> forall id, refers d r id = false.
Proof.
  intros H id. destruct (refers d r id) eqn:E; [|done]. pose proof E as E2. unfold refers in E2.
  destruct (containers d !! id) as [c|] eqn:Ec; [|done]. apply elem_of_map_to_list, list_elem_of_In in Ec.
  pose proof (find_none _ _ H _ Ec) as En. cbn in En. congruence.
Qed.

(** What a call that was performed comes to. *)
Definition performed (k : Call) (d : Daemon) (dr : Daemon * result (Answer k) ApiError) : Prop :=
  match snd dr with
  | Ok a => effect k d (fst dr) a
  | Err e => later d (fst dr) /\ refused k d e /\ match k with Now | Sleep _ => False | _ => True end
  end.

Lemma done_ok k d d' a : effect k d d' a -> performed k d (d', Ok a).
Proof. done. Qed.

Lemma refused_ok k d e : refused k d e -> match k with Now | Sleep _ => False | _ => True end -> performed k d (d, Err e).
Proof. intros. split; [apply later_refl|done]. Qed.

Lemma on_container_ok k d r (f : string -> Container -> Daemon * result (Answer k) ApiError) :
  (forall id c, refers d r id = true -> containers d !! id = Some c -> performed k d (f id c)) ->
  ((forall id, refers d r id = false) -> performed k d (d, error 404)) -> performed k d (on_container d r f).
Proof.
  intros H1 H2. unfold on_container. destruct (find_ref d r) as [[id c]|] eqn:E.
  - destruct (find_ref_some _ _ _ _ E). by apply H1.
  - apply H2, find_ref_none, E.
Qed.

Lemma put_updates r d id c c' (f : Container -> Container -> Prop) : refers d r id = true -> containers d !! id = Some c -> f c c' ->
  updates r d (put id c' d) f.
Proof. intros. exists id, c, c'. repeat (split; [done|]). apply later_refl. Qed.

Create HintDb sim.
#[local] Hint Resolve later_refl put_updates done_ok refused_ok on_container_ok : sim.

Lemma filtered_keys {A B} (p : A * B -> bool) (l : list (A * B)) x :
  x ∈ map fst (List.filter p l) <-> exists b, (x, b) ∈ l /\ p (x, b) = true.
Proof.
  rewrite list_elem_of_In, in_map_iff. split.
  - intros ([y b] & <- & [Hin Hp]%filter_In). exists b. by rewrite list_elem_of_In.
  - intros (b & Hin & Hp). exists (x, b). split; [done|]. apply filter_In. by rewrite <- list_elem_of_In.
Qed.

Lemma filtered_nodup {A B} (p : A * B -> bool) (l : list (A * B)) : NoDup (map fst l) -> NoDup (map fst (List.filter p l)).
Proof.
  induction l as [|[x b] l IH]; cbn; [done|]. intros [Hx Hl]%NoDup_cons. destruct (p (x, b)); [|by apply IH].
  cbn. apply NoDup_cons. split; [|by apply IH]. intros (b' & Hin & _)%filtered_keys. apply Hx.
  apply list_elem_of_In, in_map_iff. exists (x, b'). by rewrite <- list_elem_of_In.
Qed.

Lemma perform_list labels fresh d : performed (ListContainers labels) d (perform fresh (ListContainers labels) d).
Proof.
  apply done_ok. split; [apply later_refl|]. eexists. split; [done|]. split.
  - apply filtered_nodup, NoDup_fst_map_to_list.
  - intros id. rewrite filtered_keys. setoid_rewrite elem_of_map_to_list. done.
Qed.

Lemma perform_create options config fresh d : performed (CreateContainer options config) d (perform fresh (CreateContainer options config) d).
Proof.
  cbn [perform]. set (name := match options with Some o => _ | None => _ end). destruct (taken d fresh name) eqn:Et; [by apply refused_ok|].
  apply orb_false_iff in Et as [Hf _]. apply bool_decide_eq_false in Hf. apply done_ok. split.
  - apply eq_None_not_Some, Hf.
  - eexists. split; [apply later_refl|]. repeat split; done.
Qed.

Lemma perform_inspect_network n fresh d : performed (InspectNetwork n) d (perform fresh (InspectNetwork n) d).
Proof.
  cbn [perform]. unfold network_gone. case_bool_decide as Hn; [|by apply refused_ok; [intros _|]]. apply done_ok. split; [done|].
  split; [apply later_refl|]. intros s id [= <-]. unfold attached. rewrite elem_of_list_to_set, filtered_keys.
  intros (c & Hc%elem_of_map_to_list & _). eauto.
Qed.

Lemma sim_describes id c : describes id c (sim_inspect id c).
Proof.
  repeat (split; [done|]). eexists. split; [done|]. split; [done|]. split; [done|]. cbn.
  by destruct (c_paused c), (c_running c).
Qed.

Lemma perform_ok fresh k d : performed k d (perform fresh k d).
Proof.
  destruct k; try apply perform_create; try apply perform_list; try apply perform_inspect_network; cbn [perform];
    try (apply on_container_ok; [intros x c Hr Hc|intros Hn; apply refused_ok; [|done]]);
    try (by apply done_ok, later_refl).
  - destruct (c_paused c) eqn:Ep; [by apply refused_ok|]. destruct (c_running c) eqn:Ec; [|by apply done_ok; eapply put_updates].
    apply refused_ok; [|done]. intros _. by exists x, c.
  - done.
  - destruct (c_running c) eqn:Ec; [by apply done_ok; eapply put_updates|]. apply refused_ok; [|done]. split; [done|]. intros _. by exists x, c.
  - by split.
  - destruct (c_running c) eqn:Ec; [by apply done_ok; eapply put_updates|by apply refused_ok].
  - done.
  - destruct (c_paused c) eqn:Ec; [by apply done_ok; eapply put_updates|by apply refused_ok].
  - done.
  - apply done_ok. eapply put_updates; [done..|]. by right.
  - done.
  - apply done_ok. exists x. split; [done|apply later_refl].
  - by intros _.
  - apply done_ok. split; [apply later_refl|]. exists x, c. split; [done|]. split; [done|]. apply sim_describes.
  - by intros _.
  - case_bool_decide; [by apply refused_ok|]. apply done_ok. split; [done|apply later_refl].
  - apply done_ok. by eapply put_updates.
  - done.
  - apply done_ok. by eapply put_updates.
  - done.
  - unfold network_gone. case_bool_decide; [|by apply refused_ok; [intros _|]]. apply done_ok. split; [done|apply later_refl].
  - apply done_ok. split; [apply later_refl|done].
  - apply done_ok. split; [split; [done|split; [done|cbn; lia]]|cbn; lia].
Qed.

(** A call of the simulation: performed, or a failure of the daemon's. *)
Lemma answered k d dr : performed k d dr -> answers k d (fst dr) (snd dr).
Proof.
  intros H. exists d. split; [apply drift_refl|]. unfold performed in H. destruct (snd dr) as [a|e]; [done|].
  destruct H as (Hl & Hr & Hk). split; [by left|]. by split.
Qed.

Lemma failed_before k d : match k with Now | Sleep _ => False | _ => True end -> answers k d d (error 500).
Proof. intros Hk. exists d. split; [apply drift_refl|]. split; [left; apply later_refl|]. by split. Qed.

Lemma failed_after k d dr : match k with Now | Sleep _ => False | _ => True end -> performed k d dr -> answers k d (fst dr) (error 500).
Proof.
  intros Hk H. exists d. split; [apply drift_refl|]. split; [|by split]. unfold performed in H.
  destruct (snd dr) as [a|e]; [right; by exists a|left; tauto].
Qed.

Theorem sim_lawful : lawful sim sim_daemon.
Proof.
  intros k w. unfold sim. destruct (match ids w with id :: rest => (id, rest) | [] => (EmptyString, []) end) as [fresh rest].
  pose proof (perform_ok fresh k (sim_daemon w)) as H. pose proof (answered _ _ _ H) as Ha.
  pose proof (failed_after k (sim_daemon w) (perform fresh k (sim_daemon w))) as Hf.
  pose proof (failed_before k (sim_daemon w)) as Hb.
  destruct (perform fresh k (sim_daemon w)) as [d r]; cbn in *.
  destruct k; destruct (faults w) as [|[[]|] fs]; cbn; auto.
Qed.
