(* ===== verification/DockerPlan.v ===== *)
(** * What a Docker sandbox is made of, and read back from

    Models [crates/sandbox-driver-docker-config/src/lib.rs], and of
    [crates/sandbox-driver-docker/src] the plan of [create.rs], the request shapes of
    [config.rs], the readback of [inspect.rs], the pull options of [image.rs] and the
    paths of [container.rs]. Nothing here calls the daemon. Serde's reading of the
    provider's configuration is a parameter. *)

From S2P Require Import Prelude Text Shell Exec Capabilities Errors Spec DockerApi.

#[local] Open Scope string_scope.
#[local] Open Scope list_scope.
#[local] Open Scope Z_scope.

(** ** The provider's configuration *)

Record BindMount := mkBind { bind_host : string; bind_container : string; bind_mode : option string }.
Record RegistryAuth := mkAuth { auth_username : string; auth_password : string; auth_server : option string }.
Record Health := mkHealth {
  health_cmd : string;
  interval_ms : option Z;
  timeout_ms : option Z;
  retries : option Z;
  start_period_ms : option Z;
}.

Record Sidecar := mkSidecar {
  sc_name : string;
  sc_image : string;
  sc_env : gmap string string;
  sc_dns : list string;
  sc_cap_add : list string;
  sc_user : option string;
  sc_entrypoint : option (list string);
  sc_privileged : bool;
  sc_health : option Health;
  sc_registry_auth : option RegistryAuth;
}.

Definition health_new (cmd : string) : Health := mkHealth cmd None None None None.
Definition sidecar_new (name image : string) : Sidecar := mkSidecar name image ∅ [] [] None None false None None.

Record DockerProviderConfig := mkProviderConfig {
  auto_pull : bool;
  pc_init : bool;
  pc_privileged : bool;
  host_network : bool;
  pc_platform : option string;
  pc_binds : list BindMount;
  pc_extra_hosts : list string;
  pc_dns : list string;
  pc_cap_add : list string;
  registry_auth : option RegistryAuth;
  sidecars : list Sidecar;
}.

Definition default_config : DockerProviderConfig := mkProviderConfig true false false false None [] [] [] [] None [].

Definition to_credentials (auth : RegistryAuth) : DockerCredentials :=
  mkCredentials (auth_username auth) (auth_password auth) (auth_server auth).

Definition i64_max : Z := 2 ^ 63 - 1.

(** [i64::try_from] of an unsigned integer. *)
Definition try_i64 (n : Z) : option Z := if n <=? i64_max then Some n else None.

(** A product of [i64] as a build with its checks off has it. *)
Definition wrap_i64 (n : Z) : Z := (n + 2 ^ 63) mod 2 ^ 64 - 2 ^ 63.

Definition ms_to_ns (ms : Z) : Z := default i64_max (try_i64 (Z.min (ms * 1000000) (u64_bound - 1))).

Definition to_health_config (h : Health) : HealthConfig :=
  mkHealthConfig ["CMD-SHELL"; health_cmd h] (ms_to_ns <$> interval_ms h) (ms_to_ns <$> timeout_ms h)
    (retries h ≫= try_i64) (ms_to_ns <$> start_period_ms h).

(** ** The plan *)

#[export] Instance LifecycleTimers_eq_dec : EqDecision LifecycleTimers.
Proof. solve_decision. Defined.

Record ContainerPlan := mkPlan {
  plan_image : string;
  plan_auto_pull : bool;
  plan_auth : option RegistryAuth;
  plan_platform : option string;
  plan_sidecars : list Sidecar;
  plan_network : option string;
  plan_config : Config;
  plan_options : option CreateOptions;
  named : bool;
}.

Section Plan.
(** What serde makes of an object: the configuration, or an error's text. *)
Context (deserialize : json -> result DockerProviderConfig string).

Definition read_config (value : json) : result DockerProviderConfig Error :=
  match value with
  | JNull => Ok default_config
  | JObj _ => map_err (InvalidSpec "provider_config") (deserialize value)
  | _ => Err (InvalidSpec "provider_config" "expected an object")
  end.

Definition network_mode_of (policy : NetworkPolicy) : result (option string) Error :=
  match policy with
  | ProviderDefault => Ok None
  | AllowAll => Ok (Some "bridge")
  | Block => Ok (Some "none")
  | CidrAllowList _ => Err (InvalidSpec "network" "the docker provider does not support CIDR allow lists")
  | DomainAllowList _ => Err (InvalidSpec "network" "the docker provider does not support domain allow lists")
  end.

Definition validate_supported_creation_fields (s : SandboxSpec) : result unit Error :=
  if is_some (disk_mb (resources s))
  then Err (InvalidSpec "resources.disk_mb" "the docker provider does not enforce a writable-layer disk limit")
  else if is_some (gpus (resources s))
  then Err (InvalidSpec "resources.gpus" "the docker provider does not configure GPU devices")
  else if negb (bool_decide (timers s = no_timers))
  then Err (InvalidSpec "timers" "the docker provider does not support lifecycle timers")
  else if ephemeral s
  then Err (InvalidSpec "ephemeral" "the docker provider does not delete a container when it stops")
  else if is_some (public s)
  then Err (InvalidSpec "public" "the docker provider does not manage public access")
  else if is_some (region s)
  then Err (InvalidSpec "region" "the docker provider does not select a region")
  else Ok tt.

Definition base_network_of (s : SandboxSpec) (c : DockerProviderConfig) : result (option string) Error :=
  if host_network c then
    if negb match network s with ProviderDefault | AllowAll => true | _ => false end || negb (bool_decide (length (sidecars c) = 0%nat))
    then Err (InvalidSpec "provider_config.host_network" "host networking requires unrestricted networking and no sidecars")
    else Ok (Some "host")
  else network_mode_of (network s).

Definition sidecar_network_for (s : SandboxSpec) (c : DockerProviderConfig) : result (option string) Error :=
  match sidecars c with
  | [] => Ok None
  | _ =>
      let? name := ok_or (name s) (InvalidSpec "name" "a sandbox with sidecars must be named") in
      Ok (Some (name +:+ "-net"))
  end.

Definition plan_labels (s : SandboxSpec) (network : option string) : gmap string string :=
  let labels := <[MANAGED_LABEL := "true"]> (labels s) in
  match network with Some network => <[SIDECAR_NETWORK_LABEL := network]> labels | None => labels end.

Definition same_directory (a b : string) : bool := String.eqb (trim_end_char "/" a) (trim_end_char "/" b).

Definition env_entry (kv : string * string) : string := fst kv +:+ "=" +:+ snd kv.

Definition plan_env (s : SandboxSpec) : list string :=
  map env_entry (List.filter (fun kv => negb (String.eqb (fst kv) BASH_ENV_VAR)) (entries (env s))) ++ [BASH_ENV_VAR +:+ "="].

Definition init_script (working_dir : string) : string :=
  "mkdir -p " +:+ shell_quote working_dir +:+ " " +:+ shell_quote RUNTIME_DIRECTORY +:+ " && chmod 0700 " +:+
  shell_quote RUNTIME_DIRECTORY_PARENT +:+ " " +:+ shell_quote RUNTIME_DIRECTORY +:+ " && exec sleep infinity".

Definition if_set (b : bool) : option bool := if b then Some true else None.

Definition plan_host_config (s : SandboxSpec) (c : DockerProviderConfig) (network : option string) (working_dir : string) : HostConfig :=
  let workspace_bound := existsb (fun b => same_directory (bind_container b) working_dir) (pc_binds c) in
  mkHostConfig network
    (non_empty (map (fun b => bind_host b +:+ ":" +:+ bind_container b +:+ ":" +:+ default "rw" (bind_mode b)) (pc_binds c)))
    (if workspace_bound then None else Some [mkMount (Some working_dir) None (Some MtVolume) None])
    (if_set (pc_init c)) (if_set (pc_privileged c))
    (non_empty (pc_extra_hosts c)) (non_empty (pc_dns c)) (non_empty (pc_cap_add c))
    ((fun mb => wrap_i64 (mb * 1024 * 1024)) <$> (memory_mb (resources s) ≫= try_i64))
    ((fun cores => cores * 100000) <$> cpu_cores (resources s)).

(** The plan, of what the specification and the configuration come to. *)
Definition plan_of (s : SandboxSpec) (reference : string) (c : DockerProviderConfig) (base_network sidecar_network : option string) : ContainerPlan :=
  let working_dir := default DEFAULT_WORKING_DIRECTORY (working_directory s) in
  let network_mode := match sidecar_network with Some _ => Some "none" | None => base_network end in
  let config := mkConfig reference (user s) None (Some [POSIX_SH; "-c"; init_script working_dir]) (Some working_dir)
                  (Some (plan_env s)) (plan_labels s sidecar_network) None
                  (plan_host_config s c network_mode working_dir) [] in
  let options := if is_some (name s) || is_some (pc_platform c)
                 then Some (mkCreateOptions (default EmptyString (name s)) (pc_platform c)) else None in
  mkPlan reference (auto_pull c) (registry_auth c) (pc_platform c) (sidecars c) sidecar_network config options (is_some (name s)).

Definition plan (s : SandboxSpec) : result ContainerPlan Error :=
  check? validate s in
  check? validate_supported_creation_fields s in
  guard? match sandbox_kind s with Some KindContainer | None => true | Some _ => false end
    else InvalidSpec "sandbox_kind" "the docker provider creates container sandboxes only" in
  match source s with
  | Image reference =>
      guard? bool_decide (length (volumes s) = 0%nat) else InvalidSpec "volumes" "the docker provider does not support volumes yet" in
      let? c := read_config (provider_config s) in
      let? base_network := base_network_of s c in
      let? sidecar_network := sidecar_network_for s c in
      Ok (plan_of s reference c base_network sidecar_network)
  | _ => Err (InvalidSpec "source" "the docker provider supports SandboxSource::Image only")
  end.
End Plan.

(** A signed number. *)
Definition print_int (n : Z) : string := if n <? 0 then "-" +:+ print_uint (- n) else print_uint n.

(** ** Images *)

(** The image, the tag and the platform of a pull. *)
Definition pull_options (reference : string) (platform : option string) : string * string * string :=
  let platform := default EmptyString platform in
  if contains "@" reference then (reference, EmptyString, platform)
  else
    match rsplit_once ":" reference with
    | Some (repo, tag) => if contains "/" tag then (reference, "latest", platform) else (repo, tag, platform)
    | None => (reference, "latest", platform)
    end.

(** ** Paths *)

Definition resolve (working_dir path : string) : string :=
  if starts_with_char "/" path then path else trim_end_char "/" working_dir +:+ "/" +:+ path.

Definition resolve_dir (working_dir : string) (dir : option string) : string :=
  match dir with None => working_dir | Some dir => resolve working_dir dir end.

(** The command that opens a shell in the sandbox with Docker's own client. *)
Definition shell_command (container_id working_dir : string) : string :=
  let shell := "cd " +:+ shell_quote working_dir +:+ " && exec sh -l" in
  "docker exec -it " +:+ shell_quote container_id +:+ " sh -lc " +:+ shell_quote shell.

(** ** Readback *)

Definition is_internal_label (key : string) : bool :=
  String.eqb key MANAGED_LABEL || String.eqb key ONE_SHOT_LABEL || String.eqb key SIDECAR_NETWORK_LABEL.

Definition config_labels (i : Inspect) : option (gmap string string) := in_config i ≫= cc_labels.

Definition outward (labels : gmap string string) : gmap string string :=
  filter (fun kv => is_internal_label (fst kv) = false) labels.

Definition env_step (env : gmap string string) (entry : string) : gmap string string :=
  match split_once "=" entry with
  | Some (key, value) => if String.eqb key BASH_ENV_VAR then env else <[key := value]> env
  | None => env
  end.

Definition configured_env (i : Inspect) : gmap string string := foldl env_step ∅ (default [] (in_config i ≫= cc_env)).

Definition map_state (i : Inspect) : SandboxState :=
  match in_state i with
  | None => StUnknown
  | Some state =>
      if bool_decide (paused state = Some true) then StPaused
      else match status state with
           | Some SsRunning => StRunning
           | Some SsCreated | Some SsExited => StStopped
           | Some SsPaused => StPaused
           | Some SsRestarting => StStarting
           | Some SsRemoving => StDeleting
           | Some SsDead => StError
           | Some SsEmpty | None => StUnknown
           end
  end.

Definition normalized_container_name (name : option string) : option string :=
  match trim_start_char "/" <$> name with
  | Some name => if is_empty name then None else Some name
  | None => None
  end.

(** [ends_with]. *)
Definition has_suffix (suf s : string) : bool := match strip_suffix suf s with Some _ => true | None => false end.

Definition is_sidecar_network (mode : string) : bool := has_suffix "-net" mode && negb (starts_with "container:" mode).

Definition network_of (i : Inspect) : option NetworkPolicy :=
  let mode := default "default" (in_network_mode i) in
  if String.eqb mode "none" then Some Block
  else if String.eqb mode "default" || String.eqb mode "bridge" || String.eqb mode "host" then Some AllowAll
  else None.

Definition is_managed (i : Inspect) : bool :=
  bool_decide ((config_labels i ≫= lookup MANAGED_LABEL) = Some "true").

Definition sidecar_network_of (i : Inspect) : option string :=
  match config_labels i ≫= lookup SIDECAR_NETWORK_LABEL with
  | Some network => Some network
  | None => match in_network_mode i with
            | Some mode => if is_sidecar_network mode then Some mode else None
            | None => None
            end
  end.

Definition workspace_point (working_dir : string) (p : MountPoint) : option Mount :=
  match mp_destination p with
  | None => None
  | Some destination =>
      if negb (same_directory destination working_dir) then None
      else
        let found typ source :=
          (fun source => mkMount (Some working_dir) (Some source) (Some typ) (negb <$> mp_rw p)) <$> source in
        match mp_type p with
        | Some MtVolume => found MtVolume (mp_name p)
        | Some MtBind => found MtBind (mp_source p)
        | _ => None
        end
  end.

(** [find_map]. *)
Fixpoint find_map {A B} (f : A -> option B) (l : list A) : option B :=
  match l with
  | [] => None
  | a :: l => match f a with Some b => Some b | None => find_map f l end
  end.

Definition workspace_of (i : Inspect) (working_dir : string) : option Mount :=
  in_mounts i ≫= find_map (workspace_point working_dir).

Record ContainerFacts := mkFacts {
  f_id : string;
  f_name : option string;
  f_working_dir : string;
  f_labels : gmap string string;
  f_env : gmap string string;
  f_network : option string;
  f_workspace : option Mount;
}.

Definition from_inspect (i : Inspect) (fallback_id : string) : ContainerFacts :=
  let working_dir := default DEFAULT_WORKING_DIRECTORY (in_config i ≫= cc_working_dir) in
  mkFacts (default fallback_id (in_id i)) (normalized_container_name (in_name i)) working_dir
    (default ∅ (outward <$> config_labels i)) (configured_env i) (sidecar_network_of i) (workspace_of i working_dir).

Section Status.
(** The daemon's name of a state. *)
Context (state_text : StateStatus -> string).

Definition status_from_inspect (id : string) (i : Inspect) : SandboxStatus :=
  mkSandboxStatus id (normalized_container_name (in_name i)) (map_state i)
    (default EmptyString (state_text <$> (in_state i ≫= status))) None None (Some KindContainer) None
    (default ∅ (outward <$> config_labels i)) (in_config i ≫= cc_image) None (network_of i) None None None None.
End Status.

(** ** What a plan is *)

Lemma rbind_inv {A B E} (m : result A E) (k : A -> result B E) b : rbind m k = Ok b -> exists a, m = Ok a /\ k a = Ok b.
Proof. destruct m as [a|e]; [|discriminate]. intros H. by exists a. Qed.

Lemma guard_inv {A E} (b : bool) (k : result A E) (e : E) a : (if b then k else Err e) = Ok a -> b = true /\ k = Ok a.
Proof. by destruct b. Qed.

Lemma plan_inv deserialize s p : plan deserialize s = Ok p ->
  exists reference c base net, source s = Image reference /\ read_config deserialize (provider_config s) = Ok c /\
    base_network_of s c = Ok base /\ sidecar_network_for s c = Ok net /\ p = plan_of s reference c base net.
Proof.
  unfold plan. intros (? & _ & (? & _ & [_ H]%guard_inv)%rbind_inv)%rbind_inv. destruct (source s) as [reference| | |]; [|discriminate..].
  apply guard_inv in H as [_ (c & Hc & (base & Hb & (net & Hn & Hp)%rbind_inv)%rbind_inv)%rbind_inv].
  exists reference, c, base, net. repeat (split; [done|]). by injection Hp as <-.
Qed.
