(* ===== verification/Docker.v ===== *)
(** * Docker sandboxes over the daemon

    Models, of [crates/sandbox-driver-docker/src], the programs that call the daemon:
    [image.rs], the removal and inspection of [container.rs], [sidecars.rs], the
    created container of [create.rs], the verbs of [provider.rs], the handle of
    [sandbox.rs] and the container and sweep of [one_shot.rs]. A program is a tree of
    calls ([Prog]); events and logs are left out. A poll of a health check is bounded
    by fuel, which [health_wait_ends] shows to be enough. *)

From S2P Require Import Prelude Text Shell Exec Capabilities Errors Ids Spec DockerApi DockerPlan.

#[local] Open Scope string_scope.
#[local] Open Scope list_scope.
#[local] Open Scope Z_scope.

(** A call whose outcome is looked at. *)
Definition try {B} (c : Call) (k : result (Answer c) ApiError -> Prog B) : Prog B := Do c k.

Definition throw_provider {A} (message : string) (code : option string) : Prog A :=
  pthrow (Provider (mkProviderError docker_kind code message false None [])).

(** A loop over a list that ends with its first error. *)
Fixpoint each {A} (f : A -> Prog unit) (l : list A) : Prog unit :=
  match l with
  | [] => pret tt
  | a :: l => seq* f a in each f l
  end.

(** A call that may also find its object gone. *)
Definition tolerate (c : Call) (context : string) : Prog unit :=
  try c (fun r => match r with
    | Ok _ => pret tt
    | Err e => if is_not_found e then pret tt else pthrow (docker_error context e)
    end).

(** ** Images *)

Definition image_present (reference : string) : Prog bool :=
  try (InspectImage reference) (fun r => match r with
    | Ok _ => pret true
    | Err e => if is_not_found e then pret false else pthrow (docker_error "inspecting image" e)
    end).

Definition pull_image (reference : string) (auth : option RegistryAuth) (platform : option string) : Prog unit :=
  let '(from_image, tag, platform) := pull_options reference platform in
  call "pulling image" (CreateImage from_image tag platform (to_credentials <$> auth)).

(** ** One container *)

Definition not_found_sandbox (id : string) : Error := NotFound RkSandbox id.

Definition inspect_container (id : string) : Prog Inspect :=
  try (InspectContainer id) (fun r => match r with
    | Ok i => pret i
    | Err e => pthrow (if is_not_found e then not_found_sandbox id else docker_error "inspecting container" e)
    end).

Definition remove_container_forced (id context : string) : Prog unit := tolerate (RemoveContainer id true) context.

(** ** Sidecars *)

Definition HEALTH_WAIT : Z := 300000.
Definition HEALTH_POLL : Z := 250.
Definition FAILURE_LOG_LINES : Z := 10.
Definition FAILURE_LOG_TIMEOUT : Z := 5000.

Definition sidecar_container (network : string) (s : Sidecar) : string := network +:+ "-" +:+ sc_name s.

Definition trim_end (s : string) : string := unchars (rev (drop_white (rev (uchars s)))).

(** The text of the log's end. *)
Definition log_tail (container : string) : Prog (option string) :=
  try (Logs container FAILURE_LOG_LINES FAILURE_LOG_TIMEOUT) (fun r => match r with
    | Ok b => pret (Some (trim_end (from_utf8_lossy b)))
    | Err _ => pret None
    end).

Definition health_failure {A} (container what : string) : Prog A :=
  let* tail := log_tail container in
  throw_provider ("sidecar " +:+ container +:+ " " +:+ what +:+
    match tail with
    | Some tail => if is_empty tail then "; the log is empty" else "; last log lines:" +:+ NEWLINE +:+ tail
    | None => "; the log could not be read"
    end) None.

Definition now : Prog Z := try Now (fun r => match r with Ok t => pret t | Err _ => pret 0 end).
Definition sleep (ms : Z) : Prog unit := try (Sleep ms) (fun _ => pret tt).

(** What a poll makes of a state: healthy, a failure, or one more poll unless the time
    is up. *)
Definition health_verdict (i : Inspect) : option (option string) :=
  let state : option StateStatus := in_state i ≫= status in
  let checked : option HealthStatus := (in_state i ≫= health) ≫= id in
  match state, checked with
  | _, Some HsHealthy => Some None
  | _, Some HsUnhealthy => Some (Some "reported unhealthy")
  | Some SsExited, _ | Some SsDead, _ => Some (Some "exited before it was healthy")
  | _, _ => None
  end.

(** The polls of a wait that began [HEALTH_WAIT] before the deadline; [out] stands for
    what would follow the last one the fuel allows. *)
Fixpoint health_loop (fuel : nat) (out : Prog unit) (deadline : Z) (container : string) : Prog unit :=
  match fuel with
  | O => out
  | S fuel =>
      let* i := call "inspecting sidecar health" (InspectContainer container) in
      match health_verdict i with
      | Some None => pret tt
      | Some (Some what) => health_failure container what
      | None =>
          let* t := now in
          if deadline <=? t then health_failure container "never reported healthy"
          else seq* sleep HEALTH_POLL in health_loop fuel out deadline container
      end
  end.

Definition HEALTH_POLLS : nat := Z.to_nat (HEALTH_WAIT / HEALTH_POLL + 1).

Definition await_health (container : string) : Prog unit :=
  let* t := now in health_loop HEALTH_POLLS (pret tt) (t + HEALTH_WAIT) container.

Definition network_filter (network : string) : Call := ListContainers [NETWORK_LABEL +:+ "=" +:+ network].

Definition with_id (f : string -> Prog unit) (o : option string) : Prog unit := match o with Some id => f id | None => pret tt end.

Definition disconnect_sandbox (network sandbox : string) (inspected : option (gset string)) : Prog unit :=
  if match inspected with Some containers => bool_decide (sandbox ∈ containers) | None => false end
  then tolerate (DisconnectNetwork network sandbox) "disconnecting sandbox network"
  else pret tt.

Definition remove_network (network : string) : Prog unit := tolerate (RemoveNetwork network) "removing sidecar network".

Definition remove_sidecars (network : string) : Prog unit :=
  let* ids := call "listing sidecars" (network_filter network) in
  each (with_id (fun id => tolerate (RemoveContainer id false) "removing sidecar")) ids.

Definition sweep (network : string) (sandbox : option string) : Prog unit :=
  seq* remove_sidecars network in
  match sandbox with
  | None => remove_network network
  | Some sandbox =>
      try (InspectNetwork network) (fun r => match r with
        | Ok inspected => seq* disconnect_sandbox network sandbox inspected in remove_network network
        | Err e => if is_not_found e then pret tt else pthrow (docker_error "inspecting sidecar network" e)
        end)
  end.

Definition sidecar_labels (network : string) : gmap string string := <[NETWORK_LABEL := network]> {[MANAGED_LABEL := "true"]}.

Definition sidecar_config (network : string) (s : Sidecar) : Config :=
  mkConfig (sc_image s) (sc_user s) (sc_entrypoint s) None None (non_empty (map env_entry (entries (sc_env s))))
    (sidecar_labels network) (to_health_config <$> sc_health s)
    (mkHostConfig (Some network) None None None (if_set (sc_privileged s)) None (non_empty (sc_dns s)) (non_empty (sc_cap_add s)) None None)
    [(network, [sc_name s])].

Definition start_sidecar (network : string) (s : Sidecar) : Prog unit :=
  let* present := image_present (sc_image s) in
  seq* (if present then pret tt else pull_image (sc_image s) (sc_registry_auth s) None) in
  let container := sidecar_container network s in
  seq* call "creating sidecar" (CreateContainer (Some (mkCreateOptions container None)) (sidecar_config network s)) in
  call "starting sidecar" (StartContainer container).

Definition await_sidecar (network : string) (s : Sidecar) : Prog unit :=
  if is_some (sc_health s) then await_health (sidecar_container network s) else pret tt.

Definition start_all (network : string) (sidecars : list Sidecar) : Prog unit :=
  seq* each (start_sidecar network) sidecars in each (await_sidecar network) sidecars.

Definition realize (network : string) (sidecars : list Sidecar) : Prog unit :=
  seq* call "creating sidecar network" (CreateNetwork network (sidecar_labels network)) in
  pmatch (start_all network sidecars) (fun r => match r with
    | Ok _ => pret tt
    | Err error => pmatch (sweep network None) (fun _ => pthrow error)
    end).

Definition start_service (id : string) : Prog unit :=
  try (StartContainer id) (fun r => match r with
    | Ok _ => pret tt
    | Err e => if is_not_modified e then pret tt else pthrow (docker_error "starting sidecar" e)
    end).

Definition stop_tolerated (id context : string) : Prog unit :=
  try (StopContainer id 1) (fun r => match tolerate_not_modified r context with Ok _ => pret tt | Err e => pthrow e end).

Definition await_service (id : string) : Prog unit :=
  let* i := call "inspecting sidecar health" (InspectContainer id) in
  if is_some (in_state i ≫= health) then await_health id else pret tt.

Definition set_running (network : string) (running : bool) : Prog unit :=
  let* ids := call "listing sidecars" (network_filter network) in
  seq* each (with_id (fun id => if running then start_service id else stop_tolerated id "stopping sidecar")) ids in
  if running then each (with_id await_service) ids else pret tt.

(** ** One-shot leftovers, and a sandbox's removal *)

Definition one_shot_sweep (sandbox_id : string) : Prog unit :=
  let* ids := call "listing one-shot containers" (ListContainers [ONE_SHOT_LABEL +:+ "=" +:+ sandbox_id]) in
  each (with_id (fun id => remove_container_forced id "removing one-shot container")) ids.

Definition remove_sandbox (container_id : string) (sidecar_network : option string) : Prog unit :=
  seq* one_shot_sweep container_id in
  seq* match sidecar_network with Some network => sweep network (Some container_id) | None => pret tt end in
  remove_container_forced container_id "removing container".

(** ** The created container *)

Definition create_container (p : ContainerPlan) : Prog string :=
  try (CreateContainer (plan_options p) (plan_config p)) (fun r => match r with
    | Ok id => pret id
    | Err e =>
        if is_conflict e && named p then pthrow (InvalidSpec "name" "a container with this name already exists")
        else pthrow (docker_error "creating container" e)
    end).

Definition connect_sidecars (id : string) (network : option string) (sidecars : list Sidecar) : Prog unit :=
  match network with
  | None => pret tt
  | Some network =>
      seq* realize network sidecars in
      seq* call "disconnecting initial sandbox network" (DisconnectNetwork "none" id) in
      call "connecting sandbox to services" (ConnectNetwork network id)
  end.

Definition verify_running (kind id : string) : Prog Inspect :=
  let* started := inspect_container id in
  if negb (bool_decide (map_state started = StRunning)) then
    let exit := default 0 (in_state started ≫= exit_code) in
    pthrow (Provider (mkProviderError kind (Some "exited")
      ("container exited immediately after start (exit code " +:+ print_int exit +:+
       "); the image must run its init under /bin/sh as the configured user") false None []))
  else pret started.

Definition abandon {A} (id : string) (network : option string) (error : Error) : Prog A :=
  let removed := pmatch (remove_container_forced id "removing failed sandbox") (fun _ => pthrow error) in
  match network with
  | Some network => pmatch (sweep network (Some id)) (fun r => match r with Ok _ => removed | Err _ => pthrow error end)
  | None => removed
  end.

(** ** The provider *)

Definition ensure_image (reference : string) (auto_pull : bool) (auth : option RegistryAuth) (platform : option string) : Prog unit :=
  let* present := image_present reference in
  if present then pret tt
  else if negb auto_pull then
    throw_provider ("image " +:+ reference +:+ " is not present locally and provider_config.auto_pull is false") None
  else pull_image reference auth platform.

Definition connect : Prog unit := call "pinging the docker daemon" Ping.

(** The health, or why the daemon cannot be reached. *)
Definition provider_health : Prog (result unit string) :=
  try Ping (fun r => match r with
    | Ok _ => pret (Ok tt)
    | Err e => pret (Err ("pinging the docker daemon failed: " +:+ api_text e))
    end).

Section Provider.
(** Serde's reading of the provider's configuration, the quoting of a string in an
    error and the daemon's name of a state. *)
Context (deserialize : json -> result DockerProviderConfig string)
        (debug_str : string -> string) (state_text : StateStatus -> string).

(** A step of the creation: its failure abandons the container. *)
Definition or_abandon {A B} (id : string) (p : ContainerPlan) (m : Prog A) (k : A -> Prog B) : Prog B :=
  pmatch m (fun r => match r with Ok a => k a | Err e => abandon id (plan_network p) e end).

(** From the container to the facts its handle is made of. *)
Definition finish_create (p : ContainerPlan) (id : string) : Prog ContainerFacts :=
  match try_new_sandbox_id id with
  | Err e => abandon id (plan_network p) (InvalidSpec "sandbox_id" (id_error_text debug_str e))
  | Ok _ =>
      or_abandon id p (connect_sidecars id (plan_network p) (plan_sidecars p)) (fun _ =>
      or_abandon id p (call "starting container" (StartContainer id)) (fun _ =>
      or_abandon id p (verify_running docker_kind id) (fun started => pret (from_inspect started id))))
  end.

Definition create (s : SandboxSpec) : Prog ContainerFacts :=
  match plan deserialize s with
  | Err e => pthrow e
  | Ok p =>
      seq* ensure_image (plan_image p) (plan_auto_pull p) (plan_auth p) (plan_platform p) in
      let* id := create_container p in
      finish_create p id
  end.

Definition attach (id : string) : Prog ContainerFacts :=
  let* i := inspect_container id in
  if is_managed i then pret (from_inspect i id) else pthrow (not_found_sandbox id).

(** A container that is gone, in a program that goes on without it. *)
Definition inspect_or {A} (id : string) (gone : Prog A) (k : Inspect -> Prog A) : Prog A :=
  pmatch (inspect_container id) (fun r => match r with
    | Ok i => k i
    | Err (NotFound _ _) => gone
    | Err e => pthrow e
    end).

Definition provider_delete (id : string) : Prog unit :=
  inspect_or id (pret tt) (fun i =>
    if is_managed i then remove_sandbox (default id (in_id i)) (sidecar_network_of i) else pret tt).

Fixpoint statuses_of (ids : list (option string)) : Prog (list SandboxStatus) :=
  match ids with
  | [] => pret []
  | None :: ids => statuses_of ids
  | Some id :: ids =>
      inspect_or id (statuses_of ids) (fun i =>
        match try_new_sandbox_id id with
        | Err e => pthrow (InvalidSpec "id" (id_error_text debug_str e))
        | Ok id => let* rest := statuses_of ids in pret (status_from_inspect state_text id i :: rest)
        end)
  end.

Definition list_sandboxes (f : SandboxFilter) : Prog (list SandboxStatus) :=
  let filters := (MANAGED_LABEL +:+ "=true") :: map env_entry (entries (filter_labels f)) in
  let* ids := call "listing containers" (ListContainers filters) in
  statuses_of ids.

(** ** The handle *)

Definition describe (h : ContainerFacts) : Prog SandboxStatus :=
  inspect_or (f_id h)
    (pret (mkSandboxStatus (f_id h) (f_name h) StDeleted EmptyString None None (Some KindContainer) None ∅ None None None None None None None))
    (fun i =>
      let st := status_from_inspect state_text (f_id h) i in
      pret (if bool_decide (st_labels st = ∅)
            then mkSandboxStatus (st_id st) (st_name st) (st_state st) (st_provider_state st) (st_error_reason st) (st_resources st)
                   (st_sandbox_kind st) (st_region st) (f_labels h) (st_image st) (st_snapshot st) (st_network st)
                   (st_workspace_ownership st) (st_web_url st) (st_created_at st) (st_updated_at st)
            else st)).
End Provider.

Definition environment (h : ContainerFacts) : Prog (gmap string string) :=
  let* i := inspect_container (f_id h) in pret (configured_env i).

Definition pending_connection (i : Inspect) (network : string) : bool :=
  match config_labels i with Some labels => bool_decide (is_Some (labels !! SIDECAR_NETWORK_LABEL)) | None => false end &&
  negb match in_networks i with Some networks => bool_decide (network ∈ networks) | None => false end.

Definition start_primary (id : string) : Prog unit :=
  try (StartContainer id) (fun r => match r with
    | Ok _ => pret tt
    | Err e =>
        if is_not_modified e then pret tt
        else if is_not_found e then pthrow (not_found_sandbox id)
        else pthrow (docker_error "starting container" e)
    end).

Definition start (h : ContainerFacts) : Prog unit :=
  let* i := inspect_container (f_id h) in
  seq* match f_network h with
       | None => pret tt
       | Some network =>
           if pending_connection i network
           then throw_provider "sandbox creation did not finish connecting its services; delete the incomplete sandbox" None
           else set_running network true
       end in
  if bool_decide ((in_state i ≫= paused) = Some true) then call "unpausing container" (UnpauseContainer (f_id h))
  else
    seq* (if bool_decide ((in_state i ≫= is_running) = Some true) then pret tt else one_shot_sweep (f_id h)) in
    start_primary (f_id h).

(** The handle's port forwards are closed before. *)
Definition stop (h : ContainerFacts) : Prog unit :=
  seq* one_shot_sweep (f_id h) in
  seq* stop_tolerated (f_id h) "stopping container" in
  match f_network h with Some network => set_running network false | None => pret tt end.

Definition delete_sandbox (h : ContainerFacts) : Prog unit := remove_sandbox (f_id h) (f_network h).
Definition pause (h : ContainerFacts) : Prog unit := call "pausing container" (PauseContainer (f_id h)).
Definition resume (h : ContainerFacts) : Prog unit := call "unpausing container" (UnpauseContainer (f_id h)).
