(* ===== verification/DockerCleanup.v ===== *)
(** * What a Docker sandbox leaves behind

    Over [Docker.v], for any daemon that keeps the law of [DockerApi.v]: what the
    sweeps, the removal of a sandbox and a failed creation leave and touch. *)

From S2P Require Import Prelude Text Shell Exec Capabilities Errors Ids Spec DockerApi DockerSim DockerPlan Docker.

#[local] Open Scope string_scope.
#[local] Open Scope list_scope.
#[local] Open Scope Z_scope.

(** ** Filters *)

Lemma labelled_one c k v : all_chars (fun b => negb (Ascii.eqb "=" b)) k = true ->
  labelled c [k +:+ "=" +:+ v] = bool_decide (c_labels c !! k = Some v).
Proof. intros Hk. unfold labelled. cbn [forallb]. change (k +:+ "=" +:+ v) with (k +:+ String "="%char v). rewrite (split_once_app "="%char k v Hk). apply andb_true_r. Qed.

(** ** Frames *)

Definition exited (c c' : Container) : Prop := c' = c \/ c' = set_run false false c.

(** From a daemon to another that has nothing new: a container is gone only if [R],
    changed but for its exit only if [M], a network gone only if [N]. *)
Record frame (R : string -> gmap string string -> Prop) (M N : string -> Prop) (d d' : Daemon) : Prop := mkFrame {
  frame_old : forall x c', containers d' !! x = Some c' ->
    exists c, containers d !! x = Some c /\ c_labels c' = c_labels c /\ (M x \/ exited c c');
  frame_gone : forall x c, containers d !! x = Some c -> R x (c_labels c) \/ is_Some (containers d' !! x);
  frame_networks : networks d' ⊆ networks d;
  frame_network_gone : forall n, n ∈ networks d -> N n \/ n ∈ networks d';
}.

Lemma exited_trans a b c : exited a b -> exited b c -> exited a c.
Proof. intros [->| ->] [->| ->]; unfold exited; auto. Qed.

Lemma frame_same R M N d : frame R M N d d.
Proof. split; try naive_solver. intros x c' H. exists c'. unfold exited. auto. Qed.

Lemma frame_chain R M N d1 d2 d3 : frame R M N d1 d2 -> frame R M N d2 d3 -> frame R M N d1 d3.
Proof.
  intros [A1 A2 A3 A4] [B1 B2 B3 B4]. split.
  - intros x c3 (c2 & H2 & L2 & O2)%B1. destruct (A1 _ _ H2) as (c1 & H1 & L1 & O1). exists c1.
    split; [done|]. split; [congruence|]. destruct O1 as [|O1], O2 as [|O2]; [tauto..|]. right. by eapply exited_trans.
  - intros x c1 H1. destruct (A2 _ _ H1) as [|[c2 H2]]; [tauto|].
    destruct (A1 _ _ H2) as (c & H & L & _). assert (c = c1) as -> by congruence. rewrite <- L. by apply B2.
  - set_solver.
  - intros n Hn. destruct (A4 n Hn); [tauto|]. by apply B4.
Qed.

Lemma frame_weaken (R R' : string -> gmap string string -> Prop) (M M' N N' : string -> Prop) d d' :
  (forall x l, R x l -> R' x l) -> (forall x, M x -> M' x) -> (forall x, N x -> N' x) -> frame R M N d d' -> frame R' M' N' d d'.
Proof. intros HR HM HN [A1 A2 A3 A4]. split; [|naive_solver..]. intros x c' H. destruct (A1 x c' H) as (c & ? & ? & ?). exists c. naive_solver. Qed.

Lemma frame_later R M N d d' : later d d' -> frame R M N d d'.
Proof.
  intros (Hc & Hn & _). split; rewrite ?Hc, ?Hn; try naive_solver.
  intros x c' H. exists c'. unfold exited. auto.
Qed.

Lemma frame_drift R M N d d' : drift d d' -> frame R M N d d'.
Proof.
  intros (Hn & _ & H). split; rewrite ?Hn; [| |set_solver|auto].
  - intros x c' Hx. specialize (H x). destruct (containers d !! x) as [c|]; [|congruence]. destruct H as [b Hb].
    exists c. rewrite Hb in Hx. injection Hx as <-. unfold exited. by destruct b; auto.
  - intros x c Hx. specialize (H x). rewrite Hx in H. destruct H as [b ->]. right. eauto.
Qed.

Lemma frame_labels R M N d d' x l : frame R M N d d' -> labels_of d' !! x = Some l -> labels_of d !! x = Some l.
Proof.
  intros F. unfold labels_of. rewrite !lookup_fmap, !fmap_Some. intros (c' & H & ->).
  destruct (frame_old _ _ _ _ _ F x c' H) as (c & Hc & E & _). eauto.
Qed.

Lemma frame_stays R M N d d' x l : frame R M N d d' -> labels_of d !! x = Some l -> ~ R x l -> labels_of d' !! x = Some l.
Proof.
  intros F. unfold labels_of. rewrite !lookup_fmap, !fmap_Some. intros (c & H & ->) HR.
  destruct (frame_gone _ _ _ _ _ F x c H) as [|[c' H']]; [done|]. exists c'. split; [done|].
  destruct (frame_old _ _ _ _ _ F x c' H') as (c0 & Hc & E & _). congruence.
Qed.

Lemma frame_none R M N d d' x : frame R M N d d' -> labels_of d !! x = None -> labels_of d' !! x = None.
Proof. intros F H. destruct (labels_of d' !! x) as [l|] eqn:E; [|done]. by rewrite (frame_labels _ _ _ _ _ _ _ F E) in H. Qed.

(** The container an update is of. *)
Lemma frame_updates R (M N : string -> Prop) r d d' f : (forall id, refers d r id = true -> M id) ->
  (forall c c', f c c' -> c_labels c' = c_labels c) -> updates r d d' f -> frame R M N d d'.
Proof.
  intros HM Hf (id & c & c' & Hr & Hc & Hcc & (Hl & Hn & _)). cbn in Hl, Hn. split; rewrite ?Hl, ?Hn; [| |set_solver|auto].
  - intros x c2 [[<- <-]|[Hx Hx2]]%lookup_insert_Some.
    + exists c. rewrite (Hf _ _ Hcc). auto.
    + exists c2. unfold exited. auto.
  - intros x c2 Hx. right. destruct (decide (id = x)) as [<-|]; [rewrite lookup_insert_eq|rewrite lookup_insert_ne by done]; eauto.
Qed.

Lemma frame_drop (R : string -> gmap string string -> Prop) M N id d d' :
  (forall c, containers d !! id = Some c -> R id (c_labels c)) -> later (drop_container id d) d' -> frame R M N d d'.
Proof.
  intros HR (Hl & Hn & _). cbn in Hl, Hn. split; rewrite ?Hl, ?Hn; [| |set_solver|auto].
  - intros x c2 [_ Hx]%lookup_delete_Some. exists c2. unfold exited. auto.
  - intros x c2 Hx. destruct (decide (id = x)) as [<-|]; [auto|]. right. rewrite lookup_delete_ne by done. eauto.
Qed.

Lemma frame_unlink R M (N : string -> Prop) n d d' : N n -> later (with_networks (networks d ∖ {[n]}) d) d' -> frame R M N d d'.
Proof.
  intros HN (Hl & Hn & _). cbn in Hl, Hn. split; rewrite ?Hl, ?Hn; [| |set_solver|].
  - intros x c2 Hx. exists c2. unfold exited. auto.
  - naive_solver.
  - intros m Hm. destruct (decide (m = n)) as [->|]; [auto|]. right. set_solver.
Qed.

Lemma refers_exact d r id : is_Some (containers d !! r) -> refers d r id = true -> id = r.
Proof.
  intros Hr. unfold refers. destruct (containers d !! id); [|done]. rewrite bool_decide_true by done. by intros ->%String.eqb_eq.
Qed.

Lemma refers_self d id : is_Some (containers d !! id) -> refers d id id = true.
Proof. intros Hid. pose proof Hid as [c Hc]. unfold refers. rewrite Hc. rewrite bool_decide_true by eauto. apply String.eqb_refl. Qed.

(** No container has the label. *)
Definition none_labelled (k v : string) (d : Daemon) : Prop := forall x l, labels_of d !! x = Some l -> l !! k <> Some v.

Lemma none_labelled_frame R M N k v d d' : frame R M N d d' -> none_labelled k v d -> none_labelled k v d'.
Proof. intros F H x l Hx. by apply (H x), (frame_labels _ _ _ _ _ _ _ F). Qed.

Lemma drift_present d d' x : drift d d' -> is_Some (containers d !! x) <-> is_Some (containers d' !! x).
Proof.
  intros (_ & _ & H). specialize (H x). destruct (containers d !! x); [destruct H as [b ->]|rewrite H]; split; eauto.
Qed.

(** A call that neither makes nor removes anything. *)
Definition harmless (k : Call) : Prop :=
  match k with CreateContainer _ _ | RemoveContainer _ _ | CreateNetwork _ _ | RemoveNetwork _ => False | _ => True end.

Lemma harmless_answers k d d' r : harmless k -> answers k d d' r -> labels_of d' = labels_of d /\ networks d' = networks d.
Proof.
  intros Hk Ha. destruct (answers_delta _ _ _ _ Ha) as [?|(d1 & [<- <-]%drift_labels & Hd)]; [done|]. by destruct k.
Qed.

(** ** What the calls of a cleanup come to *)

Definition untouched_but (id : string) (d d' : Daemon) : Prop := forall x, x <> id -> labels_of d' !! x = labels_of d !! x.

Lemma remove_outcome (R : string -> gmap string string -> Prop) M N id vol d0 d r :
  is_Some (containers d0 !! id) -> (forall l, labels_of d0 !! id = Some l -> R id l) ->
  answers (RemoveContainer id vol) d0 d r ->
  frame R M N d0 d /\ untouched_but id d0 d /\
  match r with Ok _ => containers d !! id = None | Err e => is_not_found e = false end.
Proof.
  intros Hid HR (d1 & Hd & H). pose proof (proj1 (drift_present _ _ id Hd) Hid) as Hid1.
  pose proof (frame_drift R M N _ _ Hd) as F. destruct (drift_labels _ _ Hd) as [L _].
  assert (Heff : forall d, (exists x, refers d1 id x = true /\ later (drop_container x d1) d) ->
    frame R M N d0 d /\ untouched_but id d0 d /\ containers d !! id = None).
  { clear d H. intros d (x & Hx%(refers_exact _ _ _ Hid1) & Hl). subst x. split; [|split].
    - apply (frame_chain _ _ _ _ _ _ F). eapply frame_drop; [|exact Hl]. intros c Hc. apply HR.
      rewrite <- L. unfold labels_of. by rewrite lookup_fmap, Hc.
    - intros x Hx. rewrite <- L. unfold labels_of. rewrite (proj1 Hl). cbn. by rewrite fmap_delete, lookup_delete_ne.
    - rewrite (proj1 Hl). apply lookup_delete_eq. }
  destruct r as [a|e]; cbn in H; [by apply Heff|].
  destruct H as (Hor & Href & _). assert (Hn : is_not_found e = false).
  { destruct (is_not_found e) eqn:En; [|done]. destruct Href as [_ Href]; [by rewrite ?En|].
    specialize (Href eq_refl id). by rewrite (refers_self _ _ Hid1) in Href. }
  destruct Hor as [Hl|[a Ha]]; [|destruct (Heff d Ha) as (? & ? & _); done].
  split; [apply (frame_chain _ _ _ _ _ _ F); by apply frame_later|]. split; [|done].
  intros x _. by rewrite (proj1 (later_labels _ _ Hl)), L.
Qed.

Section Programs.
Context {W : Type} (daemon : forall k : Call, W -> W * result (Answer k) ApiError) (view : W -> Daemon)
        (law : lawful daemon view).

#[local] Notation triple := (DockerApi.triple daemon view).

Lemma removal_outcome (R : string -> gmap string string -> Prop) M N id vol ctx d0 :
  is_Some (containers d0 !! id) -> (forall l, labels_of d0 !! id = Some l -> R id l) ->
  triple (fun d => d = d0) (tolerate (RemoveContainer id vol) ctx)
    (fun r d => frame R M N d0 d /\ untouched_but id d0 d /\ (r = Ok tt -> containers d !! id = None)).
Proof.
  intros Hid HR. apply (triple_do _ _ law). intros r.
  assert (Hall : forall d, (exists d2, d2 = d0 /\ answers (RemoveContainer id vol) d2 d r) ->
    frame R M N d0 d /\ untouched_but id d0 d /\
    match r with Ok _ => containers d !! id = None | Err e => is_not_found e = false end).
  { intros d (? & -> & Ha). by apply (remove_outcome _ _ _ _ _ _ _ _ Hid HR Ha). }
  destruct r as [a|e]; cbn beta iota.
  - apply triple_return. naive_solver.
  - destruct (is_not_found e); apply triple_return; naive_solver.
Qed.

Lemma each_removed (R : string -> gmap string string -> Prop) M N vol ctx l d0 : NoDup l ->
  (forall x, x ∈ l -> exists lb, labels_of d0 !! x = Some lb /\ R x lb) ->
  triple (fun d => d = d0) (each (with_id (fun id => tolerate (RemoveContainer id vol) ctx)) (map Some l))
    (fun r d => frame R M N d0 d /\ (r = Ok tt -> forall x, x ∈ l -> labels_of d !! x = None)).
Proof.
  intros Hnd. revert d0. induction Hnd as [|a l Ha Hnd IH]; intros d0 Hl.
  { apply triple_return. intros d ->. split; [apply frame_same|]. intros _ x []%not_elem_of_nil. }
  destruct (Hl a) as (lb & Hlb & HR); [by left|]. cbn [map each with_id].
  eapply triple_bind.
  - apply (removal_outcome R M N).
    + unfold labels_of in Hlb. rewrite lookup_fmap, fmap_Some in Hlb. naive_solver.
    + intros l2 Hl2. by assert (l2 = lb) as -> by congruence.
  - intros []. apply triple_from. intros d1 (F & U & G). specialize (G eq_refl).
    eapply triple_weaken; [apply (IH d1)|done|].
    + intros x Hx. destruct (Hl x) as (lx & Hlx & HRx); [by right|]. exists lx. split; [|done].
      rewrite U; [done|]. by intros ->.
    + intros r d2 [F2 G2]. split; [by eapply frame_chain|]. intros Hr x [->|Hx]%elem_of_cons; [|by apply G2].
      apply (frame_none _ _ _ _ _ _ F2). unfold labels_of. by rewrite lookup_fmap, G.
  - intros e d (F & _ & _). done.
Qed.

(** Nothing changes but by itself. *)
Definition still : Daemon -> Daemon -> Prop := frame (fun _ _ => False) (fun _ => False) (fun _ => False).

Lemma still_frame R M N d d' : still d d' -> frame R M N d d'.
Proof. intros F. refine (frame_weaken _ _ _ _ _ _ d d' _ _ _ F); tauto. Qed.

(** What a listing by a label tells. *)
Definition listed (k v : string) (ids : list (option string)) (d : Daemon) : Prop :=
  exists l, ids = map Some l /\ NoDup l /\ forall x, x ∈ l <-> exists lb, labels_of d !! x = Some lb /\ lb !! k = Some v.

Lemma listing_outcome k v ctx d0 : all_chars (fun b => negb (Ascii.eqb "=" b)) k = true ->
  triple (fun d => d = d0) (call ctx (ListContainers [k +:+ "=" +:+ v]))
    (fun r d => still d0 d /\ match r with Ok ids => listed k v ids d | Err _ => True end).
Proof.
  intros Hk. apply (triple_do _ _ law). intros r.
  assert (F : forall d, (exists d2, d2 = d0 /\ answers (ListContainers [k +:+ "=" +:+ v]) d2 d r) -> still d0 d).
  { intros d (? & -> & d1 & Hd & H). apply (frame_chain _ _ _ _ _ _ (frame_drift _ _ _ _ _ Hd)). apply frame_later.
    destruct r as [a|e]; cbn in H; [tauto|]. destruct H as ([?|[a Ha]] & _); [done|]. cbn in Ha. tauto. }
  destruct r as [ids|e]; apply triple_return; intros d Hd; [|by split; [apply F|]].
  split; [by apply F|]. destruct Hd as (? & -> & d1 & Hd & [Hl (l & -> & Hnd & Hin)]). exists l. split; [done|]. split; [done|].
  intros x. rewrite Hin. rewrite (proj1 (later_labels _ _ Hl)). unfold labels_of. rewrite lookup_fmap. split.
  - intros (c & Hc & Hlab). rewrite labelled_one in Hlab by done. apply bool_decide_eq_true in Hlab.
    exists (c_labels c). by rewrite Hc.
  - intros (lb & (c & Hc & ->)%fmap_Some & HR). exists c. split; [done|]. rewrite labelled_one by done. by apply bool_decide_eq_true.
Qed.

(** Listing by a label and removing what is listed. *)
Lemma sweep_listed M N k v vol ctx ctx2 d0 : all_chars (fun b => negb (Ascii.eqb "=" b)) k = true ->
  triple (fun d => d = d0)
    (let* ids := call ctx (ListContainers [k +:+ "=" +:+ v]) in
     each (with_id (fun id => tolerate (RemoveContainer id vol) ctx2)) ids)
    (fun r d => frame (fun _ l => l !! k = Some v) M N d0 d /\ (r = Ok tt -> none_labelled k v d)).
Proof.
  intros Hk. set (R := fun (_ : string) (l : gmap string string) => l !! k = Some v).
  eapply triple_bind; [by apply (listing_outcome k v)| |].
  - intros ids. apply triple_from. intros d1 (F & l & -> & Hnd & Hin). apply (still_frame R M N) in F.
    eapply triple_weaken; [apply (each_removed R M N vol ctx2 l d1 Hnd)|done|].
    + intros x Hx. by apply Hin.
    + intros r d2 [F2 G]. split; [by eapply frame_chain|]. intros Hr x lb Hx HR. subst R. cbn in *.
      pose proof (frame_labels _ _ _ _ _ _ _ F2 Hx) as Hx1. assert (x ∈ l) as Hxl by (apply Hin; eauto).
      by rewrite (G Hr x Hxl) in Hx.
  - intros e d [F _]. split; [by apply still_frame|done].
Qed.

(** ** Sweeps *)

Definition on_network (network : string) : string -> gmap string string -> Prop := fun _ l => l !! NETWORK_LABEL = Some network.

Lemma unlink_outcome R M network d0 :
  triple (fun d => d = d0) (remove_network network)
    (fun r d => frame R M (fun n => n = network) d0 d /\ (r = Ok tt -> network ∉ networks d)).
Proof.
  apply (triple_do _ _ law). intros r. set (N := fun n => n = network).
  assert (H : forall d, (exists d2, d2 = d0 /\ answers (RemoveNetwork network) d2 d r) ->
    frame R M N d0 d /\ match r with Ok _ => network ∉ networks d | Err e => is_not_found e = true -> network ∉ networks d end).
  { intros d (? & -> & d1 & Hd & H). pose proof (frame_drift R M N _ _ Hd) as F.
    assert (Heff : network ∈ networks d1 /\ later (with_networks (networks d1 ∖ {[network]}) d1) d ->
      frame R M N d0 d /\ network ∉ networks d).
    { intros (_ & Hl). split; [apply (frame_chain _ _ _ _ _ _ F); by eapply frame_unlink|]. rewrite (proj1 (proj2 Hl)). cbn. set_solver. }
    destruct r as [a|e]; cbn in H; [by apply Heff|]. destruct H as (Hor & Href & _).
    destruct Hor as [Hl|[a Ha]]; [|destruct (Heff Ha); by split].
    split; [apply (frame_chain _ _ _ _ _ _ F); by apply frame_later|]. intros En.
    rewrite (proj1 (proj2 Hl)). apply Href; [by rewrite ?En|done]. }
  destruct r as [a|e]; cbn beta iota.
  - apply triple_return. naive_solver.
  - destruct (is_not_found e) eqn:En; apply triple_return; naive_solver.
Qed.

(** A call that changes at most the sandbox's container. *)
Lemma frame_tolerated R (M N : string -> Prop) k ctx d0 :
  (forall d1 d a, drift d0 d1 -> effect k d1 d a -> frame R M N d1 d) ->
  triple (fun d => d = d0) (tolerate k ctx) (fun _ d => frame R M N d0 d).
Proof.
  intros Hk. apply (triple_do _ _ law). intros r.
  assert (H : forall d, (exists d2, d2 = d0 /\ answers k d2 d r) -> frame R M N d0 d).
  { intros d (? & -> & d1 & Hd & H). apply (frame_chain _ _ _ _ _ _ (frame_drift R M N _ _ Hd)).
    destruct r as [a|e]; [by apply (Hk d1 d a)|]. destruct H as ([?|[a Ha]] & _); [by apply frame_later|by apply (Hk d1 d a)]. }
  destruct r as [a|e]; cbn beta iota; [by apply triple_return|]. destruct (is_not_found e); by apply triple_return.
Qed.

Lemma disconnect_outcome R network sandbox on d0 :
  (forall s id, on = Some s -> id ∈ s -> is_Some (containers d0 !! id)) ->
  triple (fun d => d = d0) (disconnect_sandbox network sandbox on)
    (fun _ d => frame R (fun x => x = sandbox) (fun n => n = network) d0 d).
Proof.
  intros Hon. unfold disconnect_sandbox. set (N := fun n => n = network). set (M := fun x => x = sandbox).
  destruct on as [s|]; [case_bool_decide as Hs|].
  - apply frame_tolerated. intros d1 d a Hd Ha. eapply frame_updates; [| |exact Ha].
    + intros id Hid. apply (refers_exact d1 sandbox id); [|done]. apply (drift_present d0); [done|]. by eapply Hon.
    + intros c c' ->. done.
  - apply triple_return. intros d ->. apply frame_same.
  - apply triple_return. intros d ->. apply frame_same.
Qed.

Lemma sweep_outcome network sandbox d0 :
  triple (fun d => d = d0) (sweep network sandbox)
    (fun r d => frame (on_network network) (fun x => sandbox = Some x) (fun n => n = network) d0 d /\
       (r = Ok tt -> none_labelled NETWORK_LABEL network d /\ network ∉ networks d)).
Proof.
  set (M := fun x => sandbox = Some x). set (N := fun n => n = network). unfold sweep.
  eapply triple_bind; [apply (sweep_listed M N NETWORK_LABEL network false); done| |by intros e d [F _]].
  intros []. apply triple_from. intros d1 (F & G). specialize (G eq_refl). fold (on_network network) in F.
  assert (Hlast : forall d2, frame (on_network network) M N d1 d2 ->
    triple (fun d => d = d2) (remove_network network)
      (fun r d => frame (on_network network) M N d0 d /\ (r = Ok tt -> none_labelled NETWORK_LABEL network d /\ network ∉ networks d))).
  { intros d2 F2. eapply triple_weaken; [apply (unlink_outcome (on_network network) M network d2)|done|].
    intros r d [F3 G3]. pose proof (frame_chain _ _ _ _ _ _ F2 F3) as F4. split; [by eapply frame_chain|].
    intros Hr. split; [by eapply none_labelled_frame|by apply G3]. }
  destruct sandbox as [sandbox|]; [|apply Hlast, frame_same].
  apply (triple_do _ _ law). intros [on|e].
  - apply triple_from. intros d2 (? & -> & d12 & Hd & Hin & Hl & Hon).
    assert (F2 : frame (on_network network) M N d1 d2)
      by (apply (frame_chain _ _ _ _ _ _ (frame_drift _ _ _ _ _ Hd)); by apply frame_later).
    eapply triple_bind; [apply (disconnect_outcome (on_network network)); intros s id Hs Hid; rewrite (proj1 Hl); by eapply Hon| |].
    + intros []. apply triple_from. intros d3 F3. apply Hlast. apply (frame_chain _ _ _ _ _ _ F2).
      eapply frame_weaken; [done| | |exact F3]; [by intros x ->|done].
    + intros e d F3. split; [|done]. apply (frame_chain _ _ _ _ _ _ F), (frame_chain _ _ _ _ _ _ F2).
      eapply frame_weaken; [done| | |exact F3]; [by intros x ->|done].
  - assert (H : forall d, (exists d2, d2 = d1 /\ answers (InspectNetwork network) d2 d (Err e)) ->
      frame (on_network network) M N d1 d /\ (is_not_found e = true -> network ∉ networks d)).
    { intros d (? & -> & d12 & Hd & Hor & Href & _).
      assert (Hl : later d12 d) by (destruct Hor as [?|(on & _ & ? & _)]; done).
      split; [apply (frame_chain _ _ _ _ _ _ (frame_drift _ _ _ _ _ Hd)); by apply frame_later|].
      intros En. rewrite (proj1 (proj2 Hl)). apply Href; [by rewrite En|done]. }
    destruct (is_not_found e) eqn:En; apply triple_return; intros d Hd; destruct (H d Hd) as [F2 G2].
    + split; [by eapply frame_chain|]. intros _. split; [by eapply none_labelled_frame|by apply G2].
    + split; [by eapply frame_chain|done].
Qed.
(** ** The removal of a sandbox *)

(** What belongs to the sandbox of a container: itself, its one-shots, its sidecars. *)
Definition owned (id : string) (network : option string) (x : string) (l : gmap string string) : Prop :=
  x = id \/ l !! ONE_SHOT_LABEL = Some id \/ exists n, network = Some n /\ l !! NETWORK_LABEL = Some n.

Definition all_gone (id : string) (network : option string) (d : Daemon) : Prop :=
  containers d !! id = None /\ none_labelled ONE_SHOT_LABEL id d /\
  forall n, network = Some n -> none_labelled NETWORK_LABEL n d /\ n ∉ networks d.

(** A primary is not one of its own dependants. *)
Definition primary (id : string) (network : option string) (l : gmap string string) : Prop :=
  l !! ONE_SHOT_LABEL <> Some id /\ forall n, network = Some n -> l !! NETWORK_LABEL <> Some n.

(** What a cleanup of the sandbox touches, and that the container goes last. *)
Definition cleaned (id : string) (network : option string) (d0 : Daemon) (r : result unit Error) (d : Daemon) : Prop :=
  frame (owned id network) (fun x => x = id) (fun n => network = Some n) d0 d /\
  (r = Ok tt -> containers d !! id = None) /\ (containers d !! id = None -> all_gone id network d).

Lemma present_labels id d : containers d !! id = None <-> labels_of d !! id = None.
Proof. unfold labels_of. rewrite lookup_fmap. by destruct (containers d !! id). Qed.

Lemma sidecars_swept id network l d0 : primary id network l -> labels_of d0 !! id = Some l ->
  triple (fun d => d = d0) (match network with Some n => sweep n (Some id) | None => pret tt end)
    (fun r d => frame (owned id network) (fun x => x = id) (fun n => network = Some n) d0 d /\ labels_of d !! id = Some l /\
       (r = Ok tt -> forall n, network = Some n -> none_labelled NETWORK_LABEL n d /\ n ∉ networks d)).
Proof.
  intros [_ Hp] Hl. destruct network as [n|].
  - eapply triple_weaken; [apply (sweep_outcome n (Some id) d0)|done|]. intros r d [F G]. split; [|split].
    + eapply frame_weaken; [| | |exact F]; [|by intros x [= ->]|by intros x ->]. intros x lx Hx. right. right. by exists n.
    + apply (frame_stays _ _ _ _ _ _ _ F Hl). by apply Hp.
    + by intros Hr ? [= <-]; apply G.
  - apply triple_return. intros d ->. split; [apply frame_same|done].
Qed.

Lemma remove_sandbox_outcome id network l d0 : primary id network l -> labels_of d0 !! id = Some l ->
  triple (fun d => d = d0) (remove_sandbox id network) (cleaned id network d0).
Proof.
  intros Hp Hl. set (R := owned id network). set (M := fun x => x = id). set (N := fun n => network = Some n).
  assert (Hstay : forall d, labels_of d !! id = Some l -> containers d !! id <> None).
  { intros d H. rewrite present_labels. congruence. }
  unfold remove_sandbox. eapply triple_bind.
  - eapply triple_weaken; [apply (sweep_listed M N ONE_SHOT_LABEL id true "listing one-shot containers" "removing one-shot container" d0); done|done|].
    intros r d [F G]. pose proof (frame_stays _ _ _ _ _ _ _ F Hl (proj1 Hp)) as Hl'.
    assert (frame R M N d0 d) as F'; [|exact (conj F' (conj Hl' G))].
    refine (frame_weaken _ R M M N N d0 d _ (fun _ h => h) (fun _ h => h) F). intros x lx Hx. right. by left.
  - intros []. apply triple_from. intros d1 (F & Hl1 & G1). specialize (G1 eq_refl). eapply triple_bind.
    + apply (sidecars_swept id network l d1 Hp Hl1).
    + intros []. apply triple_from. intros d2 (F2 & Hl2 & G2). specialize (G2 eq_refl).
      eapply triple_weaken; [apply (removal_outcome R M N id true "removing container" d2)|done|].
      * rewrite <- not_eq_None_Some. by apply Hstay.
      * intros l2 _. by left.
      * intros r d (F3 & _ & G3). split; [by eapply frame_chain; [|eapply frame_chain]|]. split; [done|].
        intros Hg. split; [done|]. split; [by do 2 (eapply none_labelled_frame; [eassumption|])|].
        intros n Hn. destruct (G2 n Hn) as [A B]. split; [by eapply none_labelled_frame|].
        intros HB. by apply B, (frame_networks _ _ _ _ _ F3).
    + intros e d (F2 & Hl2 & _). split; [by eapply frame_chain|]. split; [done|]. intros Hg. by apply Hstay in Hl2.
  - intros e d (F & Hl1 & _). split; [done|]. split; [done|]. intros Hg. by apply Hstay in Hl1.
Qed.

(** What an inspect says of the container's network. *)
Definition network_in (c : Container) : option string :=
  match c_labels c !! SIDECAR_NETWORK_LABEL with
  | Some n => Some n
  | None => if is_sidecar_network (c_mode c) then Some (c_mode c) else None
  end.

Definition managed (c : Container) : Prop := c_labels c !! MANAGED_LABEL = Some "true".

Lemma describes_network id c i : describes id c i -> sidecar_network_of i = network_in c.
Proof.
  intros (_ & _ & Hl & Hm & _). unfold sidecar_network_of, network_in, config_labels. rewrite Hl, Hm. cbn.
  by destruct (c_labels c !! SIDECAR_NETWORK_LABEL).
Qed.

Lemma describes_managed id c i : describes id c i -> is_managed i = bool_decide (managed c).
Proof. intros (_ & _ & Hl & _). unfold is_managed, managed, config_labels. by rewrite Hl. Qed.
Lemma exited_same c c' : exited c c' -> c_labels c' = c_labels c /\ c_mode c' = c_mode c.
Proof. by intros [->| ->]. Qed.

Lemma still_later d d' : later d d' -> still d d'.
Proof. apply frame_later. Qed.

(** An answer that finds a container, and one that does not. *)
Definition inspected (r : string) (d0 : Daemon) (res : result Inspect Error) (d : Daemon) : Prop :=
  still d0 d /\
  match res with
  | Ok i => exists id c, refers d0 r id = true /\ containers d0 !! id = Some c /\
      exists c', containers d !! id = Some c' /\ exited c c' /\ describes id c' i
  | Err e => (exists k x, e = NotFound k x) -> forall id, refers d0 r id = false
  end.

Lemma inspect_outcome r d0 : triple (fun d => d = d0) (inspect_container r) (inspected r d0).
Proof.
  apply (triple_do _ _ law). intros res.
  assert (Hrefers : forall d1 id, drift d0 d1 -> refers d1 r id = refers d0 r id) by (intros; by apply drift_refers).
  destruct res as [i|e]; apply triple_return; intros d (? & -> & d1 & Hd & H).
  - destruct H as (Hl & id & c1 & Hr & Hc1 & Hi). pose proof (frame_drift (fun _ _ => False) (fun _ => False) (fun _ => False) _ _ Hd) as F.
    split; [exact (frame_chain _ _ _ _ _ _ F (still_later _ _ Hl))|].
    destruct (frame_old _ _ _ _ _ F _ _ Hc1) as (c & Hc & _ & [[]|He]). exists id, c. rewrite <- (Hrefers d1) by done.
    split; [done|]. split; [done|]. exists c1. by rewrite (proj1 Hl).
  - destruct H as (Hor & Href & _). assert (Hl : later d1 d) by (by destruct Hor as [?|(a & ? & _)]).
    split; [exact (frame_chain _ _ _ _ _ _ (frame_drift _ _ _ _ _ Hd) (still_later _ _ Hl))|].
    destruct (is_not_found e) eqn:En.
    + intros _ id. rewrite <- (Hrefers d1) by done. by apply Href; rewrite ?En.
    + intros (k & x & E). unfold docker_error in E. by destruct e.
Qed.

(** What a deletion comes to. *)
Definition deleted (r : string) (d0 : Daemon) (res : result unit Error) (d : Daemon) : Prop :=
  (still d0 d /\
   (res = Ok tt -> (forall id, refers d0 r id = false) \/
      exists id c, refers d0 r id = true /\ containers d0 !! id = Some c /\ ~ managed c)) \/
  exists id c, refers d0 r id = true /\ containers d0 !! id = Some c /\ managed c /\ cleaned id (network_in c) d0 res d.

Lemma cleaned_still id network d0 d1 res d : still d0 d1 -> cleaned id network d1 res d -> cleaned id network d0 res d.
Proof.
  intros F (F2 & G). split; [|done]. eapply frame_chain; [|exact F2]. by apply still_frame.
Qed.

Lemma deletion_outcome r d0 :
  (forall id c, refers d0 r id = true -> containers d0 !! id = Some c -> primary id (network_in c) (c_labels c)) ->
  triple (fun d => d = d0) (provider_delete r) (deleted r d0).
Proof.
  intros Hp. eapply triple_match; [apply inspect_outcome|]. intros [i|e].
  - apply triple_from. intros d1 (F & id & c & Hr & Hc & c1 & Hc1 & He & Hi).
    destruct (exited_same _ _ He) as [El Em]. rewrite (describes_managed _ _ _ Hi). unfold managed. rewrite El.
    assert (network_in c1 = network_in c) as En by (unfold network_in; by rewrite El, Em).
    case_bool_decide as Hm.
    + rewrite (describes_network _ _ _ Hi), En. destruct Hi as [-> _].
      eapply triple_weaken; [eapply (remove_sandbox_outcome id _ (c_labels c) d1 (Hp _ _ Hr Hc))|done|].
      * unfold labels_of. rewrite lookup_fmap, Hc1. cbn. by rewrite El.
      * intros res d Hd. right. exists id, c. repeat (split; [done|]). by eapply cleaned_still.
    + apply triple_return. intros d ->. left. split; [done|]. intros _. right. by exists id, c.
  - assert (H : forall res d, inspected r d0 (Err e) d -> (res = Ok tt -> exists k x, e = NotFound k x) -> deleted r d0 res d).
    { intros res d [F Hn] Hres. left. split; [done|]. intros E. left. by apply Hn, Hres. }
    destruct e; apply triple_return; intros d Hd; apply H; naive_solver.
Qed.
End Programs.

(** C9. A deletion by id removes the sandbox of a container this provider made and
    nothing else. Where the id names no such container the daemon is left as it was
    (but for what exits by itself); where it does, only the container, its one-shots,
    the sidecars of its network and that network may go, every other container stays
    as it is; once the container is gone so are all of them, however the calls were
    answered; and success means it is gone. Every container the id may name is a
    [primary]: not itself labelled as a one-shot of its own or as a service of the
    network found for it. The id of a service is not covered: a service carries the
    managed label too, the network found for it is the one it serves on, and its
    deletion takes the other services of that network with it
    ([service_id_takes_siblings]). *)
Theorem delete_removes_sandbox {W} (daemon : forall k : Call, W -> W * result (Answer k) ApiError) (view : W -> Daemon) r w w' res :
  lawful daemon view ->
  (forall id c, refers (view w) r id = true -> containers (view w) !! id = Some c -> primary id (network_in c) (c_labels c)) ->
  run daemon (provider_delete r) w = (w', res) ->
  (still (view w) (view w') /\
   (res = Ok tt -> (forall id, refers (view w) r id = false) \/
      exists id c, refers (view w) r id = true /\ containers (view w) !! id = Some c /\ ~ managed c)) \/
  exists id c, refers (view w) r id = true /\ containers (view w) !! id = Some c /\ managed c /\
    cleaned id (network_in c) (view w) res (view w').
Proof.
  intros law Hp E. exact (triple_run _ _ _ _ _ _ _ _ (deletion_outcome daemon view law r (view w) Hp) eq_refl E).
Qed.

(** ** An example *)

Definition demo_primary : Container :=
  mkContainer "demo" {[MANAGED_LABEL := "true"; SIDECAR_NETWORK_LABEL := "demo-net"]} "none" {["demo-net"]} true false.
Definition demo_service : Container := mkContainer "demo-net-db" (sidecar_labels "demo-net") "demo-net" {["demo-net"]} true false.
Definition demo_one_shot : Container := mkContainer "lint" {[MANAGED_LABEL := "true"; ONE_SHOT_LABEL := "c1"]} "container:c1" ∅ true false.
Definition demo_other : Container := mkContainer "web" {["app" := "web"]} "bridge" ∅ true false.

(** The removal of the service fails, though it is gone. *)
Definition demo_sandbox : Sim :=
  mkSim (mkDaemon {["c1" := demo_primary; "c2" := demo_service; "c3" := demo_one_shot; "c4" := demo_other]} {["demo-net"; "bridge"]} 0)
    [] [None; None; None; None; Some true].

Lemma delete_removes_sandbox_witness :
  let out := run sim (provider_delete "c1") demo_sandbox in
  snd out = Err (docker_error "removing sidecar" (ServerError 500 EmptyString)) /\
  map fst (map_to_list (containers (sim_daemon (fst out)))) = ["c1"; "c4"] /\
  ((still (sim_daemon demo_sandbox) (sim_daemon (fst out)) /\
   (snd out = Ok tt -> (forall id, refers (sim_daemon demo_sandbox) "c1" id = false) \/
      exists id c, refers (sim_daemon demo_sandbox) "c1" id = true /\ containers (sim_daemon demo_sandbox) !! id = Some c /\ ~ managed c)) \/
   exists id c, refers (sim_daemon demo_sandbox) "c1" id = true /\ containers (sim_daemon demo_sandbox) !! id = Some c /\ managed c /\
    cleaned id (network_in c) (sim_daemon demo_sandbox) (snd out) (sim_daemon (fst out))).
Proof.
  intros out. split; [vm_compute; reflexivity|]. split; [vm_compute; reflexivity|].
  apply (delete_removes_sandbox sim sim_daemon "c1" demo_sandbox (fst out) (snd out) sim_lawful); [|apply surjective_pairing].
  intros id c Hr Hc. apply refers_exact in Hr; [|vm_compute; eauto]. subst id.
  assert (Hc' : Some demo_primary = Some c) by (rewrite <- Hc; reflexivity). injection Hc' as <-.
  split; [vm_compute; discriminate|]. intros n _. vm_compute. discriminate.
Defined.

(** The id of a service, which is managed but no [primary]: its siblings and the network
    go with it, and the sandbox they served stays, without its services. *)
Definition demo_siblings : Sim :=
  mkSim (mkDaemon {["c1" := demo_primary; "c2" := demo_service; "c4" := demo_other;
      "c5" := mkContainer "demo-net-cache" (sidecar_labels "demo-net") "demo-net" {["demo-net"]} true false]} {["demo-net"; "bridge"]} 0) [] [].

Example service_id_takes_siblings :
  let out := run sim (provider_delete "c2") demo_siblings in
  snd out = Ok tt /\ map fst (map_to_list (containers (sim_daemon (fst out)))) = ["c1"; "c4"].
Proof. vm_compute. split; reflexivity. Qed.
