(* ===== verification/DockerCreate.v ===== *)
(** * A creation that fails

    Over [Docker.v] and [DockerCleanup.v]: what [DockerProvider::create] leaves when
    it ends with an error, and that a deletion by the container's id finds it. *)

From S2P Require Import Prelude Text Shell Exec Capabilities Errors Ids Spec DockerApi DockerSim DockerPlan Docker DockerCleanup.

#[local] Open Scope string_scope.
#[local] Open Scope list_scope.
#[local] Open Scope Z_scope.

(** ** What the creation may add *)

(** Nothing that was not there before. *)
Definition nothing_new (d0 d : Daemon) : Prop :=
  (forall x, is_Some (containers d !! x) -> is_Some (containers d0 !! x)) /\ networks d ⊆ networks d0.

(** What is new is the container, or of its network. *)
Definition only_adds (id : string) (network : option string) (d0 d : Daemon) : Prop :=
  (forall x l, labels_of d !! x = Some l ->
     is_Some (labels_of d0 !! x) \/ x = id \/ exists n, network = Some n /\ l !! NETWORK_LABEL = Some n) /\
  (forall n, n ∈ networks d -> n ∈ networks d0 \/ network = Some n).

(** ... and the container is there, with its labels. *)
Definition created (id : string) (network : option string) (lb : gmap string string) (d0 d : Daemon) : Prop :=
  only_adds id network d0 d /\ labels_of d !! id = Some lb.

Lemma created_frame id network lb R M N d0 d d' : frame R M N d d' -> ~ R id lb ->
  created id network lb d0 d -> created id network lb d0 d'.
Proof.
  intros F HR [[A B] C]. split; [split|].
  - intros x l Hx. apply (A x l). by eapply frame_labels.
  - intros n Hn. apply B. by apply (frame_networks _ _ _ _ _ F).
  - by eapply frame_stays.
Qed.

Lemma created_harmless id network lb d0 k : harmless k -> stable (created id network lb d0) k.
Proof.
  intros Hk d d' r [[A B] C] Ha. destruct (harmless_answers _ _ _ _ Hk Ha) as [E1 E2]. unfold created, only_adds. by rewrite E1, E2.
Qed.

Lemma created_sidecar id n lb d0 options config : carries (sidecar_labels n) (cf_labels config) ->
  stable (created id (Some n) lb d0) (CreateContainer options config).
Proof.
  intros Hc d d' r [[A B] C] Ha.
  destruct (answers_delta _ _ _ _ Ha) as [[E1 E2]|(d1 & [D1 D2]%drift_labels & x & l & Hx & Hl & E1 & E2)];
    [|rewrite D1 in E1; rewrite D2 in E2]; unfold created, only_adds in *; rewrite E1, E2; [done|].
  assert (Hnet : l !! NETWORK_LABEL = Some n).
  { rewrite (proj2 Hl) by done. rewrite (proj2 Hc) by done. apply lookup_insert_eq. }
  apply present_labels in Hx. rewrite D1 in Hx. split; [split|].
  - intros y ly [[<- <-]|[Hy Hy2]]%lookup_insert_Some; [|by apply A]. right. right. by exists n.
  - done.
  - rewrite lookup_insert_ne; [done|]. intros ->. congruence.
Qed.

Lemma created_network id n lb d0 labels : stable (created id (Some n) lb d0) (CreateNetwork n labels).
Proof.
  intros d d' r [[A B] C] Ha.
  destruct (answers_delta _ _ _ _ Ha) as [[E1 E2]|(d1 & [D1 D2]%drift_labels & E1 & E2)];
    [|rewrite D1 in E1; rewrite D2 in E2]; unfold created, only_adds in *; rewrite E1, E2; [done|]. split; [split|]; [done| |done].
  intros m Hm. apply elem_of_union in Hm as [->%elem_of_singleton|Hm]; [by right|by apply B].
Qed.

Section Creation.
Context {W : Type} (daemon : forall k : Call, W -> W * result (Answer k) ApiError) (view : W -> Daemon)
        (law : lawful daemon view).

#[local] Notation triple := (DockerApi.triple daemon view).
#[local] Notation keeps := (DockerApi.keeps daemon view).

(** ** Programs of harmless calls *)

Section Harmless.
Context (I : Daemon -> Prop) (HI : forall k, harmless k -> stable I k).

#[local] Hint Resolve keeps_return : core.

Lemma keeps_try {A} (k : Call) (h : result (Answer k) ApiError -> Prog A) : harmless k -> (forall r, keeps I (h r)) -> keeps I (Do k h).
Proof. intros Hk Hh. apply keeps_do; auto. Qed.

Lemma keeps_each {A} (f : A -> Prog unit) l : (forall a, keeps I (f a)) -> keeps I (each f l).
Proof. intros Hf. induction l as [|a l IH]; cbn; [apply keeps_return|]. by apply keeps_then. Qed.

Lemma keeps_image_present reference : keeps I (image_present reference).
Proof. apply keeps_try; [done|]. intros [a|e]; [|destruct (is_not_found e)]; apply keeps_return. Qed.

Lemma keeps_pull reference auth platform : keeps I (pull_image reference auth platform).
Proof. unfold pull_image. destruct (pull_options _ _) as [[a b] c]. exact (keeps_call daemon view law I _ (CreateImage a b c _) (HI (CreateImage a b c _) Logic.I)). Qed.

Lemma keeps_inspect id : keeps I (inspect_container id).
Proof. apply keeps_try; [done|]. intros [a|e]; apply keeps_return. Qed.

Lemma keeps_failure {A} container what : keeps I (@health_failure A container what).
Proof.
  apply keeps_then; [|intros a; apply keeps_return].
  apply keeps_try; [done|]. intros [a|e]; apply keeps_return.
Qed.

Lemma keeps_health fuel out deadline container : keeps I out -> keeps I (health_loop fuel out deadline container).
Proof.
  intros Ho. induction fuel as [|fuel IH]; [done|]. cbn [health_loop]. apply keeps_then; [exact (keeps_call daemon view law I _ (InspectContainer container) (HI (InspectContainer container) Logic.I))|].
  intros i. destruct (health_verdict i) as [[what|]|]; [apply keeps_failure|apply keeps_return|].
  apply keeps_then; [apply keeps_try; [done|]; intros [t|e]; apply keeps_return|].
  intros t. destruct (deadline <=? t); [apply keeps_failure|].
  apply keeps_then; [apply keeps_try; [done|]; intros r; apply keeps_return|]. intros []. exact IH.
Qed.

Lemma keeps_await container : keeps I (await_health container).
Proof.
  apply keeps_then; [apply keeps_try; [done|]; intros [t|e]; apply keeps_return|].
  intros t. apply keeps_health, keeps_return.
Qed.

Lemma keeps_ensure reference auto_pull auth platform : keeps I (ensure_image reference auto_pull auth platform).
Proof.
  apply keeps_then; [apply keeps_image_present|]. intros []; [apply keeps_return|].
  destruct auto_pull; [apply keeps_pull|apply keeps_return].
Qed.

Lemma keeps_await_sidecar network s : keeps I (await_sidecar network s).
Proof. unfold await_sidecar. destruct (is_some _); [apply keeps_await|apply keeps_return]. Qed.

Lemma keeps_verify kind id : keeps I (verify_running kind id).
Proof. apply keeps_then; [apply keeps_inspect|]. intros i. by destruct (negb _); apply keeps_return. Qed.
End Harmless.

(** ** The services of a new container *)

Section Services.
Context (id n : string) (lb : gmap string string) (d0 : Daemon) (Hlb : lb !! NETWORK_LABEL <> Some n).

#[local] Notation I := (created id (Some n) lb d0).

Lemma keeps_sweep sandbox : keeps I (sweep n sandbox).
Proof.
  apply triple_from. intros d Hd. eapply triple_weaken; [apply (sweep_outcome daemon view law n sandbox d)|done|].
  intros r d2 [F _]. by apply (created_frame _ _ _ _ _ _ _ _ _ F).
Qed.

Lemma keeps_start_sidecar s : keeps I (start_sidecar n s).
Proof.
  assert (HI : forall k, harmless k -> stable I k) by (intros; by apply created_harmless).
  apply keeps_then; [by apply keeps_image_present|]. intros present.
  apply keeps_then; [destruct present; [apply keeps_return|by apply keeps_pull]|]. intros [].
  apply keeps_then.
  - apply (keeps_call daemon view law I _ (CreateContainer _ _)). by apply created_sidecar.
  - intros x. exact (keeps_call daemon view law I _ (StartContainer _) (HI (StartContainer _) Logic.I)).
Qed.

Lemma keeps_connect sidecars : keeps I (connect_sidecars id (Some n) sidecars).
Proof.
  assert (HI : forall k, harmless k -> stable I k) by (intros; by apply created_harmless).
  apply keeps_then.
  - apply keeps_then; [apply (keeps_call daemon view law I _ (CreateNetwork _ _)); apply created_network|]. intros u.
    apply keeps_match.
    + apply keeps_then; [apply keeps_each, keeps_start_sidecar|]. intros u2.
      apply keeps_each. intros s. by apply keeps_await_sidecar.
    + intros [a|e]; [apply keeps_return|]. apply keeps_match; [apply keeps_sweep|]. intros r. apply keeps_return.
  - intros u. apply keeps_then; [exact (keeps_call daemon view law I _ (DisconnectNetwork _ _) (HI (DisconnectNetwork _ _) Logic.I))|].
    intros u2. exact (keeps_call daemon view law I _ (ConnectNetwork _ _) (HI (ConnectNetwork _ _) Logic.I)).
Qed.
End Services.

(** ** Giving up *)

Section Abandon.
Context (id : string) (network : option string) (lb : gmap string string) (d0 : Daemon)
        (Hlb : forall n, network = Some n -> lb !! NETWORK_LABEL <> Some n).

(** What is left of a creation that failed. *)
Definition given_up (d : Daemon) : Prop := nothing_new d0 d \/ created id network lb d0 d.

Lemma removed_after_sweep d1 ctx : created id network lb d0 d1 ->
  (forall n, network = Some n -> none_labelled NETWORK_LABEL n d1 /\ n ∉ networks d1) ->
  triple (fun d => d = d1) (remove_container_forced id ctx) (fun _ d => given_up d).
Proof.
  intros [[A B] C] Hs. eapply triple_weaken.
  - apply (removal_outcome daemon view law (fun x _ => x = id) (fun _ => False) (fun _ => False) id true ctx d1); [|done].
    rewrite <- not_eq_None_Some, present_labels. congruence.
  - done.
  - intros r d (F & _ & _). destruct (labels_of d !! id) as [l|] eqn:El.
    + right. pose proof (frame_labels _ _ _ _ _ _ _ F El) as E. rewrite C in E. injection E as <-. split; [split|done].
      * intros x l Hx. apply (A x l). by eapply frame_labels.
      * intros n Hn. by apply B, (frame_networks _ _ _ _ _ F).
    + left. split.
      * intros x Hx. apply not_eq_None_Some in Hx. rewrite present_labels in Hx. apply not_eq_None_Some in Hx as [l Hx].
        apply not_eq_None_Some. rewrite present_labels. apply not_eq_None_Some.
        destruct (A x l) as [|[->|(n & Hn & Hl)]]; [by eapply frame_labels|done|congruence|].
        by destruct (proj1 (Hs n Hn) x l (frame_labels _ _ _ _ _ _ _ F Hx)).
      * intros n Hn. apply (frame_networks _ _ _ _ _ F) in Hn. destruct (B n Hn) as [|E]; [done|]. by destruct (proj2 (Hs n E)).
Qed.

Lemma abandoned {A} e : triple (created id network lb d0) (@abandon A id network e) (fun r d => r = Err e /\ given_up d).
Proof.
  assert (Hr : forall d1, created id network lb d0 d1 -> (forall n, network = Some n -> none_labelled NETWORK_LABEL n d1 /\ n ∉ networks d1) ->
    triple (fun d => d = d1) (pmatch (remove_container_forced id "removing failed sandbox") (fun _ => @pthrow A e))
      (fun r d => r = Err e /\ given_up d)).
  { intros d1 H1 H2. eapply triple_match; [by apply removed_after_sweep|]. intros r. by apply triple_return. }
  unfold abandon. destruct network as [n|] eqn:En.
  - apply triple_from. intros d1 H1. eapply triple_match; [apply (sweep_outcome daemon view law n (Some id) d1)|].
    assert (Hc : forall d, frame (on_network n) (fun x => Some id = Some x) (fun m => m = n) d1 d -> created id network lb d0 d).
    { intros d F. rewrite En. refine (created_frame _ _ _ _ _ _ _ _ _ F _ H1). by apply Hlb. }
    intros [[]|e2]; apply triple_from; intros d [F G].
    + apply Hr; [rewrite <- En; by apply Hc|]. by intros m [= <-]; apply G.
    + apply triple_return. intros d2 ->. split; [done|]. right. by apply Hc.
  - apply triple_from. intros d1 H1. by apply Hr.
Qed.
End Abandon.
(** ** The creation *)

(** A sandbox that was made: the container runs with its labels, and the handle has
    what an inspect of it says. *)
Definition made (id : string) (lb : gmap string string) (h : ContainerFacts) (d : Daemon) : Prop :=
  exists c i, containers d !! id = Some c /\ c_labels c = lb /\ c_running c = true /\ c_paused c = false /\
    describes id c i /\ h = from_inspect i id.

Lemma describes_running id c i : describes id c i -> map_state i = StRunning -> c_running c = true /\ c_paused c = false.
Proof.
  intros (_ & _ & _ & _ & _ & st & Hst & _ & _ & Hs). unfold map_state. rewrite Hst.
  case_bool_decide; [done|]. by destruct (status st) as [[]|]; [intros _; apply Hs|..].
Qed.

Lemma still_created id network lb d0 d d' : still d d' -> created id network lb d0 d -> created id network lb d0 d'.
Proof. intros F. apply (created_frame _ _ _ _ _ _ _ _ _ F). by intros []. Qed.

Section Steps.
Context (p : ContainerPlan) (id : string) (lb : gmap string string) (d0 : Daemon)
        (Hlb : forall n, plan_network p = Some n -> lb !! NETWORK_LABEL <> Some n).

#[local] Notation I := (created id (plan_network p) lb d0).
#[local] Notation Post := (fun r d => match r with Ok h => I d /\ made id lb h d | Err _ => given_up id (plan_network p) lb d0 d end).

Lemma step_outcome {A B} (m : Prog A) (k : A -> Prog B) Q : keeps I m -> (forall a, triple I (k a) Q) ->
  (forall e d, given_up id (plan_network p) lb d0 d -> Q (Err e) d) -> triple I (or_abandon id p m k) Q.
Proof.
  intros Hm Hk Hq. eapply triple_match; [exact Hm|]. intros [a|e]; [apply Hk|].
  eapply triple_weaken; [by apply abandoned|done|]. intros r d [-> Hg]. by apply Hq.
Qed.

Lemma verified : triple I (let* started := verify_running docker_kind id in pret (from_inspect started id))
  (fun r d => I d /\ match r with Ok h => made id lb h d | Err _ => True end).
Proof.
  unfold verify_running. apply triple_from. intros d1 H1.
  assert (Hpres : is_Some (containers d1 !! id)) by (apply not_eq_None_Some; rewrite present_labels, (proj2 H1); done).
  eapply triple_bind with (R := fun r d => I d /\ match r with
    | Ok i => exists c, containers d !! id = Some c /\ c_labels c = lb /\ describes id c i /\ map_state i = StRunning
    | Err _ => True end).
  - eapply triple_bind; [apply (inspect_outcome daemon view law id d1)| |].
    + intros i. apply triple_from. intros d (F & x & c & Hx & Hc & c' & Hc' & He & Hi).
      apply (refers_exact _ _ _ Hpres) in Hx. subst x. pose proof (still_created _ _ _ _ _ _ F H1) as H2.
      case_bool_decide as Hm; apply triple_return; intros d2 ->; split; [done| |done|done].
      exists c'. split; [done|]. split; [|by split]. pose proof (proj2 H2) as E. unfold labels_of in E.
      rewrite lookup_fmap, Hc' in E. by injection E.
    + intros e d [F _]. split; [|done]. by apply (still_created _ _ _ _ d1 d F).
  - intros i. apply triple_return. intros d [H2 (c & Hc & Hl & Hi & Hm)]. split; [done|].
    destruct (describes_running _ _ _ Hi Hm). by exists c, i.
  - done.
Qed.

Lemma finished debug_str : triple I (finish_create debug_str p id) Post.
Proof.
  assert (HI : forall k, harmless k -> stable I k) by (intros; by apply created_harmless).
  unfold finish_create. destruct (try_new_sandbox_id id) as [_|e].
  2: { eapply triple_weaken; [by apply abandoned|done|]. by intros r d [-> Hg]. }
  apply step_outcome; [|intros _|done].
  { destruct (plan_network p) as [n|] eqn:En; [|apply keeps_return]. apply keeps_connect. by apply Hlb. }
  apply step_outcome; [exact (keeps_call daemon view law I _ (StartContainer id) (HI (StartContainer id) Logic.I))|intros _|done].
  intros w Hw. pose proof (verified w Hw) as Hv. unfold or_abandon. rewrite run_match. rewrite run_bind in Hv.
  destruct (run daemon (verify_running docker_kind id) w) as [w1 [i|e]]; cbn [run] in *; [done|].
  pose proof (abandoned id (plan_network p) lb d0 Hlb (A := ContainerFacts) e w1 (proj1 Hv)) as Ha.
  destruct (run daemon _ w1) as [w2 r2]. by destruct Ha as [-> Ha].
Qed.
End Steps.
(** ** The whole verb *)

(** A container of the specification's, with its labels, and what is new besides it. *)
Definition traceable (s : SandboxSpec) (d0 d : Daemon) : Prop :=
  exists id network lb, containers d0 !! id = None /\ carries (plan_labels s network) lb /\ created id network lb d0 d.

Lemma plan_labels_of deserialize s p : plan deserialize s = Ok p -> cf_labels (plan_config p) = plan_labels s (plan_network p).
Proof. by intros (reference & c & base & net & _ & _ & _ & _ & ->)%plan_inv. Qed.

Lemma nothing_new_labels d0 d : labels_of d = labels_of d0 -> networks d = networks d0 -> nothing_new d0 d.
Proof.
  intros El En. split; [|by rewrite En]. intros x. rewrite <- !not_eq_None_Some, !present_labels. by rewrite El.
Qed.

Lemma newly_created id network lb d0 d : labels_of d = <[id := lb]> (labels_of d0) -> networks d = networks d0 -> created id network lb d0 d.
Proof.
  intros El En. unfold created, only_adds. rewrite El, En. split; [split|].
  - intros x l [[<- _]|[_ Hx]]%lookup_insert_Some; eauto.
  - auto.
  - apply lookup_insert_eq.
Qed.

Lemma create_container_outcome p s d0 : cf_labels (plan_config p) = plan_labels s (plan_network p) ->
  triple (fun d => labels_of d = labels_of d0 /\ networks d = networks d0) (create_container p)
    (fun r d => match r with
       | Ok id => exists lb, containers d0 !! id = None /\ carries (plan_labels s (plan_network p)) lb /\ created id (plan_network p) lb d0 d
       | Err _ => nothing_new d0 d \/ traceable s d0 d
       end).
Proof.
  intros Hp. apply (triple_do _ _ law). intros r.
  assert (Heff : forall id d1 d, effect (CreateContainer (plan_options p) (plan_config p)) d1 d id ->
    labels_of d1 = labels_of d0 -> networks d1 = networks d0 ->
    exists lb, containers d0 !! id = None /\ carries (plan_labels s (plan_network p)) lb /\ created id (plan_network p) lb d0 d).
  { intros id d1 d (Hid & c & (Hc & Hn & _) & Hl & _) El En. exists (c_labels c). rewrite <- Hp.
    rewrite present_labels, <- El, <- present_labels. split; [done|]. split; [done|]. apply newly_created.
    - unfold labels_of in *. rewrite Hc. cbn. by rewrite fmap_insert, El.
    - by rewrite Hn. }
  destruct r as [id|e].
  - apply triple_return. intros d (d1 & [E1 E2] & d2 & [D1 D2]%drift_labels & H). apply (Heff id d2); [done| |]; congruence.
  - assert (H : forall d, (exists d1, (labels_of d1 = labels_of d0 /\ networks d1 = networks d0) /\
      answers (CreateContainer (plan_options p) (plan_config p)) d1 d (Err e)) -> nothing_new d0 d \/ traceable s d0 d).
    { intros d (d1 & [E1 E2] & d2 & [D1 D2]%drift_labels & [[L1 L2]%later_labels|[id Ha]] & _).
      - left. apply nothing_new_labels; congruence.
      - right. destruct (Heff id d2 d) as (lb & ? & ? & ?); [done|congruence..|]. by exists id, (plan_network p), lb. }
    destruct (is_conflict e && named p); by apply triple_return.
Qed.

Lemma carries_label asked lb k : carries asked lb -> starts_with LABEL_SPACE k = true -> lb !! k = asked !! k.
Proof. intros [_ H]. apply H. Qed.

Lemma plan_label_other s network k : k <> MANAGED_LABEL -> k <> SIDECAR_NETWORK_LABEL -> plan_labels s network !! k = labels s !! k.
Proof. intros H1 H2. unfold plan_labels. destruct network; rewrite ?lookup_insert_ne by done; done. Qed.

Section Create.
Context (deserialize : json -> result DockerProviderConfig string) (debug_str : string -> string) (s : SandboxSpec)
        (Hs : forall k, starts_with LABEL_SPACE k = true -> labels s !! k = None).

Lemma no_network_label network lb n : carries (plan_labels s network) lb -> lb !! NETWORK_LABEL <> Some n.
Proof. intros Hc. rewrite (carries_label _ _ _ Hc), plan_label_other, Hs by done. done. Qed.

Lemma create_outcome d0 : triple (fun d => d = d0) (create deserialize debug_str s)
  (fun r d => match r with
     | Ok h => exists id network lb, containers d0 !! id = None /\ carries (plan_labels s network) lb /\
         created id network lb d0 d /\ made id lb h d
     | Err _ => nothing_new d0 d \/ traceable s d0 d
     end).
Proof.
  unfold create. destruct (plan deserialize s) as [p|e] eqn:Ep.
  2: { apply triple_return. intros d ->. left. by apply nothing_new_labels. }
  set (I := fun d => labels_of d = labels_of d0 /\ networks d = networks d0).
  eapply triple_bind with (R := fun _ d => I d).
  - eapply triple_weaken; [apply (keeps_ensure I)|by intros d ->|done].
    intros k Hk d d' r [E1 E2] Ha. destruct (harmless_answers _ _ _ _ Hk Ha). split; congruence.
  - intros u. eapply triple_bind; [apply (create_container_outcome p s d0), plan_labels_of with deserialize, Ep| |done].
    intros id. apply triple_from. intros d1 (lb & Hid & Hc & Hd1).
    eapply triple_weaken; [apply (finished p id lb d0 (fun n _ => no_network_label _ _ n Hc))|by intros d ->|].
    intros [h|e] d.
    + intros [H1 H2]. by exists id, (plan_network p), lb.
    + intros [?|?]; [by left|]. right. by exists id, (plan_network p), lb.
  - intros e d [E1 E2]. left. by apply nothing_new_labels.
Qed.

(** The deletion of what a creation left. *)
Lemma traceable_deleted w w1 : traceable s (view w) (view w1) ->
  exists id c, containers (view w) !! id = None /\ containers (view w1) !! id = Some c /\ managed c /\
    forall w2, run daemon (provider_delete id) w1 = (w2, Ok tt) -> nothing_new (view w) (view w2).
Proof.
  intros (id & network & lb & Hid & Hc & [[HA HB] HC]). set (d1 := view w1) in *.
  assert (exists c, containers d1 !! id = Some c /\ c_labels c = lb) as (c & Hcc & Hl).
  { unfold labels_of in HC. rewrite lookup_fmap, fmap_Some in HC. destruct HC as (c & ? & ->). eauto. }
  assert (Hman : managed c).
  { unfold managed. rewrite Hl, (carries_label _ _ _ Hc) by done. unfold plan_labels. destruct network; by simplify_map_eq. }
  exists id, c. do 3 (split; [done|]). intros w2 E.
  assert (Hself : forall x y, refers d1 id x = true -> containers d1 !! x = Some y -> x = id /\ y = c).
  { intros x y Hx Hy. apply refers_exact in Hx as ->; [|by eauto]. split; [done|]. congruence. }
  assert (Hnet : forall n, network = Some n -> network_in c = Some n).
  { intros n ->. unfold network_in. rewrite Hl, (carries_label _ _ _ Hc) by done. unfold plan_labels. by rewrite lookup_insert_eq. }
  assert (Hprim : primary id (network_in c) lb).
  { split; [|intros n _; by apply (no_network_label network)].
    rewrite (carries_label _ _ _ Hc), plan_label_other, Hs by done. done. }
  assert (Hpr : forall x y, refers d1 id x = true -> containers d1 !! x = Some y -> primary x (network_in y) (c_labels y)).
  { intros x y Hx Hy. destruct (Hself x y Hx Hy) as [-> ->]. by rewrite Hl. }
  pose proof (triple_run _ _ _ _ _ _ _ _ (deletion_outcome daemon view law id d1 Hpr) eq_refl E) as Hd.
  destruct Hd as [[_ Hn]|(x & y & Hx & Hy & _ & F & Hok & Hgone)].
  - destruct (Hn eq_refl) as [Hno|(x & y & Hx & Hy & Hnm)].
    + specialize (Hno id). by rewrite (refers_self d1 id) in Hno by eauto.
    + by destruct (Hself x y Hx Hy) as [-> ->].
  - destruct (Hself x y Hx Hy) as [-> ->]. destruct (Hgone (Hok eq_refl)) as (G1 & _ & G2). split.
    + intros z. rewrite <- !not_eq_None_Some, !present_labels. intros Hz Hz0.
      destruct (labels_of (view w2) !! z) as [lz|] eqn:Ez; [|done]. pose proof (frame_labels _ _ _ _ _ _ _ F Ez) as Ez1.
      destruct (HA z lz Ez1) as [[? ?]|[->|(n & Hn & Hln)]]; [congruence| |].
      * apply present_labels in G1. congruence.
      * by apply (proj1 (G2 n (Hnet n Hn)) z lz).
    + intros n Hn. destruct (HB n (frame_networks _ _ _ _ _ F n Hn)) as [|En]; [done|]. by destruct (proj2 (G2 n (Hnet n En))).
Qed.
End Create.
End Creation.

Lemma internal_space k : is_internal_label k = true -> starts_with LABEL_SPACE k = true.
Proof. unfold is_internal_label. rewrite !orb_true_iff, !String.eqb_eq. by intros [[->| ->]| ->]. Qed.

(** What a handle has of a container that was made. *)
Lemma made_facts s (Hs : forall k, starts_with LABEL_SPACE k = true -> labels s !! k = None) id network lb h d0 d :
  containers d0 !! id = None -> carries (plan_labels s network) lb -> only_adds id network d0 d -> made id lb h d ->
  exists c network, containers d0 !! f_id h = None /\ containers d !! f_id h = Some c /\ managed c /\
    c_running c = true /\ c_paused c = false /\ only_adds (f_id h) network d0 d /\
    labels s ⊆ f_labels h /\ (forall n, network = Some n -> f_network h = Some n).
Proof.
  intros Hid Hc Ha (c & i & Hcc & Hl & Hr & Hp & Hi & ->). pose proof Hi as (Ei & _ & El & _).
  exists c, network. unfold from_inspect. cbn. rewrite Ei. cbn. do 2 (split; [done|]). split.
  { unfold managed. rewrite Hl, (carries_label _ _ _ Hc) by done. unfold plan_labels. destruct network; by simplify_map_eq. }
  do 2 (split; [done|]). split; [done|]. split.
  - unfold config_labels. rewrite El, Hl. cbn. apply map_subseteq_spec. intros k v Hk. unfold outward.
    assert (Hint : is_internal_label k = false).
    { destruct (is_internal_label k) eqn:E; [|done]. apply internal_space, Hs in E. congruence. }
    apply map_lookup_filter_Some. split; [|done]. apply (lookup_weaken (plan_labels s network)); [|apply Hc].
    rewrite plan_label_other; [done|..]; by intros ->.
  - intros n ->. rewrite (describes_network _ _ _ Hi). unfold network_in.
    rewrite Hl, (carries_label _ _ _ Hc) by done. unfold plan_labels. by rewrite lookup_insert_eq.
Qed.

(** C8. A creation that fails leaves no container and no network behind, or its
    container is still there, labelled, and one deletion by that container's id that
    answers success leaves nothing: also where calls failed after taking effect, and
    however the cleanup of the creation itself was answered. The daemon keeps the law of
    [DockerApi], and the caller's labels hold none of the provider's own keys, those
    that start with [sh.sandbox-driver.]: the creation does not refuse them, and with
    one of them the sandbox's deletion takes what is another's
    ([reserved_label_poaches]). *)
Theorem failed_create_recovers {W} (daemon : forall k : Call, W -> W * result (Answer k) ApiError) (view : W -> Daemon)
    deserialize debug_str s w w' e :
  lawful daemon view -> (forall k, starts_with LABEL_SPACE k = true -> labels s !! k = None) ->
  run daemon (create deserialize debug_str s) w = (w', Err e) ->
  nothing_new (view w) (view w') \/
  exists id c, containers (view w) !! id = None /\ containers (view w') !! id = Some c /\ managed c /\
    forall w'', run daemon (provider_delete id) w' = (w'', Ok tt) -> nothing_new (view w) (view w'').
Proof.
  intros law Hs E.
  destruct (triple_run _ _ _ _ _ _ _ _ (create_outcome daemon view law deserialize debug_str s Hs (view w)) eq_refl E) as [?|Ht]; [by left|].
  right. by apply (traceable_deleted daemon view law s Hs).
Qed.

(** A creation that succeeds has made a container with a new id that runs, and
    nothing else but what belongs to its network; the handle has the container's id
    and the labels that were asked for. The caller's labels hold none of the provider's
    own keys. *)
Theorem create_makes_sandbox {W} (daemon : forall k : Call, W -> W * result (Answer k) ApiError) (view : W -> Daemon)
    deserialize debug_str s w w' h :
  lawful daemon view -> (forall k, starts_with LABEL_SPACE k = true -> labels s !! k = None) ->
  run daemon (create deserialize debug_str s) w = (w', Ok h) ->
  exists c network, containers (view w) !! f_id h = None /\ containers (view w') !! f_id h = Some c /\ managed c /\
    c_running c = true /\ c_paused c = false /\ only_adds (f_id h) network (view w) (view w') /\
    labels s ⊆ f_labels h /\ (forall n, network = Some n -> f_network h = Some n).
Proof.
  intros law Hs E.
  destruct (triple_run _ _ _ _ _ _ _ _ (create_outcome daemon view law deserialize debug_str s Hs (view w)) eq_refl E)
    as (id & network & lb & Hid & Hc & [Ha _] & Hm).
  by apply (made_facts s Hs id network lb).
Qed.

(** ** Examples *)

Definition demo_sidecar : Sidecar := sidecar_new "db" "postgres:16".
Definition demo_deserialize (_ : json) : result DockerProviderConfig string :=
  Ok (mkProviderConfig true false false false None [] [] [] [] None [demo_sidecar]).
Definition demo_spec : SandboxSpec :=
  mkSandboxSpec (Some "demo") (Image "debian:stable-slim") no_resources None ∅ {["team" := "a"]} None None None ProviderDefault [] no_timers
    false None None (JObj []).

(** A daemon with a container and a network of another's. *)
Definition demo_daemon : Daemon :=
  mkDaemon {["other" := mkContainer "web" {["app" := "web"]} "bridge" ∅ true false]} {["bridge"]} 0.

Lemma demo_labels k : starts_with LABEL_SPACE k = true -> labels demo_spec !! k = None.
Proof. intros Hk. apply lookup_singleton_ne. intros <-. discriminate Hk. Qed.

(** The start of the service fails, and so do the listings of both cleanups. *)
Definition demo_world : Sim := mkSim demo_daemon ["c1"; "c2"] [None; None; None; None; None; Some false; Some false; Some false].
Definition demo_failure : Sim * result ContainerFacts Error := run sim (create demo_deserialize (fun s => s) demo_spec) demo_world.
Definition demo_error : Error := docker_error "starting sidecar" (ServerError 500 EmptyString).

Lemma demo_failure_run : demo_failure = (fst demo_failure, Err demo_error).
Proof. vm_compute. reflexivity. Qed.

Lemma failed_create_recovers_witness :
  snd demo_failure = Err demo_error /\ is_Some (containers (sim_daemon (fst demo_failure)) !! "c2") /\
  (nothing_new demo_daemon (sim_daemon (fst demo_failure)) \/
   exists id c, containers demo_daemon !! id = None /\ containers (sim_daemon (fst demo_failure)) !! id = Some c /\ managed c /\
     forall w'', run sim (provider_delete id) (fst demo_failure) = (w'', Ok tt) -> nothing_new demo_daemon (sim_daemon w'')).
Proof.
  split; [vm_compute; reflexivity|]. split; [vm_compute; eauto|].
  exact (failed_create_recovers sim sim_daemon demo_deserialize (fun s => s) demo_spec demo_world (fst demo_failure) demo_error
           sim_lawful demo_labels demo_failure_run).
Defined.

(** The same with no failure. *)
Definition demo_created : Sim * result ContainerFacts Error :=
  run sim (create demo_deserialize (fun s => s) demo_spec) (mkSim demo_daemon ["c1"; "c2"] []).
Definition demo_handle : ContainerFacts := match snd demo_created with Ok h => h | Err _ => mkFacts EmptyString None EmptyString ∅ ∅ None None end.

Lemma demo_created_run : demo_created = (fst demo_created, Ok demo_handle).
Proof. vm_compute. reflexivity. Qed.

Lemma create_makes_sandbox_witness :
  f_id demo_handle = "c1" /\ f_network demo_handle = Some "demo-net" /\
  exists c network, containers demo_daemon !! f_id demo_handle = None /\ containers (sim_daemon (fst demo_created)) !! f_id demo_handle = Some c /\
    managed c /\ c_running c = true /\ c_paused c = false /\ only_adds (f_id demo_handle) network demo_daemon (sim_daemon (fst demo_created)) /\
    labels demo_spec ⊆ f_labels demo_handle /\ (forall n, network = Some n -> f_network demo_handle = Some n).
Proof.
  split; [vm_compute; reflexivity|]. split; [vm_compute; reflexivity|].
  exact (create_makes_sandbox sim sim_daemon demo_deserialize (fun s => s) demo_spec (mkSim demo_daemon ["c1"; "c2"] []) (fst demo_created)
           demo_handle sim_lawful demo_labels demo_created_run).
Defined.

(** The deletion of what is left when it failed, and of what is made when it did not. *)
Definition demo_deleted (w : Sim) : Sim * result unit Error := run sim (provider_delete "c1") (mkSim (sim_daemon w) (ids w) []).

Definition demo_left (w : Sim) : list string := map fst (map_to_list (containers (sim_daemon w))).

Example demo_cleanup :
  demo_left (fst demo_failure) = ["other"; "c1"; "c2"] /\ snd (demo_deleted (fst demo_failure)) = Ok tt /\
  demo_left (fst (demo_deleted (fst demo_failure))) = ["other"] /\ demo_left (fst (demo_deleted (fst demo_created))) = ["other"].
Proof. vm_compute. repeat split. Qed.

(** A listing shows the service among the sandboxes: it carries the provider's label. *)
Example list_shows_services :
  match snd (run sim (list_sandboxes (fun s => s) (fun _ => EmptyString) (mkFilter ∅)) (fst demo_created)) with
  | Ok statuses => map st_id statuses = ["c1"; "c2"]
  | Err _ => False
  end.
Proof. vm_compute. reflexivity. Qed.

(** A network of that name which was there before: the creation is refused, and its
    cleanup takes the network and what is on it. *)
Definition taken_daemon : Daemon :=
  mkDaemon {["w1" := mkContainer "mine" (sidecar_labels "demo-net") "demo-net" {["demo-net"]} true false]} {["demo-net"]} 0.

Example foreign_network_swept :
  let out := run sim (create demo_deserialize (fun s => s) demo_spec) (mkSim taken_daemon ["c1"; "c2"] []) in
  snd out = Err (docker_error "creating sidecar network" (ServerError 409 EmptyString)) /\
  demo_left (fst out) = [] /\ elements (networks (sim_daemon (fst out))) = [].
Proof. vm_compute. repeat split. Qed.

(** A caller's label may be one of the provider's: the deletion of a sandbox without
    services then takes another's. *)
Definition plain_deserialize (_ : json) : result DockerProviderConfig string := Ok default_config.
Definition poaching_spec : SandboxSpec := with_labels (spec_new (Image "debian:stable-slim")) {[SIDECAR_NETWORK_LABEL := "demo-net"]}.

Example reserved_label_poaches :
  let made := run sim (create plain_deserialize (fun s => s) poaching_spec) (mkSim taken_daemon ["c1"] []) in
  demo_left (fst made) = ["w1"; "c1"] /\
  demo_left (fst (run sim (provider_delete "c1") (fst made))) = [].
Proof. vm_compute. repeat split. Qed.

(** A memory of eight tebi-megabytes is past what the daemon's field holds. *)
Example memory_wraps :
  memory (plan_host_config (mkSandboxSpec None (Image "a") (mkResources None (Some (2 ^ 43)) None None) None ∅ ∅ None None None ProviderDefault []
    no_timers false None None JNull) default_config None "/workspace") = Some (- 2 ^ 63).
Proof. vm_compute. reflexivity. Qed.
