(* ===== verification/DockerRun.v ===== *)
(** * Starting, stopping and waiting

    Over [Docker.v]: the wait for a service's health ends, a stop leaves nothing of the
    sandbox running, and a start succeeds only where the sandbox runs. *)

From S2P Require Import Prelude Text Shell Exec Capabilities Errors Ids Spec DockerApi DockerSim DockerPlan Docker DockerCleanup.

#[local] Open Scope string_scope.
#[local] Open Scope list_scope.
#[local] Open Scope Z_scope.

(** ** Time *)

Lemma updates_clock r d d' f : updates r d d' f -> clock d <= clock d'.
Proof. by intros (id & c & c' & _ & _ & _ & (_ & _ & ?)). Qed.

Lemma effect_clock k d d' a : effect k d d' a -> clock d <= clock d'.
Proof.
  destruct k; cbn; try apply updates_clock; try (by intros (_ & _ & ?)); try (by intros ((_ & _ & ?) & _)).
  - by intros (_ & c & (_ & _ & ?) & _).
  - by intros (x & _ & (_ & _ & ?)).
  - by intros (_ & (_ & _ & ?)).
  - by intros (_ & (_ & _ & ?) & _).
  - by intros (_ & (_ & _ & ?)).
Qed.

Lemma answers_clock k d d' r : answers k d d' r -> clock d <= clock d'.
Proof.
  intros (d1 & (_ & Hd & _) & H). destruct r as [a|e].
  - apply effect_clock in H. lia.
  - destruct H as ([(_ & _ & ?)|[a Ha%effect_clock]] & _); lia.
Qed.

Section Programs.
Context {W : Type} (daemon : forall k : Call, W -> W * result (Answer k) ApiError) (view : W -> Daemon)
        (law : lawful daemon view).

#[local] Notation triple := (DockerApi.triple daemon view).

(** ** The wait for health *)

Lemma run_now w : exists w', run daemon now w = (w', Ok (clock (view w'))) /\ clock (view w) <= clock (view w').
Proof.
  pose proof (law Now w) as H. cbn [run now try]. unfold now, try. cbn [run]. destruct (daemon Now w) as [w1 [t|e]].
  - exists w1. pose proof (answers_clock _ _ _ _ H). destruct H as (d1 & _ & _ & ->). by split.
  - by destruct H as (d1 & _ & _ & _ & []).
Qed.

Lemma run_sleep ms w : exists w', run daemon (sleep ms) w = (w', Ok tt) /\ clock (view w) + ms <= clock (view w').
Proof.
  pose proof (law (Sleep ms) w) as H. unfold sleep, try. cbn [run]. destruct (daemon (Sleep ms) w) as [w1 [t|e]].
  - exists w1. split; [done|]. destruct H as (d1 & (_ & Hd & _) & _ & H). lia.
  - by destruct H as (d1 & _ & _ & _ & []).
Qed.

Lemma failure_fails {A} container what w w' a : run daemon (@health_failure A container what) w <> (w', Ok a).
Proof.
  unfold health_failure, log_tail, try. cbn [pbind run]. destruct (daemon (Logs _ _ _) w) as [w1 [b|e]]; by intros [=].
Qed.

(** How a wait may end well: by an inspect that tells health. *)
Definition seen_healthy (container : string) (w' : W) : Prop :=
  exists w1 i, daemon (InspectContainer container) w1 = (w', Ok i) /\ health_verdict i = Some None.

Lemma health_loop_ends container deadline f1 f2 out1 out2 w :
  (0 < f1)%nat -> (0 < f2)%nat ->
  deadline - clock (view w) <= (Z.of_nat f1 - 1) * HEALTH_POLL -> deadline - clock (view w) <= (Z.of_nat f2 - 1) * HEALTH_POLL ->
  let '(w', r) := run daemon (health_loop f1 out1 deadline container) w in
  run daemon (health_loop f2 out2 deadline container) w = (w', r) /\ (r = Ok tt -> seen_healthy container w').
Proof.
  revert f2 w. induction f1 as [|f1 IH]; intros [|f2] w H1 H2 H3 H4; try lia. cbn [health_loop].
  rewrite !run_bind. unfold call at 1 2. cbn [run]. destruct (daemon (InspectContainer container) w) as [w1 [i|e]] eqn:Ei; [|by cbn].
  pose proof (law (InspectContainer container) w) as Hl. rewrite Ei in Hl. apply answers_clock in Hl. cbn [run pret].
  destruct (health_verdict i) as [[what|]|] eqn:Ev.
  - destruct (run daemon (health_failure container what) w1) as [w2 r] eqn:Ef. split; [done|]. intros ->. exfalso. by eapply failure_fails.
  - split; [done|]. intros _. by exists w, i.
  - rewrite !run_bind. destruct (run_now w1) as (w2 & -> & Ht). destruct (deadline <=? clock (view w2)) eqn:Ed.
    + destruct (run daemon (health_failure container "never reported healthy") w2) as [w3 r] eqn:Ef.
      split; [done|]. intros ->. exfalso. by eapply failure_fails.
    + rewrite !run_bind. destruct (run_sleep HEALTH_POLL w2) as (w3 & -> & Hs). apply Z.leb_gt in Ed.
      unfold HEALTH_POLL in *. apply IH; lia.
Qed.

(** ** Stopping *)

(** Nothing new, nothing started; a container is gone only if [R]. *)
Record quieter (R : gmap string string -> Prop) (d d' : Daemon) : Prop := mkQuieter {
  quieter_old : forall x c', containers d' !! x = Some c' ->
    exists c, containers d !! x = Some c /\ c_labels c' = c_labels c /\ (c_running c' = true -> c_running c = true);
  quieter_gone : forall x c, containers d !! x = Some c -> R (c_labels c) \/ is_Some (containers d' !! x);
  quieter_networks : networks d' = networks d;
}.

Lemma quieter_trans R d1 d2 d3 : quieter R d1 d2 -> quieter R d2 d3 -> quieter R d1 d3.
Proof.
  intros [A1 A2 A3] [B1 B2 B3]. split; [| |congruence].
  - intros x c3 (c2 & H2 & L2 & O2)%B1. destruct (A1 _ _ H2) as (c1 & H1 & L1 & O1). exists c1. repeat split; [done|congruence|auto].
  - intros x c1 H1. destruct (A2 _ _ H1) as [|[c2 H2]]; [tauto|].
    destruct (A1 _ _ H2) as (c & H & L & _). assert (c = c1) as -> by congruence. rewrite <- L. by apply B2.
Qed.

Lemma frame_quieter (R : gmap string string -> Prop) d d' :
  frame (fun _ => R) (fun _ => False) (fun _ => False) d d' -> quieter R d d'.
Proof.
  intros F. split.
  - intros x c' H. destruct (frame_old _ _ _ _ _ F x c' H) as (c & ? & ? & [[]|Hex]). exists c. by destruct Hex as [->| ->].
  - intros x c H. exact (frame_gone _ _ _ _ _ F x c H).
  - pose proof (frame_networks _ _ _ _ _ F). pose proof (frame_network_gone _ _ _ _ _ F). set_solver.
Qed.

Lemma still_quieter R d d' : still d d' -> quieter R d d'.
Proof. intros F. by apply frame_quieter, still_frame. Qed.

Lemma quieter_refl R d : quieter R d d.
Proof. apply still_quieter, frame_same. Qed.

Lemma stopped_quieter R r d d' : updates r d d' (fun c c' => c' = set_run false false c) -> quieter R d d'.
Proof.
  intros (id & c & c1 & Hr & Hc & -> & (Hl & Hn & _)). cbn in Hl, Hn. split; [| |done]; rewrite Hl.
  - intros x c' [[<- <-]|[Hx Hx2]]%lookup_insert_Some; eauto. exists c. by repeat split.
  - intros x c2 Hx. right. destruct (decide (id = x)) as [<-|]; [rewrite lookup_insert_eq|rewrite lookup_insert_ne by done]; eauto.
Qed.

Definition quiet_at (id : string) (d : Daemon) : Prop := forall c, containers d !! id = Some c -> c_running c = false.

Lemma quiet_stays R id d d' : quieter R d d' -> quiet_at id d -> quiet_at id d'.
Proof.
  intros Q H c' Hc'. destruct (quieter_old _ _ _ Q _ _ Hc') as (c & Hc & _ & Hr).
  destruct (c_running c'); [|done]. by rewrite <- (Hr eq_refl), (H c Hc).
Qed.

Lemma stop_outcome R id ctx d0 :
  triple (fun d => d = d0) (stop_tolerated id ctx) (fun r d => quieter R d0 d /\ (r = Ok tt -> quiet_at id d)).
Proof.
  apply (triple_do _ _ law). intros r.
  assert (H : forall d, (exists d2, d2 = d0 /\ answers (StopContainer id 1) d2 d r) ->
    quieter R d0 d /\ match r with Ok _ => quiet_at id d | Err e => is_not_modified e || is_not_found e = true -> quiet_at id d end).
  { intros d (? & -> & d1 & Hd & H). pose proof (still_quieter R _ _ (frame_drift _ _ _ _ _ Hd)) as Q.
    assert (Hself : forall c, containers d1 !! id = Some c -> refers d1 id id = true) by (intros c Hc; apply refers_self; eauto).
    assert (Heff : updates id d1 d (fun c c' => c' = set_run false false c) -> quieter R d0 d /\ quiet_at id d).
    { intros Hu. split; [eapply quieter_trans; [exact Q|by eapply stopped_quieter]|].
      destruct Hu as (x & c & c1 & Hr & Hc & -> & (Hl & _)). intros c2. rewrite Hl. cbn.
      intros [[-> <-]|[Hx Hx2]]%lookup_insert_Some; [done|]. by apply refers_exact in Hr; [|eauto]. }
    destruct r as [a|e]; [by apply Heff|]. destruct H as (Hor & Href & _).
    destruct Hor as [Hl|[a Ha]]; [|by destruct (Heff Ha)].
    split; [eapply quieter_trans; [exact Q|]; by apply still_quieter, frame_later|].
    intros E. destruct Href as [_ [Hgone Hquiet]]; [by apply orb_true_iff in E as [->| ->]; rewrite ?orb_true_r|].
    intros c. rewrite (proj1 Hl). intros Hc. apply orb_true_iff in E as [E|E].
    - destruct (Hquiet E) as (x & cx & Hr & Hcx & Hn). apply refers_exact in Hr; [|eauto]. subst x. congruence.
    - pose proof (Hself c Hc) as Hs. by rewrite Hgone in Hs. }
  destruct r as [a|e]; cbn [tolerate_not_modified]; [apply triple_return; naive_solver|].
  destruct (is_not_modified e || is_not_found e); apply triple_return; naive_solver.
Qed.

Lemma each_stopped R ctx l d0 :
  triple (fun d => d = d0) (each (with_id (fun id => stop_tolerated id ctx)) (map Some l))
    (fun r d => quieter R d0 d /\ (r = Ok tt -> forall x, x ∈ l -> quiet_at x d)).
Proof.
  revert d0. induction l as [|a l IH]; intros d0; cbn [map each with_id].
  { apply triple_return. intros d ->. split; [apply quieter_refl|]. intros _ x []%not_elem_of_nil. }
  eapply triple_bind; [apply (stop_outcome R)| |by intros e d [Q _]].
  intros []. apply triple_from. intros d1 [Q G]. eapply triple_weaken; [apply (IH d1)|done|].
  intros r d2 [Q2 G2]. split; [by eapply quieter_trans|]. intros Hr x [->|Hx]%elem_of_cons; [|by apply G2].
  eapply quiet_stays; [exact Q2|by apply G].
Qed.

Lemma set_stopped_outcome R n d0 :
  triple (fun d => d = d0) (set_running n false)
    (fun r d => quieter R d0 d /\
       (r = Ok tt -> forall x l, labels_of d !! x = Some l -> l !! NETWORK_LABEL = Some n -> quiet_at x d)).
Proof.
  eapply triple_bind; [apply (listing_outcome daemon view law NETWORK_LABEL n); done| |].
  - intros ids. apply triple_from. intros d1 [F (l & -> & _ & Hin)].
    eapply triple_bind; [apply (each_stopped R)| |].
    + intros []. apply triple_return. intros d [Q G]. split; [eapply quieter_trans; [by apply still_quieter|done]|].
      intros _ x lb Hx Hlb. apply G; [done|]. apply Hin. exists lb. split; [|done].
      unfold labels_of in Hx. rewrite lookup_fmap, fmap_Some in Hx. destruct Hx as (c' & Hc' & ->).
      destruct (quieter_old _ _ _ Q _ _ Hc') as (c & Hc & -> & _). unfold labels_of. by rewrite lookup_fmap, Hc.
    + intros e d [Q _]. split; [|done]. eapply quieter_trans; [by apply still_quieter|done].
  - intros e d [F _]. split; [by apply still_quieter|done].
Qed.

(** What a stop leaves. *)
Definition stopped (h : ContainerFacts) (d0 : Daemon) (r : result unit Error) (d : Daemon) : Prop :=
  quieter (fun l => l !! ONE_SHOT_LABEL = Some (f_id h)) d0 d /\
  (r = Ok tt -> none_labelled ONE_SHOT_LABEL (f_id h) d /\ quiet_at (f_id h) d /\
     forall n x l, f_network h = Some n -> labels_of d !! x = Some l -> l !! NETWORK_LABEL = Some n -> quiet_at x d).

Lemma none_labelled_quieter R k v d d' : quieter R d d' -> none_labelled k v d -> none_labelled k v d'.
Proof.
  intros Q H x l Hx. unfold labels_of in Hx. rewrite lookup_fmap, fmap_Some in Hx. destruct Hx as (c' & Hc' & ->).
  destruct (quieter_old _ _ _ Q _ _ Hc') as (c & Hc & -> & _). apply (H x). unfold labels_of. by rewrite lookup_fmap, Hc.
Qed.

Lemma stop_programme h d0 : triple (fun d => d = d0) (stop h) (stopped h d0).
Proof.
  set (R := fun l : gmap string string => l !! ONE_SHOT_LABEL = Some (f_id h)).
  eapply triple_bind.
  - eapply triple_weaken; [apply (sweep_listed daemon view law (fun _ => False) (fun _ => False) ONE_SHOT_LABEL (f_id h) true
      "listing one-shot containers" "removing one-shot container" d0); done|done|].
    intros r d [F G]. exact (conj (frame_quieter R _ _ F) G).
  - intros []. apply triple_from. intros d1 [Q1 G1]. specialize (G1 eq_refl). eapply triple_bind; [apply (stop_outcome R)| |].
    + intros []. apply triple_from. intros d2 [Q2 G2]. specialize (G2 eq_refl).
      assert (Q12 : quieter R d0 d2) by (by eapply quieter_trans). pose proof (none_labelled_quieter _ _ _ _ _ Q2 G1) as N2.
      destruct (f_network h) as [n|] eqn:En.
      * eapply triple_weaken; [apply (set_stopped_outcome R n d2)|done|]. intros r d [Q3 G3].
        split; [by eapply quieter_trans|]. intros Hr. split; [by eapply none_labelled_quieter|]. split; [by eapply quiet_stays|].
        intros m x l Hm. rewrite En in Hm. injection Hm as <-. by apply G3.
      * apply triple_return. intros d ->. split; [done|]. intros _. split; [done|]. split; [done|]. intros m x l. by rewrite En.
    + intros e d [Q2 _]. split; [by eapply quieter_trans|done].
  - intros e d [Q1 _]. by split.
Qed.
(** ** Starting *)

(** The container the reference names runs. *)
Definition runs (r : string) (d : Daemon) : Prop :=
  exists x c, refers d r x = true /\ containers d !! x = Some c /\ c_running c = true /\ c_paused c = false.

Lemma refers_put x c c' d r : containers d !! x = Some c -> c_name c' = c_name c -> refers (put x c' d) r x = refers d r x.
Proof.
  intros Hc Hn. unfold refers. cbn. rewrite lookup_insert_eq, Hc, Hn.
  destruct (decide (r = x)) as [->|Hr]; [rewrite lookup_insert_eq, Hc|rewrite lookup_insert_ne by done]; [|done].
  by rewrite !bool_decide_true by eauto.
Qed.

Lemma refers_later d d' r x : later d d' -> refers d' r x = refers d r x.
Proof. intros (Hc & _). unfold refers. by rewrite Hc. Qed.

Lemma runs_later r d d' : later d d' -> runs r d -> runs r d'.
Proof. intros Hl (x & c & Hr & Hc & H). exists x, c. by rewrite (refers_later _ _ _ _ Hl), (proj1 Hl). Qed.

Lemma updates_runs r d d' f : (forall c c', f c c' -> c' = set_run true false c) -> updates r d d' f -> runs r d'.
Proof.
  intros Hf (x & c & c' & Hr & Hc & ->%Hf & Hl). eapply runs_later; [exact Hl|]. exists x, (set_run true false c).
  rewrite (refers_put x c) by done. cbn. by rewrite lookup_insert_eq.
Qed.

Lemma any_outcome {A} (m : Prog A) : triple (fun _ => True) m (fun _ _ => True).
Proof. intros w _. by destruct (run daemon m w). Qed.

Lemma unpause_outcome r ctx : triple (fun _ => True) (call ctx (UnpauseContainer r)) (fun res d => res = Ok tt -> runs r d).
Proof.
  apply (triple_do _ _ law). intros [a|e]; apply triple_return; [|done].
  intros d (d0 & _ & d1 & _ & Ha) _. eapply updates_runs; [|exact Ha]. by intros c c' [_ ->].
Qed.

Lemma start_primary_outcome r : triple (fun _ => True) (start_primary r) (fun res d => res = Ok tt -> runs r d).
Proof.
  apply (triple_do _ _ law). intros [a|e].
  - apply triple_return. intros d (d0 & _ & d1 & _ & Ha) _. eapply updates_runs; [|exact Ha]. by intros c c' [_ ->].
  - destruct (is_not_modified e) eqn:Em; [|destruct (is_not_found e); by apply triple_return].
    apply triple_return. intros d (d0 & _ & d1 & _ & _ & Href & _) _. destruct Href as [Hl Href]; [by rewrite Em, orb_true_r|].
    eapply runs_later; [exact Hl|]. destruct (Href Em) as (x & c & ? & ? & ? & ?). by exists x, c.
Qed.

(** A container whose services were connected, if it is to have any. *)
Definition connected (network : option string) (c : Container) : Prop :=
  forall n, network = Some n -> c_labels c !! SIDECAR_NETWORK_LABEL = None \/ n ∈ c_networks c.

Definition started (h : ContainerFacts) (d0 : Daemon) (r : result unit Error) (d : Daemon) : Prop :=
  r = Ok tt -> runs (f_id h) d /\
    exists x c, refers d0 (f_id h) x = true /\ containers d0 !! x = Some c /\ connected (f_network h) c.

Lemma describes_pending id c i n : describes id c i -> pending_connection i n = false ->
  c_labels c !! SIDECAR_NETWORK_LABEL = None \/ n ∈ c_networks c.
Proof.
  intros (_ & _ & Hl & _ & Hn & _). unfold pending_connection, config_labels. rewrite Hl, Hn.
  rewrite andb_false_iff, negb_false_iff, bool_decide_eq_false, bool_decide_eq_true. intros [H|H]; [left|by right].
  by apply eq_None_not_Some.
Qed.

Lemma start_last h i : triple (fun _ => True)
  (if bool_decide ((in_state i ≫= paused) = Some true) then call "unpausing container" (UnpauseContainer (f_id h))
   else
     seq* (if bool_decide ((in_state i ≫= is_running) = Some true) then pret tt else one_shot_sweep (f_id h)) in
     start_primary (f_id h)) (fun r d => r = Ok tt -> runs (f_id h) d).
Proof.
  case_bool_decide; [apply unpause_outcome|]. eapply triple_bind; [apply any_outcome|intros u; apply start_primary_outcome|done].
Qed.

Lemma exited_networks c c' : exited c c' -> c_networks c' = c_networks c.
Proof. by intros [->| ->]. Qed.

Lemma start_programme h d0 : triple (fun d => d = d0) (start h) (started h d0).
Proof.
  eapply triple_bind; [apply (inspect_outcome daemon view law (f_id h) d0)| |by intros e d [_ _]].
  intros i. apply triple_from. intros d1 (_ & x & c & Hx & Hc & c' & _ & He & Hi).
  eapply triple_bind with (R := fun r _ => r = Ok tt -> connected (f_network h) c).
  - destruct (f_network h) as [n|] eqn:En; [|by apply triple_return].
    destruct (pending_connection i n) eqn:Ep; [by apply triple_return|].
    eapply triple_weaken; [apply any_outcome|done|]. intros r d _ _ m Hm. injection Hm as <-.
    rewrite <- (proj1 (exited_same _ _ He)), <- (exited_networks _ _ He). by eapply describes_pending.
  - intros [] w Hw. pose proof (start_last h i w Logic.I) as Hs. destruct (run daemon _ w) as [w' r]. intros Hr.
    split; [by apply Hs|]. exists x, c. split; [done|]. split; [done|]. by apply Hw.
  - done.
Qed.
End Programs.

(** The wait for a service's health ends: five minutes of polls is all the clock
    allows, so that a longer bound, or anything put after the last poll, changes
    nothing; and it succeeds only on an answer of the daemon that tells health. *)
Theorem health_wait_ends {W} (daemon : forall k : Call, W -> W * result (Answer k) ApiError) (view : W -> Daemon) container fuel out w :
  lawful daemon view -> (HEALTH_POLLS <= fuel)%nat ->
  let '(w', r) := run daemon (await_health container) w in
  run daemon (let* t := now in health_loop fuel out (t + HEALTH_WAIT) container) w = (w', r) /\
  (r = Ok tt -> seen_healthy daemon container w').
Proof.
  intros law Hf. unfold await_health. rewrite !run_bind. destruct (run_now daemon view law w) as (w1 & -> & _).
  assert (HP : Z.of_nat HEALTH_POLLS = 1201) by reflexivity.
  apply (health_loop_ends daemon view law); unfold HEALTH_WAIT, HEALTH_POLL in *; lia.
Qed.

(** A stop removes the sandbox's one-shots and nothing else, starts nothing, and
    when it succeeds neither the container nor any service of its network runs. *)
Theorem stop_quiets_sandbox {W} (daemon : forall k : Call, W -> W * result (Answer k) ApiError) (view : W -> Daemon) h w :
  lawful daemon view -> let '(w', r) := run daemon (stop h) w in stopped h (view w) r (view w').
Proof. intros law. by apply (stop_programme daemon view law h (view w)). Qed.

(** C10. A start that succeeds leaves the container running, and only ever one whose
    creation had come as far as connecting it to its services. *)
Theorem start_runs_sandbox {W} (daemon : forall k : Call, W -> W * result (Answer k) ApiError) (view : W -> Daemon) h w :
  lawful daemon view -> let '(w', r) := run daemon (start h) w in started h (view w) r (view w').
Proof. intros law. by apply (start_programme daemon view law h (view w)). Qed.

(** ** Examples *)

Definition calm (w : Sim) : Sim := mkSim (sim_daemon w) (ids w) [].
Definition demo_facts : ContainerFacts := mkFacts "c1" (Some "demo") "/workspace" ∅ ∅ (Some "demo-net") None.
Definition demo_runs (w : Sim) : list (string * bool) := map (fun kv => (fst kv, c_running (snd kv))) (map_to_list (containers (sim_daemon w))).

(** A service that is never healthy: its container is paused. *)
Definition demo_stuck : Sim := fst (run sim (pause demo_facts) (calm demo_sandbox)).

Lemma health_wait_ends_witness :
  snd (run sim (await_health "c1") demo_stuck)
    = Err (Provider (mkProviderError docker_kind None "sidecar c1 never reported healthy; the log is empty" false None [])) /\
  clock (sim_daemon (fst (run sim (await_health "c1") demo_stuck))) = HEALTH_WAIT /\
  let '(w', r) := run sim (await_health "c1") demo_stuck in
  run sim (let* t := now in health_loop 5000 (pret tt) (t + HEALTH_WAIT) "c1") demo_stuck = (w', r) /\
  (r = Ok tt -> seen_healthy sim "c1" w').
Proof.
  split; [vm_compute; reflexivity|]. split; [vm_compute; reflexivity|].
  apply (health_wait_ends sim sim_daemon "c1" 5000 (pret tt) demo_stuck sim_lawful). vm_compute. lia.
Defined.

Lemma stop_quiets_sandbox_witness :
  demo_runs (fst (run sim (stop demo_facts) (calm demo_sandbox))) = [("c1", false); ("c2", false); ("c4", true)] /\
  let '(w', r) := run sim (stop demo_facts) (calm demo_sandbox) in
  stopped demo_facts (sim_daemon (calm demo_sandbox)) r (sim_daemon w').
Proof. split; [vm_compute; reflexivity|]. apply (stop_quiets_sandbox sim sim_daemon demo_facts (calm demo_sandbox) sim_lawful). Defined.

Definition demo_stopped : Sim := fst (run sim (stop demo_facts) (calm demo_sandbox)).

Lemma start_runs_sandbox_witness :
  demo_runs (fst (run sim (start demo_facts) demo_stopped)) = [("c1", true); ("c2", true); ("c4", true)] /\
  snd (run sim (start demo_facts) demo_stopped) = Ok tt /\
  let '(w', r) := run sim (start demo_facts) demo_stopped in
  started demo_facts (sim_daemon demo_stopped) r (sim_daemon w').
Proof.
  split; [vm_compute; reflexivity|]. split; [vm_compute; reflexivity|].
  apply (start_runs_sandbox sim sim_daemon demo_facts demo_stopped sim_lawful).
Defined.
