(* ===== verification/DockerOneShot.v ===== *)
(** * One-shot containers, and the output of a Docker command

    Models [crates/sandbox-driver-docker/src/output.rs] and, of [one_shot.rs], the
    images, the container from its creation to its removal, and the run. The stop race
    is [Drain.v]'s: a run is given the stops it asked for and its outcome, and the
    chunks the daemon streamed. Re-rooting a build context is the tar library's work
    and a parameter. *)

From S2P Require Import Prelude Text Errors Exec Sanitize Capture Encoded Ids Spec DockerApi DockerSim DockerPlan Docker DockerCleanup DockerCreate.

#[local] Open Scope string_scope.
#[local] Open Scope list_scope.
#[local] Open Scope Z_scope.

(** ** Output *)

Inductive LogOutput := LogStdOut (b : bytes) | LogStdErr (b : bytes) | LogStdIn (b : bytes) | LogConsole (b : bytes).

(** The two streams, and the caller's sink with whether it failed. *)
Record StreamOutput := mkStreams {
  so_out : OutputSanitizer * OutputCaptureBuffer;
  so_err : OutputSanitizer * OutputCaptureBuffer;
  so_sink : option Sink;
  so_failed : bool;
}.

Definition streams_new (policy : OutputSanitization) (limit : option nat) (sink : option Sink) : StreamOutput :=
  let s := (Sanitize.new policy, Capture.new limit) in mkStreams s s sink false.

(** [emit]: nothing goes to a sink that failed. *)
Definition hand_over (o : StreamOutput) (stream : OutputStream) (bs : bytes) : StreamOutput :=
  match bs, so_sink o with
  | _ :: _, Some k =>
      if so_failed o then o
      else let '(k, e) := call_sink k stream bs in
           mkStreams (so_out o) (so_err o) (Some k) match e with Some _ => true | None => false end
  | _, _ => o
  end.

Definition side_of (o : StreamOutput) (stream : OutputStream) : OutputSanitizer * OutputCaptureBuffer :=
  match stream with Stdout => so_out o | Stderr => so_err o end.
Definition set_side (o : StreamOutput) (stream : OutputStream) (s : OutputSanitizer * OutputCaptureBuffer) : StreamOutput :=
  match stream with
  | Stdout => mkStreams s (so_err o) (so_sink o) (so_failed o)
  | Stderr => mkStreams (so_out o) s (so_sink o) (so_failed o)
  end.

Definition take_bytes (o : StreamOutput) (stream : OutputStream) (raw : bytes) : StreamOutput :=
  let '(s, cap) := side_of o stream in
  let '(s, bs) := Sanitize.push s raw in
  hand_over (set_side o stream (s, Capture.push cap bs)) stream bs.

Definition take_chunk (o : StreamOutput) (c : LogOutput) : StreamOutput :=
  match c with
  | LogStdOut b | LogConsole b => take_bytes o Stdout b
  | LogStdErr b => take_bytes o Stderr b
  | LogStdIn _ => o
  end.

Definition end_side (o : StreamOutput) (stream : OutputStream) : StreamOutput :=
  let '(s, cap) := side_of o stream in
  let '(s, bs) := Sanitize.finish s in
  hand_over (set_side o stream (s, Capture.push cap bs)) stream bs.

Fixpoint drain (o : StreamOutput) (chunks : list (result LogOutput ApiError)) : StreamOutput * result unit ApiError :=
  match chunks with
  | [] => (end_side (end_side o Stdout) Stderr, Ok tt)
  | Ok c :: chunks => drain (take_chunk o c) chunks
  | Err e :: _ => (o, Err e)
  end.

(** A drain the grace abandoned has taken what came before. *)
Definition abandoned_drain (o : StreamOutput) (chunks : list LogOutput) : StreamOutput := foldl take_chunk o chunks.

Definition mark (cut : bool) (s : CaptureStats) : CaptureStats := mkStats (observed_bytes s) (retained_bytes s) (omitted_bytes s) cut.

Definition into_result (o : StreamOutput) (t : Termination) (code : option Z) (duration : Z) (cut : bool) : ExecStreamingResult :=
  let '(out, out_stats) := into_parts (snd (so_out o)) in
  let '(err, err_stats) := into_parts (snd (so_err o)) in
  let r := from_shell_status t code duration in
  let r := mkResult out err (Exec.exit_code r) (res_signal r) (res_termination r) (Exec.duration r) in
  mkStreaming r true true (mark cut out_stats) (mark cut err_stats) no_loss.

(** ** One-shot containers *)

Inductive OneShotImage :=
  | Registry (reference : string)
  | Build (context : string) (dockerfile : option string) (tag : string) (reuse : bool).

Record OneShotSpec := mkOneShot {
  os_image : OneShotImage;
  os_entrypoint : option string;
  os_args : list string;
  os_env : gmap string string;
  os_working_dir : option string;
  os_timeout : option Z;
  os_sanitization : OutputSanitization;
}.

Definition one_shot_new (image : OneShotImage) : OneShotSpec := mkOneShot image None [] ∅ None None Raw.
Definition registry (reference : string) : OneShotSpec := one_shot_new (Registry reference).

Definition FALLBACK_PLATFORM : string := "linux/amd64".
Definition KILL_DRAIN_GRACE : Z := 10000.

(** The texts of an error and of its sources. *)
Definition error_texts (display : Error -> string) (e : Error) : list string := display e :: source_chain e.

Definition is_missing_platform (display : Error -> string) (e : Error) : bool :=
  existsb (contains "no matching manifest") (error_texts display e).

Section OneShot.
(** The text of an error, the tar library's rewriting of a context, and the handle:
    the container, its working directory and its workspace. *)
Context (display : Error -> string) (reroot : bytes -> result bytes Error)
        (sandbox sandbox_dir : string) (workspace : Mount).

Definition ensure_registry_image (reference : string) : Prog unit :=
  let* present := image_present reference in
  if present then pret tt
  else pmatch (pull_image reference None None) (fun r => match r with
    | Ok _ => pret tt
    | Err error =>
        if negb (is_missing_platform display error) then pthrow error
        else pmatch (pull_image reference None (Some FALLBACK_PLATFORM)) (fun r => match r with
          | Ok _ => pret tt
          | Err _ => pthrow error
          end)
    end).

Definition download_context (context : string) : Prog bytes :=
  let* archive := call "reading build context" (Download sandbox (resolve sandbox_dir context)) in
  Return (reroot archive).

Definition build_image (context : string) (dockerfile : option string) (tag : string) (reuse : bool) : Prog unit :=
  let* present := if reuse then image_present tag else pret false in
  if present then pret tt
  else
    let* context_tar := download_context context in
    let* failed := call "building image" (BuildImage (default "Dockerfile" dockerfile) tag context_tar) in
    match failed with
    | Some message => throw_provider ("image build failed: " +:+ message) (Some "build")
    | None => pret tt
    end.

Definition prepare_image (image : OneShotImage) : Prog string :=
  match image with
  | Registry reference => seq* ensure_registry_image reference in pret reference
  | Build context dockerfile tag reuse => seq* build_image context dockerfile tag reuse in pret tag
  end.

Definition one_shot_labels : gmap string string := <[ONE_SHOT_LABEL := sandbox]> {[MANAGED_LABEL := "true"]}.

Definition container_config (spec : OneShotSpec) (image : string) : Config :=
  mkConfig image None ((fun e => [e]) <$> os_entrypoint spec) (non_empty (os_args spec))
    (Some (default sandbox_dir (os_working_dir spec))) (non_empty (map env_entry (entries (os_env spec)))) one_shot_labels None
    (mkHostConfig (Some ("container:" +:+ sandbox)) None (Some [workspace]) (Some true) None None None None None None) [].

Definition remove_now (id : string) : Prog unit :=
  pmatch (remove_container_forced id "removing one-shot container") (fun _ => pret tt).

Definition create_one_shot (config : Config) : Prog string := call "creating one-shot container" (CreateContainer None config).

(** A step before the run: its failure removes the container. *)
Definition or_remove (id context : string) (k : Call) : Prog unit :=
  try k (fun r => match r with
    | Ok _ => pret tt
    | Err e => seq* remove_now id in pthrow (docker_error context e)
    end).

Definition attach_and_start (id : string) : Prog unit :=
  seq* or_remove id "attaching one-shot container" (AttachContainer id) in
  or_remove id "starting one-shot container" (StartContainer id).

Definition stop_one_shot (id : string) (level : StopLevel) : Prog unit :=
  try (KillContainer id match level with Term => "SIGTERM" | Kill => "SIGKILL" end) (fun _ => pret tt).

(** [i32::try_from]. *)
Definition try_i32 (n : Z) : option Z := if (- 2 ^ 31 <=? n) && (n <? 2 ^ 31) then Some n else None.

Definition one_shot_exit (id : string) : Prog (option Z) :=
  try (WaitContainer id KILL_DRAIN_GRACE) (fun r => pret match r with
    | Ok (Some code) => try_i32 code
    | Err (WaitError code _) => try_i32 code
    | _ => None
    end).

(** How the race ended: abandoned with what came till then, or with all chunks. *)
Inductive Drained := Whole (chunks : list (result LogOutput ApiError)) | Cut (chunks : list LogOutput).

Definition drained_output (o : StreamOutput) (d : Drained) : StreamOutput * result unit ApiError * bool :=
  match d with
  | Whole chunks => (drain o chunks, false)
  | Cut chunks => (abandoned_drain o chunks, Ok tt, true)
  end.


(** A run: [before] a stop that came before the image was ready, [stops] what the race
    asked of the container, [raced] how it ended. *)
Definition one_shot_run (spec : OneShotSpec) (limit : option nat) (sink : option Sink) (before : option Termination)
    (stops : list StopLevel) (raced : result (Termination * Drained) Error) : Prog ExecStreamingResult :=
  let captured := streams_new (os_sanitization spec) limit sink in
  let* started := now in
  match before with
  | Some t => let* ended := now in pret (into_result captured t None (ended - started) false)
  | None =>
      let* image := prepare_image (os_image spec) in
      let* id := create_one_shot (container_config spec image) in
      seq* attach_and_start id in
      seq* each (stop_one_shot id) stops in
      match raced with
      | Err error => seq* remove_now id in pthrow error
      | Ok (t, d) =>
          let '(captured, stream, cut) := drained_output captured d in
          let* code := if is_ok stream then one_shot_exit id else pret None in
          seq* remove_now id in
          match stream with
          | Err e => pthrow (docker_error "reading one-shot output" e)
          | Ok _ =>
              let t := if bool_decide (t = Exited) && bool_decide (code = None) then Unknown else t in
              let* ended := now in
              pret (into_result captured t code (ended - started) cut)
          end
      end
  end.
End OneShot.

(** ** What a run leaves *)

Section Left.
Context {W : Type} (daemon : forall k : Call, W -> W * result (Answer k) ApiError) (view : W -> Daemon)
        (law : lawful daemon view) (display : Error -> string) (reroot : bytes -> result bytes Error)
        (sandbox sandbox_dir : string) (workspace : Mount).

#[local] Notation triple := (DockerApi.triple daemon view).
#[local] Notation keeps := (DockerApi.keeps daemon view).

Definition same (d0 d : Daemon) : Prop := labels_of d = labels_of d0 /\ networks d = networks d0.

(** A new container labelled as the sandbox's one-shot, and nothing else. *)
Definition one_more (id : string) (lb : gmap string string) (d0 d : Daemon) : Prop :=
  containers d0 !! id = None /\ lb !! ONE_SHOT_LABEL = Some sandbox /\ lb !! MANAGED_LABEL = Some "true" /\
  labels_of d = <[id := lb]> (labels_of d0) /\ networks d = networks d0.

Definition left_one (d0 d : Daemon) : Prop := same d0 d \/ exists id lb, one_more id lb d0 d.

Lemma same_harmless d0 k : harmless k -> stable (same d0) k.
Proof. intros Hk d d' r [E1 E2] Ha. destruct (harmless_answers _ _ _ _ Hk Ha). split; congruence. Qed.

Lemma one_more_harmless id lb d0 k : harmless k -> stable (one_more id lb d0) k.
Proof. intros Hk d d' r (? & ? & ? & ? & ?) Ha. destruct (harmless_answers _ _ _ _ Hk Ha). repeat split; congruence. Qed.

Lemma keeps_now I : (forall k, harmless k -> stable I k) -> keeps I now.
Proof. intros HI. apply (keeps_try daemon view law I HI Now); [done|]. intros [t|e]; apply keeps_return. Qed.

Lemma keeps_harmless I ctx k : (forall k, harmless k -> stable I k) -> harmless k -> keeps I (call ctx k).
Proof. intros HI Hk. by apply keeps_call; [|apply HI]. Qed.

Lemma keeps_prepare I image : (forall k, harmless k -> stable I k) -> keeps I (prepare_image display reroot sandbox sandbox_dir image).
Proof.
  intros HI. assert (Hp : forall r a p, keeps I (pull_image r a p)) by (intros; by apply keeps_pull).
  assert (Hi : forall r, keeps I (image_present r)) by (intros; by apply keeps_image_present).
  destruct image as [reference|context dockerfile tag reuse]; cbn [prepare_image].
  - apply keeps_then; [|intros u; apply keeps_return]. apply keeps_then; [apply Hi|]. intros []; [apply keeps_return|].
    apply keeps_match; [apply Hp|]. intros [u|e]; [apply keeps_return|]. destruct (negb _); [apply keeps_return|].
    apply keeps_match; [apply Hp|]. intros [u|e2]; apply keeps_return.
  - apply keeps_then; [|intros u; apply keeps_return]. apply keeps_then; [destruct reuse; [apply Hi|apply keeps_return]|].
    intros []; [apply keeps_return|]. apply keeps_then.
    + apply keeps_then; [exact (keeps_harmless I _ (Download _ _) HI Logic.I)|]. intros a. apply keeps_return.
    + intros tar. apply keeps_then; [exact (keeps_harmless I _ (BuildImage _ _ _) HI Logic.I)|].
      intros [m|]; apply keeps_return.
Qed.

Lemma one_shot_created config d0 : cf_labels config = one_shot_labels sandbox ->
  triple (same d0) (create_one_shot config)
    (fun r d => match r with Ok id => exists lb, one_more id lb d0 d | Err _ => left_one d0 d end).
Proof.
  intros Hc. apply (triple_do _ _ law). intros r.
  assert (Heff : forall id d1 d, effect (CreateContainer None config) d1 d id -> same d0 d1 -> exists lb, one_more id lb d0 d).
  { intros id d1 d (Hid & c & (Hl & Hn & _) & Hcar & _) [E1 E2]. exists (c_labels c). unfold one_more.
    rewrite present_labels, <- E1, <- present_labels. split; [done|]. rewrite !(carries_label _ _ _ Hcar), Hc by done.
    unfold labels_of in *. rewrite Hl, Hn. cbn. rewrite fmap_insert, E1, E2. by split_and!. }
  destruct r as [id|e]; apply triple_return; intros d (d1 & [E1 E2] & d2 & [D1 D2]%drift_labels & H).
  - apply (Heff id d2 d H). split; congruence.
  - destruct H as ([[L1 L2]%later_labels|[id Ha]] & _); [left; split; congruence|]. right. exists id.
    apply (Heff id d2 d Ha). split; congruence.
Qed.

Lemma one_shot_removed id lb d0 : triple (one_more id lb d0) (remove_now id) (fun _ d => left_one d0 d).
Proof.
  apply triple_from. intros d1 (Hid & Ho & Hm & El & En). eapply triple_match.
  - apply (removal_outcome daemon view law (fun x _ => x = id) (fun _ => False) (fun _ => False) id true _ d1); [|done].
    apply not_eq_None_Some. rewrite present_labels, El, lookup_insert_eq. done.
  - intros r. apply triple_return. intros d (F & U & _).
    assert (Hn : networks d = networks d0).
    { rewrite <- En. pose proof (frame_networks _ _ _ _ _ F). pose proof (frame_network_gone _ _ _ _ _ F). set_solver. }
    destruct (labels_of d !! id) as [l|] eqn:Ed.
    + right. exists id, lb. pose proof (frame_labels _ _ _ _ _ _ _ F Ed) as E. rewrite El, lookup_insert_eq in E. injection E as <-.
      repeat (split; [done|]). split; [|done]. apply map_eq. intros x. destruct (decide (x = id)) as [->|Hx].
      * by rewrite Ed, lookup_insert_eq.
      * by rewrite U, El.
    + left. split; [|done]. apply map_eq. intros x. destruct (decide (x = id)) as [->|Hx].
      * rewrite Ed. symmetry. by apply present_labels.
      * rewrite U, El by done. by rewrite lookup_insert_ne.
Qed.

Lemma or_remove_outcome id lb d0 context k : harmless k ->
  triple (one_more id lb d0) (or_remove id context k) (fun r d => match r with Ok _ => one_more id lb d0 d | Err _ => left_one d0 d end).
Proof.
  intros Hk. apply (triple_do _ _ law). intros r.
  assert (HI : forall d, (exists d1, one_more id lb d0 d1 /\ answers k d1 d r) -> one_more id lb d0 d).
  { intros d (d1 & H1 & Ha). by apply (one_more_harmless id lb d0 k Hk d1 d r). }
  destruct r as [a|e]; [by apply triple_return|].
  eapply triple_bind; [exact (triple_weaken _ _ _ _ _ _ _ (one_shot_removed id lb d0) HI (fun _ _ h => h))| |done].
  intros u. by apply triple_return.
Qed.

Lemma attach_outcome id lb d0 :
  triple (one_more id lb d0) (attach_and_start id) (fun r d => match r with Ok _ => one_more id lb d0 d | Err _ => left_one d0 d end).
Proof.
  eapply triple_bind; [by apply (or_remove_outcome id lb d0 "attaching one-shot container" (AttachContainer id))| |done].
  intros u. by apply or_remove_outcome.
Qed.

(** The end of a run: what it computes matters not. *)
Lemma after_removal {A} id lb d0 (m : Prog A) : (forall I, (forall k, harmless k -> stable I k) -> keeps I m) ->
  triple (one_more id lb d0) (seq* remove_now id in m) (fun _ d => left_one d0 d).
Proof.
  intros Hm. eapply triple_bind; [apply (one_shot_removed id lb d0)| |done]. intros u.
  apply (Hm (left_one d0)). intros k Hk d d' r [Hd|(x & l & Hd)] Ha.
  - left. by eapply same_harmless.
  - right. exists x, l. by eapply one_more_harmless.
Qed.

Lemma run_outcome spec limit sink before stops raced d0 :
  triple (fun d => d = d0) (one_shot_run display reroot sandbox sandbox_dir workspace spec limit sink before stops raced)
    (fun _ d => left_one d0 d).
Proof.
  pose proof (same_harmless d0) as H0. eapply triple_bind with (R := fun _ d => same d0 d).
  { eapply triple_weaken; [by apply (keeps_now (same d0))|by intros d ->|done]. }
  2: { intros e d H. by left. }
  intros started. destruct before as [t|].
  { eapply triple_bind; [by apply (keeps_now (same d0))| |by left]. intros ended. apply triple_return. by left. }
  eapply triple_bind; [by apply (keeps_prepare (same d0))| |by left]. intros image.
  eapply triple_bind; [by apply one_shot_created| |done]. intros id. apply triple_from. intros d1 (lb & Hd1).
  assert (H1 : forall k, harmless k -> stable (one_more id lb d0) k) by (by apply one_more_harmless).
  eapply triple_bind with (R := fun r d => match r with Ok _ => one_more id lb d0 d | Err _ => left_one d0 d end); [| |done].
  { intros w Hw. apply attach_outcome. by rewrite Hw. }
  intros u. eapply triple_bind with (R := fun _ d => one_more id lb d0 d).
  { apply keeps_each. intros level. apply (keeps_try daemon view law _ H1); [done|]. intros r. apply keeps_return. }
  2: { intros e d H. right. by exists id, lb. }
  intros u2. destruct raced as [[t d]|error]; [|apply after_removal; intros I HI; apply keeps_return].
  destruct (drained_output _ d) as [[captured stream] cut].
  eapply triple_bind with (R := fun _ d => one_more id lb d0 d).
  { destruct (is_ok stream); [|apply keeps_return]. apply (keeps_try daemon view law _ H1); [done|]. intros r. apply keeps_return. }
  2: { intros e d2 H. right. by exists id, lb. }
  intros code. apply after_removal. intros I HI. destruct stream as [a|e]; [|apply keeps_return].
  apply keeps_then; [by apply keeps_now|]. intros ended. apply keeps_return.
Qed.

(** A sweep of what was left. *)
Lemma left_swept w w1 w2 : left_one (view w) (view w1) -> run daemon (one_shot_sweep sandbox) w1 = (w2, Ok tt) ->
  nothing_new (view w) (view w2).
Proof.
  intros H E. pose proof (triple_run _ _ _ _ _ _ _ _ (sweep_listed daemon view law (fun _ => False) (fun _ => False) ONE_SHOT_LABEL sandbox true
    "listing one-shot containers" "removing one-shot container" (view w1) eq_refl) eq_refl E) as [F G]. specialize (G eq_refl).
  assert (Hl : forall x l, labels_of (view w2) !! x = Some l -> is_Some (labels_of (view w) !! x)).
  { intros x l Hx. pose proof (frame_labels _ _ _ _ _ _ _ F Hx) as Hx1. destruct H as [[El _]|(id & lb & _ & Ho & _ & El & _)].
    - rewrite <- El. eauto.
    - rewrite El in Hx1. apply lookup_insert_Some in Hx1 as [[<- <-]|[_ Hx1]]; [|eauto]. by destruct (G id lb Hx). }
  split.
  - intros x Hx. apply not_eq_None_Some in Hx. rewrite present_labels in Hx. apply not_eq_None_Some in Hx as [l Hx].
    apply not_eq_None_Some. rewrite present_labels. apply not_eq_None_Some. by eapply Hl.
  - pose proof (frame_networks _ _ _ _ _ F). destruct H as [[_ En]|(id & lb & _ & _ & _ & _ & En)]; set_solver.
Qed.
End Left.

(** C11. A one-shot run adds at most one container, new and labelled as the sandbox's,
    and removes or relabels none that was there, however the calls were answered and
    the race ended; a later sweep of the sandbox that succeeds, which every stop and
    deletion begins with, leaves nothing of it. *)
Theorem one_shot_leaves_labelled {W} (daemon : forall k : Call, W -> W * result (Answer k) ApiError) (view : W -> Daemon)
    display reroot sandbox sandbox_dir workspace spec limit sink before stops raced w :
  lawful daemon view ->
  let w' := fst (run daemon (one_shot_run display reroot sandbox sandbox_dir workspace spec limit sink before stops raced) w) in
  left_one sandbox (view w) (view w') /\
  forall w'', run daemon (one_shot_sweep sandbox) w' = (w'', Ok tt) -> nothing_new (view w) (view w'').
Proof.
  intros law w'. assert (H : left_one sandbox (view w) (view w')).
  { pose proof (run_outcome daemon view law display reroot sandbox sandbox_dir workspace spec limit sink before stops raced (view w) w eq_refl) as H.
    subst w'. by destruct (run daemon _ w). }
  split; [done|]. intros w''. by apply (left_swept daemon view law sandbox w w').
Qed.

(** ** What a drain keeps *)

Section Kept.
Context (p : OutputSanitization) (n : nat).

Definition emitted (raw : bytes) : bytes := snd (Sanitize.push (Sanitize.new p) raw).

(** A side that has taken in exactly [raw]. *)
Definition having_taken (raw : bytes) : OutputSanitizer * OutputCaptureBuffer :=
  (fst (Sanitize.push (Sanitize.new p) raw), having_seen n (emitted raw)).

(** A sink that accepts and was given this. *)
Definition fed (k : option Sink) (failed : bool) (a b : bytes) : Prop :=
  match k with
  | Some k => failed = false /\ Forall (eq None) (Encoded.answers k) /\ given k Stdout = a /\ given k Stderr = b
  | None => True
  end.

Lemma hand_over_sides o stream bs st : side_of (hand_over o stream bs) st = side_of o st.
Proof.
  unfold hand_over. destruct bs, (so_sink o); try done. destruct (so_failed o); [done|]. destruct (call_sink _ _ _) as [k' e].
  by destruct st.
Qed.

Lemma hand_over_fed o stream bs a b : fed (so_sink o) (so_failed o) a b ->
  fed (so_sink (hand_over o stream bs)) (so_failed (hand_over o stream bs)) (a ++ added Stdout stream bs) (b ++ added Stderr stream bs).
Proof.
  intros H. unfold hand_over. destruct bs as [|x bs].
  { unfold added. repeat case_decide; by rewrite !app_nil_r. }
  destruct (so_sink o) as [k|] eqn:Ek; [|by rewrite Ek]. destruct H as (-> & Ha & Ho & He). cbn -[given]. split.
  - destruct (Encoded.answers k) as [|y ys]; [done|]. by apply Forall_cons_1 in Ha as [<- _].
  - rewrite !given_snoc, Ho, He. split_and!; [|done..]. destruct (Encoded.answers k); [done|]. by apply Forall_cons_1 in Ha as [_ Ha].
Qed.

Lemma set_side_of o stream s st : side_of (set_side o stream s) st = if decide (st = stream) then s else side_of o st.
Proof. by destruct stream, st. Qed.

Lemma set_side_sink o stream s : so_sink (set_side o stream s) = so_sink o /\ so_failed (set_side o stream s) = so_failed o.
Proof. by destruct stream. Qed.

Lemma take_bytes_sides o stream raw a st : side_of o st = having_taken a ->
  side_of (take_bytes o stream raw) st = having_taken (a ++ added st stream raw).
Proof.
  intros H. unfold take_bytes. destruct (side_of o stream) as [s cap] eqn:E. destruct (Sanitize.push s raw) as [s' bs] eqn:Ep.
  rewrite hand_over_sides, set_side_of. unfold added. case_decide as Hs; case_decide; try congruence; [|by rewrite app_nil_r].
  subst st. rewrite H in E. injection E as <- <-. rewrite push_having_seen. unfold having_taken, emitted.
  by rewrite Sanitize.push_app, Ep.
Qed.

Lemma take_bytes_fed o stream raw a b : side_of o Stdout = having_taken a -> side_of o Stderr = having_taken b ->
  fed (so_sink o) (so_failed o) (emitted a) (emitted b) ->
  fed (so_sink (take_bytes o stream raw)) (so_failed (take_bytes o stream raw))
    (emitted (a ++ added Stdout stream raw)) (emitted (b ++ added Stderr stream raw)).
Proof.
  intros Ha Hb Hf. unfold take_bytes. destruct (side_of o stream) as [s cap] eqn:E. destruct (Sanitize.push s raw) as [s' bs] eqn:Ep.
  destruct (set_side_sink o stream (s', Capture.push cap bs)) as [Es Ef]. rewrite <- Es, <- Ef in Hf.
  pose proof (hand_over_fed _ stream bs _ _ Hf) as H.
  assert (emitted (a ++ added Stdout stream raw) = emitted a ++ added Stdout stream bs) as ->.
  { unfold added. case_decide as Hs; [|by rewrite !app_nil_r]. rewrite Hs, Ha in E. injection E as <- <-.
    unfold emitted. by rewrite Sanitize.push_app, Ep. }
  assert (emitted (b ++ added Stderr stream raw) = emitted b ++ added Stderr stream bs) as ->; [|done].
  unfold added. case_decide as Hs; [|by rewrite !app_nil_r]. rewrite Hs, Hb in E. injection E as <- <-.
  unfold emitted. by rewrite Sanitize.push_app, Ep.
Qed.

Definition holds (o : StreamOutput) (a b : bytes) : Prop :=
  side_of o Stdout = having_taken a /\ side_of o Stderr = having_taken b /\
  fed (so_sink o) (so_failed o) (emitted a) (emitted b).

(** The bytes of a stream in a chunk: a terminal's go to standard output. *)
Definition chunk_bytes (st : OutputStream) (c : LogOutput) : bytes :=
  match c, st with
  | (LogStdOut b | LogConsole b), Stdout => b
  | LogStdErr b, Stderr => b
  | _, _ => []
  end.

Definition chunks_bytes (st : OutputStream) (l : list LogOutput) : bytes := concat (map (chunk_bytes st) l).

Lemma take_chunk_holds o c a b : holds o a b -> holds (take_chunk o c) (a ++ chunk_bytes Stdout c) (b ++ chunk_bytes Stderr c).
Proof.
  assert (Ht : forall st raw, holds o a b -> holds (take_bytes o st raw) (a ++ added Stdout st raw) (b ++ added Stderr st raw)).
  { intros st raw (Ha & Hb & Hf). split; [by apply take_bytes_sides|]. split; [by apply take_bytes_sides|]. by apply take_bytes_fed. }
  intros H. destruct c as [x|x|x|x]; cbn [take_chunk chunk_bytes]; [exact (Ht Stdout x H)|exact (Ht Stderr x H)| |exact (Ht Stdout x H)].
  by rewrite !app_nil_r.
Qed.

Lemma taken_holds l o a b : holds o a b -> holds (foldl take_chunk o l) (a ++ chunks_bytes Stdout l) (b ++ chunks_bytes Stderr l).
Proof.
  revert o a b. induction l as [|c l IH]; intros o a b H; cbn [foldl]; [by rewrite !app_nil_r|].
  unfold chunks_bytes. cbn [map concat]. rewrite !app_assoc. by apply IH, take_chunk_holds.
Qed.

Lemma sanitize_emitted raw : sanitize p raw = emitted raw ++ snd (Sanitize.finish (fst (Sanitize.push (Sanitize.new p) raw))).
Proof. unfold sanitize, emitted. by destruct (Sanitize.push _ _). Qed.

(** The end of a side: the other is as it was, the sink has the rest. *)
Lemma end_side_spec o st raw a b : side_of o st = having_taken raw -> fed (so_sink o) (so_failed o) a b ->
  let rest := snd (Sanitize.finish (fst (Sanitize.push (Sanitize.new p) raw))) in
  snd (side_of (end_side o st) st) = having_seen n (sanitize p raw) /\
  (forall st', st' <> st -> side_of (end_side o st) st' = side_of o st') /\
  fed (so_sink (end_side o st)) (so_failed (end_side o st)) (a ++ added Stdout st rest) (b ++ added Stderr st rest).
Proof.
  intros H Hf rest. unfold end_side. rewrite H. unfold having_taken. subst rest.
  destruct (Sanitize.finish _) as [s bs] eqn:E. rewrite push_having_seen. cbn [snd]. split; [|split].
  - rewrite hand_over_sides, set_side_of, decide_True by done. by rewrite sanitize_emitted, E.
  - intros st' Hne. by rewrite hand_over_sides, set_side_of, decide_False.
  - destruct (set_side_sink o st (s, having_seen n (emitted raw ++ bs))) as [Es Ef]. apply hand_over_fed. by rewrite Es, Ef.
Qed.

Lemma drain_whole l o : drain o (map Ok l) = (end_side (end_side (foldl take_chunk o l) Stdout) Stderr, Ok tt).
Proof. revert o. induction l as [|c l IH]; intros o; [done|]. apply IH. Qed.

Lemma ended_holds o a b : holds o a b ->
  let o' := end_side (end_side o Stdout) Stderr in
  snd (so_out o') = having_seen n (sanitize p a) /\ snd (so_err o') = having_seen n (sanitize p b) /\
  fed (so_sink o') (so_failed o') (sanitize p a) (sanitize p b).
Proof.
  intros (Ha & Hb & Hf) o'. destruct (end_side_spec o Stdout a _ _ Ha Hf) as (H1 & H2 & H3).
  assert (Hb' : side_of (end_side o Stdout) Stderr = having_taken b) by (by rewrite H2).
  destruct (end_side_spec _ Stderr b _ _ Hb' H3) as (H4 & H5 & H6). split; [|split]; [|exact H4|].
  - change (so_out o') with (side_of o' Stdout). subst o'. by rewrite H5.
  - unfold added in H6. repeat case_decide; try done. by rewrite !app_nil_r, <- !sanitize_emitted in H6.
Qed.

Lemma new_holds k : accepting k -> holds (streams_new p (Some n) k) [] [].
Proof.
  intros Hk. unfold holds, streams_new, having_taken, emitted. cbn [side_of so_out so_err so_sink so_failed].
  assert (Sanitize.push (Sanitize.new p) [] = (Sanitize.new p, [])) as -> by (unfold Sanitize.push; by case_decide).
  rewrite new_having_seen. split_and!; [done..|]. destruct k as [k|]; [|done]. destruct Hk as [Ha Hd]. unfold fed, given. by rewrite Hd.
Qed.
End Kept.

(** What a Docker command wrote, whole and in order: the result keeps of each
    stream what the limit keeps of its sanitized bytes, however the daemon cut them
    into chunks and mixed the streams, and the caller's sink was given all of it. *)
Theorem docker_output_exact p n k l t code duration cut : accepting k ->
  let all st := sanitize p (chunks_bytes st l) in
  let '(o, r) := drain (streams_new p (Some n) k) (map Ok l) in
  let result := into_result o t code duration cut in
  r = Ok tt /\ res_stdout (sr_result result) = head_tail n (all Stdout) /\ res_stderr (sr_result result) = head_tail n (all Stderr) /\
  stdout_capture result = mkStats (length (all Stdout)) (n `min` length (all Stdout)) (length (all Stdout) - n) cut /\
  stderr_capture result = mkStats (length (all Stderr)) (n `min` length (all Stderr)) (length (all Stderr) - n) cut /\
  fed (so_sink o) (so_failed o) (all Stdout) (all Stderr).
Proof.
  intros Hk all. rewrite drain_whole. destruct (ended_holds p n _ _ _ (taken_holds p n l _ _ _ (new_holds p n k Hk))) as (H1 & H2 & H3).
  cbn [app] in *. set (o := end_side _ Stderr) in *. clearbody o. unfold into_result. rewrite H1, H2. subst all. cbv beta.
  unfold into_parts, having_seen. cbn [head tail observed omitted]. fold (head_tail n (sanitize p (chunks_bytes Stdout l))).
  fold (head_tail n (sanitize p (chunks_bytes Stderr l))). rewrite !length_head_tail. by split_and!.
Qed.

(** ** Examples *)

Definition demo_output : list LogOutput := [LogStdOut [104; 105]; LogStdErr [33; 7]; LogConsole [10]].

Lemma docker_output_exact_witness :
  accepting (Some (mkSink [] [])) /\
  let all st := sanitize StripAll (chunks_bytes st demo_output) in
  all Stdout = [104; 105; 10] /\ all Stderr = [33] /\
  let '(o, r) := drain (streams_new StripAll (Some 2%nat) (Some (mkSink [] []))) (map Ok demo_output) in
  let result := into_result o Exited (Some 0) 5 false in
  r = Ok tt /\ res_stdout (sr_result result) = head_tail 2 (all Stdout) /\ res_stderr (sr_result result) = head_tail 2 (all Stderr) /\
  stdout_capture result = mkStats (length (all Stdout)) (2 `min` length (all Stdout)) (length (all Stdout) - 2) false /\
  stderr_capture result = mkStats (length (all Stderr)) (2 `min` length (all Stderr)) (length (all Stderr) - 2) false /\
  fed (so_sink o) (so_failed o) (all Stdout) (all Stderr).
Proof.
  assert (Ha : accepting (Some (mkSink [] []))) by (split; [constructor|done]). split; [done|].
  split; [vm_compute; reflexivity|]. split; [vm_compute; reflexivity|].
  exact (docker_output_exact StripAll 2 (Some (mkSink [] [])) demo_output Exited (Some 0) 5 false Ha).
Defined.

(** The run's attach fails, and so does the removal that follows. *)
Definition demo_shot : Sim := mkSim (sim_daemon demo_sandbox) ["c9"] [None; None; Some false; Some false].
Definition demo_spec_shot : OneShotSpec := mkOneShot (Registry "alpine") None ["true"] ∅ None None Raw.
Definition demo_shot_end : Sim :=
  fst (run sim (one_shot_run (fun _ => EmptyString) Ok "c1" "/workspace" (DockerApi.mkMount None None None None) demo_spec_shot None None None []
    (Ok (Exited, Whole []))) demo_shot).

Lemma one_shot_leaves_labelled_witness :
  lawful sim sim_daemon /\ is_Some (containers (sim_daemon demo_shot_end) !! "c9") /\
  left_one "c1" (sim_daemon demo_shot) (sim_daemon demo_shot_end) /\
  forall w'', run sim (one_shot_sweep "c1") demo_shot_end = (w'', Ok tt) -> nothing_new (sim_daemon demo_shot) (sim_daemon w'').
Proof.
  split; [apply sim_lawful|]. split; [vm_compute; eauto|].
  exact (one_shot_leaves_labelled sim sim_daemon (fun _ => EmptyString) Ok "c1" "/workspace" (DockerApi.mkMount None None None None) demo_spec_shot
    None None None [] (Ok (Exited, Whole [])) demo_shot sim_lawful).
Defined.
