(* ===== verification/DaytonaApi.v ===== *)
(** * The Daytona service, as the provider calls it

    The requests that [crates/sandbox-driver-daytona] makes of the control plane and of
    a sandbox's toolbox through the SDK, the errors of [sdk.rs], and the programs made of
    requests. A request may be made under a deadline, which may pass before the answer
    comes ([tokio::time::timeout]). Neither the service nor the SDK is the
    repository's: what the provider relies on is stated as the law [answers] of a request
    on what the service holds. Between requests sandboxes change state by themselves and
    may be gone; a request that fails may have taken effect. *)

From S2P Require Import Prelude Text Errors DockerPlan.

#[local] Open Scope string_scope.
#[local] Open Scope list_scope.
#[local] Open Scope Z_scope.

(** ** Names and limits of the provider; durations are counted in nanoseconds *)

Definition seconds (n : Z) : Z := n * 1000000000.

Definition daytona_kind : string := "daytona".
Definition FALLBACK_WORKING_DIR : string := "/home/daytona".
Definition RUNTIME_DIRECTORY_PARENT : string := "/tmp/sandbox-driver".
Definition RUNTIME_DIRECTORY : string := "/tmp/sandbox-driver/runtime".
Definition CREATE_TIMEOUT : Z := seconds 600.
Definition DOCKERFILE_CREATE_TIMEOUT : Z := seconds 1800.
Definition CREATE_POLL : Z := seconds 2.
Definition CLEANUP_TIMEOUT : Z := seconds 10.
Definition FAILED_CREATE_CLEANUP_BUDGET : Z := seconds 300.
Definition TRANSITION_BUDGET : Z := seconds 120.
Definition TRANSITION_POLL : Z := seconds 1.

(** ** What the SDK hands over *)

(** A finite float is [m * 2 ^ e]. *)
Inductive f64 := Finite (m e : Z) | NotFinite.

Inductive DsState :=
  | DsCreating | DsRestoring | DsDestroyed | DsDestroying | DsStarted | DsStopped | DsStarting | DsStopping
  | DsError | DsBuildFailed | DsPendingBuild | DsBuildingSnapshot | DsUnknown | DsPullingSnapshot
  | DsArchived | DsArchiving | DsResizing | DsSnapshotting | DsForking | DsPausing | DsPaused | DsResuming
  | DsUnknownDefaultOpenApi.

#[export] Instance DsState_eq_dec : EqDecision DsState.
Proof. solve_decision. Defined.

Inductive DsClass := CONTAINER | LINUX_VM | ANDROID | WINDOWS | ClassUnknownDefaultOpenApi.

#[export] Instance DsClass_eq_dec : EqDecision DsClass.
Proof. solve_decision. Defined.

Record Sandbox := mkSandbox {
  sb_id : string;
  sb_name : string;
  sb_state : option DsState;
  sb_error_reason : option string;
  sb_class : option DsClass;
  sb_target : string;
  sb_labels : gmap string string;
  sb_snapshot : option string;
  sb_block_all : bool;
  sb_allow_list : option string;
  sb_cpu : f64;
  sb_memory : f64;
  sb_disk : f64;
  sb_gpu : f64;
}.

Record SandboxVolume := mkSandboxVolume { vm_id : string; vm_path : string; vm_subpath : option string }.

(** [SandboxBaseParams], and the snapshot of [CreateParams::Snapshot]. *)
Record BaseParams := mkBaseParams {
  bp_name : option string;
  bp_user : option string;
  bp_env_vars : option (gmap string string);
  bp_labels : option (gmap string string);
  bp_public : option bool;
  bp_target : option string;
  auto_stop_interval : option Z;
  auto_pause_interval : option Z;
  auto_archive_interval : option Z;
  auto_delete_interval : option Z;
  ttl_minutes : option Z;
  bp_volumes : option (list SandboxVolume);
  network_block_all : option bool;
  network_allow_list : option (list string);
  domain_allow_list : option (list string);
  outbound_proxy_url : option string;
  bp_ephemeral : option bool;
}.

Record SnapshotParams := mkSnapshotParams { base : BaseParams; sp_snapshot : string }.

Record NetworkSettings := mkNetworkSettings {
  ns_block_all : option bool;
  ns_allow_list : option string;
  ns_domain_list : option string;
}.

(** The intervals a sandbox has, in minutes. *)
Inductive Interval := AutoStop | AutoPause | AutoArchive | AutoDelete | Ttl.

#[export] Instance Interval_eq_dec : EqDecision Interval.
Proof. solve_decision. Defined.

Inductive ApiSnapshotState :=
  | SnBuilding | SnPending | SnPulling | SnSnapshotting | SnActive | SnInactive | SnError | SnBuildFailed
  | SnRemoving | SnUnknownDefaultOpenApi.

Record SnapshotDto := mkSnapshotDto {
  sn_id : string;
  sn_name : string;
  sn_state : ApiSnapshotState;
  sn_class : option DsClass;
  sn_regions : option (list string);
  sn_error_reason : option string;
  sn_cpu : f64;
  sn_memory : f64;
  sn_disk : f64;
  sn_gpu : f64;
  sn_size : option f64;
}.

(** The count of pages is a whole number. *)
Record SnapshotPage := mkSnapshotPage { page_items : list SnapshotDto; total_pages : Z }.

Record SdkResources := mkSdkResources { sdk_cpu : option Z; sdk_gpu : option Z; sdk_memory : option Z; sdk_disk : option Z }.

Inductive ImageSource := ImageName (reference : string) | ImageCustom (dockerfile : string).

Record CreateSnapshotParams := mkCreateSnapshot {
  cs_name : string;
  cs_image : ImageSource;
  cs_region_id : option string;
  cs_class : option DsClass;
  cs_resources : option SdkResources;
}.

Inductive ApiVolumeState := VoCreating | VoPendingCreate | VoReady | VoDeleting | VoPendingDelete | VoDeleted | VoError | VoUnknown.

Record VolumeDto := mkVolumeDto { vo_id : string; vo_name : string; vo_state : ApiVolumeState; vo_error_reason : option string }.

Record CurrentApiKey := mkCurrentKey { key_name : string; key_permissions : list string; key_organization : option string }.

(** Docker inside of a sandbox, from [sandbox-driver-daytona-config]. *)
Inductive DockerExecutionTarget := TargetContainer | TargetVirtualMachine.

#[export] Instance DockerExecutionTarget_eq_dec : EqDecision DockerExecutionTarget.
Proof. solve_decision. Defined.

Record NestedDockerConfig := mkNestedConfig {
  nested_image : string;
  nested_target : DockerExecutionTarget;
  nested_user : option string;
  nested_options : DockerProviderConfig;
}.

(** ** Errors *)

(** An error of the SDK: with the status that [status_code] gives, and its text. *)
Inductive DaytonaError :=
  | NotFoundErr (status : option Z) (text : string)
  | RateLimitErr (headers : list (string * string)) (text : string)
  | ApiErr (status : Z) (message : string)
  | TimeoutErr (status : option Z) (text : string)
  | OtherErr (status : option Z) (text : string).

Definition error_text (e : DaytonaError) : string :=
  match e with
  | NotFoundErr _ t => t | RateLimitErr _ t => t | ApiErr _ t => t | TimeoutErr _ t => t | OtherErr _ t => t
  end.

Definition status_code (e : DaytonaError) : option Z :=
  match e with
  | NotFoundErr s _ => s | RateLimitErr _ _ => None | ApiErr s _ => Some s | TimeoutErr s _ => s | OtherErr s _ => s
  end.

Definition is_not_found (e : DaytonaError) : bool := match e with NotFoundErr _ _ => true | _ => false end.

(** No character outside ASCII has a letter of the text as its lower case, so lowering ASCII
    letters finds the same. *)
Definition is_state_change_in_progress (e : DaytonaError) : bool :=
  match e with
  | ApiErr status message => ((status =? 400) || (status =? 409)) && contains "state change in progress" (to_ascii_lowercase message)
  | _ => false
  end.

Definition with_source (context : string) (e : DaytonaError) : ProviderError :=
  mkProviderError daytona_kind None context false None [error_text e].

Definition daytona_error (context : string) (e : DaytonaError) : Error :=
  let is_retry_after (h : string * string) := String.eqb (to_ascii_lowercase (fst h)) "retry-after" in
  match e with
  | RateLimitErr headers _ => RateLimited (seconds <$> (List.find is_retry_after headers ≫= fun h => parse_uint u64_bound (snd h)))
  | _ =>
      if match e with ApiErr s _ => (s =? 401) || (s =? 403) | _ => false end
      then Auth (mkAuthError daytona_kind context [error_text e])
      else
        let provider := with_source context e in
        match status_code e, e with
        | Some s, _ => Provider (mkProviderError daytona_kind (Some (print_uint s)) context (500 <=? s) None [error_text e])
        | None, TimeoutErr _ _ => Provider (mkProviderError daytona_kind (Some "timeout") context false None [error_text e])
        | None, _ => Provider provider
        end
  end.

Definition fetch_error (resource : ResourceKind) (id context : string) (e : DaytonaError) : Error :=
  if is_not_found e then NotFound resource id else daytona_error context e.

(** ** Requests *)

(** [NestedStopped], [NestedReady] and [NestedCreate] are what the handle asks of its own
    nested Docker daemon ([nested/mod.rs]), which works inside the sandbox. *)
Inductive Request :=
  | Create (params : SnapshotParams)
  | Get (id : string)
  | Delete (id : string)
  | Start (id : string)
  | Stop (id : string)
  | Archive (id : string)
  | Pause (id : string) (budget : Z)
  | Fork (id : string) (name : option string) (budget : Z)
  | Recover (id : string)
  | SetLabels (id : string) (labels : gmap string string)
  | SetInterval (id : string) (interval : Interval) (minutes : Z)
  | UpdateNetworkSettings (id : string) (settings : NetworkSettings)
  | GetWorkingDir (id : string)
  | ConnectFs (id : string)
  | CreateFolder (id path mode : string)
  | SetFilePermissions (id path mode : string)
  | ListAll (labels : gmap string string)
  | ListOne
  | CurrentKey
  | ListSnapshots (page : Z)
  | GetSnapshot (id : string)
  | CreateSnapshot (params : CreateSnapshotParams)
  | SnapshotSandbox (id name : string) (include_memory : bool)
  | ActivateSnapshot (id : string)
  | DeactivateSnapshot (id : string)
  | DeleteSnapshot (id : string)
  | CreateVolume (name : string)
  | GetVolume (id : string)
  | ListVolumes
  | DeleteVolume (id : string)
  | NestedStopped (id : string)
  | NestedReady (id : string)
  | NestedCreate (id : string) (config : NestedDockerConfig) (env : gmap string string)
  | Now
  | Sleep (ns : Z).

Definition Answer (c : Request) : Type :=
  match c with
  | Create _ => Sandbox
  | Get _ => Sandbox
  | Fork _ _ _ => Sandbox
  | GetWorkingDir _ => string
  | ListAll _ => list Sandbox
  | CurrentKey => option CurrentApiKey
  | ListSnapshots _ => SnapshotPage
  | GetSnapshot _ => SnapshotDto
  | CreateSnapshot _ => SnapshotDto
  | CreateVolume _ => VolumeDto
  | GetVolume _ => VolumeDto
  | ListVolumes => list VolumeDto
  | NestedReady _ => result unit Error
  | NestedCreate _ _ _ => result unit Error
  | Now => Z
  | _ => unit
  end.

(** ** Programs *)

Inductive Prog (A : Type) :=
  | Return (r : result A Error)
  | Do (c : Request) (k : result (Answer c) DaytonaError -> Prog A)
  | DoBy (deadline : Z) (c : Request) (k : option (result (Answer c) DaytonaError) -> Prog A).
Arguments Return {A} r.
Arguments Do {A} c k.
Arguments DoBy {A} deadline c k.

Definition pret {A} (a : A) : Prog A := Return (Ok a).
Definition pthrow {A} (e : Error) : Prog A := Return (Err e).

(** The program that goes on from the other's result, error or not. *)
Fixpoint pmatch {A B} (m : Prog A) (k : result A Error -> Prog B) : Prog B :=
  match m with
  | Return r => k r
  | Do c h => Do c (fun r => pmatch (h r) k)
  | DoBy t c h => DoBy t c (fun o => pmatch (h o) k)
  end.

Definition pbind {A B} (m : Prog A) (k : A -> Prog B) : Prog B :=
  pmatch m (fun r => match r with Ok a => k a | Err e => pthrow e end).

Notation "'let*' x ':=' m 'in' k" := (pbind m (fun x => k))
  (at level 10, x pattern, m at level 100, k at level 200) : driver_scope.
Notation "'seq*' m 'in' k" := (pbind m (fun _ => k))
  (at level 10, m at level 100, k at level 200) : driver_scope.

(** A call whose failure is the provider's error with that context. *)
Definition call (context : string) (c : Request) : Prog (Answer c) :=
  Do c (fun r => match r with Ok a => pret a | Err e => pthrow (daytona_error context e) end).

(** The clock, and its sleep, do not fail. *)
Definition now : Prog Z := Do Now (fun r => match r with Ok t => pret t | Err _ => pret 0 end).
Definition sleep (ns : Z) : Prog unit := Do (Sleep ns) (fun _ => pret tt).

(** A [loop] whose turns end it with a value or go on; [out] stands for what would follow
    the last turn the fuel allows. *)
Fixpoint poll {S A} (fuel : nat) (out : Error) (turn : S -> Prog (A + S)) (s : S) : Prog A :=
  match fuel with
  | O => pthrow out
  | S fuel => let* x := turn s in match x with inl a => pret a | inr s => poll fuel out turn s end
  end.

Definition out_of_fuel : Error := Io "out of fuel" [].

(** The turns a loop may have that sleeps [step] in each until a budget is spent. *)
Definition turns (budget step : Z) : nat := Z.to_nat (budget / step + 2).

(** A turn ends the loop, or has it go on. *)
Definition stops {S A} (a : A) : Prog (A + S) := pret (inl a).
Definition goes_on {S A} (s : S) : Prog (A + S) := pret (inr s).

(** The program dropped at a deadline: what it returned, if it did. *)
Fixpoint by_deadline {A} (t : Z) (m : Prog A) : Prog (option (result A Error)) :=
  match m with
  | Return r => pret (Some r)
  | Do c k => DoBy t c (fun o => match o with Some r => by_deadline t (k r) | None => pret None end)
  | DoBy u c k =>
      DoBy (Z.min t u) c (fun o => match o with
        | Some r => by_deadline t (k (Some r))
        | None => if u <? t then by_deadline t (k None) else pret None
        end)
  end.

(** [time::timeout], counted from its call. *)
Definition within {A} (budget : Z) (m : Prog A) : Prog (option (result A Error)) :=
  let* t := now in by_deadline (t + budget) m.

(** ** What the service holds *)

Record Box := mkBox { sdk : Sandbox; intervals : Interval -> Z }.

Record Plane := mkPlane { boxes : gmap string Box; clock : Z }.

Definition put (id : string) (b : Box) (d : Plane) : Plane := mkPlane (<[id := b]> (boxes d)) (clock d).

(** The same, but for the time. *)
Definition later (d d' : Plane) : Prop := boxes d' = boxes d /\ clock d <= clock d'.

Definition with_state (state : option DsState) (reason : option string) (s : Sandbox) : Sandbox :=
  mkSandbox (sb_id s) (sb_name s) state reason (sb_class s) (sb_target s) (sb_labels s) (sb_snapshot s)
    (sb_block_all s) (sb_allow_list s) (sb_cpu s) (sb_memory s) (sb_disk s) (sb_gpu s).
Definition with_labels (labels : gmap string string) (s : Sandbox) : Sandbox :=
  mkSandbox (sb_id s) (sb_name s) (sb_state s) (sb_error_reason s) (sb_class s) (sb_target s) labels (sb_snapshot s)
    (sb_block_all s) (sb_allow_list s) (sb_cpu s) (sb_memory s) (sb_disk s) (sb_gpu s).

Definition set_sdk (s : Sandbox) (b : Box) : Box := mkBox s (intervals b).
Definition set_interval (i : Interval) (n : Z) (b : Box) : Box :=
  mkBox (sdk b) (fun j => if decide (i = j) then n else intervals b j).

Definition box_state (b : Box) : option DsState := sb_state (sdk b).

(** Gone: the service does not have the sandbox, or has destroyed it. *)
Definition gone (id : string) (d : Plane) : Prop :=
  forall b, boxes d !! id = Some b -> box_state b = Some DsDestroyed.

(** Between two requests time passes and sandboxes change state or go; those that others
    make are not counted. *)
Definition drift (d d' : Plane) : Prop :=
  clock d <= clock d' /\
  forall id, match boxes d !! id with
             | Some b => boxes d' !! id = None \/ exists st why, boxes d' !! id = Some (set_sdk (with_state st why (sdk b)) b)
             | None => boxes d' !! id = None
             end.

(** A sandbox that is named, and what becomes of it. *)
Definition updates (id : string) (d d' : Plane) (f : Box -> Box -> Prop) : Prop :=
  exists b b', boxes d !! id = Some b /\ f b b' /\ later (put id b' d) d'.

(** A sandbox whose state a request has changed to one of these, or that is gone for it. *)
Definition moves (id : string) (states : list DsState) (d d' : Plane) : Prop :=
  updates id d d' (fun b b' => exists st why, st ∈ states /\ b' = set_sdk (with_state (Some st) why (sdk b)) b).

(** At most one of the two idle timers is on. *)
Definition one_idle_timer (b : Box) : Prop := intervals b AutoStop = 0 \/ intervals b AutoPause = 0.

(** What a request does when it does what it is for. *)
Definition effect (c : Request) : Plane -> Plane -> Answer c -> Prop :=
  match c with
  | Create p => fun d d' s =>
      boxes d !! sb_id s = None /\
      exists b, later (put (sb_id s) b d) d' /\ sb_id (sdk b) = sb_id s /\
        sb_labels (sdk b) = default ∅ (bp_labels (base p)) /\ one_idle_timer b
  | Get id => fun d d' s => later d d' /\ exists b, boxes d !! id = Some b /\ s = sdk b /\ sb_id s = id
  | Delete id => fun d d' _ =>
      moves id [DsDestroying; DsDestroyed] d d' \/ (is_Some (boxes d !! id) /\ later (mkPlane (delete id (boxes d)) (clock d)) d')
  | Start id => fun d d' _ => moves id [DsRestoring; DsStarting; DsResuming; DsStarted] d d'
  | Stop id => fun d d' _ => moves id [DsStopping; DsStopped; DsDestroying; DsDestroyed] d d'
  | Archive id => fun d d' _ => moves id [DsArchiving; DsArchived] d d'
  | Pause id _ => fun d d' _ => updates id d d' (fun b b' => exists st why, st <> Some DsPausing /\ b' = set_sdk (with_state st why (sdk b)) b)
  | Fork id _ _ => fun d d' s =>
      boxes d !! sb_id s = None /\ exists p b, boxes d !! id = Some p /\ later (put (sb_id s) b d) d' /\ sdk b = s
  | Recover id => fun d d' _ => moves id [DsRestoring; DsStarting; DsStarted; DsStopped] d d'
  | SetLabels id l => fun d d' _ => updates id d d' (fun b b' => b' = set_sdk (with_labels l (sdk b)) b)
  | SetInterval id i n => fun d d' _ =>
      updates id d d' (fun b b' => b' = set_interval i n b /\ one_idle_timer b')
  | UpdateNetworkSettings id _ => fun d d' _ =>
      exists b b', boxes d !! id = Some b /\ sb_labels (sdk b') = sb_labels (sdk b) /\ later (put id b' d) d'
  | ListAll l => fun d d' items =>
      later d d' /\ forall s, s ∈ items -> exists b, boxes d !! sb_id s = Some b /\ sb_labels s = sb_labels (sdk b) /\ l ⊆ sb_labels s
  | Now => fun d d' t => later d d' /\ t = clock d'
  | Sleep ns => fun d d' _ => later d d' /\ clock d + ns <= clock d'
  | _ => fun d d' _ => later d d'
  end.

(** What a failure says of the service: not found is gone; a change in progress, and a
    refusal of the timers, is nothing done. *)
Definition refused (c : Request) (d d' : Plane) (e : DaytonaError) : Prop :=
  (is_state_change_in_progress e = true -> later d d') /\
  (is_not_found e = true -> later d d' /\
    match c with Get id | Delete id | Start id | Stop id => gone id d | _ => True end) /\
  match c with Now | Sleep _ | NestedStopped _ | NestedReady _ | NestedCreate _ _ _ => False | _ => True end.

Definition answers (c : Request) (d d' : Plane) (r : result (Answer c) DaytonaError) : Prop :=
  exists d1, drift d d1 /\
    match r with
    | Ok a => effect c d1 d' a
    | Err e => (later d1 d' \/ exists a, effect c d1 d' a) /\ refused c d1 d' e
    end.

(** Under a deadline: nothing is answered that is asked after it, and when it passes the
    request may have had its effect. *)
Definition answers_by (t : Z) (c : Request) (d d' : Plane) (o : option (result (Answer c) DaytonaError)) : Prop :=
  match o with
  | Some r => clock d < t /\ answers c d d' r
  | None => t <= clock d' /\ exists d1, drift d d1 /\ (later d1 d' \/ exists a, effect c d1 d' a)
  end.

(** ** A run *)

Class Service (W : Type) := {
  ask : forall c : Request, W -> W * result (Answer c) DaytonaError;
  ask_by : forall (t : Z) (c : Request), W -> W * option (result (Answer c) DaytonaError);
  view : W -> Plane;
}.

Class Lawful (W : Type) `{Service W} := {
  law_ask c w : let '(w', r) := ask c w in answers c (view w) (view w') r;
  law_ask_by t c w : let '(w', o) := ask_by t c w in answers_by t c (view w) (view w') o;
}.

(** A request as the service saw it, with its answer if that came in time. *)
Record Sent := mkSent { sent : Request; outcome : option (result (Answer sent) DaytonaError) }.

Section Run.
Context {W : Type} `{Service W}.

Fixpoint run {A} (m : Prog A) (w : W) : W * result A Error :=
  match m with
  | Return r => (w, r)
  | Do c k => let '(w, r) := ask c w in run (k r) w
  | DoBy t c k => let '(w, o) := ask_by t c w in run (k o) w
  end.

(** The requests of a run, in order. *)
Fixpoint trace {A} (m : Prog A) (w : W) : list Sent :=
  match m with
  | Return _ => []
  | Do c k => let '(w, r) := ask c w in mkSent c (Some r) :: trace (k r) w
  | DoBy t c k => let '(w, o) := ask_by t c w in mkSent c o :: trace (k o) w
  end.

Lemma run_pmatch {A B} (m : Prog A) (k : result A Error -> Prog B) w :
  run (pmatch m k) w = let '(w, r) := run m w in run (k r) w.
Proof. revert w. induction m as [r|c h IH|t c h IH]; intros w; cbn [pmatch run]; [done|destruct (ask c w)|destruct (ask_by t c w)]; apply IH. Qed.

Lemma trace_match {A B} (m : Prog A) (k : result A Error -> Prog B) w :
  trace (pmatch m k) w = trace m w ++ let '(w, r) := run m w in trace (k r) w.
Proof.
  revert w. induction m as [r|c h IH|t c h IH]; intros w; cbn [pmatch run trace]; [done|destruct (ask c w)|destruct (ask_by t c w)];
    rewrite IH; by destruct (run _ _).
Qed.

Lemma trace_bind {A B} (m : Prog A) (k : A -> Prog B) w :
  trace (pbind m k) w = trace m w ++ match run m w with (w', Ok a) => trace (k a) w' | _ => [] end.
Proof. unfold pbind. rewrite trace_match. by destruct (run m w) as [w' [a|e]]. Qed.

Lemma run_pbind_ok {A B} (m : Prog A) (k : A -> Prog B) w w' b : run (pbind m k) w = (w', Ok b) ->
  exists w1 a, run m w = (w1, Ok a) /\ run (k a) w1 = (w', Ok b).
Proof. unfold pbind. rewrite run_pmatch. destruct (run m w) as [w1 [a|e]]; [eauto|done]. Qed.

Lemma run_pbind {A B} (m : Prog A) (k : A -> Prog B) w :
  run (pbind m k) w = let '(w, r) := run m w in match r with Ok a => run (k a) w | Err e => (w, Err e) end.
Proof. unfold pbind. rewrite run_pmatch. by destruct (run m w) as [w' [a|e]]. Qed.
End Run.

(** ** Time passes *)

Lemma drift_later d d' : drift d d' -> clock d <= clock d'.
Proof. by intros [? _]. Qed.

Lemma updates_later id d d' f : updates id d d' f -> clock d <= clock d'.
Proof. by intros (b & b' & _ & _ & _ & ?). Qed.

Lemma effect_later c d d' a : effect c d d' a -> clock d <= clock d'.
Proof.
  destruct c; cbn; try (by intros [_ ?]); try (by apply updates_later); try (by intros [[_ ?] _]).
  - by intros (_ & b & (_ & ?) & _).
  - by intros [?%updates_later|[_ [_ ?]]].
  - by intros (_ & p & b & _ & (_ & ?) & _).
Qed.

Lemma answers_later c d d' r : answers c d d' r -> clock d <= clock d'.
Proof.
  intros (d1 & Hd%drift_later & Ha). destruct r as [a|e]; [apply effect_later in Ha; lia|].
  destruct Ha as [[[_ Hl]|[a Ha%effect_later]] _]; lia.
Qed.

Lemma answers_by_later t c d d' o : answers_by t c d d' o -> clock d <= clock d'.
Proof.
  destruct o as [r|]; cbn; [by intros [_ ?%answers_later]|].
  intros (_ & d1 & Hd%drift_later & [[_ Hl]|[a Ha%effect_later]]); lia.
Qed.

Section Clocks.
Context {W : Type} `{Lawful W}.

Lemma run_later {A} (m : Prog A) w w' r : run m w = (w', r) -> clock (view w) <= clock (view w').
Proof.
  revert w. induction m as [s|c k IH|t c k IH]; intros w; cbn [run]; [by intros [= <- _]| |].
  - pose proof (law_ask c w) as Hl. destruct (ask c w) as [w1 a]. apply answers_later in Hl. intros Hr%IH. lia.
  - pose proof (law_ask_by t c w) as Hl. destruct (ask_by t c w) as [w1 a]. apply answers_by_later in Hl. intros Hr%IH. lia.
Qed.

Lemma run_asks_now w : exists w', run now w = (w', Ok (clock (view w'))) /\ clock (view w) <= clock (view w').
Proof.
  unfold now. cbn [run]. pose proof (law_ask Now w) as Hl. destruct (ask Now w) as [w1 [t|e]].
  - exists w1. pose proof (answers_later _ _ _ _ Hl). destruct Hl as (d1 & _ & _ & ->). done.
  - by destruct Hl as (d1 & _ & _ & _ & _ & []).
Qed.

Lemma run_sleeps ns w : exists w', run (sleep ns) w = (w', Ok tt) /\ clock (view w) + ns <= clock (view w').
Proof.
  unfold sleep. cbn [run]. pose proof (law_ask (Sleep ns) w) as Hl. destruct (ask (Sleep ns) w) as [w1 [t|e]]; exists w1.
  - destruct Hl as (d1 & Hd%drift_later & _ & Hs). split; [done|]. lia.
  - by destruct Hl as (d1 & _ & _ & _ & _ & []).
Qed.
End Clocks.
