(* ===== verification/DaytonaSim.v ===== *)
(** * A service of Daytona that keeps its law

    An executable service with faults to inject, by which the theorems about [Daytona] are
    tried on concrete runs: the law they assume can be kept. *)

From S2P Require Import Prelude Text Errors DaytonaApi.

#[local] Open Scope string_scope.
#[local] Open Scope list_scope.
#[local] Open Scope Z_scope.

(** What happens to a request: it is answered, fails before or after its effect, is refused
    for a change in progress, never answered, or comes after all sandboxes changed their
    state. *)
Inductive Fault := Fine | Broken | LostAnswer | Busy | Stalled | Becomes (state : DsState).

Record Sim := mkSim { plane : Plane; fresh_ids : list string; sim_snapshots : list SnapshotDto; faults : list Fault }.

Definition set_plane (d : Plane) (s : Sim) : Sim := mkSim d (fresh_ids s) (sim_snapshots s) (faults s).
Definition at_time (t : Z) (s : Sim) : Sim := set_plane (mkPlane (boxes (plane s)) t) s.

Definition absent_err : DaytonaError := NotFoundErr (Some 404) "not found".
Definition broken_err : DaytonaError := OtherErr None "broken".
Definition busy_err : DaytonaError := ApiErr 400 "Sandbox state change in progress".

Definition new_intervals (b : BaseParams) (i : Interval) : Z :=
  match i with
  | AutoStop => default 15 (auto_stop_interval b)
  | AutoPause => if default 15 (auto_stop_interval b) =? 0 then default 0 (auto_pause_interval b) else 0
  | AutoArchive => default 0 (auto_archive_interval b)
  | AutoDelete => default (-1) (auto_delete_interval b)
  | Ttl => default 0 (ttl_minutes b)
  end.

Definition new_box (id : string) (p : SnapshotParams) : Box :=
  mkBox (mkSandbox id (default "" (bp_name (base p))) (Some DsCreating) None (Some CONTAINER) "us" (default ∅ (bp_labels (base p)))
           (Some (sp_snapshot p)) false None (Finite 1 0) (Finite 1 0) (Finite 3 0) (Finite 0 0))
    (new_intervals (base p)).

Definition change (id : string) (f : Box -> Box) (s : Sim) : result (Sim * unit) DaytonaError :=
  match boxes (plane s) !! id with Some b => Ok (set_plane (put id (f b) (plane s)) s, tt) | None => Err absent_err end.

Definition into (state : DsState) (b : Box) : Box := set_sdk (with_state (Some state) (sb_error_reason (sdk b)) (sdk b)) b.

Definition all_into (state : DsState) (s : Sim) : Sim := set_plane (mkPlane (into state <$> boxes (plane s)) (clock (plane s))) s.

Definition sim_idle (b : Box) : bool := (intervals b AutoStop =? 0) || (intervals b AutoPause =? 0).

Definition perform (c : Request) (s : Sim) : result (Sim * Answer c) DaytonaError :=
  match c with
  | Create p =>
      match fresh_ids s with
      | id :: ids =>
          match boxes (plane s) !! id with
          | Some _ => Err broken_err
          | None => Ok (mkSim (put id (new_box id p) (plane s)) ids (sim_snapshots s) (faults s), sdk (new_box id p))
          end
      | [] => Err broken_err
      end
  | Get id =>
      match boxes (plane s) !! id with
      | Some b => if String.eqb (sb_id (sdk b)) id then Ok (s, sdk b) else Err broken_err
      | None => Err absent_err
      end
  | Delete id => change id (into DsDestroying) s
  | Start id => change id (into DsStarting) s
  | Stop id => change id (into DsStopped) s
  | Archive id => change id (into DsArchived) s
  | Pause id _ => change id (into DsPaused) s
  | Recover id => change id (into DsStarted) s
  | Fork _ _ _ => Err broken_err
  | SetLabels id l => change id (fun b => set_sdk (with_labels l (sdk b)) b) s
  | SetInterval id i n =>
      match boxes (plane s) !! id with
      | Some b => if sim_idle (set_interval i n b) then change id (set_interval i n) s
                  else Err (ApiErr 400 "auto-stop and auto-pause are mutually exclusive")
      | None => Err absent_err
      end
  | UpdateNetworkSettings id _ => change id (fun b => b) s
  | GetWorkingDir _ => Ok (s, "/home/work")
  | ListAll _ => Ok (s, [])
  | CurrentKey => Ok (s, None)
  | ListSnapshots _ => Ok (s, mkSnapshotPage (sim_snapshots s) 1)
  | GetSnapshot id => match List.find (fun d => String.eqb (sn_id d) id) (sim_snapshots s) with Some d => Ok (s, d) | None => Err absent_err end
  | CreateSnapshot _ => Err broken_err
  | CreateVolume _ => Err broken_err
  | GetVolume _ => Err absent_err
  | ListVolumes => Ok (s, [])
  | NestedReady _ => Ok (s, Ok tt)
  | NestedCreate _ _ _ => Ok (s, Ok tt)
  | Now => Ok (s, clock (plane s))
  | Sleep ns => Ok (at_time (clock (plane s) + Z.max 0 ns) s, tt)
  | _ => Ok (s, tt)
  end.

Definition sure (c : Request) : bool :=
  match c with Now | Sleep _ | NestedStopped _ | NestedReady _ | NestedCreate _ _ _ => true | _ => false end.

Definition settle (c : Request) (s : Sim) : Sim * result (Answer c) DaytonaError :=
  match perform c s with Ok (s, a) => (s, Ok a) | Err e => (s, Err e) end.

Definition next_fault (c : Request) (s : Sim) : Fault * Sim :=
  if sure c then (Fine, s)
  else match faults s with [] => (Fine, s) | f :: fs => (f, mkSim (plane s) (fresh_ids s) (sim_snapshots s) fs) end.

Definition sim (c : Request) (s : Sim) : Sim * result (Answer c) DaytonaError :=
  let '(f, s) := next_fault c s in
  match f with
  | Fine | Stalled => settle c s
  | Broken => (s, Err broken_err)
  | Busy => (s, Err busy_err)
  | LostAnswer => match perform c s with Ok (s, _) => (s, Err broken_err) | Err e => (s, Err e) end
  | Becomes st => settle c (all_into st s)
  end.

Definition sleeps_past (t : Z) (c : Request) (s : Sim) : bool := match c with Sleep ns => t <=? clock (plane s) + Z.max 0 ns | _ => false end.

Definition sim_by (t : Z) (c : Request) (s : Sim) : Sim * option (result (Answer c) DaytonaError) :=
  if t <=? clock (plane s) then (s, None)
  else if sleeps_past t c s || match fst (next_fault c s) with Stalled => true | _ => false end
  then (at_time t (snd (next_fault c s)), None)
  else let '(s, r) := sim c s in (s, Some r).

#[export] Instance sim_service : Service Sim := {| ask := sim; ask_by := sim_by; view := plane |}.

(** ** Its law *)

Lemma drift_same d : drift d d.
Proof.
  split; [done|]. intros id. destruct (boxes d !! id) as [b|]; [|done]. right. exists (box_state b), (sb_error_reason (sdk b)).
  by destruct b as [[]].
Qed.

Lemma drift_into st s : drift (plane s) (plane (all_into st s)).
Proof.
  split; [done|]. intros id. cbn. rewrite lookup_fmap. destruct (boxes (plane s) !! id) as [b|]; cbn; [|done].
  right. by exists (Some st), (sb_error_reason (sdk b)).
Qed.

Lemma change_ok id f s s' u : change id f s = Ok (s', u) -> updates id (plane s) (plane s') (fun b b' => b' = f b).
Proof. unfold change. destruct (boxes (plane s) !! id) as [b|] eqn:E; [|done]. intros [= <- _]. exists b, (f b). by split_and!. Qed.

Lemma change_moves id st states s s' u : change id (into st) s = Ok (s', u) -> st ∈ states -> moves id states (plane s) (plane s').
Proof.
  intros (b & b' & Hb & -> & Hp)%change_ok Hst. exists b, (into st b). split_and!; [done| |apply Hp..]. exists st, (sb_error_reason (sdk b)). by split.
Qed.

Lemma change_absent id f s e : change id f s = Err e -> e = absent_err /\ boxes (plane s) !! id = None.
Proof. unfold change. destruct (boxes (plane s) !! id); [done|]. by intros [= <-]. Qed.

Lemma absent_gone id d : boxes d !! id = None -> gone id d.
Proof. intros Hn b. by rewrite Hn. Qed.

(** A failure leaves everything, and may be trusted. *)
Definition fails (c : Request) (s : Sim) (e : DaytonaError) : Prop := refused c (plane s) (plane s) e.

Lemma broken_fails c s : sure c = false -> fails c s broken_err.
Proof. intros Hc. split_and!; [done..|]. by destruct c. Qed.

Lemma busy_fails c s : sure c = false -> fails c s busy_err.
Proof. intros Hc. split_and!; [done..|]. by destruct c. Qed.

Lemma absent_fails c s : sure c = false ->
  (match c with Get id | Delete id | Start id | Stop id => boxes (plane s) !! id = None | _ => True end) -> fails c s absent_err.
Proof. intros Hc Hn. split_and!; [done| |by destruct c]. intros _. split; [done|]. destruct c; try done; by apply absent_gone. Qed.

Lemma idle_ok b : sim_idle b = true -> one_idle_timer b.
Proof. unfold sim_idle, one_idle_timer. intros [?%Z.eqb_eq|?%Z.eqb_eq]%orb_true_iff; auto. Qed.

Lemma change_result c id f s : sure c = false ->
  (match c with Get i | Delete i | Start i | Stop i => i = id | _ => True end) ->
  forall e, change id f s = Err e -> fails c s e.
Proof. intros Hc Hi e [-> Hn]%change_absent. apply absent_fails; [done|]. destruct c; try done; by subst. Qed.

Lemma performs_create p s :
  match perform (Create p) s with Ok (s', a) => effect (Create p) (plane s) (plane s') a | Err e => fails (Create p) s e end.
Proof.
  cbn [perform]. destruct (fresh_ids s) as [|id ids]; [by apply broken_fails|]. destruct (boxes (plane s) !! id) eqn:Eb; [by apply broken_fails|].
  split; [done|]. exists (new_box id p). split_and!; [done..|]. unfold one_idle_timer. cbn.
  destruct (default 15 (auto_stop_interval (base p)) =? 0) eqn:E; [left; by apply Z.eqb_eq|by right].
Qed.

Lemma performs_interval id i n s :
  match perform (SetInterval id i n) s with
  | Ok (s', a) => effect (SetInterval id i n) (plane s) (plane s') a
  | Err e => fails (SetInterval id i n) s e
  end.
Proof.
  cbn [perform]. destruct (boxes (plane s) !! id) as [b|] eqn:Eb; [|by apply absent_fails].
  destruct (sim_idle (set_interval i n b)) eqn:Ei; [|split_and!; by cbn].
  unfold change. rewrite Eb. exists b, (set_interval i n b). pose proof (idle_ok _ Ei). by split_and!.
Qed.

Lemma performs c s :
  match perform c s with Ok (s', a) => effect c (plane s) (plane s') a | Err e => fails c s e end.
Proof.
  destruct c; try exact (performs_create _ _); try exact (performs_interval _ _ _ _); cbn [perform]; try done; try (by apply broken_fails);
    try (destruct (change _ _ s) as [[s' u]|e] eqn:E; [|by eapply change_result; [..|exact E]]).
  - destruct (boxes (plane s) !! id) as [b|] eqn:Eb; [|by apply absent_fails].
    destruct (String.eqb_spec (sb_id (sdk b)) id) as [Hi|]; [|by apply broken_fails]. split; [done|]. by exists b.
  - left. eapply change_moves; [exact E|]. set_solver.
  - eapply change_moves; [exact E|]. set_solver.
  - eapply change_moves; [exact E|]. set_solver.
  - eapply change_moves; [exact E|]. set_solver.
  - apply change_ok in E as (b & b' & Hb & -> & Hp). exists b, (into DsPaused b). split_and!; [done| |apply Hp..].
    by exists (Some DsPaused), (sb_error_reason (sdk b)).
  - eapply change_moves; [exact E|]. set_solver.
  - by apply change_ok in E.
  - apply change_ok in E as (b & b' & Hb & -> & Hp). by exists b, b.
  - split; [done|]. by intros s' ?%elem_of_nil.
  - destruct (List.find _ _); [done|by apply absent_fails].
  - split; [split; [done|cbn; lia]|]. cbn. lia.
Qed.

Lemma refused_faults c s s' e : plane s' = plane s -> fails c s e -> fails c s' e.
Proof. unfold fails. by intros ->. Qed.

(** An answer, from where the service stands or has drifted to. *)
Lemma settled c s d : drift d (plane s) -> let '(s', r) := settle c s in answers c d (plane s') r.
Proof.
  intros Hd. unfold settle. pose proof (performs c s) as Hp. destruct (perform c s) as [[s' a]|e]; exists (plane s); (split; [done|]); [done|].
  split; [by left|done].
Qed.

Lemma next_fault_plane c s : plane (snd (next_fault c s)) = plane s /\ (fst (next_fault c s) = Fine \/ sure c = false).
Proof. unfold next_fault. destruct (sure c); [by split; [|left]|]. destruct (faults s); (split; [done|by right]). Qed.

Lemma sim_ok c s : let '(s', r) := sim c s in answers c (plane s) (plane s') r.
Proof.
  unfold sim. destruct (next_fault_plane c s) as [Hp Hf]. destruct (next_fault c s) as [f s1]. cbn in Hp, Hf. rewrite <- Hp.
  destruct f; try (by apply settled, drift_same); (destruct Hf as [?|Hf]; [done|]).
  - exists (plane s1). split; [apply drift_same|]. split; [by left|by apply broken_fails].
  - pose proof (performs c s1) as Hok. destruct (perform c s1) as [[s2 a]|e]; exists (plane s1); (split; [apply drift_same|]).
    + split; [right; by exists a|]. by apply (broken_fails c s1) in Hf as (H1 & H2 & H3); split_and!.
    + split; [by left|done].
  - exists (plane s1). split; [apply drift_same|]. split; [by left|by apply busy_fails].
  - apply settled, drift_into.
Qed.

Lemma sim_by_ok t c s : let '(s', o) := sim_by t c s in answers_by t c (plane s) (plane s') o.
Proof.
  unfold sim_by. destruct (Z.leb_spec t (clock (plane s))) as [Ht|Ht].
  - split; [done|]. exists (plane s). split; [apply drift_same|by left].
  - destruct (next_fault_plane c s) as [Hp _]. destruct (_ || _).
    + split; [cbn; lia|]. exists (plane s). split; [apply drift_same|]. left. split; cbn; [by rewrite Hp|lia].
    + pose proof (sim_ok c s) as Ha. destruct (sim c s) as [s1 r]. by split.
Qed.

#[export] Instance sim_lawful : Lawful Sim := {| law_ask := sim_ok; law_ask_by := sim_by_ok |}.

(** ** A service to try things on *)

Definition demo_box (id : string) (st : DsState) (labels : gmap string string) : Box :=
  mkBox (mkSandbox id "demo" (Some st) None (Some LINUX_VM) "us" labels (Some "base") false None (Finite 2 0) (Finite 4 0) (Finite 20 0) (Finite 0 0))
    (fun i => match i with AutoStop => 15 | AutoDelete => -1 | _ => 0 end).

Definition demo_sim (st : DsState) (fs : list Fault) : Sim :=
  mkSim (mkPlane {["sb-1" := demo_box "sb-1" st ∅]} 0) ["sb-2"] [] fs.

(** The states of the sandboxes a service holds. *)
Definition demo_states (s : Sim) : list (string * option DsState) := map (fun kv => (fst kv, box_state (snd kv))) (map_to_list (boxes (plane s))).
