(* ===== verification/DaytonaLoops.v ===== *)
(** * Loops over Daytona end, and what they end with

    Shared by the theorems about [Daytona] and [DaytonaSnapshots]: what a program under a
    deadline does, the fuel a polling loop needs, and what holds when one ends. *)

From S2P Require Import Prelude Errors DaytonaApi DaytonaSim.

#[local] Open Scope Z_scope.

Section Loops.
Context {W : Type} `{Lawful W}.

(** ** Under a deadline *)

Lemma by_deadline_ok {A} t (m : Prog A) w : exists w' o, run (by_deadline t m) w = (w', Ok o).
Proof.
  revert w. induction m as [r|c k IH|u c k IH]; intros w; cbn [by_deadline run].
  - by exists w, (Some r).
  - destruct (ask_by t c w) as [w1 [r|]]; [apply IH|by exists w1, None].
  - destruct (ask_by _ c w) as [w1 [r|]]; [apply IH|]. destruct (u <? t); [apply IH|by exists w1, None].
Qed.

Lemma by_deadline_match {A B} t (m : Prog A) (k : result A Error -> Prog B) w :
  run (by_deadline t (pmatch m k)) w =
  match run (by_deadline t m) w with
  | (w', Ok (Some r)) => run (by_deadline t (k r)) w'
  | (w', Ok None) => (w', Ok None)
  | (w', Err e) => (w', Err e)
  end.
Proof.
  revert w. induction m as [r|c h IH|u c h IH]; intros w; cbn [pmatch by_deadline run]; [done| |].
  - destruct (ask_by t c w) as [w1 [r|]]; [apply IH|done].
  - destruct (ask_by _ c w) as [w1 [r|]]; [apply IH|]. destruct (u <? t); [apply IH|done].
Qed.

Lemma run_within {A} budget (m : Prog A) w : exists w0 w' o,
  run now w = (w0, Ok (clock (view w0))) /\ clock (view w) <= clock (view w0) /\
  run (by_deadline (clock (view w0) + budget) m) w0 = (w', Ok o) /\ run (within budget m) w = (w', Ok o).
Proof.
  unfold within. rewrite run_pbind. destruct (run_asks_now w) as (w0 & -> & Hc).
  destruct (by_deadline_ok (clock (view w0) + budget) m w0) as (w' & o & Ho). rewrite Ho. by exists w0, w', o.
Qed.

Lemma by_deadline_trace {A B} t (m : Prog A) (k : result A Error -> Prog B) w :
  trace (by_deadline t (pmatch m k)) w =
  trace (by_deadline t m) w ++ match run (by_deadline t m) w with (w', Ok (Some r)) => trace (by_deadline t (k r)) w' | _ => [] end.
Proof.
  revert w. induction m as [r|c h IH|u c h IH]; intros w; cbn [pmatch by_deadline run trace]; [done| |].
  - destruct (ask_by t c w) as [w1 [r|]]; cbn [trace run pret]; [by rewrite IH|done].
  - destruct (ask_by _ c w) as [w1 [r|]]; [by rewrite IH|]. destruct (u <? t); [by rewrite IH|done].
Qed.

(** ** Fuel *)

(** The turns left before a deadline, when each takes [step]. *)
Definition left (deadline step now : Z) : nat := Z.to_nat ((deadline - now + step - 1) / step).


Lemma left_less deadline step t t' : 0 < step -> t < deadline -> t + step <= t' \/ deadline <= t' ->
  (left deadline step t' < left deadline step t)%nat.
Proof.
  intros Hs Ht Hd. unfold left.
  assert (Hp : 1 <= (deadline - t + step - 1) / step) by (apply Z.div_le_lower_bound; lia).
  assert (Hq : (deadline - t' + step - 1) / step <= (deadline - t + step - 1) / step - 1).
  { destruct Hd as [Hd|Hd].
    - replace ((deadline - t + step - 1) / step - 1) with ((deadline - t + step - 1 + -1 * step) / step) by (rewrite Z.div_add; lia).
      apply Z.div_le_mono; lia.
    - assert ((deadline - t' + step - 1) / step <= 0); [|lia]. apply Z.lt_succ_r, Z.div_lt_upper_bound; lia. }
  lia.
Qed.

Lemma left_mono deadline step t t' : 0 < step -> t <= t' -> (left deadline step t' <= left deadline step t)%nat.
Proof. intros Hs Ht. unfold left. assert ((deadline - t' + step - 1) / step <= (deadline - t + step - 1) / step) by (apply Z.div_le_mono; lia). lia. Qed.

Lemma left_turns deadline budget step t : 0 < step -> 0 <= budget -> deadline <= t + budget -> (left deadline step t < turns budget step)%nat.
Proof.
  intros Hs Hb Ht. unfold left, turns.
  assert (0 <= budget / step) by (apply Z.div_pos; lia).
  assert ((deadline - t + step - 1) / step <= budget / step + 1); [|lia].
  replace (budget / step + 1) with ((budget + 1 * step) / step) by (rewrite Z.div_add; lia).
  apply Z.div_le_mono; lia.
Qed.

(** The check of a budget, and the sleep. *)
Lemma slept {A} budget step (fail : Z -> Error) (k : Prog A) started w w' r :
  run (let* t := now in if budget <=? t - started then pthrow (fail (t - started)) else seq* sleep step in k) w = (w', r) ->
  (exists elapsed, budget <= elapsed /\ r = Err (fail elapsed)) \/
  (exists t w1, clock (view w) <= t /\ t < started + budget /\ t + step <= clock (view w1) /\ run k w1 = (w', r)).
Proof.
  rewrite run_pbind. destruct (run_asks_now w) as (w0 & -> & Hc). destruct (Z.leb_spec budget (clock (view w0) - started)) as [Hb|Hb].
  - intros [= _ <-]. left. eauto.
  - rewrite run_pbind. destruct (run_sleeps step w0) as (w1 & -> & Hs). intros Hr. right. exists (clock (view w0)), w1.
    split_and!; [done|lia|done|done].
Qed.

Section Poll.
Context {S A : Type} (turn : S -> Prog (A + S)) (I : S -> W -> Prop) (rank : W -> nat).

(** The loop ends when every turn that goes on takes some of what is left, and then as
    its last turn did, whatever more fuel there is, for its turns as well. *)
Lemma poll_spec turn' f1 f2 out1 out2 s w :
  (forall s w, I s w -> run (turn' s) w = run (turn s) w) ->
  (forall s w w' s', I s w -> run (turn s) w = (w', Ok (inr s')) -> I s' w' /\ (rank w' < rank w)%nat) ->
  I s w -> (rank w < f1)%nat -> (rank w < f2)%nat ->
  let '(w', r) := run (poll f1 out1 turn s) w in
  run (poll f2 out2 turn' s) w = (w', r) /\
  exists s1 w1, I s1 w1 /\ run (turn s1) w1 = (w', match r with Ok a => Ok (inl a) | Err e => Err e end).
Proof.
  intros Hsame Hturn. revert f2 s w. induction f1 as [|f1 IH]; intros [|f2] s w HI H1 H2; try lia. cbn [poll].
  rewrite !run_pbind, Hsame by done.
  destruct (run (turn s) w) as [w1 [[a|s']|e]] eqn:Et; cbn [run pret].
  2: by destruct (Hturn _ _ _ _ HI Et) as [HI' Hr]; apply IH; [|lia..].
  all: split; [done|]; by exists s, w.
Qed.

Lemma poll_by_spec t f1 f2 out1 out2 s w :
  (forall s w w' s', I s w -> run (by_deadline t (turn s)) w = (w', Ok (Some (Ok (inr s')))) -> I s' w' /\ (rank w' < rank w)%nat) ->
  I s w -> (rank w < f1)%nat -> (rank w < f2)%nat ->
  let '(w', r) := run (by_deadline t (poll f1 out1 turn s)) w in
  run (by_deadline t (poll f2 out2 turn s)) w = (w', r) /\
  exists s1 w1 o, I s1 w1 /\ r = Ok o /\
    run (by_deadline t (turn s1)) w1 = (w', Ok match o with Some (Ok a) => Some (Ok (inl a)) | Some (Err e) => Some (Err e) | None => None end).
Proof.
  intros Hturn. revert f2 s w. induction f1 as [|f1 IH]; intros [|f2] s w HI H1 H2; try lia. cbn [poll]. unfold pbind.
  rewrite !by_deadline_match. destruct (by_deadline_ok t (turn s) w) as (w1 & o & Et). rewrite Et.
  destruct o as [[[a|s']|e]|]; cbn [by_deadline run pret pthrow].
  - split; [done|]. by exists s, w, (Some (Ok a)).
  - destruct (Hturn _ _ _ _ HI Et) as [HI' Hr]. apply IH; [done|lia..].
  - split; [done|]. by exists s, w, (Some (Err e)).
  - split; [done|]. by exists s, w, None.
Qed.
End Poll.

(** ** Time *)

(** How long a request means to take: a sleep, its length. *)
Definition asleep (c : Request) : Z := match c with Sleep ns => Z.max 0 ns | _ => 0 end.

(** A service that answers each request within [d], past a sleep's own length, and drops
    one under a deadline within [d] of it. *)
Definition prompt (d : Z) : Prop :=
  (forall c w, clock (view (fst (ask c w))) <= clock (view w) + asleep c + d) /\
  (forall t c w, clock (view (fst (ask_by t c w))) <= Z.max (clock (view w)) t + d).

(** A program that takes no longer than [d], from anywhere. *)
Definition takes {A} (m : Prog A) (d : Z) : Prop := forall w, clock (view (fst (run m w))) <= clock (view w) + d.

Section Prompt.
Context (d : Z) (quick : prompt d).

Lemma prompt_pos (w : W) : 0 <= d.
Proof.
  destruct quick as [Hq _]. pose proof (Hq Now w) as Hn. destruct (run_asks_now w) as (w1 & E & Hc).
  unfold now in E. cbn [run] in E. destruct (ask Now w) as [w2 [t|e]]; cbn in *; injection E as <- _; lia.
Qed.

Lemma asks_within c (w : W) : clock (view (fst (ask c w))) <= clock (view w) + asleep c + d.
Proof. apply quick. Qed.

Lemma asks_by_within t c (w : W) : clock (view (fst (ask_by t c w))) <= Z.max (clock (view w)) t + d.
Proof. apply quick. Qed.

Lemma now_within (w w' : W) r : run now w = (w', r) -> clock (view w') <= clock (view w) + d.
Proof.
  unfold now. cbn [run]. pose proof (asks_within Now w) as Hn. cbn in Hn. destruct (ask Now w) as [w1 [t|e]]; cbn in *; intros [= <- _]; lia.
Qed.

Lemma sleep_within ns (w w' : W) r : run (sleep ns) w = (w', r) -> clock (view w') <= clock (view w) + Z.max 0 ns + d.
Proof. unfold sleep. cbn [run]. pose proof (asks_within (Sleep ns) w) as Hn. cbn in Hn. destruct (ask (Sleep ns) w). cbn in *. intros [= <- _]. lia. Qed.

(** The check of a budget: a failure at once, or a sleep begun within it. *)
Lemma slept_within budget step (fail : Z -> Error) started (w : W) : 0 <= step ->
  let '(w', r) := run (let* t := now in if budget <=? t - started then pthrow (fail (t - started)) else sleep step) w in
  match r with
  | Ok _ => clock (view w') <= started + budget + step + d
  | Err _ => clock (view w') <= clock (view w) + d
  end.
Proof.
  intros Hs. rewrite run_pbind. destruct (run_asks_now w) as (w0 & E & _). pose proof (now_within _ _ _ E) as Hn. rewrite E.
  destruct (Z.leb_spec budget (clock (view w0) - started)); [exact Hn|].
  destruct (run_sleeps step w0) as (w1 & E1 & _). pose proof (sleep_within _ _ _ _ E1) as Hs1. rewrite E1. lia.
Qed.

(** A loop whose turns, begun by [T], go on by [T] or end it by [E]. *)
Lemma poll_within {S A} (turn : S -> Prog (A + S)) fuel out T E s w : T <= E ->
  (forall s w, clock (view w) <= T ->
     let '(w', r) := run (turn s) w in clock (view w') <= match r with Ok (inr _) => T | _ => E end) ->
  clock (view w) <= T -> clock (view (fst (run (poll fuel out turn s) w))) <= E.
Proof.
  intros HTE Ht. revert s w. induction fuel as [|fuel IH]; intros s w Hw; cbn [poll]; [cbn; lia|].
  rewrite run_pbind. specialize (Ht s w Hw). destruct (run (turn s) w) as [w1 [[a|s']|e]]; cbn; [done| |done]. by apply IH.
Qed.
End Prompt.
End Loops.

(** The simulated service answers at once; what stalls is dropped at its deadline. *)
Lemma plane_change id f s s' u : change id f s = Ok (s', u) -> clock (plane s') = clock (plane s).
Proof. unfold change. destruct (boxes (plane s) !! id); [|done]. by intros [= <- _]. Qed.

Lemma perform_clock c s s' a : perform c s = Ok (s', a) -> clock (plane s') <= clock (plane s) + asleep c.
Proof.
  destruct c; cbn [perform asleep];
    try (destruct (change _ _ s) as [[s1 u]|e] eqn:E; [apply plane_change in E|done]);
    repeat case_match; intros; simplify_eq/=; try lia.
  all: match goal with E : change _ _ _ = _ |- _ => apply plane_change in E end; lia.
Qed.

Lemma sim_prompt : prompt (W := Sim) 0.
Proof.
  assert (Ha : forall c s, clock (plane (fst (sim c s))) <= clock (plane s) + asleep c).
  { intros c s. unfold sim, settle. destruct (next_fault_plane c s) as [Hp _]. destruct (next_fault c s) as [f s1]. cbn in Hp.
    rewrite <- Hp. assert (0 <= asleep c) by (destruct c; cbn; lia).
    destruct f; cbn [fst]; try lia;
      (destruct (perform c _) as [[s2 a]|e] eqn:E; cbn [fst];
       [apply perform_clock in E; cbn in E; lia|cbn; lia]). }
  split; [intros c s; cbn [view ask sim_service]; specialize (Ha c s); lia|].
  intros t c s. cbn [view ask_by sim_service]. unfold sim_by.
  destruct (Z.leb_spec t (clock (plane s))); [cbn; lia|].
  destruct (sleeps_past t c s) eqn:Es; [cbn; lia|]. cbn [orb]. destruct (match fst _ with Stalled => _ | _ => _ end); [cbn; lia|].
  specialize (Ha c s). destruct (sim c s) as [s1 r]. cbn in *.
  assert (clock (plane s) + asleep c <= t); [|lia]. destruct c; cbn in *; try lia; apply Z.leb_gt in Es; lia.
Qed.

(** ** The requests a program makes *)

(** All of them, whatever the answers. *)
Fixpoint only {A} (p : Request -> bool) (m : Prog A) : Prop :=
  match m with
  | Return _ => True
  | Do c k => p c = true /\ forall r, only p (k r)
  | DoBy _ c k => p c = true /\ forall o, only p (k o)
  end.

Section Only.
Context (p : Request -> bool).

Lemma only_match {A B} (m : Prog A) (k : result A Error -> Prog B) : only p m -> (forall r, only p (k r)) -> only p (pmatch m k).
Proof. intros Hm Hk. induction m as [r|c h IH|t c h IH]; cbn in *; [apply Hk|..]; (split; [apply Hm|]; intros r; by apply IH, Hm). Qed.

Lemma only_bind {A B} (m : Prog A) (k : A -> Prog B) : only p m -> (forall a, only p (k a)) -> only p (pbind m k).
Proof. intros Hm Hk. apply only_match; [done|]. by intros [a|e]. Qed.

Lemma only_do {A} c (k : result (Answer c) DaytonaError -> Prog A) : p c = true -> (forall r, only p (k r)) -> only p (Do c k).
Proof. done. Qed.

Lemma only_return {A} (r : result A Error) : only p (Return r).
Proof. done. Qed.

Lemma only_call context c : p c = true -> only p (call context c).
Proof. intros Hc. split; [done|]. by intros [a|e]. Qed.

Lemma only_poll {S A} fuel out (turn : S -> Prog (A + S)) s : (forall s, only p (turn s)) -> only p (poll fuel out turn s).
Proof.
  intros Ht. revert s. induction fuel as [|fuel IH]; intros s; [done|]. apply only_bind; [apply Ht|]. by intros [a|s'].
Qed.

Lemma only_by_deadline {A} t (m : Prog A) : only p m -> only p (by_deadline t m).
Proof.
  induction m as [r|c k IH|u c k IH]; cbn; [done|..]; intros [Hc Hk]; (split; [done|]; intros [r|]); [by apply IH|done|by apply IH|].
  destruct (u <? t); [by apply IH|done].
Qed.

Lemma only_within {A} budget (m : Prog A) : p Now = true -> only p m -> only p (within budget m).
Proof. intros Hn Hm. apply only_bind; [split; [done|]; by intros [t|e]|]. intros t. by apply only_by_deadline. Qed.
End Only.

Lemma only_now p : p Now = true -> only p now.
Proof. intros Hp. split; [done|]. by intros [t|e]. Qed.

Lemma only_sleep p ns : p (Sleep ns) = true -> only p (sleep ns).
Proof. done. Qed.

(** One step through a program. *)
Ltac only_step :=
  match goal with
  | |- forall _, _ => intro
  | |- only _ (let _ := _ in _) => cbv zeta
  | |- only _ (pbind _ _) => apply only_bind
  | |- only _ (pmatch _ _) => apply only_match
  | |- only _ (Return _) => exact I
  | |- only _ (pret _) => exact I
  | |- only _ (pthrow _) => exact I
  | |- only _ (stops _) => exact I
  | |- only _ (goes_on _) => exact I
  | |- only _ (Do _ _) => apply only_do; [reflexivity|]
  | |- only _ (call _ _) => apply only_call; reflexivity
  | |- only _ now => apply only_now; reflexivity
  | |- only _ (sleep _) => apply only_sleep; reflexivity
  | |- only _ (within _ _) => apply only_within; [reflexivity|]
  | |- only _ (poll _ _ _ _) => apply only_poll
  | |- only _ (match ?x with _ => _ end) => destruct x
  end.

(** The answers to some of the requests, without what was asked for. *)
Definition noted {A} (o : option (result A DaytonaError)) : option (result unit DaytonaError) :=
  match o with Some (Ok _) => Some (Ok tt) | Some (Err e) => Some (Err e) | None => None end.

Definition outcomes (p : Request -> bool) (tr : list Sent) : list (option (result unit DaytonaError)) :=
  map (fun s => noted (outcome s)) (filter (fun s => p (sent s) = true) tr).

Lemma outcomes_app p l r : outcomes p (l ++ r) = outcomes p l ++ outcomes p r.
Proof. unfold outcomes. by rewrite filter_app, map_app. Qed.

Lemma outcomes_other {W} `{Service W} {A} p (m : Prog A) w : only (fun c => negb (p c)) m -> outcomes p (trace m w) = [].
Proof.
  revert w. induction m as [r|c k IH|t c k IH]; intros w Hm; [done|..]; destruct Hm as [Hc Hk]; cbn [trace];
    [destruct (ask c w) as [w1 r]|destruct (ask_by t c w) as [w1 r]];
    unfold outcomes; rewrite filter_cons_False by (cbn; by destruct (p c)); by apply IH.
Qed.

Lemma outcomes_first {W} `{Service W} {A B} p (m : Prog A) (k : A -> Prog B) w : (forall a, only (fun c => negb (p c)) (k a)) ->
  outcomes p (trace (pbind m k) w) = outcomes p (trace m w).
Proof.
  intros Hk. rewrite trace_bind, outcomes_app. destruct (run m w) as [w1 [a|e]]; [rewrite (outcomes_other _ (k a)) by apply Hk|]; by rewrite app_nil_r.
Qed.

Lemma outcomes_then {W} `{Service W} {A B} p (m : Prog A) (k : A -> Prog B) w : only (fun c => negb (p c)) m ->
  outcomes p (trace (pbind m k) w) = match run m w with (w', Ok a) => outcomes p (trace (k a) w') | _ => [] end.
Proof. intros Hm. rewrite trace_bind, outcomes_app, (outcomes_other _ m) by done. by destruct (run m w) as [w1 [a|e]]. Qed.

(** A request was refused for another actor's change, so that nothing was done. *)
Definition busy (o : option (result unit DaytonaError)) : Prop := exists e, o = Some (Err e) /\ is_state_change_in_progress e = true.

(** Only after such a refusal another follows. *)
Definition never_replayed (os : list (option (result unit DaytonaError))) : Prop := Forall busy (removelast os).

Lemma never_replayed_app l r : Forall busy l -> never_replayed r -> never_replayed (l ++ r).
Proof.
  unfold never_replayed. intros Hl Hr. destruct r as [|o r]; [rewrite app_nil_r|rewrite removelast_app by done; by apply Forall_app].
  induction l as [|a l IH]; [done|]. apply Forall_cons in Hl as [Ha Hl]. destruct l as [|b l]; [done|].
  cbn [removelast]. apply Forall_cons. split; [done|]. by apply IH.
Qed.

Section Once.
Context {W : Type} `{Service W} {S A : Type} (p : Request -> bool) (turn : S -> Prog (A + S)).

Lemma poll_once fuel out s w :
  (forall s w, never_replayed (outcomes p (trace (turn s) w)) /\
     forall w' s', run (turn s) w = (w', Ok (inr s')) -> Forall busy (outcomes p (trace (turn s) w))) ->
  never_replayed (outcomes p (trace (poll fuel out turn s) w)).
Proof.
  intros Ht. revert s w. induction fuel as [|fuel IH]; intros s w; [by constructor|]. cbn [poll]. unfold pbind.
  rewrite trace_match, outcomes_app. destruct (Ht s w) as [H1 H2]. destruct (run (turn s) w) as [w1 [[a|s']|e]]; cbn [trace pret pthrow].
  - by rewrite app_nil_r.
  - by apply never_replayed_app; [apply (H2 w1 s')|].
  - by rewrite app_nil_r.
Qed.

Lemma poll_by_once t fuel out s w :
  (forall s w, never_replayed (outcomes p (trace (by_deadline t (turn s)) w)) /\
     forall w' s', run (by_deadline t (turn s)) w = (w', Ok (Some (Ok (inr s')))) -> Forall busy (outcomes p (trace (by_deadline t (turn s)) w))) ->
  never_replayed (outcomes p (trace (by_deadline t (poll fuel out turn s)) w)).
Proof.
  intros Ht. revert s w. induction fuel as [|fuel IH]; intros s w; [by constructor|]. cbn [poll]. unfold pbind.
  rewrite by_deadline_trace, outcomes_app. destruct (Ht s w) as [H1 H2].
  destruct (run (by_deadline t (turn s)) w) as [w1 [[[[a|s']|e]|]|e]]; cbn [trace by_deadline pret pthrow]; try by rewrite app_nil_r.
  by apply never_replayed_app; [apply (H2 w1 s')|].
Qed.
End Once.
