(* ===== verification/DaytonaPlan.v ===== *)
(** * What a Daytona sandbox is asked to be, and read back as

    Models [crates/sandbox-driver-daytona-config/src/lib.rs], and of
    [crates/sandbox-driver-daytona/src] the maps of [sdk.rs] between the service's states
    and units and the crate's, the stored labels of [labels.rs], the status of
    [sandbox.rs], and the parameters, capabilities and permissions of [provider.rs].
    Nothing here calls the service. Serde's reading of the provider's configuration, the
    SDK's names of its states and the base path of its client are parameters. *)

From S2P Require Import Prelude Text Script Ids Capabilities Errors DockerPlan Spec DaytonaApi.

#[local] Open Scope string_scope.
#[local] Open Scope list_scope.
#[local] Open Scope Z_scope.

(** ** States, classes and units *)

Definition map_state (state : option DsState) : SandboxState :=
  match state with
  | None => StUnknown
  | Some state =>
      match state with
      | DsCreating | DsPendingBuild | DsBuildingSnapshot | DsPullingSnapshot => StCreating
      | DsRestoring | DsStarting => StStarting
      | DsStarted | DsSnapshotting => StRunning
      | DsStopping => StStopping
      | DsStopped => StStopped
      | DsArchiving => StArchiving
      | DsArchived => StArchived
      | DsResizing => StResizing
      | DsForking => StForking
      | DsPausing => StPausing
      | DsPaused => StPaused
      | DsResuming => StResuming
      | DsDestroying => StDeleting
      | DsDestroyed => StDeleted
      | DsError | DsBuildFailed => StError
      | DsUnknown | DsUnknownDefaultOpenApi => StUnknown
      end
  end.

Definition sandbox_kind_from_class (class : DsClass) : SandboxKind :=
  match class with
  | CONTAINER => KindContainer
  | LINUX_VM | ANDROID | WINDOWS => KindVirtualMachine
  | ClassUnknownDefaultOpenApi => KindUnknown
  end.

(** A finite float that is no negative number and below [2 ^ 64], rounded half up. *)
Definition to_u64 (value : f64) : option Z :=
  match value with
  | NotFinite => None
  | Finite m e =>
      let below := if 0 <=? e then m * 2 ^ e <? 2 ^ 64 else m <? 2 ^ (64 - e) in
      if (0 <=? m) && below
      then Some (Z.min (2 ^ 64 - 1) (if 0 <=? e then m * 2 ^ e else (2 * m + 2 ^ (- e)) / 2 ^ (1 - e)))
      else None
  end.

(** [value * 1024.0]: past the largest float no number below [2 ^ 64] is left. *)
Definition times_1024 (value : f64) : f64 := match value with Finite m e => Finite m (e + 10) | NotFinite => NotFinite end.

Definition i32_max : Z := 2 ^ 31 - 1.

(** [u64::div_ceil]. *)
Definition div_ceil (n d : Z) : Z := (n + d - 1) / d.

(** Durations are nanoseconds; [as_secs] drops what is no whole second. *)
Definition minutes (duration : Z) : Z :=
  if duration =? 0 then 0 else Z.min i32_max (div_ceil (duration / seconds 1) 60).

Definition auto_delete_minutes (duration : Z) : Z := if duration =? 0 then -1 else minutes duration.

Definition allocation_mib (requested_mib : Z) : Z := Z.min i32_max (Z.max 1 (div_ceil requested_mib 1024)) * 1024.
Definition gigabytes (mb : Z) : Z := allocation_mib mb / 1024.

(** ** Labels *)

Definition MANAGED_LABEL : string := "sh.sandbox-driver.managed".
Definition WORKING_DIRECTORY_LABEL : string := "sh.sandbox-driver.working-directory".
Definition TARGET_LABEL : string := "sh.sandbox-driver.docker-target".

Definition is_internal_label (key : string) : bool := existsb (String.eqb key) [MANAGED_LABEL; WORKING_DIRECTORY_LABEL; TARGET_LABEL].

Definition target_label (target : DockerExecutionTarget) : string :=
  match target with TargetContainer => "container" | TargetVirtualMachine => "virtual_machine" end.

Definition parse_target (label : string) : result DockerExecutionTarget Error :=
  if String.eqb label "container" then Ok TargetContainer
  else if String.eqb label "virtual_machine" then Ok TargetVirtualMachine
  else Err (InvalidSpec "docker-target" "unrecognized stored Docker execution target").

(** The caller's labels that name nothing internal. *)
Definition callers (labels : gmap string string) : gmap string string :=
  filter (fun kv => is_internal_label (fst kv) = false) labels.

Definition insert_some (key : string) (value : option string) (m : gmap string string) : gmap string string :=
  match value with Some v => <[key := v]> m | None => m end.

Definition stored_labels (caller : gmap string string) (working_directory : option string)
    (docker_target : option DockerExecutionTarget) : gmap string string :=
  insert_some TARGET_LABEL (target_label <$> docker_target)
    (insert_some WORKING_DIRECTORY_LABEL working_directory (<[MANAGED_LABEL := "true"]> (callers caller))).

(** ** Statuses *)

Definition dashboard_url (base_path : string) : option string :=
  (fun b => b +:+ "/dashboard/sandboxes") <$> strip_suffix "/api" base_path.

Definition network_of (s : Sandbox) : NetworkPolicy :=
  if sb_block_all s then Block
  else
    let cidrs := filter (fun c => is_empty c = false) (map trim (split "," (default "" (sb_allow_list s)))) in
    match cidrs with [] => AllowAll | _ => CidrAllowList cidrs end.

Definition positive (n : Z) : option Z := if 0 <? n then Some n else None.
Definition try_u32 (n : Z) : option Z := if n <? u32_bound then Some n else None.

Definition resources_of (s : Sandbox) : Resources :=
  mkResources ((to_u64 (sb_cpu s) ≫= try_u32) ≫= positive) (to_u64 (times_1024 (sb_memory s)) ≫= positive)
    (to_u64 (times_1024 (sb_disk s)) ≫= positive) ((to_u64 (sb_gpu s) ≫= try_u32) ≫= positive).

Definition non_empty_text (s : string) : option string := if is_empty s then None else Some s.

Definition invalid_id (debug_str : string -> string) (field : string) {A} (r : result A InvalidIdError) : result A Error :=
  map_err (fun e => InvalidSpec field (id_error_text debug_str e)) r.

Definition sandbox_id (debug_str : string -> string) (id : string) : result string Error :=
  invalid_id debug_str "sandbox_id" (try_new_sandbox_id id).

(** A full sandbox and a listing's item have the same fields. *)
Definition status_from_sdk (debug_str : string -> string) (state_text : DsState -> string) (base_path : string)
    (s : Sandbox) : result SandboxStatus Error :=
  let? id := sandbox_id debug_str (sb_id s) in
  Ok {| st_id := id;
        st_name := non_empty_text (sb_name s);
        st_state := map_state (sb_state s);
        st_provider_state := default "" (state_text <$> sb_state s);
        st_error_reason := sb_error_reason s;
        st_resources := Some (resources_of s);
        st_sandbox_kind := sandbox_kind_from_class <$> sb_class s;
        st_region := non_empty_text (sb_target s);
        st_labels := callers (sb_labels s);
        st_image := None;
        st_snapshot := sb_snapshot s;
        st_network := Some (network_of s);
        st_workspace_ownership := None;
        st_web_url := dashboard_url base_path;
        st_created_at := None;
        st_updated_at := None |}.

(** ** The provider's configuration *)

Record DaytonaProviderConfig := mkDaytonaConfig {
  config_proxy_url : option string;
  config_docker : option NestedDockerConfig;
}.

Definition default_daytona_config : DaytonaProviderConfig := mkDaytonaConfig None None.

Definition provider_config (deserialize : json -> result DaytonaProviderConfig string) (value : json)
  : result DaytonaProviderConfig Error :=
  match value with
  | JNull => Ok default_daytona_config
  | JObj _ => map_err (InvalidSpec "provider_config") (deserialize value)
  | _ => Err (InvalidSpec "provider_config" "expected an object")
  end.

(** [nested::validate]. *)
Definition nested_validate (config : NestedDockerConfig) : result unit Error :=
  guard? negb (bool_decide (nested_target config = TargetContainer) && is_empty (trim (nested_image config)))
    else InvalidSpec "provider_config.docker.image" "image must not be empty" in
  guard? bool_decide (pc_binds (nested_options config) = []) && negb (host_network (nested_options config))
    else InvalidSpec "provider_config.docker.options" "nested Docker owns workspace binds and network placement" in
  guard? negb (bool_decide (nested_target config = TargetVirtualMachine) && negb (bool_decide (length (sidecars (nested_options config)) = 0%nat)))
    else InvalidSpec "provider_config.docker.options.sidecars" "services require a container execution target" in
  Ok tt.

(** ** Parameters *)

(** The three settings a policy has: block all, a list of networks, one of domains. *)
Definition network_params (n : NetworkPolicy) : option bool * option (list string) * option (list string) :=
  match n with
  | ProviderDefault => (None, None, None)
  | AllowAll => (Some false, None, None)
  | Block => (Some true, None, None)
  | CidrAllowList cidrs => (None, Some cidrs, None)
  | DomainAllowList domains => (None, None, Some domains)
  end.

Definition base_params (deserialize : json -> result DaytonaProviderConfig string) (s : SandboxSpec) : result BaseParams Error :=
  let? config := provider_config deserialize (Spec.provider_config s) in
  let '(block_all, allow_list, domain_list) := network_params (network s) in
  check? match config_docker config with Some docker => nested_validate docker | None => Ok tt end in
  Ok {| bp_name := name s;
        bp_user := user s;
        bp_env_vars := Some (<["BASH_ENV" := ""]> (env s));
        bp_labels := Some (stored_labels (labels s) (working_directory s) (nested_target <$> config_docker config));
        bp_public := public s;
        bp_target := region s;
        auto_stop_interval := minutes <$> auto_stop_after_idle (timers s);
        auto_pause_interval := minutes <$> auto_pause_after_idle (timers s);
        auto_archive_interval := minutes <$> auto_archive_after_stop (timers s);
        auto_delete_interval :=
          match auto_delete_after_stop (timers s) with
          | Some t => Some (auto_delete_minutes t)
          | None => if ephemeral s then Some 0 else None
          end;
        ttl_minutes := minutes <$> ttl (timers s);
        bp_volumes := match volumes s with
                      | [] => None
                      | mounts => Some (map (fun m => mkSandboxVolume (mount_volume m) (mount_path m) (subpath m)) mounts)
                      end;
        network_block_all := block_all;
        network_allow_list := allow_list;
        domain_allow_list := domain_list;
        outbound_proxy_url := config_proxy_url config;
        bp_ephemeral := if ephemeral s then Some true else None |}.

#[export] Instance Resources_eq_dec : EqDecision Resources.
Proof. solve_decision. Defined.

Definition validate_supported_creation_fields (s : SandboxSpec) : result unit Error :=
  guard? negb (match source s with Snapshot _ => true | _ => false end && negb (bool_decide (resources s = no_resources)))
    else InvalidSpec "resources" "a Daytona sandbox created from a snapshot inherits the snapshot resources" in
  Ok tt.

(** What [update_network] sends. *)
Definition network_settings (policy : NetworkPolicy) : result NetworkSettings Error :=
  check? network_validate policy in
  match policy with
  | AllowAll => Ok (mkNetworkSettings (Some false) None None)
  | Block => Ok (mkNetworkSettings (Some true) None None)
  | CidrAllowList cidrs => Ok (mkNetworkSettings None (Some (join "," cidrs)) None)
  | DomainAllowList domains => Ok (mkNetworkSettings None None (Some (join "," domains)))
  | ProviderDefault => Err (InvalidSpec "network" "provider_default names no concrete policy to apply at runtime")
  end.

(** ** Capabilities *)

Definition one_shot_capabilities : OneShotCaps := mkOneShotCaps true.

Definition daytona_capabilities : Capabilities :=
  {| isolation := IsolationVm;
     lifecycle := {| lc_pause := true; lc_archive := true; lc_fork := true; lc_resize := false; lc_recover := false;
                     lc_undelete := true; lc_refresh_activity := true; lc_timers := true; lc_labels := true;
                     lc_update_network := true; lc_snapshot_sandbox := true |};
     exec := {| ec_live_streaming := true; ec_streams_separated := true; ec_stdin := true; ec_stop := true;
                ec_stdio_process := true; ec_stdin_stream := true; ec_environment := true |};
     fs := {| fc_native := true; fc_upload := true; fc_download := true; fc_permissions := true |};
     search := mkSearchCaps true (sc_native (search (minimal IsolationVm)));
     git := mkGitCaps true true;
     services := mkServiceCaps true (vc_native (services (minimal IsolationVm)));
     pty := Some (mkPtyCaps true);
     logs := Some (mkLogsCaps false true);
     one_shot := Some one_shot_capabilities;
     access := {| ac_preview_urls := true; ac_signed_preview_urls := true; ac_ssh := true; ac_ssh_ttl := true;
                  ac_ssh_revoke := true; ac_shell_command := false; ac_web_terminal := true; ac_vnc := true;
                  ac_vpn_legacy := false |};
     network_caps := {| nc_allow_all := true; nc_block_all := true; nc_cidr_allow_list := true;
                        nc_domain_allow_list := true; nc_outbound_proxy := false |};
     snapshots := Some {| pc_from_image := true; pc_from_dockerfile := true;
                          pc_from_image_kinds := mkKinds true true; pc_from_dockerfile_kinds := mkKinds true false;
                          pc_filesystem_from_sandbox := true; pc_live_process_state_from_sandbox := true;
                          pc_build_logs := true; pc_activation := true |};
     volume_caps := Some (mkVolumeCaps true) |}.

Definition without_vm (c : LifecycleCaps) : LifecycleCaps :=
  mkLifecycleCaps false (lc_archive c) false (lc_resize c) (lc_recover c) (lc_undelete c) (lc_refresh_activity c)
    (lc_timers c) (lc_labels c) (lc_update_network c) (lc_snapshot_sandbox c).
Definition without_archive (c : LifecycleCaps) : LifecycleCaps :=
  mkLifecycleCaps (lc_pause c) false (lc_fork c) (lc_resize c) (lc_recover c) (lc_undelete c) (lc_refresh_activity c)
    (lc_timers c) (lc_labels c) (lc_update_network c) (lc_snapshot_sandbox c).
Definition without_live (c : SnapshotCaps) : SnapshotCaps :=
  mkSnapshotCaps (pc_from_image c) (pc_from_dockerfile c) (pc_from_image_kinds c) (pc_from_dockerfile_kinds c)
    (pc_filesystem_from_sandbox c) false (pc_build_logs c) (pc_activation c).

Definition set_lifecycle (l : LifecycleCaps) (s : option SnapshotCaps) (c : Capabilities) : Capabilities :=
  mkCapabilities (isolation c) l (exec c) (fs c) (search c) (git c) (services c) (pty c) (logs c) (one_shot c)
    (access c) (network_caps c) s (volume_caps c).

Definition narrowed_capabilities (base : Capabilities) (class : option DsClass) : Capabilities :=
  let caps := if bool_decide (class ∈ [Some CONTAINER; Some ANDROID])
              then set_lifecycle (without_vm (lifecycle base)) (without_live <$> snapshots base) base else base in
  if bool_decide (class ∈ [Some LINUX_VM; Some ANDROID; Some WINDOWS])
  then set_lifecycle (without_archive (lifecycle caps)) (snapshots caps) caps else caps.

(** [NestedDocker::capabilities], after the one-shots of the VM were taken away. *)
Definition nested_capabilities (target : option DockerExecutionTarget) (c : Capabilities) : Capabilities :=
  let one := match target with Some _ => Some one_shot_capabilities | None => None end in
  match target with
  | Some TargetContainer =>
      let e := exec c in
      mkCapabilities (isolation c) (lifecycle c)
        (mkExecCaps (ec_live_streaming e) (ec_streams_separated e) (ec_stdin e) (ec_stop e) (ec_stdio_process e) false (ec_environment e))
        (mkFsCaps false (fc_upload (fs c)) (fc_download (fs c)) (fc_permissions (fs c)))
        (search c) (mkGitCaps (gc_supported (git c)) false) (services c) (pty c) None one
        (mkAccessCaps false false false false false (ac_shell_command (access c)) false false (ac_vpn_legacy (access c)))
        (network_caps c) (snapshots c) (volume_caps c)
  | _ =>
      mkCapabilities (isolation c) (lifecycle c) (exec c) (fs c) (search c) (git c) (services c) (pty c) (logs c) one
        (access c) (network_caps c) (snapshots c) (volume_caps c)
  end.

(** ** Permissions *)

Definition REQUIRED_PERMISSIONS : list string := ["write:snapshots"; "delete:snapshots"; "write:sandboxes"; "delete:sandboxes"].

Definition missing_permission_names (granted : list string) : list string :=
  filter (fun p => p ∉ granted) REQUIRED_PERMISSIONS.
