(* ===== verification/DaytonaSnapshots.v ===== *)
(** * Snapshots and volumes of Daytona, and making a snapshot usable

    Models the snapshot and volume values of [crates/sandbox-driver/src/provider.rs] with
    [SnapshotProvider::ensure] ([ensure_snapshot]), and of
    [crates/sandbox-driver-daytona/src] the providers of [snapshots.rs] and [volumes.rs];
    events and build logs are left out. Loops without a bound of their own have fuel. *)

From S2P Require Import Prelude Text Ids Capabilities Errors Spec DaytonaApi DaytonaSim DaytonaLoops DaytonaPlan.

#[local] Open Scope string_scope.
#[local] Open Scope list_scope.
#[local] Open Scope Z_scope.

(** ** Values *)

Inductive SnapshotState := SnapBuilding | SnapActive | SnapInactive | SnapError | SnapDeleting | SnapUnknown.

#[export] Instance SnapshotState_eq_dec : EqDecision SnapshotState.
Proof. solve_decision. Defined.

Inductive SnapshotMode := Filesystem | LiveProcessState.

Inductive SnapshotSource :=
  | FromImage (reference : string)
  | FromDockerfile (content : string)
  | FromSandbox (id : string) (mode : SnapshotMode).

Record SnapshotSpec := mkSnapshotSpec {
  ss_name : option string;
  ss_source : SnapshotSource;
  ss_kind : option SandboxKind;
  ss_region : option string;
  ss_resources : Resources;
}.

Definition snapshot_validate (s : SnapshotSpec) : result unit Error :=
  guard? negb (bool_decide (ss_kind s = Some KindUnknown)) else InvalidSpec "sandbox_kind" "unknown sandbox kind" in
  guard? negb (bool_decide (ss_region s = Some "")) else InvalidSpec "region" "must not be empty" in
  Ok tt.

Record SnapshotStatus := mkSnapshotStatus {
  ps_id : string;
  ps_name : option string;
  ps_state : SnapshotState;
  ps_kind : option SandboxKind;
  ps_regions : list string;
  ps_resources : option Resources;
  ps_error_reason : option string;
  ps_size_bytes : option Z;
}.

Definition state_debug (s : SnapshotState) : string :=
  match s with
  | SnapBuilding => "Building" | SnapActive => "Active" | SnapInactive => "Inactive" | SnapError => "Error"
  | SnapDeleting => "Deleting" | SnapUnknown => "Unknown"
  end.

Inductive VolumeState := VolCreating | VolReady | VolDeleting | VolDeleted | VolError | VolUnknown.

#[export] Instance VolumeState_eq_dec : EqDecision VolumeState.
Proof. solve_decision. Defined.

Record VolumeStatus := mkVolumeStatus {
  vs_id : string;
  vs_name : option string;
  vs_state : VolumeState;
  vs_error_reason : option string;
}.

(** ** Making a snapshot usable *)

(** The operations of a snapshot provider that [ensure] composes. *)
Class SnapshotProvider := {
  list_named : string -> Prog (list SnapshotStatus);
  create_snapshot : SnapshotSpec -> Prog string;
  get_snapshot : string -> Prog SnapshotStatus;
  activate_snapshot : string -> Prog unit;
}.

Definition ENSURE_FIRST_POLL : Z := seconds 2.
Definition ENSURE_MAX_POLL : Z := seconds 30.

Section Ensure.
Context (debug_str : string -> string) `{SnapshotProvider}.

Definition snapshot_unusable (name : string) (status : SnapshotStatus) : Error :=
  let reason := default ("snapshot is in state " +:+ state_debug (ps_state status)) (ps_error_reason status) in
  Provider (mkProviderError "unknown" None ("snapshot " +:+ debug_str name +:+ " cannot become active: " +:+ reason) false None []).

(** A poll: the interval doubles, and no sleep goes past the budget. *)
Definition ensure_turn (name id : string) (started budget interval : Z) : Prog (string + Z) :=
  let* t := now in
  let elapsed := t - started in
  if budget <=? elapsed
  then pthrow (Timeout ("waiting for snapshot " +:+ debug_str name +:+ " to become active") elapsed)
  else
    seq* sleep (Z.min interval (Z.max 0 (budget - elapsed))) in
    let* status := get_snapshot id in
    match ps_state status with
    | SnapActive => stops id
    | SnapError | SnapDeleting => pthrow (snapshot_unusable name status)
    | SnapBuilding | SnapInactive | SnapUnknown => goes_on (Z.min (interval * 2) ENSURE_MAX_POLL)
    end.

Definition ensure_from (fuel : nat) (out : Error) (spec : SnapshotSpec) (budget : Z) : Prog string :=
  match ss_name spec with
  | None => pthrow (InvalidSpec "name" "ensure looks a snapshot up by name, so the spec must carry one")
  | Some name =>
      let* started := now in
      let* statuses := list_named name in
      let wait id := poll fuel out (ensure_turn name id started budget) ENSURE_FIRST_POLL in
      match List.find (fun s => bool_decide (ps_name s = Some name)) statuses with
      | Some status =>
          match ps_state status with
          | SnapActive => pret (ps_id status)
          | SnapError | SnapDeleting => pthrow (snapshot_unusable name status)
          | SnapInactive => seq* activate_snapshot (ps_id status) in wait (ps_id status)
          | SnapBuilding | SnapUnknown => wait (ps_id status)
          end
      | None => let* id := create_snapshot spec in wait id
      end
  end.

Definition ensure (spec : SnapshotSpec) (budget : Z) : Prog string := ensure_from (turns budget ENSURE_FIRST_POLL) out_of_fuel spec budget.
End Ensure.

(** ** Daytona's snapshots *)

Definition SNAPSHOT_ACTIVATE_BUDGET : Z := seconds 900.
Definition SNAPSHOT_ACTIVATE_POLL : Z := seconds 5.

Definition map_snapshot_state (s : ApiSnapshotState) : SnapshotState :=
  match s with
  | SnBuilding | SnPending | SnPulling | SnSnapshotting => SnapBuilding
  | SnActive => SnapActive
  | SnInactive => SnapInactive
  | SnError | SnBuildFailed => SnapError
  | SnRemoving => SnapDeleting
  | SnUnknownDefaultOpenApi => SnapUnknown
  end.

Definition daytona_snapshot_class (kind : SandboxKind) : result DsClass Error :=
  match kind with
  | KindContainer => Ok CONTAINER
  | KindVirtualMachine => Ok LINUX_VM
  | KindUnknown => Err (InvalidSpec "sandbox_kind" "unknown sandbox kind")
  end.

Definition is_snapshot_deactivation_in_progress (e : DaytonaError) : bool :=
  match e with
  | ApiErr status message => (status =? 400) && contains "deactivation is still in progress" (to_ascii_lowercase message)
  | _ => false
  end.

(** Of an error of the generated client only its status is known. *)
Definition generated_error (context : string) (e : DaytonaError) : Error :=
  let code := match e with ApiErr s _ => Some s | NotFoundErr _ _ => Some 404 | _ => None end in
  Provider (mkProviderError daytona_kind (print_uint <$> code) context
    (match code with Some s => (500 <=? s) && (s <? 600) | None => false end) None [error_text e]).

Definition is_generated_not_found (e : DaytonaError) : bool :=
  match e with ApiErr s _ => s =? 404 | NotFoundErr _ _ => true | _ => false end.

Definition lift {A} (r : result A Error) : Prog A := Return r.

(** A call of the generated client. *)
Definition generated (context : string) (c : Request) : Prog (Answer c) :=
  Do c (fun r => match r with Ok a => pret a | Err e => pthrow (generated_error context e) end).

Definition sdk_resources (r : Resources) : option SdkResources :=
  if bool_decide (r = no_resources) then None
  else
    let try_i32 n := if n <=? i32_max then Some n else None in
    Some (mkSdkResources (cpu_cores r ≫= try_i32) (gpus r ≫= try_i32) (gigabytes <$> memory_mb r) (gigabytes <$> disk_mb r)).

Section Snapshots.
Context (debug_str : string -> string).

Definition snapshot_id (id : string) : result string Error := invalid_id debug_str "snapshot_id" (try_new_snapshot_id id).

Definition snapshot_status (dto : SnapshotDto) : result SnapshotStatus Error :=
  let? id := snapshot_id (sn_id dto) in
  let resources := mkResources ((to_u64 (sn_cpu dto) ≫= try_u32) ≫= positive) (to_u64 (times_1024 (sn_memory dto)) ≫= positive)
                     (to_u64 (times_1024 (sn_disk dto)) ≫= positive) ((to_u64 (sn_gpu dto) ≫= try_u32) ≫= positive) in
  Ok {| ps_id := id;
        ps_name := Some (sn_name dto);
        ps_state := map_snapshot_state (sn_state dto);
        ps_kind := sandbox_kind_from_class <$> sn_class dto;
        ps_regions := default [] (sn_regions dto);
        ps_resources := if bool_decide (resources = no_resources) then None else Some resources;
        ps_error_reason := sn_error_reason dto;
        ps_size_bytes := sn_size dto ≫= to_u64 |}.

Definition include_memory (m : SnapshotMode) : bool := match m with LiveProcessState => true | Filesystem => false end.

(** A poll of the record; it may appear a while after the request. *)
Definition written_turn (name : string) (started : Z) (_ : unit) : Prog (string + unit) :=
  let again :=
    let* t := now in
    let elapsed := t - started in
    if CREATE_TIMEOUT <=? elapsed then pthrow (Timeout "snapshotting sandbox" elapsed)
    else seq* sleep TRANSITION_POLL in goes_on tt in
  Do (GetSnapshot name) (fun r => match r with
    | Err e => if is_not_found e then again else pthrow (daytona_error "waiting for sandbox snapshot" e)
    | Ok dto =>
        match map_snapshot_state (sn_state dto) with
        | SnapActive | SnapInactive => let* id := lift (snapshot_id (sn_id dto)) in stops id
        | SnapError =>
            pthrow (Provider (mkProviderError daytona_kind None (default "sandbox snapshot failed" (sn_error_reason dto)) false None []))
        | SnapDeleting =>
            pthrow (Provider (mkProviderError daytona_kind None "snapshot was removed while being created" false None []))
        | SnapBuilding | SnapUnknown => again
        end
    end).

Definition create_sandbox_snapshot_from (fuel : nat) (out : Error) (sandbox_id name : string) (mode : SnapshotMode) : Prog string :=
  let* s := call "fetching sandbox for snapshot" (Get sandbox_id) in
  let current := map_state (sb_state s) in
  if negb (bool_decide (current = match mode with Filesystem => StStopped | LiveProcessState => StRunning end))
  then pthrow (InvalidState current ActSnapshot)
  else
    seq* generated "snapshotting sandbox" (SnapshotSandbox sandbox_id name (include_memory mode)) in
    let* started := now in
    poll fuel out (written_turn name started) tt.

Definition create_sandbox_snapshot := create_sandbox_snapshot_from (turns CREATE_TIMEOUT TRANSITION_POLL) out_of_fuel.

Definition created_snapshot_id (name : string) : Prog string :=
  let* dto := call "fetching created snapshot" (GetSnapshot name) in lift (snapshot_id (sn_id dto)).

Definition snapshot_from_image (spec : SnapshotSpec) (name : string) : Prog string :=
  let* (image, class) := lift (match ss_source spec with
    | FromImage reference =>
        let? class := daytona_snapshot_class (default KindContainer (ss_kind spec)) in Ok (ImageName reference, class)
    | FromDockerfile content =>
        guard? negb (bool_decide (ss_kind spec = Some KindVirtualMachine)) else Unsupported SnapshotsVmFromDockerfile in
        Ok (ImageCustom content, CONTAINER)
    | FromSandbox _ _ => Err (InvalidSpec "source" "unsupported snapshot source")
    end) in
  let* created := call "creating snapshot" (CreateSnapshot (mkCreateSnapshot name image (ss_region spec) (Some class) (sdk_resources (ss_resources spec)))) in
  lift (snapshot_id (sn_id created)).

Definition kind_debug (k : SandboxKind) : string :=
  match k with KindContainer => "Container" | KindVirtualMachine => "VirtualMachine" | KindUnknown => "Unknown" end.

(** [{:?}] of an option. *)
Definition option_debug {A} (f : A -> string) (o : option A) : string :=
  match o with Some a => "Some(" +:+ f a +:+ ")" | None => "None" end.

Definition snapshot_from_sandbox (spec : SnapshotSpec) (id : string) (mode : SnapshotMode) (name : string) : Prog string :=
  let* s := call "fetching sandbox for snapshot" (Get id) in
  let actual := sandbox_kind_from_class <$> sb_class s in
  seq* lift (
    check? match ss_kind spec with
           | Some requested =>
               guard? bool_decide (actual = Some requested)
                 else InvalidSpec "sandbox_kind" ("the source sandbox has kind " +:+ option_debug kind_debug actual +:+ ", not " +:+ kind_debug requested) in Ok tt
           | None => Ok tt
           end in
    check? match ss_region spec with
           | Some region =>
               guard? String.eqb (sb_target s) region
                 else InvalidSpec "region" ("the source sandbox is in region " +:+ sb_target s +:+ ", not " +:+ region) in Ok tt
           | None => Ok tt
           end in
    guard? bool_decide (ss_resources spec = no_resources) else InvalidSpec "resources" "resources are inherited when snapshotting a sandbox" in
    guard? negb (include_memory mode && bool_decide (sb_class s ∈ [Some CONTAINER; Some ANDROID])) else Unsupported SnapshotsLiveProcessState in
    Ok tt) in
  seq* create_sandbox_snapshot id name mode in
  created_snapshot_id name.

(** [SnapshotProvider::create]; a spec without a name has the one of the clock. *)
Definition snapshot_create (generated_name : string) (spec : SnapshotSpec) : Prog string :=
  seq* lift (snapshot_validate spec) in
  let name := default generated_name (ss_name spec) in
  match ss_source spec with
  | FromSandbox id mode => snapshot_from_sandbox spec id mode name
  | _ => snapshot_from_image spec name
  end.

(** A call that fetches one resource. *)
Definition fetch (resource : ResourceKind) (id context : string) (c : Request) : Prog (Answer c) :=
  Do c (fun r => match r with Ok a => pret a | Err e => pthrow (fetch_error resource id context e) end).

Definition snapshot_get (id : string) : Prog SnapshotStatus :=
  let* dto := fetch RkSnapshot id "fetching snapshot" (GetSnapshot id) in lift (snapshot_status dto).

Fixpoint statuses_of (filter_name : option string) (items : list SnapshotDto) : result (list SnapshotStatus) Error :=
  match items with
  | [] => Ok []
  | dto :: items =>
      if match filter_name with Some name => negb (String.eqb (sn_name dto) name) | None => false end
      then statuses_of filter_name items
      else let? status := snapshot_status dto in let? rest := statuses_of filter_name items in Ok (status :: rest)
  end.

(** One page, and what the pages before it gave. *)
Definition list_turn (filter_name : option string) (s : Z * list SnapshotStatus) : Prog (list SnapshotStatus + Z * list SnapshotStatus) :=
  let (page, statuses) := s in
  let* p := call "listing snapshots" (ListSnapshots page) in
  let* more := lift (statuses_of filter_name (page_items p)) in
  if total_pages p <=? page then stops (statuses ++ more) else goes_on (page + 1, statuses ++ more).

Definition snapshot_list (pages : nat) (filter_name : option string) : Prog (list SnapshotStatus) :=
  poll pages out_of_fuel (list_turn filter_name) (1, []).

Definition snapshot_delete (id : string) : Prog unit :=
  Do (DeleteSnapshot id) (fun r => match r with
    | Ok _ => pret tt
    | Err e =>
        if is_not_found e then pret tt
        else Do (GetSnapshot id) (fun r => match r with
          | Ok dto => if bool_decide (map_snapshot_state (sn_state dto) = SnapDeleting) then pret tt else pthrow (daytona_error "deleting snapshot" e)
          | Err _ => pthrow (daytona_error "deleting snapshot" e)
          end)
    end).

Definition activate_turn (id : string) (started : Z) (_ : unit) : Prog (unit + unit) :=
  Do (ActivateSnapshot id) (fun r => match r with
    | Ok _ => stops tt
    | Err e =>
        if is_not_found e then pthrow (NotFound RkSnapshot id)
        else if is_snapshot_deactivation_in_progress e then
          let* t := now in
          let elapsed := t - started in
          if SNAPSHOT_ACTIVATE_BUDGET <=? elapsed then pthrow (Timeout "waiting to activate snapshot" elapsed)
          else seq* sleep SNAPSHOT_ACTIVATE_POLL in goes_on tt
        else pthrow (daytona_error "activating snapshot" e)
    end).

Definition snapshot_activate_from (fuel : nat) (out : Error) (id : string) : Prog unit :=
  let* started := now in poll fuel out (activate_turn id started) tt.

Definition snapshot_activate : string -> Prog unit :=
  snapshot_activate_from (turns SNAPSHOT_ACTIVATE_BUDGET SNAPSHOT_ACTIVATE_POLL) out_of_fuel.

Definition snapshot_deactivate (id : string) : Prog unit :=
  Do (DeactivateSnapshot id) (fun r => match r with
    | Ok _ => pret tt
    | Err e =>
        if negb (is_generated_not_found e) then pthrow (generated_error "deactivating snapshot" e)
        else
          let* dto := fetch RkSnapshot id "fetching snapshot" (GetSnapshot id) in
          generated "deactivating snapshot" (DeactivateSnapshot (sn_id dto))
    end).

(** Daytona as a provider of snapshots; [pages] bounds the listings. *)
#[export] Instance daytona_snapshots (pages : nat) (generated_name : string) : SnapshotProvider := {|
  list_named name := snapshot_list pages (Some name);
  create_snapshot := snapshot_create generated_name;
  get_snapshot := snapshot_get;
  activate_snapshot := snapshot_activate;
|}.

(** ** Volumes *)

Definition map_volume_state (s : ApiVolumeState) : VolumeState :=
  match s with
  | VoCreating | VoPendingCreate => VolCreating
  | VoReady => VolReady
  | VoDeleting | VoPendingDelete => VolDeleting
  | VoDeleted => VolDeleted
  | VoError => VolError
  | VoUnknown => VolUnknown
  end.

Definition volume_id (id : string) : result string Error := invalid_id debug_str "volume_id" (try_new_volume_id id).

Definition volume_status (dto : VolumeDto) : result VolumeStatus Error :=
  let? id := volume_id (vo_id dto) in
  Ok (mkVolumeStatus id (Some (vo_name dto)) (map_volume_state (vo_state dto)) (vo_error_reason dto)).

Definition volume_create (name : string) : Prog string :=
  let* dto := call "creating volume" (CreateVolume name) in lift (volume_id (vo_id dto)).

Definition volume_get (id : string) : Prog VolumeStatus :=
  let* dto := fetch RkVolume id "fetching volume" (GetVolume id) in lift (volume_status dto).

Fixpoint collect {A B} (f : A -> result B Error) (l : list A) : result (list B) Error :=
  match l with [] => Ok [] | a :: l => let? b := f a in let? bs := collect f l in Ok (b :: bs) end.

Definition volume_list : Prog (list VolumeStatus) :=
  let* volumes := call "listing volumes" ListVolumes in lift (collect volume_status volumes).

Definition volume_delete (id : string) : Prog unit :=
  Do (DeleteVolume id) (fun r => match r with
    | Ok _ => pret tt
    | Err e =>
        if is_not_found e then pret tt
        else Do (GetVolume id) (fun r => match r with
          | Ok dto => if bool_decide (map_volume_state (vo_state dto) ∈ [VolDeleting; VolDeleted]) then pret tt else pthrow (daytona_error "deleting volume" e)
          | Err _ => pthrow (daytona_error "deleting volume" e)
          end)
    end).
End Snapshots.

(** ** The waits end *)

Section Ends.
Context {W : Type} `{Lawful W} (debug_str : string -> string).

(** The check of a budget that goes on takes some of what is left. *)
Lemma again_less budget step operation started w w' (x : unit) {A} : 0 < step ->
  run (let* t := now in let elapsed := t - started in
       if budget <=? elapsed then pthrow (Timeout operation elapsed) else seq* sleep step in goes_on (A := A) tt) w = (w', Ok (inr x)) ->
  (left (started + budget) step (clock (view w')) < left (started + budget) step (clock (view w)))%nat.
Proof.
  intros Hs Hr. apply (slept budget step (Timeout operation)) in Hr as [(el & _ & [=])|(t & w1 & H1 & H2 & H3 & [= <-])].
  apply left_less; [done|lia|lia].
Qed.

Lemma activate_goes id started w w' x : run (activate_turn id started tt) w = (w', Ok (inr x)) ->
  (left (started + SNAPSHOT_ACTIVATE_BUDGET) SNAPSHOT_ACTIVATE_POLL (clock (view w'))
   < left (started + SNAPSHOT_ACTIVATE_BUDGET) SNAPSHOT_ACTIVATE_POLL (clock (view w)))%nat.
Proof.
  unfold activate_turn. cbn [run]. pose proof (law_ask (ActivateSnapshot id) w) as Hl. destruct (ask _ w) as [w1 [u|e]]; [done|].
  apply answers_later in Hl. destruct (is_not_found e); [done|]. destruct (is_snapshot_deactivation_in_progress e); [|done].
  intros Hr%again_less; [|done]. eapply Nat.lt_le_trans; [exact Hr|]. apply left_mono; [done|lia].
Qed.

(** A budget covers the wait for an activation. *)
Lemma activate_ends fuel out id w : (turns SNAPSHOT_ACTIVATE_BUDGET SNAPSHOT_ACTIVATE_POLL <= fuel)%nat ->
  run (snapshot_activate_from fuel out id) w = run (snapshot_activate id) w.
Proof.
  intros Hf. unfold snapshot_activate, snapshot_activate_from. rewrite !run_pbind. destruct (run_asks_now w) as (w0 & -> & _).
  set (rank := fun w : W => left (clock (view w0) + SNAPSHOT_ACTIVATE_BUDGET) SNAPSHOT_ACTIVATE_POLL (clock (view w))).
  assert (Hl : (rank w0 < turns SNAPSHOT_ACTIVATE_BUDGET SNAPSHOT_ACTIVATE_POLL)%nat) by (apply left_turns; [done|done|lia]).
  pose proof (poll_spec (activate_turn id (clock (view w0))) (fun _ _ => True) rank (activate_turn id (clock (view w0)))
    (turns SNAPSHOT_ACTIVATE_BUDGET SNAPSHOT_ACTIVATE_POLL) fuel out_of_fuel out tt w0) as Hp.
  destruct (run (poll _ out_of_fuel _ _) w0) as [w' r]. apply Hp; [done| |done|done|lia].
  intros [] w1 w2 [] _ Ht. split; [done|]. by apply activate_goes in Ht.
Qed.

Lemma written_goes name started w w' x : run (written_turn debug_str name started tt) w = (w', Ok (inr x)) ->
  (left (started + CREATE_TIMEOUT) TRANSITION_POLL (clock (view w')) < left (started + CREATE_TIMEOUT) TRANSITION_POLL (clock (view w)))%nat.
Proof.
  unfold written_turn. cbn [run]. pose proof (law_ask (GetSnapshot name) w) as Hl. destruct (ask _ w) as [w1 r].
  apply answers_later in Hl. intros Hr. assert (Hm : (left (started + CREATE_TIMEOUT) TRANSITION_POLL (clock (view w1))
    <= left (started + CREATE_TIMEOUT) TRANSITION_POLL (clock (view w)))%nat) by (apply left_mono; [done|lia]).
  eapply Nat.lt_le_trans; [|exact Hm]. destruct r as [dto|e].
  - destruct (map_snapshot_state _); try done; try by apply again_less in Hr.
    all: rewrite run_pbind in Hr; unfold lift in Hr; cbn [run] in Hr; by destruct (snapshot_id _ _).
  - destruct (is_not_found e); [by apply again_less in Hr|done].
Qed.

(** And one for a snapshot of a sandbox to be written. *)
Lemma written_ends fuel out sandbox name mode w : (turns CREATE_TIMEOUT TRANSITION_POLL <= fuel)%nat ->
  run (create_sandbox_snapshot_from debug_str fuel out sandbox name mode) w = run (create_sandbox_snapshot debug_str sandbox name mode) w.
Proof.
  intros Hf. unfold create_sandbox_snapshot, create_sandbox_snapshot_from. rewrite !run_pbind. destruct (run (call _ _) w) as [w1 [s|e]]; [|done].
  cbv zeta. destruct (negb _); [done|]. rewrite !run_pbind. destruct (run (generated _ _) w1) as [w2 [u|e]]; [|done].
  rewrite !run_pbind. destruct (run_asks_now w2) as (w0 & -> & _).
  set (rank := fun w : W => left (clock (view w0) + CREATE_TIMEOUT) TRANSITION_POLL (clock (view w))).
  assert (Hl : (rank w0 < turns CREATE_TIMEOUT TRANSITION_POLL)%nat) by (apply left_turns; [done|done|lia]).
  pose proof (poll_spec (written_turn debug_str name (clock (view w0))) (fun _ _ => True) rank (written_turn debug_str name (clock (view w0)))
    (turns CREATE_TIMEOUT TRANSITION_POLL) fuel out_of_fuel out tt w0) as Hp.
  destruct (run (poll _ out_of_fuel _ _) w0) as [w' r]. apply Hp; [done| |done|done|lia].
  intros [] w3 w4 [] _ Ht. split; [done|]. by apply written_goes in Ht.
Qed.
End Ends.

(** ** A snapshot made usable *)

Section Usable.
Context {W : Type} `{Lawful W} (debug_str : string -> string) `{provider : SnapshotProvider}.

(** The last answer the provider gave showed the snapshot active. *)
Definition shown_active (spec : SnapshotSpec) (id : string) (w' : W) : Prop :=
  (exists w1 status, run (get_snapshot id) w1 = (w', Ok status) /\ ps_state status = SnapActive) \/
  (exists name w1 statuses status, ss_name spec = Some name /\ run (list_named name) w1 = (w', Ok statuses) /\
     status ∈ statuses /\ ps_name status = Some name /\ ps_id status = id /\ ps_state status = SnapActive).

Definition ensure_rank (deadline : Z) (w : W) : nat := left deadline ENSURE_FIRST_POLL (clock (view w)).

Lemma ensure_turn_ends name id started budget interval w : ENSURE_FIRST_POLL <= interval ->
  let '(w', r) := run (ensure_turn debug_str name id started budget interval) w in
  match r with
  | Ok (inl x) => x = id /\ exists w1 status, run (get_snapshot id) w1 = (w', Ok status) /\ ps_state status = SnapActive
  | Ok (inr next) => ENSURE_FIRST_POLL <= next /\ (ensure_rank (started + budget) w' < ensure_rank (started + budget) w)%nat
  | Err _ => True
  end.
Proof.
  intros Hi. unfold ensure_turn. rewrite run_pbind. destruct (run_asks_now w) as (w0 & -> & Hc). cbv zeta.
  destruct (Z.leb_spec budget (clock (view w0) - started)) as [Hb|Hb]; [done|]. rewrite run_pbind.
  destruct (run_sleeps (Z.min interval (Z.max 0 (budget - (clock (view w0) - started)))) w0) as (w1 & -> & Hs). rewrite run_pbind.
  destruct (run (get_snapshot id) w1) as [w2 [status|e]] eqn:Eg; [|done]. pose proof (run_later _ _ _ _ Eg) as Hg.
  assert (Hn : ENSURE_FIRST_POLL <= Z.min (interval * 2) ENSURE_MAX_POLL /\ (ensure_rank (started + budget) w2 < ensure_rank (started + budget) w)%nat).
  { unfold ENSURE_MAX_POLL, ENSURE_FIRST_POLL, seconds in *. split; [lia|]. apply left_less; unfold ENSURE_FIRST_POLL, seconds; lia. }
  destruct (ps_state status) eqn:Es; try done. cbn. split; [done|]. by exists w1, status.
Qed.

Lemma ensure_poll_ends f1 f2 out1 out2 name id started budget w :
  (ensure_rank (started + budget) w < f1)%nat -> (ensure_rank (started + budget) w < f2)%nat ->
  let m f out := poll f out (ensure_turn debug_str name id started budget) ENSURE_FIRST_POLL in
  let '(w', r) := run (m f1 out1) w in
  run (m f2 out2) w = (w', r) /\
  forall x, r = Ok x -> x = id /\ exists w1 status, run (get_snapshot id) w1 = (w', Ok status) /\ ps_state status = SnapActive.
Proof.
  intros Hf1 Hf2 m. unfold m. set (turn := ensure_turn debug_str name id started budget).
  pose proof (poll_spec turn (fun i _ => ENSURE_FIRST_POLL <= i) (ensure_rank (started + budget)) turn f1 f2 out1 out2 ENSURE_FIRST_POLL w) as Hp.
  destruct (run _ w) as [w' r]. destruct Hp as (Hf & i & w1 & Hi & Ht); [done| |done..|].
  - intros i w1 w2 i' Hi Ht. pose proof (ensure_turn_ends name id started budget i w1 Hi) as He. fold turn in He. by rewrite Ht in He.
  - split; [done|]. intros x ->. pose proof (ensure_turn_ends name id started budget i w1 Hi) as He. fold turn in He. by rewrite Ht in He.
Qed.

(** More fuel changes nothing, and what is returned was shown active. *)
Lemma ensure_stable fuel out spec budget w : 0 <= budget -> (turns budget ENSURE_FIRST_POLL <= fuel)%nat ->
  let '(w', r) := run (ensure debug_str spec budget) w in
  run (ensure_from debug_str fuel out spec budget) w = (w', r) /\ forall id, r = Ok id -> shown_active spec id w'.
Proof.
  intros Hb Hf. unfold ensure, ensure_from. destruct (ss_name spec) as [name|] eqn:En; [|done]. rewrite !run_pbind.
  destruct (run_asks_now w) as (w0 & -> & _). rewrite !run_pbind. destruct (run (list_named name) w0) as [w1 [statuses|e]] eqn:El; [|done].
  cbv zeta. set (wait f o id := poll f o (ensure_turn debug_str name id (clock (view w0)) budget) ENSURE_FIRST_POLL).
  assert (Hw : forall id w2, clock (view w1) <= clock (view w2) ->
    let '(w', r) := run (wait (turns budget ENSURE_FIRST_POLL) out_of_fuel id) w2 in
    run (wait fuel out id) w2 = (w', r) /\ forall x, r = Ok x -> shown_active spec x w').
  { intros id w2 Hc. apply run_later in El.
    assert (Hl : (ensure_rank (clock (view w0) + budget) w2 < turns budget ENSURE_FIRST_POLL)%nat) by (apply left_turns; [done|done|lia]).
    pose proof (ensure_poll_ends (turns budget ENSURE_FIRST_POLL) fuel out_of_fuel out name id (clock (view w0)) budget w2 Hl ltac:(lia)) as Hp.
    cbv zeta in Hp. unfold wait. destruct (run _ w2) as [w' r]. destruct Hp as [-> Hx]. split; [done|]. intros x Hr.
    destruct (Hx x Hr) as [-> Hs]. by left. }
  destruct (List.find _ statuses) as [status|] eqn:Ei.
  - apply find_some in Ei as [Hin%list_elem_of_In Hn%bool_decide_eq_true]. destruct (ps_state status) eqn:Es; try done; try (by apply Hw).
    + split; [done|]. intros id [= <-]. right. by exists name, w0, statuses, status.
    + rewrite !run_pbind. destruct (run (activate_snapshot _) w1) as [w2 [[]|e]] eqn:Ea; [|done]. apply Hw. by apply (run_later _ _ _ _ Ea).
  - rewrite !run_pbind. destruct (run (create_snapshot spec) w1) as [w2 [id|e]] eqn:Ec; [|done]. apply Hw. by apply (run_later _ _ _ _ Ec).
Qed.
(** One turn's time: its sleep ends within the budget. *)
Lemma ensure_turn_within d G name id started budget interval w : prompt d -> (forall id, takes (get_snapshot id) G) ->
  ENSURE_FIRST_POLL <= interval ->
  let '(w', r) := run (ensure_turn debug_str name id started budget interval) w in
  clock (view w') <= match r with
    | Ok (inr _) => started + budget + d + G
    | _ => Z.max (clock (view w)) (started + budget + d + G) + d
    end.
Proof.
  intros Hq HG Hi. unfold ensure_turn. rewrite run_pbind. destruct (run_asks_now w) as (w0 & En & _).
  pose proof (now_within d Hq _ _ _ En) as Hn. pose proof (prompt_pos d Hq w). rewrite En. cbv zeta.
  destruct (Z.leb_spec budget (clock (view w0) - started)) as [Hb|Hb]; [cbn; lia|]. rewrite run_pbind.
  destruct (run_sleeps (Z.min interval (Z.max 0 (budget - (clock (view w0) - started)))) w0) as (w1 & Es & _).
  pose proof (sleep_within d Hq _ _ _ _ Es) as Hs. rewrite Es. rewrite run_pbind.
  pose proof (HG id w1) as Hg. destruct (run (get_snapshot id) w1) as [w2 [status|e]]; cbn [fst] in Hg; [|lia].
  destruct (ps_state status); cbn; lia.
Qed.

Lemma ensure_poll_within d G name id started budget fuel out w : prompt d -> (forall id, takes (get_snapshot id) G) ->
  clock (view (fst (run (poll fuel out (ensure_turn debug_str name id started budget) ENSURE_FIRST_POLL) w)))
  <= Z.max (clock (view w)) (started + budget + d + G) + d.
Proof.
  intros Hq HG. set (late := Z.max (clock (view w)) (started + budget + d + G)). pose proof (prompt_pos d Hq w).
  assert (Hp : forall fuel i w1, ENSURE_FIRST_POLL <= i -> clock (view w1) <= late ->
    clock (view (fst (run (poll fuel out (ensure_turn debug_str name id started budget) i) w1))) <= late + d); [|apply Hp; [done|lia]].
  clear fuel. induction fuel as [|fuel IH]; intros i w1 Hi Hw; cbn [poll]; [cbn; lia|]. rewrite run_pbind.
  pose proof (ensure_turn_within d G name id started budget i w1 Hq HG Hi) as Ht.
  pose proof (ensure_turn_ends name id started budget i w1 Hi) as He.
  destruct (run _ w1) as [w2 [[a|i']|e]]; cbn; [lia| |lia]. apply IH; [by apply He|lia].
Qed.

(** What the provider's own operations take at most. *)
Record provider_takes (L A G : Z) : Prop := mkTakes {
  list_takes : forall name, takes (list_named name) L;
  create_takes : forall spec, takes (create_snapshot spec) A;
  activate_takes : forall id, takes (activate_snapshot id) A;
  get_takes : forall id, takes (get_snapshot id) G;
}.

Lemma ensure_within d L A G fuel out spec budget w : prompt d -> provider_takes L A G -> 0 <= budget ->
  clock (view (fst (run (ensure_from debug_str fuel out spec budget) w)))
  <= clock (view w) + Z.max (L + A) (budget + d + G) + 2 * d.
Proof.
  intros Hq [HL HC HA HG] Hb. pose proof (prompt_pos d Hq w) as Hd.
  assert (Hpos : forall {X} (m : Prog X) t, takes m t -> 0 <= t).
  { intros X m t Hm. specialize (Hm w). destruct (run m w) as [w1 r] eqn:E. apply run_later in E. cbn in Hm. lia. }
  assert (0 <= L /\ 0 <= A /\ 0 <= G) as (HL0 & HA0 & HG0) by (split_and!; [by eapply (Hpos _ _ _ (HL ""))|by eapply (Hpos _ _ _ (HA ""))|by eapply (Hpos _ _ _ (HG ""))]).
  unfold ensure_from. destruct (ss_name spec) as [name|]; [|cbn; lia]. rewrite run_pbind.
  destruct (run_asks_now w) as (w0 & En & _). pose proof (now_within d Hq _ _ _ En) as Hn. rewrite En. rewrite run_pbind.
  pose proof (HL name w0) as Hl. destruct (run (list_named name) w0) as [w1 [statuses|e]]; cbn [fst] in *; [|lia]. cbv zeta.
  assert (Hw : forall id w2, clock (view w2) <= clock (view w1) + A ->
    clock (view (fst (run (poll fuel out (ensure_turn debug_str name id (clock (view w0)) budget) ENSURE_FIRST_POLL) w2)))
    <= clock (view w) + Z.max (L + A) (budget + d + G) + 2 * d).
  { intros id w2 Hc. pose proof (ensure_poll_within d G name id (clock (view w0)) budget fuel out w2 Hq HG). lia. }
  destruct (List.find _ statuses) as [status|].
  - destruct (ps_state status); try (apply Hw; lia); try (cbn; lia).
    rewrite run_pbind. pose proof (HA (ps_id status) w1) as Ha. destruct (run (activate_snapshot _) w1) as [w2 [[]|e]]; cbn [fst] in *; [|lia].
    apply Hw. lia.
  - rewrite run_pbind. pose proof (HC spec w1) as Hc. destruct (run (create_snapshot spec) w1) as [w2 [id|e]]; cbn [fst] in *; [|lia].
    apply Hw. lia.
Qed.

End Usable.

(** ** Examples *)

Definition demo_dto (st : ApiSnapshotState) : SnapshotDto :=
  mkSnapshotDto "snap-1" "base" st (Some CONTAINER) None None (Finite 1 0) (Finite 1 0) (Finite 3 0) (Finite 0 0) None.
Definition demo_snapshots (st : ApiSnapshotState) : Sim := mkSim (mkPlane ∅ 0) [] [demo_dto st] [].
Definition demo_wanted : SnapshotSpec := mkSnapshotSpec (Some "base") (FromImage "ubuntu") None None no_resources.
Definition demo_ensure (budget : Z) : Prog string := ensure (H := daytona_snapshots (fun s => s) 10 "") (fun s => s) demo_wanted budget.

(** An active snapshot is taken at once; one that is built for too long is not waited for,
    and the last poll is at the budget. *)
Example demo_ensured :
  snd (run (demo_ensure (seconds 60)) (demo_snapshots SnActive)) = Ok "snap-1" /\
  let '(s, r) := run (demo_ensure (seconds 60)) (demo_snapshots SnBuilding) in
  r = Err (Timeout "waiting for snapshot base to become active" (seconds 60)) /\ clock (plane s) = seconds 60.
Proof. vm_compute. by split_and!. Qed.

(** A provider that answers at once, of a snapshot that is built for ever. *)
Definition demo_building : SnapshotProvider := {|
  list_named _ := pret [];
  create_snapshot _ := pret "snap-1";
  get_snapshot _ := pret (mkSnapshotStatus "snap-1" (Some "base") SnapBuilding None [] None None None);
  activate_snapshot _ := pret tt;
|}.

Lemma demo_building_takes : provider_takes (W := Sim) (provider := demo_building) 0 0 0.
Proof. split; intros x w; cbn; lia. Qed.

(** It is given up at the budget. *)
Example demo_given_up :
  let '(s, r) := run (ensure (H := demo_building) (fun s => s) demo_wanted (seconds 60)) (demo_snapshots SnActive) in
  r = Err (Timeout "waiting for snapshot base to become active" (seconds 60)) /\ clock (plane s) = seconds 60.
Proof. vm_compute. by split_and!. Qed.

