(* ===== verification/Daytona.v ===== *)
(** * The sandboxes of Daytona and their provider

    Models of [crates/sandbox-driver-daytona/src] the cleanup of a failed creation
    ([cleanup.rs]), the handle of a sandbox with its lifecycle ([sandbox.rs]) and the
    provider ([provider.rs]), as programs of requests; events, tracing and the facets are
    left out, and of the nested Docker daemon only the requests the handle makes of it. A
    spec's configuration, the key of the snapshot names and the text of errors are
    parameters. *)

From S2P Require Import Prelude Text Hex Ids Capabilities Errors Spec DaytonaApi DaytonaPlan DaytonaSnapshots.

#[local] Open Scope string_scope.
#[local] Open Scope list_scope.
#[local] Open Scope Z_scope.

(** ** Cleanup *)

(** A delete; whether it was admitted, and has to be confirmed. *)
Definition delete_turn (id : string) (_ : unit) : Prog (bool + unit) :=
  Do (Delete id) (fun r => match r with
    | Ok _ => stops true
    | Err e =>
        if is_not_found e then stops false
        else if is_state_change_in_progress e then seq* sleep TRANSITION_POLL in goes_on tt
        else pthrow (daytona_error "requesting failed-create cleanup" e)
    end).

Definition confirm_turn (id : string) (_ : unit) : Prog (unit + unit) :=
  Do (Get id) (fun r => match r with
    | Ok s =>
        if bool_decide (map_state (sb_state s) = StDeleted) then stops tt
        else seq* sleep TRANSITION_POLL in goes_on tt
    | Err e => if is_not_found e then stops tt else pthrow (daytona_error "confirming failed-create cleanup" e)
    end).

(** The loops end by the deadline they are under. *)
Definition delete_and_confirm (fuel : nat) (out : Error) (id : string) : Prog unit :=
  let* admitted := poll fuel out (delete_turn id) tt in
  if admitted : bool then poll fuel out (confirm_turn id) tt else pret tt.

Section Cleanup.
Context (display : Error -> string).

Definition report_json (r : ErrorReport) : json :=
  JObj [("kind", JStr (er_kind r)); ("message", JStr (er_message r)); ("retryable", JBool (er_retryable r));
        ("causes", JArr (map JStr (er_causes r)))].

(** The error that keeps the id, the cause and the failure of the cleanup. *)
Definition unconfirmed (id : string) (cause cleanup : Error) : Error :=
  Provider (mkProviderError daytona_kind (Some "incomplete_cleanup") ("failed-create cleanup is unconfirmed for sandbox " +:+ id) false
    (Some (JObj [("remaining", JArr [JObj [("kind", JStr "sandbox"); ("id", JStr id)]]); ("cleanup", report_json (report_of display cleanup))]))
    (display cause :: source_chain cause)).

Definition failed_create (fuel : nat) (out : Error) (id : string) (cause : Error) (budget : Z) : Prog Error :=
  let* o := within budget (delete_and_confirm fuel out id) in
  pret match o with
       | Some (Ok _) => cause
       | Some (Err cleanup) => unconfirmed id cause cleanup
       | None => unconfirmed id cause (Timeout "confirming failed-create cleanup" budget)
       end.
End Cleanup.

(** ** Transitions *)

Definition attempt (c : Request) : Prog (result (Answer c) DaytonaError) := Do c pret.

Definition wait_turn (id operation : string) (started : Z) (done : SandboxState -> bool) (_ : unit) : Prog (SandboxState + unit) :=
  Do (Get id) (fun r => match r with
    | Err e => if is_not_found e then stops StDeleted else pthrow (daytona_error "fetching sandbox" e)
    | Ok s =>
        let state := map_state (sb_state s) in
        if done state || is_stable state then stops state
        else
          let* t := now in
          let elapsed := t - started in
          if TRANSITION_BUDGET <=? elapsed then pthrow (Timeout operation elapsed)
          else seq* sleep TRANSITION_POLL in goes_on tt
    end).

Definition transition_retry_pause (operation : string) (started : Z) : Prog unit :=
  let* t := now in
  let elapsed := t - started in
  if TRANSITION_BUDGET <=? elapsed then pthrow (Timeout operation elapsed) else sleep TRANSITION_POLL.

Section Transitions.
Context (fuel : nat) (out : Error).

Definition wait_for_state (id operation : string) (started : Z) (done : SandboxState -> bool) : Prog SandboxState :=
  poll fuel out (wait_turn id operation started done) tt.

Definition retry_turn (id operation : string) (send : Prog (result unit DaytonaError)) (settled : SandboxState -> bool)
    (started : Z) (_ : unit) : Prog (unit + unit) :=
  let* r := send in
  match r with
  | Ok _ => stops tt
  | Err e =>
      if is_state_change_in_progress e then
        let* state := wait_for_state id operation started settled in
        if settled state then stops tt
        else seq* transition_retry_pause operation started in goes_on tt
      else pthrow (daytona_error operation e)
  end.

Definition retry_through_transition (id operation : string) (send : Prog (result unit DaytonaError)) (settled : SandboxState -> bool) : Prog unit :=
  let* started := now in poll fuel out (retry_turn id operation send settled started) tt.

Definition is_running (s : SandboxState) : bool := bool_decide (s = StRunning).
Definition is_stopped (s : SandboxState) : bool := bool_decide (s ∈ [StStopped; StArchived; StDeleted]).
Definition is_deleting (s : SandboxState) : bool := bool_decide (s ∈ [StDeleting; StDeleted]).

Definition start_inner (id : string) : Prog unit :=
  let* current := call "fetching sandbox" (Get id) in
  if is_running (map_state (sb_state current)) then pret tt
  else retry_through_transition id "starting sandbox" (attempt (Start id)) is_running.

(** Not found is what was wanted. *)
Definition or_absent (r : result unit DaytonaError) : result unit DaytonaError :=
  match r with Err e => if is_not_found e then Ok tt else r | Ok _ => r end.

Definition stop_once (id : string) : Prog (result unit DaytonaError) := let* r := attempt (Stop id) in pret (or_absent r).

Definition stop_inner (id : string) : Prog unit := retry_through_transition id "stopping sandbox" (stop_once id) is_stopped.

Definition delete_once (id : string) : Prog (result unit DaytonaError) :=
  let* o := within CLEANUP_TIMEOUT (attempt (Delete id)) in
  match o with
  | Some (Ok r) => pret (or_absent r)
  | Some (Err e) => pthrow e
  | None => pthrow (Timeout "deleting sandbox" CLEANUP_TIMEOUT)
  end.

Definition delete_inner (id : string) : Prog unit := retry_through_transition id "deleting sandbox" (delete_once id) is_deleting.
End Transitions.

Definition TRANSITION_TURNS : nat := turns TRANSITION_BUDGET TRANSITION_POLL.

(** ** The handle *)

Record DaytonaSandbox := mkHandle {
  h_id : string;
  h_name : option string;
  h_capabilities : Capabilities;
  h_working_dir : string;
  h_nested : option DockerExecutionTarget;
}.

Definition set_one_shot (o : option OneShotCaps) (c : Capabilities) : Capabilities :=
  mkCapabilities (isolation c) (lifecycle c) (exec c) (fs c) (search c) (git c) (services c) (pty c) (logs c) o
    (access c) (network_caps c) (snapshots c) (volume_caps c).

Section Handle.
Context (debug_str : string -> string).

(** A sandbox that stores no directory is asked for its own, and may not answer. *)
Definition build (base_capabilities : Capabilities) (s : Sandbox) : Prog DaytonaSandbox :=
  let* working_dir := match sb_labels s !! WORKING_DIRECTORY_LABEL with
    | Some dir => pret dir
    | None => Do (GetWorkingDir (sb_id s)) (fun r => match r with Ok dir => pret dir | Err _ => pret FALLBACK_WORKING_DIR end)
    end in
  let* id := lift (sandbox_id debug_str (sb_id s)) in
  let* nested := lift match sb_labels s !! TARGET_LABEL with
    | Some label => let? target := parse_target label in Ok (Some target)
    | None => Ok None
    end in
  let narrowed := set_one_shot None (narrowed_capabilities base_capabilities (sb_class s)) in
  pret (mkHandle id (non_empty_text (sb_name s))
    match nested with Some _ => nested_capabilities nested narrowed | None => narrowed end working_dir nested).

Definition container (h : DaytonaSandbox) : bool := bool_decide (h_nested h = Some TargetContainer).

Definition vm_generation_ended (h : DaytonaSandbox) : Prog unit :=
  match h_nested h with Some _ => Do (NestedStopped (h_id h)) (fun _ => pret tt) | None => pret tt end.

(** A request of the nested daemon, which fails with an error of the crate. *)
Definition nested_ready (id : string) : Prog unit :=
  Do (NestedReady id) (fun r => match r with Ok answer => lift answer | Err _ => pret tt end).
Definition nested_create (id : string) (config : NestedDockerConfig) (env : gmap string string) : Prog unit :=
  Do (NestedCreate id config env) (fun r => match r with Ok answer => lift answer | Err _ => pret tt end).

Section Verbs.
Context (fuel : nat) (out : Error).

Definition start_with_docker (h : DaytonaSandbox) : Prog unit :=
  seq* start_inner fuel out (h_id h) in
  seq* vm_generation_ended h in
  if container h then nested_ready (h_id h) else pret tt.

Definition start : DaytonaSandbox -> Prog unit := start_with_docker.
Definition stop (h : DaytonaSandbox) : Prog unit := seq* stop_inner fuel out (h_id h) in vm_generation_ended h.
Definition delete (h : DaytonaSandbox) : Prog unit := seq* delete_inner fuel out (h_id h) in vm_generation_ended h.

Definition resume (h : DaytonaSandbox) : Prog unit :=
  if lc_pause (lifecycle (h_capabilities h)) then start_with_docker h else pthrow (Unsupported LifecyclePause).
End Verbs.

Definition fetch_sandbox (h : DaytonaSandbox) : Prog Sandbox := call "fetching sandbox" (Get (h_id h)).

Definition describe (state_text : DsState -> string) (base_path : string) (h : DaytonaSandbox) : Prog SandboxStatus :=
  Do (Get (h_id h)) (fun r => match r with
    | Ok s => lift (status_from_sdk debug_str state_text base_path s)
    | Err e =>
        if is_not_found e then
          let gone := status_new (h_id h) StDeleted in
          pret (mkSandboxStatus (st_id gone) (h_name h) (st_state gone) (st_provider_state gone) (st_error_reason gone) (st_resources gone)
                  (st_sandbox_kind gone) (st_region gone) (st_labels gone) (st_image gone) (st_snapshot gone) (st_network gone)
                  (st_workspace_ownership gone) (st_web_url gone) (st_created_at gone) (st_updated_at gone))
        else pthrow (daytona_error "fetching sandbox" e)
    end).

Definition archive (h : DaytonaSandbox) : Prog unit :=
  if lc_archive (lifecycle (h_capabilities h)) then
    let* s := fetch_sandbox h in
    seq* call "archiving sandbox" (Archive (sb_id s)) in
    vm_generation_ended h
  else pthrow (Unsupported LifecycleArchive).

Definition pause (h : DaytonaSandbox) : Prog unit :=
  if lc_pause (lifecycle (h_capabilities h)) then
    let* s := fetch_sandbox h in
    seq* call "pausing sandbox" (Pause (sb_id s) TRANSITION_BUDGET) in
    vm_generation_ended h
  else pthrow (Unsupported LifecyclePause).

Definition fork (h : DaytonaSandbox) (name : option string) : Prog DaytonaSandbox :=
  if lc_fork (lifecycle (h_capabilities h)) then
    let* s := fetch_sandbox h in
    let current := map_state (sb_state s) in
    if is_running current then
      let* forked := call "forking sandbox" (Fork (sb_id s) name CREATE_TIMEOUT) in
      let child_state := map_state (sb_state forked) in
      if is_running child_state then build (h_capabilities h) forked
      else pthrow (InvalidState child_state ActFork)
    else pthrow (InvalidState current ActFork)
  else pthrow (Unsupported LifecycleFork).

(** The name is the one asked for, or the clock's. *)
Definition snapshot (generated_name : string) (h : DaytonaSandbox) (name : option string) (mode : SnapshotMode) : Prog string :=
  if lc_snapshot_sandbox (lifecycle (h_capabilities h)) then
    match snapshots (h_capabilities h) with
    | None => pthrow (Unsupported CapSnapshots)
    | Some caps =>
        match mode with
        | Filesystem => if pc_filesystem_from_sandbox caps
            then create_sandbox_snapshot debug_str (h_id h) (default generated_name name) mode else pthrow (Unsupported SnapshotsFilesystem)
        | LiveProcessState => if pc_live_process_state_from_sandbox caps
            then create_sandbox_snapshot debug_str (h_id h) (default generated_name name) mode else pthrow (Unsupported SnapshotsLiveProcessState)
        end
    end
  else pthrow (Unsupported LifecycleSnapshotSandbox).

Definition update_network (h : DaytonaSandbox) (policy : NetworkPolicy) : Prog unit :=
  let* settings := lift (network_settings policy) in
  let* s := fetch_sandbox h in
  call "updating network settings" (UpdateNetworkSettings (sb_id s) settings).

Definition resize (h : DaytonaSandbox) (r : Resources) : Prog unit := pthrow (Unsupported LifecycleResize).

Definition enables (interval : option Z) : bool := match interval with Some n => negb (n =? 0) | None => false end.

Definition set_if (context id : string) (i : Interval) (n : option Z) : Prog unit :=
  match n with Some n => call context (SetInterval id i n) | None => pret tt end.

Definition set_timers (h : DaytonaSandbox) (t : LifecycleTimers) : Prog unit :=
  let auto_stop := minutes <$> auto_stop_after_idle t in
  let auto_pause := minutes <$> auto_pause_after_idle t in
  if enables auto_stop && enables auto_pause
  then pthrow (InvalidSpec "timers" "auto_stop and auto_pause are mutually exclusive; set at most one to a non-zero value")
  else
    let* s := fetch_sandbox h in
    let id := sb_id s in
    seq* (if enables auto_pause && negb (is_some auto_stop) then call "disabling auto-stop" (SetInterval id AutoStop 0) else pret tt) in
    seq* set_if "setting auto-stop" id AutoStop auto_stop in
    seq* set_if "setting auto-pause" id AutoPause auto_pause in
    seq* set_if "setting auto-archive" id AutoArchive (minutes <$> auto_archive_after_stop t) in
    seq* set_if "setting auto-delete" id AutoDelete (auto_delete_minutes <$> auto_delete_after_stop t) in
    set_if "setting ttl" id Ttl (minutes <$> ttl t).

Definition set_labels (h : DaytonaSandbox) (labels : gmap string string) : Prog unit :=
  let all := stored_labels labels (Some (h_working_dir h)) (h_nested h) in
  let* s := fetch_sandbox h in
  call "setting labels" (SetLabels (sb_id s) all).
End Handle.

(** ** The provider *)

Inductive HealthStatus := HealthOk | Unreachable | Unauthorized.

Record ProviderHealth := mkHealth {
  hl_status : HealthStatus;
  hl_message : option string;
  hl_missing : list string;
  hl_required : list string;
  hl_identity : option string;
}.

Section Provider.
Context (debug_str : string -> string) (display : Error -> string) (deserialize : json -> result DaytonaProviderConfig string).
Context (state_text : DsState -> string) (base_path : string).
Context (hmac_sha256 : string -> string -> bytes) (sha256_hex : string -> string) (secret : string).
Context (fuel : nat) (out : Error).

Definition cached_snapshot_name (source : SnapshotSource) (r : Resources) (kind : option SandboxKind) : string :=
  let source_line := match source with
    | FromImage reference => "image " +:+ reference
    | FromDockerfile content => "dockerfile " +:+ sha256_hex content
    | FromSandbox _ _ => "other"
    end in
  let newline := String (char 10) EmptyString in
  let manifest := "sandbox-driver snapshot v1" +:+ newline +:+ option_debug kind_debug kind +:+ newline +:+ source_line +:+ newline +:+
    "cpu " +:+ option_debug print_uint (cpu_cores r) +:+ newline +:+
    "memory_gb " +:+ option_debug print_uint (gigabytes <$> memory_mb r) +:+ newline +:+
    "disk_gb " +:+ option_debug print_uint (gigabytes <$> disk_mb r) +:+ newline +:+
    "gpu " +:+ option_debug print_uint (gpus r) +:+ newline in
  fold_left (fun name byte => name +:+ String (hex_digit (byte / 16)) (String (hex_digit (byte mod 16)) EmptyString))
    (take 16 (hmac_sha256 secret manifest)) "sandbox-driver-".

Definition poll_turn (id : string) (_ : unit) : Prog (Sandbox + unit) :=
  let* s := call "fetching created sandbox" (Get id) in
  match map_state (sb_state s) with
  | StRunning => stops s
  | StError =>
      pthrow (Provider (mkProviderError daytona_kind None (default "sandbox entered the error state" (sb_error_reason s)) false None []))
  | _ => seq* sleep CREATE_POLL in goes_on tt
  end.

Definition wait_for_started (id : string) (budget : Z) : Prog Sandbox :=
  let* o := within budget (poll fuel out (poll_turn id) tt) in
  match o with Some r => lift r | None => pthrow (Timeout "creating sandbox" budget) end.

Definition cleanup_failed_create (id : string) (cause : Error) : Prog Error :=
  failed_create display fuel out id cause FAILED_CREATE_CLEANUP_BUDGET.

(** The program whose failure cleans the created sandbox up, and is what that reports. *)
Definition or_clean_up {A} (id : string) (m : Prog A) : Prog A :=
  pmatch m (fun r => match r with
    | Ok a => pret a
    | Err error => let* error := cleanup_failed_create id error in pthrow error
    end).

Definition create_inner (params : SnapshotParams) (budget : Z) : Prog Sandbox :=
  let* created := call "creating sandbox" (Create params) in
  or_clean_up (sb_id created) (wait_for_started (sb_id created) budget).

Definition runtime_directory (id path : string) : Prog unit :=
  seq* call "creating runtime directory" (CreateFolder id path "0700") in
  call "setting runtime directory permissions" (SetFilePermissions id path "0700").

Definition initialize_directories (id : string) (working_directory : option string) : Prog unit :=
  seq* call "connecting to the toolbox" (ConnectFs id) in
  seq* match working_directory with
       | Some dir => call "creating requested working directory" (CreateFolder id dir "0755")
       | None => pret tt
       end in
  seq* runtime_directory id RUNTIME_DIRECTORY_PARENT in
  runtime_directory id RUNTIME_DIRECTORY.

Definition handle (s : Sandbox) : Prog DaytonaSandbox := build debug_str daytona_capabilities s.

Definition check_kind (requested actual : option SandboxKind) : result unit Error :=
  match requested with
  | Some kind =>
      guard? bool_decide (actual = Some kind)
        else InvalidSpec "sandbox_kind" ("Daytona created a sandbox with kind " +:+ option_debug kind_debug actual +:+ ", not " +:+ kind_debug kind) in
      Ok tt
  | None => Ok tt
  end.

Definition finish_create (created : Sandbox) (spec : SandboxSpec) (nested_docker : option NestedDockerConfig) : Prog DaytonaSandbox :=
  seq* lift (check_kind (sandbox_kind spec) (sandbox_kind_from_class <$> sb_class created)) in
  seq* initialize_directories (sb_id created) (working_directory spec) in
  let* h := handle created in
  seq* match nested_docker, h_nested h with
       | Some config, Some TargetContainer => nested_create (h_id h) config (env spec)
       | _, _ => pret tt
       end in
  pret h.

Definition not_found (id : string) : Error := NotFound RkSandbox id.

Definition managed_sandbox (id : string) : Prog Sandbox :=
  let* s := fetch RkSandbox id "fetching sandbox" (Get id) in
  if bool_decide (sb_labels s !! MANAGED_LABEL = Some "true") then pret s else pthrow (not_found id).

Definition create_budget (s : SandboxSpec) : Z :=
  match source s with Dockerfile _ => DOCKERFILE_CREATE_TIMEOUT | _ => CREATE_TIMEOUT end.

Definition cached_snapshot `{SnapshotProvider} (spec : SandboxSpec) : Prog string :=
  let* source := lift match source spec with
    | Image reference => Ok (FromImage reference)
    | Dockerfile content => Ok (FromDockerfile content)
    | _ => Err (InvalidSpec "source" "not an image or Dockerfile")
    end in
  let name := cached_snapshot_name source (resources spec) (sandbox_kind spec) in
  let kind := match sandbox_kind spec with Some kind => Some kind | None => Some KindContainer end in
  ensure debug_str (mkSnapshotSpec (Some name) source kind (region spec) (resources spec)) (create_budget spec).

Definition ensure_snapshot_kind (id : string) (requested : option SandboxKind) : Prog unit :=
  match requested with
  | None => pret tt
  | Some requested =>
      let* snapshot := fetch RkSnapshot id "fetching snapshot kind" (GetSnapshot id) in
      match sandbox_kind_from_class <$> sn_class snapshot with
      | None => pthrow (InvalidSpec "sandbox_kind" "the snapshot does not report a sandbox kind")
      | Some actual =>
          if bool_decide (actual = requested) then pret tt
          else pthrow (InvalidSpec "sandbox_kind" ("the snapshot has kind " +:+ kind_debug actual +:+ ", not " +:+ kind_debug requested))
      end
  end.

(** The snapshot a sandbox of the spec is made from. *)
Definition source_snapshot `{SnapshotProvider} (spec : SandboxSpec) : Prog string :=
  match source spec with
  | Image _ | Dockerfile _ =>
      if bool_decide (sandbox_kind spec = Some KindVirtualMachine)
      then pthrow (InvalidSpec "sandbox_kind" "Daytona virtual machines must be created from a virtual-machine snapshot")
      else cached_snapshot spec
  | Snapshot id => seq* ensure_snapshot_kind id (sandbox_kind spec) in pret id
  | HostDirectory => pthrow (InvalidSpec "source" "the daytona provider needs an image, dockerfile, or snapshot source")
  end.

(** The event of the creation has the sandbox's id, checked before all that is cleaned up. *)
Definition create `{SnapshotProvider} (spec : SandboxSpec) : Prog DaytonaSandbox :=
  let* (base, nested_docker) := lift (
    check? validate spec in
    check? validate_supported_creation_fields spec in
    let? base := base_params deserialize spec in
    let? config := provider_config deserialize (Spec.provider_config spec) in
    Ok (base, config_docker config)) in
  let* snapshot := source_snapshot spec in
  let* created := create_inner (mkSnapshotParams base snapshot) (create_budget spec) in
  seq* lift (sandbox_id debug_str (sb_id created)) in
  or_clean_up (sb_id created) (finish_create created spec nested_docker).

Definition attach (id : string) : Prog DaytonaSandbox := let* s := managed_sandbox id in handle s.

Definition undelete (id : string) : Prog DaytonaSandbox :=
  let* s := managed_sandbox id in
  seq* call "undeleting sandbox" (Recover (sb_id s)) in
  let* refreshed := call "fetching undeleted sandbox" (Get id) in
  handle refreshed.

Definition list_sandboxes (f : SandboxFilter) : Prog (list SandboxStatus) :=
  let* items := call "listing sandboxes" (ListAll (<[MANAGED_LABEL := "true"]> (filter_labels f))) in
  lift (collect (status_from_sdk debug_str state_text base_path) items).

(** A key's organization is the identity, else a token's; the organization header is the
    client's. *)
Definition health (uses_api_key : bool) (organization : option string) : Prog ProviderHealth :=
  Do ListOne (fun r => match r with
    | Err e =>
        let status := match e with ApiErr s _ => if (s =? 401) || (s =? 403) then Unauthorized else Unreachable | _ => Unreachable end in
        pret (mkHealth status (Some ("listing sandboxes failed: " +:+ error_text e)) [] [] None)
    | Ok _ =>
        let identity := if uses_api_key then None else (fun id => "organization:" +:+ id) <$> organization in
        Do CurrentKey (fun r => match r with
          | Ok (Some key) =>
              let identity := match key_organization key ≫= non_empty_text with Some o => Some ("organization:" +:+ o) | None => identity end in
              let missing := missing_permission_names (key_permissions key) in
              match missing with
              | [] => pret (mkHealth HealthOk None missing REQUIRED_PERMISSIONS identity)
              | _ => pret (mkHealth Unauthorized
                       (Some ("API key " +:+ debug_str (key_name key) +:+ " is missing required scopes: " +:+ String.concat ", " missing))
                       missing REQUIRED_PERMISSIONS identity)
              end
          | _ => pret (mkHealth HealthOk None [] [] identity)
          end)
    end).
End Provider.
