(* ===== verification/DaytonaCleanup.v ===== *)
(** * What a failed creation on Daytona leaves

    The cleanup of [cleanup.rs] ends by its deadline; it reports the creation's failure alone
    only when the sandbox is gone, and one that names the sandbox otherwise; and it
    deletes again only after a delete that was not admitted. *)

From S2P Require Import Prelude Text Errors DaytonaApi DaytonaSim DaytonaLoops DaytonaPlan Daytona.

#[local] Open Scope string_scope.
#[local] Open Scope list_scope.
#[local] Open Scope Z_scope.

Definition is_delete (c : Request) : bool := match c with Delete _ => true | _ => false end.

(** ** Being gone *)

Lemma deleted_state st : map_state st = StDeleted -> st = Some DsDestroyed.
Proof. by destruct st as [[]|]. Qed.

Lemma gone_boxes id d d' : boxes d' = boxes d -> gone id d -> gone id d'.
Proof. unfold gone. by intros ->. Qed.

Lemma not_found_gone (c : Request) id d d' e :
  match c with Get i | Delete i | Start i | Stop i => i = id | _ => False end ->
  answers c d d' (Err e) -> is_not_found e = true -> gone id d'.
Proof.
  intros Hc (d1 & _ & _ & _ & Hn & _) He. destruct (Hn He) as [[Hb _] Hg].
  destruct c; try done; subst; by apply (gone_boxes _ d1).
Qed.

Lemma get_deleted id d d' s : answers (Get id) d d' (Ok s) -> map_state (sb_state s) = StDeleted -> gone id d'.
Proof.
  intros (d1 & _ & [Hb _] & b & Hi & -> & _) Hs%deleted_state. intros b'. rewrite Hb, Hi. by intros [= <-].
Qed.

Lemma Z_to_nat_mono a b : a <= b -> (Z.to_nat a <= Z.to_nat b)%nat.
Proof. lia. Qed.

Section Cleanup.
Context {W : Type} `{Lawful W}.

(** A turn that sleeps under a deadline and goes on. *)
Lemma slept_by {A S} t ns (x : S) w :
  let '(w', o) := run (by_deadline t (seq* sleep ns in goes_on (A := A) x)) w in
  o = Ok None \/ o = Ok (Some (Ok (inr x))) /\ clock (view w) < t /\ clock (view w) + ns <= clock (view w').
Proof.
  unfold sleep, goes_on, pbind. cbn [pmatch by_deadline run pret].
  pose proof (law_ask_by t (Sleep ns) w) as Hl. destruct (ask_by t (Sleep ns) w) as [w1 [r|]]; cbn [by_deadline run pret]; [|by left].
  right. destruct Hl as (Ht & d1 & Hd%drift_later & Ha). split_and!; [done..|].
  destruct r as [u|e]; [destruct Ha as [_ ?]; lia|]. by destruct Ha as (_ & _ & _ & []).
Qed.

Section At.
Context (t : Z) (id : string).

Definition ticks (w : W) : nat := left t TRANSITION_POLL (clock (view w)).

Lemma ticks_less w w1 w' : clock (view w) <= clock (view w1) -> clock (view w1) < t -> clock (view w1) + TRANSITION_POLL <= clock (view w') ->
  (ticks w' < ticks w)%nat.
Proof. intros H1 H2 H3. apply left_less; [done|lia|]. left. lia. Qed.

(** What a turn of the first loop ends with. *)
Lemma delete_turn_ends w :
  let '(w', o) := run (by_deadline t (delete_turn id tt)) w in
  match o with
  | Ok (Some (Ok (inl false))) => gone id (view w')
  | Ok (Some (Ok (inr _))) => (ticks w' < ticks w)%nat /\ Forall busy (outcomes is_delete (trace (by_deadline t (delete_turn id tt)) w))
  | _ => True
  end /\ never_replayed (outcomes is_delete (trace (by_deadline t (delete_turn id tt)) w)).
Proof.
  unfold delete_turn. cbn [by_deadline run trace]. pose proof (law_ask_by t (Delete id) w) as Hl.
  destruct (ask_by t (Delete id) w) as [w1 [[u|e]|]]; [split; [done|by constructor]| |split; [done|by constructor]].
  pose proof (answers_by_later _ _ _ _ _ Hl) as Hc. destruct Hl as [_ Hl].
  destruct (is_not_found e) eqn:En; [split; [|by constructor]; by apply (not_found_gone (Delete id) _ (view w) _ e)|].
  destruct (is_state_change_in_progress e) eqn:Eb; [|split; [done|by constructor]].
  set (again := seq* sleep TRANSITION_POLL in goes_on tt).
  assert (Ho : forall w2, outcomes is_delete (trace (by_deadline t again) w2) = []).
  { intros w2. apply outcomes_other. apply only_by_deadline. unfold again, sleep. by repeat constructor. }
  unfold outcomes. rewrite filter_cons_True by done. fold (outcomes is_delete (trace (by_deadline t again) w1)).
  cbn [map]. change (map _ (filter _ (trace (by_deadline t again) w1))) with (outcomes is_delete (trace (by_deadline t again) w1)).
  rewrite Ho. pose proof (slept_by (A := bool) t TRANSITION_POLL tt w1) as Hs. fold again in Hs.
  destruct (run (by_deadline t again) w1) as [w2 o]. split; [|by constructor].
  destruct Hs as [->|(-> & H1 & H2)]; [done|]. split; [by apply (ticks_less _ w1)|]. constructor; [by exists e|done].
Qed.

Lemma confirm_turn_ends w :
  let '(w', o) := run (by_deadline t (confirm_turn id tt)) w in
  match o with
  | Ok (Some (Ok (inl _))) => gone id (view w')
  | Ok (Some (Ok (inr _))) => (ticks w' < ticks w)%nat
  | _ => True
  end.
Proof.
  unfold confirm_turn. cbn [by_deadline run]. pose proof (law_ask_by t (Get id) w) as Hl.
  destruct (ask_by t (Get id) w) as [w1 [[s|e]|]]; [| |done]; pose proof (answers_by_later _ _ _ _ _ Hl) as Hc; destruct Hl as [_ Hl].
  - case_bool_decide as Hs; [by apply (get_deleted _ (view w) _ s)|].
    pose proof (slept_by (A := unit) t TRANSITION_POLL tt w1) as Hw. destruct (run _ w1) as [w2 o].
    destruct Hw as [->|(-> & H1 & H2)]; [done|]. by apply (ticks_less _ w1).
  - destruct (is_not_found e) eqn:En; [|done]. by apply (not_found_gone (Get id) _ (view w) _ e).
Qed.

Lemma ticks_mono w w' : clock (view w) <= clock (view w') -> (ticks w' <= ticks w)%nat.
Proof. intros Hc. unfold ticks, left. apply Z_to_nat_mono, Z.div_le_mono; [done|lia]. Qed.

Lemma delete_goes w w' x : run (by_deadline t (delete_turn id tt)) w = (w', Ok (Some (Ok (inr x)))) -> (ticks w' < ticks w)%nat.
Proof. intros Hr. pose proof (delete_turn_ends w) as Ht. rewrite Hr in Ht. apply Ht. Qed.

Lemma delete_absent w w' : run (by_deadline t (delete_turn id tt)) w = (w', Ok (Some (Ok (inl false)))) -> gone id (view w').
Proof. intros Hr. pose proof (delete_turn_ends w) as Ht. rewrite Hr in Ht. apply Ht. Qed.

Lemma confirm_goes w w' x : run (by_deadline t (confirm_turn id tt)) w = (w', Ok (Some (Ok (inr x)))) -> (ticks w' < ticks w)%nat.
Proof. intros Hr. pose proof (confirm_turn_ends w) as Ht. by rewrite Hr in Ht. Qed.

Lemma confirmed w w' x : run (by_deadline t (confirm_turn id tt)) w = (w', Ok (Some (Ok (inl x)))) -> gone id (view w').
Proof. intros Hr. pose proof (confirm_turn_ends w) as Ht. by rewrite Hr in Ht. Qed.

Lemma confirm_ends f1 f2 out1 out2 w : (ticks w < f1)%nat -> (ticks w < f2)%nat ->
  let '(w', o) := run (by_deadline t (poll f1 out1 (confirm_turn id) tt)) w in
  run (by_deadline t (poll f2 out2 (confirm_turn id) tt)) w = (w', o) /\ (o = Ok (Some (Ok tt)) -> gone id (view w')).
Proof.
  intros H1 H2. pose proof (poll_by_spec (confirm_turn id) (fun _ _ => True) ticks t f1 f2 out1 out2 tt w) as Hd.
  destruct (run _ w) as [w1 o]. destruct Hd as (Hf & [] & w0 & o' & _ & -> & Ht); [|done..|].
  - intros [] w2 w3 [] _ Ht. split; [done|]. by apply (confirm_goes _ _ tt).
  - split; [done|]. intros [= ->]. by apply (confirmed w0 w1 tt).
Qed.

(** The cleanup is the same for any fuel that covers the deadline. *)
Lemma cleanup_ends f1 f2 out1 out2 w : (ticks w < f1)%nat -> (ticks w < f2)%nat ->
  let '(w', o) := run (by_deadline t (delete_and_confirm f1 out1 id)) w in
  run (by_deadline t (delete_and_confirm f2 out2 id)) w = (w', o) /\ (o = Ok (Some (Ok tt)) -> gone id (view w')).
Proof.
  intros H1 H2. unfold delete_and_confirm, pbind. rewrite !by_deadline_match.
  pose proof (poll_by_spec (delete_turn id) (fun _ _ => True) ticks t f1 f2 out1 out2 tt w) as Hd.
  destruct (run (by_deadline t (poll f1 out1 (delete_turn id) tt)) w) as [w1 o] eqn:Er.
  destruct Hd as (Hf & [] & w0 & o' & _ & -> & Ht); [|done..|].
  { intros [] w2 w3 [] _ Ht. split; [done|]. by apply (delete_goes _ _ tt). }
  rewrite Hf. destruct o' as [[[]|e]|]; [|split; [done|]; intros _; by apply (delete_absent w0)|by split..].
  apply confirm_ends; (eapply Nat.le_lt_trans; [|done]); apply ticks_mono; by apply (run_later _ _ _ _ Er).
Qed.

Lemma cleanup_once fuel out w : never_replayed (outcomes is_delete (trace (by_deadline t (delete_and_confirm fuel out id)) w)).
Proof.
  assert (Hc : forall b w1, outcomes is_delete (trace (by_deadline t (if b : bool then poll fuel out (confirm_turn id) tt else pret tt)) w1) = []).
  { intros b w1. apply outcomes_other, only_by_deadline. destruct b; [|done]. apply only_poll. intros []. split; [done|].
    intros [s|e]; [case_bool_decide|destruct (is_not_found e)]; by repeat constructor. }
  unfold delete_and_confirm, pbind. rewrite by_deadline_trace, outcomes_app.
  assert (Hd : never_replayed (outcomes is_delete (trace (by_deadline t (poll fuel out (delete_turn id) tt)) w))).
  { apply poll_by_once. intros [] w1. pose proof (delete_turn_ends w1) as Ht.
    destruct (run (by_deadline t (delete_turn id tt)) w1) as [w2 o]. destruct Ht as [H1 H2]. split; [done|]. intros w3 x [= -> ->]. apply H1. }
  destruct (run _ w) as [w1 [[[b|e]|]|e]]; [rewrite Hc|..]; by rewrite app_nil_r.
Qed.
End At.

(** What the cleanup of a failed creation reports, whatever fuel it has past its need. *)
Lemma failed_create_ends display f1 f2 out1 out2 id cause budget w : 0 <= budget ->
  (turns budget TRANSITION_POLL <= f1)%nat -> (turns budget TRANSITION_POLL <= f2)%nat ->
  let '(w', r) := run (failed_create display f1 out1 id cause budget) w in
  run (failed_create display f2 out2 id cause budget) w = (w', r) /\
  exists e, r = Ok e /\ (e = cause /\ gone id (view w') \/ exists cleanup, e = unconfirmed display id cause cleanup).
Proof.
  intros Hb H1 H2. unfold failed_create, within. rewrite !run_pbind. destruct (run_asks_now w) as (w0 & -> & _).
  assert (Hl : (ticks (clock (view w0) + budget) w0 < turns budget TRANSITION_POLL)%nat) by (apply left_turns; [done|done|lia]).
  pose proof (cleanup_ends (clock (view w0) + budget) id f1 f2 out1 out2 w0 ltac:(lia) ltac:(lia)) as Hc.
  destruct (by_deadline_ok (clock (view w0) + budget) (delete_and_confirm f1 out1 id) w0) as (w' & o & Ho). rewrite Ho in *.
  destruct Hc as [-> Hg]. split; [done|]. eexists. split; [done|]. destruct o as [[[]|e]|]; [left|right..]; eauto.
Qed.

Lemma failed_create_once display fuel out id cause budget w :
  never_replayed (outcomes is_delete (trace (failed_create display fuel out id cause budget) w)).
Proof.
  unfold failed_create. rewrite outcomes_first by done. unfold within. rewrite outcomes_then by by apply only_now.
  destruct (run now w) as [w0 [t|e]]; [apply cleanup_once|constructor].
Qed.
End Cleanup.

(** C13. The cleanup of a failed creation ends by its deadline (more fuel changes
    nothing). It reports the creation's own failure only when the sandbox is gone, and
    otherwise an error with the code [incomplete_cleanup] that names the sandbox and has
    both failures; and it sends a delete again only when the one before was refused for
    a change of state in progress. *)
Theorem failed_create_confirms {W} `{Lawful W} display fuel out id cause budget w : 0 <= budget ->
  (turns budget TRANSITION_POLL <= fuel)%nat ->
  let '(w', r) := run (failed_create display (turns budget TRANSITION_POLL) out_of_fuel id cause budget) w in
  run (failed_create display fuel out id cause budget) w = (w', r) /\
  (exists e, r = Ok e /\ (e = cause /\ gone id (view w') \/ exists cleanup, e = unconfirmed display id cause cleanup)) /\
  never_replayed (outcomes is_delete (trace (failed_create display (turns budget TRANSITION_POLL) out_of_fuel id cause budget) w)).
Proof.
  intros Hb Hf. pose proof (failed_create_ends display _ fuel out_of_fuel out id cause budget w Hb (le_n _) Hf) as He.
  destruct (run _ w) as [w' r]. destruct He as [H1 H2]. split_and!; [done..|apply failed_create_once].
Qed.

(** ** Examples *)

Definition demo_display (e : Error) : string := report_kind e.
Definition demo_cause : Error := InvalidSpec "service" "readiness failed".

Definition demo_clean (budget : Z) (fs : list Fault) : Sim * result Error Error :=
  run (failed_create demo_display 400 out_of_fuel "sb-1" demo_cause budget) (demo_sim DsStarted fs).

(** A refused delete is repeated; an accepted one is confirmed. *)
Example demo_confirmed :
  let '(s, r) := demo_clean (seconds 5) [Busy; Fine; Fine; Becomes DsDestroyed] in
  r = Ok demo_cause /\ clock (plane s) = seconds 2 /\ demo_states s = [("sb-1", Some DsDestroyed)].
Proof. vm_compute. by split_and!. Qed.

(** A sandbox that stays in its destruction is reported when the time is up. *)
Example demo_unconfirmed :
  let '(s, r) := demo_clean (seconds 5) [] in
  r = Ok (unconfirmed demo_display "sb-1" demo_cause (Timeout "confirming failed-create cleanup" (seconds 5))) /\ clock (plane s) = seconds 5.
Proof. vm_compute. by split_and!. Qed.

Lemma failed_create_confirms_witness : 0 <= seconds 5 /\
  let '(w', r) := run (failed_create demo_display (turns (seconds 5) TRANSITION_POLL) out_of_fuel "sb-1" demo_cause (seconds 5)) (demo_sim DsStarted [LostAnswer]) in
  run (failed_create demo_display 400 out_of_fuel "sb-1" demo_cause (seconds 5)) (demo_sim DsStarted [LostAnswer]) = (w', r) /\
  (exists e, r = Ok e /\ (e = demo_cause /\ gone "sb-1" (view w') \/ exists cleanup, e = unconfirmed demo_display "sb-1" demo_cause cleanup)) /\
  never_replayed (outcomes is_delete (trace (failed_create demo_display (turns (seconds 5) TRANSITION_POLL) out_of_fuel "sb-1" demo_cause (seconds 5)) (demo_sim DsStarted [LostAnswer]))).
Proof.
  split; [done|].
  apply (failed_create_confirms demo_display 400 out_of_fuel "sb-1" demo_cause (seconds 5) (demo_sim DsStarted [LostAnswer])); [done|].
  vm_compute. lia.
Defined.
