(* ===== verification/DaytonaLife.v ===== *)
(** * Lifecycle requests through another's transition

    What [start], [stop] and [delete] of a Daytona sandbox come to when the service refuses
    them during a change of state: they end, a success is what was asked for, and no
    request follows one that may have been admitted. *)

From S2P Require Import Prelude Text Errors DaytonaApi DaytonaSim DaytonaLoops DaytonaPlan Daytona DaytonaCleanup.

#[local] Open Scope string_scope.
#[local] Open Scope list_scope.
#[local] Open Scope Z_scope.

Definition is_lifecycle (c : Request) : bool := match c with Start _ | Stop _ | Delete _ => true | _ => false end.

(** The service has the sandbox in such a state. *)
Definition is_at (id : string) (P : SandboxState -> bool) (d : Plane) : Prop :=
  exists b, boxes d !! id = Some b /\ P (map_state (box_state b)) = true.

Lemma daytona_error_no_timeout context e operation elapsed : daytona_error context e <> Timeout operation elapsed.
Proof. unfold daytona_error. destruct e as [[s|] t|h t|s m|[s|] t|[s|] t]; cbn; try done. by destruct (_ || _). Qed.

Section Life.
Context {W : Type} `{Lawful W}.

Section Transition.
Context (id operation : string) (started : Z).

Definition rest (w : W) : nat := left (started + TRANSITION_BUDGET) TRANSITION_POLL (clock (view w)).

Lemma rest_less w w' t : clock (view w) <= t -> t < started + TRANSITION_BUDGET -> t + TRANSITION_POLL <= clock (view w') -> (rest w' < rest w)%nat.
Proof. intros H1 H2 H3. apply left_less; [done|lia|]. left. lia. Qed.

(** What was seen of the sandbox. *)
Definition seen (s : SandboxState) (d : Plane) : Prop := (s = StDeleted /\ gone id d) \/ is_at id (fun x => bool_decide (x = s)) d.

Section Errors.
Context (P : Error -> Prop).
Context (P_late : forall elapsed, TRANSITION_BUDGET <= elapsed -> P (Timeout operation elapsed)) (P_sdk : forall context e, P (daytona_error context e)).

Lemma wait_turn_ends done w :
  let '(w', r) := run (wait_turn id operation started done tt) w in
  match r with
  | Ok (inl s) => seen s (view w')
  | Ok (inr _) => (rest w' < rest w)%nat
  | Err e => P e
  end.
Proof.
  unfold wait_turn. cbn [run]. pose proof (law_ask (Get id) w) as Hl. destruct (ask (Get id) w) as [w1 [s|e]].
  - destruct (done _ || is_stable _).
    + cbn. right. destruct Hl as (d1 & _ & [Hb _] & b & Hi & -> & _). exists b. rewrite Hb. split; [done|]. by apply bool_decide_eq_true.
    + apply answers_later in Hl. destruct (run _ w1) as [w' r] eqn:Er. apply (slept _ _ (Timeout operation)) in Er.
      destruct Er as [(el & Hel & ->)|(t & w2 & H1 & H2 & H3 & [= <- <-])]; [by apply P_late|]. by apply (rest_less _ _ t); [lia|..].
  - destruct (is_not_found e) eqn:En; cbn; [|apply P_sdk]. left. split; [done|]. by apply (not_found_gone (Get id) _ (view w) _ e).
Qed.

Lemma wait_ends f1 f2 out1 out2 done w : (rest w < f1)%nat -> (rest w < f2)%nat ->
  let '(w', r) := run (wait_for_state f1 out1 id operation started done) w in
  run (wait_for_state f2 out2 id operation started done) w = (w', r) /\
  match r with Ok s => seen s (view w') | Err e => P e end.
Proof.
  intros H1 H2. pose proof (poll_spec (wait_turn id operation started done) (fun _ _ => True) rest (wait_turn id operation started done) f1 f2 out1 out2 tt w) as Hp.
  unfold wait_for_state. destruct (run _ w) as [w' r]. destruct Hp as (Hf & [] & w1 & _ & Ht); [done| |done..|].
  - intros [] w1 w2 [] _ Ht. split; [done|]. pose proof (wait_turn_ends done w1) as He. by rewrite Ht in He.
  - split; [done|]. pose proof (wait_turn_ends done w1) as He. rewrite Ht in He. by destruct r.
Qed.

Context (send : Prog (result unit DaytonaError)) (settled : SandboxState -> bool) (goal : Plane -> Prop).
Context (send_goal : forall w w', run send w = (w', Ok (Ok tt)) -> goal (view w')) (send_errors : forall w w' e, run send w = (w', Err e) -> P e).
Context (seen_goal : forall s d, seen s d -> settled s = true -> goal d).

Lemma retry_turn_ends f1 f2 out1 out2 w : (rest w < f1)%nat -> (rest w < f2)%nat ->
  let '(w', r) := run (retry_turn f1 out1 id operation send settled started tt) w in
  run (retry_turn f2 out2 id operation send settled started tt) w = (w', r) /\
  match r with
  | Ok (inl _) => goal (view w')
  | Ok (inr _) => (rest w' < rest w)%nat
  | Err e => P e
  end.
Proof.
  intros H1 H2. unfold retry_turn. rewrite !run_pbind. destruct (run send w) as [w1 [[[]|e]|e]] eqn:Es.
  - split; [done|]. by apply (send_goal w).
  - destruct (is_state_change_in_progress e); [|split; [done|apply P_sdk]]. apply run_later in Es.
    assert (Hr : (rest w1 <= rest w)%nat) by (unfold rest, left; apply Z_to_nat_mono, Z.div_le_mono; [done|lia]).
    pose proof (wait_ends f1 f2 out1 out2 settled w1 ltac:(lia) ltac:(lia)) as Hw. rewrite !run_pbind.
    destruct (run (wait_for_state f1 out1 id operation started settled) w1) as [w2 [s|e']] eqn:Ew; destruct Hw as [-> Hs]; [|by split].
    destruct (settled s) eqn:Et; [split; [done|]; by apply (seen_goal s)|].
    destruct (run _ w2) as [w3 r] eqn:Er. split; [done|].
    apply run_later in Ew. revert Er. unfold transition_retry_pause. rewrite run_pbind, run_pbind. destruct (run_asks_now w2) as (w4 & -> & Hc).
    destruct (Z.leb_spec TRANSITION_BUDGET (clock (view w4) - started)) as [Hb|Hb].
    + intros [= _ <-]. by apply P_late.
    + destruct (run_sleeps TRANSITION_POLL w4) as (w5 & -> & Hs'). intros [= <- <-]. apply (rest_less _ _ (clock (view w4))); lia.
  - split; [done|]. by apply (send_errors w w1).
Qed.

Lemma retry_poll_ends f1 f2 out1 out2 w : (rest w < f1)%nat -> (rest w < f2)%nat ->
  let '(w', r) := run (poll f1 out1 (retry_turn f1 out1 id operation send settled started) tt) w in
  run (poll f2 out2 (retry_turn f2 out2 id operation send settled started) tt) w = (w', r) /\
  match r with Ok _ => goal (view w') | Err e => P e end.
Proof.
  intros H1 H2. set (I := fun (_ : unit) w => (rest w < f1)%nat /\ (rest w < f2)%nat).
  pose proof (poll_spec (retry_turn f1 out1 id operation send settled started) I rest (retry_turn f2 out2 id operation send settled started)
    f1 f2 out1 out2 tt w) as Hp.
  destruct (run _ w) as [w' r]. destruct Hp as (Hf & [] & w1 & [Ha Hb] & Ht); [| |done..|].
  - intros [] w1 [Ha Hb]. pose proof (retry_turn_ends f1 f2 out1 out2 w1 Ha Hb) as He. destruct (run _ w1) as [w2 r2]. apply He.
  - intros [] w1 w2 [] [Ha Hb] Ht. pose proof (retry_turn_ends f1 f2 out1 out2 w1 Ha Hb) as He. rewrite Ht in He. split; [|apply He].
    unfold I. destruct He as [_ He]. cbn in He. lia.
  - split; [done|]. pose proof (retry_turn_ends f1 f2 out1 out2 w1 Ha Hb) as He. rewrite Ht in He. by destruct r, He.
Qed.
End Errors.
End Transition.

Section Retry.
Context (id operation : string) (P : Error -> Prop).
Context (P_late : forall elapsed, TRANSITION_BUDGET <= elapsed -> P (Timeout operation elapsed)) (P_sdk : forall context e, P (daytona_error context e)).
Context (send : Prog (result unit DaytonaError)) (settled : SandboxState -> bool) (goal : Plane -> Prop).
Context (send_goal : forall w w', run send w = (w', Ok (Ok tt)) -> goal (view w')) (send_errors : forall w w' e, run send w = (w', Err e) -> P e).
Context (seen_goal : forall s d, seen id s d -> settled s = true -> goal d).

(** The call ends for a fuel of [TRANSITION_TURNS], with its goal or an error. *)
Lemma retry_ends fuel out w : (TRANSITION_TURNS <= fuel)%nat ->
  let '(w', r) := run (retry_through_transition TRANSITION_TURNS out_of_fuel id operation send settled) w in
  run (retry_through_transition fuel out id operation send settled) w = (w', r) /\
  match r with Ok _ => goal (view w') | Err e => P e end.
Proof.
  intros Hf. unfold retry_through_transition. rewrite !run_pbind. destruct (run_asks_now w) as (w0 & -> & _).
  assert (Hl : (rest (clock (view w0)) w0 < TRANSITION_TURNS)%nat) by (apply left_turns; [done|done|lia]).
  apply retry_poll_ends; [done..|lia|lia].
Qed.

Lemma after_quiet fuel out started : only (fun c => negb (is_lifecycle c))
  (let* state := wait_for_state fuel out id operation started settled in
   if settled state then stops tt else seq* transition_retry_pause operation started in goes_on (A := unit) tt).
Proof. unfold wait_for_state, wait_turn, transition_retry_pause. repeat only_step. Qed.

(** A request is sent again only after a refusal. *)
Lemma retry_once fuel out w :
  (forall w, exists o, outcomes is_lifecycle (trace send w) = [o] /\
     forall w' e, run send w = (w', Ok (Err e)) -> is_state_change_in_progress e = true -> busy o) ->
  never_replayed (outcomes is_lifecycle (trace (retry_through_transition fuel out id operation send settled) w)).
Proof.
  intros Hsend. unfold retry_through_transition. rewrite outcomes_then by by apply only_now. destruct (run now w) as [w0 [t|e]]; [|constructor].
  apply poll_once. intros [] w1. unfold retry_turn.
  rewrite outcomes_first by (intros [u|e]; [done|destruct (is_state_change_in_progress e); [apply after_quiet|done]]).
  destruct (Hsend w1) as (o & -> & Hb). split; [by constructor|].
  intros w2 s'. rewrite run_pbind. destruct (run send w1) as [w3 [[[]|e]|e]] eqn:Es; [done| |done].
  destruct (is_state_change_in_progress e) eqn:Eb; [|done]. intros _. constructor; [by apply (Hb w3 e)|done].
Qed.
End Retry.
End Life.

(** ** Starting, stopping and deleting *)

Inductive Verb := VerbStart | VerbStop | VerbDelete.

Definition perform (v : Verb) : nat -> Error -> string -> Prog unit :=
  match v with VerbStart => start_inner | VerbStop => stop_inner | VerbDelete => delete_inner end.

(** What was wanted: done, or on its way: a start answers while the sandbox is still
    starting, and a stop or a deletion likewise. *)
Definition met (v : Verb) (id : string) (d : Plane) : Prop :=
  match v with
  | VerbStart => is_at id (fun s => bool_decide (s ∈ [StStarting; StResuming; StRunning])) d
  | VerbStop => gone id d \/ is_at id (fun s => bool_decide (s ∈ [StStopping; StStopped; StArchived; StDeleting; StDeleted])) d
  | VerbDelete => gone id d \/ is_at id (fun s => bool_decide (s ∈ [StDeleting; StDeleted])) d
  end.

(** A timeout of the wait is reported past its budget only; a delete has one of its own. *)
Definition timely (v : Verb) (e : Error) : Prop :=
  forall operation elapsed, e = Timeout operation elapsed ->
    TRANSITION_BUDGET <= elapsed \/ (v = VerbDelete /\ elapsed = CLEANUP_TIMEOUT).

Lemma is_at_weaken id (P Q : SandboxState -> bool) d : (forall s, P s = true -> Q s = true) -> is_at id P d -> is_at id Q d.
Proof. intros HPQ (b & Hb & HP). exists b. auto. Qed.

Lemma moved id states d d' (P : SandboxState -> bool) : forallb (fun st => P (map_state (Some st))) states = true ->
  moves id states d d' -> is_at id P d'.
Proof.
  intros HP (b & b' & _ & (st & why & Hst & ->) & [Hb _]). exists (set_sdk (with_state (Some st) why (sdk b)) b).
  rewrite Hb. cbn. rewrite lookup_insert_eq. split; [done|]. unfold box_state. cbn.
  eapply (proj1 (forallb_forall _ _) HP st). by apply list_elem_of_In.
Qed.

Lemma removed id d d' : boxes d' = stdpp.base.delete id (boxes d) -> gone id d'.
Proof. intros Hb b. by rewrite Hb, lookup_delete_eq. Qed.

Section Verbs.
Context {W : Type} `{Lawful W}.

Lemma seen_met v id s d : seen id s d ->
  match v with VerbStart => is_running s | VerbStop => is_stopped s | VerbDelete => is_deleting s end = true -> met v id d.
Proof.
  intros [[-> Hg]|Ha] Hs; destruct v; cbn; try done; try (by left).
  - apply bool_decide_eq_true in Hs as ->. eapply is_at_weaken; [|done]. intros s Hs%bool_decide_eq_true. by subst.
  - right. apply bool_decide_eq_true in Hs. eapply is_at_weaken; [|done]. intros s' ->%bool_decide_eq_true.
    apply bool_decide_eq_true. set_solver.
  - right. eapply is_at_weaken; [|done]. by intros s' ->%bool_decide_eq_true.
Qed.

Lemma start_met id d d' : answers (Start id) d d' (Ok tt) -> met VerbStart id d'.
Proof. intros (d1 & _ & Hm). by eapply moved; [|exact Hm]. Qed.

Lemma stop_met id d d' : answers (Stop id) d d' (Ok tt) -> met VerbStop id d'.
Proof. intros (d1 & _ & Hm). right. by eapply moved; [|exact Hm]. Qed.

Lemma delete_met id d d' : answers (Delete id) d d' (Ok tt) -> met VerbDelete id d'.
Proof. intros (d1 & _ & [Hm|[_ [Hb _]]]); [right; by eapply moved; [|exact Hm]|left; by apply (removed _ d1)]. Qed.

Lemma attempt_met (c : Request) (w w' : W) r : run (attempt c) w = (w', r) -> exists a, r = Ok a /\ answers c (view w) (view w') a.
Proof. unfold attempt. cbn [run]. pose proof (law_ask c w) as Hl. destruct (ask c w) as [w1 a]. intros [= <- <-]. eauto. Qed.

Lemma or_absent_ok r : or_absent r = Ok tt -> r = Ok tt \/ exists e, r = Err e /\ is_not_found e = true.
Proof. destruct r as [[]|e]; cbn; [by left|]. destruct (is_not_found e) eqn:En; [right; eauto|done]. Qed.

Lemma stop_once_met id (w w' : W) : run (stop_once id) w = (w', Ok (Ok tt)) -> met VerbStop id (view w').
Proof.
  unfold stop_once. rewrite run_pbind. destruct (run _ w) as [w1 r] eqn:Er. apply attempt_met in Er as (a & -> & Ha). cbn [run pret].
  intros [= -> [->|(e & -> & En)]%or_absent_ok]; [by apply (stop_met _ (view w))|]. left. by apply (not_found_gone (Stop id) _ (view w) _ e).
Qed.

(** What a bounded delete comes to. *)
Lemma delete_once_ends id (w : W) :
  let '(w', r) := run (delete_once id) w in
  match r with
  | Ok (Ok tt) => met VerbDelete id (view w')
  | Ok (Err e) => outcomes is_lifecycle (trace (delete_once id) w) = [Some (Err e)]
  | Err e => e = Timeout "deleting sandbox" CLEANUP_TIMEOUT
  end /\ length (outcomes is_lifecycle (trace (delete_once id) w)) = 1%nat.
Proof.
  unfold delete_once, within. rewrite run_pbind, outcomes_first by by intros [[a|e]|]. rewrite outcomes_then by by apply only_now.
  rewrite run_pbind. destruct (run_asks_now w) as (w0 & -> & _). unfold attempt. cbn [by_deadline run trace].
  pose proof (law_ask_by (clock (view w0) + CLEANUP_TIMEOUT) (Delete id) w0) as Hl.
  destruct (ask_by _ (Delete id) w0) as [w1 [r|]]; cbn [run by_deadline pret pthrow trace]; [|done].
  destruct Hl as [_ Hl]. split; [|by destruct r]. destruct r as [[]|e]; cbn; [by apply (delete_met _ (view w0))|].
  destruct (is_not_found e) eqn:En; [|done]. left. by apply (not_found_gone (Delete id) _ (view w0) _ e).
Qed.
End Verbs.

Section Settles.
Context {W : Type} `{Lawful W}.

Lemma timely_late v operation elapsed : TRANSITION_BUDGET <= elapsed -> timely v (Timeout operation elapsed).
Proof. intros He op el [= _ <-]. by left. Qed.

Lemma timely_sdk v context e : timely v (daytona_error context e).
Proof. intros op el Hd. by apply daytona_error_no_timeout in Hd. Qed.

(** A request made once, with its answer. *)
Lemma attempt_once (c : Request) {A} (f : result (Answer c) DaytonaError -> A) (w : W) : is_lifecycle c = true ->
  exists r, run (let* r := attempt c in pret (f r)) w = (fst (ask c w), Ok (f r)) /\
    outcomes is_lifecycle (trace (let* r := attempt c in pret (f r)) w) = [noted (Some r)].
Proof.
  intros Hc. exists (snd (ask c w)). unfold attempt, pbind. cbn [pmatch run trace pret]. destruct (ask c w) as [w1 r]. split; [done|].
  unfold outcomes. by rewrite filter_cons_True.
Qed.

(** One send of each verb: its outcome, and what is so when it succeeds. *)
Lemma start_ends fuel out id w : (TRANSITION_TURNS <= fuel)%nat ->
  let '(w', r) := run (start_inner TRANSITION_TURNS out_of_fuel id) w in
  run (start_inner fuel out id) w = (w', r) /\
  match r with Ok _ => met VerbStart id (view w') | Err e => timely VerbStart e end.
Proof.
  intros Hf. unfold start_inner, call. rewrite !run_pbind. cbn [run]. pose proof (law_ask (Get id) w) as Hl.
  destruct (ask (Get id) w) as [w1 [s|e]]; cbn [run pret pthrow]; [|split; [done|apply timely_sdk]].
  destruct (is_running (map_state (sb_state s))) eqn:Er.
  - split; [done|]. apply (seen_met VerbStart id (map_state (sb_state s))); [|done]. right.
    destruct Hl as (d1 & _ & [Hb _] & b & Hi & -> & _). exists b. rewrite Hb. split; [done|]. by apply bool_decide_eq_true.
  - apply (retry_ends id _ (timely VerbStart) (timely_late _ _) (timely_sdk _)); [| |by apply (seen_met VerbStart)|done].
    + intros w2 w3 Hr. apply (attempt_met (Start id)) in Hr as (a & [= <-] & Ha). by apply (start_met _ (view w2)).
    + intros w2 w3 e Hr. by apply (attempt_met (Start id)) in Hr as (a & [=] & _).
Qed.

Lemma stop_ends fuel out id w : (TRANSITION_TURNS <= fuel)%nat ->
  let '(w', r) := run (stop_inner TRANSITION_TURNS out_of_fuel id) w in
  run (stop_inner fuel out id) w = (w', r) /\
  match r with Ok _ => met VerbStop id (view w') | Err e => timely VerbStop e end.
Proof.
  intros Hf. apply (retry_ends id _ (timely VerbStop) (timely_late _ _) (timely_sdk _)); [| |by apply (seen_met VerbStop)|done].
  - apply stop_once_met.
  - intros w2 w3 e. unfold stop_once. rewrite run_pbind. destruct (run (attempt (Stop id)) w2) as [w4 r] eqn:Er.
    by apply attempt_met in Er as (a & -> & _).
Qed.

Lemma delete_ends fuel out id w : (TRANSITION_TURNS <= fuel)%nat ->
  let '(w', r) := run (delete_inner TRANSITION_TURNS out_of_fuel id) w in
  run (delete_inner fuel out id) w = (w', r) /\
  match r with Ok _ => met VerbDelete id (view w') | Err e => timely VerbDelete e end.
Proof.
  intros Hf. apply (retry_ends id _ (timely VerbDelete) (timely_late _ _) (timely_sdk _)); [| |by apply (seen_met VerbDelete)|done].
  - intros w2 w3 Hr. pose proof (delete_once_ends id w2) as Hd. rewrite Hr in Hd. apply Hd.
  - intros w2 w3 e Hr op el ->. pose proof (delete_once_ends id w2) as Hd. rewrite Hr in Hd. destruct Hd as [[= -> ->] _]. by right.
Qed.

Lemma once fuel out v id w : never_replayed (outcomes is_lifecycle (trace (perform v fuel out id) w)).
Proof.
  destruct v; cbn [perform]; [unfold start_inner| |].
  - rewrite outcomes_then by by apply only_call. destruct (run _ w) as [w1 [s|e]]; [|constructor].
    destruct (is_running _); [constructor|]. apply retry_once. intros w2. unfold attempt. cbn [trace run].
    exists (noted (Some (snd (ask (Start id) w2)))). destruct (ask (Start id) w2) as [w3 r]. split; [done|].
    intros w4 e [= _ ->]. by exists e.
  - apply retry_once. intros w2. destruct (attempt_once (Stop id) or_absent w2 eq_refl) as (r & Hr & Ho). exists (noted (Some r)). split; [done|].
    unfold stop_once. rewrite Hr. intros w' e [= _ He] Hb. exists e. split; [|done]. destruct r as [u|e']; [done|]. cbn in *.
    by destruct (is_not_found e'); simplify_eq.
  - apply retry_once. intros w2. pose proof (delete_once_ends id w2) as Hd.
    destruct (outcomes is_lifecycle (trace (delete_once id) w2)) as [|o []] eqn:Ho; try by destruct (run _ w2), Hd.
    exists o. split; [done|]. intros w' e Hr Hb. rewrite Hr in Hd. destruct Hd as [[= ->] _]. by exists e.
Qed.
End Settles.

(** ** How long they take *)

Section Within.
Context {W : Type} `{Lawful W} (d : Z) (quick : prompt d).

Lemma wait_within id operation started done fuel out w : let late := Z.max (clock (view w)) (started + TRANSITION_BUDGET + TRANSITION_POLL + d) in
  clock (view (fst (run (wait_for_state fuel out id operation started done) w))) <= late + 2 * d.
Proof.
  intros late. pose proof (prompt_pos d quick w) as Hd. apply (poll_within (wait_turn id operation started done) fuel out late); [lia| |lia].
  intros [] w1 Hw. unfold wait_turn. cbn [run]. pose proof (asks_within d quick (Get id) w1) as Hg. cbn [asleep] in Hg.
  destruct (ask (Get id) w1) as [w2 [s|e]]; cbn [fst] in Hg; [|destruct (is_not_found e); cbn; lia].
  destruct (done _ || is_stable _); [cbn; lia|].
  pose proof (slept_within d quick TRANSITION_BUDGET TRANSITION_POLL (Timeout operation) started w2 ltac:(done)) as Hs.
  revert Hs. rewrite !run_pbind. destruct (run_asks_now w2) as (w3 & -> & _). destruct (_ <=? _); [cbn; lia|].
  rewrite run_pbind. destruct (run (sleep _) w3) as [w4 [[]|e]]; cbn; lia.
Qed.

Lemma retry_within id operation send settled allowance fuel out w : 0 <= allowance -> takes send (allowance + 2 * d) ->
  clock (view (fst (run (retry_through_transition fuel out id operation send settled) w)))
  <= clock (view w) + TRANSITION_BUDGET + TRANSITION_POLL + allowance + 7 * d.
Proof.
  intros Ha Hsend. pose proof (prompt_pos d quick w) as Hd. unfold retry_through_transition. rewrite run_pbind.
  destruct (run_asks_now w) as (w0 & En & _). pose proof (now_within d quick _ _ _ En) as Hn. rewrite En.
  set (late := clock (view w0) + TRANSITION_BUDGET + TRANSITION_POLL + d).
  assert (0 <= TRANSITION_BUDGET /\ 0 <= TRANSITION_POLL) as [HB HP] by done.
  transitivity (late + allowance + 5 * d); [|lia].
  apply (poll_within (retry_turn fuel out id operation send settled (clock (view w0))) fuel out late); [lia| |lia].
  intros [] w1 Hw. unfold retry_turn. rewrite run_pbind. pose proof (Hsend w1) as Hs1.
  destruct (run send w1) as [w2 [[[]|e]|e]]; cbn [fst] in Hs1; [cbn; lia| |cbn; lia].
  destruct (is_state_change_in_progress e); [|cbn; lia]. rewrite run_pbind.
  pose proof (wait_within id operation (clock (view w0)) settled fuel out w2) as Hs2. cbv zeta in Hs2.
  destruct (run (wait_for_state _ _ _ _ _ _) w2) as [w3 [s|e']]; cbn [fst] in Hs2; [|lia]. destruct (settled s); [cbn; lia|]. rewrite run_pbind.
  pose proof (slept_within d quick TRANSITION_BUDGET TRANSITION_POLL (Timeout operation) (clock (view w0)) w3 ltac:(done)) as Hs3.
  unfold transition_retry_pause. destruct (run _ w3) as [w4 [[]|e']]; cbn; lia.
Qed.

Lemma attempt_within c : asleep c = 0 -> takes (attempt c) d.
Proof.
  intros Hc w. unfold attempt. cbn [run]. pose proof (asks_within d quick c w) as Ha. rewrite Hc in Ha.
  destruct (ask c w) as [w1 r]. cbn in *. lia.
Qed.

Lemma delete_once_within id : takes (delete_once id) (CLEANUP_TIMEOUT + 2 * d).
Proof.
  intros w. assert (0 <= CLEANUP_TIMEOUT) by done. unfold delete_once, within. rewrite run_pbind, run_pbind.
  destruct (run_asks_now w) as (w0 & En & _). pose proof (now_within d quick _ _ _ En) as Hn. rewrite En. unfold attempt. cbn [by_deadline run].
  pose proof (asks_by_within d quick (clock (view w0) + CLEANUP_TIMEOUT) (Delete id) w0) as Hb.
  destruct (ask_by _ (Delete id) w0) as [w1 [r|]]; cbn in *; lia.
Qed.

(** What a verb's one request may take beside the transition's budget. *)
Definition allowance (v : Verb) : Z := match v with VerbDelete => CLEANUP_TIMEOUT | _ => 0 end.

Lemma perform_within v fuel out id w :
  clock (view (fst (run (perform v fuel out id) w))) <= clock (view w) + TRANSITION_BUDGET + TRANSITION_POLL + allowance v + 8 * d.
Proof.
  pose proof (prompt_pos d quick w) as Hd. assert (0 <= TRANSITION_BUDGET /\ 0 <= TRANSITION_POLL /\ 0 <= CLEANUP_TIMEOUT) as (HB & HP & HC) by done.
  destruct v; cbn [perform allowance].
  - unfold start_inner, call. rewrite run_pbind. cbn [run]. pose proof (asks_within d quick (Get id) w) as Hg. cbn [asleep] in Hg.
    destruct (ask (Get id) w) as [w1 [s|e]]; cbn [fst run pret pthrow] in *; [|lia]. destruct (is_running _); [cbn; lia|].
    etrans; [apply (retry_within _ _ _ _ 0); [done|]|lia]. intros w2. etrans; [by apply (attempt_within (Start id))|lia].
  - etrans; [apply (retry_within _ _ _ _ 0); [done|]|lia]. intros w2. unfold stop_once. rewrite run_pbind.
    pose proof (attempt_within (Stop id) eq_refl w2) as Ha. destruct (run _ w2) as [w3 [r|e]]; cbn in *; lia.
  - etrans; [apply (retry_within _ _ _ _ CLEANUP_TIMEOUT); [done|apply delete_once_within]|lia].
Qed.
End Within.

(** C14. Starting, stopping or deleting a sandbox of Daytona ends (more fuel changes
    nothing); where each request is answered, and the clock and its sleeps are late, by [d]
    at most, it has ended within the transition's budget of 120 s, one pause between polls
    and [8 * d] of its beginning, for a deletion with the 10 s its one attempt may take
    besides. Its success means the sandbox is where it was wanted or on its way there
    ([met]): for a start starting, resuming or running; for a stop gone, stopping, stopped,
    archived, deleting or deleted; for a deletion gone, deleting or deleted. A timeout is
    reported past the 120 s only, but for a deletion whose attempt was not answered in its
    10 s ([timely]); and the request is sent again only when it was refused for another's
    change in progress, so never after one that may have been admitted. *)
Theorem lifecycle_settles {W} `{Lawful W} v id fuel out w : (TRANSITION_TURNS <= fuel)%nat ->
  let '(w', r) := run (perform v TRANSITION_TURNS out_of_fuel id) w in
  run (perform v fuel out id) w = (w', r) /\
  (forall d, prompt d -> clock (view w') <= clock (view w) + TRANSITION_BUDGET + TRANSITION_POLL + allowance v + 8 * d) /\
  match r with Ok _ => met v id (view w') | Err e => timely v e end /\
  never_replayed (outcomes is_lifecycle (trace (perform v TRANSITION_TURNS out_of_fuel id) w)).
Proof.
  intros Hf. assert (Hv : let '(w', r) := run (perform v TRANSITION_TURNS out_of_fuel id) w in
    run (perform v fuel out id) w = (w', r) /\ match r with Ok _ => met v id (view w') | Err e => timely v e end).
  { destruct v; [by apply start_ends|by apply stop_ends|by apply delete_ends]. }
  assert (Ht : forall d, prompt d -> clock (view (fst (run (perform v TRANSITION_TURNS out_of_fuel id) w)))
    <= clock (view w) + TRANSITION_BUDGET + TRANSITION_POLL + allowance v + 8 * d) by (intros d Hd; by apply perform_within).
  destruct (run _ w) as [w' r]. destruct Hv as [H1 H2]. split_and!; [done..|apply once].
Qed.

(** ** Examples *)

(** A stop that another's stop refuses is met by that one. *)
Example demo_stop :
  let '(s, r) := run (perform VerbStop TRANSITION_TURNS out_of_fuel "sb-1") (demo_sim DsStopping [Busy; Fine; Becomes DsStopped]) in
  r = Ok tt /\ clock (plane s) = seconds 1.
Proof. vm_compute. by split_and!. Qed.

(** A sandbox that never settles is given up past the budget. *)
Example demo_stuck :
  let '(s, r) := run (perform VerbStart TRANSITION_TURNS out_of_fuel "sb-1") (demo_sim DsStopping [Fine; Busy]) in
  r = Err (Timeout "starting sandbox" TRANSITION_BUDGET) /\ clock (plane s) = TRANSITION_BUDGET.
Proof. vm_compute. by split_and!. Qed.

(** A deletion whose one attempt is not answered gives up at its own deadline. *)
Example demo_stalled :
  let '(s, r) := run (perform VerbDelete TRANSITION_TURNS out_of_fuel "sb-1") (demo_sim DsStarted [Stalled]) in
  r = Err (Timeout "deleting sandbox" CLEANUP_TIMEOUT) /\ clock (plane s) = CLEANUP_TIMEOUT.
Proof. vm_compute. by split_and!. Qed.

Lemma lifecycle_settles_witness : prompt (W := Sim) 0 /\
  let '(w', r) := run (perform VerbDelete TRANSITION_TURNS out_of_fuel "sb-1") (demo_sim DsStopping [Busy; Becomes DsStopped]) in
  run (perform VerbDelete 1000 out_of_fuel "sb-1") (demo_sim DsStopping [Busy; Becomes DsStopped]) = (w', r) /\
  (forall d, prompt (W := Sim) d -> clock (view w') <= clock (view (demo_sim DsStopping [Busy; Becomes DsStopped]))
     + TRANSITION_BUDGET + TRANSITION_POLL + allowance VerbDelete + 8 * d) /\
  match r with Ok _ => met VerbDelete "sb-1" (view w') | Err e => timely VerbDelete e end /\
  never_replayed (outcomes is_lifecycle (trace (perform VerbDelete TRANSITION_TURNS out_of_fuel "sb-1") (demo_sim DsStopping [Busy; Becomes DsStopped]))).
Proof.
  split; [exact sim_prompt|].
  apply (lifecycle_settles VerbDelete "sb-1" 1000 out_of_fuel (demo_sim DsStopping [Busy; Becomes DsStopped])). vm_compute. lia.
Defined.
