(* ===== verification/DaytonaCreate.v ===== *)
(** * Creating a sandbox of Daytona

    What a creation leaves when it fails, whatever the answers of the service: nothing it
    knows of, or an error that names it. What one that succeeds returns, and what the
    labels it stored make of the sandbox from then on. *)

From S2P Require Import Prelude Text Ids Capabilities Errors DockerPlan Spec DaytonaApi DaytonaSim DaytonaLoops DaytonaPlan DaytonaSnapshots Daytona DaytonaCleanup.

#[local] Open Scope string_scope.
#[local] Open Scope list_scope.
#[local] Open Scope Z_scope.

(** ** Labels *)

Lemma parse_target_label t : parse_target (target_label t) = Ok t.
Proof. by destruct t. Qed.

Lemma callers_internal l k : is_internal_label k = true -> callers l !! k = None.
Proof. intros Hk. unfold callers. rewrite map_lookup_filter. destruct (l !! k); [|done]. cbn. rewrite option_guard_False; [done|]. change (is_internal_label k <> false). by rewrite Hk. Qed.

Lemma stored_managed l wd t : stored_labels l wd t !! MANAGED_LABEL = Some "true".
Proof.
  unfold stored_labels. assert (forall k v (m : gmap string string), k <> MANAGED_LABEL -> insert_some k v m !! MANAGED_LABEL = m !! MANAGED_LABEL) as Hi.
  { intros k [v|] m Hk; cbn; [by rewrite lookup_insert_ne|done]. }
  rewrite !Hi by done. by rewrite lookup_insert_eq.
Qed.

Lemma insert_some_eq k v (m : gmap string string) : m !! k = None -> insert_some k v m !! k = v.
Proof. destruct v as [v|]; cbn; [by rewrite lookup_insert_eq|done]. Qed.

Lemma insert_some_ne k k' v (m : gmap string string) : k <> k' -> insert_some k v m !! k' = m !! k'.
Proof. intros Hk. destruct v as [v|]; cbn; [by rewrite lookup_insert_ne|done]. Qed.

Lemma stored_directory l wd t : stored_labels l wd t !! WORKING_DIRECTORY_LABEL = wd.
Proof.
  unfold stored_labels. rewrite insert_some_ne by done. apply insert_some_eq. rewrite lookup_insert_ne by done. by apply callers_internal.
Qed.

Lemma stored_target l wd t : stored_labels l wd t !! TARGET_LABEL = target_label <$> t.
Proof.
  unfold stored_labels. apply insert_some_eq. rewrite insert_some_ne by done. rewrite lookup_insert_ne by done. by apply callers_internal.
Qed.

(** Of what is stored the caller reads its own labels back. *)
Lemma callers_stored l wd t : callers (stored_labels l wd t) = callers l.
Proof.
  apply map_eq. intros k. destruct (is_internal_label k) eqn:Ek; [by rewrite !callers_internal|].
  assert (Hne : MANAGED_LABEL <> k /\ WORKING_DIRECTORY_LABEL <> k /\ TARGET_LABEL <> k) by (by split_and!; intros <-).
  destruct Hne as (H1 & H2 & H3). unfold callers at 1. rewrite map_lookup_filter. unfold stored_labels.
  rewrite !insert_some_ne, lookup_insert_ne by done. destruct (callers l !! k) as [v|]; cbn; [|done]. by rewrite option_guard_True.
Qed.

(** ** Requests that leave the labels alone *)

Definition keeps_labels (c : Request) : bool := match c with Create _ | Fork _ _ _ | SetLabels _ _ => false | _ => true end.

Definition labelled (id : string) (L : gmap string string) (d : Plane) : Prop :=
  forall b, boxes d !! id = Some b -> sb_labels (sdk b) = L.

Lemma labelled_boxes id L d d' : boxes d' = boxes d -> labelled id L d -> labelled id L d'.
Proof. unfold labelled. by intros ->. Qed.

Lemma labelled_drift id L d d' : drift d d' -> labelled id L d -> labelled id L d'.
Proof.
  intros [_ Hd] HL b Hb. specialize (Hd id). destruct (boxes d !! id) as [b0|] eqn:E; [|congruence].
  destruct Hd as [Hd|(st & why & Hd)]; [congruence|]. rewrite Hd in Hb. injection Hb as <-. by apply (HL b0).
Qed.

Lemma labelled_put id L i b b' d d' : boxes d !! i = Some b -> sb_labels (sdk b') = sb_labels (sdk b) -> later (put i b' d) d' ->
  labelled id L d -> labelled id L d'.
Proof.
  intros Hb Hl [Hp _] HL x. rewrite Hp. cbn. destruct (decide (i = id)) as [->|Hn]; [rewrite lookup_insert_eq|rewrite lookup_insert_ne by done].
  - intros [= <-]. rewrite Hl. by apply HL.
  - apply HL.
Qed.

Lemma labelled_moves id L i states d d' : moves i states d d' -> labelled id L d -> labelled id L d'.
Proof. intros (b & b' & Hb & (st & why & _ & ->) & Hp). by eapply labelled_put; [exact Hb| |exact Hp]. Qed.

Lemma labelled_effect id L c d d' a : keeps_labels c = true -> effect c d d' a -> labelled id L d -> labelled id L d'.
Proof.
  destruct c; cbn; try done; intros _; try (by intros [Hb _]; apply labelled_boxes); try (by apply labelled_moves);
    try (by intros [[Hb _] _]; apply labelled_boxes).
  - intros [Hm|[_ [Hb _]]]; [by apply (labelled_moves _ _ _ _ _ _ Hm)|]. intros HL b. rewrite Hb. cbn.
    intros [_ Hl]%lookup_delete_Some. by apply HL.
  - intros (b & b' & Hb & (st & why & _ & ->) & Hp). by eapply labelled_put; [exact Hb| |exact Hp].
  - intros (b & b' & Hb & [-> _] & Hp). by eapply labelled_put; [exact Hb| |exact Hp].
  - intros (b & b' & Hb & Hl & Hp). by eapply labelled_put; [exact Hb| |exact Hp].
Qed.

Lemma labelled_answers id L c d d' r : keeps_labels c = true -> answers c d d' r -> labelled id L d -> labelled id L d'.
Proof.
  intros Hc (d1 & Hd & Ha) HL. apply (labelled_drift _ _ _ _ Hd) in HL. destruct r as [a|e].
  - by apply (labelled_effect _ _ _ _ _ _ Hc Ha).
  - destruct Ha as [[[Hb _]|[a Ha]] _]; [by apply (labelled_boxes _ _ d1)|by apply (labelled_effect _ _ _ _ _ _ Hc Ha)].
Qed.

Lemma labelled_answers_by id L t c d d' o : keeps_labels c = true -> answers_by t c d d' o -> labelled id L d -> labelled id L d'.
Proof.
  intros Hc. destruct o as [r|]; cbn; [intros [_ Ha]; by apply (labelled_answers _ _ _ _ _ _ Hc Ha)|].
  intros (_ & d1 & Hd & Ha) HL. apply (labelled_drift _ _ _ _ Hd) in HL.
  destruct Ha as [[Hb _]|[a Ha]]; [by apply (labelled_boxes _ _ d1)|by apply (labelled_effect _ _ _ _ _ _ Hc Ha)].
Qed.

Section Run.
Context {W : Type} `{Lawful W}.

Lemma labelled_run id L {A} (m : Prog A) w w' r : only keeps_labels m -> run m w = (w', r) -> labelled id L (view w) -> labelled id L (view w').
Proof.
  revert w. induction m as [s|c k IH|t c k IH]; intros w Hm; cbn [run]; [by intros [= <- _]|..]; destruct Hm as [Hc Hk].
  - pose proof (law_ask c w) as Hl. destruct (ask c w) as [w1 a]. intros Hr HL. by apply (IH _ _ (Hk _) Hr), (labelled_answers _ _ _ _ _ _ Hc Hl).
  - pose proof (law_ask_by t c w) as Hl. destruct (ask_by t c w) as [w1 a]. intros Hr HL.
    by apply (IH _ _ (Hk _) Hr), (labelled_answers_by _ _ _ _ _ _ _ Hc Hl).
Qed.
End Run.

(** ** A handle *)

Lemma sandbox_id_ok debug_str id x : sandbox_id debug_str id = Ok x -> x = id.
Proof.
  unfold sandbox_id, invalid_id. rewrite map_err_ok. unfold try_new_sandbox_id, validate_id. by repeat case_match; intros [= ->].
Qed.

Section Handle.
Context {W : Type} `{Lawful W} (debug_str : string -> string).

(** What a handle takes from the stored labels. *)
Definition reads_labels (h : DaytonaSandbox) (labels : gmap string string) : Prop :=
  (forall dir, labels !! WORKING_DIRECTORY_LABEL = Some dir -> h_working_dir h = dir) /\
  match labels !! TARGET_LABEL with
  | Some label => exists target, parse_target label = Ok target /\ h_nested h = Some target
  | None => h_nested h = None
  end.

Lemma build_reads caps s w w' h : run (build debug_str caps s) w = (w', Ok h) ->
  h_id h = sb_id s /\ reads_labels h (sb_labels s).
Proof.
  unfold build, reads_labels. rewrite run_pbind.
  set (pd := match sb_labels s !! WORKING_DIRECTORY_LABEL with Some dir => pret dir | None => _ end).
  destruct (run pd w) as [w1 [dir|e]] eqn:Ed; [|done].
  assert (Hd : forall dir', sb_labels s !! WORKING_DIRECTORY_LABEL = Some dir' -> dir = dir').
  { intros dir' Hd. unfold pd in Ed. rewrite Hd in Ed. cbn in Ed. by injection Ed. }
  rewrite run_pbind. unfold lift at 1. cbn [run]. destruct (sandbox_id debug_str (sb_id s)) as [id|e] eqn:Ei; [|done].
  apply sandbox_id_ok in Ei as ->. rewrite run_pbind. unfold lift. cbn [run].
  destruct (sb_labels s !! TARGET_LABEL) as [label|]; [destruct (parse_target label) as [target|e]; [|done]|]; cbn;
    intros [= _ <-]; (split; [done|]); cbn; split; [..|done]; try (intros dir' Hl; by rewrite (Hd _ Hl)); by exists target.
Qed.

Lemma build_keeps caps s : only keeps_labels (build debug_str caps s).
Proof.
  unfold build, lift. repeat only_step.
Qed.
End Handle.

(** ** The steps of a creation *)

Definition CREATE_TURNS : nat := turns DOCKERFILE_CREATE_TIMEOUT CREATE_POLL.

Lemma turns_le budget step : 0 < step -> 0 <= budget -> budget / step <= DOCKERFILE_CREATE_TIMEOUT / CREATE_POLL -> (turns budget step <= CREATE_TURNS)%nat.
Proof. intros Hs Hb Hl. unfold CREATE_TURNS, turns. apply Z_to_nat_mono. lia. Qed.

Section Steps.
Context {W : Type} `{Lawful W} (display : Error -> string).

(** The sandbox is gone, or the error names it. *)
Definition accounted (id : string) (e : Error) (d : Plane) : Prop :=
  gone id d \/ exists cause cleanup, e = unconfirmed display id cause cleanup.

Lemma or_clean_up_ends {A} fuel out id (m m' : Prog A) w : (CREATE_TURNS <= fuel)%nat -> run m' w = run m w ->
  let '(w', r) := run (or_clean_up display CREATE_TURNS out_of_fuel id m) w in
  run (or_clean_up display fuel out id m') w = (w', r) /\
  match r with Ok a => run m w = (w', Ok a) | Err e => accounted id e (view w') end.
Proof.
  intros Hf Hm. unfold or_clean_up. rewrite !run_pmatch, Hm. destruct (run m w) as [w1 [a|e]]; [done|].
  rewrite !run_pbind. unfold cleanup_failed_create.
  pose proof (failed_create_ends display CREATE_TURNS fuel out_of_fuel out id e FAILED_CREATE_CLEANUP_BUDGET w1) as Hc.
  assert (Ht : (turns FAILED_CREATE_CLEANUP_BUDGET TRANSITION_POLL <= CREATE_TURNS)%nat) by (by apply turns_le).
  destruct (run (failed_create _ _ _ _ _ _) w1) as [w2 r]. destruct Hc as (Hr & e' & -> & He); [done|done|lia|]. rewrite Hr. cbn [run pthrow].
  split; [done|]. destruct He as [[_ Hg]|[c ->]]; [by left|right; eauto].
Qed.

Definition polls (t : Z) (w : W) : nat := left t CREATE_POLL (clock (view w)).

Section Poll.
Context (t : Z) (id : string) (L : gmap string string).

Lemma poll_turn_keeps : only keeps_labels (poll_turn id tt).
Proof. unfold poll_turn. repeat only_step. Qed.

Lemma poll_turn_ends w : labelled id L (view w) ->
  let '(w', o) := run (by_deadline t (poll_turn id tt)) w in
  match o with
  | Ok (Some (Ok (inl s))) => sb_id s = id /\ sb_labels s = L /\ map_state (sb_state s) = StRunning
  | Ok (Some (Ok (inr _))) => (polls t w' < polls t w)%nat
  | _ => True
  end.
Proof.
  intros HL. unfold poll_turn, call, pbind. cbn [by_deadline pmatch run]. pose proof (law_ask_by t (Get id) w) as Hl.
  destruct (ask_by t (Get id) w) as [w1 [[s|e]|]]; cbn [by_deadline pmatch run pret pthrow]; [|done..].
  pose proof (answers_by_later _ _ _ _ _ Hl) as Hc. pose proof (labelled_answers_by _ _ _ (Get id) _ _ _ eq_refl Hl HL) as HL1.
  destruct Hl as [_ (d1 & _ & [Hb _] & b & Hi & -> & Hid)].
  destruct (map_state (sb_state (sdk b))) eqn:Es; try exact Logic.I.
  3: { cbn. split_and!; [done| |done]. apply HL1. by rewrite Hb. }
  all: pose proof (slept_by (A := Sandbox) t CREATE_POLL tt w1) as Hs; destruct (run _ w1) as [w2 o];
    destruct Hs as [->|(-> & H1 & H2)]; [done|]; apply left_less; [done|lia|left; lia].
Qed.

Lemma started_ends f1 f2 out1 out2 w : labelled id L (view w) -> (polls t w < f1)%nat -> (polls t w < f2)%nat ->
  let '(w', r) := run (by_deadline t (poll f1 out1 (poll_turn id) tt)) w in
  run (by_deadline t (poll f2 out2 (poll_turn id) tt)) w = (w', r) /\
  forall s, r = Ok (Some (Ok s)) -> sb_id s = id /\ sb_labels s = L /\ map_state (sb_state s) = StRunning.
Proof.
  intros HL H1 H2. pose proof (poll_by_spec (poll_turn id) (fun _ w => labelled id L (view w)) (polls t) t f1 f2 out1 out2 tt w) as Hd.
  destruct (run _ w) as [w1 r]. destruct Hd as (Hf & [] & w0 & o & HL0 & -> & Ht); [|done..|].
  - intros [] w2 w3 [] HL2 Ht. split.
    + eapply (labelled_run id L); [|exact Ht|done]. apply only_by_deadline, poll_turn_keeps.
    + pose proof (poll_turn_ends w2 HL2) as He. by rewrite Ht in He.
  - split; [done|]. intros s [= ->]. pose proof (poll_turn_ends w0 HL0) as He. by rewrite Ht in He.
Qed.
End Poll.

Lemma wait_for_started_ends fuel out id L budget w : 0 <= budget <= DOCKERFILE_CREATE_TIMEOUT -> (CREATE_TURNS <= fuel)%nat ->
  labelled id L (view w) ->
  let '(w', r) := run (wait_for_started CREATE_TURNS out_of_fuel id budget) w in
  run (wait_for_started fuel out id budget) w = (w', r) /\
  forall s, r = Ok s -> sb_id s = id /\ sb_labels s = L /\ map_state (sb_state s) = StRunning.
Proof.
  intros Hb Hf HL. unfold wait_for_started, within. rewrite !run_pbind. destruct (run now w) as [w0 [t0|e]] eqn:En; [|done].
  assert (Ht : t0 = clock (view w0)) by (destruct (run_asks_now w) as (w1 & E & _); congruence).
  apply (labelled_run id L) in En; [|by apply only_now|done].
  assert (Hl : (polls (t0 + budget) w0 < CREATE_TURNS)%nat).
  { eapply Nat.lt_le_trans; [apply (left_turns _ budget); [done|lia|lia]|]. apply turns_le; [done|lia|]. apply Z.div_le_mono; [done|lia]. }
  pose proof (started_ends (t0 + budget) id L CREATE_TURNS fuel out_of_fuel out w0 En ltac:(lia) ltac:(lia)) as Hs.
  destruct (by_deadline_ok (t0 + budget) (poll CREATE_TURNS out_of_fuel (poll_turn id) tt) w0) as (w1 & o & Ho). rewrite Ho in *.
  destruct Hs as [-> Hs]. destruct o as [r|]; cbn [run lift pthrow]; [|done]. split; [done|]. intros s ->. by apply Hs.
Qed.
End Steps.

(** ** A creation *)

Definition is_create (c : Request) : bool := match c with Create _ => true | _ => false end.

(** The ids of the sandboxes a run had the service answer it made. *)
Definition created_id (s : Sent) : option string :=
  match s with
  | mkSent c o =>
      match c return option (result (Answer c) DaytonaError) -> option string with
      | Create _ => fun o => match o with Some (Ok b) => Some (sb_id b) | _ => None end
      | _ => fun _ => None
      end o
  end.
Definition created_ids (tr : list Sent) : list string := omap created_id tr.

Lemma ensure_creates_nothing debug_str pages generated_name spec budget :
  only (fun c => negb (is_create c)) (ensure (H := daytona_snapshots debug_str pages generated_name) debug_str spec budget).
Proof.
  unfold ensure, ensure_from, ensure_turn, list_named, create_snapshot, get_snapshot, activate_snapshot, daytona_snapshots.
  unfold snapshot_list, list_turn, snapshot_create, snapshot_from_sandbox, snapshot_from_image, created_snapshot_id, create_sandbox_snapshot,
    create_sandbox_snapshot_from, written_turn, generated, snapshot_get, fetch, snapshot_activate, snapshot_activate_from, activate_turn.
  unfold lift. repeat only_step.
Qed.

Section Create.
Context {W : Type} `{Lawful W}.
Context (debug_str : string -> string) (display : Error -> string) (deserialize : json -> result DaytonaProviderConfig string).
Context (hmac_sha256 : string -> string -> bytes) (sha256_hex : string -> string) (secret : string).
Context (pages : nat) (generated_name : string).

(** The provider's creation, with its own snapshots. *)
Definition daytona_create (fuel : nat) (out : Error) (spec : SandboxSpec) : Prog DaytonaSandbox :=
  create debug_str display deserialize hmac_sha256 sha256_hex secret fuel out (H := daytona_snapshots debug_str pages generated_name) spec.

Lemma created_none {A} (m : Prog A) w : only (fun c => negb (is_create c)) m -> created_ids (trace m w) = [].
Proof.
  revert w. induction m as [r|c k IH|t c k IH]; intros w Hm; [done|..]; destruct Hm as [Hc Hk]; cbn [trace];
    [destruct (ask c w) as [w1 a]|destruct (ask_by t c w) as [w1 a]]; unfold created_ids; cbn [omap list_omap];
    (rewrite IH by apply Hk); by destruct c.
Qed.

Lemma created_first {A B} (m : Prog A) (k : A -> Prog B) w : (forall a, only (fun c => negb (is_create c)) (k a)) ->
  created_ids (trace (pbind m k) w) = created_ids (trace m w).
Proof.
  intros Hk. rewrite trace_bind. unfold created_ids. rewrite omap_app. destruct (run m w) as [w1 [a|e]]; [|by rewrite app_nil_r..].
  pose proof (created_none (k a) w1 (Hk a)) as Hn. unfold created_ids in Hn. by rewrite Hn, app_nil_r.
Qed.

Lemma created_then {A B} (m : Prog A) (k : A -> Prog B) w : only (fun c => negb (is_create c)) m ->
  created_ids (trace (pbind m k) w) = match run m w with (w', Ok a) => created_ids (trace (k a) w') | _ => [] end.
Proof.
  intros Hm. rewrite trace_bind. unfold created_ids. rewrite omap_app. pose proof (created_none m w Hm) as Hn. unfold created_ids in Hn.
  rewrite Hn. by destruct (run m w) as [w1 [a|e]].
Qed.

Lemma clean_up_creates {A} fuel out id (m : Prog A) : only (fun c => negb (is_create c)) m -> only (fun c => negb (is_create c)) (or_clean_up display fuel out id m).
Proof.
  intros Hm. unfold or_clean_up, cleanup_failed_create, failed_create, delete_and_confirm, delete_turn, confirm_turn.
  apply only_match; [done|]. repeat only_step.
Qed.

(** What a step came to that answered the id of a new sandbox. *)
Definition comes_to {A} (ids : list string) (r : result A Error) (d : Plane) (good : string -> A -> Prop) : Prop :=
  match ids, r with
  | [], Err _ => True
  | [id], Ok a => good id a
  | [id], Err e => accounted display id e d
  | _, _ => False
  end.

Lemma create_inner_ends fuel out p budget w : 0 <= budget <= DOCKERFILE_CREATE_TIMEOUT -> (CREATE_TURNS <= fuel)%nat ->
  let L := default ∅ (bp_labels (base p)) in
  let '(w', r) := run (create_inner display CREATE_TURNS out_of_fuel p budget) w in
  run (create_inner display fuel out p budget) w = (w', r) /\
  comes_to (created_ids (trace (create_inner display CREATE_TURNS out_of_fuel p budget) w)) r (view w')
    (fun id s => sb_id s = id /\ sb_labels s = L /\ map_state (sb_state s) = StRunning /\ labelled id L (view w')).
Proof.
  intros Hb Hf L. unfold create_inner. rewrite !run_pbind, created_first.
  2: { intros s. apply clean_up_creates. unfold wait_for_started, poll_turn, lift. repeat only_step. }
  unfold call. cbn [run trace]. pose proof (law_ask (Create p) w) as Hl. destruct (ask (Create p) w) as [w1 [s|e]]; cbn [run pret pthrow]; [|done].
  assert (HL : labelled (sb_id s) L (view w1)).
  { destruct Hl as (d1 & _ & _ & b & [Hp _] & _ & Hlab & _). intros b'. rewrite Hp. cbn. rewrite lookup_insert_eq. by intros [= <-]. }
  pose proof (wait_for_started_ends fuel out (sb_id s) L budget w1 Hb Hf HL) as Hw.
  assert (Hk : only keeps_labels (wait_for_started CREATE_TURNS out_of_fuel (sb_id s) budget)) by (unfold wait_for_started, poll_turn, lift; repeat only_step).
  pose proof (or_clean_up_ends display fuel out (sb_id s) (wait_for_started CREATE_TURNS out_of_fuel (sb_id s) budget)
    (wait_for_started fuel out (sb_id s) budget) w1 Hf) as Hc.
  destruct (run (wait_for_started CREATE_TURNS _ _ _) w1) as [w2 r2] eqn:Er. destruct Hw as [Hw Hs].
  destruct (run (or_clean_up _ _ _ _ _) w1) as [w3 r3]. destruct (Hc Hw) as [-> Hg]. split; [done|]. cbn.
  destruct r3 as [a|e]; [|done]. injection Hg as <- ->. destruct (Hs a eq_refl) as (H1 & H2 & H3). split_and!; [done..|].
  by eapply labelled_run.
Qed.

Lemma finish_keeps s spec docker : only keeps_labels (finish_create debug_str s spec docker).
Proof.
  unfold finish_create, initialize_directories, runtime_directory, handle, build, nested_create, lift.
  repeat only_step.
Qed.

Lemma finish_reads s spec docker w w' h : run (finish_create debug_str s spec docker) w = (w', Ok h) ->
  h_id h = sb_id s /\ reads_labels h (sb_labels s).
Proof.
  unfold finish_create. rewrite run_pbind. destruct (run _ w) as [w1 [[]|e]]; [|done]. rewrite run_pbind.
  destruct (run _ w1) as [w2 [[]|e]]; [|done]. rewrite run_pbind. destruct (run (handle _ s) w2) as [w3 [h0|e]] eqn:Eh; [|done].
  rewrite run_pbind. destruct (run _ w3) as [w4 [[]|e]]; [|done]. cbn. intros [= _ <-]. by eapply build_reads.
Qed.

(** What a creation came to. *)
Definition created (spec : SandboxSpec) (ids : list string) (r : result DaytonaSandbox Error) (d : Plane) : Prop :=
  match r with
  | Ok h =>
      ids = [h_id h] /\
      exists config, provider_config deserialize (Spec.provider_config spec) = Ok config /\
        let target := nested_target <$> config_docker config in
        labelled (h_id h) (stored_labels (labels spec) (working_directory spec) target) d /\
        h_nested h = target /\ forall dir, working_directory spec = Some dir -> h_working_dir h = dir
  | Err e =>
      (length ids <= 1)%nat /\
      forall id, id ∈ ids -> accounted display id e d \/ (forall x, sandbox_id debug_str id <> Ok x)
  end.

Lemma base_params_labels spec b : base_params deserialize spec = Ok b ->
  exists config, provider_config deserialize (Spec.provider_config spec) = Ok config /\
    bp_labels b = Some (stored_labels (labels spec) (working_directory spec) (nested_target <$> config_docker config)).
Proof.
  unfold base_params. intros (config & Hc & Hb)%rbind_inv. exists config. split; [done|].
  destruct (network_params (network spec)) as [[? ?] ?]. apply rbind_inv in Hb as (u & _ & [= <-]). done.
Qed.

Lemma reads_stored h l wd target : reads_labels h (stored_labels l wd target) ->
  h_nested h = target /\ forall dir, wd = Some dir -> h_working_dir h = dir.
Proof.
  intros [Hd Ht]. rewrite stored_directory in Hd. rewrite stored_target in Ht. split; [|done].
  destruct target as [t|]; [|done]. cbn in Ht. destruct Ht as (t' & Hp & ->). rewrite parse_target_label in Hp. by injection Hp as ->.
Qed.

(** From the snapshot on. *)
Lemma create_made fuel out spec b docker config snapshot w : (CREATE_TURNS <= fuel)%nat ->
  provider_config deserialize (Spec.provider_config spec) = Ok config ->
  bp_labels b = Some (stored_labels (labels spec) (working_directory spec) (nested_target <$> config_docker config)) ->
  let m fuel out := let* s := create_inner display fuel out (mkSnapshotParams b snapshot) (create_budget spec) in
    seq* lift (sandbox_id debug_str (sb_id s)) in or_clean_up display fuel out (sb_id s) (finish_create debug_str s spec docker) in
  let '(w', r) := run (m CREATE_TURNS out_of_fuel) w in
  run (m fuel out) w = (w', r) /\ created spec (created_ids (trace (m CREATE_TURNS out_of_fuel) w)) r (view w').
Proof.
  intros Hf Hc Hb m. unfold m. rewrite !run_pbind, created_first.
  2: { intros s. apply only_bind; [unfold lift; repeat only_step|]. intros _. apply clean_up_creates.
       unfold finish_create, initialize_directories, runtime_directory, handle, build, nested_create, lift. repeat only_step. }
  pose proof (create_inner_ends fuel out (mkSnapshotParams b snapshot) (create_budget spec) w) as Hi. cbn [base] in Hi. rewrite Hb in Hi. cbn [default] in Hi.
  set (ids := created_ids _) in *. destruct (run (create_inner _ CREATE_TURNS _ _ _) w) as [w1 r1].
  destruct Hi as [-> Hi]; [by unfold create_budget; destruct (source spec)|done|].
  destruct r1 as [s|e]; cbn [run pthrow].
  2: { split; [done|]. destruct ids as [|id []]; cbn in Hi; [split; [cbn; lia|by intros x ?%elem_of_nil]| |done].
       split; [done|]. intros x ->%list_elem_of_singleton. by left. }
  destruct ids as [|id []]; cbn in Hi; try done. destruct Hi as (<- & Hl & _ & HL). rewrite !run_pbind. unfold lift. cbn [run].
  destruct (sandbox_id debug_str (sb_id s)) as [x|e] eqn:Ei.
  2: { split; [done|]. split; [done|]. intros x ->%list_elem_of_singleton. right. congruence. }
  pose proof (or_clean_up_ends display fuel out (sb_id s) (finish_create debug_str s spec docker) _ w1 Hf eq_refl) as Ho.
  destruct (run (or_clean_up _ _ _ _ _) w1) as [w2 [h|e]]; destruct Ho as [-> Ho]; (split; [done|]).
  - destruct (finish_reads _ _ _ _ _ _ Ho) as [Hh Hr]. rewrite Hl in Hr. apply reads_stored in Hr as [Hn Hd].
    split; [by rewrite Hh|]. exists config. split; [done|]. split; [|done]. rewrite Hh. eapply labelled_run; [apply finish_keeps|exact Ho|done].
  - split; [done|]. intros x' ->%list_elem_of_singleton. by left.
Qed.

Lemma source_creates_nothing spec :
  only (fun c => negb (is_create c)) (source_snapshot debug_str hmac_sha256 sha256_hex secret (H := daytona_snapshots debug_str pages generated_name) spec).
Proof.
  unfold source_snapshot, cached_snapshot, ensure_snapshot_kind, fetch, lift. repeat only_step; apply ensure_creates_nothing.
Qed.

Lemma run_lift {A} (r : result A Error) (w : W) : run (lift r) w = (w, r).
Proof. done. Qed.

Lemma create_ends fuel out spec w : (CREATE_TURNS <= fuel)%nat ->
  let '(w', r) := run (daytona_create CREATE_TURNS out_of_fuel spec) w in
  run (daytona_create fuel out spec) w = (w', r) /\ created spec (created_ids (trace (daytona_create CREATE_TURNS out_of_fuel spec) w)) r (view w').
Proof.
  intros Hf. unfold daytona_create, create. rewrite !run_pbind, created_then by exact I. rewrite !run_lift.
  match goal with |- context [rbind (validate spec) ?k] => destruct (rbind (validate spec) k) as [[b docker]|e] eqn:Ex end.
  2: { split; [done|]. split; [cbn; lia|]. by intros x ?%elem_of_nil. }
  apply rbind_inv in Ex as ([] & _ & ([] & _ & (b' & Hb & (config & Hc & [= -> <-])%rbind_inv)%rbind_inv)%rbind_inv).
  destruct (base_params_labels _ _ Hb) as (config' & Hc' & Hl). rewrite Hc in Hc'. injection Hc' as <-.
  rewrite !run_pbind, created_then by apply source_creates_nothing.
  destruct (run (source_snapshot _ _ _ _ spec) w) as [w1 [snapshot|e]]; [by eapply create_made|]. cbn.
  split; [done|]. split; [cbn; lia|]. by intros x ?%elem_of_nil.
Qed.

(** C12. A creation on Daytona ends (more fuel changes nothing). When it fails, the one
    sandbox the service answered it had made is gone, or the error has the code
    [incomplete_cleanup] and names it. Two sandboxes are not accounted for: one with an id
    that is no sandbox id ([unnamed_sandbox_leaks]), and one whose creation the service
    carried out without its answer arriving, of which the provider never learns an id
    ([lost_answer_leaks]). When it succeeds, the handle is of that sandbox, which has the caller's labels and
    the internal ones, and the handle has the directory and the Docker target asked for. *)
Theorem create_accounts fuel out spec w : (CREATE_TURNS <= fuel)%nat ->
  let '(w', r) := run (daytona_create CREATE_TURNS out_of_fuel spec) w in
  run (daytona_create fuel out spec) w = (w', r) /\
  created spec (created_ids (trace (daytona_create CREATE_TURNS out_of_fuel spec) w)) r (view w').
Proof. intros Hf. by apply create_ends. Qed.
End Create.

(** ** Examples *)

Definition demo_config : DaytonaProviderConfig := mkDaytonaConfig None (Some (mkNestedConfig "job" TargetContainer None default_config)).

(** The caller's label of an internal name is not stored. *)
Definition demo_spec : SandboxSpec :=
  mkSandboxSpec (Some "demo") (Snapshot "base") no_resources None ∅ (<[TARGET_LABEL := "virtual_machine"]> {["team" := "a"]}) None
    (Some "/work") None ProviderDefault [] no_timers false None None (JObj []).

Definition demo_create (fuel : nat) (out : Error) : Prog DaytonaSandbox :=
  daytona_create (fun s => s) demo_display (fun _ => Ok demo_config) (fun _ _ => []) (fun s => s) "" 10 "" fuel out demo_spec.

Definition demo_new (ids : list string) (fs : list Fault) : Sim := mkSim (mkPlane ∅ 0) ids [] fs.

Example demo_created :
  let '(s, r) := run (demo_create CREATE_TURNS out_of_fuel) (demo_new ["sb-1"] [Fine; Fine; Becomes DsStarted]) in
  (exists h, r = Ok h /\ h_id h = "sb-1" /\ h_nested h = Some TargetContainer /\ h_working_dir h = "/work") /\
  demo_states s = [("sb-1", Some DsStarted)].
Proof. vm_compute. split; [eexists; by split_and!|done]. Qed.

(** A toolbox that cannot be reached: the sandbox is deleted again. *)
Example demo_failed :
  let '(s, r) := run (demo_create CREATE_TURNS out_of_fuel) (demo_new ["sb-1"] [Fine; Becomes DsStarted; Broken; Fine; Becomes DsDestroyed]) in
  r = Err (daytona_error "connecting to the toolbox" broken_err) /\ demo_states s = [("sb-1", Some DsDestroyed)].
Proof. vm_compute. by split. Qed.

(** A sandbox whose id is none that the crate takes is left running: the id is checked
    outside of what is cleaned up. *)
Lemma unnamed_sandbox_leaks :
  let '(s, r) := run (demo_create CREATE_TURNS out_of_fuel) (demo_new ["sb 1"] [Fine; Becomes DsStarted]) in
  (exists text, r = Err (InvalidSpec "sandbox_id" text)) /\ demo_states s = [("sb 1", Some DsStarted)].
Proof. vm_compute. split; [eauto|done]. Qed.

(** A creation carried out whose answer is lost: the sandbox is there, the error does
    not name it, and nothing cleans it up. *)
Example lost_answer_leaks :
  let '(s, r) := run (demo_create CREATE_TURNS out_of_fuel) (demo_new ["sb-1"] [LostAnswer]) in
  (exists e, r = Err e) /\ demo_states s = [("sb-1", Some DsCreating)].
Proof. vm_compute. split; [eauto|done]. Qed.

Lemma create_accounts_witness :
  let '(w', r) := run (demo_create CREATE_TURNS out_of_fuel) (demo_new ["sb-1"] [Fine; Becomes DsStarted; Broken; LostAnswer]) in
  run (demo_create 1000 out_of_fuel) (demo_new ["sb-1"] [Fine; Becomes DsStarted; Broken; LostAnswer]) = (w', r) /\
  created (fun s => s) demo_display (fun _ => Ok demo_config) demo_spec
    (created_ids (trace (demo_create CREATE_TURNS out_of_fuel) (demo_new ["sb-1"] [Fine; Becomes DsStarted; Broken; LostAnswer]))) r (view w').
Proof.
  apply (create_accounts (fun s => s) demo_display (fun _ => Ok demo_config) (fun _ _ => []) (fun s => s) "" 10 "" 1000 out_of_fuel demo_spec
    (demo_new ["sb-1"] [Fine; Becomes DsStarted; Broken; LostAnswer])). vm_compute. lia.
Defined.
