(* ===== verification/DaytonaHandle.v ===== *)
(** * What a handle changes on a sandbox of Daytona

    Labels given later keep what the sandbox is, timers end up as they were asked for, and
    the units they cross in. *)

From S2P Require Import Prelude Text Ids Capabilities Errors Spec DaytonaApi DaytonaSim DaytonaLoops DaytonaPlan Daytona DaytonaCreate.

#[local] Open Scope string_scope.
#[local] Open Scope list_scope.
#[local] Open Scope Z_scope.

(** ** Units *)

(** A timer of a second or more is rounded up to whole minutes, up to the largest. *)
Lemma minutes_spec d : seconds 1 <= d -> 1 <= minutes d <= i32_max /\
  (minutes d < i32_max -> (minutes d - 1) * 60 < d / seconds 1 <= minutes d * 60).
Proof.
  intros Hd. unfold minutes. destruct (Z.eqb_spec d 0) as [->|_]; [done|]. unfold div_ceil, i32_max.
  assert (Hs : 1 <= d / seconds 1) by (apply Z.div_le_lower_bound; [done|lia]). set (s := d / seconds 1) in *.
  pose proof (Z.div_mod (s + 60 - 1) 60 ltac:(lia)). pose proof (Z.mod_pos_bound (s + 60 - 1) 60 ltac:(lia)). lia.
Qed.

(** A shorter one is no minute at all: it turns auto-stop off, and has a stopped sandbox
    deleted at once. *)
Lemma minutes_below_second d : 0 < d < seconds 1 -> minutes d = 0 /\ auto_delete_minutes d = 0.
Proof.
  intros Hd. unfold auto_delete_minutes, minutes. destruct (Z.eqb_spec d 0); [lia|]. by rewrite Z.div_small by lia.
Qed.

(** An allocation is whole gigabytes that the service's field holds, and as it is asked for
    again it stays. *)
Lemma gigabytes_spec mb : 0 <= mb ->
  1 <= gigabytes mb <= i32_max /\ (mb <= i32_max * 1024 -> mb <= gigabytes mb * 1024) /\ allocation_mib (allocation_mib mb) = allocation_mib mb.
Proof.
  intros Hm. unfold gigabytes, allocation_mib, div_ceil. rewrite Z.div_mul by done. set (q := Z.min i32_max (Z.max 1 ((mb + 1024 - 1) / 1024))).
  assert (Hq : 1 <= q <= i32_max) by (unfold q, i32_max; lia).
  replace ((q * 1024 + 1024 - 1) / 1024) with q.
  2: { apply (Z.div_unique _ _ _ 1023); lia. }
  split_and!; [lia..| |lia]. intros Hl. unfold q. pose proof (Z.div_mod (mb + 1024 - 1) 1024 ltac:(lia)).
  pose proof (Z.mod_pos_bound (mb + 1024 - 1) 1024 ltac:(lia)). lia.
Qed.

(** ** Networks *)

(** A list of networks as it is stored is read back, when each is a word of its own. *)
Lemma networks_read s cidrs : cidrs <> [] -> Forall (fun c => visible c /\ c <> "" /\ free_of_char "," c) cidrs ->
  sb_block_all s = false -> sb_allow_list s = Some (join "," cidrs) -> network_of s = CidrAllowList cidrs.
Proof.
  intros Hne Hc Hb Ha. unfold network_of. rewrite Hb, Ha. change (default "" (Some (join "," cidrs))) with (join "," cidrs). rewrite split_join; [|done|].
  2: { eapply Forall_impl; [exact Hc|]. by intros c (_ & _ & Hf). }
  assert (Hm : filter (fun c => is_empty c = false) (map trim cidrs) = cidrs).
  { clear Hne Ha. induction Hc as [|c l (Hv & Hn & _) Hl IH]; [done|]. cbn [map]. rewrite (trim_visible c Hv).
    rewrite filter_cons_True by (by destruct c). by rewrite IH. }
  rewrite Hm. by destruct cidrs.
Qed.

(** Of a list of domains nothing is read back: the sandbox is reported as unrestricted. *)
Lemma domains_read_open s domains : network_params (DomainAllowList domains) = (None, None, Some domains) /\
  (sb_block_all s = false -> sb_allow_list s = None -> network_of s = AllowAll).
Proof. split; [done|]. intros Hb Ha. unfold network_of. by rewrite Hb, Ha. Qed.

(** ** Labels *)

Section Handle.
Context {W : Type} `{Lawful W} (debug_str : string -> string).

Lemma fetch_ok h w w' s : run (fetch_sandbox h) w = (w', Ok s) ->
  sb_id s = h_id h /\ exists d1 b, drift (view w) d1 /\ boxes d1 !! h_id h = Some b /\ later d1 (view w').
Proof.
  unfold fetch_sandbox, call. cbn [run]. pose proof (law_ask (Get (h_id h)) w) as Hl. destruct (ask (Get (h_id h)) w) as [w1 [a|e]]; [|done].
  cbn. intros [= <- <-]. destruct Hl as (d1 & Hd & Hp & b & Hb & -> & Hi). split; [done|]. by exists d1, b.
Qed.

(** Labels given to a sandbox later leave it managed, in its directory and with its
    Docker target, whatever they are: the caller's are read back as they were given, less
    those of internal names, and every handle made from then on is of the same kind. *)
Theorem labels_survive h l w w' : run (set_labels h l) w = (w', Ok tt) ->
  exists b, boxes (view w') !! h_id h = Some b /\
    sb_labels (sdk b) !! MANAGED_LABEL = Some "true" /\ callers (sb_labels (sdk b)) = callers l /\
    forall caps w1 w2 h', run (build debug_str caps (sdk b)) w1 = (w2, Ok h') ->
      h_working_dir h' = h_working_dir h /\ h_nested h' = h_nested h.
Proof.
  unfold set_labels. rewrite run_pbind. destruct (run (fetch_sandbox h) w) as [w1 [s|e]] eqn:Ef; [|done].
  destruct (fetch_ok _ _ _ _ Ef) as [-> _]. unfold call. cbn [run].
  pose proof (law_ask (SetLabels (h_id h) (stored_labels l (Some (h_working_dir h)) (h_nested h))) w1) as Hl.
  destruct (ask _ w1) as [w2 [a|e]]; [|done]. intros [= <-]. destruct Hl as (d1 & _ & b & b' & _ & -> & [Hp _]).
  exists (set_sdk (DaytonaApi.with_labels (stored_labels l (Some (h_working_dir h)) (h_nested h)) (sdk b)) b).
  rewrite Hp. cbn. rewrite lookup_insert_eq. split; [done|]. rewrite stored_managed, callers_stored. split_and!; [done..|].
  intros caps w3 w4 h' [_ Hr]%build_reads. cbn in Hr. destruct (reads_stored _ _ _ _ Hr) as [Hn Hd]. split; [|done]. by apply Hd.
Qed.

(** ** Timers *)

(** The value an interval is given, when it is. *)
Definition asked (t : LifecycleTimers) (i : Interval) : option Z :=
  match i with
  | AutoStop =>
      match auto_stop_after_idle t with
      | Some d => Some (minutes d)
      | None => if enables (minutes <$> auto_pause_after_idle t) then Some 0 else None
      end
  | AutoPause => minutes <$> auto_pause_after_idle t
  | AutoArchive => minutes <$> auto_archive_after_stop t
  | AutoDelete => auto_delete_minutes <$> auto_delete_after_stop t
  | Ttl => minutes <$> ttl t
  end.

(** The intervals of a sandbox, if it is there. *)
Definition has (id : string) (iv : Interval -> Z) (d : Plane) : Prop :=
  forall b, boxes d !! id = Some b -> forall i, intervals b i = iv i.

Definition given (iv : Interval -> Z) (i : Interval) (n : option Z) : Interval -> Z :=
  fun j => if decide (i = j) then default (iv j) n else iv j.

Lemma has_drift id iv d d' : drift d d' -> has id iv d -> has id iv d'.
Proof.
  intros [_ Hd] HI b Hb. specialize (Hd id). destruct (boxes d !! id) as [b0|] eqn:E; [|congruence].
  destruct Hd as [Hd|(st & why & Hd)]; [congruence|]. rewrite Hd in Hb. injection Hb as <-. by apply (HI b0).
Qed.

Lemma set_one context id i n iv w w' a : has id iv (view w) -> run (call context (SetInterval id i n)) w = (w', Ok a) ->
  has id (given iv i (Some n)) (view w').
Proof.
  intros HI. unfold call. cbn [run]. pose proof (law_ask (SetInterval id i n) w) as Hl. destruct (ask _ w) as [w1 [u|e]]; [|done].
  intros [= <-]. destruct Hl as (d1 & Hd & b & b' & Hb & [-> _] & [Hp _]). apply (has_drift _ _ _ _ Hd) in HI.
  intros b'. rewrite Hp. cbn. rewrite lookup_insert_eq. intros [= <-] j. unfold given. cbn. destruct (decide (i = j)); [done|]. by apply HI.
Qed.

Lemma set_maybe context id i n iv w w' a : has id iv (view w) -> run (set_if context id i n) w = (w', Ok a) ->
  has id (given iv i n) (view w').
Proof.
  intros HI. destruct n as [n|]; cbn [set_if]; [by apply set_one|]. intros [= <- _] b Hb j. rewrite (HI b Hb).
  unfold given. by destruct (decide (i = j)).
Qed.

Lemma given_asked t iv i :
  given (given (given (given (given (given iv AutoStop (if enables (minutes <$> auto_pause_after_idle t) && negb (is_some (minutes <$> auto_stop_after_idle t)) then Some 0 else None))
    AutoStop (minutes <$> auto_stop_after_idle t)) AutoPause (minutes <$> auto_pause_after_idle t)) AutoArchive (minutes <$> auto_archive_after_stop t))
    AutoDelete (auto_delete_minutes <$> auto_delete_after_stop t)) Ttl (minutes <$> ttl t) i = default (iv i) (asked t i).
Proof. unfold given. destruct i; cbn; try done. destruct (auto_stop_after_idle t); cbn; [done|]. by rewrite andb_true_r. Qed.

(** Timers that are set have exactly the values asked for, the others the ones
    they had, but that turning auto-pause on turns auto-stop off; so the two idle
    timers are never asked to be on at once. *)
Theorem timers_set h t w w' b0 : boxes (view w) !! h_id h = Some b0 -> run (set_timers h t) w = (w', Ok tt) ->
  has (h_id h) (fun i => default (intervals b0 i) (asked t i)) (view w') /\
  (enables (asked t AutoPause) = true -> asked t AutoStop = Some 0).
Proof.
  intros Hb. assert (HI : has (h_id h) (intervals b0) (view w)) by (intros b; rewrite Hb; by intros [= <-]).
  unfold set_timers. destruct (enables _ && enables _) eqn:Ee; [done|]. rewrite run_pbind.
  destruct (run (fetch_sandbox h) w) as [w1 [s|e]] eqn:Ef; [|done]. destruct (fetch_ok _ _ _ _ Ef) as (-> & d1 & b1 & Hd & _ & [Hp _]).
  assert (HI1 : has (h_id h) (intervals b0) (view w1)) by (intros b; rewrite Hp; by apply (has_drift _ _ _ _ Hd HI)).
  cbv zeta. set (off := if _ && _ then call _ _ else _).
  assert (Ho : off = set_if "disabling auto-stop" (h_id h) AutoStop
    (if enables (minutes <$> auto_pause_after_idle t) && negb (is_some (minutes <$> auto_stop_after_idle t)) then Some 0 else None)) by (unfold off; by destruct (enables (minutes <$> auto_pause_after_idle t)), (is_some (minutes <$> auto_stop_after_idle t))).
  rewrite Ho. clear off Ho. intros (w2 & u & E1%(set_maybe _ _ _ _ _ _ _ _ HI1) & Hr)%run_pbind_ok. revert Hr.
  intros (w3 & u2 & E2%(set_maybe _ _ _ _ _ _ _ _ E1) & Hr)%run_pbind_ok. revert Hr.
  intros (w4 & u3 & E3%(set_maybe _ _ _ _ _ _ _ _ E2) & Hr)%run_pbind_ok. revert Hr.
  intros (w5 & u4 & E4%(set_maybe _ _ _ _ _ _ _ _ E3) & Hr)%run_pbind_ok. revert Hr.
  intros (w6 & u5 & E5%(set_maybe _ _ _ _ _ _ _ _ E4) & E6%(set_maybe _ _ _ _ _ _ _ _ E5))%run_pbind_ok. split.
  - intros b Hb' i. rewrite (E6 b Hb'). apply given_asked.
  - cbn. destruct (auto_stop_after_idle t) as [d|]; cbn in *; intros He; rewrite He in *; [|done].
    rewrite andb_true_r in Ee. apply negb_false_iff, Z.eqb_eq in Ee. by rewrite Ee.
Qed.
End Handle.

(** ** Examples *)

Definition demo_handle : DaytonaSandbox := mkHandle "sb-1" None daytona_capabilities "/work" (Some TargetContainer).

Lemma labels_survive_witness :
  let w' := fst (run (set_labels demo_handle {[MANAGED_LABEL := "no"]}) (demo_sim DsStarted [])) in
  exists b, boxes (view w') !! h_id demo_handle = Some b /\
    sb_labels (sdk b) !! MANAGED_LABEL = Some "true" /\ callers (sb_labels (sdk b)) = callers {[MANAGED_LABEL := "no"]} /\
    forall caps w1 w2 h', run (W := Sim) (build (fun s => s) caps (sdk b)) w1 = (w2, Ok h') ->
      h_working_dir h' = h_working_dir demo_handle /\ h_nested h' = h_nested demo_handle.
Proof. apply (labels_survive (fun s => s) demo_handle {[MANAGED_LABEL := "no"]} (demo_sim DsStarted [])). vm_compute. reflexivity. Defined.

(** Auto-pause in place of auto-stop. *)
Definition pausing : LifecycleTimers := mkTimers None (Some (seconds 600)) None None None.

Lemma timers_set_witness :
  let w' := fst (run (set_timers demo_handle pausing) (demo_sim DsStarted [])) in
  has (h_id demo_handle) (fun i => default (intervals (demo_box "sb-1" DsStarted ∅) i) (asked pausing i)) (view w') /\
  (enables (asked pausing AutoPause) = true -> asked pausing AutoStop = Some 0).
Proof.
  apply (timers_set demo_handle pausing (demo_sim DsStarted []) _ (demo_box "sb-1" DsStarted ∅)); vm_compute; reflexivity.
Defined.

(** Auto-stop in place of auto-pause, which the service takes in one order only: turning
    auto-stop on comes before turning auto-pause off, and is refused. *)
Lemma timers_switch_refused :
  let switch := mkTimers (Some (seconds 600)) (Some 0) None None None in
  let s := fst (run (set_timers demo_handle pausing) (demo_sim DsStarted [])) in
  snd (run (set_timers demo_handle switch) s)
    = Err (daytona_error "setting auto-stop" (ApiErr 400 "auto-stop and auto-pause are mutually exclusive")) /\
  snd (run (seq* set_timers demo_handle (mkTimers None (Some 0) None None None) in set_timers demo_handle switch) s) = Ok tt.
Proof. vm_compute. by split. Qed.
