(* ===== verification/Wait.v ===== *)
(** * Waiting for a sandbox, and activating it

    Models [crates/sandbox-driver/src/wait.rs] and [crates/sandbox-driver/src/probe.rs] over
    any [Sandbox]: its provider's answers and the time they take are those of a class, and
    depend on every call made before. The log of the calls is part of the state, newest
    first. The polling loops have fuel, durations are nanoseconds. *)

From S2P Require Import Prelude Text Shell Exec Errors Spec Script.

#[local] Open Scope string_scope.
#[local] Open Scope list_scope.
#[local] Open Scope Z_scope.

Definition in_seconds (n : Z) : Z := n * 1000000000.

(** ** A sandbox and its answers *)

Inductive Call := Describe | Start | Resume | Run (spec : ExecSpec) | RunStreaming (spec : ExecSpec) | Sleep (d : Z).

(** What the provider answers to a call after the calls of a log, and how long it takes. *)
Class Sandbox := {
  describes : list Call -> result SandboxStatus Error;
  starts : list Call -> result unit Error;
  resumes : list Call -> result unit Error;
  runs : ExecSpec -> list Call -> result ExecResult Error;
  streams : ExecSpec -> list Call -> result ExecStreamingResult Error;
  takes : Call -> list Call -> N;
}.

Record World := mkWorld { made : list Call; clock : Z }.

Definition Io (A : Type) : Type := World -> World * result A Error.
Definition ioret {A} (a : A) : Io A := fun w => (w, Ok a).
Definition iothrow {A} (e : Error) : Io A := fun w => (w, Err e).
Definition iolift {A} (r : result A Error) : Io A := fun w => (w, r).
Definition iobind {A B} (m : Io A) (k : A -> Io B) : Io B :=
  fun w => let '(w, r) := m w in match r with Ok a => k a w | Err e => (w, Err e) end.

Notation "'io!' x ':=' m 'in' k" := (iobind m (fun x => k)) (at level 10, x pattern, m at level 100, k at level 200) : driver_scope.
Notation "'io?' m 'in' k" := (iobind m (fun _ => k)) (at level 10, m at level 100, k at level 200) : driver_scope.

Section Wait.
Context `{Sandbox}.

Definition after (c : Call) (w : World) : World :=
  mkWorld (c :: made w) (clock w + Z.of_N (takes c (made w)) + match c with Sleep d => Z.max 0 d | _ => 0 end).

Definition call {A} (c : Call) (answer : list Call -> result A Error) : Io A := fun w => (after c w, answer (made w)).

Definition describe : Io SandboxStatus := call Describe describes.
Definition start : Io unit := call Start starts.
Definition resume : Io unit := call Resume resumes.
Definition run_exec (spec : ExecSpec) : Io ExecResult := call (Run spec) (runs spec).
Definition run_streaming (spec : ExecSpec) : Io ExecStreamingResult := call (RunStreaming spec) (streams spec).
Definition sleep (d : Z) : Io unit := call (Sleep d) (fun _ => Ok tt).
Definition now : Io Z := fun w => (w, Ok (clock w)).

(** ** [wait.rs] *)

Record WaitOptions := mkWait { interval : Z; deadline : option Z }.

Definition wait_default : WaitOptions := mkWait (in_seconds 1) (Some (in_seconds 120)).

Definition sandbox_state_debug (s : SandboxState) : string :=
  match s with
  | StCreating => "Creating" | StStarting => "Starting" | StRunning => "Running" | StStopping => "Stopping"
  | StStopped => "Stopped" | StPausing => "Pausing" | StPaused => "Paused" | StResuming => "Resuming"
  | StArchiving => "Archiving" | StArchived => "Archived" | StRestoring => "Restoring" | StResizing => "Resizing"
  | StForking => "Forking" | StSnapshotting => "Snapshotting" | StDeleting => "Deleting" | StDeleted => "Deleted"
  | StError => "Error" | StUnknown => "Unknown"
  end.

(** A turn that goes on: the deadline, if there is one, and the pause. *)
Definition pause (operation : string) (options : WaitOptions) (started : Z) : Io unit :=
  io? match deadline options with
      | Some deadline =>
          io! t := now in
          let elapsed := t - started in
          if deadline <=? elapsed then iothrow (Timeout operation elapsed) else ioret tt
      | None => ioret tt
      end in
  sleep (interval options).

(** The loop of both waits: what a status comes to, if it ends the wait. *)
Fixpoint wait_loop (fuel : nat) (out : Error) (verdict : SandboxStatus -> option (result SandboxStatus Error))
    (operation : string) (options : WaitOptions) (started : Z) : Io SandboxStatus :=
  match fuel with
  | O => iothrow out
  | S fuel =>
      io! status := describe in
      match verdict status with
      | Some r => iolift r
      | None => io? pause operation options started in wait_loop fuel out verdict operation options started
      end
  end.

Definition stable_verdict (status : SandboxStatus) : option (result SandboxStatus Error) :=
  if is_stable (st_state status) then Some (Ok status) else None.

Definition wait_for_stable_state (fuel : nat) (out : Error) (options : WaitOptions) : Io SandboxStatus :=
  io! started := now in wait_loop fuel out stable_verdict "waiting for a stable state" options started.

Definition reached (target state : SandboxState) : bool :=
  bool_decide (state = target) || (bool_decide (target = StStopped) && bool_decide (state = StDeleted)).

Definition state_verdict (target : SandboxState) (status : SandboxStatus) : option (result SandboxStatus Error) :=
  if reached target (st_state status) then Some (Ok status)
  else if bool_decide (st_state status = StError) then
    Some (Err (Provider (mkProviderError "unknown" None (default "sandbox entered the error state" (st_error_reason status)) false None [])))
  else None.

Definition wait_for_state (fuel : nat) (out : Error) (target : SandboxState) (options : WaitOptions) : Io SandboxStatus :=
  io! started := now in
  wait_loop fuel out (state_verdict target) ("waiting for state " +:+ sandbox_state_debug target) options started.

(** ** [probe.rs] *)

Definition BASH_PROBE_SCRIPT : string := NEWLINE +:+ dq
  "if [ -n `${BASH_ENV:-}` ]; then echo `probe: BASH_ENV is set` >&2; exit 1; fi
if [ -z `${BASH_VERSION:-}` ]; then echo `probe: not running under bash` >&2; exit 1; fi
if shopt -q login_shell; then echo `probe: login shell` >&2; exit 1; fi
if shopt -qo posix; then echo `probe: posix mode` >&2; exit 1; fi
printf 'fabro-bash-ready'
".

(** Ten seconds, in the milliseconds of an exec's durations. *)
Definition PROBE_TIMEOUT : Z := 10 * 1000.
Definition PROBE_OK_MARKER : string := "fabro-bash-ready".

Definition probe_spec : ExecSpec := spec_timeout (Some PROBE_TIMEOUT) (bash BASH_PROBE_SCRIPT).

Definition probe_ok (result : ExecResult) : bool :=
  success result && String.eqb (trim (stdout_lossy result)) PROBE_OK_MARKER.

Definition check_probe_result (label : string) (result : ExecResult) : Io unit :=
  if probe_ok result then ioret tt else iothrow (ExecE (failure_of label result)).

Definition run_bash_probe : Io unit :=
  io! result := run_exec probe_spec in
  io? check_probe_result "bash probe" result in
  io! streaming := run_streaming probe_spec in
  check_probe_result "bash probe (streaming transport)" (sr_result streaming).

Definition activate (fuel : nat) (out : Error) (wait : WaitOptions) : Io unit :=
  io! status := describe in
  io! state := (if is_stable (st_state status) then ioret (st_state status)
                else io! status := wait_for_stable_state fuel out wait in ioret (st_state status)) in
  io? match state with
      | StRunning => ioret tt
      | StPaused => io? resume in io? wait_for_state fuel out StRunning wait in ioret tt
      | _ => io? start in io? wait_for_state fuel out StRunning wait in ioret tt
      end in
  run_bash_probe.
End Wait.

(** ** A wait ends by its deadline *)

(** The turns a wait with a deadline takes at most. *)
Definition wait_turns (options : WaitOptions) (d : Z) : nat := S (Z.to_nat ((d + interval options - 1) / interval options)).

Definition is_wait (c : Call) : bool := match c with Describe | Sleep _ => true | _ => false end.

(** What starting from a settled state takes. *)
Definition needed (s : SandboxState) : option Call :=
  match s with StRunning => None | StPaused => Some Resume | _ => Some Start end.

Lemma iobind_ok {A B} (m : Io A) (k : A -> Io B) w w' b : iobind m k w = (w', Ok b) ->
  exists w1 a, m w = (w1, Ok a) /\ k a w1 = (w', Ok b).
Proof. unfold iobind. destruct (m w) as [w1 [a|e]]; [|done]. eauto. Qed.

Section Ends.
Context `{Sandbox}.

(** The last call was a describe, and the answer was such a status. *)
Definition seen (P : SandboxStatus -> Prop) (l : list Call) : Prop :=
  exists h st, l = Describe :: h /\ describes h = Ok st /\ P st.

(** How a wait that began at a time ends after it added calls to a log. *)
Definition waited (verdict : SandboxStatus -> option (result SandboxStatus Error)) (operation : string) (started d : Z)
    (w w' : World) (r : result SandboxStatus Error) : Prop :=
  (exists l, made w' = l ++ made w /\ Forall is_wait l) /\
  match r with
  | Ok st => seen (fun s => verdict s = Some (Ok st)) (made w')
  | Err e =>
      (exists h, made w' = Describe :: h /\ describes h = Err e) \/ seen (fun s => verdict s = Some (Err e)) (made w') \/
      exists elapsed, e = Timeout operation elapsed /\ d <= elapsed
  end.

Lemma waited_more verdict operation started d w0 w w' r l : made w = l ++ made w0 -> Forall is_wait l ->
  waited verdict operation started d w w' r -> waited verdict operation started d w0 w' r.
Proof.
  intros Hm Hl [(l' & Hw & Hl') Hr]. split; [|done]. exists (l' ++ l). rewrite Hw, Hm. split; [by rewrite app_assoc|by apply Forall_app].
Qed.

Definition left_over (options : WaitOptions) (started d : Z) (w : World) : nat :=
  Z.to_nat ((started + d - clock w + interval options - 1) / interval options).

Lemma pause_deadline operation options started d w : deadline options = Some d ->
  pause operation options started w =
  if d <=? clock w - started then (w, Err (Timeout operation (clock w - started))) else (after (Sleep (interval options)) w, Ok tt).
Proof. intros Hd. unfold pause, iobind, now. rewrite Hd. by destruct (_ <=? _). Qed.

Lemma wait_loop_ends f1 f2 out1 out2 verdict operation options started d w :
  deadline options = Some d -> 0 < interval options ->
  (left_over options started d w < f1)%nat -> (left_over options started d w < f2)%nat ->
  let '(w', r) := wait_loop f1 out1 verdict operation options started w in
  wait_loop f2 out2 verdict operation options started w = (w', r) /\ waited verdict operation started d w w' r.
Proof.
  intros Hd Hi. revert f2 w. induction f1 as [|f1 IH]; intros [|f2] w H1 H2; [lia..|].
  cbn [wait_loop]. unfold iobind, describe, call.
  destruct (describes (made w)) as [st|e] eqn:Ed.
  2: { split; [done|]. split; [by exists [Describe]; repeat constructor|]. left. by exists (made w). }
  assert (Hs : forall P : SandboxStatus -> Prop, P st -> seen P (made (after Describe w))) by (intros P HP; by exists (made w), st).
  destruct (verdict st) as [[st'|e]|] eqn:Ev.
  - split; [done|]. split; [by exists [Describe]; repeat constructor|]. by apply Hs.
  - split; [done|]. split; [by exists [Describe]; repeat constructor|]. right; left. by apply Hs.
  - rewrite !(pause_deadline _ _ _ _ _ Hd). destruct (d <=? clock (after Describe w) - started) eqn:El.
    + split; [done|]. split; [by exists [Describe]; repeat constructor|]. right; right. eexists. split; [done|]. by apply Z.leb_le in El.
    + apply Z.leb_gt in El. set (w2 := after (Sleep (interval options)) (after Describe w)).
      assert (Hlt : (left_over options started d w2 < left_over options started d w)%nat).
      { unfold left_over, w2. cbn in *. set (t1 := Z.of_N _). set (t2 := Z.of_N _). fold t1 in El.
        assert (0 <= t1 /\ 0 <= t2) as [] by (unfold t1, t2; lia). rewrite Z.max_r by lia.
        set (q := (started + d - clock w + interval options - 1) / interval options).
        assert (1 <= q) by (apply Z.div_le_lower_bound; lia).
        enough ((started + d - (clock w + t1 + 0 + t2 + interval options) + interval options - 1) / interval options <= q - 1) by lia.
        pose proof (Z.div_add (started + d - clock w + interval options - 1) (-1) (interval options) ltac:(lia)) as Hq.
        etransitivity; [|apply Z.eq_le_incl; exact Hq]. apply Z.div_le_mono; lia. }
      specialize (IH f2 w2 ltac:(lia) ltac:(lia)). fold w2. destruct (wait_loop f1 _ _ _ _ _ w2) as [w' r]. destruct IH as [-> Hw].
      split; [done|]. apply (waited_more _ _ _ _ w w2 _ _ [Sleep (interval options); Describe]); [done|by repeat constructor|done].
Qed.
(** A wait from now on: with enough turns for its deadline it ends, and as its last call
    says. *)
Lemma timed_wait_ends verdict operation options d f1 f2 out1 out2 w : deadline options = Some d -> 0 < interval options ->
  (wait_turns options d <= f1)%nat -> (wait_turns options d <= f2)%nat ->
  let '(w', r) := (io! started := now in wait_loop f1 out1 verdict operation options started) w in
  (io! started := now in wait_loop f2 out2 verdict operation options started) w = (w', r) /\
  waited verdict operation (clock w) d w w' r.
Proof.
  intros Hd Hi H1 H2. unfold iobind, now. unfold wait_turns in *.
  apply wait_loop_ends; [done..| |]; unfold left_over; replace (clock w + d - clock w) with d by lia; lia.
Qed.

(** ** Activation *)

(** The last calls were a describe that showed a running sandbox, and both probes, which
    both passed. *)
Definition activated (l : list Call) : Prop :=
  exists h, l = RunStreaming probe_spec :: Run probe_spec :: h /\ seen (fun s => st_state s = StRunning) h /\
  (exists r, runs probe_spec h = Ok r /\ probe_ok r = true) /\
  exists s, streams probe_spec (Run probe_spec :: h) = Ok s /\ probe_ok (sr_result s) = true.

(** The calls of an activation, newest first: waits, at most one change, which follows on
    a describe that showed the settled state it is for, waits again, and the probes. *)
Definition course (old new : list Call) : Prop :=
  exists probes second change first, new = probes ++ second ++ change ++ first ++ old /\
    (probes = [] \/ probes = [Run probe_spec] \/ probes = [RunStreaming probe_spec; Run probe_spec]) /\
    Forall is_wait second /\ Forall is_wait first /\
    (change = [] \/ exists c, change = [c] /\
      seen (fun s => is_stable (st_state s) = true /\ needed (st_state s) = Some c) (first ++ old)).

Lemma probe_made w : let '(w', r) := run_bash_probe w in
  exists probes, made w' = probes ++ made w /\
    (probes = [] \/ probes = [Run probe_spec] \/ probes = [RunStreaming probe_spec; Run probe_spec]) /\
    (r = Ok tt -> probes = [RunStreaming probe_spec; Run probe_spec] /\
      (exists x, runs probe_spec (made w) = Ok x /\ probe_ok x = true) /\
      exists s, streams probe_spec (Run probe_spec :: made w) = Ok s /\ probe_ok (sr_result s) = true).
Proof.
  unfold run_bash_probe, iobind, run_exec, run_streaming, call, check_probe_result.
  destruct (runs probe_spec (made w)) as [x|e] eqn:Er; [|exists [Run probe_spec]; split_and!; [done|auto|done]].
  destruct (probe_ok x) eqn:Ex; [|exists [Run probe_spec]; split_and!; [done|auto|done]]. cbn [ioret made after].
  destruct (streams _ _) as [s|e] eqn:Es; [|exists [RunStreaming probe_spec; Run probe_spec]; split_and!; [done|auto|done]].
  destruct (probe_ok (sr_result s)) eqn:Ep; (exists [RunStreaming probe_spec; Run probe_spec]; split_and!; [done|auto|]); [|done].
  intros _. split_and!; [done|by exists x|by exists s].
Qed.
(** The two phases before the probes. *)
Definition settle (fuel : nat) (out : Error) (wait : WaitOptions) : Io SandboxState :=
  io! status := describe in
  if is_stable (st_state status) then ioret (st_state status)
  else io! status := wait_for_stable_state fuel out wait in ioret (st_state status).

Definition bring_up (fuel : nat) (out : Error) (wait : WaitOptions) (state : SandboxState) : Io unit :=
  match needed state with
  | None => ioret tt
  | Some c =>
      io? (if bool_decide (state = StPaused) then resume else start) in
      io? wait_for_state fuel out StRunning wait in ioret tt
  end.

Lemma activate_phases fuel out wait w :
  activate fuel out wait w = (io! state := settle fuel out wait in io? bring_up fuel out wait state in run_bash_probe) w.
Proof.
  unfold activate, settle, iobind. destruct (describe w) as [w1 [st|e]]; [|done]. destruct (_ w1) as [w2 [state|e]]; [|done].
  by destruct state.
Qed.

Lemma settle_ends wait d f1 f2 out1 out2 w : deadline wait = Some d -> 0 < interval wait ->
  (wait_turns wait d <= f1)%nat -> (wait_turns wait d <= f2)%nat ->
  let '(w', r) := settle f1 out1 wait w in
  settle f2 out2 wait w = (w', r) /\
  exists first, made w' = first ++ made w /\ Forall is_wait first /\
    forall state, r = Ok state -> seen (fun s => is_stable (st_state s) = true /\ st_state s = state) (made w').
Proof.
  intros Hd Hi H1 H2. unfold settle, wait_for_stable_state, iobind, now, describe, call.
  destruct (describes (made w)) as [st|e] eqn:Ed; [|split; [done|]; exists [Describe]; by repeat constructor].
  destruct (is_stable (st_state st)) eqn:Es.
  { split; [done|]. exists [Describe]. split_and!; [done|by repeat constructor|]. intros state [= <-]. by exists (made w), st. }
  pose proof (timed_wait_ends stable_verdict "waiting for a stable state" wait d f1 f2 out1 out2 (after Describe w) Hd Hi H1 H2) as Hw.
  unfold iobind, now in Hw. destruct (wait_loop f1 _ _ _ _ _ _) as [w' r]. destruct Hw as [-> [(l & Hm & Hl) Hr]].
  assert (made w' = (l ++ [Describe]) ++ made w) by (rewrite Hm; cbn; by rewrite <- app_assoc).
  assert (Forall is_wait (l ++ [Describe])) by (apply Forall_app; split; [done|by repeat constructor]).
  destruct r as [st'|e]; (split; [done|]; exists (l ++ [Describe]); split; [done|]; split; [done|]); [|done].
  intros state [= <-]. destruct Hr as (h & s & Hh & Hs & Hv). exists h, s. split; [done|]. split; [done|]. unfold stable_verdict in Hv.
  destruct (is_stable (st_state s)) eqn:E; [|done]. by injection Hv as ->.
Qed.

Lemma bring_up_ends wait d f1 f2 out1 out2 state w : deadline wait = Some d -> 0 < interval wait ->
  (wait_turns wait d <= f1)%nat -> (wait_turns wait d <= f2)%nat ->
  let '(w', r) := bring_up f1 out1 wait state w in
  bring_up f2 out2 wait state w = (w', r) /\
  exists second change, made w' = second ++ change ++ made w /\ Forall is_wait second /\
    (change = [] \/ exists c, change = [c] /\ needed state = Some c) /\
    (r = Ok tt -> w' = w /\ state = StRunning \/ seen (fun s => st_state s = StRunning) (made w')).
Proof.
  intros Hd Hi H1 H2. unfold bring_up, wait_for_state, iobind, now. destruct (needed state) as [c|] eqn:En.
  2: { split; [done|]. exists [], []. split_and!; [done|constructor|by left|]. left. split; [done|]. by destruct state. }
  set (ask := if bool_decide (state = StPaused) then resume else start).
  assert (exists r, ask w = (after c w, r)) as (r & Hr).
  { unfold ask. case_bool_decide as Ep; [subst; cbn in En; injection En as <-; by eexists|].
    destruct state; cbn in En; try done; injection En as <-; by eexists. }
  rewrite !Hr. destruct r as [u|e].
  2: { split; [done|]. exists [], [c]. split_and!; [done|constructor|right; by exists c|done]. }
  pose proof (timed_wait_ends (state_verdict StRunning) ("waiting for state " +:+ sandbox_state_debug StRunning) wait d f1 f2 out1 out2 (after c w) Hd Hi H1 H2) as Hw.
  unfold iobind, now in Hw. destruct (wait_loop f1 _ _ _ _ _ _) as [w' r]. destruct Hw as [-> [(l & Hm & Hl) Hv]].
  destruct r as [st|e]; (split; [done|]; exists l, [c]; split; [done|]; split; [done|]; split; [right; by exists c|]); [|done].
  intros _. right. destruct Hv as (h & s & Hh & Hs & Hv). exists h, s. split_and!; [done..|].
  unfold state_verdict, reached in Hv. by destruct (st_state s).
Qed.

(** C16. Activating a sandbox with a deadline ends, each wait within that deadline and
    more fuel changing nothing. A success means that the last state described was
    running and that both probes passed after it; and the sandbox is started or resumed at
    most once, right after a describe that showed it settled in the state it is for,
    never while it was changing. *)
Theorem activation_settles wait d f1 f2 out1 out2 w : deadline wait = Some d -> 0 < interval wait ->
  (wait_turns wait d <= f1)%nat -> (wait_turns wait d <= f2)%nat ->
  let '(w', r) := activate f1 out1 wait w in
  activate f2 out2 wait w = (w', r) /\ course (made w) (made w') /\ (r = Ok tt -> activated (made w')).
Proof.
  intros Hd Hi H1 H2. rewrite !activate_phases. unfold iobind.
  pose proof (settle_ends wait d f1 f2 out1 out2 w Hd Hi H1 H2) as Hs. destruct (settle f1 _ _ w) as [w1 r1].
  destruct Hs as (-> & first & M1 & Hf & Hs).
  destruct r1 as [state|e]; [|split_and!; [done| |done]; exists [], [], [], first; rewrite M1; split_and!; auto].
  specialize (Hs state eq_refl).
  pose proof (bring_up_ends wait d f1 f2 out1 out2 state w1 Hd Hi H1 H2) as Hb. destruct (bring_up f1 _ _ _ w1) as [w2 r2].
  destruct Hb as (-> & second & change & M2 & Hw & Hc & Hr). rewrite M1 in M2.
  assert (Hch : change = [] \/ exists c, change = [c] /\ seen (fun s => is_stable (st_state s) = true /\ needed (st_state s) = Some c) (first ++ made w)).
  { destruct Hc as [->|(c & -> & Hn)]; [by left|]. right. exists c. split; [done|]. rewrite <- M1.
    destruct Hs as (h & st & ? & ? & ? & <-). by exists h, st. }
  destruct r2 as [[]|e]; [|split_and!; [done| |done]; exists [], second, change, first; rewrite M2; split_and!; auto].
  pose proof (probe_made w2) as Hp. destruct (run_bash_probe w2) as [w3 r3]. destruct Hp as (probes & M3 & Hp & Ho).
  split_and!; [done|exists probes, second, change, first; rewrite M3, M2; split_and!; auto|].
  intros Hok. destruct (Ho Hok) as (-> & H3 & H4). exists (made w2). split_and!; [done| |done..].
  destruct (Hr eq_refl) as [[-> ->]|Hs2]; [|done]. destruct Hs as (h & st & ? & ? & ? & ?). by exists h, st.
Qed.
End Ends.


(** ** Examples *)

Definition demo_probe : ExecResult := mkResult (to_bytes (PROBE_OK_MARKER +:+ NEWLINE)) [] (Some 0) None Exited 5.

(** A sandbox that is stopping as it is found, has stopped at the third describe, and runs
    at the second after its start. *)
Definition demo_state (l : list Call) : SandboxState :=
  let describes := length (List.filter (fun c => match c with Describe => true | _ => false end) l) in
  if existsb (fun c => match c with Start => true | _ => false end) l
  then (if (describes <? 4)%nat then StStarting else StRunning)
  else if (describes <? 2)%nat then StStopping else StStopped.

#[local] Instance demo_sandbox : Sandbox := {|
  describes l := Ok (status_new "sb-1" (demo_state l));
  starts _ := Ok tt;
  resumes _ := Err (InvalidState StStopped ActResume);
  runs _ _ := Ok demo_probe;
  streams _ _ := Ok (streaming_new demo_probe);
  takes _ _ := 1000000%N;
|}.

Definition demo_out : Error := InvalidSpec "fuel" "".

Example activate_run :
  let '(w, r) := activate 10 demo_out wait_default (mkWorld [] 0) in
  r = Ok tt /\ rev (made w) =
    [Describe; Describe; Sleep (in_seconds 1); Describe; Start; Describe; Sleep (in_seconds 1); Describe; Run probe_spec; RunStreaming probe_spec].
Proof. vm_compute. by split. Qed.

Lemma activation_settles_witness :
  let '(w', r) := activate 121 demo_out wait_default (mkWorld [] 0) in
  activate 500 demo_out wait_default (mkWorld [] 0) = (w', r) /\ course [] (made w') /\ (r = Ok tt -> activated (made w')).
Proof.
  apply (activation_settles wait_default (in_seconds 120) 121 500 demo_out demo_out (mkWorld [] 0)); [reflexivity|vm_compute; reflexivity|vm_compute; lia|vm_compute; lia].
Defined.
