(* ===== verification/Events.v ===== *)
(** * The events of operations

    Models [crates/sandbox-driver/src/event.rs] beyond the actions and error reports of
    [Errors]: subjects, bodies and envelopes of events, the context whose lock is held
    while an observer is handed an event ([EventContext]), and the lifecycle an operation
    emits ([EventEmitter::run] and [OperationReporter]). Operations are tasks, and a
    step is what one does between two awaits; any task may go next, and any may be dropped,
    also while the observer has its event. Source and operation ids are random and taken to
    differ: an operation's id is its task. An operation reports from one task at a
    time, and no reporter outlives its operation. *)

From S2P Require Import Prelude Text Errors DaytonaSnapshots.

#[local] Open Scope string_scope.
#[local] Open Scope list_scope.
#[local] Open Scope Z_scope.

(** ** Events *)

Inductive EventSubject :=
  | EsProvider
  | EsSandbox (id name : option string)
  | EsSnapshot (id name : option string)
  | EsVolume (id name : option string)
  | EsUnknown.

Definition sandbox (id : option string) : EventSubject := EsSandbox id None.
Definition pending_sandbox (name : option string) : EventSubject := EsSandbox None name.
Definition snapshot (id : option string) : EventSubject := EsSnapshot id None.
Definition pending_snapshot (name : option string) : EventSubject := EsSnapshot None name.
Definition volume (id : option string) : EventSubject := EsVolume id None.
Definition pending_volume (name : option string) : EventSubject := EsVolume None name.

Inductive ProgressUnit := Bytes | Items | Steps | Percent | PuUnknown.

Record Progress := mkProgress {
  pr_code : string;
  pr_message : option string;
  pr_completed : option Z;
  pr_total : option Z;
  pr_unit : option ProgressUnit;
}.

Definition progress_new (code : string) : Progress := mkProgress code None None None None.
Definition progress_message (message : string) (p : Progress) : Progress :=
  mkProgress (pr_code p) (Some message) (pr_completed p) (pr_total p) (pr_unit p).
Definition progress_amount (completed : Z) (total : option Z) (unit : ProgressUnit) (p : Progress) : Progress :=
  mkProgress (pr_code p) (pr_message p) (Some completed) total (Some unit).

Inductive ResourceState :=
  | OfSandbox (s : SandboxState)
  | OfSnapshot (s : SnapshotState)
  | OfVolume (s : VolumeState)
  | OfUnknown.

Inductive EventBody :=
  | OperationStarted (action : Action)
  | OperationProgress (action : Action) (progress : Progress)
  | OperationCompleted (action : Action) (duration : Z)
  | OperationFailed (action : Action) (duration : Z) (error : ErrorReport)
  | StateObserved (previous : option ResourceState) (current : ResourceState)
  | Notice (code message : string)
  | EbUnknown.

Definition is_terminal (b : EventBody) : bool :=
  match b with OperationCompleted _ _ | OperationFailed _ _ _ => true | _ => false end.

Record Event := mkEvent {
  ev_source : string;
  ev_sequence : Z;
  occurred_at : Z;
  ev_provider : string;
  ev_subject : EventSubject;
  operation_id : option nat;
  correlation_id : option string;
  ev_body : EventBody;
}.

(** ** A context and its operations *)

(** An event as its emitter composes it, before it has the lock. *)
Record Draft := mkDraft {
  dr_at : Z;
  dr_provider : string;
  dr_subject : EventSubject;
  dr_operation : option nat;
  dr_body : EventBody;
}.

(** Where an emitter goes on once its event was handed over: the operation begins, or goes
    on, or the emitter returns its outcome ([None] is success), or it returns from
    [state_observed] or [notice]. *)
Inductive After := ToOperation | ToBody | ToEnd (outcome : option Error) | ToReturn.

Inductive Phase := Emitting (d : Draft) (k : After) | Body | Ended (outcome : option Error) | Returned | Dropped.

(** One that only tells an observation or a notice has no action. *)
Record Task := mkTask {
  tk_provider : string;
  tk_action : option Action;
  tk_subject : EventSubject;
  tk_started : Z;
  tk_phase : Phase;
}.

Definition with_phase (p : Phase) (t : Task) : Task := mkTask (tk_provider t) (tk_action t) (tk_subject t) (tk_started t) p.

(** The lock's holder and the event the observer has; the events handed over; the
    monotonic clock. *)
Record Source := mkSource {
  next_sequence : Z;
  lock : option (nat * Event);
  observed : list Event;
  tasks : gmap nat Task;
  clock : Z;
}.

Definition set_task (t : nat) (k : Task) (s : Source) : Source :=
  mkSource (next_sequence s) (lock s) (observed s) (<[t := k]> (tasks s)) (clock s).

(** What the other side of the model does: tasks go on, the system clock says [at]. *)
Inductive Label :=
  | Begin (t : nat) (provider : string) (subject : EventSubject) (action : Action) (at_ : Z)
  | SetSubject (t : nat) (subject : EventSubject)
  | Report (t : nat) (p : Progress) (at_ : Z)
  | Finish (t : nat) (outcome : option Error) (at_ : Z)
  | Tell (t : nat) (provider : string) (subject : EventSubject) (body : EventBody) (at_ : Z)
  | Acquire (t : nat)
  | Observe (t : nat)
  | Drop (t : nat) (recorded : bool)
  | Forward (e : Event)
  | Tick (d : N).

Section Emitter.
Context (source_id : string) (correlation : option string) (to_string : Error -> string).

Definition start : Source := mkSource 0 None [] ∅ 0.

Definition with_subject (subject : EventSubject) (k : Task) : Task :=
  mkTask (tk_provider k) (tk_action k) subject (tk_started k) (tk_phase k).

Definition terminal_body (action : Action) (duration : Z) (outcome : option Error) : EventBody :=
  match outcome with
  | None => OperationCompleted action duration
  | Some error => OperationFailed action duration (report_of to_string error)
  end.

(** The envelope, once the sequence is known. *)
Definition stamp (sequence : Z) (d : Draft) : Event :=
  mkEvent source_id sequence (dr_at d) (dr_provider d) (dr_subject d) (dr_operation d) correlation (dr_body d).

(** [EventEmitter::run] up to its first event. *)
Definition begin_run (t : nat) (provider : string) (subject : EventSubject) (action : Action) (at_ : Z) (s : Source) : Task :=
  mkTask provider (Some action) subject (clock s)
    (Emitting (mkDraft at_ provider subject (Some t) (OperationStarted action)) ToOperation).

Definition report (t : nat) (k : Task) (action : Action) (p : Progress) (at_ : Z) : Task :=
  with_phase (Emitting (mkDraft at_ (tk_provider k) (tk_subject k) (Some t) (OperationProgress action p)) ToBody) k.

(** [EventEmitter::run] once the operation has its outcome. *)
Definition finish_run (t : nat) (k : Task) (action : Action) (outcome : option Error) (at_ : Z) (s : Source) : Task :=
  let duration := clock s - tk_started k in
  with_phase (Emitting (mkDraft at_ (tk_provider k) (tk_subject k) (Some t) (terminal_body action duration outcome)) (ToEnd outcome)) k.

(** [state_observed] and [notice]. *)
Definition tell (provider : string) (subject : EventSubject) (body : EventBody) (at_ : Z) (s : Source) : option Task :=
  match body with
  | StateObserved _ _ | Notice _ _ =>
      Some (mkTask provider None subject (clock s) (Emitting (mkDraft at_ provider subject None body) ToReturn))
  | _ => None
  end.

(** Where the emitter goes on; the operation's time counts from its start. *)
Definition go_on (k : Task) (a : After) (s : Source) : Task :=
  match a with
  | ToOperation => mkTask (tk_provider k) (tk_action k) (tk_subject k) (clock s) Body
  | ToBody => with_phase Body k
  | ToEnd outcome => with_phase (Ended outcome) k
  | ToReturn => with_phase Returned k
  end.

(** The operation that is running in a task. *)
Definition operating (s : Source) (t : nat) : option (Task * Action) :=
  match tasks s !! t with
  | Some k => match tk_phase k, tk_action k with Body, Some action => Some (k, action) | _, _ => None end
  | None => None
  end.

Definition live (k : Task) : bool := match tk_phase k with Emitting _ _ | Body => true | _ => false end.

(** What is left of the lock when a task is dropped, and whether its event was recorded. *)
Definition release (t : nat) (recorded : bool) (s : Source) : option (nat * Event) * list Event :=
  match lock s with
  | Some (holder, e) => if bool_decide (holder = t) then (None, if recorded then [e] else []) else (lock s, [])
  | None => (None, [])
  end.

Definition step (s : Source) (l : Label) : option Source :=
  match l with
  | Begin t provider subject action at_ =>
      match tasks s !! t with
      | Some _ => None
      | None => Some (set_task t (begin_run t provider subject action at_ s) s)
      end
  | SetSubject t subject => (fun '(k, _) => set_task t (with_subject subject k) s) <$> operating s t
  | Report t p at_ => (fun '(k, action) => set_task t (report t k action p at_) s) <$> operating s t
  | Finish t outcome at_ => (fun '(k, action) => set_task t (finish_run t k action outcome at_ s) s) <$> operating s t
  | Tell t provider subject body at_ =>
      match tasks s !! t with
      | Some _ => None
      | None => (fun k => set_task t k s) <$> tell provider subject body at_ s
      end
  | Acquire t =>
      match lock s, tasks s !! t with
      | None, Some k =>
          match tk_phase k with
          | Emitting d _ =>
              let sequence := next_sequence s + 1 in
              if sequence <? 2 ^ 64
              then Some (mkSource sequence (Some (t, stamp sequence d)) (observed s) (tasks s) (clock s))
              else None
          | _ => None
          end
      | _, _ => None
      end
  | Observe t =>
      match lock s, tasks s !! t with
      | Some (holder, e), Some k =>
          match tk_phase k with
          | Emitting _ a =>
              if bool_decide (holder = t)
              then Some (mkSource (next_sequence s) None (observed s ++ [e]) (<[t := go_on k a s]> (tasks s)) (clock s))
              else None
          | _ => None
          end
      | _, _ => None
      end
  | Drop t recorded =>
      match tasks s !! t with
      | Some k =>
          if live k then
            let '(held, last) := release t recorded s in
            Some (mkSource (next_sequence s) held (observed s ++ last) (<[t := with_phase Dropped k]> (tasks s)) (clock s))
          else None
      | None => None
      end
  | Forward e =>
      if bool_decide (ev_source e = source_id) then None
      else Some (mkSource (next_sequence s) (lock s) (observed s ++ [e]) (tasks s) (clock s))
  | Tick d => Some (mkSource (next_sequence s) (lock s) (observed s) (tasks s) (clock s + Z.of_N d))
  end.

Fixpoint steps (s : Source) (ls : list Label) : option Source :=
  match ls with [] => Some s | l :: ls => match step s l with Some s => steps s ls | None => None end end.

(** ** What an observer is told *)

(** The events of this source, of all that were observed. *)
Definition own (l : list Event) : list Event := filter (fun e => ev_source e = source_id) l.

(** Those of one operation. *)
Definition history (t : nat) (l : list Event) : list Event := filter (fun e => operation_id e = Some t) (own l).

Definition held (s : Source) : list Event := match lock s with Some (_, e) => [e] | None => [] end.

(** An operation that began and reported progress. *)
Definition life (a : Action) (ps : list Progress) : list EventBody := OperationStarted a :: map (OperationProgress a) ps.

(** What was told of an operation, by what its task is at. *)
Definition told (t : nat) (k : Task) (h : list Event) : Prop :=
  let bodies := map ev_body h in
  match tk_action k with
  | None => h = [] /\ match tk_phase k with
                      | Emitting d a => dr_operation d = None /\ a = ToReturn
                      | Body | Ended _ => False
                      | Returned | Dropped => True
                      end
  | Some a =>
      match tk_phase k with
      | Emitting d ToOperation => bodies = [] /\ dr_operation d = Some t /\ dr_body d = OperationStarted a
      | Emitting d ToBody => dr_operation d = Some t /\ exists ps p, bodies = life a ps /\ dr_body d = OperationProgress a p
      | Emitting d (ToEnd outcome) =>
          dr_operation d = Some t /\ dr_subject d = tk_subject k /\
          exists ps n, bodies = life a ps /\ 0 <= n /\ dr_body d = terminal_body a n outcome
      | Body => exists ps, bodies = life a ps
      | Ended outcome =>
          exists h' e ps n, h = h' ++ [e] /\ map ev_body h' = life a ps /\ 0 <= n /\
            ev_body e = terminal_body a n outcome /\ ev_subject e = tk_subject k
      | Dropped => bodies = [] \/ (exists ps, bodies = life a ps) \/ exists ps n outcome, bodies = life a ps ++ [terminal_body a n outcome]
      | Emitting _ ToReturn | Returned => False
      end
  end.

Record Inv (s : Source) : Prop := {
  inv_next : 0 <= next_sequence s;
  inv_bound : Forall (fun e => 1 <= ev_sequence e <= next_sequence s) (own (observed s) ++ held s);
  inv_sorted : StronglySorted Z.lt (map ev_sequence (own (observed s) ++ held s));
  inv_lock : forall t e, lock s = Some (t, e) -> exists k d a,
    tasks s !! t = Some k /\ tk_phase k = Emitting d a /\ e = stamp (next_sequence s) d;
  inv_tasks : forall t k, tasks s !! t = Some k -> told t k (history t (observed s)) /\ tk_started k <= clock s;
  inv_fresh : forall t, tasks s !! t = None -> history t (observed s) = [];
}.

Lemma own_app l1 l2 : own (l1 ++ l2) = own l1 ++ own l2.
Proof. apply filter_app. Qed.

Lemma own_stamp n d : own [stamp n d] = [stamp n d].
Proof. unfold own. by rewrite filter_cons_True. Qed.

Lemma own_foreign e : ev_source e <> source_id -> own [e] = [].
Proof. intros He. unfold own. by rewrite filter_cons_False. Qed.

Lemma history_app t l1 l2 : history t (l1 ++ l2) = history t l1 ++ history t l2.
Proof. unfold history. by rewrite own_app, filter_app. Qed.

Lemma history_stamp t n d : history t [stamp n d] = if decide (dr_operation d = Some t) then [stamp n d] else [].
Proof.
  unfold history. rewrite own_stamp. case_decide as Hd; [by rewrite filter_cons_True|by rewrite filter_cons_False].
Qed.

Lemma start_inv : Inv start.
Proof. split; cbn; try done; constructor. Qed.

(** A step that only changes what one task is at. *)
Lemma inv_set_task s t k : Inv s -> (forall e, lock s <> Some (t, e)) ->
  told t k (history t (observed s)) -> tk_started k <= clock s -> Inv (set_task t k s).
Proof.
  intros [H1 H2 H3 H4 H5 H6] Hl Hk Hc. split; cbn -[history own]; try done.
  - intros t' e He. rewrite lookup_insert_ne by (intros <-; by apply (Hl e)). by apply H4.
  - intros t' k'. destruct (decide (t = t')) as [<-|Hn]; [rewrite lookup_insert_eq; by intros [= <-]|rewrite lookup_insert_ne by done; apply H5].
  - intros t'. destruct (decide (t = t')) as [<-|Hn]; [by rewrite lookup_insert_eq|rewrite lookup_insert_ne by done; apply H6].
Qed.

Lemma operating_spec s t k a : operating s t = Some (k, a) -> tasks s !! t = Some k /\ tk_phase k = Body /\ tk_action k = Some a.
Proof. unfold operating. destruct (tasks s !! t) as [k'|]; [|done]. destruct (tk_phase k') eqn:Ep; try done. destruct (tk_action k') eqn:Ea; [|done]. by intros [= <- <-]. Qed.

Lemma operating_inv s t k a : Inv s -> operating s t = Some (k, a) ->
  (exists ps, map ev_body (history t (observed s)) = life a ps) /\ tk_started k <= clock s /\ tk_action k = Some a /\ forall e, lock s <> Some (t, e).
Proof.
  intros HI (Hk & Hp & Ha)%operating_spec. destruct (inv_tasks _ HI _ _ Hk) as [Ht Hc]. unfold told in Ht. rewrite Ha, Hp in Ht.
  split_and!; try done. intros e He. destruct (inv_lock _ HI _ _ He) as (k' & d & a' & Hk' & Hp' & _). congruence.
Qed.

Lemma fresh_unlocked s t : Inv s -> tasks s !! t = None -> forall e, lock s <> Some (t, e).
Proof. intros HI Hn e He. destruct (inv_lock _ HI _ _ He) as (k & d & a & Hk & _). congruence. Qed.

(** The lock's event told or lost: what holds of its task then, the rest is as before. *)
Lemma inv_handed s t e k last : Inv s -> lock s = Some (t, e) -> last = [e] \/ last = [] ->
  told t k (history t (observed s ++ last)) -> tk_started k <= clock s ->
  Inv (mkSource (next_sequence s) None (observed s ++ last) (<[t := k]> (tasks s)) (clock s)).
Proof.
  intros HI He Hlast Ht Hc. destruct (inv_lock _ HI _ _ He) as (k0 & d & a & Hk0 & Hp0 & ->).
  destruct HI as [H1 H2 H3 H4 H5 H6]. unfold held in *. rewrite He in *.
  destruct (H5 _ _ Hk0) as [Hd _]. assert (Hop : dr_operation d = Some t \/ dr_operation d = None).
  { unfold told in Hd. rewrite Hp0 in Hd. destruct (tk_action k0) as [a0|]; [|right; by apply Hd]. destruct a; try (left; by apply Hd). done. }
  assert (Hoth : forall t', t <> t' -> history t' (observed s ++ last) = history t' (observed s)).
  { intros t' Hn. rewrite history_app. destruct Hlast as [->| ->]; [rewrite history_stamp; case_decide as Hx; [|by rewrite app_nil_r]|by rewrite app_nil_r].
    destruct Hop as [Hop|Hop]; rewrite Hop in Hx; by simplify_eq. }
  split; cbn -[history own]; try done.
  - destruct Hlast as [->| ->]; rewrite own_app, app_nil_r; [by rewrite own_stamp|]. rewrite app_nil_r. by apply Forall_app in H2 as [H2 _].
  - destruct Hlast as [->| ->]; rewrite own_app, app_nil_r; [by rewrite own_stamp|]. rewrite app_nil_r, map_app in *. by apply StronglySorted_app_1_l in H3.
  - intros t' k'. destruct (decide (t = t')) as [<-|Hn]; [rewrite lookup_insert_eq; by intros [= <-]|]. rewrite lookup_insert_ne, Hoth by done. apply H5.
  - intros t'. destruct (decide (t = t')) as [<-|Hn]; [by rewrite lookup_insert_eq|]. rewrite lookup_insert_ne, Hoth by done. apply H6.
Qed.

Lemma told_new t k s : Inv s -> tasks s !! t = None -> told t k [] -> told t k (history t (observed s)).
Proof. intros HI Hn. by rewrite (inv_fresh _ HI _ Hn). Qed.

(** The observer's event is the one the task emits: what is told when it is handed over. *)
Lemma told_next t k d a s h : tk_phase k = Emitting d a -> told t k h -> tk_started k <= clock s ->
  told t (go_on k a s) (h ++ if decide (dr_operation d = Some t) then [stamp (next_sequence s) d] else []).
Proof.
  unfold told. intros Hp. rewrite Hp. destruct (tk_action k) as [act|] eqn:Ea.
  - destruct a as [| |o|]; cbn [go_on with_phase tk_action tk_phase]; rewrite ?Ea; try done.
    + intros (Hh & -> & Hb) _. rewrite decide_True, map_app, Hh by done. exists []. cbn. by rewrite Hb.
    + intros (-> & ps & p & Hh & Hb) _. rewrite decide_True, map_app, Hh by done. exists (ps ++ [p]). unfold life. cbn. by rewrite Hb, map_app.
    + intros (-> & Hs & ps & n & Hh & Hn & Hb) _. rewrite decide_True by done. by exists h, (stamp (next_sequence s) d), ps, n.
  - intros (-> & Hd & ->) _. cbn. rewrite Ea, Hd. by rewrite decide_False.
Qed.

(** And when its task is dropped, recorded or not. *)
Lemma told_dropped t k h last : told t k h -> live k = true ->
  (last = [] \/ exists d a n, tk_phase k = Emitting d a /\ last = if decide (dr_operation d = Some t) then [stamp n d] else []) ->
  told t (with_phase Dropped k) (h ++ last).
Proof.
  unfold told, live. cbn [with_phase tk_action tk_phase]. intros Hh Hl Hlast.
  destruct (tk_action k) as [act|] eqn:Ea; destruct (tk_phase k) as [d a| | | |] eqn:Ep; try done.
  - destruct Hlast as [->|(d' & a' & n & [= <- <-] & ->)].
    + rewrite app_nil_r. destruct a; [left; by apply Hh| | |done].
      * destruct Hh as (_ & ps & p & Hh & _). right; left. by exists ps.
      * destruct Hh as (_ & _ & ps & m & Hh & _). right; left. by exists ps.
    + destruct a as [| |o|]; [| | |done].
      * destruct Hh as (Hh & -> & Hb). rewrite decide_True, map_app, Hh by done. right; left. exists []. cbn. by rewrite Hb.
      * destruct Hh as (-> & ps & p & Hh & Hb). rewrite decide_True, map_app, Hh by done. right; left. exists (ps ++ [p]). unfold life. cbn. by rewrite Hb, map_app.
      * destruct Hh as (-> & _ & ps & m & Hh & _ & Hb). rewrite decide_True, map_app, Hh by done. right; right. exists ps, m, o. cbn. by rewrite Hb.
  - destruct Hlast as [->|(d' & a' & n & [=] & _)]. rewrite app_nil_r. right; left. exact Hh.
  - destruct Hh as (-> & Hd & ->). destruct Hlast as [->|(d' & a' & n & [= <- <-] & ->)]; [done|]. rewrite Hd. by rewrite decide_False.
  - by destruct Hh.
Qed.

Lemma step_inv s l s' : Inv s -> step s l = Some s' -> Inv s'.
Proof.
  intros HI. destruct l as [t pv sj ac at_|t sj|t p at_|t o at_|t pv sj b at_|t|t|t recorded|e|d]; cbn [step].
  - destruct (tasks s !! t) eqn:Et; [done|]. intros [= <-]. apply inv_set_task; [done|by apply fresh_unlocked| |done].
    apply told_new; [done..|]. by split_and!.
  - destruct (operating s t) as [[k a]|] eqn:Eo; [|done]. intros [= <-]. destruct (operating_spec _ _ _ _ Eo) as (_ & Hp & _).
    destruct (operating_inv _ _ _ _ HI Eo) as ([ps Hps] & Hc & Ha & Hl). apply inv_set_task; [done..| |done].
    unfold told. cbn. rewrite Ha, Hp. by exists ps.
  - destruct (operating s t) as [[k a]|] eqn:Eo; [|done]. intros [= <-].
    destruct (operating_inv _ _ _ _ HI Eo) as ([ps Hps] & Hc & Ha & Hl). apply inv_set_task; [done..| |done].
    unfold told. cbn. rewrite Ha. split; [done|]. by exists ps, p.
  - destruct (operating s t) as [[k a]|] eqn:Eo; [|done]. intros [= <-].
    destruct (operating_inv _ _ _ _ HI Eo) as ([ps Hps] & Hc & Ha & Hl). apply inv_set_task; [done..| |done].
    unfold told. cbn. rewrite Ha. split_and!; [done..|]. exists ps, (clock s - tk_started k). split_and!; [done|lia|done].
  - destruct (tasks s !! t) eqn:Et; [done|]. destruct (tell _ _ _ _ _) as [k|] eqn:Ek; [|done]. intros [= <-].
    assert (k = mkTask pv None sj (clock s) (Emitting (mkDraft at_ pv sj None b) ToReturn)) as -> by (destruct b; by simplify_eq/=).
    apply inv_set_task; [done|by apply fresh_unlocked| |done]. by apply told_new.
  - destruct (lock s) as [|] eqn:El; [done|]. destruct (tasks s !! t) as [k|] eqn:Et; [|done]. destruct (tk_phase k) as [d a| | | |] eqn:Ep; try done.
    cbv zeta. destruct (_ <? _); [|done]. intros [= <-]. destruct HI as [H1 H2 H3 H4 H5 H6]. unfold held in *. rewrite El, app_nil_r in *.
    split; cbn -[history own]; try done; [lia| | |].
    + apply Forall_app. split; [|constructor; [cbn; lia|constructor]]. eapply Forall_impl; [exact H2|]. cbn. lia.
    + rewrite map_app. cbn. apply StronglySorted_app_2; [|done|by repeat constructor].
      intros x y (e & -> & He)%list_elem_of_fmap ->%list_elem_of_singleton. rewrite Forall_forall in H2. specialize (H2 e He). lia.
    + intros t' e' [= <- <-]. by exists k, d, a.
  - destruct (lock s) as [[holder e]|] eqn:El; [|done]. destruct (tasks s !! t) as [k|] eqn:Et; [|done].
    destruct (tk_phase k) as [d a| | | |] eqn:Ep; try done. case_bool_decide as Hh; [|done]. subst holder. intros [= <-].
    destruct (inv_lock _ HI _ _ El) as (k' & d' & a' & Hk' & Hp' & ->). simplify_eq. destruct (inv_tasks _ HI _ _ Et) as [Ht Hc].
    apply (inv_handed s t _ _ _ HI El (or_introl eq_refl)); [|by destruct a].
    rewrite Ep in Hp'. injection Hp' as <- <-. rewrite history_app, history_stamp. by apply told_next.
  - destruct (tasks s !! t) as [k|] eqn:Et; [|done]. destruct (live k) eqn:Ev; [|done]. destruct (inv_tasks _ HI _ _ Et) as [Ht Hc].
    destruct (release t recorded s) as [held0 last] eqn:Er. intros [= <-]. unfold release in Er.
    destruct (lock s) as [[holder e]|] eqn:El; [case_bool_decide as Hh|]; injection Er as <- <-.
    + subst holder. destruct (inv_lock _ HI _ _ El) as (k' & d' & a' & Hk' & Hp' & ->). simplify_eq.
      apply (inv_handed s t _ _ _ HI El); [destruct recorded; auto| |done].
      destruct recorded; rewrite history_app; [rewrite history_stamp|]; (apply told_dropped; [done..|]); [right; eauto|by left].
    + rewrite app_nil_r, <- El. apply (inv_set_task s t); [done|rewrite El; by intros e' [= ->]| |done].
      rewrite <- (app_nil_r (history _ _)). apply told_dropped; [done..|by left].
    + rewrite app_nil_r, <- El. apply (inv_set_task s t); [done|by rewrite El| |done].
      rewrite <- (app_nil_r (history _ _)). apply told_dropped; [done..|by left].
  - case_bool_decide as He; [done|]. intros [= <-].
    assert (Ho : own (observed s ++ [e]) = own (observed s)) by (by rewrite own_app, own_foreign, app_nil_r).
    assert (Hh : forall t, history t (observed s ++ [e]) = history t (observed s)) by (intros t; unfold history; by rewrite Ho).
    destruct HI as [H1 H2 H3 H4 H5 H6]. split; cbn -[history own]; rewrite ?Ho; try done.
    + intros t k. rewrite Hh. apply H5.
    + intros t. rewrite Hh. apply H6.
  - intros [= <-]. destruct HI as [H1 H2 H3 H4 H5 H6]. split; cbn -[history own]; try done.
    intros t k Hk. destruct (H5 t k Hk) as [Ht Hc]. split; [done|lia].
Qed.

Lemma steps_inv s ls s' : Inv s -> steps s ls = Some s' -> Inv s'.
Proof.
  revert s. induction ls as [|l ls IH]; intros s HI; cbn; [by intros [= <-]|].
  destruct (step s l) as [s1|] eqn:E; [|done]. apply IH. by eapply step_inv.
Qed.

(** ** Without a gap *)

(** A step that may lose the event an observer has. *)
Definition losing (l : Label) : bool := match l with Drop _ false => true | _ => false end.

Definition numbered (s : Source) : Prop := map ev_sequence (own (observed s) ++ held s) = seqZ 1 (next_sequence s).

Lemma step_numbered s l s' : Inv s -> losing l = false -> step s l = Some s' -> numbered s -> numbered s'.
Proof.
  intros HI Hl Hs. unfold numbered, held. destruct l as [t pv sj ac at_|t sj|t p at_|t o at_|t pv sj b at_|t|t|t [|]|e|d]; cbn [step] in Hs; try done.
  - destruct (tasks s !! t); [done|]. by injection Hs as <-.
  - destruct (operating s t) as [[]|]; [|done]. by injection Hs as <-.
  - destruct (operating s t) as [[]|]; [|done]. by injection Hs as <-.
  - destruct (operating s t) as [[]|]; [|done]. by injection Hs as <-.
  - destruct (tasks s !! t); [done|]. destruct (tell _ _ _ _ _); [|done]. by injection Hs as <-.
  - destruct (lock s) as [|]; [done|]. destruct (tasks s !! t) as [k|]; [|done]. destruct (tk_phase k); try done.
    cbv zeta in Hs. destruct (_ <? _); [|done]. injection Hs as <-. cbn -[own]. rewrite app_nil_r, map_app. intros ->. cbn.
    pose proof (inv_next _ HI). by rewrite seqZ_app, (Z.add_comm 1 (next_sequence s)) by lia.
  - destruct (lock s) as [[holder e]|] eqn:El; [|done]. destruct (tasks s !! t) as [k|]; [|done]. destruct (tk_phase k); try done.
    destruct (bool_decide _); [|done]. injection Hs as <-. destruct (inv_lock _ HI _ _ El) as (_ & d' & _ & _ & _ & ->).
    cbn -[own]. by rewrite own_app, own_stamp, app_nil_r.
  - destruct (tasks s !! t) as [k|]; [|done]. destruct (live k); [|done]. unfold release in Hs.
    destruct (lock s) as [[holder e]|] eqn:El; [|injection Hs as <-; cbn -[own]; by rewrite !app_nil_r].
    destruct (inv_lock _ HI _ _ El) as (_ & d' & _ & _ & _ & ->).
    case_bool_decide; injection Hs as <-; cbn -[own]; by rewrite own_app, ?own_stamp, ?app_nil_r.
  - case_bool_decide as He; [done|]. injection Hs as <-. cbn -[own]. by rewrite own_app, own_foreign, app_nil_r.
  - by injection Hs as <-.
Qed.

Lemma steps_numbered s ls s' : Inv s -> forallb (fun l => negb (losing l)) ls = true -> steps s ls = Some s' -> numbered s -> numbered s'.
Proof.
  revert s. induction ls as [|l ls IH]; intros s HI; cbn; [by intros _ [= <-]|]. intros [Hl Hls]%andb_true_iff.
  destruct (step s l) as [s1|] eqn:E; [|done]. intros Hs Hn. apply negb_true_iff in Hl.
  apply (IH s1); [by eapply step_inv|done..|]. by eapply step_numbered.
Qed.

(** C17. However operations interleave, and whichever of them are dropped, the events of
    a source are observed in the order of their sequence, from one on, and without a gap
    unless a task was dropped while the observer had its event. Of every operation the
    observer was told its start, its progress and its end in that order, each once; an
    operation that has returned was told to have ended, with its outcome and the subject
    it had last. *)
Theorem events_told ls s : steps start ls = Some s ->
  StronglySorted Z.lt (map ev_sequence (own (observed s))) /\
  Forall (fun e => 1 <= ev_sequence e <= next_sequence s) (own (observed s)) /\
  (forallb (fun l => negb (losing l)) ls = true -> map ev_sequence (own (observed s) ++ held s) = seqZ 1 (next_sequence s)) /\
  forall t k, tasks s !! t = Some k -> told t k (history t (observed s)).
Proof.
  intros Hs. pose proof (steps_inv _ _ _ start_inv Hs) as HI. split_and!.
  - pose proof (inv_sorted _ HI) as Hx. rewrite map_app in Hx. by apply StronglySorted_app_1_l in Hx.
  - by pose proof (inv_bound _ HI) as [Hx _]%Forall_app.
  - intros Hl. apply (steps_numbered start ls); [apply start_inv|done|done|reflexivity].
  - intros t k Hk. by apply (inv_tasks _ HI).
Qed.
End Emitter.

(** ** Examples *)

Definition demo_show (e : Error) : string := report_kind e.
Definition demo_steps := steps "source" (Some "run") demo_show start.

(** One creation: it reports progress and learns the id of its sandbox. *)
Definition demo_create : list Label :=
  [Begin 1 "test" (sandbox None) ActCreate 100; Acquire 1; Observe 1; Tick 5;
   Report 1 (progress_new "sandbox.provision") 101; Acquire 1; Observe 1;
   SetSubject 1 (sandbox (Some "sb-created")); Finish 1 None 102; Acquire 1; Observe 1].

Example create_told : (fun s => (map (fun e => (ev_sequence e, ev_subject e, operation_id e, ev_body e)) (observed s), tk_phase <$> tasks s !! 1%nat)) <$> demo_steps demo_create =
  Some ([(1, sandbox None, Some 1%nat, OperationStarted ActCreate);
         (2, sandbox None, Some 1%nat, OperationProgress ActCreate (progress_new "sandbox.provision"));
         (3, sandbox (Some "sb-created"), Some 1%nat, OperationCompleted ActCreate 5)], Some (Ended None)).
Proof. reflexivity. Qed.

(** An event's time is taken before its turn: a later event may have the earlier time. *)
Lemma times_cross : (fun s => map (fun e => (ev_sequence e, occurred_at e)) (observed s)) <$>
    demo_steps [Begin 1 "test" (sandbox None) ActStop 100; Begin 2 "test" (sandbox None) ActStart 200; Acquire 2; Observe 2; Acquire 1; Observe 1] =
  Some [(1, 200); (2, 100)].
Proof. reflexivity. Qed.

(** A task dropped while the observer had its event leaves a gap, and an operation
    without an end. *)
Lemma dropped_gap : (fun s => map (fun e => (ev_sequence e, ev_body e)) (observed s)) <$>
    demo_steps [Begin 1 "test" (sandbox None) ActStop 100; Acquire 1; Observe 1; Finish 1 None 101; Acquire 1; Drop 1 false;
                Begin 2 "test" (sandbox None) ActStart 102; Acquire 2; Observe 2] =
  Some [(1, OperationStarted ActStop); (3, OperationStarted ActStart)].
Proof. reflexivity. Qed.

Lemma events_told_witness :
  match demo_steps demo_create with
  | Some s =>
      StronglySorted Z.lt (map ev_sequence (own "source" (observed s))) /\
      Forall (fun e => 1 <= ev_sequence e <= next_sequence s) (own "source" (observed s)) /\
      (forallb (fun l => negb (losing l)) demo_create = true -> map ev_sequence (own "source" (observed s) ++ held s) = seqZ 1 (next_sequence s)) /\
      forall t k, tasks s !! t = Some k -> told demo_show t k (history "source" t (observed s))
  | None => False
  end.
Proof.
  destruct (demo_steps demo_create) as [s|] eqn:E; [|vm_compute in E; discriminate E].
  exact (events_told "source" (Some "run") demo_show demo_create s E).
Defined.
