(* ===== verification/HostExec.v ===== *)
(** * Commands on the host: their environment, their race and their output

    Models [crates/sandbox-driver-host/src/exec.rs]: the environment a command starts from,
    the pumps of its output, the race of a running command against its stops, its timeout,
    its pumps and its exit, the result put together of them, and the supervisor of a process
    with open pipes. The stop grace around the race is [Grace]'s, the child and its
    group are [Fence]'s and [Sentinel]'s.

    A future is the instant at which it resolves, or none. The race's [select!] is biased:
    it wakes some time after a branch is ready and takes the first ready one in the
    order of the source; how late it wakes is an oracle's. When a command exits and its
    pipes end may depend on whether, and when, it was sent TERM. *)

From S2P Require Import Prelude Text Sanitize Capture Exec Errors Sentinel.

#[local] Open Scope string_scope.
#[local] Open Scope list_scope.
#[local] Open Scope Z_scope.

(** ** The environment *)

Definition BASH_ENV_VAR : string := "BASH_ENV".

Definition ENV_SAFELIST : list string :=
  ["PATH"; "HOME"; "USER"; "SHELL"; "LANG"; "TERM"; "TMPDIR"; "GOPATH"; "CARGO_HOME"; "NVM_DIR"].

Definition secret_suffixes : list string := ["_api_key"; "_secret"; "_token"; "_password"; "_credential"].

Definition ends_with (suffix s : string) : bool := match strip_suffix suffix s with Some _ => true | None => false end.

Section Environment.
(** [str::to_lowercase], and whether an inherited string is UTF-8. *)
Context (to_lowercase : string -> string) (is_utf8 : string -> bool).

Definition inherited_var_is_sensitive (key : string) : bool :=
  if bool_decide (key ∈ ENV_SAFELIST) then false
  else existsb (fun suffix => ends_with suffix (to_lowercase key)) secret_suffixes.

Definition inherit (env : gmap string string) (var : string * string) : gmap string string :=
  let '(key, value) := var in
  if is_utf8 key && is_utf8 value && negb (String.eqb key BASH_ENV_VAR) && negb (inherited_var_is_sensitive key)
  then <[key := value]> env else env.

Definition overlay (env : gmap string string) (var : string * string) : gmap string string :=
  let '(key, value) := var in if String.eqb key BASH_ENV_VAR then env else <[key := value]> env.

(** [effective_env], of what the process inherited. *)
Definition effective_env (vars : list (string * string)) (base_env : gmap string string) : gmap string string :=
  foldl overlay (foldl inherit ∅ vars) (map_to_list base_env).

(** What a command is given: [spawn_command]'s environment. *)
Definition command_env (vars : list (string * string)) (base_env env : gmap string string) : gmap string string :=
  env ∪ effective_env vars base_env.
End Environment.

(** ** The pumps *)

Inductive PumpError := SinkFailed | ReadFailed (error : string).

Record OutputPump := mkPump {
  sanitizer : OutputSanitizer;
  capture : OutputCaptureBuffer;
  delivered : list bytes;
  progress : nat;
}.

Definition pump_new (p : OutputSanitization) (limit : option nat) : OutputPump := mkPump (Sanitize.new p) (Capture.new limit) [] 0.

Section Pump.
(** The sink, if there is one, refuses some of its calls. *)
Context (sink : option (nat -> bool)).

Definition deliver (p : OutputPump) (chunk : bytes) : OutputPump * result unit PumpError :=
  let captured := mkPump (sanitizer p) (Capture.push (capture p) chunk) (delivered p) (progress p) in
  match sink, chunk with
  | Some accepts, _ :: _ =>
      (mkPump (sanitizer captured) (capture captured) (delivered captured ++ [chunk]) (progress captured),
       if accepts (length (delivered captured)) then Ok tt else Err SinkFailed)
  | _, _ => (captured, Ok tt)
  end.

(** [OutputPump::run] over what the pipe's reads return: bytes, none at the end, or an
    error. [None] is a pump whose pipe is still open. *)
Fixpoint pump_run (p : OutputPump) (reads : list (result bytes string)) : OutputPump * option (result unit PumpError) :=
  match reads with
  | [] => (p, None)
  | Err error :: _ => (p, Some (Err (ReadFailed error)))
  | Ok [] :: _ =>
      let '(s, chunk) := Sanitize.finish (sanitizer p) in
      let '(p, r) := deliver (mkPump s (capture p) (delivered p) (progress p)) chunk in (p, Some r)
  | Ok read :: reads =>
      let '(s, chunk) := Sanitize.push (sanitizer p) read in
      let '(p, r) := deliver (mkPump s (capture p) (delivered p) (S (progress p))) chunk in
      match r with Ok _ => pump_run p reads | Err e => (p, Some (Err e)) end
  end.
End Pump.

(** ** The race *)

Inductive Phase := Running | Draining (status : ExitStatus) (seen : nat) (deadline : Z).

Record Race := mkRace {
  now : Z;
  term_sent : option Z;
  pump_outcome : option (result unit PumpError);
  phase : Phase;
}.

(** [decided] is the instant the race was decided at; a kill takes time after it. *)
Record Raced := mkRaced {
  rc_termination : Termination;
  rc_status : ExitStatus;
  rc_outcome : option (result unit PumpError);
  decided : Z;
  group_killed : bool;
}.

Inductive branch := KillFired | TimedOutFired | Termed | Pumped | Exited_ | DrainDeadline.

Inductive race_end := Settled (r : Raced) | WaitFailed (error : string) | Pending (r : Race) | OutOfFuel.

Definition natural_termination (term_fired : bool) : Termination := if term_fired then Cancelled else Exited.

Definition fired {A} (o : option A) : bool := match o with Some _ => true | None => false end.

Section RaceDef.
Context (killed termed timeout : option Z) (drain_grace : Z).
(** When the process ends, and how; when both pumps have; the chunks read by an instant:
    each given the instant TERM was sent, if it was. *)
Context (exits : option Z -> option (Z * result ExitStatus string)) (pumps : option Z -> option (Z * result unit PumpError)).
Context (read_by : option Z -> Z -> nat).
(** What is awaited of a process after its group was killed. *)
Context (reaped : Race -> result ExitStatus string).
(** How late a turn wakes. *)
Context (late : Race -> N).

Definition branches : list branch := [KillFired; TimedOutFired; Termed; Pumped; Exited_; DrainDeadline].

(** When a branch resolves, if it is enabled. *)
Definition instant (r : Race) (b : branch) : option Z :=
  match b with
  | KillFired => killed
  | TimedOutFired => timeout
  | Termed => match term_sent r with None => termed | Some _ => None end
  | Pumped => match pump_outcome r with None => fst <$> pumps (term_sent r) | Some _ => None end
  | Exited_ => match phase r with Running => fst <$> exits (term_sent r) | Draining _ _ _ => None end
  | DrainDeadline => match phase r with Running => None | Draining _ _ deadline => Some deadline end
  end.

Definition earliest (a b : option Z) : option Z :=
  match a, b with Some x, Some y => Some (Z.min x y) | Some x, None => Some x | None, b => b end.

(** The instant a turn takes place: some time after the first branch is ready. *)
Definition wakes (r : Race) : option Z :=
  (fun t => Z.max (now r) t + Z.of_N (late r)) <$> foldr (fun b acc => earliest (instant r b) acc) None branches.

Definition due (r : Race) (t : Z) (b : branch) : bool :=
  match instant r b with Some i => i <=? t | None => false end.

(** [Phase::stop]. *)
Definition phase_stop (r : Race) (t : Z) (why : Termination) : race_end :=
  match phase r with
  | Running => match reaped r with Ok status => Settled (mkRaced why status (pump_outcome r) t true) | Err e => WaitFailed e end
  | Draining status _ _ => Settled (mkRaced why status (pump_outcome r) t true)
  end.

(** The break of a process that ended on its own. *)
Definition natural (r : Race) (t : Z) (status : ExitStatus) : race_end :=
  Settled (mkRaced (natural_termination (fired (term_sent r))) status (pump_outcome r) t false).

(** One arm of the [select!]: [inl] goes on. *)
Definition turn (r : Race) (t : Z) (b : branch) : Race + race_end :=
  match b with
  | KillFired => inr (phase_stop r t Killed)
  | TimedOutFired => inr (phase_stop r t TimedOut)
  | Termed => inl (mkRace t (Some t) (pump_outcome r) (phase r))
  | Pumped =>
      match pumps (term_sent r) with
      | Some (_, outcome) =>
          let r := mkRace t (term_sent r) (Some outcome) (phase r) in
          match outcome with
          | Err _ => inr (phase_stop r t Cancelled)
          | Ok _ => match phase r with Draining status _ _ => inr (natural r t status) | Running => inl r end
          end
      | None => inl r
      end
  | Exited_ =>
      match exits (term_sent r) with
      | Some (_, Err e) => inr (WaitFailed e)
      | Some (_, Ok status) =>
          if fired (pump_outcome r) then inr (natural r t status)
          else inl (mkRace t (term_sent r) (pump_outcome r) (Draining status (read_by (term_sent r) t) (t + drain_grace)))
      | None => inl r
      end
  | DrainDeadline =>
      match phase r with
      | Draining status seen _ =>
          let read := read_by (term_sent r) t in
          if (read =? seen)%nat then inr (natural r t status)
          else inl (mkRace t (term_sent r) (pump_outcome r) (Draining status read (t + drain_grace)))
      | Running => inl r
      end
  end.

Definition select (r : Race) : option (Z * branch) :=
  match wakes r with
  | None => None
  | Some t => match List.find (due r t) branches with Some b => Some (t, b) | None => None end
  end.

Fixpoint race (fuel : nat) (r : Race) : race_end :=
  match fuel with
  | O => OutOfFuel
  | S fuel =>
      match select r with
      | None => Pending r
      | Some (t, b) => match turn r t b with inl r => race fuel r | inr e => e end
      end
  end.
End RaceDef.

Definition race_start (at_ : Z) : Race := mkRace at_ None None Running.

(** ** The result *)

Definition cut (drain_truncated : bool) (s : CaptureStats) : CaptureStats :=
  if drain_truncated then mkStats (observed_bytes s) (retained_bytes s) (omitted_bytes s) true else s.

Definition assemble_result (t : Termination) (status : ExitStatus) (d : Z) (drain_truncated : bool)
    (stdout_capture stderr_capture : OutputCaptureBuffer) : ExecStreamingResult :=
  let '(stdout_bytes, stdout_stats) := into_parts stdout_capture in
  let '(stderr_bytes, stderr_stats) := into_parts stderr_capture in
  let r := exec_result t status d in
  mkStreaming (mkResult stdout_bytes stderr_bytes (exit_code r) (res_signal r) (res_termination r) (duration r))
    true true (cut drain_truncated stdout_stats) (cut drain_truncated stderr_stats) no_loss.

Inductive exec_error := Waiting (e : string) | Stdin (e : stdin_error) | Reading (e : string).

(** [run_signals] after the race: what became of the task that writes standard input, if there
    is one, and the captures of both pumps as the race left them. *)
Definition conclude (raced : Raced) (stdin_task : option joined) (d : Z) (stdout_capture stderr_capture : OutputCaptureBuffer)
    : result ExecStreamingResult exec_error :=
  let? _ := match stdin_task with
            | Some task => match finish_stdin_writer task with Ok _ => Ok tt | Err e => Err (Stdin e) end
            | None => Ok tt
            end in
  let drain_truncated := match rc_outcome raced with Some (Ok _) => false | _ => true end in
  match rc_outcome raced with
  | Some (Err (ReadFailed error)) => Err (Reading error)
  | _ => Ok (assemble_result (rc_termination raced) (rc_status raced) d drain_truncated stdout_capture stderr_capture)
  end.

(** ** A process with open pipes *)

(** [HostStdioHandle::supervise]: the process's end, the request to terminate it, if any
    comes before the handle is dropped, and its end after that; of two ready at once the
    scheduler chooses. *)
Definition supervise (ends : option (Z * result ExitStatus string)) (requested : option Z)
    (after : Z -> option (Z * result ExitStatus string)) (tie : bool) : option (Z * (Termination * option Z)) :=
  let natural := match ends with
    | Some (t, Ok status) => Some (t, (Exited, status_code status))
    | Some (t, Err _) => Some (t, (Unknown, None))
    | None => None
    end in
  let terminated t := match after t with
    | Some (t', Ok status) => Some (t', (Cancelled, status_code status))
    | Some (t', Err _) => Some (t', (Cancelled, None))
    | None => None
    end in
  match ends, requested with
  | Some (t, _), Some q => if (t <? q) || ((t =? q) && tie) then natural else terminated q
  | Some _, None => natural
  | None, Some q => terminated q
  | None, None => None
  end.

(** ** The environment holds no inherited secret *)

Section EnvironmentSpec.
Context (to_lowercase : string -> string) (is_utf8 : string -> bool).

Lemma inherit_lookup vars env k v : foldl (inherit to_lowercase is_utf8) env vars !! k = Some v ->
  env !! k = Some v \/ (k, v) ∈ vars /\ k <> BASH_ENV_VAR /\ inherited_var_is_sensitive to_lowercase k = false.
Proof.
  revert env. induction vars as [|[k' v'] vars IH]; intros env; cbn [foldl]; [by left|]. intros [Hk|(Hk & H1 & H2)]%IH.
  - unfold inherit in Hk. destruct (_ && _) eqn:E; [|by left]. repeat (apply andb_true_iff in E as [E ?]).
    destruct (decide (k = k')) as [->|Hn]; [rewrite lookup_insert_eq in Hk|rewrite lookup_insert_ne in Hk by done; by left].
    injection Hk as ->. right. split; [apply list_elem_of_here|]. apply negb_true_iff in H, H0. by apply String.eqb_neq in H0.
  - right. split; [by apply list_elem_of_further|done].
Qed.

Lemma overlay_lookup vars env k : NoDup vars.*1 ->
  foldl overlay env vars !! k = if String.eqb k BASH_ENV_VAR then env !! k else match (list_to_map vars : gmap string string) !! k with Some v => Some v | None => env !! k end.
Proof.
  revert env. induction vars as [|[k' v'] vars IH]; intros env; cbn [foldl fmap list_fmap fst]; [by destruct (String.eqb k BASH_ENV_VAR)|].
  intros [Hn Hd]%NoDup_cons. rewrite IH by done. cbn [list_to_map foldr]. unfold overlay.
  destruct (String.eqb_spec k BASH_ENV_VAR) as [E|Hk].
  - destruct (String.eqb_spec k' BASH_ENV_VAR) as [|Hk']; [done|]. rewrite lookup_insert_ne; [done|congruence].
  - destruct (decide (k = k')) as [->|Hne].
    + rewrite (proj2 (String.eqb_neq _ _) Hk), !lookup_insert_eq. by rewrite not_elem_of_list_to_map_1.
    + cbn. rewrite lookup_insert_ne by done. destruct (list_to_map vars !! k) ; [done|].
      destruct (String.eqb_spec k' BASH_ENV_VAR); [done|]. by rewrite lookup_insert_ne.
Qed.

(** C20. A command on the host inherits no variable whose name is a secret's and no
    startup file of Bash; whatever the sandbox's own environment sets it has, but for
    that file, and a command's own variables come first. *)
Theorem host_environment vars base_env env :
  (forall k v, effective_env to_lowercase is_utf8 vars base_env !! k = Some v ->
    k <> BASH_ENV_VAR /\
    (base_env !! k = Some v \/ base_env !! k = None /\ (k, v) ∈ vars /\ inherited_var_is_sensitive to_lowercase k = false)) /\
  (forall k v, base_env !! k = Some v -> k <> BASH_ENV_VAR -> effective_env to_lowercase is_utf8 vars base_env !! k = Some v) /\
  forall k v, env !! k = Some v -> command_env to_lowercase is_utf8 vars base_env env !! k = Some v.
Proof.
  assert (He : forall k, effective_env to_lowercase is_utf8 vars base_env !! k =
    if String.eqb k BASH_ENV_VAR then foldl (inherit to_lowercase is_utf8) ∅ vars !! k
    else match base_env !! k with Some v => Some v | None => foldl (inherit to_lowercase is_utf8) ∅ vars !! k end).
  { intros k. unfold effective_env. rewrite overlay_lookup by apply NoDup_fst_map_to_list. by rewrite list_to_map_to_list. }
  split_and!.
  - intros k v. rewrite He. destruct (String.eqb_spec k BASH_ENV_VAR) as [E|Hk].
    + intros [Hx|(_ & Hx & _)]%inherit_lookup; [by rewrite lookup_empty in Hx|done].
    + destruct (base_env !! k) eqn:Eb; [intros [= ->]; split; [done|by left]|].
      intros [Hx|(Hx & _ & Hs)]%inherit_lookup; [by rewrite lookup_empty in Hx|]. split; [done|]. by right.
  - intros k v Hb Hk. rewrite He, Hb. by rewrite (proj2 (String.eqb_neq _ _) Hk).
  - intros k v Hk. unfold command_env. by apply lookup_union_Some_l.
Qed.
End EnvironmentSpec.

(** ** How the race ends *)

Lemma first_instant {B} (f : B -> option Z) l :
  match foldr (fun b acc => earliest (f b) acc) None l with
  | Some m => forall b i, b ∈ l -> f b = Some i -> m <= i
  | None => forall b, b ∈ l -> f b = None
  end.
Proof.
  induction l as [|b l IH]; cbn [foldr]; [by intros b ?%elem_of_nil|].
  destruct (foldr _ None l) as [n|], (f b) as [m|] eqn:Eb; cbn [earliest]; intros b'.
  - intros i [->|Hb]%elem_of_cons Hi; [|specialize (IH b' i Hb Hi)]; simplify_eq; lia.
  - intros i [->|Hb]%elem_of_cons Hi; [by simplify_eq|by apply (IH b')].
  - intros i [->|Hb]%elem_of_cons Hi; [simplify_eq; lia|]. by rewrite (IH b' Hb) in Hi.
  - intros [->|Hb]%elem_of_cons; [done|by apply IH].
Qed.

Section RaceSpec.
Context (killed termed timeout : option Z) (drain_grace : Z).
Context (exits : option Z -> option (Z * result ExitStatus string)) (pumps : option Z -> option (Z * result unit PumpError)).
Context (read_by : option Z -> Z -> nat) (reaped : Race -> result ExitStatus string) (late : Race -> N).

Notation instant := (instant killed termed timeout exits pumps).
Notation select := (select killed termed timeout exits pumps late).
Notation turn := (turn drain_grace exits pumps read_by reaped).
Notation race := (race killed termed timeout drain_grace exits pumps read_by reaped late).

(** A command that ended by itself, after TERM was sent or not: it exited with that
    status, and then its pumps were through, or nothing was read for a whole grace; and no
    stop was due. *)
Definition by_itself (x : option Z) (c : Raced) : Prop :=
  (exists x' te, (x' = None \/ x' = x) /\ exits x' = Some (te, Ok (rc_status c)) /\ te <= decided c /\
    (rc_outcome c = Some (Ok tt) \/
     rc_outcome c = None /\ exists x1 ta, (x1 = None \/ x1 = x) /\ te <= ta /\ ta + drain_grace <= decided c /\ read_by x1 ta = read_by x (decided c))) /\
  (forall t, killed = Some t -> decided c < t) /\ (forall t, timeout = Some t -> decided c < t).

Definition explained (c : Raced) : Prop :=
  match rc_termination c with
  | Killed => group_killed c = true /\ exists t, killed = Some t /\ t <= decided c
  | TimedOut => group_killed c = true /\ (exists t, timeout = Some t /\ t <= decided c) /\ forall t, killed = Some t -> decided c < t
  | Cancelled =>
      group_killed c = true /\ (exists e, rc_outcome c = Some (Err e)) \/
      group_killed c = false /\ exists x, (exists t, termed = Some t /\ t <= x) /\ x <= decided c /\ by_itself (Some x) c
  | Exited => group_killed c = false /\ by_itself None c
  | Unknown => False
  end.

(** What holds at the top of the loop. *)
Definition sound (r : Race) : Prop :=
  (forall x, term_sent r = Some x -> x <= now r /\ exists t, termed = Some t /\ t <= x) /\
  (pump_outcome r = None \/ pump_outcome r = Some (Ok tt)) /\
  match phase r with
  | Running => True
  | Draining status seen deadline =>
      pump_outcome r = None /\
      exists x' te x1 ta, (x' = None \/ x' = term_sent r) /\ exits x' = Some (te, Ok status) /\ te <= ta /\ ta <= now r /\
        (x1 = None \/ x1 = term_sent r) /\ seen = read_by x1 ta /\ deadline = ta + drain_grace
  end.

Lemma select_spec r t b : select r = Some (t, b) ->
  (exists i, instant r b = Some i /\ i <= t) /\ now r <= t /\
  (b <> KillFired -> forall i, killed = Some i -> t < i) /\
  (b <> KillFired -> b <> TimedOutFired -> forall i, timeout = Some i -> t < i) /\
  exists m, t = Z.max (now r) m + Z.of_N (late r) /\ forall b' i, instant r b' = Some i -> m <= i.
Proof.
  unfold HostExec.select. destruct (wakes _ _ _ _ _ _ r) as [t'|] eqn:Ew; [|done].
  destruct (List.find _ branches) as [b'|] eqn:Ef; [|done]. intros [= -> ->].
  assert (Hd : forall b, due killed termed timeout exits pumps r t b = true <-> exists i, instant r b = Some i /\ i <= t).
  { intros b0. unfold due. destruct (HostExec.instant _ _ _ _ _ r b0) as [i|]; [rewrite Z.leb_le; split; [by eauto|by intros (? & [= ->] & ?)]|].
    split; [done|by intros (? & ? & ?)]. }
  split; [apply Hd; by apply List.find_some in Ef as [_ Ef]|].
  unfold wakes in Ew. apply fmap_Some in Ew as (m & Hm & ->). split; [lia|].
  cbn [branches List.find] in Ef. split_and!.
  - intros Hb i Hi. destruct (due _ _ _ _ _ r _ KillFired) eqn:E; [by injection Ef as <-|].
    destruct (Z.lt_ge_cases (Z.max (now r) m + Z.of_N (late r)) i) as [|Hc]; [done|]. exfalso. rewrite (proj2 (Hd KillFired)) in E; [done|by exists i].
  - intros Hb1 Hb2 i Hi. destruct (due _ _ _ _ _ r _ KillFired) eqn:E; [by injection Ef as <-|].
    destruct (due _ _ _ _ _ r _ TimedOutFired) eqn:E2; [by injection Ef as <-|].
    destruct (Z.lt_ge_cases (Z.max (now r) m + Z.of_N (late r)) i) as [|Hc]; [done|]. exfalso. rewrite (proj2 (Hd TimedOutFired)) in E2; [done|by exists i].
  - exists m. split; [done|]. intros b' i. pose proof (first_instant (instant r) branches) as Hx.
    rewrite Hm in Hx. apply Hx. unfold branches. destruct b'; set_solver.
Qed.

(** A process that was stopped: killed, with the status it had or had then. *)
Lemma stop_explained r t why c : phase_stop reaped r t why = Settled c ->
  rc_termination c = why /\ group_killed c = true /\ decided c = t /\ rc_outcome c = pump_outcome r.
Proof. unfold phase_stop. destruct (phase r); [destruct (reaped r) as [s|e]; [|done]|]; by intros [= <-]. Qed.

(** One that ended by itself. *)
Lemma natural_explained x outcome t status : (forall y, x = Some y -> y <= t /\ exists i, termed = Some i /\ i <= y) ->
  (forall i, killed = Some i -> t < i) -> (forall i, timeout = Some i -> t < i) ->
  (exists x' te, (x' = None \/ x' = x) /\ exits x' = Some (te, Ok status) /\ te <= t /\
    (outcome = Some (Ok tt) \/
     outcome = None /\ exists x1 ta, (x1 = None \/ x1 = x) /\ te <= ta /\ ta + drain_grace <= t /\ read_by x1 ta = read_by x t)) ->
  explained (mkRaced (natural_termination (fired x)) status outcome t false).
Proof.
  intros Ht Hk Ho H. unfold explained. cbn. destruct x as [x|]; cbn.
  - right. split; [done|]. destruct (Ht x eq_refl) as [Hx Hex]. exists x. split_and!; [done..|]. by split.
  - split; [done|]. by split.
Qed.

Lemma term_by r t : sound r -> now r <= t -> forall x, term_sent r = Some x -> x <= t /\ exists i, termed = Some i /\ i <= x.
Proof. intros (Ht & _) Hn x Hx. destruct (Ht x Hx) as [? ?]. split; [lia|done]. Qed.

Lemma turn_sound r t b : sound r -> select r = Some (t, b) ->
  match turn r t b with inl r' => sound r' /\ now r' = t | inr e => forall c, e = Settled c -> explained c end.
Proof.
  intros Hs Hsel. destruct (select_spec _ _ _ Hsel) as ((i & Hi & Hit) & Hnow & Hk & Ho & _). pose proof Hs as (Ht & Hp & Hph).
  destruct b; cbn [HostExec.turn HostExec.instant] in *.
  - intros c (Hw & Hg & <- & _)%stop_explained. unfold explained. rewrite Hw. split; [done|by exists i].
  - intros c (Hw & Hg & <- & _)%stop_explained. unfold explained. rewrite Hw. split_and!; [done|by exists i|by apply Hk].
  - split; [|done]. destruct (term_sent r) eqn:Ex; [done|]. split_and!; cbn.
    + intros x [= <-]. split; [lia|by exists i].
    + done.
    + destruct (phase r) as [|status seen dl]; [done|]. destruct Hph as (H1 & x' & te & x1 & ta & Hx & He & Hl & Ha & Hx1 & Hs1 & Hd).
      split; [done|]. exists x', te, x1, ta. split_and!; try done; [destruct Hx as [->| ->]; by left|lia|destruct Hx1 as [->| ->]; by left].
  - destruct (pump_outcome r) eqn:Epo; [done|]. destruct (pumps (term_sent r)) as [[tp outcome]|] eqn:Epu; [|done]. injection Hi as ->.
    destruct outcome as [[]|e].
    + destruct (phase r) as [|status seen dl] eqn:Eph.
      * split; [|done]. split_and!; cbn; [|by right|done]. intros x Hx. destruct (Ht x Hx) as [? ?]. split; [lia|done].
      * intros c [= <-]. apply natural_explained; [by eauto using term_by|by apply Hk|by apply Ho|].
        destruct Hph as (_ & x' & te & x1 & ta & Hx & He & Hl & Ha & _). exists x', te. split_and!; [done..|lia|by left].
    + intros c (Hw & Hg & <- & Hoc)%stop_explained. unfold explained. rewrite Hw. left. split; [done|]. by exists e.
  - destruct (phase r) as [|status seen dl] eqn:Eph; [|done]. destruct (exits (term_sent r)) as [[te o]|] eqn:Eex; [|done]. injection Hi as ->.
    destruct o as [status|e]; [|by intros c [=]]. destruct (pump_outcome r) as [o|] eqn:Epo; cbn [fired].
    + intros c [= <-]. rewrite Epo. destruct Hp as [|Hp]; [done|]. injection Hp as ->. apply natural_explained; [by eauto using term_by|by apply Hk|by apply Ho|].
      exists (term_sent r), i. split_and!; [by right|done..|by left].
    + split; [|done]. split_and!; cbn; [by eauto using term_by|by left|]; split; [done|].
      exists (term_sent r), i, (term_sent r), t. split_and!; try done; by right.
  - destruct (phase r) as [|status seen dl] eqn:Eph; [done|]. injection Hi as ->.
    destruct Hph as (H1 & x' & te & x1 & ta & Hx & He & Hl & Ha & Hx1 & -> & ->). destruct (read_by (term_sent r) t =? read_by x1 ta)%nat eqn:Er.
    + intros c [= <-]. rewrite H1. apply Nat.eqb_eq in Er. apply natural_explained; [by eauto using term_by|by apply Hk|by apply Ho|].
      exists x', te. split_and!; [done..|lia|]. right. split; [done|]. by exists x1, ta.
    + split; [|done]. split_and!; cbn; [by eauto using term_by|by left|]; split; [done|].
      exists x', te, (term_sent r), t. split_and!; try done; [lia|by right].
Qed.

Lemma race_explained fuel r c : sound r -> race fuel r = Settled c -> explained c.
Proof.
  revert r. induction fuel as [|fuel IH]; intros r Hs; cbn [HostExec.race]; [done|].
  destruct (select r) as [[t b]|] eqn:Esel; [|done]. pose proof (turn_sound r t b Hs Esel) as Ht.
  destruct (turn r t b) as [r'|e]; [apply IH, Ht|by apply Ht].
Qed.

(** The graces that fit between an instant and the timeout. *)
Definition graces (t deadline : Z) : nat := Z.to_nat ((t - deadline + drain_grace - 1) / drain_grace).

(** What is left of a race with a timeout: what may still happen once, and the graces that
    the drain may be given again. *)
Definition remaining (t : Z) (r : Race) : nat :=
  (if term_sent r then 0 else 1) + (if pump_outcome r then 0 else 1) +
  match phase r with Running => S (graces t (now r)) | Draining _ _ deadline => graces t deadline end.

Lemma graces_le t d1 d2 : 0 < drain_grace -> d1 <= d2 -> (graces t d2 <= graces t d1)%nat.
Proof.
  intros Hg Hd. unfold graces. pose proof (Z.div_le_mono (t - d2 + drain_grace - 1) (t - d1 + drain_grace - 1) drain_grace Hg ltac:(lia)). lia.
Qed.

Lemma graces_next t d1 d2 : 0 < drain_grace -> d1 < t -> d1 + drain_grace <= d2 -> (graces t d2 < graces t d1)%nat.
Proof.
  intros Hg Ht Hd. unfold graces. pose proof (Z.div_le_lower_bound (t - d1 + drain_grace - 1) drain_grace 1 Hg ltac:(lia)).
  pose proof (Z.div_le_mono (t - d2 + drain_grace - 1) (t - d1 + drain_grace - 1 + -1 * drain_grace) drain_grace Hg ltac:(lia)) as Hm.
  rewrite Z.div_add in Hm by lia. lia.
Qed.

Lemma turn_shrinks t0 r t b r' : timeout = Some t0 -> 0 < drain_grace -> select r = Some (t, b) -> turn r t b = inl r' ->
  (remaining t0 r' < remaining t0 r)%nat /\ now r' = t /\ t < t0.
Proof.
  intros Hto Hg Hsel. destruct (select_spec _ _ _ Hsel) as ((i & Hi & Hit) & Hnow & _ & Ho & _).
  assert (Hstop : forall why e, phase_stop reaped r t why = e -> (inr e : Race + race_end) = inl r' -> False) by done.
  destruct b; cbn [HostExec.turn HostExec.instant] in *; try done; specialize (Ho ltac:(done) ltac:(done) t0 Hto).
  - intros [= <-]. destruct (term_sent r) eqn:Ex; [done|]. unfold remaining. cbn. rewrite Ex.
    split_and!; [|done..]. destruct (phase r); [|lia]. pose proof (graces_le t0 (now r) t Hg Hnow). lia.
  - destruct (pump_outcome r) eqn:Epo; [done|]. destruct (pumps (term_sent r)) as [[tp [[]|e]]|]; [|done..].
    destruct (phase r) eqn:Eph; [|done]. intros [= <-]. unfold remaining. cbn. rewrite Epo, Eph.
    split_and!; [|done..]. pose proof (graces_le t0 (now r) t Hg Hnow). destruct (term_sent r); lia.
  - destruct (phase r) eqn:Eph; [|done]. destruct (exits (term_sent r)) as [[te [status|e]]|]; [|done..].
    destruct (pump_outcome r) eqn:Epo; [done|]. intros [= <-]. unfold remaining. cbn. rewrite Epo, Eph.
    split_and!; [|done..]. pose proof (graces_le t0 (now r) (t + drain_grace) Hg ltac:(lia)). destruct (term_sent r); lia.
  - destruct (phase r) as [|status seen dl] eqn:Eph; [done|]. injection Hi as ->. destruct (_ =? seen)%nat; [done|].
    intros [= <-]. unfold remaining. cbn. rewrite Eph. split_and!; [|done..].
    pose proof (graces_next t0 i (t + drain_grace) Hg ltac:(lia) ltac:(lia)). destruct (term_sent r), (pump_outcome r); lia.
Qed.

Lemma race_select_some t0 r : timeout = Some t0 -> exists t b, select r = Some (t, b) /\ t <= Z.max (now r) t0 + Z.of_N (late r).
Proof.
  intros Hto. pose proof (first_instant (instant r) branches) as Hx.
  assert (Hin : forall b, b ∈ branches) by (intros b; unfold branches; destruct b; set_solver).
  destruct (foldr (fun b acc => earliest (instant r b) acc) None branches) as [m|] eqn:Em.
  2: { specialize (Hx TimedOutFired (Hin _)). cbn in Hx. congruence. }
  set (t := Z.max (now r) m + Z.of_N (late r)).
  assert (Hw : wakes killed termed timeout exits pumps late r = Some t) by (unfold wakes; by rewrite Em).
  unfold HostExec.select. rewrite Hw. assert (m <= t0) by (apply (Hx TimedOutFired); [apply Hin|done]).
  destruct (List.find (due killed termed timeout exits pumps r t) branches) as [b|] eqn:Ef; [exists t, b; split; [done|unfold t; lia]|]. exfalso.
  assert (Hex : exists b, instant r b = Some m).
  { clear -Em. revert Em. generalize branches as l. induction l as [|b l IH]; cbn [foldr]; [done|].
    destruct (instant r b) as [x|] eqn:Eb; cbn [earliest]; [|exact IH].
    destruct (foldr _ None l) as [y|]; [|intros [= ->]; by exists b].
    intros [= Hm]. destruct (Z.min_spec x y) as [[_ E]|[_ E]]; rewrite E in Hm; subst; [by exists b|by apply IH]. }
  destruct Hex as [b Hb]. pose proof (List.find_none _ _ Ef b ltac:(by apply list_elem_of_In)) as Hf. unfold due in Hf. rewrite Hb in Hf.
  apply Z.leb_gt in Hf. unfold t in Hf. lia.
Qed.

(** A race with a timeout ends, some time after it at the latest. *)
Lemma race_ends t0 l fuel r : timeout = Some t0 -> 0 < drain_grace -> (forall r, (late r <= l)%N) -> (remaining t0 r < fuel)%nat -> now r <= Z.max (now r) t0 ->
  match race fuel r with
  | Settled c => decided c <= Z.max (now r) t0 + Z.of_N l
  | WaitFailed _ => True
  | Pending _ | OutOfFuel => False
  end.
Proof.
  intros Hto Hg Hl. revert r. induction fuel as [|fuel IH]; intros r Hf _; [lia|]. cbn [HostExec.race].
  destruct (race_select_some t0 r Hto) as (t & b & Hsel & Ht). rewrite Hsel. specialize (Hl r) as Hlr.
  destruct (turn r t b) as [r'|e] eqn:Etu.
  - destruct (turn_shrinks t0 r t b r' Hto Hg Hsel Etu) as (Hm & Hn & Hlt). specialize (IH r' ltac:(lia) ltac:(lia)).
    destruct (race fuel r'); try done. rewrite Hn in IH. lia.
  - assert (He : match e with Settled c => decided c = t | WaitFailed _ => True | _ => False end).
    { destruct b; cbn [HostExec.turn] in Etu; unfold phase_stop, natural in Etu.
      - destruct (phase r); [destruct (reaped r)|]; by injection Etu as <-.
      - destruct (phase r); [destruct (reaped r)|]; by injection Etu as <-.
      - done.
      - destruct (pumps _) as [[tp [[]|e']]|]; [| |done].
        + destruct (phase r); [done|]; by injection Etu as <-.
        + cbn in Etu. destruct (phase r); [destruct (reaped _)|]; by injection Etu as <-.
      - destruct (exits _) as [[te [status|e']]|]; [|by injection Etu as <-|done]. destruct (fired _); [|done]. by injection Etu as <-.
      - destruct (phase r); [done|]. destruct (_ =? _)%nat; [|done]. by injection Etu as <-. }
    destruct e; try done. lia.
Qed.

(** C18. The race of a command against its stops says truly why it ended, whatever is ready
    at once and however late it is noticed: killed or timed out only when that was due, and
    then its group was killed; ended by itself only if it exited and its pumps were
    through or silent for a whole grace, while no stop was due; and cancelled if it was sent
    TERM before, or its output failed. With a timeout the race ends, as late after the
    timeout as it is noticed at the latest. *)
Theorem host_race fuel at_ :
  (forall c, race fuel (race_start at_) = Settled c -> explained c) /\
  forall t0 l, timeout = Some t0 -> 0 < drain_grace -> (forall r, (late r <= l)%N) -> (3 + graces t0 at_ < fuel)%nat ->
    match race fuel (race_start at_) with
    | Settled c => decided c <= Z.max at_ t0 + Z.of_N l
    | WaitFailed _ => True
    | Pending _ | OutOfFuel => False
    end.
Proof.
  split.
  - intros c. apply race_explained. unfold sound. cbn. split_and!; [done|by left|done].
  - intros t0 l Hto Hg Hl Hf. apply (race_ends t0 l fuel (race_start at_)); [done..|cbn; lia|lia].
Qed.
End RaceSpec.

(** ** What a complete result holds *)

Definition policy_of (p : OutputPump) : OutputSanitization := policy (sanitizer p).

Fixpoint read_bytes (reads : list (result bytes string)) : bytes :=
  match reads with Ok (b :: bs) :: reads => (b :: bs) ++ read_bytes reads | _ => [] end.

(** A pump that came to the end of its pipe: what it captured is what it sanitized of
    every byte it read, and so is what it gave to the sink. *)
Lemma pump_run_spec sink p limit done_ raw reads p' : sanitizer p = fst (Sanitize.push (Sanitize.new done_) raw) ->
  (exists chunks, capture p = push_all (Capture.new limit) chunks /\ concat chunks = snd (Sanitize.push (Sanitize.new done_) raw) /\
    (sink <> None -> concat (delivered p) = concat chunks)) ->
  pump_run sink p reads = (p', Some (Ok tt)) ->
  exists chunks, capture p' = push_all (Capture.new limit) chunks /\ concat chunks = sanitize done_ (raw ++ read_bytes reads) /\
    (sink <> None -> concat (delivered p') = concat chunks).
Proof.
  assert (Hdel : forall q chunk q' r chunks, deliver sink q chunk = (q', r) -> capture q = push_all (Capture.new limit) chunks ->
    (sink <> None -> concat (delivered q) = concat chunks) ->
    sanitizer q' = sanitizer q /\ capture q' = push_all (Capture.new limit) (chunks ++ [chunk]) /\
    (sink <> None -> concat (delivered q') = concat (chunks ++ [chunk]))).
  { intros q chunk q' r chunks Hq Hc Hd. unfold deliver in Hq.
    assert (Hp : Capture.push (capture q) chunk = push_all (Capture.new limit) (chunks ++ [chunk])) by (rewrite Hc; unfold push_all; by rewrite foldl_app).
    destruct sink as [accepts|]; [destruct chunk|]; injection Hq as <- _; cbn; (split_and!; [done..|]); try done; intros Hs;
      rewrite ?concat_app, Hd by done; cbn; by rewrite ?app_nil_r. }
  revert p raw. induction reads as [|[[|b bs]|e] reads IH]; intros p raw Hs (chunks & Hc & Hk & Hd); cbn [pump_run read_bytes]; [done| | |done].
  - rewrite app_nil_r. destruct (Sanitize.finish (sanitizer p)) as [s chunk] eqn:Ef. destruct (deliver _ _ _) as [q r] eqn:Eq. intros [= -> ->].
    destruct (Hdel _ _ _ _ chunks Eq Hc Hd) as (_ & H2 & H3). exists (chunks ++ [chunk]). split_and!; [done| |done].
    rewrite concat_app, Hk. unfold sanitize. rewrite Hs in Ef. destruct (Sanitize.push (Sanitize.new done_) raw) as [s' o]. cbn in *. rewrite Ef. by rewrite app_nil_r.
  - destruct (Sanitize.push (sanitizer p) (b :: bs)) as [s chunk] eqn:Ef. destruct (deliver _ _ _) as [q [u|e]] eqn:Eq; [|done].
    destruct (Hdel _ _ _ _ chunks Eq Hc Hd) as (H1 & H2 & H3). intros Hr.
    assert (Hpa := Sanitize.push_app (Sanitize.new done_) raw (b :: bs)). rewrite <- Hs, Ef in Hpa. cbn [fst snd] in Hpa.
    rewrite app_assoc. apply (IH q (raw ++ b :: bs)); [by rewrite H1, Hpa| |done].
    exists (chunks ++ [chunk]). split_and!; [done| |done]. rewrite concat_app, Hk, Hpa. cbn. by rewrite app_nil_r.
Qed.

(** [tokio::try_join!] of both pumps. *)
Definition try_join (a b : option (result unit PumpError)) : option (result unit PumpError) :=
  match a, b with
  | Some (Err e), _ | _, Some (Err e) => Some (Err e)
  | Some (Ok _), Some (Ok _) => Some (Ok tt)
  | _, _ => None
  end.

Definition pumped (sink : option (nat -> bool)) (p : OutputSanitization) (limit : option nat) (reads : list (result bytes string)) :
    OutputPump * option (result unit PumpError) := pump_run sink (pump_new p limit) reads.

Lemma pumped_spec sink p limit reads : snd (pumped sink p limit reads) = Some (Ok tt) ->
  exists chunks, capture (fst (pumped sink p limit reads)) = push_all (Capture.new limit) chunks /\ concat chunks = sanitize p (read_bytes reads).
Proof.
  unfold pumped. destruct (pump_run _ _ _) as [p' o] eqn:E. cbn. intros ->.
  assert (Hn : Sanitize.push (Sanitize.new p) [] = (Sanitize.new p, [])) by by destruct p.
  destruct (pump_run_spec sink (pump_new p limit) limit p [] reads p') as (chunks & Hc & Hk & _); [by rewrite Hn| |done|by exists chunks].
  exists []. rewrite Hn. by split_and!.
Qed.

(** C19. A command's result is complete exactly when both pumps came to the end of their pipes:
    then, within the limit, it holds what was sanitized of every byte read from
    either, with the status and the termination of the race. A cut output is never
    passed off as complete, nor a read that failed as a result. *)
Theorem host_output sink p limit out err raced task d s :
  rc_outcome raced = try_join (snd (pumped sink p limit out)) (snd (pumped sink p limit err)) ->
  conclude raced task d (capture (fst (pumped sink p limit out))) (capture (fst (pumped sink p limit err))) = Ok s ->
  match into_complete s with
  | Ok r => rc_outcome raced = Some (Ok tt) /\ res_stdout r = sanitize p (read_bytes out) /\ res_stderr r = sanitize p (read_bytes err) /\
      res_termination r = rc_termination raced /\ exit_code r = status_code (rc_status raced)
  | Err DeliveryIncomplete => rc_outcome raced <> Some (Ok tt) /\ forall e, rc_outcome raced <> Some (Err (ReadFailed e))
  | Err (LimitExceeded m) => rc_outcome raced = Some (Ok tt) /\ m = default 0%nat limit /\
      ~ (length (sanitize p (read_bytes out)) <= m /\ length (sanitize p (read_bytes err)) <= m)%nat
  end.
Proof.
  intros Hj. unfold conclude. destruct (match task with Some _ => _ | None => _ end) as [u|e]; cbn [rbind]; [|done].
  destruct (rc_outcome raced) as [[[]|e]|] eqn:Eo.
  - intros [= <-]. destruct (snd (pumped sink p limit out)) as [[[]|]|] eqn:E1; try done;
      destruct (snd (pumped sink p limit err)) as [[[]|]|] eqn:E2; try done.
    destruct (pumped_spec _ _ _ _ E1) as (c1 & -> & <-). destruct (pumped_spec _ _ _ _ E2) as (c2 & -> & <-).
    set (n := default 0%nat limit). unfold assemble_result. rewrite !captured_parts. fold n. unfold into_complete. cbn -[Nat.eqb].
    destruct (length (concat c1) - n =? 0)%nat eqn:L1; cbn [negb orb].
    2: { apply Nat.eqb_neq in L1. split_and!; [done|unfold n in *; lia|lia]. }
    destruct (length (concat c2) - n =? 0)%nat eqn:L2; cbn [negb orb].
    2: { apply Nat.eqb_neq in L2. split_and!; [done|unfold n in *; lia|lia]. }
    apply capture_omits in L1, L2. cbn. rewrite !head_tail_all by done. split_and!; try done; unfold exec_result, from_shell_status; by destruct (rc_status raced) as [code|]; cbn; [destruct (in_range 129 192 code)|].
  - destruct e as [|e]; [|done]. intros [= <-]. unfold assemble_result. destruct (into_parts _), (into_parts _). cbn. split; [done|]. by intros e [=].
  - intros [= <-]. unfold assemble_result. destruct (into_parts _), (into_parts _). cbn. split; [done|]. by intros e [=].
Qed.

(** ** Examples *)

(** A command that runs for a minute, obeys TERM after two instants, and whose pipes close
    right after it. *)
Definition demo_exits (x : option Z) : option (Z * result ExitStatus string) :=
  match x with None => Some (60, Ok (ExitCode 0)) | Some t => Some (t + 2, Ok (ExitSignal 15)) end.
Definition demo_pumps (x : option Z) : option (Z * result unit PumpError) :=
  match x with None => Some (61, Ok tt) | Some t => Some (t + 3, Ok tt) end.
Definition demo_race (killed termed timeout : option Z) (pumps : option Z -> option (Z * result unit PumpError)) (read_by : option Z -> Z -> nat) : race_end :=
  race killed termed timeout 10 demo_exits pumps read_by (fun _ => Ok killed_status) (fun _ => 1%N) 20 (race_start 0).

Example runs_out : demo_race None None (Some 90) demo_pumps (fun _ _ => 0%nat) =
  Settled (mkRaced Exited (ExitCode 0) (Some (Ok tt)) 62 false).
Proof. reflexivity. Qed.

Example obeys_term : demo_race None (Some 5) (Some 90) demo_pumps (fun _ _ => 0%nat) =
  Settled (mkRaced Cancelled (ExitSignal 15) (Some (Ok tt)) 10 false).
Proof. reflexivity. Qed.

(** A kill that is due with the timeout goes first. *)
Example killed_first : demo_race (Some 30) None (Some 30) demo_pumps (fun _ _ => 0%nat) =
  Settled (mkRaced Killed killed_status None 31 true).
Proof. reflexivity. Qed.

(** Pipes held open by a descendant: the drain goes on while bytes come, and ends once
    nothing does for a grace. *)
Example silent_pipe : demo_race None None None (fun _ => None) (fun _ t => if t <=? 75 then Z.to_nat t else 75%nat) =
  Settled (mkRaced Exited (ExitCode 0) None 94 false).
Proof. reflexivity. Qed.

Lemma host_race_witness :
  match demo_race None (Some 5) (Some 90) demo_pumps (fun _ _ => 0%nat) with
  | Settled c => explained None (Some 5) (Some 90) 10 demo_exits (fun _ _ => 0%nat) c /\ decided c <= 91
  | _ => False
  end.
Proof.
  destruct (host_race None (Some 5) (Some 90) 10 demo_exits demo_pumps (fun _ _ => 0%nat) (fun _ => Ok killed_status) (fun _ => 1%N) 20 0) as [He Ht].
  specialize (Ht 90 1%N eq_refl eq_refl (fun _ => N.le_refl 1%N) ltac:(vm_compute; lia)).
  unfold demo_race. destruct (race _ _ _ _ _ _ _ _ _ 20 _) as [c|e| |] eqn:E; [|by vm_compute in E|done..].
  split; [by apply He|exact Ht].
Defined.

Definition demo_reads : list (result bytes string) := [Ok [104; 27]; Ok [91; 51; 49; 109; 105]; Ok []].

Lemma host_output_witness :
  let side := pumped None StripAnsi (Some 8%nat) demo_reads in
  match conclude (mkRaced Exited (ExitCode 3) (try_join (snd side) (snd side)) 7 false) None 7 (capture (fst side)) (capture (fst side)) with
  | Ok s => exists r, into_complete s = Ok r /\ res_stdout r = [104; 105] /\ exit_code r = Some 3
  | Err _ => False
  end.
Proof.
  intros side. destruct (conclude _ _ _ _ _) as [s|e] eqn:E; [|vm_compute in E; discriminate E].
  pose proof (host_output None StripAnsi (Some 8%nat) demo_reads demo_reads
    (mkRaced Exited (ExitCode 3) (try_join (snd side) (snd side)) 7 false) None 7 s eq_refl E) as Ho.
  destruct (into_complete s) as [r|e'] eqn:Er.
  - exists r. destruct Ho as (_ & H1 & _ & _ & H2). split; [reflexivity|]. split; [rewrite H1; vm_compute; reflexivity|rewrite H2; reflexivity].
  - exfalso. vm_compute in E. injection E as <-. vm_compute in Er. discriminate Er.
Defined.

(** An inherited token is left out, the sandbox's own is not. *)
Lemma host_environment_witness :
  let vars := [("PATH", "/bin"); ("GITHUB_TOKEN", "t"); ("BASH_ENV", "rc"); ("TZ", "UTC")] in
  let env := effective_env to_ascii_lowercase (fun _ => true) vars {["MY_TOKEN" := "s"]} in
  env !! "MY_TOKEN" = Some "s" /\ env !! "TZ" = Some "UTC" /\ (forall v, env !! "GITHUB_TOKEN" <> Some v) /\ forall v, env !! "BASH_ENV" <> Some v.
Proof.
  intros vars env. destruct (host_environment to_ascii_lowercase (fun _ => true) vars {["MY_TOKEN" := "s"]} ∅) as (H1 & H2 & _).
  split; [by apply H2|]. split; [reflexivity|]. split; intros v Hv; destruct (H1 _ _ Hv) as [Hn Hk].
  - destruct Hk as [Hk|(_ & _ & Hs)]; [by vm_compute in Hk|]. by vm_compute in Hs.
  - by apply Hn.
Defined.
