(* ===== verification/Nested.v ===== *)
(** * The Docker daemon nested in a Daytona sandbox

    Models [crates/sandbox-driver-daytona/src/nested]: the commands of the Docker CLI by
    which a sandbox's own daemon, its primary container and the services beside it are made and
    brought up again ([mod.rs]), the images and the containers of one-shot runs ([one_shot.rs]),
    and an operation with its cleanup ([operation.rs]). A program is the tree of what it
    asks of the sandbox: a command, a file operation, a pause, the time; nothing is assumed
    of the answers, and one with a limit may pass it. An owner that goes away while an
    operation runs is left out, as are the facets; random names are arguments, and serde's
    reading of JSON is a parameter. The race of a one-shot run is [Drain]'s. Durations are
    milliseconds. *)

From S2P Require Import Prelude Text Shell Exec Errors Script Wire DockerPlan DaytonaApi DockerOneShot.

#[local] Open Scope string_scope.
#[local] Open Scope list_scope.
#[local] Open Scope Z_scope.

(** ** Programs *)

(** By [Exec::run], or streamed under the owner's kill. *)
Inductive Via := Plain | Owned.

Inductive FileOp := DeleteAll (path : string) | CreateDir (path : string).

Inductive Cmd (A : Type) :=
  | CDone (r : result A Error)
  | CExec (via : Via) (spec : ExecSpec) (limit : option Z) (k : option (result ExecResult Error) -> Cmd A)
  | CFiles (op : FileOp) (limit : option Z) (k : option (result unit Error) -> Cmd A)
  | CSleep (d : Z) (k : Cmd A)
  | CNow (k : Z -> Cmd A).
Arguments CDone {A}.
Arguments CExec {A}.
Arguments CFiles {A}.
Arguments CSleep {A}.
Arguments CNow {A}.

Definition cret {A} (a : A) : Cmd A := CDone (Ok a).
Definition cthrow {A} (e : Error) : Cmd A := CDone (Err e).
Definition clift {A} (r : result A Error) : Cmd A := CDone r.

(** The program that goes on with what another comes to. *)
Fixpoint cthen {A B} (m : Cmd A) (k : result A Error -> Cmd B) : Cmd B :=
  match m with
  | CDone r => k r
  | CExec via spec limit c => CExec via spec limit (fun o => cthen (c o) k)
  | CFiles op limit c => CFiles op limit (fun o => cthen (c o) k)
  | CSleep d c => CSleep d (cthen c k)
  | CNow c => CNow (fun t => cthen (c t) k)
  end.

Definition cbind {A B} (m : Cmd A) (k : A -> Cmd B) : Cmd B :=
  cthen m (fun r => match r with Ok a => k a | Err e => CDone (Err e) end).

Notation "'cli!' x ':=' m 'in' k" := (cbind m (fun x => k)) (at level 10, x pattern, m at level 100, k at level 200) : driver_scope.
Notation "'cli?' m 'in' k" := (cbind m (fun _ => k)) (at level 10, m at level 100, k at level 200) : driver_scope.

Fixpoint for_each {A} (f : A -> Cmd unit) (l : list A) : Cmd unit :=
  match l with [] => cret tt | a :: l => cli? f a in for_each f l end.

(** A call without a limit is answered. *)
Definition exec_via (via : Via) (spec : ExecSpec) : Cmd ExecResult :=
  CExec via spec None (fun o => CDone (default (Err (InvalidSpec "answer" "")) o)).
Definition files (op : FileOp) : Cmd unit := CFiles op None (fun o => CDone (default (Err (InvalidSpec "answer" "")) o)).
Definition exec_within (limit : Z) (late : Error) (spec : ExecSpec) : Cmd ExecResult :=
  CExec Plain spec (Some limit) (fun o => CDone (default (Err late) o)).
Definition files_within (limit : Z) (late : Error) (op : FileOp) : Cmd unit :=
  CFiles op (Some limit) (fun o => CDone (default (Err late) o)).

(** ** The CLI *)

Definition CONTAINER_NAME : string := "sandbox-driver-workspace".
Definition NETWORK : string := "sandbox-driver-services".
Definition NETWORK_LABEL : string := "sh.sandbox-driver.network".
Definition SIDECAR_NETWORK_LABEL : string := "sh.sandbox-driver.sidecar-network".
Definition ONE_SHOT_LABEL : string := "sh.sandbox-driver.one-shot".
Definition MANAGED_LABEL : string := "sh.sandbox-driver.managed=true".
Definition START_TIMEOUT : Z := 120 * 1000.
Definition HEALTH_TIMEOUT : Z := 300 * 1000.
Definition DRAIN_GRACE : Z := 10 * 1000.
Definition CLEANUP_TIMEOUT : Z := 10 * 1000.

Definition INITIALIZE_RUNTIME_DIRECTORY : string := NEWLINE +:+ dq
  "umask 077
parent=${1%/*}
test ! -L `$parent` && test ! -L `$1` &&
    mkdir -p `$1` && chmod 0700 `$parent` `$1`
".

Definition CLEAN_STALE_PREPARATION : string := NEWLINE +:+
  "import os, re, shutil, sys
try:
    entries = os.scandir(sys.argv[1])
except FileNotFoundError:
    sys.exit(0)
with entries:
    for entry in entries:
        if re.fullmatch('(pull|build)-[0-9a-f]{16}', entry.name) and entry.is_dir(follow_symlinks=False):
            shutil.rmtree(entry.path)
".

Definition with_program (p : string) (s : ExecSpec) : ExecSpec :=
  mkSpec p (args s) (timeout s) (stop_grace s) (working_dir s) (Exec.env s) (spec_stdin s) (output_sanitization s).
Definition with_stdin (bs : bytes) (s : ExecSpec) : ExecSpec :=
  mkSpec (program s) (args s) (timeout s) (stop_grace s) (working_dir s) (Exec.env s) (Some bs) (output_sanitization s).

(** [DockerCli::command]. *)
Definition docker_command (a : list string) : ExecSpec :=
  env_var "DOCKER_CONFIG" (RUNTIME_DIRECTORY +:+ "/docker-config")
    (env_var "DOCKER_CERT_PATH" "" (env_var "DOCKER_TLS_VERIFY" "" (env_var "DOCKER_CONTEXT" ""
      (env_var "DOCKER_HOST" "unix:///var/run/docker.sock" (spec_working_dir "/" (spec_args a (spec_new "docker"))))))).

Definition checked (r : ExecResult) (operation : string) : Cmd ExecResult :=
  if success r then cret r else cthrow (ExecE (failure_of operation r)).

Definition nested_command : string := "nested Docker command".

Definition run_spec (s : ExecSpec) : Cmd ExecResult := cli! r := exec_via Plain s in checked r nested_command.
Definition cli_run (a : list string) : Cmd unit := cli? run_spec (docker_command a) in cret tt.

Definition stderr_lossy (r : ExecResult) : string := from_utf8_lossy (res_stderr r).

(** Whether either output says it. *)
Definition says (text : string) (r : ExecResult) : bool := contains text (stdout_lossy r) || contains text (stderr_lossy r).

Definition inspect_args (container : string) : list string := ["inspect"; "--type"; "container"; container].

(** [value[key]]: null where there is none. *)
Definition at_ (k : string) (j : json) : json := default JNull (field k j).

Section Nested.
Context (from_slice : bytes -> result (list json) string).
Context (fuel : nat) (out : Error).

Definition parse_inspect (r : ExecResult) : result json Error :=
  match from_slice (res_stdout r) with
  | Err e => Err (InvalidSpec "docker inspect" e)
  | Ok values => match last values with Some v => Ok v | None => Err (InvalidSpec "docker inspect" "container was not returned") end
  end.

Definition inspect (container : string) : Cmd json :=
  cli! r := run_spec (docker_command (inspect_args container)) in clift (parse_inspect r).

Definition image_present (image : string) : Cmd bool :=
  cli! r := exec_via Plain (docker_command ["image"; "inspect"; image]) in
  if success r then cret true
  else if says "No such image" r then cret false
  else cli? checked r "inspecting nested Docker image" in cret false.

(** [run_owned] of an owner that stays: the cleanup follows whatever the operation came to,
    whose error goes before the cleanup's. *)
Definition run_owned {A} (operation : Cmd A) (cleanup : Cmd unit) : Cmd A :=
  cthen operation (fun r => cthen cleanup (fun c =>
    match r, c with
    | Ok value, Ok _ => cret value
    | Ok _, Err error => cthrow error
    | Err error, _ => cthrow error
    end)).

Definition cleanup_late : Error := Io "cleaning nested operation" ["cleanup timed out"].

Definition login_args (auth : RegistryAuth) : list string :=
  ["login"; "--username"; auth_username auth; "--password-stdin"] ++ match auth_server auth with Some server => [server] | None => [] end.
Definition pull_args (image : string) (platform : option string) : list string :=
  ["pull"] ++ match platform with Some platform => ["--platform"; platform] | None => [] end ++ [image].

Definition login (config : string) (auth : RegistryAuth) : ExecSpec :=
  with_stdin (to_bytes (auth_password auth)) (env_var "DOCKER_CONFIG" config (docker_command (login_args auth))).

Definition pull_config (nonce : string) : string := RUNTIME_DIRECTORY +:+ "/pull-" +:+ nonce.

Definition pull (nonce image : string) (auth : option RegistryAuth) (platform : option string) : Cmd unit :=
  cli! present := image_present image in
  if present : bool then cret tt
  else
    let config := pull_config nonce in
    run_owned
      (cli? match auth with
            | Some auth => cli! r := exec_via Owned (login config auth) in cli? checked r "logging into nested Docker registry" in cret tt
            | None => cret tt
            end in
       cli! r := exec_via Owned (env_var "DOCKER_CONFIG" config (docker_command (pull_args image platform))) in
       cli? checked r "pulling nested Docker image" in cret tt)
      (match auth with Some _ => files_within CLEANUP_TIMEOUT cleanup_late (DeleteAll config) | None => cret tt end).

Definition ids (label : string) : Cmd (list string) :=
  cli! r := run_spec (docker_command ["ps"; "--all"; "--quiet"; "--filter"; "label=" +:+ label]) in cret (split_whitespace (stdout_lossy r)).

Definition remove_args (container : string) : list string := ["rm"; "--force"; "--volumes"; container].

Definition remove_result (r : ExecResult) : Cmd unit :=
  if success r || says "No such container" r then cret tt
  else cli? checked r "removing nested Docker container" in cret tt.

Definition remove (container : string) : Cmd unit :=
  cli! r := exec_via Plain (docker_command (remove_args container)) in remove_result r.

Fixpoint await_health_from (fuel : nat) (deadline : Z) (container : string) : Cmd unit :=
  match fuel with
  | O => cthrow out
  | S fuel =>
      CNow (fun t =>
        cli! r := exec_within (Z.max 0 (deadline - t)) (InvalidSpec "sidecar" (container +:+ " health check timed out")) (docker_command (inspect_args container)) in
        cli! r := checked r nested_command in
        cli! value := clift (parse_inspect r) in
        let state := at_ "State" value in
        match as_str (at_ "Status" (at_ "Health" state)) with
        | None => cret tt
        | Some health =>
            if String.eqb health "healthy" then cret tt
            else if String.eqb health "unhealthy" then cthrow (InvalidSpec "sidecar" (container +:+ " reported unhealthy"))
            else CNow (fun t =>
              if bool_decide (at_ "Running" state = JBool false) || (deadline <=? t)
              then cthrow (InvalidSpec "sidecar" (container +:+ " failed to become healthy"))
              else CSleep 250 (await_health_from fuel deadline container))
        end)
  end.

Definition await_health (container : string) : Cmd unit :=
  CNow (fun t => await_health_from fuel (t + HEALTH_TIMEOUT) container).

(** ** Arguments *)

Definition flags (name : string) (values : list string) : list string := concat (map (fun v => [name; v]) values).

Definition env_flags (e : gmap string string) : list string := flags "--env" (map (fun kv => fst kv +:+ "=" +:+ snd kv) (entries e)).

(** A field of the CSV that [--mount] reads. *)
Definition quote_char : ascii := char 34.
Definition needs_quotes (s : string) : bool :=
  negb (all_chars (fun a => negb (existsb (Ascii.eqb a) [","%char; quote_char; char 10; char 13])) s).
Fixpoint doubled (s : string) : string :=
  match s with
  | EmptyString => EmptyString
  | String a s => if Ascii.eqb a quote_char then String a (String a (doubled s)) else String a (doubled s)
  end.
Definition csv_field (s : string) : string := if needs_quotes s then String quote_char (doubled s +:+ String quote_char EmptyString) else s.

Definition workspace_mount (path : string) : string :=
  csv_field "type=bind" +:+ "," +:+ csv_field ("source=" +:+ path) +:+ "," +:+ csv_field ("target=" +:+ path).

Definition optional (name : string) (v : option string) : list string := match v with Some v => [name; v] | None => [] end.

Definition primary_args (config : NestedDockerConfig) (e : gmap string string) (working_dir network : string) : list string :=
  let o := nested_options config in
  ["create"; "--name"; CONTAINER_NAME; "--init"; "--label"; MANAGED_LABEL; "--network"; network; "--workdir"; working_dir] ++
  ["--mount"; workspace_mount working_dir] ++
  (if negb (bool_decide (sidecars o = [])) then ["--label"; SIDECAR_NETWORK_LABEL +:+ "=" +:+ NETWORK] else []) ++
  optional "--user" (nested_user config) ++
  optional "--platform" (pc_platform o) ++
  (if pc_privileged o then ["--privileged"] else []) ++
  env_flags e ++ flags "--add-host" (pc_extra_hosts o) ++ flags "--dns" (pc_dns o) ++ flags "--cap-add" (pc_cap_add o) ++
  ["--entrypoint"; "/bin/sh"; nested_image config; "-c"; "trap 'exit 0' TERM INT; while :; do sleep 3600 & wait $!; done"].

Definition health_args (h : Health) : list string :=
  ["--health-cmd"; health_cmd h] ++
  concat (map (fun '(flag, value) => match value with Some ms => [flag; print_uint ms +:+ "ms"] | None => [] end)
    [("--health-interval", interval_ms h); ("--health-timeout", timeout_ms h); ("--health-start-period", start_period_ms h)]) ++
  match retries h with Some n => ["--health-retries"; print_uint n] | None => [] end.

Definition sidecar_args (s : Sidecar) (name : string) : list string :=
  ["create"; "--name"; name; "--network"; NETWORK; "--network-alias"; sc_name s; "--label"; MANAGED_LABEL; "--label"; NETWORK_LABEL +:+ "=" +:+ NETWORK] ++
  env_flags (sc_env s) ++ flags "--dns" (sc_dns s) ++ flags "--cap-add" (sc_cap_add s) ++
  (if sc_privileged s then ["--privileged"] else []) ++
  optional "--user" (sc_user s) ++
  match sc_health s with Some h => health_args h | None => [] end ++
  match sc_entrypoint s with Some e => ["--entrypoint"; default "" (head e)] | None => [] end ++
  [sc_image s] ++
  match sc_entrypoint s with Some e => drop 1 e | None => [] end.

(** ** The daemon's generations *)

Inductive Generation := Fresh | Ready | Restarted.
#[export] Instance Generation_eq_dec : EqDecision Generation.
Proof. solve_decision. Defined.

Definition bootstrap : Cmd unit :=
  cli? run_spec (with_program "start-docker" (spec_timeout (Some START_TIMEOUT) (docker_command []))) in cret tt.

Definition stale_spec : ExecSpec :=
  spec_timeout (Some DRAIN_GRACE) (spec_args ["-c"; CLEAN_STALE_PREPARATION; RUNTIME_DIRECTORY] (spec_new "python3")).

Definition clean_stale_preparation : Cmd unit :=
  cli! r := exec_within (DRAIN_GRACE * 2) (Io "recovering nested preparation" ["cleanup timed out"]) stale_spec in
  cli? checked r nested_command in cret tt.

Definition start_args (container : string) : list string := ["start"; container].

Definition runtime_args : list string :=
  ["exec"; CONTAINER_NAME; "/bin/sh"; "-c"; INITIALIZE_RUNTIME_DIRECTORY; "sandbox-driver-runtime"; RUNTIME_DIRECTORY].
Definition initialize_runtime_directory : Cmd unit := cli_run runtime_args.

Definition service_name (s : Sidecar) : string := NETWORK +:+ "-" +:+ sc_name s.

(** [nonces]: the random part of each pull's configuration. *)
Definition create_nested (nonces : nat -> string) (working_dir : string) (config : NestedDockerConfig) (e : gmap string string) : Cmd unit :=
  let o := nested_options config in
  if bool_decide (nested_target config = TargetContainer) then
    cli? bootstrap in
    cli? clean_stale_preparation in
    cli? (if auto_pull o then pull (nonces 0%nat) (nested_image config) (registry_auth o) (pc_platform o) else cret tt) in
    let services := negb (bool_decide (sidecars o = [])) in
    cli? cli_run (primary_args config e working_dir (if services then "none" else "bridge")) in
    cli? (if services then
            cli? cli_run ["network"; "create"; "--label"; MANAGED_LABEL; NETWORK] in
            cli? for_each (fun '(i, s) =>
                   cli? pull (nonces (S i)) (sc_image s) (sc_registry_auth s) None in
                   cli? cli_run (sidecar_args s (service_name s)) in
                   cli_run (start_args (service_name s))) (imap pair (sidecars o)) in
            cli? for_each (fun s => match sc_health s with Some _ => await_health (service_name s) | None => cret tt end) (sidecars o) in
            cli? cli_run ["network"; "disconnect"; "none"; CONTAINER_NAME] in
            cli_run ["network"; "connect"; NETWORK; CONTAINER_NAME]
          else cret tt) in
    cli? cli_run (start_args CONTAINER_NAME) in
    initialize_runtime_directory
  else cret tt.

Definition recover_vm_target (sweep : bool) : Cmd unit :=
  if sweep then cli! actions := ids ONE_SHOT_LABEL in for_each remove actions else cret tt.

Definition container_id (primary : json) : result string Error :=
  match as_str (at_ "Id" primary) with Some id => Ok id | None => Err (InvalidSpec "docker inspect" "container id missing") end.

Definition restart_services (primary : json) (network : string) : Cmd unit :=
  if bool_decide (at_ network (at_ "Networks" (at_ "NetworkSettings" primary)) = JNull)
  then cthrow (InvalidSpec "nested Docker" "service allocation did not complete")
  else
    cli! services := ids (NETWORK_LABEL +:+ "=" +:+ network) in
    cli? for_each (fun s => cli_run (start_args s)) services in
    for_each await_health services.

Definition recover_container_target (sweep : bool) : Cmd unit :=
  cli! primary := inspect CONTAINER_NAME in
  cli! id := clift (container_id primary) in
  cli? (if sweep then cli! actions := ids (ONE_SHOT_LABEL +:+ "=" +:+ id) in for_each remove actions else cret tt) in
  cli? match as_str (at_ SIDECAR_NETWORK_LABEL (at_ "Labels" (at_ "Config" primary))) with
       | Some network => restart_services primary network
       | None => cret tt
       end in
  cli? cli_run (start_args CONTAINER_NAME) in
  initialize_runtime_directory.

Definition ensure_ready (target : DockerExecutionTarget) (state : Generation) : Cmd unit :=
  match state with
  | Ready => cret tt
  | Fresh | Restarted =>
      let sweep := bool_decide (state = Restarted) in
      cli? bootstrap in
      cli? (if sweep then clean_stale_preparation else cret tt) in
      if bool_decide (target = TargetContainer) then recover_container_target sweep else recover_vm_target sweep
  end.

(** The handle's state after its readiness work, and after the sandbox stopped. *)
Definition after_ready (state : Generation) (r : result unit Error) : Generation := match r with Ok _ => Ready | Err _ => state end.
Definition stopped (_ : Generation) : Generation := Restarted.
End Nested.

(** ** One-shot runs *)

Section OneShot.
Context (display : Error -> string).

Definition missing_platform (e : Error) : bool :=
  is_missing_platform display e ||
  match e with
  | ExecE f => existsb (fun output => contains "no matching manifest" (from_utf8_lossy output)) [ef_stdout f; ef_stderr f]
  | _ => false
  end.

Definition resolve_path (working_dir path : string) : string :=
  if starts_with_char "/" path then path else trim_end_char "/" working_dir +:+ "/" +:+ path.

Definition copy_args (context stage : string) : list string := ["cp"; "--"; CONTAINER_NAME +:+ ":" +:+ context +:+ "/."; stage].
Definition build_args (context tag : string) (dockerfile : option string) : list string :=
  ["build"; "--tag"; tag] ++ match dockerfile with Some path => ["--file"; context +:+ "/" +:+ path] | None => [] end ++ [context].

Definition build_stage (nonce : string) : string := RUNTIME_DIRECTORY +:+ "/build-" +:+ nonce.

Definition prepare_action_image (nonce retry_nonce working_dir : string) (target : DockerExecutionTarget) (image : OneShotImage) : Cmd string :=
  match image with
  | Registry reference =>
      cthen (pull nonce reference None None) (fun r => match r with
        | Ok _ => cret reference
        | Err error =>
            if negb (missing_platform error) then cthrow error
            else cthen (pull retry_nonce reference None (Some "linux/amd64")) (fun r => match r with
                   | Ok _ => cret reference
                   | Err _ => cthrow error
                   end)
        end)
  | Build context dockerfile tag reuse =>
      cli! present := (if reuse then image_present tag else cret false) in
      if present : bool then cret tag
      else
        let context := resolve_path working_dir context in
        if match dockerfile with Some path => starts_with_char "/" path | None => false end
        then cthrow (InvalidSpec "dockerfile" "expected a path within the build context")
        else
          let stage := if bool_decide (target = TargetContainer) then Some (build_stage nonce) else None in
          run_owned
            (cli! context := match stage with
               | Some stage =>
                   cli? files (CreateDir stage) in
                   cli! r := exec_via Owned (docker_command (copy_args context stage)) in
                   cli? checked r "copying nested Docker build context" in cret stage
               | None => cret context
               end in
             cli! r := exec_via Owned (docker_command (build_args context tag dockerfile)) in
             cli? checked r "building nested Docker action image" in cret tag)
            match stage with Some stage => files_within CLEANUP_TIMEOUT cleanup_late (DeleteAll stage) | None => cret tt end
  end.

Definition signal_action (container signal : string) : Cmd unit :=
  cli! r := exec_via Plain (spec_timeout (Some DRAIN_GRACE) (docker_command ["kill"; "--signal"; signal; container])) in
  if success r then cret tt
  else
    let message := stdout_lossy r +:+ stderr_lossy r in
    if contains "No such container" message then cret tt
    else if contains "is not running" message then remove container
    else cli? checked r "signalling nested Docker action" in cret tt.

Definition action_name (nonce : string) : string := "sandbox-driver-action-" +:+ nonce.

Definition action_args (name primary network working_dir : string) (spec : OneShotSpec) (image : string) : list string :=
  ["create"; "--name"; name; "--init"; "--label"; MANAGED_LABEL; "--label"; ONE_SHOT_LABEL +:+ "=" +:+ primary; "--network"; network;
   "--mount"; workspace_mount working_dir; "--workdir"; default working_dir (os_working_dir spec)] ++
  env_flags (os_env spec) ++ optional "--entrypoint" (os_entrypoint spec) ++ [image] ++ os_args spec.

(** A run that never started: its stop's reason. *)
Definition unstarted (reason : Termination) (elapsed : Z) : ExecStreamingResult := streaming_new (from_shell_status reason None elapsed).

Definition timed (t : Termination) (d : Z) (s : ExecStreamingResult) : ExecStreamingResult :=
  let r := sr_result s in
  mkStreaming (mkResult (res_stdout r) (res_stderr r) (exit_code r) (res_signal r) (if bool_decide (t = Exited) then res_termination r else t) d)
    (streams_separated s) (live_streaming s) (stdout_capture s) (stderr_capture s) (output_loss s).

(** [Action::run]: the container, a stop that came before it is started, and the race of
    its output against its stops, with how that ended. *)
Definition action_run (args : list string) (stopped : option Termination) (race : Cmd (Termination * ExecStreamingResult)) (elapsed : Z) : Cmd ExecStreamingResult :=
  cli? run_spec (spec_timeout (Some START_TIMEOUT) (docker_command args)) in
  match stopped with
  | Some reason => cret (unstarted reason elapsed)
  | None => cli! (t, s) := race in cret (timed t elapsed s)
  end.

(** The removal is the cleanup's, within its time. *)
Definition remove_within (container : string) : Cmd unit :=
  cli! r := exec_within CLEANUP_TIMEOUT cleanup_late (docker_command (remove_args container)) in remove_result r.

(** [OneShot::run]: [early] is a stop that comes before the image is prepared. *)
Definition one_shot_run (from_slice : bytes -> result (list json) string) (fuel : nat) (out : Error) (nonces : nat -> string) (working_dir : string)
    (target : DockerExecutionTarget) (state : Generation) (spec : OneShotSpec) (early stopped : option Termination)
    (race : string -> Cmd (Termination * ExecStreamingResult)) (elapsed : Z) : Cmd ExecStreamingResult :=
  match early with
  | Some reason => cret (unstarted reason elapsed)
  | None =>
      cli? ensure_ready from_slice fuel out target state in
      cli! image := prepare_action_image (nonces 0%nat) (nonces 1%nat) working_dir target (os_image spec) in
      cli! (primary, network) :=
        (if bool_decide (target = TargetContainer)
         then cli! primary := inspect from_slice CONTAINER_NAME in cli! id := clift (container_id primary) in cret (id, "container:" +:+ id)
         else cret (CONTAINER_NAME, "host")) in
      let name := action_name (nonces 2%nat) in
      run_owned (action_run (action_args name primary network working_dir spec image) stopped (race name) elapsed) (remove_within name)
  end.
End OneShot.

(** ** Runs *)

Inductive Did := DidExec (spec : ExecSpec) (answer : option (result ExecResult Error)) | DidFiles (op : FileOp) | DidSleep (d : Z).

(** A sandbox as it answers. *)
Class Machine (W : Type) := {
  m_exec : Via -> ExecSpec -> option Z -> W -> W * option (result ExecResult Error);
  m_files : FileOp -> option Z -> W -> W * option (result unit Error);
  m_sleep : Z -> W -> W;
  m_clock : W -> Z;
}.

Fixpoint perform {W A} `{Machine W} (m : Cmd A) (w : W) : W * list Did * result A Error :=
  match m with
  | CDone r => (w, [], r)
  | CExec via spec limit k =>
      let '(w, answer) := m_exec via spec limit w in
      let '(w, log, r) := perform (k answer) w in (w, DidExec spec answer :: log, r)
  | CFiles op limit k =>
      let '(w, answer) := m_files op limit w in
      let '(w, log, r) := perform (k answer) w in (w, DidFiles op :: log, r)
  | CSleep d k => let '(w, log, r) := perform k (m_sleep d w) in (w, DidSleep d :: log, r)
  | CNow k => perform (k (m_clock w)) w
  end.

Section Runs.
Context {W : Type} `{Machine W}.

Lemma perform_then {A B} (m : Cmd A) (k : result A Error -> Cmd B) w :
  perform (cthen m k) w =
  let '(w1, log1, r1) := perform m w in let '(w2, log2, r2) := perform (k r1) w1 in (w2, log1 ++ log2, r2).
Proof.
  revert w. induction m as [r|via spec limit c IH|op limit c IH|d c IH|c IH]; intros w; cbn [cthen perform].
  - by destruct (perform (k r) w) as [[w2 log2] r2].
  - destruct (m_exec via spec limit w) as [w' answer]. rewrite IH. destruct (perform (c answer) w') as [[w1 log1] r1].
    by destruct (perform (k r1) w1) as [[w2 log2] r2].
  - destruct (m_files op limit w) as [w' answer]. rewrite IH. destruct (perform (c answer) w') as [[w1 log1] r1].
    by destruct (perform (k r1) w1) as [[w2 log2] r2].
  - rewrite IH. destruct (perform c (m_sleep d w)) as [[w1 log1] r1]. by destruct (perform (k r1) w1) as [[w2 log2] r2].
  - apply IH.
Qed.

(** Every step of a program satisfies [P]. *)
Fixpoint steps_ok {A} (P : ExecSpec -> Prop) (Q : FileOp -> Prop) (m : Cmd A) : Prop :=
  match m with
  | CDone _ => True
  | CExec _ spec _ k => P spec /\ forall answer, steps_ok P Q (k answer)
  | CFiles op _ k => Q op /\ forall answer, steps_ok P Q (k answer)
  | CSleep _ k => steps_ok P Q k
  | CNow k => forall t, steps_ok P Q (k t)
  end.

Definition did_ok (P : ExecSpec -> Prop) (Q : FileOp -> Prop) (d : Did) : Prop :=
  match d with DidExec spec _ => P spec | DidFiles op => Q op | DidSleep _ => True end.

Lemma steps_log {A} P Q (m : Cmd A) w : steps_ok P Q m -> Forall (did_ok P Q) (snd (fst (perform m w))).
Proof.
  revert w. induction m as [r|via spec limit c IH|op limit c IH|d c IH|c IH]; intros w; cbn [steps_ok perform]; [constructor| | | |by intros Hc; apply IH].
  - intros [Hs Hc]. destruct (m_exec via spec limit w) as [w' answer]. specialize (IH answer w' (Hc answer)). destruct (perform _ _) as [[w1 log] r]. by constructor.
  - intros [Hs Hc]. destruct (m_files op limit w) as [w' answer]. specialize (IH answer w' (Hc answer)). destruct (perform _ _) as [[w1 log] r]. by constructor.
  - intros Hc. specialize (IH (m_sleep d w) Hc). destruct (perform _ _) as [[w1 log] r]. by constructor.
Qed.

Lemma steps_then {A B} P Q (m : Cmd A) (k : result A Error -> Cmd B) : steps_ok P Q m -> (forall r, steps_ok P Q (k r)) -> steps_ok P Q (cthen m k).
Proof.
  intros Hm Hk. induction m as [r|via spec limit c IH|op limit c IH|d c IH|c IH]; cbn [cthen steps_ok] in *; [by apply Hk| | |by apply IH|].
  - destruct Hm. split; [done|]. intros answer. by apply IH.
  - destruct Hm. split; [done|]. intros answer. by apply IH.
  - intros t. by apply IH.
Qed.

Lemma steps_bind {A B} P Q (m : Cmd A) (k : A -> Cmd B) : steps_ok P Q m -> (forall a, steps_ok P Q (k a)) -> steps_ok P Q (cbind m k).
Proof. intros Hm Hk. apply steps_then; [done|]. intros [a|e]; [apply Hk|done]. Qed.

Lemma steps_each {A} P Q (f : A -> Cmd unit) l : (forall a, steps_ok P Q (f a)) -> steps_ok P Q (for_each f l).
Proof. intros Hf. induction l as [|a l IH]; cbn [for_each]; [done|]. by apply steps_bind. Qed.

(** What a program that succeeds did: its parts, each of which succeeded. *)
Lemma perform_bind_ok {A B} (m : Cmd A) (k : A -> Cmd B) w w' log b : perform (cbind m k) w = (w', log, Ok b) ->
  exists w1 log1 a log2, perform m w = (w1, log1, Ok a) /\ perform (k a) w1 = (w', log2, Ok b) /\ log = log1 ++ log2.
Proof.
  unfold cbind. rewrite perform_then. destruct (perform m w) as [[w1 log1] [a|e]]; [|done].
  destruct (perform (k a) w1) as [[w2 log2] r2] eqn:E. intros [= -> <- ->]. by exists w1, log1, a, log2.
Qed.

Lemma perform_each_ok {A} (f : A -> Cmd unit) l w w' log : perform (for_each f l) w = (w', log, Ok tt) ->
  forall a, a ∈ l -> exists w1 w2 log1, perform (f a) w1 = (w2, log1, Ok tt) /\ log1 ⊆ log.
Proof.
  revert w log. induction l as [|a l IH]; intros w log; cbn [for_each]; [by intros _ a ?%elem_of_nil|].
  intros (w1 & log1 & [] & log2 & H1 & H2 & ->)%perform_bind_ok b [->|Hb]%elem_of_cons.
  - exists w, w1, log1. split; [done|]. set_solver.
  - destruct (IH _ _ H2 b Hb) as (w3 & w4 & log3 & H3 & Hs). exists w3, w4, log3. split; [done|]. set_solver.
Qed.
End Runs.

(** ** Readiness *)

Section Readiness.
Context {W : Type} `{Machine W} (from_slice : bytes -> result (list json) string) (out : Error).

(** A command ran and succeeded. *)
Definition did_run (spec : ExecSpec) (log : list Did) : Prop := exists r, DidExec spec (Some (Ok r)) ∈ log /\ success r = true.

(** A container was seen to be healthy, or to have no health of its own. *)
Definition seen_healthy (s : string) (log : list Did) : Prop :=
  exists r v, DidExec (docker_command (inspect_args s)) (Some (Ok r)) ∈ log /\ success r = true /\ parse_inspect from_slice r = Ok v /\
    (as_str (at_ "Status" (at_ "Health" (at_ "State" v))) = None \/ as_str (at_ "Status" (at_ "Health" (at_ "State" v))) = Some "healthy").

Lemma did_run_sub spec l1 l2 : l1 ⊆ l2 -> did_run spec l1 -> did_run spec l2.
Proof. intros Hs (r & Hr & Ho). exists r. split; [by apply Hs|done]. Qed.

Lemma seen_healthy_sub s l1 l2 : l1 ⊆ l2 -> seen_healthy s l1 -> seen_healthy s l2.
Proof. intros Hs (r & v & Hr & Ho). exists r, v. split; [by apply Hs|done]. Qed.

Lemma run_spec_ok spec w w' log r : perform (run_spec spec) w = (w', log, Ok r) -> log = [DidExec spec (Some (Ok r))] /\ success r = true.
Proof.
  unfold run_spec, exec_via, checked. cbn. destruct (m_exec Plain spec None w) as [w1 [[x|e]|]]; cbn; [|done..].
  destruct (success x) eqn:E; cbn; [|done]. by intros [= _ <- <-].
Qed.

Lemma cli_run_ok a w w' log : perform (cli_run a) w = (w', log, Ok tt) ->
  exists r, log = [DidExec (docker_command a) (Some (Ok r))] /\ success r = true.
Proof. unfold cli_run. intros (w1 & log1 & r & log2 & H1 & [= -> <-] & ->)%perform_bind_ok. apply run_spec_ok in H1 as [-> Hr]. by exists r. Qed.

Lemma inspect_ok c w w' log v : perform (inspect from_slice c) w = (w', log, Ok v) ->
  exists r, log = [DidExec (docker_command (inspect_args c)) (Some (Ok r))] /\ parse_inspect from_slice r = Ok v.
Proof.
  unfold inspect. intros (w1 & log1 & r & log2 & H1 & H2 & ->)%perform_bind_ok. apply run_spec_ok in H1 as [-> _].
  unfold clift in H2. cbn in H2. injection H2 as _ <- Hv. by exists r.
Qed.

Lemma ids_ok label w w' log l : perform (ids label) w = (w', log, Ok l) ->
  exists r, log = [DidExec (docker_command ["ps"; "--all"; "--quiet"; "--filter"; "label=" +:+ label]) (Some (Ok r))] /\ l = split_whitespace (stdout_lossy r).
Proof. unfold ids. intros (w1 & log1 & r & log2 & H1 & [= -> <- <-] & ->)%perform_bind_ok. apply run_spec_ok in H1 as [-> _]. by exists r. Qed.

Lemma await_ok fuel deadline s w w' log : perform (await_health_from from_slice out fuel deadline s) w = (w', log, Ok tt) -> seen_healthy s log.
Proof.
  revert w log. induction fuel as [|fuel IH]; intros w log; cbn [await_health_from perform]; [done|].
  intros (w1 & log1 & r & log2 & H1 & H2 & ->)%perform_bind_ok. unfold exec_within in H1. cbn [perform] in H1.
  destruct (m_exec _ _ _ w) as [w1' [[x|e]|]]; cbn in H1; [|done..]. injection H1 as <- <- <-.
  apply perform_bind_ok in H2 as (w2 & log3 & r' & log4 & H1 & H2 & ->). unfold checked in H1.
  destruct (success x) eqn:Ex; [|done]. injection H1 as <- <- <-.
  apply perform_bind_ok in H2 as (w3 & log5 & v & log6 & H1 & H2 & ->). unfold clift in H1. cbn in H1. injection H1 as <- <- Hv.
  cbv zeta in H2. destruct (as_str _) as [health|] eqn:Eh.
  2: { injection H2 as <- <-. exists x, v. split_and!; [apply list_elem_of_here|done..|by left]. }
  destruct (String.eqb_spec health "healthy") as [->|Hn1].
  { injection H2 as <- <-. exists x, v. split_and!; [apply list_elem_of_here|done..|by right]. }
  destruct (String.eqb health "unhealthy"); [done|]. cbn [perform] in H2. destruct (_ || _); [done|]. cbn [perform] in H2.
  destruct (perform _ (m_sleep 250 w1')) as [[w4 log7] r7] eqn:E7. injection H2 as -> <- ->.
  eapply seen_healthy_sub; [|by eapply IH]. cbn. set_solver.
Qed.

(** The services of a network, brought up. *)
Lemma restart_ok fuel primary network w w' log : perform (restart_services from_slice fuel out primary network) w = (w', log, Ok tt) ->
  exists rs, DidExec (docker_command ["ps"; "--all"; "--quiet"; "--filter"; "label=" +:+ (NETWORK_LABEL +:+ "=" +:+ network)]) (Some (Ok rs)) ∈ log /\
    forall s, s ∈ split_whitespace (stdout_lossy rs) -> did_run (docker_command (start_args s)) log /\ seen_healthy s log.
Proof.
  unfold restart_services. destruct (bool_decide _); [done|].
  intros (w1 & log1 & services & log2 & (rs & -> & ->)%ids_ok & (w2 & log3 & [] & log4 & H2 & H3 & ->)%perform_bind_ok & ->)%perform_bind_ok.
  exists rs. split; [apply list_elem_of_here|]. intros s Hs. split.
  - destruct (perform_each_ok _ _ _ _ _ H2 s Hs) as (w3 & w4 & log5 & (r & -> & Hr)%cli_run_ok & Hsub). exists r. split; [|done]. set_solver.
  - destruct (perform_each_ok _ _ _ _ _ H3 s Hs) as (w3 & w4 & log5 & H5 & Hsub). unfold await_health in H5. cbn [perform] in H5.
    eapply seen_healthy_sub; [|by eapply await_ok]. set_solver.
Qed.

(** Nothing that removes what others may be using. *)
Definition keeps (spec : ExecSpec) : Prop := spec <> stale_spec /\ hd_error (args spec) <> Some "rm".

Lemma steps_run a (P : ExecSpec -> Prop) Q : P (docker_command a) -> steps_ok P Q (cli_run a).
Proof. intros Hp. unfold cli_run, run_spec, exec_via, checked. cbn. split; [done|]. intros [[x|e]|]; cbn; [|done..]. by destruct (success x). Qed.

Lemma steps_exec via spec (P : ExecSpec -> Prop) Q : P spec -> steps_ok P Q (exec_via via spec).
Proof. intros Hp. by split. Qed.

Lemma steps_checked r o (P : ExecSpec -> Prop) Q : steps_ok P Q (checked r o).
Proof. unfold checked. by destruct (success r). Qed.

Lemma docker_keeps a : hd_error a <> Some "rm" -> keeps (docker_command a).
Proof. intros Ha. split; [|done]. intros E. apply (f_equal program) in E. done. Qed.

Lemma steps_health fuel deadline s Q : steps_ok keeps Q (await_health_from from_slice out fuel deadline s).
Proof.
  induction fuel as [|fuel IH]; cbn [await_health_from steps_ok]; [done|]. intros t. apply steps_bind; [split; [by apply docker_keeps|done]|].
  intros r. apply steps_bind; [apply steps_checked|]. intros x. apply steps_bind; [done|]. intros v. cbv zeta.
  destruct (as_str _) as [h|]; [|done]. destruct (String.eqb h "healthy"); [done|]. destruct (String.eqb h "unhealthy"); [done|].
  cbn. intros t'. by destruct (_ || _).
Qed.

Lemma steps_fresh fuel target Q : steps_ok keeps Q (ensure_ready from_slice fuel out target Fresh).
Proof.
  unfold ensure_ready. cbv zeta. rewrite bool_decide_eq_false_2 by done.
  apply steps_bind; [|intros _; apply steps_bind; [done|intros _; case_bool_decide; [|done]]].
  { unfold bootstrap, run_spec. apply steps_bind; [|done]. apply steps_bind; [|intros r; apply steps_checked]. apply steps_exec.
    split; [|done]. intros E. apply (f_equal program) in E. done. }
  unfold recover_container_target. apply steps_bind.
  { unfold inspect, run_spec. apply steps_bind; [|done]. apply steps_bind; [|intros r; apply steps_checked]. by apply steps_exec, docker_keeps. }
  intros primary. apply steps_bind; [done|]. intros id. apply steps_bind; [done|]. intros _.
  apply steps_bind; [|intros _; apply steps_bind; [by apply steps_run, docker_keeps|intros _; by apply steps_run, docker_keeps]].
  destruct (as_str _) as [network|]; [|done]. unfold restart_services. destruct (bool_decide _); [done|]. apply steps_bind.
  { unfold ids, run_spec. apply steps_bind; [|done]. apply steps_bind; [|intros r; apply steps_checked]. by apply steps_exec, docker_keeps. }
  intros services. apply steps_bind; [apply steps_each; intros s; by apply steps_run, docker_keeps|]. intros _.
  apply steps_each. intros s. unfold await_health. cbn. intros t. apply steps_health.
Qed.

Definition primary_label (primary : json) : option string := as_str (at_ SIDECAR_NETWORK_LABEL (at_ "Labels" (at_ "Config" primary))).

(** The containers a listing named were removed, or were gone already. *)
Definition list_args (label : string) : list string := ["ps"; "--all"; "--quiet"; "--filter"; "label=" +:+ label].

Definition swept (label : string) (log : list Did) : Prop :=
  exists rs, DidExec (docker_command (list_args label)) (Some (Ok rs)) ∈ log /\
    forall c, c ∈ split_whitespace (stdout_lossy rs) ->
      exists r, DidExec (docker_command (remove_args c)) (Some (Ok r)) ∈ log /\ (success r = true \/ says "No such container" r = true).

Lemma swept_sub label l1 l2 : l1 ⊆ l2 -> swept label l1 -> swept label l2.
Proof.
  intros Hs (rs & Hrs & Hall). exists rs. split; [by apply Hs|]. intros c Hc. destruct (Hall c Hc) as (r & Hr & Ho).
  exists r. split; [by apply Hs|done].
Qed.

Lemma remove_ok c w w' log : perform (remove c) w = (w', log, Ok tt) ->
  exists r, DidExec (docker_command (remove_args c)) (Some (Ok r)) ∈ log /\ (success r = true \/ says "No such container" r = true).
Proof.
  unfold remove, exec_via. intros (w1 & log1 & r & log2 & H1 & H2 & ->)%perform_bind_ok. cbn [perform] in H1.
  destruct (m_exec _ _ _ w) as [w1' [[x|e]|]]; cbn in H1; [|done..]. injection H1 as <- <- <-.
  exists x. split; [set_solver|]. unfold remove_result in H2. destruct (success x) eqn:Ex; [by left|]. right.
  destruct (says _ x); [done|]. unfold checked in H2. by rewrite Ex in H2.
Qed.

Lemma sweep_ok label w w' log : perform (cli! actions := ids label in for_each remove actions) w = (w', log, Ok tt) -> swept label log.
Proof.
  intros (w1 & log1 & l & log2 & (rs & -> & ->)%ids_ok & H2 & ->)%perform_bind_ok. exists rs. split; [set_solver|].
  intros c Hc. destruct (perform_each_ok _ _ _ _ _ H2 c Hc) as (w3 & w4 & log3 & (r & Hr & Ho)%remove_ok & Hsub).
  exists r. split; [|done]. set_solver.
Qed.

Definition bootstrap_spec : ExecSpec := with_program "start-docker" (spec_timeout (Some START_TIMEOUT) (docker_command [])).

Lemma bootstrap_ok u w w' log : perform bootstrap w = (w', log, Ok u) -> did_run bootstrap_spec log.
Proof. unfold bootstrap. intros (w1 & log1 & r & log2 & [-> Hr]%run_spec_ok & _ & ->)%perform_bind_ok. exists r. split; [set_solver|done]. Qed.

Lemma stale_ok u w w' log : perform clean_stale_preparation w = (w', log, Ok u) -> did_run stale_spec log.
Proof.
  unfold clean_stale_preparation. intros (w8 & l8 & x & l9 & H8 & H9 & ->)%perform_bind_ok. unfold exec_within in H8. cbn [perform] in H8.
  destruct (m_exec _ _ _ w) as [w1' [[y|e]|]]; cbn in H8; [|done..]. injection H8 as <- <- <-.
  apply perform_bind_ok in H9 as (w9 & l10 & z & l11 & H9 & _ & ->). unfold checked in H9. destruct (success y) eqn:Ey; [|done].
  exists y. split; [set_solver|done].
Qed.

(** The services of the network of a primary that has one: each that was listed had been
    started, and then seen healthy. *)
Definition services_up (primary : json) (log : list Did) : Prop :=
  forall network, primary_label primary = Some network ->
    exists rs, DidExec (docker_command (list_args (NETWORK_LABEL +:+ "=" +:+ network))) (Some (Ok rs)) ∈ log /\
      forall s, s ∈ split_whitespace (stdout_lossy rs) -> did_run (docker_command (start_args s)) log /\ seen_healthy s log.

(** The container target, recovered. *)
Definition recovered (state : Generation) (log : list Did) : Prop :=
  exists before r1 r2, log = before ++ [DidExec (docker_command (start_args CONTAINER_NAME)) (Some (Ok r1)); DidExec (docker_command runtime_args) (Some (Ok r2))] /\
    success r1 = true /\ success r2 = true /\
    exists rp primary id, DidExec (docker_command (inspect_args CONTAINER_NAME)) (Some (Ok rp)) ∈ before /\ parse_inspect from_slice rp = Ok primary /\
      container_id primary = Ok id /\ (state = Restarted -> swept (ONE_SHOT_LABEL +:+ "=" +:+ id) before) /\ services_up primary before.

Lemma recover_ok fuel (state : Generation) w w' log :
  perform (recover_container_target from_slice fuel out (bool_decide (state = Restarted))) w = (w', log, Ok tt) -> recovered state log.
Proof.
  unfold recover_container_target. intros (w3 & log5 & primary & log6 & (rp & -> & Hp)%inspect_ok & Hr & ->)%perform_bind_ok.
  apply perform_bind_ok in Hr as (w4 & log7 & id & log8 & Hid & Hr & ->).
  apply perform_bind_ok in Hr as (w5 & log9 & [] & log10 & Hsw & Hr & ->).
  apply perform_bind_ok in Hr as (w6 & log11 & [] & log12 & Hs & Hr & ->).
  apply perform_bind_ok in Hr as (w7 & log13 & [] & log14 & H13 & H14 & ->).
  apply cli_run_ok in H13 as (r1 & -> & Hr1). apply cli_run_ok in H14 as (r2 & -> & Hr2). unfold clift in Hid. cbn in Hid. injection Hid as <- <- Hid.
  exists ([DidExec (docker_command (inspect_args CONTAINER_NAME)) (Some (Ok rp))] ++ log9 ++ log11), r1, r2.
  split; [by rewrite <- !app_assoc|]. split; [done|]. split; [done|]. exists rp, primary, id.
  split; [set_solver|]. split; [done|]. split; [done|]. split.
  - intros ->. rewrite bool_decide_eq_true_2 in Hsw by done. eapply swept_sub; [|by eapply sweep_ok]. set_solver.
  - intros network Hl. unfold primary_label in Hl. rewrite Hl in Hs.
    apply restart_ok in Hs as (rs & Hrs & Hall). exists rs. split; [unfold list_args; set_solver|]. intros s Hin. destruct (Hall s Hin) as [Hd He].
    split; [eapply did_run_sub; [|exact Hd]|eapply seen_healthy_sub; [|exact He]]; set_solver.
Qed.

End Readiness.

(** ** The wait for health ends *)

Section HealthEnds.
Context {W : Type} `{Machine W} (from_slice : bytes -> result (list json) string).
(** Time passes at least as a pause says, and never goes back. *)
Hypothesis exec_later : forall via spec limit w, m_clock w <= m_clock (fst (m_exec via spec limit w)).
Hypothesis sleep_later : forall d w, m_clock w + d <= m_clock (m_sleep d w).

Definition polls (left : Z) : nat := Z.to_nat ((left + 249) / 250).

Lemma polls_less a b c : a <= b -> b < c -> forall d, b + 250 <= d -> (polls (c - d) < polls (c - a))%nat.
Proof.
  intros Hab Hbc d Hd. unfold polls. pose proof (Z.div_le_lower_bound (c - a + 249) 250 1 ltac:(lia) ltac:(lia)).
  pose proof (Z.div_le_mono (c - d + 249) (c - a + 249 + -1 * 250) 250 ltac:(lia) ltac:(lia)) as Hm. rewrite Z.div_add in Hm by lia. lia.
Qed.

Lemma health_ends f1 f2 out1 out2 deadline s w : (polls (deadline - m_clock w) < f1)%nat -> (polls (deadline - m_clock w) < f2)%nat ->
  perform (await_health_from from_slice out1 f1 deadline s) w = perform (await_health_from from_slice out2 f2 deadline s) w.
Proof.
  revert f2 w. induction f1 as [|f1 IH]; intros [|f2] w H1 H2; [lia..|]. cbn [await_health_from perform]. unfold cbind. rewrite !perform_then.
  unfold exec_within. cbn [perform]. pose proof (exec_later Plain (docker_command (inspect_args s)) (Some (Z.max 0 (deadline - m_clock w))) w) as Ht.
  destruct (m_exec _ _ _ w) as [w1 answer]. cbn [fst] in Ht. destruct (default _ answer) as [r|e]; [|done]. rewrite !perform_then.
  unfold checked. destruct (success r); cbn [perform cret cthrow]; [|done]. rewrite !perform_then. unfold clift. cbn [perform].
  destruct (parse_inspect from_slice r) as [v|e]; [|done]. cbv zeta. destruct (as_str _) as [h|]; [|done].
  destruct (String.eqb h "healthy"); [done|]. destruct (String.eqb h "unhealthy"); [done|]. cbn [perform].
  destruct (bool_decide _ || (deadline <=? m_clock w1)) eqn:Ed; [done|]. cbn [perform]. apply orb_false_iff in Ed as [_ Ed%Z.leb_gt].
  pose proof (sleep_later 250 w1) as Hs. rewrite (IH f2); [done|..].
  all: enough (polls (deadline - m_clock (m_sleep 250 w1)) < polls (deadline - m_clock w))%nat by lia; by apply (polls_less _ (m_clock w1)).
Qed.

(** The polls that fit before the deadline are enough. *)
Lemma await_health_ends f1 f2 out1 out2 s w : (1200 < f1)%nat -> (1200 < f2)%nat ->
  perform (await_health from_slice f1 out1 s) w = perform (await_health from_slice f2 out2 s) w.
Proof.
  intros H1 H2. unfold await_health. cbn [perform]. apply health_ends; replace (m_clock w + HEALTH_TIMEOUT - m_clock w) with HEALTH_TIMEOUT by lia; assumption.
Qed.
End HealthEnds.

(** ** Pulls and their credentials *)

Section Pulls.
Context {W : Type} `{Machine W}.

(** The commands of a pull: a password is in the standard input of the login only. *)
Definition pull_step (nonce image : string) (auth : option RegistryAuth) (platform : option string) (spec : ExecSpec) : Prop :=
  spec = docker_command ["image"; "inspect"; image] \/
  spec = env_var "DOCKER_CONFIG" (pull_config nonce) (docker_command (pull_args image platform)) \/
  exists a, auth = Some a /\ spec = login (pull_config nonce) a.

Lemma steps_pull nonce image auth platform :
  steps_ok (pull_step nonce image auth platform) (fun op => op = DeleteAll (pull_config nonce) /\ auth <> None) (pull nonce image auth platform).
Proof.
  unfold pull. apply steps_bind.
  { unfold image_present. apply steps_bind; [split; [by left|done]|]. intros r. destruct (success r); [done|]. destruct (says _ r); [done|].
    apply steps_bind; [apply steps_checked|done]. }
  intros [|]; [done|]. cbv zeta. unfold run_owned. apply steps_then.
  - apply steps_bind.
    + destruct auth as [a|]; [|done]. apply steps_bind; [split; [right; right; by exists a|done]|]. intros r. apply steps_bind; [apply steps_checked|done].
    + intros _. apply steps_bind; [split; [right; by left|done]|]. intros r. apply steps_bind; [apply steps_checked|done].
  - intros r. apply steps_then; [destruct auth; [by split|done]|]. intros c. by destruct r, c.
Qed.

(** The credentials of a pull reach the registry's login by its standard input and no
    command by its arguments or environment, are kept in a directory of the pull's own,
    and that is deleted in the end, whatever failed. *)
Theorem pull_credentials nonce image auth platform w :
  let '(w', log, r) := perform (pull nonce image (Some auth) platform) w in
  Forall (did_ok (pull_step nonce image (Some auth) platform) (fun op => op = DeleteAll (pull_config nonce))) log /\
  (exists answer, log = [DidExec (docker_command ["image"; "inspect"; image]) answer] \/
    exists rest, log = DidExec (docker_command ["image"; "inspect"; image]) answer :: rest ++ [DidFiles (DeleteAll (pull_config nonce))]).
Proof.
  pose proof (steps_log _ _ _ w (steps_pull nonce image (Some auth) platform)) as Hl.
  destruct (perform _ w) as [[w' log] r] eqn:E. cbn in Hl. split.
  { eapply Forall_impl; [exact Hl|]. intros [spec a|op|d]; cbn; [done|by intros [-> _]|done]. }
  unfold pull, cbind in E. rewrite perform_then in E. unfold image_present, exec_via, cbind in E. cbn [cthen perform] in E.
  destruct (m_exec Plain _ None w) as [w1 answer]. exists answer. destruct (default _ answer) as [x|e]; [|injection E as <- <- <-; by left].
  destruct (success x) eqn:Ex; [injection E as <- <- <-; by left|]. destruct (says "No such image" x).
  - cbn [perform cret] in E. cbv zeta in E. unfold run_owned in E. rewrite perform_then in E.
    destruct (perform _ w1) as [[w2 log2] r2]. rewrite perform_then in E. unfold files_within in E. cbn [perform] in E.
    destruct (m_files _ _ w2) as [w3 a3].
    right. exists log2. destruct r2 as [v|e2]; [destruct (default (Err cleanup_late) a3)|]; cbn in E; by injection E as <- <- <-.
  - unfold checked in E. rewrite Ex in E. cbn in E. injection E as <- <- <-. by left.
Qed.
End Pulls.

(** ** The workspace's mount *)

(** A record of comma-separated values, as RFC 4180 has it. *)
Inductive CsvState := CsvStart | CsvPlain | CsvQuoted | CsvQuote.

Fixpoint csv (st : CsvState) (acc s : string) : option (list string) :=
  let add a := acc +:+ String a EmptyString in
  match s with
  | EmptyString => match st with CsvQuoted => None | _ => Some [acc] end
  | String a s =>
      let quote := Ascii.eqb a quote_char in
      let comma := Ascii.eqb a ","%char in
      match st with
      | CsvStart | CsvPlain =>
          if comma then cons acc <$> csv CsvStart EmptyString s
          else if quote then match st with CsvStart => csv CsvQuoted EmptyString s | _ => None end
          else if Ascii.eqb a (char 10) || Ascii.eqb a (char 13) then None
          else csv CsvPlain (add a) s
      | CsvQuoted => if quote then csv CsvQuote acc s else csv CsvQuoted (add a) s
      | CsvQuote => if quote then csv CsvQuoted (add a) s else if comma then cons acc <$> csv CsvStart EmptyString s else None
      end
  end.

Lemma str_snoc acc a f : (acc +:+ String a EmptyString) +:+ f = acc +:+ String a f.
Proof. induction acc as [|b acc IH]; cbn; [done|]. by rewrite <- IH. Qed.

Lemma str_app a b c : (a +:+ b) +:+ c = a +:+ (b +:+ c).
Proof. induction a as [|x a IH]; cbn; [done|]. by rewrite <- IH. Qed.

Lemma str_nil a : a +:+ EmptyString = a.
Proof. induction a as [|x a IH]; cbn; [done|]. by rewrite IH. Qed.

Lemma csv_doubled f acc rest : csv CsvQuoted acc (doubled f +:+ String quote_char rest) = csv CsvQuote (acc +:+ f) rest.
Proof.
  revert acc. induction f as [|a f IH]; intros acc; [by rewrite str_nil|]. cbn [doubled].
  destruct (Ascii.eqb a quote_char) eqn:E.
  - apply Ascii.eqb_eq in E as ->. change (csv CsvQuoted acc (String quote_char (String quote_char (doubled f) +:+ String quote_char rest)) = csv CsvQuote (acc +:+ String quote_char f) rest).
    cbn [csv]. rewrite Ascii.eqb_refl. change (String quote_char (doubled f) +:+ String quote_char rest) with (String quote_char (doubled f +:+ String quote_char rest)).
    cbn [csv]. rewrite Ascii.eqb_refl, IH. by rewrite str_snoc.
  - change (csv CsvQuoted acc (String a (doubled f +:+ String quote_char rest)) = csv CsvQuote (acc +:+ String a f) rest).
    cbn [csv]. rewrite E, IH. by rewrite str_snoc.
Qed.

Definition plain_char (a : ascii) : bool := negb (existsb (Ascii.eqb a) [","%char; quote_char; char 10; char 13]).

Lemma plain_char_spec a : plain_char a = true ->
  Ascii.eqb a ","%char = false /\ Ascii.eqb a quote_char = false /\ Ascii.eqb a (char 10) || Ascii.eqb a (char 13) = false.
Proof. unfold plain_char. cbn [existsb]. intros Hp. apply negb_true_iff in Hp. repeat (apply orb_false_iff in Hp as [? Hp]). split_and!; [done..|]. by apply orb_false_iff. Qed.

Lemma csv_plain f acc rest : all_chars plain_char f = true -> csv CsvPlain acc (f +:+ rest) = csv CsvPlain (acc +:+ f) rest.
Proof.
  revert acc. induction f as [|a f IH]; intros acc; [by rewrite str_nil|]. cbn [all_chars]. intros [(H1 & H2 & H3)%plain_char_spec Hf]%andb_true_iff.
  change (csv CsvPlain acc (String a (f +:+ rest)) = csv CsvPlain (acc +:+ String a f) rest). cbn [csv]. rewrite H1, H2, H3, IH by done. by rewrite str_snoc.
Qed.

(** A field is read back, at the end or before the next one. *)
Lemma csv_read f : f <> EmptyString ->
  csv CsvStart EmptyString (csv_field f) = Some [f] /\
  forall rest, csv CsvStart EmptyString (csv_field f +:+ "," +:+ rest) = cons f <$> csv CsvStart EmptyString rest.
Proof.
  intros Hf. unfold csv_field. destruct (needs_quotes f) eqn:En.
  - assert (Hq : forall s, csv CsvStart EmptyString (String quote_char s) = csv CsvQuoted EmptyString s) by done. split.
    + by rewrite Hq, csv_doubled.
    + intros rest. change (String quote_char (doubled f +:+ String quote_char EmptyString) +:+ "," +:+ rest)
        with (String quote_char ((doubled f +:+ String quote_char EmptyString) +:+ "," +:+ rest)).
      rewrite Hq, str_app. change (String quote_char EmptyString +:+ "," +:+ rest) with (String quote_char ("," +:+ rest)). by rewrite csv_doubled.
  - unfold needs_quotes in En. apply negb_false_iff in En. change (all_chars plain_char f = true) in En.
    destruct f as [|a f]; [done|]. pose proof En as Ea. cbn [all_chars] in Ea. apply andb_true_iff in Ea as [(H1 & H2 & H3)%plain_char_spec Ha].
    assert (Hs : forall s, csv CsvStart EmptyString (String a f +:+ s) = csv CsvPlain (String a f) s).
    { intros s. change (csv CsvStart EmptyString (String a (f +:+ s)) = csv CsvPlain (String a f) s). cbn [csv]. rewrite H1, H2, H3. by apply (csv_plain f (String a EmptyString)). }
    split; [transitivity (csv CsvStart EmptyString (String a f +:+ EmptyString)); [by rewrite str_nil|by rewrite Hs]|]. intros rest. by rewrite Hs.
Qed.

(** Whatever the workspace's path holds, the mount that is asked for is of that path, at
    that path: no character of it begins another option. *)
Theorem mount_read path :
  csv CsvStart EmptyString (workspace_mount path) = Some ["type=bind"; "source=" +:+ path; "target=" +:+ path].
Proof.
  unfold workspace_mount. rewrite (proj2 (csv_read "type=bind" ltac:(done))), (proj2 (csv_read ("source=" +:+ path) ltac:(done))).
  by rewrite (proj1 (csv_read ("target=" +:+ path) ltac:(done))).
Qed.

(** ** One-shot containers are removed *)

(** The container of a run is removed in the end, whatever the run came to. *)
Lemma action_removed {W} `{Machine W} name args stopped race elapsed w :
  let '(w', log, r) := perform (run_owned (action_run args stopped race elapsed) (remove_within name)) w in
  exists before answer, log = before ++ [DidExec (docker_command (remove_args name)) answer].
Proof.
  unfold run_owned. rewrite perform_then. destruct (perform (action_run _ _ _ _) w) as [[w1 log1] r1]. rewrite perform_then.
  unfold remove_within, exec_within, cbind. rewrite perform_then. cbn [perform].
  destruct (m_exec Plain _ _ w1) as [w2 answer].
  assert (Hr : exists r0, perform (match default (Err cleanup_late) answer with Ok a => remove_result a | Err e => CDone (Err e) end) w2 = (w2, [], r0)).
  { destruct (default _ answer) as [x|e]; [|by eexists]. unfold remove_result, checked, cbind.
    destruct (_ || _); [by eexists|]. destruct (success x); by eexists. }
  destruct Hr as [r0 ->]. destruct r1 as [s|e]; [destruct r0|]; cbn; by exists log1, answer.
Qed.

(** ** Examples *)

(** A sandbox that answers from a list, and then with success; time stands but for pauses. *)
Definition demo_ok : ExecResult := mkResult [] [] (Some 0) None Exited 1.
Definition demo_says (text : string) : result ExecResult Error := Ok (mkResult (to_bytes text) [] (Some 0) None Exited 1).
Definition demo_fails (text : string) : result ExecResult Error := Ok (mkResult [] (to_bytes text) (Some 1) None Exited 1).

#[local] Instance demo_machine : Machine (list (result ExecResult Error) * Z) := {|
  m_exec _ _ _ w := match w with (a :: l, t) => (l, t, Some a) | ([], t) => ([], t, Some (Ok demo_ok)) end;
  m_files _ _ w := (w, Some (Ok tt));
  m_sleep d w := (fst w, snd w + Z.max 0 d);
  m_clock w := snd w;
|}.

(** Inspections: of the primary container, and of a service that starts and is healthy. *)
Definition demo_health (health : string) : json := JObj [("State", JObj [("Running", JBool true); ("Health", JObj [("Status", JStr health)])])].
Definition demo_primary : json :=
  JObj [("Id", JStr "c0"); ("Config", JObj [("Labels", JObj [(SIDECAR_NETWORK_LABEL, JStr "net")])]);
        ("NetworkSettings", JObj [("Networks", JObj [("net", JObj [])])])].
Definition demo_slice (bs : bytes) : result (list json) string :=
  if decide (bs = to_bytes "primary") then Ok [demo_primary] else Ok [demo_health (from_utf8_lossy bs)].

Definition demo_restart : list (result ExecResult Error) :=
  [Ok demo_ok; Ok demo_ok; demo_says "primary"; demo_says "a1"; demo_fails "No such container"; demo_says "s1"; Ok demo_ok; demo_says "starting"; demo_says "healthy"].

Definition verbs (log : list Did) : list string :=
  omap (fun d => match d with DidExec spec _ => match args spec with a :: _ => Some a | [] => Some (program spec) end | _ => None end) log.

(** After a stop: the actions left are removed, the service is healthy before the primary starts. *)
Example restart_order :
  let '(w, log, r) := perform (ensure_ready demo_slice 1201 (InvalidSpec "" "") TargetContainer Restarted) (demo_restart, 0) in
  r = Ok tt /\ verbs log = ["start-docker"; "-c"; "inspect"; "ps"; "rm"; "ps"; "start"; "inspect"; "inspect"; "start"; "exec"].
Proof. vm_compute. by split. Qed.


(** On a virtual machine the actions left are removed as well. *)
Example vm_restart_order :
  let '(w, log, r) := perform (ensure_ready demo_slice 1201 (InvalidSpec "" "") TargetVirtualMachine Restarted) ([Ok demo_ok; Ok demo_ok; demo_says "a1 a2"], 0) in
  r = Ok tt /\ verbs log = ["start-docker"; "-c"; "ps"; "rm"; "rm"].
Proof. vm_compute. by split. Qed.

(** [auto_pull] is of the primary's image only: a service's is pulled without it. *)
Lemma sidecars_pulled :
  let config := mkNestedConfig "job" TargetContainer None (mkProviderConfig false false false false None [] [] [] [] None [sidecar_new "db" "postgres"]) in
  let '(w, log, r) := perform (create_nested demo_slice 1201 (InvalidSpec "" "") (fun _ => "0") "/work" config ∅)
    ([Ok demo_ok; Ok demo_ok; Ok demo_ok; Ok demo_ok; demo_fails "No such image"], 0) in
  r = Ok tt /\ existsb (fun d => match d with DidExec spec _ => bool_decide (args spec = ["pull"; "postgres"]) | _ => false end) log = true /\
  existsb (fun d => match d with DidExec spec _ => bool_decide (args spec = ["pull"; "job"]) | _ => false end) log = false.
Proof. vm_compute. by split_and!. Qed.

Example mount_of_comma : workspace_mount "/a,b" = "type=bind," +:+ dq "`source=/a,b`,`target=/a,b`".
Proof. reflexivity. Qed.
